(* ===== verification/_CoqProject ===== *)
-Q . S2P
Prelude.v
Rand.v
Float64.v
Alloc.v
Signal.v
Corpus.v
BisectSlice.v
Heatmap.v
Bytes.v
Types.v
Prog.v
ExampleTarget.v
TypeWalk.v
Resources.v
Rotation.v
Prio.v
Defaults.v
ProgEdit.v
Clone.v
WellFormed.v
Layers.v
Collide.v
Size.v
SizeDom.v
Expr.v
Validation.v
Typing.v
ArgTree.v
MinimizePaths.v
Conditions.v
Minimize.v
MinimizeCalls.v
MinimizeArgs.v
MinimizeSpec.v
Analysis.v
Hints.v
Mutation.v
Text.v
RandData.v
Generate.v
GenGrow.v
GenTypes.v
GenSpec.v
Squash.v
Mutate.v
MutateSpec.v
MutateProg.v
AnySpec.v
MutateWf.v
SquashSpec.v
Fallback.v
TextPrint.v
TextParse.v
TextRound.v
TextProg.v
LogParse.v
Checksum.v
ExecFormat.v
ExecDecode.v
ExecEncode.v
ExecSpec.v
PrioQueue.v
Gate.v
Db.v
