(* ===== verification/Prelude.v ===== *)
(** * Verification of the syzkaller core of SECT

    ** The program

    SECT is a kernel fuzzer that searches for concurrency bugs: a fork of syzkaller (Go,
    under src/syzkaller), an eBPF scheduler (src/scheduler) and an LLVM pass
    (src/instrumentation).  The fuzzer generates and mutates _programs_, sequences of system
    calls described by a table of types, sends them to an executor in a binary format,
    collects the coverage as _signal_, and keeps the programs with new signal in a corpus
    that is stored in a database.  SECT's own addition is prog/collide.go, which marks calls
    as asynchronous and duplicates pairs of them so that the scheduler has calls to interleave.

    The parts interact as follows.  The descriptions (prog/types.go) say which arguments a
    call has; programs (prog/prog.go) are trees of arguments of these types, linked by
    results.  prog/resources.go and prog/prio.go decide from the descriptions which calls can
    be used and which ones are used together, prog/rotation.go picks random subsets of them;
    prog/rand.go and prog/generation.go generate programs.  Editing
    (prog/prog.go), copying (prog/clone.go), mutating (prog/mutation.go, prog/hints.go,
    prog/heatmap.go), colliding (prog/collide.go) and minimizing (prog/minimization.go)
    programs all have to keep the links, the lengths (prog/size.go) and the conditions (prog/expr.go)
    right, which prog/validation.go checks.  prog/encodingexec.go, with prog/checksum.go,
    writes what the executor runs, prog/decodeexec.go reads it back, prog/encoding.go is the
    text format and prog/parse.go finds programs in the log of a crash.  pkg/ipc/gate.go bounds the number of executors, pkg/fuzzer/prio_queue.go
    orders the requests, pkg/signal, pkg/cover and pkg/fuzzer/corpus.go judge the results and
    pkg/db keeps them; pkg/bisect/minimize bisects the inputs of a crash.

    ** The files

    - [Prelude]: machine integers, results that may panic, loops, draws, generic lemmas on
      lists, finite maps, binary and weighted search, the hint databases and tactics.
    - [Rand]: the primitive draws of prog/rand.go; [Float64]: binary64 as far as mutation
      uses it, on the Standard Library's SpecFloat.
    - [Alloc]: prog/alloc.go; Module [MemAlloc] is the bitmap of the data area, Module
      [VmaAlloc] the pages.
    - [Signal]: Module [Sig] is pkg/signal/signal.go, Module [Cover] pkg/cover/cover.go.
    - [Corpus]: pkg/fuzzer/corpus.go as atomic steps on a state with an invariant.
    - [BisectSlice]: pkg/bisect/minimize/slice.go.
    - [Heatmap]: prog/heatmap.go.
    - [Bytes]: byte order, integer loads and stores (prog/mutation.go, encoding/binary).
    - [Types]: prog/types.go, the type and call descriptions.
    - [Prog]: prog/prog.go, the traversal of prog/analysis.go and the default arguments.
    - [ExampleTarget]: a small concrete target and program for witnesses.
    - [TypeWalk]: [foreachTypeImpl] of prog/types.go.
    - [Resources]: prog/resources.go; [Rotation]: prog/rotation.go.
    - [Prio]: prog/prio.go.
    - [Defaults]: default arguments and their recognition.
    - [ProgEdit]: [insertBefore], [replaceArg], [removeArg], [RemoveCall] of prog/prog.go.
    - [Clone]: prog/clone.go.
    - [Collide]: prog/collide.go.
    - [Size]: prog/size.go.
    - [Expr]: prog/expr.go.
    - [Validation]: prog/validation.go.
    - [WellFormed], [SizeDom], [Typing]: well-formed and well-typed programs, their links and
      their length fields under edits; [ArgTree]: paths into argument trees; [Layers]: results
      that only refer to results of earlier calls.
    - [Conditions]: default conditions of prog/expr.go.
    - [Minimize]: prog/minimization.go; [MinimizePaths], [MinimizeCalls], [MinimizeArgs]: its
      loops over paths, calls and arguments; [MinimizeSpec]: its correctness.
    - [Analysis]: what a program uses, the first half of prog/analysis.go.
    - [Squash]: prog/any.go, turning pointees into blobs; [SquashSpec]: the bytes stay.
    - [Fallback]: the features and the fallback signal of a program, the second half of
      prog/analysis.go.
    - [Hints]: prog/hints.go.
    - [RandData]: random integers, flags, file names and strings of prog/rand.go; [Generate]:
      the generation of arguments, calls and programs (prog/rand.go, prog/generation.go, the
      random half of prog/expr.go); [GenGrow]: what programs keep when arguments and calls are
      generated for them; [GenTypes], [GenSpec]: generated programs are well typed and linked.
    - [Mutation]: mutations of data and integers in prog/mutation.go; [Mutate]: the rest of it,
      the priorities, the mutation of arguments and of whole programs; [MutateSpec]: mutated
      arguments, [MutateProg]: the operations on programs, [AnySpec]: squashed pointers,
      [MutateWf]: mutated programs are well typed and linked.
    - [Text]: the lexical level of prog/encoding.go; [TextPrint]: its printer; [TextParse]: its
      parser and the completion of parsed programs; [TextRound], [TextProg]: printed
      arguments and programs are read back; [LogParse]: prog/parse.go.
    - [Checksum]: prog/checksum.go.
    - [ExecFormat]: the grammar of the executor format and the decoder prog/decodeexec.go;
      [ExecDecode]: the decoder inverts the grammar; [ExecEncode]: the serialiser
      prog/encodingexec.go; [ExecSpec]: the denotation of programs and the refinement of the
      serialiser to it.
    - [PrioQueue]: Module [HeapFun] is container/heap over an interface [WeakOrder] of
      comparisons, Module [PrioQueue] pkg/fuzzer/prio_queue.go, an instance of it.
    - [Gate]: pkg/ipc/gate.go, interleaved by an arbitrary scheduler.
    - [Db]: pkg/db/db.go over files whose operations may fail.

    ** Conventions

    - Machine integers are [Z] with the wrap-around written out ([+!], [-!], [*!] on
      [uint64], [wrapU] and [wrapS] for the other widths); [int] values that cannot overflow
      are plain [Z].
    - Go code that may panic returns [res]: [Ret], [Panic] with its reason, or [OutOfFuel].
      [let!] is its bind, [for_list] a loop over a slice.  Errors that the code returns are
      sums or options.
    - A pseudo random generator is the supply [rng] of its raw draws, threaded through the
      code in the order of the draws; statements hold for every supply.  The formula of
      [biasedRand] is evaluated in exact arithmetic instead of [float64]; the priorities of
      mutation are binary64 numbers with Go's rounding and Go's [math.Log].
    - Generation threads the draws, the state of the analysis and the heap ([gen], [let*]).
    - Types are links in the table [typeRefs]: a link is an index [Ref], so that equality of
      pointers is equality of indices.
    - Arguments are trees whose nodes carry an identity; the contents of result arguments,
      the only ones that are shared, live in a heap ([mem]).  Functions that mutate an
      argument in place return its new contents.
    - The order in which Go visits a map is a parameter (or an arbitrary enumeration), and
      so are compress/flate, the callbacks and the outcomes of file operations.
    - Code under a mutex is one atomic step; the gate, which waits on a condition variable,
      is split where the lock is released.

    ** Fuel

    Loops that are not structural run with fuel, and a theorem says that the fuel is
    enough: [MemAlloc.search] and [alloc] with the size of the bitmap plus one (an allocation
    retries once), [Slice] with the bound of [slice_sound], [searchLoop] with the length of
    the interval, [walkFuel] of [TypeWalk] with the number of (type, direction, optionality)
    triples that can be visited, [enableLoop] of [Resources] with the number of enabled calls
    plus one (every round but the last disables one), [DefaultArg] with the rank of a
    well-founded type, the decoder's [parse] and [Text.readString] with the length of the
    input plus one, [formatLoop] with 64 digits, [up] and [down] of the heap with its length,
    [findParent] with the number of parents plus one, [Minimize] with twice a bound on the
    paths and the depth of every call plus three, the text parser with the length of the line
    (every level of nesting and every turn of a loop reads a character) and the depth of the
    types for default values.  [mutateData] and [mutateBufferSize]
    end with probability one only: for them the theorem says that they cannot panic, that
    what they return is in bounds and that from every state some draws end them.  Generation,
    rotation and mutation also end with probability one only, as they draw until something
    fits: [fuel] bounds the nesting of arguments and [lfuel] the loops, the theorems hold for
    all of them and say what is returned, and the witnesses are runs that return.

    ** The theorems

    - The executor format ([exec_roundtrip], [exec_serialize_exact], [exec_decode_total]):
      serialising is writing the encoding of a denotation, decoding inverts it, and the
      decoder is total.
    - The text format ([text_roundtrip], [callSet_text]): the text of a program is parsed into
      a copy of it, and the parser that knows only lines and brackets agrees on its calls.
    - Well-formed programs ([validate_typed], [validate_linked], [validated_cloneable]):
      what an accepted program satisfies: types and links; [validate_addresses] adds addresses.
    - Generation ([generate_wellformed]): generated programs have the number of calls asked
      for, the types of the descriptions and links in both directions.
    - Mutation ([mutate_wellformed]): mutated programs are as well typed and linked as the
      program they are made from, and have at least one call and not too many; other programs
      do not change.
    - Editing, copying and minimizing ([clone_deep_copy], [removeCall_links],
      [minimize_correct], [removeCalls_sound]): deep copies, removals and minimization keep
      programs well formed, whatever the predicate answers.
    - Squashing ([squash_keeps_image]): a squashed pointee has the bytes and the results of
      the original.
    - Concurrency ([gate_safe], [gate_progress], [queue_refines_multiset]): safety and progress
      of the gate, and the queue.
    - Persistence ([db_durable], [db_crash_safe], [db_flush_retry_loses]): the database is a
      durable map, crashes lose no flushed record, and a retried flush after a short write
      does lose pending ones.
    - Memory ([alloc_first_fit], [vma_alloc_in_bounds]), descriptions ([enabled_calls_exact],
      [resources_exact], [choose_weighted], [rotation_sound]), logs ([parseLog_sections]),
      feedback ([minimize_covers], [merge_lub], [chooseProgram_weighted], [fallback_decodes]),
      bisection ([slice_minimal], [slice_sound]), colliding ([assignAsync_spaced],
      [dupCallSched_spec]), sizes ([sizes_structural], [len_field_value]), mutation
      ([hint_replacers], [mutateData_bounds]).

    ** Not modelled

    The jobs of pkg/fuzzer, the state of the hub and the initialisation of targets are not
    modelled; of prog/hints.go the last step, which runs every mutant, is not.  Generation and
    mutation are proved for an empty corpus (without [resourceCentric] and [splice], which are
    modelled) and mutation without special mutations.
    The text format is proved to be read back in its verbose form; the compact form, which
    leaves out default values, is modelled only.  The
    description compiler (pkg/compiler) produces the tables the model takes as given.  The
    managers, web services, drivers of virtual machines, report parsers and tools are input
    and output around these packages; the executor, the eBPF scheduler and the LLVM pass are
    C and C++. *)

From stdpp Require Export base list list_numbers gmap strings sorting.
From Stdlib Require Export ZArith Lia.

#[export] Set Default Goal Selector "!".
#[global] Open Scope Z_scope.

(** ** Machine integers *)

(** Go's [uintN] wrap-around and the two's complement reading of [intN]. *)
Definition wrapU (w z : Z) : Z := z `mod` 2 ^ w.
Definition wrapS (w z : Z) : Z := (z + 2 ^ (w - 1)) `mod` 2 ^ w - 2 ^ (w - 1).

Definition add64 (x y : Z) : Z := wrapU 64 (x + y).
Definition sub64 (x y : Z) : Z := wrapU 64 (x - y).
Definition mul64 (x y : Z) : Z := wrapU 64 (x * y).
Definition shl64 (x n : Z) : Z := wrapU 64 (Z.shiftl x n).
Definition not64 (x : Z) : Z := wrapU 64 (Z.lnot x).

Declare Scope u64_scope.
Delimit Scope u64_scope with u64.
Infix "+!" := add64 (at level 50, left associativity) : u64_scope.
Infix "-!" := sub64 (at level 50, left associativity) : u64_scope.
Infix "*!" := mul64 (at level 40, left associativity) : u64_scope.
#[global] Open Scope u64_scope.

(** The range of a [w]-bit unsigned integer. *)
Definition is_u (w z : Z) : Prop := 0 ≤ z < 2 ^ w.

#[global] Instance is_u_dec w z : Decision (is_u w z) := _.

(** ** Results of Go code that may panic *)

Inductive res (A : Type) : Type :=
| Ret (a : A)
| Panic (why : string)
| OutOfFuel.
Arguments Ret {A} a.
Arguments Panic {A} why.
Arguments OutOfFuel {A}.

Definition rbind {A B} (m : res A) (f : A → res B) : res B :=
  match m with
  | Ret a => f a
  | Panic w => Panic w
  | OutOfFuel => OutOfFuel
  end.

Notation "'let!' x := m 'in' k" := (rbind m (λ x, k))
  (at level 200, x binder, m at level 100, k at level 200, right associativity).
Notation "'let!' ' p := m 'in' k" := (rbind m (λ x, match x with p => k end))
  (at level 200, p strict pattern, m at level 100, k at level 200, right associativity).

(** [for _, x := range l { s = f x s }] *)
Fixpoint for_list {A S} (f : A → S → res S) (l : list A) (s : S) : res S :=
  match l with
  | [] => Ret s
  | x :: l => let! s' := f x s in for_list f l s'
  end.

(** Slice and array indexing: out of range is a run-time panic. *)
Definition index {A} (l : list A) (i : Z) : res A :=
  if decide (0 ≤ i) then
    match l !! Z.to_nat i with
    | Some x => Ret x
    | None => Panic "index out of range"
    end
  else Panic "index out of range".

(** ** Random numbers *)

(** [math/rand] as an arbitrary supply of raw draws; [intn] reduces the next
    draw to the range asked for, so that every sequence of in-range answers of
    [rand.Rand.Intn] is obtained from some supply. *)
Definition rng := list Z.
Definition intn (n : Z) (r : rng) : res (Z * rng) :=
  if decide (n ≤ 0) then Panic "invalid argument to Intn"
  else match r with
       | [] => Ret (0, [])
       | x :: r => Ret (x `mod` n, r)
       end.

(** ** Lemmas on machine integers *)

Lemma wrapU_small w z : is_u w z → wrapU w z = z.
Proof. apply Z.mod_small. Qed.

Lemma wrapU_range w z : 0 ≤ w → is_u w (wrapU w z).
Proof. intros. apply Z.mod_pos_bound. lia. Qed.

Lemma add64_small x y : 0 ≤ x + y < 2 ^ 64 → x +! y = x + y.
Proof. apply wrapU_small. Qed.

Lemma sub64_small x y : 0 ≤ x - y < 2 ^ 64 → x -! y = x - y.
Proof. apply wrapU_small. Qed.

Lemma mul64_small x y : 0 ≤ x * y < 2 ^ 64 → x *! y = x * y.
Proof. apply wrapU_small. Qed.

Lemma shl64_small x n : 0 ≤ n → 0 ≤ x * 2 ^ n < 2 ^ 64 → shl64 x n = x * 2 ^ n.
Proof. intros. unfold shl64. rewrite Z.shiftl_mul_pow2 by done. by apply wrapU_small. Qed.

(** Linear arithmetic with division and remainder by constants. *)
Ltac dlia := zify; Z.to_euclidean_division_equations; lia.

(** Discharge wrap-arounds that do not happen. *)
Ltac no_wrap :=
  repeat match goal with
    | |- context [?x +! ?y] => rewrite (add64_small x y) by (lia || dlia)
    | |- context [?x -! ?y] => rewrite (sub64_small x y) by (lia || dlia)
    | |- context [?x *! ?y] => rewrite (mul64_small x y) by (lia || dlia)
    end.

(** ** Automation *)

(** Lengths of lists built by the usual operations. *)
Create HintDb lens.
#[export] Hint Rewrite @length_app @length_take @length_drop @length_replicate @length_insert @length_fmap
  @length_reverse @length_zip_with @length_seq : lens.
Ltac lens := autorewrite with lens; simpl; lia.

(** Properties of all elements of such lists, and ranges of machine integers. *)
Create HintDb elems.
#[export] Hint Resolve Forall_take Forall_drop Forall_insert Forall_app_2 Forall_cons_2 Forall_nil_2 wrapU_range : elems.

(** ** Lemmas on loops and results *)

Lemma bind_Ret {A B} (m : res A) (f : A → res B) b :
  rbind m f = Ret b ↔ ∃ a, m = Ret a ∧ f a = Ret b.
Proof. destruct m; simpl; naive_solver. Qed.

(** Code that does not panic and whose results, if the fuel suffices, satisfy [P]. *)
Definition post {A} (x : res A) (P : A → Prop) : Prop :=
  match x with Ret y => P y | Panic _ => False | OutOfFuel => True end.

Lemma post_weaken {A} (x : res A) (P Q : A → Prop) : post x P → (∀ y, P y → Q y) → post x Q.
Proof. destruct x; simpl; auto. Qed.
Lemma post_bind {A B} (x : res A) (f : A → res B) (P : A → Prop) (Q : B → Prop) :
  post x P → (∀ y, P y → post (f y) Q) → post (rbind x f) Q.
Proof. destruct x; simpl; auto. Qed.
Lemma post_for {A S} (f : A → S → res S) (I : S → Prop) l :
  (∀ x s, x ∈ l → I s → post (f x s) I) → ∀ s, I s → post (for_list f l s) I.
Proof.
  induction l as [|x l IH]; intros Hf s Hs; simpl; [done|].
  eapply post_bind; [apply Hf; [left|done]|]. intros s1 Hs1. apply IH; [|done]. intros y s2 Hy. apply Hf. by right.
Qed.

Lemma for_list_app {A S} (f : A → S → res S) l1 l2 s :
  for_list f (l1 ++ l2) s = (let! s' := for_list f l1 s in for_list f l2 s').
Proof.
  revert s; induction l1 as [|x l1 IH]; intros s; simpl; [done|].
  destruct (f x s); simpl; auto.
Qed.

(** The invariant rule of a loop that never panics: [I done s] relates the
    elements already visited to the current state. *)
Lemma for_list_inv {A S} (I : list A → S → Prop) (f : A → S → res S) l s :
  I [] s →
  (∀ d x r s, l = d ++ x :: r → I d s → ∃ s', f x s = Ret s' ∧ I (d ++ [x]) s') →
  ∃ s', for_list f l s = Ret s' ∧ I l s'.
Proof.
  intros H0 Hstep.
  enough (∀ d r s, l = d ++ r → I d s → ∃ s', for_list f r s = Ret s' ∧ I l s') as H
    by (by apply (H [])).
  intros d r; revert d; induction r as [|x r IH]; intros d s' Hl HI; simpl.
  - rewrite app_nil_r in Hl; subst; eauto.
  - destruct (Hstep d x r s' Hl HI) as (s1 & -> & HI1); simpl.
    apply (IH (d ++ [x])); [by rewrite <-app_assoc|done].
Qed.

(** What the body keeps when it returns. *)
Lemma for_list_keeps {A S} (I : S → Prop) (f : A → S → res S) l : ∀ s s',
  (∀ x s s', x ∈ l → I s → f x s = Ret s' → I s') → I s → for_list f l s = Ret s' → I s'.
Proof.
  induction l as [|x l IH]; intros s s' Hf Hs H; simpl in H; [by injection H as <-|].
  apply bind_Ret in H as (s1 & H1 & H). eapply IH; [|eapply Hf; [left|exact Hs|exact H1]|exact H].
  intros y s2 s3 Hy. apply Hf. by right.
Qed.

(** A loop that returns still returns the same when its body is replaced by one
    that returns at least as often. *)
Lemma for_list_mono {A S} (f g : A → S → res S) l s s' :
  (∀ x s s', x ∈ l → f x s = Ret s' → g x s = Ret s') →
  for_list f l s = Ret s' → for_list g l s = Ret s'.
Proof.
  revert s; induction l as [|x l IH]; intros s Hfg; simpl; [done|].
  rewrite bind_Ret. intros (s1 & H1 & H2). rewrite (Hfg x s s1) by (set_solver || done). simpl.
  apply IH; [|done]. intros y t t' Hy. apply Hfg. set_solver.
Qed.

Lemma Forall_impl_in {A} (P Q : A → Prop) l : Forall P l → (∀ x, x ∈ l → P x → Q x) → Forall Q l.
Proof. rewrite !Forall_forall. eauto. Qed.

Lemma Forall2_impl_in {A B} (P Q : A → B → Prop) l k :
  Forall2 P l k → (∀ x y, x ∈ l → P x y → Q x y) → Forall2 Q l k.
Proof.
  induction 1 as [|x y l k Hxy _ IH]; intros H; constructor; [apply H; [apply list_elem_of_here|done]|].
  apply IH. intros a b Ha. apply H. by apply list_elem_of_further.
Qed.

(** Two loops whose bodies agree on the elements visited. *)
Lemma for_list_ext {A S} (f g : A → S → res S) l s :
  (∀ x s, x ∈ l → f x s = g x s) → for_list f l s = for_list g l s.
Proof.
  revert s; induction l as [|x l IH]; intros s Hfg; simpl; [done|].
  rewrite (Hfg x s) by set_solver. destruct (g x s); simpl; [|done|done].
  apply IH. intros y t Hy. apply Hfg. set_solver.
Qed.

Lemma bind_assoc {A B C} (m : res A) (f : A → res B) (g : B → res C) :
  (let! y := (let! x := m in f x) in g y) = (let! x := m in let! y := f x in g y).
Proof. by destruct m. Qed.

Lemma bind_ext {A B} (m : res A) (f g : A → res B) :
  (∀ x, m = Ret x → f x = g x) → (let! x := m in f x) = (let! x := m in g x).
Proof. destruct m; simpl; auto. Qed.

(** A loop over the images of the states of another loop. *)
Lemma for_list_embed {A S S'} (j : S' → S) (f : A → S → res S) (f' : A → S' → res S') l s :
  (∀ x s, x ∈ l → f x (j s) = (let! s := f' x s in Ret (j s))) →
  for_list f l (j s) = (let! s := for_list f' l s in Ret (j s)).
Proof.
  revert s; induction l as [|x l IH]; intros s Hf; simpl; [done|].
  rewrite Hf by set_solver. destruct (f' x s); simpl; [|done|done].
  apply IH. intros y t Hy. apply Hf. set_solver.
Qed.

Lemma for_list_embed_Ret {A S S'} (j : S' → S) (f : A → S → res S) (f' : A → S' → res S') l s s' :
  (∀ x s s', f' x s = Ret s' → f x (j s) = Ret (j s')) →
  for_list f' l s = Ret s' → for_list f l (j s) = Ret (j s').
Proof.
  intros Hf. revert s; induction l as [|x l IH]; intros s; simpl; [congruence|].
  intros H. apply bind_Ret in H as (s1 & H1 & H2). rewrite (Hf _ _ _ H1). simpl. auto.
Qed.

(** A loop over related elements. *)
Lemma for_list_Forall2 {A B S} (R : A → B → Prop) (f : A → S → res S) (g : B → S → res S) l l1 s s' :
  Forall2 R l l1 → (∀ x x1 s s', x ∈ l → R x x1 → f x s = Ret s' → g x1 s = Ret s') →
  for_list f l s = Ret s' → for_list g l1 s = Ret s'.
Proof.
  intros HR. revert s; induction HR as [|x x1 l l1 Hx HR IH]; intros s Hfg; simpl; [done|].
  intros H. apply bind_Ret in H as (s1 & H1 & H2). rewrite (Hfg x x1 s s1) by (set_solver || done).
  simpl. apply IH; [|done]. intros y y1 t t' Hy. apply Hfg. set_solver.
Qed.

Lemma for_list_fmap {A B S} (f : B → S → res S) (g : A → B) l s :
  for_list (λ x, f (g x)) l s = for_list f (g <$> l) s.
Proof. revert s; induction l as [|x l IH]; intros s; simpl; [done|]. destruct (f (g x) s); simpl; auto. Qed.

(** A loop that only acts on some of the elements. *)
Lemma for_list_omap {A B S} (g : A → option B) (f : B → S → res S) l s :
  for_list (λ x s, match g x with Some y => f y s | None => Ret s end) l s = for_list f (omap g l) s.
Proof.
  revert s; induction l as [|x l IH]; intros s; simpl; [done|].
  destruct (g x) as [b|]; simpl; [|done]. destruct (f b s); simpl; auto.
Qed.

(** Solve a hypothesis of the form [m = Ret x] by splitting its binds. *)
Ltac unbind :=
  repeat match goal with
    | H : rbind ?m _ = Ret _ |- _ =>
      let x := fresh "x" in let E := fresh "E" in
      apply bind_Ret in H as (x & E & H); cbn beta iota in H; try rewrite E; cbn [rbind]
    | H : Ret _ = Ret _ |- _ =>
      first [injection H as <- | injection H as -> | injection H as H]
    | H : Panic _ = Ret _ |- _ => discriminate H
    | H : OutOfFuel = Ret _ |- _ => discriminate H
    | x : _ * _ |- _ => destruct x
    end.

Lemma intn_total n r : 0 < n → ∃ x r', intn n r = Ret (x, r') ∧ 0 ≤ x < n.
Proof.
  intros Hn. unfold intn. rewrite decide_False by lia.
  destruct r as [|x r].
  - exists 0, []. split; [done|lia].
  - exists (x `mod` n), r. split; [done|]. by apply Z.mod_pos_bound.
Qed.

Lemma index_lookup {A} (l : list A) (i : nat) x :
  l !! i = Some x → index l (Z.of_nat i) = Ret x.
Proof.
  intros H. unfold index. rewrite decide_True by lia. by rewrite Nat2Z.id, H.
Qed.

Lemma index_total {A} (l : list A) (i : Z) :
  0 ≤ i < Z.of_nat (length l) → ∃ x, l !! Z.to_nat i = Some x ∧ index l i = Ret x.
Proof.
  intros Hi. destruct (lookup_lt_is_Some_2 l (Z.to_nat i)) as [x Hx]; [lia|].
  exists x; split; [done|]. unfold index. rewrite decide_True by lia. by rewrite Hx.
Qed.

(** ** Iterating over Go maps *)

(** An enumeration of the bindings of a map, as [for k, v := range m] visits
    them. *)
Definition enumerates {K V} `{Countable K} (range : gmap K V → list (K * V)) : Prop :=
  ∀ m, range m ≡ₚ map_to_list m.

Section keywise.
Context {K V A B : Type} `{Countable K}.
Variables (view : B → gmap K A) (f : B → K * V → B) (h : K → option A → V → option A).

(** The loop body only touches the binding of the key it visits. *)
Definition keywise : Prop := ∀ b k v k',
  view (f b (k, v)) !! k' = if decide (k = k') then h k (view b !! k) v else view b !! k'.

Lemma foldl_keywise (b : B) (l : list (K * V)) (k : K) :
  keywise → NoDup l.*1 →
  view (foldl f b l) !! k =
    match (list_to_map l : gmap K V) !! k with
    | Some v => h k (view b !! k) v
    | None => view b !! k
    end.
Proof.
  intros Hk. revert b; induction l as [|[k' v'] l IH]; intros b Hnd; simpl.
  { by rewrite lookup_empty. }
  apply NoDup_cons in Hnd as [Hni Hnd]. rewrite IH by done. rewrite Hk.
  rewrite lookup_insert. case_decide as E; [subst|done].
  rewrite (not_elem_of_list_to_map_1 l k) by done. done.
Qed.

Lemma foldl_range (range : gmap K V → list (K * V)) (m : gmap K V) (b : B) (k : K) :
  enumerates range → keywise →
  view (foldl f b (range m)) !! k =
    match m !! k with
    | Some v => h k (view b !! k) v
    | None => view b !! k
    end.
Proof.
  intros Hr Hk. assert (NoDup (range m).*1) as Hnd.
  { rewrite (Hr m). apply NoDup_fst_map_to_list. }
  rewrite foldl_keywise by done.
  by rewrite (list_to_map_proper _ (map_to_list m)), list_to_map_to_list by (done || apply Hr).
Qed.
End keywise.

(** ** [sort.Search] *)

(** Go's binary search for the smallest index in [[i, j)] with [f] true. *)
Fixpoint searchLoop (fuel : nat) (f : Z → bool) (i j : Z) : Z :=
  match fuel with
  | O => i
  | S fuel =>
    if decide (i < j) then
      let h := (i + j) `div` 2 in
      if f h then searchLoop fuel f i h else searchLoop fuel f (h + 1) j
    else i
  end.

Definition sortSearch (n : Z) (f : Z → bool) : Z := searchLoop (Z.to_nat n) f 0 n.

Lemma searchLoop_spec fuel f i j :
  0 ≤ i ≤ j → j - i ≤ Z.of_nat fuel →
  (∀ a b, i ≤ a ≤ b → b < j → f a = true → f b = true) →
  let k := searchLoop fuel f i j in
  i ≤ k ≤ j ∧ (∀ a, i ≤ a < k → f a = false) ∧ (k < j → f k = true).
Proof.
  intros Hij Hfuel Hmono. revert i j Hij Hfuel Hmono.
  induction fuel as [|fuel IH]; intros i j Hij Hfuel Hmono; simpl.
  { split_and!; lia. }
  case_decide; [|split_and!; lia].
  set (h := (i + j) `div` 2). assert (i ≤ h < j) by (unfold h; dlia).
  destruct (f h) eqn:Eh.
  - destruct (IH i h) as (Hk & Hlo & Hhi); [lia..|intros a b ??; apply Hmono; lia|].
    split_and!; [lia|lia|done|].
    intros Hkj. destruct (decide (searchLoop fuel f i h < h)); [auto|].
    by replace (searchLoop fuel f i h) with h by lia.
  - destruct (IH (h + 1) j) as (Hk & Hlo & Hhi); [lia..|intros a b ??; apply Hmono; lia|].
    split_and!; [lia|lia| |done].
    intros a Ha. destruct (decide (a ≤ h)); [|apply Hlo; lia].
    destruct (f a) eqn:Ea; [|done]. rewrite (Hmono a h) in Eh; [done|lia|lia|done].
Qed.

Lemma sortSearch_spec n f :
  0 ≤ n → (∀ a b, 0 ≤ a ≤ b → b < n → f a = true → f b = true) →
  let k := sortSearch n f in
  0 ≤ k ≤ n ∧ (∀ a, 0 ≤ a < k → f a = false) ∧ (k < n → f k = true).
Proof. intros Hn Hm. apply searchLoop_spec; [lia|lia|done]. Qed.

(** ** Sums *)

Definition sumZ (l : list Z) : Z := foldr Z.add 0 l.

Lemma sumZ_app l1 l2 : sumZ (l1 ++ l2) = sumZ l1 + sumZ l2.
Proof. induction l1; simpl; lia. Qed.

Lemma sumZ_nonneg l : Forall (λ x, 0 ≤ x) l → 0 ≤ sumZ l.
Proof. induction 1; simpl; lia. Qed.

Lemma sumZ_take_le l (i j : nat) :
  Forall (λ p, 0 ≤ p) l → (i ≤ j)%nat → sumZ (take i l) ≤ sumZ (take j l).
Proof.
  intros Hl. revert i j; induction Hl as [|p l Hp Hl IH]; intros i j Hij.
  - by rewrite !take_nil.
  - destruct i as [|i]; [|destruct j as [|j]; [lia|simpl; specialize (IH i j); lia]].
    rewrite take_0. apply sumZ_nonneg, Forall_take. by constructor.
Qed.

Lemma sumZ_take_S l (i : nat) p : l !! i = Some p → sumZ (take (S i) l) = sumZ (take i l) + p.
Proof. intros Hi. rewrite (take_S_r _ _ _ Hi), sumZ_app. simpl. lia. Qed.

(** ** Weighted choices *)

(** A binary search in the cumulated sums of the weights [ws]. *)
Section weighted.
Context (ws : list Z) (x : Z) (f : Z → bool).
Context (Hws : Forall (λ p, 0 ≤ p) ws) (Hx : 0 ≤ x ≤ sumZ ws) (Hne : ws ≠ []).
Context (Hf : ∀ i : nat, (i < length ws)%nat → f (Z.of_nat i) = bool_decide (x ≤ sumZ (take (S i) ws))).
Let k := sortSearch (Z.of_nat (length ws)) f.

Lemma search_sums :
  0 ≤ k < Z.of_nat (length ws) ∧ x ≤ sumZ (take (S (Z.to_nat k)) ws) ∧
  (k = 0 ∨ sumZ (take (Z.to_nat k) ws) < x).
Proof.
  assert (0 < length ws)%nat as Hpos by (destruct ws; simpl; [done|lia]).
  destruct (sortSearch_spec (Z.of_nat (length ws)) f) as (Hk & Hlo & Hhi); [lia| |].
  { intros a b Hab Hb. rewrite <-(Z2Nat.id a), <-(Z2Nat.id b), !Hf by lia. rewrite !bool_decide_eq_true.
    intros. etrans; [done|]. apply sumZ_take_le; [done|lia]. }
  fold k in Hk, Hlo, Hhi.
  assert (k < Z.of_nat (length ws)) as Hlt.
  { destruct (decide (k = Z.of_nat (length ws))) as [Ek|]; [|lia]. exfalso.
    assert (f (Z.of_nat (length ws - 1)) = false) as Hc by (apply Hlo; lia).
    rewrite Hf in Hc by lia. apply bool_decide_eq_false in Hc. apply Hc. rewrite take_ge by lia. lia. }
  split_and!; [lia|lia| |].
  - specialize (Hhi Hlt). rewrite <-(Z2Nat.id k), Hf in Hhi by lia. by apply bool_decide_eq_true in Hhi.
  - destruct (decide (k = 0)); [by left|right].
    assert (f (Z.of_nat (Z.to_nat k - 1)) = false) as Hc by (apply Hlo; lia). rewrite Hf in Hc by lia.
    apply bool_decide_eq_false in Hc. replace (S (Z.to_nat k - 1)) with (Z.to_nat k) in Hc by lia. lia.
Qed.

(** The choices that select [i]: an interval as long as its weight; the first one also
    takes the choice 0. *)
Lemma search_sums_iff (i : nat) :
  (i < length ws)%nat →
  k = Z.of_nat i ↔ (if decide (i = 0%nat) then -1 else sumZ (take i ws)) < x ≤ sumZ (take (S i) ws).
Proof.
  intros Hi. destruct search_sums as (Hk & Hhi & Hlo). split.
  - intros E. rewrite E, Nat2Z.id in Hhi, Hlo. case_decide; naive_solver lia.
  - intros [H1 H2]. destruct (decide (Z.to_nat k = i)) as [<-|Hn]; [lia|exfalso].
    destruct (decide (Z.to_nat k < i)%nat).
    + pose proof (sumZ_take_le ws (S (Z.to_nat k)) i Hws). case_decide; lia.
    + pose proof (sumZ_take_le ws (S i) (Z.to_nat k) Hws). destruct Hlo; lia.
Qed.
End weighted.

Lemma count_interval n a b :
  -1 ≤ a ≤ b → b < n →
  length (filter (λ x, a < x ≤ b) (seqZ 0 n)) = Z.to_nat (b - a).
Proof.
  intros Ha Hb. rewrite (Permutation_length (l' := seqZ (a + 1) (b - a))).
  - by rewrite length_seqZ.
  - apply NoDup_Permutation; [apply NoDup_filter, NoDup_seqZ|apply NoDup_seqZ|].
    intros x. rewrite list_elem_of_filter, !elem_of_seqZ. lia.
Qed.

Lemma filter_length_ext {A} (P Q : A → Prop) `{∀ x, Decision (P x), ∀ x, Decision (Q x)} l :
  (∀ x, x ∈ l → P x ↔ Q x) → length (filter P l) = length (filter Q l).
Proof.
  induction l as [|x l IH]; intros Hl; [done|]. rewrite !filter_cons.
  pose proof (Hl x). repeat case_decide; simpl; rewrite ?IH; set_solver.
Qed.

(** ** Sublists *)

Lemma Forall_sublist {A} (P : A → Prop) l1 l2 :
  Forall P l2 → l1 `sublist_of` l2 → Forall P l1.
Proof. rewrite !Forall_forall. eauto using elem_of_sublist. Qed.

Lemma sublist_drop_mid {A} (a b c : list A) : a ++ c `sublist_of` a ++ b ++ c.
Proof. apply sublist_app; [done|]. by apply sublist_inserts_l. Qed.

(** A sublist of a duplicate-free list is determined by its elements. *)
Lemma sublist_filter_eq {A} (P : A → Prop) `{∀ x, Decision (P x)} (l1 l2 : list A) :
  l1 `sublist_of` l2 → NoDup l2 → (∀ x, x ∈ l1 ↔ x ∈ l2 ∧ P x) → l1 = filter P l2.
Proof.
  induction 1 as [|x l1 l2 Hs IH|x l1 l2 Hs IH]; intros Hnd Hel; [done| |];
    apply NoDup_cons in Hnd as [Hx Hnd]; rewrite filter_cons.
  - rewrite decide_True by (apply (Hel x); set_solver). f_equal. apply IH; [done|].
    intros y. specialize (Hel y). rewrite !elem_of_cons in Hel. split.
    + intros Hy. assert (y ≠ x) by (intros ->; apply Hx; by eapply elem_of_sublist). naive_solver.
    + intros [Hy HP]. assert (y ≠ x) by (intros ->; done). naive_solver.
  - rewrite decide_False.
    + apply IH; [done|]. intros y. specialize (Hel y). split; [|set_solver].
      intros Hy. split; [by eapply elem_of_sublist|]. by apply Hel.
    + intros HP. apply Hx. eapply elem_of_sublist; [|done]. apply Hel. set_solver.
Qed.

Lemma elem_of_concat {A} (ls : list (list A)) x : x ∈ concat ls ↔ ∃ l, l ∈ ls ∧ x ∈ l.
Proof.
  rewrite list_elem_of_In, in_concat. by setoid_rewrite list_elem_of_In.
Qed.
