(* ===== verification/Rand.v ===== *)
(** * Rand: the random choices of prog/rand.go the other components draw on

    [randGen] embeds [*rand.Rand]; its other fields only matter to program
    generation.  A generator is therefore the supply of raw draws [rng] of the
    prelude, threaded through the code in the order in which it draws. *)

From S2P Require Import Prelude.

Definition rand (n : Z) (r : rng) : res (Z * rng) := intn n r.

Definition bin (r : rng) : res (bool * rng) :=
  let! '(x, r) := intn 2 r in Ret (bool_decide (x = 0), r).

Definition oneOf (n : Z) (r : rng) : res (bool * rng) :=
  let! '(x, r) := intn n r in Ret (bool_decide (x = 0), r).

Definition randRange (first last : Z) (r : rng) : res (Z * rng) :=
  let! '(x, r) := intn (wrapS 64 (last -! first +! 1)) r in Ret (first +! x, r).

(** [v & uint64(1<<bitSize-1)] *)
Definition truncateToBitSize (v bitSize : Z) : res Z :=
  if decide (bitSize = 0 ∨ bitSize > 64) then Panic "invalid bitSize value"
  else Ret (Z.land v (shl64 1 bitSize -! 1)).

Definition specialInts : list Z :=
  [0; 1; 31; 32; 63; 64; 127; 128;
   129; 255; 256; 257; 511; 512;
   1023; 1024; 1025; 2047; 2048; 4095; 4096;
   Z.shiftl 1 15 - 1; Z.shiftl 1 15; Z.shiftl 1 15 + 1;
   Z.shiftl 1 16 - 1; Z.shiftl 1 16; Z.shiftl 1 16 + 1;
   Z.shiftl 1 31 - 1; Z.shiftl 1 31; Z.shiftl 1 31 + 1;
   Z.shiftl 1 32 - 1; Z.shiftl 1 32; Z.shiftl 1 32 + 1;
   Z.shiftl 1 63 - 1; Z.shiftl 1 63; Z.shiftl 1 63 + 1;
   Z.shiftl 1 64 - 1].

(** [rand.Rand]'s [Int63], [Uint64] and [Int31]; [Float64] is [k / 2^53] for a draw [k]. *)
Definition Int63 : rng → res (Z * rng) := intn (2 ^ 63).
Definition Uint64 : rng → res (Z * rng) := intn (2 ^ 64).
Definition Int31 : rng → res (Z * rng) := intn (2 ^ 31).
Definition float53 : rng → res (Z * rng) := intn (2 ^ 53).

Definition nOutOf (n outOf : Z) (r : rng) : res (bool * rng) :=
  if decide (n ≤ 0 ∨ outOf ≤ n) then Panic "bad probability"
  else let! '(v, r) := intn outOf r in Ret (bool_decide (v < n), r).

Definition rand64 (r : rng) : res (Z * rng) :=
  let! '(v, r) := Int63 r in
  let! '(b, r) := bin r in
  Ret (if (b : bool) then Z.lor v (Z.shiftl 1 63) else v, r).

(** [specialIntIndex[i]]: the special integers are in ascending order. *)
Definition specialIntIndex (i : Z) : Z :=
  sortSearch (Z.of_nat (length specialInts))
    (λ k, bool_decide (Z.shiftr (nth (Z.to_nat k) specialInts 0) (8 * i) ≠ 0)).

(** The first switch of [randInt]. *)
Definition randIntBase (bits v : Z) (r : rng) : res (Z * rng) :=
  let! '(c, r) := nOutOf 100 182 r in
  if (c : bool) then Ret (v `mod` 10, r)
  else
    let! '(c, r) := if decide (8 ≤ bits) then nOutOf 50 82 r else Ret (false, r) in
    if (c : bool) then
      let! '(k, r) := intn (specialIntIndex (bits `div` 8)) r in
      let! x := index specialInts k in Ret (x, r)
    else
      let! '(c, r) := nOutOf 10 32 r in
      if (c : bool) then Ret (v `mod` 256, r)
      else
        let! '(c, r) := nOutOf 10 22 r in
        if (c : bool) then Ret (v `mod` Z.shiftl 4 10, r)
        else
          let! '(c, r) := nOutOf 10 12 r in
          if (c : bool) then Ret (v `mod` Z.shiftl 64 10, r)
          else Ret (v `mod` Z.shiftl 1 31, r).

Definition randInt (bits : Z) (r : rng) : res (Z * rng) :=
  let! '(v, r) := rand64 r in
  let! '(v, r) := randIntBase bits v r in
  let! '(c, r) := nOutOf 100 107 r in
  let! '(v, r) :=
    if (c : bool) then Ret (v, r)
    else
      let! '(c, r) := nOutOf 5 7 r in
      if (c : bool) then Ret (wrapU 64 (- v), r)
      else let! '(k, r) := intn bits r in Ret (shl64 v k, r) in
  let! v := truncateToBitSize v bits in
  Ret (v, r).

Definition randInt64 : rng → res (Z * rng) := randInt 64.

(** [r.Uint64() % (end - begin + 1)]: the divisor may wrap around to zero. *)
Definition randSpan (first last : Z) (r : rng) : res (Z * rng) :=
  let! '(x, r) := Uint64 r in
  let n := last -! first +! 1 in
  if decide (n = 0) then Panic "integer divide by zero" else Ret (first +! x `mod` n, r).

(** [randRangeInt]: the recursive call has no alignment. *)
Definition randRangeInt (first last bitSize align : Z) (r : rng) : res (Z * rng) :=
  let! '(c, r) := oneOf 100 r in
  if (c : bool) then randInt bitSize r
  else if decide (align ≠ 0) then
    let last := if decide (first = 0 ∧ wrapS 64 last = -1) then shl64 1 bitSize -! 1 else last in
    let endAlign := (last -! first) `div` align in
    let! '(c, r) := oneOf 100 r in
    let! '(k, r) := if (c : bool) then randInt bitSize r else randSpan 0 endAlign r in
    Ret (first +! (k *! align), r)
  else randSpan first last r.

(** [biasedRand], in exact arithmetic: with the draw [m / 2^53] the real number
    [(-1 + sqrt(1 + 2*k*rf/n)) * n / k] for [rf = n * (k/2 + 1) * m / 2^53], rounded
    down.  The rounding of floating point numbers is not modelled. *)
Definition biasedRand (n k : Z) (r : rng) : res (Z * rng) :=
  let! '(m, r) := float53 r in
  Ret ((Z.sqrt ((n * n * (2 ^ 53 + (k * k + 2 * k) * m)) `div` 2 ^ 53) - n) `div` k, r).

Definition randArrayLen (r : rng) : res (Z * rng) :=
  let! '(k, r) := biasedRand 11 10 r in Ret ((10 - k + 1) `mod` 11, r).

Definition randBufLen (r : rng) : res (Z * rng) :=
  let! '(c, r) := nOutOf 50 56 r in
  if (c : bool) then rand 256 r
  else
    let! '(c, r) := nOutOf 5 6 r in
    Ret (if (c : bool) then Z.shiftl 4 10 else 0, r).

Definition randPageCount (numPages : Z) (r : rng) : res (Z * rng) :=
  let! '(c, r) := nOutOf 100 106 r in
  if (c : bool) then let! '(n, r) := rand 4 r in Ret (n + 1, r)
  else
    let! '(c, r) := nOutOf 5 6 r in
    if (c : bool) then let! '(n, r) := rand 20 r in Ret (n + 1, r)
    else let! '(n, r) := rand 3 r in Ret (((n + 1) *! numPages) `div` 4, r).

(** ** Lemmas *)

Lemma rand_total n r : 0 < n → ∃ x r', rand n r = Ret (x, r') ∧ 0 ≤ x < n.
Proof. apply intn_total. Qed.

Lemma bin_total r : ∃ b r', bin r = Ret (b, r').
Proof. unfold bin. destruct (intn_total 2 r) as (x & r' & -> & _); [lia|]. eauto. Qed.

Lemma oneOf_total n r : 0 < n → ∃ b r', oneOf n r = Ret (b, r').
Proof. intros Hn. unfold oneOf. destruct (intn_total n r) as (x & r' & -> & _); [done|]. eauto. Qed.

Lemma mask_ones bits : 0 ≤ bits ≤ 64 → shl64 1 bits -! 1 = Z.ones bits.
Proof.
  intros H. destruct (decide (bits = 64)) as [->|]; [reflexivity|].
  assert (0 < 2 ^ bits < 2 ^ 64) by (split; [lia|apply Z.pow_lt_mono_r; lia]).
  rewrite shl64_small by lia. rewrite sub64_small by lia. rewrite Z.ones_equiv. lia.
Qed.

Lemma truncateToBitSize_spec v bits :
  0 < bits ≤ 64 → truncateToBitSize v bits = Ret (v `mod` 2 ^ bits).
Proof.
  intros H. unfold truncateToBitSize. rewrite decide_False by lia.
  rewrite mask_ones, Z.land_ones by lia. done.
Qed.

Lemma nOutOf_total n outOf r : 0 < n < outOf → ∃ b r', nOutOf n outOf r = Ret (b, r').
Proof.
  intros Hn. unfold nOutOf. rewrite decide_False by lia.
  destruct (intn_total outOf r) as (x & r' & -> & _); [lia|]. eauto.
Qed.

Lemma rand64_total r : ∃ v r', rand64 r = Ret (v, r') ∧ is_u 64 v.
Proof.
  unfold rand64, Int63. destruct (intn_total (2 ^ 63) r) as (v & r' & -> & Hv); [lia|]. cbn [rbind].
  destruct (bin_total r') as (b & r'' & ->). cbn [rbind]. eexists _, _. split; [done|]. unfold is_u.
  destruct b; [|lia]. assert (Z.land v (Z.shiftl 1 63) = 0) as H0.
  { apply Z.bits_inj'. intros i Hi. rewrite Z.land_spec, Z.bits_0, Z.shiftl_spec by done.
    destruct (decide (i < 63)); [rewrite (Z.testbit_neg_r 1) by lia; apply andb_false_r|].
    rewrite <-(Z.mod_small v (2 ^ 63)), Z.mod_pow2_bits_high by lia. done. }
  rewrite <-Z.lxor_lor, <-Z.add_nocarry_lxor by done. change (Z.shiftl 1 63) with (2 ^ 63). lia.
Qed.

Lemma specialIntIndex_pos i : 1 ≤ i ≤ 8 → 0 < specialIntIndex i ≤ 37.
Proof.
  intros Hi. assert (i = 1 ∨ i = 2 ∨ i = 3 ∨ i = 4 ∨ i = 5 ∨ i = 6 ∨ i = 7 ∨ i = 8) as H by lia.
  repeat (destruct H as [->|H]; [vm_compute; split; [done|discriminate]|]). subst. vm_compute. split; [done|discriminate].
Qed.

(** Draw a decision of [nOutOf] in the goal. *)
Ltac draw_nOutOf :=
  match goal with
  | |- context [nOutOf ?n ?m ?r] =>
    let b := fresh "b" in let r' := fresh "r" in
    destruct (nOutOf_total n m r) as (b & r' & ->); [lia|]; cbn [rbind]; destruct b
  end.

Lemma randIntBase_total bits v r : 0 < bits ≤ 64 → ∃ x r', randIntBase bits v r = Ret (x, r').
Proof.
  intros Hb. unfold randIntBase. draw_nOutOf; [eauto|]. case_decide.
  - draw_nOutOf; [|repeat (draw_nOutOf; [eauto|]); eauto].
    destruct (specialIntIndex_pos (bits `div` 8)) as [H1 H2]; [dlia|].
    destruct (intn_total (specialIntIndex (bits `div` 8)) r1) as (k & r' & -> & Hk); [lia|]. cbn [rbind].
    destruct (index_total specialInts k) as (x & _ & ->); [simpl; lia|]. simpl. eauto.
  - cbn [rbind]. repeat (draw_nOutOf; [eauto|]). eauto.
Qed.

(** A random integer fits the number of bits asked for. *)
Lemma randInt_range bits r : 0 < bits ≤ 64 → ∃ v r', randInt bits r = Ret (v, r') ∧ 0 ≤ v < 2 ^ bits.
Proof.
  intros Hb. unfold randInt. destruct (rand64_total r) as (v & r1 & -> & _). cbn [rbind].
  destruct (randIntBase_total bits v r1 Hb) as (x & r2 & ->). cbn [rbind]. draw_nOutOf; cbn [rbind].
  - rewrite truncateToBitSize_spec by done. simpl. eexists _, _. split; [done|]. apply Z.mod_pos_bound. lia.
  - draw_nOutOf; cbn [rbind].
    + rewrite truncateToBitSize_spec by done. simpl. eexists _, _. split; [done|]. apply Z.mod_pos_bound. lia.
    + destruct (intn_total bits r3) as (k & r4 & -> & _); [lia|]. cbn [rbind].
      rewrite truncateToBitSize_spec by done. simpl. eexists _, _. split; [done|]. apply Z.mod_pos_bound. lia.
Qed.

(** The biased choice stays in its range. *)
Lemma biasedRand_range n k r : 0 < n → 0 < k → ∃ b r', biasedRand n k r = Ret (b, r') ∧ 0 ≤ b < n.
Proof.
  intros Hn Hk. unfold biasedRand, float53. destruct (intn_total (2 ^ 53) r) as (m & r' & -> & Hm); [lia|].
  cbn [rbind]. eexists _, _. split; [done|]. set (X := (n * n * (2 ^ 53 + (k * k + 2 * k) * m)) `div` 2 ^ 53).
  assert (n * n ≤ X) as HX1.
  { unfold X. apply Z.div_le_lower_bound; [lia|]. assert (0 ≤ n * n * ((k * k + 2 * k) * m)) by nia. nia. }
  assert (X < (n * (k + 1)) * (n * (k + 1))) as HX2.
  { unfold X. apply Z.div_lt_upper_bound; [lia|].
    assert ((k * k + 2 * k) * m < (k * k + 2 * k) * 2 ^ 53) by nia.
    replace (2 ^ 53 * (n * (k + 1) * (n * (k + 1)))) with (n * n * (2 ^ 53 + (k * k + 2 * k) * 2 ^ 53)) by ring.
    apply Z.mul_lt_mono_pos_l; nia. }
  assert (n ≤ Z.sqrt X) as H1 by (apply Z.sqrt_le_square; nia).
  assert (Z.sqrt X < n * (k + 1)) as H2 by (apply Z.sqrt_lt_square; nia).
  split; [apply Z.div_pos; lia|]. apply Z.div_lt_upper_bound; nia.
Qed.
