(* ===== verification/Float64.v ===== *)
(** * Float64: the floating-point arithmetic of the priorities

    Go's [float64] is IEEE binary64; its operations are those of [SpecFloat], the reference
    definition of the standard, with a precision of 53 bits.  [Log2] and [Log] are computed as
    the package math does, [Float64] draws as math/rand does. *)

From S2P Require Import Prelude Rand.
From Stdlib Require Export SpecFloat.

Module Float64.

Notation float64 := spec_float (only parsing).

Definition add : float64 → float64 → float64 := SFadd 53 1024.
Definition sub : float64 → float64 → float64 := SFsub 53 1024.
Definition mul : float64 → float64 → float64 := SFmul 53 1024.
Definition div : float64 → float64 → float64 := SFdiv 53 1024.
(** [float64(z)] *)
Definition ofZ (z : Z) : float64 := binary_normalize 53 1024 z 0 false.
(** The value [m * 2^e], for constants that are given by their bits. *)
Definition dyadic (m e : Z) : float64 := binary_normalize 53 1024 m e false.
(** The decimal constant [n / d]. *)
Definition ratio (n d : Z) : float64 := div (ofZ n) (ofZ d).
Definition zero : float64 := S754_zero false.
Definition Min (x y : float64) : float64 := if SFltb x y then x else y.

(** Logarithms (math.Log and math.Log2), for positive numbers. *)
Definition Ln2Hi := dyadic 0x162e42fee00000 (-53).
Definition Ln2Lo := dyadic 0x1a39ef35793c76 (-85).
Definition L1 := dyadic 0x15555555555593 (-53).
Definition L2 := dyadic 0x1999999997fa04 (-54).
Definition L3 := dyadic 0x12492494229359 (-54).
Definition L4 := dyadic 0x1c71c51d8e78af (-55).
Definition L5 := dyadic 0x17466496cb03de (-55).
Definition L6 := dyadic 0x139a09d078c69f (-55).
Definition L7 := dyadic 0x12f112df3e5244 (-55).
Definition halfSqrt2 := dyadic 0x16a09e667f3bcd (-53).
Definition invLn2 := dyadic 0x171547652b82fe (-52).

Definition Log (x : float64) : float64 :=
  let '(f1, ki) := SFfrexp 53 1024 x in
  let '(f1, ki) := if SFltb f1 halfSqrt2 then (mul f1 (ofZ 2), ki - 1) else (f1, ki) in
  let f := sub f1 (ofZ 1) in
  let k := ofZ ki in
  let s := div f (add (ofZ 2) f) in
  let s2 := mul s s in
  let s4 := mul s2 s2 in
  let t1 := mul s2 (add L1 (mul s4 (add L3 (mul s4 (add L5 (mul s4 L7)))))) in
  let t2 := mul s4 (add L2 (mul s4 (add L4 (mul s4 L6)))) in
  let R := add t1 t2 in
  let hfsq := mul (mul (ratio 1 2) f) f in
  sub (mul k Ln2Hi) (sub (sub hfsq (add (mul s (add hfsq R)) (mul k Ln2Lo))) f).

Definition Log2 (x : float64) : float64 :=
  let '(frac, exp) := SFfrexp 53 1024 x in
  if SFeqb frac (ratio 1 2) then ofZ (exp - 1)
  else add (mul (Log frac) invLn2) (ofZ exp).

(** [r.Float64()] for a uniform number in [0, 1): 63 random bits, drawn again if the quotient is
    rounded to 1. *)
Fixpoint Float64 (lfuel : nat) (r : rng) : res (float64 * rng) :=
  match lfuel with
  | O => OutOfFuel
  | S lfuel =>
    let! '(z, r) := Int63 r in
    let f := div (ofZ z) (ofZ (2 ^ 63)) in
    if SFeqb f (ofZ 1) then Float64 lfuel r else Ret (f, r)
  end.

(** Exact powers of two have exact logarithms, others are rounded. *)
Example log2_64 : SFeqb (Log2 (ofZ 64)) (ofZ 6) = true.
Proof. vm_compute. reflexivity. Qed.
Example log2_3 : Log2 (ofZ 3) = dyadic 0x195c01a39fbd69 (-52).
Proof. vm_compute. reflexivity. Qed.
Example third_rounds : mul (ratio 3 10) (ofZ 10) = ofZ 3.
Proof. vm_compute. reflexivity. Qed.

End Float64.
