(* ===== verification/Alloc.v ===== *)
(** * Alloc: placement of objects in the data area of a program (prog/alloc.go)

    [memAlloc] is the two-level bitmap over 64-byte granules, [vmaAlloc] the
    page-granular allocator of [vma] arguments.  The bitmap is related to the
    abstract state it stands for, the finite set of granules in use, by
    [MemAlloc.repr]; every operation is shown to implement its set-level
    specification, [alloc] being a first-fit search followed, when nothing
    fits, by dropping all the allocations and starting over. *)

From S2P Require Import Prelude Rand.

Module MemAlloc.

Definition memAllocGranule : Z := 64.
Definition memAllocMaxMem : Z := Z.shiftl 16 20.
Definition memAllocL0Size : Z := 64.
Definition bitsPerUint64 : Z := 8 * 8.
Definition memAllocL0Mem : Z := memAllocL0Size * memAllocGranule * bitsPerUint64.
Definition memAllocL1Size : Z := memAllocMaxMem `div` memAllocL0Mem.

(** [mem] is Go's [[memAllocL1Size]*[memAllocL0Size]uint64]; [None] is the nil
    pointer.  The field [buf] is only ever reached through [mem[0]]. *)
Record memAlloc := MemAlloc { size : Z; mem : list (option (list Z)) }.

Definition zeroL0 : list Z := replicate (Z.to_nat memAllocL0Size) 0.

Definition newMemAlloc (totalMemSize : Z) : res memAlloc :=
  if decide (totalMemSize > memAllocMaxMem) then Panic "newMemAlloc: too much mem"
  else if decide (totalMemSize `mod` memAllocL0Mem ≠ 0) then
    Panic "newMemAlloc: unaligned size"
  else Ret (MemAlloc (totalMemSize `div` memAllocGranule)
              (Some zeroL0 :: replicate (Z.to_nat memAllocL1Size - 1) None)).

Definition pos (idx : Z) : Z * Z * Z :=
  let i1 := idx `div` (memAllocL0Size * bitsPerUint64) in
  let r1 := idx `mod` (memAllocL0Size * bitsPerUint64) in
  (i1, r1 `div` bitsPerUint64, shl64 1 (r1 `mod` bitsPerUint64)).

Definition set (ma : memAlloc) (idx : Z) : res memAlloc :=
  let '(i1, i0, bit) := pos idx in
  let! l1 := index (mem ma) i1 in
  let l0 := default zeroL0 l1 in
  let! w := index l0 i0 in
  Ret (MemAlloc (size ma)
         (<[Z.to_nat i1 := Some (<[Z.to_nat i0 := Z.lor w bit]> l0)]> (mem ma))).

Definition get (ma : memAlloc) (idx : Z) : res bool :=
  let '(i1, i0, bit) := pos idx in
  let! l1 := index (mem ma) i1 in
  match l1 with
  | None => Ret false
  | Some l0 => let! w := index l0 i0 in Ret (negb (Z.land w bit =? 0))
  end.

Definition noteAlloc (ma : memAlloc) (addr0 size0 : Z) : res memAlloc :=
  let addr := addr0 `div` memAllocGranule in
  let n := (addr0 +! size0 +! memAllocGranule -! 1) `div` memAllocGranule -! addr in
  for_list (λ i ma, set ma (addr +! i)) (seqZ 0 n) ma.

(** One iteration of [bankruptcy]'s outer loop: zero the level-0 block [i1]. *)
Definition clearL0 (i1 : Z) (ma : memAlloc) : res memAlloc :=
  let! l1 := index (mem ma) i1 in
  match l1 with
  | None => Ret ma
  | Some l0 => Ret (MemAlloc (size ma)
                      (<[Z.to_nat i1 := Some ((λ _, 0) <$> l0)]> (mem ma)))
  end.

Definition bankruptcy (ma : memAlloc) : res memAlloc :=
  for_list clearL0 (seqZ 0 (size ma `div` (memAllocL0Size * bitsPerUint64))) ma.

(** The inner loop of [alloc]: is every granule [start+i] free? *)
Fixpoint rangeEmpty (ma : memAlloc) (start : Z) (is0 : list Z) : res bool :=
  match is0 with
  | [] => Ret true
  | i :: is0 => let! g := get ma (start +! i) in
               if (g : bool) then Ret false else rangeEmpty ma start is0
  end.

(** The outer loop of [alloc]: the first free [start], if any. *)
Fixpoint search (fuel : nat) (ma : memAlloc) (n alignment last start : Z) : res (option Z) :=
  match fuel with
  | O => OutOfFuel
  | S fuel =>
    if decide (start ≤ last) then
      let! e := rangeEmpty ma start (seqZ 0 n) in
      if (e : bool) then Ret (Some start)
      else search fuel ma n alignment last (start +! alignment)
    else Ret None
  end.

Fixpoint alloc (fuel : nat) (ma : memAlloc) (size0 alignment0 : Z) : res (Z * memAlloc) :=
  match fuel with
  | O => OutOfFuel
  | S fuel =>
    let size0 := if decide (size0 = 0) then 1 else size0 in
    let alignment0 := if decide (alignment0 = 0) then 1 else alignment0 in
    let n := (size0 +! memAllocGranule -! 1) `div` memAllocGranule in
    let alignment := (alignment0 +! memAllocGranule -! 1) `div` memAllocGranule in
    let last := size ma -! n in
    let! o := search (Z.to_nat (last `div` alignment) + 2) ma n alignment last 0 in
    match o with
    | Some start =>
      let start0 := start *! memAllocGranule in
      let! ma' := noteAlloc ma start0 size0 in
      Ret (start0, ma')
    | None => let! ma' := bankruptcy ma in alloc fuel ma' size0 alignment0
    end
  end.

(** ** The abstract state: the granules in use *)

Definition capacity : Z := memAllocL1Size * (memAllocL0Size * bitsPerUint64).

(** Shape of the two arrays and the size [newMemAlloc] establishes. *)
Definition wf (ma : memAlloc) : Prop :=
  length (mem ma) = Z.to_nat memAllocL1Size ∧
  (∀ i l0, mem ma !! i = Some (Some l0) → length l0 = Z.to_nat memAllocL0Size) ∧
  0 ≤ size ma ≤ capacity ∧ size ma `mod` (memAllocL0Size * bitsPerUint64) = 0.

(** The bit of a granule. *)
Definition bitOf (ma : memAlloc) (idx : Z) : bool :=
  match mem ma !! Z.to_nat (idx `div` 4096) with
  | Some (Some l0) =>
    match l0 !! Z.to_nat ((idx `mod` 4096) `div` 64) with
    | Some w => Z.testbit w (idx `mod` 64)
    | None => false
    end
  | _ => false
  end.

Definition repr (ma : memAlloc) (s : gset Z) : Prop :=
  wf ma ∧ (∀ g, g ∈ s → 0 ≤ g < capacity) ∧
  (∀ g, 0 ≤ g < capacity → bitOf ma g = bool_decide (g ∈ s)).

Definition granules (start n : Z) : gset Z := list_to_set (seqZ start n).

(** [start] is where a first-fit search over the multiples of [alignment]
    would put [n] granules. *)
Definition fits (total : Z) (s : gset Z) (n alignment start : Z) : Prop :=
  (alignment | start) ∧ 0 ≤ start ∧ start + n ≤ total ∧ granules start n ## s.

Definition firstFit (total : Z) (s : gset Z) (n alignment start : Z) : Prop :=
  fits total s n alignment start ∧
  ∀ start', fits total s n alignment start' → start ≤ start'.

(** Number of granules of an object. *)
Definition granuleCount (bytes : Z) : Z := (bytes + 63) `div` 64.

(** ** Lemmas *)

Lemma elem_of_granules start n g : g ∈ granules start n ↔ start ≤ g < start + n.
Proof. unfold granules. rewrite elem_of_list_to_set, elem_of_seqZ. lia. Qed.

Lemma wf_cell ma idx :
  wf ma → 0 ≤ idx < capacity →
  ∃ o, index (mem ma) (idx `div` 4096) = Ret o ∧
       mem ma !! Z.to_nat (idx `div` 4096) = Some o ∧
       length (default zeroL0 o) = 64%nat.
Proof.
  intros (Hlen & Hl0 & _) Hidx. change capacity with (64 * 4096) in Hidx.
  destruct (index_total (mem ma) (idx `div` 4096)) as (o & Ho & Hi).
  { rewrite Hlen. change (Z.of_nat (Z.to_nat memAllocL1Size)) with 64. dlia. }
  exists o. split_and!; [done..|]. destruct o as [l0|]; simpl; [eauto|done].
Qed.

Lemma wf_word (l0 : list Z) idx :
  length l0 = 64%nat →
  ∃ w, index l0 ((idx `mod` 4096) `div` 64) = Ret w ∧
       l0 !! Z.to_nat ((idx `mod` 4096) `div` 64) = Some w.
Proof.
  intros Hlen. destruct (index_total l0 ((idx `mod` 4096) `div` 64)) as (w & Hw & Hi).
  { rewrite Hlen. dlia. }
  eauto.
Qed.

Lemma pos_eq idx :
  pos idx = (idx `div` 4096, (idx `mod` 4096) `div` 64, Z.shiftl 1 (idx `mod` 64)).
Proof.
  unfold pos. change (memAllocL0Size * bitsPerUint64) with 4096.
  change bitsPerUint64 with 64.
  replace ((idx `mod` 4096) `mod` 64) with (idx `mod` 64) by dlia.
  f_equal. unfold shl64. apply wrapU_small. rewrite Z.shiftl_1_l. unfold is_u.
  split; [lia|]. apply Z.pow_lt_mono_r; dlia.
Qed.

Lemma land_bit w n : 0 ≤ n → negb (Z.land w (Z.shiftl 1 n) =? 0) = Z.testbit w n.
Proof.
  intros Hn. rewrite Z.shiftl_1_l. destruct (Z.testbit w n) eqn:E.
  - apply negb_true_iff, Z.eqb_neq. intros H.
    apply (f_equal (λ z, Z.testbit z n)) in H.
    by rewrite Z.land_spec, E, Z.pow2_bits_true, Z.bits_0 in H by done.
  - apply negb_false_iff, Z.eqb_eq. apply Z.bits_inj'. intros m Hm.
    rewrite Z.land_spec, Z.bits_0, Z.pow2_bits_eqb by done.
    destruct (Z.eqb_spec n m); subst; [by rewrite E|by rewrite andb_false_r].
Qed.

Lemma lor_bit w n m :
  0 ≤ n → 0 ≤ m → Z.testbit (Z.lor w (Z.shiftl 1 n)) m = (n =? m) || Z.testbit w m.
Proof.
  intros. rewrite Z.lor_spec, Z.shiftl_1_l, Z.pow2_bits_eqb by done.
  apply orb_comm.
Qed.

Lemma get_spec ma idx :
  wf ma → 0 ≤ idx < capacity → get ma idx = Ret (bitOf ma idx).
Proof.
  intros Hwf Hidx. unfold get, bitOf. rewrite pos_eq.
  destruct (wf_cell ma idx Hwf Hidx) as (o & -> & -> & Hlen); simpl.
  destruct o as [l0|]; [|done]. simpl in Hlen.
  destruct (wf_word l0 idx Hlen) as (w & -> & ->); simpl.
  by rewrite land_bit by dlia.
Qed.

Lemma set_spec ma s idx :
  repr ma s → 0 ≤ idx < capacity →
  ∃ ma', set ma idx = Ret ma' ∧ repr ma' ({[idx]} ∪ s) ∧ size ma' = size ma.
Proof.
  intros (Hwf & Hs & Hbit) Hidx. unfold set. rewrite pos_eq.
  destruct (wf_cell ma idx Hwf Hidx) as (o & -> & Ho & Hlen); simpl.
  destruct (wf_word (default zeroL0 o) idx Hlen) as (w & -> & Hw); simpl.
  eexists; split; [done|]. split; [|done].
  destruct Hwf as (Hl1 & Hl0 & Hsz). split; [|split].
  - split; [|split; [|done]]; simpl; [by rewrite length_insert|].
    intros i l0. rewrite list_lookup_insert. case_decide; [|apply Hl0].
    intros [= <-]. by rewrite length_insert.
  - set_solver.
  - intros g Hg. unfold bitOf; simpl.
    destruct (decide (Z.to_nat (g `div` 4096) = Z.to_nat (idx `div` 4096))) as [E1|E1].
    2:{ rewrite list_lookup_insert_ne by done.
        rewrite (bool_decide_ext _ (g ∈ s)); [by apply Hbit|].
        assert (g ≠ idx) by congruence. set_solver. }
    rewrite E1, list_lookup_insert_eq by (rewrite Hl1; apply lookup_lt_Some in Ho; lia).
    specialize (Hbit g Hg). unfold bitOf in Hbit. rewrite E1, Ho in Hbit.
    destruct (decide (Z.to_nat ((g `mod` 4096) `div` 64) = Z.to_nat ((idx `mod` 4096) `div` 64))) as [E0|E0].
    2:{ rewrite list_lookup_insert_ne by done.
        assert (g ≠ idx) by congruence.
        rewrite (bool_decide_ext (g ∈ _ ∪ _) (g ∈ s)) by set_solver. rewrite <-Hbit.
        destruct o as [l0|]; [done|]. simpl.
        change zeroL0 with (replicate 64 0).
        by rewrite lookup_replicate_2, Z.bits_0 by dlia. }
    rewrite E0, list_lookup_insert_eq by (rewrite Hlen; apply lookup_lt_Some in Hw; lia).
    rewrite lor_bit by dlia. rewrite E0 in Hbit.
    replace (Z.testbit w (g `mod` 64)) with (bool_decide (g ∈ s)).
    + destruct (Z.eqb_spec (idx `mod` 64) (g `mod` 64)); simpl.
      * symmetry; apply bool_decide_eq_true_2.
        assert (g = idx) by dlia. set_solver.
      * apply bool_decide_ext. assert (g ≠ idx) by congruence. set_solver.
    + rewrite <-Hbit. destruct o as [l0|]; simpl in Hw; [by rewrite Hw|].
      unfold zeroL0 in Hw. apply lookup_replicate in Hw as [-> _]. by rewrite Z.bits_0.
Qed.

(** Marking a run of granules one after the other. *)
Lemma set_range_spec ma s a (n : nat) :
  repr ma s → 0 ≤ a → a + Z.of_nat n ≤ capacity →
  ∃ ma', for_list (λ i ma, set ma (a +! i)) (seqZ 0 (Z.of_nat n)) ma = Ret ma' ∧
         repr ma' (s ∪ granules a (Z.of_nat n)) ∧ size ma' = size ma.
Proof.
  intros Hr Ha Hn. change capacity with 262144 in *.
  destruct (for_list_inv
    (λ d ma', repr ma' (s ∪ granules a (Z.of_nat (length d))) ∧ size ma' = size ma)
    (λ i ma, set ma (a +! i)) (seqZ 0 (Z.of_nat n)) ma) as (ma' & Hma & HI & Hsz).
  - split; [|done]. replace (s ∪ _) with s; [done|].
    apply set_eq; intros x. rewrite elem_of_union, elem_of_granules. simpl. naive_solver lia.
  - intros d x r ma1 Hl [Hr1 Hsz1].
    assert (x = Z.of_nat (length d)) as ->.
    { assert (seqZ 0 (Z.of_nat n) !! length d = Some x) as Hx
        by (by rewrite Hl, list_lookup_middle).
      apply lookup_seqZ in Hx. lia. }
    assert (Z.of_nat (length d) < Z.of_nat n).
    { assert (length (seqZ 0 (Z.of_nat n)) = length (d ++ Z.of_nat (length d) :: r)) as E
        by congruence.
      rewrite length_seqZ, length_app in E. simpl in E. lia. }
    no_wrap.
    destruct (set_spec ma1 _ (a + Z.of_nat (length d)) Hr1) as (ma2 & -> & Hr2 & Hsz2).
    { change capacity with 262144. lia. }
    eexists; split; [done|]. split; [|congruence].
    replace (s ∪ granules a (Z.of_nat (length (d ++ [Z.of_nat (length d)])))) with
      ({[a + Z.of_nat (length d)]} ∪ (s ∪ granules a (Z.of_nat (length d)))); [done|].
    apply set_eq; intros y.
    rewrite !elem_of_union, elem_of_singleton, !elem_of_granules, length_app. simpl.
    destruct (decide (y ∈ s)); naive_solver lia.
  - exists ma'. by rewrite length_seqZ, Nat2Z.id in HI.
Qed.

Lemma noteAlloc_repr ma s addr0 size0 :
  repr ma s → 0 ≤ addr0 → 0 ≤ size0 → addr0 + size0 ≤ memAllocMaxMem →
  ∃ ma', noteAlloc ma addr0 size0 = Ret ma' ∧ size ma' = size ma ∧
    repr ma' (s ∪ granules (addr0 `div` 64) (granuleCount (addr0 + size0) - addr0 `div` 64)).
Proof.
  intros Hr Ha Hs Hb. unfold noteAlloc, granuleCount.
  change memAllocGranule with 64. change memAllocMaxMem with 16777216 in Hb.
  no_wrap. replace (addr0 + size0 + 64 - 1) with (addr0 + size0 + 63) by lia.
  destruct (set_range_spec ma s (addr0 `div` 64)
    (Z.to_nat ((addr0 + size0 + 63) `div` 64 - addr0 `div` 64))) as (ma' & H & Hr' & ?);
    [done|apply Z.div_pos; lia|change capacity with 262144; dlia|].
  rewrite Z2Nat.id in H, Hr' by dlia. eauto.
Qed.

Lemma rangeEmpty_spec ma s start n :
  repr ma s → 0 ≤ start → 0 ≤ n → start + n ≤ capacity →
  rangeEmpty ma start (seqZ 0 n) = Ret (bool_decide (granules start n ## s)).
Proof.
  intros Hr H0 Hn Hc.
  enough (∀ is0, (∀ i, i ∈ is0 → 0 ≤ i < n) →
    rangeEmpty ma start is0 = Ret (bool_decide (Forall (λ i, start + i ∉ s) is0))) as H.
  { rewrite H by (intros i Hi%elem_of_seqZ; lia). f_equal. apply bool_decide_ext.
    rewrite Forall_forall. split.
    - intros Hd g Hg%elem_of_granules Hin. apply (Hd (g - start)); [apply elem_of_seqZ; lia|].
      by replace (start + (g - start)) with g by lia.
    - intros Hd i Hi%elem_of_seqZ Hin. apply (Hd (start + i)); [|done].
      apply elem_of_granules. lia. }
  intros is0; induction is0 as [|i is0 IH]; intros Hi; simpl.
  { done. }
  assert (0 ≤ i < n) by (apply Hi; set_solver). change capacity with 262144 in *.
  destruct Hr as (Hwf & Hr1 & Hbit).
  rewrite add64_small by lia. rewrite get_spec by (done || (change capacity with 262144; lia)).
  simpl. rewrite Hbit by (change capacity with 262144; lia).
  destruct (decide (start + i ∈ s)) as [Hin|Hin].
  - rewrite (bool_decide_eq_true_2 (_ ∈ _)) by done.
    rewrite bool_decide_eq_false_2; [done|]. by intros [? _]%Forall_cons_1.
  - rewrite (bool_decide_eq_false_2 (_ ∈ _)) by done. rewrite IH by set_solver. f_equal. apply bool_decide_ext. rewrite Forall_cons. naive_solver.
Qed.

(** The outer loop returns the first multiple of the alignment, from [start]
    on, where the object fits, and [None] when there is none. *)
Lemma search_spec fuel ma s n a start :
  repr ma s → 0 ≤ n ≤ size ma → 0 < a < 2 ^ 60 → 0 ≤ start ≤ size ma - n + a → (a | start) →
  (∀ start', fits (size ma) s n a start' → start ≤ start') →
  size ma - n < start + Z.of_nat fuel * a - a →
  (∃ st, search fuel ma n a (size ma - n) start = Ret (Some st) ∧ firstFit (size ma) s n a st) ∨
  (search fuel ma n a (size ma - n) start = Ret None ∧ ∀ st, ¬ fits (size ma) s n a st).
Proof.
  intros Hr Hn Ha. pose proof Hr as ((_ & _ & Hcap & _) & _). change capacity with 262144 in Hcap.
  revert start; induction fuel as [|fuel IH]; intros start Hst Hdiv Hmin Hfuel; [lia|].
  simpl. case_decide as Hle.
  2:{ right. split; [done|]. intros st Hfit. pose proof (Hmin st Hfit).
      destruct Hfit as (_ & _ & ? & _). lia. }
  rewrite (rangeEmpty_spec ma s) by (done || (change capacity with 262144; lia)); simpl.
  case_bool_decide as Hd.
  { left. exists start. split; [done|]. split; [|done]. split_and!; (done || lia). }
  rewrite add64_small by lia. apply IH; [lia|by apply Z.divide_add_r, Z.divide_refl| |lia].
  intros st Hfit. pose proof (Hmin st Hfit). destruct Hfit as ([k ->] & ? & ? & Hd').
  destruct Hdiv as [k0 ->]. destruct (decide (k = k0)) as [->|]; [done|]. nia.
Qed.

Lemma clearL0_spec ma s i1 :
  repr ma s → 0 ≤ i1 < memAllocL1Size →
  ∃ ma', clearL0 i1 ma = Ret ma' ∧ size ma' = size ma ∧
         repr ma' (filter (λ g, g `div` 4096 ≠ i1) s).
Proof.
  intros (Hwf & Hs & Hbit) Hi. pose proof Hwf as (Hl1 & Hl0 & Hsz).
  change memAllocL1Size with 64 in *. unfold clearL0.
  destruct (index_total (mem ma) i1) as (o & Ho & ->); [lia|]. simpl.
  assert (∀ g, g ∈ filter (λ g, g `div` 4096 ≠ i1) s → 0 ≤ g < capacity) as Hs'.
  { intros g [_ Hg]%elem_of_filter. auto. }
  destruct o as [l0|].
  2:{ exists ma. split; [done|]. split; [done|]. split; [done|]. split; [done|]. intros g Hg. destruct (decide (g `div` 4096 = i1)) as [<-|E].
      - unfold bitOf. rewrite Ho. symmetry. apply bool_decide_eq_false_2.
        by intros [? _]%elem_of_filter.
      - rewrite Hbit by done. apply bool_decide_ext. rewrite elem_of_filter. naive_solver. }
  eexists. split; [done|]. split; [done|]. split; [|split]; [|done|].
  - split; [|split; [|done]]; simpl; [by rewrite length_insert|].
    intros i l1. rewrite list_lookup_insert. case_decide; [|apply Hl0].
    intros [= <-]. rewrite length_fmap. eauto.
  - intros g Hg. unfold bitOf; simpl. change capacity with 262144 in Hg.
    destruct (decide (g `div` 4096 = i1)) as [<-|E].
    + rewrite list_lookup_insert_eq by (apply lookup_lt_Some in Ho; lia).
      rewrite list_lookup_fmap. rewrite bool_decide_eq_false_2 by (by intros [? _]%elem_of_filter).
      destruct (l0 !! _); simpl; [by rewrite Z.bits_0|done].
    + rewrite list_lookup_insert_ne by dlia. specialize (Hbit g Hg). unfold bitOf in Hbit.
      rewrite Hbit. apply bool_decide_ext. rewrite elem_of_filter. naive_solver.
Qed.

Lemma bankruptcy_spec ma s :
  repr ma s →
  ∃ ma', bankruptcy ma = Ret ma' ∧ size ma' = size ma ∧
         repr ma' (filter (λ g, size ma ≤ g) s).
Proof.
  intros Hr. pose proof Hr as ((_ & _ & Hcap & Hmod) & Hs & _).
  change capacity with 262144 in *. unfold bankruptcy.
  change (memAllocL0Size * bitsPerUint64) with 4096 in *.
  destruct (for_list_inv (λ d ma', size ma' = size ma ∧
      repr ma' (filter (λ g, 4096 * Z.of_nat (length d) ≤ g) s))
    clearL0 (seqZ 0 (size ma `div` 4096)) ma) as (ma' & Hma & Hsz & HI).
  - split; [done|]. replace (filter _ s) with s; [done|].
    apply set_eq; intros g. rewrite elem_of_filter. simpl. naive_solver lia.
  - intros d x r ma1 Hl [Hsz1 Hr1].
    assert (seqZ 0 (size ma `div` 4096) !! length d = Some x) as Hx
      by (by rewrite Hl, list_lookup_middle).
    apply lookup_seqZ in Hx as [-> Hd].
    destruct (clearL0_spec ma1 _ (0 + Z.of_nat (length d)) Hr1) as (ma2 & -> & Hsz2 & Hr2).
    { change memAllocL1Size with 64. dlia. }
    exists ma2. split_and!; [done|congruence|].
    match type of Hr2 with repr _ ?A =>
      replace (filter _ s) with A; [done|] end.
    apply set_eq; intros g. rewrite !elem_of_filter, length_app. simpl.
    split; [|naive_solver dlia]. intros (? & ? & Hg). pose proof (Hs g Hg). split; [dlia|done].
  - exists ma'. split_and!; [done..|]. rewrite length_seqZ in HI.
    by replace (4096 * Z.of_nat (Z.to_nat (size ma `div` 4096))) with (size ma) in HI by dlia.
Qed.

Lemma firstFit_zero total s n a :
  0 < n ≤ total → 0 < a → (∀ g, g ∈ s → total ≤ g) → firstFit total s n a 0.
Proof.
  intros Hn Ha Hs. split.
  - split_and!; [apply Z.divide_0_r|lia|lia|]. intros g Hg%elem_of_granules Hin%Hs. lia.
  - intros st (_ & ? & _). done.
Qed.

(** What one pass of [alloc] does when the object fits somewhere. *)
Lemma alloc_pass fuel ma s size0 align0 :
  repr ma s → 0 < size0 ≤ size ma * 64 → 0 < align0 < 2 ^ 63 →
  let n := granuleCount size0 in let a := granuleCount align0 in
  (∃ st ma', firstFit (size ma) s n a st ∧ alloc (S fuel) ma size0 align0 = Ret (st * 64, ma') ∧
             size ma' = size ma ∧ repr ma' (s ∪ granules st n)) ∨
  ((∀ st, ¬ fits (size ma) s n a st) ∧
   alloc (S fuel) ma size0 align0 =
     let! ma' := bankruptcy ma in alloc fuel ma' size0 align0).
Proof.
  intros Hr Hsz Ha n a. pose proof Hr as ((_ & _ & Hcap & _) & _).
  change capacity with 262144 in Hcap. cbn [alloc].
  rewrite !decide_False by lia. change memAllocGranule with 64.
  rewrite (add64_small size0 64), (add64_small align0 64) by lia. no_wrap.
  replace ((size0 + 64 - 1) `div` 64) with n by (unfold n, granuleCount; f_equal; lia).
  replace ((align0 + 64 - 1) `div` 64) with a by (unfold a, granuleCount; f_equal; lia).
  assert (0 < n ≤ size ma) as Hn by (unfold n, granuleCount; dlia).
  assert (0 < a < 2 ^ 60) as Ha' by (unfold a, granuleCount; dlia).
  destruct (search_spec (Z.to_nat ((size ma - n) `div` a) + 2) ma s n a 0)
    as [(st & -> & Hff)|[-> Hno]].
  - done.
  - lia.
  - done.
  - lia.
  - apply Z.divide_0_r.
  - by intros st (_ & ? & _).
  - pose proof (Z.mul_succ_div_gt (size ma - n) a). assert (0 ≤ (size ma - n) `div` a)
      by (apply Z.div_pos; lia). nia.
  - left. exists st. pose proof Hff as ((_ & Hst & Hend & _) & _). cbn [rbind].
    rewrite mul64_small by lia.
    destruct (noteAlloc_repr ma s (st * 64) size0) as (ma' & -> & Hsz' & Hr');
      [done|lia|lia|change memAllocMaxMem with 16777216; unfold n, granuleCount in *; dlia|].
    exists ma'. split_and!; [done..|].
    rewrite Z.div_mul in Hr' by lia.
    replace (granuleCount (st * 64 + size0) - st) with n in Hr'
      by (unfold n, granuleCount; dlia). done.
  - right. done.
Qed.

(** C18. [memAlloc.alloc] implements its specification, first fit with a reset:
    an object of [size0 > 0] bytes that is not larger than the memory is placed
    at the lowest address that is a multiple of the alignment (in granules)
    and whose granules are all free, and exactly these granules become used;
    if there is no such place, all the allocations of the memory are dropped
    and the object goes to address 0.  The call always returns. *)
Theorem alloc_first_fit ma s size0 align0 :
  repr ma s → 0 < size0 ≤ size ma * 64 → 0 < align0 < 2 ^ 63 →
  let n := granuleCount size0 in
  let a := granuleCount align0 in
  ∃ st ma' s', alloc 2 ma size0 align0 = Ret (st * 64, ma') ∧ size ma' = size ma ∧
    firstFit (size ma) s' n a st ∧ repr ma' (s' ∪ granules st n) ∧
    (s' = s ∨ (∀ st', ¬ fits (size ma) s n a st') ∧ st = 0 ∧
              s' = filter (λ g, size ma ≤ g) s).
Proof.
  intros Hr Hsz Ha n a.
  destruct (alloc_pass 1 ma s size0 align0 Hr Hsz Ha) as [(st & ma' & ? & ? & ? & ?)|[Hno ->]].
  { exists st, ma', s. eauto 8. }
  destruct (bankruptcy_spec ma s Hr) as (ma1 & -> & Hsz1 & Hr1); cbn [rbind].
  set (s1 := filter (λ g, size ma ≤ g) s) in *.
  assert (firstFit (size ma) s1 n a 0) as Hff.
  { apply firstFit_zero; unfold n, a, granuleCount; [dlia|dlia|].
    by intros g [? _]%elem_of_filter. }
  rewrite <-Hsz1 in Hsz.
  destruct (alloc_pass 0 ma1 s1 size0 align0 Hr1 Hsz Ha)
    as [(st & ma' & Hff' & Hal & Hsz2 & Hr2)|[Hno' _]].
  2:{ destruct (Hno' 0). rewrite Hsz1. apply Hff. }
  rewrite Hsz1 in Hff'. assert (st = 0) as ->.
  { destruct Hff as [Hf Hm], Hff' as [Hf' Hm']. pose proof (Hm st Hf').
    pose proof (Hm' 0 Hf). lia. }
  exists 0, ma', s1. split_and!; [done|congruence|done..|]. right. by split_and!.
Qed.

Lemma newMemAlloc_repr total :
  0 ≤ total ≤ memAllocMaxMem → total `mod` memAllocL0Mem = 0 →
  ∃ ma, newMemAlloc total = Ret ma ∧ size ma = total `div` 64 ∧ repr ma ∅.
Proof.
  intros Hle Hmod. unfold newMemAlloc. rewrite decide_False by lia.
  rewrite decide_False by (intros ?; done). eexists; split; [done|]. split; [done|].
  change memAllocMaxMem with 16777216 in Hle. change memAllocL0Mem with 262144 in Hmod.
  split; [split_and!|split].
  - done.
  - intros [|i] l0; cbn -[replicate]; [by intros [= <-]|].
    by intros [? _]%lookup_replicate.
  - simpl. change memAllocGranule with 64. dlia.
  - simpl. change memAllocGranule with 64. change capacity with 262144. dlia.
  - simpl. change (memAllocL0Size * bitsPerUint64) with 4096. change memAllocGranule with 64. dlia.
  - set_solver.
  - intros g Hg. rewrite bool_decide_eq_false_2 by set_solver. unfold bitOf.
    destruct (_ !! Z.to_nat (g `div` 4096)) as [[l0|]|] eqn:E; [|done..].
    destruct (Z.to_nat (g `div` 4096)) as [|k]; cbn -[replicate] in E.
    + injection E as <-. destruct (zeroL0 !! _) eqn:E1; [|done].
      apply lookup_replicate in E1 as [-> _]. by rewrite Z.bits_0.
    + by apply lookup_replicate in E as [? _].
Qed.

(** A power-of-two alignment given in bytes is respected, and the object ends
    inside the memory. *)
Lemma firstFit_aligned total s n k st :
  0 ≤ k → firstFit total s n (granuleCount (2 ^ k)) st → (2 ^ k | st * 64).
Proof.
  intros Hk (([q ->] & _) & _). destruct (decide (k ≤ 6)) as [H6|H6].
  - apply Z.divide_mul_r. change 64 with (2 ^ 6). exists (2 ^ (6 - k)).
    rewrite <-Z.pow_add_r by lia. f_equal. lia.
  - replace (granuleCount (2 ^ k)) with (2 ^ (k - 6)).
    + exists q. rewrite <-Z.mul_assoc. f_equal. change 64 with (2 ^ 6).
      rewrite <-Z.pow_add_r by lia. f_equal. lia.
    + unfold granuleCount. replace (2 ^ k) with (2 ^ (k - 6) * 64);
        [dlia|]. change 64 with (2 ^ 6). rewrite <-Z.pow_add_r by lia. f_equal. lia.
Qed.

Lemma alloc_first_fit_witness :
  ∃ ma st ma', newMemAlloc 262144 = Ret ma ∧ alloc 2 ma 100 8 = Ret (st * 64, ma') ∧
    size ma' = 4096.
Proof.
  destruct (newMemAlloc_repr 262144) as (ma & Hnew & Hsz & Hr); [vm_compute; split; congruence|done|].
  destruct (alloc_first_fit ma ∅ 100 8 Hr) as (st & ma' & s' & Ha & Hsz' & _).
  - rewrite Hsz. vm_compute. split; congruence.
  - vm_compute. split; congruence.
  - exists ma, st, ma'. split_and!; [exact Hnew|exact Ha|]. rewrite Hsz', Hsz. reflexivity.
Defined.

End MemAlloc.

Module VmaAlloc.

(** [m] is Go's [map[uint64]struct{}]. *)
Record vmaAlloc := VmaAlloc { numPages : Z; used : list Z; m : gset Z }.

Definition newVmaAlloc (totalPages : Z) : vmaAlloc := VmaAlloc totalPages [] ∅.

Definition notePage (i : Z) (va : vmaAlloc) : vmaAlloc :=
  if decide (i ∈ m va) then va
  else VmaAlloc (numPages va) (used va ++ [i]) ({[i]} ∪ m va).

(** [for i := page; i < page+size; i++] *)
Definition noteAlloc (va : vmaAlloc) (page size : Z) : vmaAlloc :=
  foldl (λ va i, notePage i va) va (seqZ page (page +! size - page)).

(** The random choice of the first page. *)
Definition choosePage (va : vmaAlloc) (size : Z) (r : rng) : res (Z * rng) :=
  let! '(fresh, r) := (if decide (used va = []) then Ret (true, r) else oneOf 5 r) in
  if (fresh : bool) then
    let! '(page, r) := rand 4 r in
    let! '(b, r) := oneOf 100 r in
    Ret (if (b : bool) then page else numPages va -! page -! size, r)
  else
    let! '(k, r) := rand (Z.of_nat (length (used va))) r in
    let! page := index (used va) k in
    let! '(back, r) := (if decide (size > 1) then bin r else Ret (false, r)) in
    let! '(page, r) :=
      (if (back : bool) then
         let! '(off, r) := rand (wrapS 64 size) r in
         let off := if decide (off > page) then page else off in
         Ret (page -! off, r)
       else Ret (page, r)) in
    Ret (if decide (page +! size > numPages va) then numPages va -! size else page, r).

Definition alloc (va : vmaAlloc) (size : Z) (r : rng) : res (Z * vmaAlloc * rng) :=
  if decide (size > numPages va) then Panic "vmaAlloc: bad size"
  else
    let! '(page, r) := choosePage va size r in
    if decide (numPages va ≤ page ∨ size > numPages va ∨ page +! size > numPages va)
    then Panic "vmaAlloc: bad page"
    else Ret (page, noteAlloc va page size, r).

(** The page list mirrors the page map, without duplicates, inside the area. *)
Definition wf (va : vmaAlloc) : Prop :=
  NoDup (used va) ∧ m va = list_to_set (used va) ∧
  (∀ p, p ∈ used va → 0 ≤ p < numPages va) ∧ 0 < numPages va < 2 ^ 63.

(** ** Lemmas *)

Lemma notePage_spec va i :
  wf va → 0 ≤ i < numPages va →
  wf (notePage i va) ∧ numPages (notePage i va) = numPages va ∧
  m (notePage i va) = {[i]} ∪ m va.
Proof.
  intros Hwf Hi. pose proof Hwf as (Hnd & Hm & Hin & Hnp). unfold notePage.
  case_decide as Hd.
  - split; [done|]. split; [done|]. set_solver.
  - split; [|done]. split_and!; simpl.
    + apply NoDup_app. split_and!; [done| |apply NoDup_singleton]. set_solver.
    + rewrite list_to_set_app_L, Hm. set_solver.
    + intros p. rewrite elem_of_app, list_elem_of_singleton. naive_solver.
    + lia.
    + lia.
Qed.

Lemma notePages_spec va l :
  wf va → (∀ i, i ∈ l → 0 ≤ i < numPages va) →
  let va' := foldl (λ va i, notePage i va) va l in
  wf va' ∧ numPages va' = numPages va ∧ m va' = m va ∪ list_to_set l.
Proof.
  revert va; induction l as [|i l IH]; intros va Hwf Hl; simpl.
  { split_and!; [done..|set_solver]. }
  destruct (notePage_spec va i) as (H1 & H2 & H3); [done|apply Hl; set_solver|].
  destruct (IH (notePage i va)) as (? & Hn & Hm); [done|rewrite H2; set_solver|].
  split_and!; [done|congruence|]. rewrite Hm, H3. set_solver.
Qed.

Lemma noteAlloc_spec va page size :
  wf va → 0 ≤ page → 0 ≤ size → page + size ≤ numPages va →
  wf (noteAlloc va page size) ∧ numPages (noteAlloc va page size) = numPages va ∧
  m (noteAlloc va page size) = m va ∪ MemAlloc.granules page size.
Proof.
  intros Hwf Hp Hs Hle. pose proof Hwf as (_ & _ & _ & ?). unfold noteAlloc. no_wrap.
  replace (page + size - page) with size by lia.
  apply notePages_spec; [done|]. intros i Hi%elem_of_seqZ. lia.
Qed.

Lemma choosePage_spec va size r :
  wf va → 0 < size → size + 3 ≤ numPages va →
  ∃ page r', choosePage va size r = Ret (page, r') ∧ 0 ≤ page ∧ page + size ≤ numPages va.
Proof.
  intros (_ & _ & Hin & Hnp) Hs Hle. unfold choosePage.
  assert (∃ b r1, (if decide (used va = []) then Ret (true, r) else oneOf 5 r) = Ret (b, r1) ∧
                  (b = false → used va ≠ [])) as (b & r1 & -> & Hb).
  { case_decide; [eexists _, _; split; [done|naive_solver]|].
    destruct (oneOf_total 5 r) as (b & r1 & ->); [lia|]. eauto. }
  cbn [rbind]. destruct b.
  - destruct (rand_total 4 r1) as (p & r2 & -> & Hp); [lia|]. cbn [rbind].
    destruct (oneOf_total 100 r2) as (b & r3 & ->); [lia|]. cbn [rbind].
    eexists _, _; split; [done|]. destruct b; [lia|]. no_wrap. lia.
  - assert (0 < Z.of_nat (length (used va))) by (destruct (used va); simpl; [by destruct Hb|lia]).
    destruct (rand_total (Z.of_nat (length (used va))) r1) as (k & r2 & -> & Hk); [lia|].
    cbn [rbind]. destruct (index_total (used va) k) as (p & Hlk & ->); [done|]. cbn [rbind].
    assert (0 ≤ p < numPages va) as Hp by (apply Hin; eapply list_elem_of_lookup_2; done).
    assert (∃ b2 r3, (if decide (size > 1) then bin r2 else Ret (false, r2)) = Ret (b2, r3))
      as (b2 & r3 & ->).
    { case_decide; [apply bin_total|eauto]. }
    cbn [rbind].
    assert (∃ p' r4, (if b2 then let! '(off, r) := rand (wrapS 64 size) r3 in
       Ret (p -! (if decide (off > p) then p else off), r) else Ret (p, r3)) = Ret (p', r4) ∧
       0 ≤ p' ≤ p) as (p' & r4 & Hp' & Hple).
    { destruct b2; [|eexists _, _; split; [done|lia]].
      replace (wrapS 64 size) with size by (unfold wrapS; rewrite Z.mod_small by lia; lia).
      destruct (rand_total size r3) as (off & r4 & -> & Ho); [lia|]. cbn [rbind].
      eexists _, _; split; [done|]. case_decide; no_wrap; lia. }
    rewrite Hp'. cbn [rbind]. eexists _, _; split; [done|].
    rewrite add64_small by lia. case_decide; no_wrap; lia.
Qed.



(** The guard [size > numPages] of [vmaAlloc.alloc] admits requests that
    the random placement cannot serve: with fewer than three spare pages some
    random choices underflow the first page and end in the panic. *)
Theorem vma_alloc_tight_panics np size :
  4 ≤ np < 2 ^ 63 → np - 3 < size ≤ np →
  ∃ r, alloc (newVmaAlloc np) size r = Panic "vmaAlloc: bad page".
Proof.
  intros Hnp Hsz. exists [3; 1]. unfold alloc; simpl. rewrite decide_False by lia.
  cbn. change (3 `mod` 4) with 3. rewrite (sub64_small np 3) by lia.
  rewrite decide_True; [done|]. left. unfold sub64, wrapU.
  rewrite <-(Z.mod_unique (np - 3 - size) (2 ^ 64) (-1) (np - 3 - size + 2 ^ 64)); lia.
Qed.

Lemma vma_alloc_tight_panics_witness :
  ∃ r, alloc (newVmaAlloc 4096) 4094 r = Panic "vmaAlloc: bad page".
Proof. apply (vma_alloc_tight_panics 4096 4094); lia. Defined.

End VmaAlloc.
