(* ===== verification/Signal.v ===== *)
(** * Signal: feedback signal (pkg/signal/signal.go) and coverage (pkg/cover/cover.go)

    A signal maps coverage elements ([uint32]) to priorities ([int8]).  Go
    distinguishes the nil map from an empty one, and so does the model
    ([option (gmap Z Z)]); what a signal means is the finite map [sm s], and
    [sig_equiv] identifies signals with the same meaning.  The iteration order
    of Go maps is unspecified: it is the parameter [range] of the operations
    that iterate, an arbitrary enumeration of the map. *)

From S2P Require Import Prelude.

Module Sig.

Notation Signal := (option (gmap Z Z)).

Record Serial := MkSerial { Elems : list Z; Prios : list Z }.

(** The contents of a possibly nil map. *)
Definition sm (s : Signal) : gmap Z Z := default ∅ s.
Arguments sm : simpl never.

Definition Len (s : Signal) : Z := Z.of_nat (size (sm s)).

Definition Empty (s : Signal) : bool := bool_decide (Len s = 0).

(** [prioType(prio)] of a [uint8]. *)
Definition prioType (prio : Z) : Z := wrapS 8 prio.

Definition FromRaw (raw : list Z) (prio : Z) : Signal :=
  if decide (raw = []) then None
  else Some (foldl (λ s e, <[e := prioType prio]> s) ∅ raw).

Definition AddElem (ser : Serial) (elem prio : Z) : Serial :=
  MkSerial (Elems ser ++ [elem]) (Prios ser ++ [prio]).

Definition Deserialize (ser : Serial) : res Signal :=
  if decide (length (Elems ser) ≠ length (Prios ser)) then Panic "corrupted Serial"
  else if decide (length (Elems ser) = 0%nat) then Ret None
  else Ret (Some (foldl (λ s ep, <[ep.1 := ep.2]> s) ∅ (zip (Elems ser) (Prios ser)))).

(** [res] starts as a nil map and is only made when something is added. *)
Definition addTo (r : Signal) (e p : Z) : Signal := Some (<[e := p]> (sm r)).

Definition DiffRaw (s : Signal) (raw : list Z) (prio : Z) : Signal :=
  foldl (λ r e,
    match sm s !! e with
    | Some p => if decide (prioType prio ≤ p) then r else addTo r e (prioType prio)
    | None => addTo r e (prioType prio)
    end) None raw.

Section range.
Variable range : gmap Z Z → list (Z * Z).

Definition Copy (s : Signal) : Signal :=
  Some (foldl (λ c ep, <[ep.1 := ep.2]> c) ∅ (range (sm s))).

Fixpoint splitLoop (n : Z) (l : list (Z * Z)) (s c : gmap Z Z) : gmap Z Z * gmap Z Z :=
  match l with
  | [] => (s, c)
  | (e, p) :: l =>
    let s := delete e s in
    let c := <[e := p]> c in
    if decide (n - 1 = 0) then (s, c) else splitLoop (n - 1) l s c
  end.

(** The first component is the returned signal, the second the receiver. *)
Definition Split (s : Signal) (n : Z) : Signal * Signal :=
  if Empty s then (None, s)
  else let '(s', c) := splitLoop n (range (sm s)) (sm s) ∅ in
       (Some c, if decide (size s' = 0%nat) then None else Some s').

Definition Serialize (s : Signal) : Serial :=
  if Empty s then MkSerial [] []
  else MkSerial (range (sm s)).*1 (range (sm s)).*2.

Definition Diff (s s1 : Signal) : Signal :=
  if Empty s1 then None
  else foldl (λ r '(e, p1),
    match sm s !! e with
    | Some p => if decide (p1 ≤ p) then r else addTo r e p1
    | None => addTo r e p1
    end) None (range (sm s1)).

Definition Intersection (s s1 : Signal) : Signal :=
  if Empty s1 then None
  else Some (foldl (λ r '(e, p),
    match sm s1 !! e with
    | Some p1 => if decide (p ≤ p1) then <[e := p]> r else r
    | None => r
    end) ∅ (range (sm s))).

Definition mergeElem (s0 : gmap Z Z) (ep : Z * Z) : gmap Z Z :=
  let '(e, p1) := ep in
  match s0 !! e with
  | Some p => if decide (p < p1) then <[e := p1]> s0 else s0
  | None => <[e := p1]> s0
  end.

Definition Merge (s s1 : Signal) : Signal :=
  if Empty s1 then s
  else Some (foldl mergeElem (sm s) (range (sm s1))).

(** [Minimize]: [covered] keeps, for each element, the best priority and the
    first input that has it; the inputs named there are returned, in the
    iteration order [rangeIdx] of the set of their indices. *)
Variable rangeIdx : gset nat → list nat.

Definition coverElem (i : nat) (covered : gmap Z (Z * nat)) (ep : Z * Z) : gmap Z (Z * nat) :=
  let '(e, p) := ep in
  match covered !! e with
  | Some (prio, _) => if decide (p > prio) then <[e := (p, i)]> covered else covered
  | None => <[e := (p, i)]> covered
  end.

Definition coverInput {C} (covered : gmap Z (Z * nat)) (iinp : nat * (Signal * C)) :=
  foldl (coverElem iinp.1) covered (range (sm iinp.2.1)).

Definition covered {C} (corpus : list (Signal * C)) : gmap Z (Z * nat) :=
  foldl coverInput ∅ (zip (seq 0 (length corpus)) corpus).

Definition indices {C} (corpus : list (Signal * C)) : gset nat :=
  list_to_set ((map_to_list (covered corpus)).*2.*2).

Definition Minimize {C} (corpus : list (Signal * C)) : list C :=
  omap (λ idx, snd <$> corpus !! idx) (rangeIdx (indices corpus)).
End range.

(** ** Meaning of signals *)

Definition sig_equiv (s1 s2 : Signal) : Prop := sm s1 = sm s2.

(** [s1] carries nothing that [s2] does not have with at least its priority. *)
Definition sig_le (s1 s2 : Signal) : Prop :=
  ∀ e p, sm s1 !! e = Some p → ∃ p', sm s2 !! e = Some p' ∧ p ≤ p'.

(** Union with the larger priority. *)
Definition sig_max (p p1 : option Z) : option Z := union_with (λ a b, Some (Z.max a b)) p p1.

#[global] Instance sig_equiv_equivalence : Equivalence sig_equiv.
Proof. split; unfold sig_equiv; repeat intro; congruence. Qed.

#[global] Instance sig_le_proper : Proper (sig_equiv ==> sig_equiv ==> iff) sig_le.
Proof. intros a b Hab c d Hcd. unfold sig_le, sig_equiv in *. by rewrite Hab, Hcd. Qed.

#[global] Instance sig_le_preorder : PreOrder sig_le.
Proof.
  split.
  - intros s e p Hp. eauto with lia.
  - intros a b c Hab Hbc e p Hp. destruct (Hab e p Hp) as (p' & Hp' & ?).
    destruct (Hbc e p' Hp') as (p'' & ? & ?). eauto with lia.
Qed.

Lemma sig_le_antisymm s1 s2 : sig_le s1 s2 → sig_le s2 s1 → sig_equiv s1 s2.
Proof.
  intros H1 H2. apply map_eq. intros e. destruct (sm s1 !! e) as [p|] eqn:E1.
  - destruct (H1 e p E1) as (p' & E2 & ?). destruct (H2 e p' E2) as (p'' & ? & ?).
    rewrite E2. f_equal. simplify_eq. lia.
  - destruct (sm s2 !! e) as [p|] eqn:E2; [|done].
    destruct (H2 e p E2) as (? & ? & _). congruence.
Qed.

Lemma Empty_spec s : Empty s = true ↔ sm s = ∅.
Proof.
  unfold Empty, Len. rewrite bool_decide_eq_true. rewrite <-map_size_empty_iff. lia.
Qed.

Lemma Empty_false s : Empty s = false ↔ sm s ≠ ∅.
Proof. rewrite <-Empty_spec. destruct (Empty s); naive_solver. Qed.

Lemma sm_addTo r e p : sm (addTo r e p) = <[e := p]> (sm r).
Proof. done. Qed.

Lemma sm_None e : sm None !! e = None.
Proof. apply lookup_empty. Qed.

(** Solve that a loop body only touches the key it visits. *)
Ltac keywise_tac :=
  intros b k v k'; cbn -[lookup insert sm];
  repeat first [case_decide | case_match]; unfold addTo, sm in *; simpl in *; simplify_eq;
  rewrite ?lookup_insert; repeat case_decide; simplify_eq; try done;
  repeat match goal with H : _ !! _ = Some _ |- _ => rewrite H; clear H end;
  f_equal; lia.

Lemma mergeElem_keywise :
  keywise (λ b, b) mergeElem
    (λ _ o p1, match o with Some p => Some (Z.max p p1) | None => Some p1 end).
Proof. keywise_tac. Qed.

Section laws.
Variable range : gmap Z Z → list (Z * Z).
Hypothesis range_ok : enumerates range.

Lemma sm_Merge s s1 e : sm (Merge range s s1) !! e = sig_max (sm s !! e) (sm s1 !! e).
Proof.
  unfold Merge. destruct (Empty s1) eqn:E.
  - apply Empty_spec in E. rewrite E, lookup_empty. by destruct (sm s !! e).
  - unfold sm at 1. simpl. rewrite (foldl_range _ _ _ range (sm s1) (sm s) e range_ok mergeElem_keywise).
    by destruct (sm s1 !! e), (sm s !! e).
Qed.

Lemma sm_Diff s s1 e :
  sm (Diff range s s1) !! e =
    match sm s1 !! e, sm s !! e with
    | Some p1, Some p => if decide (p1 ≤ p) then None else Some p1
    | o, _ => o
    end.
Proof.
  unfold Diff. destruct (Empty s1) eqn:E.
  { apply Empty_spec in E. by rewrite E, lookup_empty. }
  rewrite (foldl_range sm _ (λ k o p1, match sm s !! k with
      Some p => if decide (p1 ≤ p) then o else Some p1 | None => Some p1 end)).
  - rewrite sm_None. by repeat case_match.
  - done.
  - keywise_tac.
Qed.

Lemma sm_FromRaw raw prio e :
  sm (FromRaw raw prio) !! e = if decide (e ∈ raw) then Some (prioType prio) else None.
Proof.
  unfold FromRaw. case_decide as E; [subst; by rewrite decide_False by set_solver|]. clear E.
  unfold sm. simpl. induction raw as [|e' l IH] using rev_ind.
  - by rewrite decide_False by set_solver.
  - rewrite foldl_app. cbn. rewrite lookup_insert, IH.
    repeat case_decide; subst; try done; exfalso; set_solver.
Qed.

Lemma sm_DiffRaw s raw prio e :
  sm (DiffRaw s raw prio) !! e = sm (Diff range s (FromRaw raw prio)) !! e.
Proof.
  rewrite sm_Diff, sm_FromRaw. unfold DiffRaw.
  induction raw as [|e' l IH] using rev_ind.
  { rewrite decide_False by set_solver. done. }
  rewrite foldl_app. simpl. destruct (decide (e = e')) as [<-|Hne].
  - rewrite (decide_True (P := e ∈ _ ++ _)) by set_solver.
    destruct (sm s !! e) as [p|] eqn:E; [destruct (decide (prioType prio ≤ p))|].
    + rewrite IH. by destruct (decide (e ∈ l)); rewrite ?decide_True by done.
    + by rewrite sm_addTo, lookup_insert_eq.
    + by rewrite sm_addTo, lookup_insert_eq.
  - match goal with |- _ = ?R => transitivity (sm (foldl (λ r e0, match sm s !! e0 with
        | Some p => if decide (prioType prio ≤ p) then r else addTo r e0 (prioType prio)
        | None => addTo r e0 (prioType prio) end) None l) !! e) end.
    { repeat case_match; rewrite ?sm_addTo, ?lookup_insert_ne by done; done. }
    rewrite IH. repeat case_decide; try done; exfalso; set_solver.
Qed.

Lemma sm_Intersection s s1 e :
  sm (Intersection range s s1) !! e =
    match sm s !! e, sm s1 !! e with
    | Some p, Some p1 => if decide (p ≤ p1) then Some p else None
    | _, _ => None
    end.
Proof.
  unfold Intersection. destruct (Empty s1) eqn:E.
  { apply Empty_spec in E. rewrite E, !lookup_empty. by destruct (sm s !! e). }
  unfold sm at 1. simpl. rewrite (foldl_range (λ b, b) _ (λ k o p, match sm s1 !! k with
      Some p1 => if decide (p ≤ p1) then Some p else o | None => o end)).
  - rewrite lookup_empty. by repeat case_match.
  - done.
  - keywise_tac.
Qed.

Lemma sm_Copy s : sm (Copy range s) = sm s.
Proof.
  apply map_eq; intros e. unfold Copy, sm at 1. simpl.
  rewrite (foldl_range (λ b, b) _ (λ k o p, Some p)).
  - rewrite lookup_empty. by destruct (sm s !! e).
  - done.
  - intros b k v k'. simpl. rewrite lookup_insert. done.
Qed.

Lemma sig_max_le_l a b p : a = Some p → ∃ p', sig_max a b = Some p' ∧ p ≤ p'.
Proof. intros ->. destruct b; simpl; eauto with lia. Qed.

Lemma sig_max_le_r a b p : b = Some p → ∃ p', sig_max a b = Some p' ∧ p ≤ p'.
Proof. intros ->. destruct a; simpl; eauto with lia. Qed.

Lemma merge_ub_l s s1 : sig_le s (Merge range s s1).
Proof. intros e p Hp. rewrite sm_Merge. by apply sig_max_le_l. Qed.

Lemma merge_ub_r s s1 : sig_le s1 (Merge range s s1).
Proof. intros e p Hp. rewrite sm_Merge. by apply sig_max_le_r. Qed.

Lemma merge_least s s1 t : sig_le s t → sig_le s1 t → sig_le (Merge range s s1) t.
Proof.
  intros Hs Hs1 e p. rewrite sm_Merge.
  destruct (sm s !! e) as [a|] eqn:Ea, (sm s1 !! e) as [b|] eqn:Eb; simpl; intros [= <-].
  - destruct (Hs e a Ea) as (a' & Ha & ?), (Hs1 e b Eb) as (b' & Hb & ?).
    simplify_eq. eauto with lia.
  - eauto.
  - eauto.
Qed.

(** C24. [Merge] computes the least upper bound of two signals: the result has
    everything both have, with at least their priorities, and nothing more. *)
Theorem merge_lub s s1 :
  sig_le s (Merge range s s1) ∧ sig_le s1 (Merge range s s1) ∧
  ∀ t, sig_le s t → sig_le s1 t → sig_le (Merge range s s1) t.
Proof. eauto using merge_ub_l, merge_ub_r, merge_least. Qed.

(** [Diff] is the new part of [s1]: adding it to [s] gives the same as
    adding all of [s1], it is empty exactly when [s1] brings nothing new, and
    each of its elements is strictly better than what [s] has. *)
Theorem diff_exact s s1 :
  sig_equiv (Merge range s (Diff range s s1)) (Merge range s s1) ∧
  (Empty (Diff range s s1) = true ↔ sig_le s1 s) ∧
  (∀ e p, sm (Diff range s s1) !! e = Some p →
     sm s1 !! e = Some p ∧ ∀ p', sm s !! e = Some p' → p' < p).
Proof.
  split_and!.
  - apply map_eq. intros e. rewrite !sm_Merge, sm_Diff.
    destruct (sm s1 !! e), (sm s !! e); simpl; repeat case_decide; simpl; try done; f_equal; lia.
  - rewrite Empty_spec. split.
    + intros He e p Hp. apply (f_equal (lookup e)) in He.
      rewrite sm_Diff, Hp, lookup_empty in He. destruct (sm s !! e) as [p'|]; [|done].
      case_decide; [eauto|done].
    + intros Hle. apply map_eq. intros e. rewrite sm_Diff, lookup_empty.
      destruct (sm s1 !! e) as [p|] eqn:E; [|done].
      destruct (Hle e p E) as (p' & -> & ?). by rewrite decide_True.
  - intros e p. rewrite sm_Diff.
    destruct (sm s1 !! e), (sm s !! e); simpl; repeat case_decide; naive_solver lia.
Qed.

(** The raw-signal fast path [DiffRaw] agrees with building the signal by
    [FromRaw] and taking its [Diff]. *)
Theorem diffRaw_is_diff s raw prio :
  sig_equiv (DiffRaw s raw prio) (Diff range s (FromRaw raw prio)).
Proof. apply map_eq. intros e. apply sm_DiffRaw. Qed.

(** A signal survives serialization, in whatever order its elements are
    written. *)
Theorem serialize_roundtrip s :
  ∃ s', Deserialize (Serialize range s) = Ret s' ∧ sig_equiv s' s.
Proof.
  unfold Serialize, Deserialize. destruct (Empty s) eqn:E.
  { apply Empty_spec in E. exists None. unfold sig_equiv. by rewrite E. }
  apply Empty_false in E. simpl. rewrite !length_fmap. rewrite decide_False by naive_solver.
  assert (length (range (sm s)) ≠ 0%nat) as Hl.
  { rewrite (range_ok (sm s)). by rewrite length_map_to_list, map_size_empty_iff. }
  rewrite decide_False by done. eexists; split; [done|].
  rewrite zip_fst_snd. exact (sm_Copy s).
Qed.

Lemma splitLoop_take n l s c :
  0 < n →
  splitLoop n l s c =
    (foldl (λ s ep, delete ep.1 s) s (take (Z.to_nat n) l),
     foldl (λ c ep, <[ep.1 := ep.2]> c) c (take (Z.to_nat n) l)).
Proof.
  revert n s c; induction l as [|[e p] l IH]; intros n s c Hn; simpl.
  { by rewrite take_nil. }
  destruct (Z.to_nat n) as [|k] eqn:E; [lia|]. simpl. case_decide.
  - replace k with 0%nat by lia. by rewrite take_0.
  - rewrite IH by lia. by replace (Z.to_nat (n - 1)) with k by lia.
Qed.

Lemma foldl_delete_lookup (s : gmap Z Z) (l : list (Z * Z)) e :
  foldl (λ s ep, delete ep.1 s) s l !! e = if decide (e ∈ l.*1) then None else s !! e.
Proof.
  revert s; induction l as [|[e' p] l IH]; intros s; cbn [foldl fmap list_fmap fst].
  { by rewrite decide_False by set_solver. }
  rewrite IH, lookup_delete. repeat case_decide; try done; exfalso; set_solver.
Qed.

Lemma foldl_insert_lookup (c : gmap Z Z) (l : list (Z * Z)) e :
  NoDup l.*1 →
  foldl (λ c ep, <[ep.1 := ep.2]> c) c l !! e =
    match (list_to_map l : gmap Z Z) !! e with Some p => Some p | None => c !! e end.
Proof.
  apply (foldl_keywise (λ b, b) _ (λ _ _ p, Some p)).
  intros b k v k'. simpl. apply lookup_insert.
Qed.

Lemma range_NoDup m : NoDup (range m).*1.
Proof. rewrite (range_ok m). apply NoDup_fst_map_to_list. Qed.

Lemma list_to_map_range m : list_to_map (range m) = m.
Proof.
  rewrite (list_to_map_proper _ (map_to_list m)) by (apply range_NoDup || apply range_ok).
  apply list_to_map_to_list.
Qed.

(** [Split] with a positive bound [n] cuts the signal in two disjoint parts
    that together are the whole signal: the returned one has [n] elements, or
    all of them when there are fewer; the receiver keeps the rest. *)
Theorem split_partition s n :
  0 < n →
  let '(c, s') := Split range s n in
  sm c ##ₘ sm s' ∧ sm c ∪ sm s' = sm s ∧ Len c = Z.min n (Len s).
Proof.
  intros Hn. unfold Split. destruct (Empty s) eqn:E.
  { apply Empty_spec in E. unfold Len. rewrite E. split_and!; [solve_map_disjoint|done|].
    unfold sm; simpl. rewrite map_size_empty. lia. }
  rewrite splitLoop_take by done.
  set (l := take (Z.to_nat n) (range (sm s))).
  set (c := foldl _ ∅ l). set (s' := foldl _ (sm s) l).
  assert (NoDup (range (sm s)).*1) as Hnd by apply range_NoDup.
  assert (range (sm s) = l ++ drop (Z.to_nat n) (range (sm s))) as Hsplit
    by (unfold l; by rewrite take_drop).
  assert (NoDup l.*1) as Hndl.
  { rewrite Hsplit, fmap_app in Hnd. by apply NoDup_app in Hnd as [? _]. }
  assert (∀ e, c !! e = (list_to_map l : gmap Z Z) !! e) as Hc.
  { intros e. unfold c. rewrite foldl_insert_lookup by done. rewrite lookup_empty.
    by destruct (_ !! e). }
  assert (∀ e, s' !! e = match c !! e with Some _ => None | None => sm s !! e end) as Hs'.
  { intros e. unfold s'. rewrite foldl_delete_lookup, Hc. case_decide as Hin.
    - destruct (list_to_map l !! e) eqn:El; [done|].
      by apply not_elem_of_list_to_map_2 in El.
    - by rewrite (not_elem_of_list_to_map_1 l e). }
  assert (∀ e p, c !! e = Some p → sm s !! e = Some p) as Hcs.
  { intros e p. rewrite Hc. intros Hp%elem_of_list_to_map_2.
    rewrite <-(list_to_map_range (sm s)). apply elem_of_list_to_map_1; [done|].
    rewrite Hsplit. apply elem_of_app. by left. }
  assert (sm (if decide (size s' = 0%nat) then None else Some s') = s') as Hsm.
  { case_decide as Hz; [|done]. by apply map_size_empty_inv in Hz as ->. }
  rewrite Hsm. change (sm (Some c)) with c. split_and!.
  - apply map_disjoint_spec. intros e p q Hp. rewrite Hs', Hp. done.
  - apply map_eq. intros e. rewrite lookup_union, Hs'.
    destruct (c !! e) as [p|] eqn:Ec; simpl; [by rewrite (Hcs e p)|].
    by destruct (sm s !! e).
  - unfold Len. change (sm (Some c)) with c. replace c with (list_to_map l : gmap Z Z)
      by (apply map_eq; intros e; by rewrite Hc).
    rewrite map_size_list_to_map by done. unfold l. rewrite length_take.
    rewrite (range_ok (sm s)), length_map_to_list. lia.
Qed.

(** ** Minimization of a corpus *)

Variable rangeIdx : gset nat → list nat.
Hypothesis rangeIdx_ok : ∀ X, rangeIdx X ≡ₚ elements X.

(** The union of the signals of a list of inputs. *)
Definition mergeAll (l : list Signal) : Signal := foldl (Merge range) None l.

Lemma mergeAll_le l t : sig_le (mergeAll l) t ↔ ∀ s, s ∈ l → sig_le s t.
Proof.
  unfold mergeAll. induction l as [|s l IH] using rev_ind.
  - split; [set_solver|]. intros _ e p. by rewrite sm_None.
  - rewrite foldl_app. cbn [foldl]. split.
    + intros Hle s' [Hs'| ->%list_elem_of_singleton]%elem_of_app.
      * apply IH; [|done]. etrans; [apply merge_ub_l|done].
      * etrans; [apply merge_ub_r|done].
    + intros Hall. apply merge_least; [apply IH|]; set_solver.
Qed.

Lemma mergeAll_ub l s : s ∈ l → sig_le s (mergeAll l).
Proof. revert s. by apply mergeAll_le. Qed.

Lemma coverInput_lookup {C} cov i (inp : Signal * C) e :
  coverInput range cov (i, inp) !! e =
    match sm inp.1 !! e with
    | Some p => match cov !! e with
                | Some (q, j) => if decide (p > q) then Some (p, i) else Some (q, j)
                | None => Some (p, i)
                end
    | None => cov !! e
    end.
Proof.
  unfold coverInput. simpl. apply (foldl_range (λ b, b) (coverElem i) (λ _ o p,
    match o with Some (q, j) => if decide (p > q) then Some (p, i) else Some (q, j)
               | None => Some (p, i) end)); [done|].
  intros b k v k'. unfold coverElem. destruct (b !! k) as [[q j]|] eqn:Eb;
    repeat case_decide; subst; rewrite ?lookup_insert, ?decide_True, ?decide_False by done; done.
Qed.

Lemma covered_snoc {C} (corpus : list (Signal * C)) inp :
  covered range (corpus ++ [inp]) = coverInput range (covered range corpus) (length corpus, inp).
Proof.
  unfold covered. rewrite length_app. simpl. rewrite Nat.add_1_r, seq_S.
  rewrite zip_with_app by (by rewrite length_seq). by rewrite foldl_app.
Qed.

(** [covered] names, for each element, the first of the inputs that have it
    with the highest priority. *)
Definition best {C} (corpus : list (Signal * C)) (e p : Z) (i : nat) : Prop :=
  (∃ inp, corpus !! i = Some inp ∧ sm inp.1 !! e = Some p) ∧
  ∀ j inp p', corpus !! j = Some inp → sm inp.1 !! e = Some p' →
    p' ≤ p ∧ ((j < i)%nat → p' < p).

Lemma covered_spec {C} (corpus : list (Signal * C)) e :
  match covered range corpus !! e with
  | Some (p, i) => best corpus e p i
  | None => ∀ j inp, corpus !! j = Some inp → sm inp.1 !! e = None
  end.
Proof.
  induction corpus as [|inp corpus IH] using rev_ind.
  { unfold covered. simpl. rewrite lookup_empty. by intros [|j] inp. }
  rewrite covered_snoc, coverInput_lookup.
  assert (∀ j inp', (corpus ++ [inp]) !! j = Some inp' →
    corpus !! j = Some inp' ∨ j = length corpus ∧ inp' = inp) as Hsnoc.
  { intros j inp' [?|[? Hj]]%lookup_app_Some; [by left|].
    apply list_lookup_singleton_Some in Hj as [??]. right; split; [lia|done]. }
  assert (∀ i inp', corpus !! i = Some inp' → (corpus ++ [inp]) !! i = Some inp') as Hl
    by (intros; by apply lookup_app_l_Some).
  assert ((corpus ++ [inp]) !! length corpus = Some inp) as Hlast
    by (by rewrite lookup_app_r, Nat.sub_diag by done).
  destruct (sm inp.1 !! e) as [p|] eqn:Ep.
  - destruct (covered range corpus !! e) as [[q i]|]; [case_decide as Hgt|].
    + destruct IH as [_ Hub]. split; [eauto|].
      intros j inp' p' [Hj|[-> ->]]%Hsnoc Hp'; [|simplify_eq; split; lia].
      destruct (Hub j inp' p' Hj Hp'). split; lia.
    + destruct IH as [(inp' & Hi & Hq) Hub]. split; [eauto|].
      intros j inp'' p' [Hj|[-> ->]]%Hsnoc Hp'; [eauto|].
      simplify_eq. apply lookup_lt_Some in Hi. split; lia.
    + split; [eauto|]. intros j inp' p' [Hj|[-> ->]]%Hsnoc Hp'.
      * by rewrite (IH j inp' Hj) in Hp'.
      * simplify_eq. split; lia.
  - destruct (covered range corpus !! e) as [[q i]|].
    + destruct IH as [(inp' & Hi & Hq) Hub]. split; [eauto|].
      intros j inp'' p' [Hj|[-> ->]]%Hsnoc Hp'; [eauto|congruence].
    + intros j inp' [Hj|[-> ->]]%Hsnoc; eauto.
Qed.

Lemma indices_spec {C} (corpus : list (Signal * C)) i :
  i ∈ indices range corpus ↔ ∃ e p, covered range corpus !! e = Some (p, i).
Proof.
  unfold indices. rewrite elem_of_list_to_set. rewrite list_elem_of_fmap. split.
  - intros ([p i'] & -> & ([e q] & Heq & Hin)%list_elem_of_fmap). simpl in *. subst.
    exists e, p. by apply elem_of_map_to_list.
  - intros (e & p & H%elem_of_map_to_list). exists (p, i). split; [done|].
    apply list_elem_of_fmap. by exists (e, (p, i)).
Qed.

Lemma elem_of_Minimize {C} (corpus : list (Signal * C)) c :
  c ∈ Minimize range rangeIdx corpus ↔
  ∃ e p i inp, covered range corpus !! e = Some (p, i) ∧ corpus !! i = Some inp ∧ c = inp.2.
Proof.
  unfold Minimize. rewrite list_elem_of_omap. split.
  - intros (i & Hi & Hc). rewrite rangeIdx_ok, elem_of_elements, indices_spec in Hi.
    destruct Hi as (e & p & Hcov). destruct (corpus !! i) as [inp|] eqn:E; simplify_eq/=.
    exists e, p, i, inp. done.
  - intros (e & p & i & inp & Hcov & Hi & ->). exists i. split; [|by rewrite Hi].
    rewrite rangeIdx_ok, elem_of_elements, indices_spec. eauto.
Qed.

End laws.

(** ** Concrete signals *)

Definition ex1 : Signal := Some {[ 10 := 1; 20 := 3 ]}.
Definition ex2 : Signal := Some {[ 20 := 2; 30 := 1 ]}.

Lemma map_to_list_enumerates : enumerates (map_to_list (K := Z) (A := Z)).
Proof. intros m. done. Qed.

Lemma merge_lub_witness :
  sig_le ex1 (Merge map_to_list ex1 ex2) ∧
  map_to_list (sm (Merge map_to_list ex1 ex2)) ≡ₚ [(10, 1); (20, 3); (30, 1)].
Proof.
  split; [apply (merge_lub map_to_list map_to_list_enumerates ex1 ex2)|].
  vm_compute. solve_Permutation.
Defined.

Lemma diff_exact_witness :
  sig_equiv (Merge map_to_list ex1 (Diff map_to_list ex1 ex2)) (Merge map_to_list ex1 ex2) ∧
  map_to_list (sm (Diff map_to_list ex1 ex2)) = [(30, 1)].
Proof.
  split; [apply (diff_exact map_to_list map_to_list_enumerates ex1 ex2)|reflexivity].
Defined.

Lemma diffRaw_is_diff_witness :
  sig_equiv (DiffRaw ex1 [20; 30; 30] 200) (Diff map_to_list ex1 (FromRaw [20; 30; 30] 200)).
Proof. apply (diffRaw_is_diff map_to_list map_to_list_enumerates). Defined.

Lemma serialize_roundtrip_witness :
  ∃ s', Deserialize (Serialize map_to_list ex1) = Ret s' ∧ sig_equiv s' ex1.
Proof. apply (serialize_roundtrip map_to_list map_to_list_enumerates). Defined.

Lemma split_partition_witness :
  let '(c, s') := Split map_to_list ex1 1 in sm c ∪ sm s' = sm ex1 ∧ Len c = 1.
Proof.
  pose proof (split_partition map_to_list map_to_list_enumerates ex1 1 eq_refl) as H.
  destruct (Split map_to_list ex1 1) as [c s']. destruct H as (_ & H1 & H2).
  split; [exact H1|]. rewrite H2. reflexivity.
Defined.


End Sig.

Module Cover.

Notation Cover := (option (gset Z)).

(** The contents of a possibly nil coverage map. *)
Definition pcs (cov : Cover) : gset Z := default ∅ cov.

Definition Merge (cov : Cover) (raw : list Z) : Cover :=
  Some (foldl (λ c pc, {[pc]} ∪ c) (pcs cov) raw).

(** One iteration of [MergeDiff]; [raw] is overwritten in place behind the
    read position. *)
Definition mergeDiffStep (i : Z) (st : gset Z * list Z * nat) : res (gset Z * list Z * nat) :=
  let '(c, raw, n) := st in
  let! pc := index raw i in
  if decide (pc ∈ c) then Ret st
  else Ret ({[pc]} ∪ c, <[n := pc]> raw, S n).

(** Returns the coverage, the new PCs [raw[:n]] and the overwritten [raw]. *)
Definition MergeDiff (cov : Cover) (raw : list Z) : res (Cover * list Z * list Z) :=
  let! '(c, raw', n) :=
    for_list mergeDiffStep (seqZ 0 (Z.of_nat (length raw))) (pcs cov, raw, 0%nat) in
  Ret (Some c, take n raw', raw').

Definition Serialize (range : gset Z → list Z) (cov : Cover) : list Z := range (pcs cov).

(** What [MergeDiff] should return: the PCs not seen before, in the order of
    their first occurrence. *)
Fixpoint newPcs (c : gset Z) (raw : list Z) : list Z :=
  match raw with
  | [] => []
  | pc :: raw => if decide (pc ∈ c) then newPcs c raw else pc :: newPcs ({[pc]} ∪ c) raw
  end.

Lemma newPcs_snoc c l pc :
  newPcs c (l ++ [pc]) =
    newPcs c l ++ (if decide (pc ∈ c ∪ list_to_set l) then [] else [pc]).
Proof.
  revert c; induction l as [|x l IH]; intros c; simpl.
  - repeat case_decide; try done; exfalso; set_solver.
  - case_decide; rewrite IH.
    + f_equal. rewrite (decide_ext _ (pc ∈ c ∪ ({[x]} ∪ list_to_set l))) by set_solver. done.
    + simpl. do 2 f_equal.
      by rewrite (decide_ext _ (pc ∈ c ∪ ({[x]} ∪ list_to_set l))) by set_solver.
Qed.

Lemma newPcs_length c l : (length (newPcs c l) ≤ length l)%nat.
Proof. revert c; induction l as [|x l IH]; intros c; simpl; [done|].
  case_decide; simpl; [specialize (IH c)|specialize (IH ({[x]} ∪ c))]; lia.
Qed.

Lemma elem_of_newPcs c l pc : pc ∈ newPcs c l ↔ pc ∈ l ∧ pc ∉ c.
Proof.
  revert c; induction l as [|x l IH]; intros c; simpl; [set_solver|].
  case_decide; rewrite ?elem_of_cons, IH; [set_solver|].
  destruct (decide (pc = x)); set_solver.
Qed.

Lemma NoDup_newPcs c l : NoDup (newPcs c l).
Proof.
  revert c; induction l as [|x l IH]; intros c; simpl; [constructor|].
  case_decide; [done|]. constructor; [|done]. rewrite elem_of_newPcs. set_solver.
Qed.

Lemma mergeDiff_loop (c0 : gset Z) raw0 :
  ∃ st, for_list mergeDiffStep (seqZ 0 (Z.of_nat (length raw0))) (c0, raw0, 0%nat) = Ret st ∧
    st.1.1 = c0 ∪ list_to_set raw0 ∧ take st.2 st.1.2 = newPcs c0 raw0 ∧
    length st.1.2 = length raw0.
Proof.
  destruct (for_list_inv (λ d st,
    st.1.1 = c0 ∪ list_to_set (take (length d) raw0) ∧
    take st.2 st.1.2 = newPcs c0 (take (length d) raw0) ∧
    st.2 = length (newPcs c0 (take (length d) raw0)) ∧
    drop (length d) st.1.2 = drop (length d) raw0 ∧ length st.1.2 = length raw0)
    mergeDiffStep (seqZ 0 (Z.of_nat (length raw0))) (c0, raw0, 0%nat))
    as (st & Hfor & Hc & Htake & _ & _ & Hlen).
  - simpl. split_and!; try done. set_solver.
  - intros d x r [[c raw] n] Hl (Hc & Htake & Hn & Hdrop & Hlen); simpl in *.
    assert (seqZ 0 (Z.of_nat (length raw0)) !! length d = Some x) as Hx
      by (by rewrite Hl, list_lookup_middle).
    apply lookup_seqZ in Hx as [-> Hd]. rewrite Z.add_0_l. unfold mergeDiffStep.
    destruct (lookup_lt_is_Some_2 raw (length d)) as [pc Hpc]; [lia|].
    rewrite (index_lookup raw (length d) pc) by done. simpl.
    assert (raw0 !! length d = Some pc) as Hpc0.
    { rewrite <-(Nat.add_0_r (length d)), <-lookup_drop, <-Hdrop, lookup_drop.
      by rewrite Nat.add_0_r. }
    assert (n ≤ length d)%nat as Hnd.
    { rewrite Hn. etrans; [apply newPcs_length|]. rewrite length_take. lia. }
    rewrite length_app; simpl. rewrite Nat.add_1_r, (take_S_r _ _ _ Hpc0), newPcs_snoc, <-Hc.
    rewrite list_to_set_app_L. simpl.
    assert (drop (S (length d)) raw = drop (S (length d)) raw0) as HdropS.
    { by rewrite <-Nat.add_1_r, <-!drop_drop, Hdrop. }
    destruct (decide (pc ∈ c)) as [Hin|Hin]; eexists; (split; [done|]); simpl.
    + rewrite app_nil_r. split_and!; [set_solver|done..].
    + rewrite length_app; simpl. split_and!.
      * set_solver.
      * rewrite (take_S_r _ n pc) by (rewrite list_lookup_insert_eq; [done|lia]).
        rewrite take_insert_ge by lia. by rewrite Htake.
      * rewrite <-Htake, length_take. lia.
      * rewrite drop_insert_lt by lia. done.
      * by rewrite length_insert.
  - exists st. rewrite length_seqZ, Nat2Z.id, firstn_all in Hc, Htake. done.
Qed.

(** [MergeDiff], which compacts the new PCs in place into the front of its
    argument, returns the PCs not covered before, each once and in order, and
    the coverage becomes the union; it never goes out of range. *)
Theorem mergeDiff_correct cov raw :
  ∃ cov' raw', MergeDiff cov raw = Ret (cov', newPcs (pcs cov) raw, raw') ∧
    pcs cov' = pcs cov ∪ list_to_set raw ∧ length raw' = length raw ∧
    NoDup (newPcs (pcs cov) raw) ∧
    (∀ pc, pc ∈ newPcs (pcs cov) raw ↔ pc ∈ raw ∧ pc ∉ pcs cov).
Proof.
  unfold MergeDiff. destruct (mergeDiff_loop (pcs cov) raw) as ([[c raw'] n] & -> & Hc & Ht & Hl).
  simpl in *. eexists _, _. rewrite Ht.
  eauto using NoDup_newPcs, elem_of_newPcs.
Qed.

(** [Merge] accumulates the same coverage. *)
Lemma merge_pcs cov raw : pcs (Merge cov raw) = pcs cov ∪ list_to_set raw.
Proof.
  unfold Merge. simpl. generalize (pcs cov). induction raw as [|pc raw IH]; intros c; simpl.
  - set_solver.
  - rewrite IH. set_solver.
Qed.

End Cover.
