(* ===== verification/Corpus.v ===== *)
(** * Corpus: the fuzzer's corpus (pkg/fuzzer/corpus.go)

    Every method takes the mutex for its whole body, so a method is one atomic
    step on the state.  Programs and their hashes are opaque to this component
    and are parameters of the section.  The steps form the relation [step];
    [wf] is the invariant of the states reachable from [newCorpus]. *)

From S2P Require Import Prelude Signal.

Module Corp.
Section corpus.
Context {Prog : Type} {HSig : Type} `{Countable HSig}.
Variable range : gmap Z Z → list (Z * Z).

Record Corpus := MkCorpus {
  progs : list Prog;
  hashes : gset HSig;
  sumPrios : Z;
  accPrios : list Z;
  signal : Sig.Signal;
  maxSignal : Sig.Signal;
  newSignal : Sig.Signal
}.

Record CorpusStat := MkCorpusStat { StatProgs : Z; StatSignal : Z; StatMaxSignal : Z }.

Definition newCorpus : Corpus := MkCorpus [] ∅ 0 [] None None None.

(** The priority of an input: the size of its signal, and at least 1. *)
Definition savePrio (sign : Sig.Signal) : Z :=
  if decide (Sig.Len sign = 0) then 1 else Sig.Len sign.

Definition Save (c : Corpus) (p : Prog) (sign : Sig.Signal) (sig : HSig) : Corpus :=
  let c :=
    if decide (sig ∈ hashes c) then c
    else
      let sum := wrapS 64 (sumPrios c + savePrio sign) in
      MkCorpus (progs c ++ [p]) ({[sig]} ∪ hashes c) sum (accPrios c ++ [sum])
        (signal c) (maxSignal c) (newSignal c) in
  MkCorpus (progs c) (hashes c) (sumPrios c) (accPrios c)
    (Sig.Merge range (signal c) sign) (Sig.Merge range (maxSignal c) sign) (newSignal c).

Definition AddMaxSignal (c : Corpus) (sign : Sig.Signal) : Corpus :=
  MkCorpus (progs c) (hashes c) (sumPrios c) (accPrios c)
    (signal c) (Sig.Merge range (maxSignal c) sign) (newSignal c).

Definition AddRawMaxSignal (c : Corpus) (raw : list Z) (prio : Z) : Sig.Signal * Corpus :=
  let diff := Sig.DiffRaw (maxSignal c) raw prio in
  if Sig.Empty diff then (diff, c)
  else (diff, MkCorpus (progs c) (hashes c) (sumPrios c) (accPrios c) (signal c)
                (Sig.Merge range (maxSignal c) diff) (Sig.Merge range (newSignal c) diff)).

(** [randVal] is the outcome of [r.Int63n(corpus.sumPrios + 1)]. *)
Definition chooseIdx (c : Corpus) (randVal : Z) : Z :=
  sortSearch (Z.of_nat (length (accPrios c)))
    (λ i, bool_decide (randVal ≤ default randVal (accPrios c !! Z.to_nat i))).

Definition chooseProgram (c : Corpus) (r : rng) : res (option Prog * rng) :=
  if decide (length (progs c) = 0%nat) then Ret (None, r)
  else
    let! '(randVal, r) := intn (wrapS 64 (sumPrios c + 1)) r in
    let! p := index (progs c) (chooseIdx c randVal) in
    Ret (Some p, r).

Definition Programs (c : Corpus) : list Prog := progs c.

Definition GrabNewSignal (c : Corpus) : Sig.Signal * Corpus :=
  (newSignal c,
   MkCorpus (progs c) (hashes c) (sumPrios c) (accPrios c) (signal c) (maxSignal c) None).

Definition Stat (c : Corpus) : CorpusStat :=
  MkCorpusStat (Z.of_nat (length (progs c))) (Sig.Len (signal c)) (Sig.Len (maxSignal c)).

(** ** The state machine *)

(** The total of the priorities is an [int64]; a run is followed as long as it
    does not overflow. *)
Inductive step : Corpus → Corpus → Prop :=
| step_save c p sign sig :
    sumPrios c + savePrio sign + 1 < 2 ^ 63 → step c (Save c p sign sig)
| step_addMax c sign : step c (AddMaxSignal c sign)
| step_addRaw c raw prio : step c (AddRawMaxSignal c raw prio).2
| step_grab c : step c (GrabNewSignal c).2.

Definition reachable : Corpus → Prop := rtc step newCorpus.

(** Running sums of the priorities. *)
Fixpoint prefixSums (acc : Z) (prios : list Z) : list Z :=
  match prios with
  | [] => []
  | p :: prios => (acc + p) :: prefixSums (acc + p) prios
  end.

Record wf (c : Corpus) (prios : list Z) : Prop := {
  wf_len : length prios = length (progs c);
  wf_hashes : size (hashes c) = length (progs c);
  wf_pos : Forall (λ p, 1 ≤ p) prios;
  wf_acc : accPrios c = prefixSums 0 prios;
  wf_sum : sumPrios c = sumZ prios;
  wf_bound : sumPrios c + 1 < 2 ^ 63;
  wf_signal : Sig.sig_le (signal c) (maxSignal c);
  wf_new : Sig.sig_le (newSignal c) (maxSignal c)
}.

(** ** Lemmas *)

Lemma prefixSums_app acc l1 l2 :
  prefixSums acc (l1 ++ l2) = prefixSums acc l1 ++ prefixSums (acc + sumZ l1) l2.
Proof.
  revert acc; induction l1 as [|p l1 IH]; intros acc; simpl; [f_equal; lia|].
  rewrite IH. do 3 f_equal. lia.
Qed.

Lemma length_prefixSums acc l : length (prefixSums acc l) = length l.
Proof. revert acc; induction l; intros; simpl; auto. Qed.

Lemma lookup_prefixSums acc l (i : nat) :
  (i < length l)%nat → prefixSums acc l !! i = Some (acc + sumZ (take (S i) l)).
Proof.
  revert acc i; induction l as [|p l IH]; intros acc [|i] Hi; simpl in *; try lia.
  - simpl. f_equal. lia.
  - rewrite IH by lia. simpl. f_equal. lia.
Qed.

Lemma sumZ_take_mono l (i j : nat) :
  Forall (λ p, 1 ≤ p) l → (i ≤ j)%nat → sumZ (take i l) ≤ sumZ (take j l).
Proof. intros Hl. apply sumZ_take_le. eapply Forall_impl; [exact Hl|]. simpl. lia. Qed.

Lemma savePrio_pos sign : 1 ≤ savePrio sign.
Proof. unfold savePrio, Sig.Len. case_decide; lia. Qed.

Hypothesis range_ok : enumerates range.

Lemma save_wf c prios p sign sig :
  wf c prios → sumPrios c + savePrio sign + 1 < 2 ^ 63 →
  ∃ prios', wf (Save c p sign sig) prios'.
Proof.
  intros [Hl Hh Hp Ha Hs Hb Hsg Hn] Hov.
  assert (Sig.sig_le (Sig.Merge range (signal c) sign) (Sig.Merge range (maxSignal c) sign)) as Hle1.
  { apply Sig.merge_least; [done| |by apply Sig.merge_ub_r].
    etrans; [done|by apply Sig.merge_ub_l]. }
  assert (Sig.sig_le (newSignal c) (Sig.Merge range (maxSignal c) sign)) as Hle2.
  { etrans; [done|by apply Sig.merge_ub_l]. }
  unfold Save. case_decide as Hin.
  - exists prios. by split.
  - exists (prios ++ [savePrio sign]). pose proof (savePrio_pos sign).
    assert (0 ≤ sumPrios c) as Hs0.
    { rewrite Hs. apply sumZ_nonneg. eapply Forall_impl; [exact Hp|]. simpl; lia. }
    assert (wrapS 64 (sumPrios c + savePrio sign) = sumPrios c + savePrio sign) as Hw.
    { unfold wrapS. rewrite Z.mod_small by lia. lia. }
    split; simpl; try done.
    + rewrite !length_app. simpl. lia.
    + rewrite size_union by set_solver. rewrite size_singleton, length_app. simpl. lia.
    + apply Forall_app. split; [done|]. by constructor.
    + rewrite prefixSums_app, Ha. simpl. do 2 f_equal. rewrite Hw, Hs. done.
    + rewrite sumZ_app. simpl. rewrite Hw, Hs. lia.
    + rewrite Hw. lia.
Qed.

Lemma step_wf c c' prios : wf c prios → step c c' → ∃ prios', wf c' prios'.
Proof.
  intros Hwf Hst. pose proof Hwf as [Hl Hh Hp Ha Hs Hb Hsg Hn].
  destruct Hst as [c p sign sig Hov|c sign|c raw prio|c].
  - by eapply save_wf.
  - exists prios. split; simpl; try done; (etrans; [done|by apply Sig.merge_ub_l]).
  - exists prios. unfold AddRawMaxSignal. destruct (Sig.Empty _) eqn:E; [done|].
    split; simpl; try done.
    + etrans; [done|by apply Sig.merge_ub_l].
    + apply Sig.merge_least; [done| |by apply Sig.merge_ub_r].
      etrans; [done|by apply Sig.merge_ub_l].
  - exists prios. by split.
Qed.

Lemma newCorpus_wf : wf newCorpus [].
Proof.
  by split.
Qed.

Lemma reachable_wf c : reachable c → ∃ prios, wf c prios.
Proof.
  unfold reachable. intros Hr.
  enough (∀ c0 c, rtc step c0 c → (∃ prios, wf c0 prios) → ∃ prios, wf c prios) as Hind.
  { eapply Hind; [exact Hr|]. exists []. apply newCorpus_wf. }
  clear c Hr. intros c0 c Hr. induction Hr as [|c0 c1 c Hst _ IH]; [done|].
  intros [prios Hwf]. apply IH. by eapply step_wf.
Qed.

Section search.
Context (c : Corpus) (prios : list Z) (x : Z) (Hwf : wf c prios) (Hx : 0 ≤ x ≤ sumPrios c) (Hne : progs c ≠ []).

Lemma search_hyps (P : Prop) :
  (Forall (λ p, 0 ≤ p) prios → 0 ≤ x ≤ sumZ prios → prios ≠ [] →
   (∀ i : nat, (i < length prios)%nat →
      bool_decide (x ≤ default x (prefixSums 0 prios !! Z.to_nat (Z.of_nat i))) =
      bool_decide (x ≤ sumZ (take (S i) prios))) → P) → P.
Proof.
  destruct Hwf as [Hl Hh Hp Ha Hs Hb Hsg Hn]. intros HP. apply HP.
  - eapply Forall_impl; [exact Hp|]. simpl. lia.
  - by rewrite <-Hs.
  - intros ->. by destruct (progs c).
  - intros i Hi. by rewrite Nat2Z.id, lookup_prefixSums by lia.
Qed.

Lemma chooseIdx_sums :
  chooseIdx c x = sortSearch (Z.of_nat (length prios)) (λ i, bool_decide (x ≤ default x (prefixSums 0 prios !! Z.to_nat i))).
Proof. destruct Hwf as [_ _ _ Ha _ _ _ _]. unfold chooseIdx. by rewrite Ha, length_prefixSums. Qed.

Lemma chooseIdx_range : 0 ≤ chooseIdx c x < Z.of_nat (length (progs c)).
Proof.
  rewrite chooseIdx_sums. destruct Hwf as [Hl _ _ _ _ _ _ _]. rewrite <-Hl.
  apply search_hyps. intros ????. by apply (search_sums prios x).
Qed.

Lemma chooseIdx_iff (i : nat) :
  (i < length prios)%nat →
  chooseIdx c x = Z.of_nat i ↔
    (if decide (i = 0%nat) then -1 else sumZ (take i prios)) < x ≤ sumZ (take (S i) prios).
Proof. intros Hi. rewrite chooseIdx_sums. apply search_hyps. intros ????. by apply (search_sums_iff prios x). Qed.
End search.


(** ** New signal reporting *)

(** A run of [AddRawMaxSignal] calls: the differences they return, in order. *)
Fixpoint addRaws (c : Corpus) (raws : list (list Z * Z)) : list Sig.Signal * Corpus :=
  match raws with
  | [] => ([], c)
  | (raw, prio) :: raws =>
    let '(d, c) := AddRawMaxSignal c raw prio in
    let '(ds, c) := addRaws c raws in (d :: ds, c)
  end.

Lemma AddRawMaxSignal_signals c raw prio d c' :
  AddRawMaxSignal c raw prio = (d, c') →
  Sig.sig_equiv (newSignal c') (Sig.Merge range (newSignal c) d) ∧
  Sig.sig_equiv (maxSignal c') (Sig.Merge range (maxSignal c) d) ∧
  Sig.sig_equiv (Sig.Merge range (maxSignal c) d)
    (Sig.Merge range (maxSignal c) (Sig.FromRaw raw prio)).
Proof.
  unfold AddRawMaxSignal. intros Heq.
  assert (Sig.sig_equiv (Sig.Merge range (maxSignal c) (Sig.DiffRaw (maxSignal c) raw prio))
    (Sig.Merge range (maxSignal c) (Sig.FromRaw raw prio))) as Hm.
  { apply map_eq. intros e. rewrite !Sig.sm_Merge, (Sig.sm_DiffRaw range), Sig.sm_Diff by done.
    destruct (Sig.sm (Sig.FromRaw raw prio) !! e), (Sig.sm (maxSignal c) !! e); simpl;
      try done. case_decide; simpl; f_equal; lia. }
  destruct (Sig.Empty _) eqn:E; simplify_eq/=; [|done].
  unfold Sig.Merge at 1 2. rewrite E. done.
Qed.

Lemma mergeAll_cons s d ds :
  Sig.sig_equiv (foldl (Sig.Merge range) s (d :: ds))
    (Sig.Merge range (Sig.Merge range s d) (Sig.mergeAll range ds)).
Proof.
  simpl. generalize (Sig.Merge range s d). clear s d.
  induction ds as [|d ds IH] using rev_ind; intros s.
  - unfold Sig.mergeAll. simpl. apply map_eq. intros e. rewrite Sig.sm_Merge, Sig.sm_None by done.
    by destruct (Sig.sm s !! e).
  - unfold Sig.mergeAll. rewrite !foldl_app. simpl. specialize (IH s).
    apply map_eq. intros e. rewrite !Sig.sm_Merge by done. unfold Sig.sig_equiv in IH.
    rewrite IH, Sig.sm_Merge by done. unfold Sig.mergeAll.
    destruct (Sig.sm s !! e), (Sig.sm (foldl _ _ _) !! e), (Sig.sm d !! e); simpl; try done;
      f_equal; lia.
Qed.

Lemma sig_max_assoc a b c : Sig.sig_max a (Sig.sig_max b c) = Sig.sig_max (Sig.sig_max a b) c.
Proof. destruct a, b, c; simpl; try done. f_equal. lia. Qed.

Lemma sm_mergeAll_cons d ds e :
  Sig.sm (Sig.mergeAll range (d :: ds)) !! e =
    Sig.sig_max (Sig.sm d !! e) (Sig.sm (Sig.mergeAll range ds) !! e).
Proof.
  pose proof (mergeAll_cons None d ds) as Hm. unfold Sig.sig_equiv in Hm.
  unfold Sig.mergeAll at 1. rewrite Hm, !Sig.sm_Merge, Sig.sm_None by done.
  by destruct (Sig.sm d !! e).
Qed.

Lemma addRaws_spec c raws e :
  let '(ds, c') := addRaws c raws in
  Sig.sm (newSignal c') !! e =
    Sig.sig_max (Sig.sm (newSignal c) !! e) (Sig.sm (Sig.mergeAll range ds) !! e) ∧
  Sig.sm (maxSignal c') !! e =
    Sig.sig_max (Sig.sm (maxSignal c) !! e)
      (Sig.sm (Sig.mergeAll range (uncurry Sig.FromRaw <$> raws)) !! e).
Proof.
  revert c; induction raws as [|[raw prio] raws IH]; intros c; simpl.
  { unfold Sig.mergeAll. simpl. rewrite Sig.sm_None.
    by destruct (Sig.sm (newSignal c) !! e), (Sig.sm (maxSignal c) !! e). }
  destruct (AddRawMaxSignal c raw prio) as [d c1] eqn:E1.
  apply AddRawMaxSignal_signals in E1 as (Hn & Hx & Hx'). specialize (IH c1).
  destruct (addRaws c1 raws) as [ds c2]. destruct IH as [IHn IHx].
  unfold Sig.sig_equiv in *. rewrite !sm_mergeAll_cons, !sig_max_assoc. simpl.
  rewrite IHn, IHx, Hn, Hx, Hx', !Sig.sm_Merge by done. done.
Qed.

(** No new signal is lost or reported twice: after a grab, the next
    [GrabNewSignal] returns the union of exactly the differences that the
    [AddRawMaxSignal] calls in between returned, and the maximal signal has
    become the old one joined with all the raw signals added. *)
Theorem grab_reports_all c raws :
  let r1 := addRaws (GrabNewSignal c).2 raws in
  let r2 := GrabNewSignal r1.2 in
  Sig.sig_equiv r2.1 (Sig.mergeAll range r1.1) ∧ newSignal r2.2 = None ∧
  Sig.sig_equiv (maxSignal r2.2)
    (Sig.Merge range (maxSignal c) (Sig.mergeAll range (uncurry Sig.FromRaw <$> raws))).
Proof.
  simpl. pose proof (addRaws_spec (GrabNewSignal c).2 raws) as H0. simpl in H0.
  destruct (addRaws _ raws) as [ds c1]. simpl. split_and!.
  - apply map_eq. intros e. destruct (H0 e) as [-> _]. rewrite Sig.sm_None.
    by destruct (Sig.sm (Sig.mergeAll range ds) !! e).
  - done.
  - apply map_eq. intros e. destruct (H0 e) as [_ ->]. by rewrite Sig.sm_Merge.
Qed.
End corpus.

Definition ex_corpus : @Corpus nat Z _ _ :=
  Save map_to_list (Save map_to_list newCorpus 7%nat Sig.ex1 100) 8%nat None 200.

Lemma ex_corpus_reachable : reachable map_to_list ex_corpus.
Proof.
  unfold reachable. eapply rtc_l; [apply (step_save _ newCorpus 7%nat Sig.ex1 100)|].
  { vm_compute. reflexivity. }
  eapply rtc_l; [apply (step_save _ _ 8%nat None 200)|apply rtc_refl].
  vm_compute. reflexivity.
Qed.


Lemma grab_reports_all_witness :
  let r1 := addRaws map_to_list (GrabNewSignal ex_corpus).2 [([10; 50], 2); ([50], 1)] in
  Sig.sig_equiv (GrabNewSignal r1.2).1 (Sig.mergeAll map_to_list r1.1).
Proof.
  exact (proj1 (grab_reports_all map_to_list Sig.map_to_list_enumerates ex_corpus
    [([10; 50], 2); ([50], 1)])).
Defined.
End Corp.
