(* ===== verification/BisectSlice.v ===== *)
(** * BisectSlice: minimization of a slice by bisection (pkg/bisect/minimize/slice.go)

    [Slice] looks for a minimal subsequence on which the predicate still holds.
    The predicate may answer differently from one run to the next, so it is a
    function of the number of the run and of the slice; it may also fail.
    Log output is not modelled. *)

From S2P Require Import Prelude.

Module SliceMin.

Section slice.
Context {T PErr : Type}.

(** [ErrTooManyChunks] is the error of this package, [PredErr] one of [Pred]. *)
Inductive error := PredErr (e : PErr) | ErrTooManyChunks.

Record Config := MkConfig {
  Pred : Z → list T → PErr + bool;
  MaxSteps : Z;
  MaxChunks : Z
}.

Record arrayChunk := MkChunk { elements : list T; final : bool }.

Record sliceCtx := MkCtx { chunks : list arrayChunk; predRuns : Z }.

Variable cfg : Config.

Definition mergeChunks (before : list arrayChunk) (mid : list T) (after : list arrayChunk) :
  list T :=
  concat (elements <$> before) ++ mid ++ concat (elements <$> after).

Definition mergeRawChunks (raw : list (list T)) : list T := concat raw.

(** [for i := 0; i < len(chunk); i += chunkSize] *)
Fixpoint splitLoop (fuel : nat) (chunkSize : nat) (chunk : list T) : list (list T) :=
  match fuel, chunk with
  | S fuel, _ :: _ => take chunkSize chunk :: splitLoop fuel chunkSize (drop chunkSize chunk)
  | _, _ => []
  end.

Definition splitChunk (chunk : list T) (parts : Z) : list (list T) :=
  let size := (Z.of_nat (length chunk) + parts - 1) `div` parts in
  let size := if decide (size = 0) then 1 else size in
  splitLoop (length chunk) (Z.to_nat size) chunk.

(** [math.Log2(float64(size)) > float64(ctx.MaxSteps)] *)
Definition initialSplit (size : Z) : Z :=
  if decide (MaxSteps cfg > 0 ∧ size > 2 ^ MaxSteps cfg) then MaxSteps cfg else 3.

Definition predRun (runs : Z) (before : list arrayChunk) (mid : list T)
    (after : list arrayChunk) : PErr + bool * Z :=
  if decide (MaxSteps cfg > 0 ∧ MaxSteps cfg ≤ runs) then inr (false, runs)
  else match Pred cfg runs (mergeChunks before mid after) with
       | inl e => inl e
       | inr b => inr (b, runs + 1)
       end.

(** The loop over the parts [chunks[j:]] of one chunk. *)
Fixpoint testParts (someNeeded : bool) (after : list arrayChunk) (newChunks : list arrayChunk)
    (foundNeeded : bool) (runs : Z) (parts : list (list T)) : PErr + list arrayChunk * Z :=
  match parts with
  | [] => inr (newChunks, runs)
  | part :: rest =>
    let keep runs :=
      testParts someNeeded after (newChunks ++ [MkChunk part false]) true runs rest in
    if decide (rest ≠ [] ∨ foundNeeded = true ∨ someNeeded = false) then
      match predRun runs newChunks (mergeRawChunks rest) after with
      | inl e => inl e
      | inr (true, runs) => testParts someNeeded after newChunks foundNeeded runs rest
      | inr (false, runs) => keep runs
      end
    else keep runs
  end.

(** The loop over [ctx.chunks[i:]]. *)
Fixpoint splitEach (someNeeded : bool) (splitInto : Z) (newChunks : list arrayChunk) (runs : Z)
    (todo : list arrayChunk) : PErr + list arrayChunk * Z :=
  match todo with
  | [] => inr (newChunks, runs)
  | chunk :: after =>
    if final chunk then splitEach someNeeded splitInto (newChunks ++ [chunk]) runs after
    else
      let parts := splitChunk (elements chunk) splitInto in
      if decide (length parts = 1%nat ∧ someNeeded = true) then
        splitEach someNeeded splitInto
          (newChunks ++ [MkChunk (elements chunk) true]) runs after
      else
        match testParts someNeeded after newChunks false runs parts with
        | inl e => inl e
        | inr (newChunks, runs) => splitEach someNeeded splitInto newChunks runs after
        end
  end.

Definition splitChunks (ctx : sliceCtx) (someNeeded : bool) : PErr + sliceCtx :=
  let splitInto :=
    match someNeeded, chunks ctx with
    | false, [chunk] => initialSplit (Z.of_nat (length (elements chunk)))
    | _, _ => 2
    end in
  match splitEach someNeeded splitInto [] (predRuns ctx) (chunks ctx) with
  | inl e => inl e
  | inr (newChunks, runs) => inr (MkCtx newChunks runs)
  end.

Definition isDone (ctx : sliceCtx) : bool :=
  bool_decide (MaxSteps cfg > 0 ∧ MaxSteps cfg ≤ predRuns ctx) || forallb final (chunks ctx).

Definition allElements (ctx : sliceCtx) : list T := mergeChunks (chunks ctx) [] [].

(** The loop of [bisect]: the final context and the error that ended it. *)
Fixpoint bisectLoop (fuel : nat) (ctx : sliceCtx) : res (sliceCtx * option error) :=
  match fuel with
  | O => OutOfFuel
  | S fuel =>
    if isDone ctx then Ret (ctx, None)
    else if decide (MaxChunks cfg > 0 ∧ Z.of_nat (length (chunks ctx)) > MaxChunks cfg) then
      Ret (ctx, Some ErrTooManyChunks)
    else match splitChunks ctx true with
         | inl e => Ret (ctx, Some (PredErr e))
         | inr ctx => bisectLoop fuel ctx
         end
  end.

(** Returns the slice (nil on an error of [Pred]) and the error. *)
Definition bisect (fuel : nat) (ctx : sliceCtx) : res (list T * option error) :=
  match splitChunks ctx false with
  | inl e => Ret ([], Some (PredErr e))
  | inr ctx =>
    let! '(ctx, err) := bisectLoop fuel ctx in
    match err with
    | Some (PredErr e) => Ret ([], err)
    | _ => Ret (allElements ctx, err)
    end
  end.

Definition Slice (fuel : nat) (slice : list T) : res (list T * option error) :=
  bisect fuel (MkCtx [MkChunk slice false] 0).

(** ** Lemmas *)

Lemma splitLoop_concat fuel size chunk :
  (0 < size)%nat → (length chunk ≤ fuel)%nat → concat (splitLoop fuel size chunk) = chunk.
Proof.
  intros Hs. revert chunk; induction fuel as [|fuel IH]; intros [|x l] Hl; simpl in *;
    try done; try lia.
  rewrite IH; [by rewrite take_drop|]. rewrite length_drop. simpl. lia.
Qed.

Lemma splitLoop_Forall fuel size chunk :
  (0 < size)%nat →
  Forall (λ p, p ≠ [] ∧ length p ≤ size)%nat (splitLoop fuel size chunk).
Proof.
  intros Hs. revert chunk; induction fuel as [|fuel IH]; intros [|x l]; simpl; try constructor; auto.
  split; [by destruct size; [lia|]|]. rewrite length_take. lia.
Qed.

(** The number of elements of a part. *)
Definition partSize (chunk : list T) (parts : Z) : nat :=
  let size := (Z.of_nat (length chunk) + parts - 1) `div` parts in
  Z.to_nat (if decide (size = 0) then 1 else size).

Lemma partSize_pos chunk parts : 0 < parts → (0 < partSize chunk parts)%nat.
Proof.
  intros Hp. unfold partSize.
  assert (0 ≤ (Z.of_nat (length chunk) + parts - 1) `div` parts) by (apply Z.div_pos; lia).
  case_decide; lia.
Qed.

Lemma splitChunk_concat chunk parts :
  0 < parts → concat (splitChunk chunk parts) = chunk.
Proof. intros Hp. apply splitLoop_concat; [by apply partSize_pos|done]. Qed.

Lemma splitChunk_Forall chunk parts :
  0 < parts →
  Forall (λ p, p ≠ [] ∧ length p ≤ partSize chunk parts)%nat (splitChunk chunk parts).
Proof. intros Hp. apply splitLoop_Forall. by apply partSize_pos. Qed.

Lemma partSize_two chunk :
  (length chunk ≠ 1)%nat → chunk ≠ [] → (partSize chunk 2 < length chunk)%nat.
Proof.
  intros H1 H0. unfold partSize.
  assert (2 ≤ Z.of_nat (length chunk)) by (destruct chunk as [|? [|]]; simpl in *; [done|lia|lia]).
  case_decide; dlia.
Qed.

Lemma splitChunk_single chunk : splitChunk chunk 2 = [chunk] → length chunk = 1%nat.
Proof.
  intros Hs. pose proof (splitChunk_Forall chunk 2 ltac:(lia)) as Hf. rewrite Hs in Hf.
  apply Forall_singleton in Hf as [Hne Hle].
  destruct (decide (length chunk = 1%nat)); [done|].
  pose proof (partSize_two chunk). naive_solver lia.
Qed.

Definition flat (cs : list arrayChunk) : list T := concat (elements <$> cs).

Lemma flat_app cs1 cs2 : flat (cs1 ++ cs2) = flat cs1 ++ flat cs2.
Proof. unfold flat. by rewrite fmap_app, concat_app. Qed.

Lemma predRun_true runs before mid after runs' :
  predRun runs before mid after = inr (true, runs') →
  Pred cfg runs (flat before ++ mid ++ flat after) = inr true.
Proof.
  unfold predRun, mergeChunks. case_decide; [done|]. destruct (Pred _ _ _); naive_solver.
Qed.

(** ** What a round keeps *)

Lemma testParts_shape someNeeded after new found runs parts new' runs' :
  testParts someNeeded after new found runs parts = inr (new', runs') →
  ∃ kept, new' = new ++ ((λ p, MkChunk p false) <$> kept) ∧ kept `sublist_of` parts.
Proof.
  revert new found runs; induction parts as [|part rest IH]; intros new found runs H; simpl in H.
  { injection H as <- <-. exists []. by rewrite app_nil_r. }
  assert (∀ r, testParts someNeeded after (new ++ [MkChunk part false]) true r rest =
      inr (new', runs') →
    ∃ kept, new' = new ++ ((λ p, MkChunk p false) <$> kept) ∧ kept `sublist_of` part :: rest) as Hkeep.
  { intros r (kept & -> & Hk)%IH. exists (part :: kept). rewrite <-app_assoc.
    split; [done|by constructor]. }
  case_decide; [|eauto]. destruct (predRun _ _ _ _) as [e|[[] r]]; [done| |eauto].
  apply IH in H as (kept & -> & Hk). exists kept. split; [done|by constructor].
Qed.

(** ** Invariants of the current elements *)

Section invariant.
(** [P] holds of the current elements and survives dropping a part that the
    predicate allows to drop. *)
Variable P : list T → Prop.
Hypothesis P_drop : ∀ k a b c, P (a ++ b ++ c) → Pred cfg k (a ++ c) = inr true → P (a ++ c).

Lemma testParts_inv someNeeded after new found runs parts new' runs' :
  testParts someNeeded after new found runs parts = inr (new', runs') →
  P (flat new ++ concat parts ++ flat after) → P (flat new' ++ flat after).
Proof.
  revert new found runs; induction parts as [|part rest IH]; intros new found runs H HP; simpl in H.
  { by injection H as <- <-. }
  assert (∀ r, testParts someNeeded after (new ++ [MkChunk part false]) true r rest =
      inr (new', runs') → P (flat new' ++ flat after)) as Hkeep.
  { intros r Hr. apply IH in Hr; [done|]. rewrite flat_app. unfold flat at 2. simpl.
    rewrite app_nil_r. simpl in HP. by rewrite <-!app_assoc in *. }
  case_decide; [|eauto]. destruct (predRun _ _ _ _) as [e|[[] r]] eqn:E; [done| |eauto].
  apply IH in H; [done|]. apply predRun_true in E. unfold mergeRawChunks in E. simpl in HP.
  rewrite <-app_assoc in HP. eapply P_drop; done.
Qed.

Lemma splitEach_inv someNeeded splitInto new runs todo new' runs' :
  0 < splitInto →
  splitEach someNeeded splitInto new runs todo = inr (new', runs') →
  P (flat new ++ flat todo) → P (flat new').
Proof.
  intros Hs. revert new runs; induction todo as [|chunk after IH]; intros new runs H HP; simpl in H.
  { injection H as <- <-. unfold flat in HP at 2. simpl in HP. by rewrite app_nil_r in HP. }
  assert (flat (chunk :: after) = elements chunk ++ flat after) as Hc by done. rewrite Hc in HP.
  destruct (final chunk); [|case_decide].
  - apply IH in H; [done|]. rewrite flat_app. unfold flat at 2. simpl.
    rewrite app_nil_r, <-app_assoc. done.
  - apply IH in H; [done|]. rewrite flat_app. unfold flat at 2. simpl.
    rewrite app_nil_r, <-app_assoc. done.
  - destruct (testParts _ _ _ _ _ _) as [e|[new1 runs1]] eqn:E; [done|].
    apply IH in H; [done|]. eapply testParts_inv; [done|].
    by rewrite splitChunk_concat.
Qed.

Lemma splitChunks_inv ctx someNeeded ctx' :
  splitChunks ctx someNeeded = inr ctx' → P (flat (chunks ctx)) → P (flat (chunks ctx')).
Proof.
  unfold splitChunks. intros H HP.
  destruct (splitEach _ _ _ _ _) as [e|[new runs]] eqn:E; [done|]. injection H as <-.
  eapply splitEach_inv; [|done|done].
  destruct someNeeded; [lia|]. destruct (chunks ctx) as [|c [|]]; [lia| |lia].
  unfold initialSplit. case_decide; lia.
Qed.

Lemma bisectLoop_inv fuel ctx ctx' err :
  bisectLoop fuel ctx = Ret (ctx', err) → P (flat (chunks ctx)) → P (flat (chunks ctx')).
Proof.
  revert ctx; induction fuel as [|fuel IH]; intros ctx H HP; simpl in H; [done|].
  destruct (isDone ctx); [by injection H as <- <-|].
  case_decide; [by injection H as <- <-|].
  destruct (splitChunks ctx true) eqn:E; [by injection H as <- <-|].
  eapply IH; [done|]. by eapply splitChunks_inv.
Qed.
End invariant.

(** ** Termination *)

(** The non-final chunks have between 1 and [n] elements. *)
Definition bounded (n : nat) (c : arrayChunk) : Prop :=
  final c = true ∨ (elements c ≠ [] ∧ length (elements c) ≤ n)%nat.

Lemma splitEach_bounded someNeeded splitInto (n n' : nat) new runs todo new' runs' :
  0 < splitInto →
  (∀ c, bounded n c → final c = false →
    (someNeeded = true ∧ length (splitChunk (elements c) splitInto) = 1%nat) ∨
    (partSize (elements c) splitInto ≤ n')%nat) →
  splitEach someNeeded splitInto new runs todo = inr (new', runs') →
  Forall (bounded n') new → Forall (bounded n) todo → Forall (bounded n') new'.
Proof.
  intros Hs Hsz. revert new runs; induction todo as [|c after IH]; intros new runs H Hnew Htodo; simpl in H.
  { by injection H as <- <-. }
  apply Forall_cons in Htodo as [Hc Hafter].
  destruct (final c) eqn:Ef; [|case_decide as Hone].
  - eapply IH; [done| |done]. apply Forall_app. split; [done|]. constructor; [by left|done].
  - eapply IH; [done| |done]. apply Forall_app. split; [done|]. constructor; [by left|done].
  - destruct (testParts _ _ _ _ _ _) as [e|[new1 runs1]] eqn:E; [done|].
    eapply IH; [done| |done]. apply testParts_shape in E as (kept & -> & Hk).
    apply Forall_app. split; [done|]. apply Forall_fmap.
    eapply Forall_sublist; [|exact Hk].
    eapply Forall_impl; [by apply splitChunk_Forall|]. simpl. intros p [Hne Hle]. right. simpl.
    split; [done|]. destruct (Hsz c Hc Ef) as [[??]|]; [naive_solver|lia].
Qed.

Lemma round_bounded n ctx ctx' :
  splitChunks ctx true = inr ctx' → Forall (bounded (S n)) (chunks ctx) →
  Forall (bounded n) (chunks ctx').
Proof.
  unfold splitChunks. intros H Hb.
  destruct (splitEach _ _ _ _ _) as [e|[new runs]] eqn:E; [done|]. injection H as <-.
  eapply splitEach_bounded; [|  |exact E|constructor|exact Hb]; [lia|].
  intros c [Hf|[Hne Hle]] Hf'; [congruence|].
  destruct (decide (length (elements c) = 1%nat)) as [H1|H1].
  - left. split; [done|]. destruct (elements c) as [|x [|]]; simpl in *; done.
  - right. pose proof (partSize_two (elements c) H1 Hne). lia.
Qed.

Lemma bisectLoop_total n ctx :
  Forall (bounded n) (chunks ctx) → ∃ ctx' err, bisectLoop (S n) ctx = Ret (ctx', err).
Proof.
  revert ctx; induction n as [|n IH]; intros ctx Hb; simpl.
  - assert (isDone ctx = true) as ->; [|eauto]. unfold isDone. apply orb_true_iff. right.
    apply forallb_forall. intros c Hc%list_elem_of_In.
    rewrite Forall_forall in Hb. destruct (Hb c Hc) as [|[? Hl]]; [done|].
    by destruct (elements c); simpl in Hl; [|lia].
  - destruct (isDone ctx); [eauto|]. case_decide; [eauto|].
    destruct (splitChunks ctx true) as [e|ctx1] eqn:E; [eauto|].
    apply IH. by eapply round_bounded.
Qed.

Lemma bisect_total slice :
  ∃ out err, Slice (S (length slice)) slice = Ret (out, err).
Proof.
  unfold Slice, bisect. destruct (splitChunks _ _) as [e|ctx] eqn:E; [eauto|].
  destruct (bisectLoop_total (length slice) ctx) as (ctx' & err & ->).
  2:{ cbn [rbind]. destruct err as [[]|]; eauto. }
  assert (0 < initialSplit (Z.of_nat (length slice))) as Hs
    by (unfold initialSplit; case_decide; lia).
  unfold splitChunks in E. destruct (splitEach _ _ _ _ _) as [e|[new runs]] eqn:E1; [done|].
  injection E as <-. cbn [chunks elements splitEach final] in E1.
  rewrite decide_False in E1 by naive_solver.
  destruct (testParts _ _ _ _ _ _) as [e|[new1 runs1]] eqn:E2; [done|].
  injection E1 as <- <-. apply testParts_shape in E2 as (kept & -> & Hk). simpl.
  apply Forall_fmap. eapply Forall_sublist; [|exact Hk].
  apply Forall_forall. intros p Hp. right. simpl. split.
  - pose proof (splitChunk_Forall slice _ Hs) as Hf. rewrite Forall_forall in Hf.
    by apply Hf in Hp as [? _].
  - assert (p `sublist_of` slice) as Hsub.
    { rewrite <-(splitChunk_concat slice _ Hs). apply list_elem_of_split in Hp as (l1 & l2 & ->).
      rewrite concat_app. simpl. apply sublist_inserts_l, sublist_inserts_r. done. }
    by apply sublist_length.
Qed.


(** ** Minimality *)

Section minimal.
Context `{EqDecision T}.
Variables (needed : T → Prop) (slice : list T).
Context `{∀ x, Decision (needed x)}.

(** The predicate tests that all the needed elements are there. *)
Definition tests_needed : Prop :=
  ∀ k l, Pred cfg k l = inr (bool_decide (Forall (λ x, x ∈ l) (filter needed slice))).

Hypothesis Hpred : tests_needed.
Hypothesis Hnd : NoDup slice.

(** A subsequence of the input with all the needed elements. *)
Definition good (l : list T) : Prop :=
  l `sublist_of` slice ∧ ∀ x, x ∈ slice → needed x → x ∈ l.

Definition keeps (c : arrayChunk) : Prop :=
  (∃ x, x ∈ elements c ∧ needed x) ∧ (final c = true → length (elements c) = 1%nat).

Lemma pred_true_covers k l :
  Pred cfg k l = inr true → ∀ x, x ∈ slice → needed x → x ∈ l.
Proof.
  rewrite Hpred. intros [= Hd%bool_decide_eq_true]. rewrite Forall_forall in Hd.
  intros x Hx Hn. apply Hd. by apply list_elem_of_filter.
Qed.

Lemma pred_false_missing k l :
  Pred cfg k l = inr false → ∃ x, x ∈ slice ∧ needed x ∧ x ∉ l.
Proof.
  rewrite Hpred. intros [= Hd%bool_decide_eq_false].
  apply not_Forall_Exists in Hd; [|apply _]. apply Exists_exists in Hd as (x & Hx & Hnot).
  apply list_elem_of_filter in Hx as [??]. eauto.
Qed.

Lemma good_drop k a b c : good (a ++ b ++ c) → Pred cfg k (a ++ c) = inr true → good (a ++ c).
Proof.
  intros [Hsub _] Hp. split; [|by eapply pred_true_covers].
  etrans; [apply sublist_drop_mid|done].
Qed.

Hypothesis unlimited : MaxSteps cfg ≤ 0.

Lemma predRun_unlimited runs before mid after b runs' :
  predRun runs before mid after = inr (b, runs') →
  Pred cfg runs (flat before ++ mid ++ flat after) = inr b.
Proof.
  unfold predRun, mergeChunks. rewrite decide_False by lia.
  destruct (Pred _ _ _); naive_solver.
Qed.

Lemma testParts_needed someNeeded after new found runs parts new' runs' :
  testParts someNeeded after new found runs parts = inr (new', runs') →
  good (flat new ++ concat parts ++ flat after) → Forall keeps new →
  (someNeeded = true → found = false → ∃ x, x ∈ concat parts ∧ needed x) →
  Forall keeps new'.
Proof.
  revert new found runs; induction parts as [|part rest IH];
    intros new found runs Ht Hg Hk Hsome; simpl in Ht.
  { by injection Ht as <- <-. }
  assert ((∃ x, x ∈ part ∧ needed x) → ∀ r,
    testParts someNeeded after (new ++ [MkChunk part false]) true r rest = inr (new', runs') →
    Forall keeps new') as Hkeep.
  { intros Hx r Hr. apply IH in Hr; [done| | |done].
    - rewrite flat_app. unfold flat at 2. simpl. rewrite app_nil_r. simpl in Hg.
      by rewrite <-!app_assoc in *.
    - apply Forall_app. split; [done|]. constructor; [|done]. by split. }
  simpl in Hg. rewrite <-app_assoc in Hg. case_decide as Htest.
  2:{ eapply Hkeep; [|exact Ht]. destruct rest; [|by destruct Htest; left].
      destruct someNeeded; [|by destruct Htest; auto]. destruct found; [by destruct Htest; auto|].
      destruct Hsome as (x & Hx & ?); [done..|].
      simpl in Hx. rewrite app_nil_r in Hx. eauto. }
  destruct (predRun _ _ _ _) as [e|[b r]] eqn:E; [done|]. apply predRun_unlimited in E.
  unfold mergeRawChunks in E. destruct b.
  - pose proof (good_drop _ _ _ _ Hg E) as Hg'.
    eapply IH; [exact Ht|exact Hg'|done|]. intros Hs Hf. destruct (Hsome Hs Hf) as (x & Hx & Hn).
    exists x. split; [|done]. simpl in Hx. apply elem_of_app in Hx as [Hx|Hx]; [|done]. exfalso.
    destruct Hg as [Hsub _], Hg' as [_ Hcov]. pose proof (sublist_NoDup _ _ Hnd Hsub) as Hnd'.
    assert (x ∈ slice) as Hxs by (eapply elem_of_sublist; [|exact Hsub]; set_solver).
    specialize (Hcov x Hxs Hn). apply NoDup_app in Hnd' as (_ & Hd1 & Hnd2).
    apply NoDup_app in Hnd2 as (_ & Hd2 & _). set_solver.
  - eapply Hkeep; [|exact Ht]. apply pred_false_missing in E as (x & Hxs & Hn & Hnot).
    exists x. split; [|done]. destruct Hg as [_ Hcov]. specialize (Hcov x Hxs Hn).
    rewrite !elem_of_app in Hcov. rewrite !elem_of_app in Hnot. tauto.
Qed.

Lemma splitEach_needed someNeeded splitInto new runs todo new' runs' :
  0 < splitInto → (someNeeded = true → splitInto = 2) →
  splitEach someNeeded splitInto new runs todo = inr (new', runs') →
  good (flat new ++ flat todo) → Forall keeps new →
  Forall (λ c, if someNeeded then keeps c else final c = false) todo → Forall keeps new'.
Proof.
  intros Hs Hs2. revert new runs; induction todo as [|c after IH];
    intros new runs He Hg Hk Hc; simpl in He.
  { by injection He as <- <-. }
  apply Forall_cons in Hc as [Hc Hafter].
  assert (flat (c :: after) = elements c ++ flat after) as Hflat by done. rewrite Hflat in Hg.
  assert (∀ c', elements c' = elements c → good (flat (new ++ [c']) ++ flat after)) as Hg1.
  { intros c' Hc'. rewrite flat_app. unfold flat at 2. simpl.
    by rewrite app_nil_r, <-app_assoc, Hc'. }
  destruct (final c) eqn:Ef; [|case_decide as Hone].
  - destruct someNeeded; [|congruence].
    eapply IH; [exact He|by apply Hg1| |done]. apply Forall_app. split; [done|by constructor].
  - destruct Hone as [Hone ->]. rewrite (Hs2 eq_refl) in Hone.
    eapply IH; [exact He|by apply Hg1| |done]. apply Forall_app. split; [done|].
    constructor; [|done]. split; [apply Hc|]. intros _. simpl. apply splitChunk_single.
    pose proof (splitChunk_concat (elements c) 2 ltac:(lia)) as Hcat.
    destruct (splitChunk (elements c) 2) as [|p [|]]; simpl in *; try lia.
    by rewrite app_nil_r in Hcat; subst.
  - destruct (testParts _ _ _ _ _ _) as [e|[new1 runs1]] eqn:E; [done|].
    rewrite <-(splitChunk_concat (elements c) splitInto Hs) in Hg.
    eapply IH; [exact He| | |done].
    + eapply testParts_inv; [apply good_drop|exact E|exact Hg].
    + eapply testParts_needed; [exact E|exact Hg|done|]. intros -> _.
      rewrite splitChunk_concat by done. apply Hc.
Qed.

Lemma bisectLoop_needed fuel ctx ctx' :
  bisectLoop fuel ctx = Ret (ctx', None) →
  good (flat (chunks ctx)) → Forall keeps (chunks ctx) →
  good (flat (chunks ctx')) ∧ Forall keeps (chunks ctx') ∧ isDone ctx' = true.
Proof.
  revert ctx; induction fuel as [|fuel IH]; intros ctx Hl Hg Hk; simpl in Hl; [done|].
  destruct (isDone ctx) eqn:Ed; [by injection Hl as <-|]. case_decide; [done|].
  destruct (splitChunks ctx true) as [e|ctx1] eqn:E; [done|]. apply IH in Hl; [done| |].
  - eapply splitChunks_inv; [apply good_drop|exact E|done].
  - unfold splitChunks in E. destruct (splitEach _ _ _ _ _) as [e|[new runs]] eqn:E1; [done|].
    injection E as <-. eapply splitEach_needed; [| |exact E1|done|constructor|done]; [lia|done].
Qed.

Lemma predRun_ok runs before mid after : ∃ b r, predRun runs before mid after = inr (b, r).
Proof. unfold predRun. case_decide; [eauto|]. rewrite Hpred. eauto. Qed.

Lemma testParts_ok someNeeded after new found runs parts :
  ∃ new' r, testParts someNeeded after new found runs parts = inr (new', r).
Proof.
  revert new found runs; induction parts as [|part rest IH]; intros new found runs; simpl; [eauto|].
  case_decide; [|done].
  destruct (predRun_ok runs new (mergeRawChunks rest) after) as ([] & r & ->); eauto.
Qed.

Lemma splitChunks_ok ctx someNeeded : ∃ ctx', splitChunks ctx someNeeded = inr ctx'.
Proof.
  unfold splitChunks.
  match goal with |- context [splitEach _ ?i _ _ _] => generalize i end. intros into.
  assert (∀ new runs todo, ∃ new' r, splitEach someNeeded into new runs todo = inr (new', r)) as H1.
  { intros new runs todo; revert new runs; induction todo as [|c after IH]; intros; simpl; [eauto|].
    destruct (final c); [done|]. case_decide; [done|].
    destruct (testParts_ok someNeeded after new false runs (splitChunk (elements c) into))
      as (new1 & r & ->). done. }
  destruct (H1 [] (predRuns ctx) (chunks ctx)) as (new & r & ->). eauto.
Qed.

Hypothesis no_chunk_limit : MaxChunks cfg ≤ 0.

Lemma bisectLoop_no_err fuel ctx ctx' err : bisectLoop fuel ctx = Ret (ctx', err) → err = None.
Proof.
  revert ctx; induction fuel as [|fuel IH]; intros ctx; simpl; [done|].
  destruct (isDone ctx); [naive_solver|]. rewrite decide_False by lia.
  destruct (splitChunks_ok ctx true) as [ctx1 ->]. apply IH.
Qed.

(** C28. [Slice] finds the minimum: when the predicate tests for the presence of
    some set of needed elements, the elements are distinct and no limit on
    steps or chunks is set, the result is exactly the needed elements, in
    their order. *)
Theorem slice_minimal : Slice (S (length slice)) slice = Ret (filter needed slice, None).
Proof.
  destruct (bisect_total slice) as (out & err & Hs). rewrite Hs.
  unfold Slice, bisect in Hs.
  destruct (splitChunks_ok (MkCtx [MkChunk slice false] 0) false) as [ctx E]. rewrite E in Hs.
  apply bind_Ret in Hs as ([ctx' err'] & Hl & Hs).
  pose proof (bisectLoop_no_err _ _ _ _ Hl) as ->. injection Hs as <- <-.
  assert (good (flat [MkChunk slice false])) as Hg0.
  { unfold flat. simpl. rewrite app_nil_r. by split. }
  destruct (bisectLoop_needed _ _ _ Hl) as ([Hsub Hcov] & Hk & Hdone).
  { eapply splitChunks_inv; [apply good_drop|exact E|done]. }
  { unfold splitChunks in E. destruct (splitEach _ _ _ _ _) as [e|[new runs]] eqn:E1; [done|].
    injection E as <-. eapply splitEach_needed; [| |exact E1|exact Hg0|constructor|];
      [|done|by repeat constructor].
    unfold initialSplit. rewrite decide_False by lia. lia. }
  unfold isDone in Hdone. rewrite bool_decide_eq_false_2 in Hdone by lia. simpl in Hdone.
  do 2 f_equal. unfold allElements, mergeChunks. simpl. rewrite app_nil_r.
  apply sublist_filter_eq; [done|done|]. intros x. split; [|naive_solver].
  intros Hx. split; [by eapply elem_of_sublist|].
  unfold flat in Hx. rewrite elem_of_concat in Hx. destruct Hx as (l & Hl' & Hx).
  apply list_elem_of_fmap in Hl' as (c & -> & Hc). rewrite Forall_forall in Hk.
  destruct (Hk c Hc) as [(y & Hy & Hny) Hone].
  assert (final c = true) as Hf by (rewrite forallb_forall in Hdone; by apply Hdone, list_elem_of_In).
  specialize (Hone Hf). destruct (elements c) as [|z [|]]; simpl in Hone; try lia.
  set_solver.
Qed.
End minimal.
End slice.

Definition ex_slice : list Z := [0; 1; 2; 3; 4; 5; 6; 7; 8; 9].

Definition ex_cfg : @Config Z unit :=
  MkConfig (λ _ l, inr (bool_decide (Forall (λ x, x ∈ l) (filter (λ x, x `mod` 5 = 2) ex_slice))))
    0 0.

Lemma slice_minimal_witness : Slice ex_cfg 11 ex_slice = Ret ([2; 7], None).
Proof.
  transitivity (Ret (filter (λ x, x `mod` 5 = 2) ex_slice, @None (@error unit))).
  - apply (slice_minimal ex_cfg (λ x, x `mod` 5 = 2) ex_slice).
    + intros k l. reflexivity.
    + apply (bool_decide_eq_true_1 _). vm_compute. reflexivity.
    + reflexivity.
    + reflexivity.
  - reflexivity.
Defined.
End SliceMin.
