(* ===== verification/Heatmap.v ===== *)
(** * Heatmap: choosing where to mutate a blob (prog/heatmap.go)

    A generic heatmap views the data as chunks of [granularity] bytes, ignores
    the chunks that are a single repeated byte and picks an index uniformly
    among the remaining ones.  Bytes are integers. *)

From S2P Require Import Prelude.

Module Heatmap.

Record segment := Segment { offset : Z; length : Z }.

Record GenericHeatmap := MkHeatmap { segments : list segment; hmLength : Z }.

Definition granularity : Z := 64.

(** The variables of [calculateLengthAndSegments]. *)
Record calc := Calc {
  cOffset : Z; cCurrent : Z; cTotal : Z; cSegments : list segment
}.

Definition saveSegment (c : calc) : calc :=
  if decide (cCurrent c ≠ 0) then
    Calc (cOffset c + cCurrent c) 0 (cTotal c + cCurrent c)
      (cSegments c ++ [Segment (cOffset c) (cCurrent c)])
  else c.

(** Does the chunk contain only a single value? *)
Definition isConstant (chunk : list Z) : bool :=
  match chunk with
  | [] => true
  | byt0 :: _ => forallb (λ byt, bool_decide (byt = byt0)) chunk
  end.

Definition processChunk (chunk : list Z) (c : calc) : calc :=
  let len := Z.of_nat (List.length chunk) in
  if isConstant chunk then
    let c := saveSegment c in Calc (cOffset c + len) (cCurrent c) (cTotal c) (cSegments c)
  else Calc (cOffset c) (cCurrent c + len) (cTotal c) (cSegments c).

(** [for len(data) > 0] *)
Fixpoint calcLoop (fuel : nat) (gran : nat) (data : list Z) (c : calc) : calc :=
  match fuel, data with
  | S fuel, _ :: _ =>
    let chunk := if decide (List.length data < gran)%nat then data else take gran data in
    let data := if decide (List.length data < gran)%nat then [] else drop gran data in
    calcLoop fuel gran data (processChunk chunk c)
  | _, _ => c
  end.

Definition calculateLengthAndSegments (data : list Z) (gran : Z) : Z * list segment :=
  let rawLength := Z.of_nat (List.length data) in
  let c := saveSegment (calcLoop (List.length data) (Z.to_nat gran) data (Calc 0 0 0 [])) in
  if decide (List.length (cSegments c) = 0%nat) then
    (rawLength, cSegments c ++ [Segment 0 rawLength])
  else (cTotal c, cSegments c).

Fixpoint translateLoop (idx : Z) (segs : list segment) : res Z :=
  match segs with
  | [] => Panic "translateIdx: index out of range"
  | seg :: segs =>
    if decide (idx < length seg) then Ret (offset seg + idx)
    else translateLoop (idx - length seg) segs
  end.

Definition translateIdx (idx : Z) (segs : list segment) : res Z :=
  if decide (idx < 0) then Panic "translateIdx: negative index" else translateLoop idx segs.

Definition MakeGenericHeatmap (data : list Z) : res GenericHeatmap :=
  match data with
  | [] => Panic "cannot create a GenericHeatmap with no data"
  | _ => let '(len, segs) := calculateLengthAndSegments data granularity in
         Ret (MkHeatmap segs len)
  end.

Definition NumMutations (hm : GenericHeatmap) (r : rng) : res (Z * rng) :=
  let! '(a, r) := intn (hmLength hm `div` Z.shiftl 4 10 + 1) r in
  let! '(b, r) := intn 5 r in
  let n := 1 + a + b in
  Ret (if decide (n > 10) then 10 else n, r).

Definition ChooseLocation (hm : GenericHeatmap) (r : rng) : res (Z * rng) :=
  let! '(heatmapIdx, r) := intn (hmLength hm) r in
  let! rawIdx := translateIdx heatmapIdx (segments hm) in
  Ret (rawIdx, r).

(** ** What the segments should be *)

(** The raw indices covered by some segments, in order. *)
Definition expand (segs : list segment) : list Z :=
  concat ((λ s, seqZ (offset s) (length s)) <$> segs).

(** The chunks of the data with the index where each starts. *)
Fixpoint chunksFrom (fuel : nat) (gran : nat) (start : Z) (data : list Z) : list (Z * list Z) :=
  match fuel, data with
  | S fuel, _ :: _ =>
    (start, take gran data)
    :: chunksFrom fuel gran (start + Z.of_nat (List.length (take gran data))) (drop gran data)
  | _, _ => []
  end.

(** The indices of the bytes of the chunks that are not constant. *)
Definition interesting (chunks : list (Z * list Z)) : list Z :=
  concat ((λ '(start, chunk),
    if isConstant chunk then [] else seqZ start (Z.of_nat (List.length chunk))) <$> chunks).

(** The indices the distribution should range over. *)
Definition hotIndices (data : list Z) (gran : Z) : list Z :=
  match interesting (chunksFrom (List.length data) (Z.to_nat gran) 0 data) with
  | [] => seqZ 0 (Z.of_nat (List.length data))
  | l => l
  end.

(** ** Lemmas *)

Lemma expand_app s1 s2 : expand (s1 ++ s2) = expand s1 ++ expand s2.
Proof. unfold expand. by rewrite fmap_app, concat_app. Qed.

(** The state of the scan after a prefix of [n] bytes whose interesting
    indices are [l]. *)
Record scanned (n : Z) (l : list Z) (c : calc) : Prop := {
  sc_pos : cOffset c + cCurrent c = n;
  sc_cur : 0 ≤ cCurrent c;
  sc_idx : expand (cSegments c) ++ seqZ (cOffset c) (cCurrent c) = l;
  sc_tot : cTotal c = Z.of_nat (List.length (expand (cSegments c)));
  sc_len : Forall (λ s, 0 < length s) (cSegments c)
}.

Lemma saveSegment_scanned n l c :
  scanned n l c → scanned n l (saveSegment c) ∧ cCurrent (saveSegment c) = 0.
Proof.
  intros Hsc. unfold saveSegment. case_decide as Hc; [|split; [done|lia]].
  destruct Hsc as [Hpos Hcur Hidx Htot Hlen]. split; [|done]. split; simpl.
  - lia.
  - lia.
  - rewrite seqZ_nil by lia. rewrite app_nil_r, expand_app. unfold expand at 2. simpl.
    by rewrite app_nil_r.
  - rewrite expand_app, length_app. unfold expand at 2. simpl.
    rewrite app_nil_r, length_seqZ. lia.
  - apply Forall_app. split; [done|]. constructor; [simpl; lia|done].
Qed.

Lemma processChunk_scanned n l c chunk :
  scanned n l c → 0 ≤ n →
  scanned (n + Z.of_nat (List.length chunk))
    (l ++ if isConstant chunk then [] else seqZ n (Z.of_nat (List.length chunk)))
    (processChunk chunk c).
Proof.
  intros Hsc Hn. unfold processChunk. destruct (isConstant chunk).
  - destruct (saveSegment_scanned n l c Hsc) as [[Hpos Hcur Hidx Htot Hlen] H0].
    rewrite app_nil_r. split; simpl; try done; try lia.
    rewrite H0 in Hidx |- *. rewrite seqZ_nil in Hidx |- * by lia. done.
  - destruct Hsc as [Hpos Hcur Hidx Htot Hlen]. split; simpl; try done; try lia.
    rewrite seqZ_app by lia. rewrite app_assoc, Hidx, Hpos. done.
Qed.

Lemma calcLoop_scanned fuel gran data n l c :
  (0 < gran)%nat → 0 ≤ n → scanned n l c →
  ∃ n', scanned n' (l ++ interesting (chunksFrom fuel gran n data)) (calcLoop fuel gran data c).
Proof.
  intros Hg. revert data n l c; induction fuel as [|fuel IH]; intros data n l c Hn Hsc.
  { exists n. unfold interesting. simpl. by rewrite app_nil_r. }
  destruct data as [|b data']; [exists n; unfold interesting; simpl; by rewrite app_nil_r|].
  cbn [calcLoop chunksFrom]. set (data := b :: data') in *.
  replace (if decide (List.length data < gran)%nat then data else take gran data)
    with (take gran data) by (case_decide; [by rewrite take_ge by lia|done]).
  replace (if decide (List.length data < gran)%nat then [] else drop gran data)
    with (drop gran data) by (case_decide; [by rewrite drop_ge by lia|done]).
  destruct (IH (drop gran data) (n + Z.of_nat (List.length (take gran data)))
    (l ++ if isConstant (take gran data) then [] else
       seqZ n (Z.of_nat (List.length (take gran data)))) (processChunk (take gran data) c))
    as [n' Hn']; [lia|by apply processChunk_scanned|].
  exists n'. unfold interesting. simpl. rewrite app_assoc. exact Hn'.
Qed.

Lemma expand_nil segs : Forall (λ s, 0 < length s) segs → expand segs = [] → segs = [].
Proof.
  destruct 1 as [|s segs Hs _]; [done|]. unfold expand. simpl.
  rewrite seqZ_cons by lia. done.
Qed.

Lemma calculate_spec data gran :
  data ≠ [] → 0 < gran →
  let '(len, segs) := calculateLengthAndSegments data gran in
  expand segs = hotIndices data gran ∧ len = Z.of_nat (List.length (expand segs)) ∧
  Forall (λ s, 0 < length s) segs.
Proof.
  intros Hne Hg. unfold calculateLengthAndSegments, hotIndices.
  destruct (calcLoop_scanned (List.length data) (Z.to_nat gran) data 0 [] (Calc 0 0 0 []))
    as [n Hn]; [lia|done|by split|].
  destruct (saveSegment_scanned _ _ _ Hn) as [[Hpos Hcur Hidx Htot Hlen] H0].
  set (c := saveSegment _) in *. rewrite H0, seqZ_nil, app_nil_r in Hidx by lia. simpl in Hidx.
  destruct (interesting _) as [|i l] eqn:Ei.
  - apply expand_nil in Hidx; [|done]. rewrite Hidx. simpl.
    assert (0 < Z.of_nat (List.length data)) by (destruct data; simpl; [done|lia]).
    unfold expand. simpl. rewrite app_nil_r, length_seqZ. split_and!; [done|lia|].
    constructor; [done|constructor].
  - rewrite decide_False; [done|].
    intros Hz. destruct (cSegments c); [|done]. done.
Qed.

Lemma translateLoop_lookup idx segs :
  0 ≤ idx → Forall (λ s, 0 < length s) segs →
  translateLoop idx segs =
    match expand segs !! Z.to_nat idx with
    | Some i => Ret i
    | None => Panic "translateIdx: index out of range"
    end.
Proof.
  intros Hi Hs. revert idx Hi; induction Hs as [|s segs Hs _ IH]; intros idx Hi; simpl; [done|].
  unfold expand; simpl. case_decide as Hlt.
  - rewrite lookup_app_l by (rewrite length_seqZ; lia).
    rewrite (proj2 (lookup_seqZ _ _ _ (offset s + idx))) by lia. done.
  - rewrite IH by lia. rewrite lookup_app_r by (rewrite length_seqZ; lia).
    rewrite length_seqZ. by replace (Z.to_nat idx - Z.to_nat (length s))%nat
      with (Z.to_nat (idx - length s)) by lia.
Qed.

(** A generic heatmap is uniform over the interesting bytes: the positions
    [0..length) translate, in order, to exactly the indices of the bytes that
    lie in a chunk that is not a single repeated byte, or to all the indices
    when there is no such chunk. *)
Theorem heatmap_translates data :
  data ≠ [] →
  ∃ hm, MakeGenericHeatmap data = Ret hm ∧
    hmLength hm = Z.of_nat (List.length (hotIndices data granularity)) ∧ 0 < hmLength hm ∧
    ∀ (i : nat) raw, hotIndices data granularity !! i = Some raw ↔
      translateIdx (Z.of_nat i) (segments hm) = Ret raw.
Proof.
  intros Hne. pose proof (calculate_spec data granularity Hne ltac:(done)) as Hc.
  unfold MakeGenericHeatmap. destruct data as [|b data']; [done|]. set (data := b :: data') in *.
  destruct (calculateLengthAndSegments data granularity) as [len segs].
  destruct Hc as (Hex & Hlen & Hf). eexists; split; [done|]. simpl. rewrite <-Hex.
  split_and!; [done| |].
  - rewrite Hlen. destruct (expand segs) eqn:Es; [|simpl; lia].
    apply expand_nil in Es; [|done]. subst. unfold expand in Hex. simpl in Hex.
    exfalso. unfold hotIndices in Hex. destruct (interesting _); [|done].
    apply (f_equal List.length) in Hex. rewrite length_seqZ in Hex. simpl in Hex. lia.
  - intros i raw. unfold translateIdx. rewrite decide_False by lia.
    rewrite translateLoop_lookup by (done || lia). rewrite Nat2Z.id.
    destruct (expand segs !! i); naive_solver.
Qed.

Lemma heatmap_translates_witness :
  ∃ hm, MakeGenericHeatmap (replicate 64 0 ++ [1; 2]) = Ret hm ∧ hmLength hm = 2 ∧
    translateIdx 1 (segments hm) = Ret 65.
Proof.
  destruct (heatmap_translates (replicate 64 0 ++ [1; 2])) as (hm & Hm & Hl & _ & Ht);
    [discriminate|].
  exists hm. split; [exact Hm|]. split; [rewrite Hl; reflexivity|].
  apply (Ht 1%nat). reflexivity.
Defined.

End Heatmap.
