(* ===== verification/Bytes.v ===== *)
(** * Bytes: integers as byte sequences

    [encoding/binary] in both byte orders, the byte swaps and the integer accesses of
    prog/mutation.go, the built-in [copy], and the packing of small fields into one word.  Bytes are integers in [0, 256). *)

From S2P Require Import Prelude.

Module Bytes.

Definition isByte (b : Z) : Prop := 0 ≤ b < 256.

(** The [n] low bytes of [v], the lowest one first. *)
Fixpoint bytesLE (n : nat) (v : Z) : list Z :=
  match n with
  | O => []
  | S n => v `mod` 256 :: bytesLE n (v `div` 256)
  end.

Definition ofLE (l : list Z) : Z := foldr (λ b acc, b + 256 * acc) 0 l.

(** [ByteOrder.PutUintN] and [ByteOrder.UintN]; [be] selects [binary.BigEndian]. *)
Definition putUint (be : bool) (n : nat) (v : Z) : list Z :=
  if be then reverse (bytesLE n v) else bytesLE n v.
Definition getUint (be : bool) (l : list Z) : Z := if be then ofLE (reverse l) else ofLE l.

(** [copy(data[i:], src)] *)
Definition copyAt (data : list Z) (i : nat) (src : list Z) : list Z :=
  let n := (length data - i)%nat in take i data ++ take n src ++ drop (i + length (take n src)) data.

(** [byte(v >> 8*k)] *)
Definition byteAt (v k : Z) : Z := Z.land (Z.shiftr v (8 * k)) 255.

Definition swap16 (v : Z) : Z :=
  Z.lor (Z.shiftl (byteAt v 1) 0) (Z.shiftl (byteAt v 0) 8).
Definition swap32 (v : Z) : Z :=
  Z.lor (Z.lor (Z.lor (Z.shiftl (byteAt v 3) 0) (Z.shiftl (byteAt v 2) 8))
    (Z.shiftl (byteAt v 1) 16)) (Z.shiftl (byteAt v 0) 24).
Definition swap64 (v : Z) : Z :=
  Z.lor (Z.lor (Z.lor (Z.lor (Z.lor (Z.lor (Z.lor
    (Z.shiftl (byteAt v 7) 0) (Z.shiftl (byteAt v 6) 8)) (Z.shiftl (byteAt v 5) 16))
    (Z.shiftl (byteAt v 4) 24)) (Z.shiftl (byteAt v 3) 32)) (Z.shiftl (byteAt v 2) 40))
    (Z.shiftl (byteAt v 1) 48)) (Z.shiftl (byteAt v 0) 56).

Definition swapInt (v size : Z) : res Z :=
  if decide (size = 1) then Ret v
  else if decide (size = 2) then Ret (swap16 (wrapU 16 v))
  else if decide (size = 4) then Ret (swap32 (wrapU 32 v))
  else if decide (size = 8) then Ret (swap64 v)
  else Panic "swapInt: bad size".

(** [loadInt(data[i:], size)] and [storeInt(data[i:], v, size)]. *)
Definition intSize (size : Z) : bool := bool_decide (size = 1 ∨ size = 2 ∨ size = 4 ∨ size = 8).
Definition loadInt (data : list Z) (i size : Z) : res Z :=
  if negb (intSize size) then Panic "loadInt: bad size"
  else if decide (0 ≤ i ∧ i + size ≤ Z.of_nat (length data)) then
    Ret (getUint false (take (Z.to_nat size) (drop (Z.to_nat i) data)))
  else Panic "index out of range".
Definition storeInt (data : list Z) (i v size : Z) : res (list Z) :=
  if negb (intSize size) then Panic "storeInt: bad size"
  else if decide (0 ≤ i ∧ i + size ≤ Z.of_nat (length data)) then
    Ret (copyAt data (Z.to_nat i) (putUint false (Z.to_nat size) v))
  else Panic "index out of range".

(** ** Copies *)

Lemma copyAt_lookup data i src k :
  (i ≤ length data)%nat →
  copyAt data i src !! k =
    if decide (i ≤ k < i + length src)%nat then (if decide (k < length data)%nat then src !! (k - i)%nat else None)
    else data !! k.
Proof.
  intros Hi. unfold copyAt. destruct (decide (k < i)%nat).
  { rewrite decide_False by lia. rewrite lookup_app_l by (rewrite length_take; lia). by rewrite lookup_take_lt. }
  rewrite lookup_app_r by (rewrite length_take; lia). rewrite length_take, Nat.min_l by lia.
  rewrite length_take. destruct (decide (k - i < Nat.min (length data - i) (length src))%nat).
  - rewrite lookup_app_l by (rewrite length_take; lia). rewrite lookup_take_lt by lia.
    rewrite !decide_True by lia. done.
  - rewrite lookup_app_r by (rewrite length_take; lia). rewrite lookup_drop, length_take.
    replace (i + Nat.min (length data - i) (length src) +
      (k - i - Nat.min (length data - i) (length src)))%nat with k by lia.
    repeat case_decide; try lia; [|done]. apply lookup_ge_None. lia.
Qed.

Lemma length_copyAt data i src : (i ≤ length data)%nat → length (copyAt data i src) = length data.
Proof.
  intros Hi. unfold copyAt. lens.
Qed.

Lemma copyAt_twice data i s1 s2 :
  (i ≤ length data)%nat → length s1 = length s2 → copyAt (copyAt data i s1) i s2 = copyAt data i s2.
Proof.
  intros Hi Hl. apply list_eq. intros k. rewrite !copyAt_lookup by (by rewrite ?length_copyAt).
  rewrite length_copyAt, Hl by done. by case_decide.
Qed.

(** ** Round trips *)

Lemma length_bytesLE n v : length (bytesLE n v) = n.
Proof. revert v; induction n; intros v; simpl; auto. Qed.

Lemma length_putUint be n v : length (putUint be n v) = n.
Proof. unfold putUint. destruct be; [rewrite length_reverse|]; apply length_bytesLE. Qed.

Lemma bytesLE_isByte n v : Forall isByte (bytesLE n v).
Proof.
  revert v; induction n; intros v; simpl; constructor; auto.
  unfold isByte. apply Z.mod_pos_bound. lia.
Qed.

Lemma ofLE_bytesLE n v : 0 ≤ v < 256 ^ Z.of_nat n → ofLE (bytesLE n v) = v.
Proof.
  revert v; induction n as [|n IH]; intros v Hv; simpl; [simpl in Hv; lia|].
  rewrite Nat2Z.inj_succ, Z.pow_succ_r in Hv by lia.
  unfold ofLE in IH. rewrite IH.
  - pose proof (Z.div_mod v 256). lia.
  - split; [apply Z.div_pos; lia|]. apply Z.div_lt_upper_bound; lia.
Qed.

Lemma bytesLE_ofLE l : Forall isByte l → bytesLE (length l) (ofLE l) = l.
Proof.
  induction 1 as [|b l Hb _ IH]; simpl; [done|]. fold (ofLE l). unfold isByte in Hb.
  rewrite (Z.mul_comm 256), Z.mod_add, Z.div_add, Z.mod_small, Z.div_small by lia.
  rewrite Z.add_0_l. by rewrite IH.
Qed.

Lemma ofLE_range l : Forall isByte l → 0 ≤ ofLE l < 256 ^ Z.of_nat (length l).
Proof.
  induction 1 as [|b l Hb _ IH]; [simpl; lia|]. fold (ofLE l). unfold isByte in Hb.
  simpl length. rewrite Nat2Z.inj_succ, Z.pow_succ_r by lia. simpl. fold (ofLE l). lia.
Qed.

Lemma get_put be n v : 0 ≤ v < 256 ^ Z.of_nat n → getUint be (putUint be n v) = v.
Proof.
  intros Hv. unfold getUint, putUint.
  destruct be; [rewrite reverse_involutive|]; by apply ofLE_bytesLE.
Qed.

Lemma get_put64 be v : is_u 64 v → getUint be (putUint be 8 v) = v.
Proof. intros Hv. apply get_put. exact Hv. Qed.

Lemma get_put32 be v : is_u 32 v → getUint be (putUint be 4 v) = v.
Proof. intros Hv. apply get_put. exact Hv. Qed.

(** ** Fields of a word *)

(** Or-ing a field above the bits in use is addition. *)
Lemma lor_shift a b k : 0 ≤ k → 0 ≤ a < 2 ^ k → Z.lor a (Z.shiftl b k) = a + b * 2 ^ k.
Proof.
  intros Hk Ha. rewrite Z.shiftl_mul_pow2 by done.
  assert (Z.land a (b * 2 ^ k) = 0) as H0.
  { apply Z.bits_inj'; intros i Hi. rewrite Z.land_spec, Z.bits_0.
    destruct (decide (i < k)); [rewrite Z.mul_pow2_bits_low by lia; apply andb_false_r|].
    replace a with (a `mod` 2 ^ k) by (apply Z.mod_small; lia).
    by rewrite Z.mod_pow2_bits_high by lia. }
  rewrite <-Z.lxor_lor by done. by rewrite <-Z.add_nocarry_lxor.
Qed.

Lemma land_ff v : Z.land v 255 = v `mod` 256.
Proof. change 255 with (Z.ones 8). rewrite Z.land_ones by lia. done. Qed.

Lemma byteAt_div v k : 0 ≤ k → byteAt v k = v `div` 2 ^ (8 * k) `mod` 256.
Proof. intros. unfold byteAt. rewrite land_ff, Z.shiftr_div_pow2 by lia. done. Qed.

Lemma byteAt_range v k : 0 ≤ byteAt v k < 256.
Proof. unfold byteAt. rewrite land_ff. apply Z.mod_pos_bound. lia. Qed.

Ltac norm_divisors v :=
  repeat match goal with
    | |- context [v / ?e] => let e' := eval vm_compute in e in progress change (v / e) with (v / e')
    end.

Lemma swap16_bytes v : swap16 v = ofLE (reverse (bytesLE 2 v)).
Proof.
  unfold swap16. pose proof (byteAt_range v 0). pose proof (byteAt_range v 1).
  rewrite Z.shiftl_0_r, lor_shift by lia. rewrite !byteAt_div by lia.
  simpl. rewrite ?Z.div_1_r. change (2 ^ (8 * 1)) with 256. lia.
Qed.

Lemma swap32_bytes v : swap32 v = ofLE (reverse (bytesLE 4 v)).
Proof.
  unfold swap32. pose proof (byteAt_range v 0). pose proof (byteAt_range v 1).
  pose proof (byteAt_range v 2). pose proof (byteAt_range v 3).
  rewrite Z.shiftl_0_r. rewrite (lor_shift _ (byteAt v 2)) by lia.
  rewrite (lor_shift _ (byteAt v 1)) by lia. rewrite (lor_shift _ (byteAt v 0)) by lia. rewrite !byteAt_div by lia.
  simpl. rewrite !Z.div_div by lia. norm_divisors v. rewrite Z.div_1_r. lia.
Qed.

Lemma swap64_bytes v : swap64 v = ofLE (reverse (bytesLE 8 v)).
Proof.
  unfold swap64. pose proof (byteAt_range v 0). pose proof (byteAt_range v 1).
  pose proof (byteAt_range v 2). pose proof (byteAt_range v 3). pose proof (byteAt_range v 4).
  pose proof (byteAt_range v 5). pose proof (byteAt_range v 6). pose proof (byteAt_range v 7).
  rewrite Z.shiftl_0_r. rewrite (lor_shift _ (byteAt v 6)) by lia.
  rewrite (lor_shift _ (byteAt v 5)) by lia. rewrite (lor_shift _ (byteAt v 4)) by lia.
  rewrite (lor_shift _ (byteAt v 3)) by lia. rewrite (lor_shift _ (byteAt v 2)) by lia.
  rewrite (lor_shift _ (byteAt v 1)) by lia. rewrite (lor_shift _ (byteAt v 0)) by lia. rewrite !byteAt_div by lia.
  simpl. rewrite !Z.div_div by lia. norm_divisors v. rewrite Z.div_1_r. lia.
Qed.

(** Reversing the bytes of an integer of [n] bytes. *)
Definition swapBytes (n : nat) (v : Z) : Z := ofLE (reverse (bytesLE n v)).

Lemma swapBytes_range n v : 0 ≤ swapBytes n v < 256 ^ Z.of_nat n.
Proof.
  unfold swapBytes. rewrite <-(length_bytesLE n v) at 3. rewrite <-length_reverse.
  apply ofLE_range. by apply Forall_reverse, bytesLE_isByte.
Qed.

Lemma swapBytes_involutive n v : 0 ≤ v < 256 ^ Z.of_nat n → swapBytes n (swapBytes n v) = v.
Proof.
  intros Hv. unfold swapBytes.
  assert (bytesLE n (ofLE (reverse (bytesLE n v))) = reverse (bytesLE n v)) as ->.
  { rewrite <-(length_bytesLE n v) at 1. rewrite <-length_reverse. apply bytesLE_ofLE.
    apply Forall_reverse, bytesLE_isByte. }
  rewrite reverse_involutive. by apply ofLE_bytesLE.
Qed.

(** ** Zero padding *)

(** Removing all but one of the trailing zeros, on the bytes from the last one on. *)
Fixpoint stripRev (l : list Z) : list Z :=
  match l with
  | a :: (b :: _) as l' => if decide (a = 0 ∧ b = 0) then stripRev l' else l
  | _ => l
  end.
Definition stripZeros (data : list Z) : list Z := reverse (stripRev (reverse data)).

Lemma stripRev_pad l : ∃ k, l = replicate k 0 ++ stripRev l.
Proof.
  induction l as [|a [|b l] IH]; [by exists 0%nat|by exists 0%nat|]. cbn [stripRev].
  case_decide as H; [|by exists 0%nat]. destruct IH as [k IH], H as [-> ->]. exists (S k). cbn [replicate app]. by f_equal.
Qed.

(** What is removed is zeros. *)
Lemma stripZeros_pad data : ∃ k, data = stripZeros data ++ replicate k 0.
Proof.
  destruct (stripRev_pad (reverse data)) as [k Hk]. exists k. unfold stripZeros.
  apply (f_equal reverse) in Hk. rewrite reverse_involutive, reverse_app, reverse_replicate in Hk. done.
Qed.

End Bytes.
