(* ===== verification/Types.v ===== *)
(** * Types: descriptions of system calls and of their argument types (prog/types.go)

    Type descriptions are mutually linked Go objects; they are kept in one table
    ([typeRefs] of prog/target.go) and every object knows its own index in it
    ([TypeCommon.self]).  The model keeps the table and writes the links between
    types as indices [Ref], so that pointer equality of types is equality of
    indices. *)

From S2P Require Import Prelude.
From Stdlib Require Import Ascii.

Module Types.

Notation Ref := nat (only parsing).

Inductive Dir := DirIn | DirOut | DirInOut.
#[export] Instance Dir_eq_dec : EqDecision Dir.
Proof. solve_decision. Defined.

Inductive BinaryOperator := OperatorCompareEq | OperatorCompareNeq | OperatorBinaryAnd.

(** [Expression]: a binary expression or a value; [Value v path] stands for the
    constant [v] when [path] is empty. *)
Inductive Expression :=
| BinaryExpression (op : BinaryOperator) (left right : Expression)
| Value (v : Z) (path : list string).

Inductive BinaryFormat :=
| FormatNative | FormatBigEndian | FormatStrDec | FormatStrHex | FormatStrOct.
#[export] Instance BinaryFormat_eq_dec : EqDecision BinaryFormat.
Proof. solve_decision. Defined.

(** The numbers of the [iota] constants. *)
Definition formatCode (bf : BinaryFormat) : Z :=
  match bf with
  | FormatNative => 0 | FormatBigEndian => 1 | FormatStrDec => 2
  | FormatStrHex => 3 | FormatStrOct => 4
  end.

Record Field := MkField {
  fieldName : string;
  fieldType : Ref;
  HasDirection : bool;
  Direction : Dir;
  Condition : option Expression
}.

Definition fieldDir (f : Field) (def : Dir) : Dir :=
  if HasDirection f then Direction f else def.

Record TypeCommon := MkTypeCommon {
  TypeName : string;
  TypeSize : Z;
  TypeAlign : Z;
  IsOptional : bool;
  IsVarlen : bool;
  self : Ref
}.

Record ResourceDesc := MkResourceDesc {
  resName : string;
  resKind : list string;
  resValues : list Z
}.

Record IntTypeCommon := MkIntTypeCommon {
  intCommon : TypeCommon;
  ArgFormat : BinaryFormat;
  BitfieldOff : Z;
  BitfieldLen : Z;
  BitfieldUnit : Z;
  BitfieldUnitOff : Z
}.

Inductive IntKind := IntPlain | IntRange.
Inductive CsumKind := CsumInet | CsumPseudo.
#[export] Instance CsumKind_eq_dec : EqDecision CsumKind.
Proof. solve_decision. Defined.
Inductive BufferKind :=
| BufferBlobRand | BufferBlobRange | BufferString | BufferFilename | BufferText
| BufferGlob | BufferCompressed.
#[export] Instance BufferKind_eq_dec : EqDecision BufferKind.
Proof. solve_decision. Defined.
Inductive TextKind :=
| TextTarget | TextX86Real | TextX86bit16 | TextX86bit32 | TextX86bit64 | TextArm64 | TextPpc64.
Inductive ArrayKind := ArrayRandLen | ArrayRangeLen.
#[export] Instance ArrayKind_eq_dec : EqDecision ArrayKind.
Proof. solve_decision. Defined.

(** Strings of the descriptions that become data ([BufferType.Values]) are byte
    lists. *)
Record BufferDesc := MkBufferDesc {
  bufKind : BufferKind;
  bufRangeBegin : Z;
  bufRangeEnd : Z;
  bufText : TextKind;
  bufSubKind : string;
  bufValues : list (list Z);
  bufNoZ : bool
}.

(** The implementations of the interface [Type]. *)
Inductive Typ :=
| ResourceType (tc : TypeCommon) (argFormat : BinaryFormat) (desc : ResourceDesc)
| ConstType (ic : IntTypeCommon) (val : Z) (isPad : bool)
| IntType (ic : IntTypeCommon) (kind : IntKind) (rangeBegin rangeEnd align : Z)
| FlagsType (ic : IntTypeCommon) (vals : list Z) (bitMask : bool)
| LenType (ic : IntTypeCommon) (bitSize : Z) (offset : bool) (path : list string)
| ProcType (ic : IntTypeCommon) (valuesStart valuesPerProc : Z)
| CsumType (ic : IntTypeCommon) (kind : CsumKind) (buf : string) (protocol : Z)
| VmaType (tc : TypeCommon) (rangeBegin rangeEnd : Z)
| BufferType (tc : TypeCommon) (desc : BufferDesc)
| ArrayType (tc : TypeCommon) (elem : Ref) (kind : ArrayKind) (rangeBegin rangeEnd : Z)
| PtrType (tc : TypeCommon) (elem : Ref) (elemDir : Dir)
| StructType (tc : TypeCommon) (fields : list Field) (alignAttr : Z) (overlayField : Z)
| UnionType (tc : TypeCommon) (fields : list Field).

(** The embedded [TypeCommon] and, for integers, [IntTypeCommon]. *)
Definition common (t : Typ) : TypeCommon :=
  match t with
  | ResourceType tc _ _ | VmaType tc _ _ | BufferType tc _ | ArrayType tc _ _ _ _
  | PtrType tc _ _ | StructType tc _ _ _ | UnionType tc _ => tc
  | ConstType ic _ _ | IntType ic _ _ _ _ | FlagsType ic _ _ | LenType ic _ _ _
  | ProcType ic _ _ | CsumType ic _ _ _ => intCommon ic
  end.

Definition asInt (t : Typ) : option IntTypeCommon :=
  match t with
  | ConstType ic _ _ | IntType ic _ _ _ _ | FlagsType ic _ _ | LenType ic _ _ _
  | ProcType ic _ _ | CsumType ic _ _ _ => Some ic
  | _ => None
  end.

Record SyscallAttrs := MkAttrs {
  Disabled : bool; Timeout : Z; ProgTimeout : Z; IgnoreReturn : bool;
  BreaksReturns : bool; NoGenerate : bool; NoMinimize : bool
}.

Record Syscall := MkSyscall {
  ID : Z;
  NR : Z;
  sysName : string;
  CallName : string;
  MissingArgs : Z;
  sysArgs : list Field;
  sysRet : option Ref;
  Attrs : SyscallAttrs
}.

Definition MaxArgs : Z := 9.

(** ** Methods of [Type] *)

Definition Name (t : Typ) : string := TypeName (common t).

(** [name[:strings.IndexByte(name, '[')]], the whole name if there is none. *)
Fixpoint beforeBracket (s : string) : string :=
  match s with
  | EmptyString => EmptyString
  | String c s => if Ascii.eqb c "["%char then EmptyString else String c (beforeBracket s)
  end.

Definition TemplateName (t : Typ) : string := beforeBracket (Name t).

Definition Optional (t : Typ) : bool := IsOptional (common t).
Definition Varlen (t : Typ) : bool := IsVarlen (common t).

Definition Size (t : Typ) : res Z :=
  if IsVarlen (common t) then Panic "static type size is not known"
  else Ret (TypeSize (common t)).

Definition TypeBitSize (t : Typ) : res Z :=
  match asInt t with
  | None => Panic "cannot get the bitsize for a non-integer type"
  | Some ic =>
    Ret (if decide (ArgFormat ic ≠ FormatNative ∧ ArgFormat ic ≠ FormatBigEndian) then 64
         else if decide (BitfieldLen ic ≠ 0) then BitfieldLen ic
         else TypeSize (intCommon ic) *! 8)
  end.

Definition Format (t : Typ) : BinaryFormat :=
  match t with
  | ResourceType _ bf _ => bf
  | _ => match asInt t with Some ic => ArgFormat ic | None => FormatNative end
  end.

Definition BitfieldOffset (t : Typ) : Z :=
  match asInt t with Some ic => BitfieldOff ic | None => 0 end.
Definition BitfieldLength (t : Typ) : Z :=
  match asInt t with Some ic => BitfieldLen ic | None => 0 end.
Definition UnitSize (t : Typ) : res Z :=
  match asInt t with
  | Some ic => if decide (BitfieldLen ic ≠ 0) then Ret (BitfieldUnit ic) else Size t
  | None => Size t
  end.
Definition UnitOffset (t : Typ) : Z :=
  match asInt t with Some ic => BitfieldUnitOff ic | None => 0 end.
Definition IsBitfield (t : Typ) : bool :=
  match asInt t with Some ic => bool_decide (BitfieldLen ic ≠ 0) | None => false end.

Definition IsPad (t : Typ) : bool :=
  match t with ConstType _ _ isPad => isPad | _ => false end.

(** [ref()]: the index 0 of the table is never a type. *)
Definition ref (t : Typ) : res Ref :=
  if decide (self (common t) = 0%nat) then Panic "ref is not assigned yet"
  else Ret (self (common t)).

(** [ResourceType.Default] and [SpecialValues]. *)
Definition Default (desc : ResourceDesc) : res Z := index (resValues desc) 0.

Definition isConditional (fields : list Field) : res bool :=
  let! f := index fields 0 in
  Ret (match Condition f with Some _ => true | None => false end).

Definition defaultField (fields : list Field) : res Z :=
  let! c := isConditional fields in
  Ret (if (c : bool) then Z.of_nat (length fields) - 1 else 0).

Definition IsCompressed (desc : BufferDesc) : bool :=
  bool_decide (bufKind desc = BufferCompressed).

(** The global table of types; entry 0 is [nil]. *)
Definition typeTable := list (option Typ).

Definition typeAt (ts : typeTable) (r : Ref) : res Typ :=
  match r, ts !! r with
  | O, _ => Panic "broken type ref"
  | _, Some (Some t) => Ret t
  | _, Some None => Panic "nil type"
  | _, None => Panic "index out of range"
  end.

(** ** Expressions *)

(** The values of an expression, in the order [ForEachValue] visits them. *)
Fixpoint ForEachValue (e : Expression) : list (Z * list string) :=
  match e with
  | BinaryExpression _ l r => ForEachValue l ++ ForEachValue r
  | Value v p => [(v, p)]
  end.

End Types.
