(* ===== verification/Prog.v ===== *)
(** * Prog: programs, calls and arguments (prog/prog.go, prog/types.go, prog/analysis.go)

    Arguments form trees whose nodes are Go objects with an identity [argId].
    A [ResultArg] is the only argument other arguments refer to ([Res], [uses])
    and change from outside of its tree, so the contents of the result arguments
    live in a [heap] and a tree holds the identity only.  All the other nodes are
    owned by their tree. *)

From S2P Require Import Prelude Types.
Import Types.

Module Prog.

Notation argId := positive (only parsing).

Record ArgCommon := MkCommon { aid : argId; aref : Ref; adir : Dir }.

Inductive Arg :=
| ConstArg (c : ArgCommon) (Val : Z)
| PointerArg (c : ArgCommon) (Address VmaSize : Z) (Res : option Arg)
| DataArg (c : ArgCommon) (data : list Z) (size : Z)
| GroupArg (c : ArgCommon) (Inner : list Arg)
| UnionArg (c : ArgCommon) (Option : Arg) (Index : Z) (transient : bool)
| ResultArg (i : argId).

(** The contents of a [ResultArg]. *)
Record ResultObj := MkResult {
  rRef : Ref;
  rDir : Dir;
  rRes : option argId;
  OpDiv : Z;
  OpAdd : Z;
  rVal : Z;
  uses : gset argId
}.

Notation heap := (gmap positive ResultObj) (only parsing).

(** The heap with the next identity to hand out. *)
Record mem := Mem { mHeap : heap; mNext : argId }.

Record CallProps := MkProps { FailNth : Z; Async : bool; Rerun : Z }.
Definition noProps : CallProps := MkProps 0 false 0.

Record Call := MkCall {
  Meta : Syscall;
  Args : list Arg;
  Ret_ : option argId;
  Props : CallProps;
  Comment : string
}.

(** The parts of [Target] the modelled code reads; [anyArray], [anyPtrPtr], [anyPtr64],
    [anyUnion] and [anyBlob] are [array], [ptrPtr], [ptr64], [union] and [blob] of
    [target.any], and [anyRes] its resources [res8], [res16], [res32], [res64], [resdec],
    [reshex] and [resoct], in this order. *)
Record Target := MkTarget {
  typeRefs : typeTable;
  Syscalls : list Syscall;
  PtrSize : Z;
  PageSize : Z;
  NumPages : Z;
  DataOffset : Z;
  SpecialPointers : list Z;
  anyArray : Ref;
  anyPtrPtr : Ref;
  anyPtr64 : Ref;
  anyUnion : Ref;
  anyBlob : Ref;
  anyRes : list Ref;
  OS : string;
  Resources : list ResourceDesc;
  AuxResources : list string
}.

Definition maxSpecialPointers : Z := 16.

Definition deref (h : heap) (i : argId) : res ResultObj :=
  match h !! i with Some o => Ret o | None => Panic "nil pointer dereference" end.

Definition argIdOf (arg : Arg) : argId :=
  match arg with
  | ConstArg c _ | PointerArg c _ _ _ | DataArg c _ _ | GroupArg c _ | UnionArg c _ _ _ => aid c
  | ResultArg i => i
  end.

(** ** Traversal contexts *)

Record ArgCtx := MkCtx {
  Parent : list Arg;
  Fields : list Field;
  Base : option Arg;
  Offset : Z
}.
Definition emptyCtx : ArgCtx := MkCtx [] [] None 0.

Section target.
Context (target : Target).

Notation typeAt := (typeAt (typeRefs target)).

Definition argRef (h : heap) (arg : Arg) : res Ref :=
  match arg with
  | ConstArg c _ | PointerArg c _ _ _ | DataArg c _ _ | GroupArg c _ | UnionArg c _ _ _ =>
    Ret (aref c)
  | ResultArg i => let! o := deref h i in Ret (rRef o)
  end.

Definition argType (h : heap) (arg : Arg) : res Typ :=
  let! r := argRef h arg in typeAt r.

Definition argDir (h : heap) (arg : Arg) : res Dir :=
  match arg with
  | ConstArg c _ | PointerArg c _ _ _ | DataArg c _ _ | GroupArg c _ | UnionArg c _ _ _ =>
    Ret (adir c)
  | ResultArg i => let! o := deref h i in Ret (rDir o)
  end.

(** ** Constructors *)

(** [&XArg{...}]: a fresh identity. *)
Definition alloc (m : mem) : argId * mem := (mNext m, Mem (mHeap m) (Pos.succ (mNext m))).

Definition MakeConstArg (t : Typ) (dir : Dir) (v : Z) (m : mem) : res (Arg * mem) :=
  let! r := ref t in let (i, m) := alloc m in Ret (ConstArg (MkCommon i r dir) v, m).

Definition MakePointerArg (t : Typ) (dir : Dir) (addr : Z) (data : Arg) (m : mem) :
    res (Arg * mem) :=
  let! r := ref t in let (i, m) := alloc m in
  Ret (PointerArg (MkCommon i r DirIn) addr 0 (Some data), m).

Definition MakeVmaPointerArg (t : Typ) (dir : Dir) (addr size : Z) (m : mem) : res (Arg * mem) :=
  if decide (addr `mod` 1024 ≠ 0) then Panic "unaligned vma address"
  else let! r := ref t in let (i, m) := alloc m in
       Ret (PointerArg (MkCommon i r dir) addr size None, m).

Definition MakeSpecialPointerArg (t : Typ) (dir : Dir) (idx : Z) (m : mem) : res (Arg * mem) :=
  if decide (maxSpecialPointers ≤ idx) then Panic "bad special pointer index"
  else
    let dir := match t with PtrType _ _ _ => DirIn | _ => dir end in
    let! r := ref t in let (i, m) := alloc m in
    Ret (PointerArg (MkCommon i r dir) (0 -! idx) 0 None, m).

Definition MakeDataArg (t : Typ) (dir : Dir) (data : list Z) (m : mem) : res (Arg * mem) :=
  if decide (dir = DirOut) then Panic "non-empty output data arg"
  else let! r := ref t in let (i, m) := alloc m in Ret (DataArg (MkCommon i r dir) data 0, m).

Definition MakeOutDataArg (t : Typ) (dir : Dir) (size : Z) (m : mem) : res (Arg * mem) :=
  if decide (dir ≠ DirOut) then Panic "empty input data arg"
  else let! r := ref t in let (i, m) := alloc m in Ret (DataArg (MkCommon i r dir) [] size, m).

Definition MakeGroupArg (t : Typ) (dir : Dir) (inner : list Arg) (m : mem) : res (Arg * mem) :=
  let! r := ref t in let (i, m) := alloc m in Ret (GroupArg (MkCommon i r dir) inner, m).

Definition MakeUnionArg (t : Typ) (dir : Dir) (opt : Arg) (idx : Z) (m : mem) : res (Arg * mem) :=
  let! r := ref t in let (i, m) := alloc m in Ret (UnionArg (MkCommon i r dir) opt idx false, m).

(** [r.uses[i] = true] *)
Definition addUse (r i : argId) (h : heap) : res heap :=
  let! o := deref h r in
  Ret (<[r := MkResult (rRef o) (rDir o) (rRes o) (OpDiv o) (OpAdd o) (rVal o) ({[i]} ∪ uses o)]> h).

(** [delete(r.uses, i)] *)
Definition delUse (r i : argId) (h : heap) : res heap :=
  let! o := deref h r in
  Ret (<[r := MkResult (rRef o) (rDir o) (rRes o) (OpDiv o) (OpAdd o) (rVal o) (uses o ∖ {[i]})]> h).

Definition MakeResultArg (t : Typ) (dir : Dir) (r : option argId) (v : Z) (m : mem) :
    res (argId * mem) :=
  let! rf := ref t in let (i, m) := alloc m in
  let h := <[i := MkResult rf dir r 0 0 v ∅]> (mHeap m) in
  match r with
  | None => Ret (i, Mem h (mNext m))
  | Some r => let! h := addUse r i h in Ret (i, Mem h (mNext m))
  end.

Definition MakeReturnArg (t : option Typ) (m : mem) : res (option argId * mem) :=
  match t with
  | None => Ret (None, m)
  | Some t =>
    let! rf := ref t in let (i, m) := alloc m in
    Ret (Some i, Mem (<[i := MkResult rf DirOut None 0 0 0 ∅]> (mHeap m)) (mNext m))
  end.

(** [Meta.Ret] as a type. *)
Definition retType (meta : Syscall) : res (option Typ) :=
  match sysRet meta with
  | None => Ret None
  | Some r => let! t := typeAt r in Ret (Some t)
  end.

Definition MakeCall (meta : Syscall) (args : list Arg) (m : mem) : res (Call * mem) :=
  let! t := retType meta in
  let! '(ret, m) := MakeReturnArg t m in
  Ret (MkCall meta args ret noProps "", m).

(** ** Accessors *)

Definition procDefaultValue : Z := 2 ^ 64 - 1.

(** [ConstArg.Value]: the value and the pid stride. *)
Definition constValue (t : Typ) (val : Z) : res (Z * Z) :=
  match t with
  | IntType _ _ _ _ _ | ConstType _ _ _ | FlagsType _ _ _ | LenType _ _ _ _ | ResourceType _ _ _ =>
    Ret (val, 0)
  | CsumType _ _ _ _ => Ret (0, 0)
  | ProcType _ valuesStart valuesPerProc =>
    if decide (val = procDefaultValue) then Ret (0, 0)
    else Ret (valuesStart +! val, valuesPerProc)
  | _ => Panic "unknown ConstArg type"
  end.

Definition isSpecial (addr vmaSize : Z) (pointee : option Arg) : bool :=
  bool_decide (vmaSize = 0) && match pointee with None => true | Some _ => false end
  && bool_decide (0 -! addr < maxSpecialPointers).

Definition PhysicalAddr (ptr : Arg) : res Z :=
  match ptr with
  | PointerArg _ addr vmaSize pointee =>
    if isSpecial addr vmaSize pointee then index (SpecialPointers target) (0 -! addr)
    else Ret (DataOffset target +! addr)
  | _ => Panic "not a pointer"
  end.

Definition argData (dir : Dir) (data : list Z) : res (list Z) :=
  if decide (dir = DirOut) then Panic "getting data of output data arg" else Ret data.

(** One field of the loop of [GroupArg.Size] over a struct of [n] fields. *)
Definition structStep (overlay align n i fldSize : Z) (acc : Z * Z) : Z * Z :=
  let (size, offset) := acc in
  let offset := if decide (i = overlay) then 0 else offset in
  let offset := offset +! fldSize in
  let offset :=
    if decide (i + 1 = n ∨ i + 1 = overlay) then
      if decide (align ≠ 0 ∧ offset `mod` align ≠ 0) then
        offset +! (align -! offset `mod` align)
      else offset
    else offset in
  (if decide (size < offset) then offset else size, offset).

Fixpoint Size (h : heap) (arg : Arg) : res Z :=
  match arg with
  | ConstArg c _ | PointerArg c _ _ _ => let! t := typeAt (aref c) in Types.Size t
  | DataArg _ data size =>
    Ret (if decide (data ≠ []) then Z.of_nat (length data) else size)
  | GroupArg c inner =>
    let! typ0 := typeAt (aref c) in
    if negb (Varlen typ0) then Types.Size typ0
    else
      match typ0 with
      | StructType _ _ align overlay =>
        let! '(_, (size, _)) :=
          for_list (λ fld '(i, acc), let! sz := Size h fld in
            Ret (i + 1, structStep overlay align (Z.of_nat (length inner)) i sz acc))
            inner (0, (0, 0)) in
        Ret size
      | ArrayType _ _ _ _ _ =>
        for_list (λ elem size, let! sz := Size h elem in Ret (size +! sz)) inner 0
      | _ => Panic "bad group arg type"
      end
  | UnionArg c opt _ _ =>
    let! t := typeAt (aref c) in
    if negb (Varlen t) then Types.Size t else Size h opt
  | ResultArg i => let! o := deref h i in let! t := typeAt (rRef o) in Types.Size t
  end.

Definition fixedInnerSize (t : Typ) : res bool :=
  match t with
  | StructType _ _ _ _ => Ret true
  | ArrayType _ _ kind rb re => Ret (bool_decide (kind = ArrayRangeLen ∧ rb = re))
  | _ => Panic "bad group arg type"
  end.

(** The inner argument of pointers; [None] is [nil]. *)
Fixpoint InnerArg (h : heap) (arg : Arg) : res (option Arg) :=
  let! t := argType h arg in
  match t, arg with
  | PtrType _ _ _, PointerArg _ _ _ None => Ret None
  | PtrType _ _ _, PointerArg _ _ _ (Some pointee) => InnerArg h pointee
  | PtrType _ _ _, _ => Panic "interface conversion: not a *PointerArg"
  | _, _ => Ret (Some arg)
  end.

(** ** Default arguments *)

(** [DefaultArg] follows the links of the type table. *)
Fixpoint DefaultArg (fuel : nat) (t : Typ) (dir : Dir) (m : mem) : res (Arg * mem) :=
  match fuel with
  | O => OutOfFuel
  | S fuel =>
    match t with
    | ResourceType _ _ desc =>
      let! v := Default desc in
      let! '(i, m) := MakeResultArg t dir None v m in Ret (ResultArg i, m)
    | ConstType _ val _ => MakeConstArg t dir val m
    | IntType _ _ _ _ _ | FlagsType _ _ _ | LenType _ _ _ _ | CsumType _ _ _ _ =>
      MakeConstArg t dir 0 m
    | ProcType _ _ _ => MakeConstArg t dir procDefaultValue m
    | VmaType _ _ _ => MakeSpecialPointerArg t dir 0 m
    | BufferType _ desc =>
      if decide (dir = DirOut) then
        let! sz := if Varlen t then Ret 0 else Types.Size t in MakeOutDataArg t dir sz m
      else
        let! data :=
          match bufValues desc with
          | [v] => Ret v
          | _ => if Varlen t then Ret [] else
                 let! sz := Types.Size t in Ret (replicate (Z.to_nat sz) 0)
          end in
        MakeDataArg t dir data m
    | ArrayType _ elem kind rb re =>
      let! '(elems, m) :=
        if decide (kind = ArrayRangeLen ∧ rb = re) then
          let! te := typeAt elem in
          for_list (λ (_ : nat) '(elems, m),
            let! '(e, m) := DefaultArg fuel te dir m in Ret (elems ++ [e], m))
            (seq 0 (Z.to_nat rb)) ([], m)
        else Ret ([], m) in
      MakeGroupArg t dir elems m
    | PtrType _ elem elemDir =>
      if Optional t then MakeSpecialPointerArg t dir 0 m
      else
        let! te := typeAt elem in
        let! '(e, m) := DefaultArg fuel te elemDir m in
        MakePointerArg t dir 0 e m
    | StructType _ fields _ _ =>
      let! '(inner, m) :=
        for_list (λ f '(inner, m),
          let! tf := typeAt (fieldType f) in
          let! '(e, m) := DefaultArg fuel tf (fieldDir f dir) m in Ret (inner ++ [e], m))
          fields ([], m) in
      MakeGroupArg t dir inner m
    | UnionType _ fields =>
      let! idx := defaultField fields in
      let! f := index fields idx in
      let! tf := typeAt (fieldType f) in
      let! '(e, m) := DefaultArg fuel tf (fieldDir f dir) m in
      let! '(arg, m) := MakeUnionArg t dir e idx m in
      let! transient := isConditional fields in
      match arg with
      | UnionArg c opt idx _ => Ret (UnionArg c opt idx transient, m)
      | _ => Panic "not a union"
      end
    end
  end.

(** [arg.Type().isDefaultArg(arg)] *)
Fixpoint isDefault (h : heap) (arg : Arg) : res bool :=
  let! t := argType h arg in
  match arg with
  | ConstArg _ val =>
    match t with
    | ConstType _ v _ => Ret (bool_decide (val = v))
    | IntType _ _ _ _ _ | FlagsType _ _ _ | LenType _ _ _ _ | CsumType _ _ _ _ =>
      Ret (bool_decide (val = 0))
    | ProcType _ _ _ => Ret (bool_decide (val = procDefaultValue))
    | _ => Panic "interface conversion"
    end
  | ResultArg i =>
    match t with
    | ResourceType _ _ desc =>
      let! o := deref h i in
      if decide (rRes o = None ∧ OpDiv o = 0 ∧ OpAdd o = 0 ∧ uses o = ∅) then
        let! d := Default desc in Ret (bool_decide (rVal o = d))
      else Ret false
    | _ => Panic "interface conversion"
    end
  | PointerArg _ addr vmaSize pointee =>
    match t with
    | VmaType _ _ _ => Ret (isSpecial addr vmaSize pointee && bool_decide (addr = 0))
    | PtrType _ _ _ =>
      if Optional t then Ret (isSpecial addr vmaSize pointee && bool_decide (addr = 0))
      else match pointee with
           | Some pointee => if decide (addr = 0) then isDefault h pointee else Ret false
           | None => Ret false
           end
    | _ => Panic "interface conversion"
    end
  | DataArg c data size =>
    match t with
    | BufferType _ desc =>
      let! sz := if Varlen t then Ret 0 else Types.Size t in
      let argSize := if decide (data ≠ []) then Z.of_nat (length data) else size in
      if decide (argSize ≠ sz) then Ret false
      else if decide (adir c = DirOut) then Ret true
      else match bufValues desc with
           | [v] => Ret (bool_decide (data = v))
           | _ => Ret (forallb (λ b, bool_decide (b = 0)) data)
           end
    | _ => Panic "interface conversion"
    end
  | GroupArg _ inner =>
    let allDefault :=
      for_list (λ elem (ok : bool), if ok then isDefault h elem else Ret false) inner true in
    match t with
    | ArrayType _ _ _ _ _ =>
      let! fixed := fixedInnerSize t in
      if negb fixed && bool_decide (inner ≠ []) then Ret false else allDefault
    | StructType _ _ _ _ => allDefault
    | _ => Panic "interface conversion"
    end
  | UnionArg _ opt idx _ =>
    match t with
    | UnionType _ fields =>
      let! d := defaultField fields in
      if decide (idx = d) then isDefault h opt else Ret false
    | _ => Panic "interface conversion"
    end
  end.

(** ** Traversal (prog/analysis.go) *)

Section foreach.
Context {S : Type} (getH : S → heap).

(** The callback gets the argument and its context and returns the new state
    and [ctx.Stop].  The heap the sizes are computed in is part of the state the
    callback changes. *)
Variable f : Arg → ArgCtx → S → res (S * bool).

Fixpoint foreachArgImpl (arg : Arg) (ctx : ArgCtx) (s : S) : res S :=
  let! '(s, stop) := f arg ctx s in
  if (stop : bool) then Ret s
  else
    match arg with
    | GroupArg c inner =>
      let! t := typeAt (aref c) in
      let ctx1 := match t with
                  | StructType _ fields _ _ => MkCtx inner fields (Base ctx) (Offset ctx)
                  | _ => ctx
                  end in
      let overlayField := match t with StructType _ _ _ o => o | _ => 0 end in
      let! '(_, _, s) :=
        for_list (λ arg1 '(i, off, s),
          let off := if decide (i = overlayField) then Offset ctx else off in
          let! s := foreachArgImpl arg1 (MkCtx (Parent ctx1) (Fields ctx1) (Base ctx1) off) s in
          let! size := Size (getH s) arg1 in
          Ret (i + 1, off +! size, s)) inner (0, Offset ctx, s) in
      Ret s
    | PointerArg _ _ _ (Some pointee) =>
      foreachArgImpl pointee (MkCtx (Parent ctx) (Fields ctx) (Some arg) 0) s
    | UnionArg _ opt _ _ => foreachArgImpl opt ctx s
    | _ => Ret s
    end.

Definition ForeachSubArg (arg : Arg) (s : S) : res S := foreachArgImpl arg emptyCtx s.

Definition ForeachArg (c : Call) (s : S) : res S :=
  let! s := match Ret_ c with
            | Some i => foreachArgImpl (ResultArg i) emptyCtx s
            | None => Ret s
            end in
  for_list (λ arg s, foreachArgImpl arg (MkCtx (Args c) (sysArgs (Meta c)) None 0) s) (Args c) s.

End foreach.

(** Every argument visited with its context, in the order of the visit. *)
Definition visits (h : heap) (arg : Arg) (ctx : ArgCtx) : res (list (Arg * ArgCtx)) :=
  foreachArgImpl (λ _, h) (λ a c l, Ret (l ++ [(a, c)], false)) arg ctx [].

Definition callVisits (h : heap) (c : Call) : res (list (Arg * ArgCtx)) :=
  ForeachArg (λ _, h) (λ a c l, Ret (l ++ [(a, c)], false)) c [].

(** ** Induction on argument trees *)

Section arg_ind.
Variable P : Arg → Prop.
Hypothesis Hconst : ∀ c v, P (ConstArg c v).
Hypothesis Hptr : ∀ c a v r, (∀ p, r = Some p → P p) → P (PointerArg c a v r).
Hypothesis Hdata : ∀ c d s, P (DataArg c d s).
Hypothesis Hgroup : ∀ c l, (∀ x, x ∈ l → P x) → P (GroupArg c l).
Hypothesis Hunion : ∀ c o i t, P o → P (UnionArg c o i t).
Hypothesis Hresult : ∀ i, P (ResultArg i).

Fixpoint arg_ind (a : Arg) : P a.
Proof.
  destruct a as [c v|c ad v r|c d s|c l|c o i t|i].
  - apply Hconst.
  - apply Hptr. destruct r as [p|]; [|discriminate]. intros p' Hp. injection Hp as <-. apply arg_ind.
  - apply Hdata.
  - apply Hgroup, Forall_forall. induction l as [|x l IH]; constructor; [apply arg_ind|exact IH].
  - apply Hunion, arg_ind.
  - apply Hresult.
Defined.
End arg_ind.

(** Sizes only depend on those of the results. *)
Lemma size_results (h h' : heap) a z :
  (∀ i z, Size h (ResultArg i) = Ret z → Size h' (ResultArg i) = Ret z) → Size h a = Ret z → Size h' a = Ret z.
Proof.
  intros Hr. revert z; induction a as [| | |c l IH|c o i t IH|i] using arg_ind; intros z; [simpl; try done..|apply Hr].
  - intros H. unbind. destruct (negb _); [done|]. destruct x; try done.
    + eapply for_list_mono; [|exact H]. intros y s s' Hy Hs. simpl in *. unbind.
      rewrite (IH y Hy _ E0). simpl. congruence.
    + unbind. erewrite for_list_mono; [..|exact E0]; [simpl; congruence|].
      intros y [i [sz off]] s' Hy Hs. simpl in *. unbind. rewrite (IH y Hy _ E1). simpl. congruence.
  - intros H. unbind. destruct (negb _); auto.
Qed.

(** ** Growing heaps *)

Section mono.
Context (h h' : heap) (Hh : h ⊆ h').

Lemma deref_mono i o : deref h i = Ret o → deref h' i = Ret o.
Proof.
  unfold deref. destruct (h !! i) eqn:E; [|done]. by rewrite (lookup_weaken h h' i _ E Hh).
Qed.

Lemma argType_mono a t : argType h a = Ret t → argType h' a = Ret t.
Proof.
  unfold argType, argRef. destruct a; try done. intros H. unbind.
  rewrite (deref_mono _ _ E0). done.
Qed.

Lemma size_mono a z : Size h a = Ret z → Size h' a = Ret z.
Proof.
  apply size_results. intros i z' H. simpl in *. unbind. rewrite (deref_mono _ _ E). simpl. by rewrite E0.
Qed.

Lemma isDefault_mono a b : isDefault h a = Ret b → isDefault h' a = Ret b.
Proof.
  revert b; induction a as [|c ad v r IH| |c l IH|c o i t IH|i] using arg_ind; intros b; simpl; try done;
    intros H; unbind; try (rewrite (argType_mono _ _ E); simpl).
  - destruct x; try done. destruct (Optional _); [done|]. destruct r as [p|]; [|done].
    destruct (decide _); [by apply IH|done].
  - assert (∀ s b, for_list (λ elem (ok : bool), if ok then isDefault h elem else Ret false) l s = Ret b →
      for_list (λ elem (ok : bool), if ok then isDefault h' elem else Ret false) l s = Ret b) as Hl.
    { intros s b'. apply for_list_mono. intros y [] s' Hy; [by apply IH|done]. }
    destruct x; try done; [|by apply Hl]. unbind. destruct (_ && _); [done|by apply Hl].
  - destruct x; try done. unbind. destruct (decide _); [by apply IH|done].
  - destruct x; try done. unbind. rewrite (deref_mono _ _ E0). simpl. done.
Qed.
End mono.

(** ** Heaps with the same result types *)

(** Sizes and types depend on the heap only through the types and the directions of the
    results. *)
Definition sameRefs (h h' : heap) : Prop :=
  ∀ i o, h !! i = Some o → ∃ o', h' !! i = Some o' ∧ rRef o' = rRef o ∧ rDir o' = rDir o.

#[export] Instance sameRefs_preorder : PreOrder sameRefs.
Proof.
  split; [intros h i o; eauto|]. intros h1 h2 h3 H1 H2 i o Hi.
  destruct (H1 _ _ Hi) as (o2 & Hi2 & <- & <-). by apply H2.
Qed.

Lemma size_refs h h' a z : sameRefs h h' → Size h a = Ret z → Size h' a = Ret z.
Proof.
  intros Hh. revert z; induction a as [| | |c l IH|c o i t IH|i] using arg_ind; intros z; simpl; try done.
  - intros H. unbind. destruct (negb _); [done|]. destruct x; try done.
    + eapply for_list_mono; [|exact H]. intros y s s' Hy Hs. simpl in *. unbind.
      rewrite (IH y Hy _ E0). simpl. congruence.
    + unbind. erewrite for_list_mono; [..|exact E0]; [simpl; congruence|].
      intros y [i [sz off]] s' Hy Hs. simpl in *. unbind. rewrite (IH y Hy _ E1). simpl. congruence.
  - intros H. unbind. destruct (negb _); auto.
  - unfold deref. destruct (h !! i) as [o|] eqn:E; [|done]. destruct (Hh _ _ E) as (o' & -> & Hr & _).
    simpl. by rewrite Hr.
Qed.

(** ** Invariants of traversals *)

(** The arguments of a tree in the order of the traversal. *)
Fixpoint nodes (arg : Arg) : list Arg :=
  arg :: match arg with
         | GroupArg _ inner => concat (nodes <$> inner)
         | PointerArg _ _ _ (Some p) => nodes p
         | UnionArg _ opt _ _ => nodes opt
         | _ => []
         end.

Section foreach_inv.
Context {S : Type} (getH : S → heap) (f : Arg → ArgCtx → S → res (S * bool)).
(** [P done s]: the first arguments [done] of [full] were visited. *)
Context (full : list Arg) (P : list Arg → S → Prop).
Hypothesis Hstep : ∀ done x rest ctx s z,
  full = done ++ x :: rest → P done s → Size (getH s) x = Ret z →
  ∃ s', f x ctx s = Ret (s', false) ∧ P (done ++ [x]) s' ∧ sameRefs (getH s) (getH s').

Lemma Size_group_type h c l z : Size h (GroupArg c l) = Ret z → ∃ t, typeAt (aref c) = Ret t.
Proof. simpl. intros H. unbind. eauto. Qed.

Lemma foreach_inv arg : ∀ ctx done suf s,
  full = done ++ nodes arg ++ suf → P done s → (∀ x, x ∈ nodes arg → ∃ z, Size (getH s) x = Ret z) →
  ∃ s', foreachArgImpl getH f arg ctx s = Ret s' ∧ P (done ++ nodes arg) s' ∧
    sameRefs (getH s) (getH s').
Proof.
  assert (∀ x ctx done suf s, full = done ++ x :: suf → P done s → (∃ z, Size (getH s) x = Ret z) →
    ∃ s', f x ctx s = Ret (s', false) ∧ P (done ++ [x]) s' ∧ sameRefs (getH s) (getH s')) as Hone.
  { intros x ctx done suf s Hfull HP [z Hz]. by apply (Hstep done x suf ctx s z). }
  induction arg as [c v|c ad v r IH|c d sz|c l IH|c o i t IH|i] using arg_ind; intros ctx done suf s Hfull HP Hsz;
    match goal with |- context [foreachArgImpl getH f ?a ctx s] =>
      destruct (Hone a ctx done _ s Hfull HP) as (s1 & Hs1 & HP1 & Hr1);
        [apply Hsz; simpl; apply elem_of_cons; by left|] end;
    simpl; rewrite Hs1; simpl; try by eauto.
  - destruct r as [p|]; [|by eauto].
    destruct (IH p eq_refl (MkCtx (Parent ctx) (Fields ctx) (Some (PointerArg c ad v (Some p))) 0)
      (done ++ [PointerArg c ad v (Some p)]) suf s1) as (s2 & Hs2 & HP2 & Hr2).
    { rewrite Hfull, <-app_assoc. done. }
    { done. }
    { intros x Hx. destruct (Hsz x) as [z Hz]; [simpl; by apply elem_of_cons; right|].
      eauto using size_refs. }
    exists s2. split; [done|]. split; [by rewrite <-app_assoc in HP2|by etrans].
  - destruct (Hsz (GroupArg c l)) as [z Hz]; [simpl; apply elem_of_cons; by left|].
    destruct (Size_group_type _ _ _ _ Hz) as [t Ht]. rewrite Ht. simpl.
    match goal with |- context [for_list ?F l (0, Offset ctx, s1)] => set (G := F) end.
    assert (∀ l' done i off s, (∀ x, x ∈ l' → x ∈ l) →
      full = done ++ concat (nodes <$> l') ++ suf → P done s → sameRefs (getH s1) (getH s) →
      ∃ i' off' s', for_list G l' (i, off, s) = Ret (i', off', s') ∧ P (done ++ concat (nodes <$> l')) s' ∧
        sameRefs (getH s) (getH s')) as Hl.
    { induction l' as [|x l' IHl]; intros done' i off st Hin Hfl HPs Hrs; simpl.
      { exists i, off, st. rewrite app_nil_r. split_and!; [done|done|reflexivity]. }
      assert (x ∈ l) as Hx by (apply Hin; apply elem_of_cons; by left).
      assert (∀ y, y ∈ nodes x → ∃ z, Size (getH st) y = Ret z) as Hy.
      { intros y Hy. destruct (Hsz y) as [zy Hzy].
        - simpl. apply elem_of_cons. right. apply elem_of_concat. exists (nodes x).
          split; [by apply list_elem_of_fmap_2|done].
        - exists zy. eapply size_refs; [|exact Hzy]. by etrans. }
      unfold G at 1. set (off' := if decide _ then _ else _).
      assert (full = done' ++ nodes x ++ concat (nodes <$> l') ++ suf) as Hfx
        by (rewrite Hfl, fmap_cons; cbn [concat]; by rewrite <-app_assoc).
      edestruct (IH x Hx) as (s2 & Hs2 & HP2 & Hr2); [exact Hfx|exact HPs|exact Hy|]. rewrite Hs2. simpl.
      destruct (Hy x) as [zx Hzx]; [destruct x; simpl; apply elem_of_cons; by left|].
      rewrite (size_refs _ _ _ _ Hr2 Hzx). simpl.
      destruct (IHl (done' ++ nodes x) (i + 1) (off' +! zx) s2) as (i' & off2 & s3 & Hs3 & HP3 & Hr3).
      - intros y Hy'. apply Hin. apply elem_of_cons. by right.
      - by rewrite <-app_assoc.
      - done.
      - by etrans; [|exact Hr2].
      - exists i', off2, s3. rewrite app_assoc. split_and!; [done|done|by etrans]. }
    destruct (Hl l (done ++ [GroupArg c l]) 0 (Offset ctx) s1 ltac:(done)
      ltac:(rewrite Hfull, <-app_assoc; done) HP1 ltac:(reflexivity)) as (i' & off' & s2 & -> & HP2 & Hr2).
    exists s2. split; [done|]. split; [by rewrite <-app_assoc in HP2|by etrans].
  - destruct (IH ctx (done ++ [UnionArg c o i t]) suf s1) as (s2 & Hs2 & HP2 & Hr2).
    { rewrite Hfull, <-app_assoc. done. }
    { done. }
    { intros x Hx. destruct (Hsz x) as [z Hz]; [simpl; by apply elem_of_cons; right|].
      eauto using size_refs. }
    exists s2. split; [done|]. split; [by rewrite <-app_assoc in HP2|by etrans].
Qed.
End foreach_inv.

(** ** Traversals over the images of the states of another traversal *)

Section embed.
Context {S S' : Type} (j : S' → S) (h : heap).
Context (f : Arg → ArgCtx → S → res (S * bool)) (f' : Arg → ArgCtx → S' → res (S' * bool)).
Hypothesis Hf : ∀ a c s, f a c (j s) = (let! '(s, b) := f' a c s in Ret (j s, b)).

Lemma foreachArgImpl_embed arg : ∀ ctx s,
  foreachArgImpl (λ _, h) f arg ctx (j s) =
  (let! s := foreachArgImpl (λ _, h) f' arg ctx s in Ret (j s)).
Proof.
  induction arg as [| c ad v r IH| |c l IH|c o i t IH|i] using arg_ind; intros ctx st; simpl;
    rewrite Hf, bind_assoc, bind_assoc; apply bind_ext; intros [s1 b] _; simpl;
    (destruct b; [done|]); try done.
  - destruct r as [p|]; [|done]. by apply IH.
  - destruct (typeAt (aref c)); simpl; [|done|done]. rewrite bind_assoc.
    match goal with
    | |- context [for_list ?F l (0, Offset ctx, j s1)] =>
      match goal with
      | |- context [for_list ?F' l (0, Offset ctx, s1)] =>
        pose proof (for_list_embed (λ '(a, b, s), (a, b, j s)) F F' l (0, Offset ctx, s1)) as E
      end
    end. cbn beta iota in E. rewrite E; clear E.
    + rewrite bind_assoc. apply bind_ext. intros [[? ?] ?] _. done.
    + intros x [[i off] s2] Hx. rewrite IH by done. rewrite !bind_assoc.
      apply bind_ext. intros s3 _. simpl. by destruct (Size h x).
Qed.

Lemma ForeachArg_embed c s :
  ForeachArg (λ _, h) f c (j s) = (let! s := ForeachArg (λ _, h) f' c s in Ret (j s)).
Proof.
  unfold ForeachArg. destruct (Ret_ c) as [i|].
  - rewrite foreachArgImpl_embed, !bind_assoc. apply bind_ext. intros s1 _. simpl.
    apply for_list_embed. intros. apply foreachArgImpl_embed.
  - simpl. apply for_list_embed. intros. apply foreachArgImpl_embed.
Qed.
End embed.

(** ** Traversals that never stop are loops over the visits *)

Section visits.
Context (h : heap).
Let app1 (a : Arg) (c : ArgCtx) (l : list (Arg * ArgCtx)) : res (list (Arg * ArgCtx) * bool) :=
  Ret (l ++ [(a, c)], false).

(** [l] is what a traversal that collects its visits adds and what any
    traversal by a callback that never stops loops over. *)
Definition visited (arg : Arg) (ctx : ArgCtx) (l : list (Arg * ArgCtx)) : Prop :=
  (∀ acc, foreachArgImpl (λ _, h) app1 arg ctx acc = Ret (acc ++ l)) ∧
  ∀ S (g : Arg * ArgCtx → S → res S) s,
    foreachArgImpl (λ _, h) (λ a c s, let! s := g (a, c) s in Ret (s, false)) arg ctx s
    = for_list g l s.

Let inner_loop {S} (f : Arg → ArgCtx → S → res (S * bool)) (o : Z) (ov : Z) (ctx1 : ArgCtx)
    (l : list Arg) (st : Z * Z * S) : res (Z * Z * S) :=
  for_list (λ arg1 '(i, off, s),
    let off := if decide (i = ov) then o else off in
    let! s := foreachArgImpl (λ _, h) f arg1 (MkCtx (Parent ctx1) (Fields ctx1) (Base ctx1) off) s in
    let! size := Size h arg1 in
    Ret (i + 1, off +! size, s)) l st.

Lemma visited_inner l o ov ctx1 i off acc r :
  (∀ x, x ∈ l → ∀ ctx acc r, foreachArgImpl (λ _, h) app1 x ctx acc = Ret r →
     ∃ v, r = acc ++ v ∧ visited x ctx v) →
  inner_loop app1 o ov ctx1 l (i, off, acc) = Ret r →
  ∃ v, r.2 = acc ++ v ∧
    (∀ acc, inner_loop app1 o ov ctx1 l (i, off, acc) = Ret (r.1, acc ++ v)) ∧
    ∀ S (g : Arg * ArgCtx → S → res S) s,
      inner_loop (λ a c s, let! s := g (a, c) s in Ret (s, false)) o ov ctx1 l (i, off, s)
      = (let! s := for_list g v s in Ret (r.1, s)).
Proof.
  revert i off acc; induction l as [|x l IHl]; intros i off acc Hx; unfold inner_loop in *; simpl.
  { intros [= <-]. exists []. rewrite app_nil_r. split_and!; [done| |done].
    intros acc'. by rewrite app_nil_r. }
  intros H. apply bind_Ret in H as ([[i1 off1] acc1] & H1 & H).
  apply bind_Ret in H1 as (a1 & H1 & H2). apply bind_Ret in H2 as (sz & Hsz & [= <- <- <-]).
  destruct (Hx x (list_elem_of_here _ _) _ _ _ H1) as (v1 & -> & Hv1 & Hg1).
  destruct (IHl _ _ _ (λ y Hy, Hx y (list_elem_of_further _ _ _ Hy)) H) as (v2 & Hr & Hv2 & Hg2).
  exists (v1 ++ v2). split_and!; [by rewrite Hr, app_assoc| |].
  - intros acc'. rewrite Hv1. simpl. rewrite Hsz. simpl. by rewrite Hv2, app_assoc.
  - intros S g s. rewrite Hg1, for_list_app. destruct (for_list g v1 s); simpl; [|done|done].
    rewrite Hsz. simpl. by rewrite Hg2.
Qed.

Lemma foreach_visited arg ctx acc r :
  foreachArgImpl (λ _, h) app1 arg ctx acc = Ret r → ∃ v, r = acc ++ v ∧ visited arg ctx v.
Proof.
  revert ctx acc r; induction arg as [?|c ad vs p IH|?|c l IH|c o i t IH|?] using arg_ind;
    intros ctx acc r.
  1,3,6: intros [= <-]; eexists; split; [done|]; split; [done|];
    intros S g st; simpl; destruct (g _ st); done.
  - destruct p as [p|]; simpl.
    + intros H. destruct (IH p eq_refl _ _ _ H) as (v & -> & Hv & Hg).
      eexists (_ :: v). rewrite <-app_assoc. split; [done|]. split.
      * intros acc'. simpl. rewrite Hv, <-app_assoc. done.
      * intros S g s. simpl. destruct (g _ s); simpl; [|done|done]. apply Hg.
    + intros [= <-]; eexists; split; [done|]; split; [done|];
        intros S g s; simpl; destruct (g _ s); done.
  - simpl. intros H. apply bind_Ret in H as (t & Ht & H).
    apply bind_Ret in H as ([[i1 off1] acc1] & H & [= <-]).
    apply visited_inner in H as (v & Hr & Hv & Hg); [|done]. simpl in Hr. subst acc1.
    eexists (_ :: v). rewrite <-app_assoc. split; [done|]. split.
    + intros acc'. simpl. rewrite Ht. simpl. unfold inner_loop in Hv. rewrite Hv. simpl.
      rewrite <-app_assoc. done.
    + intros S g s. simpl. destruct (g _ s); simpl; [|done|done]. rewrite Ht. simpl.
      unfold inner_loop in Hg. rewrite Hg. destruct (for_list g v _); done.
  - simpl. intros H. destruct (IH _ _ _ H) as (v & -> & Hv & Hg).
    eexists (_ :: v). rewrite <-app_assoc. split; [done|]. split.
    + intros acc'. simpl. rewrite Hv, <-app_assoc. done.
    + intros S g s. simpl. destruct (g _ s); simpl; [|done|done]. apply Hg.
Qed.

Lemma foreach_visits arg ctx l :
  visits h arg ctx = Ret l → ∀ S (g : Arg * ArgCtx → S → res S) s,
    foreachArgImpl (λ _, h) (λ a c s, let! s := g (a, c) s in Ret (s, false)) arg ctx s
    = for_list g l s.
Proof. intros H. apply foreach_visited in H as (v & -> & _ & Hg). apply Hg. Qed.

Lemma foreach_callVisits c l :
  callVisits h c = Ret l → ∀ S (g : Arg * ArgCtx → S → res S) s,
    ForeachArg (λ _, h) (λ a c s, let! s := g (a, c) s in Ret (s, false)) c s = for_list g l s.
Proof.
  unfold callVisits, ForeachArg. intros H S g s. apply bind_Ret in H as (l1 & H1 & H2).
  set (ctx := MkCtx (Args c) (sysArgs (Meta c)) None 0) in *.
  assert (∀ args acc r,
    for_list (λ arg s, foreachArgImpl (λ _, h) app1 arg ctx s) args acc = Ret r →
    ∃ v, r = acc ++ v ∧ ∀ s,
      for_list (λ arg s, foreachArgImpl (λ _, h)
        (λ a c s, let! s := g (a, c) s in Ret (s, false)) arg ctx s) args s = for_list g v s) as Hargs.
  { clear H1 H2. induction args as [|x args IH]; intros acc r; simpl.
    { intros [= <-]. exists []. by rewrite app_nil_r. }
    intros H. apply bind_Ret in H as (r1 & H1 & H2).
    apply foreach_visited in H1 as (v1 & -> & _ & Hg1). destruct (IH _ _ H2) as (v2 & -> & Hg2).
    exists (v1 ++ v2). rewrite app_assoc. split; [done|]. intros s0.
    rewrite Hg1, for_list_app. destruct (for_list g v1 s0); simpl; auto. }
  destruct (Hargs _ _ _ H2) as (v2 & -> & Hg2).
  destruct (Ret_ c) as [i|].
  - apply foreach_visited in H1 as (v1 & -> & _ & Hg1). rewrite Hg1, app_nil_l, for_list_app.
    destruct (for_list g v1 s); simpl; auto.
  - injection H1 as <-. simpl. apply Hg2.
Qed.
End visits.

End target.
End Prog.
