(* ===== verification/ExampleTarget.v ===== *)
(** * ExampleTarget: a small target on which the theorems are instantiated

    Two calls in the style of sys/test: [open() fd] and [write(fd fd, msg ptr[in,
    msg], n ptr[out, int32])], where [msg] is a variable-length struct of a length
    field and a blob. *)

From S2P Require Import Prelude Types Prog.
Import Types Prog.

Module ExampleTarget.

Definition mk (name : string) (size : Z) (varlen : bool) (r : Ref) : TypeCommon :=
  MkTypeCommon name size size false varlen r.
Definition mkInt (name : string) (size : Z) (r : Ref) : IntTypeCommon :=
  MkIntTypeCommon (mk name size false r) FormatNative 0 0 0 0.
Definition fld (name : string) (r : Ref) : Field := MkField name r false DirIn None.

Definition tInt32 := IntType (mkInt "int32" 4 1) IntPlain 0 0 0.
Definition tFd := ResourceType (mk "fd" 4 false 2) FormatNative
  (MkResourceDesc "fd" ["fd"] [2 ^ 64 - 1]).
Definition tBlob := BufferType (mk "buffer" 0 true 3)
  (MkBufferDesc BufferBlobRand 0 0 TextTarget "" [] false).
Definition tLen := LenType (mkInt "len" 4 4) 0 false ["data"].
Definition tMsg := StructType (mk "msg" 0 true 5) [fld "len" 4; fld "data" 3] 0 0.
Definition tMsgPtr := PtrType (mk "ptr" 8 false 6) 5 DirIn.
Definition tIntPtr := PtrType (mk "ptr" 8 false 7) 1 DirOut.
Definition tUnion := UnionType (mk "alt" 4 false 8) [fld "num" 1; fld "fd" 2].
Definition tVma := VmaType (mk "vma" 8 false 9) 0 0.
Definition tProc := ProcType (mkInt "proc" 4 10) 20000 4.

Definition types : typeTable :=
  [None; Some tInt32; Some tFd; Some tBlob; Some tLen; Some tMsg; Some tMsgPtr; Some tIntPtr;
   Some tUnion; Some tVma; Some tProc].

Definition attrs : SyscallAttrs := MkAttrs false 0 0 false false false false.
Definition sysOpen := MkSyscall 0 2 "open" "open" 0 [] (Some 2%nat) attrs.
Definition sysWrite := MkSyscall 1 1 "write" "write" 0
  [fld "fd" 2; fld "msg" 6; fld "n" 7] None attrs.

Definition target : Target :=
  MkTarget types [sysOpen; sysWrite] 8 4096 64 536870912
    [0; 2 ^ 64 - 1; 11068046444225730969] 100 101 102
    103 104 [105; 106; 107; 108; 109; 110; 111]%nat "test" [MkResourceDesc "fd" ["fd"] [2 ^ 64 - 1]] [].

Definition rank (r : Ref) : nat := match r with 5 | 8 => 1 | 6 | 7 => 2 | _ => 0 end%nat.

(** [r0 = open(); write(r0, &msg{len=3, "abc"}, &n)] *)
Definition heap0 : gmap positive ResultObj :=
  <[1%positive := MkResult 2 DirOut None 0 0 0 {[5%positive]}]>
  (<[5%positive := MkResult 2 DirIn (Some 1%positive) 0 0 0 ∅]> ∅).
Definition callOpen : Call := MkCall sysOpen [] (Some 1%positive) noProps "".
Definition msgArg : Arg :=
  GroupArg (MkCommon 7 5 DirIn) [ConstArg (MkCommon 8 4 DirIn) 3; DataArg (MkCommon 9 3 DirIn) [97; 98; 99] 0].
Definition callWrite : Call := MkCall sysWrite
  [ResultArg 5;
   PointerArg (MkCommon 6 6 DirIn) 0 0 (Some msgArg);
   PointerArg (MkCommon 10 7 DirIn) 64 0 (Some (ConstArg (MkCommon 11 1 DirOut) 0))]
  None (MkProps 0 true 0) "".
Definition calls : list Call := [callOpen; callWrite].

(** Reading the table at an index. *)
Lemma types_inv r t :
  typeAt types r = Ret t →
  (r, t) ∈ [(1%nat, tInt32); (2%nat, tFd); (3%nat, tBlob); (4%nat, tLen); (5%nat, tMsg);
            (6%nat, tMsgPtr); (7%nat, tIntPtr); (8%nat, tUnion); (9%nat, tVma); (10%nat, tProc)].
Proof.
  do 11 (destruct r as [|r]; [try discriminate; injection 1 as <-; rewrite !elem_of_cons; tauto|]).
  discriminate.
Qed.

End ExampleTarget.
