(* ===== verification/TypeWalk.v ===== *)
(** * TypeWalk: visiting the types of a system call (prog/types.go)

    [foreachTypeImpl] walks over the graph of the types reachable from the arguments and
    the return value of a call.  Structs and unions may be recursive, so the walk keeps a
    set of the (type, direction, optionality) triples whose fields were visited.  The walk
    is run with fuel; [walk_total] says how much is enough, and [visits_exact] that it
    visits exactly what is reachable. *)

From S2P Require Import Prelude Types Prog ExampleTarget.
Import Types Prog.

Module TypeWalk.

(** [TypeCtx]; [ctxRef] is the type [Ptr] points to, [Stop] is a result of the callback. *)
Record TypeCtx := MkTypeCtx { ctxRef : Ref; ctxDir : Dir; ctxOptional : bool }.
#[export] Instance TypeCtx_eq_dec : EqDecision TypeCtx.
Proof. solve_decision. Defined.

Section walk.
Context (ts : typeTable).

(** The recursion of [foreachTypeImpl]; a key of [seen] is the context of the struct or
    union. *)
Fixpoint rec {S} (preorder : bool) (f : Typ → TypeCtx → S → res (S * bool)) (fuel : nat)
    (r : Ref) (dir : Dir) (optional : bool) (st : list TypeCtx * S) : res (list TypeCtx * S) :=
  match fuel with
  | O => OutOfFuel
  | Datatypes.S fuel =>
    let! t := typeAt ts r in
    let ctx := MkTypeCtx r dir (optional || Optional t) in
    let '(seen, s) := st in
    let! '(s, stop) := if preorder then f t ctx s else Ret (s, false) in
    if (stop : bool) then Ret (seen, s)
    else
      let! '(seen, s) :=
        match t with
        | PtrType _ elem elemDir => rec preorder f fuel elem elemDir (ctxOptional ctx) (seen, s)
        | ArrayType _ elem _ _ _ => rec preorder f fuel elem dir (ctxOptional ctx) (seen, s)
        | StructType _ fields _ _ | UnionType _ fields =>
          if decide (ctx ∈ seen) then Ret (seen, s)
          else for_list (λ fld, rec preorder f fuel (fieldType fld) (fieldDir fld dir) (ctxOptional ctx))
                 fields (ctx :: seen, s)
        | _ => Ret (seen, s)
        end in
      if preorder then Ret (seen, s)
      else
        let! '(s, stop) := f t ctx s in
        if (stop : bool) then Panic "Stop is set in post-order iteration" else Ret (seen, s)
  end.

Definition foreachTypeImpl {S} (fuel : nat) (meta : Syscall) (preorder : bool)
    (f : Typ → TypeCtx → S → res (S * bool)) (s : S) : res S :=
  let! st := for_list (λ fld, rec preorder f fuel (fieldType fld) DirIn false) (sysArgs meta) ([], s) in
  let! '(_, s) :=
    match sysRet meta with
    | Some r => rec preorder f fuel r DirOut false st
    | None => Ret st
    end in
  Ret s.

Definition ForeachCallType {S} (fuel : nat) (meta : Syscall) (f : Typ → TypeCtx → S → res (S * bool)) :=
  foreachTypeImpl fuel meta true f.

(** [ForeachType] and [ForeachTypePost]. *)
Definition ForeachType {S} (fuel : nat) (calls : list Syscall)
    (f : Syscall → Typ → TypeCtx → S → res (S * bool)) (s : S) : res S :=
  for_list (λ meta, foreachTypeImpl fuel meta true (f meta)) calls s.
Definition ForeachTypePost {S} (fuel : nat) (calls : list Syscall)
    (f : Syscall → Typ → TypeCtx → S → res (S * bool)) (s : S) : res S :=
  for_list (λ meta, foreachTypeImpl fuel meta false (f meta)) calls s.

(** ** What is reachable *)

(** The recursive calls made for a type: type, direction and inherited optionality. *)
Definition children (t : Typ) (ctx : TypeCtx) : list (Ref * Dir * bool) :=
  match t with
  | PtrType _ elem elemDir => [(elem, elemDir, ctxOptional ctx)]
  | ArrayType _ elem _ _ _ => [(elem, ctxDir ctx, ctxOptional ctx)]
  | StructType _ fields _ _ | UnionType _ fields =>
    (λ fld, (fieldType fld, fieldDir fld (ctxDir ctx), ctxOptional ctx)) <$> fields
  | _ => []
  end.

Definition roots (meta : Syscall) : list (Ref * Dir * bool) :=
  ((λ fld, (fieldType fld, DirIn, false)) <$> sysArgs meta) ++
  match sysRet meta with Some r => [(r, DirOut, false)] | None => [] end.

(** The type and the context of a recursive call. *)
Definition enters (n : Ref * Dir * bool) (v : Typ * TypeCtx) : Prop :=
  typeAt ts n.1.1 = Ret v.1 ∧ v.2 = MkTypeCtx n.1.1 n.1.2 (n.2 || Optional v.1).

Section stops.
Context (stop : Typ → TypeCtx → bool).

Inductive reach (meta : Syscall) : Typ * TypeCtx → Prop :=
| reach_root n v : n ∈ roots meta → enters n v → reach meta v
| reach_child v n v' : reach meta v → stop v.1 v.2 = false → n ∈ children v.1 v.2 → enters n v' → reach meta v'.

(** The walk that only records what it visits. *)
Definition record (t : Typ) (ctx : TypeCtx) (vs : list (Typ * TypeCtx)) : res (list (Typ * TypeCtx) * bool) :=
  Ret (vs ++ [(t, ctx)], stop t ctx).
Definition visits (fuel : nat) (meta : Syscall) : res (list (Typ * TypeCtx)) :=
  foreachTypeImpl fuel meta true record [].

(** The walks over a list of recursive calls. *)
Definition walkAll {S} (f : Typ → TypeCtx → S → res (S * bool)) (fuel : nat) (ns : list (Ref * Dir * bool))
    (st : list TypeCtx * S) : res (list TypeCtx * S) :=
  for_list (λ '(r, dir, opt), rec true f fuel r dir opt) ns st.

Definition recursive (t : Typ) : bool :=
  match t with StructType _ _ _ _ | UnionType _ _ => true | _ => false end.

(** One step of the recursion in terms of [children]. *)
Lemma rec_children {S} (f : Typ → TypeCtx → S → res (S * bool)) fuel r dir opt seen s :
  rec true f (Datatypes.S fuel) r dir opt (seen, s) =
    let! t := typeAt ts r in
    let ctx := MkTypeCtx r dir (opt || Optional t) in
    let! '(s, stop) := f t ctx s in
    if (stop : bool) || (recursive t && bool_decide (ctx ∈ seen)) then Ret (seen, s)
    else walkAll f fuel (children t ctx) (if recursive t then ctx :: seen else seen, s).
Proof.
  simpl. destruct (typeAt ts r) as [t| |]; simpl; [|done|done].
  destruct (f _ _ _) as [[s' stp]| |]; simpl; [|done|done]. destruct stp; simpl; [done|].
  assert (∀ m : res (list TypeCtx * S), (let! '(seen, s) := m in Ret (seen, s)) = m) as Hid.
  { intros [[]| |]; done. }
  assert (∀ ns st, walkAll f fuel (ns : list (Ref * Dir * bool)) st =
    for_list (λ n, rec true f fuel n.1.1 n.1.2 n.2) ns st) as Hw.
  { intros ns st. apply for_list_ext. by intros [[??]?]. }
  rewrite Hid. destruct t; simpl; try done.
  - unfold walkAll; simpl. by destruct (rec _ _ _ _ _ _ _).
  - unfold walkAll; simpl. by destruct (rec _ _ _ _ _ _ _).
  - case_decide; [by rewrite bool_decide_true by done|]. rewrite bool_decide_false by done.
    rewrite Hw. by rewrite <-for_list_fmap.
  - case_decide; [by rewrite bool_decide_true by done|]. rewrite bool_decide_false by done.
    rewrite Hw. by rewrite <-for_list_fmap.
Qed.

Lemma foreach_walk {S} (f : Typ → TypeCtx → S → res (S * bool)) fuel meta s :
  foreachTypeImpl fuel meta true f s = let! '(_, s) := walkAll f fuel (roots meta) ([], s) in Ret s.
Proof.
  unfold foreachTypeImpl, walkAll, roots. rewrite for_list_app, <-for_list_fmap.
  destruct (for_list _ _ _) as [st| |]; simpl; [|done|done].
  destruct (sysRet meta) as [r|]; simpl; [|done]. by destruct (rec _ _ _ _ _ _ _).
Qed.

(** ** A walk is a loop over the list of visits *)

Section runs.
Context {S : Type} (g : Typ * TypeCtx → S → res S).

(** A callback whose decision to stop only depends on the type and the context. *)
Definition onVisit (t : Typ) (ctx : TypeCtx) (s : S) : res (S * bool) :=
  let! s := g (t, ctx) s in Ret (s, stop t ctx).

Context (f : Typ → TypeCtx → S → res (S * bool)) (Hf : ∀ t ctx s, f t ctx s = onVisit t ctx s).

Definition replays (m : list (Typ * TypeCtx) → res (list TypeCtx * list (Typ * TypeCtx)))
    (k : S → res (list TypeCtx * S)) : Prop :=
  ∀ vs seen' vs', m vs = Ret (seen', vs') → ∃ new, vs' = vs ++ new ∧
    ∀ s, k s = let! s := for_list g new s in Ret (seen', s).

Lemma walkAll_replays fuel ns :
  (∀ r dir opt seen, replays (λ vs, rec true record fuel r dir opt (seen, vs))
     (λ s, rec true f fuel r dir opt (seen, s))) →
  ∀ seen, replays (λ vs, walkAll record fuel ns (seen, vs)) (λ s, walkAll f fuel ns (seen, s)).
Proof.
  intros Hrec. induction ns as [|[[r dir] opt] ns IH]; intros seen vs seen' vs' H; unfold walkAll in *; simpl in *.
  - injection H as <- <-. exists []. rewrite app_nil_r. done.
  - apply bind_Ret in H as ([seen1 vs1] & H1 & H2).
    destruct (Hrec _ _ _ _ _ _ _ H1) as (new1 & -> & Hs1). destruct (IH _ _ _ _ H2) as (new2 & -> & Hs2).
    exists (new1 ++ new2). split; [by rewrite app_assoc|]. intros s. rewrite Hs1, for_list_app.
    destruct (for_list g new1 s); simpl; [|done|done]. apply Hs2.
Qed.

Lemma rec_replays fuel : ∀ r dir opt seen,
  replays (λ vs, rec true record fuel r dir opt (seen, vs)) (λ s, rec true f fuel r dir opt (seen, s)).
Proof.
  induction fuel as [|fuel IH]; intros r dir opt seen vs seen' vs' H; [done|].
  rewrite rec_children in H. apply bind_Ret in H as (t & Ht & H). cbn zeta in H. simpl in H.
  set (ctx := MkTypeCtx r dir (opt || Optional t)) in *.
  assert (∀ s, rec true f (Datatypes.S fuel) r dir opt (seen, s) =
    let! s := g (t, ctx) s in
    if stop t ctx || (recursive t && bool_decide (ctx ∈ seen)) then Ret (seen, s)
    else walkAll f fuel (children t ctx) (if recursive t then ctx :: seen else seen, s)) as Hs.
  { intros s. rewrite rec_children, Ht. cbn [rbind]. cbn zeta. fold ctx. rewrite Hf. unfold onVisit.
    rewrite bind_assoc. by destruct (g (t, ctx) s). }
  destruct (stop t ctx || _); simpl in *.
  - injection H as <- <-. exists [(t, ctx)]. split; [done|]. intros s. rewrite Hs. simpl.
    by destruct (g (t, ctx) s).
  - destruct (walkAll_replays fuel _ IH _ _ _ _ H) as (new & -> & Hn).
    exists ((t, ctx) :: new). split; [by rewrite <-app_assoc|]. intros s. rewrite Hs. simpl.
    destruct (g (t, ctx) s); simpl; [|done|done]. apply Hn.
Qed.

Lemma walk_visits fuel meta vs s :
  visits fuel meta = Ret vs → ForeachCallType fuel meta f s = for_list g vs s.
Proof.
  unfold visits, ForeachCallType. rewrite !foreach_walk. intros H.
  apply bind_Ret in H as ([seen vs'] & H & Heq). injection Heq as ->.
  destruct (walkAll_replays fuel _ (rec_replays fuel) _ _ _ _ H) as (new & -> & Hn).
  rewrite Hn. simpl. by destruct (for_list g new s).
Qed.
End runs.

(** ** The walk visits exactly what is reachable *)

Definition inside (ns : list (Ref * Dir * bool)) (vs : list (Typ * TypeCtx)) : Prop :=
  ∀ n v, n ∈ ns → enters n v → v ∈ vs.

(** Every visited type is finished: stopped at, or its children are visited too. *)
Definition finished (vs : list (Typ * TypeCtx)) (v : Typ * TypeCtx) : Prop :=
  stop v.1 v.2 = true ∨ inside (children v.1 v.2) vs.

(** What a part of the walk adds: what it visits is finished, unless the walk of that
    type had begun before. *)
Record advances (st st' : list TypeCtx * list (Typ * TypeCtx)) : Prop := {
  adv_seen : st.1 ⊆ st'.1;
  adv_vs : st.2 ⊆ st'.2;
  adv_keys v : v.2 ∈ st'.1 → typeAt ts (ctxRef v.2) = Ret v.1 → v.2 ∈ st.1 ∨ inside (children v.1 v.2) st'.2;
  adv_new v : v ∈ st'.2 → v ∈ st.2 ∨ typeAt ts (ctxRef v.2) = Ret v.1 ∧ (finished st'.2 v ∨ v.2 ∈ st'.1)
}.

Lemma inside_mono ns vs vs' : vs ⊆ vs' → inside ns vs → inside ns vs'.
Proof. intros Hsub Hin n v Hn He. apply Hsub. by eapply Hin. Qed.

Lemma advances_refl st : advances st st.
Proof. split; auto. Qed.

Lemma advances_trans st1 st2 st3 : advances st1 st2 → advances st2 st3 → advances st1 st3.
Proof.
  intros [Hs1 Hv1 Hk1 Hn1] [Hs2 Hv2 Hk2 Hn2]. split.
  - by etrans.
  - by etrans.
  - intros v Hv Ht. destruct (Hk2 v Hv Ht) as [H|H]; [|by right].
    destruct (Hk1 v H Ht) as [H'|H']; [by left|right; by eapply inside_mono].
  - intros v Hv. destruct (Hn2 v Hv) as [H|H]; [|by right].
    destruct (Hn1 v H) as [H'|(Ht & [[H'|H']|H'])]; [by left| | |]; right; (split; [done|]).
    + left. by left.
    + left. right. by eapply inside_mono.
    + right. by apply Hs2.
Qed.

Lemma walkAll_advances fuel ns :
  (∀ r dir opt st st', rec true record fuel r dir opt st = Ret st' →
     advances st st' ∧ inside [(r, dir, opt)] st'.2) →
  ∀ st st', walkAll record fuel ns st = Ret st' → advances st st' ∧ inside ns st'.2.
Proof.
  intros Hrec. induction ns as [|[[r dir] opt] ns IH]; intros st st' H; unfold walkAll in *; simpl in *.
  - injection H as <-. split; [apply advances_refl|]. by intros n v Hn%elem_of_nil.
  - apply bind_Ret in H as (st1 & H1 & H2). destruct (Hrec _ _ _ _ _ H1) as [Ha1 Hi1].
    destruct (IH _ _ H2) as [Ha2 Hi2]. split; [by eapply advances_trans|].
    intros n v [->|Hn]%elem_of_cons He; [|by eapply Hi2].
    apply (adv_vs _ _ Ha2). apply (Hi1 (r, dir, opt)); [by apply list_elem_of_singleton|done].
Qed.

Lemma rec_advances fuel : ∀ r dir opt st st',
  rec true record fuel r dir opt st = Ret st' → advances st st' ∧ inside [(r, dir, opt)] st'.2.
Proof.
  induction fuel as [|fuel IH]; intros r dir opt [seen vs] st' H; [done|].
  rewrite rec_children in H. apply bind_Ret in H as (t & Ht & H). cbn zeta in H. simpl in H.
  set (ctx := MkTypeCtx r dir (opt || Optional t)) in *.
  assert (∀ v, enters (r, dir, opt) v → v = (t, ctx)) as Hv.
  { intros [t' c'] [Ht' Hc']; simpl in *. rewrite Ht in Ht'. injection Ht' as <-. by subst c'. }
  assert (∀ l, vs ++ [(t, ctx)] ⊆ l → inside [(r, dir, opt)] l) as Hin.
  { intros l Hsub n v ->%list_elem_of_singleton He%Hv. subst v. apply Hsub. set_solver. }
  destruct (stop t ctx) eqn:Estop; simpl in H.
  { injection H as <-. split; [|by apply Hin]. split; simpl; [done|set_solver|auto|].
    intros v [Hv'| ->%list_elem_of_singleton]%elem_of_app; [by left|right]. simpl. split; [done|].
    left. by left. }
  destruct (recursive t && bool_decide (ctx ∈ seen)) eqn:Eseen; simpl in H.
  { injection H as <-. split; [|by apply Hin]. apply andb_true_iff in Eseen as [_ Eseen%bool_decide_eq_true].
    split; simpl; [done|set_solver|auto|].
    intros v [Hv'| ->%list_elem_of_singleton]%elem_of_app; [by left|right]. simpl. split; [done|by right]. }
  destruct (walkAll_advances fuel _ IH _ _ H) as [[Hs Hvs Hk Hn] Hi]. simpl in *.
  split; [|by apply Hin]. split; simpl.
  - destruct (recursive t); [|done]. set_solver.
  - set_solver.
  - intros [t' c] Hc Ht'. simpl in *. destruct (Hk (t', c) Hc Ht') as [Hc'|Hc']; [|by right].
    destruct (recursive t); [|by left]. apply elem_of_cons in Hc' as [Hc'|Hc']; [|by left].
    simpl in Hc'. subst c. simpl in Ht'. rewrite Ht in Ht'. injection Ht' as <-. by right.
  - intros v Hv'. destruct (Hn v Hv') as [[Hv''| ->%list_elem_of_singleton]%elem_of_app|Hv'']; [by left| |by right].
    right. split; [done|]. left. by right.
Qed.

Lemma walk_sound meta fuel : ∀ n st st',
  rec true record fuel n.1.1 n.1.2 n.2 st = Ret st' → (∀ v, enters n v → reach meta v) →
  (∀ v, v ∈ st.2 → reach meta v) → ∀ v, v ∈ st'.2 → reach meta v.
Proof.
  induction fuel as [|fuel IH]; intros [[r dir] opt] [seen vs] st' H Hr Hst; [done|]. simpl in Hr.
  cbn [fst snd] in H. rewrite rec_children in H. apply bind_Ret in H as (t & Ht & H). cbn zeta in H. simpl in H.
  set (ctx := MkTypeCtx r dir (opt || Optional t)) in *.
  assert (reach meta (t, ctx)) as Hc by (by apply Hr).
  assert (∀ v, v ∈ vs ++ [(t, ctx)] → reach meta v) as Hst'.
  { intros v [Hv| ->%list_elem_of_singleton]%elem_of_app; [by apply Hst|done]. }
  destruct (stop t ctx) eqn:Estop; simpl in H; [by injection H as <-|].
  destruct (recursive t && _); simpl in H; [by injection H as <-|].
  set (seen' := if recursive t then ctx :: seen else seen) in H. clearbody seen'.
  assert (∀ n, n ∈ children t ctx → ∀ v, enters n v → reach meta v) as Hch.
  { intros n Hn v He. by eapply (reach_child meta (t, ctx)). }
  revert Hch seen' st' H. clear Hst. revert Hst'. generalize (vs ++ [(t, ctx)]). generalize (children t ctx).
  intros ns. induction ns as [|[[r1 d1] o1] ns IHns]; intros vs1 Hst1 Hch seen1 st' H; unfold walkAll in H; simpl in H.
  - by injection H as <-.
  - apply bind_Ret in H as ([seen2 vs2] & H1 & H2). eapply (IHns vs2); [| |exact H2].
    + eapply (IH (r1, d1, o1) _ _ H1); [|exact Hst1]. apply Hch. set_solver.
    + intros n Hn. apply Hch. set_solver.
Qed.

Lemma walkAll_sound meta fuel ns : ∀ st st',
  walkAll record fuel ns st = Ret st' → (∀ n v, n ∈ ns → enters n v → reach meta v) →
  (∀ v, v ∈ st.2 → reach meta v) → ∀ v, v ∈ st'.2 → reach meta v.
Proof.
  induction ns as [|[[r d] o] ns IH]; intros st st' H Hn Hst; unfold walkAll in H; simpl in H.
  - by injection H as <-.
  - apply bind_Ret in H as (st1 & H1 & H2). apply (IH _ _ H2); [intros n v Hin; apply Hn; set_solver|].
    eapply (walk_sound _ _ (r, d, o)); [exact H1| |done]. intros v. apply Hn. set_solver.
Qed.

Lemma visits_exact fuel meta vs : visits fuel meta = Ret vs → ∀ v, v ∈ vs ↔ reach meta v.
Proof.
  unfold visits. rewrite foreach_walk. intros H. apply bind_Ret in H as ([seen vs'] & H & Heq).
  injection Heq as ->. intros v. split.
  - eapply (walkAll_sound meta fuel _ _ _ H); [by intros; eapply reach_root|]. by intros w Hw%elem_of_nil.
  - destruct (walkAll_advances fuel _ (rec_advances fuel) _ _ H) as [[_ _ Hk Hn] Hi]. simpl in *.
    induction 1 as [n v Hroot He|v n v' Hv IH Hstop Hch He]; [by eapply Hi|].
    destruct (Hn v IH) as [Hv'%elem_of_nil|(Ht & [[Hs|Hc]|Hs])]; [done|congruence|by eapply Hc|].
    destruct (Hk v Hs Ht) as [Hx%elem_of_nil|Hc]; [done|]. by eapply Hc.
Qed.

(** ** The walk terminates *)

Section total.
Context (rank : Ref → nat) (R : nat).

(** Every cycle of the type graph passes through a struct or a union: pointers and
    arrays only lead to types of a smaller rank. *)
Definition ranked : Prop := ∀ r t, typeAt ts r = Ret t →
  (rank r ≤ R)%nat ∧ Forall (λ n, ∃ t', typeAt ts n.1.1 = Ret t' ∧ (recursive t = false → (rank n.1.1 < rank r)%nat))
    (children t (MkTypeCtx r DirIn false)).

Definition allKeys : list TypeCtx :=
  r ← seq 0 (length ts); d ← [DirIn; DirOut; DirInOut]; (MkTypeCtx r d) <$> [false; true].

Lemma length_allKeys : length allKeys = (6 * length ts)%nat.
Proof.
  unfold allKeys. rewrite <-(length_seq (length ts) 0) at 2.
  induction (seq 0 (length ts)) as [|k l IH]; [done|]. cbn [mbind list_bind length] in *.
  rewrite length_app, IH. simpl. lia.
Qed.

Lemma elem_of_allKeys ctx t : typeAt ts (ctxRef ctx) = Ret t → ctx ∈ allKeys.
Proof.
  destruct ctx as [r d o]; simpl. intros Ht. assert (r < length ts)%nat.
  { destruct r; [done|]. simpl in Ht. destruct (ts !! _) eqn:E; [|done]. by eapply lookup_lt_Some. }
  unfold allKeys. rewrite list_elem_of_bind. exists r. split; [|apply elem_of_seq; lia].
  rewrite list_elem_of_bind. exists d. split; [|destruct d; set_solver].
  rewrite list_elem_of_fmap. exists o. split; [done|]. destruct o; set_solver.
Qed.

Definition unseen (seen : list TypeCtx) : nat := length (filter (λ c, c ∉ seen) allKeys).

Lemma unseen_mono seen seen' : seen ⊆ seen' → (unseen seen' ≤ unseen seen)%nat.
Proof.
  intros H. unfold unseen. induction allKeys as [|c l IH]; [done|]. rewrite !filter_cons.
  repeat case_decide; simpl; try lia. exfalso. set_solver.
Qed.

Lemma unseen_cons seen ctx : ctx ∈ allKeys → ctx ∉ seen → (unseen (ctx :: seen) < unseen seen)%nat.
Proof.
  intros Hin Hn. unfold unseen. induction allKeys as [|c l IH]; [by apply elem_of_nil in Hin|].
  assert (length (filter (λ c, c ∉ ctx :: seen) l) ≤ length (filter (λ c, c ∉ seen) l))%nat as Hle.
  { clear. induction l as [|c l IH]; [done|]. rewrite !filter_cons.
    repeat case_decide; simpl; try lia. exfalso. set_solver. }
  rewrite !filter_cons. apply elem_of_cons in Hin as [<-|Hin].
  - rewrite decide_False by set_solver. rewrite decide_True by done. simpl. lia.
  - specialize (IH Hin). repeat case_decide; simpl; try lia. exfalso. set_solver.
Qed.

Definition enough (fuel : nat) (seen : list TypeCtx) (r : Ref) : Prop :=
  (unseen seen * (R + 1) + rank r < fuel)%nat.

Lemma walkAll_total fuel ns :
  (∀ r dir opt st, (∃ t, typeAt ts r = Ret t) → enough fuel st.1 r →
     ∃ st', rec true record fuel r dir opt st = Ret st') →
  ∀ st, Forall (λ n, (∃ t, typeAt ts n.1.1 = Ret t) ∧ enough fuel st.1 n.1.1) ns →
  ∃ st', walkAll record fuel ns st = Ret st'.
Proof.
  intros Hrec. induction ns as [|[[r dir] opt] ns IH]; intros st Hns; unfold walkAll; simpl; [eauto|].
  apply Forall_cons in Hns as [[Ht He] Hns]. destruct (Hrec r dir opt st Ht He) as [st1 H1]. rewrite H1. simpl.
  apply IH. destruct (rec_advances _ _ _ _ _ _ H1) as [[Hsub _ _ _] _].
  eapply Forall_impl; [exact Hns|]. intros n [Hn Hf]. split; [done|]. unfold enough in *.
  apply unseen_mono in Hsub. nia.
Qed.

Lemma children_ref t ctx ctx' : (λ n, n.1.1) <$> children t ctx = (λ n, n.1.1) <$> children t ctx'.
Proof. destruct t; try done; simpl; rewrite <-!list_fmap_compose; done. Qed.

Lemma rec_total fuel : ranked → ∀ r dir opt st,
  (∃ t, typeAt ts r = Ret t) → enough fuel st.1 r → ∃ st', rec true record fuel r dir opt st = Ret st'.
Proof.
  intros Hrk. induction fuel as [|fuel IH]; intros r dir opt [seen vs] [t Ht] He; unfold enough in He; simpl in He; [lia|].
  rewrite rec_children, Ht. cbn [rbind]. cbn zeta. set (ctx := MkTypeCtx r dir (opt || Optional t)). simpl.
  destruct (stop t ctx); simpl; [eauto|].
  destruct (recursive t && bool_decide (ctx ∈ seen)) eqn:Eseen; [eauto|].
  apply walkAll_total; [exact IH|]. destruct (Hrk r t Ht) as [Hr Hch].
  apply Forall_forall. intros n Hn.
  assert (n.1.1 ∈ (λ n, n.1.1) <$> children t (MkTypeCtx r DirIn false)) as Hn'.
  { rewrite (children_ref t _ ctx). apply list_elem_of_fmap. by exists n. }
  apply list_elem_of_fmap in Hn' as (m & Hm & Hm'). rewrite Forall_forall in Hch.
  destruct (Hch m Hm') as (t' & Ht' & Hlt). rewrite <-Hm in Ht', Hlt. split; [by exists t'|].
  unfold enough. simpl. destruct (recursive t) eqn:Erec; simpl in *.
  - apply bool_decide_eq_false in Eseen. destruct (Hrk _ _ Ht') as [Hr' _].
    assert (unseen (ctx :: seen) < unseen seen)%nat.
    { apply unseen_cons; [by apply (elem_of_allKeys ctx t)|done]. }
    nia.
  - specialize (Hlt eq_refl). lia.
Qed.

Definition walkFuel : nat := (6 * length ts * (R + 1) + R + 1)%nat.

(** Enough fuel for a table of ranked types, whatever call is walked over. *)
Lemma walk_total meta :
  ranked → Forall (λ n, ∃ t, typeAt ts n.1.1 = Ret t) (roots meta) → ∃ vs, visits walkFuel meta = Ret vs.
Proof.
  intros Hrk Hroots. unfold visits. rewrite foreach_walk.
  destruct (walkAll_total walkFuel (roots meta) (rec_total _ Hrk) ([], [])) as [[seen vs] H].
  - eapply Forall_impl; [exact Hroots|]. intros n [t Ht]. split; [by exists t|]. unfold enough, walkFuel.
    destruct (Hrk _ _ Ht) as [Hr _]. cbn [fst].
    assert (unseen [] ≤ 6 * length ts)%nat.
    { unfold unseen. rewrite <-length_allKeys. apply length_filter. }
    nia.
  - rewrite H. simpl. eauto.
Qed.
End total.
End stops.

(** Visiting the types of a call terminates and is complete: with types whose cycles
    pass through structs or unions, [ForeachCallType] runs its callback once for each
    entry of a list that contains exactly the (type, direction, optionality) triples
    reachable from the arguments and the return value without passing through a type the
    callback stops at, although the walk prunes structs and unions it has seen. *)
Theorem walk_exact stop rank R meta {S} (g : Typ * TypeCtx → S → res S) s :
  ranked rank R → Forall (λ n, ∃ t, typeAt ts n.1.1 = Ret t) (roots meta) →
  ∃ vs, (∀ v, v ∈ vs ↔ reach stop meta v) ∧
    ForeachCallType (walkFuel R) meta (onVisit stop g) s = for_list g vs s.
Proof.
  intros Hrk Hr. destruct (walk_total stop rank R meta Hrk Hr) as [vs Hvs].
  exists vs. split; [by eapply visits_exact|by eapply (walk_visits stop)].
Qed.

End walk.

(** A list node that points to itself. *)
Definition nodeTypes : typeTable :=
  [None; Some (StructType (ExampleTarget.mk "node" 16 false 1) [ExampleTarget.fld "next" 2; ExampleTarget.fld "fd" 3] 0 0);
   Some (PtrType (ExampleTarget.mk "ptr" 8 false 2) 1 DirInOut);
   Some (ResourceType (ExampleTarget.mk "fd" 4 false 3) FormatNative (MkResourceDesc "fd" ["fd"] [0]))].
Definition nodeCall : Syscall :=
  MkSyscall 0 0 "walk" "walk" 0 [ExampleTarget.fld "list" 2] None ExampleTarget.attrs.

Example node_visits :
  visits nodeTypes (λ _ _, false) (walkFuel nodeTypes 1) nodeCall =
  Ret ((λ '(r, d), (default (ResourceType (ExampleTarget.mk "" 0 false 0) FormatNative (MkResourceDesc "" [] []))
      (mjoin (nodeTypes !! r)), MkTypeCtx r d false)) <$>
    [(2%nat, DirIn); (1%nat, DirInOut); (2%nat, DirInOut); (1%nat, DirInOut); (3%nat, DirInOut)]).
Proof. reflexivity. Qed.

Lemma node_ranked : ranked nodeTypes (λ r, match r with 2 => 1 | _ => 0 end)%nat 1.
Proof.
  assert (∀ r t, typeAt nodeTypes r = Ret t → (r = 1 ∨ r = 2 ∨ r = 3)%nat) as Hr.
  { intros [|[|[|[|r]]]] t; naive_solver. }
  intros r t Ht. destruct (Hr r t Ht) as [->|[->| ->]]; injection Ht as <-; (split; [simpl; lia|]);
    repeat (apply Forall_cons; split; [eexists; split; [reflexivity|try discriminate; simpl; lia]|]); by apply Forall_nil.
Qed.

Lemma walk_exact_witness :
  ∃ vs, (∀ v, v ∈ vs ↔ reach nodeTypes (λ _ _, false) nodeCall v) ∧
    ForeachCallType nodeTypes (walkFuel nodeTypes 1) nodeCall (onVisit (λ _ _, false) (λ _ n, Ret (n + 1)%Z)) 0 =
      for_list (λ _ n, Ret (n + 1)) vs 0.
Proof.
  apply (walk_exact nodeTypes (λ _ _, false) _ 1 nodeCall (λ _ n, Ret (n + 1)) 0 node_ranked).
  apply Forall_cons. split; [eexists; reflexivity|]. apply Forall_nil. done.
Defined.

End TypeWalk.
