(* ===== verification/Resources.v ===== *)
(** * Resources: which calls create and need which resources (prog/resources.go)

    A call needs the resources among its inputs and creates those among its outputs;
    [TransitivelyEnabledCalls] finds the calls whose needs can be met.  Descriptions of
    resources are compared by value: descriptions of a target differ in their names.
    Calls are identified by their index in [Syscalls], which is their [ID]. *)

From S2P Require Import Prelude Types Prog ExampleTarget TypeWalk.
Import Types Prog TypeWalk.

Module Resources.

#[export] Instance ResourceDesc_eq_dec : EqDecision ResourceDesc.
Proof. solve_decision. Defined.

Record ResourceCtor := MkCtor { ctorCall : nat; Precise : bool }.

Definition timespecRes : ResourceDesc := MkResourceDesc "timespec" ["timespec"] [].

(** [isCompatibleResourceImpl]: resources are compatible as far as their kinds go. *)
Definition isCompatibleResourceImpl (dst src : list string) (precise : bool) : bool :=
  if bool_decide (length src < length dst)%nat && precise then false
  else
    let dst := if decide (length src < length dst)%nat then take (length src) dst else dst in
    let src := if decide (length dst < length src)%nat then take (length dst) src else src in
    bool_decide (dst = src).

Section target.
Context (target : Target) (fuel : nat).
Notation ts := (typeRefs target).

(** [target.any.resN.TypeName] *)
Definition isAnyRes (name : string) : res bool :=
  for_list (λ r b, let! t := typeAt ts r in Ret (b || bool_decide (name = Name t))) (anyRes target) false.

(** [target.resourceMap], which restoreLinks fills. *)
Definition resourceByName (name : string) : option ResourceDesc :=
  last (filter (λ res, resName res = name) (Resources target)).

Definition isCompatibleResource (dst src : string) : res bool :=
  let! anyDst := isAnyRes dst in
  if (anyDst : bool) then Ret true
  else
    let! anySrc := isAnyRes src in
    if (anySrc : bool) then Ret false
    else
      match resourceByName dst with
      | None => Panic "unknown resource"
      | Some dstRes =>
        match resourceByName src with
        | None => Panic "unknown resource"
        | Some srcRes => Ret (isCompatibleResourceImpl (resKind dstRes) (resKind srcRes) false)
        end
      end.

(** [target.SyscallMap], which initTarget fills: the last call with the name. *)
Definition syscallByName (name : string) : option nat :=
  last (filter (λ i, (sysName <$> Syscalls target !! i) = Some name) (seq 0 (length (Syscalls target)))).

(** The callback that collects the resources a call creates. *)
Definition outputVisit (t : Typ) (ctx : TypeCtx) (l : list ResourceDesc) : res (list ResourceDesc * bool) :=
  if Optional t then Ret (l, true)
  else
    match t with
    | UnionType _ _ => Ret (l, true)
    | ResourceType _ _ desc =>
      if decide (ctxDir ctx = DirIn ∨ desc ∈ l) then Ret (l, false) else Ret (l ++ [desc], false)
    | _ => Ret (l, false)
    end.

(** [callsResources[meta.ID]] *)
Definition callResources (meta : Syscall) : res (list ResourceDesc) :=
  ForeachCallType ts fuel meta outputVisit [].

Definition isTimeStruct (t : Typ) : bool :=
  bool_decide (Name t = "timespec" ∨ Name t = "timeval").

(** The callback of [getInputResources]. *)
Definition inputVisit (t : Typ) (ctx : TypeCtx) (l : list ResourceDesc) : res (list ResourceDesc * bool) :=
  if decide (ctxDir ctx = DirOut) then Ret (l, false)
  else
    match t with
    | ResourceType _ _ desc =>
      if negb (ctxOptional ctx) && bool_decide (desc ∉ l) then Ret (l ++ [desc], false) else Ret (l, false)
    | StructType _ _ _ _ =>
      if bool_decide (OS target = "linux") && bool_decide (timespecRes ∉ l) && isTimeStruct t
      then Ret (l ++ [timespecRes], false) else Ret (l, false)
    | _ => Ret (l, false)
    end.

Definition getInputResources (meta : Syscall) : res (list ResourceDesc) :=
  ForeachCallType ts fuel meta inputVisit [].

(** The loop over the resources a call creates, for one resource [kind]: can the call
    create it precisely, and imprecisely? *)
Fixpoint compatLoop (kind : list string) (rs : list ResourceDesc) (preciseOk impreciseOk : bool) : bool * bool :=
  match rs with
  | [] => (preciseOk, impreciseOk)
  | callRes :: rs =>
    if preciseOk && impreciseOk then (preciseOk, impreciseOk)
    else compatLoop kind rs
           (if isCompatibleResourceImpl kind (resKind callRes) true then true else preciseOk)
           (if isCompatibleResourceImpl kind (resKind callRes) false then true else impreciseOk)
  end.

Definition ctorsFrom (callsResources : list (list ResourceDesc)) (r : ResourceDesc) : list ResourceCtor :=
  concat (imap (λ call rs,
    let '(preciseOk, impreciseOk) := compatLoop (resKind r) rs false false in
    (if (preciseOk : bool) then [MkCtor call true] else []) ++
    (if (impreciseOk : bool) then [MkCtor call false] else [])) callsResources).

(** What [populateResourceCtors] computes: [inputResources] and [outputResources] of each
    call, and [Ctors] of each resource of the target. *)
Record ResInfo := MkInfo {
  inputResources : list (list ResourceDesc);
  outputResources : list (list ResourceDesc);
  resCtors : list (ResourceDesc * list ResourceCtor)
}.

Definition mapRes {A B} (f : A → res B) (l : list A) : res (list B) :=
  for_list (λ x out, let! y := f x in Ret (out ++ [y])) l [].

Definition populateResourceCtors : res ResInfo :=
  let! callsResources := mapRes callResources (Syscalls target) in
  let outputs :=
    match syscallByName "clock_gettime" with
    | Some c => alter (λ l, l ++ [timespecRes]) c callsResources
    | None => callsResources
    end in
  let! inputs := mapRes getInputResources (Syscalls target) in
  Ret (MkInfo inputs outputs ((λ r, (r, ctorsFrom callsResources r)) <$> Resources target)).

Section info.
Context (info : ResInfo).

Definition Ctors (r : ResourceDesc) : list ResourceCtor :=
  default [] (snd <$> head (filter (λ p, p.1 = r) (resCtors info))).

Definition calcResourceCtors (r : ResourceDesc) (preciseOnly : bool) : res (list ResourceCtor) :=
  let ret := filter (λ c, preciseOnly = false ∨ Precise c = true) (Ctors r) in
  let! kind := index (resKind r) 0 in
  Ret (if decide (kind = resName timespecRes)
       then match syscallByName "clock_gettime" with
            | Some c => ret ++ [MkCtor c true]
            | None => ret
            end
       else ret).

Definition inputsOf (c : nat) : list ResourceDesc := default [] (inputResources info !! c).
Definition outputsOf (c : nat) : list ResourceDesc := default [] (outputResources info !! c).

(** The kinds a call adds to [canCreate]. *)
Definition createdKinds (c : nat) : gset string := list_to_set (concat (resKind <$> outputsOf c)).

(** The body of the loop over the enabled calls. *)
Definition enableStep (c : nat) (st : gset nat * gset string) : gset nat * gset string :=
  let '(supported, canCreate) := st in
  if decide (c ∈ supported) then st
  else if decide (Forall (λ r, resName r ∈ canCreate) (inputsOf c)) then
    ({[c]} ∪ supported, createdKinds c ∪ canCreate)
  else st.

(** [range k] is the order in which the map is visited in the [k]-th pass. *)
Fixpoint enableLoop (n : nat) (range : nat → list nat) (k : nat) (st : gset nat * gset string) :
    res (gset nat * gset string) :=
  match n with
  | O => OutOfFuel
  | S n =>
    let st' := foldl (λ st c, enableStep c st) st (range k) in
    if decide (size st.1 = size st'.1) then Ret st' else enableLoop n range (S k) st'
  end.

(** At most as many passes as there are calls can enable a call. *)
Definition transitivelyEnabled (enabled : gset nat) (range : nat → list nat) : res (gset nat * gset string) :=
  enableLoop (S (size enabled)) range 0 (∅, ∅).

(** The body of the loop that explains why a call is disabled: the first resource that
    cannot be created, with the names of its constructors, which are cached by name. *)
Fixpoint explain (canCreate : gset string) (rs : list ResourceDesc) (ctors : gmap string (list string)) :
    res (option (string * list string) * gmap string (list string)) :=
  match rs with
  | [] => Ret (None, ctors)
  | r :: rs =>
    if decide (resName r ∈ canCreate) then explain canCreate rs ctors
    else
      let! ctors :=
        if decide (default [] (ctors !! resName r) = []) then
          let! cs := calcResourceCtors r true in
          let! names := mapRes (λ c, let! meta := index (Syscalls target) (Z.of_nat (ctorCall c)) in Ret (sysName meta)) cs in
          Ret (<[resName r := names]> ctors)
        else Ret ctors in
      Ret (Some (resName r, default [] (ctors !! resName r)), ctors)
  end.

Definition TransitivelyEnabledCalls (enabled : gset nat) (range : nat → list nat) (range2 : list nat) :
    res (gset nat * gmap nat (string * list string)) :=
  let! '(supported, canCreate) := transitivelyEnabled enabled range in
  let! '(disabled, _) :=
    for_list (λ c '(disabled, ctors),
      if decide (c ∈ supported) then Ret (disabled, ctors)
      else
        let! '(why, ctors) := explain canCreate (inputsOf c) ctors in
        Ret (match why with Some w => <[c := w]> disabled | None => disabled end, ctors))
      range2 ((∅ : gmap nat (string * list string)), (∅ : gmap string (list string))) in
  if decide (size enabled = size supported + size disabled)%nat then Ret (supported, disabled)
  else Panic "lost syscalls".
End info.

(** ** Compatibility of kinds *)

Lemma compatible_precise dst src : isCompatibleResourceImpl dst src true = true ↔ dst `prefix_of` src.
Proof.
  unfold isCompatibleResourceImpl. rewrite andb_true_r. case_bool_decide as Hlt.
  { split; [done|]. intros H%prefix_length. lia. }
  rewrite (decide_False (P := (length src < length dst)%nat)) by done.
  rewrite bool_decide_eq_true. case_decide as Hlt'.
  - split; [intros ->; apply prefix_take|]. intros [k ->]. by rewrite take_app_length.
  - split; [by intros ->|]. intros [k ->]. rewrite length_app in Hlt'.
    destruct k; [by rewrite app_nil_r|simpl in Hlt'; lia].
Qed.

Lemma compatible_imprecise dst src :
  isCompatibleResourceImpl dst src false = true ↔ dst `prefix_of` src ∨ src `prefix_of` dst.
Proof.
  destruct (decide (length src < length dst)%nat) as [Hlt|Hge].
  - unfold isCompatibleResourceImpl. rewrite andb_false_r, decide_True by done.
    rewrite (decide_False (P := (length (take _ _) < _)%nat)) by (rewrite length_take; lia).
    rewrite bool_decide_eq_true. split.
    + intros <-. right. apply prefix_take.
    + intros [H%prefix_length|[k ->]]; [lia|]. by rewrite take_app_length.
  - rewrite <-compatible_precise. unfold isCompatibleResourceImpl.
    rewrite bool_decide_false by done. simpl. rewrite decide_False by done. rewrite bool_decide_eq_true.
    split; [by left|]. intros [H|[k ->]]; [done|]. rewrite length_app in Hge.
    destruct k; [|simpl in Hge; lia]. rewrite app_nil_r. by rewrite decide_False by lia.
Qed.

Definition compatible (dst src : ResourceDesc) (precise : bool) : Prop :=
  if precise then resKind dst `prefix_of` resKind src
  else resKind dst `prefix_of` resKind src ∨ resKind src `prefix_of` resKind dst.

#[local] Arguments compatible : simpl never.

Lemma compatible_spec dst src precise :
  isCompatibleResourceImpl (resKind dst) (resKind src) precise = true ↔ compatible dst src precise.
Proof. destruct precise; [apply compatible_precise|apply compatible_imprecise]. Qed.

Lemma flag_cons {A} (c b : bool) (P : A → Prop) x (rs : list A) :
  (c = true ↔ P x) →
  (if c then true else b) = true ∨ (∃ y, y ∈ rs ∧ P y) ↔ b = true ∨ ∃ y, y ∈ x :: rs ∧ P y.
Proof.
  intros Hc. split.
  - intros [H|(y & Hy & HP)]; [|right; exists y; set_solver].
    destruct c; [|by left]. right. exists x. split; [set_solver|by apply Hc].
  - intros [->|(y & [->|Hy]%elem_of_cons & HP)]; [left; by destruct c| |by right; exists y].
    left. by rewrite (proj2 Hc HP).
Qed.

Lemma compatLoop_spec r rs : ∀ p i,
  ((compatLoop (resKind r) rs p i).1 = true ↔ p = true ∨ ∃ x, x ∈ rs ∧ compatible r x true) ∧
  ((compatLoop (resKind r) rs p i).2 = true ↔ i = true ∨ ∃ x, x ∈ rs ∧ compatible r x false).
Proof.
  induction rs as [|x rs IH]; intros p i; simpl.
  - split; (split; [by left|]); intros [H|(y & Hy%elem_of_nil & _)]; done.
  - destruct (p && i) eqn:E; [apply andb_true_iff in E as [-> ->]; simpl; tauto|].
    set (p' := if isCompatibleResourceImpl (resKind r) (resKind x) true then true else p).
    set (i' := if isCompatibleResourceImpl (resKind r) (resKind x) false then true else i).
    destruct (IH p' i') as [H1 H2]. rewrite H1, H2. unfold p', i'.
    split; apply (flag_cons _ _ (λ y, compatible r y _)), compatible_spec.
Qed.

Lemma ctorsFrom_spec crs r c precise :
  MkCtor c precise ∈ ctorsFrom crs r ↔ ∃ rs x, crs !! c = Some rs ∧ x ∈ rs ∧ compatible r x precise.
Proof.
  unfold ctorsFrom. rewrite elem_of_concat. setoid_rewrite elem_of_lookup_imap. split.
  - intros (l & (c' & rs & -> & Hrs) & Hin). destruct (compatLoop_spec r rs false false) as [H1 H2].
    destruct (compatLoop _ _ _ _) as [p i]; simpl in *. exists rs.
    apply elem_of_app in Hin as [Hin|Hin].
    + destruct p; [|by apply elem_of_nil in Hin]. apply list_elem_of_singleton in Hin. injection Hin as -> ->.
      destruct (proj1 H1 eq_refl) as [|(x & ? & ?)]; [done|]. eauto.
    + destruct i; [|by apply elem_of_nil in Hin]. apply list_elem_of_singleton in Hin. injection Hin as -> ->.
      destruct (proj1 H2 eq_refl) as [|(x & ? & ?)]; [done|]. eauto.
  - intros (rs & x & Hrs & Hx & Hc). eexists. split; [exists c, rs; split; [reflexivity|done]|].
    destruct (compatLoop_spec r rs false false) as [H1 H2].
    destruct (compatLoop _ _ _ _) as [p i]; simpl in *. apply elem_of_app.
    destruct precise; [left; rewrite (proj2 H1)|right; rewrite (proj2 H2)]; eauto; set_solver.
Qed.

(** ** The resources of a call *)

(** The call creates the resource: it is an output that is not optional and not an
    alternative of a union. *)
Definition outputStop (t : Typ) (_ : TypeCtx) : bool :=
  Optional t || match t with UnionType _ _ => true | _ => false end.
Definition creates (meta : Syscall) (desc : ResourceDesc) : Prop :=
  ∃ tc bf ctx, reach ts outputStop meta (ResourceType tc bf desc, ctx) ∧ IsOptional tc = false ∧ ctxDir ctx ≠ DirIn.

(** The call needs the resource: it is an input on a path without optional types, or the
    time a time structure is made from. *)
Definition needs (meta : Syscall) (desc : ResourceDesc) : Prop :=
  (∃ tc bf ctx, reach ts (λ _ _, false) meta (ResourceType tc bf desc, ctx) ∧
     ctxDir ctx ≠ DirOut ∧ ctxOptional ctx = false) ∨
  desc = timespecRes ∧ OS target = "linux" ∧
  ∃ tc fs al ov ctx, reach ts (λ _ _, false) meta (StructType tc fs al ov, ctx) ∧ ctxDir ctx ≠ DirOut ∧
    (TypeName tc = "timespec" ∨ TypeName tc = "timeval").

(** A loop that appends at most one element per step, without repetition. *)
Lemma collect_spec {A} (pick : A → option ResourceDesc) (g : A → list ResourceDesc → res (list ResourceDesc)) vs :
  (∀ v l, g v l = Ret (match pick v with
     | Some d => if decide (d ∈ l) then l else l ++ [d]
     | None => l end)) →
  ∃ l, for_list g vs [] = Ret l ∧ NoDup l ∧ ∀ d, d ∈ l ↔ ∃ v, v ∈ vs ∧ pick v = Some d.
Proof.
  intros Hg. destruct (for_list_inv (λ done l, NoDup l ∧ ∀ d, d ∈ l ↔ ∃ v, v ∈ done ∧ pick v = Some d) g vs [])
    as (l & Hl & Hnd & Hd); [|intros vis v rest l Hvs [Hnd Hd]|by exists l].
  - split; [constructor|]. intros d. split; [by intros ?%elem_of_nil|]. by intros (v & ?%elem_of_nil & _).
  - rewrite Hg. eexists. split; [done|]. setoid_rewrite elem_of_app. setoid_rewrite list_elem_of_singleton.
    destruct (pick v) as [d|] eqn:Ev; [|naive_solver]. case_decide as Hin; [naive_solver|]. split.
    + apply NoDup_app. split_and!; [done| |apply NoDup_singleton]. intros x Hx ->%list_elem_of_singleton. done.
    + intros x. rewrite elem_of_app, list_elem_of_singleton. naive_solver.
Qed.

Definition outputPick (v : Typ * TypeCtx) : option ResourceDesc :=
  match v.1 with
  | ResourceType tc _ desc => if IsOptional tc then None else if decide (ctxDir v.2 = DirIn) then None else Some desc
  | _ => None
  end.

Definition inputPick (v : Typ * TypeCtx) : option ResourceDesc :=
  if decide (ctxDir v.2 = DirOut) then None
  else match v.1 with
       | ResourceType _ _ desc => if ctxOptional v.2 then None else Some desc
       | StructType tc _ _ _ =>
         if bool_decide (OS target = "linux") && bool_decide (TypeName tc = "timespec" ∨ TypeName tc = "timeval")
         then Some timespecRes else None
       | _ => None
       end.

Definition pickStep (pick : Typ * TypeCtx → option ResourceDesc) (v : Typ * TypeCtx) (l : list ResourceDesc) :
    res (list ResourceDesc) :=
  Ret (match pick v with Some d => if decide (d ∈ l) then l else l ++ [d] | None => l end).

Lemma outputVisit_pick t ctx l : outputVisit t ctx l = onVisit outputStop (pickStep outputPick) t ctx l.
Proof.
  unfold outputVisit, onVisit, pickStep, outputPick, outputStop, Optional. simpl.
  destruct t; simpl; try (by destruct (IsOptional _)).
  destruct (IsOptional tc); simpl; [done|]. repeat case_decide; try done; tauto.
Qed.

Lemma inputVisit_pick t ctx l : inputVisit t ctx l = onVisit (λ _ _, false) (pickStep inputPick) t ctx l.
Proof.
  unfold inputVisit, onVisit, pickStep, inputPick, isTimeStruct. simpl. case_decide; [done|].
  destruct t; simpl; try done.
  - destruct (ctxOptional ctx); simpl; [done|]. case_bool_decide; case_decide; done.
  - unfold Name; simpl. repeat case_bool_decide; simpl; try done; case_decide; done.
Qed.

Lemma mapRes_spec {A B} (f : A → res B) l (P : A → B → Prop) :
  (∀ x, x ∈ l → ∃ y, f x = Ret y ∧ P x y) → ∃ ys, mapRes f l = Ret ys ∧ Forall2 P l ys.
Proof.
  intros Hf. apply (for_list_inv (λ done ys, Forall2 P done ys)); [constructor|].
  intros vis x rest ys -> HF. destruct (Hf x) as (y & -> & Hy); [set_solver|]. simpl.
  eexists. split; [done|]. apply Forall2_app; [done|]. by repeat constructor.
Qed.

Lemma mapRes_length {A B} (f : A → res B) l ys : mapRes f l = Ret ys → length ys = length l.
Proof.
  unfold mapRes. assert (∀ out, for_list (λ x out, let! y := f x in Ret (out ++ [y])) l out = Ret ys →
    length ys = (length out + length l)%nat) as H; [|apply (H [])].
  induction l as [|x l IH]; intros out H; simpl in H.
  - injection H as <-. simpl. lia.
  - unbind. apply IH in H. rewrite length_app in H. simpl in *. lia.
Qed.

Section exact.
Context (rank : Ref → nat) (R : nat) (Hrank : ranked ts rank R).
Context (Hfuel : fuel = walkFuel ts R).

Lemma collect_walk stop pick meta f :
  (∀ t ctx l, f t ctx l = onVisit stop (pickStep pick) t ctx l) →
  Forall (λ n, ∃ t, typeAt ts n.1.1 = Ret t) (roots meta) →
  ∃ l, ForeachCallType ts fuel meta f [] = Ret l ∧ NoDup l ∧
    ∀ d, d ∈ l ↔ ∃ v, reach ts stop meta v ∧ pick v = Some d.
Proof.
  intros Hf Hroots. destruct (walk_total ts stop rank R meta Hrank Hroots) as [vs Hvs].
  rewrite Hfuel, (walk_visits ts stop (pickStep pick) f Hf _ _ vs) by done.
  destruct (collect_spec pick (pickStep pick) vs) as (l & Hl & Hnd & Hd); [done|].
  exists l. split_and!; [done..|]. intros d. rewrite Hd. by setoid_rewrite (visits_exact ts stop _ _ _ Hvs).
Qed.

Lemma callResources_spec meta :
  Forall (λ n, ∃ t, typeAt ts n.1.1 = Ret t) (roots meta) →
  ∃ l, callResources meta = Ret l ∧ ∀ d, d ∈ l ↔ creates meta d.
Proof.
  intros Hroots. destruct (collect_walk _ _ meta _ outputVisit_pick Hroots) as (l & Hl & _ & Hd).
  exists l. split; [done|]. intros d. rewrite Hd. unfold creates, outputPick. split.
  - intros ([t ctx] & Hr & Hp). destruct t; try done. simpl in Hp. destruct (IsOptional tc) eqn:E; [done|].
    case_decide; [done|]. injection Hp as ->. by eexists _, _, _.
  - intros (tc & bf & ctx & Hr & Ho & Hd'). eexists. split; [exact Hr|]. simpl. by rewrite Ho, decide_False.
Qed.

Lemma getInputResources_spec meta :
  Forall (λ n, ∃ t, typeAt ts n.1.1 = Ret t) (roots meta) →
  ∃ l, getInputResources meta = Ret l ∧ NoDup l ∧ ∀ d, d ∈ l ↔ needs meta d.
Proof.
  intros Hroots. destruct (collect_walk _ _ meta _ inputVisit_pick Hroots) as (l & Hl & Hnd & Hd).
  exists l. split_and!; [done..|]. intros d. rewrite Hd. unfold needs, inputPick. split.
  - intros ([t ctx] & Hr & Hp). simpl in Hp. case_decide; [done|]. destruct t; try done; simpl in Hp.
    + destruct (ctxOptional ctx) eqn:E; [done|]. injection Hp as ->. left. by eexists _, _, _.
    + destruct (bool_decide (OS target = _)) eqn:E1; [|done]. destruct (bool_decide (_ ∨ _)) eqn:E2; [|done].
      injection Hp as <-. apply bool_decide_eq_true in E1, E2. right. split_and!; [done..|].
      eexists _, _, _, _, _. split; [exact Hr|]. split; done.
  - intros [(tc & bf & ctx & Hr & Hdir & Ho)|(-> & Hos & tc & fs & al & ov & ctx & Hr & Hdir & Hn)];
      (eexists; split; [exact Hr|]); simpl; rewrite decide_False by done.
    + by rewrite Ho.
    + by rewrite !bool_decide_true by done.
Qed.

Lemma populate_spec :
  Forall (λ meta, Forall (λ n, ∃ t, typeAt ts n.1.1 = Ret t) (roots meta)) (Syscalls target) →
  ∃ info, populateResourceCtors = Ret info ∧
    (∀ c meta, Syscalls target !! c = Some meta →
       NoDup (inputsOf info c) ∧ ∀ d, d ∈ inputsOf info c ↔ needs meta d) ∧
    (∀ c meta, Syscalls target !! c = Some meta → ∀ d, d ∈ outputsOf info c ↔
       creates meta d ∨ d = timespecRes ∧ syscallByName "clock_gettime" = Some c) ∧
    (∀ r c precise, r ∈ Resources target → MkCtor c precise ∈ Ctors info r ↔
       ∃ meta d, Syscalls target !! c = Some meta ∧ creates meta d ∧ compatible r d precise).
Proof.
  intros Hcalls. rewrite Forall_forall in Hcalls. unfold populateResourceCtors.
  destruct (mapRes_spec callResources (Syscalls target) (λ m l, ∀ d, d ∈ l ↔ creates m d)) as (crs & Hcrs & HF).
  { intros m Hm. by apply callResources_spec, Hcalls. }
  destruct (mapRes_spec getInputResources (Syscalls target)
    (λ m l, NoDup l ∧ ∀ d, d ∈ l ↔ needs m d)) as (ins & Hins & HF').
  { intros m Hm. by apply getInputResources_spec, Hcalls. }
  rewrite Hcrs. cbn [rbind]. rewrite Hins. cbn [rbind]. eexists. split; [done|]. split_and!.
  - intros c meta Hc. destruct (Forall2_lookup_l _ _ _ _ _ HF' Hc) as (l & Hl & Hs). unfold inputsOf. cbn.
    by rewrite Hl.
  - intros c meta Hc d. destruct (Forall2_lookup_l _ _ _ _ _ HF Hc) as (l & Hl & Hs). unfold outputsOf.
    cbn [outputResources]. destruct (syscallByName _) as [c'|].
    + destruct (decide (c = c')) as [->|Hne].
      * rewrite list_lookup_alter_eq, Hl. cbn [fmap option_fmap option_map default from_option id]. rewrite elem_of_app, list_elem_of_singleton, Hs. naive_solver.
      * rewrite list_lookup_alter_ne, Hl by done. simpl. rewrite Hs. naive_solver.
    + rewrite Hl. simpl. rewrite Hs. naive_solver.
  - intros r c precise Hr. unfold Ctors. cbn [resCtors].
    assert (head (filter (λ p, p.1 = r) ((λ r, (r, ctorsFrom crs r)) <$> Resources target)) =
      Some (r, ctorsFrom crs r)) as ->.
    { clear -Hr. induction (Resources target) as [|x l IH]; [by apply elem_of_nil in Hr|].
      rewrite fmap_cons, filter_cons. case_decide as E; simpl in E; [by subst|].
      apply IH. set_solver. }
    simpl. rewrite ctorsFrom_spec. split.
    + intros (rs & x & Hrs & Hx & Hc). destruct (Forall2_lookup_r _ _ _ _ _ HF Hrs) as (m & Hm & Hs).
      exists m, x. split_and!; [done| by apply Hs|done].
    + intros (m & d & Hm & Hd & Hc). destruct (Forall2_lookup_l _ _ _ _ _ HF Hm) as (l & Hl & Hs).
      exists l, d. split_and!; [done|by apply Hs|done].
Qed.
End exact.

(** ** Calls whose needs can be met *)

Section enabled.
Context (info : ResInfo) (enabled : gset nat).

(** The least sets of calls and of resources such that an enabled call is supported when
    all it needs can be created, and everything a supported call creates, with the more
    general kinds of it, can be created. *)
Inductive supportable : nat → Prop :=
| supportable_call c :
    c ∈ enabled → (∀ r, r ∈ inputsOf info c → creatable (resName r)) → supportable c
with creatable : string → Prop :=
| creatable_kind c k : supportable c → k ∈ createdKinds info c → creatable k.

Scheme supportable_mut := Minimality for supportable Sort Prop
with creatable_mut := Minimality for creatable Sort Prop.

Definition sound (st : gset nat * gset string) : Prop :=
  (∀ c, c ∈ st.1 → supportable c) ∧ (∀ k, k ∈ st.2 ↔ ∃ c, c ∈ st.1 ∧ k ∈ createdKinds info c).

Lemma enableStep_sound c st : c ∈ enabled → sound st → sound (enableStep info c st).
Proof.
  destruct st as [sup can]. intros Hc [Hsup Hcan]. unfold enableStep. case_decide; [done|].
  case_decide as Hall; [|done]. simpl in *. split; simpl.
  - intros x [->%elem_of_singleton|Hx]%elem_of_union; [|by apply Hsup]. constructor; [done|].
    rewrite Forall_forall in Hall. intros r Hr. destruct (proj1 (Hcan _) (Hall r Hr)) as (c' & Hc' & Hk).
    econstructor; [by apply Hsup|done].
  - intros k. rewrite elem_of_union, Hcan. split.
    + intros [Hk|(c' & Hc' & Hk)]; [exists c|exists c']; set_solver.
    + intros (c' & [->%elem_of_singleton|Hc']%elem_of_union & Hk); [by left|right; eauto].
Qed.

Lemma enableStep_mono c st : st.1 ⊆ (enableStep info c st).1 ∧ st.2 ⊆ (enableStep info c st).2.
Proof. destruct st as [sup can]. unfold enableStep. repeat case_decide; simpl; set_solver. Qed.

(** A step that adds no call changes nothing, and the call is supported or lacks something. *)
Lemma enableStep_stable c st :
  (enableStep info c st).1 = st.1 →
  enableStep info c st = st ∧ (c ∈ st.1 ∨ ∃ r, r ∈ inputsOf info c ∧ resName r ∉ st.2).
Proof.
  destruct st as [sup can]. unfold enableStep. case_decide; [by auto|]. case_decide as Hall; simpl.
  - intros E. exfalso. set_solver.
  - intros _. split; [done|]. right. apply not_Forall_Exists, Exists_exists in Hall as (r & Hr & Hn); [|tc_solve].
    eauto.
Qed.

Definition pass (st : gset nat * gset string) (l : list nat) : gset nat * gset string :=
  foldl (λ st c, enableStep info c st) st l.

Lemma pass_sound l : ∀ st, (∀ c, c ∈ l → c ∈ enabled) → sound st → sound (pass st l).
Proof.
  induction l as [|c l IH]; intros st Hl Hs; simpl; [done|].
  apply IH; [set_solver|]. apply enableStep_sound; [set_solver|done].
Qed.

Lemma pass_mono l : ∀ st, st.1 ⊆ (pass st l).1.
Proof.
  induction l as [|c l IH]; intros st; simpl; [done|].
  etrans; [apply (enableStep_mono c st)|apply IH].
Qed.

Lemma pass_stable l : ∀ st, (pass st l).1 = st.1 →
  pass st l = st ∧ ∀ c, c ∈ l → c ∈ st.1 ∨ ∃ r, r ∈ inputsOf info c ∧ resName r ∉ st.2.
Proof.
  induction l as [|c l IH]; intros st H; simpl in *; [split; [done|]; by intros c ?%elem_of_nil|].
  pose proof (pass_mono l (enableStep info c st)) as Hm. destruct (enableStep_mono c st) as [Hm' _].
  destruct (enableStep_stable c st) as [E Hc]; [set_solver|]. rewrite E in *.
  destruct (IH st H) as [E' Hl]. split; [done|]. intros c' [->|Hc']%elem_of_cons; auto.
Qed.

Context (range : nat → list nat) (Hrange : ∀ k c, c ∈ range k ↔ c ∈ enabled).

(** The loop ends after a pass that adds nothing, at most one pass per enabled call. *)
Lemma enableLoop_spec n : ∀ k st, sound st → (size enabled - size st.1 < n)%nat →
  ∃ st', enableLoop info n range k st = Ret st' ∧ sound st' ∧
    ∀ c, c ∈ enabled → c ∈ st'.1 ∨ ∃ r, r ∈ inputsOf info c ∧ resName r ∉ st'.2.
Proof.
  induction n as [|n IH]; intros k st Hs Hn; [lia|]. cbn [enableLoop]. fold (pass st (range k)).
  assert (sound (pass st (range k))) as Hs' by (apply pass_sound; [by intros; apply (Hrange k)|done]).
  pose proof (pass_mono (range k) st) as Hm. case_decide as E.
  - exists (pass st (range k)). split_and!; [done..|]. intros c Hc.
    assert ((pass st (range k)).1 = st.1) as Heq.
    { symmetry. apply set_subseteq_size_eq; [done|lia]. }
    destruct (pass_stable (range k) st Heq) as [-> Hst]. apply Hst. by apply (Hrange k).
  - apply IH; [done|]. pose proof (subseteq_size _ _ Hm).
    assert ((pass st (range k)).1 ⊆ enabled) as Hen.
    { intros c Hc. by destruct (proj1 Hs' c Hc). }
    apply subseteq_size in Hen. lia.
Qed.

(** What the loop leaves out is not supportable. *)
Lemma transitively_exact :
  ∃ st, transitivelyEnabled info enabled range = Ret st ∧
    (∀ c, c ∈ st.1 ↔ supportable c) ∧ (∀ k, k ∈ st.2 ↔ creatable k).
Proof.
  destruct (enableLoop_spec (S (size enabled)) 0 (∅, ∅)) as (st & Hst & [Hsup Hcan] & Hall).
  { split; simpl; [set_solver|]. intros k. split; [set_solver|]. intros (c & ?%elem_of_empty & _); done. }
  { lia. }
  assert (∀ c, supportable c → c ∈ st.1) as Hs.
  { apply (supportable_mut (λ c, c ∈ st.1) (λ k, k ∈ st.2)).
    - intros c Hc _ IH. destruct (Hall c Hc) as [|(r & Hr & Hn)]; [done|]. by destruct (Hn (IH r Hr)).
    - intros c k _ IH Hk. apply Hcan. eauto. }
  exists st. split_and!; [done|naive_solver|]. intros k. rewrite Hcan. split.
  - intros (c & Hc & Hk). econstructor; eauto.
  - intros [c k' Hc Hk]. eauto.
Qed.

(** The second part explains every call that is left out. *)
Section explain.
Context (Hkind : ∀ c r, r ∈ inputsOf info c → resKind r ≠ []).
Context (Hctor : ∀ r ctor, ctor ∈ Ctors info r → (ctorCall ctor < length (Syscalls target))%nat).

Lemma syscallByName_lt name c : syscallByName name = Some c → (c < length (Syscalls target))%nat.
Proof.
  unfold syscallByName. intros H. apply last_Some_elem_of in H. apply list_elem_of_filter in H as [_ H].
  apply elem_of_seq in H. lia.
Qed.

Lemma calcResourceCtors_total r precise :
  resKind r ≠ [] → ∃ cs, calcResourceCtors info r precise = Ret cs ∧
    ∀ ctor, ctor ∈ cs → (ctorCall ctor < length (Syscalls target))%nat.
Proof.
  intros Hk. unfold calcResourceCtors. destruct (resKind r) as [|k ks]; [done|]. simpl.
  assert (∀ ctor, ctor ∈ filter (λ c, precise = false ∨ Precise c = true) (Ctors info r) →
    (ctorCall ctor < length (Syscalls target))%nat) as Hf.
  { intros ctor [_ H]%list_elem_of_filter. by eapply Hctor. }
  revert Hf. generalize (filter (λ c, precise = false ∨ Precise c = true) (Ctors info r)). intros F Hf.
  eexists. split; [done|]. case_decide; [|exact Hf]. destruct (syscallByName _) as [c|] eqn:E; [|exact Hf].
  intros ctor [H'| ->%list_elem_of_singleton]%elem_of_app; [by apply Hf|]. by eapply syscallByName_lt.
Qed.

Lemma explain_spec can rs : ∀ ctors, (∀ r, r ∈ rs → resKind r ≠ []) →
  (∃ r, r ∈ rs ∧ resName r ∉ can) →
  ∃ r names ctors', explain info can rs ctors = Ret (Some (resName r, names), ctors') ∧
    r ∈ rs ∧ resName r ∉ can.
Proof.
  induction rs as [|r rs IH]; intros ctors Hk (r0 & Hr0 & Hn0); [by apply elem_of_nil in Hr0|]. simpl.
  case_decide as Hin.
  - destruct (IH ctors) as (r' & names & ctors' & H & Hr' & Hn'); [set_solver| |].
    + exists r0. split; [|done]. apply elem_of_cons in Hr0 as [->|]; [done|done].
    + exists r', names, ctors'. split_and!; [done|set_solver|done].
  - destruct (calcResourceCtors_total r true) as (cs & Hcs & Hlt); [set_solver|].
    destruct (mapRes_spec (λ c, let! meta := index (Syscalls target) (Z.of_nat (ctorCall c)) in Ret (sysName meta)) cs
      (λ _ _, True)) as (names & Hnames & _).
    { intros c Hc. destruct (lookup_lt_is_Some_2 (Syscalls target) (ctorCall c)) as [m Hm]; [by apply Hlt|].
      rewrite (index_lookup _ _ m Hm). simpl. eauto. }
    exists r. case_decide; simpl; [rewrite Hcs; simpl; rewrite Hnames; simpl|];
      eexists _, _; (split_and!; [reflexivity|set_solver|done]).
Qed.

Lemma enabled_calls range2 : NoDup range2 → (∀ c, c ∈ range2 ↔ c ∈ enabled) →
  ∃ sup dis, TransitivelyEnabledCalls info enabled range range2 = Ret (sup, dis) ∧
    (∀ c, c ∈ sup ↔ supportable c) ∧ dom dis = enabled ∖ sup ∧
    ∀ c why, dis !! c = Some why → ∃ r, r ∈ inputsOf info c ∧ resName r = why.1 ∧ ¬ creatable (resName r).
Proof.
  intros Hnd Hr2. destruct transitively_exact as ([sup can] & Hst & Hsup & Hcan). simpl in *.
  unfold TransitivelyEnabledCalls. rewrite Hst. cbn [rbind].
  set (body := λ c '(disabled, ctors), _).
  destruct (for_list_inv (λ vis (s : gmap nat (string * list string) * gmap string (list string)),
     dom s.1 = list_to_set vis ∖ sup ∧
     ∀ c why, s.1 !! c = Some why → ∃ r, r ∈ inputsOf info c ∧ resName r = why.1 ∧ ¬ creatable (resName r))
     body range2 (∅, ∅)) as ([dis ctors] & Hloop & Hdom & Hwhy).
  - split; [set_solver|]. intros c why H. cbn [fst] in H. by rewrite lookup_empty in H.
  - intros vis c rest [dis ctors] Heq [Hdom Hwhy]. simpl in *. unfold body. case_decide as Hc.
    { eexists. split; [done|]. simpl. split; [|done]. rewrite list_to_set_app_L. set_solver. }
    assert (∃ r, r ∈ inputsOf info c ∧ resName r ∉ can) as Hmiss.
    { destruct (decide (Forall (λ r, resName r ∈ can) (inputsOf info c))) as [Hall|Hall].
      - destruct Hc. apply Hsup. constructor; [apply Hr2; set_solver|]. rewrite Forall_forall in Hall.
        intros r Hr. by apply Hcan, Hall.
      - apply not_Forall_Exists, Exists_exists in Hall as (r & Hr & Hn); [eauto|tc_solve]. }
    destruct (explain_spec can (inputsOf info c) ctors (Hkind c) Hmiss) as (r & names & ctors' & -> & Hr & Hn).
    cbn [rbind]. eexists. split; [done|]. cbn [fst]. split.
    + rewrite dom_insert_L, Hdom, list_to_set_app_L. set_solver.
    + intros c' why. rewrite lookup_insert. case_decide; [|by apply Hwhy]. intros [= <-]. subst.
      exists r. split_and!; [done..|]. by rewrite <-Hcan.
  - rewrite Hloop. cbn [rbind]. assert (list_to_set range2 = enabled) as Hset by set_solver.
    rewrite Hset in Hdom. simpl in Hdom. rewrite decide_True.
    + exists sup, dis. done.
    + rewrite <-(size_dom dis), Hdom. assert (sup ⊆ enabled) as Hsub.
      { intros c Hc. by destruct (proj1 (Hsup c) Hc). }
      rewrite size_difference by done. apply subseteq_size in Hsub. lia.
Qed.
End explain.
End enabled.

(** C21. The tables of resources are exact: on ranked types the initialisation succeeds;
    the inputs of a call are, without repetition, the resources it needs (reachable as an
    input on a path without optional types, or the time for a time structure); its outputs
    are the resources it creates; and the constructors of a resource are the calls that
    create a compatible one, precisely when its kind is a prefix of what is created. *)
Theorem resources_exact rank R :
  ranked ts rank R → fuel = walkFuel ts R →
  Forall (λ meta, Forall (λ n, ∃ t, typeAt ts n.1.1 = Ret t) (roots meta)) (Syscalls target) →
  ∃ info, populateResourceCtors = Ret info ∧
    (∀ c meta, Syscalls target !! c = Some meta →
       NoDup (inputsOf info c) ∧ ∀ d, d ∈ inputsOf info c ↔ needs meta d) ∧
    (∀ c meta, Syscalls target !! c = Some meta → ∀ d, d ∈ outputsOf info c ↔
       creates meta d ∨ d = timespecRes ∧ syscallByName "clock_gettime" = Some c) ∧
    (∀ r c precise, r ∈ Resources target → MkCtor c precise ∈ Ctors info r ↔
       ∃ meta d, Syscalls target !! c = Some meta ∧ creates meta d ∧ compatible r d precise).
Proof. intros Hrank Hfuel. by apply populate_spec with rank R. Qed.

(** A call needs only resources of the type table. *)
Lemma reach_typeAt stop meta v : reach ts stop meta v → typeAt ts (ctxRef v.2) = Ret v.1.
Proof. by destruct 1 as [n v _ [H1 H2]|v n v' _ _ _ [H1 H2]]; rewrite H2. Qed.

Lemma needs_kind meta d :
  (∀ r tc bf d, typeAt ts r = Ret (ResourceType tc bf d) → resKind d ≠ []) → needs meta d → resKind d ≠ [].
Proof.
  intros Hk [(tc & bf & ctx & Hr & _)|(-> & _)]; [|done]. apply reach_typeAt in Hr. by eapply Hk.
Qed.

Lemma Ctors_other info r : r ∉ (resCtors info).*1 → Ctors info r = [].
Proof.
  unfold Ctors. intros H. induction (resCtors info) as [|p l IH]; [done|].
  rewrite filter_cons. rewrite fmap_cons in H. rewrite decide_False by set_solver. apply IH. set_solver.
Qed.

Lemma populate_resCtors info : populateResourceCtors = Ret info → (resCtors info).*1 = Resources target.
Proof.
  unfold populateResourceCtors. intros H. unbind. simpl. rewrite <-list_fmap_compose.
  rewrite <-(list_fmap_id (Resources target)) at 2. by apply list_fmap_ext.
Qed.

(** C20. [TransitivelyEnabledCalls] computes the least fixed point: whatever order the maps
    are visited in, it never panics with lost calls, the calls it returns are exactly those
    that can be supported starting from nothing, and every other enabled call is disabled
    with the name of a resource it needs and no supported call creates. *)
Theorem enabled_calls_exact rank R info enabled range range2 :
  ranked ts rank R → fuel = walkFuel ts R →
  Forall (λ meta, Forall (λ n, ∃ t, typeAt ts n.1.1 = Ret t) (roots meta)) (Syscalls target) →
  (∀ r tc bf d, typeAt ts r = Ret (ResourceType tc bf d) → resKind d ≠ []) →
  populateResourceCtors = Ret info →
  (∀ k c, c ∈ range k ↔ c ∈ enabled) → NoDup range2 → (∀ c, c ∈ range2 ↔ c ∈ enabled) →
  ∃ sup dis, TransitivelyEnabledCalls info enabled range range2 = Ret (sup, dis) ∧
    (∀ c, c ∈ sup ↔ supportable info enabled c) ∧ dom dis = enabled ∖ sup ∧
    ∀ c why, dis !! c = Some why →
      ∃ r, r ∈ inputsOf info c ∧ resName r = why.1 ∧ ¬ creatable info enabled (resName r).
Proof.
  intros Hrank Hfuel Hcalls Hkind Hpop Hrange Hnd Hr2.
  destruct (populate_spec rank R Hrank Hfuel Hcalls) as (info' & Hpop' & Hin & _ & Hct).
  rewrite Hpop in Hpop'. injection Hpop' as <-. apply enabled_calls; [done| | |done|done].
  - intros c r Hr. destruct (Syscalls target !! c) as [meta|] eqn:E.
    + apply (needs_kind meta); [done|]. by apply (Hin c meta E).
    + unfold inputsOf in Hr. unfold populateResourceCtors in Hpop. unbind.
      apply mapRes_length in E1. simpl in Hr. rewrite lookup_ge_None_2 in Hr by (apply lookup_ge_None in E; lia).
      by apply elem_of_nil in Hr.
  - intros r [c p] Hc. destruct (decide (r ∈ Resources target)) as [Hr|Hr].
    + apply Hct in Hc as (meta & d & Hm & _); [|done]. simpl. by eapply lookup_lt_Some.
    + rewrite Ctors_other in Hc by (by rewrite (populate_resCtors info)). by apply elem_of_nil in Hc.
Qed.

End target.

(** [write] of the example needs what [open] creates. *)
Definition exInfo : ResInfo :=
  MkInfo [[]; [MkResourceDesc "fd" ["fd"] [2 ^ 64 - 1]]] [[MkResourceDesc "fd" ["fd"] [2 ^ 64 - 1]]; []]
    [(MkResourceDesc "fd" ["fd"] [2 ^ 64 - 1], [MkCtor 0 true; MkCtor 0 false])].

Example populate_example :
  populateResourceCtors ExampleTarget.target (walkFuel ExampleTarget.types 2) = Ret exInfo.
Proof. reflexivity. Qed.

Example enabled_example :
  TransitivelyEnabledCalls ExampleTarget.target exInfo {[0; 1]}%nat (λ _, [1; 0]%nat) [1; 0]%nat =
    Ret ({[0; 1]}%nat, ∅) ∧
  TransitivelyEnabledCalls ExampleTarget.target exInfo {[1]}%nat (λ _, [1]%nat) [1]%nat =
    Ret (∅, {[1%nat := ("fd", ["open"])]}).
Proof. split; vm_compute; reflexivity. Qed.

Lemma example_ranked : ranked ExampleTarget.types ExampleTarget.rank 2.
Proof.
  intros r t Ht. apply ExampleTarget.types_inv in Ht. rewrite !elem_of_cons in Ht.
  repeat (destruct Ht as [[= -> ->]|Ht]; [split; [simpl; lia|];
    repeat (apply Forall_cons; split; [eexists; split; [reflexivity|try discriminate; simpl; lia]|]); by apply Forall_nil|]).
  by apply elem_of_nil in Ht.
Qed.

Lemma example_roots :
  Forall (λ meta, Forall (λ n, ∃ t, typeAt ExampleTarget.types n.1.1 = Ret t) (roots meta))
    (Syscalls ExampleTarget.target).
Proof. repeat (constructor; simpl; try (eexists; reflexivity)). Qed.

Lemma resources_exact_witness :
  ∃ info, populateResourceCtors ExampleTarget.target (walkFuel ExampleTarget.types 2) = Ret info ∧
    ∀ d, d ∈ inputsOf info 1 ↔ needs ExampleTarget.target ExampleTarget.sysWrite d.
Proof.
  destruct (resources_exact ExampleTarget.target _ ExampleTarget.rank 2 example_ranked eq_refl example_roots)
    as (info & Hp & Hin & _).
  exists info. split; [exact Hp|]. apply (Hin 1%nat ExampleTarget.sysWrite eq_refl).
Defined.

Lemma enabled_calls_exact_witness :
  ∃ sup dis, TransitivelyEnabledCalls ExampleTarget.target exInfo {[0; 1]}%nat (λ _, [1; 0]%nat) [1; 0]%nat =
    Ret (sup, dis) ∧ (∀ c, c ∈ sup ↔ supportable exInfo {[0; 1]}%nat c) ∧ dom dis = {[0; 1]}%nat ∖ sup.
Proof.
  destruct (enabled_calls_exact ExampleTarget.target (walkFuel ExampleTarget.types 2) ExampleTarget.rank 2 exInfo
    {[0; 1]}%nat (λ _, [1; 0]%nat) [1; 0]%nat) as (sup & dis & H & Hs & Hd & _).
  - exact example_ranked.
  - reflexivity.
  - exact example_roots.
  - intros r tc bf d Ht. apply ExampleTarget.types_inv in Ht. rewrite !elem_of_cons in Ht.
    repeat (destruct Ht as [Ht|Ht]; [discriminate Ht || (injection Ht as -> -> -> ->; discriminate)|]).
    by apply elem_of_nil in Ht.
  - exact populate_example.
  - intros k c. set_solver.
  - repeat constructor; set_solver.
  - intros c. set_solver.
  - exists sup, dis. split; [exact H|]. split; [exact Hs|exact Hd].
Defined.

End Resources.
