(* ===== verification/Rotation.v ===== *)
(** * Rotation: random subsets of the enabled calls (prog/rotation.go)

    A [Rotator] knows for every resource the calls that create it and the calls that use it;
    [Select] collects calls around random resources until there are enough of them.  Resources
    are identified by their descriptions; [None] is the nil pointer that the code would use for
    a parent resource that the target does not have. *)

From S2P Require Import Prelude Rand Types Prog ExampleTarget TypeWalk Resources.
Import Types Prog TypeWalk Resources.

Module Rotation.

Definition filenameRes : ResourceDesc := MkResourceDesc "filename" ["filename"] [].
Definition vmaRes : ResourceDesc := MkResourceDesc "vma" ["vma"] [].

(** The classes of constructors and uses of a resource. *)
Record rotatorResource := MkRot {
  ctors0 : list nat; ctors1 : list nat; ctors2 : list nat;
  uses0 : list nat; uses1 : list nat
}.
Definition noInfo : rotatorResource := MkRot [] [] [] [] [].

Notation resKey := (option ResourceDesc) (only parsing).
Notation resTable := (list (option ResourceDesc * rotatorResource)) (only parsing).

Record Rotator := MkRotator {
  rotCalls : gset nat;
  resourceless : list nat;
  syscallUses : gmap nat (list ResourceDesc);
  resources : resTable;
  goal : Z;
  nresourceless : Z
}.

(** The map from resources to their calls. *)
Fixpoint resInfo (k : resKey) (t : resTable) : rotatorResource :=
  match t with
  | [] => noInfo
  | (k', i) :: t => if decide (k' = k) then i else resInfo k t
  end.
Fixpoint setInfo (k : resKey) (i : rotatorResource) (t : resTable) : resTable :=
  match t with
  | [] => [(k, i)]
  | (k', i') :: t => if decide (k' = k) then (k', i) :: t else (k', i') :: setInfo k i t
  end.

Definition addUse0 (c : nat) (i : rotatorResource) := MkRot (ctors0 i) (ctors1 i) (ctors2 i) (uses0 i ++ [c]) (uses1 i).
Definition addUse1 (c : nat) (i : rotatorResource) := MkRot (ctors0 i) (ctors1 i) (ctors2 i) (uses0 i) (uses1 i ++ [c]).
Definition addCtor (class : nat) (c : nat) (i : rotatorResource) : rotatorResource :=
  match class with
  | 0 => MkRot (ctors0 i ++ [c]) (ctors1 i) (ctors2 i) (uses0 i) (uses1 i)
  | 1 => MkRot (ctors0 i) (ctors1 i ++ [c]) (ctors2 i) (uses0 i) (uses1 i)
  | _ => MkRot (ctors0 i) (ctors1 i) (ctors2 i ++ [c]) (uses0 i) (uses1 i)
  end%nat.

(** [res.Kind[:len(res.Kind)-1]] *)
Definition parentKinds (d : ResourceDesc) : res (list string) :=
  if decide (resKind d = []) then Panic "slice bounds out of range" else Ret (removelast (resKind d)).

(** What a callback keeps, a walk over types keeps. *)
Lemma rec_keeps {S} ts (I : S → Prop) (f : Typ → TypeCtx → S → res (S * bool)) :
  (∀ t ctx s s' b, I s → f t ctx s = Ret (s', b) → I s') →
  ∀ n r dir o seen s seen' s', I s → rec ts true f n r dir o (seen, s) = Ret (seen', s') → I s'.
Proof.
  intros Hf. induction n as [|n IH]; intros r dir o seen s seen' s' Hs H; [done|]. cbn [rec] in H.
  apply bind_Ret in H as (t & _ & H). apply bind_Ret in H as ([s1 b] & Hf1 & H). apply (Hf _ _ _ _ _ Hs) in Hf1.
  destruct b; [by injection H as _ <-|]. apply bind_Ret in H as ([seen2 s2] & H & [= _ <-]).
  destruct t; try (by injection H as _ <-); try (by eapply IH).
  all: case_decide; [by injection H as _ <-|].
  all: eapply (for_list_keeps (λ st, I st.2)) in H; [exact H| |exact Hf1].
  all: intros fld [seen3 s3] [seen4 s4] _ H3 H4; by eapply IH.
Qed.

Lemma walk_keeps {S} ts fuel meta (I : S → Prop) (f : Typ → TypeCtx → S → res (S * bool)) s s' :
  (∀ t ctx s s' b, I s → f t ctx s = Ret (s', b) → I s') → I s → ForeachCallType ts fuel meta f s = Ret s' → I s'.
Proof.
  intros Hf Hs H. unfold ForeachCallType, foreachTypeImpl in H. apply bind_Ret in H as ([seen1 s1] & H1 & H).
  apply (for_list_keeps (λ st, I st.2)) in H1; [|intros fld [? ?] [? ?] _ H3 H4; by eapply rec_keeps|exact Hs].
  apply bind_Ret in H as ([seen2 s2] & H & [= <-]). destruct (sysRet meta); [by eapply rec_keeps|by injection H as _ <-].
Qed.

Section target.
Context (target : Target) (fuel : nat) (info : ResInfo) (AuxResources : string → bool).

(** The loops over the inputs and over the outputs: [f] notes the call at the resource itself,
    [g] at its parents; resources of the same name count once. *)
Definition noteResources (f g : rotatorResource → rotatorResource) (l : list ResourceDesc) (t : resTable) : res resTable :=
  let! '(t, _) :=
    for_list (λ d '(t, dedup),
      if decide (resName d ∈ (dedup : gset string)) then Ret (t, dedup)
      else
        let t := setInfo (Some d) (f (resInfo (Some d) t)) t in
        let! kinds := parentKinds d in
        Ret (foldl (λ t kind, let parent := resourceByName target kind in setInfo parent (g (resInfo parent t)) t) t kinds,
             {[resName d]} ∪ dedup)) l (t, ∅) in
  Ret t.

(** File names and memory areas count as inputs. *)
Definition extraInput (t : Typ) (_ : TypeCtx) (l : list ResourceDesc) : res (list ResourceDesc * bool) :=
  Ret (match t with
       | BufferType _ desc => match bufKind desc with BufferFilename => l ++ [filenameRes] | _ => l end
       | VmaType _ _ _ => l ++ [vmaRes]
       | _ => l
       end, false).

(** The body of the loop over the calls in [MakeRotator]. *)
Definition rotateCall (c : nat) (s : gmap nat (list ResourceDesc) * resTable * list nat) :
    res (gmap nat (list ResourceDesc) * resTable * list nat) :=
  let '(callUses, t, noRes) := s in
  let callUses := <[c := inputsOf info c ++ outputsOf info c]> callUses in
  let! meta := index (Syscalls target) (Z.of_nat c) in
  let! inputs := ForeachCallType (typeRefs target) fuel meta extraInput
    (filter (λ d, AuxResources (resName d) = false) (inputsOf info c)) in
  let! t := noteResources (addUse0 c) (addUse1 c) inputs t in
  let class := if decide (inputs = []) then 0%nat else 1%nat in
  let! t := noteResources (addCtor class c) (addCtor 2 c) (outputsOf info c) t in
  Ret (callUses, t, if decide (length inputs + length (outputsOf info c) = 0)%nat then noRes ++ [c] else noRes).

Definition callNameLe (x y : string * nat) : bool := String.leb x.1 y.1.

(** [range] enumerates the map [calls]. *)
Definition MakeRotator (calls : gset nat) (range : list nat) : res Rotator :=
  let! named := mapRes (λ c, let! meta := index (Syscalls target) (Z.of_nat c) in Ret (sysName meta, c)) range in
  let! '(callUses, t, noRes) := for_list rotateCall ((merge_sort callNameLe named).*2) (∅, [], []) in
  let n := Z.of_nat (size calls) in
  let goal := n * 19 / 20 in
  let goal := if decide (goal < 1) then 1 else goal in
  let goal := if decide (200 < goal) then 200 else goal in
  if decide (n = 0) then Panic "integer divide by zero"
  else
    let k := goal * Z.of_nat (length noRes) / n in
    Ret (MkRotator calls noRes callUses t goal (if decide (k < 1) then 1 else k)).

(** ** Selection *)

(** A nil map can be read but not written. *)
Record rotatorState := MkState {
  selected : gset nat;
  topQueue : list resKey;
  depQueue : list ResourceDesc;
  topHandled : option (list resKey);
  depHandled : option (list ResourceDesc)
}.

Definition handled {A} `{EqDecision A} (x : A) (l : option (list A)) : bool := bool_decide (x ∈ default [] l).
Definition markHandled {A} (x : A) (l : option (list A)) : res (option (list A)) :=
  match l with Some l => Ret (Some (x :: l)) | None => Panic "assignment to entry in nil map" end.

Section rotator.
Context (rot : Rotator) (lfuel : nat).

Definition addCall (c : nat) (rs : rotatorState) : res rotatorState :=
  if decide (c ∈ selected rs) then Ret rs
  else
    let rs := MkState ({[c]} ∪ selected rs) (topQueue rs) (depQueue rs) (topHandled rs) (depHandled rs) in
    for_list (λ d rs,
      if handled (Some d) (topHandled rs) || handled d (depHandled rs) then Ret rs
      else
        let! dh := markHandled d (depHandled rs) in
        Ret (MkState (selected rs) (topQueue rs) (depQueue rs ++ [d]) (topHandled rs) dh))
      (default [] (syscallUses rot !! c)) rs.

Fixpoint selectLoop (n : nat) (set : list nat) (probability : Z) (force : bool) (rs : rotatorState) (r : rng) :
    res (rotatorState * rng) :=
  match n with
  | O => OutOfFuel
  | S n =>
    if decide (set = []) then Ret (rs, r)
    else
      let! '(go, r) := if force then Ret (true, r) else let! '(v, r) := intn probability r in Ret (bool_decide (v ≠ 0), r) in
      if (go : bool) then
        let! '(i, r) := intn (Z.of_nat (length set)) r in
        let! c := index set i in
        let! rs := addCall c rs in
        selectLoop n set probability false rs r
      else Ret (rs, r)
  end.

Definition selectCalls (set : list nat) (probability : Z) (force : bool) (rs : rotatorState) (r : rng) : res (rotatorState * rng) :=
  if negb force && bool_decide (probability < 2) then Panic "will never select anything"
  else selectLoop lfuel set probability force rs r.

(** [rand.Shuffle]: Fisher-Yates from the end. *)
Definition swap {A} (i j : nat) (l : list A) : list A :=
  match l !! i, l !! j with Some x, Some y => <[i := y]> (<[j := x]> l) | _, _ => l end.
Definition Shuffle {A} (l : list A) (r : rng) : res (list A * rng) :=
  for_list (λ i '(l, r),
    let! '(j, r) := intn (Z.of_nat i + 1) r in Ret (swap i (Z.to_nat j) l, r)) (reverse (seq 1 (length l - 1))) (l, r).

Definition keyLe (x y : resKey) : bool :=
  match x, y with Some a, Some b => String.leb (resName a) (resName b) | _, _ => true end.

(** [keyOrder] is the order in which the map of resources is visited. *)
Context (keyOrder : list resKey → list resKey).

(** All queues start again. *)
Definition resetQueues (rs : rotatorState) (r : rng) : res (rotatorState * rng) :=
  let queue := keyOrder ((resources rot).*1) in
  if bool_decide (1 < length queue)%nat && bool_decide (None ∈ queue) then Panic "nil pointer dereference"
  else
    let! '(queue, r) := Shuffle (merge_sort keyLe queue) r in
    selectCalls (resourceless rot) (nresourceless rot + 1) false (MkState (selected rs) queue [] (Some []) (Some [])) r.

(** A dependency: only constructors of the best class are added. *)
Definition handleDep (rs : rotatorState) (r : rng) : res (rotatorState * rng) :=
  let! '(i, r) := intn (Z.of_nat (length (depQueue rs))) r in
  let! d := index (depQueue rs) i in
  let! tail := index (depQueue rs) (Z.of_nat (length (depQueue rs)) - 1) in
  let queue := take (length (depQueue rs) - 1) (<[Z.to_nat i := tail]> (depQueue rs)) in
  let rs := MkState (selected rs) (topQueue rs) queue (topHandled rs) (depHandled rs) in
  let info := resInfo (Some d) (resources rot) in
  let! '(rs, r) := selectCalls (ctors0 info) 2 true rs r in
  if decide (ctors0 info = []) then
    let! '(rs, r) := selectCalls (ctors1 info) 2 true rs r in
    if decide (ctors1 info = []) then selectCalls (ctors2 info) 2 true rs r else Ret (rs, r)
  else Ret (rs, r).

(** A resource of the top queue: constructors and uses are added. *)
Definition handleTop (rs : rotatorState) (r : rng) : res (rotatorState * rng) :=
  let! d := index (topQueue rs) 0 in
  if handled d (topHandled rs) then Panic "top queue already handled"
  else
    let! th := markHandled d (topHandled rs) in
    let rs := MkState (selected rs) (tail (topQueue rs)) (depQueue rs) th (depHandled rs) in
    let info := resInfo d (resources rot) in
    let n0 := bool_decide (ctors0 info ≠ []) in
    let n1 := n0 || bool_decide (ctors1 info ≠ []) in
    let! '(rs, r) := selectCalls (ctors0 info) 5 true rs r in
    let! '(rs, r) := selectCalls (ctors1 info) 3 (negb n0) rs r in
    let! '(rs, r) := selectCalls (ctors2 info) 2 (negb n1) rs r in
    let! '(rs, r) := selectCalls (uses0 info) 20 true rs r in
    selectCalls (uses1 info) 2 (bool_decide (uses0 info = [])) rs r.

(** [callOrder s] are the orders in which the map of selected calls is visited. *)
Context (callOrder : gset nat → nat → list nat).

Fixpoint selectRounds (n : nat) (rs : rotatorState) (r : rng) : res (gset nat * rng) :=
  match n with
  | O => OutOfFuel
  | S n =>
    let len := Z.of_nat (size (selected rs)) in
    let enough := bool_decide (depQueue rs = []) && bool_decide (goal rot ≤ len) || bool_decide (2 * goal rot ≤ len) in
    let! calls := if enough then let! '(calls, _) := transitivelyEnabled info (selected rs) (callOrder (selected rs)) in Ret calls
                  else Ret (selected rs) in
    if enough && bool_decide (goal rot ≤ Z.of_nat (size calls)) then Ret (calls, r)
    else
      let rs := MkState calls (topQueue rs) (depQueue rs) (topHandled rs) (depHandled rs) in
      let! '(rs, r) :=
        if decide (depQueue rs = []) then
          let! '(rs, r) := if decide (topQueue rs = []) then resetQueues rs r else Ret (rs, r) in
          handleTop rs r
        else handleDep rs r in
      selectRounds n rs r
  end.

Definition Select (n : nat) (r : rng) : res (gset nat * rng) :=
  if decide (resources rot = []) then Ret (rotCalls rot, r)
  else selectRounds n (MkState ∅ [] [] None None) r.

End rotator.

(** ** The tables of a rotator *)

Section calls.
Context (calls : gset nat).

Definition within (l : list nat) : Prop := ∀ c, c ∈ l → c ∈ calls.

Record infoIn (i : rotatorResource) : Prop := {
  in_ctors0 : within (ctors0 i); in_ctors1 : within (ctors1 i); in_ctors2 : within (ctors2 i);
  in_uses0 : within (uses0 i); in_uses1 : within (uses1 i)
}.

Record tableOk (t : resTable) : Prop := {
  tab_in : ∀ k i, (k, i) ∈ t → infoIn i;
  tab_nodup : NoDup t.*1;
  tab_some : None ∉ t.*1
}.

Lemma within_nil : within [].
Proof. by intros c ?%elem_of_nil. Qed.
Lemma within_snoc l c : within l → c ∈ calls → within (l ++ [c]).
Proof. intros Hl Hc x [Hx|Hx]%elem_of_app; [by apply Hl|]. by apply list_elem_of_singleton in Hx as ->. Qed.

Lemma noInfo_in : infoIn noInfo.
Proof. split; apply within_nil. Qed.
Lemma addUse0_in c i : c ∈ calls → infoIn i → infoIn (addUse0 c i).
Proof. intros Hc []. split; simpl; auto using within_snoc. Qed.
Lemma addUse1_in c i : c ∈ calls → infoIn i → infoIn (addUse1 c i).
Proof. intros Hc []. split; simpl; auto using within_snoc. Qed.
Lemma addCtor_in class c i : c ∈ calls → infoIn i → infoIn (addCtor class c i).
Proof. intros Hc []. destruct class as [|[|?]]; split; simpl; auto using within_snoc. Qed.

Lemma resInfo_in t k : tableOk t → infoIn (resInfo k t).
Proof.
  intros [Hin _ _]. induction t as [|[k' i] t IH]; simpl; [apply noInfo_in|].
  case_decide; [by apply (Hin k' i), list_elem_of_here|]. apply IH. intros k1 i1 H1. by apply (Hin k1 i1), list_elem_of_further.
Qed.

Lemma setInfo_keys k i t : (setInfo k i t).*1 = if decide (k ∈ t.*1) then t.*1 else t.*1 ++ [k].
Proof.
  induction t as [|[k' i'] t IH]; cbn [setInfo]; [done|]. destruct (decide (k' = k)) as [->|E]; rewrite !fmap_cons; cbn [fst].
  - by rewrite decide_True by apply list_elem_of_here.
  - rewrite IH. case_decide as H1; case_decide as H2; try done.
    + destruct H2. by apply list_elem_of_further.
    + apply elem_of_cons in H2 as [->|?]; done.
Qed.

Lemma setInfo_elem k i t x : x ∈ setInfo k i t → x = (x.1, i) ∨ x ∈ t.
Proof.
  induction t as [|[k' i'] t IH]; simpl; [intros ->%list_elem_of_singleton; by left|].
  case_decide; intros [->|Hx]%elem_of_cons; rewrite ?elem_of_cons; [by left|by right; right|by right; left|].
  destruct (IH Hx); tauto.
Qed.

Lemma setInfo_ok k i t : tableOk t → infoIn i → k ≠ None → tableOk (setInfo k i t).
Proof.
  intros [Hin Hnd Hs] Hi Hk. split.
  - intros k' i' Hx. apply setInfo_elem in Hx as [[= ->]|Hx]; [done|by eapply Hin].
  - rewrite setInfo_keys. case_decide; [done|]. apply NoDup_app. split_and!; [done| |apply NoDup_singleton].
    by intros x Hx ->%list_elem_of_singleton.
  - rewrite setInfo_keys. case_decide; [done|]. rewrite elem_of_app, list_elem_of_singleton. intros [|<-]; done.
Qed.

(** Resources whose parents the target has. *)
Definition parentsKnown (d : ResourceDesc) : Prop :=
  ∀ kind, kind ∈ removelast (resKind d) → is_Some (resourceByName target kind).

Lemma noteResources_ok f g l t t' :
  (∀ i, infoIn i → infoIn (f i)) → (∀ i, infoIn i → infoIn (g i)) → Forall parentsKnown l →
  tableOk t → noteResources f g l t = Ret t' → tableOk t'.
Proof.
  intros Hf Hg Hl Ht H. apply bind_Ret in H as ([t1 dd] & H & [= <-]). revert t dd Ht H. generalize (∅ : gset string).
  induction l as [|d l IH]; intros dd0 t dd Ht H; [by injection H as <- _|]. apply Forall_cons in Hl as [Hd Hl].
  cbn [for_list] in H. apply bind_Ret in H as ([t2 dd2] & E & H). eapply (IH Hl); [|exact H]. clear H IH Hl.
  case_decide; [by injection E as <- _|]. apply bind_Ret in E as (kinds & Ek & [= <- _]).
  unfold parentKinds in Ek. case_decide; [done|]. injection Ek as <-. unfold parentsKnown in Hd.
  assert (tableOk (setInfo (Some d) (f (resInfo (Some d) t)) t)) as Hd0 by (apply setInfo_ok; [done|by apply Hf, resInfo_in|done]).
  revert Hd0. generalize (setInfo (Some d) (f (resInfo (Some d) t)) t). induction (removelast (resKind d)) as [|k ks IH]; intros t0 Hd0; [done|].
  cbn [foldl]. apply IH; [intros k' Hk'; by apply Hd, list_elem_of_further|].
  destruct (Hd k) as [p Hp]; [apply list_elem_of_here|]. rewrite Hp. apply setInfo_ok; [done|by apply Hg, resInfo_in|done].
Qed.

Record rotOk (rot : Rotator) : Prop := {
  ro_calls : rotCalls rot = calls;
  ro_table : tableOk (resources rot);
  ro_free : within (resourceless rot);
  ro_goal : 1 ≤ goal rot ≤ 200;
  ro_nfree : 1 ≤ nresourceless rot
}.

Context (Hknown : ∀ c d, c ∈ calls → d ∈ inputsOf info c ++ outputsOf info c → parentsKnown d).

(** What the walk adds has no parents. *)
Lemma extraInput_known meta l l' : Forall parentsKnown l →
  ForeachCallType (typeRefs target) fuel meta extraInput l = Ret l' → Forall parentsKnown l'.
Proof.
  intros Hl H. eapply (walk_keeps _ _ _ (Forall parentsKnown)); [|exact Hl|exact H]. intros t ctx l0 l1 b Hl0 [= <- _].
  assert (∀ d, removelast (resKind d) = [] → Forall parentsKnown (l0 ++ [d])) as Hone.
  { intros d Hd. apply Forall_app. split; [done|]. apply Forall_singleton. intros k Hk. rewrite Hd in Hk. by apply elem_of_nil in Hk. }
  destruct t; try done; try (by apply Hone). destruct (bufKind desc); try done; by apply Hone.
Qed.

Lemma rotateCall_ok c s s' : c ∈ calls → rotateCall c s = Ret s' →
  tableOk s.1.2 ∧ within s.2 → tableOk s'.1.2 ∧ within s'.2.
Proof.
  destruct s as [[u t] nr]. intros Hc H [Ht Hn]. cbn [fst snd] in Ht, Hn. unfold rotateCall in H. apply bind_Ret in H as (meta & _ & H).
  apply bind_Ret in H as (inputs & Hi & H). apply bind_Ret in H as (t1 & H1 & H). apply bind_Ret in H as (t2 & H2 & [= <-]). cbn [fst snd].
  assert (Forall parentsKnown (inputsOf info c ++ outputsOf info c)) as Hall by (apply Forall_forall; intros d Hd; by eapply Hknown).
  apply Forall_app in Hall as [Hins Houts]. apply extraInput_known in Hi; [|apply Forall_forall; intros d [_ Hd]%list_elem_of_filter; by eapply Forall_forall in Hins].
  apply noteResources_ok in H1; [|by intros; apply addUse0_in|by intros; apply addUse1_in|done|done].
  apply noteResources_ok in H2; [|by intros; apply addCtor_in|by intros; apply addCtor_in|done|done].
  split; [done|]. case_decide; [by apply within_snoc|done].
Qed.

Lemma makeRotator_ok range rot : (∀ c, c ∈ range → c ∈ calls) → MakeRotator calls range = Ret rot → rotOk rot.
Proof.
  intros Hr H. unfold MakeRotator in H. apply bind_Ret in H as (named & Hn & H). apply bind_Ret in H as ([[u t] nr] & Hs & H).
  assert (∀ x, x ∈ named → x.2 ∈ range) as Hnamed.
  { clear -Hn. unfold mapRes in Hn. refine (for_list_keeps (λ out, ∀ x, x ∈ out → x.2 ∈ range) _ _ _ _ _ _ Hn); [|by intros x ?%elem_of_nil].
    intros c out out' Hc Ho E. apply bind_Ret in E as (y & E & [= <-]). apply bind_Ret in E as (meta & _ & [= <-]).
    intros x [Hx|Hx]%elem_of_app; [by apply Ho|]. by apply list_elem_of_singleton in Hx as ->. }
  apply (for_list_keeps (λ s, tableOk s.1.2 ∧ within s.2)) in Hs as [Ht Hf].
  - case_decide; [done|]. injection H as <-. split; cbn [rotCalls resources resourceless goal nresourceless]; try done.
    + repeat case_decide; lia.
    + case_decide; lia.
  - intros c s s' Hc HI E. eapply rotateCall_ok; [|exact E|exact HI]. apply list_elem_of_fmap in Hc as (x & -> & Hx).
    rewrite merge_sort_Permutation in Hx. by apply Hr, Hnamed.
  - split; [|apply within_nil]. split; cbn; [by intros k i ?%elem_of_nil|constructor|by intros ?%elem_of_nil].
Qed.

(** ** Selection *)

Section select.
Context (rot : Rotator) (lfuel : nat) (Hrot : rotOk rot).
Context (keyOrder : list resKey → list resKey) (HkeyOrder : ∀ l, keyOrder l ≡ₚ l).
Context (callOrder : gset nat → nat → list nat) (HcallOrder : ∀ s k c, c ∈ callOrder s k ↔ c ∈ s).

(** The maps exist, and no resource of the top queue was handled. *)
Record ready (rs : rotatorState) : Prop := {
  rd_selected : selected rs ⊆ calls;
  rd_top : ∃ th, topHandled rs = Some th ∧ NoDup (topQueue rs) ∧ ∀ k, k ∈ topQueue rs → k ∉ th;
  rd_dep : is_Some (depHandled rs)
}.
Definition keeps (rs rs' : rotatorState) : Prop := ready rs' ∧ topQueue rs' = topQueue rs.

Lemma keeps_trans rs1 rs2 rs3 : keeps rs1 rs2 → keeps rs2 rs3 → keeps rs1 rs3.
Proof. intros [_ E1] [H E2]. split; [done|congruence]. Qed.

Lemma addCall_keeps c rs : c ∈ calls → ready rs → post (addCall rot c rs) (keeps rs).
Proof.
  intros Hc Hr. unfold addCall. case_decide; [done|]. apply post_for.
  - intros d rs1 _ Hk. pose proof Hk as [[Hs (th & Hth & Ht) [dh Hd]] Hq]. destruct (_ || _); [done|]. rewrite Hd. cbn.
    split; [|done]. split; cbn; [done| |done]. exists th. done.
  - split; [|done]. destruct Hr as [Hs Ht Hd]. split; cbn; [set_solver|done|done].
Qed.

Lemma selectLoop_keeps set probability n : within set → 0 < probability → ∀ force rs r, ready rs →
  post (selectLoop rot n set probability force rs r) (λ x, keeps rs x.1).
Proof.
  intros Hset Hp. induction n as [|n IH]; intros force rs r Hr; cbn [selectLoop]; [done|].
  case_decide as Hne; [done|]. eapply (post_bind _ _ (λ _, True)).
  { destruct force; [done|]. destruct (intn_total probability r Hp) as (x & r' & -> & _). done. }
  intros [go r1] _. destruct go; [|done]. destruct (intn_total (Z.of_nat (length set)) r1) as (k & r2 & -> & Hk).
  { destruct set; [done|]. cbn [length]. lia. }
  cbn [rbind]. destruct (lookup_lt_is_Some_2 set (Z.to_nat k)) as [c Hc]; [lia|].
  rewrite <-(Z2Nat.id k), (index_lookup _ _ c Hc) by lia. cbn [rbind].
  eapply post_bind; [apply addCall_keeps; [by eapply Hset, list_elem_of_lookup_2|done]|].
  intros rs1 Hk1. eapply post_weaken; [apply IH, Hk1|]. intros [rs2 r3]. by apply keeps_trans.
Qed.

Lemma selectCalls_keeps set probability force rs r : within set → 2 ≤ probability → ready rs →
  post (selectCalls rot lfuel set probability force rs r) (λ x, keeps rs x.1).
Proof.
  intros Hset Hp Hr. unfold selectCalls. rewrite bool_decide_false by lia. rewrite andb_false_r.
  by apply selectLoop_keeps; [|lia|].
Qed.

Lemma swap_perm {A} i j (l : list A) : swap i j l ≡ₚ l.
Proof.
  unfold swap. destruct (l !! i) eqn:Hi; [|done]. destruct (l !! j) eqn:Hj; [|done]. by apply Permutation_insert_swap.
Qed.

Lemma Shuffle_perm {A} (l : list A) r : post (Shuffle l r) (λ x, x.1 ≡ₚ l).
Proof.
  unfold Shuffle. apply (post_for _ (λ x : list A * rng, x.1 ≡ₚ l)); [|done].
  intros i [l1 r1] _ Hl. destruct (intn_total (Z.of_nat i + 1) r1) as (j & r2 & -> & _); [lia|]. cbn in *. by rewrite swap_perm.
Qed.

Lemma resetQueues_ready rs r : resources rot ≠ [] → selected rs ⊆ calls →
  post (resetQueues rot lfuel keyOrder rs r) (λ x, ready x.1 ∧ topQueue x.1 ≠ []).
Proof.
  intros Hne Hs. destruct Hrot as [_ [_ Hnd Hsome] Hf _ Hn]. unfold resetQueues.
  rewrite (bool_decide_false (None ∈ _)) by (by rewrite HkeyOrder). rewrite andb_false_r.
  eapply post_bind; [apply Shuffle_perm|]. intros [queue r1] Hq. cbn in Hq.
  rewrite merge_sort_Permutation, HkeyOrder in Hq. eapply post_weaken; [apply selectCalls_keeps; [done|lia|]|].
  - split; cbn; [done| |done]. exists []. split_and!; [done|by rewrite Hq|by intros k _ ?%elem_of_nil].
  - intros [rs2 r2] [Hr Ht]. split; [done|]. cbn in Ht. cbn [fst]. rewrite Ht. intros ->. apply Permutation_nil_l in Hq.
    destruct (resources rot); [done|]. by rewrite fmap_cons in Hq.
Qed.

Lemma handleDep_ready rs r : depQueue rs ≠ [] → ready rs → post (handleDep rot lfuel rs r) (λ x, ready x.1).
Proof.
  intros Hne [Hs Ht Hd]. unfold handleDep. assert (0 < length (depQueue rs))%nat as Hpos by (destruct (depQueue rs); [done|cbn; lia]).
  destruct (intn_total (Z.of_nat (length (depQueue rs))) r) as (k & r1 & -> & Hk); [lia|]. cbn [rbind].
  destruct (lookup_lt_is_Some_2 (depQueue rs) (Z.to_nat k)) as [d Hd1]; [lia|].
  destruct (lookup_lt_is_Some_2 (depQueue rs) (length (depQueue rs) - 1)) as [d' Hd2]; [lia|].
  rewrite <-(Z2Nat.id k), (index_lookup _ _ d Hd1) by lia. cbn [rbind].
  replace (Z.of_nat (length (depQueue rs)) - 1) with (Z.of_nat (length (depQueue rs) - 1)) by lia.
  rewrite (index_lookup _ _ d' Hd2). cbn [rbind]. destruct (resInfo_in (resources rot) (Some d)) as [I0 I1 I2 _ _]; [apply Hrot|].
  eapply post_bind; [apply selectCalls_keeps; [done|lia|by split]|]. intros [rs1 r2] [Hr1 _].
  case_decide; [|done]. eapply post_bind; [apply selectCalls_keeps; [done|lia|done]|]. intros [rs2 r3] [Hr2 _].
  case_decide; [|done]. eapply post_weaken; [apply selectCalls_keeps; [done|lia|done]|]. by intros x [Hx _].
Qed.

Lemma handleTop_ready rs r : topQueue rs ≠ [] → ready rs → post (handleTop rot lfuel rs r) (λ x, ready x.1).
Proof.
  intros Hne [Hs (th & Hth & Hnd & Hno) Hd]. unfold handleTop. destruct (topQueue rs) as [|k q] eqn:Hq; [done|].
  cbn [index rbind]. apply NoDup_cons in Hnd as [Hkq Hnd]. unfold handled. rewrite Hth. cbn [default from_option].
  change (index (k :: q) 0) with (Ret k). cbn [rbind]. rewrite bool_decide_false by (apply Hno, list_elem_of_here). cbn [markHandled rbind tail].
  destruct (resInfo_in (resources rot) k) as [I0 I1 I2 U0 U1]; [apply Hrot|].
  eapply post_bind; [apply selectCalls_keeps; [done|lia|]|].
  { split; cbn; [done| |done]. exists (k :: th). split_and!; [done|done|]. intros k' Hk' [->|Hin]%elem_of_cons; [done|].
    by eapply Hno; [apply list_elem_of_further|]. }
  intros [rs1 r1] [Hr1 _]. do 3 (eapply post_bind; [apply selectCalls_keeps; [done|lia|done]|]; clear dependent r; intros [? r] [? _]).
  eapply post_weaken; [apply selectCalls_keeps; [done|lia|done]|]. by intros x [Hx _].
Qed.

Lemma supportable_mono (E F : gset nat) : (∀ c, supportable info E c → c ∈ F) → ∀ c, supportable info E c → supportable info F c.
Proof.
  intros HF. apply (supportable_mut info E (λ c, supportable info F c) (λ k, creatable info F k)).
  - intros c Hc Hr IH. constructor; [|exact IH]. apply HF. by constructor.
  - intros c k _ IH Hk. by econstructor.
Qed.

(** Calls whose needs are met by calls of the set. *)
Definition selfSupporting (s : gset nat) : Prop := ∀ c, c ∈ s → supportable info s c.

Lemma transitively_selects sel : sel ⊆ calls →
  post (let! '(s, _) := transitivelyEnabled info sel (callOrder sel) in Ret s) (λ s, s ⊆ calls ∧ selfSupporting s).
Proof.
  intros Hsel. destruct (transitively_exact info sel (callOrder sel)) as ([s ks] & -> & Hs & _); [by intros; apply HcallOrder|].
  cbn in *. split.
  - intros c Hc. apply Hsel. apply Hs in Hc. by destruct Hc.
  - intros c Hc. eapply (supportable_mono sel); [by intros; apply Hs|by apply Hs].
Qed.

Definition selectionOk (s : gset nat) : Prop :=
  s ⊆ calls ∧ goal rot ≤ Z.of_nat (size s) ∧ selfSupporting s.

Lemma rounds_ok n : resources rot ≠ [] → ∀ rs r,
  ready rs ∨ selected rs ⊆ calls ∧ topQueue rs = [] ∧ depQueue rs = [] →
  post (selectRounds rot lfuel keyOrder callOrder n rs r) (λ x, selectionOk x.1).
Proof.
  intros Hne. induction n as [|n IH]; intros rs r Hrs; cbn [selectRounds]; [done|].
  assert (selected rs ⊆ calls) as Hsel by (destruct Hrs as [[]|[]]; done). set (enough := _ || _).
  eapply (post_bind _ _ (λ s, s ⊆ calls ∧ (enough = true → selfSupporting s))).
  { destruct enough; [|done]. eapply post_weaken; [by apply transitively_selects|]. naive_solver. }
  intros s [Hs Hself]. destruct (enough && _) eqn:E.
  { apply andb_true_iff in E as [E1 E2%bool_decide_eq_true]. split_and!; [done|done|by apply Hself]. }
  cbn [depQueue topQueue]. set (rs1 := MkState _ _ _ _ _). apply (post_bind _ _ (λ x, ready x.1)).
  - destruct (decide (depQueue rs = [])) as [Hd|Hd].
    + eapply (post_bind _ _ (λ x, ready x.1 ∧ topQueue x.1 ≠ [])).
      * destruct (decide (topQueue rs = [])) as [Hq|Hq]; [by apply resetQueues_ready|]. destruct Hrs as [[H1 H2 H3]|(_ & Hq' & _)]; [|done]. split; [by split|done].
      * intros [rs2 r2] [Hr2 Hq2]. by apply handleTop_ready.
    + apply handleDep_ready; [done|]. destruct Hrs as [[H1 H2 H3]|(_ & _ & Hd')]; [by split|done].
  - intros [rs2 r2] Hr2. apply IH. by left.
Qed.

End select.
End calls.

(** C38. A rotation is safe to fuzz with: for a rotator that [MakeRotator] built from a set of
    calls, on a target that knows the parents of its resources, [Select] never panics, whatever
    it draws, and returns a subset of the calls; unless no call uses a resource at all, when all
    calls are returned, the subset has at least [goal] calls, between 1 and 200, and everything
    that its calls need as input can be created by calls of the subset itself. *)
Theorem rotation_sound calls range rot keyOrder callOrder lfuel n r :
  (∀ c, c ∈ range → c ∈ calls) →
  (∀ c d, c ∈ calls → d ∈ inputsOf info c ++ outputsOf info c → parentsKnown d) →
  (∀ l, keyOrder l ≡ₚ l) → (∀ s k c, c ∈ callOrder s k ↔ c ∈ s) →
  MakeRotator calls range = Ret rot →
  1 ≤ goal rot ≤ 200 ∧
  match Select rot lfuel keyOrder callOrder n r with
  | Ret (s, _) => s ⊆ calls ∧ if decide (resources rot = []) then s = calls else goal rot ≤ Z.of_nat (size s) ∧ selfSupporting s
  | Panic _ => False
  | OutOfFuel => True
  end.
Proof.
  intros Hrange Hknown Hkeys Hcalls Hmk. pose proof (makeRotator_ok calls Hknown range rot Hrange Hmk) as Hrot. split; [apply Hrot|].
  unfold Select. case_decide as Hne; [by rewrite (ro_calls _ _ Hrot)|].
  pose proof (rounds_ok calls Hknown rot lfuel Hrot keyOrder Hkeys callOrder Hcalls n Hne (MkState ∅ [] [] None None) r) as H.
  destruct (selectRounds _ _ _ _ _ _ _) as [[s r']|e|]; [|by apply H; right|done]. apply H. by right.
Qed.

End target.

(** ** An example *)

Definition exInfo : ResInfo :=
  match populateResourceCtors ExampleTarget.target 20 with Ret i => i | _ => MkInfo [] [] [] end.
Definition exCalls : gset nat := {[0%nat; 1%nat]}.

Definition exMake : res Rotator := MakeRotator ExampleTarget.target 20 exInfo (λ _, false) exCalls [1; 0]%nat.
Definition exRot : Rotator := match exMake with Ret rot => rot | _ => MkRotator ∅ [] ∅ [] 0 0 end.
Definition exSelect : res (gset nat * rng) := Select exInfo exRot 5 id (λ s _, elements s) 9 [1; 5; 3; 3; 1; 4; 7].

Lemma exMake_ok : exMake = Ret exRot.
Proof. vm_compute. reflexivity. Qed.
Lemma exSelect_ok : ∃ s r, exSelect = Ret (s, r).
Proof. eexists _, _. vm_compute. reflexivity. Qed.

Lemma exKnown c d : c ∈ exCalls → d ∈ inputsOf exInfo c ++ outputsOf exInfo c → parentsKnown ExampleTarget.target d.
Proof.
  intros Hc Hd k Hk. assert (Forall (λ d, removelast (resKind d) = []) (inputsOf exInfo c ++ outputsOf exInfo c)) as Hall.
  { unfold exCalls in Hc. apply elem_of_union in Hc as [->%elem_of_singleton| ->%elem_of_singleton];
      vm_compute; repeat constructor. }
  eapply Forall_forall in Hall; [|exact Hd]. rewrite Hall in Hk. by apply elem_of_nil in Hk.
Qed.

Lemma rotation_sound_witness : resources exRot ≠ [] ∧ 1 ≤ goal exRot ≤ 200 ∧
  ∃ s r, exSelect = Ret (s, r) ∧ s ⊆ exCalls ∧ goal exRot ≤ Z.of_nat (size s) ∧ selfSupporting exInfo s.
Proof.
  destruct (rotation_sound ExampleTarget.target 20 exInfo (λ _, false) exCalls [1; 0]%nat exRot id (λ s _, elements s) 5 9
    [1; 5; 3; 3; 1; 4; 7]) as [Hg H].
  - intros c Hc. rewrite !elem_of_cons in Hc. unfold exCalls. rewrite elem_of_union, !elem_of_singleton.
    destruct Hc as [Hc|[Hc|Hc]]; [right; exact Hc|left; exact Hc|]. apply elem_of_nil in Hc. destruct Hc.
  - exact exKnown.
  - intros l. reflexivity.
  - intros s k c. apply elem_of_elements.
  - exact exMake_ok.
  - assert (resources exRot ≠ []) as Hne by (vm_compute; discriminate). split; [exact Hne|]. split; [exact Hg|].
    destruct exSelect_ok as (s & r & E). exists s, r. split; [exact E|]. unfold exSelect in E. rewrite E in H.
    rewrite decide_False in H by exact Hne. exact H.
Defined.

End Rotation.
