(* ===== verification/Prio.v ===== *)
(** * Prio: call-to-call priorities and the choice of calls (prog/prio.go)

    Priorities are 32-bit integers; every operation on them wraps around as in Go.  Calls
    are identified by their [ID], their index in [Syscalls]. *)

From S2P Require Import Prelude Rand Types Prog ExampleTarget TypeWalk.
Import Types Prog TypeWalk.

Module Prio.

Definition int32 (z : Z) : Z := wrapS 32 z.

Definition prioLow : Z := 10.
Definition prioHigh : Z := 1000.

Record weights := MkWeights { wCall : Z; wIn : Z; wInout : Z }.

Notation usage := (gmap string (gmap Z weights)) (only parsing).

Definition noteUsage (uses : usage) (c : Syscall) (weight : Z) (dir : Dir) (id : string) : usage :=
  let m := default ∅ (uses !! id) in
  let old := default (MkWeights 0 0 0) (m !! ID c) in
  let in' := if decide (dir ≠ DirOut ∧ wIn old < weight) then weight else wIn old in
  let inout' := if decide (wInout old < weight) then weight else wInout old in
  <[id := <[ID c := MkWeights (ID c) in' inout']> m]> uses.

(** The loop over the kinds of a resource: "res-k0", "res-k0-k1" and so on; the last one
    weighs more. *)
Fixpoint noteKinds (uses : usage) (c : Syscall) (dir : Dir) (str : string) (kinds : list string) : usage :=
  match kinds with
  | [] => uses
  | k :: kinds =>
    let str := (str +:+ "-" +:+ k)%string in
    let w := if decide (kinds = []) then 10 else 2 in
    noteKinds (noteUsage uses c w dir str) c dir str kinds
  end.

Section target.
Context (target : Target) (fuel : nat).
Notation ts := (typeRefs target).

(** The callback of [calcResourceUsage]. *)
Definition usageVisit (c : Syscall) (t : Typ) (ctx : TypeCtx) (uses : usage) : res (usage * bool) :=
  match t with
  | ResourceType _ _ desc =>
    Ret (if decide (resName desc ∈ AuxResources target)
         then noteUsage uses c 1 (ctxDir ctx) ("res" +:+ resName desc)%string
         else noteKinds uses c (ctxDir ctx) "res" (resKind desc), false)
  | PtrType _ elem _ =>
    let! e := typeAt ts elem in
    match e with
    | StructType _ _ _ _ | UnionType _ _ =>
      Ret (noteUsage uses c 10 (ctxDir ctx) ("ptrto-" +:+ Name e)%string, false)
    | ArrayType _ elem' _ _ _ =>
      let! e' := typeAt ts elem' in
      Ret (noteUsage uses c 10 (ctxDir ctx) ("ptrto-" +:+ Name e')%string, false)
    | _ => Ret (uses, false)
    end
  | BufferType _ desc =>
    Ret (match bufKind desc with
         | BufferBlobRand | BufferBlobRange | BufferText | BufferCompressed => uses
         | BufferString | BufferGlob =>
           if decide (bufSubKind desc ≠ "") then noteUsage uses c 2 (ctxDir ctx) ("str-" +:+ bufSubKind desc)%string
           else uses
         | BufferFilename => noteUsage uses c 10 DirIn "filename"
         end, false)
  | VmaType _ _ _ => Ret (noteUsage uses c 5 (ctxDir ctx) "vma", false)
  | _ => Ret (uses, false)
  end.

Definition calcResourceUsage : res usage := ForeachType ts fuel (Syscalls target) usageVisit ∅.

(** ** Matrices of priorities *)

Definition zeroPrios : list (list Z) :=
  let n := length (Syscalls target) in replicate n (replicate n 0).

(** [prios[i][j] = f(prios[i][j])] *)
Definition update (prios : list (list Z)) (i j : Z) (f : Z → Z) : res (list (list Z)) :=
  let! row := index prios i in
  let! x := index row j in
  Ret (<[Z.to_nat i := <[Z.to_nat j := int32 (f x)]> row]> prios).

Definition normalizeRow (prio : list Z) : list Z :=
  let max := foldl (λ m p, if decide (m < p) then p else m) 1 prio in
  (λ p, int32 (prioLow + Z.quot (int32 (p * (prioHigh - prioLow))) max)) <$> prio.

Definition normalizePrio (prios : list (list Z)) : list (list Z) := normalizeRow <$> prios.

(** The sums over the pairs of calls that use the same thing.  The additions commute, so
    the order in which the maps are visited does not matter. *)
Definition staticCounts (uses : usage) : res (list (list Z)) :=
  for_list (λ '(_, ws),
    for_list (λ '(_, w0),
      for_list (λ '(_, w1) prios,
        if decide (wCall w0 = wCall w1) then Ret prios
        else update prios (wCall w0) (wCall w1) (λ p,
          p + int32 (int32 (Z.quot (int32 (int32 (wInout w0 * wIn w1) * 3)) 2) + int32 (wInout w0 * wInout w1))))
        (map_to_list ws)) (map_to_list ws)) (map_to_list uses) zeroPrios.

(** The priority of a call with respect to itself. *)
Definition selfPrio (prios : list (list Z)) : res (list (list Z)) :=
  for_list (λ i prios, update prios i i (λ _, Z.quot (prioHigh * 9) 10)) (Z.of_nat <$> seq 0 (length prios)) prios.

Definition calcStaticPriorities : res (list (list Z)) :=
  let! uses := calcResourceUsage in
  let! prios := staticCounts uses in
  selfPrio (normalizePrio prios).

(** How often a call occurs behind another one in the same program. *)
Fixpoint countPairs (calls : list Call) (prios : list (list Z)) : res (list (list Z)) :=
  match calls with
  | [] => Ret prios
  | c0 :: calls =>
    let! prios := for_list (λ c1 prios, update prios (ID (Meta c0)) (ID (Meta c1)) (λ p, p + 1)) calls prios in
    countPairs calls prios
  end.
Definition dynamicCounts (corpus : list (list Call)) : res (list (list Z)) :=
  for_list countPairs corpus zeroPrios.

Definition calcDynamicPrio (corpus : list (list Call)) : res (list (list Z)) :=
  let! prios := dynamicCounts corpus in Ret (normalizePrio prios).

(** [dst[j] = dst[j] * p / prioHigh] *)
Definition scale (dst p : Z) : Z := int32 (Z.quot (int32 (dst * p)) prioHigh).

Definition CalculatePriorities (corpus : list (list Call)) : res (list (list Z)) :=
  let! static := calcStaticPriorities in
  if decide (corpus = []) then Ret static
  else
    let! dynamic := calcDynamicPrio corpus in
    Ret (zip_with (zip_with scale) static dynamic).

(** ** Choice tables *)

Record ChoiceTable := MkChoice {
  runs : list (option (list Z));
  ctCalls : list Z;
  noGenerateCalls : gset Z
}.

Definition metaOf (id : Z) : res Syscall := index (Syscalls target) id.

(** The calls of a set that are enabled and can be generated, and those that cannot. *)
Definition splitEnabled (enabled : list Z) : res (gset Z * gset Z) :=
  for_list (λ id '(enabledCalls, noGenerate),
    let! c := metaOf id in
    Ret (if NoGenerate (Attrs c) then (enabledCalls, {[id]} ∪ noGenerate)
         else if Disabled (Attrs c) then (enabledCalls, noGenerate)
         else ({[id]} ∪ enabledCalls, noGenerate)))
    enabled (∅, ∅).

(** The cumulated sums of a row of priorities, over the enabled calls. *)
Fixpoint runRow (enabledCalls : gset Z) (j sum : Z) (prios : list Z) : list Z :=
  match prios with
  | [] => []
  | p :: prios =>
    let sum := if decide (j ∈ enabledCalls) then int32 (sum + p) else sum in
    sum :: runRow enabledCalls (j + 1) sum prios
  end.

Definition BuildChoiceTable (corpus : list (list Call)) (enabled : option (gset Z)) : res ChoiceTable :=
  let all := Z.of_nat <$> seq 0 (length (Syscalls target)) in
  let! '(enabledCalls, noGenerate) :=
    splitEnabled (match enabled with Some e => elements e | None => all end) in
  let generatable := merge_sort Z.le (elements enabledCalls) in
  if decide (generatable = []) then Panic "no syscalls enabled and generatable"
  else if decide (Forall (λ c, ID (Meta c) ∈ enabledCalls ∨ ID (Meta c) ∈ noGenerate) (concat corpus)) then
    let! prios := CalculatePriorities corpus in
    Ret (MkChoice
      (imap (λ i row, if decide (Z.of_nat i ∈ enabledCalls) then Some (runRow enabledCalls 0 0 row) else None) prios)
      generatable noGenerate)
  else Panic "disabled syscall".

Definition Generatable (ct : ChoiceTable) (call : Z) : res bool :=
  let! run := index (runs ct) call in Ret (match run with Some _ => true | None => false end).

Definition Enabled (ct : ChoiceTable) (call : Z) : res bool :=
  let! g := Generatable ct call in Ret (g || bool_decide (call ∈ noGenerateCalls ct)).

(** The call selected in a row by the draw [k]. *)
Definition chooseIn (run : list Z) (k : Z) : Z :=
  let x := int32 (k + 1) in
  sortSearch (Z.of_nat (length run)) (λ i, bool_decide (x ≤ nth (Z.to_nat i) run 0)).

Definition choose (ct : ChoiceTable) (bias : Z) (r : rng) : res (Z * rng) :=
  let! '(bias, r) :=
    if decide (bias < 0) then
      let! '(k, r) := intn (Z.of_nat (length (ctCalls ct))) r in
      let! c := index (ctCalls ct) k in Ret (c, r)
    else Ret (bias, r) in
  let! run := index (runs ct) bias in
  match run with
  | None => Panic "disabled or non-generatable syscall"
  | Some run =>
    let! total := index run (Z.of_nat (length run) - 1) in
    let! '(k, r) := intn total r in
    let c := chooseIn run k in
    let! g := Generatable ct c in
    if (g : bool) then Ret (c, r) else Panic "selected disabled or non-generatable syscall"
  end.

(** ** Bounds of priorities *)

Lemma int32_small z : - 2 ^ 31 ≤ z < 2 ^ 31 → int32 z = z.
Proof. intros H. unfold int32, wrapS. rewrite Z.mod_small by lia. lia. Qed.

(** Counts that can be scaled without overflow. *)
Definition small (p : Z) : Prop := 0 ≤ p ≤ 2169175.
Definition inRange (p : Z) : Prop := prioLow ≤ p ≤ prioHigh.

Lemma foldl_max l : ∀ m, m ≤ foldl (λ m p, if decide (m < p) then p else m) m l ∧
  Forall (λ p, p ≤ foldl (λ m p, if decide (m < p) then p else m) m l) l ∧
  (foldl (λ m p, if decide (m < p) then p else m) m l = m ∨ foldl (λ m p, if decide (m < p) then p else m) m l ∈ l).
Proof.
  induction l as [|p l IH]; intros m; simpl; [split_and!; [lia|constructor|by left]|].
  destruct (IH (if decide (m < p) then p else m)) as (H1 & H2 & H3).
  split_and!; [case_decide; lia|constructor; [case_decide; lia|done]|].
  rewrite elem_of_cons. case_decide; destruct H3 as [->|H3]; auto.
Qed.

Definition rowMax (row : list Z) : Z := foldl (λ m p, if decide (m < p) then p else m) 1 row.

Lemma normalizeRow_eq row :
  Forall small row → normalizeRow row = (λ p, prioLow + (p * 990) `div` rowMax row) <$> row ∧
    Forall inRange (normalizeRow row).
Proof.
  intros Hs. destruct (foldl_max row 1) as (H1 & H2 & H3).
  assert (∀ p, p ∈ row → int32 (prioLow + Z.quot (int32 (p * (prioHigh - prioLow))) (rowMax row)) =
    prioLow + (p * 990) `div` rowMax row ∧ inRange (prioLow + (p * 990) `div` rowMax row)) as Hp.
  { intros p Hp. rewrite Forall_forall in Hs, H2. pose proof (Hs p Hp) as Hsm. unfold small in Hsm.
    pose proof (H2 p Hp) as Hle. fold (rowMax row) in Hle, H1.
    change (prioHigh - prioLow) with 990. rewrite (int32_small (p * 990)) by lia.
    rewrite Z.quot_div_nonneg by lia.
    assert (0 ≤ (p * 990) `div` rowMax row ≤ 990) as Hb.
    { split; [apply Z.div_pos; lia|]. apply Z.div_le_upper_bound; nia. }
    unfold inRange, prioLow, prioHigh. rewrite int32_small by lia. split; [done|lia]. }
  unfold normalizeRow. fold (rowMax row). split.
  - apply list_fmap_ext. intros i p Hi. apply Hp. by eapply list_elem_of_lookup_2.
  - apply Forall_fmap, Forall_forall. intros p Hin. simpl. destruct (Hp p Hin) as [-> H]. done.
Qed.

(** ** Matrices *)

Definition square (n : nat) (m : list (list Z)) : Prop := length m = n ∧ Forall (λ row, length row = n) m.

Lemma square_insert n m i j x row :
  square n m → m !! i = Some row → square n (<[i := <[j := x]> row]> m).
Proof.
  intros [Hl Hr] Hi. split; [by rewrite length_insert|]. apply Forall_insert; [done|].
  rewrite length_insert. by eapply Forall_lookup_1 in Hr.
Qed.

Lemma index_inv {A} (l : list A) i x : index l i = Ret x → 0 ≤ i ∧ l !! Z.to_nat i = Some x.
Proof. unfold index. case_decide; [|done]. destruct (l !! _) eqn:E; [|done]. intros [= <-]. done. Qed.

Lemma update_square n m i j f m' : square n m → update m i j f = Ret m' → square n m'.
Proof.
  unfold update. intros Hm H. unbind. apply index_inv in E as [_ E]. by apply square_insert.
Qed.

Lemma for_list_square {A} n (f : A → list (list Z) → res (list (list Z))) l : ∀ m m',
  (∀ x m m', square n m → f x m = Ret m' → square n m') → square n m → for_list f l m = Ret m' → square n m'.
Proof.
  induction l as [|x l IH]; intros m m' Hf Hm H; simpl in H; [by injection H as <-|].
  unbind. eapply IH; [done| |done]. by eapply Hf.
Qed.

Lemma square_zero : square (length (Syscalls target)) zeroPrios.
Proof.
  unfold zeroPrios. split; [by rewrite length_replicate|]. apply Forall_replicate. by rewrite length_replicate.
Qed.

Lemma staticCounts_square uses m : staticCounts uses = Ret m → square (length (Syscalls target)) m.
Proof.
  apply for_list_square; [|apply square_zero]. intros [id ws] m1 m1' H1. apply for_list_square; [|done].
  intros [k0 w0] m2 m2' H2. apply for_list_square; [|done]. intros [k1 w1] m3 m3' H3.
  case_decide; [by intros [= <-]|]. by apply update_square.
Qed.

Lemma countPairs_square n calls : ∀ m m', square n m → countPairs calls m = Ret m' → square n m'.
Proof.
  induction calls as [|c calls IH]; intros m m' Hm H; simpl in H; [by injection H as <-|].
  unbind. eapply IH; [|done]. eapply for_list_square; [|exact Hm|exact E].
  intros c1 m1 m1'. apply update_square.
Qed.

Lemma dynamicCounts_square corpus m : dynamicCounts corpus = Ret m → square (length (Syscalls target)) m.
Proof. apply for_list_square; [|apply square_zero]. intros calls m1 m1'. apply countPairs_square. Qed.

Lemma normalizePrio_square n m : square n m → square n (normalizePrio m).
Proof.
  intros [Hl Hr]. unfold normalizePrio. split; [by rewrite length_fmap|]. apply Forall_fmap.
  eapply Forall_impl; [exact Hr|]. intros row Hrow. simpl. unfold normalizeRow. by rewrite length_fmap.
Qed.

(** All entries satisfy [P], and those on the diagonal [Q]. *)
Definition entries (P : Z → Prop) (m : list (list Z)) : Prop :=
  ∀ i j row p, m !! i = Some row → row !! j = Some p → P p.
Definition diagonal (Q : Z → Prop) (m : list (list Z)) (k : nat) : Prop :=
  ∀ i row p, (i < k)%nat → m !! i = Some row → row !! i = Some p → Q p.

Lemma entries_Forall P m : Forall (Forall P) m ↔ entries P m.
Proof.
  split.
  - intros H i j row p Hi Hj. eapply Forall_lookup_1 in Hi; [|exact H]. by eapply Forall_lookup_1 in Hi.
  - intros H. apply Forall_lookup. intros i row Hi. apply Forall_lookup. intros j p Hj. by eapply H.
Qed.

Lemma selfPrio_spec n m m' :
  square n m → entries inRange m → selfPrio m = Ret m' →
  square n m' ∧ entries inRange m' ∧ diagonal (λ p, p = 900) m' n.
Proof.
  intros Hm He H. unfold selfPrio in H. pose proof (proj1 Hm) as Hn. rewrite Hn in H.
  enough (∀ k m1 m2, square n m1 → entries inRange m1 → diagonal (λ p, p = 900) m1 k → (k ≤ n)%nat →
    for_list (λ i prios, update prios i i (λ _, Z.quot (prioHigh * 9) 10)) (Z.of_nat <$> seq k (n - k)) m1 = Ret m2 →
    square n m2 ∧ entries inRange m2 ∧ diagonal (λ p, p = 900) m2 n) as Hk.
  { apply (Hk 0%nat m); [done|done| |lia|by rewrite Nat.sub_0_r]. intros i row p Hi. lia. }
  clear. intros k. remember (n - k)%nat as d eqn:Ed. revert k Ed. induction d as [|d IH]; intros k Ed m1 m2 Hm He Hd Hk H; simpl in H.
  { injection H as <-. by replace n with k in * by lia. }
  apply bind_Ret in H as (m3 & Hu & H). apply (IH (S k)) in H; [done|lia|..].
  - by eapply update_square.
  - unfold update in Hu. unbind. apply index_inv in E as [_ E]. rewrite Nat2Z.id in *.
    intros i j row p Hi Hj. apply list_lookup_insert_Some in Hi as [(<- & <- & _)|[_ Hi]]; [|by eapply He].
    apply list_lookup_insert_Some in Hj as [(<- & <- & _)|[_ Hj]]; [|by eapply He].
    rewrite int32_small by done. done.
  - unfold update in Hu. unbind. rewrite Nat2Z.id in *.
    intros i row p Hi Hr Hp. apply list_lookup_insert_Some in Hr as [(<- & <- & _)|[Hne Hr]].
    + apply list_lookup_insert_Some in Hp as [(_ & <- & _)|[? _]]; [by rewrite int32_small by done|done].
    + apply (Hd i row p); [lia|done|done].
  - lia.
Qed.

(** No priority overflows while it is computed. *)
Definition noOverflow (corpus : list (list Call)) : Prop :=
  (∀ uses m, calcResourceUsage = Ret uses → staticCounts uses = Ret m → entries small m) ∧
  (∀ m, dynamicCounts corpus = Ret m → entries small m).

Lemma normalizePrio_range n m :
  square n m → entries small m → square n (normalizePrio m) ∧ entries inRange (normalizePrio m).
Proof.
  intros Hm Hs%entries_Forall. split; [by apply normalizePrio_square|]. apply entries_Forall.
  unfold normalizePrio. apply Forall_fmap. eapply Forall_impl; [exact Hs|].
  intros row Hrow. simpl. by apply normalizeRow_eq.
Qed.

Lemma scale_range d p : inRange d → inRange p → 0 ≤ scale d p ≤ 1000 ∧ (d = 900 → 9 ≤ scale d p).
Proof.
  unfold inRange, scale, prioLow, prioHigh. intros Hd Hp. rewrite (int32_small (d * p)) by nia.
  rewrite Z.quot_div_nonneg by nia.
  assert (0 ≤ (d * p) `div` 1000 ≤ 1000) as Hb.
  { split; [apply Z.div_pos; nia|apply Z.div_le_upper_bound; nia]. }
  rewrite int32_small by lia. split; [done|]. intros ->. apply Z.div_le_lower_bound; lia.
Qed.

Lemma zip_entries (f : Z → Z → Z) m1 m2 i j row p :
  zip_with (zip_with f) m1 m2 !! i = Some row → row !! j = Some p →
  ∃ r1 r2 x y, m1 !! i = Some r1 ∧ m2 !! i = Some r2 ∧ r1 !! j = Some x ∧ r2 !! j = Some y ∧ p = f x y.
Proof.
  intros Hi Hj. apply lookup_zip_with_Some in Hi as (r1 & r2 & -> & H1 & H2).
  apply lookup_zip_with_Some in Hj as (x & y & -> & Hx & Hy). eauto 10.
Qed.

Lemma zip_square n (f : Z → Z → Z) m1 m2 : square n m1 → square n m2 → square n (zip_with (zip_with f) m1 m2).
Proof.
  intros [Hl1 Hr1] [Hl2 Hr2]. split; [rewrite length_zip_with; lia|]. apply Forall_lookup.
  intros i row Hi. apply lookup_zip_with_Some in Hi as (r1 & r2 & -> & H1 & H2). rewrite length_zip_with.
  eapply Forall_lookup_1 in H1; [|exact Hr1]. eapply Forall_lookup_1 in H2; [|exact Hr2]. simpl in *. lia.
Qed.

Lemma priorities_spec corpus m :
  noOverflow corpus → CalculatePriorities corpus = Ret m →
  let n := length (Syscalls target) in
  square n m ∧ entries (λ p, 0 ≤ p ≤ 1000) m ∧ diagonal (λ p, 9 ≤ p) m n.
Proof.
  intros [Hst Hdy] H. unfold CalculatePriorities, calcStaticPriorities in H. apply bind_Ret in H as (st & E & H).
  apply bind_Ret in E as (uses & Eu & E). apply bind_Ret in E as (cnt & Ec & E).
  destruct (normalizePrio_range _ cnt (staticCounts_square _ _ Ec) (Hst _ _ Eu Ec)) as [Hsq He].
  destruct (selfPrio_spec _ _ _ Hsq He E) as (Hsq' & He' & Hd). case_decide.
  - injection H as <-. split_and!; [done| |].
    + intros i j row p Hi Hj. pose proof (He' i j row p Hi Hj) as Hr. unfold inRange, prioLow, prioHigh in Hr. lia.
    + intros i row p Hi Hr Hp. rewrite (Hd i row p Hi Hr Hp). lia.
  - unfold calcDynamicPrio in H. apply bind_Ret in H as (dyn & E' & H). injection H as <-.
    apply bind_Ret in E' as (dc & Ed & E'). injection E' as <-.
    destruct (normalizePrio_range _ dc (dynamicCounts_square _ _ Ed) (Hdy _ Ed)) as [Hsqd Hed].
    split_and!; [by apply zip_square| |].
    + intros i j row p Hi Hj. destruct (zip_entries _ _ _ _ _ _ _ Hi Hj)
        as (r1 & r2 & x & y & H1 & H2 & Hx & Hy & ->). apply scale_range; [by eapply He'|by eapply Hed].
    + intros i row p Hi Hr Hp. destruct (zip_entries _ _ _ _ _ _ _ Hr Hp)
        as (r1 & r2 & x & y & H1 & H2 & Hx & Hy & ->).
      apply scale_range; [by eapply He'|by eapply Hed|by eapply Hd].
Qed.

(** ** Rows of the choice table *)

Fixpoint weightsFrom (e : gset Z) (j : Z) (row : list Z) : list Z :=
  match row with
  | [] => []
  | p :: row => (if decide (j ∈ e) then p else 0) :: weightsFrom e (j + 1) row
  end.

Lemma length_weightsFrom e row : ∀ j, length (weightsFrom e j row) = length row.
Proof. induction row as [|p row IH]; intros j; simpl; [done|by rewrite IH]. Qed.

Lemma length_runRow e row : ∀ j s, length (runRow e j s row) = length row.
Proof. induction row as [|p row IH]; intros j s; simpl; [done|by rewrite IH]. Qed.

Lemma weightsFrom_lookup e row : ∀ j (k : nat) p,
  row !! k = Some p → weightsFrom e j row !! k = Some (if decide (j + Z.of_nat k ∈ e) then p else 0).
Proof.
  induction row as [|q row IH]; intros j [|k] p Hk; try done; simpl in *.
  - injection Hk as ->. by rewrite Z.add_0_r.
  - rewrite (IH _ _ _ Hk). by replace (j + 1 + Z.of_nat k) with (j + Z.of_nat (S k)) by lia.
Qed.

Lemma weightsFrom_nonneg e row : ∀ j, Forall (λ p, 0 ≤ p ≤ 1000) row → Forall (λ p, 0 ≤ p) (weightsFrom e j row).
Proof.
  induction row as [|p row IH]; intros j H; simpl; [constructor|]. apply Forall_cons in H as [Hp H].
  constructor; [case_decide; lia|by apply IH].
Qed.

Lemma weightsFrom_sum e row : ∀ j, Forall (λ p, 0 ≤ p ≤ 1000) row →
  sumZ (weightsFrom e j row) ≤ 1000 * Z.of_nat (length row).
Proof.
  induction row as [|p row IH]; intros j H; simpl; [lia|]. apply Forall_cons in H as [Hp H].
  specialize (IH (j + 1) H). case_decide; lia.
Qed.

Lemma runRow_lookup e row : ∀ j s (k : nat),
  Forall (λ p, 0 ≤ p ≤ 1000) row → 0 ≤ s → s + 1000 * Z.of_nat (length row) < 2 ^ 31 → (k < length row)%nat →
  runRow e j s row !! k = Some (s + sumZ (take (S k) (weightsFrom e j row))).
Proof.
  induction row as [|p row IH]; intros j s k H Hs Hb Hk; simpl in *; [lia|]. apply Forall_cons in H as [Hp H].
  set (w := if decide (j ∈ e) then p else 0).
  assert ((if decide (j ∈ e) then int32 (s + p) else s) = s + w) as ->.
  { unfold w. case_decide; [apply int32_small; lia|lia]. }
  assert (0 ≤ w ≤ 1000) by (unfold w; case_decide; lia).
  destruct k as [|k].
  - rewrite take_0. transitivity (Some (s + w)); [done|]. f_equal. simpl. lia.
  - transitivity (runRow e (j + 1) (s + w) row !! k); [done|].
    rewrite (IH (j + 1) (s + w) k) by (lia || done). f_equal. lia.
Qed.

Section row.
Context (e : gset Z) (row : list Z) (i : nat) (p0 : Z).
Context (Hrow : Forall (λ p, 0 ≤ p ≤ 1000) row) (Hlen : Z.of_nat (length row) ≤ 8192).
Context (Hi : row !! i = Some p0) (Hp0 : 0 < p0) (Hie : Z.of_nat i ∈ e).
Let run := runRow e 0 0 row.
Let ws := weightsFrom e 0 row.

Lemma row_total : last run = Some (sumZ ws) ∧ 0 < sumZ ws < 2 ^ 31.
Proof.
  pose proof (lookup_lt_Some _ _ _ Hi) as Hlt.
  pose proof (weightsFrom_lookup e row 0 i p0 Hi) as Hw. rewrite decide_True in Hw by done.
  pose proof (weightsFrom_nonneg e row 0 Hrow) as Hnn. fold ws in Hw, Hnn.
  pose proof (sumZ_take_S _ _ _ Hw) as HS. pose proof (sumZ_nonneg _ (Forall_take _ i _ Hnn)).
  pose proof (sumZ_take_le ws (S i) (length ws) Hnn) as Hle. rewrite firstn_all in Hle.
  assert (length ws = length row) as Hlw by apply length_weightsFrom.
  assert (last run = Some (sumZ ws)) as Hlast.
  { unfold run. rewrite last_lookup, length_runRow.
    rewrite runRow_lookup by (done || lia). f_equal. rewrite firstn_all2 by (fold ws; lia). done. }
  split; [done|]. split; [lia|].
  pose proof (weightsFrom_sum e row 0 Hrow). fold ws in H0. lia.
Qed.

Lemma chooseIn_sums k : 0 ≤ k < sumZ ws →
  (∃ j : nat, chooseIn run k = Z.of_nat j ∧ (j < length row)%nat ∧ Z.of_nat j ∈ e) ∧
  ∀ j : nat, (j < length row)%nat →
    chooseIn run k = Z.of_nat j ↔ sumZ (take j ws) - 1 < k ≤ sumZ (take (S j) ws) - 1.
Proof.
  intros Hk. destruct row_total as [_ Ht]. pose proof (weightsFrom_nonneg e row 0 Hrow) as Hnn. fold ws in Hnn.
  assert (length ws = length row) as Hlw by apply length_weightsFrom.
  assert (ws ≠ []) as Hne by (intros E; rewrite E in Ht; simpl in Ht; lia).
  assert (∀ j : nat, (j < length ws)%nat →
    bool_decide (k + 1 ≤ nth (Z.to_nat (Z.of_nat j)) run 0) = bool_decide (k + 1 ≤ sumZ (take (S j) ws))) as Hf.
  { intros j Hj. rewrite Nat2Z.id. unfold run.
    rewrite (nth_lookup_Some _ _ _ _ (runRow_lookup e row 0 0 j Hrow ltac:(lia) ltac:(lia) ltac:(lia))).
    rewrite Z.add_0_l. done. }
  unfold chooseIn. rewrite int32_small by lia. replace (length run) with (length ws) by (unfold run; by rewrite length_runRow).
  assert (∀ j : nat, (j < length row)%nat → sortSearch (Z.of_nat (length ws))
      (λ i, bool_decide (k + 1 ≤ nth (Z.to_nat i) run 0)) = Z.of_nat j ↔
      sumZ (take j ws) - 1 < k ≤ sumZ (take (S j) ws) - 1) as Hiff.
  { intros j Hj. rewrite (search_sums_iff ws (k + 1) (λ i, bool_decide (k + 1 ≤ nth (Z.to_nat i) run 0)) Hnn ltac:(lia) Hne Hf)
      by (by rewrite Hlw). case_decide as E; [|lia]. subst. rewrite take_0. change (sumZ []) with 0. lia. }
  split; [|done].
  destruct (search_sums ws (k + 1) (λ i, bool_decide (k + 1 ≤ nth (Z.to_nat i) run 0)) Hnn ltac:(lia) Hne Hf) as (Hr & _).
  set (c := sortSearch _ _) in *. exists (Z.to_nat c). split_and!; [lia|lia|].
  destruct (lookup_lt_is_Some_2 row (Z.to_nat c)) as [p Hp]; [lia|].
  pose proof (weightsFrom_lookup e row 0 _ _ Hp) as Hw. fold ws in Hw.
  pose proof (sumZ_take_S _ _ _ Hw) as HS. destruct (proj1 (Hiff (Z.to_nat c) ltac:(lia)) ltac:(lia)) as [H1 H2].
  rewrite Z.add_0_l in HS. case_decide; [done|]. lia.
Qed.

(** As many draws select a call as its priority says. *)
Lemma chooseIn_count (j : nat) p : row !! j = Some p →
  length (filter (λ k, chooseIn run k = Z.of_nat j) (seqZ 0 (sumZ ws))) =
  Z.to_nat (if decide (Z.of_nat j ∈ e) then p else 0).
Proof.
  intros Hj. pose proof (lookup_lt_Some _ _ _ Hj). destruct row_total as [_ Ht].
  pose proof (weightsFrom_nonneg e row 0 Hrow) as Hnn. fold ws in Hnn.
  assert (length ws = length row) as Hlw by apply length_weightsFrom.
  rewrite (filter_length_ext _ (λ k, sumZ (take j ws) - 1 < k ≤ sumZ (take (S j) ws) - 1)).
  2:{ intros k Hk%elem_of_seqZ. apply chooseIn_sums; [lia|done]. }
  pose proof (weightsFrom_lookup e row 0 _ _ Hj) as Hw. fold ws in Hw. rewrite Z.add_0_l in Hw.
  pose proof (sumZ_take_S _ _ _ Hw) as HS. pose proof (sumZ_nonneg _ (Forall_take _ j _ Hnn)).
  pose proof (sumZ_take_le ws j (S j) Hnn ltac:(lia)). pose proof (sumZ_take_le ws (S j) (length ws) Hnn ltac:(lia)) as Hle.
  rewrite firstn_all in Hle. rewrite count_interval by lia. f_equal. lia.
Qed.
End row.

(** ** The choice of a call *)

Lemma splitEnabled_range ids e ng :
  splitEnabled ids = Ret (e, ng) → ∀ id, id ∈ e → 0 ≤ id < Z.of_nat (length (Syscalls target)).
Proof.
  unfold splitEnabled.
  assert (∀ st st' : gset Z * gset Z, (∀ id, id ∈ st.1 → 0 ≤ id < Z.of_nat (length (Syscalls target))) →
    for_list (λ id '(enabledCalls, noGenerate),
      let! c := metaOf id in
      Ret (if NoGenerate (Attrs c) then (enabledCalls, {[id]} ∪ noGenerate)
           else if Disabled (Attrs c) then (enabledCalls, noGenerate)
           else ({[id]} ∪ enabledCalls, noGenerate))) ids st = Ret st' →
    ∀ id, id ∈ st'.1 → 0 ≤ id < Z.of_nat (length (Syscalls target))) as H.
  { induction ids as [|id0 ids IH]; intros [e0 ng0] st' H0 H; simpl in H; [by injection H as <-|].
    apply bind_Ret in H as (st1 & H1 & H). apply bind_Ret in H1 as (c & Hc & H1). injection H1 as <-.
    apply index_inv in Hc as [Hge Hc]. apply lookup_lt_Some in Hc.
    eapply IH; [|exact H]. destruct (NoGenerate _); [done|]. destruct (Disabled _); [done|].
    simpl. intros id [->%elem_of_singleton|Hid]%elem_of_union; [lia|by apply H0]. }
  intros H'. apply (H (∅, ∅) (e, ng)); [|exact H']. intros id Hid. by apply elem_of_empty in Hid.
Qed.

Lemma table_spec corpus enabled ct :
  BuildChoiceTable corpus enabled = Ret ct →
  ∃ (e : gset Z) prios, CalculatePriorities corpus = Ret prios ∧ length (runs ct) = length prios ∧
    (∀ i, runs ct !! i = (λ row, if decide (Z.of_nat i ∈ e) then Some (runRow e 0 0 row) else None) <$> prios !! i) ∧
    ctCalls ct ≠ [] ∧ (∀ id, id ∈ ctCalls ct → id ∈ e) ∧
    (∀ id, id ∈ e → 0 ≤ id < Z.of_nat (length (Syscalls target))).
Proof.
  intros H. unfold BuildChoiceTable in H. cbn zeta in H. apply bind_Ret in H as ([e ng] & Hs & H).
  case_decide as Hne; [done|]. case_decide; [|done]. apply bind_Ret in H as (prios & Hp & H). injection H as <-.
  exists e, prios. split_and!; [done|cbn [runs]; apply length_imap| |done| |].
  - intros i. cbn [runs]. by rewrite list_lookup_imap.
  - cbn [ctCalls]. intros id Hid. rewrite merge_sort_Permutation in Hid. by apply elem_of_elements in Hid.
  - by eapply splitEnabled_range.
Qed.

(** A row of the table. *)
Definition rowOf (ct : ChoiceTable) (e : gset Z) (i : nat) (row : list Z) : Prop := ∃ p0,
  Forall (λ p, 0 ≤ p ≤ 1000) row ∧ Z.of_nat (length row) ≤ 8192 ∧
  row !! i = Some p0 ∧ 0 < p0 ∧ Z.of_nat i ∈ e ∧ length row = length (runs ct).

Lemma choose_total ct e bias r :
  ctCalls ct ≠ [] → (∀ id, id ∈ ctCalls ct → Generatable ct id = Ret true) →
  (∀ i run, runs ct !! i = Some (Some run) → ∃ row, run = runRow e 0 0 row ∧ rowOf ct e i row) →
  (∀ i : nat, Z.of_nat i ∈ e → Generatable ct (Z.of_nat i) = Ret true) →
  bias < 0 ∨ Generatable ct bias = Ret true →
  ∃ c r', choose ct bias r = Ret (c, r') ∧ Generatable ct c = Ret true.
Proof.
  intros Hne Hcalls Hrows Hgen Hbias. unfold choose.
  assert (∃ b r', (if decide (bias < 0) then
      let! '(k, r) := intn (Z.of_nat (length (ctCalls ct))) r in
      let! c := index (ctCalls ct) k in Ret (c, r)
    else Ret (bias, r)) = Ret (b, r') ∧ Generatable ct b = Ret true) as (b & r1 & -> & Hb).
  { case_decide; [|destruct Hbias; [lia|eauto]].
    destruct (intn_total (Z.of_nat (length (ctCalls ct))) r) as (k & r1 & -> & Hk).
    { destruct (ctCalls ct); [done|simpl; lia]. }
    simpl. destruct (index_total (ctCalls ct) k Hk) as (c & Hc & ->). simpl. eexists _, _. split; [done|].
    apply Hcalls. by eapply list_elem_of_lookup_2. }
  cbn [rbind]. unfold Generatable in Hb. apply bind_Ret in Hb as (orun & Hi & Hb). rewrite Hi. cbn [rbind].
  destruct orun as [run|]; [|done]. apply index_inv in Hi as [_ Hi].
  destruct (Hrows _ _ Hi) as (row & -> & p0 & Hall & Hl & Hp0 & Hpos & Hie & Hlr).
  destruct (row_total e row _ p0 Hall Hl Hp0 Hpos Hie) as [Hlast Ht].
  pose proof (lookup_lt_Some _ _ _ Hp0) as Hlt.
  assert (index (runRow e 0 0 row) (Z.of_nat (length (runRow e 0 0 row)) - 1) = Ret (sumZ (weightsFrom e 0 row))) as ->.
  { rewrite last_lookup in Hlast. rewrite length_runRow in *.
    replace (Z.of_nat (length row) - 1) with (Z.of_nat (Nat.pred (length row))) by lia. by apply index_lookup. }
  cbn [rbind]. destruct (intn_total (sumZ (weightsFrom e 0 row)) r1) as (k & r2 & -> & Hk); [lia|]. cbn [rbind].
  destruct (proj1 (chooseIn_sums e row _ p0 Hall Hl Hp0 Hpos Hie k Hk)) as (j & -> & Hj & Hje).
  rewrite (Hgen j Hje). cbn [rbind]. exists (Z.of_nat j), r2. split; [done|by apply Hgen].
Qed.

End target.

(** A pair that occurs more than two million times in the corpus: the product overflows
    and the priority becomes negative. *)
Example normalize_overflow : normalizeRow [3000000; 0] = [-431; 10].
Proof. reflexivity. Qed.

Notation fuel0 := (walkFuel ExampleTarget.types 2).

Example table_example :
  BuildChoiceTable ExampleTarget.target fuel0 [ExampleTarget.calls] None =
  Ret (MkChoice [Some [9; 1009]; Some [10; 19]] [0; 1] ∅).
Proof. vm_compute. reflexivity. Qed.

Example static_example :
  (let! uses := calcResourceUsage ExampleTarget.target fuel0 in staticCounts ExampleTarget.target uses) =
  Ret [[0; 250]; [100; 0]].
Proof. vm_compute. reflexivity. Qed.

Lemma example_noOverflow : noOverflow ExampleTarget.target fuel0 [ExampleTarget.calls].
Proof.
  split.
  - intros uses m Hu Hm. pose proof static_example as Hs. rewrite Hu in Hs. cbn [rbind] in Hs.
    rewrite Hm in Hs. injection Hs as ->. apply entries_Forall. repeat constructor; unfold small; lia.
  - intros m Hm. assert (dynamicCounts ExampleTarget.target [ExampleTarget.calls] = Ret [[0; 1]; [0; 0]]) as Hd
      by reflexivity.
    rewrite Hm in Hd. injection Hd as ->. apply entries_Forall. repeat constructor; unfold small; lia.
Qed.


End Prio.
