(* ===== verification/Defaults.v ===== *)
(** * Defaults: default arguments are recognised as such (prog/types.go)

    [DefaultArg] builds the default argument of a type and [isDefaultArg]
    recognises it; minimisation and the text format rely on the two agreeing. *)

From S2P Require Import Prelude Types Prog ExampleTarget.
Import Types Prog.

Module Defaults.

(** The types whose default arguments [DefaultArg] puts into the one of [t]. *)
Definition links (t : Typ) : list Ref :=
  match t with
  | ArrayType _ elem kind rb re => if decide (kind = ArrayRangeLen ∧ rb = re) then [elem] else []
  | PtrType _ elem _ => if Optional t then [] else [elem]
  | StructType _ fields _ _ => fieldType <$> fields
  | UnionType _ fields =>
    match defaultField fields with
    | Ret idx => match index fields idx with Ret f => [fieldType f] | _ => [] end
    | _ => []
    end
  | _ => []
  end.

(** What the description compiler ensures of a single type. *)
Definition wfType (t : Typ) : Prop :=
  match t with
  | ResourceType _ _ desc => resValues desc ≠ []
  | BufferType tc desc =>
    0 ≤ TypeSize tc ∧
    ∀ v, bufValues desc = [v] → IsVarlen tc = false ∧ TypeSize tc = Z.of_nat (length v)
  | UnionType _ fields => fields ≠ []
  | _ => True
  end.

(** A table without a cycle through fields and mandatory pointers: the rank of a
    type bounds the depth of its default argument. *)
Record wfTable (ts : typeTable) (rank : Ref → nat) : Prop := {
  wf_self : ∀ r t, typeAt ts r = Ret t → self (common t) = r;
  wf_type : ∀ r t, typeAt ts r = Ret t → wfType t;
  wf_links : ∀ r t r', typeAt ts r = Ret t → r' ∈ links t →
    (rank r' < rank r)%nat ∧ ∃ t', typeAt ts r' = Ret t'
}.

(** Identities from [mNext] on are not in use. *)
Definition fresh (m : mem) : Prop := ∀ i o, mHeap m !! i = Some o → (i < mNext m)%positive.

Section defaults.
Context (target : Target) (rank : Ref → nat) (Hwf : wfTable (typeRefs target) rank).
Notation ts := (typeRefs target).

Lemma ref_at r t : typeAt ts r = Ret t → ref t = Ret r.
Proof.
  intros H. unfold ref. rewrite (wf_self _ _ Hwf _ _ H).
  destruct r; [done|]. by rewrite decide_False by lia.
Qed.

(** What is shown of a constructed argument of type [r]. *)
Definition built (r : Ref) (m : mem) (x : res (Arg * mem)) : Prop :=
  ∃ a m', x = Ret (a, m') ∧ mHeap m ⊆ mHeap m' ∧ fresh m' ∧
    isDefault target (mHeap m') a = Ret true.

Lemma fresh_alloc m i m' : fresh m → alloc m = (i, m') → fresh m' ∧ mHeap m' = mHeap m.
Proof.
  intros Hf. unfold alloc. intros [= <- <-]. split; [|done].
  intros j o Hj. apply Hf in Hj. simpl. lia.
Qed.

(** An argument that is built in place from a default in the current heap. *)
Ltac build Ht :=
  unfold MakeConstArg, MakeSpecialPointerArg, MakePointerArg, MakeDataArg, MakeOutDataArg,
    MakeGroupArg, MakeUnionArg; rewrite (ref_at _ _ Ht); simpl;
  eexists _, _; split; [reflexivity|]; split; [done|]; split;
  [match goal with H : fresh ?m |- _ => exact (proj1 (fresh_alloc m _ _ H eq_refl)) end|];
  simpl; unfold argType; simpl; rewrite Ht; simpl.

(** The loops that build the elements of a group. *)
Lemma built_list {A} (l : list A) (ty : A → Ref) (step : A → mem → res (Arg * mem)) m inner0 :
  fresh m →
  (∀ x m, x ∈ l → fresh m → built (ty x) m (step x m)) →
  Forall (λ a, isDefault target (mHeap m) a = Ret true) inner0 →
  ∃ inner m',
    for_list (λ x '(inner, m), let! '(e, m) := step x m in Ret (inner ++ [e], m)) l (inner0, m)
      = Ret (inner, m') ∧
    mHeap m ⊆ mHeap m' ∧ fresh m' ∧ length inner = (length inner0 + length l)%nat ∧
    Forall (λ a, isDefault target (mHeap m') a = Ret true) inner.
Proof.
  revert m inner0; induction l as [|x l IH]; intros m inner0 Hf Hstep Hin; simpl.
  { exists inner0, m. split_and!; [done|done|done|lia|done]. }
  destruct (Hstep x m (list_elem_of_here _ _) Hf) as (a & m1 & -> & Hsub & Hf1 & Ha). simpl.
  destruct (IH m1 (inner0 ++ [a])) as (inner & m' & -> & Hsub' & Hf' & Hlen & Hall).
  - done.
  - intros y m2 Hy. apply Hstep. by apply list_elem_of_further.
  - apply Forall_app; split; [|by constructor].
    eapply Forall_impl; [exact Hin|]. intros b. by apply isDefault_mono.
  - exists inner, m'. split_and!; [done|by etrans|done| |done].
    rewrite length_app in Hlen. simpl in Hlen. lia.
Qed.

Lemma allDefault h l :
  Forall (λ a, isDefault target h a = Ret true) l →
  for_list (λ elem (ok : bool), if ok then isDefault target h elem else Ret false) l true = Ret true.
Proof. induction 1 as [|a l Ha _ IH]; simpl; [done|]. rewrite Ha. done. Qed.

Lemma group_built r t dir m inner :
  typeAt ts r = Ret t → fresh m → Forall (λ a, isDefault target (mHeap m) a = Ret true) inner →
  (∃ tc fields al ov, t = StructType tc fields al ov) ∨
  (∃ tc e k rb re, t = ArrayType tc e k rb re ∧ (inner = [] ∨ k = ArrayRangeLen ∧ rb = re)) →
  built r m (MakeGroupArg t dir inner m).
Proof.
  intros Ht Hf Hin Hcase.
  destruct Hcase as [(tc & fields & al & ov & ->)|(tc & e & k & rb & re & -> & Hk)]; build Ht.
  - by apply allDefault.
  - rewrite allDefault by done. destruct Hk as [->|Hk].
    + by rewrite (bool_decide_eq_false_2 ([] ≠ [])), andb_false_r by naive_solver.
    + by rewrite (bool_decide_eq_true_2 _ Hk).
Qed.

Lemma isDefault_data h i r dir tc desc data :
  typeAt ts r = Ret (BufferType tc desc) → dir ≠ DirOut →
  Z.of_nat (length data) = (if IsVarlen tc then 0 else TypeSize tc) →
  match bufValues desc with [v] => data = v | _ => data = replicate (length data) 0 end →
  isDefault target h (DataArg (MkCommon i r dir) data 0) = Ret true.
Proof.
  intros Ht Hdir Hsz Hv. simpl. unfold argType; simpl. rewrite Ht. simpl.
  unfold Varlen, Types.Size; simpl.
  assert ((if decide (data ≠ []) then Z.of_nat (length data) else 0) = Z.of_nat (length data)) as ->
    by (destruct data; by case_decide).
  rewrite Hsz. assert (∀ n, forallb (λ b, bool_decide (b = 0)) (replicate n 0) = true) as Hrep.
  { induction n as [|n IHn]; simpl; [done|]. by rewrite IHn. }
  destruct (IsVarlen tc); simpl; try rewrite (decide_False (P := TypeSize tc ≠ _)) by lia;
    rewrite decide_False by done; destruct (bufValues desc) as [|v [|v' vs]];
    solve [by rewrite bool_decide_eq_true_2 | rewrite Hv; by rewrite Hrep].
Qed.

Lemma buffer_built r tc desc dir m fuel :
  typeAt ts r = Ret (BufferType tc desc) → fresh m →
  built r m (DefaultArg target (S fuel) (BufferType tc desc) dir m).
Proof.
  intros Ht Hf. destruct (wf_type _ _ Hwf _ _ Ht) as [Hsz Hval]. simpl.
  destruct (decide (dir = DirOut)) as [->|Hdir].
  - unfold Varlen, Types.Size; simpl.
    destruct (IsVarlen tc) eqn:Ev; simpl; unfold MakeOutDataArg; rewrite decide_False by naive_solver;
      build Ht; unfold Varlen, Types.Size; simpl; rewrite Ev; simpl;
      try (rewrite decide_False by lia); done.
  - assert (∃ data, match bufValues desc with
        | [v] => Ret v
        | _ => if Varlen (BufferType tc desc) then Ret [] else
                 let! sz := Types.Size (BufferType tc desc) in Ret (replicate (Z.to_nat sz) 0)
        end = Ret data ∧ Z.of_nat (length data) = (if IsVarlen tc then 0 else TypeSize tc) ∧
        match bufValues desc with [v] => data = v | _ => data = replicate (length data) 0 end)
      as (data & -> & Hl & Hd).
    { unfold Varlen, Types.Size; simpl. destruct (bufValues desc) as [|v [|v' vs]] eqn:Evals.
      2:{ destruct (Hval v eq_refl) as [-> ->]. eauto. }
      all: destruct (IsVarlen tc); simpl; eexists; (split; [done|]); simpl;
        rewrite ?length_replicate; (split; [lia|done]). }
    simpl. unfold MakeDataArg. rewrite decide_False by done. rewrite (ref_at _ _ Ht).
    eexists _, _. split; [done|]. split; [done|].
    split; [exact (proj1 (fresh_alloc m _ _ Hf eq_refl))|]. by eapply isDefault_data.
Qed.

Lemma links_at r t r' n :
  typeAt ts r = Ret t → r' ∈ links t → (rank r < S n)%nat →
  ∃ t', typeAt ts r' = Ret t' ∧ (rank r' < n)%nat.
Proof.
  intros Ht Hl Hr. destruct (wf_links _ _ Hwf _ _ _ Ht Hl) as (? & t' & ?).
  exists t'. split; [done|lia].
Qed.

Lemma defaultField_total fields :
  fields ≠ [] → ∃ idx f c, defaultField fields = Ret idx ∧ index fields idx = Ret f ∧
    isConditional fields = Ret c.
Proof.
  intros Hne. destruct fields as [|f0 fs] eqn:E; [done|]. rewrite <-E. unfold defaultField.
  assert (0 < Z.of_nat (length fields)) by (rewrite E; simpl; lia).
  destruct (index_total fields 0) as (f & _ & Hf); [lia|]. unfold isConditional. rewrite Hf. simpl.
  destruct (Condition f).
  - destruct (index_total fields (Z.of_nat (length fields) - 1)) as (fl & _ & Hfl); [lia|]. eauto 10.
  - eauto 10.
Qed.

Lemma default_built fuel r t dir m :
  typeAt ts r = Ret t → (rank r < fuel)%nat → fresh m → built r m (DefaultArg target fuel t dir m).
Proof.
  revert r t dir m; induction fuel as [|fuel IH]; intros r t dir m Ht Hr Hf; [lia|].
  pose proof (links_at r t) as Hlk. pose proof (wf_type _ _ Hwf _ _ Ht) as Hw.
  destruct t as [tc bf desc|ic v p|ic k rb re al|ic vs bm|ic bs off path|ic vs vp|ic k buf pr
    |tc rb re|tc desc|tc e k rb re|tc e d|tc fields al ov|tc fields]; [..|].
  2-8: simpl; build Ht; by rewrite ?bool_decide_eq_true_2 by done.
  - simpl. destruct (resValues desc) as [|v vs] eqn:Ev; [done|].
    unfold Default. rewrite Ev. simpl. unfold MakeResultArg. rewrite (ref_at _ _ Ht). simpl.
    eexists _, _. split; [done|]. simpl. split; [|split].
    + apply insert_subseteq. destruct (mHeap m !! mNext m) eqn:E; [|done]. apply Hf in E. lia.
    + intros i o. simpl. rewrite lookup_insert_Some. intros [[<- _]|[_ Hi]]; [lia|].
      apply Hf in Hi. lia.
    + unfold argType, argRef, deref. rewrite lookup_insert_eq. cbn [rbind rRef]. rewrite Ht.
      cbn [rbind rRes OpDiv OpAdd uses rVal]. rewrite decide_True by done.
      unfold Default. rewrite Ev. simpl. by rewrite bool_decide_eq_true_2.
  - by apply buffer_built.
  - simpl. simpl in Hlk. destruct (decide _) as [Hk|Hk].
    + destruct (Hlk e fuel Ht) as (te & Hte & Hre); [set_solver|done|]. rewrite Hte. simpl.
      destruct (built_list (seq 0 (Z.to_nat rb)) (λ _, e) (λ _ m, DefaultArg target fuel te dir m)
        m [] Hf) as (inner & m' & -> & Hsub & Hf' & _ & Hall); [|constructor|].
      { intros x m1 _ Hf1. by apply IH. }
      simpl. destruct (group_built r _ dir m' inner Ht Hf' Hall) as (a & m2 & -> & ? & ? & ?).
      { right. eexists _, _, _, _, _. eauto. }
      eexists _, _. split; [done|]. split; [by etrans|done].
    + simpl. apply group_built; [done|done|constructor|]. right. eexists _, _, _, _, _. eauto.
  - simpl. simpl in Hlk. destruct (Optional _) eqn:Eo.
    + build Ht. rewrite Eo. done.
    + destruct (Hlk e fuel Ht) as (te & Hte & Hre); [set_solver|done|]. rewrite Hte. simpl.
      destruct (IH _ _ d m Hte Hre Hf) as (a & m1 & -> & Hsub & Hf1 & Ha). simpl.
      unfold MakePointerArg. rewrite (ref_at _ _ Ht). simpl. eexists _, _. split; [done|].
      split; [done|]. split; [exact (proj1 (fresh_alloc m1 _ _ Hf1 eq_refl))|].
      simpl. unfold argType; simpl. rewrite Ht. simpl. rewrite Eo. done.
  - simpl. destruct (built_list fields fieldType
      (λ f m, let! tf := typeAt ts (fieldType f) in DefaultArg target fuel tf (fieldDir f dir) m)
      m [] Hf) as (inner & m' & Hl & Hsub & Hf' & _ & Hall); [|constructor|].
    { intros f m1 Hx Hf1. destruct (Hlk (fieldType f) fuel Ht) as (tf & Htf & Hrf);
        [simpl; by apply list_elem_of_fmap_2|done|]. rewrite Htf. simpl. by apply IH. }
    erewrite (for_list_ext _ _ fields ([], m)).
    { rewrite Hl. simpl.
      destruct (group_built r _ dir m' inner Ht Hf' Hall) as (a & m2 & -> & ? & ? & ?).
      { left. eauto. }
      eexists _, _. split; [done|]. split; [by etrans|done]. }
    intros f [inner1 m1] _. simpl. destruct (typeAt ts (fieldType f)); done.
  - destruct (defaultField_total fields Hw) as (idx & f & c & Hd & Hi & Hc). simpl.
    simpl in Hlk. rewrite Hd, Hi in Hlk. rewrite Hd. simpl. rewrite Hi. simpl.
    destruct (Hlk (fieldType f) fuel Ht) as (tf & Htf & Hrf); [set_solver|done|].
    rewrite Htf. simpl.
    destruct (IH _ _ (fieldDir f dir) m Htf Hrf Hf) as (a & m1 & -> & Hsub & Hf1 & Ha). simpl.
    unfold MakeUnionArg. rewrite (ref_at _ _ Ht). simpl. rewrite Hc. simpl.
    eexists _, _. split; [done|]. split; [done|].
    split; [exact (proj1 (fresh_alloc m1 _ _ Hf1 eq_refl))|].
    simpl. unfold argType; simpl. rewrite Ht. simpl. rewrite Hd. simpl.
    by rewrite decide_True.
Qed.

(** In a table of well-formed types without a cycle through mandatory links,
    [DefaultArg] returns for every type and direction once the fuel exceeds the
    rank of the type, allocates fresh results only, and what it returns is
    recognised by [isDefaultArg]. *)
Theorem default_is_default fuel r t dir m :
  typeAt ts r = Ret t → (rank r < fuel)%nat → fresh m →
  ∃ arg m', DefaultArg target fuel t dir m = Ret (arg, m') ∧ mHeap m ⊆ mHeap m' ∧ fresh m' ∧
    isDefault target (mHeap m') arg = Ret true.
Proof. intros. by apply (default_built fuel r t dir m). Qed.

End defaults.

Lemma exampleTable_wf : wfTable ExampleTarget.types ExampleTarget.rank.
Proof.
  split; intros r t; intros; (lazymatch goal with H : typeAt _ _ = _ |- _ =>
    apply ExampleTarget.types_inv in H; simpl in H; rewrite !elem_of_cons, elem_of_nil in H;
    destruct_or! H; try done; injection H as -> -> end); simpl in *; try done;
  rewrite ?elem_of_cons, ?elem_of_nil in *; destruct_or?; subst; try done;
    (split; [simpl; lia|eexists; reflexivity]).
Qed.

Lemma default_is_default_witness :
  ∃ arg m', DefaultArg ExampleTarget.target 3 ExampleTarget.tMsgPtr DirIn (Mem ∅ 1) = Ret (arg, m') ∧
    isDefault ExampleTarget.target (mHeap m') arg = Ret true.
Proof.
  destruct (default_is_default ExampleTarget.target ExampleTarget.rank) with
    (fuel := 3%nat) (r := 6%nat) (t := ExampleTarget.tMsgPtr) (dir := DirIn) (m := Mem ∅ 1)
    as (arg & m' & H & _ & _ & Hd).
  - apply exampleTable_wf.
  - reflexivity.
  - simpl. lia.
  - intros i o Hi. discriminate Hi.
  - eauto.
Defined.

(** The well-formedness of buffers is needed: for a variable-length buffer with
    one known value, as a glob that matched one file has after [UpdateGlobs], the
    default argument carries the value and [isDefaultArg] rejects it. *)
Theorem glob_default_not_default target fuel r tc desc b v m :
  typeAt (typeRefs target) r = Ret (BufferType tc desc) → self tc = r →
  IsVarlen tc = true → bufValues desc = [b :: v] →
  ∃ arg m', DefaultArg target (S fuel) (BufferType tc desc) DirIn m = Ret (arg, m') ∧
    isDefault target (mHeap m') arg = Ret false.
Proof.
  intros Ht Hs Hv Hvals. simpl. rewrite Hvals. simpl.
  unfold MakeDataArg, ref. simpl. rewrite Hs.
  rewrite decide_False by (by destruct r). simpl.
  eexists _, _. split; [done|]. simpl. unfold argType; simpl. rewrite Ht. simpl.
  unfold Varlen; simpl. rewrite Hv. simpl. done.
Qed.

Lemma glob_default_not_default_witness :
  let glob := BufferType (MkTypeCommon "glob" 0 1 false true 1)
    (MkBufferDesc BufferGlob 0 0 TextTarget "/sys/*" [[47; 115; 0]] false) in
  let tgt := MkTarget [None; Some glob] [] 8 4096 16 0 [] 0 0 0 0 0 [] "test" [] [] in
  ∃ arg m', DefaultArg tgt 1 glob DirIn (Mem ∅ 1) = Ret (arg, m') ∧
    isDefault tgt (mHeap m') arg = Ret false.
Proof.
  apply (glob_default_not_default
    (MkTarget [None; Some (BufferType (MkTypeCommon "glob" 0 1 false true 1)
      (MkBufferDesc BufferGlob 0 0 TextTarget "/sys/*" [[47; 115; 0]] false))]
      [] 8 4096 16 0 [] 0 0 0 0 0 [] "test" [] []) 0 1 _ _ 47 [115; 0]); reflexivity.
Defined.

End Defaults.
