(* ===== verification/ProgEdit.v ===== *)
(** * ProgEdit: editing programs (prog/prog.go)

    Result arguments refer to each other across calls; removing and replacing
    arguments has to keep the two directions of these links, [Res] and [uses],
    in step. *)

From S2P Require Import Prelude Types Prog ExampleTarget.
Import Types Prog.

Module ProgEdit.

(** [uses] as a Go map: iterated in some order. *)
Definition rangeUses (s : gset positive) : list positive := elements s.

Section target.
Context (target : Target).

(** The call [c] of [insertBefore] is given by its position in the program; a call that
    is not in the program has no position. *)
Definition insertBefore (calls : list Call) (pos : option nat) (new : list Call) : list Call :=
  let idx := default (length calls) pos in
  take idx calls ++ new ++ drop idx calls.

Definition replaceResultArg (arg arg1 : positive) (h : heap) : res heap :=
  let! a := deref h arg in
  let! h := match rRes a with Some r => delUse r arg h | None => Ret h end in
  let! a := deref h arg in
  let! a1 := deref h arg1 in
  let h := <[arg := MkResult (rRef a1) (rDir a1) (rRes a1) (OpDiv a1) (OpAdd a1) (rVal a1) (uses a)]> h in
  match rRes a1 with
  | Some r => let! h := delUse r arg1 h in addUse r arg h
  | None => Ret h
  end.

(** [arg1.Type().DefaultArg(arg1.Dir())] must be a result argument. *)
Definition resetUse (arg1 : positive) (m : mem) : res mem :=
  let! o := deref (mHeap m) arg1 in
  let! t := typeAt (typeRefs target) (rRef o) in
  let! '(d, m) := DefaultArg target 1 t (rDir o) m in
  match d with
  | ResultArg arg2 =>
    let! h := replaceResultArg arg1 arg2 (mHeap m) in Ret (Mem h (mNext m))
  | _ => Panic "interface conversion: not a ResultArg"
  end.

(** The callback of [removeArg]. *)
Definition unlink (arg : Arg) (m : mem) : res mem :=
  match arg with
  | ResultArg a =>
    let! o := deref (mHeap m) a in
    let! m :=
      match rRes o with
      | Some r =>
        let! ro := deref (mHeap m) r in
        if decide (a ∈ uses ro) then
          let! h := delUse r a (mHeap m) in Ret (Mem h (mNext m))
        else Panic "broken tree"
      | None => Ret m
      end in
    let! o := deref (mHeap m) a in
    for_list resetUse (rangeUses (uses o)) m
  | _ => Ret m
  end.

Definition removeArg (arg : Arg) (m : mem) : res mem :=
  ForeachSubArg target mHeap (λ a _ m, let! m := unlink a m in Ret (m, false)) arg m.

Definition RemoveCall (calls : list Call) (idx : nat) (m : mem) : res (list Call * mem) :=
  match calls !! idx with
  | None => Panic "index out of range"
  | Some c =>
    let! m := for_list removeArg (Args c) m in
    let! m := match Ret_ c with Some i => removeArg (ResultArg i) m | None => Ret m end in
    Ret (take idx calls ++ drop (S idx) calls, m)
  end.

(** [replaceArg] changes the object [arg] in place: the result is its new contents. *)
Definition withId (i : positive) (c : ArgCommon) : ArgCommon := MkCommon i (aref c) (adir c).

Definition isStruct (t : Typ) : bool := match t with StructType _ _ _ _ => true | _ => false end.

Fixpoint replaceArg (arg arg1 : Arg) (m : mem) : res (Arg * mem) :=
  if decide (argIdOf arg = argIdOf arg1) then Panic "replacing an argument with itself"
  else
    match arg, arg1 with
    | ConstArg c _, ConstArg c1 v1 => Ret (ConstArg (withId (aid c) c1) v1, m)
    | ResultArg i, ResultArg i1 =>
      let! h := replaceResultArg i i1 (mHeap m) in Ret (ResultArg i, Mem h (mNext m))
    | PointerArg c _ _ _, PointerArg c1 a1 v1 r1 => Ret (PointerArg (withId (aid c) c1) a1 v1 r1, m)
    | UnionArg c opt _ _, UnionArg c1 opt1 i1 t1 =>
      let! m := removeArg opt m in Ret (UnionArg (withId (aid c) c1) opt1 i1 t1, m)
    | DataArg c _ _, DataArg c1 d1 s1 => Ret (DataArg (withId (aid c) c1) d1 s1, m)
    | GroupArg c inner, GroupArg c1 inner1 =>
      let! t := typeAt (typeRefs target) (aref c) in
      if isStruct t && bool_decide (length inner ≠ length inner1) then
        Panic "replaceArg: group fields don't match"
      else
        (* replace the common prefix *)
        let! '(prefix, m) :=
          (fix go (l l1 : list Arg) (m : mem) : res (list Arg * mem) :=
             match l, l1 with
             | x :: l, x1 :: l1 =>
               let! '(x, m) := replaceArg x x1 m in
               let! '(rest, m) := go l l1 m in
               Ret (x :: rest, m)
             | _, _ => Ret ([], m)
             end) inner inner1 m in
        (* remove the extra arguments, the last one first *)
        let! m := for_list removeArg (reverse (drop (length inner1) inner)) m in
        (* add the missing ones *)
        Ret (GroupArg (withId (aid c) c1) (prefix ++ drop (length inner) inner1), m)
    | _, _ => Panic "interface conversion"
    end.

(** The results of an argument tree, in the order of the traversal. *)
Definition resultOf (arg : Arg) : option positive := match arg with ResultArg i => Some i | _ => None end.
Definition results (arg : Arg) : list positive := omap resultOf (nodes arg).
Definition callResults (c : Call) : list positive :=
  concat (results <$> Args c) ++ option_list (Ret_ c).
Definition progResults (calls : list Call) : list positive := concat (callResults <$> calls).

(** ** Traversals that look at results only *)

Definition callArgs (c : Call) : list Arg := (ResultArg <$> option_list (Ret_ c)) ++ Args c.

(** All the arguments of a call have a size. *)
Definition sizedCall (h : heap) (c : Call) : Prop :=
  ∀ a x, a ∈ callArgs c → x ∈ nodes a → ∃ z, Size target h x = Ret z.

Lemma visits_nodes h arg ctx acc :
  (∀ x, x ∈ nodes arg → ∃ z, Size target h x = Ret z) →
  ∃ l, foreachArgImpl target (λ _, h) (λ a c l, Ret (l ++ [(a, c)], false)) arg ctx acc = Ret l ∧
    l.*1 = acc.*1 ++ nodes arg.
Proof.
  intros Hsz. destruct (foreach_inv target (λ _ : list (Arg * ArgCtx), h)
    (λ a c l, Ret (l ++ [(a, c)], false)) (acc.*1 ++ nodes arg) (λ done l, l.*1 = done))
    with (arg := arg) (ctx := ctx) (done := acc.*1) (suf := @nil Arg) (s := acc) as (l & Hl & HP & _).
  - intros done x rest c l z _ <- _. eexists. split; [done|]. split; [by rewrite fmap_app|reflexivity].
  - by rewrite app_nil_r.
  - done.
  - done.
  - eauto.
Qed.

Lemma callVisits_nodes h c :
  sizedCall h c → ∃ l, callVisits target h c = Ret l ∧ l.*1 = concat (nodes <$> callArgs c).
Proof.
  intros Hsz. unfold callVisits, ForeachArg.
  assert (∃ l1, match Ret_ c with
      | Some i => foreachArgImpl target (λ _, h) (λ a c l, Ret (l ++ [(a, c)], false)) (ResultArg i) emptyCtx []
      | None => Ret [] end = Ret l1 ∧ l1.*1 = concat (nodes <$> (ResultArg <$> option_list (Ret_ c))))
    as (l1 & -> & H1).
  { destruct (Ret_ c) as [i|] eqn:Er; [|by eauto].
    destruct (visits_nodes h (ResultArg i) emptyCtx []) as (l & Hl & HP); [|by eauto].
    intros x Hx. apply (Hsz (ResultArg i)); [|done]. unfold callArgs. rewrite Er. apply list_elem_of_here. }
  cbn [rbind]. unfold callArgs. rewrite fmap_app, concat_app, <-H1.
  assert (∀ a, a ∈ Args c → ∀ x, x ∈ nodes a → ∃ z, Size target h x = Ret z) as Hargs.
  { intros a Ha x. apply (Hsz a). unfold callArgs. set_solver. }
  clear H1. generalize (MkCtx (Args c) (sysArgs (Meta c)) None 0) as ctx. intros ctx. revert l1.
  induction (Args c) as [|a args IH]; intros l1; [exists l1; by rewrite app_nil_r|].
  rewrite fmap_cons. cbn [concat for_list].
  destruct (visits_nodes h a ctx l1) as (l2 & -> & H2); [apply Hargs; set_solver|]. cbn [rbind].
  destruct (IH (λ b Hb, Hargs b (list_elem_of_further _ _ _ Hb)) l2) as (l3 & -> & H3).
  exists l3. split; [done|]. by rewrite H3, H2, app_assoc.
Qed.

Lemma ForeachArg_results {S} h c (g : positive → S → res S) s :
  sizedCall h c →
  ForeachArg target (λ _, h)
    (λ a _ s, let! s := match resultOf a with Some i => g i s | None => Ret s end in Ret (s, false)) c s
  = for_list g (option_list (Ret_ c) ++ concat (results <$> Args c)) s.
Proof.
  intros Hsz. destruct (callVisits_nodes h c Hsz) as (l & Hl & Hn).
  rewrite (foreach_callVisits target h c l Hl S
    (λ x s, match resultOf x.1 with Some i => g i s | None => Ret s end)).
  rewrite (for_list_fmap (λ a s, match resultOf a with Some i => g i s | None => Ret s end) fst), Hn.
  rewrite for_list_omap. f_equal. unfold callArgs. rewrite fmap_app, concat_app, omap_app.
  f_equal; [by destruct (Ret_ c)|]. induction (Args c) as [|a args IH]; [done|].
  rewrite !fmap_cons. cbn [concat]. rewrite omap_app. by rewrite IH.
Qed.

(** ** The link invariant *)

(** The links between the results [L] of a program are consistent. *)
Record linked (L : gset positive) (h : heap) : Prop := {
  linked_in : ∀ i, i ∈ L → is_Some (h !! i);
  linked_res : ∀ i o j, i ∈ L → h !! i = Some o → rRes o = Some j →
    j ∈ L ∧ ∃ oj, h !! j = Some oj ∧ i ∈ uses oj;
  linked_uses : ∀ j oj i, j ∈ L → h !! j = Some oj → i ∈ uses oj →
    i ∈ L ∧ ∃ o, h !! i = Some o ∧ rRes o = Some j
}.

(** A result argument has a resource type with a default value. *)
Definition resTyped (o : ResultObj) : Prop :=
  ∃ tc bf desc v, typeAt (typeRefs target) (rRef o) = Ret (ResourceType tc bf desc) ∧
    self tc = rRef o ∧ Default desc = Ret v.

(** ** Unlinking one result *)

(** The heap in which [a] refers to nothing. *)
Definition clr (a : positive) (h : heap) : heap :=
  alter (λ o, MkResult (rRef o) (rDir o) None (OpDiv o) (OpAdd o) (rVal o) (uses o)) a h.

Definition fresh (m : mem) : Prop := ∀ i o, mHeap m !! i = Some o → (i < mNext m)%positive.

Lemma deref_Some h i o : h !! i = Some o → deref h i = Ret o.
Proof. intros H. unfold deref. by rewrite H. Qed.

Lemma clr_lookup_ne a h i : i ≠ a → clr a h !! i = h !! i.
Proof. intros. by apply lookup_alter_ne. Qed.

Lemma clr_lookup_eq a h o :
  h !! a = Some o →
  clr a h !! a = Some (MkResult (rRef o) (rDir o) None (OpDiv o) (OpAdd o) (rVal o) (uses o)).
Proof. intros H. unfold clr. rewrite lookup_alter_eq, H. done. Qed.

Definition withoutUse (o : ResultObj) (i : positive) : ResultObj :=
  MkResult (rRef o) (rDir o) (rRes o) (OpDiv o) (OpAdd o) (rVal o) (uses o ∖ {[i]}).

Lemma delUse_eq h r o i : h !! r = Some o → delUse r i h = Ret (<[r := withoutUse o i]> h).
Proof. intros H. unfold delUse. by rewrite (deref_Some _ _ _ H). Qed.

(** Dropping the outgoing link of [a]. *)
Lemma linked_drop L h a o r ro :
  linked L h → a ∈ L → h !! a = Some o → rRes o = Some r → h !! r = Some ro →
  linked L (clr a (<[r := withoutUse ro a]> h)).
Proof.
  intros HL Ha Ho Hr Hro. split.
  - intros i Hi. destruct (decide (i = a)) as [->|Hne].
    + unfold clr. rewrite lookup_alter_eq. destruct (decide (a = r)) as [<-|Hn].
      * rewrite lookup_insert_eq. simpl. eauto.
      * rewrite lookup_insert_ne, Ho by done. simpl. eauto.
    + rewrite clr_lookup_ne by done. apply lookup_insert_is_Some'. right. by apply (linked_in _ _ HL).
  - intros i oi j Hi Hoi Hj. destruct (decide (i = a)) as [->|Hne].
    { unfold clr in Hoi. rewrite lookup_alter_eq in Hoi.
      apply fmap_Some in Hoi as (x & _ & ->). discriminate Hj. }
    rewrite clr_lookup_ne in Hoi by done.
    assert (∃ oi', h !! i = Some oi' ∧ rRes oi' = Some j) as (oi' & Hoi' & Hj').
    { apply lookup_insert_Some in Hoi as [[<- <-]|[_ Hoi]]; eauto. }
    destruct (linked_res _ _ HL _ _ _ Hi Hoi' Hj') as (HjL & oj & Hoj & Hin). split; [done|].
    assert (∃ oj', <[r := withoutUse ro a]> h !! j = Some oj' ∧ i ∈ uses oj') as (oj' & Hoj' & Hin').
    { destruct (decide (j = r)) as [->|Hn].
      - rewrite lookup_insert_eq. eexists. split; [done|]. simpl. simplify_eq. set_solver.
      - rewrite lookup_insert_ne by done. eauto. }
    destruct (decide (j = a)) as [->|Hn].
    + rewrite (clr_lookup_eq _ _ _ Hoj'). eauto.
    + rewrite clr_lookup_ne by done. eauto.
  - intros j oj i Hj Hoj Hin.
    assert (∃ oj', <[r := withoutUse ro a]> h !! j = Some oj' ∧ i ∈ uses oj') as (oj1 & Hoj1 & Hin1).
    { destruct (decide (j = a)) as [->|Hn].
      - unfold clr in Hoj. rewrite lookup_alter_eq in Hoj.
        apply fmap_Some in Hoj as (x & Hx & ->). eauto.
      - rewrite clr_lookup_ne in Hoj by done. eauto. }
    assert (i ≠ a ∧ ∃ oj', h !! j = Some oj' ∧ i ∈ uses oj') as (Hia & oj2 & Hoj2 & Hin2).
    { apply lookup_insert_Some in Hoj1 as [[<- <-]|[Hn Hoj1]]; simpl in *.
      - split; [set_solver|]. exists ro. split; [done|set_solver].
      - split; [|eauto]. intros ->.
        destruct (linked_uses _ _ HL _ _ _ Hj Hoj1 Hin1) as (_ & o' & Ho' & Hr'). congruence. }
    destruct (linked_uses _ _ HL _ _ _ Hj Hoj2 Hin2) as (HiL & oi & Hoi & Hri). split; [done|].
    rewrite clr_lookup_ne by done.
    destruct (decide (i = r)) as [->|Hn].
    + rewrite lookup_insert_eq. eexists. split; [done|]. simpl. congruence.
    + rewrite lookup_insert_ne by done. eauto.
Qed.

(** A use [u] of [a] becomes a constant of its own. *)
Definition detached (o : ResultObj) (v : Z) : ResultObj :=
  MkResult (rRef o) (rDir o) None 0 0 v (uses o).

Lemma linked_detach L h a u ou oa v n on :
  linked L (clr a h) → a ∈ L → h !! a = Some oa → u ∈ uses oa → h !! u = Some ou →
  n ∉ L →
  linked L (clr a (<[u := detached ou v]> (<[a := withoutUse oa u]> (<[n := on]> h)))) ∧ u ≠ a ∧ u ∈ L ∧
  rRes ou = Some a.
Proof.
  intros HL Ha Hoa Hu Hou Hn.
  destruct (linked_uses _ _ HL a _ u Ha (clr_lookup_eq _ _ _ Hoa) Hu) as (HuL & ou' & Hou' & Hru).
  assert (u ≠ a) as Hua.
  { intros ->. rewrite (clr_lookup_eq _ _ _ Hoa) in Hou'. simplify_eq. }
  rewrite clr_lookup_ne in Hou' by done. assert (ou' = ou) as -> by congruence.
  split; [|done].
  assert (∀ i, i ∈ L → clr a (<[u := detached ou v]> (<[a := withoutUse oa u]> (<[n := on]> h))) !! i =
    if decide (i = u) then Some (detached ou v)
    else if decide (i = a) then (λ o, withoutUse o u) <$> clr a h !! a else clr a h !! i) as Hlk.
  { intros i Hi. destruct (decide (i = u)) as [->|Hiu].
    - by rewrite clr_lookup_ne, lookup_insert_eq by done.
    - destruct (decide (i = a)) as [->|Hia].
      + unfold clr. rewrite !lookup_alter_eq, lookup_insert_ne, lookup_insert_eq, Hoa by done. done.
      + rewrite !clr_lookup_ne, !lookup_insert_ne by (done || set_solver). done. }
  split.
  - intros i Hi. rewrite Hlk by done. case_decide; [by eauto|].
    case_decide; [|by apply (linked_in _ _ HL)].
    rewrite (clr_lookup_eq _ _ _ Hoa). simpl. eauto.
  - intros i oi j Hi Hoi Hj. rewrite Hlk in Hoi by done.
    assert (i ≠ u ∧ i ≠ a ∧ clr a h !! i = Some oi) as (Hiu & Hia & Hoi').
    { destruct (decide (i = u)); [by simplify_eq|]. destruct (decide (i = a)); [|done].
      rewrite (clr_lookup_eq _ _ _ Hoa) in Hoi. by simplify_eq/=. }
    destruct (linked_res _ _ HL _ _ _ Hi Hoi' Hj) as (HjL & oj & Hoj & Hin). split; [done|].
    rewrite Hlk by done. destruct (decide (j = u)) as [->|Hju].
    { eexists. split; [done|]. rewrite clr_lookup_ne in Hoj by done. simplify_eq. done. }
    destruct (decide (j = a)) as [->|Hja]; [|by eauto]. rewrite Hoj. simpl. eexists. split; [done|].
    simpl. set_solver.
  - intros j oj i Hj Hoj Hin. rewrite Hlk in Hoj by done.
    assert (i ≠ u ∧ ∃ oj', clr a h !! j = Some oj' ∧ i ∈ uses oj') as (Hiu & oj' & Hoj' & Hin').
    { destruct (decide (j = u)) as [->|Hju]; [|destruct (decide (j = a)) as [->|Hja]].
      - injection Hoj as <-. simpl in Hin. split.
        + intros ->. assert (clr a h !! u = Some ou) as E by (by rewrite clr_lookup_ne).
          destruct (linked_uses _ _ HL _ _ _ Hj E Hin) as (_ & o & Ho & Hr).
          rewrite clr_lookup_ne, Hou in Ho by done. congruence.
        + exists ou. split; [by rewrite clr_lookup_ne|done].
      - apply fmap_Some in Hoj as (x & Hx & ->). simpl in Hin. split; [set_solver|].
        exists x. split; [done|set_solver].
      - split; [|eauto]. intros ->.
        destruct (linked_uses _ _ HL _ _ _ Hj Hoj Hin) as (_ & o & Ho & Hr).
        rewrite clr_lookup_ne, Hou in Ho by done. congruence. }
    destruct (linked_uses _ _ HL _ _ _ Hj Hoj' Hin') as (HiL & oi & Hoi & Hri). split; [done|].
    rewrite Hlk by done. rewrite decide_False by done.
    destruct (decide (i = a)) as [->|Hia]; [|eauto].
    rewrite Hoi. simpl. eexists. split; [done|]. done.
Qed.

(** When nothing uses [a] any more it can leave the program. *)
Lemma linked_remove L h a oa :
  linked L (clr a h) → a ∈ L → h !! a = Some oa → uses oa = ∅ → linked (L ∖ {[a]}) h.
Proof.
  intros HL Ha Hoa Hno. split.
  - intros i Hi. rewrite <-(clr_lookup_ne a) by set_solver. apply (linked_in _ _ HL). set_solver.
  - intros i o j Hi Ho Hj. rewrite <-(clr_lookup_ne a) in Ho by set_solver.
    destruct (linked_res _ _ HL i o j) as (HjL & oj & Hoj & Hin); [set_solver|done|done|].
    assert (j ≠ a).
    { intros ->. rewrite (clr_lookup_eq _ _ _ Hoa) in Hoj. simplify_eq. simpl in Hin. set_solver. }
    split; [set_solver|]. rewrite clr_lookup_ne in Hoj by done. eauto.
  - intros j oj i Hj Hoj Hin. assert (j ≠ a) by set_solver.
    destruct (linked_uses _ _ HL j oj i) as (HiL & o & Ho & Hr);
      [set_solver|by rewrite clr_lookup_ne|done|].
    assert (i ≠ a). { intros ->. rewrite (clr_lookup_eq _ _ _ Hoa) in Ho. by simplify_eq. }
    split; [set_solver|]. rewrite clr_lookup_ne in Ho by done. eauto.
Qed.

Definition heapTyped (L : gset positive) (h : heap) : Prop :=
  ∀ i o, i ∈ L → h !! i = Some o → resTyped o.

Lemma heapTyped_refs L h h' : (∀ i, i ∈ L → is_Some (h !! i)) → sameRefs h h' → heapTyped L h → heapTyped L h'.
Proof.
  intros Hin Hs Ht i o' Hi Ho'. destruct (Hin i Hi) as [o Ho]. destruct (Hs _ _ Ho) as (o2 & Ho2 & Hr & _).
  assert (o2 = o') as -> by congruence. destruct (Ht _ _ Hi Ho) as (tc & bf & desc & v & H).
  exists tc, bf, desc, v. by rewrite Hr.
Qed.

Lemma resetUse_eq m u ou a oa :
  fresh m → mHeap m !! u = Some ou → rRes ou = Some a → mHeap m !! a = Some oa → u ≠ a → resTyped ou →
  ∃ v on, resetUse u m =
    Ret (Mem (<[u := detached ou v]> (<[a := withoutUse oa u]> (<[mNext m := on]> (mHeap m))))
      (Pos.succ (mNext m))).
Proof.
  intros Hf Hu Hr Ha Hua (tc & bf & desc & v & Ht & Hself & Hv).
  assert (u ≠ mNext m) by (apply Hf in Hu; lia). assert (a ≠ mNext m) by (apply Hf in Ha; lia).
  exists v. eexists. unfold resetUse. rewrite (deref_Some _ _ _ Hu). cbn [rbind]. rewrite Ht. cbn [rbind].
  cbn [DefaultArg]. rewrite Hv. cbn [rbind]. unfold MakeResultArg, ref. cbn [common]. rewrite Hself.
  rewrite decide_False by (destruct (rRef ou); [discriminate Ht|done]). cbn [rbind alloc mHeap mNext].
  unfold replaceResultArg. erewrite deref_Some by (rewrite lookup_insert_ne by done; exact Hu).
  cbn [rbind]. rewrite Hr. erewrite delUse_eq by (rewrite lookup_insert_ne by done; exact Ha).
  cbn [rbind].
  erewrite deref_Some by (rewrite !lookup_insert_ne by done; exact Hu). cbn [rbind].
  erewrite deref_Some by (rewrite lookup_insert_ne by done; apply lookup_insert_eq). cbn [rbind rRes].
  reflexivity.
Qed.

(** The first half of [unlink]: the outgoing link. *)
Definition unlinkOut (a : positive) (o : ResultObj) (m : mem) : res mem :=
  match rRes o with
  | Some r =>
    let! ro := deref (mHeap m) r in
    if decide (a ∈ uses ro) then let! h := delUse r a (mHeap m) in Ret (Mem h (mNext m))
    else Panic "broken tree"
  | None => Ret m
  end.

Lemma unlinkOut_spec L m a o :
  linked L (mHeap m) → a ∈ L → mHeap m !! a = Some o →
  ∃ h1 o1, unlinkOut a o m = Ret (Mem h1 (mNext m)) ∧ linked L (clr a h1) ∧ h1 !! a = Some o1 ∧
    (∀ i o, mHeap m !! i = Some o → ∃ o', h1 !! i = Some o' ∧ rRes o' = rRes o ∧ rRef o' = rRef o ∧ rDir o' = rDir o) ∧
    (∀ i o, h1 !! i = Some o → is_Some (mHeap m !! i)) ∧
    (∀ i o, i ∉ L → mHeap m !! i = Some o → h1 !! i = Some o).
Proof.
  intros HL Ha Ho. unfold unlinkOut. destruct (rRes o) as [r|] eqn:Er.
  - destruct (linked_res _ _ HL _ _ _ Ha Ho Er) as (HrL & ro & Hro & Hin).
    rewrite (deref_Some _ _ _ Hro). cbn [rbind]. rewrite decide_True by done.
    rewrite (delUse_eq _ _ _ _ Hro). cbn [rbind].
    exists (<[r := withoutUse ro a]> (mHeap m)), (if decide (a = r) then withoutUse ro a else o).
    split_and!; [done|by eapply linked_drop| | | |].
    + case_decide as E; [subst; apply lookup_insert_eq|by rewrite lookup_insert_ne].
    + intros i oi Hi. destruct (decide (i = r)) as [->|Hn].
      * rewrite lookup_insert_eq. eexists. split; [done|]. by simplify_eq/=.
      * rewrite lookup_insert_ne by done. eauto.
    + intros i oi Hi. apply lookup_insert_Some in Hi as [[<- _]|[_ Hi]]; eauto.
    + intros i oi Hi Hoi. rewrite lookup_insert_ne; [done|set_solver].
  - exists (mHeap m), o. split_and!; [by destruct m| |done|by eauto|by eauto|done].
    enough (clr a (mHeap m) = mHeap m) as -> by done. apply map_eq. intros i.
    destruct (decide (i = a)) as [->|Hn]; [|by rewrite clr_lookup_ne].
    rewrite (clr_lookup_eq _ _ _ Ho), Ho. destruct o; simpl in *. by subst.
Qed.

(** The invariant of the loop over the uses [U] of [a], from the heap [h0] on. *)
Record resetInv (L : gset positive) (a : positive) (h0 : heap) (n0 : positive) (U : gset positive)
    (done : list positive) (m : mem) : Prop := {
  ri_linked : linked L (clr a (mHeap m));
  ri_fresh : fresh m;
  ri_next : (n0 ≤ mNext m)%positive;
  ri_uses : ∃ oa, mHeap m !! a = Some oa ∧ ∀ u, u ∈ uses oa ↔ u ∈ U ∧ u ∉ done;
  ri_effect : ∀ i oi, h0 !! i = Some oi → ∃ o', mHeap m !! i = Some o' ∧ rRef o' = rRef oi ∧ rDir o' = rDir oi ∧
    (i ∈ L → i ≠ a → rRes o' = if decide (rRes oi = Some a ∧ i ∈ done) then None else rRes oi);
  ri_frame : ∀ i o, i ∉ L → h0 !! i = Some o → mHeap m !! i = Some o
}.

Lemma reset_step L a h0 n0 U done u m :
  (∀ i, i ∈ L → (i < n0)%positive ∧ is_Some (h0 !! i)) → heapTyped L h0 → a ∈ L →
  u ∈ U → u ∉ done → resetInv L a h0 n0 U done m →
  ∃ m', resetUse u m = Ret m' ∧ resetInv L a h0 n0 U (done ++ [u]) m'.
Proof.
  intros Hlt Ht Ha HuU Hud [HL Hf Hle (oa & Hoa & Hua) Heff Hfr].
  assert (u ∈ uses oa) as Hin by (by apply Hua).
  destruct (linked_uses _ _ HL a _ u Ha (clr_lookup_eq _ _ _ Hoa) Hin) as (HuL & ou & Hou & Hru).
  assert (u ≠ a) as Hne. { intros ->. rewrite (clr_lookup_eq _ _ _ Hoa) in Hou. by simplify_eq. }
  rewrite clr_lookup_ne in Hou by done.
  assert (mNext m ∉ L) as HnL by (intros HnL; apply Hlt in HnL as [? _]; lia).
  assert (resTyped ou) as Hty.
  { destruct (Hlt u HuL) as [_ [ou0 Hou0]]. destruct (Heff _ _ Hou0) as (o' & Ho' & Hrf & _ & _).
    assert (o' = ou) as -> by congruence. destruct (Ht _ _ HuL Hou0) as (tc & bf & desc & v & H).
    exists tc, bf, desc, v. by rewrite Hrf. }
  destruct (resetUse_eq m u ou a oa Hf Hou Hru Hoa Hne Hty) as (v & on & ->).
  eexists. split; [reflexivity|].
  destruct (linked_detach L (mHeap m) a u ou oa v (mNext m) on HL Ha Hoa Hin Hou HnL) as (HL3 & _).
  pose proof (Hf _ _ Hoa) as Han. pose proof (Hf _ _ Hou) as Hun.
  split; cbn [mHeap mNext]; [done| |lia| | |].
  - intros i oi Hi. cbn [mHeap mNext] in *. rewrite !lookup_insert_Some in Hi.
    destruct Hi as [[<- _]|[_ [[<- _]|[_ [[<- _]|[_ Hi]]]]]]; [lia..|]. apply Hf in Hi. lia.
  - exists (withoutUse oa u). split; [by rewrite lookup_insert_ne, lookup_insert_eq by done|].
    intros w. simpl. rewrite elem_of_difference, Hua, elem_of_app. set_solver.
  - intros i oi Hi. destruct (Heff _ _ Hi) as (o' & Ho' & Hrf & Hdr & Hres).
    destruct (decide (i = u)) as [->|Hiu].
    { rewrite lookup_insert_eq. eexists. split; [done|]. assert (o' = ou) as -> by congruence.
      simpl. split_and!; [done|done|]. intros _ _. rewrite decide_True; [done|]. split; [|set_solver].
      specialize (Hres HuL Hne). rewrite Hru in Hres. case_decide; congruence. }
    rewrite lookup_insert_ne by done. destruct (decide (i = a)) as [->|Hia].
    { rewrite lookup_insert_eq. eexists. split; [done|]. assert (o' = oa) as -> by congruence. done. }
    assert (i ≠ mNext m) by (apply Hf in Ho'; lia).
    rewrite !lookup_insert_ne by done. exists o'. split_and!; [done|done|done|].
    intros HiL Hia'. rewrite (Hres HiL Hia').
    destruct (decide (rRes oi = Some a ∧ i ∈ done)), (decide (rRes oi = Some a ∧ i ∈ done ++ [u]));
      try done; set_solver.
  - intros i o Hi Ho. pose proof (Hfr i o Hi Ho) as Ho'. pose proof (Hf _ _ Ho') as Hin'.
    rewrite !lookup_insert_ne; [done|lia|set_solver|set_solver].
Qed.

(** What removing the results [R] does to the results [L] of a program. *)
Record unlinked (L R : gset positive) (h h' : heap) : Prop := {
  un_linked : linked (L ∖ R) h';
  un_refs : sameRefs h h';
  un_effect : ∀ i o, i ∈ L ∖ R → h !! i = Some o → ∃ o', h' !! i = Some o' ∧
    rRes o' = match rRes o with Some r => if decide (r ∈ R) then None else Some r | None => None end;
  un_frame : ∀ i o, i ∉ L → h !! i = Some o → h' !! i = Some o
}.

Lemma unlink_spec L m a :
  linked L (mHeap m) → a ∈ L → fresh m → heapTyped L (mHeap m) →
  ∃ m', unlink (ResultArg a) m = Ret m' ∧ fresh m' ∧ (mNext m ≤ mNext m')%positive ∧ unlinked L {[a]} (mHeap m) (mHeap m').
Proof.
  intros HL Ha Hf Ht. destruct (linked_in _ _ HL a Ha) as [o Ho].
  destruct (unlinkOut_spec L m a o HL Ha Ho) as (h1 & o1 & Hout & HL1 & Ho1 & Heff & Hdom & Hfr1).
  unfold unlink. rewrite (deref_Some _ _ _ Ho). cbn [rbind]. unfold unlinkOut in Hout. rewrite Hout.
  cbn [rbind mHeap]. rewrite (deref_Some _ _ _ Ho1). cbn [rbind].
  destruct (for_list_inv (resetInv L a (mHeap m) (mNext m) (uses o1)) resetUse (rangeUses (uses o1))
    (Mem h1 (mNext m))) as (m2 & Hm2 & [HL2 Hf2 Hnx2 (oa & Hoa & Hno) Heff2 Hfr2]).
  - split; [done| |done|exists o1; set_solver| |done].
    + intros i oi Hi. destruct (Hdom _ _ Hi) as [o' Ho']. by apply Hf in Ho'.
    + intros i oi Hi. destruct (Heff _ _ Hi) as (o' & Ho' & Hr & Hrf & Hdr). exists o'. split_and!; [done|done|done|].
      intros _ _. by rewrite decide_False by set_solver.
  - intros dn u rest m1 Hl Hinv. pose proof (NoDup_elements (uses o1)) as Hnd.
    unfold rangeUses in Hl. rewrite Hl in Hnd. apply NoDup_app in Hnd as (_ & Hd & _).
    apply reset_step; [|done|done| | |done].
    + intros i Hi. destruct (linked_in _ _ HL i Hi) as [oi Hoi]. split; [by apply Hf in Hoi|done].
    + apply elem_of_elements. rewrite Hl. set_solver.
    + intros Hd'. by apply (Hd u Hd'), list_elem_of_here.
  - exists m2. split; [done|]. split; [done|]. split; [done|]. split.
    + eapply linked_remove; [done|done|exact Hoa|]. apply set_eq. intros u. rewrite Hno.
      unfold rangeUses. rewrite elem_of_elements. set_solver.
    + intros i oi Hi. destruct (Heff2 _ _ Hi) as (o' & Ho' & Hrf & Hdr & _). eauto.
    + intros i oi Hi Hoi. destruct (Heff2 _ _ Hoi) as (o' & Ho' & _ & _ & Hres). exists o'. split; [done|].
      rewrite Hres by set_solver. unfold rangeUses.
      destruct (rRes oi) as [r|] eqn:Er; [|by rewrite decide_False by naive_solver].
      destruct (decide (r ∈ ({[a]} : gset positive))) as [Hra|Hra];
        [|rewrite decide_False; [done|]; intros [[= ->] _]; set_solver].
      apply elem_of_singleton in Hra as ->. rewrite decide_True; [done|]. split; [done|].
      apply elem_of_elements. destruct (Heff _ _ Hoi) as (oi1 & Hoi1 & Hr1 & _).
      destruct (linked_res _ _ HL1 i oi1 a) as (_ & oa1 & Hoa1 & Hin1);
        [set_solver|by rewrite clr_lookup_ne by set_solver|congruence|].
      rewrite (clr_lookup_eq _ _ _ Ho1) in Hoa1. by simplify_eq.
    + done.
Qed.

Lemma unlinked_trans L R1 R2 h h1 h2 :
  unlinked L R1 h h1 → unlinked (L ∖ R1) R2 h1 h2 → unlinked L (R1 ∪ R2) h h2.
Proof.
  intros [HL1 Hr1 He1 Hf1] [HL2 Hr2 He2 Hf2]. split.
  - by replace (L ∖ (R1 ∪ R2)) with ((L ∖ R1) ∖ R2) by set_solver.
  - by etrans.
  - intros i o Hi Ho. destruct (He1 i o) as (o1 & Ho1 & Hres1); [set_solver|done|].
    destruct (He2 i o1) as (o2 & Ho2 & Hres2); [set_solver|done|]. exists o2. split; [done|].
    rewrite Hres2, Hres1. destruct (rRes o) as [r|]; [|done].
    repeat case_decide; set_solver.
  - intros i o Hi Ho. apply Hf2; [set_solver|]. by apply Hf1.
Qed.

Lemma unlinked_refl L h : linked L h → unlinked L ∅ h h.
Proof.
  intros HL. split; [by replace (L ∖ ∅) with L by set_solver|reflexivity| |done].
  intros i o _ Ho. exists o. split; [done|]. destruct (rRes o); [|done].
  by rewrite decide_False by set_solver.
Qed.

Lemma removeArg_spec L m arg :
  linked L (mHeap m) → fresh m → heapTyped L (mHeap m) →
  NoDup (results arg) → (∀ i, i ∈ results arg → i ∈ L) →
  (∀ x, x ∈ nodes arg → ∃ z, Size target (mHeap m) x = Ret z) →
  ∃ m', removeArg arg m = Ret m' ∧ fresh m' ∧ (mNext m ≤ mNext m')%positive ∧
    unlinked L (list_to_set (results arg)) (mHeap m) (mHeap m').
Proof.
  intros HL Hf Ht Hnd Hin Hsz.
  set (P := λ done m', (fresh m' ∧ (mNext m ≤ mNext m')%positive) ∧
    unlinked L (list_to_set (omap resultOf done)) (mHeap m) (mHeap m')).
  assert (∀ done x rest m1, nodes arg = done ++ x :: rest → P done m1 →
    ∃ m2, unlink x m1 = Ret m2 ∧ P (done ++ [x]) m2 ∧ sameRefs (mHeap m1) (mHeap m2)) as Hstep.
  { intros done x rest m1 Hfull [[Hf1 Hnx1] Hu]. unfold P. rewrite omap_app. cbn [omap list_omap].
    destruct x; cbn [resultOf]; 
      try (rewrite app_nil_r; exists m1; split_and!; [done|done|done|done|reflexivity]).
    assert (results arg = omap resultOf done ++ i :: omap resultOf rest) as Hres
      by (unfold results; rewrite Hfull, omap_app; done).
    rewrite Hres in Hnd. apply NoDup_app in Hnd as (_ & Hd & _).
    destruct (unlink_spec (L ∖ list_to_set (omap resultOf done)) m1 i) as (m2 & Hm2 & Hf2 & Hnx2 & Hu2).
    - apply Hu.
    - apply elem_of_difference. split; [apply Hin; rewrite Hres; set_solver|].
      rewrite elem_of_list_to_set. intros Hi. by apply (Hd i Hi), list_elem_of_here.
    - done.
    - eapply heapTyped_refs; [|apply Hu|intros j o Hj; apply Ht; set_solver].
      intros j Hj. apply (linked_in _ _ HL). set_solver.
    - exists m2. split; [done|]. split; [split; [split; [done|lia]|]|apply Hu2].
      rewrite list_to_set_app_L, list_to_set_cons, list_to_set_nil, union_empty_r_L.
      by eapply unlinked_trans. }
  destruct (foreach_inv target mHeap (λ a _ m, let! m := unlink a m in Ret (m, false)) (nodes arg) P)
    with (arg := arg) (ctx := emptyCtx) (done := @nil Arg) (suf := @nil Arg) (s := m)
    as (m' & Hm' & [[Hf' Hnx'] Hu'] & _).
  - intros done x rest ctx m1 z Hfull HP _.
    destruct (Hstep done x rest m1 Hfull HP) as (m2 & -> & HP2 & Hr2). simpl. eauto.
  - by rewrite app_nil_r.
  - split; [split; [done|lia]|]. by apply unlinked_refl.
  - done.
  - exists m'. done.
Qed.

(** A loop of removals. *)
Lemma removeArgs_spec args : ∀ L m,
  linked L (mHeap m) → fresh m → heapTyped L (mHeap m) →
  NoDup (concat (results <$> args)) → (∀ i, i ∈ concat (results <$> args) → i ∈ L) →
  (∀ a x, a ∈ args → x ∈ nodes a → ∃ z, Size target (mHeap m) x = Ret z) →
  ∃ m', for_list removeArg args m = Ret m' ∧ fresh m' ∧
    unlinked L (list_to_set (concat (results <$> args))) (mHeap m) (mHeap m').
Proof.
  induction args as [|a args IH]; intros L m HL Hf Ht Hnd Hin Hsz.
  { exists m. split; [done|]. split; [done|]. by apply unlinked_refl. }
  rewrite fmap_cons in *. cbn [concat for_list] in *. apply NoDup_app in Hnd as (Hnd1 & Hdisj & Hnd2).
  destruct (removeArg_spec L m a) as (m1 & -> & Hf1 & _ & Hu1); [done|done|done|done|set_solver| |].
  { intros x Hx. apply (Hsz a); [set_solver|done]. }
  cbn [rbind]. destruct (IH (L ∖ list_to_set (results a)) m1) as (m2 & -> & Hf2 & Hu2).
  - apply Hu1.
  - done.
  - eapply heapTyped_refs; [|apply Hu1|intros j o Hj; apply Ht; set_solver].
    intros j Hj. apply (linked_in _ _ HL). set_solver.
  - done.
  - intros i Hi. rewrite elem_of_difference, elem_of_list_to_set. split; [set_solver|]. intros H1.
    by apply (Hdisj i).
  - intros b x Hb Hx. destruct (Hsz b x) as [z Hz]; [set_solver|done|].
    exists z. eapply size_refs; [apply Hu1|done].
  - exists m2. split; [done|]. split; [done|]. rewrite list_to_set_app_L. by eapply unlinked_trans.
Qed.

(** ** Well-formed programs *)

Record wfProg (calls : list Call) (m : mem) : Prop := {
  wp_nodup : NoDup (progResults calls);
  wp_linked : linked (list_to_set (progResults calls)) (mHeap m);
  wp_typed : heapTyped (list_to_set (progResults calls)) (mHeap m);
  wp_fresh : fresh m;
  wp_sized : ∀ c a x, c ∈ calls → a ∈ Args c ++ (ResultArg <$> option_list (Ret_ c)) → x ∈ nodes a →
    ∃ z, Size target (mHeap m) x = Ret z
}.

Lemma callResults_args c :
  callResults c = concat (results <$> (Args c ++ (ResultArg <$> option_list (Ret_ c)))).
Proof.
  unfold callResults. rewrite fmap_app, concat_app. f_equal. by destruct (Ret_ c).
Qed.

Lemma RemoveCall_args calls idx c m :
  calls !! idx = Some c →
  RemoveCall calls idx m =
  (let! m := for_list removeArg (Args c ++ (ResultArg <$> option_list (Ret_ c))) m in
   Ret (delete idx calls, m)).
Proof.
  intros Hc. unfold RemoveCall. rewrite Hc, for_list_app, delete_take_drop, !bind_assoc.
  apply bind_ext. intros m1 _. destruct (Ret_ c); simpl; [|done].
  by destruct (removeArg (ResultArg p) m1).
Qed.

Lemma RemoveCall_spec calls idx c m :
  wfProg calls m → calls !! idx = Some c →
  ∃ m', RemoveCall calls idx m = Ret (delete idx calls, m') ∧ wfProg (delete idx calls) m' ∧
    (∀ i o, i ∈ progResults (delete idx calls) → mHeap m !! i = Some o →
      ∃ o', mHeap m' !! i = Some o' ∧
        rRes o' = match rRes o with
                  | Some r => if decide (r ∈ callResults c) then None else Some r
                  | None => None
                  end) ∧
    (∀ i o, i ∉ progResults calls → mHeap m !! i = Some o → mHeap m' !! i = Some o) ∧
    sameRefs (mHeap m) (mHeap m').
Proof.
  intros [Hnd HL Ht Hf Hsz] Hc. rewrite (RemoveCall_args _ _ _ _ Hc).
  set (L := list_to_set (progResults calls) : gset positive) in *.
  assert (progResults calls ≡ₚ callResults c ++ progResults (delete idx calls)) as Hperm.
  { unfold progResults. rewrite (delete_Permutation calls idx c Hc) at 1. done. }
  rewrite Hperm in Hnd. apply NoDup_app in Hnd as (Hnd1 & Hdisj & Hnd2).
  set (args := Args c ++ (ResultArg <$> option_list (Ret_ c))).
  pose proof (callResults_args c) as Hca. fold args in Hca.
  destruct (removeArgs_spec args L m) as (m' & -> & Hf' & [HL' Hr' He' Hfr']);
    [done|done|done|by rewrite <-Hca| | |].
  { intros i Hi. rewrite <-Hca in Hi. unfold L. rewrite elem_of_list_to_set, Hperm.
    set_solver. }
  { intros a x Ha. apply (Hsz c); [by eapply list_elem_of_lookup_2|done]. }
  assert (L ∖ list_to_set (callResults c) = list_to_set (progResults (delete idx calls))) as HL2.
  { apply set_eq. intros i. unfold L. rewrite elem_of_difference, !elem_of_list_to_set, Hperm.
    specialize (Hdisj i). rewrite elem_of_app. naive_solver. }
  rewrite <-Hca, HL2 in *. clear Hca. eexists. split; [reflexivity|]. split_and!.
  - split; [done|done| |done|].
    + eapply heapTyped_refs; [|done|].
      * intros i Hi. apply (linked_in _ _ HL). unfold L. rewrite elem_of_list_to_set, Hperm. set_solver.
      * intros i o Hi. apply Ht. unfold L. rewrite elem_of_list_to_set, Hperm. set_solver.
    + intros c' a x Hc' Ha Hx. destruct (Hsz c' a x) as [z Hz]; [|done|done|].
      * apply list_elem_of_lookup in Hc' as [k Hk].
        rewrite (delete_Permutation calls idx c Hc). apply elem_of_cons. right.
        by eapply list_elem_of_lookup_2.
      * exists z. by eapply size_refs.
  - intros i o Hi Ho. destruct (He' i o) as (o' & Ho' & Hres); [by rewrite elem_of_list_to_set|done|].
    exists o'. split; [done|]. rewrite Hres. destruct (rRes o); [|done].
    repeat case_decide; set_solver.
  - intros i o Hi. apply Hfr'. unfold L. by rewrite elem_of_list_to_set.
  - done.
Qed.


(** C8. [RemoveCall] succeeds on a well-formed program and leaves a well-formed one: no
    remaining result refers to a removed one, the two directions of the remaining
    links agree, and a result keeps its reference unless it was to a removed
    result, in which case it becomes a constant. *)
Theorem removeCall_links calls idx c m :
  wfProg calls m → calls !! idx = Some c →
  ∃ m', RemoveCall calls idx m = Ret (delete idx calls, m') ∧ wfProg (delete idx calls) m' ∧
    ∀ i o, i ∈ progResults (delete idx calls) → mHeap m !! i = Some o →
      ∃ o', mHeap m' !! i = Some o' ∧
        rRes o' = match rRes o with
                  | Some r => if decide (r ∈ callResults c) then None else Some r
                  | None => None
                  end.
Proof.
  intros Hwf Hc. destruct (RemoveCall_spec calls idx c m Hwf Hc) as (m' & ? & ? & ? & _). eauto.
Qed.

End target.

Lemma example_heap i o :
  ExampleTarget.heap0 !! i = Some o →
  i = 1%positive ∧ o = MkResult 2 DirOut None 0 0 0 {[5%positive]} ∨
  i = 5%positive ∧ o = MkResult 2 DirIn (Some 1%positive) 0 0 0 ∅.
Proof.
  unfold ExampleTarget.heap0. rewrite !lookup_insert_Some, lookup_empty. naive_solver.
Qed.

Lemma exampleProg_wf : wfProg ExampleTarget.target ExampleTarget.calls (Mem ExampleTarget.heap0 12).
Proof.
  split.
  - change (progResults ExampleTarget.calls) with [1%positive; 5%positive]. repeat constructor; set_solver.
  - split.
    + intros i Hi. rewrite elem_of_list_to_set in Hi.
      change (progResults ExampleTarget.calls) with [1%positive; 5%positive] in Hi.
      rewrite !elem_of_cons, elem_of_nil in Hi. destruct_or! Hi; subst; by eexists.
    + intros i o j _ Ho Hj. apply example_heap in Ho as [[-> ->]|[-> ->]]; [done|].
      injection Hj as <-. split; [by vm_compute|]. eexists. split; [by vm_compute|]. set_solver.
    + intros j oj i _ Ho Hin. apply example_heap in Ho as [[-> ->]|[-> ->]]; [|set_solver].
      simpl in Hin. apply elem_of_singleton in Hin as ->. split; [by vm_compute|].
      eexists. by vm_compute.
  - intros i o _ Ho. exists (ExampleTarget.mk "fd" 4 false 2), FormatNative,
      (MkResourceDesc "fd" ["fd"] [2 ^ 64 - 1]), (2 ^ 64 - 1).
    apply example_heap in Ho as [[-> ->]|[-> ->]]; done.
  - intros i o Ho. apply example_heap in Ho as [[-> _]|[-> _]]; done.
  - intros c a x Hc Ha Hx. unfold ExampleTarget.calls in Hc. rewrite !elem_of_cons, elem_of_nil in Hc.
    destruct_or! Hc; subst; simpl in Ha; rewrite ?elem_of_cons, ?elem_of_nil in Ha;
      destruct_or? Ha; subst; simpl in Hx; rewrite ?elem_of_cons, ?elem_of_nil in Hx;
      destruct_or? Hx; subst; try done; eexists; vm_compute; reflexivity.
Qed.

Lemma removeCall_links_witness :
  ∃ m', RemoveCall ExampleTarget.target ExampleTarget.calls 0 (Mem ExampleTarget.heap0 12)
      = Ret ([ExampleTarget.callWrite], m') ∧
    ∃ o', mHeap m' !! 5%positive = Some o' ∧ rRes o' = None.
Proof.
  destruct (removeCall_links ExampleTarget.target ExampleTarget.calls 0 ExampleTarget.callOpen
    (Mem ExampleTarget.heap0 12) exampleProg_wf eq_refl) as (m' & Hm' & _ & He).
  exists m'. split; [exact Hm'|].
  destruct (He 5%positive (MkResult 2 DirIn (Some 1%positive) 0 0 0 ∅)) as (o' & Ho' & Hr).
  - vm_compute. apply list_elem_of_here.
  - reflexivity.
  - exists o'. split; [exact Ho'|]. rewrite Hr. vm_compute. reflexivity.
Defined.

End ProgEdit.
