(* ===== verification/Clone.v ===== *)
(** * Clone: deep copies of programs (prog/clone.go) *)

From S2P Require Import Prelude Types Prog ExampleTarget ProgEdit.
Import Types Prog ProgEdit.

Module Clone.

(** [newargs]: original results to their copies; [None] is the [nil] map. *)
Notation newargsT := (option (gmap positive positive)) (only parsing).

(** The reference of a copied result: to the copy when copies are tracked. *)
Definition cloneRef (newargs : newargsT) (r : positive) : res positive :=
  match newargs with
  | None => Ret r
  | Some na => match na !! r with Some r1 => Ret r1 | None => Panic "nil pointer dereference" end
  end.

Fixpoint clone (arg : Arg) (newargs : newargsT) (m : mem) : res (Arg * newargsT * mem) :=
  match arg with
  | ConstArg c v => let (i, m) := alloc m in Ret (ConstArg (withId i c) v, newargs, m)
  | PointerArg c a v pointee =>
    let (i, m) := alloc m in
    match pointee with
    | None => Ret (PointerArg (withId i c) a v None, newargs, m)
    | Some p =>
      let! '(p1, newargs, m) := clone p newargs m in
      Ret (PointerArg (withId i c) a v (Some p1), newargs, m)
    end
  | DataArg c data size => let (i, m) := alloc m in Ret (DataArg (withId i c) data size, newargs, m)
  | GroupArg c inner =>
    let (i, m) := alloc m in
    let! '(inner1, newargs, m) :=
      for_list (λ x '(l, newargs, m),
        let! '(x1, newargs, m) := clone x newargs m in Ret (l ++ [x1], newargs, m))
        inner ([], newargs, m) in
    Ret (GroupArg (withId i c) inner1, newargs, m)
  | UnionArg c opt idx tr =>
    let (i, m) := alloc m in
    let! '(opt1, newargs, m) := clone opt newargs m in
    Ret (UnionArg (withId i c) opt1 idx tr, newargs, m)
  | ResultArg a =>
    let! o := deref (mHeap m) a in
    let (i, m) := alloc m in
    let! h :=
      match rRes o with
      | None =>
        Ret (<[i := MkResult (rRef o) (rDir o) None (OpDiv o) (OpAdd o) (rVal o) ∅]> (mHeap m))
      | Some r =>
        let! r := cloneRef newargs r in
        addUse r i
          (<[i := MkResult (rRef o) (rDir o) (Some r) (OpDiv o) (OpAdd o) (rVal o) ∅]> (mHeap m))
      end in
    Ret (ResultArg i, (λ na, <[a := i]> na) <$> newargs, Mem h (mNext m))
  end.

Definition cloneCall (c : Call) (newargs : newargsT) (m : mem) : res (Call * newargsT * mem) :=
  let! '(ret, newargs, m) :=
    match Ret_ c with
    | None => Ret (None, newargs, m)
    | Some i =>
      let! '(r, newargs, m) := clone (ResultArg i) newargs m in
      match r with
      | ResultArg i1 => Ret (Some i1, newargs, m)
      | _ => Panic "interface conversion: not a ResultArg"
      end
    end in
  let! '(args, newargs, m) :=
    for_list (λ x '(l, newargs, m),
      let! '(x1, newargs, m) := clone x newargs m in Ret (l ++ [x1], newargs, m))
      (Args c) ([], newargs, m) in
  Ret (MkCall (Meta c) args ret (Props c) "", newargs, m).

Definition cloneCalls (calls : list Call) (newargs : newargsT) (m : mem) :
    res (list Call * newargsT * mem) :=
  for_list (λ c '(l, newargs, m),
    let! '(c1, newargs, m) := cloneCall c newargs m in Ret (l ++ [c1], newargs, m))
    calls ([], newargs, m).

(** [Prog.Clone]; [debugValidate] does nothing outside of tests. *)
Definition Clone (calls : list Call) (m : mem) : res (list Call * mem) :=
  let! '(calls1, _, m) := cloneCalls calls (Some ∅) m in Ret (calls1, m).

Definition CloneArg (arg : Arg) (m : mem) : res (Arg * mem) :=
  let! '(arg1, _, m) := clone arg None m in Ret (arg1, m).

(** ** What a copy is *)

(** Equal up to identities, results renamed by [na]. *)
Fixpoint copyOf (na : gmap positive positive) (a a1 : Arg) : Prop :=
  match a, a1 with
  | ConstArg c v, ConstArg c1 v1 => aref c1 = aref c ∧ adir c1 = adir c ∧ v1 = v
  | PointerArg c ad v p, PointerArg c1 ad1 v1 p1 =>
    aref c1 = aref c ∧ adir c1 = adir c ∧ ad1 = ad ∧ v1 = v ∧
    match p, p1 with None, None => True | Some p, Some p1 => copyOf na p p1 | _, _ => False end
  | DataArg c d s, DataArg c1 d1 s1 => aref c1 = aref c ∧ adir c1 = adir c ∧ d1 = d ∧ s1 = s
  | GroupArg c l, GroupArg c1 l1 =>
    aref c1 = aref c ∧ adir c1 = adir c ∧
    (fix go l l1 : Prop := match l, l1 with
      | [], [] => True
      | x :: l, x1 :: l1 => copyOf na x x1 ∧ go l l1
      | _, _ => False
      end) l l1
  | UnionArg c o i t, UnionArg c1 o1 i1 t1 =>
    aref c1 = aref c ∧ adir c1 = adir c ∧ i1 = i ∧ t1 = t ∧ copyOf na o o1
  | ResultArg i, ResultArg i1 => na !! i = Some i1
  | _, _ => False
  end.

Record copyOfCall (na : gmap positive positive) (c c1 : Call) : Prop := {
  cc_meta : Meta c1 = Meta c;
  cc_props : Props c1 = Props c;
  cc_args : Forall2 (copyOf na) (Args c) (Args c1);
  cc_ret : Ret_ c1 = (Ret_ c ≫= (na !!.)) ∧ (is_Some (Ret_ c) ↔ is_Some (Ret_ c1))
}.

(** The results in the order they are copied. *)
Definition cloneOrder (c : Call) : list positive :=
  option_list (Ret_ c) ++ concat (results <$> Args c).

(** The state after the results [done] were copied, from the heap [h0] on. *)
Record copied (h0 : heap) (n0 : positive) (done : list positive) (na : gmap positive positive) (m : mem) :
    Prop := {
  cp_fresh : fresh m;
  cp_next : (n0 ≤ mNext m)%positive;
  cp_old : h0 ⊆ mHeap m;
  cp_dom : ∀ i, is_Some (na !! i) ↔ i ∈ done;
  cp_range : ∀ i i1, na !! i = Some i1 → (n0 ≤ i1)%positive;
  cp_inj : ∀ i j k, na !! i = Some k → na !! j = Some k → i = j;
  cp_obj : ∀ i i1 o, na !! i = Some i1 → h0 !! i = Some o →
    ∃ o1, mHeap m !! i1 = Some o1 ∧ rRef o1 = rRef o ∧ rDir o1 = rDir o ∧ OpDiv o1 = OpDiv o ∧
      OpAdd o1 = OpAdd o ∧ rVal o1 = rVal o ∧ rRes o1 = (rRes o ≫= (na !!.)) ∧
      (is_Some (rRes o) ↔ is_Some (rRes o1)) ∧
      ∀ k, k ∈ uses o1 ↔ ∃ u ou, na !! u = Some k ∧ h0 !! u = Some ou ∧ rRes ou = Some i
}.

(** Every result is in the heap, occurs once and refers to an earlier one. *)
Definition wellOrdered (h : heap) (l : list positive) : Prop :=
  ∀ pre a post, l = pre ++ a :: post →
    a ∉ pre ∧ ∃ o, h !! a = Some o ∧ ∀ r, rRes o = Some r → r ∈ pre.

(** ** Lemmas on copies *)

Lemma copyOf_group na c l c1 l1 :
  copyOf na (GroupArg c l) (GroupArg c1 l1) ↔
  aref c1 = aref c ∧ adir c1 = adir c ∧ Forall2 (copyOf na) l l1.
Proof.
  simpl. do 2 (apply and_iff_compat_l). revert l1; induction l as [|x l IH]; intros [|x1 l1]; simpl.
  - split; [constructor|done].
  - split; [done|inversion 1].
  - split; [done|inversion 1].
  - rewrite IH. split; [intros [? ?]; by constructor|by inversion 1].
Qed.

Lemma copyOf_mono na na' a a1 : na ⊆ na' → copyOf na a a1 → copyOf na' a a1.
Proof.
  intros Hna. revert a1; induction a as [c v|c ad v r IH|c d s|c l IH|c o i t IH|i] using arg_ind;
    intros [c1 v1|c1 ad1 v1 r1|c1 d1 s1|c1 l1|c1 o1 i1 t1|i1]; try done.
  - simpl. intros (? & ? & ? & ? & Hp). split_and!; try done. destruct r as [p|], r1 as [p1|]; try done.
    by apply IH.
  - rewrite !copyOf_group. intros (Hr & Hd & Hl). split_and!; [done|done|].
    clear Hr Hd. induction Hl as [|x x1 l l1 Hx Hl IHl]; constructor.
    + apply IH; [apply list_elem_of_here|done].
    + apply IHl. intros y Hy. apply IH. by apply list_elem_of_further.
  - simpl. intros (? & ? & ? & ? & Ho). split_and!; try done. by apply IH.
  - simpl. intros H. by eapply lookup_weaken.
Qed.

Lemma copyOfCall_mono na na' c c1 : na ⊆ na' → copyOfCall na c c1 → copyOfCall na' c c1.
Proof.
  intros Hsub [? ? Ha [Hr Hs]]. split; [done|done| |].
  - eapply Forall2_impl; [exact Ha|]. intros x y. by apply copyOf_mono.
  - split; [|done]. rewrite Hr. destruct (Ret_ c) as [i|]; [|done]. simpl in *.
    destruct (proj1 Hs ltac:(eauto)) as [i1 Hi1]. rewrite Hi1 in Hr. rewrite <-Hr.
    symmetry. by eapply lookup_weaken.
Qed.

Lemma results_group c l : results (GroupArg c l) = concat (results <$> l).
Proof.
  unfold results. cbn [nodes]. change (omap resultOf (GroupArg c l :: ?x)) with (omap resultOf x).
  induction l as [|x l IH]; [done|]. rewrite !fmap_cons. cbn [concat]. by rewrite omap_app, IH.
Qed.

Section copy.
Context (h0 : heap) (n0 : positive) (full : list positive).
Hypothesis Hord : wellOrdered h0 full.

Lemma copied_alloc done na m i m' : copied h0 n0 done na m → alloc m = (i, m') → copied h0 n0 done na m'.
Proof.
  intros [Hf Hn Ho Hd Hr Hi Hobj] [= <- <-]. split; try done; simpl; [|lia].
  intros j o Hj. apply Hf in Hj. simpl. lia.
Qed.

Lemma copied_refs done na m i o r :
  copied h0 n0 done na m → i ∈ done → h0 !! i = Some o → rRes o = Some r → r ∈ done.
Proof.
  intros Hc Hi Ho Hr. destruct (proj2 (cp_dom _ _ _ _ _ Hc i) Hi) as [i1 Hi1].
  destruct (cp_obj _ _ _ _ _ Hc i i1 o Hi1 Ho) as (o1 & _ & _ & _ & _ & _ & _ & Hres & Hsome & _).
  rewrite Hr in Hres, Hsome. simpl in Hres. destruct (proj1 Hsome) as [r1 Hr1]; [by eauto|].
  apply (cp_dom _ _ _ _ _ Hc). exists r1. congruence.
Qed.

Definition addedUse (o : ResultObj) (i : positive) : ResultObj :=
  MkResult (rRef o) (rDir o) (rRes o) (OpDiv o) (OpAdd o) (rVal o) ({[i]} ∪ uses o).

Lemma clone_result_eq done a post na m :
  full = done ++ a :: post → copied h0 n0 done na m →
  ∃ o h', h0 !! a = Some o ∧
    clone (ResultArg a) (Some na) m =
      Ret (ResultArg (mNext m), Some (<[a := mNext m]> na), Mem h' (Pos.succ (mNext m))) ∧
    h' !! mNext m = Some (MkResult (rRef o) (rDir o) (rRes o ≫= (na !!.)) (OpDiv o) (OpAdd o) (rVal o) ∅) ∧
    (is_Some (rRes o) ↔ is_Some (rRes o ≫= (na !!.))) ∧
    ∀ j, j ≠ mNext m → h' !! j =
      (if decide (Some j = (rRes o ≫= (na !!.))) then (λ x, addedUse x (mNext m)) <$> mHeap m !! j
       else mHeap m !! j).
Proof.
  intros Hfull Hc. destruct (Hord _ _ _ Hfull) as (Hna & o & Ho & Hearly). exists o.
  simpl. assert (mHeap m !! a = Some o) as Hoa by (eapply lookup_weaken; [done|apply Hc]).
  rewrite (deref_Some _ _ _ Hoa). cbn [rbind alloc mHeap mNext].
  destruct (rRes o) as [r|] eqn:Er; simpl.
  - assert (r ∈ done) as Hr by (by apply Hearly).
    destruct (proj2 (cp_dom _ _ _ _ _ Hc r) Hr) as [r1 Hr1]. rewrite Hr1. cbn [rbind].
    apply list_elem_of_split in Hr as (d1 & d2 & Hd).
    assert (full = d1 ++ r :: d2 ++ a :: post) as Hf2 by (by rewrite Hfull, Hd, <-app_assoc).
    destruct (Hord _ _ _ Hf2) as (_ & or & Hor & _).
    destruct (cp_obj _ _ _ _ _ Hc r r1 or Hr1 Hor) as (o1 & Ho1 & _).
    assert (r1 ≠ mNext m) as Hne by (apply (cp_fresh _ _ _ _ _ Hc) in Ho1; lia).
    unfold addUse. erewrite deref_Some by (rewrite lookup_insert_ne by done; exact Ho1). cbn [rbind].
    eexists. split; [done|]. split; [reflexivity|]. split; [|split].
    + by rewrite lookup_insert_ne, lookup_insert_eq by done.
    + split; eauto.
    + intros j Hj. destruct (decide (j = r1)) as [->|Hn].
      * rewrite lookup_insert_eq, decide_True, Ho1 by done. done.
      * rewrite !lookup_insert_ne by done. by rewrite decide_False by congruence.
  - eexists. split; [done|]. split; [reflexivity|]. split; [|split].
    + by rewrite lookup_insert_eq.
    + done.
    + intros j Hj. rewrite lookup_insert_ne by done. done.
Qed.

(** The contents of the copies after one more result [a] was copied. *)
Lemma clone_result_obj done a post na m o (h' : heap) :
  full = done ++ a :: post → copied h0 n0 done na m → h0 !! a = Some o → na !! a = None →
  h' !! mNext m = Some (MkResult (rRef o) (rDir o) (rRes o ≫= (na !!.)) (OpDiv o) (OpAdd o) (rVal o) ∅) →
  (is_Some (rRes o) ↔ is_Some (rRes o ≫= (na !!.))) →
  (∀ j, j ≠ mNext m → h' !! j =
    (if decide (Some j = (rRes o ≫= (na !!.))) then (λ x, addedUse x (mNext m)) <$> mHeap m !! j
     else mHeap m !! j)) →
  ∀ j j1 oj, <[a := mNext m]> na !! j = Some j1 → h0 !! j = Some oj →
    ∃ o1, h' !! j1 = Some o1 ∧ rRef o1 = rRef oj ∧ rDir o1 = rDir oj ∧ OpDiv o1 = OpDiv oj ∧
      OpAdd o1 = OpAdd oj ∧ rVal o1 = rVal oj ∧ rRes o1 = (rRes oj ≫= (<[a := mNext m]> na !!.)) ∧
      (is_Some (rRes oj) ↔ is_Some (rRes o1)) ∧
      ∀ k, k ∈ uses o1 ↔ ∃ u ou, <[a := mNext m]> na !! u = Some k ∧ h0 !! u = Some ou ∧ rRes ou = Some j.
Proof.
  intros Hfull Hc Ho Hnaa Hnew Hsome Hother.
  destruct (Hord _ _ _ Hfull) as (Hna & o' & Ho' & Hearly). assert (o' = o) as -> by congruence.
  set (i := mNext m) in *.
  assert (∀ j o, mHeap m !! j = Some o → j ≠ i) as Hold.
  { intros j oj Hj. apply (cp_fresh _ _ _ _ _ Hc) in Hj. unfold i. lia. }
  assert (∀ r, r ∈ done → <[a := i]> na !! r = na !! r) as Hins.
  { intros r Hr. apply lookup_insert_ne. intros ->. done. }
  intros j j1 oj Hj Hoj. apply lookup_insert_Some in Hj as [[<- <-]|[Hja Hj]].
  - assert (oj = o) as -> by congruence. eexists. split; [exact Hnew|]. simpl.
    assert ((rRes o ≫= (na !!.)) = (rRes o ≫= (<[a := i]> na !!.))) as ->.
    { destruct (rRes o) as [r|] eqn:Er; [|done]. simpl. by rewrite Hins by (by apply Hearly). }
    split_and!; try done.
    + rewrite Hsome. destruct (rRes o) as [r|] eqn:Er; [|done]. simpl.
      by rewrite Hins by (by apply Hearly).
    + intros k. split; [set_solver|]. intros (u & ou & Hu & Hou & Hru). exfalso.
      apply lookup_insert_Some in Hu as [[<- _]|[_ Hu]].
      * assert (ou = o) as -> by congruence. by apply Hna, Hearly.
      * apply Hna. eapply copied_refs; [exact Hc| |exact Hou|exact Hru].
         apply (cp_dom _ _ _ _ _ Hc). eauto.
  - assert (j ∈ done) as Hjd by (apply (cp_dom _ _ _ _ _ Hc); eauto).
    destruct (cp_obj _ _ _ _ _ Hc _ _ _ Hj Hoj) as (o1 & Ho1 & ? & ? & ? & ? & ? & Hres1 & Hs1 & Hu1).
    assert ((rRes oj ≫= (<[a := i]> na !!.)) = (rRes oj ≫= (na !!.))) as ->.
    { destruct (rRes oj) as [r|] eqn:Er; [|done]. simpl. rewrite Hins; [done|].
      by eapply copied_refs. }
    rewrite Hother by (by eapply Hold). rewrite Ho1.
    exists (if decide (Some j1 = (rRes o ≫= (na !!.))) then addedUse o1 i else o1).
    split; [by case_decide|].
    assert (∀ k, (∃ u ou, <[a:=i]> na !! u = Some k ∧ h0 !! u = Some ou ∧ rRes ou = Some j) ↔
      k ∈ uses o1 ∨ k = i ∧ rRes o = Some j) as Hk.
    { intros k. rewrite Hu1. split.
      - intros (u & ou & Hu & Hou & Hru). apply lookup_insert_Some in Hu as [[<- <-]|[Hn Hu]]; [|by eauto 10].
        right. split; [done|congruence].
      - intros [(u & ou & Hu & Hou & Hru)|[-> Hr]].
        + exists u, ou. split; [|done]. rewrite lookup_insert_ne; [done|]. intros ->. congruence.
        + exists a, o. by rewrite lookup_insert_eq. }
    assert (Some j1 = (rRes o ≫= (na !!.)) ↔ rRes o = Some j) as Hiff.
    { split; [|intros ->; simpl; by rewrite Hj]. intros Hb. symmetry in Hb.
      apply bind_Some in Hb as (r & Hr & Hr1). rewrite Hr. f_equal. by eapply (cp_inj _ _ _ _ _ Hc). }
    destruct (decide (Some j1 = (rRes o ≫= (na !!.)))) as [Hd|Hd]; simpl; split_and!; try done;
      intros k; rewrite Hk; set_solver.
Qed.

Lemma clone_result done a post na m :
  full = done ++ a :: post → copied h0 n0 done na m → fresh (Mem h0 n0) →
  ∃ i m', clone (ResultArg a) (Some na) m = Ret (ResultArg i, Some (<[a := i]> na), m') ∧
    copied h0 n0 (done ++ [a]) (<[a := i]> na) m' ∧ na !! a = None.
Proof.
  intros Hfull Hc Hf0. destruct (clone_result_eq _ _ _ _ _ Hfull Hc) as (o & h' & Ho & Hcl & Hnew & Hsome & Hother).
  destruct (Hord _ _ _ Hfull) as (Hna & o' & Ho' & Hearly). assert (o' = o) as -> by congruence.
  assert (na !! a = None) as Hnaa.
  { destruct (na !! a) eqn:E; [|done]. exfalso. apply Hna, (cp_dom _ _ _ _ _ Hc). eauto. }
  exists (mNext m), (Mem h' (Pos.succ (mNext m))). split; [done|]. split; [|done].
  set (i := mNext m) in *. pose proof (cp_next _ _ _ _ _ Hc) as Hnext. fold i in Hnext.
  assert (∀ j o, mHeap m !! j = Some o → j ≠ i) as Hold.
  { intros j oj Hj. apply (cp_fresh _ _ _ _ _ Hc) in Hj. unfold i. lia. }
  split; simpl; [| |  | | | |].
  - intros j oj Hj. destruct (decide (j = i)) as [->|Hn]; [simpl; unfold i; lia|].
    simpl in Hj. rewrite Hother in Hj by done.
    assert (is_Some (mHeap m !! j)) as [x Hx]
      by (case_decide; [apply fmap_Some in Hj as (x & Hx & _)|]; eauto).
    apply (cp_fresh _ _ _ _ _ Hc) in Hx. simpl. unfold i. lia.
  - lia.
  - apply map_subseteq_spec. intros j oj Hj.
    assert (mHeap m !! j = Some oj) as Hj' by (eapply lookup_weaken; [done|apply Hc]).
    rewrite Hother by (by eapply Hold). rewrite decide_False; [done|].
    intros Hb. symmetry in Hb. apply bind_Some in Hb as (r & _ & Hr).
    apply (cp_range _ _ _ _ _ Hc) in Hr. apply Hf0 in Hj. simpl in Hj. lia.
  - intros j. destruct (decide (j = a)) as [->|Hn].
    + rewrite lookup_insert_eq. set_solver.
    + rewrite lookup_insert_ne, (cp_dom _ _ _ _ _ Hc) by done. set_solver.
  - intros j j1. rewrite lookup_insert_Some. intros [[_ <-]|[_ H]]; [lia|].
    by apply (cp_range _ _ _ _ _ Hc) in H.
  - assert (∀ j, na !! j ≠ Some i) as Hni.
    { intros j Hj. assert (is_Some (h0 !! j)) as [oj Hoj].
      { assert (j ∈ done) as Hjd by (apply (cp_dom _ _ _ _ _ Hc); eauto).
        apply list_elem_of_split in Hjd as (d1 & d2 & Hd).
        destruct (Hord d1 j (d2 ++ a :: post)) as (_ & oj & ? & _); [by rewrite Hfull, Hd, <-app_assoc|eauto]. }
      destruct (cp_obj _ _ _ _ _ Hc _ _ _ Hj Hoj) as (o1 & Ho1 & _). by apply Hold in Ho1. }
    intros j k x. rewrite !lookup_insert_Some.
    intros [[<- <-]|[? Hj]] [[<- Hk]|[? Hk]]; [done|by apply Hni in Hk|subst; by apply Hni in Hj|].
    by eapply (cp_inj _ _ _ _ _ Hc).
  - by apply (clone_result_obj done a post na m o h').
Qed.

Hypothesis Hfresh0 : fresh (Mem h0 n0).

(** What copying something with the results [l] achieves. *)
Definition copies {A} (l : list positive) (done : list positive) (na : gmap positive positive)
    (ok : gmap positive positive → A → Prop) (x : res (A * newargsT * mem)) : Prop :=
  ∃ y na' m', x = Ret (y, Some na', m') ∧ na ⊆ na' ∧ copied h0 n0 (done ++ l) na' m' ∧ ok na' y.

(** A loop of copies. *)
Lemma copies_loop {A B} (f : A → newargsT → mem → res (B * newargsT * mem)) (rs : A → list positive)
    (ok : gmap positive positive → A → B → Prop) l :
  (∀ na na' x y, na ⊆ na' → ok na x y → ok na' x y) →
  (∀ x done suf na m, x ∈ l → full = done ++ rs x ++ suf → copied h0 n0 done na m →
     copies (rs x) done na (λ na y, ok na x y) (f x (Some na) m)) →
  ∀ pre pre1 done suf na m,
    full = done ++ concat (rs <$> l) ++ suf → copied h0 n0 done na m → Forall2 (ok na) pre pre1 →
    copies (concat (rs <$> l)) done na (λ na, Forall2 (ok na) (pre ++ l))
      (for_list (λ x '(ys, na, m), let! '(y, na, m) := f x na m in Ret (ys ++ [y], na, m)) l (pre1, Some na, m)).
Proof.
  intros Hmono Hf. induction l as [|x l IH]; intros pre pre1 done suf na m Hfull Hc Hpre.
  { exists pre1, na, m. cbn [fmap list_fmap concat]. rewrite !app_nil_r. done. }
  rewrite fmap_cons in *. cbn [concat for_list] in *. rewrite <-app_assoc in Hfull.
  destruct (Hf x done (concat (rs <$> l) ++ suf) na m (list_elem_of_here _ _) Hfull Hc)
    as (y & na1 & m1 & -> & Hsub & Hc1 & Hok). cbn [rbind].
  destruct (IH (λ z d s n m' Hz, Hf z d s n m' (list_elem_of_further _ _ _ Hz)) (pre ++ [x]) (pre1 ++ [y])
    (done ++ rs x) suf na1 m1) as (ys & na2 & m2 & -> & Hsub2 & Hc2 & Hok2).
  - by rewrite <-app_assoc.
  - done.
  - apply Forall2_app; [|by constructor]. eapply Forall2_impl; [exact Hpre|]. intros a b. by apply Hmono.
  - exists ys, na2, m2. rewrite app_assoc. rewrite <-app_assoc in Hok2.
    split_and!; [done|by etrans|done|done].
Qed.

Lemma clone_copies arg : ∀ done suf na m,
  full = done ++ results arg ++ suf → copied h0 n0 done na m →
  copies (results arg) done na (λ na a1, copyOf na arg a1) (clone arg (Some na) m).
Proof.
  induction arg as [c v|c ad v r IH|c d sz|c l IH|c o i t IH|a] using arg_ind; intros done suf na m Hfull Hc.
  - eexists _, na, _. split; [reflexivity|]. rewrite app_nil_r.
    split_and!; [done|by eapply copied_alloc|done..].
  - destruct r as [p|].
    + cbn [clone]. destruct (alloc m) as [j m1] eqn:Ea. pose proof (copied_alloc _ _ _ _ _ Hc Ea) as Hc1.
      destruct (IH p eq_refl done suf na m1 Hfull Hc1) as (p1 & na' & m' & -> & ? & ? & ?).
      cbn [rbind]. eexists _, na', m'. split_and!; done.
    + eexists _, na, _. split; [reflexivity|]. rewrite app_nil_r.
      split_and!; [done|by eapply copied_alloc|done..].
  - eexists _, na, _. split; [reflexivity|]. rewrite app_nil_r.
    split_and!; [done|by eapply copied_alloc|done..].
  - cbn [clone]. destruct (alloc m) as [j m1] eqn:Ea. pose proof (copied_alloc _ _ _ _ _ Hc Ea) as Hc1.
    rewrite results_group in *.
    destruct (copies_loop clone results copyOf l) with (pre := @nil Arg) (pre1 := @nil Arg)
      (done := done) (suf := suf) (na := na) (m := m1) as (l1 & na' & m' & -> & ? & ? & ?).
    + intros ????. apply copyOf_mono.
    + intros x d s n m' Hx Hf Hcp. by eapply IH.
    + done.
    + done.
    + constructor.
    + cbn [rbind]. eexists _, na', m'. split_and!; [done|done|done|]. by apply copyOf_group.
  - cbn [clone]. destruct (alloc m) as [j m1] eqn:Ea. pose proof (copied_alloc _ _ _ _ _ Hc Ea) as Hc1.
    destruct (IH done suf na m1 Hfull Hc1) as (o1 & na' & m' & -> & ? & ? & ?).
    cbn [rbind]. eexists _, na', m'. split_and!; done.
  - destruct (clone_result _ _ _ _ _ Hfull Hc Hfresh0) as (j & m' & -> & Hc' & Hn).
    eexists _, _, m'. split_and!; [done|by apply insert_subseteq|done|]. simpl. by rewrite lookup_insert_eq.
Qed.

Lemma cloneCall_copies c done suf na m :
  full = done ++ cloneOrder c ++ suf → copied h0 n0 done na m →
  copies (cloneOrder c) done na (λ na c1, copyOfCall na c c1) (cloneCall c (Some na) m).
Proof.
  unfold cloneOrder. intros Hfull Hc. rewrite <-app_assoc in Hfull. unfold cloneCall.
  assert (∃ ret na1 m1, match Ret_ c with
      | None => Ret (None, Some na, m)
      | Some i => let! '(r, newargs, m) := clone (ResultArg i) (Some na) m in
        match r with
        | ResultArg i1 => Ret (Some i1, newargs, m)
        | _ => Panic "interface conversion: not a ResultArg" end
      end = Ret (ret, Some na1, m1) ∧ na ⊆ na1 ∧ copied h0 n0 (done ++ option_list (Ret_ c)) na1 m1 ∧
      ret = (Ret_ c ≫= (na1 !!.)) ∧ (is_Some (Ret_ c) ↔ is_Some ret))
    as (ret & na1 & m1 & -> & Hsub1 & Hc1 & Hret & Hsome).
  { destruct (Ret_ c) as [i|]; simpl in Hfull |- *.
    - destruct (clone_result _ _ _ _ _ Hfull Hc Hfresh0) as (j & m' & Hcl & Hc' & Hn).
      simpl in Hcl. rewrite Hcl. cbn [rbind]. eexists _, _, m'.
      split_and!; [done|by apply insert_subseteq|done|simpl; by rewrite lookup_insert_eq|split; eauto].
    - eexists _, _, _. rewrite app_nil_r. split_and!; done. }
  cbn [rbind]. rewrite app_assoc in Hfull.
  destruct (copies_loop clone results copyOf (Args c)) with (pre := @nil Arg) (pre1 := @nil Arg)
    (done := done ++ option_list (Ret_ c)) (suf := suf) (na := na1) (m := m1)
    as (args & na2 & m2 & -> & Hsub2 & Hc2 & Hok).
  - intros ????. apply copyOf_mono.
  - intros x d s n m' Hx Hf Hcp. by eapply clone_copies.
  - done.
  - done.
  - constructor.
  - cbn [rbind]. eexists _, na2, m2. rewrite app_assoc. split_and!; [done|by etrans|done|].
    split; [done|done|done|]. split; [|done]. simpl. rewrite Hret.
    destruct (Ret_ c) as [i|]; [|done]. simpl in *. destruct Hsome as [Hs _].
    destruct (Hs ltac:(eauto)) as [i1 Hi1]. rewrite Hi1 in Hret. rewrite <-Hret.
    symmetry. eapply lookup_weaken; [symmetry; exact Hret|done].
Qed.

End copy.

(** ** Copies have the sizes of the originals *)

Lemma copyOf_nodes na a a1 : copyOf na a a1 → Forall2 (copyOf na) (nodes a) (nodes a1).
Proof.
  revert a1; induction a as [c v|c ad v r IH|c d s|c l IH|c o i t IH|i] using arg_ind;
    intros [c1 v1|c1 ad1 v1 r1|c1 d1 s1|c1 l1|c1 o1 i1 t1|i1] Hc; try done; constructor; try done.
  - simpl in Hc. destruct r as [p|], r1 as [p1|]; try (constructor || tauto). apply IH; [done|]. tauto.
  - apply copyOf_group in Hc as (_ & _ & Hl). induction Hl as [|x x1 l l1 Hx Hl IHl]; [constructor|].
    rewrite !fmap_cons. cbn [concat]. apply Forall2_app; [apply IH; [set_solver|done]|].
    apply IHl. intros y Hy. apply IH. set_solver.
  - simpl in Hc. apply IH. tauto.
Qed.

Lemma size_copy target h h' na a a1 z :
  (∀ i i1 o, na !! i = Some i1 → h !! i = Some o → ∃ o1, h' !! i1 = Some o1 ∧ rRef o1 = rRef o) →
  copyOf na a a1 → Size target h a = Ret z → Size target h' a1 = Ret z.
Proof.
  intros Hna. revert a1 z; induction a as [c v|c ad v r IH|c d s|c l IH|c o i t IH|i] using arg_ind;
    intros [c1 v1|c1 ad1 v1 r1|c1 d1 s1|c1 l1|c1 o1 i1 t1|i1] z Hc; try done.
  - simpl in *. destruct Hc as (-> & _). done.
  - simpl in *. destruct Hc as (-> & _). done.
  - simpl in *. by destruct Hc as (_ & _ & -> & ->).
  - apply copyOf_group in Hc as (Hr & _ & Hl). simpl. rewrite Hr.
    pose proof (Forall2_length _ _ _ Hl) as Hlen. rewrite <-Hlen. intros H. unbind. destruct (negb _); [done|].
    destruct x; try done.
    + eapply for_list_Forall2; [exact Hl| |exact H]. intros y y1 s s' Hy Hyc Hs. simpl in *. unbind.
      rewrite (IH y Hy _ _ Hyc E0). simpl. congruence.
    + unbind. erewrite for_list_Forall2; [..|exact Hl| |exact E0]; [simpl; congruence|].
      intros y y1 [i [sz off]] s' Hy Hyc Hs. simpl in *. unbind.
      rewrite (IH y Hy _ _ Hyc E1). simpl. congruence.
  - simpl in *. destruct Hc as (-> & _ & _ & _ & Ho). intros H. unbind. destruct (negb _); [done|]. by apply IH.
  - simpl in *. unfold deref. destruct (h !! i) as [o|] eqn:E; [|done].
    destruct (Hna _ _ _ Hc E) as (o1 & -> & Hr). simpl. by rewrite Hr.
Qed.

Lemma elem_cloneOrder c i : i ∈ cloneOrder c ↔ ∃ a, a ∈ callArgs c ∧ ResultArg i ∈ nodes a.
Proof.
  assert (∀ a, i ∈ results a ↔ ResultArg i ∈ nodes a) as Hres.
  { intros a. unfold results. rewrite list_elem_of_omap. split; [|eauto].
    intros ([] & Hx & Hi); try done. by injection Hi as ->. }
  unfold cloneOrder, callArgs. rewrite elem_of_app, elem_of_concat. split.
  - intros [Hi|(l & Hl & Hi)].
    + exists (ResultArg i). split; [|apply list_elem_of_here]. rewrite elem_of_app. left.
      by apply list_elem_of_fmap_2.
    + apply list_elem_of_fmap in Hl as (a & -> & Ha). exists a. split; [set_solver|by apply Hres].
  - intros (a & Ha & Hi). apply elem_of_app in Ha as [Ha|Ha].
    + apply list_elem_of_fmap in Ha as (j & -> & Hj). left.
      apply list_elem_of_singleton in Hi. by injection Hi as ->.
    + right. exists (results a). split; [by apply list_elem_of_fmap_2|by apply Hres].
Qed.

Lemma copyOfCall_args na c c1 : copyOfCall na c c1 → Forall2 (copyOf na) (callArgs c) (callArgs c1).
Proof.
  intros [_ _ Ha [Hr Hs]]. unfold callArgs. apply Forall2_app; [|done].
  destruct (Ret_ c) as [i|]; simpl in *.
  - destruct (proj1 Hs ltac:(eauto)) as [i1 Hi1]. rewrite Hi1 in *. constructor; [done|constructor].
  - rewrite Hr. constructor.
Qed.

(** Results of a copied call are copies. *)
Lemma copied_back (h0 : heap) (n0 : positive) (l : list positive) na (m : mem) c c1 i1 :
  copied h0 n0 l na m → copyOfCall na c c1 → i1 ∈ cloneOrder c1 →
  ∃ i, i ∈ cloneOrder c ∧ na !! i = Some i1.
Proof.
  intros _ Hc Hi1. apply elem_cloneOrder in Hi1 as (a1 & Ha1 & Hi1).
  apply list_elem_of_lookup in Ha1 as [k Hk]. apply list_elem_of_lookup in Hi1 as [k' Hk'].
  destruct (Forall2_lookup_r _ _ _ _ _ (copyOfCall_args _ _ _ Hc) Hk) as (a & Hak & Haa).
  destruct (Forall2_lookup_r _ _ _ _ _ (copyOf_nodes _ _ _ Haa) Hk') as (x & Hxk & Hxx).
  destruct x as [| | | | |i]; try done. exists i. split; [|done]. apply elem_cloneOrder.
  exists a. eauto using list_elem_of_lookup_2.
Qed.

Lemma copied_lookup h0 n0 l na m :
  wellOrdered h0 l → copied h0 n0 l na m → ∀ i i1, na !! i = Some i1 →
  ∃ o, h0 !! i = Some o ∧ ∃ o1, mHeap m !! i1 = Some o1 ∧ rRef o1 = rRef o.
Proof.
  intros Hord Hc i i1 Hi. assert (i ∈ l) as Hil by (apply (cp_dom _ _ _ _ _ Hc); eauto).
  apply list_elem_of_split in Hil as (l1 & l2 & ->). destruct (Hord l1 i l2 eq_refl) as (_ & o & Ho & _).
  exists o. split; [done|]. destruct (cp_obj _ _ _ _ _ Hc _ _ _ Hi Ho) as (o1 & ? & ? & _). eauto.
Qed.

Lemma copied_call target h0 n0 l na m c c1 :
  copied h0 n0 l na m → copyOfCall na c c1 → sizedCall target h0 c →
  (∀ i, i ∈ cloneOrder c → is_Some (h0 !! i)) →
  sizedCall target (mHeap m) c1 ∧ ∀ i, i ∈ cloneOrder c1 → is_Some (mHeap m !! i).
Proof.
  intros Hcp Hc Hsz Hin. pose proof (copyOfCall_args _ _ _ Hc) as Hargs.
  assert (∀ a1 x1, a1 ∈ callArgs c1 → x1 ∈ nodes a1 → ∃ a x, a ∈ callArgs c ∧ x ∈ nodes a ∧ copyOf na x x1)
    as Hback.
  { intros a1 x1 Ha1 Hx1. apply list_elem_of_lookup in Ha1 as [k Hk].
    destruct (Forall2_lookup_r _ _ _ _ _ Hargs Hk) as (a & Hak & Haa).
    apply list_elem_of_lookup in Hx1 as [k' Hk'].
    destruct (Forall2_lookup_r _ _ _ _ _ (copyOf_nodes _ _ _ Haa) Hk') as (x & Hxk & Hxx).
    exists a, x. eauto using list_elem_of_lookup_2. }
  split.
  - intros a1 x1 Ha1 Hx1. destruct (Hback _ _ Ha1 Hx1) as (a & x & Ha & Hx & Hxx).
    destruct (Hsz a x Ha Hx) as [z Hz]. exists z. eapply size_copy; [|exact Hxx|exact Hz].
    intros i i1 o Hi Ho. destruct (cp_obj _ _ _ _ _ Hcp _ _ _ Hi Ho) as (o1 & ? & ? & _). eauto.
  - intros i1 Hi1. apply elem_cloneOrder in Hi1 as (a1 & Ha1 & Hi1).
    destruct (Hback _ _ Ha1 Hi1) as (a & x & Ha & Hx & Hxx). destruct x as [| | | | |i]; try done.
    simpl in Hxx. destruct (Hin i) as [o Ho]; [apply elem_cloneOrder; eauto|].
    destruct (cp_obj _ _ _ _ _ Hcp _ _ _ Hxx Ho) as (o1 & ? & _). eauto.
Qed.

(** The links between the copies are consistent. *)
Lemma copied_linked h0 n0 l na m :
  wellOrdered h0 l → copied h0 n0 l na m → linked (map_img na) (mHeap m).
Proof.
  intros Hord Hc.
  assert (∀ i1, i1 ∈ (map_img na : gset positive) → ∃ i o, na !! i = Some i1 ∧ h0 !! i = Some o) as Himg.
  { intros i1 Hi1. apply elem_of_map_img in Hi1 as [i Hi]. exists i.
    assert (i ∈ l) as Hil by (apply (cp_dom _ _ _ _ _ Hc); eauto).
    apply list_elem_of_split in Hil as (l1 & l2 & ->). destruct (Hord l1 i l2 eq_refl) as (_ & o & Ho & _). eauto. }
  split.
  - intros i1 Hi1. destruct (Himg _ Hi1) as (i & o & Hi & Ho).
    destruct (cp_obj _ _ _ _ _ Hc _ _ _ Hi Ho) as (o1 & Ho1 & _). eauto.
  - intros i1 o1 j1 Hi1 Ho1 Hj1. destruct (Himg _ Hi1) as (i & o & Hi & Ho).
    destruct (cp_obj _ _ _ _ _ Hc _ _ _ Hi Ho) as (o1' & Ho1' & _ & _ & _ & _ & _ & Hres & _ & _).
    assert (o1' = o1) as -> by congruence. rewrite Hj1 in Hres. symmetry in Hres.
    apply bind_Some in Hres as (j & Hj & Hnaj).
    assert (j1 ∈ (map_img na : gset positive)) as Hj1i by (apply elem_of_map_img; eauto).
    split; [done|]. destruct (Himg _ Hj1i) as (j' & oj & Hnaj' & Hoj).
    assert (j' = j) by (by eapply (cp_inj _ _ _ _ _ Hc)). subst j'.
    destruct (cp_obj _ _ _ _ _ Hc _ _ _ Hnaj Hoj) as (oj1 & Hoj1 & _ & _ & _ & _ & _ & _ & _ & Huses).
    exists oj1. split; [done|]. apply Huses. eauto.
  - intros j1 oj1 k Hj1 Hoj1 Hk. destruct (Himg _ Hj1) as (j & oj & Hj & Hoj).
    destruct (cp_obj _ _ _ _ _ Hc _ _ _ Hj Hoj) as (oj1' & Hoj1' & _ & _ & _ & _ & _ & _ & _ & Huses).
    assert (oj1' = oj1) as -> by congruence. destruct (proj1 (Huses k) Hk) as (u & ou & Hu & Hou & Hru).
    split; [apply elem_of_map_img; eauto|].
    destruct (cp_obj _ _ _ _ _ Hc _ _ _ Hu Hou) as (ou1 & Hou1 & _ & _ & _ & _ & _ & Hres & _ & _).
    exists ou1. split; [done|]. rewrite Hres, Hru. done.
Qed.

Lemma clone_spec calls m :
  fresh m → wellOrdered (mHeap m) (concat (cloneOrder <$> calls)) →
  ∃ calls1 na m', Clone calls m = Ret (calls1, m') ∧ Forall2 (copyOfCall na) calls calls1 ∧
    copied (mHeap m) (mNext m) (concat (cloneOrder <$> calls)) na m' ∧
    linked (map_img na) (mHeap m').
Proof.
  intros Hf Hord. set (full := concat (cloneOrder <$> calls)) in *.
  assert (copied (mHeap m) (mNext m) [] ∅ m) as Hc0.
  { split; try done. intros i. rewrite lookup_empty. split; [by intros [? ?]|set_solver]. }
  destruct (copies_loop (mHeap m) (mNext m) full cloneCall cloneOrder copyOfCall calls)
    with (pre := @nil Call) (pre1 := @nil Call) (done := @nil positive) (suf := @nil positive)
    (na := ∅ : gmap positive positive) (m := m) as (calls1 & na & m' & Hcl & _ & Hc & Hok).
  - apply copyOfCall_mono.
  - intros c d s n m' _ Hfl Hcp. eapply cloneCall_copies; [exact Hord|by destruct m|exact Hfl|done].
  - by rewrite app_nil_r.
  - done.
  - constructor.
  - exists calls1, na, m'. unfold Clone, cloneCalls. rewrite Hcl. split_and!; [done|done|done|].
    by eapply copied_linked.
Qed.


Lemma example_ordered : wellOrdered ExampleTarget.heap0 (concat (cloneOrder <$> ExampleTarget.calls)).
Proof.
  change (concat (cloneOrder <$> ExampleTarget.calls)) with [1%positive; 5%positive].
  intros [|x [|y [|z pre]]] a post Hl; simplify_eq/=.
  - split; [set_solver|]. eexists. split; [reflexivity|]. done.
  - split; [set_solver|]. eexists. split; [reflexivity|]. intros r [= <-]. set_solver.
Qed.


End Clone.
