(* ===== verification/WellFormed.v ===== *)
(** * WellFormed: programs that can be copied and edited over and over

    [good] collects what copying ([Clone]) and editing ([RemoveCall]) ask of a program; both
    keep it, and what they do to the heap stays away from the results of other programs. *)

From S2P Require Import Prelude Types Prog ExampleTarget ProgEdit Clone.
Import Types Prog ProgEdit Clone.

Module WellFormed.

(** The results of a program in the order they are copied. *)
Definition progOrder (calls : list Call) : list positive := concat (cloneOrder <$> calls).

Lemma progOrder_perm calls : progOrder calls ≡ₚ progResults calls.
Proof.
  unfold progOrder, progResults. induction calls as [|c calls IH]; [done|].
  rewrite !fmap_cons. cbn [concat]. rewrite IH. apply Permutation_app_tail.
  unfold cloneOrder, callResults. apply Permutation_app_comm.
Qed.

(** Two heaps in which the results of a program have the same contents. *)
Definition agree (calls : list Call) (h h' : heap) : Prop :=
  ∀ i, i ∈ progResults calls → h' !! i = h !! i.

#[export] Instance agree_equiv calls : Equivalence (agree calls).
Proof.
  split.
  - intros h i _. done.
  - intros h h' H i Hi. symmetry. by apply H.
  - intros h1 h2 h3 H1 H2 i Hi. by rewrite H2, H1.
Qed.

(** ** Changing values in place *)

(** The tree without its values: constants, addresses and bytes are zero. *)
Fixpoint erase (arg : Arg) : Arg :=
  match arg with
  | ConstArg c _ => ConstArg c 0
  | PointerArg c _ v r => PointerArg c 0 v (match r with Some p => Some (erase p) | None => None end)
  | DataArg c d s => DataArg c (replicate (length d) 0) s
  | GroupArg c inner => GroupArg c (erase <$> inner)
  | UnionArg c opt i tr => UnionArg c (erase opt) i tr
  | ResultArg i => ResultArg i
  end.

(** The same call but for values and properties. *)
Record sameCall (c c' : Call) : Prop := {
  sc_meta : Meta c' = Meta c;
  sc_ret : Ret_ c' = Ret_ c;
  sc_args : erase <$> Args c' = erase <$> Args c
}.

#[export] Instance sameCall_equiv : Equivalence sameCall.
Proof.
  split.
  - by split.
  - intros c c' [? ? ?]. by split.
  - intros c1 c2 c3 [? ? ?] [? ? ?]. split; by etrans.
Qed.

(** The contents of the copies, as far as types go. *)
Definition copyHeap (na : gmap positive positive) (h h1 : heap) : Prop :=
  ∀ i i1 o, na !! i = Some i1 → h !! i = Some o →
    ∃ o1, h1 !! i1 = Some o1 ∧ rRef o1 = rRef o ∧ rDir o1 = rDir o.

(** Properties of programs that only depend on the shape of the arguments and on the types
    of the results. *)
Class Stable (J : list Call → heap → Prop) : Prop := {
  stable_refs p h h' : sameRefs h h' → J p h → J p h';
  stable_same p p' h : Forall2 sameCall p p' → J p h → J p' h;
  stable_delete p i h : J p h → J (delete i p) h;
  stable_copy na p p1 h h1 : Forall2 (copyOfCall na) p p1 → copyHeap na h h1 → J p h → J p1 h1
}.

Lemma stable_and J1 J2 : Stable J1 → Stable J2 → Stable (λ p h, J1 p h ∧ J2 p h).
Proof.
  intros [r1 s1 d1 c1] [r2 s2 d2 c2]. split.
  - intros p h h' Hh [? ?]. split; [by eapply r1|by eapply r2].
  - intros p p' h Hs [? ?]. split; [by eapply s1|by eapply s2].
  - intros p i h [? ?]. split; [by apply d1|by apply d2].
  - intros na p p1 h h1 Hc Hh [? ?]. split; [by eapply c1|by eapply c2].
Qed.

Section target.
Context (target : Target).

Record good (calls : list Call) (m : mem) : Prop := {
  good_wf : wfProg target calls m;
  good_order : wellOrdered (mHeap m) (progOrder calls)
}.

Lemma good_in calls m i : good calls m → i ∈ progResults calls → ∃ o, mHeap m !! i = Some o ∧ (i < mNext m)%positive.
Proof.
  intros [[_ HL _ Hf _] _] Hi. destruct (linked_in _ _ HL i) as [o Ho]; [by rewrite elem_of_list_to_set|].
  exists o. split; [done|]. by apply Hf in Ho.
Qed.

(** ** Copies *)

Lemma copy_results na a a1 : copyOf na a a1 → Forall2 (λ i i1, na !! i = Some i1) (results a) (results a1).
Proof.
  intros H. apply copyOf_nodes in H. unfold results. induction H as [|x x1 l l1 Hx Hl IH]; [constructor|].
  destruct x, x1; try done; simpl; try done. by constructor.
Qed.

Lemma copy_order na calls calls1 :
  Forall2 (copyOfCall na) calls calls1 →
  Forall2 (λ i i1, na !! i = Some i1) (progOrder calls) (progOrder calls1).
Proof.
  unfold progOrder. induction 1 as [|c c1 l l1 [_ _ Ha [Hr Hs]] _ IH]; [constructor|].
  rewrite !fmap_cons. cbn [concat]. apply Forall2_app; [|done]. unfold cloneOrder. apply Forall2_app.
  - rewrite Hr in *. destruct (Ret_ c) as [i|]; simpl in *; [|constructor].
    destruct (proj1 Hs ltac:(eauto)) as [i1 Hi1]. rewrite Hi1. simpl. by repeat constructor.
  - clear -Ha. induction Ha as [|x x1 l l1 Hx _ IH]; [constructor|]. rewrite !fmap_cons. cbn [concat].
    apply Forall2_app; [by apply copy_results|done].
Qed.

Lemma wellOrdered_nodup h l : wellOrdered h l → NoDup l.
Proof.
  intros H. assert (∀ pre suf, l = pre ++ suf → NoDup pre) as Hp; [|by apply (Hp l []); rewrite app_nil_r].
  intros pre. induction pre as [|a pre IH] using rev_ind; intros suf Hl; [constructor|].
  rewrite <-app_assoc in Hl. simpl in Hl. apply NoDup_app. split_and!.
  - by eapply IH.
  - intros x Hx Hxa. apply list_elem_of_singleton in Hxa as ->. by apply (H pre a suf Hl).
  - apply NoDup_singleton.
Qed.

(** The copies are ordered as the originals. *)
Lemma copied_order h0 n0 na m l l1 :
  wellOrdered h0 l → copied h0 n0 l na m → Forall2 (λ i i1, na !! i = Some i1) l l1 →
  wellOrdered (mHeap m) l1.
Proof.
  intros Hord Hc Hl pre1 a1 post1 ->.
  apply Forall2_app_inv_r in Hl as (pre & suf & Hpre & Hsuf & ->).
  apply Forall2_cons_inv_r in Hsuf as (a & post & Ha & Hpost & ->).
  destruct (Hord pre a post eq_refl) as (Hnin & o & Ho & Hres). split.
  - intros Hin. apply Hnin. apply list_elem_of_lookup in Hin as [k Hk].
    destruct (Forall2_lookup_r _ _ _ _ _ Hpre Hk) as (b & Hb & Hba).
    rewrite (cp_inj _ _ _ _ _ Hc a b a1 Ha Hba). by eapply list_elem_of_lookup_2.
  - destruct (cp_obj _ _ _ _ _ Hc _ _ _ Ha Ho) as (o1 & Ho1 & _ & _ & _ & _ & _ & Hr1 & _).
    exists o1. split; [done|]. intros r1 Hr. rewrite Hr1 in Hr.
    destruct (rRes o) as [r|] eqn:Er; [|done]. simpl in Hr. specialize (Hres r eq_refl).
    apply list_elem_of_lookup in Hres as [k Hk]. destruct (Forall2_lookup_l _ _ _ _ _ Hpre Hk) as (r2 & Hr2 & Hrr).
    assert (r2 = r1) as -> by congruence. by eapply list_elem_of_lookup_2.
Qed.

Lemma Clone_good calls m :
  good calls m →
  ∃ calls1 na m', Clone calls m = Ret (calls1, m') ∧ good calls1 m' ∧ Forall2 (copyOfCall na) calls calls1 ∧
    mHeap m ⊆ mHeap m' ∧ (mNext m ≤ mNext m')%positive ∧
    (∀ i, i ∈ progResults calls1 → (mNext m ≤ i)%positive) ∧ copyHeap na (mHeap m) (mHeap m').
Proof.
  intros [[Hnd HL Ht Hf Hsz] Hord].
  destruct (clone_spec calls m Hf Hord) as (calls1 & na & m' & Hcl & Hcopy & Hcp & HL').
  pose proof (copy_order _ _ _ Hcopy) as Hord1. fold (progOrder calls) in Hcp.
  pose proof (copied_order _ _ _ _ _ _ Hord Hcp Hord1) as Hwo.
  assert (∀ i1, i1 ∈ progResults calls1 → ∃ i, i ∈ progResults calls ∧ na !! i = Some i1) as Hback.
  { intros i1 Hi1. rewrite <-progOrder_perm in Hi1. apply list_elem_of_lookup in Hi1 as [k Hk].
    destruct (Forall2_lookup_r _ _ _ _ _ Hord1 Hk) as (i & Hi & Hii). exists i. split; [|done].
    rewrite <-progOrder_perm. by eapply list_elem_of_lookup_2. }
  assert (map_img na = list_to_set (progResults calls1) :> gset positive) as Himg.
  { apply set_eq. intros i1. rewrite elem_of_map_img, elem_of_list_to_set. split.
    - intros [i Hi]. assert (i ∈ progOrder calls) as Hin by (apply (cp_dom _ _ _ _ _ Hcp); eauto).
      apply list_elem_of_lookup in Hin as [k Hk]. destruct (Forall2_lookup_l _ _ _ _ _ Hord1 Hk) as (i2 & Hi2 & Hii).
      assert (i2 = i1) as -> by congruence. rewrite <-progOrder_perm. by eapply list_elem_of_lookup_2.
    - intros Hi. destruct (Hback _ Hi) as (i & _ & ?). eauto. }
  exists calls1, na, m'. split_and!; [done| |done|apply Hcp|apply Hcp| |].
  - split; [|done]. split.
    + rewrite <-progOrder_perm. by eapply wellOrdered_nodup.
    + by rewrite <-Himg.
    + intros i1 o1 Hi1 Ho1. rewrite elem_of_list_to_set in Hi1. destruct (Hback _ Hi1) as (i & Hi & Hii).
      destruct (linked_in _ _ HL i) as [o Ho]; [by rewrite elem_of_list_to_set|].
      destruct (cp_obj _ _ _ _ _ Hcp _ _ _ Hii Ho) as (o2 & Ho2 & Hrf & _).
      assert (o2 = o1) as -> by congruence. destruct (Ht i o) as (tc & bf & desc & v & Hty);
        [by rewrite elem_of_list_to_set|done|]. exists tc, bf, desc, v. by rewrite Hrf.
    + apply Hcp.
    + intros c1 a x Hc1 Ha Hx. apply list_elem_of_lookup in Hc1 as [k Hk].
      destruct (Forall2_lookup_r _ _ _ _ _ Hcopy Hk) as (c & Hc & Hcc). apply list_elem_of_lookup_2 in Hc.
      destruct (copied_call target _ _ _ _ _ _ _ Hcp Hcc) as [Hs _].
      * intros b y Hb Hy. apply (Hsz c b y Hc); [unfold callArgs in Hb; set_solver|done].
      * intros i Hi. apply (linked_in _ _ HL). rewrite elem_of_list_to_set, <-progOrder_perm.
        apply elem_of_concat. eexists. split; [by apply list_elem_of_fmap_2|done].
      * apply (Hs a x); [unfold callArgs; set_solver|done].
  - intros i1 Hi1. destruct (Hback _ Hi1) as (i & _ & Hi). by apply (cp_range _ _ _ _ _ Hcp i).
  - intros i i1 o Hi Ho. destruct (cp_obj _ _ _ _ _ Hcp _ _ _ Hi Ho) as (o1 & ? & ? & ? & _). eauto.
Qed.

(** ** Removals *)

Lemma wellOrdered_sub h h' l1 l2 l3 :
  wellOrdered h (l1 ++ l2 ++ l3) →
  (∀ i o, i ∈ l1 ++ l3 → h !! i = Some o → ∃ o', h' !! i = Some o' ∧
     ∀ r, rRes o' = Some r → rRes o = Some r ∧ r ∉ l2) →
  wellOrdered h' (l1 ++ l3).
Proof.
  intros Hord Heff pre a post Hl.
  assert (∃ pre0 post0, l1 ++ l2 ++ l3 = pre0 ++ a :: post0 ∧ (∀ x, x ∈ pre → x ∈ pre0) ∧
    (∀ x, x ∈ pre0 → x ∈ pre ∨ x ∈ l2)) as (pre0 & post0 & Hl0 & Hsub & Hsup).
  { apply app_eq_app in Hl as [k [[-> Hl]|[-> Hl]]].
    - destruct k as [|b k]; simpl in Hl.
      + subst. exists (pre ++ l2), post. rewrite app_nil_r, <-!app_assoc. split_and!; [done|set_solver|set_solver].
      + injection Hl as -> ->. exists pre, (k ++ l2 ++ l3). rewrite <-!app_assoc. split_and!; [done|done|auto].
    - exists (l1 ++ l2 ++ k), post. rewrite Hl, <-?app_assoc. split_and!; [done|set_solver|set_solver]. }
  destruct (Hord _ _ _ Hl0) as (Hnin & o & Ho & Hres). split; [by eauto|].
  destruct (Heff a o) as (o' & Ho' & Hr'); [rewrite Hl; set_solver|done|]. exists o'. split; [done|].
  intros r Hr. destruct (Hr' r Hr) as [Hr1 Hr2]. destruct (Hsup r); [by apply Hres|done|done].
Qed.

Lemma RemoveCall_good calls idx c m :
  good calls m → calls !! idx = Some c →
  ∃ m', RemoveCall target calls idx m = Ret (delete idx calls, m') ∧ good (delete idx calls) m' ∧
    (∀ i o, i ∉ progResults calls → mHeap m !! i = Some o → mHeap m' !! i = Some o) ∧
    sameRefs (mHeap m) (mHeap m').
Proof.
  intros [Hwf Hord] Hc. destruct (RemoveCall_spec target calls idx c m Hwf Hc) as (m' & Hm' & Hwf' & Heff & Hfr & Hrf).
  exists m'. split_and!; [done| |done|done]. split; [done|].
  assert (progOrder calls = progOrder (take idx calls) ++ cloneOrder c ++ progOrder (drop (S idx) calls)) as Hsplit.
  { rewrite <-(take_drop_middle calls idx c Hc) at 1. unfold progOrder. rewrite fmap_app, fmap_cons, concat_app. done. }
  assert (progOrder (delete idx calls) = progOrder (take idx calls) ++ progOrder (drop (S idx) calls)) as Hdel.
  { rewrite delete_take_drop. unfold progOrder. by rewrite fmap_app, concat_app. }
  rewrite Hdel. eapply wellOrdered_sub; [by rewrite <-Hsplit|].
  intros i o Hi Ho. rewrite <-Hdel, progOrder_perm in Hi. destruct (Heff i o Hi Ho) as (o' & Ho' & Hr).
  exists o'. split; [done|]. intros r Hr'. rewrite Hr in Hr'. destruct (rRes o) as [r0|]; [|done].
  case_decide as Hin; [done|]. injection Hr' as ->. split; [done|]. intros Hin2. apply Hin.
  unfold callResults. unfold cloneOrder in Hin2. set_solver.
Qed.

(** Replacing a call by one that lacks the results [l2]. *)
Lemma good_edit p m ci c c' m' l1 l2 l3 :
  good p m → p !! ci = Some c → cloneOrder c = l1 ++ l2 ++ l3 → cloneOrder c' = l1 ++ l3 →
  unlinked (list_to_set (progResults p)) (list_to_set l2) (mHeap m) (mHeap m') → fresh m' →
  sizedCall target (mHeap m) c' →
  good (<[ci := c']> p) m' ∧ ∀ i, i ∈ progResults (<[ci := c']> p) → i ∈ progResults p.
Proof.
  intros [[Hnd HL Ht Hf Hsz] Hord] Hc Ho Ho' [HL' Hrf He Hfr] Hf' Hsz'.
  assert (ci < length p)%nat as Hlt by (by eapply lookup_lt_Some).
  assert (progOrder p = (progOrder (take ci p) ++ l1) ++ l2 ++ l3 ++ progOrder (drop (S ci) p)) as Hsplit.
  { rewrite <-(take_drop_middle p ci c Hc) at 1. unfold progOrder. rewrite fmap_app, fmap_cons, concat_app.
    cbn [concat]. rewrite Ho, <-!app_assoc. done. }
  assert (progOrder (<[ci := c']> p) = (progOrder (take ci p) ++ l1) ++ l3 ++ progOrder (drop (S ci) p)) as Hnew.
  { rewrite insert_take_drop by done. unfold progOrder. rewrite fmap_app, fmap_cons, concat_app.
    cbn [concat]. rewrite Ho', <-!app_assoc. done. }
  pose proof (wellOrdered_nodup _ _ Hord) as Hnd0.
  assert (∀ i, i ∈ progResults (<[ci := c']> p) ↔ i ∈ progResults p ∧ i ∉ l2) as Hin.
  { intros i. rewrite <-!progOrder_perm, Hsplit, Hnew. rewrite Hsplit in Hnd0.
    apply NoDup_app in Hnd0 as (_ & Hd1 & Hnd1). apply NoDup_app in Hnd1 as (_ & Hd2 & _).
    specialize (Hd1 i). specialize (Hd2 i). rewrite !elem_of_app in *. tauto. }
  assert (list_to_set (progResults (<[ci := c']> p)) =
    (list_to_set (progResults p) ∖ list_to_set l2 : gset positive)) as HS.
  { apply set_eq. intros i. rewrite elem_of_difference, !elem_of_list_to_set. apply Hin. }
  assert (wellOrdered (mHeap m') (progOrder (<[ci := c']> p))) as Hwo.
  { rewrite Hnew. eapply wellOrdered_sub; [by rewrite <-Hsplit|]. intros i o Hi Hoi.
    rewrite <-Hnew, progOrder_perm, Hin in Hi.
    destruct (He i o) as (o' & Hoi' & Hr); [rewrite elem_of_difference, !elem_of_list_to_set; done|done|].
    exists o'. split; [done|]. intros r Hr'. rewrite Hr in Hr'. destruct (rRes o) as [r0|]; [|done].
    case_decide as Hrl; [done|]. injection Hr' as ->. rewrite elem_of_list_to_set in Hrl. done. }
  split; [|intros i Hi; by apply Hin]. split; [split|done].
  - rewrite <-progOrder_perm. by eapply wellOrdered_nodup.
  - by rewrite HS.
  - rewrite HS. eapply heapTyped_refs; [|exact Hrf|].
    + intros i Hi. apply (linked_in _ _ HL). set_solver.
    + intros i o Hi. apply Ht. set_solver.
  - done.
  - intros c1 a x Hc1 Ha Hx. apply list_elem_of_lookup in Hc1 as [k Hk].
    apply list_lookup_insert_Some in Hk as [(-> & <- & _)|[_ Hk]].
    + destruct (Hsz' a x) as [z Hz]; [unfold callArgs; set_solver|done|]. exists z. by eapply size_refs.
    + destruct (Hsz c1 a x) as [z Hz]; [by eapply list_elem_of_lookup_2|done|done|]. exists z. by eapply size_refs.
Qed.

(** ** Growing heaps *)

Lemma linked_weaken L (h h' : heap) : h ⊆ h' → linked L h → linked L h'.
Proof.
  intros Hsub HL. assert (∀ i o', i ∈ L → h' !! i = Some o' → h !! i = Some o') as Hback.
  { intros i o' Hi Ho'. destruct (linked_in _ _ HL i Hi) as [o Ho].
    pose proof (lookup_weaken _ _ _ _ Ho Hsub). congruence. }
  split.
  - intros i Hi. destruct (linked_in _ _ HL i Hi) as [o Ho]. exists o. by eapply lookup_weaken.
  - intros i o j Hi Ho Hj. destruct (linked_res _ _ HL i o j Hi (Hback _ _ Hi Ho) Hj) as (? & oj & Hoj & ?).
    split; [done|]. exists oj. split; [by eapply lookup_weaken|done].
  - intros j oj i Hj Ho Hin. destruct (linked_uses _ _ HL j oj i Hj (Hback _ _ Hj Ho) Hin) as (? & oi & Hoi & ?).
    split; [done|]. exists oi. split; [by eapply lookup_weaken|done].
Qed.

(** Heaps with the same links. *)
Lemma linked_ext L (h h' : heap) :
  (∀ i o, i ∈ L → h !! i = Some o → ∃ o', h' !! i = Some o' ∧ rRes o' = rRes o ∧ uses o' = uses o) →
  linked L h → linked L h'.
Proof.
  intros Hh HL. assert (∀ i o', i ∈ L → h' !! i = Some o' → ∃ o, h !! i = Some o ∧ rRes o' = rRes o ∧ uses o' = uses o) as Hback.
  { intros i o' Hi Ho'. destruct (linked_in _ _ HL i Hi) as [o Ho]. destruct (Hh i o Hi Ho) as (o2 & Ho2 & ? & ?).
    exists o. assert (o2 = o') as -> by congruence. done. }
  split.
  - intros i Hi. destruct (linked_in _ _ HL i Hi) as [o Ho]. destruct (Hh i o Hi Ho) as (o' & ? & _). eauto.
  - intros i o' j Hi Ho' Hj. destruct (Hback i o' Hi Ho') as (o & Ho & Hr & _). rewrite Hr in Hj.
    destruct (linked_res _ _ HL i o j Hi Ho Hj) as (HjL & oj & Hoj & Hin). split; [done|].
    destruct (Hh j oj HjL Hoj) as (oj' & Hoj' & _ & Hu). exists oj'. by rewrite Hu.
  - intros j oj' i Hj Hoj' Hin. destruct (Hback j oj' Hj Hoj') as (oj & Hoj & _ & Hu). rewrite Hu in Hin.
    destruct (linked_uses _ _ HL j oj i Hj Hoj Hin) as (HiL & o & Ho & Hr). split; [done|].
    destruct (Hh i o HiL Ho) as (o' & Ho' & Hr' & _). exists o'. by rewrite Hr'.
Qed.

(** Changing the contents of results, without new references. *)
Lemma good_heap p m m' :
  good p m → fresh m' → linked (list_to_set (progResults p)) (mHeap m') → sameRefs (mHeap m) (mHeap m') →
  (∀ i o o' r, i ∈ progResults p → mHeap m !! i = Some o → mHeap m' !! i = Some o' → rRes o' = Some r → rRes o = Some r) →
  good p m'.
Proof.
  intros [[Hnd HL Ht Hf Hsz] Hord] Hf' HL' Hrf Hres. split; [split|].
  - done.
  - done.
  - eapply heapTyped_refs; [|exact Hrf|exact Ht]. intros i Hi. by apply (linked_in _ _ HL).
  - done.
  - intros c a x Hc Ha Hx. destruct (Hsz c a x Hc Ha Hx) as [z Hz]. exists z. by eapply size_refs.
  - intros pre a post Hl. destruct (Hord pre a post Hl) as (Hn & o & Ho & Hr). split; [done|].
    destruct (Hrf a o Ho) as (o' & Ho' & _). exists o'. split; [done|]. intros r Hr'. apply Hr.
    eapply Hres; [|exact Ho|exact Ho'|exact Hr']. rewrite <-progOrder_perm, Hl. set_solver.
Qed.

Lemma good_weaken calls m m' : good calls m → mHeap m ⊆ mHeap m' → fresh m' → good calls m'.
Proof.
  intros [[Hnd HL Ht Hf Hsz] Hord] Hsub Hf'. split; [split|].
  - done.
  - by eapply linked_weaken.
  - intros i o Hi Ho. apply (Ht i o Hi). destruct (linked_in _ _ HL i Hi) as [o1 Ho1].
    pose proof (lookup_weaken _ _ _ _ Ho1 Hsub). congruence.
  - done.
  - intros c a x Hc Ha Hx. destruct (Hsz c a x Hc Ha Hx) as [z Hz]. exists z. by eapply size_mono.
  - intros pre a post Hl. destruct (Hord pre a post Hl) as (Hn & o & Ho & Hr). split; [done|].
    exists o. split; [by eapply lookup_weaken|done].
Qed.

Lemma good_agree calls m m' : good calls m → mHeap m ⊆ mHeap m' → agree calls (mHeap m) (mHeap m').
Proof.
  intros Hg Hsub i Hi. destruct (good_in _ _ _ Hg Hi) as (o & Ho & _). rewrite Ho. by eapply lookup_weaken.
Qed.

(** What is preserved outside of a copy is the whole heap from before the copy. *)
Lemma frame_subset calls1 (m m1 : mem) (h2 : heap) :
  mHeap m ⊆ mHeap m1 → (∀ i, i ∈ progResults calls1 → (mNext m ≤ i)%positive) → fresh m →
  (∀ i o, i ∉ progResults calls1 → mHeap m1 !! i = Some o → h2 !! i = Some o) →
  mHeap m ⊆ h2.
Proof.
  intros Hsub Hnew Hf Hfr. apply map_subseteq_spec. intros i o Ho. apply Hfr.
  - intros Hi. apply Hnew in Hi. apply Hf in Ho. lia.
  - by eapply lookup_weaken.
Qed.

(** ** Lemmas on erased trees *)

Lemma nodes_erase a : nodes (erase a) = erase <$> nodes a.
Proof.
  induction a as [c v|c ad v r IH|c d s|c l IH|c o i t IH|i] using arg_ind; try done; cbn [erase nodes]; rewrite ?fmap_cons; f_equal.
  - destruct r as [p|]; [|done]. by apply IH.
  - induction l as [|x l IHl]; [done|]. rewrite !fmap_cons. cbn [concat]. rewrite fmap_app. f_equal.
    + apply IH, list_elem_of_here.
    + apply IHl. intros y Hy. apply IH. by apply list_elem_of_further.
  - done.
Qed.

Lemma results_erase a : results (erase a) = results a.
Proof.
  unfold results. rewrite nodes_erase. induction (nodes a) as [|x l IH]; [done|].
  destruct x; simpl; first [exact IH|f_equal; exact IH].
Qed.

Lemma size_erase h a : Size target h (erase a) = Size target h a.
Proof.
  induction a as [c v|c ad v r IH|c d s|c l IH|c o i t IH|i] using arg_ind; try done.
  - simpl. destruct d as [|b d]; [done|]. rewrite !decide_True by done. by rewrite length_replicate.
  - cbn [erase Prog.Size]. apply bind_ext. intros t _. destruct (negb (Varlen t)); [done|].
    destruct t; try done; [|].
    + generalize 0. intros z. revert z. induction l as [|x l IHl]; intros z; [done|]. rewrite fmap_cons. cbn [for_list].
      rewrite IH by apply list_elem_of_here. destruct (Size target h x); [|done|done]. cbn [rbind]. apply IHl.
      intros y Hy. apply IH. by apply list_elem_of_further.
    + f_equal. rewrite length_fmap. generalize (Z.of_nat (length l)) as n. intros n. generalize (0, (0, 0)) as acc. intros acc.
      revert acc. induction l as [|x l IHl]; intros [k acc]; [done|]. rewrite fmap_cons. cbn [for_list].
      rewrite IH by apply list_elem_of_here. destruct (Size target h x); [|done|done]. cbn [rbind]. apply IHl.
      intros y Hy. apply IH. by apply list_elem_of_further.
  - cbn [erase Prog.Size]. by rewrite IH.
Qed.

Lemma concat_results_erase args : concat (results <$> (erase <$> args)) = concat (results <$> args).
Proof. rewrite <-list_fmap_compose. f_equal. apply list_fmap_ext. intros _ a _. apply results_erase. Qed.

Lemma sameCall_results c c' : sameCall c c' → cloneOrder c' = cloneOrder c ∧ callResults c' = callResults c.
Proof.
  intros [_ Hr Ha]. unfold cloneOrder, callResults.
  rewrite Hr, <-(concat_results_erase (Args c')), Ha, concat_results_erase. done.
Qed.

Lemma sameCalls_results p p' : Forall2 sameCall p p' → progOrder p' = progOrder p ∧ progResults p' = progResults p.
Proof.
  unfold progOrder, progResults. induction 1 as [|c c' l l' Hc _ [IH1 IH2]]; [done|].
  apply sameCall_results in Hc as [H1 H2]. rewrite !fmap_cons. cbn [concat]. by rewrite H1, H2, IH1, IH2.
Qed.

Lemma good_same p p' m : Forall2 sameCall p p' → good p m → good p' m.
Proof.
  intros Hs [[Hnd HL Ht Hf Hsz] Hord]. destruct (sameCalls_results _ _ Hs) as [Ho Hr].
  split; [split|]; rewrite ?Hr, ?Ho; try done.
  intros c' a' x' Hc' Ha' Hx'. apply list_elem_of_lookup in Hc' as [k Hk].
  destruct (Forall2_lookup_r _ _ _ _ _ Hs Hk) as (c & Hc & [_ Hret Hargs]).
  apply list_elem_of_lookup_2 in Hc. apply elem_of_app in Ha' as [Ha'|Ha'].
  - apply list_elem_of_lookup in Ha' as [j Hj].
    assert ((erase <$> Args c) !! j = Some (erase a')) as He by (rewrite <-Hargs, list_lookup_fmap, Hj; done).
    rewrite list_lookup_fmap in He. apply fmap_Some in He as (a & Ha & Hea).
    assert (erase x' ∈ nodes (erase a)) as Hx by (rewrite <-Hea, nodes_erase; by apply list_elem_of_fmap_2).
    rewrite nodes_erase in Hx. apply list_elem_of_fmap in Hx as (x & Hxx & Hx).
    destruct (Hsz c a x Hc) as [z Hz]; [apply elem_of_app; left; by eapply list_elem_of_lookup_2|done|].
    exists z. by rewrite <-size_erase, Hxx, size_erase.
  - apply (Hsz c a' x' Hc); [|done]. apply elem_of_app. right. by rewrite <-Hret.
Qed.

End target.
End WellFormed.
