(* ===== verification/Layers.v ===== *)
(** * Layers: results that only refer to results of earlier calls

    The results of a program come in layers, one for each call.  When every result refers to
    results of earlier layers only, the order inside of a layer does not matter, so that
    arguments of a call can be permuted, added, removed and replaced.  This is the form in
    which programs are generated and mutated. *)

From S2P Require Import Prelude Types Prog ProgEdit Clone WellFormed.
Import Types Prog ProgEdit Clone WellFormed.

Module Layers.

(** The results of a layer refer to results in [P] or in earlier layers. *)
Fixpoint ordered (h : heap) (P : positive → Prop) (ls : list (list positive)) : Prop :=
  match ls with
  | [] => True
  | l :: ls => (∀ i o r, i ∈ l → h !! i = Some o → rRes o = Some r → P r) ∧ ordered h (λ r, P r ∨ r ∈ l) ls
  end.

Definition layers (p : list Call) : list (list positive) := cloneOrder <$> p.

Lemma layers_app p1 p2 : layers (p1 ++ p2) = layers p1 ++ layers p2.
Proof. apply fmap_app. Qed.
Lemma concat_layers p : concat (layers p) = progOrder p.
Proof. done. Qed.
Lemma in_layers p i : i ∈ concat (layers p) ↔ i ∈ progResults p.
Proof. by rewrite concat_layers, progOrder_perm. Qed.

(** Every reference of the second heap was one of the first. *)
Lemma ordered_mono h h' ls : ∀ (P P' : positive → Prop), ordered h P ls →
  (∀ i o' r, i ∈ concat ls → h' !! i = Some o' → rRes o' = Some r → ∃ o, h !! i = Some o ∧ rRes o = Some r ∧ (P r → P' r)) →
  ordered h' P' ls.
Proof.
  induction ls as [|l ls IH]; intros P P' H Hr; [done|]. destruct H as [Hl H]. cbn [concat ordered] in *. split.
  - intros i o' r Hi Ho' Hro. destruct (Hr i o' r) as (o & Ho & Hro1 & HP); [apply elem_of_app; by left|done|done|]. apply HP. by eapply Hl.
  - eapply IH; [exact H|]. intros i o' r Hi Ho' Hro. destruct (Hr i o' r) as (o & Ho & Hro1 & HP); [apply elem_of_app; by right|done|done|].
    exists o. tauto.
Qed.

Lemma ordered_impl h ls (P P' : positive → Prop) : (∀ r, P r → P' r) → ordered h P ls → ordered h P' ls.
Proof. intros HP H. eapply ordered_mono; [exact H|]. eauto. Qed.

Lemma ordered_app h ls1 ls2 : ∀ P, ordered h P (ls1 ++ ls2) ↔ ordered h P ls1 ∧ ordered h (λ r, P r ∨ r ∈ concat ls1) ls2.
Proof.
  induction ls1 as [|l ls1 IH]; intros P; cbn [app ordered concat].
  - split; [intros H; split; [done|]|intros [_ H]]; (eapply ordered_impl; [|exact H]); intros r Hr; [tauto|].
    destruct Hr as [?|Hr]; [done|by apply elem_of_nil in Hr].
  - rewrite IH. assert (∀ Q R : positive → Prop, (∀ r, Q r ↔ R r) → ordered h Q ls2 ↔ ordered h R ls2) as Hext.
    { intros Q R HQR. split; apply ordered_impl; intros r; apply HQR. }
    rewrite (Hext (λ r, (P r ∨ r ∈ l) ∨ r ∈ concat ls1) (λ r, P r ∨ r ∈ l ++ concat ls1)); [tauto|]. intros r. rewrite elem_of_app. tauto.
Qed.

Lemma ordered_ref h ls i o r : ∀ P, ordered h P ls → i ∈ concat ls → h !! i = Some o → rRes o = Some r → P r ∨ r ∈ concat ls.
Proof.
  induction ls as [|l ls IH]; intros P H Hi Ho Hr; [by apply elem_of_nil in Hi|]. destruct H as [Hl H]. cbn [concat] in *. rewrite elem_of_app.
  apply elem_of_app in Hi as [Hi|Hi]; [left; by eapply Hl|]. destruct (IH _ H Hi Ho Hr) as [[?|?]|?]; tauto.
Qed.

(** What the layers in front contain, as a set. *)
Lemma ordered_swap h P ls l l' ls2 : (∀ i, i ∈ l' ↔ i ∈ l) → ordered h P (ls ++ l :: ls2) → ordered h P (ls ++ l' :: ls2).
Proof.
  intros Hl. rewrite !ordered_app. intros [H1 H2]. split; [done|]. cbn [ordered] in *. destruct H2 as [H2 H3]. split.
  - intros i o r Hi. apply H2. by apply Hl.
  - eapply ordered_impl; [|exact H3]. intros r. rewrite Hl. tauto.
Qed.

Lemma ordered_wellOrdered h ls : ∀ acc pre a post, ordered h (λ r, r ∈ acc) ls → (∀ i, i ∈ concat ls → is_Some (h !! i)) →
  NoDup (acc ++ concat ls) → concat ls = pre ++ a :: post → a ∉ pre ∧ ∃ o, h !! a = Some o ∧ ∀ r, rRes o = Some r → r ∈ acc ++ pre.
Proof.
  induction ls as [|l ls IH]; intros acc pre a post H Hd Hnd Heq; [by destruct pre|]. destruct H as [Hl H]. cbn [concat] in *.
  assert (a ∉ pre) as Hni.
  { rewrite Heq in Hnd. apply NoDup_app in Hnd as (_ & _ & Hnd). apply NoDup_app in Hnd as (_ & Hn & _). intros Hp. apply (Hn a Hp), list_elem_of_here. }
  split; [done|]. destruct (Hd a) as [o Ho]; [rewrite Heq; apply elem_of_app; right; apply list_elem_of_here|]. exists o. split; [done|]. intros r Hr.
  apply app_eq_app in Heq as (k & [[-> Heq]|[-> Heq]]).
  - destruct k as [|b k].
    + cbn [app] in Heq. destruct (IH (acc ++ pre) [] a post) as (_ & o' & Ho' & Hr').
      * eapply ordered_impl; [|exact H]. intros x. rewrite app_nil_r, elem_of_app. tauto.
      * intros i Hi. apply Hd, elem_of_app. by right.
      * rewrite <-app_assoc. by rewrite app_nil_r in Hnd.
      * done.
      * rewrite app_nil_r in Hr'. apply Hr'. congruence.
    + injection Heq as <- _. apply elem_of_app. left. apply (Hl a o r); [|done|done]. apply elem_of_app. right. apply list_elem_of_here.
  - destruct (IH (acc ++ l) k a post) as (_ & o' & Ho' & Hr').
    + eapply ordered_impl; [|exact H]. intros x. rewrite elem_of_app. tauto.
    + intros i Hi. apply Hd, elem_of_app. by right.
    + by rewrite <-app_assoc.
    + done.
    + rewrite app_assoc. apply Hr'. congruence.
Qed.

Section target.
Context (target : Target).

(** Layers of linked results; the results need not be those of complete calls. *)
Record lay (ls : list (list positive)) (m : mem) : Prop := {
  la_nodup : NoDup (concat ls);
  la_linked : linked (list_to_set (concat ls)) (mHeap m);
  la_typed : heapTyped target (list_to_set (concat ls)) (mHeap m);
  la_fresh : fresh m;
  la_order : ordered (mHeap m) (λ _, False) ls
}.

Record strict (p : list Call) (m : mem) : Prop := {
  st_lay : lay (layers p) m;
  st_sized : Forall (sizedCall target (mHeap m)) p
}.

Lemma lay_in ls m i : lay ls m → i ∈ concat ls → ∃ o, mHeap m !! i = Some o ∧ (i < mNext m)%positive.
Proof.
  intros [_ HL _ Hf _] Hi. destruct (linked_in _ _ HL i) as [o Ho]; [by rewrite elem_of_list_to_set|]. exists o. split; [done|]. by apply Hf in Ho.
Qed.

Lemma perm_set (l l' : list positive) : l ≡ₚ l' → list_to_set l =@{gset positive} list_to_set l'.
Proof. intros Hp. apply set_eq. intros i. by rewrite !elem_of_list_to_set, Hp. Qed.

Lemma lay_perm ls l l' ls2 m : l ≡ₚ l' → lay (ls ++ l :: ls2) m → lay (ls ++ l' :: ls2) m.
Proof.
  intros Hl [Hnd HL Ht Hf Ho].
  assert (concat (ls ++ l :: ls2) ≡ₚ concat (ls ++ l' :: ls2)) as Hp by (rewrite !concat_app; cbn [concat]; by rewrite Hl).
  rewrite (perm_set _ _ Hp) in *. split; [by rewrite <-Hp|done|done|done|]. eapply ordered_swap; [|exact Ho]. intros i. by rewrite Hl.
Qed.

Lemma lay_nil ls ls2 m : lay (ls ++ [] :: ls2) m ↔ lay (ls ++ ls2) m.
Proof.
  assert (concat (ls ++ [] :: ls2) = concat (ls ++ ls2)) as Hc by (by rewrite !concat_app).
  assert (ordered (mHeap m) (λ _, False) (ls ++ [] :: ls2) ↔ ordered (mHeap m) (λ _, False) (ls ++ ls2)) as Ho.
  { rewrite !ordered_app. apply and_iff_compat_l. cbn [ordered]. split; [intros [_ H]|intros H; split; [by intros i o r Hi%elem_of_nil|]];
      (eapply ordered_impl; [|exact H]); intros r; cbv beta; rewrite elem_of_nil; tauto. }
  split; intros [Hnd HL Ht Hf H]; (split; [..|by apply Ho]); rewrite ?Hc; rewrite ?Hc in *; done.
Qed.

Lemma strict_good p m : strict p m → good target p m.
Proof.
  intros [[Hnd HL Ht Hf Ho] Hs]. rewrite concat_layers in *. rewrite (perm_set _ _ (progOrder_perm p)) in *. split.
  - split; [by rewrite <-progOrder_perm|done|done|done|]. intros c a x Hc Ha Hx. rewrite Forall_forall in Hs. apply (Hs c Hc a x); [|done].
    unfold callArgs. rewrite elem_of_app in Ha |- *. tauto.
  - intros pre a post Heq. rewrite <-concat_layers in Heq. destruct (ordered_wellOrdered (mHeap m) (layers p) [] pre a post) as (Hn & o & Ho' & Hr).
    + eapply ordered_impl; [|exact Ho]. done.
    + intros i Hi. apply (linked_in _ _ HL). rewrite elem_of_list_to_set. by apply in_layers.
    + exact Hnd.
    + done.
    + split; [done|]. eauto.
Qed.

Lemma good_strict p m : good target p m → ordered (mHeap m) (λ _, False) (layers p) → strict p m.
Proof.
  intros [[Hnd HL Ht Hf Hs] Hw] Ho. rewrite <-(perm_set _ _ (progOrder_perm p)), <-concat_layers in *. split; [split; try done|].
  - by rewrite concat_layers, progOrder_perm.
  - apply Forall_forall. intros c Hc a x Ha. apply (Hs c a x Hc). unfold callArgs in Ha. rewrite elem_of_app in Ha |- *. tauto.
Qed.

(** Removing results of a layer. *)
Lemma lay_unlinked ls l R l' ls2 m m' : lay (ls ++ l :: ls2) m → l ≡ₚ R ++ l' → fresh m' →
  unlinked (list_to_set (concat (ls ++ l :: ls2))) (list_to_set R) (mHeap m) (mHeap m') → lay (ls ++ l' :: ls2) m'.
Proof.
  intros Hlay Hl Hf' [HL' Hrf He Hfr]. apply (lay_perm _ _ _ _ _ Hl) in Hlay as Hlay1. destruct Hlay1 as [Hnd HL Ht Hf Ho].
  assert (concat (ls ++ (R ++ l') :: ls2) ≡ₚ R ++ concat (ls ++ l' :: ls2)) as Hp.
  { rewrite !concat_app. cbn [concat]. rewrite <-!app_assoc, !app_assoc. by rewrite (Permutation_app_comm (concat ls) R). }
  rewrite Hp in Hnd. apply NoDup_app in Hnd as (_ & Hdis & Hnd').
  assert (concat (ls ++ l :: ls2) ≡ₚ R ++ concat (ls ++ l' :: ls2)) as Hpl by (rewrite <-Hp, !concat_app; cbn [concat]; by rewrite Hl).
  assert ((list_to_set (concat (ls ++ l :: ls2)) ∖ list_to_set R : gset positive) = list_to_set (concat (ls ++ l' :: ls2))) as HS.
  { apply set_eq. intros i. rewrite elem_of_difference, !elem_of_list_to_set, Hpl, elem_of_app. specialize (Hdis i). tauto. }
  rewrite HS in *. split; [done|done| |done|].
  - eapply heapTyped_refs; [|exact Hrf|].
    + intros i Hi. apply (linked_in _ _ HL). rewrite elem_of_list_to_set in *. rewrite Hp, elem_of_app. by right.
    + intros i o Hi. apply Ht. rewrite elem_of_list_to_set in *. rewrite Hp, elem_of_app. by right.
  - assert (∀ i o' r, i ∈ concat (ls ++ l' :: ls2) → mHeap m' !! i = Some o' → rRes o' = Some r →
      ∃ o, mHeap m !! i = Some o ∧ rRes o = Some r ∧ r ∉ R) as Hback.
    { intros i o' r Hi Ho' Hr. destruct (linked_in _ _ HL i) as [o Hoi]; [rewrite elem_of_list_to_set, Hp, elem_of_app; by right|].
      destruct (He i o) as (o2 & Ho2 & Hr2); [by rewrite elem_of_list_to_set|done|]. assert (o2 = o') as -> by congruence. exists o. split; [done|].
      rewrite Hr in Hr2. destruct (rRes o) as [r0|]; [|done]. case_decide as Hd; [done|]. injection Hr2 as ->. rewrite elem_of_list_to_set in Hd. done. }
    rewrite ordered_app in Ho |- *. destruct Ho as [Ho1 Ho2]. cbn [ordered] in *. destruct Ho2 as [Ho2 Ho3]. rewrite concat_app in Hback. cbn [concat] in Hback. split_and!.
    + eapply ordered_mono; [exact Ho1|]. intros i o' r Hi Hoi Hr. destruct (Hback i o' r) as (o & ? & ? & _); [rewrite elem_of_app; by left|done|done|eauto].
    + intros i o' r Hi Hoi Hr. destruct (Hback i o' r) as (o & Hoo & Hrr & _); [rewrite !elem_of_app; tauto|done|done|].
      apply (Ho2 i o r); [rewrite elem_of_app; by right|done|done].
    + eapply ordered_mono; [exact Ho3|]. intros i o' r Hi Hoi Hr. destruct (Hback i o' r) as (o & ? & ? & Hn); [rewrite !elem_of_app; tauto|done|done|].
      exists o. split_and!; [done|done|]. cbv beta. rewrite elem_of_app. tauto.
Qed.

(** A call is removed. *)
Lemma RemoveCall_strict p idx c m : strict p m → p !! idx = Some c →
  ∃ m', RemoveCall target p idx m = Ret (delete idx p, m') ∧ strict (delete idx p) m' ∧
    (∀ i o, i ∉ progResults p → mHeap m !! i = Some o → mHeap m' !! i = Some o) ∧ sameRefs (mHeap m) (mHeap m').
Proof.
  intros Hst Hc. pose proof (strict_good _ _ Hst) as Hg. destruct (RemoveCall_good target p idx c m Hg Hc) as (m' & Hm' & Hg' & Hfr & Hrf).
  exists m'. split_and!; [done| |done|done]. apply good_strict; [done|].
  destruct (RemoveCall_spec target p idx c m (good_wf _ _ _ Hg) Hc) as (m2 & Hm2 & _ & Heff & _). rewrite Hm' in Hm2. injection Hm2 as <-.
  assert (∀ i o' r, i ∈ concat (layers (delete idx p)) → mHeap m' !! i = Some o' → rRes o' = Some r →
    ∃ o, mHeap m !! i = Some o ∧ rRes o = Some r ∧ r ∉ cloneOrder c) as Hback.
  { intros i o' r Hi Ho' Hr. rewrite in_layers in Hi. destruct (lay_in _ _ i (st_lay _ _ Hst)) as (o & Ho & _).
    { rewrite in_layers. unfold progResults in *. rewrite (delete_Permutation p idx c Hc), fmap_cons. cbn [concat]. rewrite elem_of_app. by right. }
    destruct (Heff i o Hi Ho) as (o2 & Ho2 & Hr2). assert (o2 = o') as -> by congruence. exists o. split; [done|]. rewrite Hr in Hr2.
    destruct (rRes o) as [r0|]; [|done]. case_decide as Hd; [done|]. injection Hr2 as ->. split; [done|]. intros Hin. apply Hd.
    unfold cloneOrder in Hin. unfold callResults. rewrite elem_of_app in Hin |- *. tauto. }
  pose proof (la_order _ _ (st_lay _ _ Hst)) as Ho. rewrite <-(take_drop_middle p idx c Hc), layers_app in Ho. unfold layers at 2 in Ho. rewrite fmap_cons in Ho.
  rewrite delete_take_drop, layers_app in *. rewrite concat_app in Hback. rewrite ordered_app in Ho |- *. cbn [ordered] in Ho. destruct Ho as (Ho1 & _ & Ho2). split.
  - eapply ordered_mono; [exact Ho1|]. intros i o' r Hi Hoi Hr. destruct (Hback i o' r) as (o & ? & ? & _); [rewrite elem_of_app; by left|done|done|eauto].
  - eapply ordered_mono; [exact Ho2|]. intros i o' r Hi Hoi Hr. destruct (Hback i o' r) as (o & ? & ? & Hn); [rewrite elem_of_app; by right|done|done|].
    exists o. split_and!; [done|done|]. tauto.
Qed.

(** ** Replacing a result *)

Lemma delUse_at (h : heap) i (ro : option positive) h1 :
  (match ro with Some r => delUse r i h | None => Ret h end) = Ret h1 →
  ∀ j, h1 !! j = (λ x, if decide (ro = Some j) then withoutUse x i else x) <$> h !! j.
Proof.
  intros H j. destruct ro as [r|]; [|injection H as <-; by destruct (h !! j)]. unfold delUse in H. apply bind_Ret in H as (o & Ho & [= <-]).
  unfold deref in Ho. destruct (h !! r) as [o'|] eqn:E; [|done]. injection Ho as ->. destruct (decide (r = j)) as [->|Hne].
  - rewrite lookup_insert_eq, E. cbn [fmap option_fmap option_map]. by rewrite decide_True.
  - rewrite lookup_insert_ne by done. destruct (h !! j); [|done]. cbn [fmap option_fmap option_map]. by rewrite decide_False by congruence.
Qed.

Lemma addUse_at (h : heap) r i h1 : addUse r i h = Ret h1 → ∀ j,
  h1 !! j = (λ x, if decide (j = r) then MkResult (rRef x) (rDir x) (rRes x) (OpDiv x) (OpAdd x) (rVal x) ({[i]} ∪ uses x) else x) <$> h !! j.
Proof.
  intros H j. unfold addUse in H. apply bind_Ret in H as (o & Ho & [= <-]).
  unfold deref in Ho. destruct (h !! r) as [o'|] eqn:E; [|done]. injection Ho as ->. destruct (decide (j = r)) as [->|Hne].
  - rewrite lookup_insert_eq, E. done.
  - rewrite lookup_insert_ne by done. by destruct (h !! j).
Qed.

(** What becomes of a result when [i] takes the contents of [i1]; [o] and [o1] are the old
    contents of the two. *)
Record moved (i i1 : positive) (o o1 : ResultObj) (j : positive) (x x' : ResultObj) : Prop := {
  mv_refs : if decide (j = i) then rRef x' = rRef o1 ∧ rDir x' = rDir o1 ∧ rRes x' = rRes o1
            else rRef x' = rRef x ∧ rDir x' = rDir x ∧ rRes x' = rRes x;
  mv_uses : ∀ z, z ∈ uses x' ↔ z ∈ uses x ∧ ¬ (z = i ∧ rRes o = Some j) ∧ ¬ (z = i1 ∧ rRes o1 = Some j) ∨ z = i ∧ rRes o1 = Some j;
  mv_same : j ≠ i → rRes o ≠ Some j → rRes o1 ≠ Some j → x' = x
}.

Lemma replace_moved (h : heap) i i1 o o1 h' : h !! i = Some o → h !! i1 = Some o1 → i ≠ i1 →
  (∀ r, rRes o = Some r → r ≠ i ∧ r ≠ i1) → (∀ r, rRes o1 = Some r → r ≠ i ∧ r ≠ i1) → replaceResultArg i i1 h = Ret h' →
  ∀ j, match h !! j with Some x => ∃ x', h' !! j = Some x' ∧ moved i i1 o o1 j x x' | None => h' !! j = None end.
Proof.
  intros Hi Hi1 Hne Ho Ho1 H j. unfold replaceResultArg in H. rewrite (deref_Some _ _ _ Hi) in H. cbn [rbind] in H.
  apply bind_Ret in H as (h1 & H1 & H). pose proof (delUse_at _ _ _ _ H1) as L1.
  assert (h1 !! i = Some o) as Hi'. { rewrite L1, Hi. cbn [fmap option_fmap option_map]. rewrite decide_False; [done|]. intros Hr. by apply Ho in Hr as [? _]. }
  assert (h1 !! i1 = Some o1) as Hi1'. { rewrite L1, Hi1. cbn [fmap option_fmap option_map]. rewrite decide_False; [done|]. intros Hr. by apply Ho in Hr as [_ ?]. }
  rewrite (deref_Some _ _ _ Hi'), (deref_Some _ _ _ Hi1') in H. cbn [rbind] in H. set (oi := MkResult _ _ _ _ _ _ _) in H.
  assert (∀ j, h' !! j = (λ x, if decide (rRes o1 = Some j) then MkResult (rRef x) (rDir x) (rRes x) (OpDiv x) (OpAdd x) (rVal x) ({[i]} ∪ uses x ∖ {[i1]}) else x)
    <$> <[i := oi]> h1 !! j) as L2.
  { destruct (rRes o1) as [r|] eqn:Er; [|injection H as <-; intros k; by destruct (<[i := oi]> h1 !! k)]. apply bind_Ret in H as (h2 & H2 & H).
    intros k. rewrite (addUse_at _ _ _ _ H k), (delUse_at _ i1 (Some r) h2 H2 k). destruct (<[i := oi]> h1 !! k) as [x|]; [|done].
    cbn [fmap option_fmap option_map]. destruct (decide (k = r)) as [->|Hk]; [by rewrite !decide_True|]. by rewrite !decide_False by congruence. }
  rewrite L2. destruct (decide (j = i)) as [->|Hji].
  - rewrite Hi, lookup_insert_eq. cbn [fmap option_fmap option_map]. rewrite decide_False; [|intros Hr; by apply Ho1 in Hr as [? _]].
    exists oi. split; [done|]. split; [by rewrite decide_True| |done]. intros z. cbn [uses oi].
    assert (rRes o ≠ Some i) as Hn by (intros Hr; by apply Ho in Hr as [? _]). assert (rRes o1 ≠ Some i) as Hn1 by (intros Hr; by apply Ho1 in Hr as [? _]). tauto.
  - rewrite lookup_insert_ne, L1 by done. destruct (h !! j) as [x|] eqn:Ej; [|done]. cbn [fmap option_fmap option_map].
    eexists. split; [reflexivity|]. split.
    + rewrite decide_False by done. repeat case_decide; done.
    + intros z. repeat case_decide; cbn [uses withoutUse]; rewrite ?elem_of_union, ?elem_of_difference, ?elem_of_singleton; destruct (decide (z = i)), (decide (z = i1)); naive_solver.
    + intros _ Hn Hn1. by rewrite !decide_False.
Qed.

Lemma lay_replace ls l ls2 i i1 o o1 m h' : lay (ls ++ (i :: i1 :: l) :: ls2) m → mHeap m !! i = Some o → mHeap m !! i1 = Some o1 →
  uses o1 = ∅ → rRef o1 = rRef o → rDir o1 = rDir o → replaceResultArg i i1 (mHeap m) = Ret h' →
  lay (ls ++ (i :: l) :: ls2) (Mem h' (mNext m)) ∧ sameRefs (mHeap m) h' ∧
  ∀ j x, j ∉ concat (ls ++ (i :: i1 :: l) :: ls2) → mHeap m !! j = Some x → h' !! j = Some x.
Proof.
  intros Hlay Hi Hi1 Hu Hrf Hdr H. pose proof Hlay as [Hnd HL Ht Hf Hord]. set (L := concat (ls ++ (i :: i1 :: l) :: ls2)) in *.
  assert (L ≡ₚ i1 :: concat (ls ++ (i :: l) :: ls2)) as Hp.
  { unfold L. rewrite !concat_app. cbn [concat app]. rewrite <-!Permutation_middle. constructor. }
  set (L' := concat (ls ++ (i :: l) :: ls2)) in *. rewrite Hp in Hnd. apply NoDup_cons in Hnd as [Hn1 Hnd].
  assert (i ∈ L') as HiL by (unfold L'; rewrite concat_app; cbn [concat app]; rewrite elem_of_app; right; apply list_elem_of_here).
  assert (i ≠ i1) as Hne by (intros ->; done).
  assert (∀ x, x ∈ list_to_set (C := gset positive) L ↔ x = i1 ∨ x ∈ L') as HinL by (intros x; by rewrite elem_of_list_to_set, Hp, elem_of_cons).
  assert (∀ j x r, j = i ∨ j = i1 → mHeap m !! j = Some x → rRes x = Some r → r ∈ concat ls) as Hearly.
  { intros j x r Hj Hx Hr. rewrite ordered_app in Hord. destruct Hord as (_ & H2 & _). destruct (H2 j x r) as [[]|?]; [|done|done|done].
    destruct Hj as [->| ->]; rewrite !elem_of_cons; tauto. }
  assert (∀ r, r ∈ concat ls → r ≠ i ∧ r ≠ i1) as Hout.
  { intros r Hr. split; intros ->.
    - unfold L' in Hnd. rewrite concat_app in Hnd. apply NoDup_app in Hnd as (_ & Hd & _). apply (Hd i Hr). cbn [concat app]. apply list_elem_of_here.
    - apply Hn1. unfold L'. rewrite concat_app, elem_of_app. by left. }
  pose proof (replace_moved (mHeap m) i i1 o o1 h' Hi Hi1 Hne ltac:(intros r Hr; apply Hout; eapply (Hearly i); eauto)
    ltac:(intros r Hr; apply Hout; eapply (Hearly i1); eauto) H) as Hmv.
  assert (∀ j x', h' !! j = Some x' → ∃ x, mHeap m !! j = Some x ∧ moved i i1 o o1 j x x') as Hback.
  { intros j x' Hx'. specialize (Hmv j). destruct (mHeap m !! j) as [x|]; [|congruence]. destruct Hmv as (x2 & Hx2 & M). exists x. split; [done|]. congruence. }
  assert (∀ j x, mHeap m !! j = Some x → ∃ x', h' !! j = Some x' ∧ moved i i1 o o1 j x x') as Hfwd by (intros j x Hx; specialize (Hmv j); by rewrite Hx in Hmv).
  assert (sameRefs (mHeap m) h') as Hsame.
  { intros j x Hx. destruct (Hfwd j x Hx) as (x' & Hx' & [Hr _ _]). exists x'. split; [done|]. case_decide as Hd; [subst j|]; [|naive_solver].
    assert (x = o) as -> by congruence. destruct Hr as (-> & -> & _). done. }
  assert (∀ j x r, j ∈ list_to_set (C := gset positive) L → mHeap m !! j = Some x → rRes x = Some r → r ≠ i1) as Hunref.
  { intros j x r Hj Hx Hr ->. destruct (linked_res _ _ HL j x i1 Hj Hx Hr) as (_ & o2 & Ho2 & Hin). assert (o2 = o1) as -> by congruence. rewrite Hu in Hin. done. }
  split_and!; [split| |].
  - done.
  - split; cbn [mHeap].
    + intros j Hj. rewrite elem_of_list_to_set in Hj. destruct (linked_in _ _ HL j) as [x Hx]; [apply HinL; by right|].
      destruct (Hfwd j x Hx) as (? & ? & _). eauto.
    + intros j x' y Hj Hx' Hr. rewrite elem_of_list_to_set in Hj. destruct (Hback j x' Hx') as (x & Hx & [Hm _ _]).
      assert (∃ k ok, k ∈ list_to_set (C := gset positive) L ∧ mHeap m !! k = Some ok ∧ rRes ok = Some y ∧ (j = i ∧ k = i1 ∨ j ≠ i ∧ j = k)) as (k & ok & Hk & Hok & Hrk & Hjk).
      { case_decide as Hd; [exists i1, o1|exists j, x]; destruct Hm as (_ & _ & Hm); (split_and!; [apply HinL|done|congruence|]); tauto. }
      destruct (linked_res _ _ HL k ok y Hk Hok Hrk) as (Hy & oy & Hoy & Hin). pose proof (Hunref k ok y Hk Hok Hrk) as Hyi. apply HinL in Hy as [?|Hy]; [done|].
      split; [by rewrite elem_of_list_to_set|]. destruct (Hfwd y oy Hoy) as (oy' & Hoy' & [_ Huy _]). exists oy'. split; [done|]. apply Huy.
      destruct Hjk as [[Hj1 Hk1]|[Hji Hjk]]; [right; split; [done|congruence]|left]. rewrite Hjk. split; [done|].
      rewrite <-Hjk. split; [tauto|]. intros [Hj1 _]. apply Hn1. by rewrite <-Hj1.
    + intros y oy' z Hy Hoy' Hz. rewrite elem_of_list_to_set in Hy. destruct (Hback y oy' Hoy') as (oy & Hoy & [_ Huy _]). apply Huy in Hz. destruct Hz as [(Hz & Hz1 & Hz2)|[Hzi Hr1]].
      * destruct (linked_uses _ _ HL y oy z) as (HzL & oz & Hoz & Hrz); [apply HinL; by right|done|done|].
        assert (z ≠ i1) as Hzi1 by (intros ->; apply Hz2; split; congruence). assert (z ≠ i) as Hzi by (intros ->; apply Hz1; split; congruence).
        apply HinL in HzL as [?|HzL]; [done|]. split; [by rewrite elem_of_list_to_set|]. destruct (Hfwd z oz Hoz) as (oz' & Hoz' & [Hm _ _]).
        rewrite decide_False in Hm by done. exists oz'. split; [done|]. destruct Hm as (_ & _ & ->). done.
      * rewrite Hzi. split; [by rewrite elem_of_list_to_set|]. destruct (Hfwd i o Hi) as (oi' & Hoi' & [Hm _ _]). rewrite decide_True in Hm by done. exists oi'. split; [done|].
        destruct Hm as (_ & _ & ->). done.
  - eapply heapTyped_refs; [|exact Hsame|].
    + intros j Hj. rewrite elem_of_list_to_set in Hj. apply (linked_in _ _ HL), HinL. by right.
    + intros j x Hj. apply Ht, HinL. rewrite elem_of_list_to_set in Hj. by right.
  - intros j x Hx. cbn [mHeap mNext] in *. destruct (Hback j x Hx) as (y & Hy & _). by apply Hf in Hy.
  - cbn [mHeap]. assert (∀ j x' r, j ∈ L' → j ≠ i → h' !! j = Some x' → rRes x' = Some r → ∃ x, mHeap m !! j = Some x ∧ rRes x = Some r ∧ r ≠ i1) as Hrb.
    { intros j x' r Hj Hji Hx' Hr. destruct (Hback j x' Hx') as (x & Hx & [Hm _ _]). rewrite decide_False in Hm by done. destruct Hm as (_ & _ & Hm).
      exists x. split_and!; [done|congruence|]. eapply (Hunref j x); [apply HinL; by right|done|congruence]. }
    unfold L' in Hrb, Hnd. rewrite concat_app in Hrb, Hnd. cbn [concat app] in Hrb, Hnd. rewrite ordered_app in Hord |- *. cbn [ordered] in *. destruct Hord as (H1 & H2 & H3).
    apply NoDup_app in Hnd as (_ & Hd1 & Hnd). apply NoDup_cons in Hnd as [Hd2 _].
    split_and!.
    + eapply ordered_mono; [exact H1|]. intros j x' r Hj Hx' Hr. destruct (Hrb j x' r) as (x & ? & ? & _); [rewrite elem_of_app; by left| |done|done|eauto].
      intros ->. apply (Hd1 i Hj), list_elem_of_here.
    + intros j x' r Hj Hx' Hr. apply elem_of_cons in Hj as [->|Hj].
      * right. destruct (Hback i x' Hx') as (x & Hx & [Hm _ _]). rewrite decide_True in Hm by done. eapply (Hearly i1); [by right|done|]. destruct Hm as (_ & _ & <-). done.
      * destruct (Hrb j x' r) as (x & Hx & Hrx & _); [rewrite elem_of_app, elem_of_cons, elem_of_app; tauto| |done|done|].
        { intros ->. apply Hd2. rewrite elem_of_app. by left. }
        apply (H2 j x r); [rewrite !elem_of_cons; tauto|done|done].
    + eapply ordered_mono; [exact H3|]. intros j x' r Hj Hx' Hr. destruct (Hrb j x' r) as (x & Hx & Hrx & Hr1); [rewrite elem_of_app, elem_of_cons, elem_of_app; tauto| |done|done|].
      { intros ->. apply Hd2. rewrite elem_of_app. by right. }
      exists x. split_and!; [done|done|]. cbv beta. rewrite !elem_of_cons. tauto.
  - done.
  - intros j x Hj Hx. destruct (Hfwd j x Hx) as (x' & Hx' & [_ _ Hs]). rewrite Hx'. f_equal. apply Hs.
    + intros ->. apply Hj. rewrite Hp, elem_of_cons. by right.
    + intros Hr. apply Hj. unfold L. rewrite concat_app, elem_of_app. left. by eapply (Hearly i); [left| |].
    + intros Hr. apply Hj. unfold L. rewrite concat_app, elem_of_app. left. by eapply (Hearly i1); [right| |].
Qed.

End target.
End Layers.
