(* ===== verification/Collide.v ===== *)
(** * Collide: program transformations that provoke races (prog/collide.go) *)

From S2P Require Import Prelude Types Prog ExampleTarget ProgEdit Clone.
Import Types Prog ProgEdit Clone.

Module Collide.

Definition maxAsyncPerProg : Z := 24.
Definition ConcurrCallSize : Z := 2.
Definition MaxCalls : Z := 40.

Definition setProps (p : CallProps) (c : Call) : Call :=
  MkCall (Meta c) (Args c) (Ret_ c) p (Comment c).
Definition setAsync (b : bool) (c : Call) : Call :=
  setProps (MkProps (FailNth (Props c)) b (Rerun (Props c))) c.
Definition setRerun (n : Z) (c : Call) : Call :=
  setProps (MkProps (FailNth (Props c)) (Async (Props c)) n) c.
Definition isAsync (c : Call) : bool := Async (Props c).

Section target.
Context (target : Target).

(** Sets of results, with [nil] as a possible element; a [nil] map is [None]. *)
Notation resSet := (gset (option positive)) (only parsing).

(** The callback of [AssignRandomAsync]: [producesUnassigned] and [consumes]. *)
Definition asyncArg (h : heap) (unassigned : option resSet) (i : positive) (s : bool * resSet) :
    res (bool * resSet) :=
  let! o := deref h i in
  let produces :=
    if bool_decide (rDir o ≠ DirIn) && bool_decide (Some i ∈ default ∅ unassigned) then true else s.1 in
  let consumes := if decide (rDir o ≠ DirOut) then {[rRes o]} ∪ s.2 else s.2 in
  Ret (produces, consumes).

Definition asyncCall (h : heap) (unassigned : option resSet) (c : Call) : res (bool * resSet) :=
  ForeachArg target (λ _, h)
    (λ a _ s, let! s := match resultOf a with Some i => asyncArg h unassigned i s | None => Ret s end in
              Ret (s, false)) c (false, ∅).

(** [for res := range consumes { unassigned[res] = true }] *)
Definition addUnassigned (unassigned : option resSet) (consumes : resSet) : res (option resSet) :=
  match unassigned with
  | Some u => Ret (Some (u ∪ consumes))
  | None => if decide (consumes = ∅) then Ret None else Panic "assignment to entry in nil map"
  end.

(** The loop from the last call to the first; [last] holds for the last call of the
    program only. *)
Fixpoint asyncLoop (h : heap) (rcalls : list Call) (last : bool) (unassigned : option resSet)
    (leftAsync : Z) (r : rng) : res (list Call * rng) :=
  match rcalls with
  | [] => Ret ([], r)
  | c :: rest =>
    if decide (leftAsync ≤ 0) then Ret (rcalls, r)
    else
      let! '(produces, consumes) := asyncCall h unassigned c in
      let! '(async, r) :=
        if (produces : bool) || last then Ret (false, r)
        else let! '(x, r) := intn 3 r in Ret (bool_decide (x ≠ 0), r) in
      if (async : bool) then
        let! un := addUnassigned unassigned consumes in
        let! '(rest, r) := asyncLoop h rest false un (leftAsync - 1) r in
        Ret (setAsync true c :: rest, r)
      else
        let! '(rest, r) := asyncLoop h rest false (Some consumes) leftAsync r in
        Ret (setAsync false c :: rest, r)
  end.

Definition AssignRandomAsync (origProg : list Call) (m : mem) (r : rng) : res (list Call * mem * rng) :=
  let! '(prog, m) := Clone origProg m in
  let! '(rprog, r) := asyncLoop (mHeap m) (reverse prog) true None maxAsyncPerProg r in
  Ret (reverse rprog, m, r).

Definition rerunSteps : list Z := [32; 64].

Fixpoint AssignRandomRerun (prog : list Call) (r : rng) : res (list Call * rng) :=
  match prog with
  | c :: ((c1 :: rest) as tail) =>
    if isAsync c then
      let! '(x, r) := intn 4 r in
      if decide (x ≠ 0) then
        let! '(tail, r) := AssignRandomRerun tail r in Ret (c :: tail, r)
      else
        let! '(k, r) := intn (Z.of_nat (length rerunSteps)) r in
        let! rerun := index rerunSteps k in
        let! '(rest, r) := AssignRandomRerun rest r in
        Ret (setRerun rerun c :: setRerun rerun c1 :: rest, r)
    else let! '(tail, r) := AssignRandomRerun tail r in Ret (c :: tail, r)
  | _ => Ret (prog, r)
  end.

(** [for _, c := range dupCalls], marking the first [maxAsyncPerProg] calls. *)
Fixpoint markAsync (left : Z) (calls : list Call) : list Call :=
  match calls with
  | [] => []
  | c :: rest => if decide (left = 0) then calls else setAsync true c :: markAsync (left - 1) rest
  end.

Definition DoubleExecCollide (origProg : list Call) (m : mem) : res (string + (list Call * mem)) :=
  let n := Z.of_nat (length origProg) in
  if decide (n * 2 > MaxCalls) then
    Ret (inl "the prog is too big for the DoubleExecCollide transformation")
  else if decide (n < 2) then Ret (inl "the prog is too small for the transformation")
  else
    let! '(prog, m) := Clone origProg m in
    let! '(dup, _, m) := cloneCalls prog None m in
    Ret (inr (prog ++ markAsync maxAsyncPerProg dup, m)).

(** [rand.Perm]: [m[i] = m[j]; m[j] = i] for a random [j <= i]. *)
Definition permStep (i : nat) (s : list nat * rng) : res (list nat * rng) :=
  let (l, r) := s in
  let! '(j, r) := intn (Z.of_nat i + 1) r in
  let j := Z.to_nat j in
  Ret (<[j := i]> (l ++ [default 0%nat (l !! j)]), r).
Definition Perm (n : nat) (r : rng) : res (list nat * rng) := for_list permStep (seq 0 n) ([], r).

(** [s[:n]] *)
Definition slicePrefix {A} (l : list A) (n : Z) : res (list A) :=
  if decide (0 ≤ n ≤ Z.of_nat (length l)) then Ret (take (Z.to_nat n) l)
  else Panic "slice bounds out of range".

(** The loop shared by the two transformations that duplicate calls: every chosen call
    is preceded by an asynchronous copy that uses the same resources. *)
Fixpoint dupLoop (i : nat) (prog : list Call) (duplicate : list nat) (m : mem) : res (list Call * mem) :=
  match prog with
  | [] => Ret ([], m)
  | c :: rest =>
    if decide (i ∈ duplicate) then
      let! '(dupCall, _, m) := cloneCall c None m in
      let! '(ret, m) := dupLoop (S i) rest duplicate m in
      Ret (setAsync true dupCall :: c :: ret, m)
    else
      let! '(ret, m) := dupLoop (S i) rest duplicate m in Ret (c :: ret, m)
  end.

Definition DupCallCollide (origProg : list Call) (m : mem) (r : rng) :
    res (string + (list Call * mem * rng)) :=
  let n := Z.of_nat (length origProg) in
  if decide (n < 2) then Ret (inl "the prog is too small for the transformation")
  else
    let insert := ConcurrCallSize in
    let insert := if decide (insert = 0) then 2 else insert in
    let insert := if decide (insert > maxAsyncPerProg) then maxAsyncPerProg else insert in
    let insert := if decide (insert + n > MaxCalls) then MaxCalls - n else insert in
    if decide (insert = 0) then Ret (inl "no calls could be duplicated")
    else
      let! '(perm, r) := Perm (length origProg) r in
      let! duplicate := slicePrefix perm insert in
      let! '(prog, m) := Clone origProg m in
      let! '(ret, m) := dupLoop 0 prog duplicate m in
      Ret (inr (ret, m, r)).

(** [ValidateAsyncCall]: the loop with [asyncCounter]. *)
Fixpoint limitAsync (asyncCounter : Z) (prog : list Call) : list Call :=
  match prog with
  | [] => []
  | c :: rest =>
    if decide (ConcurrCallSize ≤ asyncCounter) then setAsync false c :: limitAsync asyncCounter rest
    else c :: limitAsync (if isAsync c then asyncCounter + 1 else asyncCounter) rest
  end.

Definition ValidateAsyncCall (origProg : list Call) (m : mem) : res (list Call * mem) :=
  if decide (Z.of_nat (length origProg) < ConcurrCallSize) then Ret (origProg, m)
  else let! '(prog, m) := Clone origProg m in Ret (limitAsync 0 prog, m).

Definition DupCallSchedCollide (origProg : list Call) (m : mem) (r : rng) :
    res (string + (list Call * mem * rng)) :=
  let n := Z.of_nat (length origProg) in
  if decide (n < ConcurrCallSize) then Ret (inl "the prog is too small for the transformation")
  else if decide (n + ConcurrCallSize > MaxCalls) then
    Ret (inl "the prog is too large for the transformation")
  else
    let! '(perm, r) := Perm (length origProg) r in
    let! duplicate := slicePrefix perm ConcurrCallSize in
    let! '(prog, m) := Clone origProg m in
    let! '(ret, m) := dupLoop 0 prog duplicate m in
    Ret (inr (ret, m, r)).

(** ** What a call produces and consumes *)

Definition producedBy (h : heap) (c : Call) (i : positive) : Prop :=
  i ∈ cloneOrder c ∧ ∃ o, h !! i = Some o ∧ rDir o ≠ DirIn.
Definition consumedBy (h : heap) (c : Call) (k : option positive) : Prop :=
  ∃ i o, i ∈ cloneOrder c ∧ h !! i = Some o ∧ rDir o ≠ DirOut ∧ rRes o = k.

(** The traversals of the call succeed in the heap. *)
Definition readable (h : heap) (c : Call) : Prop :=
  sizedCall target h c ∧ ∀ i, i ∈ cloneOrder c → is_Some (h !! i).

Lemma asyncCall_spec h un c :
  readable h c →
  ∃ produces consumes, asyncCall h un c = Ret (produces, consumes) ∧
    (produces = false → ∀ i, producedBy h c i → Some i ∉ default ∅ un) ∧
    ∀ k, k ∈ consumes ↔ consumedBy h c k.
Proof.
  intros [Hsz Hin]. unfold asyncCall. rewrite (ForeachArg_results target h c (asyncArg h un)) by done.
  fold (cloneOrder c). unfold producedBy, consumedBy.
  destruct (for_list_inv (λ done (s : bool * gset (option positive)),
    (s.1 = false → ∀ i, i ∈ done → (∃ o, h !! i = Some o ∧ rDir o ≠ DirIn) → Some i ∉ default ∅ un) ∧
    ∀ k, k ∈ s.2 ↔ ∃ i o, i ∈ done ∧ h !! i = Some o ∧ rDir o ≠ DirOut ∧ rRes o = k)
    (asyncArg h un) (cloneOrder c) (false, ∅)) as ([produces consumes] & -> & Hp & Hc).
  - simpl. split; [set_solver|]. intros k. split; [set_solver|]. intros (? & ? & Hi & _). set_solver.
  - intros dn x rest [pr co] Hl [Hp Hc]. simpl in *.
    destruct (Hin x) as [o Ho]; [rewrite Hl; set_solver|].
    unfold asyncArg. rewrite (deref_Some _ _ _ Ho). cbn [rbind fst snd]. eexists. split; [reflexivity|].
    cbn [fst snd]. split.
    + intros Hpr i Hi (o' & Ho' & Hd). apply elem_of_app in Hi as [Hi|Hi].
      * apply Hp; [by destruct (_ && _)|done|eauto].
      * apply list_elem_of_singleton in Hi as ->. assert (o' = o) as -> by congruence.
        rewrite bool_decide_eq_true_2 in Hpr by done. cbn [andb] in Hpr.
        case_bool_decide; done.
    + intros k. case_decide as Hd.
      * rewrite elem_of_union, Hc, elem_of_singleton. split.
        -- intros [->|(i & oi & Hi & ?)]; [exists x, o|exists i, oi]; set_solver.
        -- intros (i & oi & Hi & Hoi & ? & ?). apply elem_of_app in Hi as [Hi|Hi]; [by eauto 10|].
           apply list_elem_of_singleton in Hi as ->. left. congruence.
      * rewrite Hc. split.
        -- intros (i & oi & Hi & ?). exists i, oi. set_solver.
        -- intros (i & oi & Hi & Hoi & ? & ?). apply elem_of_app in Hi as [Hi|Hi]; [by eauto 10|].
           apply list_elem_of_singleton in Hi as ->. congruence.
  - exists produces, consumes. split; [done|]. split; [|done].
    intros Hpf i [Hi Ho]. by apply Hp.
Qed.

(** ** [AssignRandomAsync] *)

Definition sameButAsync (c c1 : Call) : Prop := ∃ b, c1 = setAsync b c.
Definition asyncs (l : list Call) : Z := Z.of_nat (length (filter (λ c, isAsync c = true) l)).

(** In a program in reverse order: an asynchronous call that runs together with the
    calls the set [un] was collected from produces nothing of [un], and between an
    asynchronous producer and a consumer there is a synchronous call. *)
Record spaced (h : heap) (un : gset (option positive)) (rl : list Call) : Prop := {
  sp_un : ∀ q c i, rl !! q = Some c → Forall (λ c, isAsync c = true) (take (S q) rl) →
    producedBy h c i → Some i ∉ un;
  sp_pair : ∀ p q cp cq i, (p < q)%nat → rl !! p = Some cp → rl !! q = Some cq → isAsync cq = true →
    producedBy h cq i → consumedBy h cp (Some i) →
    ∃ s cs, (p < s < q)%nat ∧ rl !! s = Some cs ∧ isAsync cs = false
}.

(** Prefixing a call whose consumed results were added to the set. *)
Lemma spaced_cons h un un' c b rl :
  (b = true → (∀ i, producedBy h c i → Some i ∉ un) ∧ un ⊆ un') →
  (∀ k, consumedBy h c k → k ∈ un') → spaced h un' rl → spaced h un (setAsync b c :: rl).
Proof.
  intros Hb Hc [Hun Hpair]. split.
  - intros [|q] c' i Hq Hall Hprod; simpl in *.
    + injection Hq as <-. apply Forall_cons in Hall as [Hb' _]. by apply Hb in Hprod.
    + apply Forall_cons in Hall as [Hb' Hall]. destruct (Hb Hb') as [_ Hsub].
      intros Hi. eapply Hun; [exact Hq|done|done|set_solver].
  - intros [|p] [|q] cp cq i Hlt Hp Hq Ha Hprod Hcons; simpl in *; try lia.
    + injection Hp as <-. assert (consumedBy h c (Some i)) as Hci by exact Hcons.
      destruct (decide (Forall (λ c, isAsync c = true) (take q rl))) as [Hall|Hno].
      * exfalso. eapply Hun; [exact Hq| |exact Hprod|by apply Hc].
        rewrite (take_S_r _ _ _ Hq). apply Forall_app. split; [done|by constructor].
      * apply not_Forall_Exists in Hno; [|apply _]. apply Exists_exists in Hno as (cs & Hcs & Hna).
        apply list_elem_of_lookup in Hcs as [s Hs]. apply lookup_take_Some in Hs as [Hs Hlt'].
        exists (S s), cs. split; [lia|]. split; [done|]. simpl in Hna. by destruct (isAsync cs).
    + destruct (Hpair p q cp cq i) as (s & cs & Hs & Hcs & Hna); try done; [lia|].
      exists (S s), cs. split; [lia|done].
Qed.

Lemma asyncLoop_spec h rl : ∀ last un left r,
  Forall (readable h) rl → Forall (λ c, isAsync c = false) rl → 0 ≤ left → (un = None → last = true) →
  ∃ rl' r', asyncLoop h rl last un left r = Ret (rl', r') ∧ Forall2 sameButAsync rl rl' ∧
    asyncs rl' ≤ left ∧ spaced h (default ∅ un) rl' ∧
    (last = true → ∀ c, head rl' = Some c → isAsync c = false).
Proof.
  assert (∀ rl, Forall (λ c, isAsync c = false) rl → filter (λ c, isAsync c = true) rl = []) as Hnil.
  { intros l Hl. induction Hl as [|c l Hc _ IH]; [done|]. by rewrite filter_cons_False by congruence. }
  assert (∀ un rl, Forall (λ c, isAsync c = false) rl → spaced h un rl) as Hstop.
  { intros un l Hl. split.
    - intros q c i Hq Hall. rewrite (take_S_r _ _ _ Hq) in Hall. apply Forall_app in Hall as [_ Hall].
      apply Forall_cons in Hall as [Ha _]. rewrite Forall_lookup in Hl. apply Hl in Hq. congruence.
    - intros p q cp cq i _ _ Hq Ha. rewrite Forall_lookup in Hl. apply Hl in Hq. congruence. }
  induction rl as [|c rl IH]; intros last un left r Hrd Hna Hleft Hun; simpl.
  { exists [], r. split_and!; [done|constructor|done|by apply Hstop|done]. }
  case_decide as Hle.
  { exists (c :: rl), r. split_and!; [done| | |by apply Hstop|].
    - assert (∀ l, Forall (λ c, isAsync c = false) l → Forall2 sameButAsync l l) as Hs; [|by apply Hs].
      induction 1 as [|[me ar re [fn b rr] co] l Hx _ IHl]; constructor; [|done].
      exists false. unfold setAsync, isAsync in *; simpl in *. by subst.
    - unfold asyncs. rewrite Hnil by done. simpl. lia.
    - intros _ c' [= <-]. by apply Forall_cons in Hna as [? _]. }
  apply Forall_cons in Hrd as [Hc Hrd]. apply Forall_cons in Hna as [Hca Hna].
  destruct (asyncCall_spec h un c Hc) as (pr & co & -> & Hpr & Hco). cbn [rbind].
  assert (∃ a r', (if pr || last then Ret (false, r)
    else let! '(x, r) := intn 3 r in Ret (bool_decide (x ≠ 0), r)) = Ret (a, r') ∧
    (a = true → pr = false ∧ last = false)) as (a & r1 & -> & Ha).
  { destruct pr, last; simpl; [by eauto..|]. destruct (intn_total 3 r) as (x & r' & -> & _); [lia|].
    simpl. eauto. }
  cbn [rbind]. destruct a.
  - destruct (Ha eq_refl) as [-> ->]. destruct un as [u|]; [|by specialize (Hun eq_refl)]. simpl.
    destruct (IH false (Some (u ∪ co)) (left - 1) r1) as (rl' & r' & -> & Hf & Hn & Hs & _);
      [done|done|lia|done|].
    cbn [rbind]. eexists _, _. split; [reflexivity|]. split; [constructor; [by exists true|done]|].
    split_and!; [|apply (spaced_cons _ _ (u ∪ co)); [|by set_solver|done]|done].
    + unfold asyncs in *. rewrite filter_cons_True by done. simpl. lia.
    + intros _. split; [by apply Hpr|set_solver].
  - destruct (IH false (Some co) left r1) as (rl' & r' & -> & Hf & Hn & Hs & _); [done|done|lia|done|].
    cbn [rbind]. eexists _, _. split; [reflexivity|]. split; [constructor; [by exists false|done]|].
    split_and!; [|apply (spaced_cons _ _ co); [done|set_solver|done]|].
    + unfold asyncs in *. rewrite filter_cons_False by done. lia.
    + by intros _ c' [= <-].
Qed.

(** A program on which the transformations are run: results refer to earlier ones and
    the traversals of its calls succeed. *)
Record runnable (calls : list Call) (m : mem) : Prop := {
  rn_fresh : fresh m;
  rn_order : wellOrdered (mHeap m) (concat (cloneOrder <$> calls));
  rn_sized : Forall (sizedCall target (mHeap m)) calls
}.

Lemma runnable_readable calls m : runnable calls m → Forall (readable (mHeap m)) calls.
Proof.
  intros [_ Hord Hsz]. apply Forall_forall. intros c Hc. split; [by eapply Forall_forall|].
  intros i Hi. assert (i ∈ concat (cloneOrder <$> calls)) as Hin
    by (apply elem_of_concat; eexists; split; [by apply list_elem_of_fmap_2|done]).
  apply list_elem_of_split in Hin as (l1 & l2 & Hl). destruct (Hord _ _ _ Hl) as (_ & o & Ho & _). eauto.
Qed.

Lemma clone_readable calls m :
  runnable calls m →
  ∃ calls1 na m1, Clone calls m = Ret (calls1, m1) ∧ Forall2 (copyOfCall na) calls calls1 ∧
    copied (mHeap m) (mNext m) (concat (cloneOrder <$> calls)) na m1 ∧
    Forall (readable (mHeap m1)) calls1.
Proof.
  intros Hrn. pose proof (runnable_readable _ _ Hrn) as Hrd. destruct Hrn as [Hf Hord Hsz].
  destruct (clone_spec calls m Hf Hord) as (calls1 & na & m1 & Hcl & Hcopy & Hcp & _).
  exists calls1, na, m1. split_and!; [done|done|done|]. apply Forall_lookup. intros k c1 Hk.
  destruct (Forall2_lookup_r _ _ _ _ _ Hcopy Hk) as (c & Hc & Hcc).
  rewrite Forall_lookup in Hrd. destruct (Hrd _ _ Hc) as [Hs Hi].
  by apply (copied_call target _ _ _ _ _ _ _ Hcp Hcc).
Qed.


(** ** Duplicating calls *)

Lemma permStep_spec i l r :
  l ≡ₚ seq 0 i → ∃ l' r', permStep i (l, r) = Ret (l', r') ∧ l' ≡ₚ seq 0 (S i).
Proof.
  intros Hl. unfold permStep. destruct (intn_total (Z.of_nat i + 1) r) as (j & r' & -> & Hj); [lia|].
  cbn [rbind]. eexists _, r'. split; [done|]. rewrite seq_S. simpl.
  assert (length l = i) as Hlen by (rewrite Hl; apply length_seq).
  destruct (decide (Z.to_nat j = i)) as [->|Hne].
  - rewrite insert_app_r_alt by lia. replace (i - length l)%nat with 0%nat by lia. simpl. by rewrite Hl.
  - destruct (lookup_lt_is_Some_2 l (Z.to_nat j)) as [x Hx]; [lia|]. rewrite Hx. simpl.
    rewrite insert_app_l by lia. rewrite <-Hl. rewrite insert_take_drop by lia.
    rewrite <-(take_drop_middle l (Z.to_nat j) x) at 3 by done.
    rewrite <-!app_assoc. apply Permutation_app_head. simpl.
    rewrite <-!Permutation_middle. rewrite !app_nil_r. apply Permutation_swap.
Qed.

Lemma Perm_spec n r : ∃ l r', Perm n r = Ret (l, r') ∧ l ≡ₚ seq 0 n.
Proof.
  unfold Perm. destruct (for_list_inv (λ done (s : list nat * rng), s.1 ≡ₚ seq 0 (length done))
    permStep (seq 0 n) ([], r)) as ([l r'] & Hl & HP).
  - done.
  - intros dn i rest [l r0] Hs Hl. simpl in Hl.
    assert (i = length dn) as ->.
    { assert (seq 0 n !! length dn = Some i) as Hi by (rewrite Hs; by apply list_lookup_middle).
      apply lookup_seq in Hi. lia. }
    destruct (permStep_spec (length dn) l r0 Hl) as (l' & r' & -> & Hl'). eexists. split; [done|].
    simpl. rewrite length_app, Nat.add_comm. done.
  - exists l, r'. split; [done|]. simpl in HP. by rewrite length_seq in HP.
Qed.

(** Copying without tracking: the heap grows and keeps the references. *)
Definition grows (h h' : heap) : Prop :=
  ∀ i o, h !! i = Some o → ∃ o', h' !! i = Some o' ∧ rRes o' = rRes o.
#[local] Instance grows_preorder : PreOrder grows.
Proof.
  split; [intros h i o; eauto|]. intros h1 h2 h3 H1 H2 i o Hi.
  destruct (H1 _ _ Hi) as (o2 & Hi2 & <-). by apply H2.
Qed.

Definition refersIn (h : heap) (i : positive) : Prop :=
  ∃ o, h !! i = Some o ∧ ∀ r, rRes o = Some r → is_Some (h !! r).

Lemma refersIn_grows h h' i : grows h h' → refersIn h i → refersIn h' i.
Proof.
  intros Hg (o & Ho & Hr). destruct (Hg _ _ Ho) as (o' & Ho' & Heq). exists o'. split; [done|].
  rewrite Heq. intros r Hr'. destruct (Hr r Hr') as [x Hx]. destruct (Hg _ _ Hx) as (x' & ? & _). eauto.
Qed.

Definition dupOk {A} (m : mem) (x : res (A * option (gmap positive positive) * mem)) : Prop :=
  ∃ y m', x = Ret (y, None, m') ∧ grows (mHeap m) (mHeap m') ∧ fresh m'.

Lemma dup_loop {A B} (f : A → option (gmap positive positive) → mem →
    res (B * option (gmap positive positive) * mem)) (rs : A → list positive) l :
  (∀ x m, x ∈ l → fresh m → (∀ i, i ∈ rs x → refersIn (mHeap m) i) → dupOk m (f x None m)) →
  ∀ acc m, fresh m → (∀ x i, x ∈ l → i ∈ rs x → refersIn (mHeap m) i) →
  dupOk m (for_list (λ x '(ys, na, m), let! '(y, na, m) := f x na m in Ret (ys ++ [y], na, m)) l (acc, None, m)).
Proof.
  intros Hf. induction l as [|x l IH]; intros acc m Hfr Hin; simpl.
  { eexists _, m. split; [done|]. split; [reflexivity|done]. }
  destruct (Hf x m) as (y & m1 & -> & Hg & Hfr1); [set_solver|done|intros i; apply Hin; set_solver|].
  cbn [rbind]. destruct (IH ltac:(intros; apply Hf; [set_solver|done|done]) (acc ++ [y]) m1 Hfr1)
    as (ys & m2 & -> & Hg2 & Hfr2).
  { intros z i Hz Hi. eapply refersIn_grows; [done|]. apply (Hin z); [set_solver|done]. }
  eexists _, m2. split; [done|]. split; [by etrans|done].
Qed.

Lemma dup_alloc m i m' : fresh m → alloc m = (i, m') → fresh m' ∧ mHeap m' = mHeap m.
Proof. intros Hf [= <- <-]. split; [|done]. intros j o Hj. apply Hf in Hj. simpl. lia. Qed.

Lemma clone_result_nil a m :
  fresh m → refersIn (mHeap m) a → dupOk m (clone (ResultArg a) None m).
Proof.
  intros Hfr (o & Ho & Hr). cbn [clone]. rewrite (deref_Some _ _ _ Ho). cbn [rbind alloc mHeap mNext].
  assert (∀ x, fresh (Mem (<[mNext m := x]> (mHeap m)) (Pos.succ (mNext m)))) as Hfr'.
  { intros x i oi Hi. simpl in *. apply lookup_insert_Some in Hi as [[<- _]|[_ Hi]]; [lia|].
    apply Hfr in Hi. lia. }
  assert (∀ x, grows (mHeap m) (<[mNext m := x]> (mHeap m))) as Hg.
  { intros x i oi Hi. rewrite lookup_insert_ne by (apply Hfr in Hi; lia). eauto. }
  destruct (rRes o) as [r|]; [|eexists _, _; split; [done|]; split; [apply Hg|apply Hfr']].
  destruct (Hr r eq_refl) as [ro Hro]. unfold cloneRef, addUse. cbn [rbind].
  erewrite deref_Some by (rewrite lookup_insert_ne by (apply Hfr in Hro; lia); exact Hro).
  cbn [rbind]. eexists _, _. split; [done|]. cbn [mHeap mNext]. split.
  - intros i oi Hi. destruct (Hg (MkResult (rRef o) (rDir o) (Some r) (OpDiv o) (OpAdd o) (rVal o) ∅) _ _ Hi)
      as (oi' & Hoi' & Heq). destruct (decide (i = r)) as [->|Hn].
    + rewrite lookup_insert_eq. eexists. split; [done|]. simpl. congruence.
    + rewrite lookup_insert_ne by done. eauto.
  - intros i oi Hi. cbn [mHeap mNext] in *. apply lookup_insert_Some in Hi as [[<- _]|[_ Hi]].
    + apply Hfr in Hro. lia.
    + by apply Hfr' in Hi.
Qed.

Lemma clone_nil arg : ∀ m,
  fresh m → (∀ i, i ∈ results arg → refersIn (mHeap m) i) → dupOk m (clone arg None m).
Proof.
  induction arg as [c v|c ad v r IH|c d sz|c l IH|c o i t IH|a] using arg_ind; intros m Hfr Hin.
  6: { apply clone_result_nil; [done|]. apply Hin, list_elem_of_here. }
  all: cbn [clone]; destruct (alloc m) as [j m1] eqn:Ea;
    destruct (dup_alloc _ _ _ Hfr Ea) as [Hfr1 Hh]; unfold dupOk; rewrite <-Hh in *.
  1,3: eexists _, _; split; [done|]; split; [reflexivity|done].
  - destruct r as [p|]; [|eexists _, _; split; [done|]; split; [reflexivity|done]].
    destruct (IH p eq_refl m1 Hfr1 Hin) as (p1 & m' & -> & ? & ?). cbn [rbind]. eexists _, _; split; [done|]; split; [done|done].
  - destruct (dup_loop clone results l) with (acc := @nil Arg) (m := m1) as (ys & m' & -> & ? & ?).
    + intros x m' Hx Hf' Hi. by apply IH.
    + done.
    + intros x i Hx Hi. apply Hin. rewrite results_group. apply elem_of_concat. exists (results x).
      split; [by apply list_elem_of_fmap_2|done].
    + cbn [rbind]. eexists _, _; split; [done|]; split; [done|done].
  - destruct (IH m1 Hfr1 Hin) as (o1 & m' & -> & ? & ?). cbn [rbind]. eexists _, _; split; [done|]; split; [done|done].
Qed.

Lemma cloneCall_nil c m :
  fresh m → (∀ i, i ∈ cloneOrder c → refersIn (mHeap m) i) →
  ∃ c1 m', cloneCall c None m = Ret (c1, None, m') ∧ grows (mHeap m) (mHeap m') ∧ fresh m' ∧
    Meta c1 = Meta c ∧ Props c1 = Props c.
Proof.
  intros Hfr Hin. unfold cloneOrder in Hin. unfold cloneCall.
  assert (∃ ret m1, match Ret_ c with
      | None => Ret (None, None, m)
      | Some i => let! '(r, newargs, m) := clone (ResultArg i) None m in
        match r with
        | ResultArg i1 => Ret (Some i1, newargs, m)
        | _ => Panic "interface conversion: not a ResultArg" end
      end = Ret (ret, None, m1) ∧ grows (mHeap m) (mHeap m1) ∧ fresh m1) as (ret & m1 & -> & Hg1 & Hfr1).
  { destruct (Ret_ c) as [i|]; [|eexists _, _; split; [done|]; split; [reflexivity|done]].
    destruct (clone_result_nil i m Hfr) as (y & m' & Hcl & Hg & Hf'); [apply Hin; set_solver|].
    rewrite Hcl. cbn [rbind]. cbn [clone] in Hcl. unbind. cbn [alloc] in Hcl. unbind. subst. eexists _, _; split; [done|]; split; [done|done]. }
  cbn [rbind].
  destruct (dup_loop clone results (Args c)) with (acc := @nil Arg) (m := m1) as (ys & m2 & -> & Hg2 & Hfr2).
  - intros x m' Hx Hf' Hi. by apply clone_nil.
  - done.
  - intros x i Hx Hi. eapply refersIn_grows; [done|]. apply Hin. rewrite elem_of_app, elem_of_concat.
    right. exists (results x). split; [by apply list_elem_of_fmap_2|done].
  - cbn [rbind]. eexists _, m2. split; [done|]. split; [by etrans|done].
Qed.

(** The calls with their properties, as the duplication should leave them. *)
Definition summary (c : Call) : Syscall * CallProps := (Meta c, Props c).
Fixpoint dupShape (i : nat) (l : list (Syscall * CallProps)) (duplicate : list nat) :
    list (Syscall * CallProps) :=
  match l with
  | [] => []
  | (meta, p) :: l =>
    (if decide (i ∈ duplicate) then [(meta, MkProps (FailNth p) true (Rerun p))] else []) ++
    (meta, p) :: dupShape (S i) l duplicate
  end.

Lemma dupLoop_spec prog : ∀ i dup m,
  fresh m → (∀ c x, c ∈ prog → x ∈ cloneOrder c → refersIn (mHeap m) x) →
  ∃ ret m', dupLoop i prog dup m = Ret (ret, m') ∧ summary <$> ret = dupShape i (summary <$> prog) dup.
Proof.
  induction prog as [|c prog IH]; intros i dup m Hfr Hin; simpl; [by eauto|]. case_decide as Hd.
  - destruct (cloneCall_nil c m Hfr) as (c1 & m1 & -> & Hg & Hfr1 & Hmeta & Hprops);
      [intros x; apply Hin; set_solver|]. cbn [rbind].
    destruct (IH (S i) dup m1 Hfr1) as (ret & m2 & -> & Hs).
    { intros c' x Hc' Hx. eapply refersIn_grows; [done|]. apply (Hin c'); [set_solver|done]. }
    cbn [rbind]. eexists _, m2. split; [done|]. simpl. unfold summary at 1. simpl.
    rewrite Hmeta, Hprops. do 2 f_equal. exact Hs.
  - destruct (IH (S i) dup m Hfr) as (ret & m2 & -> & Hs); [set_solver|].
    cbn [rbind]. eexists _, m2. split; [done|]. simpl. f_equal. exact Hs.
Qed.

Lemma clone_dup calls m dup :
  runnable calls m →
  ∃ prog m1 ret m2, Clone calls m = Ret (prog, m1) ∧ dupLoop 0 prog dup m1 = Ret (ret, m2) ∧
    summary <$> ret = dupShape 0 (summary <$> calls) dup.
Proof.
  intros Hrn. destruct (clone_readable _ _ Hrn) as (prog & na & m1 & Hcl & Hcopy & Hcp & Hrd).
  destruct (dupLoop_spec prog 0 dup m1) as (ret & m2 & Hdl & Hs).
  - apply Hcp.
  - intros c1 i1 Hc1 Hi1. apply list_elem_of_lookup in Hc1 as [k Hk].
    destruct (Forall2_lookup_r _ _ _ _ _ Hcopy Hk) as (c & Hc & Hcc).
    pose proof (runnable_readable _ _ Hrn) as Hrd0. rewrite Forall_lookup in Hrd0.
    destruct (Hrd0 _ _ Hc) as [_ Hin0].
    destruct (copied_back _ _ _ _ _ _ _ _ Hcp Hcc Hi1) as (i & Hi & Hna).
    destruct (Hin0 i Hi) as [o Ho].
    destruct (cp_obj _ _ _ _ _ Hcp _ _ _ Hna Ho) as (o1 & Ho1 & _ & _ & _ & _ & _ & Hres & _).
    exists o1. split; [done|]. rewrite Hres. intros r1 Hr1. apply bind_Some in Hr1 as (r & _ & Hr).
    destruct (copied_lookup _ _ _ _ _ (rn_order _ _ Hrn) Hcp r r1 Hr) as (ro & _ & ro1 & ? & _). eauto.
  - exists prog, m1, ret, m2. split; [done|]. split; [done|]. rewrite Hs. f_equal.
    clear -Hcopy. induction Hcopy as [|c c1 l l1 Hc _ IH]; [done|]. rewrite !fmap_cons, IH. f_equal.
    unfold summary. by rewrite (cc_meta _ _ _ Hc), (cc_props _ _ _ Hc).
Qed.


(** ** [ValidateAsyncCall] *)

Lemma limitAsync_nil prog : Forall2 sameButAsync prog (limitAsync ConcurrCallSize prog) ∧
  asyncs (limitAsync ConcurrCallSize prog) = 0.
Proof.
  induction prog as [|c prog [IH1 IH2]]; [split; [constructor|done]|].
  cbn [limitAsync]. rewrite decide_True by done. split; [constructor; [by exists false|done]|].
  unfold asyncs in *. by rewrite filter_cons_False.
Qed.

Lemma limitAsync_spec prog : ∀ n,
  0 ≤ n ≤ ConcurrCallSize →
  Forall2 sameButAsync prog (limitAsync n prog) ∧ asyncs (limitAsync n prog) ≤ ConcurrCallSize - n ∧
  ∀ k c, prog !! k = Some c → n + asyncs (take k prog) < ConcurrCallSize →
    limitAsync n prog !! k = Some c.
Proof.
  induction prog as [|c prog IH]; intros n Hn.
  { split_and!; [constructor|unfold asyncs; simpl; lia|done]. }
  destruct (decide (n = ConcurrCallSize)) as [->|Hlt].
  { destruct (limitAsync_nil (c :: prog)) as [H1 H2]. split_and!; [done|lia|].
    intros k ck _ Hk. unfold asyncs in Hk. lia. }
  cbn [limitAsync]. rewrite decide_False by lia.
  destruct (IH (if isAsync c then n + 1 else n)) as (H1 & H2 & H3); [destruct (isAsync c); lia|].
  split; [constructor; [exists (isAsync c); by destruct c as [? ? ? []]|done]|].
  unfold asyncs in *. split.
  - rewrite filter_cons. destruct (isAsync c); case_decide; simpl; lia || congruence.
  - intros [|k] ck Hk Hlt'; [done|]. apply H3; [done|]. cbn [take] in Hlt'.
    rewrite filter_cons in Hlt'. destruct (isAsync c); case_decide; simpl in Hlt'; lia || congruence.
Qed.

(** [ValidateAsyncCall] leaves at most two asynchronous calls: on a program of two or
    more calls it yields a copy that differs at most in the asynchronous flags, and
    that keeps the flag of every call up to the second asynchronous one. *)
Theorem validateAsync_limit calls m :
  runnable calls m → 2 ≤ Z.of_nat (length calls) →
  ∃ copy prog m', Clone calls m = Ret (copy, m') ∧ ValidateAsyncCall calls m = Ret (prog, m') ∧
    Forall2 sameButAsync copy prog ∧ asyncs prog ≤ 2 ∧
    ∀ k c, copy !! k = Some c → asyncs (take k copy) < 2 → prog !! k = Some c.
Proof.
  intros Hrn Hn. destruct (clone_readable _ _ Hrn) as (copy & na & m' & Hcl & _).
  unfold ValidateAsyncCall. rewrite decide_False by (unfold ConcurrCallSize; lia).
  rewrite Hcl. cbn [rbind]. destruct (limitAsync_spec copy 0) as (H1 & H2 & H3); [done|].
  exists copy, (limitAsync 0 copy), m'. split_and!; [done|done|done|done|].
  intros k c Hk Hlt. apply H3; [done|]. unfold ConcurrCallSize. lia.
Qed.

End target.

(** ** The transformations on the example program *)

Definition exampleMem : mem := Mem ExampleTarget.heap0 12.
Definition exampleSync : list Call := setAsync false <$> ExampleTarget.calls.

Lemma example_runnable (b : bool) :
  runnable ExampleTarget.target (setAsync b <$> ExampleTarget.calls) exampleMem.
Proof.
  split.
  - apply (wp_fresh _ _ _ exampleProg_wf).
  - change (concat _) with [1%positive; 5%positive].
    intros [|x [|y [|z pre]]] a post Hl; simplify_eq/=.
    + split; [set_solver|]. eexists. split; [reflexivity|]. done.
    + split; [set_solver|]. eexists. split; [reflexivity|]. intros r [= <-]. set_solver.
  - apply Forall_fmap, Forall_forall. intros c Hc a x Ha Hx.
    apply (wp_sized _ _ _ exampleProg_wf c a); [done| |done]. unfold callArgs in Ha. set_solver.
Qed.



Lemma validateAsync_limit_witness :
  ∃ prog m', ValidateAsyncCall (setAsync true <$> ExampleTarget.calls) exampleMem = Ret (prog, m') ∧
    asyncs prog ≤ 2.
Proof.
  destruct (validateAsync_limit ExampleTarget.target (setAsync true <$> ExampleTarget.calls) exampleMem
    (example_runnable true)) as (copy & prog & m' & _ & Hv & _ & Hn & _).
  - vm_compute. discriminate.
  - exists prog, m'. split; [exact Hv|exact Hn].
Defined.

End Collide.
