(* ===== verification/Size.v ===== *)
(** * Size: the values of length fields (prog/size.go)

    Length fields are [ConstArg]s of a [LenType]; the code writes their values into the
    tree.  No size depends on the value of a constant, so the model collects the values
    written in a map from the identities of the constants, and [setVals] puts them into
    the tree.  The map of parents may have a binding of the [nil] argument (the target
    of a null pointer), hence its keys are optional identities. *)

From S2P Require Import Prelude Types Prog ExampleTarget.
Import Types Prog.

Module Size.

Definition ParentRef : string := "parent".
Definition SyscallRef : string := "syscall".
Definition noOffset : Z := 2 ^ 64 - 1.

Notation parents := (gmap (option positive) Arg) (only parsing).
Notation vals := (gmap positive Z) (only parsing).

Record foundArg := MkFound { farg : option Arg; foffset : Z; isAnyPtr : bool }.

Section target.
Context (target : Target) (h : heap).

Notation typeAt := (typeAt (typeRefs target)).
Notation argSize := (Prog.Size target h).
Notation InnerArg := (InnerArg target h).
Notation argType := (argType target h).

Definition keyOf (arg : option Arg) : option positive := argIdOf <$> arg.

(** The loop of [findArg] over the arguments next to the field: the argument with the
    name [elem] and its offset. *)
Fixpoint findField (elem : string) (fields : list Field) (overlayField : Z) (i : Z) (args : list Arg)
    (offset : Z) : res (option (Arg * Z)) :=
  match args with
  | [] => Ret None
  | buf :: args =>
    let offset := if decide (i = overlayField) then 0 else offset in
    let! field := index fields i in
    if decide (elem ≠ fieldName field) then
      let! sz := argSize buf in findField elem fields overlayField (i + 1) args (offset +! sz)
    else Ret (Some (buf, offset))
  end.

(** The loop of [findArg] over the enclosing structs and unions. *)
Fixpoint findParent (fuel : nat) (elem : string) (parentsMap : parents) (buf : option Arg) : res (option Arg) :=
  match fuel with
  | O => OutOfFuel
  | S fuel =>
    match buf with
    | None => Ret None
    | Some arg =>
      let! t := argType arg in
      if decide (elem ≠ TemplateName t) then
        findParent fuel elem parentsMap (parentsMap !! keyOf (Some arg))
      else Ret (Some arg)
    end
  end.

(** [findFieldStruct]; [rec] is [findArg] with the rest of the path. *)
Definition findFieldStruct (rec : option Arg → list Arg → list Field → Z → res foundArg) (buf : option Arg) :
    res foundArg :=
  match buf with
  | Some (GroupArg c inner) =>
    let! t := typeAt (aref c) in
    match t with
    | StructType _ fields _ overlay => rec buf inner fields overlay
    | _ => Panic "interface conversion: not a *StructType"
    end
  | Some (UnionArg _ _ _ _) => rec buf [] [] 0
  | _ => Panic "unexpected arg type"
  end.

Fixpoint findArg (path : list string) (pos : option Arg) (args : list Arg) (fields : list Field)
    (parentsMap : parents) (overlayField : Z) {struct path} : res foundArg :=
  match path with
  | [] => Panic "index out of range"
  | elem :: path =>
    let rec pos args fields overlay := findArg path pos args fields parentsMap overlay in
    let! located := findField elem fields overlayField 0 args 0 in
    match located with
    | Some (buf, offset) =>
      let! r := argRef h buf in
      if decide (r = anyPtrPtr target ∨ r = anyPtr64 target) then Ret (MkFound (Some buf) offset true)
      else
        let! inner := InnerArg buf in
        match inner with
        | None => Ret (MkFound None offset false)
        | Some _ => if decide (path ≠ []) then findFieldStruct rec inner else Ret (MkFound inner offset false)
        end
    | None =>
      let parent := parentsMap !! keyOf pos in
      if decide (elem = ParentRef) then
        if decide (path ≠ []) then findFieldStruct rec parent else Ret (MkFound parent noOffset false)
      else
        let! found := findParent (S (size parentsMap)) elem parentsMap parent in
        match found with
        | Some _ => if decide (path ≠ []) then findFieldStruct rec found else Ret (MkFound found noOffset false)
        | None => Panic "path references non existent field"
        end
    end
  end.

(** Integer division of [uint64]: by zero it panics. *)
Definition div64 (x y : Z) : res Z :=
  if decide (y = 0) then Panic "integer divide by zero" else Ret (x `div` y).

Definition computeSize (arg : option Arg) (offset lenBitSize : Z) (lenOffset : bool) : res Z :=
  if lenOffset then
    if decide (offset = noOffset) then Panic "offset of a non-field"
    else div64 (offset *! 8) lenBitSize
  else
    match arg with
    | None => Ret 0
    | Some arg =>
      let bitSize := if decide (lenBitSize = 0) then 8 else lenBitSize in
      let! t := argType arg in
      match t, arg with
      | VmaType _ _ _, PointerArg _ _ vmaSize _ => div64 (vmaSize *! 8) bitSize
      | VmaType _ _ _, _ => Panic "interface conversion: not a *PointerArg"
      | ArrayType _ _ _ _ _, GroupArg _ inner =>
        if decide (lenBitSize ≠ 0) then let! sz := argSize arg in div64 (sz *! 8) bitSize
        else Ret (Z.of_nat (length inner))
      | ArrayType _ _ _ _ _, _ => Panic "interface conversion: not a *GroupArg"
      | _, _ => let! sz := argSize arg in div64 (sz *! 8) bitSize
      end
    end.

Definition assignSize (dst : positive) (bitSize : Z) (offset : bool) (pos : option Arg) (path : list string)
    (args : list Arg) (fields : list Field) (parentsMap : parents) (overlayField : Z) (vs : vals) : res vals :=
  let! found := findArg path pos args fields parentsMap overlayField in
  if isAnyPtr found then Ret vs
  else let! v := computeSize (farg found) (foffset found) bitSize offset in Ret (<[dst := v]> vs).

(** [autos]: the arguments whose value is to be computed; all of them if [nil]. *)
Notation autosT := (option (gset positive)) (only parsing).

Definition assignArgSize (arg : Arg) (args : list Arg) (fields : list Field) (parentsMap : parents)
    (syscallArgs : list Arg) (syscallFields : list Field) (overlayField : Z) (s : autosT * vals) :
    res (autosT * vals) :=
  let (autos, vs) := s in
  let! inner := InnerArg arg in
  match inner with
  | None => Ret s
  | Some arg =>
    let! t := argType arg in
    match t with
    | LenType _ bitSize offset path =>
      let skip := match autos with Some au => bool_decide (argIdOf arg ∉ au) | None => false end in
      if (skip : bool) then Ret s
      else
        let autos := (λ au, au ∖ {[argIdOf arg]}) <$> autos in
        match arg, path with
        | ConstArg c _, elem :: rest =>
          let! vs :=
            if decide (elem = SyscallRef) then
              assignSize (aid c) bitSize offset None rest syscallArgs syscallFields parentsMap 0 vs
            else
              assignSize (aid c) bitSize offset (Some arg) path args fields parentsMap overlayField vs in
          Ret (autos, vs)
        | ConstArg _ _, [] => Panic "index out of range"
        | _, _ => Panic "interface conversion: not a *ConstArg"
        end
    | _ => Ret s
    end
  end.

Definition assignSizes (args : list Arg) (fields : list Field) (parentsMap : parents) (syscallArgs : list Arg)
    (syscallFields : list Field) (overlayField : Z) (s : autosT * vals) : res (autosT * vals) :=
  for_list (λ arg s, assignArgSize arg args fields parentsMap syscallArgs syscallFields overlayField s) args s.

Definition saveToParentsMap (arg : Arg) (pm : parents) : res parents :=
  let! t := argType arg in
  let! pm :=
    match t, arg with
    | StructType _ _ _ _, GroupArg _ inner =>
      for_list (λ field pm, let! i := InnerArg field in Ret (<[keyOf i := arg]> pm)) inner pm
    | StructType _ _ _ _, _ => Panic "interface conversion: not a *GroupArg"
    | _, _ => Ret pm
    end in
  match arg with
  | UnionArg _ opt _ _ => let! i := InnerArg opt in Ret (<[keyOf i := arg]> pm)
  | _ => Ret pm
  end.

(** The callback of the second traversal of [assignSizesArray]. *)
Definition assignSizesArg (parentsMap : parents) (args : list Arg) (fields : list Field) (arg : Arg)
    (s : autosT * vals) : res (autosT * vals) :=
  let! t := argType arg in
  let! s :=
    match t, arg with
    | StructType _ fields1 _ overlay, GroupArg _ inner =>
      assignSizes inner fields1 parentsMap args fields overlay s
    | StructType _ _ _ _, _ => Panic "interface conversion: not a *GroupArg"
    | _, _ => Ret s
    end in
  match arg with
  | UnionArg _ opt _ _ => assignArgSize opt [] [] parentsMap args fields 0 s
  | _ => Ret s
  end.

Definition assignSizesArray (args : list Arg) (fields : list Field) (autos : autosT) : res (autosT * vals) :=
  let! parentsMap :=
    for_list (λ arg pm, ForeachSubArg target (λ _, h)
      (λ a _ pm, let! pm := saveToParentsMap a pm in Ret (pm, false)) arg pm) args ∅ in
  let! s := assignSizes args fields parentsMap args fields 0 (autos, ∅) in
  for_list (λ arg s, ForeachSubArg target (λ _, h)
    (λ a _ s, let! s := assignSizesArg parentsMap args fields a s in Ret (s, false)) arg s) args s.

Definition assignSizesCall (c : Call) : res vals :=
  let! '(_, vs) := assignSizesArray (Args c) (sysArgs (Meta c)) None in Ret vs.

End target.

(** The tree with the new values. *)
Fixpoint setVals (vs : vals) (arg : Arg) : Arg :=
  match arg with
  | ConstArg c v => ConstArg c (default v (vs !! aid c))
  | PointerArg c a s p => PointerArg c a s (match p with Some p => Some (setVals vs p) | None => None end)
  | GroupArg c inner => GroupArg c (setVals vs <$> inner)
  | UnionArg c opt i tr => UnionArg c (setVals vs opt) i tr
  | DataArg _ _ _ | ResultArg _ => arg
  end.

(** ** The values only depend on the structure *)

Section structural.
Context (target : Target) (h : heap) (vs0 : vals).

Notation sv := (setVals vs0).
Notation typeAt := (typeAt (typeRefs target)).

Lemma sv_id a : argIdOf (sv a) = argIdOf a.
Proof. by destruct a. Qed.

Lemma sv_ref a : argRef h (sv a) = argRef h a.
Proof. by destruct a. Qed.

Lemma sv_type a : argType target h (sv a) = argType target h a.
Proof. unfold argType. by rewrite sv_ref. Qed.

Lemma sv_size a : Prog.Size target h (sv a) = Prog.Size target h a.
Proof.
  induction a as [| | |c l IH|c o i t IH|] using arg_ind; try done; cbn [setVals Prog.Size].
  - apply bind_ext. intros t _. destruct (negb (Varlen t)); [done|]. destruct t; try done.
    + rewrite <-for_list_fmap. apply for_list_ext. intros x sz Hx. by rewrite IH.
    + rewrite <-for_list_fmap, length_fmap. f_equal. apply for_list_ext. intros x [i acc] Hx. by rewrite IH.
  - apply bind_ext. intros t' _. by rewrite IH.
Qed.

Lemma sv_inner a :
  InnerArg target h (sv a) = (let! r := InnerArg target h a in Ret (sv <$> r)).
Proof.
  induction a as [| c ad v r IH| | | |] using arg_ind; cbn [setVals InnerArg];
    fold (argType target h); unfold argType; cbn [argRef rbind]; try by destruct (typeAt _) as [[]| |].
  - destruct (typeAt _) as [[]| |]; try done. simpl. destruct r; [|done]. by apply IH.
  - destruct (deref h i) as [o| |]; try done. simpl. by destruct (typeAt _) as [[]| |].
Qed.

Lemma sv_key (a : option Arg) : keyOf (sv <$> a) = keyOf a.
Proof. destruct a; [|done]. unfold keyOf. simpl. by rewrite sv_id. Qed.

Lemma sv_findField elem fields ov args : ∀ i off,
  findField target h elem fields ov i (sv <$> args) off =
  (let! r := findField target h elem fields ov i args off in Ret (prod_map sv id <$> r)).
Proof.
  induction args as [|a args IH]; intros i off; [done|]. rewrite fmap_cons. cbn [findField].
  destruct (index fields i) as [f| |]; [|done|done]. cbn [rbind]. case_decide; [|done].
  rewrite sv_size. destruct (Prog.Size target h a); [|done|done]. cbn [rbind]. apply IH.
Qed.

Lemma sv_findParent fuel elem pm : ∀ buf,
  findParent target h fuel elem (sv <$> pm) (sv <$> buf) =
  (let! r := findParent target h fuel elem pm buf in Ret (sv <$> r)).
Proof.
  induction fuel as [|fuel IH]; intros buf; [done|]. destruct buf as [a|]; [|done].
  cbn [findParent fmap option_fmap option_map]. rewrite sv_type, bind_assoc. apply bind_ext. intros t _.
  case_decide; [|done]. rewrite lookup_fmap. change (Some (sv a)) with (sv <$> Some a).
  rewrite sv_key. apply IH.
Qed.

Definition svFound (f : foundArg) : foundArg := MkFound (sv <$> farg f) (foffset f) (isAnyPtr f).

Lemma sv_findArg path : ∀ pos args fields pm ov,
  findArg target h path (sv <$> pos) (sv <$> args) fields (sv <$> pm) ov =
  (let! f := findArg target h path pos args fields pm ov in Ret (svFound f)).
Proof.
  induction path as [|elem path IH]; intros pos args fields pm ov; [done|]. cbn [findArg].
  assert (∀ buf, findFieldStruct target
      (λ pos args fields ov, findArg target h path pos args fields (sv <$> pm) ov) (sv <$> buf) =
    (let! f := findFieldStruct target (λ pos args fields ov, findArg target h path pos args fields pm ov) buf in
     Ret (svFound f))) as Hffs.
  { intros [[]|]; try done; simpl.
    - destruct (typeAt _) as [[]| |]; try done. simpl. apply (IH (Some (GroupArg c Inner))).
    - apply (IH (Some (UnionArg c _ Index transient)) []). }
  rewrite sv_findField, !bind_assoc. apply bind_ext. intros [[buf off]|] _; cbn [rbind fmap option_fmap option_map prod_map id fst snd].
  - rewrite sv_ref, bind_assoc. apply bind_ext. intros r _. case_decide; [done|].
    rewrite sv_inner, !bind_assoc. apply bind_ext. intros [a|] _; [|done].
    cbn [rbind fmap option_fmap option_map]. case_decide; [|done]. apply (Hffs (Some a)).
  - rewrite lookup_fmap, sv_key. case_decide; [case_decide; [apply Hffs|done]|].
    rewrite map_size_fmap, sv_findParent, !bind_assoc. apply bind_ext. intros [a|] _; [|done].
    cbn [rbind fmap option_fmap option_map]. case_decide; [|done]. apply (Hffs (Some a)).
Qed.

Lemma sv_computeSize a off bs b :
  computeSize target h (sv <$> a) off bs b = computeSize target h a off bs b.
Proof.
  unfold computeSize. destruct b; [done|]. destruct a as [a|]; [|done]. cbn [fmap option_fmap option_map].
  rewrite sv_type. apply bind_ext. intros t _. rewrite sv_size.
  destruct t, a; try done. cbn [setVals]. by rewrite length_fmap.
Qed.

Lemma sv_assignSize dst bs b pos path args fields pm ov vs :
  assignSize target h dst bs b (sv <$> pos) path (sv <$> args) fields (sv <$> pm) ov vs =
  assignSize target h dst bs b pos path args fields pm ov vs.
Proof.
  unfold assignSize. rewrite sv_findArg, bind_assoc. apply bind_ext. intros f _. unfold svFound.
  cbn [rbind farg foffset isAnyPtr]. destruct (isAnyPtr f); [done|]. by rewrite sv_computeSize.
Qed.

Lemma sv_assignArgSize arg args fields pm sargs sfields ov s :
  assignArgSize target h (sv arg) (sv <$> args) fields (sv <$> pm) (sv <$> sargs) sfields ov s =
  assignArgSize target h arg args fields pm sargs sfields ov s.
Proof.
  unfold assignArgSize. destruct s as [autos vs]. rewrite sv_inner, bind_assoc. apply bind_ext.
  intros [a|] _; [|done]. cbn [rbind fmap option_fmap option_map]. rewrite sv_type. apply bind_ext.
  intros t _. destruct t; try done. rewrite sv_id. destruct (match autos with Some _ => _ | None => _ end); [done|].
  destruct a; try done. destruct path; [done|]. cbn [setVals]. f_equal. case_decide.
  - apply (sv_assignSize _ _ _ None).
  - apply (sv_assignSize _ _ _ (Some (ConstArg c Val))).
Qed.

Lemma sv_assignSizes args fields pm sargs sfields ov s :
  assignSizes target h (sv <$> args) fields (sv <$> pm) (sv <$> sargs) sfields ov s =
  assignSizes target h args fields pm sargs sfields ov s.
Proof.
  unfold assignSizes. rewrite <-for_list_fmap. apply for_list_ext. intros x s' _. apply sv_assignArgSize.
Qed.

Lemma sv_save arg pm :
  saveToParentsMap target h (sv arg) (sv <$> pm) =
  (let! pm := saveToParentsMap target h arg pm in Ret (sv <$> pm)).
Proof.
  unfold saveToParentsMap. rewrite sv_type, bind_assoc. apply bind_ext. intros t _.
  assert (∀ a x (pm : parents), (let! i := InnerArg target h (sv x) in Ret (<[keyOf i := sv a]> (sv <$> pm))) =
    (let! pm := (let! i := InnerArg target h x in Ret (<[keyOf i := a]> pm)) in Ret (sv <$> pm))) as Hins.
  { intros a x pm'. rewrite sv_inner, !bind_assoc. apply bind_ext. intros i _. cbn [rbind].
    by rewrite sv_key, fmap_insert. }
  assert (∀ a l (pm : parents), for_list (λ field pm, let! i := InnerArg target h field in Ret (<[keyOf i := sv a]> pm))
      (sv <$> l) (sv <$> pm) =
    (let! pm := for_list (λ field pm, let! i := InnerArg target h field in Ret (<[keyOf i := a]> pm)) l pm in
     Ret (sv <$> pm))) as Hloop.
  { intros a l pm'. rewrite <-for_list_fmap. apply (for_list_embed (λ pm : parents, sv <$> pm)).
    intros x pm1 _. apply Hins. }
  destruct arg; cbn [setVals]; try (destruct t; simpl; done).
  - destruct t; try done. cbn [rbind]. rewrite !bind_assoc. rewrite (Hloop (GroupArg c Inner)). by rewrite bind_assoc.
  - destruct t; try done; cbn [rbind]; apply (Hins (UnionArg c arg Index transient)).
Qed.

(** Traversing the changed tree is traversing the tree. *)
Definition svCtx (c : ArgCtx) : ArgCtx :=
  MkCtx (sv <$> Parent c) (Fields c) (sv <$> Base c) (Offset c).

Section traversal.
Context {S : Type} (j : S → S) (f f' : Arg → ArgCtx → S → res (S * bool)).
Hypothesis Hf : ∀ a c s, f' (sv a) (svCtx c) (j s) = (let! '(s, b) := f a c s in Ret (j s, b)).

Lemma sv_foreach arg : ∀ ctx s,
  foreachArgImpl target (λ _, h) f' (sv arg) (svCtx ctx) (j s) =
  (let! s := foreachArgImpl target (λ _, h) f arg ctx s in Ret (j s)).
Proof.
  induction arg as [| c ad v r IH| |c l IH|c o i t IH|i] using arg_ind; intros ctx st;
    [match goal with |- context [sv ?a] => pose proof (Hf a ctx st) as E end; cbn [setVals] in E;
     cbn [setVals foreachArgImpl]; rewrite E; clear E; rewrite !bind_assoc; apply bind_ext;
     intros [s1 b] _; cbn [rbind]; (destruct b; [done|]); try done..].
  - destruct r as [p|]; [|done]. apply (IH p eq_refl (MkCtx (Parent ctx) (Fields ctx) (Some (PointerArg c ad v (Some p))) 0)).
  - destruct (typeAt (aref c)) as [t| |]; [|done|done]. cbn [rbind]. rewrite !bind_assoc.
    rewrite <-for_list_fmap.
    set (ctx1 := match t with StructType _ fields _ _ => MkCtx l fields (Base ctx) (Offset ctx) | _ => ctx end).
    replace (match t with StructType _ fields _ _ =>
      MkCtx (sv <$> l) fields (Base (svCtx ctx)) (Offset (svCtx ctx)) | _ => svCtx ctx end) with (svCtx ctx1)
      by (by destruct t).
    match goal with
    | |- context [for_list ?F l (0, Offset (svCtx ctx), j s1)] =>
      match goal with
      | |- context [for_list ?F' l (0, Offset ctx, s1)] =>
        pose proof (for_list_embed (λ '(a, b, s), (a, b, j s)) F F' l (0, Offset ctx, s1)) as E
      end
    end. cbn beta iota in E. cbn [svCtx Offset]. cbn [svCtx Offset] in E. rewrite E; clear E.
    + rewrite bind_assoc. apply bind_ext. intros [[? ?] ?] _. done.
    + intros x [[i off] s2] Hx. set (off1 := if decide _ then _ else _).
      rewrite (IH x Hx (MkCtx (Parent ctx1) (Fields ctx1) (Base ctx1) off1)), !bind_assoc.
      apply bind_ext. intros s3 _. cbn [rbind]. rewrite sv_size. by destruct (Prog.Size target h x).
Qed.

Lemma sv_foreachAll args s :
  for_list (λ arg s, ForeachSubArg target (λ _, h) f' arg s) (sv <$> args) (j s) =
  (let! s := for_list (λ arg s, ForeachSubArg target (λ _, h) f arg s) args s in Ret (j s)).
Proof.
  rewrite <-for_list_fmap. apply for_list_embed. intros x s1 _. apply (sv_foreach x emptyCtx).
Qed.
End traversal.

Lemma sv_assignSizesArg pm args fields a s :
  assignSizesArg target h (sv <$> pm) (sv <$> args) fields (sv a) s =
  assignSizesArg target h pm args fields a s.
Proof.
  unfold assignSizesArg. rewrite sv_type. apply bind_ext. intros t _. destruct a; try done; cbn [setVals].
  - destruct t; try done. by rewrite sv_assignSizes.
  - destruct t; try done; cbn [rbind]; apply (sv_assignArgSize _ [] []).
Qed.

Lemma sv_assignSizesArray args fields autos :
  assignSizesArray target h (sv <$> args) fields autos = assignSizesArray target h args fields autos.
Proof.
  unfold assignSizesArray.
  change ∅ with (sv <$> (∅ : parents)) at 1.
  rewrite (sv_foreachAll (λ pm : parents, sv <$> pm)
    (λ a _ pm, let! pm := saveToParentsMap target h a pm in Ret (pm, false))).
  2: { intros a c pm. rewrite sv_save, !bind_assoc. done. }
  rewrite bind_assoc. apply bind_ext. intros pm _. cbn [rbind]. rewrite sv_assignSizes.
  apply bind_ext. intros s _.
  pose proof (sv_foreachAll (λ s, s)
    (λ a _ s, let! s := assignSizesArg target h pm args fields a s in Ret (s, false))
    (λ a _ s, let! s := assignSizesArg target h (sv <$> pm) (sv <$> args) fields a s in Ret (s, false))) as E.
  cbn beta in E. rewrite E.
  - by destruct (for_list _ _ _).
  - intros a c s1. rewrite sv_assignSizesArg. by destruct (assignSizesArg _ _ _ _ _ _ _).
Qed.

End structural.


(** The call after its sizes were assigned. *)
Definition withSizes (vs : vals) (c : Call) : Call :=
  MkCall (Meta c) (setVals vs <$> Args c) (Ret_ c) (Props c) (Comment c).


(** ** Fields next to the length field *)

Section siblings.
Context (target : Target) (h : heap).

(** The offset of the field behind fields of the sizes [zs]: fields are laid out one
    after the other, and the overlay field starts again at 0. *)
Definition fieldOffset (overlay : Z) (zs : list Z) : Z :=
  wrapU 64 (sumZ (drop (if decide (0 ≤ overlay ≤ Z.of_nat (length zs)) then Z.to_nat overlay else 0) zs)).

Fixpoint accOffset (overlay i off : Z) (zs : list Z) : Z :=
  let off := if decide (i = overlay) then 0 else off in
  match zs with [] => off | z :: zs => accOffset overlay (i + 1) (off +! z) zs end.

Lemma accOffset_eq overlay zs : ∀ i off,
  0 ≤ i → is_u 64 off →
  accOffset overlay i off zs =
    if decide (i ≤ overlay ≤ i + Z.of_nat (length zs)) then wrapU 64 (sumZ (drop (Z.to_nat (overlay - i)) zs))
    else wrapU 64 (off + sumZ zs).
Proof.
  induction zs as [|z zs IH]; intros i off Hi Hoff; cbn [accOffset length].
  - destruct (decide (i = overlay)) as [->|Hne].
    + rewrite decide_True by lia. by rewrite drop_nil.
    + rewrite decide_False by lia. simpl. by rewrite Z.add_0_r, wrapU_small.
  - rewrite IH by (lia || by apply wrapU_range). destruct (decide (i = overlay)) as [->|Hne].
    + rewrite decide_False by lia. rewrite decide_True by lia. rewrite Z.sub_diag. simpl.
      unfold add64, wrapU. by rewrite Zplus_mod_idemp_l.
    + case_decide; [rewrite decide_True by lia|rewrite decide_False by lia].
      * replace (Z.to_nat (overlay - i)) with (S (Z.to_nat (overlay - (i + 1)))) by lia. done.
      * unfold add64, wrapU. rewrite Zplus_mod_idemp_l. simpl. f_equal. lia.
Qed.

Lemma fieldOffset_acc overlay zs : accOffset overlay 0 0 zs = fieldOffset overlay zs.
Proof.
  rewrite accOffset_eq by done. unfold fieldOffset. rewrite Z.sub_0_r, Z.add_0_l. by case_decide.
Qed.

Lemma findField_acc elem fields overlay zs : ∀ args (i : nat) off a,
  Forall2 (λ x z, Prog.Size target h x = Ret z) (take (length zs) args) zs →
  args !! length zs = Some a →
  (∀ k, (k < length zs)%nat → ∃ f, fields !! (i + k)%nat = Some f ∧ fieldName f ≠ elem) →
  (∃ f, fields !! (i + length zs)%nat = Some f ∧ fieldName f = elem) →
  findField target h elem fields overlay (Z.of_nat i) args off =
    Ret (Some (a, accOffset overlay (Z.of_nat i) off zs)).
Proof.
  induction zs as [|z zs IH]; intros args i off a Hz Ha Hbefore (f & Hf & Hname);
    (destruct args as [|x args]; [done|]); cbn [findField accOffset].
  - injection Ha as ->. rewrite Nat.add_0_r in Hf. rewrite (index_lookup _ _ _ Hf). cbn [rbind].
    by rewrite decide_False by auto.
  - cbn [length take] in *. apply Forall2_cons in Hz as [Hx Hz].
    destruct (Hbefore 0%nat) as (f0 & Hf0 & Hn0); [lia|]. rewrite Nat.add_0_r in Hf0.
    rewrite (index_lookup _ _ _ Hf0). cbn [rbind]. rewrite decide_True by auto. rewrite Hx. cbn [rbind].
    replace (Z.of_nat i + 1) with (Z.of_nat (S i)) by lia.
    rewrite (IH args (S i) _ a); [done|done|done| |].
    + intros k Hk. destruct (Hbefore (S k)) as (fk & Hfk & ?); [lia|]. exists fk.
      by replace (S i + k)%nat with (i + S k)%nat by lia.
    + exists f. by replace (S i + length zs)%nat with (i + S (length zs))%nat by lia.
Qed.

(** The field [elem] of a struct or of a call: the first one with that name; [zs] are the
    sizes of the fields before it. *)
Record named (elem : string) (args : list Arg) (fields : list Field) (zs : list Z) (a : Arg) : Prop := {
  n_sizes : Forall2 (λ x z, Prog.Size target h x = Ret z) (take (length zs) args) zs;
  n_arg : args !! length zs = Some a;
  n_before : ∀ k, (k < length zs)%nat → ∃ f, fields !! k = Some f ∧ fieldName f ≠ elem;
  n_field : ∃ f, fields !! length zs = Some f ∧ fieldName f = elem
}.

End siblings.


Example example_sizes :
  assignSizesCall ExampleTarget.target ExampleTarget.heap0 ExampleTarget.callWrite = Ret {[8%positive := 3]}.
Proof. vm_compute. reflexivity. Qed.

End Size.
