(* ===== verification/SizeDom.v ===== *)
(** * SizeDom: which length fields are assigned (prog/size.go)

    The set of the length fields that [assignSizesCall] writes does not depend on the data of
    the call: two calls that only differ in the contents of buffers get values for the same
    fields.  Together with [sizes_structural] this makes it possible to change a buffer and
    to change it back. *)

From S2P Require Import Prelude Types Prog Size.
Import Types Prog Size.

Module SizeDom.

(** The tree without its data. *)
Fixpoint bare (arg : Arg) : Arg :=
  match arg with
  | DataArg c _ s => DataArg c [] s
  | PointerArg c a v r => PointerArg c a v (match r with Some p => Some (bare p) | None => None end)
  | GroupArg c inner => GroupArg c (bare <$> inner)
  | UnionArg c opt i tr => UnionArg c (bare opt) i tr
  | ConstArg _ _ | ResultArg _ => arg
  end.

Section target.
Context (target : Target) (h : heap).
Notation typeAt := (typeAt (typeRefs target)).
Notation sim a a' := (bare a = bare a') (only parsing).

Lemma bare_id a : argIdOf (bare a) = argIdOf a.
Proof. by destruct a. Qed.

Lemma bare_ref a : argRef h (bare a) = argRef h a.
Proof. by destruct a. Qed.

Lemma bare_type a : argType target h (bare a) = argType target h a.
Proof. unfold argType. by rewrite bare_ref. Qed.

Lemma bare_inner a : InnerArg target h (bare a) = (let! r := InnerArg target h a in Ret (bare <$> r)).
Proof.
  induction a as [| c ad v r IH| | | |] using arg_ind; cbn [bare InnerArg];
    fold (argType target h); unfold argType; cbn [argRef rbind]; try by destruct (typeAt _) as [[]| |].
  - destruct (typeAt _) as [[]| |]; try done. simpl. destruct r; [|done]. by apply IH.
  - destruct (deref h i) as [o| |]; try done. simpl. by destruct (typeAt _) as [[]| |].
Qed.

Lemma bare_findParent (fuel : nat) (elem : string) (pm : gmap (option positive) Arg) : ∀ buf,
  findParent target h fuel elem (bare <$> pm) (bare <$> buf) =
  (let! r := findParent target h fuel elem pm buf in Ret (bare <$> r)).
Proof.
  induction fuel as [|fuel IH]; intros buf; [done|]. destruct buf as [a|]; [|done].
  cbn [findParent fmap option_fmap option_map]. rewrite bare_type, bind_assoc. apply bind_ext. intros t _.
  case_decide; [|done]. rewrite lookup_fmap. unfold keyOf. cbn [fmap option_fmap option_map]. rewrite bare_id. apply IH.
Qed.

(** ** Two runs on trees that only differ in their data *)

Lemma sim_id a a' : sim a a' → argIdOf a = argIdOf a'.
Proof. intros H. by rewrite <-(bare_id a), H, bare_id. Qed.

Lemma sim_type a a' : sim a a' → argType target h a = argType target h a'.
Proof. intros H. by rewrite <-(bare_type a), H, bare_type. Qed.

Lemma sim_key (a a' : option Arg) : bare <$> a = bare <$> a' → keyOf a = keyOf a'.
Proof. destruct a, a'; try done. intros [= H]. unfold keyOf. simpl. by rewrite (sim_id _ _ H). Qed.

Lemma sim_inner a a' r r' : sim a a' → InnerArg target h a = Ret r → InnerArg target h a' = Ret r' → bare <$> r = bare <$> r'.
Proof. intros Hs H H'. pose proof (bare_inner a) as E. rewrite Hs, bare_inner, H, H' in E. simpl in E. congruence. Qed.

Lemma sim_findField elem fields ov args : ∀ args' i off off' r r',
  bare <$> args = bare <$> args' →
  findField target h elem fields ov i args off = Ret r → findField target h elem fields ov i args' off' = Ret r' →
  (bare ∘ fst) <$> r = (bare ∘ fst) <$> r'.
Proof.
  induction args as [|a args IH]; intros [|a' args'] i off off' r r' Hs; try discriminate; cbn [findField].
  - by intros [= <-] [= <-].
  - rewrite !fmap_cons in Hs. injection Hs as Ha Hl. destruct (index fields i) as [f| |]; [|done|done]. cbn [rbind].
    case_decide.
    + intros Hr Hr'. apply bind_Ret in Hr as (z & _ & Hr). apply bind_Ret in Hr' as (z' & _ & Hr'). by eapply IH.
    + intros [= <-] [= <-]. simpl. by f_equal.
Qed.

(** What was found, but for its offset. *)
Definition simFound (f f' : foundArg) : Prop := bare <$> farg f = bare <$> farg f' ∧ isAnyPtr f = isAnyPtr f'.

Lemma sim_findFieldStruct (rec rec' : option Arg → list Arg → list Field → Z → res foundArg) buf buf' f f' :
  (∀ b b' l l' fs ov f f', bare <$> b = bare <$> b' → bare <$> l = bare <$> l' →
     rec b l fs ov = Ret f → rec' b' l' fs ov = Ret f' → simFound f f') →
  bare <$> buf = bare <$> buf' → findFieldStruct target rec buf = Ret f → findFieldStruct target rec' buf' = Ret f' →
  simFound f f'.
Proof.
  intros Hrec Hb. destruct buf as [[]|], buf' as [[]|]; try discriminate; cbn [findFieldStruct].
  - pose proof Hb as Hb'. injection Hb' as -> Hl. destruct (typeAt _) as [[]| |]; try discriminate. by apply Hrec.
  - by apply Hrec.
Qed.

Lemma sim_findArg (path : list string) (pm pm' : gmap (option positive) Arg) : bare <$> pm = bare <$> pm' →
  ∀ (pos pos' : option Arg) (args args' : list Arg) fields ov f f',
  bare <$> pos = bare <$> pos' → bare <$> args = bare <$> args' →
  findArg target h path pos args fields pm ov = Ret f → findArg target h path pos' args' fields pm' ov = Ret f' →
  simFound f f'.
Proof.
  intros Hpm. induction path as [|elem path IH]; intros pos pos' args args' fields ov f f' Hpos Hargs; [done|].
  cbn [findArg]. intros H H'. apply bind_Ret in H as (loc & Hloc & H). apply bind_Ret in H' as (loc' & Hloc' & H').
  pose proof (sim_findField _ _ _ _ _ _ _ _ _ _ Hargs Hloc Hloc') as Hl.
  assert (∀ b b', bare <$> b = bare <$> b' → ∀ f f',
    findFieldStruct target (λ pos args fields ov, findArg target h path pos args fields pm ov) b = Ret f →
    findFieldStruct target (λ pos args fields ov, findArg target h path pos args fields pm' ov) b' = Ret f' → simFound f f') as Hffs.
  { intros b b' Hb g g'. apply sim_findFieldStruct; [|done]. intros ? ? ? ? ? ? ? ? ? ?. by apply IH. }
  destruct loc as [[buf off]|], loc' as [[buf' off']|]; try discriminate.
  - injection Hl as Hl. simpl in Hl. apply bind_Ret in H as (r & Hr & H). apply bind_Ret in H' as (r' & Hr' & H').
    assert (r' = r) as -> by (rewrite <-(bare_ref buf), Hl, bare_ref in Hr; congruence).
    case_decide; [injection H as <-; injection H' as <-; split; [simpl; by rewrite Hl|done]|].
    apply bind_Ret in H as (i & Hi & H). apply bind_Ret in H' as (i' & Hi' & H').
    pose proof (sim_inner _ _ _ _ Hl Hi Hi') as Hii.
    destruct i as [i|], i' as [i'|]; try discriminate; [case_decide; [by eapply (Hffs (Some i) (Some i'))|]|];
      injection H as <-; injection H' as <-; by split.
  - assert (bare <$> pm !! keyOf pos = bare <$> pm' !! keyOf pos') as Hp
      by (rewrite (sim_key _ _ Hpos), <-!lookup_fmap, Hpm; done).
    case_decide.
    { case_decide; [by eapply Hffs|]. injection H as <-. injection H' as <-. by split. }
    apply bind_Ret in H as (i & Hi & H). apply bind_Ret in H' as (i' & Hi' & H').
    assert (bare <$> i = bare <$> i') as Hii.
    { pose proof (bare_findParent (S (size pm)) elem pm (pm !! keyOf pos)) as E.
      rewrite Hp, Hpm, <-(map_size_fmap bare pm), Hpm, map_size_fmap, bare_findParent, Hi' in E.
      rewrite <-(map_size_fmap bare pm'), <-Hpm, map_size_fmap, Hi in E. simpl in E. congruence. }
    destruct i as [i|], i' as [i'|]; try discriminate.
    case_decide; [by eapply (Hffs (Some i) (Some i'))|]. injection H as <-. injection H' as <-. by split.
Qed.

(** Two assignments to the same fields. *)
Definition simVals (s s' : option (gset positive) * gmap positive Z) : Prop :=
  s.1 = s'.1 ∧ dom s.2 = dom s'.2.

Lemma sim_assignArgSize (arg arg' : Arg) (args args' : list Arg) (fields : list Field) (pm pm' : gmap (option positive) Arg)
    (sargs sargs' : list Arg) sfields ov s s' r r' :
  sim arg arg' → bare <$> args = bare <$> args' → bare <$> pm = bare <$> pm' → bare <$> sargs = bare <$> sargs' →
  simVals s s' → assignArgSize target h arg args fields pm sargs sfields ov s = Ret r →
  assignArgSize target h arg' args' fields pm' sargs' sfields ov s' = Ret r' → simVals r r'.
Proof.
  intros Ha Hargs Hpm Hsargs Hs. destruct s as [autos vs], s' as [autos' vs']. destruct Hs as [Hau Hd]. simpl in Hau, Hd. subst autos'.
  unfold assignArgSize. intros H H'. apply bind_Ret in H as (i & Hi & H). apply bind_Ret in H' as (i' & Hi' & H').
  pose proof (sim_inner _ _ _ _ Ha Hi Hi') as Hii.
  destruct i as [i|], i' as [i'|]; try discriminate; [|injection H as <-; injection H' as <-; done].
  injection Hii as Hii. rewrite (sim_type _ _ Hii) in H. apply bind_Ret in H as (t & Ht & H). rewrite Ht in H'. cbn [rbind] in H'.
  rewrite (sim_id _ _ Hii) in H.
  destruct t; try (injection H as <-; injection H' as <-; done).
  destruct (match autos with Some _ => _ | None => _ end); [injection H as <-; injection H' as <-; done|].
  destruct i as [c v| | | | |], i' as [c' v'| | | | |]; try discriminate.
  injection Hii as -> ->. destruct path as [|elem path]; [done|].
  apply bind_Ret in H as (w & Hw & H). apply bind_Ret in H' as (w' & Hw' & H'). injection H as <-. injection H' as <-.
  split; [done|]. simpl.
  assert (∀ bs b pos path args args' fields ov, bare <$> args = bare <$> args' →
    assignSize target h (aid c') bs b pos path args fields pm ov vs = Ret w →
    assignSize target h (aid c') bs b pos path args' fields pm' ov vs' = Ret w' → dom w = dom w') as Has.
  { intros bs b pos path' l l' fs ov' Hl H H'. unfold assignSize in H, H'.
    apply bind_Ret in H as (f & Hf & H). apply bind_Ret in H' as (f' & Hf' & H').
    destruct (sim_findArg _ _ _ Hpm _ _ _ _ _ _ _ _ eq_refl Hl Hf Hf') as [_ Hany]. rewrite <-Hany in H'.
    destruct (isAnyPtr f); [injection H as <-; injection H' as <-; done|].
    apply bind_Ret in H as (z & _ & H). apply bind_Ret in H' as (z' & _ & H'). injection H as <-. injection H' as <-.
    by rewrite !dom_insert_L, Hd. }
  case_decide; (eapply Has; [|exact Hw|exact Hw']; done).
Qed.

Lemma sim_assignSizes (args args' : list Arg) (fields : list Field) (pm pm' : gmap (option positive) Arg)
    (sargs sargs' : list Arg) sfields ov s s' r r' :
  bare <$> args = bare <$> args' → bare <$> pm = bare <$> pm' → bare <$> sargs = bare <$> sargs' →
  simVals s s' → assignSizes target h args fields pm sargs sfields ov s = Ret r →
  assignSizes target h args' fields pm' sargs' sfields ov s' = Ret r' → simVals r r'.
Proof.
  intros Hargs Hpm Hsargs. unfold assignSizes.
  enough (∀ l l' s s' r r', bare <$> l = bare <$> l' → simVals s s' →
    for_list (λ arg s, assignArgSize target h arg args fields pm sargs sfields ov s) l s = Ret r →
    for_list (λ arg s, assignArgSize target h arg args' fields pm' sargs' sfields ov s) l' s' = Ret r' → simVals r r') as H
    by (by apply H).
  clear s s' r r'. induction l as [|a l IH]; intros [|a' l'] s s' r r' Hl Hs; try discriminate; cbn [for_list].
  - by intros [= <-] [= <-].
  - rewrite !fmap_cons in Hl. injection Hl as Ha Hl. intros H H'.
    apply bind_Ret in H as (s1 & H1 & H). apply bind_Ret in H' as (s1' & H1' & H').
    eapply IH; [exact Hl| |exact H|exact H']. eapply (sim_assignArgSize a a'); [exact Ha|exact Hargs|exact Hpm|exact Hsargs|exact Hs|exact H1|exact H1'].
Qed.

Lemma sim_save (a a' : Arg) (pm pm' r r' : gmap (option positive) Arg) :
  sim a a' → bare <$> pm = bare <$> pm' → saveToParentsMap target h a pm = Ret r →
  saveToParentsMap target h a' pm' = Ret r' → bare <$> r = bare <$> r'.
Proof.
  intros Ha Hpm. unfold saveToParentsMap. rewrite (sim_type _ _ Ha). intros H H'.
  apply bind_Ret in H as (t & Ht & H). rewrite Ht in H'. cbn [rbind] in H'.
  assert (∀ (x x' : Arg) (pm pm' r r' : gmap (option positive) Arg), sim x x' → bare <$> pm = bare <$> pm' →
    (let! i := InnerArg target h x in Ret (<[keyOf i := a]> pm)) = Ret r →
    (let! i := InnerArg target h x' in Ret (<[keyOf i := a']> pm')) = Ret r' → bare <$> r = bare <$> r') as Hins.
  { intros x x' q q' w w' Hx Hq Hw Hw'. apply bind_Ret in Hw as (i & Hi & Hw). apply bind_Ret in Hw' as (i' & Hi' & Hw').
    injection Hw as <-. injection Hw' as <-.
    rewrite (sim_key _ _ (sim_inner _ _ _ _ Hx Hi Hi')), !fmap_insert, Ha, Hq. done. }
  assert (∀ (l l' : list Arg) (pm pm' r r' : gmap (option positive) Arg), bare <$> l = bare <$> l' → bare <$> pm = bare <$> pm' →
    for_list (λ field pm, let! i := InnerArg target h field in Ret (<[keyOf i := a]> pm)) l pm = Ret r →
    for_list (λ field pm, let! i := InnerArg target h field in Ret (<[keyOf i := a']> pm)) l' pm' = Ret r' →
    bare <$> r = bare <$> r') as Hloop.
  { induction l as [|x l IH]; intros [|x' l'] q q' w w' Hl Hq; try discriminate; cbn [for_list].
    - by intros [= <-] [= <-].
    - rewrite !fmap_cons in Hl. injection Hl as Hx Hl. intros Hw Hw'.
      apply bind_Ret in Hw as (q1 & Hq1 & Hw). apply bind_Ret in Hw' as (q1' & Hq1' & Hw').
      eapply IH; [exact Hl| |exact Hw|exact Hw']. by eapply Hins. }
  destruct a, a'; try discriminate; destruct t; try discriminate; cbn [rbind] in H, H';
    try (injection H as <-; injection H' as <-; exact Hpm).
  all: try (injection Ha as _ Ha _ _; eapply Hins; [exact Ha|exact Hpm|exact H|exact H']).
  apply bind_Ret in H as (q & Hq & H). apply bind_Ret in H' as (q' & Hq' & H'). injection H as <-. injection H' as <-.
  injection Ha as _ Ha. eapply Hloop; [exact Ha|exact Hpm|exact Hq|exact Hq'].
Qed.

(** Traversals whose callbacks do not look at the context. *)
Section traversal.
Context {S : Type} (R : S → S → Prop) (f f' : Arg → S → res S).
Hypothesis Hf : ∀ a a' s s' r r', sim a a' → R s s' → f a s = Ret r → f' a' s' = Ret r' → R r r'.

Lemma sim_foreach a : ∀ a' ctx ctx' s s' r r', sim a a' → R s s' →
  foreachArgImpl target (λ _, h) (λ a _ s, let! s := f a s in Ret (s, false)) a ctx s = Ret r →
  foreachArgImpl target (λ _, h) (λ a _ s, let! s := f' a s in Ret (s, false)) a' ctx' s' = Ret r' → R r r'.
Proof.
  assert (∀ a a' s s' s1 s1' b b', sim a a' → R s s' → (let! s := f a s in Ret (s, false)) = Ret (s1, b) →
    (let! s := f' a' s' in Ret (s, false)) = Ret (s1', b') → R s1 s1' ∧ b = false ∧ b' = false) as Hone.
  { intros x x' s s' s1 s1' b b' Hx Hs H H'. apply bind_Ret in H as (q & Hq & H). apply bind_Ret in H' as (q' & Hq' & H').
    injection H as <- <-. injection H' as <- <-. split; [by eapply (Hf x x')|done]. }
  induction a as [c v|c ad v p IH|c d sz|c l IH|c o i t IH|i] using arg_ind; intros a' ctx ctx' s s' r r' Ha Hs H H';
    destruct a' as [c1 v1|c1 ad1 v1 p1|c1 d1 sz1|c1 l1|c1 o1 i1 t1|i1]; try discriminate; cbn [foreachArgImpl] in H, H';
    apply bind_Ret in H as ([s1 b] & H1 & H); apply bind_Ret in H' as ([s1' b'] & H1' & H');
    destruct (Hone _ _ _ _ _ _ _ _ Ha Hs H1 H1') as (Hs1 & -> & ->).
  - injection H as <-. by injection H' as <-.
  - injection Ha as -> -> -> Hp. destruct p as [p|], p1 as [p1|]; try discriminate.
    + injection Hp as Hp. by eapply (IH p eq_refl p1).
    + injection H as <-. by injection H' as <-.
  - injection H as <-. by injection H' as <-.
  - injection Ha as -> Hl. destruct (typeAt (aref c1)) as [t| |]; [|done|done]. cbn [rbind] in H, H'.
    apply bind_Ret in H as ([[i2 off2] s2] & H2 & H). apply bind_Ret in H' as ([[i3 off3] s3] & H3 & H').
    injection H as <-. injection H' as <-. clear H1 H1' Hs.
    match type of H2 with for_list ?G _ _ = _ => set (F := G) in H2 end.
    match type of H3 with for_list ?G _ _ = _ => set (F' := G) in H3 end.
    assert (∀ y st w, F y st = Ret w → ∃ cy, foreachArgImpl target (λ _, h)
      (λ a _ s, let! s := f a s in Ret (s, false)) y cy st.2 = Ret w.2) as HF.
    { intros y [[j o] q] w Hw. unfold F in Hw. apply bind_Ret in Hw as (q1 & Hq & Hw).
      apply bind_Ret in Hw as (z & _ & Hw). injection Hw as <-. eauto. }
    assert (∀ y st w, F' y st = Ret w → ∃ cy, foreachArgImpl target (λ _, h)
      (λ a _ s, let! s := f' a s in Ret (s, false)) y cy st.2 = Ret w.2) as HF'.
    { intros y [[j o] q] w Hw. unfold F' in Hw. apply bind_Ret in Hw as (q1 & Hq & Hw).
      apply bind_Ret in Hw as (z & _ & Hw). injection Hw as <-. eauto. }
    clearbody F F'.
    change (R (0, Offset ctx, s1).2 (0, Offset ctx', s1').2) in Hs1.
    change (R (i2, off2, s2).2 (i3, off3, s3).2). revert Hs1 H2 H3.
    generalize (i2, off2, s2) as w, (i3, off3, s3) as w', (0, Offset ctx, s1) as st, (0, Offset ctx', s1') as st'.
    revert l1 Hl. induction l as [|x l IHl]; intros [|x1 l1] Hl w w' st st' Hs; try discriminate; cbn [for_list].
    + by intros [= <-] [= <-].
    + rewrite !fmap_cons in Hl. injection Hl as Hx Hl. intros H2 H3.
      apply bind_Ret in H2 as (u & H2 & H4). apply bind_Ret in H3 as (u' & H3 & H5).
      eapply IHl; [|exact Hl| |exact H4|exact H5]; [intros y Hy; apply IH; by apply list_elem_of_further|].
      apply HF in H2 as [cy H2]. apply HF' in H3 as [cy' H3].
      by eapply (IH x (list_elem_of_here _ _) x1).
  - injection Ha as -> Ho -> ->. by eapply (IH o1).
  - injection H as <-. by injection H' as <-.
Qed.

Lemma sim_foreachAll args : ∀ args' s s' r r', bare <$> args = bare <$> args' → R s s' →
  for_list (λ arg s, ForeachSubArg target (λ _, h) (λ a _ s, let! s := f a s in Ret (s, false)) arg s) args s = Ret r →
  for_list (λ arg s, ForeachSubArg target (λ _, h) (λ a _ s, let! s := f' a s in Ret (s, false)) arg s) args' s' = Ret r' →
  R r r'.
Proof.
  induction args as [|a args IH]; intros [|a' args'] s s' r r' Hl Hs; try discriminate; cbn [for_list].
  - by intros [= <-] [= <-].
  - rewrite !fmap_cons in Hl. injection Hl as Ha Hl. intros H H'.
    apply bind_Ret in H as (s1 & H1 & H). apply bind_Ret in H' as (s1' & H1' & H').
    eapply IH; [exact Hl| |exact H|exact H']. by eapply (sim_foreach a a').
Qed.
End traversal.

Lemma sim_assignSizesArg (pm pm' : gmap (option positive) Arg) (args args' : list Arg) fields (a a' : Arg) s s' r r' :
  bare <$> pm = bare <$> pm' → bare <$> args = bare <$> args' → sim a a' → simVals s s' →
  assignSizesArg target h pm args fields a s = Ret r → assignSizesArg target h pm' args' fields a' s' = Ret r' → simVals r r'.
Proof.
  intros Hpm Hargs Ha Hs. unfold assignSizesArg. rewrite (sim_type _ _ Ha). intros H H'.
  apply bind_Ret in H as (t & Ht & H). rewrite Ht in H'. cbn [rbind] in H'.
  destruct a, a'; try discriminate; destruct t; try discriminate; cbn [rbind] in H, H';
    try (injection H as <-; injection H' as <-; exact Hs).
  all: try (injection Ha as _ Ha _ _; eapply (sim_assignArgSize _ _ [] []); [exact Ha|done|exact Hpm|exact Hargs|exact Hs|exact H|exact H']).
  apply bind_Ret in H as (q & Hq & H). apply bind_Ret in H' as (q' & Hq' & H'). injection H as <-. injection H' as <-.
  injection Ha as _ Ha. eapply sim_assignSizes; [exact Ha|exact Hpm|exact Hargs|exact Hs|exact Hq|exact Hq'].
Qed.

(** Calls that only differ in their data get the same length fields assigned. *)
Lemma sizes_dom c c' vs vs' :
  Meta c = Meta c' → bare <$> Args c = bare <$> Args c' →
  assignSizesCall target h c = Ret vs → assignSizesCall target h c' = Ret vs' → dom vs = dom vs'.
Proof.
  intros Hm Hargs. unfold assignSizesCall, assignSizesArray. rewrite <-Hm. intros H H'.
  apply bind_Ret in H as ([au w] & H & Hw). apply bind_Ret in H' as ([au' w'] & H' & Hw').
  injection Hw as <-. injection Hw' as <-.
  apply bind_Ret in H as (pm & Hp & H). apply bind_Ret in H' as (pm' & Hp' & H').
  assert (bare <$> pm = bare <$> pm') as Hpm.
  { eapply (sim_foreachAll (λ pm pm', bare <$> pm = bare <$> pm')); [|exact Hargs| |exact Hp|exact Hp']; [|done].
    intros a a' s s' r r' Ha Hs. by apply sim_save. }
  apply bind_Ret in H as (s1 & Hs1 & H). apply bind_Ret in H' as (s1' & Hs1' & H').
  enough (simVals (au, w) (au', w')) as [_ Hd] by exact Hd.
  eapply (sim_foreachAll simVals); [|exact Hargs| |exact H|exact H'].
  - intros a a' s s' r r' Ha Hs. by apply sim_assignSizesArg.
  - eapply sim_assignSizes; [exact Hargs|exact Hpm|exact Hargs| |exact Hs1|exact Hs1']. done.
Qed.

(** ** Assigning sizes over and over *)

Lemma setVals_twice (vs vs1 : gmap positive Z) a : dom vs1 ⊆ dom vs → setVals vs (setVals vs1 a) = setVals vs a.
Proof.
  intros Hd. induction a as [c v|c ad v r IH|c d s|c l IH|c o i t IH|i] using arg_ind; cbn [setVals]; try done.
  - f_equal. destruct (vs !! aid c) as [z|] eqn:E; [done|]. simpl.
    assert (vs1 !! aid c = None) as ->; [|done]. apply not_elem_of_dom. intros Hin. apply not_elem_of_dom in E. by apply E, Hd.
  - destruct r as [p|]; [|done]. by rewrite IH.
  - f_equal. rewrite <-list_fmap_compose. apply list_fmap_ext. intros k x Hx. apply IH. by eapply list_elem_of_lookup_2.
  - by rewrite IH.
Qed.

(** A call whose sizes are right: assigning them changes nothing. *)
Definition sizesRight (c : Call) : Prop :=
  ∃ vs, assignSizesCall target h c = Ret vs ∧ setVals vs <$> Args c = Args c.

Lemma withSizes_right c vs : assignSizesCall target h c = Ret vs → sizesRight (withSizes vs c).
Proof.
  intros Hv. exists vs. split; [unfold withSizes, assignSizesCall in *; cbn [Args Meta]; by rewrite sv_assignSizesArray|].
  unfold withSizes. cbn [Args]. rewrite <-list_fmap_compose. apply list_fmap_ext. intros k x _. by apply setVals_twice.
Qed.

(** Assigning sizes while the data is another one does no harm: once the data is back and the
    sizes were assigned again, the call is as before. *)
Lemma sizes_restored c c1 vs1 vs2 :
  sizesRight c → Meta c1 = Meta c → bare <$> Args c1 = bare <$> Args c →
  assignSizesCall target h c1 = Ret vs1 → assignSizesCall target h (withSizes vs1 c) = Ret vs2 →
  setVals vs2 <$> (setVals vs1 <$> Args c) = Args c.
Proof.
  intros (vs & Hv & Hfix) Hm Hb Hv1 Hv2.
  assert (vs2 = vs) as ->.
  { unfold withSizes, assignSizesCall in *. cbn [Args Meta] in Hv2. rewrite sv_assignSizesArray in Hv2. congruence. }
  pose proof (sizes_dom c1 c vs1 vs Hm Hb Hv1 Hv) as Hd.
  rewrite <-Hfix at 2. rewrite <-list_fmap_compose. apply list_fmap_ext. intros k x _. apply setVals_twice. by rewrite Hd.
Qed.

End target.

End SizeDom.
