(* ===== verification/Expr.v ===== *)
(** * Expr: conditional fields (prog/expr.go)

    The options of a conditional union carry expressions over the integer fields around
    it.  An option that is selected although its condition does not hold makes the union
    stale. *)

From S2P Require Import Prelude Types Prog ExampleTarget Size.
Import Types Prog Size.

Module Expr.

(** What an [ArgFinder] returns: an argument, [nil], or [SquashedArgFound]. *)
Inductive found := Found (arg : Arg) | NotFound | SquashedArgFound.

Section target.
Context (target : Target) (h : heap).

(** [Value.Evaluate] and [BinaryExpression.Evaluate]; [None] when a value is squashed. *)
Definition evalValue (finder : list string → res found) (v : Z) (path : list string) : res (option Z) :=
  if decide (path = []) then Ret (Some v)
  else
    let! f := finder path in
    match f with
    | SquashedArgFound => Ret None
    | NotFound => Panic "no argument was found"
    | Found (ConstArg _ val) => Ret (Some val)
    | Found _ => Panic "value expressions must only rely on int fields"
    end.

Definition evalOp (op : BinaryOperator) (left right : Z) : Z :=
  match op with
  | OperatorCompareEq => if decide (left = right) then 1 else 0
  | OperatorCompareNeq => if decide (left ≠ right) then 1 else 0
  | OperatorBinaryAnd => Z.land left right
  end.

Fixpoint Evaluate (finder : list string → res found) (e : Expression) : res (option Z) :=
  match e with
  | Value v path => evalValue finder v path
  | BinaryExpression op l r =>
    let! vl := Evaluate finder l in
    match vl with
    | None => Ret None
    | Some x =>
      let! vr := Evaluate finder r in
      match vr with
      | None => Ret None
      | Some y => Ret (Some (evalOp op x y))
      end
    end
  end.

Definition callParentsMap (c : Call) : res (gmap (option positive) Arg) :=
  ForeachArg target (λ _, h) (λ a _ pm, let! pm := saveToParentsMap target h a pm in Ret (pm, false)) c ∅.

(** The finder of a union, given by its option. *)
Definition argFinder (parentsMap : gmap (option positive) Arg) (option : Arg) (path : list string) : res found :=
  let! f := findArg target h path (Some option) [] [] parentsMap 0 in
  if isAnyPtr f then Ret SquashedArgFound
  else Ret (match farg f with Some a => Found a | None => NotFound end).

(** [checkUnionArg]: whether the condition holds and whether it could be calculated. *)
Definition checkUnionArg (idx : Z) (fields : list Field) (finder : list string → res found) :
    res (bool * bool) :=
  let! field := index fields idx in
  match Condition field with
  | None => Ret (true, true)
  | Some cond =>
    let! v := Evaluate finder cond in
    match v with
    | None => Ret (true, false)
    | Some v => Ret (bool_decide (v ≠ 0), true)
    end
  end.

Definition matchingUnionArgs (fields : list Field) (finder : list string → res found) : res (list Z) :=
  for_list (λ i l,
    let! '(ok, _) := checkUnionArg i fields finder in Ret (if (ok : bool) then l ++ [i] else l))
    (seqZ 0 (Z.of_nat (length fields))) [].

Definition isAnyPtrRef (r : Ref) : res bool :=
  let! t := typeAt (typeRefs target) r in
  Ret (match t with PtrType _ elem _ => bool_decide (elem = anyArray target) | _ => false end).

(** A stale union with the options it could have. *)
Record stale := MkStale { staleArg : Arg; staleIndex : Z; staleTransient : bool; okIndices : list Z }.

(** The callback of [forEachStaleUnion] up to the call of [cb]. *)
Definition staleUnion (parentsMap : gmap (option positive) Arg) (arg : Arg) : res (option stale) :=
  match arg with
  | UnionArg c opt idx transient =>
    let! t := typeAt (typeRefs target) (aref c) in
    match t with
    | UnionType _ fields =>
      let! conditional := isConditional fields in
      if negb conditional then Ret None
      else
        let finder := argFinder parentsMap opt in
        let! '(ok, calculated) := checkUnionArg idx fields finder in
        if negb calculated then Ret None
        else if negb transient && ok then Ret None
        else
          let! matching := matchingUnionArgs fields finder in
          if decide (matching = []) then Panic "no matching union fields"
          else Ret (Some (MkStale arg idx transient matching))
    | _ => Ret None
    end
  | _ => Ret None
  end.

Definition forEachStaleUnion {S} (c : Call) (cb : stale → S → res S) (s : S) : res S :=
  let! parentsMap := callParentsMap c in
  ForeachArg target (λ _, h) (λ arg _ s,
    let! r := argRef h arg in
    let! any := isAnyPtrRef r in
    if (any : bool) then Ret (s, true)
    else
      let! st := staleUnion parentsMap arg in
      match st with
      | None => Ret (s, false)
      | Some st => let! s := cb st s in Ret (s, false)
      end) c s.

(** [Call.checkConditions]: the violation reported last. *)
Definition checkConditions (ignoreTransient : bool) (c : Call) : res (option stale) :=
  forEachStaleUnion c (λ st ret,
    if ignoreTransient && staleTransient st then Ret ret else Ret (Some st)) None.

(** [Prog.checkConditions]: the first call with a violation. *)
Fixpoint checkConditionsProg (calls : list Call) : res (option stale) :=
  match calls with
  | [] => Ret None
  | c :: calls =>
    let! err := checkConditions false c in
    match err with Some st => Ret (Some st) | None => checkConditionsProg calls end
  end.

End target.
End Expr.
