(* ===== verification/Validation.v ===== *)
(** * Validation: the consistency check of programs (prog/validation.go)

    A check either succeeds with an updated context or reports an error: the code's
    [error] results are the left injections.  Visited arguments are known by their
    identities, types by their index in the type table. *)

From S2P Require Import Prelude Types Prog ExampleTarget ProgEdit Clone Size Expr.
Import Types Prog ProgEdit Clone Expr.

Module Validation.

(** ** [filepath.Clean] on Unix and [escapingFilename] (prog/rand.go) *)

Definition slash : Z := 47.
Definition dot : Z := 46.

(** The elements of a path between its slashes. *)
Fixpoint splitPath (path : list Z) : list (list Z) :=
  match path with
  | [] => [[]]
  | b :: path =>
    if decide (b = slash) then [] :: splitPath path
    else match splitPath path with
         | [] => [[b]]
         | e :: es => (b :: e) :: es
         end
  end.

(** One element: empty ones and "." are dropped, ".." removes the element before it.  The
    elements kept so far are [out], the last one first. *)
Definition cleanStep (rooted : bool) (out : list (list Z)) (e : list Z) : list (list Z) :=
  if decide (e = [] ∨ e = [dot]) then out
  else if decide (e = [dot; dot]) then
    match out with
    | x :: rest => if decide (x = [dot; dot]) then e :: out else rest
    | [] => if rooted then [] else [e]
    end
  else e :: out.

Fixpoint joinPath (l : list (list Z)) : list Z :=
  match l with
  | [] => []
  | [e] => e
  | e :: l => e ++ slash :: joinPath l
  end.

Definition isRooted (path : list Z) : bool := bool_decide (head path = Some slash).

Definition Clean (path : list Z) : list Z :=
  let rooted := isRooted path in
  let body := joinPath (reverse (foldl (cleanStep rooted) [] (splitPath path))) in
  if rooted then slash :: body else if decide (body = []) then [dot] else body.

Definition escapingFilename (file : list Z) : bool :=
  let file := Clean file in
  match file with
  | b0 :: rest =>
    bool_decide (b0 = slash) ||
    match rest with b1 :: _ => bool_decide (b0 = dot) && bool_decide (b1 = dot) | [] => false end
  | [] => false
  end.

(** Following a relative path one element at a time: the depth below the directory it
    starts from, [None] once it leaves that directory. *)
Definition walkStep (depth : option nat) (e : list Z) : option nat :=
  n ← depth;
  if decide (e = [] ∨ e = [dot]) then Some n
  else if decide (e = [dot; dot]) then match n with O => None | S n => Some n end
  else Some (S n).
Definition walk (path : list Z) : option nat := foldl walkStep (Some 0%nat) (splitPath path).

Lemma walk_None es : foldl walkStep None es = None.
Proof. by induction es. Qed.

(** A leading ".." is never removed. *)
Lemma clean_bottom es : ∀ out,
  last out = Some [dot; dot] → last (foldl (cleanStep false) out es) = Some [dot; dot].
Proof.
  induction es as [|e es IH]; intros out Hl; [done|]. simpl. apply IH. unfold cleanStep.
  case_decide; [done|]. case_decide as He.
  - destruct out as [|x out]; [done|]. case_decide as Hx; [by rewrite last_cons, Hl|].
    destruct out; [simpl in Hl; congruence|done].
  - by rewrite last_cons, Hl.
Qed.

Lemma clean_walk es : ∀ out,
  Forall (λ e, e ≠ [dot; dot]) out → foldl walkStep (Some (length out)) es = None →
  last (foldl (cleanStep false) out es) = Some [dot; dot].
Proof.
  induction es as [|e es IH]; intros out Hout Hw; [done|]. simpl in *. unfold cleanStep.
  destruct (decide (e = [] ∨ e = [dot])) as [He|He]; [by apply IH|].
  destruct (decide (e = [dot; dot])) as [->|Hd].
  - destruct out as [|x out]; [by apply clean_bottom|]. apply Forall_cons in Hout as [Hx Hout].
    rewrite decide_False by done. by apply IH.
  - apply IH; [by constructor|done].
Qed.

Lemma not_escaping file : escapingFilename file = false → isRooted file = false ∧ is_Some (walk file).
Proof.
  unfold escapingFilename, Clean. destruct (isRooted file) eqn:Er; [done|]. intros He. split; [done|].
  destruct (walk file) as [n|] eqn:Ew; [eauto|]. exfalso. unfold walk in Ew.
  apply (clean_walk _ []) in Ew; [|constructor]. set (out := foldl _ _ _) in *.
  rewrite <-head_reverse in Ew. destruct (reverse out) as [|e l]; [done|]. injection Ew as ->.
  by destruct l.
Qed.

(** ** The context *)

Record validCtx := MkValid { vArgs : gset positive; vUses : gmap positive positive }.

Notation check := (res (string + validCtx)) (only parsing).
Definition ok (ctx : validCtx) : check := Ret (inr ctx).
Definition fail (why : string) : check := Ret (inl why).

(** [if err := ...; err != nil { return err }] *)
Definition andThen (m : check) (k : validCtx → check) : check :=
  let! r := m in match r with inl e => Ret (inl e) | inr ctx => k ctx end.
Notation "'let?' x := m 'in' k" := (andThen m (λ x, k))
  (at level 200, x binder, m at level 100, k at level 200, right associativity).

(** [for _, x := range l { if err := f(x); err != nil { return err } }] *)
Fixpoint checkAll {A} (f : A → validCtx → check) (l : list A) (ctx : validCtx) : check :=
  match l with
  | [] => ok ctx
  | x :: l => let? ctx := f x ctx in checkAll f l ctx
  end.

(** The loop over the fields of a struct. *)
Definition checkFields (f : Arg → Field → validCtx → check) :
    list Arg → list Field → validCtx → check :=
  fix go l fs ctx :=
    match l, fs with
    | a :: l, fld :: fs => let? ctx := f a fld ctx in go l fs ctx
    | _, _ => ok ctx
    end.

Section target.
Context (target : Target) (h : heap).

Notation typeAt := (typeAt (typeRefs target)).

Definition validateConst (c : ArgCommon) (val : Z) (ctx : validCtx) : check :=
  let arg := ConstArg c val in
  let! t := typeAt (aref c) in
  let! ok1 :=
    match t with
    | IntType _ _ _ _ _ =>
      if decide (adir c = DirOut) then
        let! d := isDefault target h arg in
        Ret (if (d : bool) then None else Some "out int arg has bad const value")
      else Ret None
    | ProcType _ _ perProc =>
      if decide (perProc ≤ val) then
        let! d := isDefault target h arg in
        Ret (if (d : bool) then None else Some "per proc arg has bad value")
      else Ret None
    | CsumType _ _ _ _ => Ret (if decide (val ≠ 0) then Some "csum arg has nonzero value" else None)
    | ConstType _ _ _ | FlagsType _ _ _ | LenType _ _ _ _ => Ret None
    | _ => Ret (Some "const arg has bad type")
    end in
  match ok1 with
  | Some e => fail e
  | None =>
    match t with
    | LenType _ _ _ _ => ok ctx
    | _ =>
      if decide (adir c = DirOut) then
        let! d := isDefault target h arg in
        if (d : bool) then ok ctx else fail "output arg has non default value"
      else ok ctx
    end
  end.

(** The loop over the uses of a result. *)
Definition validateUse (i u : positive) (ctx : validCtx) : check :=
  let! uo := deref h u in
  if decide (rRes uo ≠ Some i) then fail "result arg has broken uses link"
  else ok (MkValid (vArgs ctx) (<[u := i]> (vUses ctx))).

Definition validateResult (i : positive) (ctx : validCtx) : check :=
  let! o := deref h i in
  let! t := typeAt (rRef o) in
  match t with
  | ResourceType _ _ desc =>
    let? ctx := checkAll (validateUse i) (rangeUses (uses o)) ctx in
    let! badOut :=
      if decide (rDir o = DirOut ∧ rVal o ≠ 0) then
        let! d := Default desc in Ret (bool_decide (rVal o ≠ d))
      else Ret false in
    if (badOut : bool) then fail "out resource arg has bad const value"
    else
      let! badRes :=
        match rRes o with
        | None => Ret None
        | Some r =>
          if decide (r ∉ vArgs ctx) then Ret (Some "result arg references out-of-tree result")
          else
            let! ro := deref h r in
            Ret (if decide (i ∉ uses ro) then Some "result arg has broken link" else None)
        end in
      match badRes with
      | Some e => fail e
      | None =>
        if decide (rDir o = DirIn ∧ uses o ≠ ∅) then fail "result arg is DirIn, but is used"
        else if decide (uses o ≠ ∅) then
          let! sz := Prog.Size target h (ResultArg i) in
          if decide (8 < sz) then fail "result arg is bigger than int64" else ok ctx
        else ok ctx
      end
  | _ => fail "result arg has bad type"
  end.

Definition validateData (c : ArgCommon) (data : list Z) (size : Z) (ctx : validCtx) : check :=
  let! t := typeAt (aref c) in
  match t with
  | BufferType tc desc =>
    if decide (adir c = DirOut ∧ data ≠ []) then fail "output arg has data"
    else
      let! sz := Prog.Size target h (DataArg c data size) in
      let! wrong := if Varlen t then Ret false else let! want := Types.Size t in Ret (bool_decide (want ≠ sz)) in
      if (wrong : bool) then fail "data arg has wrong size"
      else
        match bufKind desc with
        | BufferString =>
          if decide (TypeSize tc ≠ 0 ∧ sz ≠ TypeSize tc) then fail "string arg has wrong size" else ok ctx
        | BufferFilename => if escapingFilename data then fail "escaping filename" else ok ctx
        | _ => ok ctx
        end
  | _ => fail "data arg has bad type"
  end.

(** The address of a pointer; [pointee] is the argument it points to. *)
Definition validateAddr (addr vmaSize : Z) (pointee : option Arg) (ctx : validCtx) : check :=
  if isSpecial addr vmaSize pointee then
    if decide (Z.of_nat (length (SpecialPointers target)) ≤ 0 -! addr) then fail "special ptr arg has bad value"
    else ok ctx
  else
    let maxMem := NumPages target *! PageSize target in
    let! size :=
      match pointee with
      | Some p => if decide (vmaSize = 0) then Prog.Size target h p else Ret vmaSize
      | None => Ret vmaSize
      end in
    if decide (maxMem ≤ addr ∨ maxMem < addr +! size) then fail "ptr has bad address" else ok ctx.

Definition isPtrType (t : Typ) : bool := match t with PtrType _ _ _ => true | _ => false end.

(** The part of [validateArg] before [arg.validate]; the result is the direction handed
    down, or an error. *)
Definition validateHead (arg : Arg) (typ : Ref) (dir : Dir) (ctx : validCtx) : res (string + Dir) :=
  if decide (argIdOf arg ∈ vArgs ctx) then Ret (inl "arg is referenced several times in the tree")
  else
    let! r := argRef h arg in
    if match typeRefs target !! r with Some None => true | _ => false end then Ret (inl "no arg type")
    else
      let! t := typeAt typ in
      let dir := if isPtrType t then DirIn else dir in
      let! ad := argDir h arg in
      if decide (ad ≠ dir ∧ dir ≠ DirInOut) then Ret (inl "arg has wrong dir")
      else
        let! any := isAnyPtrRef target r in
        if negb any && bool_decide (r ≠ typ) then Ret (inl "bad arg type") else Ret (inr dir).

(** [validateArg] and the [validate] methods of the arguments. *)
Fixpoint validateArg (arg : Arg) (typ : Ref) (dir : Dir) (ctx : validCtx) : check :=
  let! head := validateHead arg typ dir ctx in
  match head with
  | inl e => fail e
  | inr dir =>
    let ctx := MkValid ({[argIdOf arg]} ∪ vArgs ctx) (vUses ctx) in
    match arg with
    | ConstArg c val => validateConst c val ctx
    | ResultArg i => validateResult i ctx
    | DataArg c data size => validateData c data size ctx
    | GroupArg c inner =>
      let! t := typeAt (aref c) in
      match t with
      | StructType _ fields _ _ =>
        if decide (length inner ≠ length fields) then fail "struct arg has wrong number of fields"
        else
          checkFields (λ a f ctx, validateArg a (fieldType f) (fieldDir f dir) ctx) inner fields ctx
      | ArrayType _ elem kind rangeBegin rangeEnd =>
        if decide (kind = ArrayRangeLen ∧ rangeBegin = rangeEnd ∧ Z.of_nat (length inner) ≠ rangeBegin) then
          fail "array has wrong number of elements"
        else checkAll (λ a ctx, validateArg a elem dir ctx) inner ctx
      | _ => fail "group arg has bad type"
      end
    | UnionArg c opt idx _ =>
      let! t := typeAt (aref c) in
      match t with
      | UnionType _ fields =>
        if decide (0 ≤ idx < Z.of_nat (length fields)) then
          let! f := index fields idx in validateArg opt (fieldType f) (fieldDir f dir) ctx
        else fail "union arg has bad index"
      | _ => fail "union arg has bad type"
      end
    | PointerArg c addr vmaSize pointee =>
      let! t := typeAt (aref c) in
      let? ctx :=
        match t with
        | VmaType _ _ _ => match pointee with Some _ => fail "vma arg has data" | None => ok ctx end
        | PtrType _ elem elemDir =>
          let? ctx := match pointee with Some p => validateArg p elem elemDir ctx | None => ok ctx end in
          if decide (vmaSize ≠ 0) then fail "pointer arg has nonzero size"
          else if decide (adir c = DirOut) then fail "pointer arg has output direction"
          else ok ctx
        | _ => fail "ptr arg has bad type"
        end in
      validateAddr addr vmaSize pointee ctx
    end
  end.

Definition validateRet (c : Call) (ctx : validCtx) : check :=
  match sysRet (Meta c), Ret_ c with
  | None, None => ok ctx
  | None, Some _ => fail "return value without type"
  | Some _, None => fail "return value is absent"
  | Some typ, Some i =>
    let! o := deref h i in
    if decide (rRes o ≠ None ∨ rVal o ≠ 0 ∨ OpDiv o ≠ 0 ∨ OpAdd o ≠ 0) then fail "return value is not empty"
    else validateArg (ResultArg i) typ DirOut ctx
  end.

Definition validateCall (ignoreTransient : bool) (c : Call) (ctx : validCtx) : check :=
  if Disabled (Attrs (Meta c)) then fail "use of a disabled call"
  else if decide (0 < Rerun (Props c) ∧ 0 < FailNth (Props c)) then fail "rerun > 0 && fail_nth > 0"
  else if decide (length (Args c) ≠ length (sysArgs (Meta c))) then fail "wrong number of arguments"
  else
    let? ctx := checkAll (λ af ctx, validateArg af.1 (fieldType af.2) DirIn ctx)
                  (zip (Args c) (sysArgs (Meta c))) ctx in
    let! bad := checkConditions target h ignoreTransient c in
    match bad with
    | Some _ => fail "conditional fields rules violation"
    | None => validateRet c ctx
    end.

Definition validateWithOpts (ignoreTransient : bool) (calls : list Call) : res (option string) :=
  let! r := checkAll (validateCall ignoreTransient) calls (MkValid ∅ ∅) in
  match r with
  | inl e => Ret (Some e)
  | inr ctx =>
    Ret (if decide (Forall (λ u, u ∈ vArgs ctx) (map_to_list (vUses ctx)).*1) then None
         else Some "use referes to an out-of-tree arg")
  end.

Definition validate (calls : list Call) : res (option string) := validateWithOpts false calls.

(** ** Successful checks *)

Lemma andThen_ok (m : check) k ctx :
  andThen m k = Ret (inr ctx) ↔ ∃ ctx1, m = Ret (inr ctx1) ∧ k ctx1 = Ret (inr ctx).
Proof.
  unfold andThen. rewrite bind_Ret. split.
  - intros ([e|c1] & -> & Hk); [done|]. eauto.
  - intros (c1 & -> & Hk). eauto.
Qed.

Ltac checked :=
  repeat match goal with
    | Hc : andThen _ _ = Ret (inr _) |- _ =>
      let c := fresh "ctx" in let E := fresh "Hok" in apply andThen_ok in Hc as (c & E & Hc)
    | Hc : rbind _ _ = Ret (inr _) |- _ =>
      let x := fresh "x" in let E := fresh "E" in
      apply bind_Ret in Hc as (x & E & Hc); cbn beta iota in Hc
    | Hc : fail _ = Ret (inr _) |- _ => discriminate Hc
    | Hc : ok _ = Ret (inr _) |- _ => injection Hc as Hc
    | Hc : (if decide ?P then _ else _) = Ret (inr _) |- _ => destruct (decide P)
    | Hc : (if ?b then _ else _) = Ret (inr _) |- _ => destruct b eqn:?
    | Hc : match ?x with _ => _ end = Ret (inr _) |- _ => destruct x eqn:?
    end.

Lemma validateConst_ctx c v ctx ctx' : validateConst c v ctx = Ret (inr ctx') → ctx' = ctx.
Proof. unfold validateConst. intros Hc. checked; by subst. Qed.

Lemma validateData_ctx c d sz ctx ctx' : validateData c d sz ctx = Ret (inr ctx') → ctx' = ctx.
Proof. unfold validateData. intros Hc. checked; by subst. Qed.

Lemma validateAddr_ctx ad v p ctx ctx' : validateAddr ad v p ctx = Ret (inr ctx') → ctx' = ctx.
Proof. unfold validateAddr. intros Hc. checked; by subst. Qed.

Lemma validateHead_fresh arg typ dir ctx dir' :
  validateHead arg typ dir ctx = Ret (inr dir') → argIdOf arg ∉ vArgs ctx.
Proof. unfold validateHead. case_decide; [done|]. done. Qed.

(** ** The links of a validated program *)

(** What was checked of the result [i], visited after the arguments [pre]. *)
Record resultOk (pre : list positive) (i : positive) (ctx : validCtx) : Prop := {
  ro_used : ∀ o u, h !! i = Some o → u ∈ uses o →
    is_Some (vUses ctx !! u) ∧ ∃ uo, h !! u = Some uo ∧ rRes uo = Some i;
  ro_res : ∀ o r, h !! i = Some o → rRes o = Some r →
    (r ∈ pre ∨ r = i) ∧ ∃ ro, h !! r = Some ro ∧ i ∈ uses ro;
  ro_alloc : is_Some (h !! i)
}.

(** The state of a check that has visited the arguments [done]. *)
Record vinv (done : list Arg) (ctx : validCtx) : Prop := {
  vi_args : vArgs ctx = list_to_set (argIdOf <$> done);
  vi_nodup : NoDup (argIdOf <$> done);
  vi_results : ∀ pre i post, done = pre ++ ResultArg i :: post → resultOk (argIdOf <$> pre) i ctx
}.

Definition extends (l : list Arg) (ctx ctx' : validCtx) : Prop :=
  ∀ done, vinv done ctx → vinv (done ++ l) ctx'.

Lemma extends_trans l1 l2 c1 c2 c3 : extends l1 c1 c2 → extends l2 c2 c3 → extends (l1 ++ l2) c1 c3.
Proof. intros H1 H2 done Hd. rewrite app_assoc. auto. Qed.

Lemma extends_nil ctx : extends [] ctx ctx.
Proof. intros done. by rewrite app_nil_r. Qed.

Lemma checkAll_extends {A} (f : A → validCtx → check) (ns : A → list Arg) l : ∀ ctx ctx',
  (∀ x c c', x ∈ l → f x c = Ret (inr c') → extends (ns x) c c') →
  checkAll f l ctx = Ret (inr ctx') → extends (concat (ns <$> l)) ctx ctx'.
Proof.
  induction l as [|x l IH]; intros ctx ctx' Hf Hc; simpl in Hc; checked.
  { subst. apply extends_nil. }
  rewrite fmap_cons. simpl. eapply extends_trans; [by eapply Hf; [apply list_elem_of_here|]|].
  eapply IH; [|done]. intros y c c' Hy. apply Hf. by apply list_elem_of_further.
Qed.

Definition push (arg : Arg) (ctx : validCtx) : validCtx := MkValid ({[argIdOf arg]} ∪ vArgs ctx) (vUses ctx).

Lemma resultOk_mono pre i ctx ctx' :
  (∀ u, is_Some (vUses ctx !! u) → is_Some (vUses ctx' !! u)) → resultOk pre i ctx → resultOk pre i ctx'.
Proof. intros Hu [H1 H2 H3]. split; [|done..]. intros o u Ho Hi. destruct (H1 o u Ho Hi). auto. Qed.

(** Visiting one more argument, whose own check may add uses. *)
Lemma vinv_push done arg ctx ctx' :
  argIdOf arg ∉ vArgs ctx → vArgs ctx' = {[argIdOf arg]} ∪ vArgs ctx →
  (∀ u, is_Some (vUses ctx !! u) → is_Some (vUses ctx' !! u)) →
  (∀ i, arg = ResultArg i → resultOk (argIdOf <$> done) i ctx') →
  vinv done ctx → vinv (done ++ [arg]) ctx'.
Proof.
  intros Hni Ha Hu Hr [Hargs Hnd Hres]. split.
  - rewrite Ha, Hargs, fmap_app, list_to_set_app_L. simpl. set_solver.
  - rewrite fmap_app. apply NoDup_app. split; [done|]. split; [|apply NoDup_singleton].
    intros x Hx Hs. apply list_elem_of_singleton in Hs as ->. rewrite Hargs in Hni. set_solver.
  - intros pre i post Heq. destruct post as [|y post _] using rev_ind.
    + apply app_inj_tail in Heq as [<- ->]. by apply Hr.
    + rewrite app_comm_cons, app_assoc in Heq. apply app_inj_tail in Heq as [-> _].
      eapply resultOk_mono; [done|]. by eapply Hres.
Qed.

Lemma extends_push arg ctx :
  argIdOf arg ∉ vArgs ctx → (∀ i, arg ≠ ResultArg i) → extends [arg] ctx (push arg ctx).
Proof. intros Hn Hr done. apply vinv_push; try done. intros i ->. by destruct (Hr i). Qed.

Lemma validateUses_spec i l : ∀ ctx ctx',
  checkAll (validateUse i) l ctx = Ret (inr ctx') →
  vArgs ctx' = vArgs ctx ∧ (∀ u, is_Some (vUses ctx !! u) → is_Some (vUses ctx' !! u)) ∧
  ∀ u, u ∈ l → is_Some (vUses ctx' !! u) ∧ ∃ uo, h !! u = Some uo ∧ rRes uo = Some i.
Proof.
  induction l as [|u l IH]; intros ctx ctx' Hc; simpl in Hc; checked.
  { subst. split_and!; [done|done|]. intros u Hu. by apply elem_of_nil in Hu. }
  unfold validateUse in Hok. checked. subst. unfold deref in E. destruct (h !! u) as [uo|] eqn:Hu; [|done].
  injection E as ->. destruct (IH _ _ Hc) as (Ha & Hm & Hl). simpl in *.
  assert (∀ u', is_Some (vUses ctx !! u') → is_Some (vUses ctx' !! u')) as Hmono.
  { intros u' Hu'. apply Hm. destruct (decide (u = u')) as [->|]; [rewrite lookup_insert_eq; eauto|].
    by rewrite lookup_insert_ne. }
  split_and!; [done|done|]. intros u' [->|Hu']%elem_of_cons; [|by apply Hl].
  split; [apply Hm; rewrite lookup_insert_eq; eauto|]. exists x. split; [done|]. by apply dec_stable.
Qed.

Lemma validateResult_spec i ctx ctx' pre :
  validateResult i (push (ResultArg i) ctx) = Ret (inr ctx') → vArgs ctx = list_to_set pre →
  vArgs ctx' = {[i]} ∪ vArgs ctx ∧ (∀ u, is_Some (vUses ctx !! u) → is_Some (vUses ctx' !! u)) ∧
  resultOk pre i ctx'.
Proof.
  intros Hc Hpre. unfold validateResult in Hc. apply bind_Ret in Hc as (o & Ho & Hc).
  unfold deref in Ho. destruct (h !! i) as [o'|] eqn:Hi; [|done]. injection Ho as ->.
  apply bind_Ret in Hc as (t & _ & Hc). destruct t; try discriminate.
  apply andThen_ok in Hc as (ctx1 & Hu & Hc). apply validateUses_spec in Hu as (Ha & Hm & Hul).
  apply bind_Ret in Hc as (bo & _ & Hc). destruct bo; [done|].
  apply bind_Ret in Hc as (br & Hbr & Hc). destruct br; [done|].
  assert (ctx' = ctx1) as -> by (checked; by subst).
  simpl in *. split_and!; [done|done|]. split; [| |by rewrite Hi].
  - intros o' u Ho' Hin. assert (o' = o) as -> by congruence. apply Hul. unfold rangeUses. by apply elem_of_elements.
  - intros o' r Ho' Hr. assert (o' = o) as -> by congruence. rewrite Hr in Hbr. clear Hc.
    destruct (decide (r ∉ vArgs ctx1)) as [|Hin]; [done|]. apply dec_stable in Hin.
    apply bind_Ret in Hbr as (x & E & Hbr). unfold deref in E. destruct (h !! r) as [ro|] eqn:Hro; [|done].
    injection E as ->. split; [rewrite Ha, Hpre in Hin; set_solver|]. exists x. split; [done|].
    destruct (decide (i ∉ uses x)) as [|Hu]; [done|]. by apply dec_stable.
Qed.

Lemma checkFields_zip f l fs : ∀ ctx,
  checkFields f l fs ctx = checkAll (λ af, f af.1 af.2) (zip l fs) ctx.
Proof.
  revert fs. induction l as [|a l IH]; intros [|fld fs] ctx; simpl; [done..|].
  unfold andThen. destruct (f a fld ctx) as [[e|c]| |]; simpl; [done| |done|done]. apply IH.
Qed.

Lemma concat_zip_nodes (l : list Arg) (fs : list Field) :
  length l = length fs → concat ((λ af : Arg * Field, nodes af.1) <$> zip l fs) = concat (nodes <$> l).
Proof.
  intros Hl. f_equal. rewrite <-(fst_zip l fs) at 2 by lia. by rewrite <-list_fmap_compose.
Qed.

(** [validateArg] visits the nodes of the argument in the order of the traversal. *)
Lemma validateArg_extends arg : ∀ typ dir ctx ctx',
  validateArg arg typ dir ctx = Ret (inr ctx') → extends (nodes arg) ctx ctx'.
Proof.
  induction arg as [c v|c ad v r IH|c d sz|c l IH|c opt ix tr IH|i] using arg_ind;
    intros typ dir ctx ctx' Hc; cbn [validateArg] in Hc;
    (apply bind_Ret in Hc as ([e|dir'] & Hh & Hc); [discriminate|]); apply validateHead_fresh in Hh.
  - apply validateConst_ctx in Hc as ->. by apply extends_push.
  - cbn [nodes]. apply (extends_trans [_]) with (push (PointerArg c ad v r) ctx); [by apply extends_push|].
    apply bind_Ret in Hc as (t & _ & Hc). apply andThen_ok in Hc as (ctx1 & Hp & ->%validateAddr_ctx).
    destruct t; try discriminate.
    + destruct r; [done|]. injection Hp as <-. apply extends_nil.
    + apply andThen_ok in Hp as (ctx2 & Hp & Hc). assert (ctx1 = ctx2) as -> by (checked; by subst).
      destruct r as [p|]; [by eapply IH|]. injection Hp as <-. apply extends_nil.
  - apply validateData_ctx in Hc as ->. by apply extends_push.
  - cbn [nodes]. apply (extends_trans [_]) with (push (GroupArg c l) ctx); [by apply extends_push|].
    apply bind_Ret in Hc as (t & _ & Hc). destruct t; try discriminate.
    + case_decide; [done|]. eapply checkAll_extends; [|exact Hc]. intros x c1 c2 Hx. by apply IH.
    + case_decide as Hlen; [done|]. rewrite checkFields_zip in Hc.
      rewrite <-(concat_zip_nodes l fields) by done. eapply checkAll_extends; [|exact Hc].
      intros [x f] c1 c2 Hx. apply IH. by apply elem_of_zip_l in Hx.
  - cbn [nodes]. apply (extends_trans [_]) with (push (UnionArg c opt ix tr) ctx); [by apply extends_push|].
    apply bind_Ret in Hc as (t & _ & Hc). destruct t; try discriminate. case_decide; [|done].
    apply bind_Ret in Hc as (f & _ & Hc). by eapply IH.
  - intros done Hd. destruct (validateResult_spec i ctx ctx' (argIdOf <$> done) Hc) as (Ha & Hm & Hok).
    { apply Hd. }
    eapply (vinv_push done (ResultArg i) ctx ctx'); [done|done|done| |done]. by intros ? [= <-].
Qed.

Lemma validateRet_extends c ctx ctx' :
  validateRet c ctx = Ret (inr ctx') → extends (ResultArg <$> option_list (Ret_ c)) ctx ctx'.
Proof.
  unfold validateRet. intros Hc. destruct (sysRet (Meta c)), (Ret_ c); try discriminate.
  - apply bind_Ret in Hc as (o & _ & Hc). case_decide; [done|]. by apply validateArg_extends in Hc.
  - injection Hc as <-. apply extends_nil.
Qed.

(** The arguments of a call in the order of the check. *)
Definition callNodes (c : Call) : list Arg :=
  concat (nodes <$> Args c) ++ (ResultArg <$> option_list (Ret_ c)).

Lemma validateCall_extends it c ctx ctx' :
  validateCall it c ctx = Ret (inr ctx') → extends (callNodes c) ctx ctx'.
Proof.
  unfold validateCall. intros Hc. destruct (Disabled _); [done|]. case_decide; [done|].
  case_decide as Hlen; [done|].
  apply andThen_ok in Hc as (ctx1 & Hargs & Hc). apply bind_Ret in Hc as ([bad|] & _ & Hc); [done|].
  eapply extends_trans; [|by apply validateRet_extends].
  rewrite <-(concat_zip_nodes _ _ Hlen). eapply checkAll_extends; [|exact Hargs].
  intros x c1 c2 _. by apply validateArg_extends.
Qed.

(** All the arguments of a program in the order of the check. *)
Definition progNodes (calls : list Call) : list Arg := concat (callNodes <$> calls).

Lemma validate_vinv it calls :
  validateWithOpts it calls = Ret None →
  ∃ ctx, vinv (progNodes calls) ctx ∧ ∀ u, is_Some (vUses ctx !! u) → u ∈ vArgs ctx.
Proof.
  unfold validateWithOpts. intros Hv. apply bind_Ret in Hv as ([e|ctx] & Hc & Hv); [done|].
  exists ctx. split.
  - refine (checkAll_extends (validateCall it) callNodes calls (MkValid ∅ ∅) ctx _ Hc [] _).
    + intros x c c' _. by apply validateCall_extends.
    + split; [done|constructor|]. intros pre i post Heq. by destruct pre.
  - case_decide as Hall; [|done]. intros u [j Hj]. rewrite Forall_forall in Hall. apply Hall.
    apply list_elem_of_fmap. exists (u, j). split; [done|]. by apply elem_of_map_to_list.
Qed.

(** An argument that is not a result has no contents in the heap of results: objects have
    one kind. *)
Definition oneKind (calls : list Call) : Prop :=
  ∀ x, x ∈ progNodes calls → resultOf x = None → h !! argIdOf x = None.

Lemma callNodes_results c : omap resultOf (callNodes c) = callResults c.
Proof.
  unfold callNodes, callResults. rewrite omap_app. f_equal.
  - induction (Args c) as [|a l IH]; [done|]. rewrite !fmap_cons. cbn [concat]. by rewrite omap_app, IH.
  - by destruct (Ret_ c).
Qed.

Lemma progNodes_results calls : omap resultOf (progNodes calls) = progResults calls.
Proof.
  unfold progNodes, progResults. induction calls as [|c calls IH]; [done|].
  rewrite !fmap_cons. cbn [concat]. by rewrite omap_app, IH, callNodes_results.
Qed.

(** Results among the visited arguments. *)
Lemma visited_result calls i :
  oneKind calls → is_Some (h !! i) → i ∈ argIdOf <$> progNodes calls → i ∈ progResults calls.
Proof.
  intros Hk [o Ho] (x & -> & Hx)%list_elem_of_fmap. rewrite <-progNodes_results.
  apply list_elem_of_omap. exists x. split; [done|].
  destruct (resultOf x) as [j|] eqn:E; [by destruct x; simplify_eq/=|]. by rewrite (Hk x Hx E) in Ho.
Qed.

Lemma NoDup_results (l : list Arg) : NoDup (argIdOf <$> l) → NoDup (omap resultOf l).
Proof.
  induction l as [|x l IH]; [constructor|]. rewrite fmap_cons. intros [Hni Hnd]%NoDup_cons. simpl.
  destruct (resultOf x) as [i|] eqn:E; [|auto]. apply NoDup_cons. split; [|auto].
  intros (y & Hy & Hi)%list_elem_of_omap. apply Hni. apply list_elem_of_fmap. exists y. split; [|done].
  destruct x, y; simplify_eq/=. done.
Qed.

(** Splitting the visited arguments at a result. *)
Lemma result_split calls l1 i l2 :
  progResults calls = l1 ++ i :: l2 →
  ∃ pre post, progNodes calls = pre ++ ResultArg i :: post ∧ omap resultOf pre = l1.
Proof.
  rewrite <-progNodes_results. generalize (progNodes calls). clear calls. intros l. revert l1.
  induction l as [|x l IH]; intros l1 Heq; [by destruct l1|]. simpl in Heq.
  destruct (resultOf x) as [j|] eqn:E.
  - destruct l1 as [|j' l1]; injection Heq as -> Heq.
    + exists [], l. destruct x; simplify_eq/=. done.
    + destruct (IH l1 Heq) as (pre & post & -> & <-). exists (x :: pre), post. simpl. by rewrite E.
  - destruct (IH l1 Heq) as (pre & post & -> & <-). exists (x :: pre), post. simpl. by rewrite E.
Qed.

(** What validation establishes about the results of a program. *)
Lemma validate_results it calls :
  oneKind calls → validateWithOpts it calls = Ret None →
  NoDup (progResults calls) ∧ linked (list_to_set (progResults calls)) h ∧
  ∀ l1 i l2 o r, progResults calls = l1 ++ i :: l2 → h !! i = Some o → rRes o = Some r → r ∈ l1 ∨ r = i.
Proof.
  intros Hk Hv. destruct (validate_vinv it calls Hv) as (ctx & [Hargs Hnd Hres] & Huses).
  assert (∀ i, i ∈ progResults calls → ∃ pre, resultOk (argIdOf <$> pre) i ctx) as Hin.
  { intros i (l1 & l2 & Hl)%list_elem_of_split. destruct (result_split _ _ _ _ Hl) as (pre & post & Hs & _). eauto. }
  assert (∀ i, is_Some (h !! i) → i ∈ vArgs ctx → i ∈ progResults calls) as Hvis.
  { intros i Hi Ha. apply visited_result; [done|done|]. rewrite Hargs in Ha. by rewrite elem_of_list_to_set in Ha. }
  split; [rewrite <-progNodes_results; by apply NoDup_results|]. split; [split|].
  - intros i Hi%elem_of_list_to_set. destruct (Hin i Hi) as [pre Hok]. apply Hok.
  - intros i o j Hi%elem_of_list_to_set Ho Hr. apply list_elem_of_split in Hi as (l1 & l2 & Hl).
    destruct (result_split _ _ _ _ Hl) as (pre & post & Hs & _).
    destruct (ro_res _ _ _ (Hres _ _ _ Hs) o j Ho Hr) as (Hpre & ro & Hro & Hu). split; [|eauto].
    apply elem_of_list_to_set, Hvis; [eauto|]. rewrite Hargs, elem_of_list_to_set, Hs, fmap_app. set_solver.
  - intros j oj i Hj%elem_of_list_to_set Ho Hi. destruct (Hin j Hj) as [pre Hok].
    destruct (ro_used _ _ _ Hok oj i Ho Hi) as (Hu & uo & Huo & Hr). split; [|eauto].
    apply elem_of_list_to_set, Hvis; [eauto|]. by apply Huses.
  - intros l1 i l2 o r Hl Ho Hr. destruct (result_split _ _ _ _ Hl) as (pre & post & Hs & <-).
    destruct (ro_res _ _ _ (Hres _ _ _ Hs) o r Ho Hr) as ([Hpre| ->] & ro & Hro & _); [|by right]. left.
    apply list_elem_of_fmap in Hpre as (x & -> & Hx). apply list_elem_of_omap. exists x. split; [done|].
    destruct (resultOf x) as [j|] eqn:E; [by destruct x; simplify_eq/=|].
    rewrite (Hk x) in Hro; [done| |done]. rewrite Hs. set_solver.
Qed.

(** ** The types of a validated program *)

Lemma checkAll_each {A} (f : A → validCtx → check) l : ∀ ctx ctx',
  checkAll f l ctx = Ret (inr ctx') → ∀ x, x ∈ l → ∃ c c', f x c = Ret (inr c').
Proof.
  induction l as [|y l IH]; intros ctx ctx' Hc x Hx; [by apply elem_of_nil in Hx|].
  simpl in Hc. apply andThen_ok in Hc as (c1 & Hy & Hc). apply elem_of_cons in Hx as [->|Hx]; [eauto|].
  by eapply IH.
Qed.

Lemma validate_call it calls c :
  validateWithOpts it calls = Ret None → c ∈ calls → ∃ ctx ctx', validateCall it c ctx = Ret (inr ctx').
Proof.
  unfold validateWithOpts. intros Hv Hin. apply bind_Ret in Hv as ([e|ctx] & Hc & Hv); [done|].
  by eapply checkAll_each.
Qed.

Definition isConstType (t : Typ) : bool :=
  match t with
  | ConstType _ _ _ | IntType _ _ _ _ _ | FlagsType _ _ _ | LenType _ _ _ _ | ProcType _ _ _
  | CsumType _ _ _ _ => true
  | _ => false
  end.

(** [typed arg typ dir]: the argument can stand where the type [typ] is expected with the
    direction [dir].  A squashed pointer is accepted for any type; pointers are always
    inputs; [DirInOut] accepts every direction. *)
Inductive typed : Arg → Ref → Dir → Prop :=
| typed_intro arg typ dir dir' r ad tt t :
    typeAt typ = Ret tt → dir' = (if isPtrType tt then DirIn else dir) →
    argRef h arg = Ret r → (r = typ ∨ isAnyPtrRef target r = Ret true) →
    argDir h arg = Ret ad → (ad = dir' ∨ dir' = DirInOut) →
    typeAt r = Ret t → shaped arg t dir' → typed arg typ dir
with shaped : Arg → Typ → Dir → Prop :=
| shaped_const c v t dir : isConstType t = true → shaped (ConstArg c v) t dir
| shaped_result i tc bf desc dir : shaped (ResultArg i) (ResourceType tc bf desc) dir
| shaped_data c d sz tc desc dir :
    (adir c = DirOut → d = []) →
    (IsVarlen tc = false → Prog.Size target h (DataArg c d sz) = Ret (TypeSize tc)) →
    shaped (DataArg c d sz) (BufferType tc desc) dir
| shaped_struct c l tc fields align ov dir :
    Forall2 (λ a f, typed a (fieldType f) (fieldDir f dir)) l fields →
    shaped (GroupArg c l) (StructType tc fields align ov) dir
| shaped_array c l tc elem kind rb re dir :
    Forall (λ a, typed a elem dir) l →
    (kind = ArrayRangeLen → rb = re → Z.of_nat (length l) = rb) →
    shaped (GroupArg c l) (ArrayType tc elem kind rb re) dir
| shaped_union c opt idx tr tc fields f dir :
    0 ≤ idx → fields !! Z.to_nat idx = Some f → typed opt (fieldType f) (fieldDir f dir) →
    shaped (UnionArg c opt idx tr) (UnionType tc fields) dir
| shaped_vma c ad v tc rb re dir : shaped (PointerArg c ad v None) (VmaType tc rb re) dir
| shaped_ptr c ad p tc elem ed dir :
    adir c ≠ DirOut → (∀ x, p = Some x → typed x elem ed) →
    shaped (PointerArg c ad 0 p) (PtrType tc elem ed) dir.

Lemma validateHead_typed arg typ dir ctx dir' :
  validateHead arg typ dir ctx = Ret (inr dir') →
  ∃ r ad tt, typeAt typ = Ret tt ∧ dir' = (if isPtrType tt then DirIn else dir) ∧
    argRef h arg = Ret r ∧ (r = typ ∨ isAnyPtrRef target r = Ret true) ∧
    argDir h arg = Ret ad ∧ (ad = dir' ∨ dir' = DirInOut).
Proof.
  unfold validateHead. case_decide; [done|]. intros Hc. apply bind_Ret in Hc as (r & Hr & Hc).
  destruct (match typeRefs target !! r with Some None => true | _ => false end); [done|].
  apply bind_Ret in Hc as (tt & Htt & Hc). apply bind_Ret in Hc as (ad & Had & Hc).
  case_decide as Hd; [done|]. apply bind_Ret in Hc as (any & Hany & Hc).
  destruct (negb any && bool_decide (r ≠ typ)) eqn:Eb; [done|]. injection Hc as <-.
  exists r, ad, tt. split_and!; try done.
  - destruct any; [by right|left]. simpl in Eb. apply bool_decide_eq_false in Eb. by apply dec_stable.
  - destruct (decide (ad = if isPtrType tt then DirIn else dir)); [by left|right]. apply dec_stable. naive_solver.
Qed.

Lemma checkAll_Forall2 (P : Arg → Field → Prop) (f : Arg * Field → validCtx → check) l fs ctx ctx' :
  length l = length fs → checkAll f (zip l fs) ctx = Ret (inr ctx') →
  (∀ a fl c c', a ∈ l → f (a, fl) c = Ret (inr c') → P a fl) → Forall2 P l fs.
Proof.
  intros Hlen Hc HP. apply Forall2_same_length_lookup. split; [done|]. intros i a fl Ha Hf.
  destruct (checkAll_each f _ _ _ Hc (a, fl)) as (c & c' & Hok).
  - apply list_elem_of_lookup. exists i. rewrite lookup_zip_with, Ha. simpl. by rewrite Hf.
  - eapply HP; [|done]. by eapply list_elem_of_lookup_2.
Qed.

Lemma validateArg_typed arg : ∀ typ dir ctx ctx',
  validateArg arg typ dir ctx = Ret (inr ctx') → typed arg typ dir.
Proof.
  induction arg as [c v|c ad v r IH|c d sz|c l IH|c opt ix tr IH|i] using arg_ind;
    intros typ dir ctx ctx' Hc; cbn [validateArg] in Hc;
    (apply bind_Ret in Hc as ([e|dir'] & Hh & Hc); [discriminate|]);
    destruct (validateHead_typed _ _ _ _ _ Hh) as (rf & adr & tt & Htt & Hd & Hr & Hany & Hadr & Hdir).
  - unfold validateConst in Hc. apply bind_Ret in Hc as (t & Ht & Hc). cbn [argRef] in Hr. injection Hr as <-.
    econstructor; try done. constructor. apply bind_Ret in Hc as (ok1 & Hok & Hc). destruct t; try done.
    all: injection Hok as <-; discriminate.
  - cbn [argRef] in Hr. injection Hr as <-. apply bind_Ret in Hc as (t & Ht & Hc).
    apply andThen_ok in Hc as (ctx1 & Hp & _). econstructor; try done. destruct t; try discriminate.
    + destruct r; [done|]. constructor.
    + apply andThen_ok in Hp as (ctx2 & Hp & Hc). case_decide as Hv; [done|]. subst v.
      case_decide; [done|]. constructor; [done|]. intros x ->. by eapply IH.
  - cbn [argRef] in Hr. injection Hr as <-. unfold validateData in Hc. apply bind_Ret in Hc as (t & Ht & Hc).
    econstructor; try done. destruct t; try discriminate. case_decide as Ho; [done|].
    apply bind_Ret in Hc as (z & Hz & Hc). apply bind_Ret in Hc as (w & Hw & Hc). destruct w; [done|].
    constructor.
    + intros Hdo. apply dec_stable. naive_solver.
    + intros Hvl. rewrite Hz. f_equal. unfold Varlen, Types.Size in Hw. cbn [common] in Hw. rewrite Hvl in Hw.
      simpl in Hw. injection Hw as Hw. apply bool_decide_eq_false in Hw. symmetry. by apply dec_stable.
  - cbn [argRef] in Hr. injection Hr as <-. apply bind_Ret in Hc as (t & Ht & Hc).
    econstructor; try done. destruct t; try discriminate.
    + case_decide as Hk; [done|]. constructor; [|intros; apply dec_stable; naive_solver].
      apply Forall_forall. intros x Hx. destruct (checkAll_each _ _ _ _ Hc x Hx) as (c1 & c2 & Hok). by eapply IH.
    + case_decide as Hlen; [done|]. constructor. rewrite checkFields_zip in Hc.
      eapply checkAll_Forall2; [done|exact Hc|]. intros a f c1 c2 Ha Hok.
      exact (IH a Ha _ _ _ _ Hok).
  - cbn [argRef] in Hr. injection Hr as <-. apply bind_Ret in Hc as (t & Ht & Hc).
    econstructor; try done. destruct t; try discriminate. case_decide as Hix; [|done].
    apply bind_Ret in Hc as (f & Hf & Hc). unfold index in Hf. rewrite decide_True in Hf by lia.
    destruct (fields !! Z.to_nat ix) as [f'|] eqn:Ef; [|done]. injection Hf as ->.
    econstructor; [lia|done|]. by eapply IH.
  - unfold validateResult in Hc. apply bind_Ret in Hc as (o & Ho & Hc). cbn [argRef] in Hr. rewrite Ho in Hr.
    injection Hr as <-. apply bind_Ret in Hc as (t & Ht & Hc).
    eapply (typed_intro (ResultArg i)); try done; [by cbn [argRef]; rewrite Ho|]. destruct t; try discriminate. constructor.
Qed.

(** A call as its description declares it. *)
Definition typedCall (c : Call) : Prop :=
  Forall2 (λ a f, typed a (fieldType f) DirIn) (Args c) (sysArgs (Meta c)) ∧
  match sysRet (Meta c), Ret_ c with
  | None, None => True
  | Some typ, Some i => typed (ResultArg i) typ DirOut
  | _, _ => False
  end.

Lemma validate_types it calls : validateWithOpts it calls = Ret None → Forall typedCall calls.
Proof.
  intros Hv. apply Forall_forall. intros c Hc. destruct (validate_call it calls c Hv Hc) as (ctx & ctx' & Hok).
  unfold validateCall in Hok. destruct (Disabled _); [done|]. case_decide; [done|].
  case_decide as Hlen; [done|]. apply andThen_ok in Hok as (ctx1 & Hargs & Hok).
  apply bind_Ret in Hok as ([bad|] & _ & Hok); [done|]. split.
  - eapply checkAll_Forall2; [done|exact Hargs|]. intros a f c1 c2 _ Ha.
    exact (validateArg_typed a _ _ _ _ Ha).
  - unfold validateRet in Hok. destruct (sysRet (Meta c)), (Ret_ c); try discriminate; [|done].
    apply bind_Ret in Hok as (o & _ & Hok). case_decide; [done|]. by eapply validateArg_typed.
Qed.

(** C4. Validation is a type check: in a program it accepts, every call has the arguments
    and the return value its description declares, and every argument below them has the
    shape of its type: integer constants for integer types, structs with exactly their
    fields, unions with an existing option, arrays of a fixed length with that many
    elements, buffers of a fixed size with that size, no data in output buffers. *)
Theorem validate_typed it calls :
  validateWithOpts it calls = Ret None → Forall typedCall calls.
Proof. apply validate_types. Qed.

(** ** Results of a validated program, continued *)


Lemma validate_ret it calls c i o :
  validateWithOpts it calls = Ret None → c ∈ calls → Ret_ c = Some i → h !! i = Some o → rRes o = None.
Proof.
  intros Hv Hc Hi Ho. destruct (validate_call it calls c Hv Hc) as (ctx & ctx' & Hok).
  unfold validateCall in Hok. destruct (Disabled _); [done|]. case_decide; [done|]. case_decide; [done|].
  apply andThen_ok in Hok as (ctx1 & _ & Hok). apply bind_Ret in Hok as ([bad|] & _ & Hok); [done|].
  unfold validateRet in Hok. rewrite Hi in Hok. destruct (sysRet (Meta c)); [|done].
  unfold deref in Hok. rewrite Ho in Hok. simpl in Hok. case_decide as Hn; [done|].
  apply dec_stable. naive_solver.
Qed.

(** Splitting a concatenation at an element. *)
Lemma concat_split {A B} (f : A → list B) l pre x post :
  concat (f <$> l) = pre ++ x :: post →
  ∃ l1 a l2 p1 p2, l = l1 ++ a :: l2 ∧ f a = p1 ++ x :: p2 ∧ pre = concat (f <$> l1) ++ p1.
Proof.
  revert pre. induction l as [|a l IH]; intros pre Heq; [by destruct pre|].
  rewrite fmap_cons in Heq. cbn [concat] in Heq.
  destruct (app_eq_inv _ _ _ _ Heq) as [(k & Hk1 & Hk2)|(k & Hk1 & Hk2)].
  - destruct k as [|y k]; simpl in Hk2.
    + rewrite app_nil_r in Hk1. subst pre. destruct (IH [] (eq_sym Hk2)) as (l1 & b & l2 & p1 & p2 & -> & Hb & Hp).
      exists (a :: l1), b, l2, p1, p2. rewrite fmap_cons. cbn [concat]. rewrite <-app_assoc, <-Hp.
      by rewrite app_nil_r.
    + injection Hk2 as <- _. exists [], a, l, pre, k. by rewrite Hk1.
  - destruct (IH k Hk2) as (l1 & b & l2 & p1 & p2 & -> & Hb & ->).
    exists (a :: l1), b, l2, p1, p2. rewrite fmap_cons. cbn [concat]. by rewrite Hk1, app_assoc.
Qed.

Lemma concat_order calls : concat (cloneOrder <$> calls) ≡ₚ progResults calls.
Proof.
  unfold progResults. induction calls as [|c calls IH]; [done|]. rewrite !fmap_cons. cbn [concat].
  apply Permutation_app; [|done]. unfold cloneOrder, callResults. apply Permutation_app_comm.
Qed.

Lemma validate_wellOrdered it calls :
  oneKind calls → validateWithOpts it calls = Ret None →
  (∀ i o, h !! i = Some o → rRes o ≠ Some i) → wellOrdered h (concat (cloneOrder <$> calls)).
Proof.
  intros Hk Hv Hself. destruct (validate_results it calls Hk Hv) as (Hnd & Hlk & Hbefore).
  intros pre i post Hl. rewrite <-concat_order in Hnd. pose proof Hnd as Hnd'. rewrite Hl in Hnd'.
  apply NoDup_app in Hnd' as (_ & Hni & _). split; [intros Hi; apply (Hni i Hi), list_elem_of_here|].
  destruct (linked_in _ _ Hlk i) as [o Ho].
  { rewrite elem_of_list_to_set, <-concat_order, Hl. set_solver. }
  exists o. split; [done|]. intros r Hr.
  destruct (concat_split cloneOrder calls pre i post Hl) as (c1 & c & c2 & p1 & p2 & -> & Hc & ->).
  unfold cloneOrder in Hc. destruct (Ret_ c) as [ri|] eqn:Eret; simpl in Hc.
  - destruct p1 as [|y p1]; simpl in Hc; injection Hc as -> Hc.
    { rewrite (validate_ret it _ c i o Hv) in Hr; [done|set_solver|done|done]. }
    destruct (Hbefore (concat (callResults <$> c1) ++ p1) i (p2 ++ [y] ++ concat (callResults <$> c2)) o r)
      as [Hin| ->]; [|done|done| |by destruct (Hself i o)].
    + unfold progResults. rewrite fmap_app, fmap_cons, concat_app. cbn [concat]. unfold callResults at 2.
      rewrite Hc, Eret. simpl. by rewrite <-!app_assoc.
    + fold (progResults c1) in Hin. rewrite <-concat_order in Hin. set_solver.
  - destruct (Hbefore (concat (callResults <$> c1) ++ p1) i (p2 ++ concat (callResults <$> c2)) o r)
      as [Hin| ->]; [|done|done| |by destruct (Hself i o)].
    + unfold progResults. rewrite fmap_app, fmap_cons, concat_app. cbn [concat]. unfold callResults at 2.
      rewrite Hc, Eret. simpl. by rewrite app_nil_r, <-!app_assoc.
    + fold (progResults c1) in Hin. rewrite <-concat_order in Hin. set_solver.
Qed.


(** ** Addresses and file names *)

(** The checks made at one argument. *)
Definition nodeChecked (x : Arg) : Prop :=
  match x with
  | PointerArg _ ad v p => ∃ ctx ctx', validateAddr ad v p ctx = Ret (inr ctx')
  | DataArg c d sz => ∃ ctx ctx', validateData c d sz ctx = Ret (inr ctx')
  | _ => True
  end.

Lemma validateArg_nodes arg : ∀ typ dir ctx ctx',
  validateArg arg typ dir ctx = Ret (inr ctx') → Forall nodeChecked (nodes arg).
Proof.
  induction arg as [c v|c ad v r IH|c d sz|c l IH|c opt ix tr IH|i] using arg_ind;
    intros typ dir ctx ctx' Hc; cbn [validateArg] in Hc;
    (apply bind_Ret in Hc as ([e|dir'] & _ & Hc); [discriminate|]); cbn [nodes].
  - by repeat constructor.
  - apply bind_Ret in Hc as (t & _ & Hc). apply andThen_ok in Hc as (ctx1 & Hp & Hc).
    apply Forall_cons_2; [simpl; eauto|]. destruct r as [p|]; [|constructor].
    destruct t; try discriminate. apply andThen_ok in Hp as (ctx2 & Hp & _). by eapply IH.
  - apply Forall_singleton. simpl. eauto.
  - apply Forall_cons_2; [done|]. apply Forall_concat, Forall_fmap, Forall_forall. intros x Hx. simpl.
    apply bind_Ret in Hc as (t & _ & Hc). destruct t; try discriminate; (case_decide as Hlen; [done|]).
    + destruct (checkAll_each _ _ _ _ Hc x Hx) as (c1 & c2 & Hok). by eapply IH.
    + rewrite checkFields_zip in Hc.
      apply (checkAll_Forall2 (λ a _, Forall nodeChecked (nodes a)) _ l fields) in Hc; [|done|].
      * apply list_elem_of_lookup in Hx as [k Hk].
        destruct (Forall2_lookup_l _ _ _ _ _ Hc Hk) as (f & _ & Hn). done.
      * intros a f c1 c2 Ha Hok. exact (IH a Ha _ _ _ _ Hok).
  - apply Forall_cons_2; [done|]. apply bind_Ret in Hc as (t & _ & Hc). destruct t; try discriminate.
    case_decide; [|done]. apply bind_Ret in Hc as (f & _ & Hc). by eapply IH.
  - by repeat constructor.
Qed.

Lemma validate_nodes it calls c x :
  validateWithOpts it calls = Ret None → c ∈ calls → x ∈ concat (nodes <$> Args c) → nodeChecked x.
Proof.
  intros Hv Hc Hx. destruct (validate_call it calls c Hv Hc) as (ctx & ctx' & Hok).
  unfold validateCall in Hok. destruct (Disabled _); [done|]. case_decide; [done|].
  case_decide as Hlen; [done|]. apply andThen_ok in Hok as (ctx1 & Hargs & _).
  apply (checkAll_Forall2 (λ a _, Forall nodeChecked (nodes a)) _ _ _ _ _ Hlen) in Hargs.
  - apply elem_of_concat in Hx as (l & (a & -> & Ha)%list_elem_of_fmap & Hx).
    apply list_elem_of_lookup in Ha as [k Hk]. destruct (Forall2_lookup_l _ _ _ _ _ Hargs Hk) as (f & _ & Hn).
    rewrite Forall_forall in Hn. by apply Hn.
  - intros a f c1 c2 _ Ha. exact (validateArg_nodes a _ _ _ _ Ha).
Qed.

(** The number of bytes a pointer stands for. *)
Definition pointedSize (vmaSize : Z) (pointee : option Arg) : res Z :=
  match pointee with
  | Some p => if decide (vmaSize = 0) then Prog.Size target h p else Ret vmaSize
  | None => Ret vmaSize
  end.

(** Validated pointers stay in the data area: every pointer and every range of pages
    of a validated program is one of the target's special pointers, or starts inside the
    [NumPages * PageSize] bytes of the area and, unless its size is so large that the
    64-bit sum wraps around, ends inside of it. *)
Theorem validate_addresses it calls c co ad v p maxMem :
  validateWithOpts it calls = Ret None → c ∈ calls → PointerArg co ad v p ∈ concat (nodes <$> Args c) →
  maxMem = NumPages target * PageSize target → 0 ≤ maxMem < 2 ^ 64 → is_u 64 ad →
  v = 0 ∧ p = None ∧ is_Some (SpecialPointers target !! Z.to_nat (0 -! ad)) ∨
  ad < maxMem ∧ ∃ sz, pointedSize v p = Ret sz ∧ (0 ≤ sz ≤ 2 ^ 64 - maxMem → ad + sz ≤ maxMem).
Proof.
  intros Hv Hc Hx -> Hmax Had. destruct (validate_nodes it calls c _ Hv Hc Hx) as (ctx & ctx' & Hok).
  unfold validateAddr in Hok. destruct (isSpecial ad v p) eqn:Es.
  - left. unfold isSpecial in Es. apply andb_true_iff in Es as [[Ev Ep]%andb_true_iff _].
    apply bool_decide_eq_true in Ev. destruct p; [done|]. split_and!; [done|done|].
    case_decide; [done|]. apply lookup_lt_is_Some. pose proof (wrapU_range 64 (0 - ad)) as [Hr _]; [lia|].
    unfold sub64 in *. lia.
  - right. rewrite mul64_small in Hok by done. apply bind_Ret in Hok as (sz & Hsz & Hok).
    case_decide as Hb; [done|]. split; [lia|]. exists sz. split; [done|]. intros Hs.
    destruct Had as [Had _]. rewrite add64_small in Hb by lia. lia.
Qed.

(** Validated file names stay in the working directory: a file name in a validated
    program is relative, and following it never leaves the directory it starts from. *)
Theorem validate_filenames it calls c co d sz tc desc :
  validateWithOpts it calls = Ret None → c ∈ calls → DataArg co d sz ∈ concat (nodes <$> Args c) →
  typeAt (aref co) = Ret (BufferType tc desc) → bufKind desc = BufferFilename →
  isRooted d = false ∧ is_Some (walk d).
Proof.
  intros Hv Hc Hx Ht Hk. destruct (validate_nodes it calls c _ Hv Hc Hx) as (ctx & ctx' & Hok).
  apply not_escaping. unfold validateData in Hok. rewrite Ht in Hok. cbn [rbind] in Hok.
  case_decide; [done|]. apply bind_Ret in Hok as (z & _ & Hok). apply bind_Ret in Hok as (w & _ & Hok).
  destruct w; [done|]. rewrite Hk in Hok. by destruct (escapingFilename d).
Qed.

End target.

Example example_validate :
  validate ExampleTarget.target ExampleTarget.heap0 ExampleTarget.calls = Ret None.
Proof. vm_compute. reflexivity. Qed.
Example example_escaping : escapingFilename [46; 47; 97; 47; 46; 46; 47; 46; 46; 47; 98] = true.
Proof. reflexivity. Qed.

Lemma validate_typed_witness :
  Forall (typedCall ExampleTarget.target ExampleTarget.heap0) ExampleTarget.calls.
Proof. exact (validate_typed _ _ false ExampleTarget.calls example_validate). Defined.

Lemma example_oneKind : oneKind ExampleTarget.heap0 ExampleTarget.calls.
Proof.
  intros x Hx Hr. let l := eval vm_compute in (progNodes ExampleTarget.calls) in
    change (progNodes ExampleTarget.calls) with l in Hx.
  rewrite !elem_of_cons, elem_of_nil in Hx. destruct_or! Hx; subst; done || reflexivity.
Qed.



Lemma validate_addresses_witness :
  64 < 64 * 4096 ∧ ∃ sz,
    pointedSize ExampleTarget.target ExampleTarget.heap0 0 (Some (ConstArg (MkCommon 11 1 DirOut) 0)) = Ret sz.
Proof.
  destruct (validate_addresses ExampleTarget.target ExampleTarget.heap0 false ExampleTarget.calls
    ExampleTarget.callWrite (MkCommon 10 7 DirIn) 64 0 (Some (ConstArg (MkCommon 11 1 DirOut) 0)) (64 * 4096))
    as [(_ & Hn & _)|(Ha & sz & Hsz & _)].
  - apply example_validate.
  - apply list_elem_of_further, list_elem_of_here.
  - change (concat (nodes <$> Args ExampleTarget.callWrite)) with
      (nodes (ResultArg 5) ++ nodes (PointerArg (MkCommon 6 6 DirIn) 0 0 (Some ExampleTarget.msgArg)) ++
       nodes (PointerArg (MkCommon 10 7 DirIn) 64 0 (Some (ConstArg (MkCommon 11 1 DirOut) 0)))).
    apply elem_of_app. right. apply elem_of_app. right. apply list_elem_of_here.
  - reflexivity.
  - done.
  - done.
  - discriminate.
  - split; [exact Ha|]. exists sz. exact Hsz.
Defined.

(** [chdir(&"a/../b")] *)
Definition fileTarget : Target :=
  MkTarget
    [None;
     Some (BufferType (ExampleTarget.mk "filename" 0 true 1)
       (MkBufferDesc BufferFilename 0 0 TextTarget "" [] false));
     Some (PtrType (ExampleTarget.mk "ptr" 8 false 2) 1 DirIn)]
    [] 8 4096 16 536870912 [0] 100 101 102
    103 104 [] "test" [] [].
Definition fileCall : Call :=
  MkCall (MkSyscall 0 80 "chdir" "chdir" 0 [ExampleTarget.fld "file" 2] None ExampleTarget.attrs)
    [PointerArg (MkCommon 1 2 DirIn) 0 0 (Some (DataArg (MkCommon 2 1 DirIn) [97; 47; 46; 46; 47; 98] 0))]
    None noProps "".

Lemma validate_filenames_witness :
  isRooted [97; 47; 46; 46; 47; 98] = false ∧ is_Some (walk [97; 47; 46; 46; 47; 98]).
Proof.
  apply (validate_filenames fileTarget ∅ false [fileCall] fileCall (MkCommon 2 1 DirIn)
    [97; 47; 46; 46; 47; 98] 0 (ExampleTarget.mk "filename" 0 true 1)
    (MkBufferDesc BufferFilename 0 0 TextTarget "" [] false)).
  - vm_compute. reflexivity.
  - apply list_elem_of_here.
  - apply list_elem_of_further, list_elem_of_here.
  - reflexivity.
  - reflexivity.
Defined.

End Validation.
