(* ===== verification/Typing.v ===== *)
(** * Typing: operations that keep programs well-typed

    [typed] is what validation checks of the types (prog/validation.go).  It only depends on
    the shape of the arguments and on the types of the results, so copies and changes of
    values keep it, and so does replacing an argument by one of the same type. *)

From S2P Require Import Prelude Types Prog ProgEdit Clone WellFormed Expr Validation.
Import Types Prog ProgEdit Clone WellFormed Validation.

Module Typing.

Section target.
Context (target : Target).
Notation typed := (typed target).
Notation shaped := (shaped target).

(** Two arguments with the same head. *)
Lemma typed_head h h' a a' typ dir :
  typed h a typ dir → (∀ r, argRef h a = Ret r → argRef h' a' = Ret r) →
  (∀ d, argDir h a = Ret d → argDir h' a' = Ret d) →
  (∀ t dir', shaped h a t dir' → shaped h' a' t dir') → typed h' a' typ dir.
Proof. intros H Hr Hd Hs. destruct H. econstructor; eauto. Qed.

Lemma typed_refs h h' a : sameRefs h h' → ∀ typ dir, typed h a typ dir → typed h' a typ dir.
Proof.
  intros Hh. induction a as [c v|c ad v r IH|c d s|c l IH|c o i t IH|i] using arg_ind; intros typ dir Ht;
    eapply typed_head; try exact Ht; try done.
  - intros t dir' Hs. inversion Hs; subst. by constructor.
  - intros t dir' Hs. inversion Hs; subst; constructor; eauto.
  - intros t dir' Hs. inversion Hs; subst. by constructor.
  - intros t dir' Hs. inversion Hs; subst; constructor; try done.
    + eapply Forall2_impl_in; [eassumption|]. intros x f Hx Hxt. cbn beta in *. apply IH; done.
    + match goal with H : Forall _ l |- _ => eapply Forall_impl_in; [exact H|] end.
      intros x Hx Hxt. apply IH; done.
  - intros t' dir' Hs. inversion Hs; subst. econstructor; eauto.
  - intros r. simpl. unfold deref. destruct (h !! i) as [o|] eqn:E; [|done].
    destruct (Hh _ _ E) as (o' & -> & Hr & _). simpl. by rewrite Hr.
  - intros r. simpl. unfold deref. destruct (h !! i) as [o|] eqn:E; [|done].
    destruct (Hh _ _ E) as (o' & -> & _ & Hr). simpl. by rewrite Hr.
  - intros t dir' Hs. inversion Hs; subst. constructor.
Qed.

(** Copies have the types of their originals. *)
Lemma typed_copy na h h1 a : copyHeap na h h1 →
  ∀ a1 typ dir, copyOf na a a1 → typed h a typ dir → typed h1 a1 typ dir.
Proof.
  intros Hh. induction a as [c v|c ad v r IH|c d s|c l IH|c o i t IH|i] using arg_ind;
    intros [c1 v1|c1 ad1 v1 r1|c1 d1 s1|c1 l1|c1 o1 i1 t1|i1] typ dir Hc Ht; try done;
    eapply typed_head; try exact Ht; try (simpl in *; destruct_and!; simpl; congruence).
  - intros t dir' Hs. inversion Hs; subst. by constructor.
  - simpl in Hc. destruct Hc as (_ & Hd & -> & -> & Hp). intros t dir' Hs. inversion Hs; subst; destruct r1 as [p1|]; try done;
      constructor; try congruence. intros x [= <-]. destruct r as [p|]; [|done]. eauto.
  - destruct Hc as (_ & Hd & -> & ->). intros t dir' Hs. inversion Hs; subst. constructor; [by rewrite Hd|done].
  - apply copyOf_group in Hc as (_ & Hd & Hl). intros t dir' Hs. inversion Hs; subst; constructor.
    + apply Forall2_same_length_lookup. split; [by rewrite <-(Forall2_length _ _ _ Hl), (Forall2_length _ _ _ ltac:(eassumption))|].
      intros k x1 f Hx1 Hf. destruct (Forall2_lookup_r _ _ _ _ _ Hl Hx1) as (x & Hx & Hxx).
      eapply IH; [by eapply list_elem_of_lookup_2|done|]. match goal with H : Forall2 _ l fields |- _ => exact (Forall2_lookup_lr _ _ _ _ _ _ H Hx Hf) end.
    + apply Forall_lookup. intros k x1 Hx1. destruct (Forall2_lookup_r _ _ _ _ _ Hl Hx1) as (x & Hx & Hxx).
      eapply IH; [by eapply list_elem_of_lookup_2|done|]. match goal with H : Forall _ l |- _ => exact (Forall_lookup_1 _ _ _ _ H Hx) end.
    + by rewrite <-(Forall2_length _ _ _ Hl).
  - simpl in Hc. destruct Hc as (_ & _ & -> & -> & Ho). intros t' dir' Hs. inversion Hs; subst. econstructor; eauto.
  - intros rf. simpl in *. unfold deref. destruct (h !! i) as [o|] eqn:E; [|done].
    destruct (Hh _ _ _ Hc E) as (o1 & -> & Hr & _). simpl. by rewrite Hr.
  - intros rf. simpl in *. unfold deref. destruct (h !! i) as [o|] eqn:E; [|done].
    destruct (Hh _ _ _ Hc E) as (o1 & -> & _ & Hr). simpl. by rewrite Hr.
  - intros t dir' Hs. inversion Hs; subst. constructor.
Qed.

(** Values do not matter. *)
Lemma typed_erase h a : ∀ typ dir, typed h (erase a) typ dir ↔ typed h a typ dir.
Proof.
  induction a as [c v|c ad v r IH|c d s|c l IH|c o i t IH|i] using arg_ind; intros typ dir;
    (split; intros Ht; eapply typed_head; try exact Ht; try done); intros t' dir' Hs; inversion Hs; subst.
  - by constructor.
  - by constructor.
  - destruct r; [done|]. constructor.
  - constructor; [done|]. intros x ->. simpl in *. apply IH; [done|]. eauto.
  - constructor.
  - constructor; [done|]. intros x Hx. destruct r as [p|]; [|done]. injection Hx as <-. apply IH; eauto.
  - apply shaped_data; [|by rewrite <-(size_erase target h (DataArg c d s))].
    match goal with H : adir c = DirOut → _ |- _ => intros Ho; apply H in Ho end. by destruct d.
  - apply shaped_data; [|pose proof (size_erase target h (DataArg c d s)) as He; cbn [erase] in He; by rewrite He].
    match goal with H : adir c = DirOut → _ |- _ => intros Ho; apply H in Ho as -> end. done.
  - constructor. eapply Forall2_impl_in; [eapply Forall2_fmap_l; eassumption|]. intros x f Hx Hxt. apply IH; done.
  - constructor; [|by rewrite length_fmap in *]. eapply Forall_impl_in; [eapply Forall_fmap; eassumption|].
    intros x Hx Hxt. apply IH; done.
  - constructor. apply Forall2_fmap_l. eapply Forall2_impl_in; [eassumption|]. intros x f Hx Hxt. apply IH; done.
  - constructor; [|by rewrite length_fmap]. apply Forall_fmap. eapply Forall_impl_in; [eassumption|].
    intros x Hx Hxt. apply IH; done.
  - econstructor; [done|done|]. by apply IH.
  - econstructor; [done|done|]. by apply IH.
Qed.

(** [DirInOut] accepts every direction. *)
Lemma typed_inout h a : ∀ typ dir, typed h a typ dir → typed h a typ DirInOut.
Proof.
  induction a as [c v|c ad v r IH|c d s|c l IH|c o i t IH|i] using arg_ind; intros typ dir Ht;
    inversion Ht as [? ? ? dir' r' ad' tt t' Htt Hdir Hr Hany Had Hd Ht' Hs]; subst; clear Ht.
  all: assert (∀ f d, fieldDir f d = fieldDir f DirInOut ∨ fieldDir f DirInOut = DirInOut) as Hfd by (intros f d0; unfold fieldDir; destruct (HasDirection f); tauto).
  all: econstructor; [exact Htt|reflexivity|exact Hr|exact Hany|exact Had| |exact Ht'|]; [destruct (isPtrType tt); tauto|].
  all: inversion Hs; subst; try (constructor; done).
  - constructor. eapply Forall2_impl_in; [eassumption|]. intros x f Hx Hxt. cbn beta in *. destruct (isPtrType tt); [done|].
    destruct (Hfd f dir) as [<-| ->]; [done|]. by eapply IH.
  - constructor; [|done]. eapply Forall_impl_in; [eassumption|]. intros x Hx Hxt. destruct (isPtrType tt); [done|]. by eapply IH.
  - econstructor; [done|done|]. destruct (isPtrType tt); [done|]. destruct (Hfd f dir) as [<-| ->]; [done|]. by eapply IH.
Qed.

(** What is known of a typed argument by its type. *)
Lemma typed_shape h a typ dir : typed h a typ dir →
  ∃ r t dir', argRef h a = Ret r ∧ typeAt (typeRefs target) r = Ret t ∧ argType target h a = Ret t ∧ shaped h a t dir'.
Proof.
  intros [? ? ? dir' r ad tt t Htt Hd Hr Hany Had Hdir Ht Hs]. exists r, t, dir'. split_and!; try done.
  unfold argType. by rewrite Hr.
Qed.

Lemma typed_nodes h a : ∀ typ dir x, typed h a typ dir → x ∈ nodes a → ∃ typ' dir', typed h x typ' dir'.
Proof.
  induction a as [c v|c ad v r IH|c d s|c l IH|c o i t IH|i] using arg_ind; intros typ dir x Ht Hx; cbn [nodes] in Hx;
    (apply elem_of_cons in Hx as [->|Hx]; [by eauto|]); try by apply elem_of_nil in Hx.
  - destruct r as [p|]; [|by apply elem_of_nil in Hx].
    destruct (typed_shape _ _ _ _ Ht) as (r' & t & dir' & _ & _ & _ & Hs). inversion Hs; subst. eauto.
  - apply elem_of_concat in Hx as (k & Hk & Hx). apply list_elem_of_fmap in Hk as (y & -> & Hy).
    destruct (typed_shape _ _ _ _ Ht) as (r' & t & dir' & _ & _ & _ & Hs). apply list_elem_of_lookup in Hy as [j Hj].
    inversion Hs; subst.
    + destruct (Forall2_lookup_l _ _ _ _ _ ltac:(eassumption) Hj) as (f & _ & Hy).
      eapply IH; [by eapply list_elem_of_lookup_2|exact Hy|done].
    + eapply IH; [by eapply list_elem_of_lookup_2| |done].
      match goal with H : Forall _ l |- _ => exact (Forall_lookup_1 _ _ _ _ H Hj) end.
  - destruct (typed_shape _ _ _ _ Ht) as (r' & t' & dir' & _ & _ & _ & Hs). inversion Hs; subst. eauto.
Qed.

#[export] Instance typed_stable : Stable (λ p h, Forall (typedCall target h) p).
Proof.
  split.
  - intros p h h' Hh Hp. eapply Forall_impl; [exact Hp|]. intros c [Ha Hr]. split.
    + eapply Forall2_impl; [exact Ha|]. intros a f. by apply typed_refs.
    + destruct (sysRet _), (Ret_ c); try done. by eapply typed_refs.
  - intros p p' h Hs Hp. apply Forall_lookup. intros k c' Hk. destruct (Forall2_lookup_r _ _ _ _ _ Hs Hk) as (c & Hc & [Hm Hr Ha]).
    rewrite Forall_lookup in Hp. destruct (Hp _ _ Hc) as [Hargs Hret]. split; [|by rewrite Hm, Hr].
    rewrite Hm.
    assert (Forall2 (λ a f, typed h a (fieldType f) DirIn) (erase <$> Args c') (sysArgs (Meta c))) as He.
    { rewrite Ha. apply Forall2_fmap_l. eapply Forall2_impl; [exact Hargs|]. intros a f. apply typed_erase. }
    apply Forall2_fmap_l in He. eapply Forall2_impl; [exact He|]. intros a f. apply typed_erase.
  - intros p i h. apply Forall_delete.
  - intros na p p1 h h1 Hc Hh Hp. apply Forall_lookup. intros k c1 Hk.
    destruct (Forall2_lookup_r _ _ _ _ _ Hc Hk) as (c & Hcl & [Hm _ Ha [Hr Hs]]).
    rewrite Forall_lookup in Hp. destruct (Hp _ _ Hcl) as [Hargs Hret]. unfold typedCall. rewrite Hm. split.
    + apply Forall2_same_length_lookup. split; [by rewrite <-(Forall2_length _ _ _ Ha), (Forall2_length _ _ _ Hargs)|].
      intros j a1 f Ha1 Hf. destruct (Forall2_lookup_r _ _ _ _ _ Ha Ha1) as (a & Haj & Haa).
      eapply typed_copy; [done|done|]. exact (Forall2_lookup_lr _ _ _ _ _ _ Hargs Haj Hf).
    + rewrite Hr in *. destruct (sysRet (Meta c)), (Ret_ c) as [i|]; simpl in *; try done.
      destruct (proj1 Hs ltac:(eauto)) as [i1 Hi1]. rewrite Hi1. eapply (typed_copy _ _ _ (ResultArg i)); done.
Qed.

End target.
End Typing.
