(* ===== verification/ArgTree.v ===== *)
(** * ArgTree: the arguments of a call by their position

    A position is the list of the indices on the way from the root of a tree to a node; the
    pointee of a pointer and the option of a union are their only children.  The lemmas say
    what replacing the node at a position does to the tree. *)

From S2P Require Import Prelude Types Prog ProgEdit Clone WellFormed Size Expr Validation Typing.
Import Types Prog ProgEdit Clone WellFormed Validation Typing.

Module ArgTree.

Definition child (arg : Arg) (i : nat) : option Arg :=
  match arg with
  | GroupArg _ inner => inner !! i
  | PointerArg _ _ _ (Some p) => if decide (i = 0%nat) then Some p else None
  | UnionArg _ opt _ _ => if decide (i = 0%nat) then Some opt else None
  | _ => None
  end.

Fixpoint subArg (pos : list nat) (arg : Arg) : option Arg :=
  match pos with
  | [] => Some arg
  | i :: pos => match child arg i with Some a => subArg pos a | None => None end
  end.

Fixpoint setSub (pos : list nat) (x arg : Arg) : Arg :=
  match pos with
  | [] => x
  | i :: pos =>
    match arg with
    | GroupArg c inner => GroupArg c (alter (setSub pos x) i inner)
    | PointerArg c a v (Some p) => if decide (i = 0%nat) then PointerArg c a v (Some (setSub pos x p)) else arg
    | UnionArg c opt idx tr => if decide (i = 0%nat) then UnionArg c (setSub pos x opt) idx tr else arg
    | _ => arg
    end
  end.

(** ** Replacing a node *)

Lemma subArg_setSub pos old new a : subArg pos a = Some old → subArg pos (setSub pos new a) = Some new.
Proof.
  revert a; induction pos as [|i pos IH]; intros a; [done|]. cbn [subArg setSub].
  destruct a as [| c ad v [p|] | | c l | c o ix t |]; cbn [child]; try done.
  - case_decide; [|done]. intros Hs. cbn [child]. rewrite decide_True by done. by apply IH.
  - destruct (l !! i) as [x|] eqn:E; [|done]. intros H. rewrite list_lookup_alter_eq, E. simpl. by apply IH.
  - case_decide; [|done]. intros Hs. cbn [child]. rewrite decide_True by done. by apply IH.
Qed.

Lemma setSub_setSub pos x y a : setSub pos x (setSub pos y a) = setSub pos x a.
Proof.
  revert a; induction pos as [|i pos IH]; intros a; [done|]. cbn [setSub].
  destruct a as [| c ad v [p|] | | c l | c o ix t |]; try done.
  - destruct (decide (i = 0%nat)); [by rewrite IH|done].
  - f_equal. apply list_eq. intros k. destruct (decide (i = k)) as [->|]; [|by rewrite !list_lookup_alter_ne].
    rewrite !list_lookup_alter_eq. destruct (l !! k); [|done]. simpl. by rewrite IH.
  - destruct (decide (i = 0%nat)); [by rewrite IH|done].
Qed.

Lemma setSub_same pos a x : subArg pos a = Some x → setSub pos x a = a.
Proof.
  revert a; induction pos as [|i pos IH]; intros a; [by injection 1 as ->|]. cbn [subArg setSub].
  destruct a as [| c ad v [p|] | | c l | c o ix t |]; cbn [child]; try done.
  - case_decide; [|done]. intros Hs. by rewrite IH.
  - destruct (l !! i) as [y|] eqn:E; [|done]. intros H. f_equal. apply list_eq. intros j.
    destruct (decide (i = j)) as [->|]; [|by rewrite list_lookup_alter_ne].
    rewrite list_lookup_alter_eq, E. simpl. by rewrite IH.
  - case_decide; [|done]. intros Hs. by rewrite IH.
Qed.

(** Functions that act on each node alone. *)
Definition isLeaf (a : Arg) : Prop :=
  match a with GroupArg _ _ | UnionArg _ _ _ _ | PointerArg _ _ _ (Some _) => False | _ => True end.

Class Nodewise (f : Arg → Arg) : Prop := {
  nodewise_group c l : f (GroupArg c l) = GroupArg c (f <$> l);
  nodewise_union c o i t : f (UnionArg c o i t) = UnionArg c (f o) i t;
  nodewise_ptr c ad v : ∃ ad', ∀ p, f (PointerArg c ad v (Some p)) = PointerArg c ad' v (Some (f p));
  nodewise_leaf a : isLeaf a → isLeaf (f a)
}.

Lemma leaf_child a i : isLeaf a → child a i = None.
Proof. by destruct a as [| c ad v [p|] | | c l | c o ix t |]. Qed.

Lemma leaf_setSub a i pos x : isLeaf a → setSub (i :: pos) x a = a.
Proof. by destruct a as [| c ad v [p|] | | c l | c o ix t |]. Qed.

Lemma alter_fmap {A} (f g g' : A → A) i (l : list A) :
  (∀ x, x ∈ l → f (g x) = g' (f x)) → f <$> alter g i l = alter g' i (f <$> l).
Proof.
  intros H. apply list_eq. intros k. rewrite list_lookup_fmap. destruct (decide (i = k)) as [->|].
  - rewrite !list_lookup_alter_eq, list_lookup_fmap. destruct (l !! k) eqn:E; [|done]. simpl. f_equal.
    apply H. by eapply list_elem_of_lookup_2.
  - by rewrite !list_lookup_alter_ne, list_lookup_fmap.
Qed.

Section nodewise.
Context (f : Arg → Arg) `{!Nodewise f}.

Lemma nodewise_child a i : child (f a) i = f <$> child a i.
Proof.
  destruct a as [| c ad v [p|] | | c l | c o ix t |].
  all: try (rewrite !leaf_child; [done|done|by apply nodewise_leaf]).
  - destruct (nodewise_ptr c ad v) as [ad' ->]. cbn [child]. by case_decide.
  - rewrite nodewise_group. cbn [child]. apply list_lookup_fmap.
  - rewrite nodewise_union. cbn [child]. by case_decide.
Qed.

Lemma nodewise_subArg pos a : subArg pos (f a) = f <$> subArg pos a.
Proof.
  revert a; induction pos as [|i pos IH]; intros a; [done|]. cbn [subArg]. rewrite nodewise_child.
  destruct (child a i); simpl; [apply IH|done].
Qed.

Lemma nodewise_set pos x a : f (setSub pos x a) = setSub pos (f x) (f a).
Proof.
  revert a; induction pos as [|i pos IH]; intros a; [done|].
  destruct a as [| c ad v [p|] | | c l | c o ix t |].
  all: try (rewrite !leaf_setSub; [done|by apply nodewise_leaf|done]).
  - destruct (nodewise_ptr c ad v) as [ad' Hp]. cbn [setSub]. rewrite Hp. cbn [setSub]. case_decide; rewrite Hp; [by rewrite IH|done].
  - cbn [setSub]. rewrite !nodewise_group. f_equal. apply alter_fmap. intros y _. apply IH.
  - cbn [setSub]. rewrite !nodewise_union. cbn [setSub]. case_decide; rewrite nodewise_union; [by rewrite IH|done].
Qed.
End nodewise.

#[export] Instance erase_nodewise : Nodewise erase.
Proof.
  split; [done|done|by eexists|]. by intros [| c ad v [p|] | | c l | c o ix t |].
Qed.

#[export] Instance setVals_nodewise vs : Nodewise (Size.setVals vs).
Proof.
  split; [done|done|by eexists|]. by intros [| c ad v [p|] | | c l | c o ix t |].
Qed.

(** Replacing a node by one with the same shape. *)
Lemma erase_setSub pos a old new :
  subArg pos a = Some old → erase new = erase old → erase (setSub pos new a) = erase a.
Proof.
  intros Hs He. rewrite (nodewise_set erase), He. apply setSub_same. by rewrite (nodewise_subArg erase), Hs.
Qed.

Lemma erase_setVals vs a : erase (Size.setVals vs a) = erase a.
Proof.
  induction a as [c v|c ad v r IH|c d s|c l IH|c o i t IH|i] using arg_ind; cbn [Size.setVals erase]; try done.
  - destruct r as [p|]; [|done]. by rewrite IH.
  - f_equal. rewrite <-list_fmap_compose. apply list_fmap_ext. intros i x Hx. apply IH. by eapply list_elem_of_lookup_2.
  - by rewrite IH.
Qed.

(** ** Results *)

Lemma results_sub pos a old :
  subArg pos a = Some old →
  ∃ pre post, results a = pre ++ results old ++ post ∧
    ∀ new, results (setSub pos new a) = pre ++ results new ++ post.
Proof.
  revert a; induction pos as [|i pos IH]; intros a; cbn [subArg].
  { injection 1 as ->. exists [], []. split; [by rewrite app_nil_r|]. intros new. by rewrite app_nil_r. }
  destruct a as [| c ad v [p|] | | c l | c o ix t |]; cbn [child setSub]; try done.
  - case_decide; [|done]. intros Ho. destruct (IH p Ho) as (pre & post & Hr & Hn). exists pre, post. split; [done|].
    intros new. apply (Hn new).
  - destruct (l !! i) as [x|] eqn:E; [|done]. intros Ho. destruct (IH x Ho) as (pre & post & Hr & Hn).
    exists (concat (results <$> take i l) ++ pre), (post ++ concat (results <$> drop (S i) l)).
    assert (∀ y, concat (results <$> (take i l ++ y :: drop (S i) l)) =
      concat (results <$> take i l) ++ results y ++ concat (results <$> drop (S i) l)) as Hc.
    { intros y. rewrite fmap_app, fmap_cons, concat_app. done. }
    split.
    + rewrite results_group. rewrite <-(take_drop_middle l i x E) at 1. rewrite Hc, Hr, <-!app_assoc. done.
    + intros new. rewrite results_group.
      assert (alter (setSub pos new) i l = take i l ++ setSub pos new x :: drop (S i) l) as ->.
      { rewrite <-(take_drop_middle l i x E) at 1.
        rewrite alter_app_r_alt by (rewrite length_take; lia).
        rewrite length_take_le by (apply lookup_lt_Some in E; lia). by rewrite Nat.sub_diag. }
      rewrite Hc, Hn, <-!app_assoc. done.
  - case_decide; [|done]. intros Ho. destruct (IH o Ho) as (pre & post & Hr & Hn). exists pre, post. split; [done|].
    intros new. apply (Hn new).
Qed.

(** ** Identities *)

Definition idsOf (a : Arg) : list positive := argIdOf <$> nodes a.

Lemma idsOf_group c l i : i ∈ idsOf (GroupArg c l) ↔ i = aid c ∨ ∃ x, x ∈ l ∧ i ∈ idsOf x.
Proof.
  unfold idsOf. cbn [nodes]. rewrite fmap_cons, elem_of_cons. apply or_iff_compat_l. rewrite list_elem_of_fmap. split.
  - intros (y & -> & Hy). apply elem_of_concat in Hy as (k & Hk & Hy). apply list_elem_of_fmap in Hk as (x & -> & Hx).
    exists x. split; [done|]. by apply list_elem_of_fmap_2.
  - intros (x & Hx & Hi). apply list_elem_of_fmap in Hi as (y & -> & Hy). exists y. split; [done|].
    apply elem_of_concat. exists (nodes x). split; [by apply list_elem_of_fmap_2|done].
Qed.

Lemma idsOf_setSub pos new a i : i ∈ idsOf (setSub pos new a) → i ∈ idsOf a ∨ i ∈ idsOf new.
Proof.
  revert a; induction pos as [|j pos IH]; intros a; [by right|].
  destruct a as [| c ad v [p|] | | c l | c o ix t |]; cbn [setSub]; try by left.
  - case_decide; [|by left]. unfold idsOf. cbn [nodes]. rewrite !fmap_cons, !elem_of_cons. intros [?|Hi]; [by left; left|].
    apply IH in Hi as [?|?]; [by left; right|by right].
  - rewrite !idsOf_group. intros [?|(x & Hx & Hi)]; [by left; left|]. apply list_elem_of_lookup in Hx as [k Hk].
    destruct (decide (j = k)) as [<-|].
    + rewrite list_lookup_alter_eq in Hk. destruct (l !! j) as [y|] eqn:E; [|done]. injection Hk as <-.
      apply IH in Hi as [Hi|?]; [left; right|by right]. exists y. split; [by eapply list_elem_of_lookup_2|done].
    + rewrite list_lookup_alter_ne in Hk by done. left; right. exists x. split; [by eapply list_elem_of_lookup_2|done].
  - case_decide; [|by left]. unfold idsOf. cbn [nodes]. rewrite !fmap_cons, !elem_of_cons. intros [?|Hi]; [by left; left|].
    apply IH in Hi as [?|?]; [by left; right|by right].
Qed.

Lemma idsOf_erase a : idsOf (erase a) = idsOf a.
Proof.
  unfold idsOf. rewrite nodes_erase, <-list_fmap_compose. apply list_fmap_ext. intros k x _. by destruct x.
Qed.

Lemma idsOf_sub pos a x i : subArg pos a = Some x → i ∈ idsOf x → i ∈ idsOf a.
Proof.
  revert a; induction pos as [|j pos IH]; intros a; [by injection 1 as ->|]. cbn [subArg].
  destruct a as [| c ad v [p|] | | c l | c o ix t |]; cbn [child]; try done.
  - case_decide; [|done]. intros Hs Hi. unfold idsOf. cbn [nodes]. rewrite fmap_cons. apply list_elem_of_further. by apply (IH p).
  - destruct (l !! j) as [y|] eqn:E; [|done]. intros Hs Hi. apply idsOf_group. right. exists y.
    split; [by eapply list_elem_of_lookup_2|by apply IH].
  - case_decide; [|done]. intros Hs Hi. unfold idsOf. cbn [nodes]. rewrite fmap_cons. apply list_elem_of_further. by apply (IH o).
Qed.

Lemma idsOf_self a : argIdOf a ∈ idsOf a.
Proof. destruct a; apply list_elem_of_here. Qed.

(** The arguments of a call that were handed out before [n]. *)
Definition idsBelow (n : positive) (c : Call) : Prop := ∀ a i, a ∈ Args c → i ∈ idsOf a → (i < n)%positive.

Definition idLoop (f : Arg → option (gmap positive positive) → mem → res (Arg * option (gmap positive positive) * mem))
    (x : Arg) (st : list Arg * option (gmap positive positive) * mem) :
    res (list Arg * option (gmap positive positive) * mem) :=
  let '(l, na, m) := st in let! '(x1, na, m) := f x na m in Ret (l ++ [x1], na, m).

Lemma clone_ids_loop l : ∀ st l1 na1 m1,
  (∀ x, x ∈ l → ∀ na m a1 na1 m1, clone x na m = Ret (a1, na1, m1) →
     (mNext m ≤ mNext m1)%positive ∧ ∀ i, i ∈ idsOf a1 → (i < mNext m1)%positive) →
  for_list (idLoop clone) l st = Ret (l1, na1, m1) →
  (mNext st.2 ≤ mNext m1)%positive ∧
  ((∀ x i, x ∈ st.1.1 → i ∈ idsOf x → (i < mNext st.2)%positive) → ∀ x i, x ∈ l1 → i ∈ idsOf x → (i < mNext m1)%positive).
Proof.
  induction l as [|y l IH]; intros [[l0 na0] m] l1 na1 m1 Hc H; cbn [for_list] in H; [injection H as <- <- <-; done|].
  apply bind_Ret in H as ([[l2 na2] m2] & H1 & H2). apply bind_Ret in H1 as ([[y1 na3] m3] & Hy & H1). injection H1 as <- <- <-.
  destruct (Hc y (list_elem_of_here _ _) _ _ _ _ _ Hy) as [Hle Hids].
  destruct (IH _ _ _ _ (λ x Hx, Hc x (list_elem_of_further _ _ _ Hx)) H2) as [Hle2 Hall]. simpl in *. split; [lia|].
  intros H0. apply Hall. intros x i Hx Hi. apply elem_of_app in Hx as [Hx|Hx]; [specialize (H0 x i Hx Hi); lia|].
  apply list_elem_of_singleton in Hx as ->. by apply Hids.
Qed.

(** Copies are handed out before the next identity. *)
Lemma clone_ids a : ∀ na m a1 na1 m1, clone a na m = Ret (a1, na1, m1) →
  (mNext m ≤ mNext m1)%positive ∧ ∀ i, i ∈ idsOf a1 → (i < mNext m1)%positive.
Proof.
  induction a as [c v|c ad v r IH|c d sz|c l IH|c o ix t IH|i] using arg_ind; intros na m a1 na1 m1 Hc; cbn [clone alloc] in Hc.
  - injection Hc as <- <- <-. simpl. split; [lia|]. intros i Hi. apply list_elem_of_singleton in Hi as ->. simpl. lia.
  - destruct r as [p|].
    + apply bind_Ret in Hc as ([[p1 na2] m2] & Hp & Hc). injection Hc as <- <- <-.
      destruct (IH p eq_refl _ _ _ _ _ Hp) as [Hle Hids]. simpl in Hle. split; [lia|]. intros i Hi.
      unfold idsOf in Hi. cbn [nodes] in Hi. rewrite fmap_cons in Hi. apply elem_of_cons in Hi as [->|Hi]; [simpl; lia|by apply Hids].
    + injection Hc as <- <- <-. simpl. split; [lia|]. intros i Hi. apply list_elem_of_singleton in Hi as ->. simpl. lia.
  - injection Hc as <- <- <-. simpl. split; [lia|]. intros i Hi. apply list_elem_of_singleton in Hi as ->. simpl. lia.
  - apply bind_Ret in Hc as ([[l1 na2] m2] & Hl & Hc). injection Hc as <- <- <-.
    destruct (clone_ids_loop l ([], na, Mem (mHeap m) (Pos.succ (mNext m))) l1 na2 m2 IH Hl) as [Hle Hids]. simpl in *. split; [lia|].
    intros i Hi. apply idsOf_group in Hi as [->|(x & Hx & Hi)]; [simpl; lia|]. eapply Hids; [|done|done]. by intros ? ? ?%elem_of_nil.
  - apply bind_Ret in Hc as ([[o1 na2] m2] & Ho & Hc). injection Hc as <- <- <-.
    destruct (IH _ _ _ _ _ Ho) as [Hle Hids]. simpl in Hle. split; [lia|]. intros i Hi.
    unfold idsOf in Hi. cbn [nodes] in Hi. rewrite fmap_cons in Hi. apply elem_of_cons in Hi as [->|Hi]; [simpl; lia|by apply Hids].
  - apply bind_Ret in Hc as (ob & _ & Hc). apply bind_Ret in Hc as (h' & _ & Hc). injection Hc as <- <- <-. simpl. split; [lia|].
    intros i' Hi. apply list_elem_of_singleton in Hi as ->. simpl. lia.
Qed.

Lemma Clone_ids calls m calls1 m1 : Clone calls m = Ret (calls1, m1) → Forall (idsBelow (mNext m1)) calls1.
Proof.
  unfold Clone, cloneCalls. intros H. apply bind_Ret in H as ([[l na] m2] & H & Heq). injection Heq as <- <-.
  enough (∀ cs l0 na0 m0, for_list (λ c '(l, newargs, m),
      let! '(c1, newargs, m) := cloneCall c newargs m in Ret (l ++ [c1], newargs, m)) cs (l0, na0, m0) = Ret (l, na, m2) →
    (mNext m0 ≤ mNext m2)%positive ∧ (Forall (idsBelow (mNext m0)) l0 → Forall (idsBelow (mNext m2)) l)) as Hgen
    by (apply Hgen in H as [_ H]; by apply H).
  clear H. induction cs as [|c cs IH]; intros l0 na0 m0 H; cbn [for_list] in H; [injection H as <- <- <-; done|].
  apply bind_Ret in H as ([[l3 na3] m3] & H1 & H2). apply IH in H2 as [Hle2 Hall].
  apply bind_Ret in H1 as ([[c1 na4] m4] & Hc & H1). injection H1 as <- <- <-.
  unfold cloneCall in Hc. apply bind_Ret in Hc as ([[ret na5] m5] & Hr & Hc). apply bind_Ret in Hc as ([[args na6] m6] & Ha & Hc).
  injection Hc as <- <- <-. assert (mNext m0 ≤ mNext m5)%positive as Hle0.
  { destruct (Ret_ c) as [i|]; [|injection Hr as <- <- <-; lia]. apply bind_Ret in Hr as ([[r na7] m7] & Hr & Heq).
    apply clone_ids in Hr as [Hr _]. destruct r; try discriminate. by injection Heq as <- <- <-. }
  destruct (clone_ids_loop (Args c) ([], na5, m5) args na6 m6 (λ x _, clone_ids x) Ha) as [Hle1 Hids]. simpl in *.
  split; [lia|]. intros H0. apply Hall. apply Forall_app. split.
  - eapply Forall_impl; [exact H0|]. intros c' Hc' a i Ha' Hi. specialize (Hc' a i Ha' Hi). lia.
  - apply Forall_singleton. intros a i Ha' Hi. eapply Hids; [|exact Ha'|exact Hi]. by intros ? ? ?%elem_of_nil.
Qed.

Section target.
Context (target : Target) (h : heap).
Notation typed := (typed target h).
Notation shaped := (shaped target h).

(** ** Types *)

Lemma typed_setChild a i x y typ dir :
  child a i = Some x → (∀ typ dir, typed x typ dir → typed y typ dir) →
  typed a typ dir → typed (setSub [i] y a) typ dir.
Proof.
  intros Hc Hf Ht. destruct a as [| c ad v [p|] | | c l | c o ix t |]; cbn [child setSub] in *; try done;
    (destruct (decide (i = 0%nat)) as [->|]; [injection Hc as ->|discriminate] || idtac);
    (eapply typed_head; [exact Ht|done|done|]); intros t' dir' Hs; inversion Hs; subst.
  - constructor; [done|]. intros z [= <-]. eauto.
  - constructor. apply Forall2_same_length_lookup. split; [by rewrite length_alter; eapply Forall2_length|].
    intros k b f Hb Hfk. destruct (decide (i = k)) as [<-|].
    + rewrite list_lookup_alter_eq, Hc in Hb. injection Hb as <-. apply Hf.
      match goal with H : Forall2 _ l _ |- _ => exact (Forall2_lookup_lr _ _ _ _ _ _ H Hc Hfk) end.
    + rewrite list_lookup_alter_ne in Hb by done.
      match goal with H : Forall2 _ l _ |- _ => exact (Forall2_lookup_lr _ _ _ _ _ _ H Hb Hfk) end.
  - constructor; [|by rewrite length_alter]. apply Forall_lookup. intros k b Hb. destruct (decide (i = k)) as [<-|].
    + rewrite list_lookup_alter_eq, Hc in Hb. injection Hb as <-. apply Hf.
      match goal with H : Forall _ l |- _ => exact (Forall_lookup_1 _ _ _ _ H Hc) end.
    + rewrite list_lookup_alter_ne in Hb by done.
      match goal with H : Forall _ l |- _ => exact (Forall_lookup_1 _ _ _ _ H Hb) end.
  - econstructor; eauto.
Qed.

Lemma setSub_child i pos x a y : child a i = Some y → setSub (i :: pos) x a = setSub [i] (setSub pos x y) a.
Proof.
  destruct a as [| c ad v [p|] | | c l | c o ix t |]; cbn [child setSub]; try done.
  - case_decide; [|done]. by injection 1 as ->.
  - intros Hl. f_equal. apply list_eq. intros k. destruct (decide (i = k)) as [<-|]; [|by rewrite !list_lookup_alter_ne].
    by rewrite !list_lookup_alter_eq, Hl.
  - case_decide; [|done]. by injection 1 as ->.
Qed.

Lemma typed_setSub pos a old new :
  subArg pos a = Some old → (∀ typ dir, typed old typ dir → typed new typ dir) →
  ∀ typ dir, typed a typ dir → typed (setSub pos new a) typ dir.
Proof.
  intros Hs Hn. revert a Hs; induction pos as [|i pos IH]; intros a Hs typ dir; [injection Hs as ->; apply Hn|].
  cbn [subArg] in Hs. destruct (child a i) as [x|] eqn:E; [|done]. rewrite (setSub_child _ _ _ _ _ E).
  apply (typed_setChild _ _ x); [done|]. intros typ' dir'. by apply IH.
Qed.

(** The nodes of a typed argument are typed. *)
Lemma typed_child a i x typ dir : typed a typ dir → child a i = Some x → ∃ typ' dir', typed x typ' dir'.
Proof.
  intros Ht Hc. destruct Ht as [? ? ? ? ? ? ? ? ? ? ? ? ? ? ? Hs].
  inversion Hs; subst; cbn [child] in Hc; try discriminate.
  - destruct (Forall2_lookup_l _ _ _ _ _ ltac:(eassumption) Hc) as (f & _ & Hx). eauto.
  - match goal with H : Forall _ l |- _ => eexists _, _; exact (Forall_lookup_1 _ _ _ _ H Hc) end.
  - case_decide; [|done]. injection Hc as <-. eauto.
  - destruct p; [|done]. case_decide; [|done]. injection Hc as <-. eauto.
Qed.

Lemma typed_sub pos a old : subArg pos a = Some old →
  ∀ typ dir, typed a typ dir → ∃ typ' dir', typed old typ' dir'.
Proof.
  revert a; induction pos as [|i pos IH]; intros a Hs typ dir Ht; [injection Hs as ->; eauto|].
  cbn [subArg] in Hs. destruct (child a i) as [x|] eqn:E; [|done].
  destruct (typed_child _ _ _ _ _ Ht E) as (typ' & dir' & Hx). by eapply IH.
Qed.

(** ** Sizes *)

Definition sized (a : Arg) : Prop := ∀ x, x ∈ nodes a → ∃ z, Prog.Size target h x = Ret z.

Lemma sized_head a : sized a → ∃ z, Prog.Size target h a = Ret z.
Proof. intros H. apply H. destruct a; apply list_elem_of_here. Qed.

Lemma sized_group c l :
  sized (GroupArg c l) ↔ (∃ z, Prog.Size target h (GroupArg c l) = Ret z) ∧ ∀ x, x ∈ l → sized x.
Proof.
  unfold sized. cbn [nodes]. split.
  - intros H. split; [apply H, list_elem_of_here|]. intros x Hx y Hy. apply H, list_elem_of_further, elem_of_concat.
    exists (nodes x). split; [by apply list_elem_of_fmap_2|done].
  - intros [H Hl] x Hx. apply elem_of_cons in Hx as [->|Hx]; [done|].
    apply elem_of_concat in Hx as (k & Hk & Hx). apply list_elem_of_fmap in Hk as (y & -> & Hy). by eapply Hl.
Qed.

(** Whether a group has a size does not depend on its elements, as long as they have. *)
Lemma group_size c l l' :
  (∃ z, Prog.Size target h (GroupArg c l) = Ret z) → (∀ x, x ∈ l' → ∃ z, Prog.Size target h x = Ret z) →
  ∃ z, Prog.Size target h (GroupArg c l') = Ret z.
Proof.
  intros [z Hz] Hl. cbn [Prog.Size] in *. apply bind_Ret in Hz as (t & -> & Hz). cbn [rbind].
  destruct (negb (Varlen t)); [eauto|]. destruct t; try discriminate.
  - destruct (for_list_inv (λ _ _, True) (λ elem size, let! sz := Prog.Size target h elem in Ret (size +! sz)) l' 0)
      as (z' & -> & _); [done| |eauto].
    intros d x r s Hd _. destruct (Hl x) as [zx ->]; [rewrite Hd; set_solver|]. simpl. eauto.
  - destruct (for_list_inv (λ _ _, True) (λ fld '(i, acc), let! sz := Prog.Size target h fld in
        Ret (i + 1, structStep overlayField alignAttr (Z.of_nat (length l')) i sz acc)) l' (0, (0, 0)))
      as ([? [? ?]] & -> & _); [done| |simpl; eauto].
    intros d x r [i acc] Hd _. destruct (Hl x) as [zx ->]; [rewrite Hd; set_solver|]. simpl. eauto.
Qed.

Lemma sized_ptr c ad v p : sized (PointerArg c ad v (Some p)) ↔ (∃ z, Prog.Size target h (PointerArg c ad v None) = Ret z) ∧ sized p.
Proof.
  unfold sized. cbn [nodes]. split.
  - intros H. split; [apply (H (PointerArg c ad v (Some p))), list_elem_of_here|]. intros x Hx. by apply H, list_elem_of_further.
  - intros [H Hp] x Hx. apply elem_of_cons in Hx as [->|Hx]; [exact H|by apply Hp].
Qed.

Lemma sized_union c o i t :
  sized (UnionArg c o i t) ↔ (∃ z, Prog.Size target h (UnionArg c o i t) = Ret z) ∧ sized o.
Proof.
  unfold sized. cbn [nodes]. split.
  - intros H. split; [apply H, list_elem_of_here|]. intros x Hx. by apply H, list_elem_of_further.
  - intros [H Hp] x Hx. apply elem_of_cons in Hx as [->|Hx]; [exact H|by apply Hp].
Qed.

Lemma sized_setSub pos a old new :
  subArg pos a = Some old → sized a → sized new → sized (setSub pos new a).
Proof.
  revert a; induction pos as [|i pos IH]; intros a; [done|]. cbn [subArg].
  destruct a as [| c ad v [p|] | | c l | c o ix t |]; cbn [child setSub]; try done.
  - case_decide; [|done]. intros Hs Ha Hn. apply sized_ptr in Ha as [Ha Hp]. apply sized_ptr. eauto.
  - destruct (l !! i) as [x|] eqn:E; [|done]. intros Hs Ha Hn. apply sized_group in Ha as [Ha Hl].
    assert (∀ y, y ∈ alter (setSub pos new) i l → sized y) as Hl'.
    { intros y Hy. apply list_elem_of_lookup in Hy as [k Hk]. destruct (decide (i = k)) as [<-|].
      - rewrite list_lookup_alter_eq, E in Hk. injection Hk as <-. apply IH; [done| |done]. apply Hl. by eapply list_elem_of_lookup_2.
      - rewrite list_lookup_alter_ne in Hk by done. apply Hl. by eapply list_elem_of_lookup_2. }
    apply sized_group. split; [|done]. eapply group_size; [done|]. intros y Hy. by apply sized_head, Hl'.
  - case_decide; [|done]. intros Hs Ha Hn. apply sized_union in Ha as [[z Ha] Ho]. pose proof (IH _ Hs Ho Hn) as Ho'.
    apply sized_union. split; [|done]. cbn [Prog.Size] in *. apply bind_Ret in Ha as (t' & -> & Ha). cbn [rbind].
    destruct (negb (Varlen t')); [eauto|]. by apply sized_head.
Qed.

Lemma sized_sub pos a old : subArg pos a = Some old → sized a → sized old.
Proof.
  revert a; induction pos as [|i pos IH]; intros a; [by injection 1 as ->|]. cbn [subArg].
  destruct a as [| c ad v [p|] | | c l | c o ix t |]; cbn [child]; try done.
  - case_decide; [|done]. intros Hs Ha. apply sized_ptr in Ha as [_ Hp]. eauto.
  - destruct (l !! i) as [x|] eqn:E; [|done]. intros Hs Ha. apply sized_group in Ha as [_ Hl].
    eapply IH; [done|]. apply Hl. by eapply list_elem_of_lookup_2.
  - case_decide; [|done]. intros Hs Ha. apply sized_union in Ha as [_ Ho]. eauto.
Qed.

End target.
End ArgTree.
