(* ===== verification/MinimizePaths.v ===== *)
(** * MinimizePaths: the paths that minimization tries (prog/minimization.go)

    [minimizeArgsCtx.triedPaths] holds the paths of the arguments that were tried.  A call has
    finitely many of them, and no step of the minimization of its arguments adds one: this
    bounds the number of times the walk over the arguments starts anew. *)

From stdpp Require Import pretty.
From S2P Require Import Prelude Types Prog ProgEdit Clone WellFormed Size Validation Typing ArgTree.
Import Types Prog ProgEdit Clone WellFormed Validation Typing ArgTree.

Module MinimizePaths.

(** Deeper than all of its children. *)
Fixpoint depth (a : Arg) : nat :=
  match a with
  | PointerArg _ _ _ (Some p) => S (depth p)
  | GroupArg _ l => S (max_list (depth <$> l))
  | UnionArg _ o _ _ => S (depth o)
  | _ => 0
  end.

Lemma max_list_elem n l : n ∈ l → (n ≤ max_list l)%nat.
Proof. intros H. by apply max_list_elem_of_le. Qed.

(** The types of the buffers. *)
Definition dataRef (a : Arg) : option Ref := match a with DataArg c _ _ => Some (aref c) | _ => None end.
Definition dataRefs (a : Arg) : list Ref := omap dataRef (nodes a).

Section target.
Context (target : Target).
Notation typeAt := (typeAt (typeRefs target)).

(** The paths of an argument and of all those below it, given its own path; an element of an
    array may move to any position in front of its own. *)
Fixpoint pathsOf (path : string) (a : Arg) : list string :=
  path ::
  match a with
  | PointerArg _ _ _ (Some p) => (path +:+ ">")%string :: pathsOf (path +:+ "-" +:+ "") p
  | GroupArg c l =>
    match typeAt (aref c) with
    | Ret (StructType _ fields _ _) =>
      (fix go (l : list Arg) (fs : list Field) : list string :=
         match l, fs with
         | x :: l, f :: fs => pathsOf (path +:+ "-" +:+ fieldName f) x ++ go l fs
         | _, _ => []
         end) l fields
    | Ret (ArrayType _ _ _ _ _) =>
      concat ((λ i : nat, let elemPath := (path +:+ "-" +:+ pretty i)%string in
        elemPath :: concat ((λ x, pathsOf (elemPath +:+ "-" +:+ "") x) <$> l)) <$> seq 0 (length l))
    | _ => []
    end
  | UnionArg c o idx _ =>
    match typeAt (aref c) with
    | Ret (UnionType _ fields) =>
      match index fields idx with Ret f => pathsOf (path +:+ "-" +:+ fieldName f) o | _ => [] end
    | _ => []
    end
  | _ => []
  end.

Lemma pathsOf_self path a : path ∈ pathsOf path a.
Proof. destruct a; apply list_elem_of_here. Qed.

(** The paths of the fields of a struct. *)
Lemma pathsOf_struct path c l tc fields align ov x :
  typeAt (aref c) = Ret (StructType tc fields align ov) →
  x ∈ pathsOf path (GroupArg c l) ↔
  x = path ∨ ∃ j a f, l !! j = Some a ∧ fields !! j = Some f ∧ x ∈ pathsOf (path +:+ "-" +:+ fieldName f) a.
Proof.
  intros Ht. cbn [pathsOf]. rewrite Ht, elem_of_cons. apply or_iff_compat_l. clear Ht.
  revert fields; induction l as [|a l IH]; intros [|f fields]; cbn [lookup].
  1-3: split; [by intros ?%elem_of_nil|intros ([|j] & a' & f' & Ha & Hf & _); discriminate].
  rewrite elem_of_app, IH. split.
  - intros [Hx|(j & a' & f' & Ha & Hf & Hx)]; [exists 0%nat, a, f; done|exists (S j), a', f'; done].
  - intros ([|j] & a' & f' & Ha & Hf & Hx); [left; simpl in *; congruence|right; by exists j, a', f'].
Qed.

Lemma pathsOf_array path c l tc elem kind rb re x :
  typeAt (aref c) = Ret (ArrayType tc elem kind rb re) →
  x ∈ pathsOf path (GroupArg c l) ↔
  x = path ∨ ∃ i, (i < length l)%nat ∧ (x = (path +:+ "-" +:+ pretty i)%string ∨
    ∃ a, a ∈ l ∧ x ∈ pathsOf ((path +:+ "-" +:+ pretty i) +:+ "-" +:+ "") a).
Proof.
  intros Ht. cbn [pathsOf]. rewrite Ht, elem_of_cons. apply or_iff_compat_l. rewrite elem_of_concat. split.
  - intros (k & Hk & Hx). apply list_elem_of_fmap in Hk as (i & -> & Hi). apply elem_of_seq in Hi.
    exists i. split; [lia|]. apply elem_of_cons in Hx as [->|Hx]; [by left|right].
    apply elem_of_concat in Hx as (k & Hk & Hx). apply list_elem_of_fmap in Hk as (a & -> & Ha). eauto.
  - intros (i & Hi & Hx). eexists. split; [apply list_elem_of_fmap; exists i; split; [done|apply elem_of_seq; lia]|].
    cbn zeta. apply elem_of_cons. destruct Hx as [->|(a & Ha & Hx)]; [by left|right].
    apply elem_of_concat. eexists. split; [apply list_elem_of_fmap; exists a; done|done].
Qed.

(** ** Arguments that are not larger *)

Record below (a a' : Arg) : Prop := {
  below_paths path x : x ∈ pathsOf path a' → x ∈ pathsOf path a;
  below_depth : (depth a' ≤ depth a)%nat;
  below_data r : r ∈ dataRefs a' → r ∈ dataRefs a
}.

#[export] Instance below_preorder : PreOrder below.
Proof.
  split; [by intros a|]. intros a b c [Hp Hd Hr] [Hp' Hd' Hr']. split; [eauto|lia|eauto].
Qed.

Lemma dataRefs_group c l : dataRefs (GroupArg c l) = concat (dataRefs <$> l).
Proof.
  unfold dataRefs. cbn [nodes]. change (omap dataRef (GroupArg c l :: ?x)) with (omap dataRef x).
  induction l as [|x l IH]; [done|]. rewrite !fmap_cons. cbn [concat]. by rewrite omap_app, IH.
Qed.

Lemma elem_dataRefs_group c l r : r ∈ dataRefs (GroupArg c l) ↔ ∃ x, x ∈ l ∧ r ∈ dataRefs x.
Proof.
  rewrite dataRefs_group, elem_of_concat. split.
  - intros (k & Hk & Hr). apply list_elem_of_fmap in Hk as (x & -> & Hx). eauto.
  - intros (x & Hx & Hr). exists (dataRefs x). split; [by apply list_elem_of_fmap_2|done].
Qed.

Lemma below_group c l l' :
  (Forall2 below l l' ∨
   (∃ tc elem kind rb re, typeAt (aref c) = Ret (ArrayType tc elem kind rb re)) ∧ (length l' ≤ length l)%nat ∧
   ∀ x', x' ∈ l' → ∃ x, x ∈ l ∧ below x x') →
  below (GroupArg c l) (GroupArg c l').
Proof.
  intros Hl. assert (∀ x', x' ∈ l' → ∃ x, x ∈ l ∧ below x x') as Hin.
  { destruct Hl as [Hl|(_ & _ & Hl)]; [|done]. intros x' Hx'. apply list_elem_of_lookup in Hx' as [k Hk].
    destruct (Forall2_lookup_r _ _ _ _ _ Hl Hk) as (x & Hx & Hb). exists x. split; [by eapply list_elem_of_lookup_2|done]. }
  split.
  - intros path x. destruct (typeAt (aref c)) as [t| |] eqn:Et;
      [|cbn [pathsOf]; rewrite Et; intros Hx%list_elem_of_singleton; subst; apply list_elem_of_here..].
    destruct t; try (cbn [pathsOf]; rewrite Et; intros Hx%list_elem_of_singleton; subst; apply list_elem_of_here).
    + rewrite !(pathsOf_array _ _ _ _ _ _ _ _ _ Et). intros [->|(i & Hi & Hx)]; [by left|right].
      assert (length l' ≤ length l)%nat as Hlen
        by (destruct Hl as [Hl|(_ & Hl & _)]; [by rewrite (Forall2_length _ _ _ Hl)|done]).
      exists i. split; [lia|]. destruct Hx as [->|(a' & Ha' & Hx)]; [by left|right].
      destruct (Hin a' Ha') as (a & Ha & Hb). exists a. split; [done|]. by apply (below_paths _ _ Hb).
    + destruct Hl as [Hl|((? & ? & ? & ? & ? & Et') & _)]; [|congruence].
      rewrite !(pathsOf_struct _ _ _ _ _ _ _ _ Et). intros [->|(j & a' & f & Ha' & Hf & Hx)]; [by left|right].
      destruct (Forall2_lookup_r _ _ _ _ _ Hl Ha') as (a & Ha & Hb). exists j, a, f. split_and!; [done|done|].
      by apply (below_paths _ _ Hb).
  - cbn [depth]. apply le_n_S.
    assert (∀ n, n ∈ depth <$> l' → n ≤ max_list (depth <$> l))%nat as Hm.
    { intros n Hn. apply list_elem_of_fmap in Hn as (x' & -> & Hx'). destruct (Hin x' Hx') as (x & Hx & Hb).
      etrans; [apply (below_depth _ _ Hb)|]. apply max_list_elem. by apply list_elem_of_fmap_2. }
    revert Hm. generalize (max_list (depth <$> l)) as mx. clear. intros mx. induction (depth <$> l') as [|n k IH]; intros Hm; simpl; [lia|].
    apply Nat.max_lub; [apply Hm, list_elem_of_here|]. apply IH. intros y Hy. by apply Hm, list_elem_of_further.
  - intros r. rewrite !elem_dataRefs_group. intros (x' & Hx' & Hr). destruct (Hin x' Hx') as (x & Hx & Hb).
    exists x. split; [done|]. by apply (below_data _ _ Hb).
Qed.

Lemma below_ptr c ad v p p' :
  below p p' → below (PointerArg c ad v (Some p)) (PointerArg c ad v (Some p')).
Proof.
  intros [Hp Hd Hr]. split.
  - intros path x. cbn [pathsOf]. rewrite !elem_of_cons. intros [->|[->|Hx]]; [by left|by right; left|right; right]. by apply Hp.
  - simpl. lia.
  - exact Hr.
Qed.

Lemma below_union c o o' i t : below o o' → below (UnionArg c o i t) (UnionArg c o' i t).
Proof.
  intros [Hp Hd Hr]. split.
  - intros path x. cbn [pathsOf]. rewrite !elem_of_cons. intros [->|Hx]; [by left|right].
    destruct (typeAt (aref c)) as [[]| |]; try done. destruct (index fields i); try done. by apply Hp.
  - simpl. lia.
  - exact Hr.
Qed.

Lemma below_setSub pos a old new :
  subArg pos a = Some old → below old new → below a (setSub pos new a).
Proof.
  revert a; induction pos as [|i pos IH]; intros a; [by injection 1 as ->|]. cbn [subArg].
  destruct a as [| c ad v [p|] | | c l | c o ix t |]; cbn [child setSub]; try done.
  - case_decide; [|done]. intros Hs Hb. by apply below_ptr, IH.
  - destruct (l !! i) as [x|] eqn:E; [|done]. intros Hs Hb. apply below_group. left.
    apply Forall2_same_length_lookup. split; [by rewrite length_alter|]. intros k y y' Hy Hy'.
    destruct (decide (i = k)) as [<-|].
    + rewrite list_lookup_alter_eq, E in Hy'. injection Hy' as <-. rewrite E in Hy. injection Hy as <-. by apply IH.
    + rewrite list_lookup_alter_ne, Hy in Hy' by done. injection Hy' as <-. reflexivity.
  - case_decide; [|done]. intros Hs Hb. by apply below_union, IH.
Qed.

(** Values do not matter, nor do identities. *)
Lemma pathsOf_erase a : ∀ path, pathsOf path (erase a) = pathsOf path a.
Proof.
  induction a as [c v|c ad v r IH|c d s|c l IH|c o i t IH|i] using arg_ind; intros path; try done; cbn [erase pathsOf].
  - destruct r as [p|]; [|done]. by rewrite IH.
  - f_equal. destruct (typeAt (aref c)) as [[]| |]; try done.
    + rewrite length_fmap. f_equal. apply list_fmap_ext. intros _ j _. cbn zeta. do 2 f_equal.
      rewrite <-list_fmap_compose. apply list_fmap_ext. intros k x Hx. apply IH. by eapply list_elem_of_lookup_2.
    + revert fields; induction l as [|x l IHl]; intros [|f fields]; try done. rewrite fmap_cons. f_equal.
      * apply IH, list_elem_of_here.
      * apply IHl. intros y Hy. apply IH. by apply list_elem_of_further.
  - f_equal. destruct (typeAt (aref c)) as [[]| |]; try done. by destruct (index fields i).
Qed.

Lemma depth_erase a : depth (erase a) = depth a.
Proof.
  induction a as [c v|c ad v r IH|c d s|c l IH|c o i t IH|i] using arg_ind; try done; cbn [erase depth].
  - destruct r as [p|]; [|done]. by rewrite IH.
  - do 2 f_equal. rewrite <-list_fmap_compose. apply list_fmap_ext. intros k x Hx. apply IH. by eapply list_elem_of_lookup_2.
  - by rewrite IH.
Qed.

Lemma dataRefs_erase a : dataRefs (erase a) = dataRefs a.
Proof.
  unfold dataRefs. rewrite nodes_erase. induction (nodes a) as [|x l IH]; [done|].
  destruct x; simpl; first [exact IH|f_equal; exact IH].
Qed.

Lemma below_erase a a' : erase a' = erase a → below a a'.
Proof.
  intros He. split.
  - intros path x. by rewrite <-(pathsOf_erase a'), He, pathsOf_erase.
  - by rewrite <-(depth_erase a'), He, depth_erase.
  - intros r. by rewrite <-(dataRefs_erase a'), He, dataRefs_erase.
Qed.

Lemma below_copy na a : ∀ a1, copyOf na a a1 → below a a1.
Proof.
  induction a as [c v|c ad v r IH|c d s|c l IH|c o i t IH|i] using arg_ind;
    intros [c1 v1|c1 ad1 v1 r1|c1 d1 s1|c1 l1|c1 o1 i1 t1|i1] Hc; try done.
  - simpl in Hc. destruct Hc as (_ & _ & -> & -> & Hp). destruct r as [p|], r1 as [p1|]; try done.
    destruct (below_ptr c ad v p p1 (IH p eq_refl p1 Hp)) as [H1 H2 H3]. split; [exact H1|exact H2|exact H3].
  - destruct Hc as (Hr & _). split; [done|done|]. intros r. unfold dataRefs. simpl. by rewrite Hr.
  - apply copyOf_group in Hc as (Hr & _ & Hl).
    assert (below (GroupArg c l) (GroupArg c l1)) as [H1 H2 H3].
    { apply below_group. left. eapply Forall2_impl_in; [exact Hl|]. intros x x1 Hx. by apply IH. }
    split; [|exact H2|exact H3]. intros path x. cbn [pathsOf]. rewrite Hr. apply H1.
  - simpl in Hc. destruct Hc as (Hr & _ & -> & -> & Ho).
    destruct (below_union c o o1 i t (IH o1 Ho)) as [H1 H2 H3].
    split; [|exact H2|exact H3]. intros path x. cbn [pathsOf]. rewrite Hr. apply H1.
Qed.

(** ** Calls *)

Definition pathsCall (c : Call) : list string :=
  concat (zip_with (λ a f, pathsOf ("" +:+ "-" +:+ fieldName f) a) (Args c) (sysArgs (Meta c))).
Definition depthCall (c : Call) : nat := max_list (depth <$> Args c).
Definition dataRefsCall (c : Call) : list Ref := concat (dataRefs <$> Args c).

Lemma elem_pathsCall c x :
  x ∈ pathsCall c ↔ ∃ j a f, Args c !! j = Some a ∧ sysArgs (Meta c) !! j = Some f ∧
    x ∈ pathsOf ("" +:+ "-" +:+ fieldName f) a.
Proof.
  unfold pathsCall. rewrite elem_of_concat. split.
  - intros (k & Hk & Hx). apply elem_of_lookup_zip_with in Hk as (j & a & f & -> & Ha & Hf). eauto 6.
  - intros (j & a & f & Ha & Hf & Hx). eexists. split; [|exact Hx]. apply elem_of_lookup_zip_with. eauto 6.
Qed.

Record belowCall (c c' : Call) : Prop := {
  bc_meta : Meta c' = Meta c;
  bc_paths x : x ∈ pathsCall c' → x ∈ pathsCall c;
  bc_depth : (depthCall c' ≤ depthCall c)%nat;
  bc_data r : r ∈ dataRefsCall c' → r ∈ dataRefsCall c
}.

Lemma belowCall_args c c' : Meta c' = Meta c → Forall2 below (Args c) (Args c') → belowCall c c'.
Proof.
  intros Hm Hl.
  assert (below (GroupArg (MkCommon 1 0 DirIn) (Args c)) (GroupArg (MkCommon 1 0 DirIn) (Args c'))) as [_ Hd Hr]
    by (apply below_group; by left).
  split; [done| | |].
  - intros x. rewrite !elem_pathsCall, Hm. intros (j & a' & f & Ha' & Hf & Hx).
    destruct (Forall2_lookup_r _ _ _ _ _ Hl Ha') as (a & Ha & Hb). exists j, a, f. split_and!; [done|done|].
    by apply (below_paths _ _ Hb).
  - cbn [depth] in Hd. unfold depthCall. lia.
  - intros r. unfold dataRefsCall. rewrite <-!(dataRefs_group (MkCommon 1 0 DirIn)). apply Hr.
Qed.

#[export] Instance belowCall_preorder : PreOrder belowCall.
Proof.
  split; [by intros a|]. intros a b c [Hm Hp Hd Hr] [Hm' Hp' Hd' Hr']. split; [congruence|eauto|lia|eauto].
Qed.

Lemma belowCall_same c c' : sameCall c c' → belowCall c c'.
Proof.
  intros [Hm _ Ha]. apply belowCall_args; [done|]. apply Forall2_same_length_lookup. split.
  - by rewrite <-(length_fmap erase (Args c')), Ha, length_fmap.
  - intros k a a' Hk Hk'. apply below_erase.
    assert ((erase <$> Args c') !! k = Some (erase a')) as H by (rewrite list_lookup_fmap, Hk'; done).
    rewrite Ha, list_lookup_fmap, Hk in H. by injection H.
Qed.

Lemma belowCall_copy na c c1 : copyOfCall na c c1 → belowCall c c1.
Proof.
  intros [Hm _ Ha _]. apply belowCall_args; [done|]. eapply Forall2_impl; [exact Ha|]. intros a a1. apply below_copy.
Qed.

(** How often the walk can start anew, and how deep it goes. *)
Definition pathSet (c : Call) : gset string := list_to_set (pathsCall c).
Definition weight (c : Call) : nat := (size (pathSet c) + depthCall c)%nat.

Lemma weight_below c c' : belowCall c c' → (weight c' ≤ weight c)%nat.
Proof.
  intros [_ Hp Hd _]. unfold weight. enough (size (pathSet c') ≤ size (pathSet c))%nat by lia.
  apply subseteq_size. intros x. unfold pathSet. rewrite !elem_of_list_to_set. apply Hp.
Qed.

(** Calls of a bounded weight that have no compressed buffers, unless they are not minimized. *)
Definition plainRef (r : Ref) : Prop :=
  ∀ tc desc, typeAt r = Ret (BufferType tc desc) → IsCompressed desc = false.

Record light (B : nat) (c : Call) : Prop := {
  light_weight : (weight c ≤ B)%nat;
  light_plain : NoMinimize (Attrs (Meta c)) = false → ∀ r, r ∈ dataRefsCall c → plainRef r
}.

Lemma light_below B c c' : belowCall c c' → light B c → light B c'.
Proof.
  intros Hb [Hw Hp]. split; [apply weight_below in Hb; lia|]. rewrite (bc_meta _ _ Hb). intros Hn r Hr.
  apply Hp; [done|]. by apply (bc_data _ _ Hb).
Qed.

#[export] Instance light_stable B : Stable (λ p _, Forall (light B) p).
Proof.
  assert (∀ p p', Forall2 belowCall p p' → Forall (light B) p → Forall (light B) p') as Hall.
  { intros p p' Hb Hp. apply Forall_lookup. intros k c' Hk. destruct (Forall2_lookup_r _ _ _ _ _ Hb Hk) as (c & Hc & Hcc).
    eapply light_below; [exact Hcc|]. by eapply Forall_lookup_1. }
  split; [done| | |].
  - intros p p' h Hs. apply Hall. eapply Forall2_impl; [exact Hs|]. intros c c'. apply belowCall_same.
  - intros p i h. apply Forall_delete.
  - intros na p p1 h h1 Hc _. apply Hall. eapply Forall2_impl; [exact Hc|]. intros c c1. apply belowCall_copy.
Qed.

End target.
End MinimizePaths.
