(* ===== verification/Conditions.v ===== *)
(** * Conditions: repairing conditional fields (prog/expr.go)

    [setDefaultConditions] replaces the stale unions of a call by default arguments until
    none is left.  The unions to replace are collected in a map first, and the map is then
    visited in any order: a union may be inside of another one that was replaced before it,
    so the code also changes arguments that are no longer part of the call.  The model keeps
    the list of the detached trees next to the arguments of the call. *)

From S2P Require Import Prelude Types Prog ExampleTarget ProgEdit Clone WellFormed Size Expr Validation Typing.
Import Types Prog ProgEdit Expr Validation Typing.

Module Conditions.

(** ** Arguments as objects *)

(** The tree in which the object [i] has the contents [x]. *)
Fixpoint setNode (i : positive) (x : Arg) (arg : Arg) : Arg :=
  if decide (argIdOf arg = i) then x
  else
    match arg with
    | PointerArg c a v r => PointerArg c a v (match r with Some p => Some (setNode i x p) | None => None end)
    | GroupArg c inner => GroupArg c (setNode i x <$> inner)
    | UnionArg c opt idx tr => UnionArg c (setNode i x opt) idx tr
    | ConstArg _ _ | DataArg _ _ _ | ResultArg _ => arg
    end.

Definition findNode (i : positive) (roots : list Arg) : option Arg :=
  find (λ a, bool_decide (argIdOf a = i)) (concat (nodes <$> roots)).

Section target.
Context (target : Target).

(** [replaceArg(old, new)] for a union that is somewhere in the trees [roots]. *)
Definition replaceIn (old : positive) (new : Arg) (roots : list Arg) (m : mem) : res (list Arg * mem) :=
  match findNode old roots with
  | Some a =>
    let! '(a1, m) := replaceArg target a new m in
    let gone := match a with UnionArg _ opt _ _ => [opt] | _ => [] end in
    Ret ((setNode old a1 <$> roots) ++ gone, m)
  | None => Panic "nil pointer dereference"
  end.

(** The order in which the map of replacements is visited. *)
Context (order : list (positive * Arg) → list (positive * Arg)).

(** The callback of [setDefaultConditions]. *)
Definition defaultOption (fuel : nat) (transientOnly : bool) (st : stale) (s : list (positive * Arg) * mem) :
    res (list (positive * Arg) * mem) :=
  let (replace, m) := s in
  if transientOnly && negb (staleTransient st) then Ret s
  else
    match staleArg st with
    | UnionArg c _ _ _ =>
      let! t := typeAt (typeRefs target) (aref c) in
      match t with
      | UnionType _ fields =>
        let! idx := index (okIndices st) 0 in
        let! field := index fields idx in
        let! tf := typeAt (typeRefs target) (fieldType field) in
        let! '(d, m) := DefaultArg target fuel tf (fieldDir field (adir c)) m in
        let! '(new, m) := MakeUnionArg t (adir c) d idx m in
        Ret (replace ++ [(aid c, new)], m)
      | _ => Ret s
      end
    | _ => Ret s
    end.

(** One round: the replacements and their application to the arguments of the call. *)
Definition collectDefaults (fuel : nat) (transientOnly : bool) (c : Call) (m : mem) :
    res (list (positive * Arg) * mem) :=
  forEachStaleUnion target (mHeap m) c (defaultOption fuel transientOnly) ([], m).

Definition applyDefaults (replace : list (positive * Arg)) (c : Call) (m : mem) : res (Call * mem) :=
  let! '(roots, m) :=
    for_list (λ '(old, new) '(roots, m), replaceIn old new roots m) (order replace) (Args c, m) in
  Ret (MkCall (Meta c) (take (length (Args c)) roots) (Ret_ c) (Props c) (Comment c), m).

Fixpoint setDefaultConditions (fuel : nat) (transientOnly : bool) (c : Call) (m : mem) : res (bool * Call * mem) :=
  match fuel with
  | O => OutOfFuel
  | S fuel =>
    let! '(replace, m) := collectDefaults fuel transientOnly c m in
    if decide (replace = []) then Ret (false, c, m)
    else
      let! '(c, m) := applyDefaults replace c m in
      let! '(_, c, m) := setDefaultConditions fuel transientOnly c m in
      Ret (true, c, m)
  end.

(** ** Calls without conditions *)

(** No option of a union has a condition. *)
Definition unconditional : Prop :=
  ∀ r tc fields f, typeAt (typeRefs target) r = Ret (UnionType tc fields) → f ∈ fields → Condition f = None.

(** Traversals that do not change their state. *)
Lemma foreach_still {S} h (f : Arg → ArgCtx → S → res (S * bool)) (s : S) a : ∀ ctx,
  (∀ x, x ∈ nodes a → (∃ z, Prog.Size target h x = Ret z) ∧ ∀ ctx, ∃ b, f x ctx s = Ret (s, b)) →
  foreachArgImpl target (λ _, h) f a ctx s = Ret s.
Proof.
  induction a as [c v|c ad v r IH|c d sz|c l IH|c o i t IH|i] using arg_ind; intros ctx Hx; cbn [foreachArgImpl];
    (match goal with |- context [f ?x ctx s] => destruct (proj2 (Hx x (list_elem_of_here _ _)) ctx) as [b ->] end);
    cbn [rbind]; (destruct b; [done|]); try done.
  - destruct r as [p|]; [|done]. apply IH; [done|]. intros x Hin. apply Hx. by apply list_elem_of_further.
  - destruct (proj1 (Hx (GroupArg c l) (list_elem_of_here _ _))) as [z Hz].
    destruct (Size_group_type target h c l z Hz) as [t ->]. cbn [rbind].
    match goal with |- context [for_list ?F l ?st] =>
      destruct (for_list_inv (λ _ st', st'.2 = s) F l st) as ([[? ?] s'] & -> & Hs') end; [done| |].
    + intros d x r [[k off] s1] Hl Hs1. simpl in Hs1. subst s1.
      assert (x ∈ l) as Hxl by (rewrite Hl; set_solver).
      assert (∀ y, y ∈ nodes x → y ∈ nodes (GroupArg c l)) as Hsub.
      { intros y Hy. cbn [nodes]. apply list_elem_of_further, elem_of_concat. exists (nodes x). split; [by apply list_elem_of_fmap_2|done]. }
      rewrite IH; [|done|]; [|intros y Hy; by apply Hx, Hsub]. cbn [rbind].
      destruct (proj1 (Hx x (Hsub x ltac:(destruct x; apply list_elem_of_here)))) as [zx ->]. cbn [rbind]. eauto.
    + simpl in Hs'. by subst.
  - apply IH. intros x Hin. apply Hx. by apply list_elem_of_further.
Qed.

Lemma typed_inner h a : ∀ typ dir, typed target h a typ dir → ∃ r, InnerArg target h a = Ret r.
Proof.
  induction a as [c v|c ad v r IH|c d s|c l IH|c o i t IH|i] using arg_ind; intros typ dir Ht;
    destruct (typed_shape _ _ _ _ _ Ht) as (r' & t' & dir' & _ & _ & Hat & Hs); cbn [InnerArg]; rewrite Hat; cbn [rbind];
    inversion Hs; subst; try by eauto.
  - destruct t'; try by eauto.
  - destruct r as [p|]; [|by eauto]. eapply IH; eauto.
Qed.

Lemma typed_save h a typ dir pm : typed target h a typ dir → ∃ pm', Size.saveToParentsMap target h a pm = Ret pm'.
Proof.
  intros Ht. destruct (typed_shape _ _ _ _ _ Ht) as (r' & t' & dir' & _ & _ & Hat & Hs). unfold Size.saveToParentsMap.
  rewrite Hat. cbn [rbind]. inversion Hs; subst; try by destruct t'; eauto.
  all: try by eauto.
  - destruct (for_list_inv (λ _ _, True) (λ field pm, let! i := InnerArg target h field in
      Ret (<[Size.keyOf i := GroupArg c l]> pm)) l pm) as (pm' & -> & _); [done| |cbn [rbind]; eauto].
    intros d x k q Hl _. assert (x ∈ l) as Hx by (rewrite Hl; set_solver). apply list_elem_of_lookup in Hx as [j Hj].
    destruct (Forall2_lookup_l _ _ _ _ _ ltac:(eassumption) Hj) as (f & _ & Hx).
    destruct (typed_inner h x _ _ Hx) as [r ->]. cbn [rbind]. eauto.
  - cbn [rbind]. destruct (typed_inner h opt _ _ ltac:(eassumption)) as [r ->]. cbn [rbind]. eauto.
Qed.

Lemma isConditional_none fields : (∀ f, f ∈ fields → Condition f = None) → fields ≠ [] → isConditional fields = Ret false.
Proof.
  intros Hc Hn. destruct fields as [|f fields]; [done|]. unfold isConditional, index. simpl. by rewrite Hc by apply list_elem_of_here.
Qed.

(** Without conditions no union is stale. *)
Lemma forEachStaleUnion_none {S} h c (cb : stale → S → res S) s0 :
  unconditional → typedCall target h c → sizedCall target h c → forEachStaleUnion target h c cb s0 = Ret s0.
Proof.
  intros Hun Ht Hsz.
  assert (∀ a x, a ∈ callArgs c → x ∈ nodes a → ∃ typ dir, typed target h x typ dir) as Hnodes.
  { intros a x Ha Hx. destruct Ht as [Hargs Hret]. unfold callArgs in Ha. apply elem_of_app in Ha as [Ha|Ha].
    - destruct (Ret_ c) as [i|]; [|by apply elem_of_nil in Ha]. simpl in Ha. apply list_elem_of_singleton in Ha as ->.
      destruct (sysRet (Meta c)); [|done]. by eapply typed_nodes.
    - apply list_elem_of_lookup in Ha as [j Hj]. destruct (Forall2_lookup_l _ _ _ _ _ Hargs Hj) as (f & _ & Hf). by eapply typed_nodes. }
  unfold forEachStaleUnion.
  assert (∃ pm, callParentsMap target h c = Ret pm) as [pm ->].
  { unfold callParentsMap. destruct (callVisits_nodes target h c Hsz) as (l & Hl & Hn).
    rewrite (foreach_callVisits target h c l Hl _ (λ x pm, Size.saveToParentsMap target h x.1 pm)).
    destruct (for_list_inv (λ _ _, True) (λ x pm, Size.saveToParentsMap target h x.1 pm) l ∅) as (pm & -> & _); [done| |eauto].
    intros d x r q Hd _. assert (x.1 ∈ concat (nodes <$> callArgs c)) as Hx by (rewrite <-Hn, Hd, fmap_app; set_solver).
    apply elem_of_concat in Hx as (k & Hk & Hx). apply list_elem_of_fmap in Hk as (a & -> & Ha).
    destruct (Hnodes a _ Ha Hx) as (typ & dir & Hty). destruct (typed_save h _ _ _ q Hty) as [q' ->]. eauto. }
  cbn [rbind].
  match goal with |- context [ForeachArg target _ ?F c ?st] => set (G := F) end.
  assert (∀ a, a ∈ callArgs c → ∀ ctx, foreachArgImpl target (λ _, h) G a ctx s0 = Ret s0) as Hall.
  { intros a Ha ctx. apply foreach_still. intros x Hx. split; [by eapply Hsz|]. intros ctx'.
    destruct (Hnodes a x Ha Hx) as (typ & dir & Hty). destruct (typed_shape _ _ _ _ _ Hty) as (r & t & dir' & Hr & Htr & _ & Hs).
    unfold G. rewrite Hr. cbn [rbind]. unfold isAnyPtrRef. rewrite Htr. cbn [rbind].
    match goal with |- context [if ?b then _ else _] => destruct b end; [eauto|].
    assert (staleUnion target h pm x = Ret None) as ->; [|cbn [rbind]; eauto].
    destruct x as [| | | |co o ix tr'|]; try done. cbn [argRef] in Hr. injection Hr as <-. unfold staleUnion. rewrite Htr. cbn [rbind].
    inversion Hs; subst. rewrite isConditional_none; [done|by intros f' Hf'; eapply Hun|].
    intros ->. by rewrite lookup_nil in *. }
  unfold ForeachArg. assert (match Ret_ c with Some i => foreachArgImpl target (λ _, h) G (ResultArg i) emptyCtx s0 | None => Ret s0 end
    = Ret s0) as ->.
  { destruct (Ret_ c) as [i|] eqn:E; [|done]. apply Hall. unfold callArgs. rewrite E. apply list_elem_of_here. }
  cbn [rbind]. destruct (for_list_inv (λ _ st, st = s0) (λ arg s, foreachArgImpl target (λ _, h) G arg
    (MkCtx (Args c) (sysArgs (Meta c)) None 0) s) (Args c) s0) as (s1 & Hs1 & ->); [done| |exact Hs1].
  intros d x r s1 Hd ->. exists s0. split; [|done]. apply Hall. unfold callArgs. rewrite Hd. set_solver.
Qed.

(** Without conditions there is nothing to repair. *)
Lemma setDefaultConditions_none fuel tr c m :
  unconditional → typedCall target (mHeap m) c → sizedCall target (mHeap m) c →
  setDefaultConditions (S fuel) tr c m = Ret (false, c, m).
Proof.
  intros Hun Ht Hsz. cbn [setDefaultConditions]. unfold collectDefaults. by rewrite forEachStaleUnion_none.
Qed.

End target.
End Conditions.
