(* ===== verification/Minimize.v ===== *)
(** * Minimize: minimization of programs (prog/minimization.go)

    [Minimize] simplifies a program as long as a predicate accepts the result.  Every attempt
    is made on a copy, [ctx.p], and accepting it makes the copy the current program: from then
    on the two are the same object, which the flag [shared] of the context says.  An argument
    of the call under work is known by its position; every change of the structure ends the
    walk over the arguments, so positions do not move under it.

    The predicate may answer differently each time, hence it is a function of the number of
    the attempt.  [neutralize] is the hook [Target.Neutralize]; [debugValidate] does nothing
    unless [Debug] was called. *)

From stdpp Require Import pretty.
From S2P Require Import Prelude Types Prog ExampleTarget ProgEdit Clone Size Expr Conditions ArgTree.
Import Types Prog ProgEdit Clone ArgTree.

Module Minimize.

Definition setArgs (args : list Arg) (c : Call) : Call := MkCall (Meta c) args (Ret_ c) (Props c) (Comment c).
Definition setProps (p : CallProps) (c : Call) : Call := MkCall (Meta c) (Args c) (Ret_ c) p (Comment c).

(** ** The context *)

(** [minimizeArgsCtx] with the heap and the number of attempts made so far; [old] is the
    program [*ctx.p0] as long as it is not [ctx.p] itself. *)
Record minimizeArgsCtx := MkMin {
  ctxP : list Call;
  ctxOld : list Call;
  shared : bool;
  triedPaths : gset string;
  ctxM : mem;
  runs : nat
}.

Definition ctxP0 (s : minimizeArgsCtx) : list Call := if shared s then ctxP s else ctxOld s.

Definition setP (p : list Call) (m : mem) (s : minimizeArgsCtx) : minimizeArgsCtx :=
  MkMin p (ctxOld s) (shared s) (triedPaths s) m (runs s).
Definition tried (path : string) (s : minimizeArgsCtx) : minimizeArgsCtx :=
  MkMin (ctxP s) (ctxOld s) (shared s) ({[path]} ∪ triedPaths s) (ctxM s) (runs s).
(** [*ctx.p0 = ctx.p] *)
Definition commit (s : minimizeArgsCtx) : minimizeArgsCtx :=
  MkMin (ctxP s) (ctxOld s) true (triedPaths s) (ctxM s) (runs s).

Section target.
Context (target : Target).
Context (neutralize : Call → mem → res (option string * Call * mem)).
Context (pred0 : nat → list Call → heap → Z → bool).
(** The order of the map of [setDefaultConditions]. *)
Context (order : list (positive * Arg) → list (positive * Arg)).

Notation typeAt := (typeAt (typeRefs target)).

(** [Prog.sanitizeFix] *)
Definition sanitizeFix (calls : list Call) (m : mem) : res (list Call * mem) :=
  for_list (λ c '(l, m),
    let! '(err, c, m) := neutralize c m in
    match err with Some e => Panic e | None => Ret (l ++ [c], m) end) calls ([], m).

(** The predicate of [Minimize]: the program is neutralized in place first. *)
Definition pred (p : list Call) (m : mem) (callIndex : Z) (n : nat) : res (bool * list Call * mem) :=
  let! '(p, m) := sanitizeFix p m in Ret (pred0 n p (mHeap m) callIndex, p, m).

(** ** Removing calls *)

Definition dropTail (p0 : list Call) (callIndex0 : Z) (m : mem) (n : nat) : res (list Call * mem * nat) :=
  if decide (0 ≤ callIndex0 ∧ callIndex0 + 2 < Z.of_nat (length p0)) then
    let! '(p, m) := Clone p0 m in
    let! '(p, m) := for_list (λ i '(p, m), RemoveCall target p i m)
      (reverse (seq (S (Z.to_nat callIndex0)) (length p0 - S (Z.to_nat callIndex0)))) (p, m) in
    let! '(ok, p, m) := pred p m callIndex0 n in
    Ret (if (ok : bool) then p else p0, m, S n)
  else Ret (p0, m, n).

(** One step of the loop of [removeCalls]. *)
Definition removeStep (i : nat) (s : list Call * Z * mem * nat) : res (list Call * Z * mem * nat) :=
  let '(p0, callIndex0, m, n) := s in
  if decide (Z.of_nat i = callIndex0) then Ret s
  else
    let callIndex := if decide (Z.of_nat i < callIndex0) then callIndex0 - 1 else callIndex0 in
    let! '(p, m) := Clone p0 m in
    let! '(p, m) := RemoveCall target p i m in
    let! '(ok, p, m) := pred p m callIndex n in
    if (ok : bool) then Ret (p, callIndex, m, S n) else Ret (p0, callIndex0, m, S n).

Definition removeCalls (p0 : list Call) (callIndex0 : Z) (m : mem) (n : nat) : res (list Call * Z * mem * nat) :=
  let! '(p0, m, n) := dropTail p0 callIndex0 m n in
  for_list removeStep (reverse (seq 0 (length p0))) (p0, callIndex0, m, n).

(** ** Call properties *)

#[export] Instance CallProps_eq_dec : EqDecision CallProps.
Proof. solve_decision. Defined.

Definition resetCallProps (p0 : list Call) (callIndex0 : Z) (m : mem) (n : nat) : res (list Call * mem * nat) :=
  let! '(p, m) := Clone p0 m in
  let anyDifferent := existsb (λ c, bool_decide (Props c ≠ noProps)) p in
  if anyDifferent then
    let! '(ok, p, m) := pred (setProps noProps <$> p) m callIndex0 n in
    Ret (if (ok : bool) then p else p0, m, S n)
  else Ret (p0, m, n).

(** One of the three attempts of [minimizeCallProps]. *)
Definition tryProps (cond : bool) (f : CallProps → CallProps) (callIndex : nat) (callIndex0 : Z)
    (s : list Call * mem * nat) : res (list Call * mem * nat) :=
  let '(p0, m, n) := s in
  if cond then
    let! '(p, m) := Clone p0 m in
    let! '(ok, p, m) := pred (alter (λ c, setProps (f (Props c)) c) callIndex p) m callIndex0 n in
    Ret (if (ok : bool) then p else p0, m, S n)
  else Ret s.

Definition minimizeCallProps (p0 : list Call) (callIndex : nat) (callIndex0 : Z) (m : mem) (n : nat) :
    res (list Call * mem * nat) :=
  let! c := index p0 (Z.of_nat callIndex) in
  let props := Props c in
  let! s := tryProps (bool_decide (0 < FailNth props))
    (λ p, MkProps 0 (Async p) (Rerun p)) callIndex callIndex0 (p0, m, n) in
  let! s := tryProps (Async props) (λ p, MkProps (FailNth p) false (Rerun p)) callIndex callIndex0 s in
  tryProps (bool_decide (0 < Rerun props)) (λ p, MkProps (FailNth p) (Async p) 0) callIndex callIndex0 s.

(** ** Arguments *)

Section args.
Context (ci : nat) (callIndex0 : Z) (crash : bool).

(** [ctx.call] *)
Definition curCall (s : minimizeArgsCtx) : res Call := index (ctxP s) (Z.of_nat ci).

Definition argAt (pos : list nat) (s : minimizeArgsCtx) : res Arg :=
  let! c := curCall s in
  match pos with
  | [] => Panic "nil pointer dereference"
  | j :: pos =>
    let! a := index (Args c) (Z.of_nat j) in
    match subArg pos a with Some a => Ret a | None => Panic "nil pointer dereference" end
  end.

Definition modArgs (f : list Arg → list Arg) (s : minimizeArgsCtx) : minimizeArgsCtx :=
  setP (alter (λ c, setArgs (f (Args c)) c) ci (ctxP s)) (ctxM s) s.

Definition setArg (pos : list nat) (x : Arg) (s : minimizeArgsCtx) : minimizeArgsCtx :=
  match pos with
  | [] => s
  | j :: pos => modArgs (alter (setSub pos x) j) s
  end.

Definition setMem (m : mem) (s : minimizeArgsCtx) : minimizeArgsCtx := setP (ctxP s) m s.

(** [ctx.target.assignSizesCall(ctx.call)] *)
Definition assignSizes (s : minimizeArgsCtx) : res minimizeArgsCtx :=
  let! c := curCall s in
  let! vs := Size.assignSizesCall target (mHeap (ctxM s)) c in
  Ret (modArgs (fmap (Size.setVals vs)) s).

(** [ctx.pred(ctx.p, ctx.callIndex0)] *)
Definition ask (s : minimizeArgsCtx) : res (bool * minimizeArgsCtx) :=
  let! '(ok, p, m) := pred (ctxP s) (ctxM s) callIndex0 (runs s) in
  Ret (ok, MkMin p (ctxOld s) (shared s) (triedPaths s) m (S (runs s))).

(** [if ctx.pred(...) { *ctx.p0 = ctx.p }] *)
Definition tryCommit (s : minimizeArgsCtx) : res minimizeArgsCtx :=
  let! '(ok, s) := ask s in Ret (if (ok : bool) then commit s else s).

Definition minimizeInt (fuel : nat) (arg : Arg) (t : Typ) (path : string) (s : minimizeArgsCtx) :
    res (bool * minimizeArgsCtx) :=
  if crash then Ret (false, s)
  else
    match arg with
    | ConstArg c v0 =>
      let! '(def, m) := DefaultArg target 1 t (adir c) (ctxM s) in
      match def with
      | ConstArg _ defVal =>
        if decide (v0 = defVal) then Ret (false, setMem m s)
        else
          let s := modArgs (fmap (Size.setVals {[aid c := defVal]})) (setMem m s) in
          let! call := curCall s in
          let! '(patched, call, m) := Conditions.setDefaultConditions target order fuel false call (ctxM s) in
          let s := setP (alter (λ _, call) ci (ctxP s)) m s in
          let! '(ok, s) := ask s in
          if (ok : bool) then Ret (true, tried path (commit s))
          else
            let s := modArgs (fmap (Size.setVals {[aid c := v0]})) s in
            Ret (patched, if (patched : bool) then tried path s else s)
      | _ => Panic "interface conversion: not a *ConstArg"
      end
    | _ => Panic "interface conversion: not a *ConstArg"
    end.

Definition minimizeResource (arg : Arg) (desc : ResourceDesc) (path : string) (s : minimizeArgsCtx) :
    res (bool * minimizeArgsCtx) :=
  if crash then Ret (false, s)
  else
    match arg with
    | ResultArg a =>
      let! o := deref (mHeap (ctxM s)) a in
      match rRes o with
      | None => Ret (false, s)
      | Some r0 =>
        let setRes (r : option positive) (v : Z) (s : minimizeArgsCtx) : res minimizeArgsCtx :=
          let m := ctxM s in
          let! o := deref (mHeap m) a in
          Ret (setMem (Mem (<[a := MkResult (rRef o) (rDir o) r (OpDiv o) (OpAdd o) v (uses o)]> (mHeap m))
            (mNext m)) s) in
        let! h := delUse r0 a (mHeap (ctxM s)) in
        let! v := Default desc in
        let! s := setRes None v (setMem (Mem h (mNext (ctxM s))) s) in
        let! '(ok, s) := ask s in
        let! s :=
          if (ok : bool) then Ret (commit s)
          else
            let! s := setRes (Some r0) 0 s in
            let! h := addUse r0 a (mHeap (ctxM s)) in
            Ret (setMem (Mem h (mNext (ctxM s))) s) in
        Ret (true, tried path s)
      end
    | _ => Panic "interface conversion: not a *ResultArg"
    end.

(** The data of the argument at a position. *)
Definition dataAt (pos : list nat) (s : minimizeArgsCtx) : res (list Z) :=
  let! a := argAt pos s in
  match a with DataArg _ d _ => Ret d | _ => Panic "interface conversion: not a *DataArg" end.

Definition setData (pos : list nat) (data : list Z) (s : minimizeArgsCtx) : res minimizeArgsCtx :=
  let! a := argAt pos s in
  match a with
  | DataArg c _ size => Ret (setArg pos (DataArg c data size) s)
  | _ => Panic "interface conversion: not a *DataArg"
  end.

(** [data[:n]] where the bytes of [full] after those of [data] are the rest of the array. *)
Definition reslice (data full : list Z) (n : Z) : res (list Z) :=
  let arr := data ++ drop (length data) full in
  if decide (0 ≤ n ≤ Z.of_nat (length arr)) then Ret (take (Z.to_nat n) arr) else Panic "slice bounds out of range".

(** The loop that shortens a blob; [full] is the data before the loop. *)
Fixpoint shrinkLoop (fuel : nat) (pos : list nat) (full : list Z) (minLen step : Z) (s : minimizeArgsCtx) :
    res minimizeArgsCtx :=
  match fuel with
  | O => OutOfFuel
  | S fuel =>
    let! data := dataAt pos s in
    let len := Z.of_nat (length data) in
    if decide (minLen < len ∧ 0 < step) then
      if decide (minLen ≤ len - step) then
        let! short := reslice data full (len - step) in
        let! s := setData pos short s in
        let! s := assignSizes s in
        let! '(ok, s) := ask s in
        if (ok : bool) then shrinkLoop fuel pos full minLen step s
        else
          let! data := dataAt pos s in
          let! long := reslice data full (Z.of_nat (length data) + step) in
          let! s := setData pos long s in
          let! s := assignSizes s in
          if crash then Ret s else shrinkLoop fuel pos full minLen (step `div` 2) s
      else if crash then Ret s
      else shrinkLoop fuel pos full minLen (step `div` 2) s
    else Ret s
  end.

(** [bytes.TrimRight(data, specialFileLenPad+"\x00")] *)
Definition trimPad (data : list Z) : list Z :=
  reverse ((fix go l := match l with
                        | b :: l' => if decide (b = 97 ∨ b = 0) then go l' else l
                        | [] => []
                        end) (reverse data)).

Definition minimizeBuffer (pos : list nat) (arg : Arg) (t : Typ) (desc : BufferDesc) (path : string)
    (s : minimizeArgsCtx) : res (bool * minimizeArgsCtx) :=
  let! dir := argDir (mHeap (ctxM s)) arg in
  if decide (dir = DirOut) then Ret (false, s)
  else if IsCompressed desc then Panic "minimizing `no_minimize` call"
  else
    match arg with
    | DataArg _ data _ =>
      match bufKind desc with
      | BufferBlobRand | BufferBlobRange =>
        let len0 := Z.of_nat (length data) in
        let minLen := wrapS 64 (bufRangeBegin desc) in
        let step := len0 - minLen in
        let! s := shrinkLoop (S (Z.to_nat (len0 + step))) pos data minLen step s in
        let! data1 := dataAt pos s in
        if decide (length data1 ≠ length data) then Ret (true, tried path (commit s)) else Ret (false, s)
      | BufferFilename =>
        if negb (Varlen t) then Ret (false, s)
        else
          let data1 := trimPad data ++ (if bufNoZ desc then [] else [0]) in
          let! s := setData pos data1 s in
          if decide (data1 = data) then Ret (false, s)
          else
            let! s := assignSizes s in
            let! s := tryCommit s in
            Ret (true, tried path s)
      | _ => Ret (false, s)
      end
    | _ => Panic "interface conversion: not a *DataArg"
    end.

Definition minimizePtr (rec : list nat → string → string → minimizeArgsCtx → res (bool * minimizeArgsCtx))
    (pos : list nat) (arg : Arg) (t : Typ) (path : string) (s : minimizeArgsCtx) : res (bool * minimizeArgsCtx) :=
  match arg with
  | PointerArg c _ _ None => Ret (false, s)
  | PointerArg c _ _ (Some p) =>
    let path1 := (path +:+ ">")%string in
    if decide (path1 ∉ triedPaths s) then
      let! m := removeArg target p (ctxM s) in
      let! '(new, m) := MakeSpecialPointerArg t (adir c) 0 m in
      let! '(a, m) := replaceArg target arg new m in
      let! s := assignSizes (setArg pos a (setMem m s)) in
      let! s := tryCommit s in
      Ret (true, tried path1 s)
    else rec (pos ++ [0%nat]) "" path s
  | _ => Panic "interface conversion: not a *PointerArg"
  end.

(** The loop over the elements of an array, the last one first; [n] elements are left. *)
Fixpoint arrayLoop (rec : list nat → string → string → minimizeArgsCtx → res (bool * minimizeArgsCtx))
    (pos : list nat) (kind : ArrayKind) (rangeBegin : Z) (path : string) (n : nat) (s : minimizeArgsCtx) :
    res (bool * minimizeArgsCtx) :=
  match n with
  | O => Ret (false, s)
  | S i =>
    let! a := argAt pos s in
    match a with
    | GroupArg c inner =>
      let! elem := index inner (Z.of_nat i) in
      let elemPath := (path +:+ "-" +:+ pretty i)%string in
      if negb crash && bool_decide (elemPath ∉ triedPaths s) &&
         (bool_decide (kind = ArrayRandLen) ||
          bool_decide (kind = ArrayRangeLen) && bool_decide (rangeBegin < Z.of_nat (length inner))) then
        let s := tried elemPath s in
        let s := setArg pos (GroupArg c (delete i inner)) s in
        let! m := removeArg target elem (ctxM s) in
        let! s := assignSizes (setMem m s) in
        let! s := tryCommit s in
        Ret (true, s)
      else
        let! '(again, s) := rec (pos ++ [i]) "" elemPath s in
        if (again : bool) then Ret (true, s)
        else arrayLoop rec pos kind rangeBegin path i s
    | _ => Panic "interface conversion: not a *GroupArg"
    end
  end.

(** The loop over the fields of a struct. *)
Fixpoint fieldLoop (rec : list nat → string → string → minimizeArgsCtx → res (bool * minimizeArgsCtx))
    (pos : list nat) (fields : list Field) (path : string) (js : list nat) (s : minimizeArgsCtx) :
    res (bool * minimizeArgsCtx) :=
  match js with
  | [] => Ret (false, s)
  | j :: js =>
    let! field := index fields (Z.of_nat j) in
    let! '(again, s) := rec (pos ++ [j]) (fieldName field) path s in
    if (again : bool) then Ret (true, s) else fieldLoop rec pos fields path js s
  end.

(** [arg.Type().minimize(ctx, arg, path)] *)
Definition minimize (fuel : nat) (rec : list nat → string → string → minimizeArgsCtx → res (bool * minimizeArgsCtx))
    (pos : list nat) (path : string) (s : minimizeArgsCtx) : res (bool * minimizeArgsCtx) :=
  let! arg := argAt pos s in
  let! t := argType target (mHeap (ctxM s)) arg in
  match t with
  | StructType _ fields _ _ =>
    match arg with
    | GroupArg _ inner => fieldLoop rec pos fields path (seq 0 (length inner)) s
    | _ => Panic "interface conversion: not a *GroupArg"
    end
  | UnionType _ fields =>
    match arg with
    | UnionArg _ _ idx _ =>
      let! field := index fields idx in
      rec (pos ++ [0%nat]) (fieldName field) path s
    | _ => Panic "interface conversion: not a *UnionArg"
    end
  | PtrType _ _ _ => minimizePtr rec pos arg t path s
  | ArrayType _ _ kind rangeBegin _ =>
    match arg with
    | GroupArg _ inner => arrayLoop rec pos kind rangeBegin path (length inner) s
    | _ => Panic "interface conversion: not a *GroupArg"
    end
  | IntType _ _ _ _ _ | FlagsType _ _ _ => minimizeInt fuel arg t path s
  | ProcType _ _ _ => if negb (Optional t) then Ret (false, s) else minimizeInt fuel arg t path s
  | ResourceType _ _ desc => minimizeResource arg desc path s
  | BufferType _ desc => minimizeBuffer pos arg t desc path s
  | ConstType _ _ _ | LenType _ _ _ _ | CsumType _ _ _ _ | VmaType _ _ _ => Ret (false, s)
  end.

Fixpoint do (fuel : nat) (pos : list nat) (field path : string) (s : minimizeArgsCtx) : res (bool * minimizeArgsCtx) :=
  match fuel with
  | O => OutOfFuel
  | S fuel =>
    let path := (path +:+ "-" +:+ field)%string in
    if decide (path ∈ triedPaths s) then Ret (false, s)
    else
      let! '(again, s1) := minimize fuel (do fuel) pos path s in
      if (again : bool) then Ret (true, s1)
      else if shared s1 then Panic "shared program committed"
      else if shared s then Panic "iterating over stale program"
      else Ret (false, tried path s1)
  end.

(** The loop over the arguments of the call. *)
Fixpoint argsLoop (fuel : nat) (fields : list Field) (j : nat) (s : minimizeArgsCtx) : res (bool * minimizeArgsCtx) :=
  match fields with
  | [] => Ret (false, s)
  | field :: fields =>
    let! c := curCall s in
    let! _ := index (Args c) (Z.of_nat j) in
    let! '(again, s) := do fuel [j] (fieldName field) "" s in
    if (again : bool) then Ret (true, s) else argsLoop fuel fields (S j) s
  end.

(** From the label [again] on. *)
Fixpoint minimizeCall (fuel : nat) (p0 : list Call) (paths : gset string) (m : mem) (n : nat) :
    res (list Call * mem * nat) :=
  match fuel with
  | O => OutOfFuel
  | S fuel =>
    let! '(p, m) := Clone p0 m in
    let s := MkMin p p0 false paths m n in
    let! c := curCall s in
    let! '(again, s) := argsLoop fuel (sysArgs (Meta c)) 0 s in
    if (again : bool) then minimizeCall fuel (ctxP0 s) (triedPaths s) (ctxM s) (runs s)
    else Ret (ctxP0 s, ctxM s, runs s)
  end.
End args.

(** [Minimize]; the number of calls does not change in the last loop. *)
Definition callName (p : list Call) (callIndex : Z) (why : string) : res string :=
  if decide (callIndex < 0 ∨ Z.of_nat (length p) ≤ callIndex) then Panic why
  else let! c := index p callIndex in Ret (sysName (Meta c)).

Definition minimizeStep (fuel : nat) (callIndex0 : Z) (crash : bool) (i : nat) (s : list Call * mem * nat) :
    res (list Call * mem * nat) :=
  let '(p0, m, n) := s in
  let! c := index p0 (Z.of_nat i) in
  if NoMinimize (Attrs (Meta c)) then Ret s
  else
    let! '(p0, m, n) := minimizeCall i callIndex0 crash fuel p0 ∅ m n in
    minimizeCallProps p0 i callIndex0 m n.

Definition Minimize (fuel : nat) (p0 : list Call) (callIndex0 : Z) (crash : bool) (m : mem) :
    res (list Call * Z * mem * nat) :=
  let! name0 := if decide (callIndex0 ≠ -1) then callName p0 callIndex0 "bad call index" else Ret "" in
  let! '(p0, callIndex0, m, n) := removeCalls p0 callIndex0 m 0 in
  let! '(p0, m, n) := resetCallProps p0 callIndex0 m n in
  let! '(p0, m, n) :=
    for_list (minimizeStep fuel callIndex0 crash) (seq 0 (length p0)) (p0, m, n) in
  if decide (callIndex0 ≠ -1) then
    let! name := callName p0 callIndex0 "bad call index after minimization" in
    if decide (name0 = name) then Ret (p0, callIndex0, m, n) else Panic "bad call index after minimization"
  else Ret (p0, callIndex0, m, n).

End target.
End Minimize.
