(* ===== verification/MinimizeCalls.v ===== *)
(** * MinimizeCalls: minimization keeps what the predicate accepted (prog/minimization.go)

    The attempts of [removeCalls], [resetCallProps] and [minimizeCallProps] are copies of the
    current program: they leave the heap of all the programs that were there before as it
    was, and the current program is always the given one or one that the predicate accepted. *)

From S2P Require Import Prelude Types Prog ExampleTarget ProgEdit Clone WellFormed Minimize.
Import Types Prog ProgEdit Clone WellFormed Minimize.

Module MinimizeCalls.

(** What the hooks [Target.Neutralize] promise: they succeed and change values in place, that
    is constants, addresses and bytes, of the arguments of a call. *)
Class Neutralizer (neutralize : Call → mem → res (option string * Call * mem)) : Prop := {
  neutralize_values c m : ∃ c', neutralize c m = Ret (None, c', m) ∧ sameCall c c'
}.

(** The hook of a target that does not install one. *)
Definition noNeutralize (c : Call) (m : mem) : res (option string * Call * mem) := Ret (None, c, m).

#[export] Instance noNeutralize_ok : Neutralizer noNeutralize.
Proof. split. intros c m. exists c. split; [done|reflexivity]. Qed.

(** ** Where calls come from *)

(** [p] consists of the calls [kept] of [P0], in their order, and its call [idx] is the call
    [I0] of [P0]; without a call of interest both are [-1]. *)
Definition tracks (P0 : list Call) (I0 : Z) (p : list Call) (idx : Z) : Prop :=
  ∃ kept, StronglySorted lt kept ∧ Forall2 (λ k c, Meta <$> P0 !! k = Some (Meta c)) kept p ∧
    (I0 = -1 ∧ idx = -1 ∨ 0 ≤ I0 ∧ 0 ≤ idx ∧ kept !! Z.to_nat idx = Some (Z.to_nat I0)).

Lemma sorted_delete l i : StronglySorted lt l → StronglySorted lt (delete i l).
Proof.
  intros Hs. revert i; induction Hs as [|x l Hs IH Hx]; intros [|i]; simpl; [constructor..|done|].
  constructor; [apply IH|]. by apply Forall_delete.
Qed.

Lemma sorted_seq n j : StronglySorted lt (seq j n).
Proof.
  revert j; induction n as [|n IH]; intros j; simpl; constructor; [apply IH|].
  apply Forall_forall. intros k Hk. apply elem_of_seq in Hk. lia.
Qed.

Lemma tracks_refl P0 I0 : -1 ≤ I0 < Z.of_nat (length P0) → tracks P0 I0 P0 I0.
Proof.
  intros HI. exists (seq 0 (length P0)). split_and!.
  - apply sorted_seq.
  - apply Forall2_same_length_lookup. split; [by rewrite length_seq|]. intros i k c Hk Hc.
    apply lookup_seq in Hk as [-> _]. simpl. by rewrite Hc.
  - destruct (decide (I0 = -1)); [by left|right]. split_and!; [lia|lia|]. apply lookup_seq. lia.
Qed.

(** The call of interest is a call of the program. *)
Lemma tracks_bound P0 I0 p idx : tracks P0 I0 p idx → idx = -1 ∨ 0 ≤ idx < Z.of_nat (length p).
Proof.
  intros (kept & _ & Hf & [[_ ->]|(_ & H0 & Hk)]); [by left|right].
  apply lookup_lt_Some in Hk. apply Forall2_length in Hf. lia.
Qed.

Lemma tracks_meta P0 I0 p p' idx : Meta <$> p' = Meta <$> p → tracks P0 I0 p idx → tracks P0 I0 p' idx.
Proof.
  intros Hm (kept & Hs & Hf & Hi). exists kept. split_and!; [done| |done].
  apply Forall2_same_length_lookup. apply Forall2_same_length_lookup in Hf as [Hlen Hf]. split.
  - rewrite Hlen, <-(length_fmap Meta p), <-Hm, length_fmap. done.
  - intros i k c' Hk Hc'. assert ((Meta <$> p) !! i = Some (Meta c')) as H by (rewrite <-Hm, list_lookup_fmap, Hc'; done).
    rewrite list_lookup_fmap in H. apply fmap_Some in H as (c & Hc & ->). by apply (Hf i).
Qed.

(** Removing another call. *)
Lemma tracks_delete P0 I0 p idx i :
  Z.of_nat i ≠ idx → tracks P0 I0 p idx →
  tracks P0 I0 (delete i p) (if decide (Z.of_nat i < idx) then idx - 1 else idx).
Proof.
  intros Hi (kept & Hs & Hf & Hidx). exists (delete i kept). split_and!.
  - by apply sorted_delete.
  - by apply Forall2_delete.
  - destruct Hidx as [[-> ->]|(H0 & H1 & Hk)]; [left; case_decide; lia|right]. case_decide as Hlt.
    + split_and!; [lia|lia|]. replace (Z.to_nat idx) with (S (Z.to_nat (idx - 1))) in Hk by lia.
      rewrite list_lookup_delete_ge; [done|lia].
    + split_and!; [lia|lia|]. rewrite list_lookup_delete_lt; [done|lia].
Qed.

Lemma sameCalls_meta p p' : Forall2 sameCall p p' → Meta <$> p' = Meta <$> p.
Proof. induction 1 as [|c c' l l' [Hm _ _] _ IH]; [done|]. rewrite !fmap_cons. by rewrite Hm, IH. Qed.

Lemma copies_meta na p p' : Forall2 (copyOfCall na) p p' → Meta <$> p' = Meta <$> p.
Proof. induction 1 as [|c c' l l' [Hm _ _] _ IH]; [done|]. rewrite !fmap_cons. by rewrite Hm, IH. Qed.

Section target.
Context (target : Target) (neutralize : Call → mem → res (option string * Call * mem)).
Context `{!Neutralizer neutralize}.
Context (pred0 : nat → list Call → heap → Z → bool).
(** A property of the given program that minimization keeps. *)
Context (J : list Call → heap → Prop) `{!Stable J}.

Notation good := (good target).
Notation pred := (pred neutralize pred0).

(** ** The predicate *)

Lemma sanitizeFix_spec p m : ∃ p', sanitizeFix neutralize p m = Ret (p', m) ∧ Forall2 sameCall p p'.
Proof.
  unfold sanitizeFix.
  destruct (for_list_inv (λ dn '(l, m1), m1 = m ∧ Forall2 sameCall dn l)
    (λ c '(l, m), let! '(err, c, m) := neutralize c m in
      match err with Some e => Panic e | None => Ret (l ++ [c], m) end) p ([], m)) as ([p' m1] & Hp & -> & Hs).
  - split; [done|constructor].
  - intros d c r [l m1] _ [-> Hl]. destruct (neutralize_values c m) as (c' & -> & Hc). cbn [rbind].
    eexists. split; [done|]. split; [done|]. apply Forall2_app; [done|by constructor].
  - eauto.
Qed.

Lemma pred_spec p m idx n :
  ∃ p', pred p m idx n = Ret (pred0 n p' (mHeap m) idx, p', m) ∧ Forall2 sameCall p p'.
Proof.
  unfold Minimize.pred. destruct (sanitizeFix_spec p m) as (p' & -> & Hs). simpl. eauto.
Qed.

(** ** The current program *)

(** [p] with the call [idx] was accepted at one of the first [n] attempts; its results still
    have the contents they had then. *)
Definition accepted (p : list Call) (idx : Z) (m : mem) (n : nat) : Prop :=
  ∃ k mk, (k < n)%nat ∧ pred0 k p (mHeap mk) idx = true ∧ agree p (mHeap mk) (mHeap m).

(** The program [p] reached from the given program [P0] in the heap of [m0]. *)
Record current (P0 : list Call) (I0 : Z) (m0 : mem) (p : list Call) (idx : Z) (m : mem) (n : nat) : Prop := {
  cur_good : good p m;
  cur_inv : J p (mHeap m);
  cur_heap : mHeap m0 ⊆ mHeap m;
  cur_tracks : tracks P0 I0 p idx;
  cur_accepted : p = P0 ∧ idx = I0 ∨ accepted p idx m n
}.

Lemma sub_refs (h h' : heap) : h ⊆ h' → sameRefs h h'.
Proof. intros Hsub i o Ho. exists o. split; [by eapply lookup_weaken|done]. Qed.

Section given.
Context (P0 : list Call) (I0 : Z) (m0 : mem).
Notation current := (current P0 I0 m0).

Lemma current_grow p idx m n m' n' :
  current p idx m n → mHeap m ⊆ mHeap m' → fresh m' → (n ≤ n')%nat → current p idx m' n'.
Proof.
  intros [Hg Hj Hh Ht Ha] Hsub Hf Hn. split; [| |by etrans|done|].
  - by eapply good_weaken.
  - eapply stable_refs; [by apply sub_refs|done].
  - destruct Ha as [?|(k & mk & Hk & Hp & Hag)]; [by left|right]. exists k, mk. split_and!; [lia|done|].
    etrans; [exact Hag|]. by eapply good_agree.
Qed.

(** An attempt with the program [p2], whose heap extends the one before. *)
Lemma attempt p idx m n p2 idx2 m2 :
  current p idx m n → good p2 m2 → J p2 (mHeap m2) → mHeap m ⊆ mHeap m2 → tracks P0 I0 p2 idx2 →
  ∃ b p3, pred p2 m2 idx2 n = Ret (b, p3, m2) ∧ length p3 = length p2 ∧
    if (b : bool) then current p3 idx2 m2 (S n) else current p idx m2 (S n).
Proof.
  intros Hc Hg2 Hj2 Hsub Ht2. destruct (pred_spec p2 m2 idx2 n) as (p3 & -> & Hs).
  eexists _, p3. split; [done|]. split; [symmetry; by eapply Forall2_length|].
  destruct (pred0 n p3 (mHeap m2) idx2) eqn:Hb.
  - split; [by eapply good_same|by eapply stable_same|etrans; [apply Hc|done]| |].
    + eapply tracks_meta; [by apply sameCalls_meta|done].
    + right. exists n, m2. split_and!; [lia|done|reflexivity].
  - eapply current_grow; [done|done|apply Hg2|lia].
Qed.

(** A copy of the current program, ready to be edited. *)
Lemma copy_current p idx m n :
  current p idx m n →
  ∃ p1 m1, Clone p m = Ret (p1, m1) ∧ good p1 m1 ∧ J p1 (mHeap m1) ∧ tracks P0 I0 p1 idx ∧ length p1 = length p ∧
    mHeap m ⊆ mHeap m1 ∧
    ∀ h2 : heap, (∀ i o, i ∉ progResults p1 → mHeap m1 !! i = Some o → h2 !! i = Some o) → mHeap m ⊆ h2.
Proof.
  intros [Hg Hj Hh Ht Ha].
  destruct (Clone_good target p m Hg) as (p1 & na & m1 & Hcl & Hg1 & Hcopy & Hsub & _ & Hnew & Hch).
  exists p1, m1. split_and!; [done|done|by eapply stable_copy| |by apply Forall2_length in Hcopy|done|].
  - eapply tracks_meta; [by eapply copies_meta|done].
  - intros h2 Hfr. eapply frame_subset; [done|done|apply Hg|done].
Qed.

(** ** Removing calls *)

Lemma removeStep_current i p idx m n :
  current p idx m n → (i < length p)%nat →
  ∃ p' idx' m' n', removeStep target neutralize pred0 i (p, idx, m, n) = Ret (p', idx', m', n') ∧
    current p' idx' m' n' ∧ (i ≤ length p')%nat ∧ (n ≤ n')%nat.
Proof.
  intros Hc Hi. unfold removeStep. case_decide as Hidx; [exists p, idx, m, n; split_and!; [done|done|lia|lia]|].
  destruct (copy_current p idx m n Hc) as (p1 & m1 & -> & Hg1 & Hj1 & Ht1 & Hlen & Hsub & Hfr). cbn [rbind].
  destruct (lookup_lt_is_Some_2 p1 i) as [c Hcl]; [lia|].
  destruct (RemoveCall_good target p1 i c m1 Hg1 Hcl) as (m2 & -> & Hg2 & Hfr2 & Hrf2). cbn [rbind].
  destruct (attempt p idx m n (delete i p1) (if decide (Z.of_nat i < idx) then idx - 1 else idx) m2)
    as (b & p3 & Hp & Hlen3 & Hb);
    [done|done|eapply stable_refs; [done|by apply stable_delete]|by apply Hfr|by apply tracks_delete|].
  pose proof (tracks_bound _ _ _ _ (cur_tracks _ _ _ _ _ _ _ Hc)).
  rewrite Hp. cbn [rbind]. destruct b.
  - eexists _, _, _, _. split_and!; [done|done| |lia].
    rewrite length_delete in Hlen3 by eauto. lia.
  - eexists _, _, _, _. split_and!; [done|done|lia|lia].
Qed.

Lemma removeLoop_current k p idx m n :
  current p idx m n → (k ≤ length p)%nat →
  ∃ p' idx' m' n', for_list (removeStep target neutralize pred0) (reverse (seq 0 k)) (p, idx, m, n)
    = Ret (p', idx', m', n') ∧ current p' idx' m' n' ∧ (n ≤ n')%nat.
Proof.
  revert p idx m n; induction k as [|k IH]; intros p idx m n Hc Hk; [exists p, idx, m, n; done|].
  rewrite seq_S, reverse_app. cbn [reverse app for_list].
  change (reverse [(0 + k)%nat]) with [k]. cbn [app for_list].
  destruct (removeStep_current k p idx m n Hc) as (p1 & idx1 & m1 & n1 & -> & Hc1 & Hk1 & Hn); [lia|].
  cbn [rbind]. destruct (IH p1 idx1 m1 n1 Hc1 Hk1) as (p2 & idx2 & m2 & n2 & -> & Hc2 & Hn2).
  exists p2, idx2, m2, n2. split_and!; [done|done|lia].
Qed.

(** Removing the calls after [j], the last one first. *)
Lemma removeTail j k p m :
  good p m → length p = (S j + k)%nat →
  ∃ p2 m2, for_list (λ i '(p, m), RemoveCall target p i m) (reverse (seq (S j) k)) (p, m) = Ret (p2, m2) ∧
    good p2 m2 ∧ p2 = take (S j) p ∧ (J p (mHeap m) → J p2 (mHeap m2)) ∧
    ∀ i o, i ∉ progResults p → mHeap m !! i = Some o → mHeap m2 !! i = Some o.
Proof.
  revert p m; induction k as [|k IH]; intros p m Hg Hlen.
  { exists p, m. split_and!; [done|done| |done|done]. symmetry. apply take_ge. lia. }
  rewrite seq_S, reverse_app. change (reverse [(S j + k)%nat]) with [(S j + k)%nat]. cbn [app for_list].
  destruct (lookup_lt_is_Some_2 p (S j + k)%nat) as [c Hc]; [lia|].
  destruct (RemoveCall_good target p _ c m Hg Hc) as (m1 & -> & Hg1 & Hfr1 & Hrf1). cbn [rbind].
  destruct (IH (delete (S j + k)%nat p) m1 Hg1) as (p2 & m2 & -> & Hg2 & -> & Hj2 & Hfr2).
  { rewrite length_delete by eauto. lia. }
  eexists _, _. split_and!; [done|done| | |].
  - rewrite delete_take_drop, take_app_le by (rewrite length_take; lia). rewrite take_take. f_equal. lia.
  - intros Hj. apply Hj2. eapply stable_refs; [exact Hrf1|]. by apply stable_delete.
  - intros i o Hi Ho. apply Hfr2; [|by apply Hfr1]. intros Hin. apply Hi. unfold progResults in *.
    rewrite (delete_Permutation p _ c Hc). rewrite fmap_cons. cbn [concat]. set_solver.
Qed.

Lemma tracks_take p idx j : tracks P0 I0 p idx → idx ≤ Z.of_nat j → tracks P0 I0 (take (S j) p) idx.
Proof.
  intros (kept & Hs & Hf & Hi) Hj. exists (take (S j) kept). split_and!.
  - clear -Hs. revert j; induction Hs as [|x l Hs IH Hx]; intros j; simpl; [constructor|].
    destruct j as [|j]; [repeat constructor|]. constructor; [apply IH|]. by apply Forall_take.
  - by apply Forall2_take.
  - destruct Hi as [?|(? & ? & Hk)]; [by left|right]. split_and!; [done|done|]. rewrite lookup_take_lt by lia. done.
Qed.

Lemma dropTail_current p idx m n :
  current p idx m n →
  ∃ p' m' n', dropTail target neutralize pred0 p idx m n = Ret (p', m', n') ∧ current p' idx m' n' ∧ (n ≤ n')%nat.
Proof.
  intros Hc. unfold dropTail. case_decide as Hd; [|exists p, m, n; done].
  destruct (copy_current p idx m n Hc) as (p1 & m1 & -> & Hg1 & Hj1 & Ht1 & Hlen & Hsub & Hfr). cbn [rbind].
  destruct (removeTail (Z.to_nat idx) (length p - S (Z.to_nat idx)) p1 m1) as (p2 & m2 & -> & Hg2 & -> & Hj2 & Hfr2);
    [done|lia|]. cbn [rbind].
  destruct (attempt p idx m n (take (S (Z.to_nat idx)) p1) idx m2) as (b & p3 & -> & _ & Hb);
    [done|done|by apply Hj2|by apply Hfr|apply tracks_take; [done|lia]|].
  cbn [rbind]. eexists _, _, _. split_and!; [done| |lia]. by destruct b.
Qed.

Lemma removeCalls_current p idx m n :
  current p idx m n →
  ∃ p' idx' m' n', removeCalls target neutralize pred0 p idx m n = Ret (p', idx', m', n') ∧
    current p' idx' m' n' ∧ (n ≤ n')%nat.
Proof.
  intros Hc. unfold removeCalls. destruct (dropTail_current p idx m n Hc) as (p1 & m1 & n1 & -> & Hc1 & Hn1).
  cbn [rbind]. destruct (removeLoop_current (length p1) p1 idx m1 n1 Hc1) as (p2 & idx2 & m2 & n2 & -> & Hc2 & Hn2);
    [lia|]. exists p2, idx2, m2, n2. split_and!; [done|done|lia].
Qed.

(** ** Call properties *)

(** An attempt on a copy with other properties. *)
Lemma attempt_props (f : nat → CallProps → CallProps) p idx m n p1 m1 :
  current p idx m n → Clone p m = Ret (p1, m1) →
  ∃ b p3, pred (imap (λ i c, setProps (f i (Props c)) c) p1) m1 idx n = Ret (b, p3, m1) ∧ length p3 = length p ∧
    current (if (b : bool) then p3 else p) idx m1 (S n).
Proof.
  intros Hc Hcl. destruct (copy_current p idx m n Hc) as (p1' & m1' & Hcl' & Hg1 & Hj1 & Ht1 & Hlen & Hsub & _).
  rewrite Hcl in Hcl'. injection Hcl' as <- <-.
  assert (Forall2 sameCall p1 (imap (λ i c, setProps (f i (Props c)) c) p1)) as Hs.
  { apply Forall2_same_length_lookup. split; [by rewrite length_imap|]. intros i c c' Hci Hci'.
    rewrite list_lookup_imap, Hci in Hci'. injection Hci' as <-. by split. }
  destruct (attempt p idx m n (imap (λ i c, setProps (f i (Props c)) c) p1) idx m1) as (b & p3 & -> & Hlen3 & Hb).
  - done.
  - by eapply good_same.
  - by eapply stable_same.
  - done.
  - eapply tracks_meta; [by apply sameCalls_meta|done].
  - rewrite length_imap in Hlen3. eexists _, _. split_and!; [done|lia|]. by destruct b.
Qed.

Lemma current_next p idx m n p1 m1 : current p idx m n → Clone p m = Ret (p1, m1) → current p idx m1 n.
Proof.
  intros Hc Hcl. destruct (copy_current p idx m n Hc) as (p1' & m1' & Hcl' & Hg1 & _ & _ & _ & Hsub & _).
  rewrite Hcl in Hcl'. injection Hcl' as <- <-. eapply current_grow; [done|done|apply Hg1|lia].
Qed.

Lemma resetCallProps_current p idx m n :
  current p idx m n →
  ∃ p' m' n', resetCallProps neutralize pred0 p idx m n = Ret (p', m', n') ∧ current p' idx m' n' ∧ (n ≤ n')%nat.
Proof.
  intros Hc. unfold resetCallProps. destruct (copy_current p idx m n Hc) as (p1 & m1 & Hcl & _).
  rewrite Hcl. cbn [rbind]. destruct (existsb _ _).
  - destruct (attempt_props (λ _ _, noProps) p idx m n p1 m1 Hc Hcl) as (b & p3 & Hp & Hl3 & Hb).
    replace (setProps noProps <$> p1) with (imap (λ (_ : nat) c, setProps noProps c) p1) by apply imap_const.
    rewrite Hp. cbn [rbind]. eexists _, _, _. split_and!; [done|done|lia].
  - eexists _, _, _. split_and!; [done| |lia]. by eapply current_next.
Qed.

Lemma alter_imap {A} (f : A → A) (j : nat) l : alter f j l = imap (λ i x, if decide (i = j) then f x else x) l.
Proof.
  apply list_eq. intros i. rewrite list_lookup_imap. destruct (decide (i = j)) as [->|Hne].
  - apply list_lookup_alter_eq.
  - rewrite list_lookup_alter_ne by done. by destruct (l !! i).
Qed.

Lemma tryProps_current cond f ci p idx m n :
  current p idx m n →
  ∃ p' m' n', tryProps neutralize pred0 cond f ci idx (p, m, n) = Ret (p', m', n') ∧ current p' idx m' n' ∧
    length p' = length p ∧ (n ≤ n')%nat.
Proof.
  intros Hc. unfold tryProps. destruct cond; [|exists p, m, n; done].
  destruct (copy_current p idx m n Hc) as (p1 & m1 & Hcl & _). rewrite Hcl. cbn [rbind].
  destruct (attempt_props (λ i ps, if decide (i = ci) then f ps else ps) p idx m n p1 m1 Hc Hcl) as (b & p3 & Hp & Hl3 & Hb).
  replace (alter (λ c, setProps (f (Props c)) c) ci p1)
    with (imap (λ i c, setProps (if decide (i = ci) then f (Props c) else Props c) c) p1).
  - rewrite Hp. cbn [rbind]. eexists _, _, _. split_and!; [done|done|by destruct b|lia].
  - rewrite alter_imap. apply imap_ext. intros i c _. case_decide; [done|]. by destruct c.
Qed.

Lemma minimizeCallProps_current ci p idx m n :
  current p idx m n → (ci < length p)%nat →
  ∃ p' m' n', minimizeCallProps neutralize pred0 p ci idx m n = Ret (p', m', n') ∧ current p' idx m' n' ∧
    length p' = length p ∧ (n ≤ n')%nat.
Proof.
  intros Hc Hci. unfold minimizeCallProps. destruct (lookup_lt_is_Some_2 p ci Hci) as [c Hcl].
  unfold index. rewrite decide_True by lia. rewrite Nat2Z.id, Hcl. cbn [rbind].
  destruct (tryProps_current (bool_decide (0 < FailNth (Props c))) (λ p, MkProps 0 (Async p) (Rerun p)) ci p idx m n Hc)
    as (p1 & m1 & n1 & -> & Hc1 & ? & ?). cbn [rbind].
  destruct (tryProps_current (Async (Props c)) (λ p, MkProps (FailNth p) false (Rerun p)) ci p1 idx m1 n1 Hc1)
    as (p2 & m2 & n2 & -> & Hc2 & ? & ?). cbn [rbind].
  destruct (tryProps_current (bool_decide (0 < Rerun (Props c))) (λ p, MkProps (FailNth p) (Async p) 0) ci p2 idx m2 n2 Hc2)
    as (p3 & m3 & n3 & -> & Hc3 & ? & ?).
  exists p3, m3, n3. split_and!; [done|done|congruence|lia].
Qed.

End given.

End target.
End MinimizeCalls.
