(* ===== verification/MinimizeArgs.v ===== *)
(** * MinimizeArgs: minimization of the arguments of a call (prog/minimization.go)

    The walk over the arguments of a call ends, and what it commits is exactly a program that
    the predicate accepted.  [walk] is the invariant of the copy under work as long as nothing
    was committed, [settled] what holds when the walk is to start anew. *)

From stdpp Require Import pretty.
From S2P Require Import Prelude Types Prog ExampleTarget ProgEdit Clone WellFormed Size.
From S2P Require Import SizeDom Expr Validation Typing ArgTree MinimizePaths Conditions Minimize MinimizeCalls.
Import Types Prog ProgEdit Clone WellFormed Validation Typing ArgTree MinimizePaths Minimize MinimizeCalls.

Module MinimizeArgs.

Lemma sanitizeFix_none calls m : sanitizeFix noNeutralize calls m = Ret (calls, m).
Proof.
  unfold sanitizeFix. destruct (for_list_inv (λ dn st, st = (dn, m)) (λ c '(l, m),
    let! '(err, c, m) := noNeutralize c m in
    match err with Some e => Panic e | None => Ret (l ++ [c], m) end) calls ([], m)) as (st & Hst & ->); [done| |exact Hst].
  intros d x r st _ ->. eexists. split; reflexivity.
Qed.

Section target.
Context (target : Target) (pred0 : nat → list Call → heap → Z → bool).
Context (order : list (positive * Arg) → list (positive * Arg)).
Notation typeAt := (typeAt (typeRefs target)).
Notation good := (good target).

(** What minimization relies on in the descriptions of the calls [metas]: types know their
    place in the table, no union has conditional options, the lower bound of the length of a
    blob is an [int] and that of a blob of fixed size is its size, and the sizes of well-typed
    calls can be assigned. *)
Record tables (metas : list Syscall) : Prop := {
  tb_self r t : typeAt r = Ret t → self (common t) = r;
  tb_cond : Conditions.unconditional target;
  tb_blob r tc desc : typeAt r = Ret (BufferType tc desc) →
    bufKind desc = BufferBlobRand ∨ bufKind desc = BufferBlobRange →
    0 ≤ bufRangeBegin desc < 2 ^ 63 ∧ (IsVarlen tc = false → bufRangeBegin desc = TypeSize tc);
  tb_sizes h c : Meta c ∈ metas → typedCall target h c → sizedCall target h c →
    ∃ vs, Size.assignSizesCall target h c = Ret vs
}.

(** Well-typed programs with calls of a bounded weight. *)
Definition J (B : nat) (p : list Call) (h : heap) : Prop :=
  Forall (typedCall target h) p ∧ Forall (light target B) p.

#[export] Instance J_stable B : Stable (J B).
Proof. apply stable_and; [apply typed_stable|apply light_stable]. Qed.

Section round.
Context (P0 : list Call) (I0 : Z) (m0 : mem) (B : nat).
Hypothesis Htb : tables (Meta <$> P0).
Notation current := (current target pred0 (J B) P0 I0 m0).
Context (p : list Call) (idx : Z) (mb : mem) (n0 : nat).
Hypothesis Hcur : current p idx mb n0.
Context (ci : nat) (crash : bool) (U : gset string).

(** A call whose arguments are minimized. *)
Definition workable (c : Call) : Prop :=
  NoMinimize (Attrs (Meta c)) = false ∧ ∀ x, x ∈ pathsCall target c → x ∈ U.

Hypothesis Hp : ∃ c, p !! ci = Some c ∧ workable c.

Record walk (s : minimizeArgsCtx) : Prop := {
  wk_base : mHeap mb ⊆ mHeap (ctxM s);
  wk_runs : (n0 ≤ runs s)%nat;
  wk_old : ctxOld s = p;
  wk_shared : shared s = false;
  wk_good : good (ctxP s) (ctxM s);
  wk_inv : J B (ctxP s) (mHeap (ctxM s));
  wk_tracks : tracks P0 I0 (ctxP s) idx;
  wk_new i : i ∈ progResults (ctxP s) → (mNext mb ≤ i)%positive;
  wk_len : length (ctxP s) = length p;
  wk_call : ∃ c, ctxP s !! ci = Some c ∧ workable c ∧ idsBelow (mNext (ctxM s)) c
}.

Definition settled (s : minimizeArgsCtx) : Prop :=
  current (ctxP0 s) idx (ctxM s) (runs s) ∧ length (ctxP0 s) = length p ∧ (n0 ≤ runs s)%nat ∧
  ∃ c, ctxP0 s !! ci = Some c ∧ workable c.

(** ** Committing and rejecting *)

Lemma settle_reject s :
  mHeap mb ⊆ mHeap (ctxM s) → fresh (ctxM s) → (n0 ≤ runs s)%nat → ctxOld s = p → shared s = false → settled s.
Proof.
  intros Hsub Hf Hn Ho Hs. unfold settled, ctxP0. rewrite Hs, Ho. split; [|split_and!; done].
  eapply current_grow; [apply _|exact Hcur|exact Hsub|exact Hf|exact Hn].
Qed.

Lemma settle_commit s : walk s → accepted pred0 (ctxP s) idx (ctxM s) (runs s) → settled (commit s).
Proof.
  intros [Hb Hn Ho Hs Hg Hj Ht Hnew Hlen (c & Hc & Hwk & _)] Ha. split; [|split_and!; [done|done|by exists c]]. split; [done|done| |done|by right].
  etrans; [apply Hcur|done].
Qed.

Definition bump (s : minimizeArgsCtx) : minimizeArgsCtx :=
  MkMin (ctxP s) (ctxOld s) (shared s) (triedPaths s) (ctxM s) (S (runs s)).

Lemma ask_eq s : ask noNeutralize pred0 idx s = Ret (pred0 (runs s) (ctxP s) (mHeap (ctxM s)) idx, bump s).
Proof. unfold ask, Minimize.pred. by rewrite sanitizeFix_none. Qed.

Lemma walk_bump s : walk s → walk (bump s).
Proof. intros [Hb Hn Ho Hs Hg Hj Ht Hnew Hlen Hc]. split; try done. simpl. lia. Qed.

Lemma walk_tried path s : walk s → walk (tried path s).
Proof. by intros [Hb Hn Ho Hs Hg Hj Ht Hnew Hlen Hc]. Qed.

Lemma accepted_ask s :
  pred0 (runs s) (ctxP s) (mHeap (ctxM s)) idx = true → accepted pred0 (ctxP s) idx (ctxM s) (S (runs s)).
Proof. intros H. exists (runs s), (ctxM s). split_and!; [lia|done|reflexivity]. Qed.

Lemma tryCommit_spec s :
  walk s → ∃ s', tryCommit noNeutralize pred0 idx s = Ret s' ∧ settled s' ∧ triedPaths s' = triedPaths s.
Proof.
  intros Hw. unfold tryCommit. rewrite ask_eq. cbn [rbind]. eexists. split; [reflexivity|].
  destruct (pred0 _ _ _ _) eqn:E.
  - split; [|done]. apply settle_commit; [by apply walk_bump|exact (accepted_ask s E)].
  - split; [|done]. apply walk_bump in Hw as [Hb Hn Ho Hs Hg Hj Ht Hnew Hlen Hc]. apply settle_reject; try done. apply Hg.
Qed.

(** ** The call under work *)

Lemma walk_call s : walk s →
  ∃ c, curCall ci s = Ret c ∧ ctxP s !! ci = Some c ∧ workable c ∧ typedCall target (mHeap (ctxM s)) c ∧
    sizedCall target (mHeap (ctxM s)) c ∧ light target B c ∧ Meta c ∈ Meta <$> P0 ∧ idsBelow (mNext (ctxM s)) c.
Proof.
  intros Hw. destruct (wk_call s Hw) as (c & Hc & Hwk & Hids). exists c. split_and!.
  - unfold curCall, index. rewrite decide_True by lia. by rewrite Nat2Z.id, Hc.
  - done.
  - done.
  - by eapply Forall_lookup_1; [apply (wk_inv s Hw)|].
  - intros a x Ha Hx. destruct (wk_good s Hw) as [[_ _ _ _ Hsz] _]. apply (Hsz c a x); [by eapply list_elem_of_lookup_2| |done].
    unfold callArgs in Ha. set_solver.
  - by eapply Forall_lookup_1; [apply (wk_inv s Hw)|].
  - destruct (wk_tracks s Hw) as (kept & _ & Hf & _). destruct (Forall2_lookup_r _ _ _ _ _ Hf Hc) as (k & _ & Hk).
    rewrite <-list_lookup_fmap in Hk. by eapply list_elem_of_lookup_2.
  - done.
Qed.

(** Changing values keeps the invariant. *)
Lemma walk_same s p' : walk s → Forall2 sameCall (ctxP s) p' → walk (setP p' (ctxM s) s).
Proof.
  intros [Hb Hn Ho Hs Hg Hj Ht Hnew Hlen Hc] Hsame. split; try done; cbn [ctxP setP ctxM].
  - by eapply good_same.
  - by eapply stable_same.
  - eapply tracks_meta; [by apply sameCalls_meta|done].
  - destruct (sameCalls_results _ _ Hsame) as [_ ->]. done.
  - by rewrite <-(Forall2_length _ _ _ Hsame).
  - destruct Hc as (c & Hc & [Hm Hpth] & Hids). destruct (Forall2_lookup_l _ _ _ _ _ Hsame Hc) as (c' & Hc' & Hcc).
    pose proof (belowCall_same target _ _ Hcc) as Hbc. exists c'. split; [done|].
    split; [split; [by rewrite (bc_meta _ _ _ Hbc)|intros x Hx; apply Hpth; by apply (bc_paths _ _ _ Hbc)]|].
    intros a' i Ha' Hi. destruct Hcc as [_ _ He]. apply list_elem_of_lookup in Ha' as [k Hk].
    assert ((erase <$> Args c) !! k = Some (erase a')) as Hk' by (rewrite <-He, list_lookup_fmap, Hk; done).
    rewrite list_lookup_fmap in Hk'. apply fmap_Some in Hk' as (a & Ha & Hea).
    apply (Hids a); [by eapply list_elem_of_lookup_2|]. by rewrite <-idsOf_erase, <-Hea, idsOf_erase.
Qed.

Lemma sameCall_alter (f : list Arg → list Arg) l :
  (∀ c, l !! ci = Some c → erase <$> f (Args c) = erase <$> Args c) →
  Forall2 sameCall l (alter (λ c, setArgs (f (Args c)) c) ci l).
Proof.
  intros Hf. apply Forall2_same_length_lookup. split; [by rewrite length_alter|]. intros k c c' Hc Hc'.
  destruct (decide (ci = k)) as [<-|].
  - rewrite list_lookup_alter_eq, Hc in Hc'. injection Hc' as <-. split; [done|done|]. by apply Hf.
  - rewrite list_lookup_alter_ne, Hc in Hc' by done. injection Hc' as <-. reflexivity.
Qed.

Lemma erase_setVals_all vs (args : list Arg) : erase <$> (Size.setVals vs <$> args) = erase <$> args.
Proof. rewrite <-list_fmap_compose. apply list_fmap_ext. intros _ a _. apply erase_setVals. Qed.

Lemma walk_vals s vs :
  walk s → walk (modArgs ci (fmap (Size.setVals vs)) s) ∧
    Forall2 sameCall (ctxP s) (ctxP (modArgs ci (fmap (Size.setVals vs)) s)).
Proof.
  intros Hw. assert (Forall2 sameCall (ctxP s) (ctxP (modArgs ci (fmap (Size.setVals vs)) s))) as Hs.
  { apply (sameCall_alter (fmap (Size.setVals vs))). intros c _. apply erase_setVals_all. }
  split; [|done]. by apply walk_same.
Qed.

Lemma assignSizes_spec s : walk s →
  ∃ vs c, ctxP s !! ci = Some c ∧ Size.assignSizesCall target (mHeap (ctxM s)) c = Ret vs ∧
    assignSizes target ci s = Ret (modArgs ci (fmap (Size.setVals vs)) s).
Proof.
  intros Hw. destruct (walk_call s Hw) as (c & Hcc & Hc & _ & Hty & Hsz & _ & Hm & _).
  destruct (tb_sizes _ Htb (mHeap (ctxM s)) c Hm Hty Hsz) as [vs Hvs]. exists vs, c. split_and!; [done|done|].
  unfold assignSizes. rewrite Hcc. cbn [rbind]. by rewrite Hvs.
Qed.

(** ** Positions *)

Lemma alter_insert {A} (f : A → A) i (l : list A) x : l !! i = Some x → alter f i l = <[i := f x]> l.
Proof.
  intros Hx. apply list_eq. intros k. destruct (decide (i = k)) as [<-|].
  - rewrite list_lookup_alter_eq, Hx, list_lookup_insert_eq; [done|by eapply lookup_lt_Some].
  - by rewrite list_lookup_alter_ne, list_lookup_insert_ne.
Qed.

Lemma subArg_app pos i a : subArg (pos ++ [i]) a = subArg pos a ≫= λ x, child x i.
Proof.
  revert a; induction pos as [|j pos IH]; intros a; cbn [app subArg]; [simpl; by destruct (child a i)|].
  destruct (child a j); [apply IH|done].
Qed.

Lemma argAt_inv s pos a : argAt ci pos s = Ret a →
  ∃ j pos' b c, pos = j :: pos' ∧ ctxP s !! ci = Some c ∧ Args c !! j = Some b ∧ subArg pos' b = Some a.
Proof.
  unfold argAt, curCall, index. rewrite decide_True by lia. rewrite Nat2Z.id.
  destruct (ctxP s !! ci) as [c|]; [|done]. cbn [rbind]. destruct pos as [|j pos]; [done|].
  rewrite decide_True by lia. rewrite Nat2Z.id. destruct (Args c !! j) as [b|] eqn:E; [|done]. cbn [rbind].
  destruct (subArg pos b) eqn:Es; [|done]. intros [= ->]. exists j, pos, b, c. done.
Qed.

Lemma argAt_intro s j pos b c a :
  ctxP s !! ci = Some c → Args c !! j = Some b → subArg pos b = Some a → argAt ci (j :: pos) s = Ret a.
Proof.
  intros Hc Hb Hs. unfold argAt, curCall, index. rewrite decide_True by lia. rewrite Nat2Z.id, Hc. cbn [rbind].
  rewrite decide_True by lia. rewrite Nat2Z.id, Hb. cbn [rbind]. by rewrite Hs.
Qed.

Lemma argAt_child s pos a i x : argAt ci pos s = Ret a → child a i = Some x → argAt ci (pos ++ [i]) s = Ret x.
Proof.
  intros Ha Hx. apply argAt_inv in Ha as (j & pos' & b & c & -> & Hc & Hb & Hs).
  apply (argAt_intro _ _ _ b c); [done|done|]. by rewrite subArg_app, Hs.
Qed.

(** The same position after values were changed. *)
Lemma argAt_same s s' pos a :
  Forall2 sameCall (ctxP s) (ctxP s') → argAt ci pos s = Ret a →
  ∃ a', argAt ci pos s' = Ret a' ∧ erase a' = erase a.
Proof.
  intros Hs Ha. apply argAt_inv in Ha as (j & pos' & b & c & -> & Hc & Hb & Hsub).
  destruct (Forall2_lookup_l _ _ _ _ _ Hs Hc) as (c' & Hc' & [_ _ He]).
  assert ((erase <$> Args c') !! j = Some (erase b)) as Hb' by (rewrite He, list_lookup_fmap, Hb; done).
  rewrite list_lookup_fmap in Hb'. apply fmap_Some in Hb' as (b' & Hb' & Heb).
  pose proof (nodewise_subArg erase pos' b) as H1. rewrite Hsub, Heb, (nodewise_subArg erase) in H1.
  symmetry in H1. destruct (subArg pos' b') as [a'|] eqn:E; [|done]. injection H1 as H1.
  exists a'. split; [|done]. by eapply argAt_intro.
Qed.

Lemma walk_arg s pos a : walk s → argAt ci pos s = Ret a →
  (∃ typ dir, typed target (mHeap (ctxM s)) a typ dir) ∧ sized target (mHeap (ctxM s)) a ∧
  NoDup (results a) ∧ (∀ i, i ∈ results a → i ∈ progResults (ctxP s)) ∧
  (∀ r, r ∈ dataRefs a → plainRef target r) ∧ (∀ i, i ∈ idsOf a → (i < mNext (ctxM s))%positive).
Proof.
  intros Hw Ha. destruct (walk_call s Hw) as (c & _ & Hc & [Hmin _] & Hty & Hsz & Hli & _ & Hids).
  apply argAt_inv in Ha as (j & pos' & b & c' & -> & Hc' & Hb & Hs). assert (c' = c) as -> by congruence.
  destruct (results_sub _ _ _ Hs) as (pre & post & Hr & _).
  assert (progResults (ctxP s) ≡ₚ callResults c ++ progResults (delete ci (ctxP s))) as Hperm.
  { unfold progResults. rewrite (delete_Permutation (ctxP s) ci c Hc) at 1. done. }
  assert (callResults c ≡ₚ results b ++ concat (results <$> delete j (Args c)) ++ option_list (Ret_ c)) as Hperm2.
  { unfold callResults. rewrite (delete_Permutation (Args c) j b Hb) at 1. rewrite fmap_cons. cbn [concat]. by rewrite <-app_assoc. }
  assert (∀ x, x ∈ nodes a → x ∈ nodes b) as Hnodes.
  { clear -Hs. revert b Hs; induction pos' as [|i pos' IH]; intros b Hs x Hx; [by injection Hs as ->|].
    cbn [subArg] in Hs. destruct (child b i) as [y|] eqn:E; [|done]. specialize (IH y Hs x Hx).
    destruct b as [| k ad v [q|] | | k l | k o ix t |]; cbn [child] in E; try done; cbn [nodes].
    - case_decide; [|done]. injection E as <-. by apply list_elem_of_further.
    - apply list_elem_of_further, elem_of_concat. exists (nodes y). split; [|done].
      apply list_elem_of_fmap_2. by eapply list_elem_of_lookup_2.
    - case_decide; [|done]. injection E as <-. by apply list_elem_of_further. }
  split_and!.
  - destruct Hty as [Hargs _]. destruct (Forall2_lookup_l _ _ _ _ _ Hargs Hb) as (f & _ & Hf). by eapply typed_sub.
  - eapply sized_sub; [exact Hs|]. intros x Hx. apply (Hsz b x); [|done]. unfold callArgs.
    apply elem_of_app. right. by eapply list_elem_of_lookup_2.
  - destruct (wk_good s Hw) as [[Hnd _ _ _ _] _]. rewrite Hperm, Hperm2, Hr in Hnd.
    apply NoDup_app in Hnd as (Hnd & _). apply NoDup_app in Hnd as (Hnd & _). apply NoDup_app in Hnd as (_ & _ & Hnd).
    by apply NoDup_app in Hnd as (Hnd & _).
  - intros i Hi. rewrite Hperm, Hperm2, Hr. set_solver.
  - intros r Hr'. apply (light_plain _ _ _ Hli); [done|]. unfold dataRefsCall. apply elem_of_concat.
    exists (dataRefs b). split; [apply list_elem_of_fmap_2; by eapply list_elem_of_lookup_2|].
    unfold dataRefs in *. apply list_elem_of_omap in Hr' as (x & Hx & Hxr). apply list_elem_of_omap. eauto.
  - intros i Hi. apply (Hids b); [by eapply list_elem_of_lookup_2|by eapply idsOf_sub].
Qed.

(** ** Edits *)

Lemma walk_edit s pos old new m' A R C :
  walk s → argAt ci pos s = Ret old → results old = A ++ R ++ C → results new = A ++ C →
  unlinked (list_to_set (progResults (ctxP s))) (list_to_set R) (mHeap (ctxM s)) (mHeap m') → fresh m' →
  sized target (mHeap (ctxM s)) new →
  (∀ typ dir, typed target (mHeap (ctxM s)) old typ dir → typed target (mHeap (ctxM s)) new typ dir) →
  below target old new → (mNext (ctxM s) ≤ mNext m')%positive → (∀ i, i ∈ idsOf new → i ∈ idsOf old) →
  walk (setArg ci pos new (setMem m' s)).
Proof.
  intros Hw Ha Hro Hrn Hun Hf Hszn Htyn Hbel Hnx Hidn.
  destruct (walk_call s Hw) as (c & _ & Hc & [Hmin Hpth] & Hty & Hsz & Hli & _ & Hids).
  pose proof Ha as Ha'. apply argAt_inv in Ha' as (j & pos' & b & c' & -> & Hc' & Hb & Hs). assert (c' = c) as -> by congruence.
  set (args' := <[j := setSub pos' new b]> (Args c)). set (c1 := setArgs args' c).
  assert (setArg ci (j :: pos') new (setMem m' s) = setP (<[ci := c1]> (ctxP s)) m' s) as ->.
  { unfold setArg, modArgs, setMem. cbn [ctxP setP ctxM]. unfold setP. cbn. f_equal.
    rewrite (alter_insert _ _ _ c Hc). unfold c1, args'. by rewrite (alter_insert _ _ _ b Hb). }
  destruct (results_sub _ _ _ Hs) as (pre & post & Hr1 & Hr2).
  assert (j < length (Args c))%nat as Hj by (by eapply lookup_lt_Some).
  assert (belowCall target c c1) as Hbc.
  { apply belowCall_args; [done|]. cbn [c1 setArgs Args]. unfold args'. apply Forall2_same_length_lookup.
    split; [by rewrite length_insert|]. intros k x x' Hx Hx'. apply list_lookup_insert_Some in Hx' as [(<- & <- & _)|[_ Hx']].
    - assert (x = b) as -> by congruence. by eapply below_setSub.
    - assert (x' = x) as -> by congruence. reflexivity. }
  destruct Hun as [HL Hrf Heff Hfr].
  assert (good (<[ci := c1]> (ctxP s)) m' ∧ ∀ i, i ∈ progResults (<[ci := c1]> (ctxP s)) → i ∈ progResults (ctxP s)) as [Hg1 Hres1].
  { eapply (good_edit target (ctxP s) (ctxM s) ci c c1 m'
      (option_list (Ret_ c) ++ concat (results <$> take j (Args c)) ++ pre ++ A) R
      (C ++ post ++ concat (results <$> drop (S j) (Args c)))); [apply Hw|done| | |done|done|].
    - unfold cloneOrder. rewrite <-(take_drop_middle (Args c) j b Hb) at 1. rewrite fmap_app, fmap_cons, concat_app.
      cbn [concat]. rewrite Hr1, Hro, <-!app_assoc. done.
    - unfold cloneOrder. cbn [c1 setArgs Args Ret_]. unfold args'. rewrite insert_take_drop by done.
      rewrite fmap_app, fmap_cons, concat_app. cbn [concat]. rewrite Hr2, Hrn, <-!app_assoc. done.
    - intros a x Hax Hx. unfold callArgs in Hax. cbn [c1 setArgs Args Ret_] in Hax. apply elem_of_app in Hax as [Hax|Hax].
      + apply (Hsz a x); [|done]. unfold callArgs. apply elem_of_app. by left.
      + apply list_elem_of_lookup in Hax as [k Hk]. apply list_lookup_insert_Some in Hk as [(<- & <- & _)|[_ Hk]].
        * assert (sized target (mHeap (ctxM s)) (setSub pos' new b)) as Hsn; [|by apply Hsn].
          eapply sized_setSub; [done| |done]. intros y Hy. apply (Hsz b y); [|done]. unfold callArgs.
          apply elem_of_app. right. by eapply list_elem_of_lookup_2.
        * apply (Hsz a x); [|done]. unfold callArgs. apply elem_of_app. right. by eapply list_elem_of_lookup_2. }
  destruct Hw as [Hb' Hn Ho Hsh Hg [Hjt Hjl] Ht Hnew Hlen _]. split; try done; cbn [ctxP setP ctxM].
  - eapply (frame_subset (ctxP s)); [exact Hb'|exact Hnew|apply Hcur|]. intros i o Hi. apply Hfr. by rewrite elem_of_list_to_set.
  - split; [|apply Forall_insert; [done|by eapply light_below]].
    assert (Forall (typedCall target (mHeap (ctxM s))) (<[ci := c1]> (ctxP s))) as Hjt'.
    { apply Forall_insert; [done|]. destruct Hty as [Hargs Hret]. split; [|done]. cbn [c1 setArgs Args Meta]. unfold args'.
      apply Forall2_same_length_lookup. split; [rewrite length_insert; by eapply Forall2_length|].
      intros k x f Hx Hf'. apply list_lookup_insert_Some in Hx as [(<- & <- & _)|[_ Hx]].
      - eapply typed_setSub; [exact Hs|exact Htyn|]. exact (Forall2_lookup_lr _ _ _ _ _ _ Hargs Hb Hf').
      - exact (Forall2_lookup_lr _ _ _ _ _ _ Hargs Hx Hf'). }
    exact (stable_refs (J := λ p h, Forall (typedCall target h) p) _ _ _ Hrf Hjt').
  - eapply tracks_meta; [|exact Ht]. rewrite list_fmap_insert. change (Meta c1) with (Meta c).
    apply list_insert_id. by rewrite list_lookup_fmap, Hc.
  - intros i Hi. by apply Hnew, Hres1.
  - by rewrite length_insert.
  - exists c1. split; [apply list_lookup_insert_eq; by eapply lookup_lt_Some|].
    split; [split; [done|intros x Hx; apply Hpth; by apply (bc_paths _ _ _ Hbc)]|].
    intros a i Hax Hi. enough (i < mNext (ctxM s))%positive by lia. cbn [c1 setArgs Args] in Hax.
    apply list_elem_of_lookup in Hax as [k Hk]. apply list_lookup_insert_Some in Hk as [(<- & <- & _)|[_ Hk]].
    + apply (Hids b); [by eapply list_elem_of_lookup_2|]. apply idsOf_setSub in Hi as [Hi|Hi]; [done|].
      eapply idsOf_sub; [exact Hs|]. by apply Hidn.
    + apply (Hids a); [by eapply list_elem_of_lookup_2|done].
Qed.

(** Allocating without touching the heap. *)
Lemma walk_mem s n' : walk s → (mNext (ctxM s) ≤ n')%positive → walk (setMem (Mem (mHeap (ctxM s)) n') s).
Proof.
  intros [Hb Hn Ho Hs Hg Hj Ht Hnew Hlen (c & Hc & Hwk & Hids)] Hle. split; try done.
  - eapply good_weaken; [exact Hg|done|]. intros i o Hi. apply (wp_fresh _ _ _ (good_wf _ _ _ Hg)) in Hi. simpl. lia.
  - exists c. split_and!; [done|done|]. intros a i Ha Hi. specialize (Hids a i Ha Hi). simpl. lia.
Qed.

(** Removing the argument [q] from the argument [old]. *)
Lemma walk_remove s pos old new q A C :
  walk s → argAt ci pos s = Ret old → results old = A ++ results q ++ C → results new = A ++ C →
  sized target (mHeap (ctxM s)) q → sized target (mHeap (ctxM s)) new →
  (∀ typ dir, typed target (mHeap (ctxM s)) old typ dir → typed target (mHeap (ctxM s)) new typ dir) →
  below target old new → (∀ i, i ∈ idsOf new → i ∈ idsOf old) →
  ∃ m', removeArg target q (ctxM s) = Ret m' ∧ (mNext (ctxM s) ≤ mNext m')%positive ∧
    walk (setArg ci pos new (setMem m' s)).
Proof.
  intros Hw Ha Hro Hrn Hszq Hszn Htyn Hbel Hids. destruct (walk_arg s pos old Hw Ha) as (_ & _ & Hnd & Hin & _).
  destruct (wk_good s Hw) as [[Hnd0 HL Hht Hf Hsz] _].
  destruct (removeArg_spec target (list_to_set (progResults (ctxP s))) (ctxM s) q) as (m' & Hm' & Hf' & Hnx & Hun);
    [done|done|done| | |done|].
  - rewrite Hro in Hnd. apply NoDup_app in Hnd as (_ & _ & Hnd). by apply NoDup_app in Hnd as (Hnd & _).
  - intros i Hi. rewrite elem_of_list_to_set. apply Hin. rewrite Hro. set_solver.
  - exists m'. split_and!; [done|done|]. by eapply walk_edit.
Qed.

(** ** Outcomes *)

(** What a step of the walk leaves behind: either it ended the walk, having tried something
    new, or only values have changed. *)
Definition outcome (s : minimizeArgsCtx) (b : bool) (s' : minimizeArgsCtx) : Prop :=
  triedPaths s ⊆ triedPaths s' ∧
  if b then settled s' ∧ ∃ x, x ∈ U ∧ x ∉ triedPaths s ∧ x ∈ triedPaths s'
  else walk s' ∧ Forall2 sameCall (ctxP s) (ctxP s').

Definition yields (m : res (bool * minimizeArgsCtx)) (s : minimizeArgsCtx) : Prop :=
  ∃ b s', m = Ret (b, s') ∧ outcome s b s'.

Lemma yields_false s s' : walk s' → triedPaths s' = triedPaths s → Forall2 sameCall (ctxP s) (ctxP s') → yields (Ret (false, s')) s.
Proof. intros Hw Ht Hs. exists false, s'. split; [done|]. split; [by rewrite Ht|done]. Qed.

Lemma sameCalls_refl (l : list Call) : Forall2 sameCall l l.
Proof. induction l; constructor; [reflexivity|done]. Qed.

Lemma sameCalls_trans (l1 l2 l3 : list Call) : Forall2 sameCall l1 l2 → Forall2 sameCall l2 l3 → Forall2 sameCall l1 l3.
Proof.
  intros H. revert l3; induction H as [|c1 c2 l1 l2 Hc _ IH]; intros l3 H2; inversion H2; subst; constructor; [by etrans|by apply IH].
Qed.

Lemma yields_stay s : walk s → yields (Ret (false, s)) s.
Proof. intros Hw. apply yields_false; [done|done|apply sameCalls_refl]. Qed.

(** The walk ends after trying the path [x]. *)
Lemma yields_true s s' x :
  settled s' → x ∈ U → x ∉ triedPaths s → triedPaths s ⊆ triedPaths s' → x ∈ triedPaths s' → yields (Ret (true, s')) s.
Proof. intros. exists true, s'. split; [done|]. split; [done|]. split; [done|]. eauto. Qed.

(** An outcome of a later state of the same walk. *)
Lemma yields_later m s s1 :
  Forall2 sameCall (ctxP s) (ctxP s1) → triedPaths s ⊆ triedPaths s1 → yields m s1 → yields m s.
Proof.
  intros Hs Ht (b & s' & -> & Ht' & Ho). exists b, s'. split; [done|]. split; [by etrans|]. destruct b.
  - destruct Ho as (Hse & x & HxU & Hx & Hx'). split; [done|]. exists x. split_and!; [done|set_solver|done].
  - destruct Ho as [Hw Hs']. split; [done|]. by eapply sameCalls_trans.
Qed.

(** ** Integers *)

Lemma typeRef_nonzero r t : typeAt r = Ret t → r ≠ 0%nat.
Proof. by destruct r. Qed.

Lemma typed_ref r t : typeAt r = Ret t → Types.ref t = Ret r.
Proof.
  intros Ht. unfold ref. rewrite (tb_self _ Htb r t Ht). rewrite decide_False; [done|by eapply typeRef_nonzero].
Qed.

Definition isNumber (t : Typ) : bool :=
  match t with IntType _ _ _ _ _ | FlagsType _ _ _ | ProcType _ _ _ => true | _ => false end.

Lemma minimizeInt_spec fuel pos arg t path s :
  walk s → argAt ci pos s = Ret arg → argType target (mHeap (ctxM s)) arg = Ret t → isNumber t = true →
  path ∈ U → path ∉ triedPaths s →
  yields (minimizeInt target noNeutralize pred0 order ci idx crash (S fuel) arg t path s) s.
Proof.
  intros Hw Ha Ht Hnum HU Hpath. unfold minimizeInt. destruct crash; [by apply yields_stay|].
  destruct (walk_arg s pos arg Hw Ha) as ((typ & dir & Hty) & _).
  destruct (typed_shape _ _ _ _ _ Hty) as (r & t' & dir' & Hr & Htr & Ht' & Hsh). assert (t' = t) as -> by congruence.
  destruct arg as [c v0| | | | |]; try (inversion Hsh; subst; discriminate Hnum).
  assert (∃ v c', DefaultArg target 1 t (adir c) (ctxM s) =
    Ret (ConstArg c' v, Mem (mHeap (ctxM s)) (Pos.succ (mNext (ctxM s))))) as (v & c' & ->).
  { destruct t; try discriminate Hnum; cbn [DefaultArg]; unfold MakeConstArg; rewrite (typed_ref _ _ Htr); cbn [rbind alloc]; eauto. }
  cbn [rbind]. pose proof (walk_mem s (Pos.succ (mNext (ctxM s))) Hw ltac:(lia)) as Hw1.
  case_decide; [by apply yields_false; [|done|apply sameCalls_refl]|].
  set (s1 := modArgs ci (fmap (Size.setVals {[aid c := v]})) (setMem _ s)).
  destruct (walk_vals _ {[aid c := v]} Hw1) as [Hw2 Hs2]. fold s1 in Hw2, Hs2.
  destruct (walk_call s1 Hw2) as (call & -> & Hcall & _ & Htyc & Hszc & _). cbn [rbind].
  rewrite Conditions.setDefaultConditions_none; [|apply (tb_cond _ Htb)|done|done]. cbn [rbind].
  assert (setP (alter (λ _, call) ci (ctxP s1)) (ctxM s1) s1 = s1) as ->.
  { rewrite (alter_insert _ _ _ call Hcall), list_insert_id by done. by destruct s1. }
  rewrite ask_eq. cbn [rbind]. destruct (pred0 _ _ _ _) eqn:Hok.
  - apply (yields_true _ _ path); [|done|done|set_solver|set_solver].
    apply (settle_commit (bump s1)); [by apply walk_bump|exact (accepted_ask s1 Hok)].
  - destruct (walk_vals (bump s1) {[aid c := v0]} (walk_bump _ Hw2)) as [Hw3 Hs3].
    apply yields_false; [done|done|]. by eapply sameCalls_trans.
Qed.

(** ** Results *)

(** Writing to results of the copy leaves the other programs alone. *)
Lemma base_insert (h : heap) i o : (mNext mb ≤ i)%positive → mHeap mb ⊆ h → mHeap mb ⊆ <[i := o]> h.
Proof.
  intros Hi Hsub. apply insert_subseteq_r; [|done]. apply eq_None_not_Some. intros [o' Ho'].
  apply (wp_fresh _ _ _ (good_wf _ _ _ (cur_good _ _ _ _ _ _ _ _ _ _ Hcur))) in Ho'. lia.
Qed.

Lemma fresh_insert (h : heap) n i o : fresh (Mem h n) → (i < n)%positive → fresh (Mem (<[i := o]> h) n).
Proof.
  intros Hf Hi k ok Hk. cbn [mHeap] in Hk. apply lookup_insert_Some in Hk as [[<- _]|[_ Hk]]; [done|]. by apply (Hf k ok).
Qed.

(** Making a reference [a] to [r0] a constant. *)
Lemma walk_detach s a o r0 ro v :
  walk s → a ∈ progResults (ctxP s) → mHeap (ctxM s) !! a = Some o → rRes o = Some r0 →
  mHeap (ctxM s) !! r0 = Some ro →
  ∃ oa, (<[r0 := withoutUse ro a]> (mHeap (ctxM s)) : heap) !! a = Some oa ∧
  walk (setMem (Mem (<[a := MkResult (rRef oa) (rDir oa) None (OpDiv oa) (OpAdd oa) v (uses oa)]>
    (<[r0 := withoutUse ro a]> (mHeap (ctxM s)))) (mNext (ctxM s))) s).
Proof.
  intros Hw Ha Ho Hr Hro. set (h := mHeap (ctxM s)) in *. set (h1 := <[r0 := withoutUse ro a]> h).
  destruct (wk_good s Hw) as [[Hnd HL Hht Hf Hsz] Hord] eqn:Eg. clear Eg. pose proof (wk_good s Hw) as Hg. fold h in HL, Hht.
  assert (a ∈ (list_to_set (progResults (ctxP s)) : gset positive)) as HaL by (by rewrite elem_of_list_to_set).
  assert (r0 ∈ progResults (ctxP s)) as Hr0.
  { destruct (linked_res _ _ HL a o r0 HaL Ho Hr) as [Hr0 _]. by rewrite elem_of_list_to_set in Hr0. }
  pose proof (linked_drop _ h a o r0 ro HL HaL Ho Hr Hro) as HL1. fold h1 in HL1.
  assert (∃ oa, h1 !! a = Some oa ∧ rRef oa = rRef o ∧ rDir oa = rDir o) as (oa & Hoa & Hoar & Hoad).
  { unfold h1. destruct (decide (a = r0)) as [->|]; [rewrite lookup_insert_eq; simplify_eq; by eexists|].
    rewrite lookup_insert_ne by done. eauto. }
  exists oa. split; [done|]. set (h2 := <[a := _]> h1).
  assert (sameRefs h h2) as Hrf.
  { intros i oi Hoi. unfold h2. destruct (decide (i = a)) as [->|]; [rewrite lookup_insert_eq; eexists; split; [done|]; simplify_eq; done|].
    rewrite lookup_insert_ne by done. unfold h1. destruct (decide (i = r0)) as [->|]; [rewrite lookup_insert_eq; eexists; split; [done|]; by simplify_eq|].
    rewrite lookup_insert_ne by done. eauto. }
  assert (good (ctxP s) (Mem h2 (mNext (ctxM s)))) as Hg2.
  { eapply good_heap; [exact Hg| | |exact Hrf|].
    - apply fresh_insert; [apply fresh_insert; [by destruct (ctxM s)|by apply Hf in Hro]|by apply Hf in Ho].
    - eapply linked_ext; [|exact HL1]. intros i oi Hi Hoi. cbn [mHeap]. unfold h2. destruct (decide (i = a)) as [->|].
      + rewrite lookup_insert_eq. rewrite (clr_lookup_eq _ _ _ Hoa) in Hoi. injection Hoi as <-. by eexists.
      + rewrite lookup_insert_ne by done. rewrite clr_lookup_ne in Hoi by done. eauto.
    - intros i oi oi' r Hi Hoi Hoi' Hr'. cbn [mHeap] in Hoi'. fold h in Hoi. unfold h2, h1 in Hoi'.
      apply lookup_insert_Some in Hoi' as [[<- <-]|[_ Hoi']]; [done|].
      apply lookup_insert_Some in Hoi' as [[<- <-]|[_ Hoi']]; [|congruence].
      assert (oi = ro) as -> by congruence. done. }
  destruct Hw as [Hb Hn Hold Hs _ Hj Ht Hnew Hlen Hc]. split; try done.
  - cbn [ctxM setMem setP mHeap]. unfold h2, h1. apply base_insert; [by apply Hnew|]. apply base_insert; [by apply Hnew|done].
  - eapply stable_refs; [exact Hrf|exact Hj].
Qed.

Lemma minimizeResource_spec pos arg tc bf desc path s :
  walk s → argAt ci pos s = Ret arg → argType target (mHeap (ctxM s)) arg = Ret (ResourceType tc bf desc) →
  path ∈ U → path ∉ triedPaths s → yields (minimizeResource noNeutralize pred0 idx crash arg desc path s) s.
Proof.
  intros Hw Ha Ht HU Hpath. unfold minimizeResource. destruct crash; [by apply yields_stay|].
  destruct (walk_arg s pos arg Hw Ha) as ((typ & dir & Hty) & _ & _ & Hres & _).
  destruct (typed_shape _ _ _ _ _ Hty) as (r & t' & dir' & Hr & Htr & Ht' & Hsh).
  assert (t' = ResourceType tc bf desc) as -> by congruence.
  destruct arg as [| | | | |a]; try (inversion Hsh; subst; done).
  assert (a ∈ progResults (ctxP s)) as HaP by (apply Hres, list_elem_of_here).
  destruct (good_in _ _ _ _ (wk_good s Hw) HaP) as (o & Ho & Han). rewrite (deref_Some _ _ _ Ho). cbn [rbind].
  destruct (rRes o) as [r0|] eqn:Er; [|by apply yields_stay].
  destruct (wk_good s Hw) as [[_ HL Hht Hf _] _].
  assert (a ∈ (list_to_set (progResults (ctxP s)) : gset positive)) as HaL by (by rewrite elem_of_list_to_set).
  destruct (linked_res _ _ HL a o r0 HaL Ho Er) as (Hr0L & ro & Hro & Hin).
  rewrite (delUse_eq _ _ _ _ Hro). cbn [rbind].
  destruct (Hht a o HaL Ho) as (tc' & bf' & desc' & v & Hty' & _ & Hv).
  cbn [argRef] in Hr. rewrite (deref_Some _ _ _ Ho) in Hr. injection Hr as <-. rewrite Htr in Hty'. injection Hty' as <- <- <-.
  rewrite Hv. cbn [rbind]. cbn [setMem setP ctxM mHeap mNext].
  destruct (walk_detach s a o r0 ro v Hw HaP Ho Er Hro) as (oa & Hoa & Hw2). rewrite (deref_Some _ _ _ Hoa). cbn [rbind].
  set (s2 := setMem _ s) in Hw2. rewrite ask_eq. cbn [rbind].
  match goal with |- context [pred0 ?n ?q ?hh ?k] => destruct (pred0 n q hh k) eqn:Hok end.
  - cbn [rbind]. apply (yields_true _ _ path); [|done|done|set_solver|set_solver].
    apply (settle_commit (bump s2)); [by apply walk_bump|exact (accepted_ask s2 Hok)].
  - cbn [bump ctxM setMem setP mHeap mNext]. rewrite (deref_Some _ a _ (lookup_insert_eq _ _ _)). cbn [rbind].
    cbn [ctxM setMem setP mHeap mNext runs].
    match goal with |- context [addUse r0 a ?hh] => assert (∃ oo, hh !! r0 = Some oo) as [oo Hoo] end.
    { destruct (decide (r0 = a)) as [->|]; [rewrite lookup_insert_eq; by eexists|]. rewrite !lookup_insert_ne by done.
      rewrite lookup_insert_eq. by eexists. }
    unfold addUse. rewrite (deref_Some _ _ _ Hoo). cbn [rbind]. rewrite elem_of_list_to_set in Hr0L.
    apply (yields_true _ _ path); [|done|done|set_solver|set_solver].
    destruct (wk_good s2 Hw2) as [[_ _ _ Hf2 _] _].
    apply settle_reject; try apply Hw2; cbn [tried ctxM setMem setP mHeap mNext runs].
    + repeat (apply base_insert; [apply (wk_new s Hw); done|]). apply Hw.
    + pose proof (Hf _ _ Hro) as Hr0n. do 4 (apply fresh_insert; [|done]). by destruct (ctxM s).
    + pose proof (wk_runs s Hw). change (n0 ≤ S (runs s))%nat. lia.
Qed.

(** ** Changes of the structure *)

Lemma tried_setArg pos x s : triedPaths (setArg ci pos x s) = triedPaths s.
Proof. by destruct pos. Qed.

Lemma setArg_setMem pos x m m' s : setMem m' (setArg ci pos x (setMem m s)) = setArg ci pos x (setMem m' s).
Proof. by destruct pos. Qed.

(** The end of an attempt: the sizes are assigned and the predicate is asked. *)
Lemma attempt_end s : walk s →
  ∃ s1 s2, assignSizes target ci s = Ret s1 ∧ tryCommit noNeutralize pred0 idx s1 = Ret s2 ∧ settled s2 ∧
    triedPaths s2 = triedPaths s.
Proof.
  intros Hw. destruct (assignSizes_spec s Hw) as (vs & c & _ & _ & ->).
  destruct (walk_vals s vs Hw) as [Hw1 _]. destruct (tryCommit_spec _ Hw1) as (s2 & Hs2 & Hset & Ht). eauto 6.
Qed.

(** What the walk over a smaller argument does. *)
Definition recOk (d : nat) (rec : list nat → string → string → minimizeArgsCtx → res (bool * minimizeArgsCtx)) : Prop :=
  ∀ pos field path s a, walk s → argAt ci pos s = Ret a → (depth a < d)%nat →
    (∀ x, x ∈ pathsOf target (path +:+ "-" +:+ field) a → x ∈ U) → yields (rec pos field path s) s.

Lemma typed_null h c ad v q tc elem ed z typ dir :
  typeAt (aref c) = Ret (PtrType tc elem ed) → typed target h (PointerArg c ad v q) typ dir →
  typed target h (PointerArg (MkCommon (aid c) (aref c) DirIn) z 0 None) typ dir.
Proof.
  intros Htp Hty.
  inversion Hty as [arg0 typ0 dir0 dir' r adr tt t Htt Hd Hr Hany Had Hdir Ht Hs]; subst arg0 typ0 dir0.
  cbn [argRef] in Hr. injection Hr as <-. cbn [argDir] in Had. injection Had as <-.
  rewrite Htp in Ht. injection Ht as <-. econstructor; [exact Htt|exact Hd|done|exact Hany|done| |exact Htp|].
  - inversion Hs; subst. destruct (if isPtrType tt then DirIn else dir); [by left|naive_solver|by right].
  - by constructor.
Qed.

Lemma minimizePtr_spec d rec pos arg tc elem ed path s :
  walk s → argAt ci pos s = Ret arg → argType target (mHeap (ctxM s)) arg = Ret (PtrType tc elem ed) →
  (∀ x, x ∈ pathsOf target path arg → x ∈ U) → (depth arg ≤ d)%nat → recOk d rec →
  yields (minimizePtr target noNeutralize pred0 ci idx rec pos arg (PtrType tc elem ed) path s) s.
Proof.
  intros Hw Ha Ht HU Hd Hrec. destruct (walk_arg s pos arg Hw Ha) as ((typ & dir & Hty) & Hsz & _ & _ & _ & Hids).
  destruct (typed_shape _ _ _ _ _ Hty) as (r & t' & dir' & Hr & Htr & Ht' & Hsh).
  assert (t' = PtrType tc elem ed) as -> by congruence.
  destruct arg as [|c ad v q| | | |]; try (inversion Hsh; subst; done). cbn [argRef] in Hr. injection Hr as <-.
  destruct q as [q|]; [|by apply yields_stay]. cbn [minimizePtr]. case_decide as Hpath.
  - set (new := PointerArg (MkCommon (aid c) (aref c) DirIn) (0 -! 0) 0 None).
    pose proof (proj1 (sized_ptr target _ c ad v q) Hsz) as [Hszp Hszq].
    destruct (walk_remove s pos (PointerArg c ad v (Some q)) new q [] []) as (m' & -> & Hle & Hw1); try done.
    + by rewrite app_nil_r.
    + intros x Hx. apply list_elem_of_singleton in Hx as ->. exact Hszp.
    + intros typ' dir''. by eapply typed_null.
    + split; [|simpl; lia|by intros r ?%elem_of_nil]. intros path' x Hx. apply list_elem_of_singleton in Hx as ->. apply pathsOf_self.
    + intros i Hi. apply list_elem_of_singleton in Hi as ->. apply list_elem_of_here.
    + cbn [rbind]. unfold MakeSpecialPointerArg. rewrite decide_False by (unfold maxSpecialPointers; lia). rewrite (typed_ref _ _ Htr). cbn [rbind alloc].
      cbn [replaceArg argIdOf aid]. rewrite decide_False.
      2: { specialize (Hids (aid c) (idsOf_self (PointerArg c ad v (Some q)))). lia. }
      cbn [rbind withId aref adir].
      pose proof (walk_mem _ (Pos.succ (mNext m')) Hw1) as Hw2.
      assert (ctxM (setArg ci pos new (setMem m' s)) = m') as Em by (by destruct pos).
      rewrite Em, setArg_setMem in Hw2. specialize (Hw2 ltac:(lia)).
      destruct (attempt_end _ Hw2) as (s1 & s2 & E1 & E2 & Hset & Htr2).
      replace (setArg ci pos (PointerArg (withId (aid c) (MkCommon (mNext m') (aref c) DirIn)) (0 -! 0) 0 None))
        with (setArg ci pos new) by done.
      rewrite E1. cbn [rbind]. rewrite E2. cbn [rbind]. rewrite tried_setArg in Htr2. cbn [setMem setP triedPaths] in Htr2.
      apply (yields_true _ _ (path +:+ ">")); [exact Hset| |done|cbn [tried triedPaths]; rewrite Htr2; set_solver|set_solver].
      apply HU. cbn [pathsOf]. apply list_elem_of_further, list_elem_of_here.
  - apply Hrec with (a := q); [done| | |].
    + eapply argAt_child; [exact Ha|]. done.
    + cbn [depth] in Hd. lia.
    + intros x Hx. apply HU. cbn [pathsOf]. by do 2 apply list_elem_of_further.
Qed.

Lemma setMem_setArg pos x m' s : setMem m' (setArg ci pos x s) = setArg ci pos x (setMem m' s).
Proof. by destruct pos. Qed.

Lemma ctxM_setArg pos x s : ctxM (setArg ci pos x s) = ctxM s.
Proof. by destruct pos. Qed.

Lemma erase_group a c l : erase a = erase (GroupArg c l) → ∃ l', a = GroupArg c l' ∧ erase <$> l' = erase <$> l.
Proof. destruct a; try discriminate. intros [= -> Hl]. eauto. Qed.

(** Removing an element of an array. *)
Lemma remove_elem s pos c inner tc elem kind rb re i e :
  walk s → argAt ci pos s = Ret (GroupArg c inner) → typeAt (aref c) = Ret (ArrayType tc elem kind rb re) →
  inner !! i = Some e → (kind = ArrayRangeLen → rb < Z.of_nat (length inner)) →
  ∃ m', removeArg target e (ctxM s) = Ret m' ∧ walk (setArg ci pos (GroupArg c (delete i inner)) (setMem m' s)).
Proof.
  intros Hw Ha Htr He Hk. destruct (walk_arg s pos _ Hw Ha) as (_ & Hsz & _).
  pose proof (proj1 (sized_group target _ c inner) Hsz) as [Hszg Hszl].
  assert (∀ x, x ∈ delete i inner → x ∈ inner) as Hsub by (intros x; apply list_elem_of_delete_inv).
  destruct (walk_remove s pos (GroupArg c inner) (GroupArg c (delete i inner)) e
    (concat (results <$> take i inner)) (concat (results <$> drop (S i) inner))) as (m' & Hm' & _ & Hw1); try done.
  - rewrite results_group. rewrite <-(take_drop_middle inner i e He) at 1. rewrite fmap_app, fmap_cons, concat_app. done.
  - rewrite results_group, delete_take_drop, fmap_app, concat_app. done.
  - apply Hszl. by eapply list_elem_of_lookup_2.
  - apply sized_group. split; [|auto]. eapply group_size; [exact Hszg|]. intros x Hx. apply sized_head. auto.
  - intros typ dir Hty. inversion Hty as [arg0 typ0 dir0 dir' r adr tt t Htt Hd Hr Hany Had Hdir Ht Hs]; subst arg0 typ0 dir0.
    cbn [argRef] in Hr. injection Hr as <-. rewrite Htr in Ht. injection Ht as <-.
    econstructor; [exact Htt|exact Hd|done|exact Hany|exact Had|exact Hdir|exact Htr|].
    inversion Hs as [| | | |? ? ? ? ? ? ? ? Hall Hlen| | |]; subst. constructor; [by apply Forall_delete|].
    intros HK Hrr. specialize (Hk HK). specialize (Hlen HK Hrr). lia.
  - apply below_group. right. split; [eauto 6|]. split; [|intros x Hx; exists x; split; [auto|reflexivity]].
    rewrite length_delete by eauto. lia.
  - intros j. rewrite !idsOf_group. intros [->|(x & Hx & Hj)]; [by left|right; eauto].
  - eauto.
Qed.

Lemma arrayLoop_spec d rec pos tc elem kind rb re path n : recOk d rec → ∀ s c inner,
  walk s → argAt ci pos s = Ret (GroupArg c inner) → typeAt (aref c) = Ret (ArrayType tc elem kind rb re) →
  (∀ x, x ∈ pathsOf target path (GroupArg c inner) → x ∈ U) → (depth (GroupArg c inner) ≤ d)%nat → (n ≤ length inner)%nat →
  yields (arrayLoop target noNeutralize pred0 ci idx crash rec pos kind rb path n s) s.
Proof.
  intros Hrec. induction n as [|i IH]; intros s c inner Hw Ha Htr HU Hd Hn; cbn [arrayLoop]; [by apply yields_stay|].
  rewrite Ha. cbn [rbind]. destruct (lookup_lt_is_Some_2 inner i) as [e He]; [lia|].
  unfold index. rewrite decide_True by lia. rewrite Nat2Z.id, He. cbn [rbind].
  assert (∀ x, x = (path +:+ "-" +:+ pretty i)%string ∨
      (∃ a, a ∈ inner ∧ x ∈ pathsOf target ((path +:+ "-" +:+ pretty i) +:+ "-" +:+ "") a) → x ∈ U) as HUi.
  { intros x Hx. apply HU. apply (pathsOf_array target _ _ _ _ _ _ _ _ _ Htr). right. exists i. split; [lia|done]. }
  match goal with |- context [if ?b then _ else _] => destruct b eqn:Eb end.
  - apply andb_prop in Eb as [Eb Ek]. apply andb_prop in Eb as [_ Et]. apply bool_decide_eq_true in Et.
    pose proof (walk_tried (path +:+ "-" +:+ pretty i) s Hw) as Hwt.
    destruct (remove_elem _ pos c inner tc elem kind rb re i e Hwt Ha Htr He) as (m' & Hm' & Hw1).
    { intros ->. apply orb_prop in Ek as [Ek|Ek]; [by apply bool_decide_eq_true in Ek|].
      apply andb_prop in Ek as [_ Ek]. by apply bool_decide_eq_true in Ek. }
    rewrite ctxM_setArg, Hm'. cbn [rbind]. rewrite setMem_setArg.
    destruct (attempt_end _ Hw1) as (s1 & s2 & E1 & E2 & Hset & Htr2). rewrite E1. cbn [rbind]. rewrite E2. cbn [rbind].
    rewrite tried_setArg in Htr2. cbn [setMem setP tried triedPaths] in Htr2.
    apply (yields_true _ _ (path +:+ "-" +:+ pretty i)); [exact Hset|auto|done|rewrite Htr2; set_solver|rewrite Htr2; set_solver].
  - assert (depth e < d)%nat as Hde.
    { cbn [depth] in Hd. enough (depth e ≤ max_list (depth <$> inner))%nat by lia. apply max_list_elem.
      apply list_elem_of_fmap_2. by eapply list_elem_of_lookup_2. }
    destruct (Hrec (pos ++ [i]) "" (path +:+ "-" +:+ pretty i) s e) as (b & s1 & E & Ho); [done|by eapply argAt_child|done| |].
    { intros x Hx. apply HUi. right. exists e. split; [by eapply list_elem_of_lookup_2|done]. }
    rewrite E. cbn [rbind]. destruct b; [by exists true, s1|]. destruct Ho as (Htri & Hw1 & Hs1).
    eapply yields_later; [exact Hs1|exact Htri|].
    destruct (argAt_same s s1 pos _ Hs1 Ha) as (a' & Ha' & Hea).
    destruct (erase_group _ _ _ Hea) as (inner' & -> & Hl).
    apply (IH s1 c inner'); [done|done|done| | |].
    + intros x. rewrite <-(pathsOf_erase target (GroupArg c inner')), Hea, pathsOf_erase. apply HU.
    + by rewrite <-(depth_erase (GroupArg c inner')), Hea, depth_erase.
    + rewrite <-(length_fmap erase inner'), Hl, length_fmap. lia.
Qed.

Lemma fieldLoop_spec d rec pos tc fields align ov path js : recOk d rec → ∀ s c inner,
  walk s → argAt ci pos s = Ret (GroupArg c inner) → typeAt (aref c) = Ret (StructType tc fields align ov) →
  (∀ x, x ∈ pathsOf target path (GroupArg c inner) → x ∈ U) → (depth (GroupArg c inner) ≤ d)%nat →
  length inner = length fields → (∀ j, j ∈ js → (j < length inner)%nat) →
  yields (fieldLoop rec pos fields path js s) s.
Proof.
  intros Hrec. induction js as [|j js IH]; intros s c inner Hw Ha Htr HU Hd Hlen Hjs; cbn [fieldLoop]; [by apply yields_stay|].
  assert (j < length inner)%nat as Hj by (apply Hjs, list_elem_of_here).
  destruct (lookup_lt_is_Some_2 inner j Hj) as [e He]. destruct (lookup_lt_is_Some_2 fields j) as [f Hf]; [lia|].
  unfold index. rewrite decide_True by lia. rewrite Nat2Z.id, Hf. cbn [rbind].
  destruct (Hrec (pos ++ [j]) (fieldName f) path s e) as (b & s1 & E & Ho); [done|by eapply argAt_child| | |].
  - cbn [depth] in Hd. enough (depth e ≤ max_list (depth <$> inner))%nat by lia. apply max_list_elem.
    apply list_elem_of_fmap_2. by eapply list_elem_of_lookup_2.
  - intros x Hx. apply HU. apply (pathsOf_struct target _ _ _ _ _ _ _ _ Htr). right. eauto 6.
  - rewrite E. cbn [rbind]. destruct b; [by exists true, s1|]. destruct Ho as (Htri & Hw1 & Hs1).
    eapply yields_later; [exact Hs1|exact Htri|].
    destruct (argAt_same s s1 pos _ Hs1 Ha) as (a' & Ha' & Hea).
    destruct (erase_group _ _ _ Hea) as (inner' & -> & Hl).
    assert (length inner' = length inner) as Hlen' by (rewrite <-(length_fmap erase inner'), Hl, length_fmap; done).
    apply (IH s1 c inner'); [done|done|done| | |lia|].
    + intros x. rewrite <-(pathsOf_erase target (GroupArg c inner')), Hea, pathsOf_erase. apply HU.
    + by rewrite <-(depth_erase (GroupArg c inner')), Hea, depth_erase.
    + intros k Hk. rewrite Hlen'. apply Hjs. by apply list_elem_of_further.
Qed.

(** ** Buffers *)

(** Replacing the data of a buffer. *)
Lemma walk_data s pos c d sz d' tc desc :
  walk s → argAt ci pos s = Ret (DataArg c d sz) → typeAt (aref c) = Ret (BufferType tc desc) → adir c ≠ DirOut →
  (IsVarlen tc = false → Prog.Size target (mHeap (ctxM s)) (DataArg c d sz) = Ret (TypeSize tc) →
     Prog.Size target (mHeap (ctxM s)) (DataArg c d' sz) = Ret (TypeSize tc)) →
  walk (setArg ci pos (DataArg c d' sz) s).
Proof.
  intros Hw Ha Htc Hdir Hv. assert (setMem (ctxM s) s = s) as Es by (by destruct s). rewrite <-Es.
  eapply (walk_edit s pos (DataArg c d sz) (DataArg c d' sz) (ctxM s) [] [] []); try done.
  - apply unlinked_refl, (wk_good s Hw).
  - apply (wk_good s Hw).
  - intros x Hx. apply list_elem_of_singleton in Hx as ->. by eexists.
  - intros typ dir Hty. inversion Hty as [? ? ? ? r adr tt t' Htt Hd Hr Hany Had Hdi Ht' Hs']; subst. cbn [argRef] in Hr.
    injection Hr as <-. rewrite Htc in Ht'. injection Ht' as <-.
    econstructor; [exact Htt|done|done|exact Hany|exact Had|exact Hdi|exact Htc|]. inversion Hs'; subst. constructor; [done|auto].
Qed.

Section blob.
(** The loop of [BufferType.minimize] works on the call [cl] of the program [P]: only the
    arguments of the call and the number of attempts change. *)
Context (P : list Call) (cl : Call) (m : mem) (T : gset string) (args0 : list Arg).
Context (j : nat) (pos : list nat) (c : ArgCommon) (sz : Z) (full : list Z) (tc : TypeCommon) (desc : BufferDesc).
Hypothesis HP : P !! ci = Some cl.
Hypothesis Htc : typeAt (aref c) = Ret (BufferType tc desc).
Hypothesis Hkind : bufKind desc = BufferBlobRand ∨ bufKind desc = BufferBlobRange.
Hypothesis Hdir : adir c ≠ DirOut.

Definition st (args : list Arg) (n : nat) : minimizeArgsCtx := MkMin (<[ci := setArgs args cl]> P) p false T m n.
Notation minLen := (wrapS 64 (bufRangeBegin desc)).

Lemma st_call args n : ctxP (st args n) !! ci = Some (setArgs args cl).
Proof. apply list_lookup_insert_eq. by eapply lookup_lt_Some. Qed.

Lemma st_mod f args n : modArgs ci f (st args n) = st (f args) n.
Proof.
  unfold modArgs, st, setP. cbn [ctxP ctxOld shared triedPaths ctxM runs]. f_equal.
  rewrite (alter_insert _ _ _ (setArgs args cl)) by (apply list_lookup_insert_eq; by eapply lookup_lt_Some).
  by rewrite list_insert_insert_eq.
Qed.

Lemma st_at args n b x : args !! j = Some b → subArg pos b = Some x → argAt ci (j :: pos) (st args n) = Ret x.
Proof. intros Hb Hx. by eapply argAt_intro; [apply st_call|exact Hb|]. Qed.

(** The arguments with the data [d] at the position. *)
Definition putData (d : list Z) (args : list Arg) : list Arg := alter (setSub pos (DataArg c d sz)) j args.

Record blobInv (args : list Arg) (n : nat) (d : list Z) : Prop := {
  bi_walk : walk (st args n);
  bi_at : ∃ b, args !! j = Some b ∧ subArg pos b = Some (DataArg c d sz);
  bi_prefix : d = take (length d) full;
  bi_state : length d = length full ∧ erase <$> args = erase <$> args0 ∨
    (length d < length full)%nat ∧ accepted pred0 (ctxP (st args n)) idx m n ∧
    SizeDom.sizesRight target (mHeap m) (setArgs args cl)
}.

Lemma minLen_eq : minLen = bufRangeBegin desc ∧ 0 ≤ minLen.
Proof.
  destruct (tb_blob _ Htb _ _ _ Htc Hkind) as [Hr _]. unfold wrapS. rewrite Z.mod_small; [lia|].
  change (2 ^ 64) with (2 * 2 ^ 63). change (64 - 1) with 63. lia.
Qed.

Lemma reslice_prefix d n : d = take (length d) full → 0 ≤ n ≤ Z.of_nat (length full) → reslice d full n = Ret (take (Z.to_nat n) full).
Proof.
  intros Hd Hn. unfold reslice. assert (d ++ drop (length d) full = full) as ->.
  { rewrite Hd at 1. apply take_drop. }
  by rewrite decide_True.
Qed.

(** Shortening the data and assigning the sizes. *)
Lemma blob_step args n d d' :
  blobInv args n d → minLen < Z.of_nat (length d) →
  ∃ vs, setData ci (j :: pos) d' (st args n) = Ret (st (putData d' args) n) ∧ walk (st (putData d' args) n) ∧
    Size.assignSizesCall target (mHeap m) (setArgs (putData d' args) cl) = Ret vs ∧
    assignSizes target ci (st (putData d' args) n) = Ret (st (Size.setVals vs <$> putData d' args) n) ∧
    walk (st (Size.setVals vs <$> putData d' args) n).
Proof.
  intros [Hw (b & Hb & Hx) _ _] Hlen. pose proof (st_at args n b _ Hb Hx) as Hat. destruct minLen_eq as [Hml Hml0].
  assert (setArg ci (j :: pos) (DataArg c d' sz) (st args n) = st (putData d' args) n) as Es by apply st_mod.
  assert (walk (st (putData d' args) n)) as Hw1.
  { rewrite <-Es. eapply walk_data; [exact Hw|exact Hat|exact Htc|exact Hdir|]. intros Hvl Hsz. exfalso.
    destruct (tb_blob _ Htb _ _ _ Htc Hkind) as [_ Hfix]. specialize (Hfix Hvl). cbn [Prog.Size] in Hsz.
    destruct (decide (d ≠ [])) as [Hd|Hd]; [injection Hsz as Hsz; lia|]. apply dec_stable in Hd. subst d. simpl in Hlen. lia. }
  destruct (assignSizes_spec _ Hw1) as (vs & c1 & Hc1 & Hvs & Has). rewrite st_call in Hc1. injection Hc1 as <-.
  rewrite st_mod in Has. exists vs. split_and!; [|done|done|done|].
  - unfold setData. rewrite Hat. cbn [rbind]. by rewrite Es.
  - rewrite <-st_mod. by apply walk_vals.
Qed.

Lemma putData_at d d' args b : args !! j = Some b → subArg pos b = Some (DataArg c d sz) →
  ∃ b', putData d' args !! j = Some b' ∧ subArg pos b' = Some (DataArg c d' sz).
Proof.
  intros Hb Hx. exists (setSub pos (DataArg c d' sz) b). split; [|by eapply subArg_setSub].
  unfold putData. by rewrite list_lookup_alter_eq, Hb.
Qed.

Lemma setVals_at vs d (args : list Arg) : (∃ b, args !! j = Some b ∧ subArg pos b = Some (DataArg c d sz)) →
  ∃ b', (Size.setVals vs <$> args) !! j = Some b' ∧ subArg pos b' = Some (DataArg c d sz).
Proof.
  intros (b & Hb & Hx). exists (Size.setVals vs b). rewrite list_lookup_fmap, Hb, (nodewise_subArg (Size.setVals vs)), Hx. done.
Qed.

(** Putting the data back. *)
Lemma putData_back vs d d' args b : args !! j = Some b → subArg pos b = Some (DataArg c d sz) →
  putData d (Size.setVals vs <$> putData d' args) = Size.setVals vs <$> args.
Proof.
  intros Hb Hx. apply list_eq. intros k. unfold putData. destruct (decide (j = k)) as [<-|].
  - rewrite list_lookup_alter_eq, !list_lookup_fmap, list_lookup_alter_eq, Hb. simpl. f_equal.
    rewrite (nodewise_set (Size.setVals vs)), setSub_setSub. apply setSub_same.
    by rewrite (nodewise_subArg (Size.setVals vs)), Hx.
  - by rewrite list_lookup_alter_ne, !list_lookup_fmap, list_lookup_alter_ne by done.
Qed.

Lemma putData_bare d d' (args : list Arg) b : args !! j = Some b → subArg pos b = Some (DataArg c d sz) →
  SizeDom.bare <$> putData d' args = SizeDom.bare <$> args.
Proof.
  intros Hb Hx. apply list_eq. intros k. rewrite !list_lookup_fmap. unfold putData. destruct (decide (j = k)) as [<-|].
  - rewrite list_lookup_alter_eq, Hb. simpl. f_equal.
    assert (Nodewise SizeDom.bare) as Hnw.
    { split; [done|done|by eexists|]. by intros [| ? ? ? [?|] | | | |]. }
    rewrite (nodewise_set SizeDom.bare). apply setSub_same. by rewrite (nodewise_subArg SizeDom.bare), Hx.
  - by rewrite list_lookup_alter_ne.
Qed.

(** After a rejected attempt the data is put back: nothing was lost. *)
Lemma blob_reject args n d d' vs :
  blobInv args n d → minLen < Z.of_nat (length d) →
  Size.assignSizesCall target (mHeap m) (setArgs (putData d' args) cl) = Ret vs →
  walk (st (Size.setVals vs <$> putData d' args) n) →
  ∃ s', setData ci (j :: pos) d (st (Size.setVals vs <$> putData d' args) (S n)) = Ret s' ∧
    ∃ args', assignSizes target ci s' = Ret (st args' (S n)) ∧ blobInv args' (S n) d.
Proof.
  intros Hinv Hlen Hvs Hw1. pose proof Hinv as [Hw (b & Hb & Hx) Hpre Hst].
  set (args1 := Size.setVals vs <$> putData d' args) in *.
  destruct (putData_at d d' args b Hb Hx) as (b1 & Hb1 & Hx1).
  destruct (setVals_at vs d' (putData d' args)) as (b2 & Hb2 & Hx2); [eauto|]. fold args1 in Hb2.
  assert (setData ci (j :: pos) d (st args1 (S n)) = Ret (st (putData d args1) (S n))) as Hset.
  { unfold setData. rewrite (st_at args1 (S n) b2 _ Hb2 Hx2). cbn [rbind]. f_equal. apply st_mod. }
  assert (putData d args1 = Size.setVals vs <$> args) as Hback by (by eapply putData_back). rewrite Hback in Hset.
  eexists. split; [exact Hset|].
  assert (walk (st (Size.setVals vs <$> args) (S n))) as Hw2.
  { rewrite <-st_mod. apply walk_vals. exact (walk_bump _ Hw). }
  destruct (assignSizes_spec _ Hw2) as (vs2 & c2 & Hc2 & Hvs2 & Has). rewrite st_call in Hc2. injection Hc2 as <-.
  rewrite st_mod in Has. exists (Size.setVals vs2 <$> (Size.setVals vs <$> args)). split; [exact Has|]. split.
  - rewrite <-st_mod. by apply walk_vals.
  - apply setVals_at, setVals_at. eauto.
  - done.
  - destruct Hst as [[Hl He]|(Hlt & (k & mk & Hk & Hpk & Hag) & Hright)].
    + left. split; [done|]. by rewrite !erase_setVals_all.
    + right. pose proof (SizeDom.sizes_restored target (mHeap m) (setArgs args cl) (setArgs (putData d' args) cl) vs vs2
        Hright eq_refl (putData_bare d d' args b Hb Hx) Hvs Hvs2) as E. cbn [setArgs Args] in E. rewrite E.
      split_and!; [done| |done]. exists k, mk. split_and!; [lia|done|done].
Qed.

Lemma shrinkLoop_spec fuel : ∀ args n d step,
  blobInv args n d → (Z.to_nat (Z.of_nat (length d) + step) < fuel)%nat →
  ∃ args' n' d', shrinkLoop target noNeutralize pred0 ci idx crash fuel (j :: pos) full minLen step (st args n) =
    Ret (st args' n') ∧ blobInv args' n' d'.
Proof.
  destruct minLen_eq as [Hml Hml0].
  induction fuel as [|fuel IH]; intros args n d step Hinv Hf; [lia|]. pose proof Hinv as [Hw (b & Hb & Hx) Hpre Hst].
  cbn [shrinkLoop]. unfold dataAt at 1. rewrite (st_at args n b _ Hb Hx). cbn [rbind].
  case_decide as Hgo; [|by eauto 6]. case_decide as Hfit.
  2: { destruct crash; [by eauto 6|]. apply (IH args n d); [done|]. pose proof (Z.div_lt step 2). dlia. }
  assert (length d ≤ length full)%nat as Hlf by (rewrite Hpre, length_take; lia).
  rewrite reslice_prefix by (done || lia). cbn [rbind]. set (short := take _ full).
  assert (Z.of_nat (length short) = Z.of_nat (length d) - step) as Hshort by (unfold short; rewrite length_take; lia).
  destruct (blob_step args n d short Hinv ltac:(lia)) as (vs & -> & Hw1 & Hvs & Has & Hw2). cbn [rbind]. rewrite Has. cbn [rbind].
  set (args1 := Size.setVals vs <$> putData short args) in *.
  destruct (putData_at d short args b Hb Hx) as (b1 & Hb1 & Hx1).
  destruct (setVals_at vs short (putData short args)) as (b2 & Hb2 & Hx2); [eauto|]. fold args1 in Hb2.
  rewrite ask_eq. cbn [rbind]. change (bump (st args1 n)) with (st args1 (S n)).
  match goal with |- context [if pred0 ?a ?b ?c ?e then _ else _] => destruct (pred0 a b c e) eqn:Hok end.
  - apply (IH args1 (S n) short); [|lia]. split; [exact (walk_bump _ Hw2)|eauto|unfold short at 1; f_equal; lia|].
    right. split_and!; [lia|exact (accepted_ask (st args1 n) Hok)|]. exact (SizeDom.withSizes_right target _ _ _ Hvs).
  - unfold dataAt at 1. rewrite (st_at args1 (S n) b2 _ Hb2 Hx2). cbn [rbind].
    rewrite reslice_prefix; [|unfold short at 1; f_equal; lia|lia]. cbn [rbind].
    replace (take (Z.to_nat (Z.of_nat (length short) + step)) full) with d by (rewrite Hpre at 1; f_equal; lia).
    destruct (blob_reject args n d short vs Hinv ltac:(lia) Hvs Hw2) as (s' & Hsd & args' & Has' & Hinv').
    fold args1 in Hsd. rewrite Hsd. cbn [rbind].
    rewrite Has'. cbn [rbind]. destruct crash; [by eauto 6|]. apply (IH args' (S n) d); [done|]. dlia.
Qed.
End blob.

Lemma walk_st s c : walk s → ctxP s !! ci = Some c → s = st (ctxP s) c (ctxM s) (triedPaths s) (Args c) (runs s).
Proof.
  intros Hw Hc. pose proof (wk_old s Hw). pose proof (wk_shared s Hw). destruct s as [P old sh T m n]. simpl in *. subst.
  unfold st. f_equal. symmetry. apply list_insert_id. by destruct c.
Qed.

Lemma minimizeBlob_spec pos c data sz tc desc path s :
  walk s → argAt ci pos s = Ret (DataArg c data sz) → typeAt (aref c) = Ret (BufferType tc desc) →
  bufKind desc = BufferBlobRand ∨ bufKind desc = BufferBlobRange → adir c ≠ DirOut →
  path ∈ U → path ∉ triedPaths s →
  yields (let minLen := wrapS 64 (bufRangeBegin desc) in
    let step := Z.of_nat (length data) - minLen in
    let! s := shrinkLoop target noNeutralize pred0 ci idx crash (S (Z.to_nat (Z.of_nat (length data) + step))) pos data minLen step s in
    let! data1 := dataAt ci pos s in
    if decide (length data1 ≠ length data) then Ret (true, tried path (commit s)) else Ret (false, s)) s.
Proof.
  intros Hw Ha Htc Hk Hdir HU Hpath. pose proof Ha as Ha'. apply argAt_inv in Ha' as (j & pos' & b & cl & -> & Hcl & Hb & Hs).
  set (P := ctxP s) in *. set (m := ctxM s). set (T := triedPaths s) in *.
  assert (s = st P cl m T (Args cl) (runs s)) as Es by (by apply walk_st). cbn zeta.
  destruct (shrinkLoop_spec P cl m T (Args cl) j pos' c sz data tc desc Hcl Htc Hk Hdir
    (S (Z.to_nat (Z.of_nat (length data) + (Z.of_nat (length data) - wrapS 64 (bufRangeBegin desc)))))
    (Args cl) (runs s) data (Z.of_nat (length data) - wrapS 64 (bufRangeBegin desc))) as (args' & n' & d' & E & Hinv).
  { split; [by rewrite <-Es|eauto|by rewrite firstn_all|by left]. }
  { lia. }
  rewrite <-Es in E. rewrite E. cbn [rbind]. destruct Hinv as [Hw' (b' & Hb' & Hx') Hpre Hst].
  unfold dataAt. rewrite (st_at P cl m T j pos' Hcl args' n' b' _ Hb' Hx'). cbn [rbind]. case_decide as Hl.
  - destruct Hst as [[? _]|(_ & Hacc & _)]; [done|].
    apply (yields_true _ _ path); [|done|done|cbn; set_solver|cbn; set_solver].
    exact (settle_commit _ Hw' Hacc).
  - destruct Hst as [[_ He]|(Hlt & _)]; [|lia].
    apply yields_false; [done|done|]. change (Forall2 sameCall P (<[ci := setArgs args' cl]> P)).
    apply Forall2_same_length_lookup. split; [by rewrite length_insert|]. intros k c1 c2 Hc1 Hc2. apply list_lookup_insert_Some in Hc2 as [(<- & <- & _)|[_ Hc2]].
    + assert (c1 = cl) as -> by congruence. by split.
    + assert (c2 = c1) as -> by congruence. reflexivity.
Qed.

Lemma minimizeBuffer_spec pos arg tc desc path s :
  walk s → argAt ci pos s = Ret arg → argType target (mHeap (ctxM s)) arg = Ret (BufferType tc desc) →
  path ∈ U → path ∉ triedPaths s →
  yields (minimizeBuffer target noNeutralize pred0 ci idx crash pos arg (BufferType tc desc) desc path s) s.
Proof.
  intros Hw Ha Ht HU Hpath. destruct (walk_arg s pos arg Hw Ha) as ((typ & dir & Hty) & _ & _ & _ & Hplain & _).
  destruct (typed_shape _ _ _ _ _ Hty) as (r & t' & dir' & Hr & Htr & Ht' & Hsh).
  assert (t' = BufferType tc desc) as -> by congruence.
  destruct arg as [| |c data sz| | |]; try (inversion Hsh; subst; done). cbn [argRef] in Hr. injection Hr as <-.
  unfold minimizeBuffer. cbn [argDir rbind]. case_decide as Hdir; [by apply yields_stay|].
  rewrite (Hplain (aref c) (list_elem_of_here _ _) _ _ Htr).
  destruct (bufKind desc) eqn:Ek; try by apply yields_stay.
  - apply (minimizeBlob_spec pos c data sz tc desc path s); auto.
  - apply (minimizeBlob_spec pos c data sz tc desc path s); auto.
  - destruct (Varlen (BufferType tc desc)) eqn:Ev; [|by apply yields_stay]. cbn [negb].
    set (data1 := trimPad data ++ _). unfold setData. rewrite Ha. cbn [rbind].
    assert (walk (setArg ci pos (DataArg c data1 sz) s)) as Hw1.
    { eapply walk_data; [done|exact Ha|exact Htr|done|]. unfold Varlen in Ev. cbn [common] in Ev. by rewrite Ev. }
    case_decide as Heq.
    + apply yields_false; [done|apply tried_setArg|]. apply argAt_inv in Ha as (j & pos' & b & cl & -> & Hcl & Hb & Hs).
      apply (sameCall_alter (alter (setSub pos' (DataArg c data1 sz)) j)). intros c1 Hc1. assert (c1 = cl) as -> by congruence.
      rewrite (alter_insert _ _ _ b Hb), list_fmap_insert. apply list_insert_id. rewrite list_lookup_fmap, Hb. simpl. f_equal.
      symmetry. eapply erase_setSub; [exact Hs|]. by rewrite Heq.
    + destruct (attempt_end _ Hw1) as (s1 & s2 & E1 & E2 & Hset & Htr2). rewrite E1. cbn [rbind]. rewrite E2. cbn [rbind].
      rewrite tried_setArg in Htr2.
      apply (yields_true _ _ path); [exact Hset|done|done|cbn [tried triedPaths]; rewrite Htr2; set_solver|set_solver].
Qed.

(** ** The walk *)

Lemma minimize_spec fuel rec pos arg path s :
  walk s → argAt ci pos s = Ret arg → (depth arg < S fuel)%nat → recOk fuel rec →
  (∀ x, x ∈ pathsOf target path arg → x ∈ U) → path ∉ triedPaths s →
  yields (minimize target noNeutralize pred0 order ci idx crash (S fuel) rec pos path s) s.
Proof.
  intros Hw Ha Hd Hrec HU Hpath. destruct (walk_arg s pos arg Hw Ha) as ((typ & dir & Hty) & _).
  destruct (typed_shape _ _ _ _ _ Hty) as (r & t & dir' & Hr & Htr & Ht & Hsh).
  assert (path ∈ U) as HpU by (apply HU, pathsOf_self).
  unfold minimize. rewrite Ha. cbn [rbind]. rewrite Ht. cbn [rbind].
  destruct t; try by apply yields_stay.
  - by eapply minimizeResource_spec.
  - by eapply minimizeInt_spec.
  - by eapply minimizeInt_spec.
  - destruct (Optional _); [by eapply minimizeInt_spec|by apply yields_stay].
  - by eapply minimizeBuffer_spec.
  - inversion Hsh; subst; try discriminate. cbn [argRef] in Hr. injection Hr as <-.
    eapply arrayLoop_spec; [exact Hrec|done|exact Ha|exact Htr|done|lia|lia].
  - eapply minimizePtr_spec; [done|exact Ha|exact Ht|done| |exact Hrec]. lia.
  - inversion Hsh as [| | |? l ? ? ? ? ? Hf| | | |]; subst; try discriminate. cbn [argRef] in Hr. injection Hr as <-.
    eapply fieldLoop_spec; [exact Hrec|done|exact Ha|exact Htr|done|lia|by eapply Forall2_length|].
    intros j Hj. apply elem_of_seq in Hj. lia.
  - inversion Hsh as [| | | | |? opt ix ? ? ? f ? Hix Hf Ho| |]; subst; try discriminate. cbn [argRef] in Hr. injection Hr as <-.
    assert (index fields ix = Ret f) as Hidx by (unfold index; rewrite decide_True by lia; by rewrite Hf). rewrite Hidx. cbn [rbind].
    apply Hrec with (a := opt); [done|eapply argAt_child; [exact Ha|done]|cbn [depth] in Hd; lia|].
    intros x Hx. apply HU. cbn [pathsOf]. rewrite Htr, Hidx. by apply list_elem_of_further.
Qed.

Lemma do_spec fuel : recOk fuel (do target noNeutralize pred0 order ci idx crash (S fuel)).
Proof.
  induction fuel as [|fuel IH]; intros pos field path s arg Hw Ha Hd HU; [lia|].
  cbn [do]. fold (do target noNeutralize pred0 order ci idx crash (S fuel)). case_decide as Hpath; [by apply yields_stay|].
  destruct (minimize_spec fuel (do target noNeutralize pred0 order ci idx crash (S fuel)) pos arg (path +:+ "-" +:+ field) s)
    as (b & s1 & E & Ht & Ho); [done|done|done|exact IH|done|done|].
  cbn [do] in E. rewrite E. cbn [rbind]. destruct b; [by exists true, s1|]. destruct Ho as [Hw1 Hs1].
  rewrite (wk_shared _ Hw1), (wk_shared _ Hw). exists false, (tried (path +:+ "-" +:+ field) s1). split; [done|].
  split; [cbn [tried triedPaths]; set_solver|]. split; [by apply walk_tried|done].
Qed.

(** The loop over the arguments of the call. *)
Lemma argsLoop_spec fuel : (B < fuel)%nat → ∀ fields dn s c,
  walk s → ctxP s !! ci = Some c → sysArgs (Meta c) = dn ++ fields →
  yields (argsLoop target noNeutralize pred0 order ci idx crash (S fuel) fields (length dn) s) s.
Proof.
  intros HB. induction fields as [|f fields IH]; intros dn s c Hw Hc Hf; cbn [argsLoop]; [by apply yields_stay|].
  destruct (walk_call s Hw) as (c' & Hcur' & Hc' & [Hmin HU] & [Hargs _] & _ & [Hwt _] & _).
  assert (c' = c) as -> by congruence. rewrite Hcur'. cbn [rbind].
  assert (sysArgs (Meta c) !! length dn = Some f) as Hfl by (rewrite Hf; by apply list_lookup_middle).
  destruct (Forall2_lookup_r _ _ _ _ _ Hargs Hfl) as (a & Ha & _).
  unfold index. rewrite decide_True by lia. rewrite Nat2Z.id, Ha. cbn [rbind].
  destruct (do_spec fuel [length dn] (fieldName f) "" s a) as (b & s1 & E & Ho); [done| | | |].
  - by eapply argAt_intro.
  - unfold weight, depthCall in Hwt. assert (depth a ≤ max_list (depth <$> Args c))%nat; [|lia].
    apply max_list_elem. apply list_elem_of_fmap_2. by eapply list_elem_of_lookup_2.
  - intros x Hx. apply HU. apply elem_pathsCall. eauto 6.
  - rewrite E. cbn [rbind]. destruct b; [by exists true, s1|]. destruct Ho as (Ht & Hw1 & Hs1).
    eapply yields_later; [exact Hs1|exact Ht|]. destruct (Forall2_lookup_l _ _ _ _ _ Hs1 Hc) as (c1 & Hc1 & Hcc).
    replace (S (length dn)) with (length (dn ++ [f])) by (rewrite length_app; simpl; lia).
    apply (IH (dn ++ [f]) s1 c1); [done|done|]. by rewrite (sc_meta _ _ Hcc), Hf, <-app_assoc.
Qed.

End round.

(** ** Whole calls and whole programs *)

Section given.
Context (P0 : list Call) (I0 : Z) (m0 : mem) (B : nat).
Hypothesis Htb : tables (Meta <$> P0).
Notation current := (current target pred0 (J B) P0 I0 m0).

(** Copying the current program starts a walk. *)
Lemma walk_start p idx m n ci c U paths :
  current p idx m n → p !! ci = Some c → workable U c →
  ∃ p1 m1, Clone p m = Ret (p1, m1) ∧ walk P0 I0 B p idx m n ci U (MkMin p1 p false paths m1 n).
Proof.
  intros Hcur Hc [Hmin HU]. destruct Hcur as [Hg Hj Hh Ht Ha].
  destruct (Clone_good target p m Hg) as (p1 & na & m1 & Hcl & Hg1 & Hcopy & Hsub & _ & Hnew & Hch).
  exists p1, m1. split; [done|]. split; try done.
  - by eapply stable_copy.
  - eapply tracks_meta; [by eapply copies_meta|done].
  - simpl. symmetry. by eapply Forall2_length.
  - destruct (Forall2_lookup_l _ _ _ _ _ Hcopy Hc) as (c1 & Hc1 & Hcc). pose proof (belowCall_copy target _ _ _ Hcc) as Hb.
    exists c1. split_and!; [done| |].
    + split; [by rewrite (bc_meta _ _ _ Hb)|]. intros x Hx. apply HU. by apply (bc_paths _ _ _ Hb).
    + pose proof (Clone_ids _ _ _ _ Hcl) as Hids. by eapply Forall_lookup_1.
Qed.

Lemma minimizeCall_spec ci crash idx U : ∀ k fuel p paths m n c,
  (size (U ∖ paths) ≤ k)%nat → (k + B + 2 < fuel)%nat → current p idx m n → p !! ci = Some c → workable U c →
  ∃ p' m' n', minimizeCall target noNeutralize pred0 order ci idx crash fuel p paths m n = Ret (p', m', n') ∧
    current p' idx m' n' ∧ length p' = length p ∧ (n ≤ n')%nat.
Proof.
  induction k as [|k IH]; intros [|[|fuel]] p paths m n c Hk Hfuel Hcur Hc Hwk; try lia;
    destruct (walk_start p idx m n ci c U paths Hcur Hc Hwk) as (p1 & m1 & Hcl & Hw);
    cbn [minimizeCall]; rewrite Hcl; cbn [rbind];
    (destruct (walk_call P0 I0 m0 B Htb p idx m n Hcur ci U (ex_intro _ c (conj Hc Hwk)) _ Hw) as (c1 & -> & Hc1 & _)); cbn [rbind];
    (destruct (argsLoop_spec P0 I0 m0 B Htb p idx m n Hcur ci crash U (ex_intro _ c (conj Hc Hwk)) fuel ltac:(lia)
      (sysArgs (Meta c1)) [] _ c1 Hw Hc1 eq_refl) as (b & s1 & E & Ht & Ho));
    cbn [length] in E; rewrite E; cbn [rbind]; destruct b.
  - destruct Ho as (_ & x & HxU & Hx & _). cbn [triedPaths] in Hx.
    assert (U ∖ paths ≡ ∅) as H0 by (apply size_empty_inv; lia). set_solver.
  - destruct Ho as [Hw1 _]. unfold ctxP0. rewrite (wk_shared _ _ _ _ _ _ _ _ _ _ Hw1), (wk_old _ _ _ _ _ _ _ _ _ _ Hw1).
    eexists _, _, _. split_and!; [done| |done|apply Hw1].
    eapply current_grow; [apply _|exact Hcur|apply Hw1|apply Hw1|apply Hw1].
  - destruct Ho as ((Hcur1 & Hlen1 & Hn1 & c2 & Hc2 & Hwk2) & x & HxU & Hx & Hx').
    destruct (IH (S fuel) (ctxP0 s1) (triedPaths s1) (ctxM s1) (runs s1) c2) as (p' & m' & n' & E' & Hcur' & Hlen' & Hn');
      [|lia|done|done|done|].
    + cbn [triedPaths] in Ht, Hx. assert (U ∖ triedPaths s1 ⊂ U ∖ paths) as Hlt by set_solver.
      apply subset_size in Hlt. lia.
    + exists p', m', n'. split_and!; [exact E'|done|lia|lia].
  - destruct Ho as [Hw1 _]. unfold ctxP0. rewrite (wk_shared _ _ _ _ _ _ _ _ _ _ Hw1), (wk_old _ _ _ _ _ _ _ _ _ _ Hw1).
    eexists _, _, _. split_and!; [done| |done|apply Hw1].
    eapply current_grow; [apply _|exact Hcur|apply Hw1|apply Hw1|apply Hw1].
Qed.

End given.
End target.
End MinimizeArgs.
