(* ===== verification/MinimizeSpec.v ===== *)
(** * MinimizeSpec: what minimization promises (prog/minimization.go)

    [removeCalls] and the whole of [Minimize] return, whatever the predicate answers, and what
    they return is the given program or one that the predicate accepted, well formed and well
    typed, made of calls of the given program in their order; the given program itself is not
    changed. *)

From S2P Require Import Prelude Types Prog ExampleTarget ProgEdit Clone WellFormed Size.
From S2P Require Import Validation Typing ArgTree MinimizePaths Conditions Minimize MinimizeCalls MinimizeArgs.
Import Types Prog ProgEdit Clone WellFormed Validation Typing ArgTree MinimizePaths Minimize MinimizeCalls MinimizeArgs.

Module MinimizeSpec.

#[local] Instance stable_true : Stable (λ _ _, True).
Proof. by split. Qed.

Section target.
Context (target : Target) (pred0 : nat → list Call → heap → Z → bool).
Context (order : list (positive * Arg) → list (positive * Arg)).

(** The given program is the first current one. *)
Lemma current_start J P0 I0 m :
  good target P0 m → J P0 (mHeap m) → -1 ≤ I0 < Z.of_nat (length P0) → current target pred0 J P0 I0 m P0 I0 m 0.
Proof. intros Hg Hj HI. split; [done|done|done|by apply tracks_refl|by left]. Qed.

Section given.
Context (P0 : list Call) (I0 : Z) (m0 : mem) (B : nat).
Hypothesis Htb : tables target (Meta <$> P0).
Notation current := (current target pred0 (J target B) P0 I0 m0).

Lemma minimizeStep_current fuel idx crash i p m n :
  (2 * B + 2 < fuel)%nat → current p idx m n → (i < length p)%nat →
  ∃ p' m' n', minimizeStep target noNeutralize pred0 order fuel idx crash i (p, m, n) = Ret (p', m', n') ∧
    current p' idx m' n' ∧ length p' = length p.
Proof.
  intros HB Hcur Hi. destruct (lookup_lt_is_Some_2 p i Hi) as [c Hc]. unfold minimizeStep, index.
  rewrite decide_True by lia. rewrite Nat2Z.id, Hc. cbn [rbind]. destruct (NoMinimize _) eqn:Hno; [by exists p, m, n|].
  assert (weight target c ≤ B)%nat as Hwt.
  { destruct (cur_inv _ _ _ _ _ _ _ _ _ _ Hcur) as [_ Hl]. by apply (Forall_lookup_1 _ _ _ _ Hl Hc). }
  destruct (minimizeCall_spec target pred0 order P0 I0 m0 B Htb i crash idx (pathSet target c) B fuel p ∅ m n c)
    as (p1 & m1 & n1 & -> & Hcur1 & Hlen1 & _); [|lia|done|done| |].
  - rewrite difference_empty_L. unfold weight in Hwt. lia.
  - split; [done|]. intros x Hx. unfold pathSet. by apply elem_of_list_to_set.
  - cbn [rbind]. destruct (minimizeCallProps_current target noNeutralize pred0 (J target B) P0 I0 m0 i p1 idx m1 n1 Hcur1)
      as (p2 & m2 & n2 & -> & Hcur2 & Hlen2 & _); [lia|].
    exists p2, m2, n2. split_and!; [done|done|lia].
Qed.

Lemma minimizeLoop_current fuel idx crash p m n :
  (2 * B + 2 < fuel)%nat → current p idx m n →
  ∃ p' m' n', for_list (minimizeStep target noNeutralize pred0 order fuel idx crash) (seq 0 (length p)) (p, m, n)
    = Ret (p', m', n') ∧ current p' idx m' n'.
Proof.
  intros HB Hcur.
  destruct (for_list_inv (λ _ '(p', m', n'), current p' idx m' n' ∧ length p' = length p)
    (minimizeStep target noNeutralize pred0 order fuel idx crash) (seq 0 (length p)) (p, m, n))
    as ([[p' m'] n'] & E & Hc & _); [done| |by exists p', m', n'].
  intros dn i r [[p1 m1] n1] Hs [Hc1 Hl1]. assert (i ∈ seq 0 (length p)) as Hi by (rewrite Hs; set_solver).
  apply elem_of_seq in Hi. destruct (minimizeStep_current fuel idx crash i p1 m1 n1 HB Hc1) as (p2 & m2 & n2 & E & Hc2 & Hl2);
    [lia|]. exists (p2, m2, n2). split_and!; [done|done|lia].
Qed.

(** The call of interest keeps its name. *)
Lemma tracks_name p idx why why' :
  -1 ≤ I0 < Z.of_nat (length P0) → tracks P0 I0 p idx → I0 ≠ -1 →
  idx ≠ -1 ∧ ∃ name, callName P0 I0 why = Ret name ∧ callName p idx why' = Ret name.
Proof.
  intros HI (kept & _ & Hf & [[? _]|(H0 & H1 & Hk)]) Hne; [done|]. split; [lia|].
  destruct (Forall2_lookup_l _ _ _ _ _ Hf Hk) as (c & Hc & Hm). pose proof (lookup_lt_Some _ _ _ Hc).
  apply fmap_Some in Hm as (c0 & Hc0 & Hm). exists (sysName (Meta c)). unfold callName, index.
  by split; rewrite decide_False, decide_True by lia; rewrite ?Hc0, ?Hc; cbn [rbind]; rewrite ?Hm.
Qed.

End given.

(** C12. Removing calls is sound: from a well-formed program, and whatever the predicate
    answers, [removeCalls] returns a well-formed program that consists of calls of the given
    one in their order, with the call of interest at the index it returns; the result is the
    given program or one that the predicate accepted with that index, and no result argument
    of the given program was changed. *)
Theorem removeCalls_sound neutralize `{!Neutralizer neutralize} P0 I0 m :
  good target P0 m → -1 ≤ I0 < Z.of_nat (length P0) →
  ∃ p idx m' n, removeCalls target neutralize pred0 P0 I0 m 0 = Ret (p, idx, m', n) ∧
    good target p m' ∧ mHeap m ⊆ mHeap m' ∧ tracks P0 I0 p idx ∧
    (p = P0 ∧ idx = I0 ∨ accepted pred0 p idx m' n).
Proof.
  intros Hg HI.
  destruct (removeCalls_current target neutralize pred0 (λ _ _, True) P0 I0 m P0 I0 m 0) as (p & idx & m' & n & E & [? _ ? ? ?] & _);
    [by apply current_start|]. by exists p, idx, m', n.
Qed.


End target.

(** ** The example target *)

Module ExampleMin.
Import ExampleTarget.

Lemma ex_ref h a typ dir : typed target h a typ dir → argRef h a = Ret typ.
Proof.
  inversion 1 as [? ? ? ? r ? ? t ? ? Hr [->|Hany] ? ? Ht]; subst; [done|]. exfalso.
  apply types_inv in Ht. rewrite !elem_of_cons, elem_of_nil in Ht.
  destruct_or! Ht; simplify_eq; vm_compute in Hany; discriminate.
Qed.

Lemma ex_shape h a typ dir t :
  typed target h a typ dir → typeAt types typ = Ret t → argRef h a = Ret typ ∧ ∃ dir', shaped target h a t dir'.
Proof.
  intros Ht Htyp. pose proof (ex_ref _ _ _ _ Ht) as Hr. split; [done|].
  inversion Ht as [? ? ? dir' r ? ? t' ? ? Hr' ? ? ? Ht' Hsh]; subst. rewrite Hr in Hr'. injection Hr' as <-.
  change (typeRefs target) with types in Ht'. rewrite Htyp in Ht'. injection Ht' as <-. eauto.
Qed.

Lemma ex_const h a typ dir t :
  typed target h a typ dir → typeAt types typ = Ret t → isConstType t = true → ∃ i d v, a = ConstArg (MkCommon i typ d) v.
Proof.
  intros Ht Htyp Hct. destruct (ex_shape _ _ _ _ _ Ht Htyp) as (Hr & dir' & Hsh).
  inversion Hsh; subst; try discriminate. injection Hr as <-. destruct c. by eexists _, _, _.
Qed.

Lemma ex_ptr h a typ dir tc elem ed :
  typed target h a typ dir → typeAt types typ = Ret (PtrType tc elem ed) →
  ∃ i d ad p, a = PointerArg (MkCommon i typ d) ad 0 p ∧ ∀ x, p = Some x → typed target h x elem ed.
Proof.
  intros Ht Htyp. destruct (ex_shape _ _ _ _ _ Ht Htyp) as (Hr & dir' & Hsh).
  inversion Hsh as [| | | | | | |? ad p]; subst; try discriminate. injection Hr as <-. destruct c. by eexists _, _, _, _.
Qed.

Lemma ex_msg h a dir :
  typed target h a 5 dir → ∃ i d i1 d1 v i2 d2 bs sz,
    a = GroupArg (MkCommon i 5 d) [ConstArg (MkCommon i1 4 d1) v; DataArg (MkCommon i2 3 d2) bs sz].
Proof.
  intros Ht. destruct (ex_shape _ _ _ _ _ Ht eq_refl) as (Hr & dir' & Hsh).
  inversion Hsh as [| | |? l ? ? ? ? ? Hf| | | |]; subst; try discriminate. injection Hr as Hr. destruct c as [i r d].
  cbn [aref] in Hr. subst r. apply Forall2_cons_inv_r in Hf as (a1 & l1 & H1 & Hf & ->).
  apply Forall2_cons_inv_r in Hf as (a2 & l2 & H2 & Hf & ->). apply Forall2_nil_inv_r in Hf as ->.
  destruct (ex_const _ _ _ _ _ H1 eq_refl eq_refl) as (i1 & d1 & v & ->).
  destruct (ex_shape _ _ _ _ _ H2 eq_refl) as (Hr2 & dir2 & Hsh2). inversion Hsh2; subst; try discriminate.
  destruct c as [i2 r2 d2]. injection Hr2 as Hr2. cbn [aref] in Hr2. subst r2. by eexists _, _, _, _, _, _, _, _, _.
Qed.

(** The three passes of [assignSizesArray] succeed on an argument of a call. *)
Definition sizable (h : heap) (a : Arg) : Prop :=
  (∀ pm, ∃ pm', ForeachSubArg target (λ _, h)
    (λ a _ pm, let! pm := Size.saveToParentsMap target h a pm in Ret (pm, false)) a pm = Ret pm') ∧
  (∀ args fields pm vs, ∃ vs', Size.assignArgSize target h a args fields pm args fields 0 (None, vs) = Ret (None, vs')) ∧
  ∀ pm args fields vs, ∃ vs', ForeachSubArg target (λ _, h)
    (λ a _ s, let! s := Size.assignSizesArg target h pm args fields a s in Ret (s, false)) a (None, vs) = Ret (None, vs').

Lemma sizable_result h i dir : typed target h (ResultArg i) 2 dir → sizable h (ResultArg i).
Proof.
  intros H. destruct (ex_shape _ _ _ _ _ H eq_refl) as [Hr _].
  assert (argType target h (ResultArg i) = Ret tFd) as Ht by (unfold argType; by rewrite Hr). split_and!.
  - intros pm. exists pm. unfold ForeachSubArg. cbn [foreachArgImpl]. unfold Size.saveToParentsMap. by rewrite Ht.
  - intros args fields pm vs. exists vs. unfold Size.assignArgSize. cbn [InnerArg]. rewrite Ht. cbn [rbind tFd].
    by rewrite Ht.
  - intros pm args fields vs. exists vs. unfold ForeachSubArg. cbn [foreachArgImpl]. unfold Size.assignSizesArg. by rewrite Ht.
Qed.

Lemma sizable_msg h a dir : typed target h a 6 dir → sizable h a.
Proof.
  intros H. destruct (ex_ptr _ _ _ _ _ _ _ H eq_refl) as (i & d & ad & p & -> & Hp). destruct p as [x|].
  - destruct (ex_msg _ _ _ (Hp _ eq_refl)) as (i1 & d1 & i2 & d2 & v & i3 & d3 & bs & sz & ->). clear H Hp.
    split_and!; intros; eexists; lazy -[insert add64 mul64 Z.div]; reflexivity.
  - split_and!; intros; eexists; lazy -[insert add64 mul64 Z.div]; reflexivity.
Qed.

Lemma sizable_num h a dir : typed target h a 7 dir → sizable h a.
Proof.
  intros H. destruct (ex_ptr _ _ _ _ _ _ _ H eq_refl) as (i & d & ad & p & -> & Hp). destruct p as [x|].
  - destruct (ex_const _ _ _ _ _ (Hp _ eq_refl) eq_refl eq_refl) as (i1 & d1 & v & ->). clear H Hp.
    split_and!; intros; eexists; lazy -[insert add64 mul64 Z.div]; reflexivity.
  - split_and!; intros; eexists; lazy -[insert add64 mul64 Z.div]; reflexivity.
Qed.

Lemma for_list_each {S T} (g : T → S) (f : Arg → S → res S) l t :
  Forall (λ a, ∀ t, ∃ t', f a (g t) = Ret (g t')) l → ∃ t', for_list f l (g t) = Ret (g t').
Proof.
  intros Hl. revert t. induction Hl as [|a l Ha _ IH]; intros t; cbn [for_list]; [eauto|].
  destruct (Ha t) as [t1 ->]. cbn [rbind]. apply IH.
Qed.

Lemma sizable_all h args fields :
  Forall (sizable h) args → ∃ vs, Size.assignSizesArray target h args fields None = Ret (None, vs).
Proof.
  intros Hall. unfold Size.assignSizesArray, Size.assignSizes.
  destruct (for_list_each id (λ a pm, ForeachSubArg target (λ _, h)
    (λ a _ pm, let! pm := Size.saveToParentsMap target h a pm in Ret (pm, false)) a pm) args ∅) as [pm E1];
    [eapply Forall_impl; [exact Hall|]; intros a Ha; apply Ha|].
  unfold id in E1. rewrite E1. cbn [rbind].
  destruct (for_list_each (pair (None : option (gset positive)))
    (λ a s, Size.assignArgSize target h a args fields pm args fields 0 s) args (∅ : gmap positive Z)) as [vs1 ->];
    [eapply Forall_impl; [exact Hall|]; intros a Ha vs; apply Ha|]. cbn [rbind].
  apply (for_list_each (pair None)). eapply Forall_impl; [exact Hall|]. intros a Ha vs. apply Ha.
Qed.

(** The calls of the example have sizes. *)
Lemma ex_sizes h c :
  Meta c ∈ [sysOpen; sysWrite] → typedCall target h c → ∃ vs, Size.assignSizesCall target h c = Ret vs.
Proof.
  intros Hm [Hargs _]. unfold Size.assignSizesCall.
  destruct (sizable_all h (Args c) (sysArgs (Meta c))) as [vs ->]; [|by eexists].
  rewrite !elem_of_cons, elem_of_nil in Hm. destruct Hm as [Hm|[Hm|[]]]; rewrite Hm in Hargs.
  - by apply Forall2_nil_inv_r in Hargs as ->.
  - apply Forall2_cons_inv_r in Hargs as (a1 & l1 & H1 & Hf & ->).
    apply Forall2_cons_inv_r in Hf as (a2 & l2 & H2 & Hf & ->).
    apply Forall2_cons_inv_r in Hf as (a3 & l3 & H3 & Hf & ->). apply Forall2_nil_inv_r in Hf as ->.
    rewrite !Forall_cons. split_and!; [|by eapply sizable_msg|by eapply sizable_num|done].
    destruct (ex_shape _ _ _ _ _ H1 eq_refl) as (_ & dir1 & Hsh1). inversion Hsh1; subst; try discriminate.
    by eapply sizable_result.
Qed.

Lemma ex_tables : tables target (Meta <$> calls).
Proof.
  split.
  - intros r t Ht. apply types_inv in Ht. rewrite !elem_of_cons, elem_of_nil in Ht. by destruct_or! Ht; simplify_eq.
  - intros r tc fields f Ht Hf. apply types_inv in Ht. rewrite !elem_of_cons, elem_of_nil in Ht. destruct_or! Ht; simplify_eq.
    injection H0 as -> ->. rewrite !elem_of_cons, elem_of_nil in Hf. by destruct_or! Hf; subst.
  - intros r tc desc Ht _. apply types_inv in Ht. rewrite !elem_of_cons, elem_of_nil in Ht. destruct_or! Ht; simplify_eq.
    injection H0 as -> ->. split; [simpl; lia|done].
  - intros h c Hm Ht _. by apply ex_sizes.
Qed.

Lemma ex_good : good target calls (Mem heap0 12).
Proof.
  split; [apply exampleProg_wf|]. apply (validate_wellOrdered target heap0 false); [apply example_oneKind|apply example_validate|].
  intros i o Ho. apply example_heap in Ho as [[-> ->]|[-> ->]]; discriminate.
Qed.

Lemma ex_light : Forall (light target 12) calls.
Proof.
  assert (∀ c, (weight target c ≤ 12)%nat → light target 12 c) as H.
  { intros c Hw. split; [done|]. intros _ r _ tc desc Ht. apply types_inv in Ht. rewrite !elem_of_cons, elem_of_nil in Ht.
    destruct_or! Ht; simplify_eq. by injection H0 as -> ->. }
  unfold calls. rewrite !Forall_cons, Forall_nil. split_and!; try done; apply H; apply (bool_decide_unpack _); by vm_compute.
Qed.

(** A crash that needs one call, whichever. *)
Definition someCall (_ : nat) (p : list Call) (_ : heap) (_ : Z) : bool := bool_decide (p ≠ []).

End ExampleMin.

(** The call of interest is all that is left, with a special pointer and default values. *)
Example example_minimize :
  match Minimize ExampleTarget.target noNeutralize ExampleMin.someCall id 30 ExampleTarget.calls 1 false (Mem ExampleTarget.heap0 12) with
  | Ret (p, idx, _, _) => Some (sysName ∘ Meta <$> p, idx)
  | _ => None
  end = Some (["write"], 0).
Proof. vm_compute. reflexivity. Qed.

Lemma removeCalls_sound_witness :
  ∃ p idx m' n, removeCalls ExampleTarget.target noNeutralize ExampleMin.someCall ExampleTarget.calls 1 (Mem ExampleTarget.heap0 12) 0
      = Ret (p, idx, m', n) ∧ good ExampleTarget.target p m'.
Proof.
  destruct (removeCalls_sound ExampleTarget.target ExampleMin.someCall noNeutralize ExampleTarget.calls 1
    (Mem ExampleTarget.heap0 12) ExampleMin.ex_good) as (p & idx & m' & n & E & Hg & _); [simpl; lia|].
  exists p, idx, m', n. split; [exact E|exact Hg].
Defined.

End MinimizeSpec.
