(* ===== verification/Analysis.v ===== *)
(** * Analysis: what a program uses (prog/analysis.go)

    The state that generation, mutation and the text parser start from: the memory and the
    pages a program occupies, the resources it creates and the strings and file names it
    mentions. *)

From S2P Require Import Prelude Alloc Bytes Types Prog ExampleTarget ProgEdit Clone Validation.
Import Bytes Types Prog Validation.

Module Analysis.

Record state := MkState {
  files : gset (list Z);
  resources : gmap string (list positive);
  strings : gset (list Z);
  ma : MemAlloc.memAlloc;
  va : VmaAlloc.vmaAlloc
}.

Section target.
Context (target : Target).

Notation typeAt := (typeAt (typeRefs target)).

Definition newState : res state :=
  let! ma := MemAlloc.newMemAlloc (NumPages target *! PageSize target) in
  Ret (MkState ∅ ∅ ∅ ma (VmaAlloc.newVmaAlloc (NumPages target))).

(** The memory of a pointer. *)
Definition noteMemory (h : heap) (arg : Arg) (s : state) : res state :=
  match arg with
  | PointerArg _ addr vmaSize pointee =>
    if isSpecial addr vmaSize pointee then Ret s
    else if decide (vmaSize ≠ 0) then
      if decide (PageSize target = 0) then Panic "integer divide by zero"
      else
        Ret (MkState (files s) (resources s) (strings s) (ma s)
          (VmaAlloc.noteAlloc (va s) (addr `div` PageSize target) (vmaSize `div` PageSize target)))
    else
      match pointee with
      | None => Ret s
      | Some p =>
        let! sz := Prog.Size target h p in
        let! ma := MemAlloc.noteAlloc (ma s) addr sz in
        Ret (MkState (files s) (resources s) (strings s) ma (va s))
      end
  | _ => Ret s
  end.

(** A string or a file name. *)
Definition noteString (desc : BufferDesc) (data : list Z) (s : state) : state :=
  let val := stripZeros data in
  match bufKind desc with
  | BufferString => MkState (files s) (resources s) ({[val]} ∪ strings s) (ma s) (va s)
  | BufferFilename =>
    if decide (length val < 3)%nat then s
    else if escapingFilename val then s
    else
      let val := if decide (last val = Some 0) then take (length val - 1) val else val in
      MkState ({[val]} ∪ files s) (resources s) (strings s) (ma s) (va s)
  | _ => s
  end.

(** The callback of [analyzeImpl]. *)
Definition noteArg (h : heap) (withResources : bool) (arg : Arg) (s : state) : res state :=
  let! s := noteMemory h arg s in
  let! t := argType target h arg in
  match t, arg with
  | ResourceType _ _ desc, ResultArg i =>
    let! o := deref h i in
    Ret (if withResources && bool_decide (rDir o ≠ DirIn) then
           MkState (files s) (<[resName desc := default [] (resources s !! resName desc) ++ [i]]> (resources s))
             (strings s) (ma s) (va s)
         else s)
  | ResourceType _ _ _, _ => Panic "interface conversion: not a *ResultArg"
  | BufferType _ desc, DataArg c data _ =>
    Ret (if decide (adir c ≠ DirOut ∧ data ≠ []) then noteString desc data s else s)
  | BufferType _ _, _ => Panic "interface conversion: not a *DataArg"
  | _, _ => Ret s
  end.

Definition analyzeImpl (h : heap) (c : Call) (withResources : bool) (s : state) : res state :=
  ForeachArg target (λ _, h) (λ arg _ s, let! s := noteArg h withResources arg s in Ret (s, false)) c s.

(** [analyze(ct, corpus, p, c)]: the resources of the calls from the one with the index [upto]
    on are left out, all of them are noted if there is none. *)
Definition analyze (h : heap) (calls : list Call) (upto : option nat) : res state :=
  let! s := newState in
  let! '(_, s) :=
    for_list (λ c '(i, s),
      let! s := analyzeImpl h c (match upto with Some k => bool_decide (i < k)%nat | None => true end) s in
      Ret (S i, s)) calls (0%nat, s) in
  Ret s.

End target.
End Analysis.
