(* ===== verification/Hints.v ===== *)
(** * Hints: mutations by comparison operands (prog/hints.go)

    The kernel reports which values were compared with each other; values of the program
    that occur in a comparison are replaced with the other operand.  The mutants are run
    by a callback while the argument holds the replacement: the model returns the
    contents of the argument at each call of the callback, and its final contents. *)

From S2P Require Import Prelude Rand Bytes Types Prog ExampleTarget.
Import Bytes Types Prog.

Module Hints.

(** [CompMap]: for an operand the set of values it was compared with. *)
Notation CompMap := (gmap Z (gset Z)) (only parsing).

Definition AddComp (m : CompMap) (arg1 arg2 : Z) : CompMap :=
  <[arg1 := {[arg2]} ∪ default ∅ (m !! arg1)]> m.

Definition maxDataLength : nat := 100.

Definition mask64 (size : Z) : Z := shl64 1 size -! 1.

(** The part of the value that is looked up for one width: its low bytes, or for a
    negative width their sign extension.  The result is the width in bytes, the size in
    bits and the value. *)
Definition hintMutant (v bitsize iwidth : Z) : option (Z * Z * Z) :=
  if decide (iwidth > 0) then
    let size := iwidth * 8 in Some (iwidth, size, Z.land v (mask64 size))
  else
    let width := - iwidth in
    let size := if decide (bitsize < width * 8) then bitsize else width * 8 in
    if decide (Z.land v (shl64 1 (size - 1)) = 0) then None
    else Some (width, size, Z.lor v (not64 (mask64 size))).

(** Images are only searched for wide values that are not all zeros or all ones. *)
Definition hintSkipped (image : bool) (width size mutant : Z) : bool :=
  image && (bool_decide (width < 4) || bool_decide (mutant = 0) ||
            bool_decide (Z.lor mutant (not64 (mask64 size)) = 2 ^ 64 - 1)).

(** The body of the innermost loop: the value that replaces [v], if any. *)
Definition hintReplacer (v bitsize : Z) (image : bool) (width size : Z) (bigendian : bool) (newV : Z) :
    res (option Z) :=
  let limit := shl64 1 bitsize -! 1 in
  let high := not64 (Z.shiftr limit 1) in
  if decide (limit < newV ∧ Z.land high newV ≠ high) then Ret None
  else
    let mask := mask64 size in
    let newHi := Z.land newV (not64 mask) in
    let newV := Z.land newV mask in
    if decide (newHi ≠ 0 ∧ Z.lxor newHi (not64 mask) ≠ 0) then Ret None
    else
      let! newV := if bigendian then swapInt newV width else Ret newV in
      if negb image && bool_decide (newV ∈ specialInts) then Ret None
      else
        let replacer := Z.lor (Z.ldiff v mask) newV in
        if decide (replacer = v) then Ret None
        else let! r := truncateToBitSize replacer bitsize in Ret (Some r).

(** The loop over both byte orders. *)
Definition hintOrders (v : Z) (compMap : CompMap) (bitsize : Z) (image : bool) (width size mutant : Z)
    (replacers : gset Z) : res (gset Z) :=
  for_list (λ (bigendian : bool) replacers,
    if bigendian && bool_decide (width = 1) then Ret replacers
    else
      let! mutant := if bigendian then swapInt mutant width else Ret mutant in
      for_list (λ newV replacers,
        let! r := hintReplacer v bitsize image width size bigendian newV in
        Ret (match r with Some r => {[r]} ∪ replacers | None => replacers end))
        (elements (default ∅ (compMap !! mutant))) replacers)
    [false; true] replacers.

Definition iwidths : list Z := [8; 4; 2; 1; -4; -2; -1].

Definition shrinkExpand (v0 : Z) (compMap : CompMap) (bitsize : Z) (image : bool) : res (list Z) :=
  let! v := truncateToBitSize v0 bitsize in
  let! replacers :=
    for_list (λ iwidth replacers,
      match hintMutant v bitsize iwidth with
      | None => Ret replacers
      | Some (width, size, mutant) =>
        if hintSkipped image width size mutant then Ret replacers
        else hintOrders v compMap bitsize image width size mutant replacers
      end) iwidths ∅ in
  Ret (merge_sort Z.le (elements replacers)).

(** [checkConstArg]: the values the argument takes; at the end it has its own again. *)
Definition checkConstArg (val : Z) (compMap : CompMap) (bitsize : Z) : res (list Z * Z) :=
  let original := val in
  let! replacers := shrinkExpand original compMap bitsize false in
  Ret (replacers, original).

(** Eight bytes of [data] from [i] on, padded with zeros. *)
Definition window (data : list Z) (i : nat) : list Z :=
  let l := take 8 (drop i data) in l ++ replicate (8 - length l) 0.

(** One position of the loops over data: [step] runs the callback on the changed data. *)
Definition hintsAt (image : bool) (compMap : CompMap) (i : nat) (s : list (list Z) * list Z) :
    res (list (list Z) * list Z) :=
  let (runs, data) := s in
  let original := window data i in
  let! replacers := shrinkExpand (getUint false original) compMap 64 image in
  let! '(runs, data) :=
    for_list (λ r '(runs, data),
      let data := copyAt data i (putUint false 8 r) in Ret (runs ++ [data], data)) replacers (runs, data) in
  Ret (runs, copyAt data i original).

Definition checkDataArg (data : list Z) (compMap : CompMap) : res (list (list Z) * list Z) :=
  let size := Nat.min (length data) maxDataLength in
  for_list (hintsAt false compMap) (seq 0 size) ([], data).

(** [checkCompressedArg]; [compress] and [decompress] are those of pkg/image. *)
Definition checkCompressedArg (compress decompress : list Z → list Z) (data0 : list Z) (compMap : CompMap) :
    res (list (list Z) * list Z) :=
  let data := decompress data0 in
  let! '(runs, _) :=
    for_list (hintsAt true compMap) ((λ k, 4 * k)%nat <$> seq 0 ((length data + 3) / 4)) ([], data) in
  Ret (compress <$> runs, data0).

(** [generateHints]: which arguments are mutated; the result is the contents of the
    argument at each run. *)
Inductive hintRun := RunVal (v : Z) | RunData (d : list Z).

Section target.
Context (target : Target) (h : heap) (compress decompress : list Z → list Z).

Definition skipHints (t : Typ) : bool :=
  match t with
  | ProcType _ _ _ | CsumType _ _ _ _ => true
  | ConstType _ _ _ => IsPad t
  | BufferType _ desc =>
    match bufKind desc with
    | BufferFilename => true
    | BufferString | BufferGlob => bool_decide (bufValues desc ≠ [])
    | _ => false
    end
  | _ => false
  end.

Definition generateHints (compMap : CompMap) (arg : Arg) : res (list hintRun) :=
  let! t := argType target h arg in
  let! dir := argDir h arg in
  if decide (dir = DirOut) then Ret []
  else if skipHints t then Ret []
  else
    match arg with
    | ConstArg _ val =>
      let! bits := TypeBitSize t in
      let! '(vs, _) := checkConstArg val compMap bits in Ret (RunVal <$> vs)
    | DataArg c data _ =>
      match t with
      | BufferType _ desc =>
        let! data := argData (adir c) data in
        let! '(runs, _) :=
          if decide (bufKind desc = BufferCompressed) then checkCompressedArg compress decompress data compMap
          else checkDataArg data compMap in
        Ret (RunData <$> runs)
      | _ => Panic "interface conversion: not a *BufferType"
      end
    | _ => Ret []
    end.
End target.

(** ** What a replacement looks like *)

(** Sorting without duplicates. *)
Lemma sorted_strict l : StronglySorted Z.le l → NoDup l → StronglySorted Z.lt l.
Proof.
  induction 1 as [|x l Hs IH Hx]; intros Hnd; [constructor|]. apply NoDup_cons in Hnd as [Hni Hnd].
  constructor; [auto|]. rewrite Forall_forall in Hx |- *. intros y Hy. specialize (Hx y Hy).
  assert (x ≠ y) by congruence. lia.
Qed.

Section replacers.
Context (v bitsize : Z) (comps : CompMap).
Hypothesis Hbits : 0 < bitsize ≤ 64.
Hypothesis Hv : is_u bitsize v.
Hypothesis Hcomps : ∀ m x, x ∈ default ∅ (comps !! m) → is_u 64 x.

(** The operand [newV] is an integer of [size] bits, zero- or sign-extended. *)
Definition fits (size newV : Z) : Prop := newV < 2 ^ size ∨ 2 ^ 64 - 2 ^ size ≤ newV.

(** [r] is [v] with its [size] low bits replaced by those of an operand that some part of
    [v] was compared with, in either byte order. *)
Definition replaces (r : Z) : Prop :=
  is_u bitsize r ∧ ∃ width size m newV x,
    width ∈ [1; 2; 4; 8] ∧ (size = 8 * width ∨ size = bitsize ∧ bitsize < 8 * width) ∧
    newV ∈ default ∅ (comps !! m) ∧ fits size newV ∧
    (x = newV `mod` 2 ^ size ∨ x = swapBytes (Z.to_nat width) (newV `mod` 2 ^ size)) ∧
    ∀ i, 0 ≤ i < bitsize → Z.testbit r i = if decide (i < size) then Z.testbit x i else Z.testbit v i.

Lemma mask64_ones size : 0 ≤ size ≤ 64 → mask64 size = Z.ones size.
Proof. apply mask_ones. Qed.

Lemma not_mask size : 0 ≤ size ≤ 64 → not64 (mask64 size) = 2 ^ 64 - 2 ^ size.
Proof.
  intros Hs. rewrite mask64_ones by done. unfold not64, wrapU. rewrite Z.ones_equiv.
  assert (2 ^ size ≤ 2 ^ 64) by (apply Z.pow_le_mono_r; lia). assert (0 < 2 ^ size) by lia.
  replace (Z.lnot (Z.pred (2 ^ size))) with (- 2 ^ size) by (unfold Z.lnot; lia).
  symmetry. apply (Z.mod_unique_pos _ _ (-1)); lia.
Qed.

Lemma swapInt_spec x width :
  width ∈ [2; 4; 8] → 0 ≤ x < 2 ^ (8 * width) → swapInt x width = Ret (swapBytes (Z.to_nat width) x).
Proof.
  intros Hw Hx. rewrite !elem_of_cons, elem_of_nil in Hw. unfold swapInt, swapBytes.
  destruct Hw as [->|[->|[->|[]]]]; simpl.
  - by rewrite wrapU_small, swap16_bytes by exact Hx.
  - by rewrite wrapU_small, swap32_bytes by exact Hx.
  - by rewrite swap64_bytes.
Qed.

(** The high bits of an accepted operand are all zeros or all ones. *)
Lemma high_bits size newV :
  0 ≤ size ≤ 64 → is_u 64 newV → ¬ (Z.land newV (not64 (mask64 size)) ≠ 0 ∧
    Z.lxor (Z.land newV (not64 (mask64 size))) (not64 (mask64 size)) ≠ 0) → fits size newV.
Proof.
  intros Hs [Hn0 Hn] Hc. rewrite not_mask in Hc by done.
  assert (0 < 2 ^ size) as Hp by lia.
  assert (2 ^ 64 - 2 ^ size = Z.shiftl (Z.ones (64 - size)) size) as Hm.
  { rewrite Z.shiftl_mul_pow2, Z.ones_equiv by lia. replace 64 with (64 - size + size) at 1 by lia.
    rewrite Z.pow_add_r by lia. lia. }
  assert (Z.land newV (2 ^ 64 - 2 ^ size) = newV `div` 2 ^ size * 2 ^ size) as Hl.
  { rewrite Hm. rewrite <-Z.shiftl_mul_pow2, <-Z.shiftr_div_pow2 by lia. apply Z.bits_inj'. intros i Hi.
    rewrite Z.land_spec, !Z.shiftl_spec by lia. destruct (decide (i < size)).
    - rewrite !(Z.testbit_neg_r _ (i - size)) by lia. by rewrite andb_false_r.
    - rewrite Z.shiftr_spec by lia. replace (i - size + size) with i by lia.
      destruct (decide (i < 64)); [rewrite Z.ones_spec_low by lia; apply andb_true_r|].
      assert (newV `mod` 2 ^ 64 = newV) as <- by (by apply Z.mod_small).
      by rewrite Z.mod_pow2_bits_high by lia. }
  rewrite Hl in Hc. pose proof (Z.div_mod newV (2 ^ size)) as Hdm. pose proof (Z.mod_pos_bound newV (2 ^ size) Hp).
  unfold fits. destruct (decide (newV `div` 2 ^ size * 2 ^ size = 0)) as [Hz|Hz]; [left; lia|].
  right. assert (Z.lxor (newV `div` 2 ^ size * 2 ^ size) (2 ^ 64 - 2 ^ size) = 0) as Hx.
  { apply dec_stable. intros Hx. apply Hc. split; [exact Hz|exact Hx]. }
  apply Z.lxor_eq in Hx. lia.
Qed.

Lemma replacer_bits size x i :
  0 ≤ size ≤ 64 → 0 ≤ x → 0 ≤ i < bitsize → (i < size ∨ x < 2 ^ size) →
  Z.testbit (Z.lor (Z.ldiff v (mask64 size)) x `mod` 2 ^ bitsize) i =
    if decide (i < size) then Z.testbit x i else Z.testbit v i.
Proof.
  intros Hs Hx Hi Hxs. rewrite Z.mod_pow2_bits_low by lia.
  rewrite Z.lor_spec, Z.ldiff_spec, mask64_ones by lia. case_decide.
  - rewrite Z.ones_spec_low by lia. simpl. by rewrite andb_false_r.
  - rewrite Z.ones_spec_high by lia. simpl. rewrite andb_true_r.
    destruct Hxs as [?|Hxs]; [lia|]. assert (x `mod` 2 ^ size = x) as <- by (apply Z.mod_small; lia).
    rewrite Z.mod_pow2_bits_high by lia. apply orb_false_r.
Qed.

Lemma hintReplacer_spec image width size be m newV :
  width ∈ [1; 2; 4; 8] → (size = 8 * width ∨ size = bitsize ∧ bitsize < 8 * width) →
  (be = true → width ≠ 1) → newV ∈ default ∅ (comps !! m) →
  ∃ o, hintReplacer v bitsize image width size be newV = Ret o ∧ ∀ r, o = Some r → replaces r.
Proof.
  intros Hw Hsize Hbe Hin. unfold hintReplacer. case_decide as Hlim; [by exists None|].
  case_decide as Hhi; [by exists None|].
  assert (0 < size ≤ 64 ∧ 0 < width) as [Hs Hw0].
  { rewrite !elem_of_cons, elem_of_nil in Hw. lia. }
  pose proof (high_bits size newV ltac:(lia) (Hcomps _ _ Hin) Hhi) as Hfits.
  rewrite (mask64_ones size), Z.land_ones by lia. set (y := newV `mod` 2 ^ size).
  assert (0 ≤ y < 2 ^ size) as Hy by (apply Z.mod_pos_bound; lia).
  assert (∃ x, (if be then swapInt y width else Ret y) = Ret x ∧ 0 ≤ x ∧
    (x = y ∨ x = swapBytes (Z.to_nat width) y) ∧ (x < 2 ^ size ∨ size = bitsize)) as (x & -> & Hx0 & Hx & Hxs).
  { destruct be; [|exists y; split_and!; [done|lia|by left|left; lia]].
    assert (2 ^ size ≤ 2 ^ (8 * width)) by (apply Z.pow_le_mono_r; lia).
    rewrite swapInt_spec; [|specialize (Hbe eq_refl); set_solver|lia].
    pose proof (swapBytes_range (Z.to_nat width) y) as Hr. eexists. split; [done|].
    split; [lia|]. split; [by right|]. destruct Hsize as [->|[-> ?]]; [left|by right].
    rewrite Z2Nat.id in Hr by lia. change 256 with (2 ^ 8) in Hr. rewrite <-Z.pow_mul_r in Hr by lia. lia. }
  cbn [rbind]. destruct (negb image && _); [by exists None|]. case_decide; [by exists None|].
  rewrite truncateToBitSize_spec by done. cbn [rbind]. eexists. split; [done|]. intros r [= <-].
  split; [apply Z.mod_pos_bound; lia|]. exists width, size, m, newV, x. split_and!; try done.
  intros i Hi. rewrite <-mask64_ones by lia. apply replacer_bits; [lia|done|done|].
  destruct Hxs as [?| ->]; [by right|left; lia].
Qed.

Definition allReplace (s : gset Z) : Prop := ∀ r, r ∈ s → replaces r.

Lemma hintOrders_spec image width size mutant s :
  width ∈ [1; 2; 4; 8] → (size = 8 * width ∨ size = bitsize ∧ bitsize < 8 * width) → allReplace s →
  ∃ s', hintOrders v comps bitsize image width size mutant s = Ret s' ∧ allReplace s'.
Proof.
  intros Hw Hsize Hs. unfold hintOrders.
  destruct (for_list_inv (λ (_ : list bool) s, allReplace s) (λ (bigendian : bool) replacers,
    if bigendian && bool_decide (width = 1) then Ret replacers
    else
      let! mutant := if bigendian then swapInt mutant width else Ret mutant in
      for_list (λ newV replacers,
        let! r := hintReplacer v bitsize image width size bigendian newV in
        Ret (match r with Some r => {[r]} ∪ replacers | None => replacers end))
        (elements (default ∅ (comps !! mutant))) replacers) [false; true] s Hs) as (s' & -> & Hs'); [|eauto].
  intros _ be _ s1 _ Hs1. destruct (be && bool_decide (width = 1)) eqn:Eb; [by eauto|].
  assert (be = true → width ≠ 1) as Hbe by (intros -> ->; done).
  assert (∃ m, (if be then swapInt mutant width else Ret mutant) = Ret m) as [m ->].
  { destruct be; [|by eauto]. specialize (Hbe eq_refl). unfold swapInt.
    rewrite !elem_of_cons, elem_of_nil in Hw. repeat case_decide; eauto; exfalso; lia. }
  cbn [rbind].
  destruct (for_list_inv (λ (_ : list Z) s, allReplace s) (λ newV replacers,
        let! r := hintReplacer v bitsize image width size be newV in
        Ret (match r with Some r => {[r]} ∪ replacers | None => replacers end))
    (elements (default ∅ (comps !! m))) s1 Hs1) as (s2 & -> & Hs2); [|eauto].
  intros dn newV rest s2 Heq Hs2. assert (newV ∈ default ∅ (comps !! m)) as Hin.
  { apply elem_of_elements. rewrite Heq. set_solver. }
  destruct (hintReplacer_spec image width size be m newV Hw Hsize Hbe Hin) as (o & -> & Ho). cbn [rbind].
  eexists. split; [done|]. destruct o as [r|]; [|done]. intros r' [->%elem_of_singleton|Hr']%elem_of_union; auto.
Qed.

Lemma hintMutant_spec iwidth width size mutant :
  iwidth ∈ iwidths → hintMutant v bitsize iwidth = Some (width, size, mutant) →
  width ∈ [1; 2; 4; 8] ∧ (size = 8 * width ∨ size = bitsize ∧ bitsize < 8 * width).
Proof.
  intros Hi Hm. unfold hintMutant in Hm. unfold iwidths in Hi. rewrite !elem_of_cons, elem_of_nil in *.
  case_decide; [|case_decide; [done|]]; injection Hm as <- <- _; [lia|]. case_decide; lia.
Qed.

Lemma shrink_replaces image v0 :
  v0 `mod` 2 ^ bitsize = v →
  ∃ l, shrinkExpand v0 comps bitsize image = Ret l ∧ StronglySorted Z.lt l ∧ ∀ r, r ∈ l → replaces r.
Proof.
  intros Hv0. unfold shrinkExpand. rewrite truncateToBitSize_spec by done. cbn [rbind]. rewrite Hv0.
  destruct (for_list_inv (λ (_ : list Z) s, allReplace s) (λ iwidth replacers,
      match hintMutant v bitsize iwidth with
      | None => Ret replacers
      | Some (width, size, mutant) =>
        if hintSkipped image width size mutant then Ret replacers
        else hintOrders v comps bitsize image width size mutant replacers
      end) iwidths ∅) as (s & -> & Hs).
  - intros r Hr. set_solver.
  - intros dn iw rest s Heq Hs. destruct (hintMutant v bitsize iw) as [[[w sz] m]|] eqn:Em; [|by eauto].
    destruct (hintMutant_spec iw w sz m) as [Hw Hsz]; [rewrite Heq; set_solver|done|].
    destruct (hintSkipped image w sz m); [by eauto|]. by apply hintOrders_spec.
  - cbn [rbind]. eexists. split; [done|]. pose proof (merge_sort_Permutation Z.le (elements s)) as Hp. split.
    + apply sorted_strict; [apply StronglySorted_merge_sort; apply _|]. rewrite Hp. apply NoDup_elements.
    + intros r. rewrite Hp, elem_of_elements. apply Hs.
Qed.
End replacers.



(** ** Data *)

Lemma length_window data i : length (window data i) = 8%nat.
Proof. unfold window. rewrite length_app, length_replicate, length_take. lia. Qed.

Lemma copyAt_window data i : (i ≤ length data)%nat → copyAt data i (window data i) = data.
Proof.
  intros Hi. apply list_eq. intros k. rewrite copyAt_lookup by done. rewrite length_window.
  case_decide; [|done]. case_decide as Hk; [|symmetry; apply lookup_ge_None; lia].
  unfold window. rewrite lookup_app_l by (rewrite length_take, length_drop; lia).
  rewrite lookup_take_lt by lia. rewrite lookup_drop. f_equal. lia.
Qed.

(** The data at a run of the callback: the original but for eight bytes. *)
Definition windowChanged (data d : list Z) : Prop :=
  ∃ i bytes, (i < length data)%nat ∧ length bytes = 8%nat ∧ d = copyAt data i bytes.

Lemma hintsAt_restores image comps i runs data :
  (∀ m x, x ∈ default ∅ (comps !! m) → is_u 64 x) → (i < length data)%nat →
  ∃ new, hintsAt image comps i (runs, data) = Ret (runs ++ new, data) ∧ Forall (windowChanged data) new.
Proof.
  intros Hc Hi. unfold hintsAt.
  destruct (shrink_replaces (getUint false (window data i) `mod` 2 ^ 64) 64 comps) with
    (image := image) (v0 := getUint false (window data i)) as (l & -> & _ & _);
    [lia|apply Z.mod_pos_bound; lia|done|done|].
  cbn [rbind].
  destruct (for_list_inv (λ (_ : list Z) (s : list (list Z) * list Z),
      (∃ new, s.1 = runs ++ new ∧ Forall (windowChanged data) new) ∧
      (s.2 = data ∨ ∃ b, length b = 8%nat ∧ s.2 = copyAt data i b))
    (λ r '(runs, data),
      Ret (runs ++ [copyAt data i (putUint false 8 r)], copyAt data i (putUint false 8 r)))
    l (runs, data)) as ([runs' data'] & -> & (new & Hnew & Hall) & Hd).
  - split; [exists []; by rewrite app_nil_r|by left].
  - intros _ r _ [runs1 d1] _ [(new & Hn & Hall) Hd]. cbn [fst snd] in *.
    eexists. split; [done|]. cbn [fst snd].
    assert (copyAt d1 i (putUint false 8 r) = copyAt data i (putUint false 8 r)) as Heq.
    { destruct Hd as [->|(b & Hb & ->)]; [done|]. apply copyAt_twice; [lia|]. by rewrite length_putUint. }
    rewrite Heq. split; [|right; exists (putUint false 8 r); by rewrite length_putUint].
    exists (new ++ [copyAt data i (putUint false 8 r)]). rewrite Hn, app_assoc. split; [done|].
    apply Forall_app. split; [done|]. apply Forall_singleton. exists i, (putUint false 8 r).
    by rewrite length_putUint.
  - simpl in *. exists new. rewrite Hnew. split; [|done]. do 2 f_equal.
    destruct Hd as [->|(b & Hb & ->)]; [by apply copyAt_window; lia|].
    rewrite copyAt_twice by (rewrite ?length_window; lia). apply copyAt_window. lia.
Qed.

(** [checkDataArg] leaves the data as it was, and every run sees the data with eight
    bytes changed. *)
Lemma checkDataArg_restores data comps :
  (∀ m x, x ∈ default ∅ (comps !! m) → is_u 64 x) →
  ∃ runs, checkDataArg data comps = Ret (runs, data) ∧ Forall (windowChanged data) runs.
Proof.
  intros Hc. unfold checkDataArg.
  destruct (for_list_inv (λ (_ : list nat) (s : list (list Z) * list Z),
      s.2 = data ∧ Forall (windowChanged data) s.1)
    (hintsAt false comps) (seq 0 (Nat.min (length data) maxDataLength)) ([], data))
    as ([runs d] & -> & Hd & Hall).
  - done.
  - intros dn i rest [runs d] Hs [Hd Hall]. simpl in Hd, Hall. subst d.
    assert (i ∈ seq 0 (Nat.min (length data) maxDataLength)) as Hi by (rewrite Hs; set_solver).
    apply elem_of_seq in Hi. destruct (hintsAt_restores false comps i runs data Hc) as (new & -> & Hn); [lia|].
    eexists. split; [done|]. split; [done|]. by apply Forall_app.
  - simpl in Hd. subst d. eauto.
Qed.

(** The example of the code's comment: 0x1234 against a comparison of 0x34 with 0xab. *)
Example shrink_example : shrinkExpand 0x1234 {[0x34 := {[0xab]}]} 16 false = Ret [0x12ab].
Proof. vm_compute. reflexivity. Qed.
Example expand_example : shrinkExpand 0xff {[2 ^ 64 - 1 := {[2 ^ 64 - 2]}]} 8 false = Ret [0xfe].
Proof. vm_compute. reflexivity. Qed.
Example same_value_example : shrinkExpand 0xfe {[0xfe := {[2 ^ 64 - 2]}]} 8 false = Ret [0xfe].
Proof. vm_compute. reflexivity. Qed.

End Hints.
