(* ===== verification/Mutation.v ===== *)
(** * Mutation: mutating data and integers (prog/mutation.go)

    The mutations of byte buffers, of compressed images, of the size of output buffers and
    of integers.  Some loops of the code end with probability one only: they are run with
    fuel, nothing is assumed about the draws, and the theorems say that the loop cannot
    fail, that what it returns is in bounds, and that from every state some draws end it. *)

From S2P Require Import Prelude Rand Bytes Types Prog Heatmap.
Import Bytes Types Prog.

Module Mutation.

Definition maxBlobLen : Z := Z.shiftl 100 10.
Definition maxDelta : Z := 35.

Notation dataRes := (res (list Z * bool * rng)) (only parsing).

(** [n] bytes drawn by [draw]. *)
Fixpoint drawBytes (draw : rng → res (Z * rng)) (n : nat) (r : rng) : res (list Z * rng) :=
  match n with
  | O => Ret ([], r)
  | S n =>
    let! '(x, r) := draw r in
    let! '(l, r) := drawBytes draw n r in
    Ret (x `mod` 256 :: l, r)
  end.

Notation len data := (Z.of_nat (length data)).

(** Flip bit in byte. *)
Definition flipBit (data : list Z) (minLen maxLen : Z) (r : rng) : dataRes :=
  if decide (len data = 0) then Ret (data, false, r)
  else
    let! '(byt, r) := intn (len data) r in
    let! '(bit, r) := intn 8 r in
    let! old := index data byt in
    Ret (<[Z.to_nat byt := Z.lxor old (Z.shiftl 1 bit)]> data, true, r).

(** Insert random bytes. *)
Definition insertBytes (data : list Z) (minLen maxLen : Z) (r : rng) : dataRes :=
  if decide (len data = 0 ∨ maxLen ≤ len data) then Ret (data, false, r)
  else
    let! '(n, r) := intn 16 r in
    let n := n + 1 in
    let room := wrapS 64 maxLen - len data in
    let n := if decide (room < n) then room else n in
    let! '(pos, r) := intn (len data) r in
    let data := data ++ replicate (Z.to_nat n) 0 in
    let data := copyAt data (Z.to_nat (pos + n)) (drop (Z.to_nat pos) data) in
    let! '(bytes, r) := drawBytes Int31 (Z.to_nat n) r in
    let data := copyAt data (Z.to_nat pos) bytes in
    let! '(cut, r) := if decide (maxLen < len data) then Ret (true, r) else bin r in
    Ret (if (cut : bool) then take (length data - Z.to_nat n) data else data, true, r).

(** Remove bytes. *)
Definition removeBytes (data : list Z) (minLen maxLen : Z) (r : rng) : dataRes :=
  if decide (len data = 0) then Ret (data, false, r)
  else
    let! '(n, r) := intn 16 r in
    let n := n + 1 in
    let n := if decide (len data < n) then len data else n in
    let! '(pos, r) := if decide (n < len data) then intn (len data - n) r else Ret (0, r) in
    let data := copyAt data (Z.to_nat pos) (drop (Z.to_nat (pos + n)) data) in
    let data := take (length data - Z.to_nat n) data in
    let! '(pad, r) := if decide (len data < minLen) then Ret (true, r) else bin r in
    Ret (if (pad : bool) then data ++ replicate (Z.to_nat n) 0 else data, true, r).

(** Append a bunch of bytes. *)
Definition appendBytes (data : list Z) (minLen maxLen : Z) (r : rng) : dataRes :=
  if decide (maxLen ≤ len data) then Ret (data, false, r)
  else
    let! '(b, r) := biasedRand 256 10 r in
    let n := 256 - b in
    let room := wrapS 64 maxLen - len data in
    let n := if decide (room < n) then room else n in
    let! '(bytes, r) := drawBytes (rand 256) (Z.to_nat n) r in
    Ret (data ++ bytes, true, r).

(** The choice of an integer in the data: its width and position, if it fits. *)
Definition chooseInt (data : list Z) (r : rng) : res (option (Z * Z) * rng) :=
  let! '(k, r) := intn 4 r in
  let width := Z.shiftl 1 k in
  if decide (len data < width) then Ret (None, r)
  else let! '(i, r) := intn (len data - width + 1) r in Ret (Some (width, i), r).

(** Replace int8/int16/int32/int64 with a random value. *)
Definition replaceInt (data : list Z) (minLen maxLen : Z) (r : rng) : dataRes :=
  let! '(c, r) := chooseInt data r in
  match c with
  | None => Ret (data, false, r)
  | Some (width, i) =>
    let! '(v, r) := Uint64 r in
    let! data := storeInt data i v width in Ret (data, true, r)
  end.

(** Add/subtract from an int8/int16/int32/int64. *)
Definition addInt (data : list Z) (minLen maxLen : Z) (r : rng) : dataRes :=
  let! '(c, r) := chooseInt data r in
  match c with
  | None => Ret (data, false, r)
  | Some (width, i) =>
    let! v := loadInt data i width in
    let! '(d, r) := rand (2 * maxDelta + 1) r in
    let delta := d -! maxDelta in
    let delta := if decide (delta = 0) then 1 else delta in
    let! '(swap, r) := oneOf 10 r in
    let! v := if (swap : bool)
              then let! v := swapInt v width in swapInt (v +! delta) width
              else Ret (v +! delta) in
    let! data := storeInt data i v width in Ret (data, true, r)
  end.

(** Set int8/int16/int32/int64 to an interesting value. *)
Definition setInt (data : list Z) (minLen maxLen : Z) (r : rng) : dataRes :=
  let! '(c, r) := chooseInt data r in
  match c with
  | None => Ret (data, false, r)
  | Some (width, i) =>
    let! '(v, r) := randInt64 r in
    let! '(swap, r) := oneOf 10 r in
    let v := if (swap : bool) then swap64 v else v in
    let! data := storeInt data i v width in Ret (data, true, r)
  end.

Definition mutateDataFuncs : list (list Z → Z → Z → rng → dataRes) :=
  [flipBit; insertBytes; removeBytes; appendBytes; replaceInt; addInt; setInt].

(** One iteration of the loop of [mutateData]: the data, and if the loop ends. *)
Definition mutateDataStep (data : list Z) (minLen maxLen : Z) (r : rng) : dataRes :=
  let! '(k, r) := intn (len mutateDataFuncs) r in
  let! f := index mutateDataFuncs k in
  let! '(data, stop, r) := f data minLen maxLen r in
  let! '(stop, r) := if (stop : bool) then oneOf 3 r else Ret (false, r) in
  Ret (data, stop, r).

Fixpoint mutateData (fuel : nat) (data : list Z) (minLen maxLen : Z) (r : rng) : res (list Z * rng) :=
  match fuel with
  | O => OutOfFuel
  | S fuel =>
    let! '(data, stop, r) := mutateDataStep data minLen maxLen r in
    if (stop : bool) then Ret (data, r) else mutateData fuel data minLen maxLen r
  end.

(** ** Images and the size of output buffers *)

(** The loop of [mutateImage] over the positions of the heatmap. *)
Fixpoint mutateImageLoop (n : nat) (hm : Heatmap.GenericHeatmap) (data : list Z) (r : rng) : res (list Z * rng) :=
  match n with
  | O => Ret (data, r)
  | S n =>
    let! '(i, r) := Heatmap.ChooseLocation hm r in
    let! '(k, r) := intn 4 r in
    let width := Z.shiftl 1 k in
    let width := if decide (len data < i + width) then 1 else width in
    let! '(v, r) := randInt (width * 8) r in
    let! data := storeInt data i v width in
    mutateImageLoop n hm data r
  end.

(** [mutateImage]; [compress] and [decompress] are those of pkg/image. *)
Definition mutateImage (compress decompress : list Z → list Z) (compressed : list Z) (r : rng) :
    res (list Z * bool * rng) :=
  let data := decompress compressed in
  if decide (data = []) then Ret (compressed, true, r)
  else
    let! hm := Heatmap.MakeGenericHeatmap data in
    let! '(n, r) := Heatmap.NumMutations hm r in
    let! '(data, r) := mutateImageLoop (Z.to_nat n) hm data r in
    Ret (compress data, false, r).

Fixpoint mutateBufferSize (fuel : nat) (oldSize size minLen maxLen : Z) (r : rng) : res (Z * rng) :=
  match fuel with
  | O => OutOfFuel
  | S fuel =>
    if decide (oldSize ≠ size) then Ret (size, r)
    else
      let! '(k, r) := intn 33 r in
      let size := size +! (k -! 16) in
      let size := if decide (wrapS 64 size < wrapS 64 minLen) then minLen else size in
      let size := if decide (maxLen < size) then maxLen else size in
      mutateBufferSize fuel oldSize size minLen maxLen r
  end.

(** ** Integers *)

Definition mutateInt (val bits : Z) (r : rng) : res (Z * rng) :=
  let! '(c, r) := nOutOf 1 3 r in
  if (c : bool) then let! '(k, r) := intn 4 r in Ret (val +! (k + 1), r)
  else
    let! '(c, r) := nOutOf 1 2 r in
    if (c : bool) then let! '(k, r) := intn 4 r in Ret (val -! (k + 1), r)
    else let! '(k, r) := intn bits r in Ret (Z.lxor val (shl64 1 k), r).

Definition mutateAlignedInt (val rangeBegin rangeEnd align bits : Z) (r : rng) : res (Z * rng) :=
  let rangeEnd := if decide (rangeBegin = 0 ∧ wrapS 64 rangeEnd = -1) then shl64 1 bits -! 1 else rangeEnd in
  let ind := (val -! rangeBegin) `div` align in
  let misalignment := (val -! rangeBegin) `mod` align in
  let! '(c, r) := nOutOf 1 3 r in
  let! '(ind, r) :=
    if (c : bool) then let! '(k, r) := intn 4 r in Ret (ind +! (k + 1), r)
    else
      let! '(c, r) := nOutOf 1 2 r in
      if (c : bool) then let! '(k, r) := intn 4 r in Ret (ind -! (k + 1), r)
      else let! '(k, r) := intn bits r in Ret (Z.lxor ind (shl64 1 k), r) in
  let lastIndex := (rangeEnd -! rangeBegin) `div` align in
  if decide (lastIndex +! 1 = 0) then Panic "integer divide by zero"
  else
    let ind := ind `mod` (lastIndex +! 1) in
    Ret (rangeBegin +! (ind *! align) +! misalignment, r).

(** [IntType.mutate] where it does not generate a new argument. *)
Definition mutateIntArg (val rangeBegin rangeEnd align bits : Z) (r : rng) : res (Z * rng) :=
  let! '(v, r) := if decide (align = 0) then mutateInt val bits r
                  else mutateAlignedInt val rangeBegin rangeEnd align bits r in
  let! v := truncateToBitSize v bits in Ret (v, r).

(** ** Data stays in bounds *)

Definition inBounds (minLen maxLen : Z) (data : list Z) : Prop :=
  minLen ≤ len data ≤ maxLen ∧ Forall isByte data.

Lemma Forall_copyAt (P : Z → Prop) data i src : Forall P data → Forall P src → Forall P (copyAt data i src).
Proof.
  intros Hd Hs. unfold copyAt. auto with elems.
Qed.

Lemma xor_byte x bit : isByte x → 0 ≤ bit < 8 → isByte (Z.lxor x (Z.shiftl 1 bit)).
Proof.
  intros Hx Hb. unfold isByte in *. rewrite Z.shiftl_1_l. set (y := 2 ^ bit).
  assert (0 ≤ y < 256) as Hy.
  { unfold y. split; [lia|]. change 256 with (2 ^ 8). apply Z.pow_lt_mono_r; lia. }
  assert (0 ≤ Z.lxor x y) as H0 by (apply Z.lxor_nonneg; lia). split; [done|].
  enough (Z.lxor x y = Z.lxor x y `mod` 2 ^ 8) as -> by (apply Z.mod_pos_bound; lia).
  apply Z.bits_inj'. intros i Hi. destruct (decide (i < 8)); [by rewrite Z.mod_pow2_bits_low by lia|].
  rewrite Z.mod_pow2_bits_high by lia. rewrite Z.lxor_spec.
  rewrite <-(Z.mod_small x (2 ^ 8)), <-(Z.mod_small y (2 ^ 8)) by lia.
  rewrite !Z.mod_pow2_bits_high by lia. done.
Qed.

Lemma drawBytes_total draw n r :
  (∀ r, ∃ x r', draw r = Ret (x, r')) →
  ∃ l r', drawBytes draw n r = Ret (l, r') ∧ length l = n ∧ Forall isByte l.
Proof.
  intros Hd. revert r. induction n as [|n IH]; intros r; simpl; [exists [], r; by repeat constructor|].
  destruct (Hd r) as (x & r1 & ->). cbn [rbind]. destruct (IH r1) as (l & r2 & -> & Hl & Hb). cbn [rbind].
  eexists _, _. split; [done|]. split; [simpl; lia|]. constructor; [|done]. unfold isByte. apply Z.mod_pos_bound. lia.
Qed.

Lemma chooseInt_spec data r :
  ∃ c r', chooseInt data r = Ret (c, r') ∧
    match c with
    | Some (width, i) => (width = 1 ∨ width = 2 ∨ width = 4 ∨ width = 8) ∧ 0 ≤ i ∧ i + width ≤ len data
    | None => True
    end.
Proof.
  unfold chooseInt. destruct (intn_total 4 r) as (k & r1 & -> & Hk); [lia|]. cbn [rbind].
  assert (Z.shiftl 1 k = 1 ∨ Z.shiftl 1 k = 2 ∨ Z.shiftl 1 k = 4 ∨ Z.shiftl 1 k = 8) as Hw.
  { assert (k = 0 ∨ k = 1 ∨ k = 2 ∨ k = 3) as [->|[->|[->| ->]]] by lia; simpl; auto. }
  case_decide; [by eexists None, _|].
  destruct (intn_total (len data - Z.shiftl 1 k + 1) r1) as (i & r2 & -> & Hi); [lia|]. cbn [rbind].
  eexists _, _. split; [done|]. split_and!; [done|lia|lia].
Qed.

Lemma storeInt_spec data i v width :
  (width = 1 ∨ width = 2 ∨ width = 4 ∨ width = 8) → 0 ≤ i → i + width ≤ len data → Forall isByte data →
  ∃ data', storeInt data i v width = Ret data' ∧ length data' = length data ∧ Forall isByte data'.
Proof.
  intros Hw Hi Hl Hb. unfold storeInt, intSize. rewrite bool_decide_true by done. simpl.
  rewrite decide_True by lia. eexists. split; [done|]. split; [apply length_copyAt; lia|].
  apply Forall_copyAt; [done|]. apply bytesLE_isByte.
Qed.

Lemma swapInt_total v width :
  (width = 1 ∨ width = 2 ∨ width = 4 ∨ width = 8) → ∃ v', swapInt v width = Ret v'.
Proof. intros [->|[->|[->| ->]]]; unfold swapInt; simpl; eauto. Qed.

(** What every mutation of [mutateDataFuncs] guarantees. *)
Definition keepsBounds (f : list Z → Z → Z → rng → dataRes) : Prop := ∀ data minLen maxLen r,
  inBounds minLen maxLen data → 0 ≤ minLen → maxLen < 2 ^ 63 →
  ∃ data' stop r', f data minLen maxLen r = Ret (data', stop, r') ∧ inBounds minLen maxLen data'.

Lemma flipBit_bounds : keepsBounds flipBit.
Proof.
  intros data minLen maxLen r [Hl Hb] Hmin Hmax. unfold flipBit.
  case_decide; [by eexists _, _, _|].
  destruct (intn_total (len data) r) as (k & r1 & -> & Hk); [lia|]. cbn [rbind].
  destruct (intn_total 8 r1) as (bit & r2 & -> & Hbit); [lia|]. cbn [rbind].
  destruct (index_total data k Hk) as (old & Hold & ->). cbn [rbind]. eexists _, _, _. split; [done|].
  split; [by rewrite length_insert|]. apply Forall_insert; [done|]. apply xor_byte; [|done].
  by eapply Forall_lookup_1 in Hold.
Qed.

Lemma wrapS_small z : - 2 ^ 63 ≤ z < 2 ^ 63 → wrapS 64 z = z.
Proof. intros H. unfold wrapS. rewrite Z.mod_small by lia. lia. Qed.

Lemma insertBytes_bounds : keepsBounds insertBytes.
Proof.
  intros data minLen maxLen r [Hl Hb] Hmin Hmax. unfold insertBytes.
  case_decide; [by eexists _, _, _|].
  destruct (intn_total 16 r) as (n0 & r1 & -> & Hn0); [lia|]. cbn [rbind]. rewrite wrapS_small by lia.
  set (n := if decide (maxLen - len data < n0 + 1) then maxLen - len data else n0 + 1).
  assert (1 ≤ n ≤ maxLen - len data) as Hn by (unfold n; case_decide; lia). clearbody n.
  destruct (intn_total (len data) r1) as (pos & r2 & -> & Hpos); [lia|]. cbn [rbind].
  set (d1 := data ++ replicate (Z.to_nat n) 0).
  assert (length d1 = (length data + Z.to_nat n)%nat) as Hl1 by (unfold d1; lens).
  assert (Forall isByte d1) as Hb1.
  { apply Forall_app. split; [done|]. apply Forall_replicate. unfold isByte. lia. }
  clearbody d1. set (d2 := copyAt d1 _ _).
  assert (length d2 = length d1) as Hl2 by (apply length_copyAt; lia).
  assert (Forall isByte d2) as Hb2 by (apply Forall_copyAt; auto with elems).
  clearbody d2. destruct (drawBytes_total Int31 (Z.to_nat n) r2) as (bs & r3 & -> & Hlb & Hbb).
  { intros r'. destruct (intn_total (2 ^ 31) r') as (x & r4 & H4 & _); [lia|]. eauto. }
  cbn [rbind]. set (d3 := copyAt d2 _ bs).
  assert (length d3 = length d2) as Hl3 by (apply length_copyAt; lia).
  assert (Forall isByte d3) as Hb3 by (by apply Forall_copyAt).
  clearbody d3. rewrite decide_False by lia. destruct (bin_total r3) as (cut & r4 & ->). cbn [rbind].
  eexists _, _, _. split; [done|]. destruct cut; (split; [|auto with elems]); [|lia].
  lens.
Qed.

Lemma removeBytes_bounds : keepsBounds removeBytes.
Proof.
  intros data minLen maxLen r [Hl Hb] Hmin Hmax. unfold removeBytes.
  case_decide; [by eexists _, _, _|].
  destruct (intn_total 16 r) as (n0 & r1 & -> & Hn0); [lia|]. cbn [rbind].
  set (n := if decide (len data < n0 + 1) then len data else n0 + 1).
  assert (1 ≤ n ≤ len data) as Hn by (unfold n; case_decide; lia). clearbody n.
  assert (∃ pos r2, (if decide (n < len data) then intn (len data - n) r1 else Ret (0, r1)) = Ret (pos, r2) ∧
    0 ≤ pos ≤ len data) as (pos & r2 & -> & Hpos).
  { case_decide; [|exists 0, r1; split; [done|lia]].
    destruct (intn_total (len data - n) r1) as (p & r2 & H2 & Hp); [lia|]. exists p, r2. split; [done|lia]. }
  cbn [rbind]. set (d1 := copyAt data _ _).
  assert (length d1 = length data) as Hl1 by (apply length_copyAt; lia).
  assert (Forall isByte d1) as Hb1 by (apply Forall_copyAt; auto with elems). clearbody d1.
  set (d2 := take (length d1 - Z.to_nat n) d1).
  assert (len d2 = len data - n) as Hl2 by (unfold d2; lens).
  assert (Forall isByte d2) as Hb2 by (by apply Forall_take). clearbody d2.
  assert (∃ pad r3, (if decide (len d2 < minLen) then Ret (true, r2) else bin r2) = Ret (pad, r3) ∧
    (pad = false → minLen ≤ len d2)) as (pad & r3 & -> & Hpad).
  { case_decide; [by eexists _, _|]. destruct (bin_total r2) as (b & r3 & H3). exists b, r3. split; [done|lia]. }
  cbn [rbind]. eexists _, _, _. split; [done|]. destruct pad; [|split; [lia|done]].
  split; [lens|]. apply Forall_app. split; [done|].
  apply Forall_replicate. unfold isByte. lia.
Qed.

Lemma appendBytes_bounds : keepsBounds appendBytes.
Proof.
  intros data minLen maxLen r [Hl Hb] Hmin Hmax. unfold appendBytes. case_decide; [by eexists _, _, _|].
  destruct (biasedRand_range 256 10 r) as (b & r1 & -> & Hb'); [lia..|]. cbn [rbind]. rewrite wrapS_small by lia.
  set (n := if decide _ then _ else _).
  assert (1 ≤ n ≤ maxLen - len data) as Hn by (unfold n; case_decide; lia). clearbody n.
  destruct (drawBytes_total (rand 256) (Z.to_nat n) r1) as (bs & r2 & -> & Hlb & Hbb).
  { intros r'. destruct (rand_total 256 r') as (x & r4 & H4 & _); [lia|]. eauto. }
  cbn [rbind]. eexists _, _, _. split; [done|]. split; [lens|auto with elems].
Qed.

Lemma replaceInt_bounds : keepsBounds replaceInt.
Proof.
  intros data minLen maxLen r [Hl Hb] Hmin Hmax. unfold replaceInt.
  destruct (chooseInt_spec data r) as (c & r1 & -> & Hc). cbn [rbind].
  destruct c as [[width i]|]; [|by eexists _, _, _]. destruct Hc as (Hw & Hi & Hil). unfold Uint64.
  destruct (intn_total (2 ^ 64) r1) as (v & r2 & -> & _); [lia|]. cbn [rbind].
  destruct (storeInt_spec data i v width) as (d' & -> & Hl' & Hb'); [done..|]. cbn [rbind].
  eexists _, _, _. split; [done|]. split; [by rewrite Hl'|done].
Qed.

Lemma addInt_bounds : keepsBounds addInt.
Proof.
  intros data minLen maxLen r [Hl Hb] Hmin Hmax. unfold addInt.
  destruct (chooseInt_spec data r) as (c & r1 & -> & Hc). cbn [rbind].
  destruct c as [[width i]|]; [|by eexists _, _, _]. destruct Hc as (Hw & Hi & Hil).
  unfold loadInt, intSize. rewrite bool_decide_true by done. simpl negb. cbv iota. rewrite decide_True by lia. cbn [rbind].
  destruct (rand_total (2 * maxDelta + 1) r1) as (d & r2 & -> & _); [done|]. cbn [rbind].
  destruct (oneOf_total 10 r2) as (sw & r3 & ->); [lia|]. cbn [rbind]. cbn zeta.
  set (v := getUint _ _). set (delta := if decide _ then _ else _).
  assert (∃ v', (if sw then let! v := swapInt v width in swapInt (v +! delta) width else Ret (v +! delta)) = Ret v')
    as [v' ->].
  { destruct sw; [|eauto]. destruct (swapInt_total v width Hw) as [v1 ->]. cbn [rbind]. by apply swapInt_total. }
  cbn [rbind]. destruct (storeInt_spec data i v' width) as (d' & -> & Hl' & Hb'); [done..|]. cbn [rbind].
  eexists _, _, _. split; [done|]. split; [by rewrite Hl'|done].
Qed.

Lemma setInt_bounds : keepsBounds setInt.
Proof.
  intros data minLen maxLen r [Hl Hb] Hmin Hmax. unfold setInt.
  destruct (chooseInt_spec data r) as (c & r1 & -> & Hc). cbn [rbind].
  destruct c as [[width i]|]; [|by eexists _, _, _]. destruct Hc as (Hw & Hi & Hil). unfold randInt64.
  destruct (randInt_range 64 r1) as (v & r2 & -> & _); [lia|]. cbn [rbind].
  destruct (oneOf_total 10 r2) as (sw & r3 & ->); [lia|]. cbn [rbind]. cbn zeta.
  destruct (storeInt_spec data i (if sw then swap64 v else v) width) as (d' & -> & Hl' & Hb'); [done..|]. cbn [rbind].
  eexists _, _, _. split; [done|]. split; [by rewrite Hl'|done].
Qed.

Lemma mutateDataFuncs_bounds : Forall keepsBounds mutateDataFuncs.
Proof.
  repeat constructor; auto using flipBit_bounds, insertBytes_bounds, removeBytes_bounds, appendBytes_bounds,
    replaceInt_bounds, addInt_bounds, setInt_bounds.
Qed.

Lemma mutateDataStep_bounds : keepsBounds mutateDataStep.
Proof.
  intros data minLen maxLen r Hd Hmin Hmax. unfold mutateDataStep.
  destruct (intn_total (len mutateDataFuncs) r) as (k & r1 & -> & Hk); [done|]. cbn [rbind].
  destruct (index_total mutateDataFuncs k Hk) as (f & Hf & ->). cbn [rbind].
  pose proof (Forall_lookup_1 _ _ _ _ mutateDataFuncs_bounds Hf) as Hkeep.
  destruct (Hkeep data minLen maxLen r1 Hd Hmin Hmax) as (d' & stop & r2 & -> & Hd'). cbn [rbind].
  destruct stop; cbn [rbind]; [|by eexists _, _, _].
  destruct (oneOf_total 3 r2) as (b & r3 & ->); [lia|]. cbn [rbind]. by eexists _, _, _.
Qed.

(** Some draws end the loop at once. *)
Lemma drawBytes_nil n : drawBytes (rand 256) n [] = Ret (replicate n 0, []).
Proof. induction n as [|n IH]; [done|]. simpl. rewrite IH. done. Qed.

Lemma mutateDataStep_ends data minLen maxLen :
  len data ≤ maxLen → 0 < maxLen → ∃ data' r, mutateDataStep data minLen maxLen r = Ret (data', true, []).
Proof.
  intros Hl Hmax. destruct data as [|x data].
  - assert (∃ b, biasedRand 256 10 [] = Ret (b, [])) as [b Hb] by (eexists; reflexivity).
    assert (∃ d, appendBytes [] minLen maxLen [] = Ret (d, true, [])) as [d Hd].
    { unfold appendBytes. rewrite decide_False by (simpl; lia). rewrite Hb. cbn [rbind].
      rewrite drawBytes_nil. by eexists. }
    exists d, [3]. unfold mutateDataStep. change (intn (len mutateDataFuncs) [3]) with (Ret (3, [] : rng)). cbn [rbind].
    change (index mutateDataFuncs 3) with (Ret appendBytes). cbn [rbind]. rewrite Hd. reflexivity.
  - eexists _, []. reflexivity.
Qed.

(** Data of a fixed size keeps it. *)
Lemma storeInt_length data i v width data' : storeInt data i v width = Ret data' → length data' = length data.
Proof.
  unfold storeInt, intSize. intros H. destruct (bool_decide_reflect (width = 1 ∨ width = 2 ∨ width = 4 ∨ width = 8)) as [Hw|]; [|done]. cbn [negb] in H.
  case_decide as Hd; [|done]. injection H as <-. apply length_copyAt. lia.
Qed.

Lemma mutateDataFuncs_fixed f data n r d stop r' : f ∈ mutateDataFuncs → f data n n r = Ret (d, stop, r') → len data = n → len d = n.
Proof.
  intros Hf H Hl. unfold mutateDataFuncs in Hf. rewrite !elem_of_cons, elem_of_nil in Hf. destruct_or! Hf; try done; subst f.
  - unfold flipBit in H. case_decide; [by injection H as <- _ _|]. apply bind_Ret in H as ([? ?] & _ & H). apply bind_Ret in H as ([? ?] & _ & H).
    apply bind_Ret in H as (? & _ & [= <- _ _]). by rewrite length_insert.
  - unfold insertBytes in H. rewrite decide_True in H by lia. by injection H as <- _ _.
  - unfold removeBytes in H. case_decide; [by injection H as <- _ _|]. apply bind_Ret in H as ([n0 r1] & Hn & H).
    destruct (intn_total 16 r) as (k & r2 & Hk & Hb); [lia|]. rewrite Hn in Hk. injection Hk as -> _.
    set (cnt := if decide (len data < k + 1) then len data else k + 1) in H. assert (1 ≤ cnt ≤ len data) as Hc by (unfold cnt; destruct (decide (len data < k + 1)); lia). clearbody cnt.
    apply bind_Ret in H as ([pos r3] & Hp & H). assert (0 ≤ pos ≤ len data) as Hpos.
    { destruct (decide (cnt < len data)); [|injection Hp as <- _; lia]. destruct (intn_total (len data - cnt) r1) as (p & r4 & H4 & Hb4); [lia|]. rewrite Hp in H4. injection H4 as -> _. lia. }
    assert (length (copyAt data (Z.to_nat pos) (drop (Z.to_nat (pos + cnt)) data)) = length data) as Hcp by (apply length_copyAt; lia).
    apply bind_Ret in H as ([pad r4] & Hpad & [= <- _ _]). rewrite decide_True in Hpad by (rewrite length_take, Hcp; lia). injection Hpad as <- _.
    rewrite length_app, length_take, length_replicate, Hcp. lia.
  - unfold appendBytes in H. rewrite decide_True in H by lia. by injection H as <- _ _.
  - unfold replaceInt in H. apply bind_Ret in H as ([[[w i]|] r1] & _ & H); [|by injection H as <- _ _]. apply bind_Ret in H as ([? ?] & _ & H).
    apply bind_Ret in H as (d' & Hs & [= <- _ _]). by rewrite (storeInt_length _ _ _ _ _ Hs).
  - unfold addInt in H. apply bind_Ret in H as ([[[w i]|] r1] & _ & H); [|by injection H as <- _ _]. apply bind_Ret in H as (? & _ & H). apply bind_Ret in H as ([? ?] & _ & H).
    apply bind_Ret in H as ([? ?] & _ & H). apply bind_Ret in H as (? & _ & H). apply bind_Ret in H as (d' & Hs & [= <- _ _]). by rewrite (storeInt_length _ _ _ _ _ Hs).
  - unfold setInt in H. apply bind_Ret in H as ([[[w i]|] r1] & _ & H); [|by injection H as <- _ _]. apply bind_Ret in H as ([? ?] & _ & H).
    apply bind_Ret in H as ([? ?] & _ & H). apply bind_Ret in H as (d' & Hs & [= <- _ _]). by rewrite (storeInt_length _ _ _ _ _ Hs).
Qed.

Lemma mutateData_fixed fuel : ∀ data n r d r', mutateData fuel data n n r = Ret (d, r') → len data = n → len d = n.
Proof.
  induction fuel as [|fuel IH]; intros data n r d r' H Hl; [done|]. cbn [mutateData] in H. apply bind_Ret in H as ([[d1 stop] r1] & H1 & H).
  unfold mutateDataStep in H1. apply bind_Ret in H1 as ([k r2] & _ & H1). apply bind_Ret in H1 as (f & Hf & H1).
  apply bind_Ret in H1 as ([[d2 st] r3] & H2 & H1). assert (f ∈ mutateDataFuncs) as Hin.
  { unfold index in Hf. case_decide; [|done]. destruct (mutateDataFuncs !! Z.to_nat k) eqn:E; [|done]. injection Hf as ->. by eapply list_elem_of_lookup_2. }
  pose proof (mutateDataFuncs_fixed _ _ _ _ _ _ _ Hin H2 Hl) as Hl2.
  assert (d1 = d2) as ->. { destruct st; [apply bind_Ret in H1 as ([? ?] & _ & [= <- _ _])|injection H1 as <- _ _]; done. }
  destruct stop; [by injection H as <- _|by eapply IH].
Qed.

(** C36. Mutating a buffer keeps it in bounds: on data of [minLen] to [maxLen] bytes,
    [mutateData] never panics, whatever it draws and however often it loops, every buffer
    it returns has [minLen] to [maxLen] bytes, all of them bytes; and if [maxLen] is not 0,
    there are draws that end it, from any such data. *)
Theorem mutateData_bounds data minLen maxLen :
  inBounds minLen maxLen data → 0 ≤ minLen → maxLen < 2 ^ 63 →
  (∀ fuel r, match mutateData fuel data minLen maxLen r with
             | Ret (data', _) => inBounds minLen maxLen data'
             | Panic _ => False
             | OutOfFuel => True
             end) ∧
  (0 < maxLen → ∃ data' r, mutateData 1 data minLen maxLen r = Ret (data', [])).
Proof.
  intros Hd Hmin Hmax. split.
  - intros fuel. revert data Hd. induction fuel as [|fuel IH]; intros data Hd r; simpl; [done|].
    destruct (mutateDataStep_bounds data minLen maxLen r Hd Hmin Hmax) as (d' & stop & r' & -> & Hd'). cbn [rbind].
    destruct stop; [done|]. by apply IH.
  - intros Hpos. destruct (mutateDataStep_ends data minLen maxLen) as (d' & r & H); [by destruct Hd as [[??]?]|done|].
    exists d', r. simpl. by rewrite H.
Qed.

Lemma mutateData_bounds_witness :
  (∀ fuel r, match mutateData fuel [1; 2; 3] 2 4 r with
             | Ret (data', _) => inBounds 2 4 data' | Panic _ => False | OutOfFuel => True end) ∧
  ∃ data' r, mutateData 1 [1; 2; 3] 2 4 r = Ret (data', []).
Proof.
  destruct (mutateData_bounds [1; 2; 3] 2 4) as [H1 H2].
  - split; [simpl; lia|]. repeat constructor; unfold isByte; lia.
  - lia.
  - lia.
  - split; [exact H1|apply H2; lia].
Defined.

(** ** Aligned integers *)

(** The last value of the range, which [[0:-1]] leaves to the width of the type. *)
Definition lastOf (rangeBegin rangeEnd bits : Z) : Z :=
  if decide (rangeBegin = 0 ∧ wrapS 64 rangeEnd = -1) then shl64 1 bits -! 1 else rangeEnd.

Lemma sub_add64 b x : 0 ≤ x < 2 ^ 64 → b +! x -! b = x.
Proof.
  intros Hx. unfold add64, sub64, wrapU. rewrite Zminus_mod_idemp_l. replace (b + x - b) with x by lia.
  by apply Z.mod_small.
Qed.

(** Mutating an aligned integer keeps its alignment: for an alignment of at least two
    and a range that leaves room for one more step, [mutateAlignedInt] never divides by
    zero, and the distance of its result from the start of the range has the remainder of
    the old distance and is at most the length of the range rounded down to the alignment,
    plus that remainder. *)
Theorem aligned_int_stays_aligned val rangeBegin rangeEnd align bits r :
  let span := lastOf rangeBegin rangeEnd bits -! rangeBegin in
  let rem := (val -! rangeBegin) `mod` align in
  2 ≤ align → 0 < bits ≤ 64 → span + align ≤ 2 ^ 64 →
  ∃ v r', mutateAlignedInt val rangeBegin rangeEnd align bits r = Ret (v, r') ∧
    (v -! rangeBegin) `mod` align = rem ∧ v -! rangeBegin ≤ span `div` align * align + rem.
Proof.
  intros span rem Ha Hb Hspan. unfold mutateAlignedInt. fold (lastOf rangeBegin rangeEnd bits). cbn zeta. fold span.
  fold rem. assert (0 ≤ span) as Hs0 by (apply Z.mod_pos_bound; lia).
  assert (0 ≤ rem < align) as Hrem by (apply Z.mod_pos_bound; lia).
  assert (0 ≤ span `div` align * align ≤ span) as Hdiv by (split; [apply Z.mul_nonneg_nonneg; [by apply Z.div_pos; lia|lia]|dlia]).
  assert (0 ≤ span `div` align < 2 ^ 64 - 1) as Hlast by nia.
  match goal with |- context [rbind (nOutOf 1 3 r) ?k] => assert (∃ i r', rbind (nOutOf 1 3 r) k =
    Ret (rangeBegin +! ((i `mod` (span `div` align + 1)) *! align) +! rem, r')) as (i & r' & ->) end.
  { draw_nOutOf; [destruct (intn_total 4 r0) as (k & r1 & -> & _); [lia|]; cbn [rbind];
      rewrite add64_small, decide_False by lia; by eexists _, _|].
    draw_nOutOf; [destruct (intn_total 4 r1) as (k & r2 & -> & _); [lia|]; cbn [rbind];
      rewrite add64_small, decide_False by lia; by eexists _, _|].
    destruct (intn_total bits r1) as (k & r2 & -> & _); [lia|]. cbn [rbind].
    rewrite add64_small, decide_False by lia. by eexists _, _. }
  set (j := i `mod` (span `div` align + 1)). assert (0 ≤ j ≤ span `div` align) as Hj.
  { pose proof (Z.mod_pos_bound i (span `div` align + 1)). unfold j. lia. }
  assert (0 ≤ j * align ≤ span `div` align * align) as Hja by nia.
  eexists _, _. split; [done|]. rewrite (mul64_small j align) by lia.
  assert (rangeBegin +! (j * align) +! rem -! rangeBegin = j * align + rem) as ->.
  { rewrite <-(sub_add64 rangeBegin (j * align + rem)) by lia. f_equal. unfold add64, wrapU.
    rewrite Z.add_mod_idemp_l by lia. f_equal. lia. }
  split; [|lia]. rewrite Z.add_comm, Z.mod_add by lia. by apply Z.mod_small.
Qed.

Lemma aligned_int_stays_aligned_witness :
  ∃ v r', mutateAlignedInt 10 2 20 4 8 [2; 5] = Ret (v, r') ∧ (v -! 2) `mod` 4 = 0 ∧ v -! 2 ≤ 16.
Proof. apply (aligned_int_stays_aligned 10 2 20 4 8 [2; 5]); vm_compute; intuition congruence. Defined.

End Mutation.
