(* ===== verification/Text.v ===== *)
(** * Text: the lexical level of the text format (prog/encoding.go)

    The parser works on one line at a time; its state is what is left of the line, the
    first error and the mode.  Texts are lists of bytes.  Numbers are printed with [%x] and
    [%v] and read with [strconv.ParseUint(s, 0, 64)], both modelled as the library defines
    them. *)

From S2P Require Import Prelude Bytes Types Prog.
From Stdlib Require Import Ascii.
Import Bytes Types Prog.

Module Text.

(** The bytes of a character and of a string of the source. *)
Definition chr (c : ascii) : Z := Z.of_N (N_of_ascii c).
Fixpoint str (s : string) : list Z :=
  match s with
  | EmptyString => []
  | String c s => chr c :: str s
  end.

(** ** Numbers *)

(** [strconv.FormatUint]: digits from the highest on; 64 digits are enough for any base. *)
Definition digitChar (d : Z) : Z := if decide (d < 10) then chr "0" + d else chr "a" + d - 10.
Fixpoint formatLoop (fuel : nat) (base n : Z) (acc : list Z) : list Z :=
  match fuel with
  | O => acc
  | S fuel =>
    let acc := digitChar (n `mod` base) :: acc in
    if decide (n `div` base = 0) then acc else formatLoop fuel base (n `div` base) acc
  end.
Definition formatUint (base n : Z) : list Z := formatLoop 64 base n [].

(** ["0x%x"] and ["%v"] *)
Definition printHex (n : Z) : list Z := str "0x" ++ formatUint 16 n.
Definition printDec (n : Z) : list Z := formatUint 10 n.

(** [strconv.lower] *)
Definition lower (c : Z) : Z := Z.lor c 32.
Definition isDigit (c : Z) : bool := bool_decide (chr "0" ≤ c ≤ chr "9").

Definition digitValue (c : Z) : option Z :=
  if isDigit c then Some (c - chr "0")
  else if decide (chr "a" ≤ lower c ≤ chr "z") then Some (lower c - chr "a" + 10)
  else None.

(** The loop of [ParseUint] over the digits; underscores are skipped. *)
Fixpoint parseDigits (base n : Z) (s : list Z) : option Z :=
  match s with
  | [] => Some n
  | c :: s =>
    if decide (c = chr "_") then parseDigits base n s
    else
      match digitValue c with
      | None => None
      | Some d =>
        if decide (base ≤ d) then None
        else if decide (2 ^ 64 ≤ n * base + d) then None
        else parseDigits base (n * base + d) s
      end
  end.

(** [strconv.underscoreOK]; [saw] is the last kind of character. *)
Inductive saw := SawBegin | SawDigit | SawUnderscore | SawOther.
Fixpoint underscoreLoop (hex : bool) (w : saw) (s : list Z) : bool :=
  match s with
  | [] => match w with SawUnderscore => false | _ => true end
  | c :: s =>
    if isDigit c || hex && bool_decide (chr "a" ≤ lower c ≤ chr "f") then underscoreLoop hex SawDigit s
    else if decide (c = chr "_") then
      match w with SawDigit => underscoreLoop hex SawUnderscore s | _ => false end
    else match w with SawUnderscore => false | _ => underscoreLoop hex SawOther s end
  end.
Definition underscoreOK (s : list Z) : bool :=
  let s := match s with c :: s' => if decide (c = chr "-" ∨ c = chr "+") then s' else s | [] => s end in
  match s with
  | z :: c :: s' =>
    if decide (z = chr "0" ∧ (lower c = chr "b" ∨ lower c = chr "o" ∨ lower c = chr "x"))
    then underscoreLoop (bool_decide (lower c = chr "x")) SawDigit s'
    else underscoreLoop false SawBegin s
  | _ => underscoreLoop false SawBegin s
  end.

(** [strconv.ParseUint(s, 0, 64)]; [None] stands for any of its errors. *)
Definition ParseUint (s : list Z) : option Z :=
  let parse base digits :=
    match parseDigits base 0 digits with
    | Some n => if bool_decide (chr "_" ∈ digits) && negb (underscoreOK s) then None else Some n
    | None => None
    end in
  match s with
  | [] => None
  | z :: s' =>
    if decide (z = chr "0") then
      match s' with
      | c :: _ :: _ =>
        if decide (lower c = chr "b") then parse 2 (drop 2 s)
        else if decide (lower c = chr "o") then parse 8 (drop 2 s)
        else if decide (lower c = chr "x") then parse 16 (drop 2 s)
        else parse 8 s'
      | _ => parse 8 s'
      end
    else parse 10 s
  end.

(** ** The parser *)

Record parser := MkParser { rest : list Z; perr : option string; strict : bool }.

Definition setRest (p : parser) (l : list Z) : parser := MkParser l (perr p) (strict p).
Definition failf (p : parser) (msg : string) : parser :=
  match perr p with Some _ => p | None => MkParser (rest p) (Some msg) (strict p) end.
Definition strictFailf (p : parser) (msg : string) : parser := if strict p then failf p msg else p.

Definition EOF (p : parser) : bool := bool_decide (rest p = []).

Definition Char (p : parser) : Z * parser :=
  match perr p with
  | Some _ => (0, p)
  | None => match rest p with [] => (0, failf p "unexpected eof") | c :: _ => (c, p) end
  end.

Definition HasNext (p : parser) (s : list Z) : bool :=
  match perr p with Some _ => false | None => bool_decide (take (length s) (rest p) = s) end.

Definition isWs (c : Z) : Prop := c = chr " " ∨ c = 9.
#[export] Instance isWs_dec c : Decision (isWs c) := _.
Fixpoint skipWs (l : list Z) : list Z :=
  match l with
  | c :: l' => if decide (isWs c) then skipWs l' else l
  | [] => []
  end.
Definition SkipWs (p : parser) : parser := setRest p (skipWs (rest p)).

Definition Parse (p : parser) (ch : Z) : parser :=
  match perr p with
  | Some _ => p
  | None =>
    match rest p with
    | [] => failf p "got EOF"
    | c :: l => if decide (c = ch) then SkipWs (setRest p l) else failf p "unexpected character"
    end
  end.

Definition consume (p : parser) : Z * parser :=
  match perr p with
  | Some _ => (0, p)
  | None => match rest p with [] => (0, failf p "unexpected eof") | c :: l => (c, setRest p l) end
  end.

Definition isIdent (c : Z) : bool :=
  bool_decide (chr "a" ≤ c ≤ chr "z" ∨ chr "A" ≤ c ≤ chr "Z" ∨ chr "0" ≤ c ≤ chr "9" ∨ c = chr "_" ∨ c = chr "$").
Fixpoint spanIdent (l : list Z) : list Z * list Z :=
  match l with
  | c :: l' => if isIdent c then let '(a, b) := spanIdent l' in (c :: a, b) else ([], l)
  | [] => ([], [])
  end.
Definition Ident (p : parser) : list Z * parser :=
  let '(s, l) := spanIdent (rest p) in
  if decide (s = []) then ([], failf p "failed to parse identifier")
  else (s, SkipWs (setRest p l)).

(** ** Hexadecimal digits *)

Definition toHexChar (v : Z) : res Z :=
  if decide (16 ≤ v) then Panic "bad hex char"
  else Ret (if decide (v < 10) then chr "0" + v else chr "a" + v - 10).

Definition fromHexChar (v : Z) : Z * bool :=
  if decide (chr "0" ≤ v ≤ chr "9") then (v - chr "0", true)
  else if decide (chr "a" ≤ v ≤ chr "f") then (v - chr "a" + 10, true)
  else (0, false).

(** [byteToHex] returns the low digit first. *)
Definition byteToHex (v : Z) : res (Z * Z) :=
  let! lo := toHexChar (Z.land v 15) in
  let! hi := toHexChar (Z.shiftr v 4) in Ret (lo, hi).
Definition hexToByte (lo hi : Z) : Z * bool :=
  let '(h, ok1) := fromHexChar hi in
  let '(l, ok2) := fromHexChar lo in
  (wrapU 8 (Z.shiftl h 4 + l), ok1 && ok2).

(** [hex.EncodeToString] and [hex.DecodeString], which also accepts capital letters. *)
Definition hexEncode (data : list Z) : list Z :=
  concat ((λ v, [digitChar (v `div` 16); digitChar (v `mod` 16)]) <$> data).
Definition fromHexAny (c : Z) : option Z :=
  if decide (chr "0" ≤ c ≤ chr "9") then Some (c - chr "0")
  else if decide (chr "a" ≤ c ≤ chr "f") then Some (c - chr "a" + 10)
  else if decide (chr "A" ≤ c ≤ chr "F") then Some (c - chr "A" + 10)
  else None.
Fixpoint hexDecode (s : list Z) : option (list Z) :=
  match s with
  | [] => Some []
  | [_] => None
  | hi :: lo :: s =>
    match fromHexAny hi, fromHexAny lo, hexDecode s with
    | Some h, Some l, Some data => Some (h * 16 + l :: data)
    | _, _, _ => None
    end
  end.

(** ** Data *)

Definition isPrintable (v : Z) : bool := bool_decide (32 ≤ v < 127).

(** The characters with an escape of their own, and the letter behind the backslash:
    \a \b \f \n \r \t \v and the two quotes and the backslash. *)
Definition escapes : list (Z * Z) :=
  [(7, chr "a"); (8, chr "b"); (12, chr "f"); (10, chr "n"); (13, chr "r"); (9, chr "t"); (11, chr "v");
   (39, 39); (34, 34); (92, 92)].
Definition escapeOf (v : Z) : option Z := snd <$> head (filter (λ e, e.1 = v) escapes).
Definition unescape (c : Z) : option Z := fst <$> head (filter (λ e, e.2 = c) escapes).

Definition encodeByte (v : Z) (readable cstr : bool) : res (list Z) :=
  if negb readable then
    let! '(lo, hi) := byteToHex v in Ret [92; chr "x"; hi; lo]
  else
    match escapeOf v with
    | Some c => Ret [92; c]
    | None =>
      if isPrintable v then Ret [v]
      else if cstr then
        Ret [92; Z.land (Z.shiftr v 6) 7 + chr "0"; Z.land (Z.shiftr v 3) 7 + chr "0";
             Z.land (Z.shiftr v 0) 7 + chr "0"]
      else let! '(lo, hi) := byteToHex v in Ret [92; chr "x"; hi; lo]
    end.

Definition encodeData (buf data : list Z) (readable cstr : bool) : res (list Z) :=
  for_list (λ v buf, let! l := encodeByte v readable cstr in Ret (buf ++ l)) data buf.

Definition isReadableDataType (desc : BufferDesc) : bool :=
  bool_decide (bufKind desc = BufferString ∨ bufKind desc = BufferFilename ∨ bufKind desc = BufferGlob).

Definition isReadableData (data : list Z) : bool :=
  negb (bool_decide (data = [])) &&
  forallb (λ v, isPrintable v || bool_decide (v ∈ [0; 7; 8; 12; 10; 13; 9; 11])) data.

Definition EncodeData (buf data : list Z) (readable : bool) : res (list Z) :=
  let readable := if negb readable && isReadableData data then true else readable in
  encodeData buf data readable true.

Definition serializeData (buf data : list Z) (readable : bool) : res (list Z) :=
  if negb readable && negb (isReadableData data) then Ret (buf ++ [34] ++ hexEncode data ++ [34])
  else let! buf := encodeData (buf ++ [39]) data true false in Ret (buf ++ [39]).

(** The loop over a text in single quotes; the error is a value of its own, besides the
    error of the parser. *)
Fixpoint readString (fuel : nat) (p : parser) (data : list Z) : (string + list Z) * parser :=
  match fuel with
  | O => (inl "out of fuel", p)
  | S fuel =>
    let '(c, p) := Char p in
    if decide (c = 39 ∨ c = 0) then (inr data, p)
    else
      let '(v, p) := consume p in
      if decide (v ≠ 92) then readString fuel p (data ++ [v])
      else
        let '(v, p) := consume p in
        if decide (v = chr "x") then
          let '(hi, p) := consume p in
          let '(lo, p) := consume p in
          let '(b, ok) := hexToByte lo hi in
          if (ok : bool) then readString fuel p (data ++ [b]) else (inl "invalid hex in data arg", p)
        else
          match unescape v with
          | Some b => readString fuel p (data ++ [b])
          | None => (inl "invalid escape sequence in data arg", p)
          end
  end.

(** Reading up to the closing quote of base64 data. *)
Fixpoint readB64 (l : list Z) : list Z * list Z :=
  match l with
  | [] => ([], [])
  | c :: l' => if decide (c = 34) then ([], l) else let '(a, b) := readB64 l' in (c :: a, b)
  end.

Section data.
(** [image.DecodeB64] and [image.EncodeB64] of pkg/image. *)
Context (DecodeB64 : list Z → option (list Z)) (EncodeB64 : list Z → list Z).

Definition serializeCompressedData (buf data : list Z) : list Z := buf ++ [34; chr "$"] ++ EncodeB64 data ++ [34].

(** [deserializeData]: the data and if it was in base64. *)
Definition deserializeData (p : parser) : (string + (list Z * bool)) * parser :=
  let '(c, p) := Char p in
  if decide (c = 34) then
    let p := Parse p 34 in
    let '(c, p) := Char p in
    if decide (c = chr "$") then
      let '(_, p) := consume p in
      let '(raw, l) := readB64 (rest p) in
      let p := Parse (setRest p l) 34 in
      match DecodeB64 raw with
      | None => (inl "data arg is corrupt", p)
      | Some decoded => (inr (decoded, true), p)
      end
    else
      let '(c, p) := Char p in
      let '(val, p) := if decide (c ≠ 34) then Ident p else ([], p) in
      let p := Parse p 34 in
      match hexDecode val with
      | None => (inl "data arg has bad value", p)
      | Some data => (inr (data, false), p)
      end
  else
    let '(c, p) := consume p in
    if decide (c ≠ 39) then (inl "data arg does not start with a quote", p)
    else
      let '(r, p) := readString (S (length (rest p))) p [] in
      match r with
      | inl e => (inl e, p)
      | inr data => (inr (data, false), Parse p 39)
      end.
End data.

(** ** Addresses *)

Definition encodingAddrBase : Z := 0x7f0000000000.

Definition serializeAddr (addr vmaSize : Z) : list Z :=
  let ssize := if decide (vmaSize ≠ 0) then str "/" ++ printHex vmaSize else [] in
  str "(" ++ printHex (encodingAddrBase +! addr) ++ ssize ++ str ")".

(** The offset that old programs may have. *)
Definition parseOffset (p : parser) (addr : Z) : (string + Z) * parser :=
  let '(c, p) := Char p in
  if decide (c = chr "+" ∨ c = chr "-") then
    let minus := bool_decide (c = chr "-") in
    let p := Parse p c in
    let '(ostr, p) := Ident p in
    match ParseUint ostr with
    | None => (inl "failed to parse addr offset", p)
    | Some off => (inr (addr +! (if minus then wrapU 64 (- off) else off)), p)
    end
  else (inr addr, p).

Definition parseVmaSize (target : Target) (p : parser) (addr : Z) : (string + (Z * Z)) * parser :=
  let maxMem := NumPages target *! PageSize target in
  let '(c, p) := Char p in
  if decide (c = chr "/") then
    let p := Parse p (chr "/") in
    let '(pstr, p) := Ident p in
    match ParseUint pstr with
    | None => (inl "failed to parse addr size", p)
    | Some size =>
      let mask := not64 (PageSize target -! 1) in
      let addr := Z.land addr mask in
      let vmaSize := Z.land (size +! PageSize target -! 1) mask in
      let vmaSize := if decide (vmaSize = 0) then PageSize target else vmaSize in
      let vmaSize := if decide (maxMem < vmaSize) then maxMem else vmaSize in
      let addr := if decide (maxMem -! vmaSize < addr) then maxMem -! vmaSize else addr in
      (inr (addr, vmaSize), p)
    end
  else (inr (addr, 0), p).

Definition parseAddr (target : Target) (p : parser) : (string + (Z * Z)) * parser :=
  let p := Parse p (chr "(") in
  let '(pstr, p) := Ident p in
  match ParseUint pstr with
  | None => (inl "failed to parse addr", p)
  | Some addr =>
    if decide (addr < encodingAddrBase) then (inl "address without base offset", p)
    else
      match parseOffset p (addr -! encodingAddrBase) with
      | (inl e, p) => (inl e, p)
      | (inr addr, p) =>
        match parseVmaSize target p addr with
        | (inl e, p) => (inl e, p)
        | (inr r, p) => (inr r, Parse p (chr ")"))
        end
      end
  end.

(** ** Numbers are read back *)

Definition identText (w : list Z) : Prop := Forall (λ c, isIdent c = true) w.

Lemma digitChar_spec d : 0 ≤ d < 16 →
  digitValue (digitChar d) = Some d ∧ isIdent (digitChar d) = true ∧ digitChar d ≠ chr "_".
Proof.
  intros Hd. assert (d ∈ seqZ 0 16) as Hin by (apply elem_of_seqZ; lia).
  assert (Forall (λ d, digitValue (digitChar d) = Some d ∧ isIdent (digitChar d) = true ∧ digitChar d ≠ chr "_")
    (seqZ 0 16)) as H by (repeat (constructor; [done|]); constructor).
  by rewrite Forall_forall in H; apply H.
Qed.

Lemma parseDigits_digit base n d s :
  2 ≤ base ≤ 16 → 0 ≤ d < base → n * base + d < 2 ^ 64 →
  parseDigits base n (digitChar d :: s) = parseDigits base (n * base + d) s.
Proof.
  intros Hb Hd Hn. destruct (digitChar_spec d) as (Hv & _ & Hu); [lia|]. cbn [parseDigits].
  rewrite decide_False by done. rewrite Hv. rewrite !decide_False by lia. done.
Qed.

Lemma parse_format base fuel : 2 ≤ base ≤ 16 → ∀ n acc,
  0 ≤ n < 2 ^ 64 → n < base ^ Z.of_nat fuel →
  parseDigits base 0 (formatLoop fuel base n acc) = parseDigits base n acc.
Proof.
  intros Hb. induction fuel as [|fuel IH]; intros n acc Hn Hf; [simpl in Hf; by replace n with 0 by lia|].
  cbn [formatLoop]. pose proof (Z.div_mod n base ltac:(lia)) as Hdm.
  pose proof (Z.mod_pos_bound n base ltac:(lia)) as Hm. case_decide as Hq.
  - rewrite parseDigits_digit by lia. f_equal. lia.
  - rewrite Nat2Z.inj_succ, Z.pow_succ_r in Hf by lia.
    assert (0 ≤ n `div` base) by (apply Z.div_pos; lia).
    rewrite IH; [|nia|apply Z.div_lt_upper_bound; lia].
    rewrite parseDigits_digit by lia. f_equal. lia.
Qed.

Lemma format_ident base fuel : 2 ≤ base ≤ 16 → ∀ n acc, identText acc →
  identText (formatLoop fuel base n acc).
Proof.
  intros Hb. induction fuel as [|fuel IH]; intros n acc Ha; [done|]. cbn [formatLoop].
  pose proof (Z.mod_pos_bound n base ltac:(lia)) as Hm. destruct (digitChar_spec (n `mod` base)) as (_ & Hi & _); [lia|].
  case_decide; [by constructor|]. apply IH. by constructor.
Qed.

Lemma format_nounderscore base fuel : 2 ≤ base ≤ 16 → ∀ n acc, chr "_" ∉ acc → chr "_" ∉ formatLoop fuel base n acc.
Proof.
  intros Hb. induction fuel as [|fuel IH]; intros n acc Ha; [done|]. cbn [formatLoop].
  pose proof (Z.mod_pos_bound n base ltac:(lia)) as Hm. destruct (digitChar_spec (n `mod` base)) as (_ & _ & Hu); [lia|].
  assert (chr "_" ∉ digitChar (n `mod` base) :: acc) by (rewrite not_elem_of_cons; by split; [intros E|]).
  case_decide; [done|]. by apply IH.
Qed.

Lemma format_cons base fuel n acc : ∃ c l, formatLoop (S fuel) base n acc = c :: l.
Proof.
  revert n acc. induction fuel as [|fuel IH]; intros n acc; cbn [formatLoop]; case_decide; eauto.
Qed.

Lemma pow_fuel base n : 2 ≤ base → is_u 64 n → n < base ^ Z.of_nat 64.
Proof.
  intros Hb [_ Hn]. eapply Z.lt_le_trans; [exact Hn|]. apply (Z.pow_le_mono_l 2 base 64). lia.
Qed.

Lemma ParseUint_hex n : is_u 64 n → ParseUint (printHex n) = Some n.
Proof.
  intros Hn. unfold printHex, formatUint. destruct (format_cons 16 63 n []) as (c & l & Hc).
  pose proof (format_nounderscore 16 64 ltac:(lia) n [] (not_elem_of_nil _)) as Hu.
  pose proof (parse_format 16 64 ltac:(lia) n [] Hn (pow_fuel 16 n ltac:(lia) Hn)) as Hp.
  rewrite Hc in *. unfold ParseUint. cbn [str app]. rewrite decide_True by done.
  rewrite !decide_False by done. rewrite decide_True by done. cbn [drop]. rewrite Hp. cbn [parseDigits].
  by rewrite bool_decide_false by done.
Qed.

(** The first decimal digit of a number is not 0. *)
Lemma format_head base fuel : 2 ≤ base ≤ 16 → ∀ n acc, 0 < n → n < base ^ Z.of_nat fuel →
  ∃ d l, 0 < d < base ∧ formatLoop fuel base n acc = digitChar d :: l.
Proof.
  intros Hb. induction fuel as [|fuel IH]; intros n acc Hn Hf; [simpl in Hf; lia|]. cbn [formatLoop].
  pose proof (Z.div_mod n base ltac:(lia)) as Hdm. pose proof (Z.mod_pos_bound n base ltac:(lia)) as Hm.
  case_decide as Hq; [eexists _, _; split; [|reflexivity]; lia|].
  rewrite Nat2Z.inj_succ, Z.pow_succ_r in Hf by lia. assert (0 ≤ n `div` base) by (apply Z.div_pos; lia).
  apply IH; [lia|]. apply Z.div_lt_upper_bound; lia.
Qed.

Lemma ParseUint_dec n : is_u 64 n → ParseUint (printDec n) = Some n.
Proof.
  intros Hn. destruct (decide (n = 0)) as [->|Hn0]; [done|]. unfold printDec, formatUint.
  pose proof (format_nounderscore 10 64 ltac:(lia) n [] (not_elem_of_nil _)) as Hu.
  pose proof (parse_format 10 64 ltac:(lia) n [] Hn (pow_fuel 10 n ltac:(lia) Hn)) as Hp.
  destruct (format_head 10 64 ltac:(lia) n []) as (d & l & Hd & Hc);
    [destruct Hn; lia|by apply pow_fuel|]. rewrite Hc in *.
  unfold ParseUint. rewrite decide_False.
  - rewrite Hp. cbn [parseDigits]. by rewrite bool_decide_false by done.
  - unfold digitChar. rewrite decide_True by lia. change (chr "0") with 48. lia.
Qed.

Lemma printHex_ident n : identText (printHex n).
Proof. apply Forall_app. split; [repeat constructor|]. apply format_ident; [lia|constructor]. Qed.

(** Reading a word. *)
Definition noIdent (l : list Z) : Prop := match l with c :: _ => isIdent c = false | [] => True end.

Lemma spanIdent_app w tail : identText w → noIdent tail → spanIdent (w ++ tail) = (w, tail).
Proof.
  intros Hw Ht. induction Hw as [|c w Hc Hw IH]; simpl.
  - destruct tail as [|c tail]; [done|]. simpl in Ht. cbn. by rewrite Ht.
  - by rewrite Hc, IH.
Qed.

Lemma Ident_word w tail err st :
  w ≠ [] → identText w → noIdent tail →
  Ident (MkParser (w ++ tail) err st) = (w, MkParser (skipWs tail) err st).
Proof. intros Hne Hw Ht. unfold Ident. cbn [rest]. rewrite spanIdent_app by done. by rewrite decide_False. Qed.

Lemma Parse_ok ch l st : Parse (MkParser (ch :: l) None st) ch = MkParser (skipWs l) None st.
Proof. unfold Parse. cbn [rest perr]. by rewrite decide_True. Qed.
Lemma Char_ok c l st : Char (MkParser (c :: l) None st) = (c, MkParser (c :: l) None st).
Proof. done. Qed.
Lemma consume_ok c l st : consume (MkParser (c :: l) None st) = (c, MkParser l None st).
Proof. done. Qed.
Lemma skipWs_not c l : ¬ isWs c → skipWs (c :: l) = c :: l.
Proof. intros H. simpl. by rewrite decide_False. Qed.

(** ** Data is read back *)

Lemma byte_forall (P : Z → Prop) : Forall P (seqZ 0 256) → ∀ v, isByte v → P v.
Proof. intros H v Hv. rewrite Forall_forall in H. apply H. apply elem_of_seqZ. unfold isByte in Hv. lia. Qed.

(** What the encoding of one byte looks like. *)
Definition encodedByte (v : Z) (l : list Z) : Prop :=
  (l = [v] ∧ v ≠ 39 ∧ v ≠ 92 ∧ v ≠ 0 ∧ 32 ≤ v < 127) ∨
  (∃ c, l = [92; c] ∧ unescape c = Some v ∧ c ≠ chr "x" ∧ 32 ≤ c < 127) ∨
  (∃ hi lo, l = [92; chr "x"; hi; lo] ∧ hexToByte lo hi = (v, true) ∧ 32 ≤ hi < 127 ∧ 32 ≤ lo < 127).

Definition encodedByteCheck (v : Z) : bool :=
  match encodeByte v true false with
  | Ret [c] => bool_decide (c = v ∧ v ≠ 39 ∧ v ≠ 92 ∧ v ≠ 0 ∧ 32 ≤ v < 127)
  | Ret [b; c] => bool_decide (b = 92 ∧ unescape c = Some v ∧ c ≠ chr "x" ∧ 32 ≤ c < 127)
  | Ret [b; x; hi; lo] =>
    bool_decide (b = 92 ∧ x = chr "x" ∧ hexToByte lo hi = (v, true) ∧ 32 ≤ hi < 127 ∧ 32 ≤ lo < 127)
  | _ => false
  end.

Lemma encodedByteCheck_all : forallb encodedByteCheck (seqZ 0 256) = true.
Proof. vm_compute. reflexivity. Qed.

Lemma encodeByte_spec v : isByte v → ∃ l, encodeByte v true false = Ret l ∧ encodedByte v l.
Proof.
  intros Hv. assert (encodedByteCheck v = true) as H.
  { pose proof encodedByteCheck_all as Hall. rewrite forallb_forall in Hall. apply Hall.
    apply list_elem_of_In, elem_of_seqZ. unfold isByte in Hv. lia. }
  unfold encodedByteCheck in H. destruct (encodeByte v true false) as [l| |]; [|done|done]. exists l. split; [done|].
  unfold encodedByte. destruct l as [|a [|b [|x [|y [|]]]]]; try done; apply bool_decide_eq_true in H.
  - destruct H as (-> & H). by left.
  - destruct H as (-> & H). right. left. eauto.
  - destruct H as (-> & -> & H). right. right. eauto.
Qed.

(** The text of data, byte by byte. *)
Inductive encoded : list Z → list Z → Prop :=
| encoded_nil : encoded [] []
| encoded_cons v l data text : encodedByte v l → encoded data text → encoded (v :: data) (l ++ text).

Lemma encodeData_spec data : Forall isByte data → ∀ buf,
  ∃ text, encodeData buf data true false = Ret (buf ++ text) ∧ encoded data text.
Proof.
  induction 1 as [|v data Hv Hd IH]; intros buf; unfold encodeData in *; simpl.
  - exists []. rewrite app_nil_r. split; [done|constructor].
  - destruct (encodeByte_spec v Hv) as (l & -> & Hl). cbn [rbind].
    destruct (IH (buf ++ l)) as (text & -> & Ht). exists (l ++ text). rewrite app_assoc. split; [done|by constructor].
Qed.

Lemma readString_encoded st tail data text : encoded data text → ∀ fuel acc,
  (length data < fuel)%nat →
  readString fuel (MkParser (text ++ 39 :: tail) None st) acc = (inr (acc ++ data), MkParser (39 :: tail) None st).
Proof.
  induction 1 as [|v l data text Hl Ht IH]; intros fuel acc Hf; (destruct fuel as [|fuel]; [simpl in Hf; lia|]).
  - by rewrite app_nil_r.
  - simpl in Hf. specialize (IH fuel (acc ++ [v]) ltac:(lia)). rewrite <-app_assoc in IH. cbn [app] in IH.
    rewrite <-IH. destruct Hl as [(-> & H1 & H2 & H3 & H4)|[(c & -> & Hc & Hx & Hr)|(hi & lo & -> & Hh & Hr1 & Hr2)]];
      cbn [app readString Char rest perr consume setRest strict].
    + rewrite (decide_False (P := v = 39 ∨ v = 0)) by tauto. by rewrite decide_True by done.
    + rewrite (decide_False (P := 92 = 39 ∨ 92 = 0)) by lia. rewrite decide_False by lia.
      rewrite (decide_False (P := c = chr "x")) by done. by rewrite Hc.
    + rewrite (decide_False (P := 92 = 39 ∨ 92 = 0)) by lia. rewrite decide_False by lia.
      rewrite (decide_True (P := chr "x" = chr "x")) by done. by rewrite Hh.
Qed.

Lemma encoded_length data text : encoded data text → (length data ≤ length text)%nat.
Proof.
  induction 1 as [|v l data text Hl Ht IH]; [done|]. rewrite length_app. simpl.
  assert (1 ≤ length l)%nat; [|lia].
  destruct Hl as [(-> & _)|[(c & -> & _)|(hi & lo & -> & _)]]; simpl; lia.
Qed.

Definition printable (c : Z) : Prop := 32 ≤ c < 127.

Lemma encoded_printable data text : encoded data text → Forall printable text.
Proof.
  induction 1 as [|v l data text Hl Ht IH]; [constructor|]. apply Forall_app. split; [|done]. unfold printable.
  destruct Hl as [(-> & H)|[(c & -> & _ & _ & Hc)|(hi & lo & -> & _ & H1 & H2)]];
    repeat (apply Forall_cons; split); try apply Forall_nil; try done; try (change (chr "x") with 120); lia.
Qed.

(** Hexadecimal data. *)
Definition hexCheck (v : Z) : bool :=
  bool_decide (hexDecode [digitChar (v `div` 16); digitChar (v `mod` 16)] = Some [v]) &&
  forallb (λ c, isIdent c && bool_decide (printable c)) [digitChar (v `div` 16); digitChar (v `mod` 16)].

Lemma hexCheck_all : forallb hexCheck (seqZ 0 256) = true.
Proof. vm_compute. reflexivity. Qed.

Lemma hex_byte v : isByte v →
  hexDecode [digitChar (v `div` 16); digitChar (v `mod` 16)] = Some [v] ∧
  identText [digitChar (v `div` 16); digitChar (v `mod` 16)] ∧
  Forall printable [digitChar (v `div` 16); digitChar (v `mod` 16)].
Proof.
  intros Hv. assert (hexCheck v = true) as H.
  { pose proof hexCheck_all as Hall. rewrite forallb_forall in Hall. apply Hall.
    apply list_elem_of_In, elem_of_seqZ. unfold isByte in Hv. lia. }
  unfold hexCheck in H. apply andb_true_iff in H as [H1 H2]. apply bool_decide_eq_true in H1.
  split; [done|]. rewrite forallb_forall in H2.
  split; apply Forall_forall; intros c Hc; specialize (H2 c); rewrite list_elem_of_In in Hc;
    specialize (H2 Hc); apply andb_true_iff in H2 as [Ha Hb]; [done|by apply bool_decide_eq_true in Hb].
Qed.

Lemma hex_roundtrip data : Forall isByte data →
  hexDecode (hexEncode data) = Some data ∧ identText (hexEncode data) ∧ Forall printable (hexEncode data).
Proof.
  induction 1 as [|v data Hv Hd (IH1 & IH2 & IH3)]; [by repeat constructor|].
  destruct (hex_byte v Hv) as (H1 & H2 & H3).
  change (hexEncode (v :: data)) with ([digitChar (v `div` 16); digitChar (v `mod` 16)] ++ hexEncode data).
  split_and!; [|by apply Forall_app..]. cbn [app hexDecode] in *.
  destruct (fromHexAny (digitChar (v `div` 16))); [|done]. destruct (fromHexAny _); [|done].
  rewrite IH1. by injection H1 as ->.
Qed.

Lemma identText_head c l : identText (c :: l) → c ≠ 34 ∧ ¬ isWs c.
Proof.
  intros [Hc _]%Forall_cons. split; [intros ->; discriminate Hc|]. intros [->| ->]; discriminate Hc.
Qed.

Lemma hexEncode_head data c l : Forall isByte data → hexEncode data = c :: l → c ≠ chr "$" ∧ c ≠ 34 ∧ ¬ isWs c.
Proof.
  intros Hd H. destruct (hex_roundtrip data Hd) as (_ & Hid & _). pose proof Hid as Hid'. rewrite H in Hid'.
  destruct (identText_head c l Hid') as [H1 H2]. split; [|done]. destruct data as [|v data]; [done|].
  apply Forall_cons in Hd as [Hv _]. destruct (hex_byte v Hv) as (Hx & _ & _).
  injection H as <- _. intros E. rewrite E in Hx. cbn [hexDecode] in Hx. done.
Qed.

Lemma deserializeData_hex DecodeB64 data tail st :
  Forall isByte data →
  deserializeData DecodeB64 (MkParser ([34] ++ hexEncode data ++ [34] ++ tail) None st) =
    (inr (data, false), MkParser (skipWs tail) None st).
Proof.
  intros Hd. destruct (hex_roundtrip data Hd) as (Hdec & Hid & _). unfold deserializeData. cbn [app].
  assert (¬ isWs 34) as Hq by (intros [E|E]; discriminate E).
  rewrite Char_ok. rewrite decide_True by done. rewrite Parse_ok. cbn zeta.
  destruct (hexEncode data) as [|c l] eqn:Eh.
  - cbn [app]. rewrite skipWs_not, Char_ok by done. rewrite decide_False by done. rewrite Char_ok.
    rewrite decide_False by lia. rewrite Parse_ok. by injection Hdec as <-.
  - destruct (hexEncode_head data c l Hd Eh) as (H1 & H2 & H3). cbn [app].
    rewrite skipWs_not, Char_ok by done. rewrite decide_False by done. rewrite Char_ok. rewrite decide_True by done.
    rewrite (Ident_word (c :: l) (34 :: tail)) by done. rewrite skipWs_not by done. rewrite Parse_ok. by rewrite Hdec.
Qed.

Lemma deserializeData_quoted DecodeB64 data text tail st :
  encoded data text →
  deserializeData DecodeB64 (MkParser ([39] ++ text ++ [39] ++ tail) None st) =
    (inr (data, false), MkParser (skipWs tail) None st).
Proof.
  intros Ht. unfold deserializeData. cbn [app]. rewrite Char_ok. rewrite decide_False by lia.
  rewrite consume_ok. rewrite decide_False by lia. cbn [rest].
  rewrite (readString_encoded st tail data text Ht).
  - by rewrite Parse_ok.
  - apply encoded_length in Ht. rewrite length_app. lia.
Qed.

(** Data survives the text format: whatever bytes [serializeData] is given, in either
    of its forms, it appends a text of printable characters that begins with a quote, and
    [deserializeData] reads exactly the same bytes back from that text, whatever follows it,
    and stops behind it and the blanks that follow. *)
Lemma data_text DecodeB64 data readable buf :
  Forall isByte data →
  ∃ text, serializeData buf data readable = Ret (buf ++ text) ∧ Forall printable text ∧
    (∃ l, text = 34 :: l ∨ text = 39 :: l) ∧
    ∀ tail st, deserializeData DecodeB64 (MkParser (text ++ tail) None st) =
      (inr (data, false), MkParser (skipWs tail) None st).
Proof.
  intros Hd. unfold serializeData. destruct (negb readable && _) eqn:E.
  - destruct (hex_roundtrip data Hd) as (Hdec & Hid & Hpr). exists ([34] ++ hexEncode data ++ [34]).
    split; [done|]. split_and!; [|by eexists; left|].
    { apply Forall_app. split; [repeat constructor; lia|]. apply Forall_app. split; [done|repeat constructor; lia]. }
    intros tail st. rewrite <-!app_assoc. by apply (deserializeData_hex DecodeB64 data).
  - destruct (encodeData_spec data Hd (buf ++ [39])) as (text & -> & Ht). cbn [rbind].
    exists ([39] ++ text ++ [39]). split; [by rewrite <-!app_assoc|]. split_and!; [|by eexists; right|].
    { apply Forall_app. split; [repeat constructor; lia|]. apply Forall_app.
      split; [by eapply encoded_printable|repeat constructor; lia]. }
    intros tail st. rewrite <-!app_assoc. by apply (deserializeData_quoted DecodeB64 data).
Qed.

Lemma readB64_ok w tail : Forall (λ c, c ≠ 34) w → readB64 (w ++ 34 :: tail) = (w, 34 :: tail).
Proof.
  induction 1 as [|c w Hc _ IH]; cbn [app readB64]; [by rewrite decide_True|]. rewrite decide_False by done. by rewrite IH.
Qed.

(** Compressed data is in base64. *)
Lemma deserializeData_b64 DecodeB64 raw data tail st :
  DecodeB64 raw = Some data → Forall (λ c, c ≠ 34) raw →
  deserializeData DecodeB64 (MkParser ([34; chr "$"] ++ raw ++ [34] ++ tail) None st) =
    (inr (data, true), MkParser (skipWs tail) None st).
Proof.
  intros Hd Hq. unfold deserializeData. cbn [app]. rewrite Char_ok. rewrite decide_True by done. rewrite Parse_ok.
  rewrite skipWs_not by (intros [E|E]; discriminate E). rewrite Char_ok. rewrite decide_True by done. rewrite consume_ok.
  cbn [rest]. rewrite readB64_ok by done. unfold setRest. cbn [perr strict]. rewrite Parse_ok. by rewrite Hd.
Qed.

(** ** Addresses are read back *)

(** Rounding down to a power of two. *)
Lemma land_mask k x : 0 ≤ k ≤ 63 → is_u 64 x → Z.land x (not64 (2 ^ k -! 1)) = 2 ^ k * (x `div` 2 ^ k).
Proof.
  intros Hk [Hx0 Hx]. assert (0 < 2 ^ k < 2 ^ 64) as Hp by (split; [lia|apply Z.pow_lt_mono_r; lia]).
  rewrite sub64_small by lia. rewrite Z.mul_comm, <-Z.shiftl_mul_pow2, <-Z.shiftr_div_pow2 by lia.
  apply Z.bits_inj'. intros i Hi. rewrite Z.land_spec, Z.shiftl_spec by lia. unfold not64, wrapU.
  destruct (decide (64 ≤ i)).
  - rewrite Z.mod_pow2_bits_high by lia. rewrite andb_false_r, Z.shiftr_spec by lia.
    replace (i - k + k) with i by lia. rewrite <-(Z.mod_small x (2 ^ 64)), Z.mod_pow2_bits_high by lia. done.
  - rewrite Z.mod_pow2_bits_low, Z.lnot_spec by lia.
    replace (2 ^ k - 1) with (Z.ones k) by (rewrite Z.ones_equiv; lia).
    rewrite Z.testbit_ones_nonneg by lia. destruct (decide (i < k)).
    + rewrite (proj2 (Z.ltb_lt i k)) by lia. simpl. rewrite andb_false_r. rewrite Z.testbit_neg_r by lia. done.
    + rewrite (proj2 (Z.ltb_ge i k)) by lia. simpl. rewrite andb_true_r, Z.shiftr_spec by lia. f_equal. lia.
Qed.

Lemma printHex_cons n : ∃ l, printHex n = chr "0" :: l.
Proof. unfold printHex. cbn [str app]. eauto. Qed.

Lemma Ident_hex n c tail st :
  isIdent c = false → ¬ isWs c →
  Ident (MkParser (printHex n ++ c :: tail) None st) = (printHex n, MkParser (c :: tail) None st).
Proof.
  intros Hc Hw. rewrite Ident_word; [by rewrite skipWs_not| |apply printHex_ident|done].
  destruct (printHex_cons n) as [l ->]. done.
Qed.

(** The address of a pointer, or the page range of a mapping inside the data area. *)
Definition goodAddr (target : Target) (k addr vmaSize : Z) : Prop :=
  let maxMem := NumPages target * PageSize target in
  PageSize target = 2 ^ k ∧ 0 ≤ k ≤ 40 ∧ 0 ≤ NumPages target ∧ maxMem < 2 ^ 62 ∧ 0 ≤ addr < 2 ^ 62 ∧
  (vmaSize = 0 ∨ 0 < vmaSize ∧ addr + vmaSize ≤ maxMem ∧
     2 ^ k * (addr `div` 2 ^ k) = addr ∧ 2 ^ k * (vmaSize `div` 2 ^ k) = vmaSize).

Lemma parseVmaSize_ok target k addr vmaSize tail st :
  goodAddr target k addr vmaSize → vmaSize ≠ 0 →
  parseVmaSize target (MkParser (chr "/" :: printHex vmaSize ++ chr ")" :: tail) None st) addr =
    (inr (addr, vmaSize), MkParser (chr ")" :: tail) None st).
Proof.
  intros (Hps & Hk & Hnp & Hmem & Ha & [?|(Hv & Hend & Hda & Hdv)]) Hne; [done|].
  assert (0 < 2 ^ k ≤ 2 ^ 40) as Hp by (split; [lia|apply Z.pow_le_mono_r; lia]).
  unfold parseVmaSize. rewrite Char_ok. rewrite decide_True by done. rewrite Parse_ok.
  destruct (printHex_cons vmaSize) as [l Hl]. assert (skipWs (printHex vmaSize ++ chr ")" :: tail) =
    printHex vmaSize ++ chr ")" :: tail) as ->.
  { rewrite Hl. cbn [app]. apply skipWs_not. intros [E|E]; discriminate E. }
  rewrite Ident_hex by (done || (intros [E|E]; discriminate E)). rewrite ParseUint_hex by (split; lia).
  cbn zeta. rewrite Hps in *. set (M := NumPages target * 2 ^ k) in *.
  rewrite (mul64_small (NumPages target)) by (fold M; lia). fold M.
  assert (Z.land addr (not64 (2 ^ k -! 1)) = addr) as -> by (rewrite land_mask; [done|lia|split; lia]).
  assert (Z.land (vmaSize +! 2 ^ k -! 1) (not64 (2 ^ k -! 1)) = vmaSize) as ->.
  { rewrite (add64_small vmaSize) by lia. rewrite (sub64_small (vmaSize + 2 ^ k) 1) by lia.
    rewrite land_mask; [|lia|split; lia].
    replace ((vmaSize + 2 ^ k - 1) `div` 2 ^ k) with (vmaSize `div` 2 ^ k); [done|].
    apply (Z.div_unique_pos _ _ _ (2 ^ k - 1)); lia. }
  rewrite (decide_False (P := vmaSize = 0)) by lia. rewrite (decide_False (P := M < vmaSize)) by lia.
  rewrite sub64_small by lia. by rewrite decide_False by lia.
Qed.

(** Addresses survive the text format: the address of a pointer, and the page-aligned
    range of a mapping inside the data area, are read back by [parseAddr] from what
    [serializeAddr] prints, whatever follows. *)
Theorem addr_roundtrip target k addr vmaSize tail st :
  goodAddr target k addr vmaSize →
  parseAddr target (MkParser (serializeAddr addr vmaSize ++ tail) None st) =
    (inr (addr, vmaSize), MkParser (skipWs tail) None st).
Proof.
  intros Hg. pose proof Hg as (Hps & Hk & Hnp & Hmem & Ha & Hcase). unfold encodingAddrBase in *.
  assert (encodingAddrBase +! addr = encodingAddrBase + addr) as Hbase
    by (apply add64_small; unfold encodingAddrBase; lia).
  assert (is_u 64 (encodingAddrBase + addr)) as Hu by (unfold encodingAddrBase; split; lia).
  unfold parseAddr, serializeAddr. rewrite Hbase. cbn [str app]. rewrite Parse_ok.
  set (n := encodingAddrBase + addr) in *. destruct (printHex_cons n) as [l Hl].
  set (ssize := if decide (vmaSize ≠ 0) then _ else _).
  assert (∀ t, skipWs (printHex n ++ t) = printHex n ++ t) as Hskip.
  { intros t. rewrite Hl. cbn [app]. apply skipWs_not. intros [E|E]; discriminate E. }
  rewrite <-!app_assoc, Hskip.
  assert (∃ c t, ssize ++ [chr ")"] ++ tail = c :: t ∧ isIdent c = false ∧ ¬ isWs c ∧ c ≠ chr "+" ∧ c ≠ chr "-")
    as (c & t & Ec & Hid & Hws & Hp1 & Hp2).
  { unfold ssize. case_decide; eexists _, _; (split; [reflexivity|]);
      (split_and!; [done|intros [E|E]; discriminate E|done|done]). }
  rewrite Ec, Ident_hex by done. rewrite ParseUint_hex by done.
  rewrite decide_False by (unfold n; lia). unfold parseOffset. rewrite Char_ok.
  rewrite decide_False by tauto. replace (n -! encodingAddrBase) with addr
    by (unfold n; rewrite sub64_small by (unfold encodingAddrBase; lia); lia).
  rewrite <-Ec. unfold ssize. case_decide as Hv.
  - cbn [str app].
    rewrite (parseVmaSize_ok target k) by done. by rewrite Parse_ok.
  - assert (vmaSize = 0) as -> by (by destruct (decide (vmaSize = 0))).
    cbn [app]. unfold parseVmaSize. rewrite Char_ok. rewrite decide_False by done. by rewrite Parse_ok.
Qed.

Definition textTarget : Target := MkTarget [] [] 8 4096 4096 0 [] 0 0 0 0 0 [] "test" [] [].

Lemma addr_roundtrip_witness :
  parseAddr textTarget (MkParser (serializeAddr 0x3000 0x2000 ++ str ", 0x1)") None true) =
    (inr (0x3000, 0x2000), MkParser (str ", 0x1)") None true).
Proof.
  apply (addr_roundtrip textTarget 12 0x3000 0x2000 (str ", 0x1)") true).
  split_and!; try (vm_compute; congruence). right. split_and!; vm_compute; congruence.
Defined.

End Text.
