(* ===== verification/RandData.v ===== *)
(** * RandData: random flags, file names, strings and machine code (prog/rand.go)

    The draws that make up values of the descriptions.  Strings are lists of bytes.  A Go map
    is visited in any order, but the code sorts its keys before it chooses one of them.
    Loops that end by a draw run with the fuel [lfuel]. *)

From S2P Require Import Prelude Rand Bytes Types Prog ExampleTarget Validation Mutation Text.
From Stdlib Require Import Ascii.
Import Bytes Types Prog Validation Mutation Text.

Module RandData.

(** ** Flags *)

(** [for r.bin() { v += inc }] *)
Fixpoint addWhile (lfuel : nat) (v inc : Z) (r : rng) : res (Z * rng) :=
  match lfuel with
  | O => OutOfFuel
  | S lfuel =>
    let! '(b, r) := bin r in
    if (b : bool) then addWhile lfuel (v +! inc) inc r else Ret (v, r)
  end.

(** The loop that flips bits; [try] counts what is left of the ten attempts. *)
Fixpoint flipFlags (try : nat) (vv : list Z) (v : Z) (r : rng) : res (Z * rng) :=
  match try with
  | O => Ret (v, r)
  | S try =>
    let! '(go, r) := if decide (v = 0) then Ret (true, r) else nOutOf 2 3 r in
    if negb go then Ret (v, r)
    else
      let! '(k, r) := rand (Z.of_nat (length vv)) r in
      let! flag := index vv k in
      let! '(adjacent, r) := oneOf 20 r in
      let! '(flag, r) :=
        if (adjacent : bool) then
          let! '(b, r) := bin r in Ret (if (b : bool) then Z.shiftr flag 1 else shl64 flag 1, r)
        else Ret (flag, r) in
      flipFlags try vv (Z.lxor v flag) r
  end.

Definition flags (lfuel : nat) (vv : list Z) (bitmask : bool) (oldVal : Z) (r : rng) : res (Z * rng) :=
  let! '(b, r) := oneOf 100 r in
  if (b : bool) then rand64 r
  else
    let! '(b, r) := oneOf 50 r in
    if (b : bool) then Ret (0, r)
    else
      let! '(b, r) := if negb bitmask && bool_decide (oldVal ≠ 0) then oneOf 100 r else Ret (false, r) in
      if (b : bool) then
        let! '(down, r) := bin r in
        let inc := if (down : bool) then 2 ^ 64 - 1 else 1 in
        addWhile lfuel (oldVal +! inc) inc r
      else
        match vv with
        | [v] => let! '(b, r) := bin r in Ret (if (b : bool) then 0 else v, r)
        | _ =>
          let! '(b, r) := if negb bitmask then let! '(b, r) := oneOf 10 r in Ret (negb b, r) else Ret (false, r) in
          if (b : bool) then
            let! '(k, r) := rand (Z.of_nat (length vv)) r in let! v := index vv k in Ret (v, r)
          else
            let! '(b, r) := oneOf (Z.of_nat (length vv) + 4) r in
            if (b : bool) then Ret (0, r)
            else
              let! '(b, r) := if decide (oldVal ≠ 0) then oneOf 10 r else Ret (false, r) in
              flipFlags 10 vv (if (b : bool) then 0 else oldVal) r
        end.

(** ** Keys of maps *)

(** The order of [sort.Strings]. *)
Fixpoint bytesLe (a b : list Z) : bool :=
  match a, b with
  | [], _ => true
  | _, [] => false
  | x :: a, y :: b => bool_decide (x < y) || bool_decide (x = y) && bytesLe a b
  end.

Definition randFromMap (m : gset (list Z)) (r : rng) : res (list Z * rng) :=
  let files := merge_sort bytesLe (elements m) in
  let! '(k, r) := intn (Z.of_nat (length files)) r in
  let! f := index files k in
  Ret (f, r).

(** ** File names *)

Definition specialFiles : list (list Z) := [[]; str "."].
Definition specialFileLenPad : list Z := str "a".

Section files.
Context (SpecialFileLenghts : list Z) (lfuel : nat).

Definition randFilenameLength (r : rng) : res (Z * rng) :=
  let! '(off, r) := biasedRand 10 5 r in
  let! '(b, r) := bin r in
  let off := if (b : bool) then - off else off in
  let! '(k, r) := intn (Z.of_nat (length SpecialFileLenghts)) r in
  let! len := index SpecialFileLenghts k in
  Ret (if decide (len + off < 0) then 0 else len + off, r).

(** Without the last byte if it is zero. *)
Definition dropZero (s : list Z) : list Z := if decide (last s = Some 0) then take (length s - 1) s else s.

(** The directory of a new file. *)
Definition chooseDir (files : gset (list Z)) (r : rng) : res (list Z * rng) :=
  let! '(b, r) := oneOf 2 r in
  if (b : bool) && bool_decide (files ≠ ∅) then
    let! '(dir, r) := randFromMap files r in
    let dir := dropZero dir in
    let! '(up, r) := oneOf 10 r in
    if (up : bool) then
      let! c := index (Clean dir) 0 in
      Ret (if decide (c ≠ dot) then dir ++ str "/.." else dir, r)
    else Ret (dir, r)
  else Ret (str ".", r).

(** The loop that looks for a name that is not in use. *)
Fixpoint newName (fuel : nat) (files : gset (list Z)) (dir : list Z) (i : Z) (r : rng) : res (list Z * rng) :=
  match fuel with
  | O => OutOfFuel
  | S fuel =>
    let f := dir ++ str "/file" ++ printDec i in
    let! '(long, r) := oneOf 100 r in
    let! '(f, r) :=
      if (long : bool) then
        let! '(fileLen, r) := randFilenameLength r in
        let add := fileLen - Z.of_nat (length f) in
        Ret (if decide (0 < add) then f ++ concat (replicate (Z.to_nat add) specialFileLenPad) else f, r)
      else Ret (f, r) in
    if decide (f ∉ files) then Ret (f, r) else newName fuel files dir (i + 1) r
  end.

Definition filenameImpl (files : gset (list Z)) (r : rng) : res (list Z * rng) :=
  let! '(b, r) := oneOf 100 r in
  if (b : bool) then
    let! '(k, r) := intn (Z.of_nat (length specialFiles)) r in
    let! f := index specialFiles k in Ret (f, r)
  else
    let! '(b, r) := if decide (files = ∅) then Ret (true, r) else oneOf 10 r in
    if (b : bool) then let! '(dir, r) := chooseDir files r in newName lfuel files dir 0 r
    else randFromMap files r.

Definition filename (files : gset (list Z)) (t : Typ) (desc : BufferDesc) (r : rng) : res (list Z * rng) :=
  let! '(fn, r) := filenameImpl files r in
  if decide (last fn = Some 0) then Panic "zero-terminated filename"
  else if escapingFilename fn then Panic "sandbox escaping file name"
  else if negb (Varlen t) then
    let! size := Types.Size t in
    let fn :=
      if decide (Z.of_nat (length fn) < size) then fn ++ replicate (Z.to_nat (size - Z.of_nat (length fn))) 0 else fn in
    Ret (take (Z.to_nat size) fn, r)
  else Ret (if negb (bufNoZ desc) then fn ++ [0] else fn, r).

End files.

(** ** Strings *)

Definition punct : list Z :=
  str "!@#$%^&*()-+\/:.,-'[]{}".

Fixpoint randChars (lfuel : nat) (buf : list Z) (r : rng) : res (list Z * rng) :=
  match lfuel with
  | O => OutOfFuel
  | S lfuel =>
    let! '(more, r) := nOutOf 3 4 r in
    if negb more then Ret (buf, r)
    else
      let! '(p, r) := nOutOf 10 11 r in
      let! '(c, r) :=
        if (p : bool) then
          let! '(k, r) := intn (Z.of_nat (length punct)) r in let! c := index punct k in Ret (c, r)
        else intn 256 r in
      randChars lfuel (buf ++ [c]) r
  end.

Definition randString (lfuel : nat) (strings : gset (list Z)) (desc : BufferDesc) (r : rng) : res (list Z * rng) :=
  if decide (bufValues desc ≠ []) then
    let! '(k, r) := intn (Z.of_nat (length (bufValues desc))) r in
    let! v := index (bufValues desc) k in Ret (v, r)
  else
    let! '(b, r) := if decide (strings ≠ ∅) then bin r else Ret (false, r) in
    if (b : bool) then randFromMap strings r
    else
      let! '(buf, r) := randChars lfuel [] r in
      let! '(z, r) := oneOf 100 r in
      Ret (if decide ((z : bool) = bufNoZ desc) then buf ++ [0] else buf, r).

(** ** Machine code *)

Inductive ifuzzMode := ModeLong64 | ModeProt32 | ModeProt16 | ModeReal16.
Inductive ifuzzArch := ArchX86 | ArchPowerPC.
Record MemRegion := MkRegion { Start : Z; regionSize : Z }.
(** [ifuzz.Config] *)
Record Config := MkConfig {
  cfgArch : ifuzzArch; cfgLen : Z; cfgMode : ifuzzMode; cfgPriv : bool; cfgExec : bool; MemRegions : list MemRegion
}.

Section text.
Context (target : Target) (Arch : string).

Definition createTargetIfuzzConfig : option Config :=
  let regions :=
    MkRegion (DataOffset target) (NumPages target *! PageSize target) ::
    ((λ p, let base := Z.land p (not64 (PageSize target)) in MkRegion base (base +! PageSize target)) <$>
       SpecialPointers target) in
  if decide (Arch = "amd64") then Some (MkConfig ArchX86 10 ModeLong64 false true regions)
  else if decide (Arch = "386") then Some (MkConfig ArchX86 10 ModeProt32 false true regions)
  else if decide (Arch = "ppc64") then Some (MkConfig ArchPowerPC 10 ModeLong64 false true regions)
  else None.

Definition createIfuzzConfig (kind : TextKind) : res Config :=
  let regions :=
    ((λ i, MkRegion (Z.shiftl i 12) (Z.shiftl 1 12)) <$> seqZ 0 10) ++ [MkRegion 0xfec00000 0x100] in
  match kind with
  | TextX86Real => Ret (MkConfig ArchX86 10 ModeReal16 true true regions)
  | TextX86bit16 => Ret (MkConfig ArchX86 10 ModeProt16 true true regions)
  | TextX86bit32 => Ret (MkConfig ArchX86 10 ModeProt32 true true regions)
  | TextX86bit64 => Ret (MkConfig ArchX86 10 ModeLong64 true true regions)
  | TextPpc64 => Ret (MkConfig ArchPowerPC 10 ModeLong64 true true regions)
  | TextTarget | TextArm64 => Panic "unknown text kind"
  end.

(** The generators and mutators of pkg/ifuzz. *)
Context (ifuzzGenerate : Config → rng → list Z * rng).
Context (ifuzzMutate : Config → list Z → rng → list Z * rng).

(** [n] random bytes. *)
Definition randBytes (n : nat) (r : rng) : res (list Z * rng) :=
  for_list (λ (_ : nat) '(l, r), let! '(b, r) := intn 256 r in Ret (l ++ [b], r)) (seq 0 n) ([], r).

Definition generateText (kind : TextKind) (r : rng) : res (list Z * rng) :=
  match kind with
  | TextTarget =>
    match createTargetIfuzzConfig with
    | Some cfg => Ret (ifuzzGenerate cfg r)
    | None => randBytes 50 r
    end
  | TextArm64 => randBytes 50 r
  | _ => let! cfg := createIfuzzConfig kind in Ret (ifuzzGenerate cfg r)
  end.

Definition mutateText (lfuel : nat) (kind : TextKind) (text : list Z) (r : rng) : res (list Z * rng) :=
  match kind with
  | TextTarget =>
    match createTargetIfuzzConfig with
    | Some cfg => Ret (ifuzzMutate cfg text r)
    | None => mutateData lfuel text 40 60 r
    end
  | TextArm64 => mutateData lfuel text 40 60 r
  | _ => let! cfg := createIfuzzConfig kind in Ret (ifuzzMutate cfg text r)
  end.

End text.
End RandData.
