(* ===== verification/Generate.v ===== *)
(** * Generate: random generation of calls and programs (prog/rand.go, prog/generation.go)

    A generator threads the state of [randGen] (the draws, the two flags that bound the
    recursion and the depth of optional pointers), the state of the analysis and the memory.
    [generateArgImpl] and [generateParticularCall] call each other through the constructors of
    resources and through conditional fields: the recursion has one fuel, loops that end by a
    draw have the fuel [lfuel].  The target's hooks, the constructors of resources, the tables
    of choices and the order of maps are parameters. *)

From S2P Require Import Prelude Rand Alloc Bytes Types Prog ExampleTarget Resources Prio ProgEdit Clone Collide Size Expr.
From S2P Require Import Validation Conditions Minimize Analysis Text RandData.
Import Bytes Types Prog ProgEdit Clone Collide Expr Conditions RandData.

Module Generate.

(** ** Generators *)

Record randGen := MkRand {
  Rand_ : rng;
  inGenerateResource : bool;
  inPatchConditional : bool;
  recDepth : gmap string Z
}.

Definition newRand (r : rng) : randGen := MkRand r false false ∅.

Record gst := MkG { gR : randGen; gS : Analysis.state; gM : mem }.
Notation gen A := (gst → res (A * gst)) (only parsing).

Definition gret {A} (x : A) : gen A := λ g, Ret (x, g).
Definition gbind {A B} (m : gen A) (k : A → gen B) : gen B := λ g, let! '(x, g) := m g in k x g.
Notation "'let*' x := m 'in' k" := (gbind m (λ x, k))
  (at level 200, x binder, m at level 100, k at level 200, right associativity).

Definition pure {A} (x : res A) : gen A := λ g, let! x := x in Ret (x, g).
Definition withRand (f : randGen → randGen) : gen unit := λ g, Ret (tt, MkG (f (gR g)) (gS g) (gM g)).
Definition draw {A} (f : rng → res (A * rng)) : gen A := λ g,
  let! '(x, r) := f (Rand_ (gR g)) in
  Ret (x, MkG (MkRand r (inGenerateResource (gR g)) (inPatchConditional (gR g)) (recDepth (gR g))) (gS g) (gM g)).
Definition onMem {A} (f : mem → res (A * mem)) : gen A := λ g,
  let! '(x, m) := f (gM g) in Ret (x, MkG (gR g) (gS g) m).
Definition onState {A} (f : Analysis.state → res (A * Analysis.state)) : gen A := λ g,
  let! '(x, s) := f (gS g) in Ret (x, MkG (gR g) s (gM g)).
Definition getHeap : gen heap := λ g, Ret (mHeap (gM g), g).
Definition getState : gen Analysis.state := λ g, Ret (gS g, g).
Definition getRand : gen randGen := λ g, Ret (gR g, g).

(** [for _, x := range l] *)
Fixpoint gfor {A S} (f : A → S → gen S) (l : list A) (s : S) : gen S :=
  match l with
  | [] => gret s
  | x :: l => let* s := f x s in gfor f l s
  end.

Definition setInResource (b : bool) : gen unit :=
  withRand (λ r, MkRand (Rand_ r) b (inPatchConditional r) (recDepth r)).
Definition setInPatch (b : bool) : gen unit :=
  withRand (λ r, MkRand (Rand_ r) (inGenerateResource r) b (recDepth r)).
Definition setDepth (f : gmap string Z → gmap string Z) : gen unit :=
  withRand (λ r, MkRand (Rand_ r) (inGenerateResource r) (inPatchConditional r) (f (recDepth r))).

(** One of the elements of a slice. *)
Definition chooseOf {A} (l : list A) : gen A :=
  let* k := draw (intn (Z.of_nat (length l))) in pure (index l k).

Section target.
Context (target : Target).
Notation typeAt := (typeAt (typeRefs target)).

(** Fields of the target that only generation reads: its architecture, the lengths of long
    file names, the constructors of each resource and the generators of special types. *)
Context (Arch : string) (SpecialFileLenghts : list Z) (resourceCtors : string → list Resources.ResourceCtor).
Notation ga := (bool → Typ → Dir → gst → res ((Arg * list Call) * gst)) (only parsing).
Context (SpecialTypes : string → option (ga → Typ → Dir → gen (Arg * list Call))).
Context (ifuzzGenerate : Config → rng → list Z * rng).
Context (ct : Prio.ChoiceTable) (corpus : list (list Call)).
(** The orders in which maps are visited. *)
Context (order : list (positive * Arg) → list (positive * Arg)).
Context (resOrder : list (string * list positive) → list (string * list positive)).
(** The fuel of default arguments and of loops. *)
Context (dfuel lfuel : nat).

Notation isCompatibleResource := (Resources.isCompatibleResource target).

Definition allocAddr (t : Typ) (dir : Dir) (size : Z) (data : Arg) : gen Arg :=
  let* h := getHeap in
  let* td := pure (argType target h data) in
  let* addr := onState (λ s,
    let! '(addr, ma) := MemAlloc.alloc 2 (Analysis.ma s) size (TypeAlign (common td)) in
    Ret (addr, Analysis.MkState (Analysis.files s) (Analysis.resources s) (Analysis.strings s) ma (Analysis.va s))) in
  onMem (MakePointerArg t dir addr data).

Definition allocVMA (t : Typ) (dir : Dir) (numPages : Z) : gen Arg :=
  let* s := getState in
  let* '(page, va) := draw (λ r, let! '(page, va, r) := VmaAlloc.alloc (Analysis.va s) numPages r in Ret (page, va, r)) in
  let* _ := onState (λ s, Ret (tt, Analysis.MkState (Analysis.files s) (Analysis.resources s) (Analysis.strings s) (Analysis.ma s) va)) in
  onMem (MakeVmaPointerArg t dir (page *! PageSize target) (numPages *! PageSize target)).

(** ** Resources *)

(** The order of Go strings, on the names of types. *)
Definition nameLe {A} (x y : string * A) : bool := String.leb x.1 y.1.

(** The name of the type of a result. *)
Definition resultName (i : positive) : gen string :=
  let* h := getHeap in let* t := pure (argType target h (ResultArg i)) in gret (Name t).

Definition MakeResult (t : Typ) (dir : Dir) (r : option positive) (v : Z) : gen Arg :=
  let* i := onMem (MakeResultArg t dir r v) in gret (ResultArg i).

Definition existingResource (t : Typ) (desc : ResourceDesc) (dir : Dir) : gen (option Arg) :=
  let* s := getState in
  let* alltypes := gfor (λ kr l,
    let* first := pure (index kr.2 0) in
    let* name := resultName first in gret (l ++ [(name, kr.2)])) (resOrder (map_to_list (Analysis.resources s))) [] in
  let* allres := gfor (λ nr allres,
    let* c := pure (isCompatibleResource (resName desc) nr.1) in
    let* c :=
      if (c : bool) then gret true
      else
        let* b := draw (oneOf 50) in
        if (b : bool) then let* kind := pure (index (resKind desc) 0) in pure (isCompatibleResource kind nr.1)
        else gret false in
    gret (if (c : bool) then allres ++ nr.2 else allres)) (merge_sort nameLe alltypes) [] in
  match allres with
  | [] => gret None
  | _ => let* r := chooseOf allres in let* a := MakeResult t dir (Some r) 0 in gret (Some a)
  end.

Definition enabledCtors (kind : string) : res (list Resources.ResourceCtor) :=
  for_list (λ info ret,
    let! g := Prio.Generatable ct (Z.of_nat (Resources.ctorCall info)) in
    Ret (if (g : bool) then ret ++ [info] else ret)) (resourceCtors kind) [].

(** Another kind of resource once in a while. *)
Definition spoofKind (desc : ResourceDesc) (kind : string) (ctors : list Resources.ResourceCtor) :
    gen (string * list Resources.ResourceCtor) :=
  let* spoof := if decide (Resources target ≠ []) then draw (oneOf 1000) else gret false in
  if negb spoof then gret (kind, ctors)
  else
    let* kind0 := pure (index (resKind desc) 0) in
    let* all := gfor (λ kind1 all,
      let* c := pure (isCompatibleResource kind0 kind1) in gret (if (c : bool) then all ++ [(kind1, tt)] else all))
      (elements (list_to_set (resName <$> Resources target) : gset string)) [] in
    let* _ := if decide (all = []) then pure (Panic "got no spoof resources") else gret tt in
    let* '(kind1, _) := chooseOf (merge_sort nameLe all) in
    let* ctors1 := pure (enabledCtors kind1) in
    gret (if decide (ctors1 ≠ []) then (kind1, ctors1) else (kind, ctors)).

Definition chooseCtor (ctors : list Resources.ResourceCtor) : gen Syscall :=
  let precise := filter (λ c, Resources.Precise c = true) ctors in
  let* c1 := match precise with [] => gret None | _ => let* c := chooseOf precise in gret (Some c) end in
  let* again := match c1 with None => gret true | Some _ => draw (oneOf 3) end in
  let* c := match c1 with
            | Some c => if (again : bool) then chooseOf ctors else gret c
            | None => chooseOf ctors
            end in
  pure (index (Syscalls target) (Z.of_nat (Resources.ctorCall c))).

(** [generateCall] makes the calls of one constructor. *)
Definition createResource (generateCall : Syscall → gen (list Call)) (t : Typ) (desc : ResourceDesc) (dir : Dir) :
    gen (option Arg * list Call) :=
  let* r := getRand in
  let* _ := if inGenerateResource r then gret tt else pure (Panic "inGenerateResource is not set") in
  let* ctors := pure (enabledCtors (resName desc)) in
  let* '(kind, ctors) := spoofKind desc (resName desc) ctors in
  match ctors with
  | [] => gret (None, [])
  | _ =>
    let* meta := chooseCtor ctors in
    let* calls := generateCall meta in
    let* c := pure (index calls (Z.of_nat (length calls) - 1)) in
    let* h := getHeap in
    let* s1 := pure (let! s1 := Analysis.newState target in Analysis.analyzeImpl target h c true s1) in
    let* allres := gfor (λ kr l,
      let* comp := pure (isCompatibleResource kind kr.1) in
      if (comp : bool) then gfor (λ i l, let* name := resultName i in gret (l ++ [(name, i)])) kr.2 l else gret l)
      (resOrder (map_to_list (Analysis.resources s1))) [] in
    let* _ := if decide (allres = []) then pure (Panic "failed to create a resource") else gret tt in
    let* '(_, r) := chooseOf (merge_sort nameLe allres) in
    let* a := MakeResult t dir (Some r) 0 in
    gret (Some a, calls)
  end.

(** The results of a program that are used and compatible with a type. *)
Definition getCompatibleResources (h : heap) (calls : list Call) (resourceType : string) : res (list positive) :=
  for_list (λ c l, ForeachArg target (λ _, h) (λ arg _ l,
    match resultOf arg with
    | None => Ret (l, false)
    | Some i =>
      let! o := deref h i in
      if decide (uses o = ∅ ∨ rDir o ≠ DirOut) then Ret (l, false)
      else
        let! t := typeAt (rRef o) in
        let! c := isCompatibleResource resourceType (Name t) in
        Ret (if (c : bool) then l ++ [i] else l, false)
    end) c l) calls [].

(** The loop over the programs of the corpus. *)
Fixpoint findResource (name : string) (idxs : list nat) : gen (option (list Call * positive)) :=
  match idxs with
  | [] => gret None
  | idx :: idxs =>
    let* p0 := pure (index corpus (Z.of_nat idx)) in
    let* p := onMem (Clone p0) in
    let* h := getHeap in
    let* resources := pure (getCompatibleResources h p name) in
    match resources with
    | [] => findResource name idxs
    | _ => let* r := chooseOf resources in gret (Some (p, r))
    end
  end.

(** One call of the loop that removes unrelated calls: does it have a related result, and
    the results it refers to. *)
Definition relatedCall (h : heap) (related : gset positive) (c : Call) : res (bool * list positive) :=
  ForeachArg target (λ _, h) (λ arg _ '(inc, new),
    match resultOf arg with
    | None => Ret ((inc, new), false)
    | Some i =>
      let! o := deref h i in
      let new := match rRes o with Some r => if decide (r ∉ related) then new ++ [r] else new | None => new end in
      let hit := bool_decide (i ∈ related) || match rRes o with Some r => bool_decide (r ∈ related) | None => false end in
      Ret ((inc || hit, new), false)
    end) c (false, []).

(** The calls from the index [n - 1] down. *)
Fixpoint removeUnrelated (n : nat) (p : list Call) (related : gset positive) : gen (list Call) :=
  match n with
  | O => gret p
  | S idx =>
    let* h := getHeap in
    let* c := pure (index p (Z.of_nat idx)) in
    let* '(inc, new) := pure (relatedCall h related c) in
    if negb inc then let* p := onMem (RemoveCall target p idx) in removeUnrelated idx p related
    else removeUnrelated idx p (list_to_set new ∪ related)
  end.

(** [resourceCentric]: the code computes the number of calls to keep from its own result
    [calls], which is still empty, so that no call is removed by the last loop. *)
Definition resourceCentric (t : Typ) (dir : Dir) : gen (option Arg * list Call) :=
  let* perm := draw (Perm (length corpus)) in
  let* found := findResource (Name t) perm in
  match found with
  | None => gret (None, [])
  | Some (p, resource) =>
    let* p := removeUnrelated (length p) p {[resource]} in
    let* _ := draw float53 in
    let* a := MakeResult t dir (Some resource) 0 in
    gret (Some a, p)
  end.

(** ** Calls *)

Definition generateArgs (rec : ga) (fields : list Field) (dir : Dir) : gen (list Arg * list Call) :=
  gfor (λ f '(args, calls),
    let* t := pure (typeAt (fieldType f)) in
    let* '(arg, calls1) := rec false t (fieldDir f dir) in
    gret (args ++ [arg], calls ++ calls1)) fields ([], []).

(** The callback of [patchConditionalFields]: the new option of a stale union. *)
Definition patchOption (rec : ga) (st : stale) (s : list (positive * Arg) * list Call * gst) :
    res (list (positive * Arg) * list Call * gst) :=
  let '(replace, extra, g) := s in
  match staleArg st with
  | UnionArg c _ _ _ =>
    let! t := typeAt (aref c) in
    match t with
    | UnionType _ fields =>
      let! '((new, calls), g) :=
        (let* idx := chooseOf (okIndices st) in
         let* field := pure (index fields idx) in
         let* tf := pure (typeAt (fieldType field)) in
         let newDir := fieldDir field (adir c) in
         let* '(opt, calls) := rec false tf newDir in
         let* new := onMem (MakeUnionArg t newDir opt idx) in
         gret (new, calls)) g in
      Ret (replace ++ [(aid c, new)], extra ++ calls, g)
    | _ => Ret s
    end
  | _ => Ret s
  end.

(** The rounds of [patchConditionalFields]. *)
Fixpoint patchLoop (fuel : nat) (rec : ga) (c : Call) (extra : list Call) (patched : bool) : gen (Call * list Call * bool) :=
  match fuel with
  | O => pure OutOfFuel
  | S fuel =>
    let* h := getHeap in
    let* '(replace, calls) := (λ g,
      let! '(replace, calls, g) := forEachStaleUnion target h c (patchOption rec) ([], [], g) in Ret ((replace, calls), g)) in
    if decide (replace = []) then gret (c, extra, patched)
    else
      let* c := onMem (applyDefaults target order replace c) in
      patchLoop fuel rec c (extra ++ calls) true
  end.

Definition patchConditionalFields (rec : ga) (c : Call) : gen (Call * list Call * bool) :=
  let* r := getRand in
  if inPatchConditional r then gret (c, [], false)
  else
    let* _ := setInPatch true in
    let* x := patchLoop lfuel rec c [] false in
    let* _ := setInPatch false in
    gret x.

Definition generateParticularCall (rec : ga) (meta : Syscall) : gen (list Call) :=
  if Disabled (Attrs meta) then pure (Panic "generating disabled call")
  else if NoGenerate (Attrs meta) then pure (Panic "generating no_generate call")
  else
    let* c := onMem (MakeCall target meta []) in
    let* '(args, calls) := generateArgs rec (sysArgs meta) DirIn in
    let* '(c, moreCalls, _) := patchConditionalFields rec (MkCall (Meta c) args (Ret_ c) (Props c) (Comment c)) in
    let* h := getHeap in
    let* vs := pure (Size.assignSizesCall target h c) in
    gret (calls ++ moreCalls ++ [Size.withSizes vs c]).

(** ** Arguments *)

Definition generateResource (rec : ga) (t : Typ) (desc : ResourceDesc) (dir : Dir) : gen (Arg * list Call) :=
  let* r := getRand in
  let canRecurse := negb (inGenerateResource r) in
  let* _ := if canRecurse then setInResource true else gret tt in
  let* existing := if canRecurse then draw (nOutOf 8 10) else draw (nOutOf 19 20) in
  let* arg := if (existing : bool) then existingResource t desc dir else gret None in
  let* '(arg, calls) :=
    match arg with
    | Some a => gret (Some a, [])
    | None =>
      if canRecurse then
        let* centric := draw (oneOf 4) in
        let* '(arg, calls) := if (centric : bool) then resourceCentric t dir else gret (None, []) in
        match arg with
        | Some a => gret (Some a, calls)
        | None =>
          let* create := draw (nOutOf 4 5) in
          if (create : bool) then createResource (generateParticularCall rec) t desc dir else gret (None, calls)
        end
      else gret (None, [])
    end in
  let* x :=
    match arg with
    | Some a => gret (a, calls)
    | None =>
      let* v := chooseOf (resValues desc) in
      let* a := MakeResult t dir None v in gret (a, calls)
    end in
  let* _ := if canRecurse then setInResource false else gret tt in
  gret x.

Definition generateBuffer (t : Typ) (desc : BufferDesc) (dir : Dir) : gen Arg :=
  let* s := getState in
  match bufKind desc with
  | BufferBlobRand | BufferBlobRange =>
    let* sz := draw randBufLen in
    let* sz :=
      if decide (bufKind desc = BufferBlobRange) then draw (randRange (bufRangeBegin desc) (bufRangeEnd desc)) else gret sz in
    if decide (dir = DirOut) then onMem (MakeOutDataArg t dir sz)
    else let* data := draw (randBytes (Z.to_nat sz)) in onMem (MakeDataArg t dir data)
  | BufferString =>
    let* data := draw (randString lfuel (Analysis.strings s) desc) in
    if decide (dir = DirOut) then onMem (MakeOutDataArg t dir (Z.of_nat (length data))) else onMem (MakeDataArg t dir data)
  | BufferFilename =>
    if decide (dir = DirOut) then
      let* sz :=
        if negb (Varlen t) then pure (Types.Size t)
        else
          let* b := draw (nOutOf 1 3) in
          if (b : bool) then draw (rand 100) else draw (randFilenameLength SpecialFileLenghts) in
      onMem (MakeOutDataArg t dir sz)
    else
      let* data := draw (filename SpecialFileLenghts lfuel (Analysis.files s) t desc) in onMem (MakeDataArg t dir data)
  | BufferGlob => let* data := draw (randString lfuel (Analysis.strings s) desc) in onMem (MakeDataArg t dir data)
  | BufferText =>
    if decide (dir = DirOut) then let* n := draw (intn 100) in onMem (MakeOutDataArg t dir n)
    else let* data := draw (generateText target Arch ifuzzGenerate (bufText desc)) in onMem (MakeDataArg t dir data)
  | BufferCompressed => pure (Panic "can't generate compressed type")
  end.

(** The methods [generate] of the types; [rec] generates the parts. *)
Definition generateType (rec : ga) (t : Typ) (dir : Dir) : gen (Arg * list Call) :=
  let alone (m : gen Arg) : gen (Arg * list Call) := let* a := m in gret (a, []) in
  match t with
  | ResourceType _ _ desc => generateResource rec t desc dir
  | BufferType _ desc => alone (generateBuffer t desc dir)
  | VmaType _ rangeBegin rangeEnd =>
    let* npages := draw (randPageCount (NumPages target)) in
    let* npages :=
      if decide (rangeBegin ≠ 0 ∨ rangeEnd ≠ 0) then
        let* k := draw (intn (wrapS 64 (rangeEnd -! rangeBegin +! 1))) in gret (rangeBegin +! k)
      else gret npages in
    alone (allocVMA t dir npages)
  | FlagsType _ vals bitMask => let* v := draw (flags lfuel vals bitMask 0) in alone (onMem (MakeConstArg t dir v))
  | ConstType _ val _ => alone (onMem (MakeConstArg t dir val))
  | IntType _ kind rangeBegin rangeEnd align =>
    let* bits := pure (TypeBitSize t) in
    let* v := draw (randInt bits) in
    let* v := match kind with IntRange => draw (randRangeInt rangeBegin rangeEnd bits align) | IntPlain => gret v end in
    alone (onMem (MakeConstArg t dir v))
  | ProcType _ _ valuesPerProc => let* v := draw (rand (wrapS 64 valuesPerProc)) in alone (onMem (MakeConstArg t dir v))
  | ArrayType _ elem kind rangeBegin rangeEnd =>
    let* count := match kind with ArrayRandLen => draw randArrayLen | ArrayRangeLen => draw (randRange rangeBegin rangeEnd) end in
    let* r := getRand in
    let count := if inGenerateResource r && bool_decide (count = 0) then 1 else count in
    let* '(inner, calls) := gfor (λ (_ : nat) '(inner, calls),
      let* te := pure (typeAt elem) in
      let* '(arg1, calls1) := rec false te dir in
      gret (inner ++ [arg1], calls ++ calls1)) (seq 0 (Z.to_nat count)) ([], []) in
    let* a := onMem (MakeGroupArg t dir inner) in gret (a, calls)
  | StructType _ fields _ _ =>
    let* '(args, calls) := generateArgs rec fields dir in
    let* a := onMem (MakeGroupArg t dir args) in gret (a, calls)
  | UnionType _ fields =>
    let* conditional := pure (isConditional fields) in
    if (conditional : bool) then alone (onMem (DefaultArg target dfuel t dir))
    else
      let* idx := draw (intn (Z.of_nat (length fields))) in
      let* f := pure (index fields idx) in
      let* tf := pure (typeAt (fieldType f)) in
      let* '(opt, calls) := rec false tf (fieldDir f dir) in
      let* a := onMem (MakeUnionArg t dir opt idx) in gret (a, calls)
  | PtrType _ elem elemDir =>
    let* r := getRand in
    let* special := if negb (inGenerateResource r) then draw (oneOf 1000) else gret false in
    if (special : bool) then
      let* idx := draw (rand (Z.of_nat (length (SpecialPointers target)))) in
      alone (onMem (MakeSpecialPointerArg t dir idx))
    else
      let* te := pure (typeAt elem) in
      let* '(inner, calls) := rec false te elemDir in
      let* h := getHeap in
      let* size := pure (Prog.Size target h inner) in
      let* a := allocAddr t dir size inner in gret (a, calls)
  | LenType _ _ _ _ | CsumType _ _ _ _ => alone (onMem (MakeConstArg t dir 0))
  end.

(** The name under which the depth of an optional pointer is counted. *)
Definition depthName (t : Typ) : res (option string) :=
  match t with
  | PtrType _ elem _ =>
    if Optional t then
      let! te := typeAt elem in
      Ret (match te with StructType _ _ _ _ | ArrayType _ _ _ _ _ | UnionType _ _ => Some (Name te) | _ => None end)
    else Ret None
  | _ => Ret None
  end.

Definition isOutScalar (t : Typ) : bool :=
  match t with
  | IntType _ _ _ _ _ | FlagsType _ _ _ | ConstType _ _ _ | ProcType _ _ _ | VmaType _ _ _ | ResourceType _ _ _ => true
  | _ => false
  end.

(** The part of [generateArgImpl] behind the check of the depth. *)
Definition generateInner (rec : ga) (ignoreSpecial : bool) (t : Typ) (dir : Dir) : gen (Arg * list Call) :=
  match (if negb ignoreSpecial && bool_decide (dir ≠ DirOut) then
           match t with StructType _ _ _ _ | UnionType _ _ => SpecialTypes (Name t) | _ => None end
         else None) with
  | Some special => special rec t dir
  | None => generateType rec t dir
  end.

Fixpoint generateArgImpl (fuel : nat) (ignoreSpecial : bool) (t : Typ) (dir : Dir) : gen (Arg * list Call) :=
  match fuel with
  | O => pure OutOfFuel
  | S fuel =>
    let rec := generateArgImpl fuel in
    if bool_decide (dir = DirOut) && isOutScalar t then let* a := onMem (DefaultArg target dfuel t dir) in gret (a, [])
    else
      let* opt := if Optional t then draw (oneOf 5) else gret false in
      if (opt : bool) then
        match t with
        | ResourceType _ _ desc =>
          let* v := chooseOf (resValues desc) in
          let* a := MakeResult t dir None v in gret (a, [])
        | _ => let* a := onMem (DefaultArg target dfuel t dir) in gret (a, [])
        end
      else
        let* depth := pure (depthName t) in
        match depth with
        | None => generateInner rec ignoreSpecial t dir
        | Some name =>
          let* _ := setDepth (λ d, <[name := default 0 (d !! name) + 1]> d) in
          let* r := getRand in
          let* x :=
            if decide (3 ≤ default 0 (recDepth r !! name)) then
              let* a := onMem (MakeSpecialPointerArg t dir 0) in gret (a, [])
            else generateInner rec ignoreSpecial t dir in
          let* _ := setDepth (λ d,
            let n := default 0 (d !! name) - 1 in if decide (n = 0) then delete name d else <[name := n]> d) in
          gret x
        end
  end.

(** ** Programs *)

Definition generateCall (fuel : nat) (p : list Call) (insertionPoint : Z) : gen (list Call) :=
  let* biasCall :=
    if decide (0 < insertionPoint) then
      let* k := draw (intn insertionPoint) in
      let* c := pure (index p k) in
      gret (if negb (NoGenerate (Attrs (Meta c))) then ID (Meta c) else -1)
    else gret (-1) in
  let* idx := draw (Prio.choose ct biasCall) in
  let* meta := pure (index (Syscalls target) idx) in
  generateParticularCall (generateArgImpl fuel) meta.

(** [for _, c := range calls { s.analyze(c); p.Calls = append(p.Calls, c) }] *)
Definition appendCalls (calls p : list Call) : gen (list Call) :=
  gfor (λ c p,
    let* h := getHeap in
    let* _ := onState (λ s, let! s := Analysis.analyzeImpl target h c true s in Ret (tt, s)) in
    gret (p ++ [c])) calls p.

(** The loop of [Generate]. *)
Fixpoint generateLoop (rounds fuel : nat) (ncalls : nat) (p : list Call) : gen (list Call) :=
  if decide (ncalls ≤ length p)%nat then gret p
  else
    match rounds with
    | O => pure OutOfFuel
    | S rounds =>
      let* calls := generateCall fuel p (Z.of_nat (length p)) in
      let* p := appendCalls calls p in
      generateLoop rounds fuel ncalls p
    end.

(** [for len(p.Calls) > ncalls { p.RemoveCall(ncalls - 1) }], for [n] calls too many. *)
Fixpoint dropExcess (n ncalls : nat) (p : list Call) : gen (list Call) :=
  match n with
  | O => gret p
  | S n => let* p := onMem (RemoveCall target p (ncalls - 1)) in dropExcess n ncalls p
  end.

(** [Target.Generate]; every round adds a call. *)
Definition Generate (neutralize : Call → mem → res (option string * Call * mem)) (fuel : nat) (ncalls : nat) (r : rng) (m : mem) :
    res (list Call * mem) :=
  let! s := Analysis.newState target in
  let! '(p, g) :=
    (let* p := generateLoop ncalls fuel ncalls [] in
     let* p := dropExcess (length p - ncalls) ncalls p in
     onMem (Minimize.sanitizeFix neutralize p)) (MkG (newRand r) s m) in
  Ret (p, gM g).

(** [Target.PseudoSyscalls] *)
Definition PseudoSyscalls : list Syscall :=
  (foldl (λ '(ret, handled) meta,
    if negb (String.prefix "syz_" (CallName meta)) || bool_decide (CallName meta ∈ (handled : gset string))
       || Disabled (Attrs meta) || NoGenerate (Attrs meta)
    then (ret, handled) else (ret ++ [meta], {[CallName meta]} ∪ handled)) ([], ∅) (Syscalls target)).1.

(** [GenSampleProg] for one call, and [GenerateAllSyzProg] for the pseudo calls; both panic if
    the program is not valid. *)
Definition sampleProg (fuel : nat) (metas : list Syscall) (r : rng) (m : mem) : res (list Call * mem) :=
  let! s := Analysis.newState target in
  let! '(p, g) :=
    gfor (λ meta p,
      let* calls := generateParticularCall (generateArgImpl fuel) meta in appendCalls calls p) metas [] (MkG (newRand r) s m) in
  let! err := Validation.validate target (mHeap (gM g)) p in
  match err with Some e => Panic e | None => Ret (p, gM g) end.
Definition GenSampleProg (fuel : nat) (meta : Syscall) : rng → mem → res (list Call * mem) := sampleProg fuel [meta].
Definition GenerateAllSyzProg (fuel : nat) : rng → mem → res (list Call * mem) := sampleProg fuel PseudoSyscalls.

End target.
End Generate.
