(* ===== verification/GenGrow.v ===== *)
(** * GenGrow: how generation changes the heap of results

    New results are added behind the old ones.  They refer to results that were visible
    before or that belong to calls generated meanwhile, and an old result changes by the
    uses of the new ones only.  Steps of this kind compose, and they keep programs well
    formed. *)

From S2P Require Import Prelude Types Prog ExampleTarget ProgEdit Clone WellFormed Layers.
Import Types Prog ProgEdit Clone WellFormed Layers.

Module GenGrow.

Section target.
Context (target : Target).

(** The same result but for its uses. *)
Definition sameBut (o o' : ResultObj) : Prop :=
  rRef o' = rRef o ∧ rDir o' = rDir o ∧ rRes o' = rRes o ∧ OpDiv o' = OpDiv o ∧ OpAdd o' = OpAdd o ∧ rVal o' = rVal o.

#[local] Instance sameBut_preorder : PreOrder sameBut.
Proof.
  split; [by intros o|]. intros o1 o2 o3 (A1 & A2 & A3 & A4 & A5 & A6) (B1 & B2 & B3 & B4 & B5 & B6).
  unfold sameBut. split_and!; congruence.
Qed.

Definition usesAt (h : heap) (j : positive) : gset positive :=
  match h !! j with Some o => uses o | None => ∅ end.

(** [V] are the visible results; [NE] are the results of generated calls, a layer for each
    call, and [NA] those of arguments that are not part of a call yet. *)
Record grown (V : positive → Prop) (NE : list (list positive)) (NA : list positive) (m m' : mem) : Prop := {
  gr_fresh : fresh m';
  gr_next : (mNext m ≤ mNext m')%positive;
  gr_new : ∀ i, i ∈ concat NE ++ NA → (mNext m ≤ i)%positive;
  gr_nodup : NoDup (concat NE ++ NA);
  gr_res : ∀ i, i ∈ concat NE ++ NA → ∃ o, mHeap m' !! i = Some o ∧ resTyped target o;
  gr_old : ∀ j o, mHeap m !! j = Some o → ∃ o', mHeap m' !! j = Some o' ∧ sameBut o o';
  gr_uses : ∀ j o', is_Some (mHeap m !! j) ∨ j ∈ concat NE ++ NA → mHeap m' !! j = Some o' → ∀ u,
    u ∈ uses o' ↔ u ∈ usesAt (mHeap m) j ∨ u ∈ concat NE ++ NA ∧ ∃ ou, mHeap m' !! u = Some ou ∧ rRes ou = Some j;
  gr_calls : ordered (mHeap m') V NE;
  gr_args : ∀ i o r, i ∈ NA → mHeap m' !! i = Some o → rRes o = Some r → V r ∨ r ∈ concat NE
}.

Lemma grown_refs V NE NA m m' : grown V NE NA m m' → sameRefs (mHeap m) (mHeap m').
Proof. intros G i o Hi. destruct (gr_old _ _ _ _ _ G i o Hi) as (o' & Ho' & Hr & Hd & _). eauto. Qed.

Lemma grown_refl V m : fresh m → grown V [] [] m m.
Proof.
  intros Hf. split; try done.
  - intros i Hi. by apply elem_of_nil in Hi.
  - constructor.
  - intros i Hi. by apply elem_of_nil in Hi.
  - intros j o Hj. exists o. split; [done|reflexivity].
  - intros j o' _ Hj u. unfold usesAt. rewrite Hj. split; [by left|]. intros [?|[Hn _]]; [done|by apply elem_of_nil in Hn].
  - intros i o r Hi. by apply elem_of_nil in Hi.
Qed.

(** Only identities of arguments that are no results were drawn. *)
Lemma grown_bump V NE NA m m1 m2 :
  grown V NE NA m m1 → mHeap m2 = mHeap m1 → (mNext m1 ≤ mNext m2)%positive → grown V NE NA m m2.
Proof.
  intros [Hf Hn Hnew Hnd Hres Hold Huses Hcalls Hargs] Hh Hle. split; rewrite ?Hh; try done.
  - intros i o Hi. rewrite Hh in Hi. apply Hf in Hi. lia.
  - lia.
Qed.

(** What a new result refers to. *)
Lemma grown_ref V NE NA m m' i o r :
  grown V NE NA m m' → i ∈ concat NE ++ NA → mHeap m' !! i = Some o → rRes o = Some r → V r ∨ r ∈ concat NE.
Proof.
  intros G Hi Ho Hr. apply elem_of_app in Hi as [Hi|Hi]; [|by eapply gr_args]. by eapply ordered_ref, Hr; [apply G|..].
Qed.

(** Nothing refers to the arguments that are not part of a call. *)
Lemma grown_unused V NE NA m m' i o : grown V NE NA m m' → fresh m → (∀ r, V r → is_Some (mHeap m !! r)) → i ∈ NA → mHeap m' !! i = Some o → uses o = ∅.
Proof.
  intros G Hf HV Hi Ho. assert (i ∈ concat NE ++ NA) as Hin by (apply elem_of_app; by right). pose proof (gr_new _ _ _ _ _ G i Hin) as Hnew.
  assert (mHeap m !! i = None) as Hn by (destruct (mHeap m !! i) as [o'|] eqn:E; [apply Hf in E; lia|done]).
  apply set_eq. intros u. rewrite (gr_uses _ _ _ _ _ G i o (or_intror Hin) Ho u). unfold usesAt. rewrite Hn. split; [|done].
  intros [?|(Hu & ou & Hou & Hr)]; [done|exfalso]. destruct (grown_ref _ _ _ _ _ _ _ _ G Hu Hou Hr) as [Hv|Hc].
  - apply HV in Hv. rewrite Hn in Hv. by destruct Hv.
  - pose proof (gr_nodup _ _ _ _ _ G) as Hnd. apply NoDup_app in Hnd as (_ & Hd & _). by apply (Hd i Hc).
Qed.

(** Results that are not visible stay as they are. *)
Lemma grown_frame V NE NA m m' j o : grown V NE NA m m' → fresh m → ¬ V j → mHeap m !! j = Some o → mHeap m' !! j = Some o.
Proof.
  intros G Hf HV Hj. destruct (gr_old _ _ _ _ _ G j o Hj) as (o' & Ho' & Hr & Hd & Hrr & Hdiv & Hadd & Hv). rewrite Ho'. f_equal.
  assert (uses o' = uses o) as Hu.
  { apply set_eq. intros u. rewrite (gr_uses _ _ _ _ _ G j o' (or_introl (mk_is_Some _ _ Hj)) Ho' u). unfold usesAt. rewrite Hj.
    split; [|by left]. intros [?|(Hin & ou & Hou & Hru)]; [done|exfalso]. destruct (grown_ref _ _ _ _ _ _ _ _ G Hin Hou Hru) as [?|Hne]; [done|].
    assert (j ∈ concat NE ++ NA) as Hn by (apply elem_of_app; by left). apply (gr_new _ _ _ _ _ G) in Hn. apply Hf in Hj. lia. }
  destruct o, o'; cbn in *; congruence.
Qed.

Lemma grown_trans V NE1 NA1 NE2 NA2 m m1 m2 : (∀ r, V r → is_Some (mHeap m !! r)) →
  grown V NE1 NA1 m m1 → grown V NE2 NA2 m1 m2 → grown V (NE1 ++ NE2) (NA1 ++ NA2) m m2.
Proof.
  intros HV G1 G2. pose proof G1 as [Hf1 Hn1 Hnew1 Hnd1 Hres1 Hold1 Huses1 Hcalls1 Hargs1]. pose proof G2 as [Hf2 Hn2 Hnew2 Hnd2 Hres2 Hold2 Huses2 Hcalls2 Hargs2].
  assert (∀ i, i ∈ concat (NE1 ++ NE2) ++ NA1 ++ NA2 ↔ i ∈ concat NE1 ++ NA1 ∨ i ∈ concat NE2 ++ NA2) as Hin by (intros i; rewrite concat_app, !elem_of_app; tauto).
  assert (∀ i, i ∈ concat NE1 ++ NA1 → ∃ o, mHeap m1 !! i = Some o ∧ (i < mNext m1)%positive) as Hlow.
  { intros i Hi. destruct (Hres1 i Hi) as (o & Ho & _). exists o. split; [done|]. by apply Hf1 in Ho. }
  assert (∀ i o r, i ∈ concat NE1 ++ NA1 → mHeap m2 !! i = Some o → rRes o = Some r → ∃ o1, mHeap m1 !! i = Some o1 ∧ rRes o1 = Some r) as Hback.
  { intros i o r Hi Ho Hr. destruct (Hlow i Hi) as (o1 & Ho1 & _). destruct (Hold2 i o1 Ho1) as (o2 & Ho2 & _ & _ & Hrr & _).
    exists o1. split; [done|]. congruence. }
  split; try done.
  - lia.
  - intros i Hi. apply Hin in Hi as [Hi|Hi]; [by apply Hnew1|]. apply Hnew2 in Hi. lia.
  - assert (concat (NE1 ++ NE2) ++ NA1 ++ NA2 ≡ₚ (concat NE1 ++ NA1) ++ concat NE2 ++ NA2) as ->.
    { rewrite concat_app, <-!app_assoc. apply Permutation_app_head. rewrite !app_assoc. apply Permutation_app_tail, Permutation_app_comm. }
    apply NoDup_app. split_and!; [done| |done]. intros i H1 H2. destruct (Hlow i H1) as (_ & _ & Hl). apply Hnew2 in H2. lia.
  - intros i Hi. apply Hin in Hi as [Hi|Hi]; [|by apply Hres2]. destruct (Hres1 i Hi) as (o & Ho & tc & bf & desc & v & Ht & Hs & Hd).
    destruct (Hold2 i o Ho) as (o' & Ho' & Hr & _). exists o'. split; [done|]. exists tc, bf, desc, v. by rewrite Hr.
  - intros j o Hj. destruct (Hold1 j o Hj) as (o1 & Hj1 & Hs1). destruct (Hold2 j o1 Hj1) as (o2 & Hj2 & Hs2).
    exists o2. split; [done|]. by transitivity o1.
  - intros j o' Hj Ho' u.
    assert (is_Some (mHeap m1 !! j) ∨ j ∈ concat NE2 ++ NA2) as Hj2.
    { destruct Hj as [[o Ho]|Hj]; [left; destruct (Hold1 j o Ho) as (? & ? & _); eauto|]. apply Hin in Hj as [Hj|Hj]; [|by right].
      left. destruct (Hlow j Hj) as (o & Ho & _). eauto. }
    rewrite (Huses2 j o' Hj2 Ho' u), Hin.
    assert (u ∈ usesAt (mHeap m1) j ↔ u ∈ usesAt (mHeap m) j ∨ u ∈ concat NE1 ++ NA1 ∧ ∃ ou, mHeap m2 !! u = Some ou ∧ rRes ou = Some j) as ->; [|tauto].
    assert (u ∈ concat NE1 ++ NA1 → (∃ ou, mHeap m1 !! u = Some ou ∧ rRes ou = Some j) ↔ ∃ ou, mHeap m2 !! u = Some ou ∧ rRes ou = Some j) as Hu.
    { intros Hu. split; [|intros (ou & Hou & Hr); by eapply Hback]. intros (ou & Hou & Hr).
      destruct (Hold2 u ou Hou) as (o2 & Ho2 & _ & _ & Hrr & _). exists o2. split; [done|congruence]. }
    destruct (mHeap m1 !! j) as [o1|] eqn:Hj1.
    + assert (is_Some (mHeap m !! j) ∨ j ∈ concat NE1 ++ NA1) as Hj0.
      { destruct Hj as [Hj|Hj]; [by left|]. apply Hin in Hj as [Hj|Hj]; [by right|]. apply Hnew2 in Hj. apply Hf1 in Hj1. lia. }
      unfold usesAt at 1. rewrite Hj1, (Huses1 j o1 Hj0 Hj1 u). apply or_iff_compat_l.
      split; intros [Hu1 Hu2]; (split; [done|]); by apply Hu.
    + assert (usesAt (mHeap m1) j = ∅) as -> by (unfold usesAt; by rewrite Hj1).
      assert (mHeap m !! j = None) as Hj0.
      { destruct (mHeap m !! j) as [o|] eqn:E; [|done]. destruct (Hold1 j o E) as (? & ? & _). congruence. }
      unfold usesAt. rewrite Hj0. split; [done|]. intros [?|[Hu1 Hu2]]; [done|]. apply Hu in Hu2 as (ou & Hou & Hr); [|done].
      exfalso. destruct (grown_ref _ _ _ _ _ _ _ _ G1 Hu1 Hou Hr) as [Hj3|Hj3]; [apply HV in Hj3; rewrite Hj0 in Hj3; by destruct Hj3|].
      destruct (Hlow j) as (? & ? & _); [apply elem_of_app; by left|congruence].
  - apply ordered_app. split.
    + eapply ordered_mono; [exact Hcalls1|]. intros i o r Hi Ho Hr. destruct (Hback i o r) as (o1 & ? & ?); [apply elem_of_app; by left|done|done|eauto].
    + eapply ordered_impl; [|exact Hcalls2]. tauto.
  - intros i o r Hi Ho Hr. rewrite concat_app, elem_of_app. apply elem_of_app in Hi as [Hi|Hi].
    + assert (i ∈ concat NE1 ++ NA1) as Hi' by (apply elem_of_app; by right). destruct (Hback i o r Hi' Ho Hr) as (o1 & Ho1 & Hr1).
      destruct (Hargs1 i o1 r Hi Ho1 Hr1); tauto.
    + destruct (Hargs2 i o r Hi Ho Hr); tauto.
Qed.

(** The arguments became a call behind the other ones. *)
Lemma grown_close V NE NA m m' : grown V NE NA m m' → grown V (NE ++ [NA]) [] m m'.
Proof.
  intros [Hf Hn Hnew Hnd Hres Hold Huses Hcalls Hargs]. assert (concat (NE ++ [NA]) = concat NE ++ NA) as Hc by (rewrite concat_app; cbn [concat]; by rewrite app_nil_r).
  split; rewrite ?app_nil_r, ?Hc; try done.
  - apply ordered_app. cbn [ordered]. split_and!; [done|done|done].
  - intros i o r Hi. by apply elem_of_nil in Hi.
Qed.

(** [o] with the use [i]. *)
Definition withUse (o : ResultObj) (i : positive) : ResultObj :=
  MkResult (rRef o) (rDir o) (rRes o) (OpDiv o) (OpAdd o) (rVal o) ({[i]} ∪ uses o).

Lemma makeResult_heap t dir ro v m i m' rf : fresh m → ref t = Ret rf → (∀ r, ro = Some r → is_Some (mHeap m !! r)) →
  MakeResultArg t dir ro v m = Ret (i, m') →
  i = mNext m ∧ mNext m' = Pos.succ i ∧ mHeap m' !! i = Some (MkResult rf dir ro 0 0 v ∅) ∧
  ∀ j, j ≠ i → mHeap m' !! j = (λ o, if decide (ro = Some j) then withUse o i else o) <$> mHeap m !! j.
Proof.
  intros Hf Ht Hro. unfold MakeResultArg. rewrite Ht. cbn [rbind alloc]. destruct ro as [r|].
  - destruct (Hro r eq_refl) as [o Ho]. pose proof (Hf r o Ho) as Hlt. unfold addUse. cbn [mHeap mNext].
    rewrite (deref_Some _ r o) by (rewrite lookup_insert_ne by lia; done). cbn [rbind]. intros [= <- <-]. cbn [mHeap mNext].
    split_and!; [done|done| |].
    + rewrite lookup_insert_ne by lia. by rewrite lookup_insert_eq.
    + intros j Hj. destruct (decide (r = j)) as [->|Hne].
      * rewrite lookup_insert_eq, Ho. cbn [fmap option_fmap option_map]. by rewrite decide_True.
      * rewrite !lookup_insert_ne by done. destruct (mHeap m !! j); [|done]. cbn [fmap option_fmap option_map]. by rewrite decide_False by congruence.
  - intros [= <- <-]. cbn [mHeap mNext]. split_and!; [done|done|by rewrite lookup_insert_eq|].
    intros j Hj. rewrite lookup_insert_ne by done. by destruct (mHeap m !! j).
Qed.

Lemma makeResult_refs t dir ro v m i m' : fresh m → MakeResultArg t dir ro v m = Ret (i, m') → sameRefs (mHeap m) (mHeap m').
Proof.
  intros Hf H. unfold MakeResultArg in H. apply bind_Ret in H as (rf & _ & H). cbn [alloc mHeap mNext] in H.
  assert (∀ x, sameRefs (mHeap m) (<[mNext m := x]> (mHeap m))) as H1.
  { intros x j o Hj. exists o. split; [|done]. rewrite lookup_insert_ne; [done|]. apply Hf in Hj. lia. }
  destruct ro as [r|]; [|injection H as _ <-; apply H1]. apply bind_Ret in H as (h & Hu & [= _ <-]). cbn [mHeap].
  unfold addUse in Hu. apply bind_Ret in Hu as (o & Ho & [= <-]). etrans; [apply H1|]. intros j o1 Hj.
  destruct (decide (j = r)) as [->|Hne]; [|exists o1; by rewrite lookup_insert_ne]. unfold deref in Ho. rewrite Hj in Ho. injection Ho as <-.
  eexists. by rewrite lookup_insert_eq.
Qed.

(** A new result. *)
Lemma grown_result V NE NA m m1 t dir ro v i m2 rf : (∀ r, V r → is_Some (mHeap m !! r)) → fresh m →
  grown V NE NA m m1 → MakeResultArg t dir ro v m1 = Ret (i, m2) → ref t = Ret rf →
  (∀ o, rRef o = rf → resTyped target o) → (∀ r, ro = Some r → V r ∨ r ∈ concat NE) →
  grown V NE (NA ++ [i]) m m2 ∧ ∃ o, mHeap m2 !! i = Some o ∧ rRef o = rf ∧ rDir o = dir.
Proof.
  intros HV Hf0 G Hmk Ht Hty Hro. pose proof G as [Hf Hn Hnew Hnd Hres Hold Huses Hcalls Hargs].
  assert (∀ r, ro = Some r → is_Some (mHeap m1 !! r)) as Hdom.
  { intros r Hr. destruct (Hro r Hr) as [Hv|Hin].
    - destruct (HV r Hv) as [o Ho]. destruct (Hold r o Ho) as (o' & ? & _). eauto.
    - destruct (Hres r) as (o & ? & _); [apply elem_of_app; by left|eauto]. }
  destruct (makeResult_heap _ _ _ _ _ _ _ _ Hf Ht Hdom Hmk) as (Hi & Hnext & Hnewi & Hother).
  assert (mHeap m1 !! i = None) as Hi1 by (destruct (mHeap m1 !! i) as [o|] eqn:E; [apply Hf in E; lia|done]).
  assert (∀ j o, mHeap m1 !! j = Some o → ∃ o', mHeap m2 !! j = Some o' ∧ sameBut o o' ∧
    ∀ u, u ∈ uses o' ↔ u ∈ uses o ∨ u = i ∧ ro = Some j) as Hold1.
  { intros j o Hj. assert (j ≠ i) as Hji by congruence. rewrite (Hother j Hji), Hj. cbn [fmap option_fmap option_map].
    eexists. split; [reflexivity|]. case_decide as Hd.
    - split; [done|]. intros u. cbn [uses withUse]. rewrite elem_of_union, elem_of_singleton. tauto.
    - split; [reflexivity|]. intros u. tauto. }
  assert (∀ j, j ∈ concat NE ++ NA ++ [i] ↔ j ∈ concat NE ++ NA ∨ j = i) as Hin by (intros j; rewrite !elem_of_app, list_elem_of_singleton; tauto).
  assert (∀ j o, j ∈ concat NE ++ NA → mHeap m2 !! j = Some o → ∃ o1, mHeap m1 !! j = Some o1 ∧ sameBut o1 o) as Hback.
  { intros j o Hj Ho. destruct (Hres j Hj) as (o1 & Ho1 & _). destruct (Hold1 j o1 Ho1) as (o2 & Ho2 & Hs & _).
    exists o1. split; [done|]. congruence. }
  split; [split|by exists (MkResult rf dir ro 0 0 v ∅)].
  - intros j o Hj. rewrite Hnext. destruct (decide (j = i)) as [->|Hji]; [lia|]. rewrite (Hother j Hji) in Hj.
    apply fmap_Some in Hj as (o1 & Ho1 & _). apply Hf in Ho1. lia.
  - lia.
  - intros j Hj. apply Hin in Hj as [Hj|Hj]; [by apply Hnew|lia].
  - rewrite app_assoc. apply NoDup_app. split_and!; [done| |apply NoDup_singleton]. intros j Hj Hj2. apply list_elem_of_singleton in Hj2 as ->.
    destruct (Hres i Hj) as (o & Ho & _). congruence.
  - intros j Hj. apply Hin in Hj as [Hj| ->]; [|eexists; split; [exact Hnewi|by apply Hty]].
    destruct (Hres j Hj) as (o & Ho & tc & bf & desc & v0 & Hd & Hs & He). destruct (Hold1 j o Ho) as (o' & Ho' & (Hr & _) & _).
    exists o'. split; [done|]. exists tc, bf, desc, v0. by rewrite Hr.
  - intros j o Hj. destruct (Hold j o Hj) as (o1 & Ho1 & Hs). destruct (Hold1 j o1 Ho1) as (o2 & Ho2 & Hs2 & _).
    exists o2. split; [done|]. by transitivity o1.
  - intros j o' Hj Ho' u. destruct (decide (j = i)) as [->|Hji].
    + assert (usesAt (mHeap m) i = ∅) as -> by (unfold usesAt; destruct (mHeap m !! i) as [o|] eqn:E; [apply Hf0 in E; lia|done]).
      rewrite Hnewi in Ho'. injection Ho' as <-. cbn [uses]. split; [done|]. intros [?|(Hu & ou & Hou & Hr)]; [done|exfalso].
      apply Hin in Hu as [Hu| ->].
      * destruct (Hback u ou Hu Hou) as (o1 & Ho1 & _ & _ & Hrr & _). rewrite Hrr in Hr.
        destruct (grown_ref _ _ _ _ _ _ _ _ G Hu Ho1 Hr) as [Hv|Hin2].
        -- destruct (HV i Hv) as [o Ho]. apply Hf0 in Ho. lia.
        -- destruct (Hres i) as (? & ? & _); [apply elem_of_app; by left|congruence].
      * rewrite Hnewi in Hou. injection Hou as <-. cbn [rRes] in Hr. destruct (Hdom i Hr) as [? ?]. congruence.
    + assert (is_Some (mHeap m !! j) ∨ j ∈ concat NE ++ NA) as Hj1 by (destruct Hj as [?|Hj]; [by left|apply Hin in Hj as [?|?]; [by right|done]]).
      assert (is_Some (mHeap m1 !! j)) as [o1 Ho1].
      { destruct Hj1 as [[o Ho]|Hj1]; [destruct (Hold j o Ho) as (? & ? & _); eauto|destruct (Hres j Hj1) as (? & ? & _); eauto]. }
      destruct (Hold1 j o1 Ho1) as (o2 & Ho2 & _ & Hu2). rewrite Ho2 in Ho'. injection Ho' as <-. rewrite Hu2, (Huses j o1 Hj1 Ho1 u), Hin.
      split.
      * intros [[?|(Hu & ou & Hou & Hr)]|[-> Hr]]; [by left| |right; split; [by right|by eexists; split; [exact Hnewi|]]].
        right. split; [by left|]. destruct (Hold1 u ou Hou) as (ou' & Hou' & (_ & _ & Hrr & _) & _). exists ou'. split; [done|congruence].
      * intros [?|([Hu| ->] & ou & Hou & Hr)]; [by left; left| |right; split; [done|]; rewrite Hnewi in Hou; by injection Hou as <-].
        left. right. split; [done|]. destruct (Hback u ou Hu Hou) as (o3 & Ho3 & _ & _ & Hrr & _). exists o3. split; [done|congruence].
  - eapply ordered_mono; [exact Hcalls|]. intros j o r Hj Ho Hr. destruct (Hback j o) as (o1 & Ho1 & _ & _ & Hrr & _); [apply elem_of_app; by left|done|].
    exists o1. split_and!; [done|congruence|done].
  - intros j o r Hj Ho Hr. apply elem_of_app in Hj as [Hj|Hj].
    + assert (j ∈ concat NE ++ NA) as Hj' by (apply elem_of_app; by right).
      destruct (Hback j o Hj' Ho) as (o1 & Ho1 & _ & _ & Hrr & _). apply (Hargs j o1 r Hj Ho1). congruence.
    + apply list_elem_of_singleton in Hj as ->. rewrite Hnewi in Ho. injection Ho as <-. by apply Hro.
Qed.

(** Generated results beside those of a program. *)
Lemma grown_linked V NE NA m m' L : (∀ r, V r → r ∈ L) → fresh m → linked L (mHeap m) →
  grown V NE NA m m' → linked (L ∪ list_to_set (concat NE ++ NA)) (mHeap m').
Proof.
  intros HV Hf [Hin Hres Huses] G. pose proof G as [_ _ Gnew _ Gres Gold Guses _ _]. set (N := concat NE ++ NA) in *.
  assert (∀ j, j ∈ L ∪ list_to_set N → is_Some (mHeap m' !! j)) as Hdom.
  { intros j [Hj|Hj]%elem_of_union; [destruct (Hin j Hj) as [o Ho]; destruct (Gold j o Ho) as (? & ? & _); eauto|].
    rewrite elem_of_list_to_set in Hj. destruct (Gres j Hj) as (? & ? & _). eauto. }
  assert (∀ j o', j ∈ L ∪ list_to_set N → mHeap m' !! j = Some o' → ∀ u,
    u ∈ uses o' ↔ u ∈ usesAt (mHeap m) j ∨ u ∈ N ∧ ∃ ou, mHeap m' !! u = Some ou ∧ rRes ou = Some j) as Hu.
  { intros j o' Hj Ho' u. apply Guses; [|done]. apply elem_of_union in Hj as [Hj|Hj]; [left; by apply Hin|right; by rewrite elem_of_list_to_set in Hj]. }
  split; [done| |].
  - intros i o j Hi Ho Hr.
    assert (j ∈ L ∪ list_to_set N ∧ (i ∈ usesAt (mHeap m) j ∨ i ∈ N)) as [Hj Hused].
    { apply elem_of_union in Hi as [Hi|Hi].
      - destruct (Hin i Hi) as [o0 Ho0]. destruct (Gold i o0 Ho0) as (o1 & Ho1 & _ & _ & Hrr & _). assert (o1 = o) as -> by congruence.
        rewrite Hrr in Hr. destruct (Hres i o0 j Hi Ho0 Hr) as (Hj & oj & Hoj & Hij). split; [apply elem_of_union; by left|].
        left. unfold usesAt. by rewrite Hoj.
      - rewrite elem_of_list_to_set in Hi. split; [|by right]. rewrite elem_of_union, elem_of_list_to_set. unfold N. rewrite elem_of_app.
        destruct (grown_ref _ _ _ _ _ i o j G Hi Ho Hr) as [Hj|Hj]; [left; by apply HV|tauto]. }
    split; [done|]. destruct (Hdom j Hj) as [oj Hoj]. exists oj. split; [done|]. apply (Hu j oj Hj Hoj i).
    destruct Hused as [?|?]; [by left|right]. split; [done|]. eauto.
  - intros j oj i Hj Hoj Hi. apply (Hu j oj Hj Hoj i) in Hi as [Hi|(Hi & ou & Hou & Hr)].
    + unfold usesAt in Hi. destruct (mHeap m !! j) as [o0|] eqn:Ho0; [|by apply elem_of_empty in Hi].
      assert (j ∈ L) as HjL.
      { apply elem_of_union in Hj as [?|Hj]; [done|]. rewrite elem_of_list_to_set in Hj. apply Hf in Ho0. apply Gnew in Hj. lia. }
      destruct (Huses j o0 i HjL Ho0 Hi) as (HiL & o & Ho & Hr). split; [apply elem_of_union; by left|].
      destruct (Gold i o Ho) as (o' & Ho' & _ & _ & Hrr & _). exists o'. split; [done|congruence].
    + split; [apply elem_of_union; right; by rewrite elem_of_list_to_set|eauto].
Qed.

(** Calls are generated in front of a layer, which gets new results itself. *)
Lemma lay_grown V ls l ls2 NE NA m m' : lay target (ls ++ l :: ls2) m → (∀ r, V r → r ∈ concat ls) → grown V NE NA m m' →
  lay target (ls ++ NE ++ (l ++ NA) :: ls2) m'.
Proof.
  intros Hlay HV G. pose proof Hlay as [Hnd HL Hty Hf Hord]. pose proof G as [Gf Gn Gnew Gnd Gres Gold Guses Gcalls Gargs].
  set (L := concat (ls ++ l :: ls2)) in *.
  assert (concat (ls ++ NE ++ (l ++ NA) :: ls2) ≡ₚ L ++ concat NE ++ NA) as Hp.
  { unfold L. rewrite !concat_app. cbn [concat]. rewrite <-!app_assoc. apply Permutation_app_head.
    rewrite (Permutation_app_comm (concat NE)), <-!app_assoc. apply Permutation_app_head. rewrite (Permutation_app_comm NA), <-app_assoc. done. }
  split.
  - rewrite Hp. apply NoDup_app. split_and!; [done| |done]. intros i Hi Hn. destruct (lay_in _ _ _ i Hlay Hi) as (o & _ & Hlt). apply Gnew in Hn. lia.
  - rewrite (perm_set _ _ Hp), list_to_set_app_L. eapply grown_linked; [|exact Hf|exact HL|exact G].
    intros r Hr. rewrite elem_of_list_to_set. unfold L. rewrite concat_app, elem_of_app. left. by apply HV.
  - intros i o Hi Ho. rewrite elem_of_list_to_set, Hp, elem_of_app in Hi. destruct Hi as [Hi|Hi].
    + refine (heapTyped_refs target _ _ _ _ (grown_refs _ _ _ _ _ G) Hty i o _ Ho); [|by rewrite elem_of_list_to_set].
      intros j Hj. rewrite elem_of_list_to_set in Hj. destruct (lay_in _ _ _ j Hlay Hj) as (? & ? & _). eauto.
    + destruct (Gres i Hi) as (o' & Ho' & Ht). congruence.
  - done.
  - assert (∀ i o' r, i ∈ L → mHeap m' !! i = Some o' → rRes o' = Some r → ∃ o, mHeap m !! i = Some o ∧ rRes o = Some r) as Hback.
    { intros i o' r Hi Ho' Hr. destruct (lay_in _ _ _ i Hlay Hi) as (o & Ho & _). destruct (Gold i o Ho) as (o2 & Ho2 & _ & _ & Hrr & _).
      exists o. split; [done|]. congruence. }
    unfold L in Hback. rewrite concat_app in Hback. cbn [concat] in Hback. rewrite !ordered_app in *. cbn [ordered] in *. destruct Hord as (Ho1 & Ho2 & Ho3). split_and!.
    + eapply ordered_mono; [exact Ho1|]. intros i o' r Hi Hoi Hr. destruct (Hback i o' r) as (o & ? & ?); [rewrite elem_of_app; by left|done|done|eauto].
    + eapply ordered_impl; [|exact Gcalls]. intros r Hr. right. by apply HV.
    + intros i o' r Hi Hoi Hr. apply elem_of_app in Hi as [Hi|Hi].
      * destruct (Hback i o' r) as (o & Ho & Hrr); [rewrite !elem_of_app; tauto|done|done|]. left. by eapply Ho2.
      * destruct (Gargs i o' r Hi Hoi Hr) as [Hv|?]; [left; right; by apply HV|by right].
    + eapply ordered_mono; [exact Ho3|]. intros i o' r Hi Hoi Hr. destruct (Hback i o' r) as (o & ? & ?); [rewrite !elem_of_app; tauto|done|done|].
      exists o. split_and!; [done|done|]. cbv beta. rewrite elem_of_app. tauto.
Qed.

(** Calls that are generated in the middle of a program. *)
Lemma grown_strict V p1 calls p2 m m' : strict target (p1 ++ p2) m → (∀ r, V r → r ∈ progResults p1) →
  grown V (layers calls) [] m m' → Forall (sizedCall target (mHeap m')) calls → strict target (p1 ++ calls ++ p2) m'.
Proof.
  intros [Hlay Hs] HV G Hsz. rewrite layers_app in Hlay. split.
  - rewrite !layers_app. apply lay_nil in Hlay. apply (lay_grown V _ _ _ (layers calls) [] m m') in Hlay; [|intros r Hr; apply in_layers; by apply HV|done].
    change ([] ++ []) with (@nil positive) in Hlay. rewrite app_assoc in Hlay |- *. by apply (proj1 (lay_nil _ _ _ _)).
  - apply Forall_app in Hs as [Hs1 Hs2]. pose proof (grown_refs _ _ _ _ _ G) as Hr.
    assert (∀ c, sizedCall target (mHeap m) c → sizedCall target (mHeap m') c) as Hrs.
    { intros c Hc a x Ha Hx. destruct (Hc a x Ha Hx) as [z Hz]. exists z. by eapply size_refs. }
    rewrite !Forall_app. split_and!; [|done|]; by eapply Forall_impl, Hrs.
Qed.

End target.
End GenGrow.
