(* ===== verification/GenTypes.v ===== *)
(** * GenTypes: the arguments generation builds have their types

    What the description compiler ensures of the types that are generated, the constructors
    of arguments, and default arguments: what they build has the type and the direction that
    was asked for, and a size. *)

From S2P Require Import Prelude Types Prog ExampleTarget ProgEdit Clone WellFormed Expr Validation Typing Conditions GenGrow.
Import Types Prog ProgEdit Clone WellFormed Expr Validation Typing GenGrow.

Module GenTypes.

Definition isScalar (t : Typ) : bool :=
  match t with
  | ResourceType _ _ _ | VmaType _ _ _ | PtrType _ _ _ => true
  | _ => isConstType t
  end.

(** Every buffer of a fixed size has values of this size, is a blob of one size, or a file name. *)
Definition fixedBuffer (size : Z) (desc : BufferDesc) : Prop :=
  Forall (λ v, Z.of_nat (length v) = size) (bufValues desc) ∧
  match bufKind desc with
  | BufferBlobRange => bufRangeBegin desc = size ∧ bufRangeEnd desc = size ∧ size < 2 ^ 63
  | BufferString | BufferGlob => bufValues desc ≠ []
  | BufferFilename => True
  | BufferBlobRand | BufferText | BufferCompressed => False
  end.

Record genTable (target : Target) : Prop := {
  gt_self : ∀ r t, typeAt (typeRefs target) r = Ret t → self (common t) = r;
  gt_scalar : ∀ r t, typeAt (typeRefs target) r = Ret t → isScalar t = true → IsVarlen (common t) = false;
  gt_res : ∀ r tc bf desc, typeAt (typeRefs target) r = Ret (ResourceType tc bf desc) → resValues desc ≠ [];
  gt_buffer : ∀ r tc desc, typeAt (typeRefs target) r = Ret (BufferType tc desc) → IsVarlen tc = false →
    0 ≤ TypeSize tc ∧ fixedBuffer (TypeSize tc) desc;
  gt_array : ∀ r tc elem rb, typeAt (typeRefs target) r = Ret (ArrayType tc elem ArrayRangeLen rb rb) → 0 < rb < 2 ^ 63;
  gt_ret : ∀ meta r, meta ∈ Syscalls target → sysRet meta = Some r →
    ∃ tc bf desc, typeAt (typeRefs target) r = Ret (ResourceType tc bf desc);
  gt_args : ∀ meta f, meta ∈ Syscalls target → f ∈ sysArgs meta → HasDirection f = false;
  gt_cond : Conditions.unconditional target
}.

Section target.
Context (target : Target) (Htab : genTable target).
Notation typeAt := (typeAt (typeRefs target)).
Notation typed := (typed target).
Notation grown := (grown target).

Lemma refAt r t : typeAt r = Ret t → ref t = Ret r.
Proof.
  intros H. unfold ref. rewrite (gt_self _ Htab _ _ H). destruct r; [done|]. by rewrite decide_False by lia.
Qed.

Lemma resTyped_at r tc bf desc o : typeAt r = Ret (ResourceType tc bf desc) → rRef o = r → resTyped target o.
Proof.
  intros Ht Ho. pose proof (gt_res _ Htab _ _ _ _ Ht) as Hv. destruct (resValues desc) as [|v vs] eqn:E; [done|].
  exists tc, bf, desc, v. rewrite Ho. split; [done|]. split; [apply (gt_self _ Htab _ _ Ht)|]. unfold Default, index. by rewrite E.
Qed.

(** All nodes of an argument have a size. *)
Definition sizedArg (h : heap) (a : Arg) : Prop := ∀ x, x ∈ nodes a → ∃ z, Size target h x = Ret z.

Lemma sizedArg_refs h h' a : sameRefs h h' → sizedArg h a → sizedArg h' a.
Proof. intros Hh Ha x Hx. destruct (Ha x Hx) as [z Hz]. exists z. by eapply size_refs. Qed.

Lemma sizedArg_head h a : sizedArg h a → ∃ z, Size target h a = Ret z.
Proof. intros Ha. apply Ha. destruct a; apply list_elem_of_here. Qed.

Lemma scalar_size r t : typeAt r = Ret t → isScalar t = true → Types.Size t = Ret (TypeSize (common t)).
Proof. intros Ht Hs. unfold Types.Size. by rewrite (gt_scalar _ Htab _ _ Ht Hs). Qed.

(** Input data has no size of its own: its size is the length of its bytes. *)
Definition plainNode (x : Arg) : Prop := match x with DataArg c _ sz => adir c ≠ DirOut → sz = 0 | _ => True end.
Definition inData (a : Arg) : Prop := ∀ x, x ∈ nodes a → plainNode x.

Lemma inData_group c l : inData (GroupArg c l) ↔ ∀ a, a ∈ l → inData a.
Proof.
  unfold inData. cbn [nodes]. split.
  - intros H a Ha x Hx. apply H, list_elem_of_further, elem_of_concat. exists (nodes a). split; [by apply list_elem_of_fmap_2|done].
  - intros H x Hx. apply elem_of_cons in Hx as [->|Hx]; [done|]. apply elem_of_concat in Hx as (k & Hk & Hx).
    apply list_elem_of_fmap in Hk as (a & -> & Ha). by apply (H a).
Qed.
Lemma inData_pointer c addr v p : inData (PointerArg c addr v p) ↔ ∀ x, p = Some x → inData x.
Proof.
  unfold inData. cbn [nodes]. destruct p as [p|]; split.
  - intros H x [= <-] y Hy. by apply H, list_elem_of_further.
  - intros H x Hx. apply elem_of_cons in Hx as [->|Hx]; [done|]. by apply (H p).
  - done.
  - intros _ x Hx. by apply list_elem_of_singleton in Hx as ->.
Qed.
Lemma inData_union c opt idx tr : inData (UnionArg c opt idx tr) ↔ inData opt.
Proof.
  unfold inData. cbn [nodes]. split; intros H x Hx; [by apply H, list_elem_of_further|]. apply elem_of_cons in Hx as [->|Hx]; [done|]. by apply H.
Qed.
Lemma inData_leaf a : nodes a = [a] → plainNode a → inData a.
Proof. intros Hn Ha x Hx. rewrite Hn in Hx. by apply list_elem_of_singleton in Hx as ->. Qed.

Lemma inData_erase a : inData (erase a) ↔ inData a.
Proof.
  assert (∀ x, plainNode (erase x) ↔ plainNode x) as Hp by (by intros []).
  unfold inData. rewrite nodes_erase. split.
  - intros H x Hx. apply Hp, H. by apply list_elem_of_fmap_2.
  - intros H x Hx. apply list_elem_of_fmap in Hx as (y & -> & Hy). by apply Hp, H.
Qed.

(** The argument stands for the type [r]. *)
Record fits (h : heap) (a : Arg) (r : Ref) (dir : Dir) : Prop := {
  ft_typed : typed h a r dir;
  ft_sized : sizedArg h a;
  ft_data : inData a;
  ft_head : ∃ t, typeAt r = Ret t ∧ argRef h a = Ret r ∧ argDir h a = Ret (if isPtrType t then DirIn else dir)
}.

Lemma fits_refs h h' a r dir : sameRefs h h' → fits h a r dir → fits h' a r dir.
Proof. intros Hh [Ht Hs Hd (t & Htt & Hr & Hdir)]. split; [by eapply typed_refs|by eapply sizedArg_refs|done|]. exists t. split; [done|].
  destruct a as [| | | | |i]; try done. cbn [argRef argDir] in *. apply bind_Ret in Hr as (o & Ho & [= Hr]). rewrite Ho in Hdir. injection Hdir as Hdir.
  unfold deref in *. destruct (h !! i) as [o1|] eqn:E; [|done]. injection Ho as ->. destruct (Hh i o E) as (o' & -> & Hr' & Hd'). cbn [rbind]. by rewrite Hr', Hd', Hr, Hdir. Qed.

(** An argument of exactly the type [r]. *)
Lemma fits_intro h a r t dir ad : typeAt r = Ret t → argRef h a = Ret r → argDir h a = Ret ad →
  ad = (if isPtrType t then DirIn else dir) → shaped target h a t (if isPtrType t then DirIn else dir) → sizedArg h a → inData a →
  fits h a r dir.
Proof. intros Ht Hr Hd Had Hs Hz Hin. split; [|done|done|exists t; by rewrite <-Had]. econstructor; [exact Ht|reflexivity|exact Hr|by left|exact Hd|by left|exact Ht|exact Hs]. Qed.

Lemma fits_const h i r t dir v : typeAt r = Ret t → isConstType t = true → fits h (ConstArg (MkCommon i r dir) v) r dir.
Proof.
  intros Ht Hc. assert (isPtrType t = false) as Hp by (by destruct t). eapply fits_intro; [exact Ht|done|done|by rewrite Hp|by constructor| |by apply inData_leaf].
  intros x Hx. apply list_elem_of_singleton in Hx as ->. simpl. rewrite Ht. cbn [rbind]. exists (TypeSize (common t)).
  apply (scalar_size r); [done|]. by destruct t.
Qed.

Lemma fits_result h i o r tc bf desc : typeAt r = Ret (ResourceType tc bf desc) → h !! i = Some o → rRef o = r →
  fits h (ResultArg i) r (rDir o).
Proof.
  intros Ht Ho Hr. eapply fits_intro; [exact Ht| | |done|constructor| |by apply inData_leaf].
  - cbn [argRef]. rewrite (deref_Some _ _ _ Ho). cbn [rbind]. by rewrite Hr.
  - cbn [argDir]. by rewrite (deref_Some _ _ _ Ho).
  - intros x Hx. apply list_elem_of_singleton in Hx as ->. simpl. rewrite (deref_Some _ _ _ Ho). cbn [rbind]. rewrite Hr, Ht. cbn [rbind].
    exists (TypeSize tc). by apply (scalar_size r (ResourceType tc bf desc)).
Qed.

Lemma fits_pointer h i r t dir ad addr v p : typeAt r = Ret t →
  match t with
  | VmaType _ _ _ => p = None ∧ ad = dir
  | PtrType _ elem ed => v = 0 ∧ ad = DirIn ∧ ∀ x, p = Some x → fits h x elem ed
  | _ => False
  end → fits h (PointerArg (MkCommon i r ad) addr v p) r dir.
Proof.
  intros Ht Hp. assert (isScalar t = true) as Hsc by (by destruct t).
  assert (∃ z, Size target h (PointerArg (MkCommon i r ad) addr v p) = Ret z) as Hz.
  { exists (TypeSize (common t)). simpl. rewrite Ht. by apply (scalar_size r). }
  destruct t; try done.
  - destruct Hp as [-> ->]. eapply fits_intro; [exact Ht|done|done|done|constructor| |by apply inData_leaf]. intros x Hx. by apply list_elem_of_singleton in Hx as ->.
  - destruct Hp as (-> & -> & Hp). eapply fits_intro; [exact Ht|done|done|done|constructor; [done|intros x Hx; by apply Hp]| |apply inData_pointer; intros x Hx; by apply Hp].
    intros x Hx. cbn [nodes] in Hx. apply elem_of_cons in Hx as [->|Hx]; [done|]. destruct p as [p|]; [|by apply elem_of_nil in Hx].
    by apply (ft_sized _ _ _ _ (Hp p eq_refl)).
Qed.

Lemma fits_data h i r tc desc dir d sz : typeAt r = Ret (BufferType tc desc) → (dir = DirOut → d = []) →
  (IsVarlen tc = false → (if decide (d ≠ []) then Z.of_nat (length d) else sz) = TypeSize tc) → (dir ≠ DirOut → sz = 0) →
  fits h (DataArg (MkCommon i r dir) d sz) r dir.
Proof.
  intros Ht Hd Hsz Hin. eapply fits_intro; [exact Ht|done|done|done| | |by apply inData_leaf].
  - constructor; [done|]. intros Hv. simpl. by rewrite Hsz.
  - intros x Hx. apply list_elem_of_singleton in Hx as ->. simpl. eauto.
Qed.

Lemma fits_union h i r tc fields dir opt idx tr f : typeAt r = Ret (UnionType tc fields) → 0 ≤ idx →
  fields !! Z.to_nat idx = Some f → fits h opt (fieldType f) (fieldDir f dir) → fits h (UnionArg (MkCommon i r dir) opt idx tr) r dir.
Proof.
  intros Ht Hi Hf [Hot Hos Hod _]. eapply fits_intro; [exact Ht|done|done|done|by econstructor| |by apply inData_union].
  intros x Hx. cbn [nodes] in Hx. apply elem_of_cons in Hx as [->|Hx]; [|by apply Hos]. simpl. rewrite Ht. cbn [rbind].
  unfold Varlen, Types.Size. cbn [common]. destruct (IsVarlen tc); cbn [negb]; [by apply sizedArg_head|eauto].
Qed.

Lemma struct_size h overlay align n l : Forall (λ a, ∃ z, Size target h a = Ret z) l → ∀ i acc,
  ∃ s, for_list (λ fld '(i, acc), let! sz := Size target h fld in Ret (i + 1, structStep overlay align n i sz acc)) l (i, acc) = Ret s.
Proof.
  induction 1 as [|a l [z Hz] _ IH]; intros i acc; [by eexists|]. cbn [for_list]. rewrite Hz. cbn [rbind]. apply IH.
Qed.
Lemma array_size h l : Forall (λ a, ∃ z, Size target h a = Ret z) l → ∀ acc,
  ∃ s, for_list (λ elem size, let! sz := Size target h elem in Ret (size +! sz)) l acc = Ret s.
Proof. induction 1 as [|a l [z Hz] _ IH]; intros acc; [by eexists|]. cbn [for_list]. rewrite Hz. cbn [rbind]. apply IH. Qed.

Lemma fits_group h i r t dir l : typeAt r = Ret t →
  match t with
  | StructType _ fields _ _ => Forall2 (λ a f, fits h a (fieldType f) (fieldDir f dir)) l fields
  | ArrayType _ elem kind rb re => Forall (λ a, fits h a elem dir) l ∧ (kind = ArrayRangeLen → rb = re → Z.of_nat (length l) = rb)
  | _ => False
  end → fits h (GroupArg (MkCommon i r dir) l) r dir.
Proof.
  intros Ht Hl.
  assert (∀ a, a ∈ l → sizedArg h a) as Hs.
  { intros a Ha. destruct t; try done.
    - destruct Hl as [Hl _]. rewrite Forall_forall in Hl. apply (ft_sized _ _ _ _ (Hl a Ha)).
    - apply list_elem_of_lookup in Ha as [k Hk]. destruct (Forall2_lookup_l _ _ _ _ _ Hl Hk) as (f & _ & [_ H _ _]). exact H. }
  assert (Forall (λ a, ∃ z, Size target h a = Ret z) l) as Hz by (apply Forall_forall; intros a Ha; by apply sizedArg_head, Hs).
  eapply fits_intro; [exact Ht|done|done|by destruct t| | |].
  - destruct t; try done.
    + destruct Hl as [Hl Hlen]. constructor; [|done]. eapply Forall_impl; [exact Hl|]. intros a. apply ft_typed.
    + constructor. eapply Forall2_impl; [exact Hl|]. intros a f. apply ft_typed.
  - intros x Hx. cbn [nodes] in Hx. apply elem_of_cons in Hx as [->|Hx].
    + simpl. rewrite Ht. cbn [rbind]. unfold Varlen, Types.Size. destruct (IsVarlen (common t)); cbn [negb]; [|eauto]. destruct t; try done.
      * apply array_size; done.
      * destruct (struct_size h overlayField alignAttr (Z.of_nat (length l)) l Hz 0 (0, 0)) as [[j [s o]] ->]. cbn [rbind]. eauto.
    + apply elem_of_concat in Hx as (k & Hk & Hx). apply list_elem_of_fmap in Hk as (a & -> & Ha). by apply (Hs a).
  - apply inData_group. intros a Ha. destruct t; try done.
    + destruct Hl as [Hl _]. rewrite Forall_forall in Hl. apply (ft_data _ _ _ _ (Hl a Ha)).
    + apply list_elem_of_lookup in Ha as [k Hk]. destruct (Forall2_lookup_l _ _ _ _ _ Hl Hk) as (f & _ & [_ _ H _]). exact H.
Qed.

(** ** The constructors *)

(** An argument [a] of the type [r] was built around parts with the results [N]. *)
Record wraps (m m' : mem) (a : Arg) (r : Ref) (dir : Dir) (N : list positive) : Prop := {
  wr_heap : mHeap m' = mHeap m;
  wr_next : (mNext m ≤ mNext m')%positive;
  wr_fits : fits (mHeap m') a r dir;
  wr_results : results a = N
}.

(** [H : Make... = Ret (a, m')]: the argument that was built. *)
Ltac made Ht H :=
  cbv beta delta [MakeConstArg MakePointerArg MakeVmaPointerArg MakeSpecialPointerArg MakeDataArg MakeOutDataArg MakeGroupArg MakeUnionArg] in H;
  repeat match type of H with (if decide _ then _ else _) = _ => case_decide; [discriminate H|] end;
  cbv zeta in H; rewrite (refAt _ _ Ht) in H; cbn [rbind alloc] in H; injection H as <- <-;
  split; [done|cbn; lia|cbn [mHeap]|try done].

Lemma make_const r t dir v m a m' : typeAt r = Ret t → isConstType t = true → MakeConstArg t dir v m = Ret (a, m') → wraps m m' a r dir [].
Proof. intros Ht Hc H. made Ht H. by eapply fits_const. Qed.

Lemma make_special r t dir idx m a m' : typeAt r = Ret t → (∃ tc rb re, t = VmaType tc rb re) ∨ (∃ tc elem ed, t = PtrType tc elem ed) →
  MakeSpecialPointerArg t dir idx m = Ret (a, m') → wraps m m' a r dir [].
Proof. intros Ht Hc H. made Ht H. eapply fits_pointer; [exact Ht|]. by destruct Hc as [(tc & rb & re & ->)|(tc & elem & ed & ->)]. Qed.

Lemma make_pointer r tc elem ed dir addr data m a m' : typeAt r = Ret (PtrType tc elem ed) → fits (mHeap m) data elem ed →
  MakePointerArg (PtrType tc elem ed) dir addr data m = Ret (a, m') → wraps m m' a r dir (results data).
Proof. intros Ht Hd H. made Ht H. eapply fits_pointer; [exact Ht|]. split_and!; [done|done|]. by intros x [= <-]. Qed.

Lemma make_vma r tc rb re dir addr size m a m' : typeAt r = Ret (VmaType tc rb re) →
  MakeVmaPointerArg (VmaType tc rb re) dir addr size m = Ret (a, m') → wraps m m' a r dir [].
Proof. intros Ht H. made Ht H. by eapply fits_pointer. Qed.

Lemma make_data r tc desc dir d m a m' : typeAt r = Ret (BufferType tc desc) → (IsVarlen tc = false → Z.of_nat (length d) = TypeSize tc) →
  MakeDataArg (BufferType tc desc) dir d m = Ret (a, m') → wraps m m' a r dir [].
Proof. intros Ht Hd H. made Ht H. eapply fits_data; [exact Ht|done| |done]. intros Hv. rewrite <-(Hd Hv). by destruct d; case_decide. Qed.

Lemma make_outdata r tc desc dir sz m a m' : typeAt r = Ret (BufferType tc desc) → (IsVarlen tc = false → sz = TypeSize tc) →
  MakeOutDataArg (BufferType tc desc) dir sz m = Ret (a, m') → wraps m m' a r dir [].
Proof. intros Ht Hd H. made Ht H. by eapply fits_data. Qed.

Lemma make_struct r tc fields al ov dir l m a m' : typeAt r = Ret (StructType tc fields al ov) →
  Forall2 (λ a f, fits (mHeap m) a (fieldType f) (fieldDir f dir)) l fields →
  MakeGroupArg (StructType tc fields al ov) dir l m = Ret (a, m') → wraps m m' a r dir (concat (results <$> l)).
Proof. intros Ht Hl H. made Ht H; [by eapply fits_group|apply results_group]. Qed.

Lemma make_array r tc elem kind rb re dir l m a m' : typeAt r = Ret (ArrayType tc elem kind rb re) →
  Forall (λ a, fits (mHeap m) a elem dir) l → (kind = ArrayRangeLen → rb = re → Z.of_nat (length l) = rb) →
  MakeGroupArg (ArrayType tc elem kind rb re) dir l m = Ret (a, m') → wraps m m' a r dir (concat (results <$> l)).
Proof. intros Ht Hl Hn H. made Ht H; [by eapply fits_group|apply results_group]. Qed.

Lemma make_union r tc fields dir opt idx f m a m' : typeAt r = Ret (UnionType tc fields) → index fields idx = Ret f →
  fits (mHeap m) opt (fieldType f) (fieldDir f dir) →
  MakeUnionArg (UnionType tc fields) dir opt idx m = Ret (a, m') → wraps m m' a r dir (results opt).
Proof.
  intros Ht Hi Ho H. made Ht H. unfold index in Hi. case_decide; [|done]. destruct (fields !! Z.to_nat idx) as [f'|] eqn:E; [|done].
  injection Hi as ->. by eapply fits_union.
Qed.

(** ** Building arguments in memory *)

Section visible.
Context (V : positive → Prop).

Definition inDom (m : mem) : Prop := ∀ r, V r → is_Some (mHeap m !! r).

Lemma inDom_grown NE NA m m' : grown V NE NA m m' → inDom m → inDom m'.
Proof. intros G Hd r Hr. destruct (Hd r Hr) as [o Ho]. destruct (gr_old _ _ _ _ _ _ G r o Ho) as (? & ? & _). eauto. Qed.

Record builds (m m' : mem) (a : Arg) (r : Ref) (dir : Dir) : Prop := {
  bd_grown : grown V [] (results a) m m';
  bd_fits : fits (mHeap m') a r dir
}.

(** A loop that builds one argument for each element. *)
Lemma builds_list {A} (ty : A → Ref) (dr : A → Dir) (step : A → mem → res (Arg * mem)) l : ∀ inner0 m inner m',
  fresh m → inDom m →
  (∀ x m a m', x ∈ l → fresh m → inDom m → step x m = Ret (a, m') → builds m m' a (ty x) (dr x)) →
  for_list (λ x '(inner, m), let! '(e, m) := step x m in Ret (inner ++ [e], m)) l (inner0, m) = Ret (inner, m') →
  ∃ new, inner = inner0 ++ new ∧ grown V [] (concat (results <$> new)) m m' ∧ Forall2 (λ a x, fits (mHeap m') a (ty x) (dr x)) new l.
Proof.
  induction l as [|x l IH]; intros inner0 m inner m' Hf Hd Hstep Hl.
  { injection Hl as <- <-. exists []. rewrite app_nil_r. split_and!; [done|by apply grown_refl|constructor]. }
  cbn [for_list] in Hl. apply bind_Ret in Hl as (y & Hy & Hl). apply bind_Ret in Hy as ([a m1] & Ha & [= <-]).
  destruct (Hstep x m a m1 (list_elem_of_here _ _) Hf Hd Ha) as [G1 F1].
  destruct (IH (inner0 ++ [a]) m1 inner m') as (new & -> & G2 & F2); [by eapply gr_fresh|by eapply inDom_grown| |exact Hl|].
  { intros x' m0 a' m0' Hx. apply Hstep. by apply list_elem_of_further. }
  exists (a :: new). rewrite <-app_assoc. split; [done|]. split.
  - apply (grown_trans _ _ [] _ [] _ _ _ _ Hd G1 G2).
  - constructor; [|done]. eapply fits_refs; [by eapply grown_refs|done].
Qed.

Lemma grown_wraps NE NA m m1 m2 a r dir N : grown V NE NA m m1 → wraps m1 m2 a r dir N → grown V NE NA m m2.
Proof. intros G [Hh Hn _ _]. by eapply grown_bump. Qed.

Lemma builds_wraps NA m m1 m2 a r dir : grown V [] NA m m1 → wraps m1 m2 a r dir NA → builds m m2 a r dir.
Proof. intros G W. split; [rewrite (wr_results _ _ _ _ _ _ W); by eapply grown_wraps|apply W]. Qed.

Lemma builds_leaf m m' a r dir : fresh m → wraps m m' a r dir [] → builds m m' a r dir.
Proof. intros Hf W. eapply builds_wraps; [by apply grown_refl|exact W]. Qed.

Lemma make_result NE NA m m1 r tc bf desc dir ro v i m2 : fresh m → inDom m → grown V NE NA m m1 →
  typeAt r = Ret (ResourceType tc bf desc) → (∀ x, ro = Some x → V x ∨ x ∈ concat NE) →
  MakeResultArg (ResourceType tc bf desc) dir ro v m1 = Ret (i, m2) →
  grown V NE (NA ++ [i]) m m2 ∧ fits (mHeap m2) (ResultArg i) r dir.
Proof.
  intros Hf Hd G Ht Hro H.
  destruct (grown_result target V NE NA m m1 _ dir ro v i m2 r Hd Hf G H (refAt _ _ Ht)) as (G2 & o & Ho & Hr & <-); [|done|].
  { intros o Ho. by eapply resTyped_at. }
  split; [done|]. by eapply fits_result.
Qed.

Lemma default_buffer r tc desc dir m a m' fuel : typeAt r = Ret (BufferType tc desc) →
  DefaultArg target (S fuel) (BufferType tc desc) dir m = Ret (a, m') → wraps m m' a r dir [].
Proof.
  intros Ht Hm. cbn [DefaultArg] in Hm. unfold Varlen, Types.Size in Hm. cbn [common] in Hm. case_decide.
  - apply bind_Ret in Hm as (sz & Hsz & Hm). eapply make_outdata; [exact Ht| |exact Hm]. intros Hv. rewrite Hv in Hsz. congruence.
  - apply bind_Ret in Hm as (d & Hdata & Hm). eapply make_data; [exact Ht| |exact Hm]. intros Hv. rewrite Hv in Hdata.
    destruct (gt_buffer _ Htab _ _ _ Ht Hv) as [Hs [Hvals _]].
    destruct (bufValues desc) as [|v [|v' vs]]; [|injection Hdata as <-; by inversion Hvals|];
      (cbn [rbind] in Hdata; injection Hdata as <-; rewrite length_replicate; lia).
Qed.

Lemma default_builds fuel : ∀ r t dir m a m', fresh m → inDom m → typeAt r = Ret t →
  DefaultArg target fuel t dir m = Ret (a, m') → builds m m' a r dir.
Proof.
  induction fuel as [|fuel IH]; intros r t dir m a m' Hf Hd Ht Hm; [done|].
  destruct t; try (apply (builds_leaf _ _ _ _ _ Hf); by eapply default_buffer); cbn [DefaultArg] in Hm;
    try (apply (builds_leaf _ _ _ _ _ Hf); by eapply make_const).
  - apply bind_Ret in Hm as (v & _ & Hm). apply bind_Ret in Hm as ([i m1] & Hm & [= <- <-]).
    destruct (make_result [] [] m m r tc argFormat desc dir None v i m1 Hf Hd (grown_refl _ _ _ Hf) Ht ltac:(done) Hm) as [G F]. by split.
  - apply (builds_leaf _ _ _ _ _ Hf). eapply make_special; [exact Ht| |exact Hm]. left; eauto.
  - apply bind_Ret in Hm as ([inner m1] & Hl & Hm). case_decide as Hk.
    + apply bind_Ret in Hl as (te & Hte & Hl).
      destruct (builds_list (λ _ : nat, elem) (λ _, dir) (λ _, DefaultArg target fuel te dir) (seq 0 (Z.to_nat rangeBegin)) [] m inner m1 Hf Hd)
        as (new & -> & G & F); [|exact Hl|]. { intros x m0 a0 m0' _ Hf0 Hd0. by apply IH. }
      eapply builds_wraps; [exact G|]. eapply make_array; [exact Ht| | |exact Hm].
      * apply Forall_lookup. intros k x Hk'. by destruct (Forall2_lookup_l _ _ _ _ _ F Hk') as (? & _ & Hx).
      * intros _ _. destruct Hk as [-> ->]. apply gt_array in Ht; [|done]. apply Forall2_length in F. rewrite length_seq in F. cbn [app]. lia.
    + injection Hl as <- <-. apply (builds_leaf _ _ _ _ _ Hf). change [] with (concat (results <$> [])). eapply make_array; [exact Ht|constructor| |exact Hm]. tauto.
  - destruct (Optional _).
    + apply (builds_leaf _ _ _ _ _ Hf). eapply make_special; [exact Ht| |exact Hm]. right; eauto.
    + apply bind_Ret in Hm as (te & Hte & Hm). apply bind_Ret in Hm as ([e m1] & He & Hm). destruct (IH _ _ _ _ _ _ Hf Hd Hte He) as [G F].
      eapply builds_wraps; [exact G|by eapply make_pointer].
  - apply bind_Ret in Hm as ([inner m1] & Hl & Hm).
    destruct (builds_list (λ f, fieldType f) (λ f, fieldDir f dir) (λ f m, let! tf := typeAt (fieldType f) in DefaultArg target fuel tf (fieldDir f dir) m)
      fields [] m inner m1 Hf Hd) as (new & -> & G & F).
    { intros f m0 a0 m0' _ Hf0 Hd0 H. apply bind_Ret in H as (tf & Htf & H). by eapply IH. }
    { rewrite <-Hl. apply for_list_ext. intros f [l0 m0] _. destruct (typeAt (fieldType f)); reflexivity. }
    eapply builds_wraps; [exact G|by eapply make_struct].
  - apply bind_Ret in Hm as (idx & _ & Hm). apply bind_Ret in Hm as (f & Hfi & Hm). apply bind_Ret in Hm as (tf & Htf & Hm).
    apply bind_Ret in Hm as ([e m1] & He & Hm). destruct (IH _ _ _ _ _ _ Hf Hd Htf He) as [G F].
    apply bind_Ret in Hm as ([u m2] & Hu & Hm). apply bind_Ret in Hm as (tr & _ & Hm).
    pose proof (make_union _ _ _ _ _ _ _ _ _ _ Ht Hfi F Hu) as [Hh Hn Hfit Hr]. destruct u as [| | | |c opt i0 tr0|]; try done. injection Hm as <- <-.
    eapply builds_wraps; [exact G|]. split; [done|done| |done].
    unfold index in Hfi. case_decide; [|done]. destruct (fields !! Z.to_nat idx) as [f'|] eqn:E; [|done]. injection Hfi as ->.
    unfold MakeUnionArg in Hu. rewrite (refAt _ _ Ht) in Hu. cbn [rbind alloc] in Hu. injection Hu as <- <- <- <- <-.
    eapply fits_union; [exact Ht|done|exact E|exact F].
Qed.

End visible.
End target.
End GenTypes.
