(* ===== verification/GenSpec.v ===== *)
(** * GenSpec: generated programs are well formed

    Every argument that is generated has the type and the direction asked for, its results
    refer to results of earlier calls, and the calls that are generated to create resources
    are well formed themselves. *)

From S2P Require Import Prelude Rand Alloc Bytes Types Prog ExampleTarget Resources Prio ProgEdit Clone WellFormed Layers Collide Size Expr.
From S2P Require Import Validation Typing ArgTree Conditions Minimize MinimizeCalls Analysis Text RandData Generate GenGrow GenTypes.
Import Types Prog ProgEdit Clone WellFormed Layers Expr Validation Typing RandData Generate GenGrow GenTypes.

Module GenSpec.

(** ** Runs of generators *)

Lemma gbind_Ret {A B} (m : gst → res (A * gst)) (k : A → gst → res (B * gst)) g y :
  gbind m k g = Ret y → ∃ x g1, m g = Ret (x, g1) ∧ k x g1 = Ret y.
Proof. unfold gbind. intros H. apply bind_Ret in H as ([x g1] & Hm & Hk). eauto. Qed.

(** The parts of the state that make up the program. *)
Definition core (g : gst) : Analysis.state * mem := (gS g, gM g).

(** Generators that only draw. *)
Definition quiet {A} (m : gst → res (A * gst)) : Prop := ∀ g x g', m g = Ret (x, g') → core g' = core g.

Lemma pure_Ret {A} (x : res A) g y g' : pure x g = Ret (y, g') → x = Ret y ∧ g' = g.
Proof. unfold pure. intros H. apply bind_Ret in H as (z & -> & [= -> ->]). done. Qed.

Lemma quiet_pure {A} (x : res A) : quiet (pure x).
Proof. intros g y g' H. by apply pure_Ret in H as [_ ->]. Qed.
Lemma quiet_ret {A} (x : A) : quiet (gret x).
Proof. by intros g y g' [= _ ->]. Qed.
Lemma draw_Ret {A} (f : rng → res (A * rng)) g x g' : draw f g = Ret (x, g') → core g' = core g ∧ ∃ r r', f r = Ret (x, r').
Proof. unfold draw. intros H. apply bind_Ret in H as ([y r] & Hf & [= <- <-]). eauto. Qed.
Lemma quiet_draw {A} (f : rng → res (A * rng)) : quiet (draw f).
Proof. intros g x g' H. by apply draw_Ret in H as [? _]. Qed.
Lemma quiet_bind {A B} (m : gst → res (A * gst)) (k : A → gst → res (B * gst)) : quiet m → (∀ x, quiet (k x)) → quiet (gbind m k).
Proof. intros Hm Hk g y g' H. apply gbind_Ret in H as (x & g1 & H1 & H2). etrans; [by eapply Hk|by eapply Hm]. Qed.
Lemma quiet_get {A} (f : gst → A) : quiet (λ g, Ret (f g, g)).
Proof. by intros g y g' [= _ ->]. Qed.
Lemma quiet_withRand f : quiet (withRand f).
Proof. by intros g y g' [= _ <-]. Qed.

Create HintDb quiet.
#[export] Hint Resolve quiet_pure quiet_ret quiet_draw quiet_bind quiet_get quiet_withRand : quiet.
#[export] Hint Extern 1 (quiet getHeap) => apply (quiet_get (λ g, mHeap (gM g))) : quiet.
#[export] Hint Extern 1 (quiet getState) => apply (quiet_get gS) : quiet.
#[export] Hint Extern 1 (quiet getRand) => apply (quiet_get gR) : quiet.

Lemma chooseOf_Ret {A} (l : list A) g x g' : chooseOf l g = Ret (x, g') → core g' = core g ∧ x ∈ l.
Proof.
  intros H. apply gbind_Ret in H as (k & g1 & Hd & Hi). apply quiet_draw in Hd. apply pure_Ret in Hi as [Hi ->]. split; [done|].
  unfold index in Hi. case_decide; [|done]. destruct (l !! Z.to_nat k) eqn:E; [|done]. injection Hi as ->. by eapply list_elem_of_lookup_2.
Qed.
Lemma quiet_choose {A} (l : list A) : quiet (chooseOf l).
Proof. intros g x g' H. by apply chooseOf_Ret in H as [? _]. Qed.
#[export] Hint Resolve quiet_choose : quiet.

(** A loop that only draws, with an invariant of its result. *)
Lemma gfor_quiet {A S} (P : S → Prop) (f : A → S → gst → res (S * gst)) l : ∀ s g s' g',
  (∀ x s g s' g', x ∈ l → P s → f x s g = Ret (s', g') → core g' = core g ∧ P s') → P s →
  gfor f l s g = Ret (s', g') → core g' = core g ∧ P s'.
Proof.
  induction l as [|x l IH]; intros s g s' g' Hf Hs H; [by injection H as <- <-|].
  cbn [gfor] in H. apply gbind_Ret in H as (s1 & g1 & H1 & H2). destruct (Hf x s g s1 g1 (list_elem_of_here _ _) Hs H1) as [Hc1 Hs1].
  destruct (IH s1 g1 s' g') as [Hc2 Hs2]; [|done|done|split; [by etrans|done]].
  intros y s2 g2 s3 g3 Hy. apply Hf. by apply list_elem_of_further.
Qed.

Lemma gfor_ext {A S} (f f' : A → S → gst → res (S * gst)) l : (∀ x s g, f x s g = f' x s g) → ∀ s g, gfor f l s g = gfor f' l s g.
Proof.
  intros Hf. induction l as [|x l IH]; intros s g; [done|]. cbn [gfor]. unfold gbind. rewrite Hf.
  destruct (f' x s g) as [[s1 g1]| |]; [apply IH|done..].
Qed.

(** [H : (let* x := m in k) g = Ret y] *)
Ltac gstep H x g E := apply gbind_Ret in H as (x & g & E & H).

(** ** Values of a fixed size *)

Lemma randRange_fixed n r x r' : 0 ≤ n < 2 ^ 63 → randRange n n r = Ret (x, r') → x = n.
Proof.
  intros Hn H. unfold randRange in H. apply bind_Ret in H as ([k r1] & Hk & [= <- _]).
  assert (wrapS 64 (n -! n +! 1) = 1) as Hw by (unfold sub64; rewrite Z.sub_diag; reflexivity). rewrite Hw in Hk.
  destruct (intn_total 1 r) as (k' & r2 & Hk' & Hb); [lia|]. rewrite Hk in Hk'. injection Hk' as -> _. assert (k' = 0) as -> by lia.
  unfold add64. rewrite Z.add_0_r. apply wrapU_small. unfold is_u. lia.
Qed.

Lemma randBytes_length n r l r' : randBytes n r = Ret (l, r') → length l = n.
Proof.
  unfold randBytes. intros H. assert (∀ k l0 r l r', for_list (λ (_ : nat) '(l, r), let! '(b, r) := intn 256 r in Ret (l ++ [b], r)) k (l0, r) = Ret (l, r') →
    length l = (length l0 + length k)%nat) as Hl.
  { clear. induction k as [|x k IH]; intros l0 r l r' H; [injection H as <- _; cbn; lia|]. cbn [for_list] in H.
    apply bind_Ret in H as ([l1 r1] & H1 & H). apply bind_Ret in H1 as ([b r2] & _ & [= <- <-]). apply IH in H.
    rewrite length_app in H. cbn [length] in *. lia. }
  apply Hl in H. by rewrite length_seq in H.
Qed.

Lemma randString_values lfuel strs desc r v r' : bufValues desc ≠ [] → randString lfuel strs desc r = Ret (v, r') → v ∈ bufValues desc.
Proof.
  intros Hne H. unfold randString in H. rewrite decide_True in H by done. apply bind_Ret in H as ([k r1] & _ & H).
  apply bind_Ret in H as (x & Hx & [= <- _]). unfold index in Hx. case_decide; [|done].
  destruct (bufValues desc !! Z.to_nat k) eqn:E; [|done]. injection Hx as ->. by eapply list_elem_of_lookup_2.
Qed.

Lemma filename_length lens lfuel files tc desc r fn r' : IsVarlen tc = false → 0 ≤ TypeSize tc →
  filename lens lfuel files (BufferType tc desc) desc r = Ret (fn, r') → Z.of_nat (length fn) = TypeSize tc.
Proof.
  intros Hv Hs H. unfold filename in H. apply bind_Ret in H as ([f r1] & _ & H). case_decide; [done|]. destruct (escapingFilename f); [done|].
  unfold Varlen, Types.Size in H. cbn [common] in H. rewrite Hv in H. cbn [negb rbind] in H. injection H as <- _. rewrite length_take. case_decide.
  - rewrite length_app, length_replicate. lia.
  - lia.
Qed.

(** ** What generators keep *)

(** The results that generated arguments may refer to. *)
Definition visible (s : Analysis.state) (i : positive) : Prop :=
  ∃ k l, Analysis.resources s !! k = Some l ∧ i ∈ l.

Section target.
Context (target : Target) (Htab : genTable target).
Notation typeAt := (typeAt (typeRefs target)).

Record ginv (g : gst) : Prop := {
  gi_fresh : fresh (gM g);
  gi_dom : inDom (visible (gS g)) (gM g)
}.

Record made (g g' : gst) (NE : list (list positive)) (NA : list positive) : Prop := {
  md_grown : grown target (visible (gS g)) NE NA (gM g) (gM g');
  md_res : Analysis.resources (gS g') = Analysis.resources (gS g)
}.

Lemma visible_eq s s' : Analysis.resources s' = Analysis.resources s → visible s' = visible s.
Proof. intros H. unfold visible. by rewrite H. Qed.

Lemma made_inv g g' NE NA : ginv g → made g g' NE NA → ginv g'.
Proof.
  intros [Hf Hd] [G Hr]. split; [by eapply gr_fresh|]. rewrite (visible_eq _ _ Hr). by eapply inDom_grown.
Qed.

Lemma made_refs g g' NE NA : made g g' NE NA → sameRefs (mHeap (gM g)) (mHeap (gM g')).
Proof. intros [G _]. by eapply grown_refs. Qed.

Lemma made_quiet g g' : ginv g → core g' = core g → made g g' [] [].
Proof. intros [Hf _] [= Hs Hm]. split; [rewrite Hm; by apply grown_refl|by rewrite Hs]. Qed.

Lemma ginv_quiet g g' : core g' = core g → ginv g → ginv g'.
Proof. intros [= Hs Hm] [Hf Hd]. split; [by rewrite Hm|by rewrite Hs, Hm]. Qed.

Lemma made_trans g g1 g2 NE1 NA1 NE2 NA2 : ginv g → made g g1 NE1 NA1 → made g1 g2 NE2 NA2 → made g g2 (NE1 ++ NE2) (NA1 ++ NA2).
Proof.
  intros [Hf Hd] [G1 R1] [G2 R2]. rewrite (visible_eq _ _ R1) in G2. split; [by eapply grown_trans|congruence].
Qed.

Lemma made_before g g1 g2 NE NA : core g1 = core g → made g1 g2 NE NA → made g g2 NE NA.
Proof. intros [= Hs Hm] [G R]. rewrite Hs in G, R. rewrite Hm in G. by split. Qed.

Lemma made_after g g1 g2 NE NA : core g2 = core g1 → made g g1 NE NA → made g g2 NE NA.
Proof. intros [= Hs Hm] [G R]. split; [by rewrite Hm|by rewrite Hs]. Qed.

(** A call that is complete. *)
Record okCall (h : heap) (c : Call) : Prop := {
  ok_typed : typedCall target h c;
  ok_sized : sizedCall target h c;
  ok_data : ∀ a, a ∈ Args c → inData a;
  ok_meta : Meta c ∈ Syscalls target
}.

Lemma okCall_refs h h' c : sameRefs h h' → okCall h c → okCall h' c.
Proof.
  intros Hh [Ht Hs Hd Hm]. split; [| |done|done].
  - pose proof (stable_refs (Stable := typed_stable target) [c] h h' Hh) as H. apply Forall_singleton, H, Forall_singleton, Ht.
  - intros a x Ha Hx. destruct (Hs a x Ha Hx) as [z Hz]. exists z. by eapply size_refs.
Qed.

Lemma okCalls_refs h h' calls : sameRefs h h' → Forall (okCall h) calls → Forall (okCall h') calls.
Proof. intros Hh Hc. eapply Forall_impl; [exact Hc|]. intros c. by apply okCall_refs. Qed.

(** A generator of arguments of the type [r]. *)
Definition gives (m : gst → res ((Arg * list Call) * gst)) (r : Ref) (dir : Dir) : Prop :=
  ∀ g a calls g', ginv g → m g = Ret ((a, calls), g') →
    made g g' (layers calls) (results a) ∧ fits target (mHeap (gM g')) a r dir ∧ Forall (okCall (mHeap (gM g'))) calls.

(** A constructor after generators. *)
Lemma onMem_Ret {A} (f : mem → res (A * mem)) g x g' : onMem f g = Ret (x, g') →
  f (gM g) = Ret (x, gM g') ∧ gS g' = gS g.
Proof. unfold onMem. intros H. apply bind_Ret in H as ([y m] & Hf & [= <- <-]). done. Qed.

Lemma made_wraps g g1 g2 NE NA a r dir N : gS g2 = gS g1 → made g g1 NE NA → wraps target (gM g1) (gM g2) a r dir N → made g g2 NE NA.
Proof. intros Hs [G R] W. split; [by eapply grown_wraps|by rewrite Hs]. Qed.

(** A generator of one argument without results, from a constructor. *)
Lemma leaf_gives f r dir g a g' : ginv g → onMem f g = Ret (a, g') → (∀ m a m', f m = Ret (a, m') → wraps target m m' a r dir []) →
  made g g' [] (results a) ∧ fits target (mHeap (gM g')) a r dir.
Proof.
  intros Hg H Hw. apply onMem_Ret in H as [Hf Hs]. apply Hw in Hf. split; [|apply Hf]. rewrite (wr_results _ _ _ _ _ _ _ Hf).
  eapply made_wraps; [exact Hs|by apply made_quiet|exact Hf].
Qed.

Lemma default_gives fuel r t dir g a g' : ginv g → typeAt r = Ret t → onMem (DefaultArg target fuel t dir) g = Ret (a, g') →
  made g g' [] (results a) ∧ fits target (mHeap (gM g')) a r dir.
Proof.
  intros [Hf Hd] Ht H. apply onMem_Ret in H as [H Hs].
  destruct (default_builds target Htab (visible (gS g)) fuel r t dir _ _ _ Hf Hd Ht H) as [G F]. split; [split; [done|by rewrite Hs]|done].
Qed.

(** A new result that refers to a visible one or to one of a generated call. *)
Lemma result_gives g g1 NE r tc bf desc dir ro v a g2 : ginv g → made g g1 NE [] → typeAt r = Ret (ResourceType tc bf desc) →
  (∀ x, ro = Some x → visible (gS g) x ∨ x ∈ concat NE) → MakeResult (ResourceType tc bf desc) dir ro v g1 = Ret (a, g2) →
  made g g2 NE (results a) ∧ fits target (mHeap (gM g2)) a r dir ∧ sameRefs (mHeap (gM g1)) (mHeap (gM g2)).
Proof.
  intros [Hf Hd] [G R] Ht Hro H. unfold MakeResult in H. gstep H i g3 E. injection H as <- <-. apply onMem_Ret in E as [E Hs].
  destruct (make_result target Htab (visible (gS g)) NE [] (gM g) (gM g1) r tc bf desc dir ro v i (gM g3) Hf Hd G Ht Hro E) as [G2 F].
  split; [split; [done|by rewrite Hs]|]. split; [done|]. eapply makeResult_refs; [by eapply gr_fresh|exact E].
Qed.

(** A loop that generates one argument for each element. *)
Lemma gives_list {A} (ty : A → Ref) (dr : A → Dir) (step : A → gst → res ((Arg * list Call) * gst)) l : ∀ args0 calls0 g args calls g',
  ginv g → (∀ x, x ∈ l → gives (step x) (ty x) (dr x)) →
  gfor (λ x '(args, calls), let* '(arg, calls1) := step x in gret (args ++ [arg], calls ++ calls1)) l (args0, calls0) g = Ret ((args, calls), g') →
  ∃ new E, args = args0 ++ new ∧ calls = calls0 ++ E ∧ made g g' (layers E) (concat (results <$> new)) ∧
    Forall2 (λ a x, fits target (mHeap (gM g')) a (ty x) (dr x)) new l ∧ Forall (okCall (mHeap (gM g'))) E.
Proof.
  induction l as [|x l IH]; intros args0 calls0 g args calls g' Hg Hstep H.
  { injection H as <- <- <-. exists [], []. rewrite !app_nil_r. split_and!; [done|done|by apply made_quiet|constructor|constructor]. }
  cbn [gfor] in H. gstep H s1 g1 E1. gstep E1 y g2 E2. destruct y as [a calls1]. injection E1 as <- <-.
  destruct (Hstep x (list_elem_of_here _ _) g a calls1 g2 Hg E2) as (M1 & F1 & O1).
  destruct (IH (args0 ++ [a]) (calls0 ++ calls1) g2 args calls g') as (new & E & -> & -> & M2 & F2 & O2);
    [by eapply made_inv|intros z Hz; apply Hstep; by apply list_elem_of_further|exact H|].
  exists (a :: new), (calls1 ++ E). rewrite <-!app_assoc. split; [done|]. split; [done|]. pose proof (made_refs _ _ _ _ M2) as Hr. split_and!.
  - rewrite layers_app, fmap_cons. cbn [concat]. by eapply made_trans.
  - constructor; [by eapply fits_refs|done].
  - apply Forall_app. split; [by eapply okCalls_refs|done].
Qed.

(** ** Programs that can be worked on *)

(** Every result refers to one of an earlier call, in both directions, and all arguments
    have the types and directions of the descriptions. *)
Record programOk (p : list Call) (m : mem) : Prop := {
  po_strict : strict target p m;
  po_calls : Forall (okCall (mHeap m)) p
}.

Lemma programOk_good p m : programOk p m → good target p m ∧ Forall (typedCall target (mHeap m)) p.
Proof. intros [Hs Hc]. split; [by apply strict_good|]. eapply Forall_impl; [exact Hc|]. intros c. apply ok_typed. Qed.

Lemma programOk_remove p idx c m m' p' : programOk p m → p !! idx = Some c → RemoveCall target p idx m = Ret (p', m') →
  p' = delete idx p ∧ programOk p' m' ∧ (∀ i o, i ∉ progResults p → mHeap m !! i = Some o → mHeap m' !! i = Some o) ∧ sameRefs (mHeap m) (mHeap m').
Proof.
  intros [Hs Hc] Hi H. destruct (RemoveCall_strict target p idx c m Hs Hi) as (m1 & E & Hs' & Hfr & Hr). rewrite E in H. injection H as <- <-.
  split; [done|]. split; [|done]. split; [done|]. apply Forall_delete. by eapply okCalls_refs.
Qed.

Lemma delete_results p idx i : i ∈ progResults (delete idx p) → i ∈ progResults p.
Proof.
  unfold progResults. intros Hi. apply elem_of_concat in Hi as (l & Hl & Hi). apply list_elem_of_fmap in Hl as (c1 & -> & Hc1).
  apply elem_of_concat. exists (callResults c1). split; [|done]. apply list_elem_of_fmap_2. rewrite delete_take_drop in Hc1.
  apply elem_of_app in Hc1 as [Hk|Hk]; [rewrite <-(take_drop idx p)|rewrite <-(take_drop (S idx) p)]; apply elem_of_app; tauto.
Qed.

(** ** Analysis *)

Lemma noteMemory_resources h a s s' : Analysis.noteMemory target h a s = Ret s' → Analysis.resources s' = Analysis.resources s.
Proof.
  unfold Analysis.noteMemory. destruct a as [|c addr v p| | | |]; try by intros [= <-].
  destruct (isSpecial addr v p); [by intros [= <-]|]. case_decide; [case_decide; [done|by intros [= <-]]|].
  destruct p as [p|]; [|by intros [= <-]]. intros E. apply bind_Ret in E as (z & _ & E). by apply bind_Ret in E as (ma & _ & [= <-]).
Qed.

Lemma noteString_resources desc d s : Analysis.resources (Analysis.noteString desc d s) = Analysis.resources s.
Proof. unfold Analysis.noteString. destruct (bufKind desc); try done. repeat case_match; try case_decide; done. Qed.

Lemma noteArg_visible h b a s s' i : Analysis.noteArg target h b a s = Ret s' → visible s' i → visible s i ∨ resultOf a = Some i.
Proof.
  unfold Analysis.noteArg. intros H Hi. apply bind_Ret in H as (s1 & H1 & H). apply noteMemory_resources in H1.
  rewrite <-(visible_eq _ _ H1). apply bind_Ret in H as (t & _ & H).
  assert (∀ desc d, s' = Analysis.noteString desc d s1 → visible s1 i) as Hstr.
  { intros desc d ->. by rewrite <-(visible_eq _ _ (noteString_resources desc d s1)). }
  destruct t; try (injection H as <-; by left); destruct a as [| | | | |j]; try discriminate; [|case_decide; injection H as <-; left; [by eapply Hstr|done]].
  apply bind_Ret in H as (o & _ & H). injection H as <-. match goal with H : visible (if ?b then _ else _) _ |- _ => destruct b end; [|by left].
  destruct Hi as (k & l & Hk & Hi). cbn [Analysis.resources] in Hk. destruct (decide (resName desc = k)) as [<-|Hne].
  - rewrite lookup_insert_eq in Hk. injection Hk as <-. apply elem_of_app in Hi as [Hi|Hi]; [|apply list_elem_of_singleton in Hi as ->; by right].
    left. destruct (Analysis.resources s1 !! resName desc) as [l|] eqn:E; [by exists (resName desc), l|by apply elem_of_nil in Hi].
  - rewrite lookup_insert_ne in Hk by done. left. by exists k, l.
Qed.

(** The resources that the analysis of a call finds are results of the call. *)
Lemma analyze_visible h c b s s' i : sizedCall target h c → Analysis.analyzeImpl target h c b s = Ret s' → visible s' i →
  visible s i ∨ i ∈ callResults c.
Proof.
  intros Hsz H Hi. unfold Analysis.analyzeImpl in H. destruct (callVisits_nodes target h c Hsz) as (l & Hl & Hn).
  rewrite (foreach_callVisits target h c l Hl _ (λ x s, Analysis.noteArg target h b x.1 s)) in H.
  assert (∀ (l : list (Arg * ArgCtx)) s, for_list (λ x s, Analysis.noteArg target h b x.1 s) l s = Ret s' → visible s i ∨ i ∈ omap resultOf (l.*1)) as Hloop.
  { clear -Hi. induction l as [|x l IH]; intros s H; [injection H as ->; by left|]. cbn [for_list] in H. apply bind_Ret in H as (s1 & H1 & H).
    rewrite fmap_cons. cbn [omap list_omap]. destruct (IH s1 H) as [Hv|Hv].
    - destruct (noteArg_visible _ _ _ _ _ _ H1 Hv) as [?|Hr]; [by left|right]. rewrite Hr. apply list_elem_of_here.
    - right. destruct (resultOf x.1); [by apply list_elem_of_further|done]. }
  destruct (Hloop l s H) as [?|Hv]; [by left|right]. rewrite Hn in Hv. unfold callResults. apply list_elem_of_omap in Hv as (x & Hx & Hr).
  apply elem_of_concat in Hx as (k & Hk & Hx). apply list_elem_of_fmap in Hk as (a & -> & Ha). unfold callArgs in Ha.
  apply elem_of_app. apply elem_of_app in Ha as [Ha|Ha].
  - right. apply list_elem_of_fmap in Ha as (j & -> & Hj). cbn [nodes] in Hx. apply list_elem_of_singleton in Hx as ->. by injection Hr as <-.
  - left. apply elem_of_concat. exists (results a). split; [by apply list_elem_of_fmap_2|]. apply list_elem_of_omap. eauto.
Qed.

Section generators.
Context (Arch : string) (SpecialFileLenghts : list Z) (resourceCtors : string → list Resources.ResourceCtor).
Notation ga := (bool → Typ → Dir → gst → res ((Arg * list Call) * gst)) (only parsing).
Context (SpecialTypes : string → option (ga → Typ → Dir → gst → res ((Arg * list Call) * gst))).
Context (ifuzzGenerate : Config → rng → list Z * rng) (ct : Prio.ChoiceTable).
Context (order : list (positive * Arg) → list (positive * Arg)).
Context (resOrder : list (string * list positive) → list (string * list positive)).
Context (dfuel lfuel : nat).
Hypothesis HresOrder : ∀ l x, x ∈ resOrder l → x ∈ l.

(** ** Resources *)

Lemma quiet_resultName i : quiet (resultName target i).
Proof. unfold resultName. eauto with quiet. Qed.

(** Either an argument or nothing at all. *)
Definition givesOpt (m : gst → res ((option Arg * list Call) * gst)) (r : Ref) (dir : Dir) : Prop :=
  ∀ g o calls g', ginv g → m g = Ret ((o, calls), g') →
    match o with
    | Some a => made g g' (layers calls) (results a) ∧ fits target (mHeap (gM g')) a r dir ∧ Forall (okCall (mHeap (gM g'))) calls
    | None => calls = [] ∧ core g' = core g
    end.

Lemma existing_gives r tc bf desc dir g o g' : ginv g → typeAt r = Ret (ResourceType tc bf desc) →
  existingResource target resOrder (ResourceType tc bf desc) desc dir g = Ret (o, g') →
  match o with
  | Some a => made g g' [] (results a) ∧ fits target (mHeap (gM g')) a r dir
  | None => core g' = core g
  end.
Proof.
  intros Hg Ht H. unfold existingResource in H. gstep H s g1 E. injection E as <- <-.
  gstep H alltypes g1 E1. apply (gfor_quiet (λ l, ∀ nr, nr ∈ l → ∀ i, i ∈ nr.2 → visible (gS g) i)) in E1 as [Hc1 H1].
  2: { intros kr l g2 l' g3 Hkr Hl H2. gstep H2 i g4 E2. apply pure_Ret in E2 as [_ ->]. gstep H2 name g4 E2. apply quiet_resultName in E2.
       injection H2 as <- <-. split; [done|]. intros nr Hnr i' Hi'. apply elem_of_app in Hnr as [Hnr|Hnr]; [by eapply Hl|].
       apply list_elem_of_singleton in Hnr as ->. cbn [snd] in Hi'. destruct kr as [k rl]. apply HresOrder, elem_of_map_to_list in Hkr. by exists k, rl. }
  2: { intros nr Hnr. by apply elem_of_nil in Hnr. }
  gstep H allres g2 E2. apply (gfor_quiet (λ l, ∀ i, i ∈ l → visible (gS g) i)) in E2 as [Hc2 H2].
  2: { intros nr l g3 l' g4 Hnr Hl H3. gstep H3 c g5 E3. apply quiet_pure in E3. gstep H3 c' g6 E4. injection H3 as <- <-.
       assert (core g6 = core g5) as Hc6.
       { destruct c; [by injection E4 as <- <-|]. gstep E4 b g7 E5. apply quiet_draw in E5. destruct b; [|injection E4 as <- <-; done].
         gstep E4 kind g8 E6. apply quiet_pure in E6. apply quiet_pure in E4. congruence. }
       split; [congruence|]. destruct c'; [|done]. intros i Hi. apply elem_of_app in Hi as [Hi|Hi]; [by apply Hl|].
       rewrite merge_sort_Permutation in Hnr. by eapply H1. }
  2: { intros i Hi. by apply elem_of_nil in Hi. }
  assert (core g2 = core g) as Hc by congruence. destruct allres as [|x0 l0]; [by injection H as <- <-|].
  gstep H x g3 E3. apply chooseOf_Ret in E3 as [Hc3 Hx]. gstep H a g4 E4. injection H as <- <-.
  destruct (result_gives g g3 [] r tc bf desc dir (Some x) 0 a g4 Hg) with (2 := Ht) (4 := E4) as (M & F & _); [| |done].
  - apply made_quiet; [exact Hg|congruence].
  - intros y [= <-]. left. by apply H2.
Qed.

Lemma quiet_spoof desc kind ctors : quiet (spoofKind target resourceCtors ct desc kind ctors).
Proof.
  unfold spoofKind. apply quiet_bind; [case_decide; eauto with quiet|]. intros [|]; cbn [negb]; [|eauto with quiet].
  apply quiet_bind; [eauto with quiet|]. intros kind0. apply quiet_bind.
  { intros g x g' H. eapply (gfor_quiet (λ _, True)) in H as [? _]; [done| |done]. intros y l g1 l' g2 _ _ H1. split; [|done].
    revert H1. apply quiet_bind; eauto with quiet. }
  intros all. apply quiet_bind; [case_decide; eauto with quiet|]. intros _. apply quiet_bind; [eauto with quiet|]. intros [k1 []].
  apply quiet_bind; eauto with quiet.
Qed.

Lemma index_elem {A} (l : list A) k x : index l k = Ret x → x ∈ l.
Proof.
  unfold index. case_decide; [|done]. destruct (l !! Z.to_nat k) eqn:E; [|done]. intros [= ->]. by eapply list_elem_of_lookup_2.
Qed.

Lemma chooseCtor_Ret ctors g meta g' : chooseCtor target ctors g = Ret (meta, g') → core g' = core g ∧ meta ∈ Syscalls target.
Proof.
  intros H. unfold chooseCtor in H. gstep H c1 g1 E1. gstep H again g2 E2. gstep H c g3 E3. apply pure_Ret in H as [H ->].
  split; [|by eapply index_elem].
  assert (core g1 = core g) as H1.
  { destruct (filter _ ctors); [by injection E1 as _ <-|]. gstep E1 c2 g4 E4. injection E1 as _ <-. by apply quiet_choose in E4. }
  assert (core g2 = core g1) as H2 by (destruct c1; [by apply quiet_draw in E2|by injection E2 as _ <-]).
  assert (core g3 = core g2) as H3 by (destruct c1; [destruct again|]; try (by apply quiet_choose in E3); by injection E3 as _ <-).
  congruence.
Qed.

(** A generator of calls. *)
Definition givesCalls (gen : Syscall → gst → res (list Call * gst)) : Prop :=
  ∀ meta g calls g', ginv g → meta ∈ Syscalls target → gen meta g = Ret (calls, g') →
    made g g' (layers calls) [] ∧ Forall (okCall (mHeap (gM g'))) calls.

Lemma create_gives gen r tc bf desc dir : givesCalls gen → typeAt r = Ret (ResourceType tc bf desc) →
  givesOpt (createResource target resourceCtors ct resOrder gen (ResourceType tc bf desc) desc dir) r dir.
Proof.
  intros Hgen Ht g o calls g' Hg H. unfold createResource in H. gstep H rd g0 E. injection E as <- <-.
  gstep H u g1 E1. assert (core g1 = core g) as C1 by (destruct (inGenerateResource _); [by injection E1 as _ <-|by apply quiet_pure in E1]).
  gstep H ctors g2 E2. apply quiet_pure in E2. gstep H kc g3 E3. apply quiet_spoof in E3. destruct kc as [kind ctors1].
  assert (core g3 = core g) as C3 by congruence. destruct ctors1 as [|c0 cs]; [by injection H as <- <- <-|].
  gstep H meta g4 E4. apply chooseCtor_Ret in E4 as [C4 Hmeta]. gstep H calls1 g5 E5.
  assert (ginv g4) as Hg4 by (apply (ginv_quiet g); [congruence|done]).
  destruct (Hgen meta g4 calls1 g5 Hg4 Hmeta E5) as [M5 O5]. apply (made_before g) in M5; [|congruence].
  gstep H c g6 E6. apply pure_Ret in E6 as [Hc ->]. apply index_elem in Hc. gstep H h g6 E6. injection E6 as <- <-.
  gstep H s1 g6 E6. apply pure_Ret in E6 as [Hs1 ->]. apply bind_Ret in Hs1 as (s0 & Hs0 & Hs1).
  assert (∀ i, visible s1 i → i ∈ progOrder calls1) as Hvis.
  { intros i Hi. rewrite Forall_forall in O5. destruct (analyze_visible _ _ _ _ _ _ (ok_sized _ _ (O5 c Hc)) Hs1 Hi) as [(k & l & Hk & _)|Hin].
    - unfold Analysis.newState in Hs0. apply bind_Ret in Hs0 as (ma & _ & [= <-]). cbn in Hk. by rewrite lookup_empty in Hk.
    - rewrite progOrder_perm. unfold progResults. apply elem_of_concat. exists (callResults c). split; [by apply list_elem_of_fmap_2|done]. }
  gstep H allres g6 E6. apply (gfor_quiet (λ l, ∀ ni, ni ∈ l → ni.2 ∈ progOrder calls1)) in E6 as [C6 H6].
  2: { intros kr l g7 l' g8 Hkr Hl H7. gstep H7 comp g9 E9. apply quiet_pure in E9. destruct comp; [|injection H7 as <- <-; done].
       apply (gfor_quiet (λ l, ∀ ni, ni ∈ l → ni.2 ∈ progOrder calls1)) in H7 as [C7 H7]; [split; [congruence|done]| |done].
       intros i l1 g10 l1' g11 Hi Hl1 H8. gstep H8 name g12 E12. apply quiet_resultName in E12. injection H8 as <- <-. split; [done|].
       intros ni Hni. apply elem_of_app in Hni as [Hni|Hni]; [by apply Hl1|]. apply list_elem_of_singleton in Hni as ->. apply Hvis.
       destruct kr as [k rl]. apply HresOrder, elem_of_map_to_list in Hkr. by exists k, rl. }
  2: { intros ni Hni. by apply elem_of_nil in Hni. }
  gstep H u2 g7 E7. assert (core g7 = core g6) as C7 by (case_decide; [by apply quiet_pure in E7|by injection E7 as _ <-]).
  gstep H nr g8 E8. apply chooseOf_Ret in E8 as [C8 Hnr]. destruct nr as [name x]. rewrite merge_sort_Permutation in Hnr. apply H6 in Hnr.
  gstep H a g9 E9. injection H as <- <- <-.
  assert (made g g8 (layers calls1) []) as M8 by (apply (made_after g g5); [congruence|done]).
  destruct (result_gives g g8 (layers calls1) r tc bf desc dir (Some x) 0 a g9 Hg M8 Ht ltac:(intros y [= <-]; by right) E9) as (M9 & F9 & R9).
  split_and!; [done|done|]. eapply okCalls_refs; [exact R9|]. assert (gM g8 = gM g5) as -> by (assert (core g8 = core g5) as [= _ ->] by congruence; done). done.
Qed.

(** ** Calls *)

Definition givesArgs (rec : ga) : Prop := ∀ b r t dir, typeAt r = Ret t → gives (rec b t dir) r dir.

Lemma args_give rec fields dir g args calls g' : givesArgs rec → ginv g →
  generateArgs target rec fields dir g = Ret ((args, calls), g') →
  made g g' (layers calls) (concat (results <$> args)) ∧
  Forall2 (λ a f, fits target (mHeap (gM g')) a (fieldType f) (fieldDir f dir)) args fields ∧ Forall (okCall (mHeap (gM g'))) calls.
Proof.
  intros Hrec Hg H. unfold generateArgs in H.
  destruct (gives_list fieldType (λ f, fieldDir f dir) (λ f, let* t := pure (typeAt (fieldType f)) in rec false t (fieldDir f dir))
    fields [] [] g args calls g' Hg) as (new & E & -> & -> & HM & HF & HO); [| |done].
  - intros f _ g1 a c g2 Hg1 H1. gstep H1 t g3 E3. apply pure_Ret in E3 as [Ht ->]. by eapply Hrec.
  - rewrite <-H. apply gfor_ext. intros f [l c] g1. unfold gbind, pure. destruct (typeAt (fieldType f)); done.
Qed.

Lemma makeReturn_result t m : MakeReturnArg (Some t) m = let! '(i, m) := MakeResultArg t DirOut None 0 m in Ret (Some i, m).
Proof. unfold MakeReturnArg, MakeResultArg. by destruct (ref t). Qed.

(** A new call without arguments. *)
Lemma makeCall_gives meta g c g' : ginv g → meta ∈ Syscalls target → onMem (MakeCall target meta []) g = Ret (c, g') →
  made g g' [] (option_list (Ret_ c)) ∧ Meta c = meta ∧
  match sysRet meta, Ret_ c with
  | None, None => True
  | Some typ, Some i => fits target (mHeap (gM g')) (ResultArg i) typ DirOut
  | _, _ => False
  end.
Proof.
  intros Hg Hmeta H. apply onMem_Ret in H as [H Hs]. unfold MakeCall, retType in H. destruct (sysRet meta) as [r|] eqn:Er.
  - destruct (gt_ret _ Htab meta r Hmeta Er) as (tc & bf & desc & Ht). rewrite Ht in H. cbn [rbind] in H.
    rewrite makeReturn_result in H. apply bind_Ret in H as ([ret m] & H & Heq). injection Heq as <- ->. apply bind_Ret in H as ([i m1] & H & Heq). injection Heq as <- ->.
    pose proof Hg as [Hf Hd]. destruct (make_result target Htab (visible (gS g)) [] [] (gM g) (gM g) r tc bf desc DirOut None 0 i (gM g') Hf Hd
      (grown_refl _ _ _ Hf) Ht ltac:(done) H) as [G F]. split; [split; [exact G|by rewrite Hs]|]. split; [done|exact F].
  - injection H as <- Hm. split; [|done]. apply made_quiet; [done|]. unfold core. congruence.
Qed.

(** Without conditions there is nothing to patch. *)
Lemma patch_none rec c g x g' : okCall (mHeap (gM g)) c → patchConditionalFields target order lfuel rec c g = Ret (x, g') →
  x = (c, [], false) ∧ core g' = core g.
Proof.
  intros [Ht Hs _ _] H. unfold patchConditionalFields in H. gstep H rd g1 E1. injection E1 as <- <-. destruct (inPatchConditional _); [by injection H as <- <-|].
  gstep H u g1 E1. injection E1 as _ <-. gstep H y g2 E2. gstep H u2 g3 E3. injection E3 as _ <-. injection H as <- <-.
  destruct lfuel as [|n]; [discriminate E2|]. cbn [patchLoop] in E2. gstep E2 h g3 E3. injection E3 as <- <-.
  gstep E2 rc g3 E3. cbn [gM] in E3. rewrite (Conditions.forEachStaleUnion_none target (mHeap (gM g)) c) in E3; [|apply gt_cond; exact Htab|done|done].
  injection E3 as <- <-. cbn in E2. injection E2 as <- <-. done.
Qed.

Lemma sizedCall_same h c c' : sameCall c c' → sizedCall target h c → sizedCall target h c'.
Proof.
  intros [_ Hret Hargs] Hs a' x' Ha' Hx'. unfold callArgs in *. rewrite elem_of_app in Ha'. destruct Ha' as [Ha'|Ha'].
  - apply (Hs a'); [|done]. unfold callArgs. rewrite elem_of_app. left. by rewrite <-Hret.
  - apply list_elem_of_lookup in Ha' as [j Hj].
    assert ((erase <$> Args c) !! j = Some (erase a')) as He by (rewrite <-Hargs, list_lookup_fmap, Hj; done).
    rewrite list_lookup_fmap in He. apply fmap_Some in He as (a & Ha & Hea).
    assert (erase x' ∈ nodes (erase a)) as Hx by (rewrite <-Hea, nodes_erase; by apply list_elem_of_fmap_2).
    rewrite nodes_erase in Hx. apply list_elem_of_fmap in Hx as (x & Hxx & Hx).
    destruct (Hs a x) as [z Hz]; [unfold callArgs; rewrite elem_of_app; right; by eapply list_elem_of_lookup_2|done|].
    exists z. by rewrite <-size_erase, Hxx, size_erase.
Qed.

Lemma okCall_same h c c' : sameCall c c' → okCall h c → okCall h c'.
Proof.
  intros Hs [Ht Hsz Hd Hm]. split; [|by eapply sizedCall_same| |by rewrite (sc_meta _ _ Hs)].
  2: { intros a' Ha'. apply list_elem_of_lookup in Ha' as [j Hj]. destruct Hs as [_ _ Hargs].
       assert ((erase <$> Args c) !! j = Some (erase a')) as He by (rewrite <-Hargs, list_lookup_fmap, Hj; done).
       rewrite list_lookup_fmap in He. apply fmap_Some in He as (a & Ha & Hea). apply inData_erase. rewrite Hea. apply inData_erase, Hd.
       by eapply list_elem_of_lookup_2. }
  pose proof (stable_same (Stable := typed_stable target) [c] [c'] h ltac:(by constructor)) as H. apply Forall_singleton, H, Forall_singleton, Ht.
Qed.

Lemma programOk_same p p' m : Forall2 sameCall p p' → programOk p m → programOk p' m.
Proof.
  intros Hs [Hst Hc]. split.
  - apply good_strict; [eapply good_same; [exact Hs|by apply strict_good]|].
    assert (layers p' = layers p) as ->; [|apply Hst]. unfold layers. clear -Hs. induction Hs as [|c c' l l' Hc _ IH]; [done|].
    rewrite !fmap_cons, IH. f_equal. apply sameCall_results in Hc as [H _]. exact H.
  - apply Forall_lookup. intros k c' Hk. destruct (Forall2_lookup_r _ _ _ _ _ Hs Hk) as (c & Hck & Hcc). rewrite Forall_lookup in Hc.
    eapply okCall_same; [exact Hcc|by eapply Hc].
Qed.

Lemma withSizes_same vs c : sameCall c (Size.withSizes vs c).
Proof.
  split; [done|done|]. cbn [Size.withSizes Args]. rewrite <-list_fmap_compose. apply list_fmap_ext. intros _ a _. apply ArgTree.erase_setVals.
Qed.

Lemma call_gives rec : givesArgs rec → givesCalls (generateParticularCall target order lfuel rec).
Proof.
  intros Hrec meta g calls g' Hg Hmeta H. unfold generateParticularCall in H.
  destruct (Disabled (Attrs meta)); [by apply pure_Ret in H as [? _]|]. destruct (NoGenerate (Attrs meta)); [by apply pure_Ret in H as [? _]|].
  gstep H c g1 E1. destruct (makeCall_gives meta g c g1 Hg Hmeta E1) as (M1 & Hm & Hret). pose proof (made_inv _ _ _ _ Hg M1) as Hg1.
  gstep H ac g2 E2. destruct ac as [args calls1]. destruct (args_give rec _ _ _ _ _ _ Hrec Hg1 E2) as (M2 & F2 & O2).
  pose proof (made_trans _ _ _ _ _ _ _ Hg M1 M2) as M. cbn [app] in M. set (c1 := MkCall (Meta c) args (Ret_ c) (Props c) (Comment c)) in *.
  pose proof (made_refs _ _ _ _ M2) as R2.
  assert (okCall (mHeap (gM g2)) c1) as Oc.
  { split.
    - split; cbn [Meta Args Ret_ c1]; rewrite Hm.
      + apply Forall2_same_length_lookup. split; [by eapply Forall2_length|]. intros k a f Ha Hf.
        destruct (Forall2_lookup_lr _ _ _ _ _ _ F2 Ha Hf) as [Ht _ _ _]. unfold fieldDir in Ht.
        by rewrite (gt_args _ Htab meta f Hmeta (list_elem_of_lookup_2 _ _ _ Hf)) in Ht.
      + destruct (sysRet meta), (Ret_ c); try done. eapply typed_refs; [exact R2|apply Hret].
    - intros a x Ha Hx. unfold callArgs in Ha. cbn [Args Ret_ c1] in Ha. apply elem_of_app in Ha as [Ha|Ha].
      + destruct (sysRet meta), (Ret_ c) as [i|]; try done; try by apply elem_of_nil in Ha. apply list_elem_of_singleton in Ha as ->.
        destruct Hret as [_ Hs _ _]. exact (sizedArg_refs _ _ _ _ R2 Hs x Hx).
      + apply list_elem_of_lookup in Ha as [k Hk]. destruct (Forall2_lookup_l _ _ _ _ _ F2 Hk) as (f & _ & [_ Hs _ _]). exact (Hs x Hx).
    - intros a Ha. cbn [Args c1] in Ha. apply list_elem_of_lookup in Ha as [k Hk]. by destruct (Forall2_lookup_l _ _ _ _ _ F2 Hk) as (f & _ & [_ _ Hd _]).
    - cbn [Meta c1]. by rewrite Hm. }
  gstep H x g3 E3. destruct (patch_none rec c1 g2 x g3 Oc E3) as [-> C3]. gstep H h g4 E4. injection E4 as <- <-.
  gstep H vs g4 E4. apply pure_Ret in E4 as [_ ->]. injection H as <- <-. cbn [app].
  assert (gM g3 = gM g2) as Hm3 by (by injection C3).
  destruct (sameCall_results c1 (Size.withSizes vs c1) (withSizes_same vs c1)) as [Hord _]. split.
  - apply (made_after g g2); [done|]. rewrite layers_app. unfold layers at 2. cbn [fmap list_fmap]. rewrite Hord.
    destruct M as [G R]. split; [|done]. by apply grown_close.
  - rewrite Hm3. apply Forall_app. split; [done|]. constructor; [|constructor]. eapply okCall_same; [apply withSizes_same|exact Oc].
Qed.

(** ** Arguments *)

(** A drawn value in a constant, and constructors without results. *)
Lemma alone_gives (m : gst → res (Arg * gst)) g0 g a calls g' r dir : core g0 = core g →
  (let* a := m in gret (a, [])) g0 = Ret ((a, calls), g') →
  (m g0 = Ret (a, g') → made g0 g' [] (results a) ∧ fits target (mHeap (gM g')) a r dir) →
  made g g' (layers calls) (results a) ∧ fits target (mHeap (gM g')) a r dir ∧ Forall (okCall (mHeap (gM g'))) calls.
Proof.
  intros Hc H Hm. gstep H x g1 E. injection H as <- <- <-. destruct (Hm E) as [M F]. split_and!; [by eapply made_before|done|constructor].
Qed.

Lemma buffer_gives r tc desc dir g a g' : ginv g → typeAt r = Ret (BufferType tc desc) →
  generateBuffer target Arch SpecialFileLenghts ifuzzGenerate lfuel (BufferType tc desc) desc dir g = Ret (a, g') →
  made g g' [] (results a) ∧ fits target (mHeap (gM g')) a r dir.
Proof.
  intros Hg Ht H. pose proof (gt_buffer _ Htab _ _ _ Ht) as Hfix. unfold fixedBuffer in Hfix.
  assert (∀ g1 sz, core g1 = core g → (IsVarlen tc = false → sz = TypeSize tc) → onMem (MakeOutDataArg (BufferType tc desc) dir sz) g1 = Ret (a, g') →
    made g g' [] (results a) ∧ fits target (mHeap (gM g')) a r dir) as Hout.
  { intros g1 sz Hc Hs H1. destruct (leaf_gives _ r dir g1 a g' (ginv_quiet _ _ Hc Hg) H1) as [M F]; [|split; [by eapply made_before|done]].
    intros m a0 m'. by eapply make_outdata. }
  assert (∀ g1 d, core g1 = core g → (IsVarlen tc = false → Z.of_nat (length d) = TypeSize tc) → onMem (MakeDataArg (BufferType tc desc) dir d) g1 = Ret (a, g') →
    made g g' [] (results a) ∧ fits target (mHeap (gM g')) a r dir) as Hdata.
  { intros g1 d Hc Hs H1. destruct (leaf_gives _ r dir g1 a g' (ginv_quiet _ _ Hc Hg) H1) as [M F]; [|split; [by eapply made_before|done]].
    intros m a0 m'. by eapply make_data. }
  unfold generateBuffer in H. gstep H s g1 E. injection E as <- <-.
  assert (∀ g1 d g2, draw (randString lfuel (Analysis.strings (gS g)) desc) g1 = Ret (d, g2) → bufKind desc = BufferString ∨ bufKind desc = BufferGlob →
    IsVarlen tc = false → Z.of_nat (length d) = TypeSize tc) as Hstr.
  { intros g1 d g2 E Hk Hv. destruct (Hfix Hv) as (_ & Hvals & Hne). apply draw_Ret in E as (_ & r0 & r1 & E). apply randString_values in E.
    - rewrite Forall_forall in Hvals. by apply Hvals.
    - by destruct Hk as [Hk|Hk]; rewrite Hk in Hne. }
  assert (∀ b, bufKind desc = (if (b : bool) then BufferBlobRand else BufferBlobRange) →
    (let* sz := draw randBufLen in
     let* sz := if decide (bufKind desc = BufferBlobRange) then draw (randRange (bufRangeBegin desc) (bufRangeEnd desc)) else gret sz in
     if decide (dir = DirOut) then onMem (MakeOutDataArg (BufferType tc desc) dir sz)
     else let* data := draw (randBytes (Z.to_nat sz)) in onMem (MakeDataArg (BufferType tc desc) dir data)) g = Ret (a, g') →
    made g g' [] (results a) ∧ fits target (mHeap (gM g')) a r dir) as Hblob.
  { clear H. intros b Hk H. gstep H s0 g1 E1. apply quiet_draw in E1. gstep H sz g2 E2.
    assert (core g2 = core g ∧ (IsVarlen tc = false → sz = TypeSize tc ∧ 0 ≤ sz)) as [C2 Hsz].
    { destruct (decide (bufKind desc = BufferBlobRange)) as [Hr|Hr]; [apply draw_Ret in E2 as (C2 & r0 & r1 & E2); split; [congruence|]|injection E2 as <- <-; split; [done|]]; intros Hv;
        destruct (Hfix Hv) as (H0 & _ & Hkind); [rewrite Hr in Hkind; destruct Hkind as (Hb & He & Hlt)|by destruct b; rewrite Hk in *].
      rewrite Hb, He in E2. apply randRange_fixed in E2; [by subst|lia]. }
    case_decide; [apply (Hout g2 sz C2); [naive_solver|done]|]. gstep H d g3 E3. apply draw_Ret in E3 as (C3 & r0 & r1 & E3).
    apply randBytes_length in E3. apply (Hdata g3 d); [congruence| |done]. intros Hv. destruct (Hsz Hv) as [<- ?]. lia. }
  revert H. destruct (bufKind desc) eqn:Hk; intros H.
  - by apply (Hblob true).
  - by apply (Hblob false).
  - gstep H d g1 E1. pose proof (quiet_draw _ _ _ _ E1) as C1. pose proof (Hstr _ _ _ E1 ltac:(by left)) as Hd.
    case_decide; [by apply (Hout g1 (Z.of_nat (length d)) C1)|by apply (Hdata g1 d C1)].
  - case_decide.
    + gstep H sz g1 E1. unfold Varlen, Types.Size in E1. cbn [common] in E1.
      assert (core g1 = core g ∧ (IsVarlen tc = false → sz = TypeSize tc)) as [C1 Hsz]; [|by apply (Hout g1 sz)].
      destruct (IsVarlen tc) eqn:Hv; cbn [negb] in E1.
      * split; [|done]. gstep E1 b g2 E2. apply quiet_draw in E2. destruct b; apply quiet_draw in E1; congruence.
      * apply pure_Ret in E1 as [[= <-] ->]. done.
    + gstep H d g1 E1. apply draw_Ret in E1 as (C1 & r0 & r1 & E1). apply (Hdata g1 d C1); [|done]. intros Hv.
      destruct (Hfix Hv) as (Hz & _). by eapply filename_length.
  - assert (IsVarlen tc = false → False) as Hno by (intros Hv; by destruct (Hfix Hv) as (_ & _ & [])).
    case_decide; gstep H d g1 E1; apply quiet_draw in E1; [apply (Hout g1 d E1)|apply (Hdata g1 d E1)]; try done; intros Hv; by destruct (Hno Hv).
  - gstep H d g1 E1. pose proof (quiet_draw _ _ _ _ E1) as C1. pose proof (Hstr _ _ _ E1 ltac:(by right)) as Hd. by apply (Hdata g1 d C1).
  - by apply pure_Ret in H as [? _].
Qed.

Lemma centric_none t dir g o calls g' : resourceCentric target [] t dir g = Ret ((o, calls), g') → o = None ∧ calls = [] ∧ core g' = core g.
Proof.
  unfold resourceCentric. intros H. gstep H perm g1 E1. apply draw_Ret in E1 as (C1 & r & r' & E1). injection E1 as <- _.
  gstep H fnd g2 E2. injection E2 as <- <-. by injection H as <- <- <-.
Qed.

(** Parts of [generateResource] that set and reset the flag. *)
Lemma flag_quiet (b : bool) (v : bool) g x g' : (if b then setInResource v else gret tt) g = Ret (x, g') → core g' = core g.
Proof. destruct b; [by intros [= _ <-]|by intros [= _ <-]]. Qed.

Lemma resource_gives rec r tc bf desc dir : givesArgs rec → typeAt r = Ret (ResourceType tc bf desc) →
  gives (generateResource target resourceCtors ct [] order resOrder lfuel rec (ResourceType tc bf desc) desc dir) r dir.
Proof.
  intros Hrec Ht g a calls g' Hg H. unfold generateResource in H. gstep H rd g0 E. injection E as <- <-.
  set (can := negb (inGenerateResource (gR g))) in *. gstep H u g1 E1. apply flag_quiet in E1.
  gstep H exi g2 E2. assert (core g2 = core g) as C2 by (destruct can; apply quiet_draw in E2; congruence). assert (ginv g2) as Hg2 by (by eapply ginv_quiet).
  gstep H arg g3 E3. gstep H ac g4 E4. destruct ac as [arg2 calls2].
  assert (match arg2 with
    | Some a => made g g4 (layers calls2) (results a) ∧ fits target (mHeap (gM g4)) a r dir ∧ Forall (okCall (mHeap (gM g4))) calls2
    | None => calls2 = [] ∧ core g4 = core g end) as H4.
  { assert (match arg with Some a => made g2 g3 [] (results a) ∧ fits target (mHeap (gM g3)) a r dir | None => core g3 = core g2 end) as H3.
    { destruct exi; [by eapply existing_gives|by injection E3 as <- <-]. }
    destruct arg as [a0|]; [injection E4 as <- <- <-; destruct H3 as [M F]; split_and!; [by eapply made_before|done|constructor]|].
    assert (core g3 = core g) as C3 by congruence. destruct can; [|injection E4 as <- <- <-; done].
    gstep E4 ce g5 E5. apply quiet_draw in E5. gstep E4 ac g6 E6. destruct ac as [a1 c1].
    assert (a1 = None ∧ c1 = [] ∧ core g6 = core g) as (-> & -> & C6).
    { destruct ce; [|by injection E6 as <- <- <-; split_and!; try done; congruence]. apply centric_none in E6 as (-> & -> & ?). split_and!; try done. congruence. }
    gstep E4 cr g7 E7. apply quiet_draw in E7. destruct cr; [|injection E4 as <- <- <-; split; [done|congruence]].
    assert (core g7 = core g) as C7 by congruence.
    pose proof (create_gives _ r tc bf desc dir (call_gives rec Hrec) Ht g7 _ _ _ (ginv_quiet _ _ C7 Hg) E4) as Hc.
    destruct arg2 as [a2|]; [destruct Hc as (M & F & O); split_and!; [by eapply made_before|done|done]|]. destruct Hc as [-> ?]. split; [done|congruence]. }
  gstep H x g5 E5. gstep H u2 g6 E6. injection H as -> <-. apply flag_quiet in E6.
  assert (made g g5 (layers calls) (results a) ∧ fits target (mHeap (gM g5)) a r dir ∧ Forall (okCall (mHeap (gM g5))) calls) as (M & F & O).
  { destruct arg2 as [a2|]; [by injection E5 as <- <- <-|]. destruct H4 as [-> C4]. gstep E5 v g7 E7. apply quiet_choose in E7.
    gstep E5 a2 g8 E8. injection E5 as <- <- <-.
    destruct (result_gives g g7 [] r tc bf desc dir None v a2 g8 Hg (made_quiet g g7 Hg ltac:(congruence)) Ht ltac:(done) E8) as (M & F & _).
    split_and!; [done|done|constructor]. }
  assert (gM g6 = gM g5) as -> by (by injection E6). split_and!; [by eapply made_after|done|done].
Qed.

Lemma allocAddr_gives g g1 NE r tc elem ed dir size data a g2 : made g g1 NE (results data) → typeAt r = Ret (PtrType tc elem ed) →
  fits target (mHeap (gM g1)) data elem ed → allocAddr target (PtrType tc elem ed) dir size data g1 = Ret (a, g2) →
  made g g2 NE (results a) ∧ fits target (mHeap (gM g2)) a r dir ∧ mHeap (gM g2) = mHeap (gM g1).
Proof.
  intros M Ht F H. unfold allocAddr in H. gstep H h g3 E. injection E as <- <-. gstep H td g3 E. apply pure_Ret in E as [_ ->].
  gstep H addr g4 E. unfold onState in E. apply bind_Ret in E as ([ad s] & Es & [= <- <-]). apply bind_Ret in Es as ([ad' ma] & _ & [= <- <-]).
  apply onMem_Ret in H as [H Hs]. cbn [gM gS] in H, Hs. pose proof (make_pointer target Htab _ _ _ _ _ _ _ _ _ _ Ht F H) as W.
  split; [|split; [apply W|apply W]]. rewrite (wr_results _ _ _ _ _ _ _ W). destruct M as [G R]. split; [by eapply grown_wraps|by rewrite Hs].
Qed.

Lemma allocVMA_gives g r tc rb re dir n a g' : ginv g → typeAt r = Ret (VmaType tc rb re) →
  allocVMA target (VmaType tc rb re) dir n g = Ret (a, g') → made g g' [] (results a) ∧ fits target (mHeap (gM g')) a r dir.
Proof.
  intros Hg Ht H. unfold allocVMA in H. gstep H s g1 E. injection E as <- <-. gstep H pv g1 E. apply quiet_draw in E. destruct pv as [page va].
  gstep H u g2 E2. injection E2 as _ <-. apply onMem_Ret in H as [H Hs]. cbn [gM gS] in H, Hs. injection E as Es Em. rewrite Em in H.
  pose proof (make_vma target Htab _ _ _ _ _ _ _ _ _ _ Ht H) as W. split; [|apply W]. rewrite (wr_results _ _ _ _ _ _ _ W).
  destruct Hg as [Hf Hd]. split; [eapply grown_wraps; [by apply grown_refl|exact W]|by rewrite Hs, Es].
Qed.

(** What a part with its calls becomes in a constructor. *)
Lemma wrap_gives g g1 g2 calls NA a r dir : made g g1 (layers calls) NA → Forall (okCall (mHeap (gM g1))) calls →
  wraps target (gM g1) (gM g2) a r dir NA → gS g2 = gS g1 →
  made g g2 (layers calls) (results a) ∧ fits target (mHeap (gM g2)) a r dir ∧ Forall (okCall (mHeap (gM g2))) calls.
Proof.
  intros M O W Hs. split_and!; [rewrite (wr_results _ _ _ _ _ _ _ W); by eapply made_wraps|apply W|]. by rewrite (wr_heap _ _ _ _ _ _ _ W).
Qed.

Notation generateType := (generateType target Arch SpecialFileLenghts resourceCtors ifuzzGenerate ct [] order resOrder dfuel lfuel).
Notation generateArgImpl := (generateArgImpl target Arch SpecialFileLenghts resourceCtors SpecialTypes ifuzzGenerate ct [] order resOrder dfuel lfuel).

(** A constant behind some draws. *)
Lemma const_gives g0 g r t dir v a calls g' : ginv g → core g0 = core g → typeAt r = Ret t → isConstType t = true →
  (let* a := onMem (MakeConstArg t dir v) in gret (a, [])) g0 = Ret ((a, calls), g') →
  made g g' (layers calls) (results a) ∧ fits target (mHeap (gM g')) a r dir ∧ Forall (okCall (mHeap (gM g'))) calls.
Proof.
  intros Hg Hc Ht Hk H. eapply alone_gives; [exact Hc|exact H|]. intros H1. eapply leaf_gives; [by eapply ginv_quiet|exact H1|].
  intros m a0 m'. by eapply make_const.
Qed.

Lemma array_gives rec r tc elem kind rb re dir : givesArgs rec → typeAt r = Ret (ArrayType tc elem kind rb re) →
  gives (generateType rec (ArrayType tc elem kind rb re) dir) r dir.
Proof.
  intros Hrec Ht g a calls g' Hg H. unfold Generate.generateType in H. cbv beta zeta in H. gstep H count g1 E1.
  assert (core g1 = core g ∧ (kind = ArrayRangeLen → rb = re → count = rb ∧ 0 < count)) as [C1 Hcount].
  { destruct kind; apply draw_Ret in E1 as (C1 & r0 & r1 & E1); (split; [done|]); [done|]. intros _ <-.
    pose proof (gt_array _ Htab _ _ _ _ Ht) as Hb. apply randRange_fixed in E1; [|lia]. lia. }
  gstep H rd g2 E2. injection E2 as <- <-. set (n := if _ && _ then 1 else count) in *.
  assert (kind = ArrayRangeLen → rb = re → n = rb ∧ 0 < n) as Hn.
  { intros Hk Hr. destruct (Hcount Hk Hr) as [-> Hpos]. unfold n. rewrite (bool_decide_eq_false_2 (rb = 0)), andb_false_r by lia. done. }
  gstep H ic g2 E2. destruct ic as [inner calls1]. pose proof (ginv_quiet _ _ C1 Hg) as Hg1.
  destruct (gives_list (λ _ : nat, elem) (λ _, dir) (λ _, let* te := pure (typeAt elem) in rec false te dir) (seq 0 (Z.to_nat n)) [] [] g1 inner calls1 g2 Hg1)
    as (new & E & -> & -> & M & F & O).
  { intros x _ g3 a3 c3 g4 Hg3 H3. gstep H3 te g5 E5. apply pure_Ret in E5 as [Hte ->]. by eapply Hrec. }
  { rewrite <-E2. apply gfor_ext. intros x [l c] g3. unfold gbind, pure. destruct (typeAt elem); done. }
  gstep H x g3 E3. injection H as <- <- <-. apply onMem_Ret in E3 as [E3 Hs]. cbn [app] in *. apply (made_before g) in M; [|done].
  eapply wrap_gives; [exact M|exact O| |exact Hs]. eapply make_array; [exact Htab|exact Ht| | |exact E3].
  - apply Forall_lookup. intros k y Hk. by destruct (Forall2_lookup_l _ _ _ _ _ F Hk) as (? & _ & Hy).
  - intros Hk Hr. destruct (Hn Hk Hr) as [<- ?]. apply Forall2_length in F. rewrite length_seq in F. lia.
Qed.

Lemma type_gives rec : givesArgs rec → ∀ r t dir, typeAt r = Ret t → gives (generateType rec t dir) r dir.
Proof.
  intros Hrec r t dir Ht. destruct t; try (by apply array_gives); intros g a calls g' Hg H; unfold Generate.generateType in H; cbv beta zeta in H;
    try (by eapply const_gives).
  - by eapply resource_gives.
  - gstep H bits g1 E1. apply quiet_pure in E1. gstep H v g2 E2. apply quiet_draw in E2. gstep H v2 g3 E3.
    assert (core g3 = core g2) as C3 by (destruct kind; [by injection E3 as _ <-|by apply quiet_draw in E3]).
    refine (const_gives g3 g r _ dir v2 a calls g' Hg _ Ht eq_refl H). congruence.
  - gstep H v g1 E1. apply quiet_draw in E1. by eapply const_gives.
  - gstep H v g1 E1. apply quiet_draw in E1. by eapply const_gives.
  - gstep H n g1 E1. apply quiet_draw in E1. gstep H n2 g2 E2.
    assert (core g2 = core g) as C2.
    { case_decide; [|by injection E2 as _ <-; congruence]. gstep E2 k g3 E3. apply quiet_draw in E3. injection E2 as _ <-. congruence. }
    eapply alone_gives; [exact C2|exact H|]. intros H1. eapply allocVMA_gives; [by eapply ginv_quiet|exact Ht|exact H1].
  - eapply alone_gives; [reflexivity|exact H|]. intros H1. by eapply buffer_gives.
  - gstep H rd g0 E. injection E as <- <-. gstep H sp g1 E1.
    assert (core g1 = core g) as C1 by (destruct (negb _); [by apply quiet_draw in E1|by injection E1 as _ <-]). destruct sp.
    + gstep H idx g2 E2. apply quiet_draw in E2. assert (core g2 = core g) as C2 by congruence. eapply alone_gives; [exact C2|exact H|]. intros H1.
      eapply leaf_gives; [by apply (ginv_quiet g)|exact H1|]. intros m a0 m'. eapply make_special; [exact Htab|exact Ht|]. right. eauto.
    + gstep H te g2 E2. apply pure_Ret in E2 as [Hte ->]. gstep H ic g2 E2. destruct ic as [inner calls1].
      destruct (Hrec false elem te elemDir Hte g1 inner calls1 g2 (ginv_quiet _ _ C1 Hg) E2) as (M & F & O). apply (made_before g) in M; [|done].
      gstep H h g3 E3. injection E3 as <- <-. gstep H sz g3 E3. apply pure_Ret in E3 as [_ ->]. gstep H p g3 E3. injection H as <- <- <-.
      destruct (allocAddr_gives g g2 _ r tc elem elemDir dir sz inner p g3 M Ht F E3) as (M3 & F3 & Hh). split_and!; [done|done|by rewrite Hh].
  - gstep H ac g1 E1. destruct ac as [args calls1]. destruct (args_give rec _ _ _ _ _ _ Hrec Hg E1) as (M & F & O).
    gstep H x g2 E2. injection H as <- <- <-. apply onMem_Ret in E2 as [E2 Hs]. eapply wrap_gives; [exact M|exact O| |exact Hs].
    by eapply make_struct.
  - gstep H cond g1 E1. apply pure_Ret in E1 as [Hcond ->]. destruct cond.
    + eapply alone_gives; [reflexivity|exact H|]. intros H1. by eapply default_gives.
    + gstep H idx g1 E1. apply quiet_draw in E1. gstep H f g2 E2. apply pure_Ret in E2 as [Hf ->]. gstep H tf g2 E2. apply pure_Ret in E2 as [Htf ->].
      gstep H oc g2 E2. destruct oc as [opt calls1].
      destruct (Hrec false _ tf _ Htf g1 opt calls1 g2 (ginv_quiet _ _ E1 Hg) E2) as (M & F & O). apply (made_before g) in M; [|done].
      gstep H x g3 E3. injection H as <- <- <-. apply onMem_Ret in E3 as [E3 Hs]. eapply wrap_gives; [exact M|exact O| |exact Hs]. by eapply make_union.
Qed.

(** What the generators of special types promise. *)
Definition specialGives : Prop := ∀ name special, SpecialTypes name = Some special →
  ∀ rec, givesArgs rec → ∀ r t dir, typeAt r = Ret t → Name t = name → gives (special rec t dir) r dir.

Lemma impl_gives fuel : specialGives → givesArgs (generateArgImpl fuel).
Proof.
  intros Hsp. induction fuel as [|fuel IH]; intros b r t dir Ht g a calls g' Hg H; [discriminate H|]. cbn [Generate.generateArgImpl] in H.
  destruct (bool_decide (dir = DirOut) && isOutScalar t).
  { eapply alone_gives; [reflexivity|exact H|]. intros H1. by eapply default_gives. }
  gstep H opt g1 E1. assert (core g1 = core g) as C1 by (destruct (Optional t); [by apply quiet_draw in E1|by injection E1 as _ <-]).
  pose proof (ginv_quiet _ _ C1 Hg) as Hg1. destruct opt.
  { destruct t; try (eapply alone_gives; [exact C1|exact H|]; intros H1; by eapply default_gives).
    gstep H v g2 E2. apply quiet_choose in E2. gstep H x g3 E3. injection H as <- <- <-.
    destruct (result_gives g g2 [] r tc argFormat desc dir None v x g3 Hg (made_quiet g g2 Hg ltac:(congruence)) Ht ltac:(done) E3) as (M & F & _).
    split_and!; [done|done|constructor]. }
  assert (∀ g a calls g', ginv g → generateInner target Arch SpecialFileLenghts resourceCtors SpecialTypes ifuzzGenerate ct [] order resOrder dfuel lfuel
    (generateArgImpl fuel) b t dir g = Ret ((a, calls), g') →
    made g g' (layers calls) (results a) ∧ fits target (mHeap (gM g')) a r dir ∧ Forall (okCall (mHeap (gM g'))) calls) as Hin.
  { clear -IH Hsp Ht Htab HresOrder. intros g a calls g' Hg H. unfold generateInner in H.
    match type of H with (match ?e with _ => _ end) _ = _ => destruct e as [special|] eqn:E end; [|by eapply type_gives].
    destruct (negb b && _); [|discriminate]. destruct t; try discriminate; by eapply (Hsp _ special E). }
  gstep H depth g2 E2. apply pure_Ret in E2 as [Hdepth ->]. destruct depth as [name|].
  2: { destruct (Hin _ _ _ _ Hg1 H) as (M & F & O). split_and!; [by eapply made_before|done|done]. }
  gstep H u g2 E2. injection E2 as _ <-. gstep H rd g3 E3. injection E3 as <- <-. gstep H x g3 E3. gstep H u2 g4 E4. injection E4 as _ <-.
  injection H as -> <-. cbn [gM gS]. set (gd := MkG _ _ _) in E3. assert (core gd = core g) as Cd by (by rewrite <-C1).
  assert (made gd g3 (layers calls) (results a) ∧ fits target (mHeap (gM g3)) a r dir ∧ Forall (okCall (mHeap (gM g3))) calls) as (M & F & O).
  { pose proof (ginv_quiet _ _ Cd Hg) as Hgd. case_decide; [|by apply Hin].
    eapply alone_gives; [reflexivity|exact E3|]. intros H1. eapply leaf_gives; [exact Hgd|exact H1|]. intros m a0 m' Hm.
    unfold depthName in Hdepth. destruct t; try discriminate. eapply make_special; [exact Htab|exact Ht| |exact Hm]. right. eauto. }
  split_and!; [|done|done]. destruct (made_before g gd g3 _ _ Cd M) as [G R]. by split.
Qed.

(** ** Programs *)

Notation generateCall := (generateCall target Arch SpecialFileLenghts resourceCtors SpecialTypes ifuzzGenerate ct [] order resOrder dfuel lfuel).

Lemma generateCall_gives fuel p n g calls g' : specialGives → ginv g → generateCall fuel p n g = Ret (calls, g') →
  made g g' (layers calls) [] ∧ Forall (okCall (mHeap (gM g'))) calls.
Proof.
  intros Hsp Hg H. unfold Generate.generateCall in H. gstep H bias g1 E1. gstep H idx g2 E2. apply quiet_draw in E2. gstep H meta g3 E3.
  apply pure_Ret in E3 as [Hmeta ->]. apply index_elem in Hmeta.
  assert (core g1 = core g) as C1.
  { case_decide; [|by injection E1 as _ <-]. gstep E1 k g4 E4. apply quiet_draw in E4. gstep E1 c g5 E5. apply pure_Ret in E5 as [_ ->]. by injection E1 as _ <-. }
  assert (core g2 = core g) as C2 by congruence.
  destruct (call_gives _ (impl_gives fuel Hsp) meta g2 calls g' (ginv_quiet _ _ C2 Hg) Hmeta H) as [M O]. split; [by eapply made_before|done].
Qed.

(** A program under construction; [m0] is the memory at the beginning. *)
Record building (m0 : mem) (p : list Call) (g : gst) : Prop := {
  bl_ok : programOk p (gM g);
  bl_visible : ∀ i, visible (gS g) i → i ∈ progResults p;
  bl_frame : ∀ i o, mHeap m0 !! i = Some o → mHeap (gM g) !! i = Some o;
  bl_new : ∀ i, i ∈ progResults p → mHeap m0 !! i = None
}.

Lemma building_inv m0 p g : building m0 p g → ginv g.
Proof.
  intros [Hok Hv _ _]. destruct (programOk_good _ _ Hok) as [Hg _]. split; [apply Hg|]. intros r Hr.
  destruct (good_in target p (gM g) r Hg (Hv r Hr)) as (o & ? & _). eauto.
Qed.

Lemma append_spec calls : ∀ p g p' g', Forall (sizedCall target (mHeap (gM g))) calls → appendCalls target calls p g = Ret (p', g') →
  p' = p ++ calls ∧ gM g' = gM g ∧ ∀ i, visible (gS g') i → visible (gS g) i ∨ i ∈ progResults calls.
Proof.
  unfold appendCalls. induction calls as [|c calls IH]; intros p g p' g' Hs H; [injection H as <- <-; rewrite app_nil_r; tauto|].
  apply Forall_cons in Hs as [Hc Hs]. cbn [gfor] in H. gstep H p1 g1 E1. gstep E1 h g2 E2. injection E2 as <- <-. gstep E1 u g2 E2. injection E1 as <- <-.
  unfold onState in E2. apply bind_Ret in E2 as ([u' s] & E2 & [= _ <-]). apply bind_Ret in E2 as (s' & E2 & [= _ <-]).
  destruct (IH (p ++ [c]) (MkG (gR g) s' (gM g)) p' g' Hs H) as (-> & Hm & Hv). rewrite <-app_assoc. split_and!; [done|done|].
  intros i Hi. unfold progResults. rewrite fmap_cons. cbn [concat]. rewrite elem_of_app. destruct (Hv i Hi) as [Hi'|Hi']; [|by right; right].
  destruct (analyze_visible _ _ _ _ _ _ Hc E2 Hi'); tauto.
Qed.

Lemma loop_spec m0 rounds fuel ncalls : specialGives → ∀ p g p' g', building m0 p g →
  generateLoop target Arch SpecialFileLenghts resourceCtors SpecialTypes ifuzzGenerate ct [] order resOrder dfuel lfuel rounds fuel ncalls p g = Ret (p', g') →
  building m0 p' g' ∧ (ncalls ≤ length p')%nat.
Proof.
  intros Hsp. induction rounds as [|rounds IH]; intros p g p' g' Hb H; cbn [generateLoop] in H; case_decide as Hlen; try (injection H as <- <-; done).
  { by apply pure_Ret in H as [? _]. }
  gstep H calls g1 E1. pose proof (building_inv _ _ _ Hb) as Hg. destruct (generateCall_gives _ _ _ _ _ _ Hsp Hg E1) as [[G R] O].
  gstep H p1 g2 E2. apply append_spec in E2 as (-> & Hm & Hv). 2: { eapply Forall_impl; [exact O|]. intros c. apply ok_sized. }
  apply (IH (p ++ calls) g2); [|exact H]. pose proof Hb as [Bo Bv Bf Bn]. pose proof (programOk_good _ _ Bo) as [Bg _]. pose proof (grown_refs _ _ _ _ _ _ G) as Hr.
  assert (progResults (p ++ calls) = progResults p ++ progResults calls) as Hpr by (unfold progResults; by rewrite fmap_app, concat_app).
  split; rewrite ?Hm.
  - destruct Bo as [Bs Bc]. split; [|apply Forall_app; split; [by eapply okCalls_refs|done]]. rewrite <-(app_nil_r calls).
    eapply grown_strict; [by rewrite app_nil_r|exact Bv|exact G|]. eapply Forall_impl; [exact O|]. intros c. apply ok_sized.
  - intros i Hi. rewrite Hpr, elem_of_app. destruct (Hv i Hi) as [Hi'|Hi']; [left|by right]. apply Bv. by rewrite <-(visible_eq _ _ R).
  - intros i o Hi. eapply grown_frame; [exact G|apply Bg| |by apply Bf]. intros Hvi. apply Bv, Bn in Hvi. congruence.
  - intros i Hi. rewrite Hpr, elem_of_app in Hi. destruct Hi as [Hi|Hi]; [by apply Bn|]. destruct (mHeap m0 !! i) as [o|] eqn:E; [|done].
    apply Bf in E. apply (wp_fresh _ _ _ (good_wf _ _ _ Bg)) in E. assert (i ∈ concat (layers calls) ++ []) as Hi' by (by rewrite app_nil_r, in_layers).
    apply (gr_new _ _ _ _ _ _ G) in Hi'. lia.
Qed.

(** Removing a call; the state of the analysis no longer matters. *)
Record finished (m0 : mem) (p : list Call) (m : mem) : Prop := {
  fin_ok : programOk p m;
  fin_frame : ∀ i o, mHeap m0 !! i = Some o → mHeap m !! i = Some o;
  fin_new : ∀ i, i ∈ progResults p → mHeap m0 !! i = None
}.

Lemma drop_spec m0 ncalls n : ∀ p g p' g', finished m0 p (gM g) → length p = (ncalls + n)%nat →
  dropExcess target n ncalls p g = Ret (p', g') → finished m0 p' (gM g') ∧ length p' = ncalls.
Proof.
  induction n as [|n IH]; intros p g p' g' Hp Hlen H; cbn [dropExcess] in H; [injection H as <- <-; split; [done|lia]|].
  gstep H p1 g1 E1. apply onMem_Ret in E1 as [E1 _]. destruct (lookup_lt_is_Some_2 p (ncalls - 1)) as [c Hc]; [lia|].
  pose proof Hp as [Fo Ff Fn]. destruct (programOk_remove _ _ _ _ _ _ Fo Hc E1) as (-> & Fo' & Hframe & Hrefs).
  eapply (IH (delete (ncalls - 1)%nat p) g1); [|rewrite length_delete by eauto; lia|exact H]. split; [done| |].
  - intros i o Hi. apply Hframe; [|by apply Ff]. intros Hin. apply Fn in Hin. congruence.
  - intros i Hi. apply Fn. by eapply delete_results.
Qed.

(** The empty program at the beginning. *)
Lemma building_start r s m : fresh m → Analysis.newState target = Ret s → building m [] (MkG (newRand r) s m).
Proof.
  intros Hf H. apply bind_Ret in H as (ma & _ & [= <-]). split; cbn [gM gS Analysis.resources].
  - split; [|constructor]. split; [|constructor]. split; [apply NoDup_nil_2| | |done|done].
    + split; clear; set_solver.
    + intros i Hi. clear -Hi. set_solver.
  - intros i (k & l & Hk & _). cbn [Analysis.resources] in Hk. by rewrite lookup_empty in Hk.
  - done.
  - intros i Hi. by apply elem_of_nil in Hi.
Qed.

End generators.


End target.

(** ** An example *)

(** The example target, whose calls have no [ANY] resources. *)
Definition exTarget : Target :=
  MkTarget ExampleTarget.types [ExampleTarget.sysOpen; ExampleTarget.sysWrite] 8 4096 64 536870912
    [0; 2 ^ 64 - 1; 11068046444225730969] 100 101 102 103 104 [] "test" [MkResourceDesc "fd" ["fd"] [2 ^ 64 - 1]] [].
Definition exChoice : Prio.ChoiceTable := Prio.MkChoice [Some [10; 20]; Some [10; 20]] [0; 1] ∅.
Definition exCtors (kind : string) : list Resources.ResourceCtor :=
  if decide (kind = "fd") then [Resources.MkCtor 0 true; Resources.MkCtor 0 false] else [].
Definition exRun : res (list Call * mem) :=
  Generate.Generate exTarget "amd64" [256] exCtors (λ _, None) (λ _ r, ([144], r)) exChoice [] id id 5 10 MinimizeCalls.noNeutralize 6 2
    [1; 15; 9; 5; 3; 3; 1; 3; 3; 3; 3; 3; 7; 5; 5; 3; 3; 3; 3; 3; 3] (Mem ∅ 1).

(** Every type of the table. *)
Ltac each_type Ht := apply ExampleTarget.types_inv in Ht; rewrite !elem_of_cons, elem_of_nil in Ht; destruct_or!; try done; apply pair_eq in Ht as [-> Ht].

Lemma exTarget_table : genTable exTarget.
Proof.
  split.
  - intros r t Ht. each_type Ht; by subst.
  - intros r t Ht. each_type Ht; by subst.
  - intros r tc bf desc Ht. each_type Ht; try discriminate. by injection Ht as -> -> ->.
  - intros r tc desc Ht. each_type Ht; try discriminate. by injection Ht as -> ->.
  - intros r tc elem rb Ht. each_type Ht; discriminate.
  - intros meta r Hm Hr. cbn [Syscalls exTarget] in Hm. rewrite !elem_of_cons, elem_of_nil in Hm. destruct Hm as [->|[->|[]]]; [|done].
    injection Hr as <-. by eexists _, _, _.
  - intros meta f Hm Hf. cbn [Syscalls exTarget] in Hm. rewrite !elem_of_cons, elem_of_nil in Hm.
    destruct Hm as [->|[->|[]]]; cbn in Hf; rewrite ?elem_of_cons, elem_of_nil in Hf; [done|]. by destruct Hf as [->|[->|[->|[]]]].
  - intros r tc fields f Ht Hf. each_type Ht; try discriminate. injection Ht as -> ->.
    rewrite !elem_of_cons, elem_of_nil in Hf. by destruct Hf as [->|[->|[]]].
Qed.

(** [r0 = open(); write(r0, &msg{...}, &n)] *)
Example exRun_calls : (let! '(p, _) := exRun in Ret ((λ c, CallName (Meta c)) <$> p)) = Ret ["open"; "write"].
Proof. vm_compute. reflexivity. Qed.


End GenSpec.
