(* ===== verification/Squash.v ===== *)
(** * Squash: turning pointees into blobs (prog/any.go)

    [squashPtr] replaces what a pointer points to by an array of blobs and results with the
    same contents.  The code appends to the blob at the end of the array in place; a result is
    moved into the array and its type is changed in the heap. *)

From S2P Require Import Prelude Bytes Types Prog ExampleTarget ProgEdit Clone Expr Text.
From Stdlib Require Import Ascii.
Import Bytes Types Prog ProgEdit Expr Text.

Module Squash.

(** ** The types of ANY *)

(** The type assertions of [initAnyTypes], for the type at an index of the table. *)
Definition fieldAt (target : Target) (union : Ref) (i : Z) : res Ref :=
  let! t := typeAt (typeRefs target) union in
  match t with
  | UnionType _ fields => let! f := index fields i in Ret (fieldType f)
  | _ => Panic "interface conversion: not a *UnionType"
  end.
Definition asPtr (target : Target) (r : Ref) : res Ref :=
  let! t := typeAt (typeRefs target) r in
  match t with PtrType _ elem _ => Ret elem | _ => Panic "interface conversion: not a *PtrType" end.
Definition asArray (target : Target) (r : Ref) : res Ref :=
  let! t := typeAt (typeRefs target) r in
  match t with ArrayType _ elem _ _ _ => Ret elem | _ => Panic "interface conversion: not a *ArrayType" end.
Definition asUnion (target : Target) (r : Ref) : res unit :=
  let! t := typeAt (typeRefs target) r in
  match t with UnionType _ _ => Ret () | _ => Panic "interface conversion: not a *UnionType" end.
Definition asBuffer (target : Target) (r : Ref) : res unit :=
  let! t := typeAt (typeRefs target) r in
  match t with BufferType _ _ => Ret () | _ => Panic "interface conversion: not a *BufferType" end.
Definition asResource (target : Target) (r : Ref) : res unit :=
  let! t := typeAt (typeRefs target) r in
  match t with ResourceType _ _ _ => Ret () | _ => Panic "interface conversion: not a *ResourceType" end.

(** The first type with the name, of the types of the target. *)
Fixpoint findNamed (target : Target) (types : list Ref) (name : string) : res (option Ref) :=
  match types with
  | [] => Ret None
  | r :: types =>
    let! t := typeAt (typeRefs target) r in
    if decide (Name t = name) then Ret (Some r) else findNamed target types name
  end.

(** [initAnyTypes]; [types] are the indices of [target.types]. *)
Definition initAnyTypes (types : list Ref) (target : Target) : res Target :=
  let! o := findNamed target types "ANYPTRS" in
  match o with
  | None => Panic "no builtin ANYPTRS type"
  | Some anyPtrs =>
    let! ptrPtr := fieldAt target anyPtrs 0 in
    let! array := asPtr target ptrPtr in
    let! ptr64 := fieldAt target anyPtrs 1 in
    let! _ := asPtr target ptr64 in
    let! union := asArray target array in
    let! _ := asUnion target union in
    let! blob := fieldAt target union 0 in
    let! _ := asBuffer target blob in
    let! ress :=
      for_list (λ i l, let! r := fieldAt target union i in let! _ := asResource target r in Ret (l ++ [r]))
        [1; 2; 3; 4; 5; 6; 7] [] in
    Ret (MkTarget (typeRefs target) (Syscalls target) (PtrSize target) (PageSize target) (NumPages target)
      (DataOffset target) (SpecialPointers target) array ptrPtr ptr64 union blob ress
      (OS target) (Resources target) (AuxResources target))
  end.

Section target.
Context (target : Target).

Notation typeAt := (typeAt (typeRefs target)).

Definition getAnyPtrType (size : Z) : res Typ :=
  if decide (size = PtrSize target) then typeAt (anyPtrPtr target)
  else if decide (size = 8) then typeAt (anyPtr64 target)
  else Panic "bad pointer size".

(** ** Which pointers are squashed *)

(** The callback of [isComplexPtr]; the flags are [complex] and [unsupported]. *)
Definition complexStep (h : heap) (a : Arg) (s : bool * bool) : res ((bool * bool) * bool) :=
  let (cplx, unsup) := s in
  let! t := argType target h a in
  Ret (match t with
       | StructType _ _ _ overlay =>
         let bad := bool_decide (overlay ≠ 0) in ((cplx || Varlen t, unsup || bad), bad)
       | UnionType _ fields => ((cplx || Varlen t && bool_decide (5 < length fields)%nat, unsup), false)
       | PtrType _ _ _ => ((cplx, true), true)
       | _ => ((cplx, unsup), false)
       end).

Definition isComplexPtr (h : heap) (arg : Arg) : res bool :=
  match arg with
  | PointerArg c _ _ (Some p) =>
    if decide (adir c ≠ DirIn) then Ret false
    else
      let! any := isAnyPtrRef target (aref c) in
      if (any : bool) then Ret true
      else
        let! '(cplx, unsup) := ForeachSubArg target (λ _, h) (λ a _ s, complexStep h a s) p (false, false) in
        Ret (cplx && negb unsup)
  | _ => Ret false
  end.

(** The complex pointers of a program, each with the index of its call. *)
Definition complexPtrs (h : heap) (calls : list Call) : res (list (Arg * nat)) :=
  let! '(_, l) :=
    for_list (λ c '(i, l),
      let! l := ForeachArg target (λ _, h) (λ arg _ l,
        let! b := isComplexPtr h arg in
        Ret (if (b : bool) then (l ++ [(arg, i)], true) else (l, false))) c l in
      Ret (S i, l)) calls (0%nat, []) in
  Ret l.

(** The callback of [CallContainsAny] and [ArgContainsAny]. *)
Definition anyStep (h : heap) (arg : Arg) (found : bool) : res (bool * bool) :=
  let! r := argRef h arg in
  let! any := isAnyPtrRef target r in
  Ret (if (any || found : bool) then (true, true) else (found, false)).
Definition CallContainsAny (h : heap) (c : Call) : res bool :=
  ForeachArg target (λ _, h) (λ arg _ s, anyStep h arg s) c false.
Definition ArgContainsAny (h : heap) (arg : Arg) : res bool :=
  ForeachSubArg target (λ _, h) (λ arg _ s, anyStep h arg s) arg false.

(** ** Squashing *)

(** The elements so far and the memory. *)
Notation sq := (list Arg * mem)%type (only parsing).

Definition newDataElem (s : sq) : res sq :=
  let (elems, m) := s in
  let! tb := typeAt (anyBlob target) in
  let! tu := typeAt (anyUnion target) in
  let! '(d, m) := MakeDataArg tb DirIn [] m in
  let! '(u, m) := MakeUnionArg tu DirIn d 0 m in
  Ret (elems ++ [u], m).

(** After this, the last element is a blob. *)
Definition ensureDataElem (s : sq) : res sq :=
  match last s.1 with
  | None | Some (UnionArg _ (ConstArg _ _ | PointerArg _ _ _ _ | GroupArg _ _ | UnionArg _ _ _ _ | ResultArg _) _ _) => newDataElem s
  | Some (UnionArg _ (DataArg _ _ _) _ _) => Ret s
  | Some _ => Panic "interface conversion: not a *UnionArg"
  end.

(** [elem := target.ensureDataElem(elems); elem.data = append(elem.Data(), bytes...)] *)
Definition addBytes (bytes : list Z) (s : sq) : res sq :=
  let! '(elems, m) := ensureDataElem s in
  match last elems with
  | Some (UnionArg c (DataArg dc d size) idx tr) =>
    let! d := argData (adir dc) d in
    Ret (removelast elems ++ [UnionArg c (DataArg dc (d ++ bytes) size) idx tr], m)
  | _ => Panic "not a blob"
  end.

(** [make([]byte, n)] *)
Definition zeros (n : Z) : res (list Z) :=
  if decide (n < 2 ^ 63) then Ret (replicate (Z.to_nat n) 0) else Panic "makeslice: len out of range".

Definition addPad (pad : Z) (s : sq) : res sq :=
  if decide (pad ≠ 0) then let! z := zeros pad in addBytes z s else Ret s.

Definition squashedValue (c : ArgCommon) (val : Z) : res (Z * BinaryFormat) :=
  let! t := typeAt (aref c) in
  match t with
  | CsumType _ _ _ _ => Ret (0xabcdef1234567890, FormatNative)
  | _ =>
    let! '(v, _) := constValue t val in
    if decide (Format t = FormatBigEndian) then
      let! unit := UnitSize t in
      if decide (unit = 2) then Ret (swap16 (wrapU 16 v), FormatNative)
      else if decide (unit = 4) then Ret (swap32 (wrapU 32 v), FormatNative)
      else if decide (unit = 8) then Ret (swap64 v, FormatNative)
      else Panic "bad const size"
    else Ret (v, Format t)
  end.

(** ["%0<width>v"] *)
Definition padLeft (width : nat) (l : list Z) : list Z := replicate (width - length l) (chr "0") ++ l.

(** The bytes of a value of [size] bytes. *)
Definition valueBytes (bf : BinaryFormat) (size v : Z) : res (list Z) :=
  match bf with
  | FormatNative => Ret (bytesLE (Z.to_nat size) v)
  | FormatStrDec => Ret (padLeft 20 (formatUint 10 v))
  | FormatStrHex => Ret (str "0x" ++ padLeft 16 (formatUint 16 v))
  | FormatStrOct => Ret (padLeft 23 (formatUint 8 v))
  | FormatBigEndian => Panic "unknown binary format"
  end.

Definition squashConst (c : ArgCommon) (val : Z) (s : sq) : res sq :=
  let! t := typeAt (aref c) in
  let! size := Types.Size t in
  if IsPad t then let! z := zeros size in addBytes z s
  else
    let! '(v, bf) := squashedValue c val in
    let! data := valueBytes bf size v in
    if decide (Z.of_nat (length data) ≠ size) then Panic "squashed value of wrong size" else addBytes data s.

(** The index of the resource of ANY for a format and a size. *)
Definition anyResIndex (bf : BinaryFormat) (size : Z) : res Z :=
  match bf with
  | FormatNative | FormatBigEndian =>
    if decide (size = 1) then Ret 1
    else if decide (size = 2) then Ret 2
    else if decide (size = 4) then Ret 3
    else if decide (size = 8) then Ret 4
    else Panic "bad size"
  | FormatStrDec => Ret 5
  | FormatStrHex => Ret 6
  | FormatStrOct => Ret 7
  end.

(** [arg.ref = ref] *)
Definition setRef (i : positive) (r : Ref) (h : heap) : res heap :=
  let! o := deref h i in Ret (<[i := MkResult r (rDir o) (rRes o) (OpDiv o) (OpAdd o) (rVal o) (uses o)]> h).

Definition squashResult (i : positive) (s : sq) : res sq :=
  let (elems, m) := s in
  let! t := argType target (mHeap m) (ResultArg i) in
  let! size := Types.Size t in
  let! idx := anyResIndex (Format t) size in
  let! r := index (anyRes target) (idx - 1) in
  let! tr := typeAt r in
  let! r := ref tr in
  let! h := setRef i r (mHeap m) in
  let! tu := typeAt (anyUnion target) in
  let! '(u, m) := MakeUnionArg tu DirIn (ResultArg i) idx (Mem h (mNext m)) in
  Ret (elems ++ [u], m).

(** A bit field: the bits so far, and the bytes that are complete. *)
Definition squashBits (fld : Arg) (t : Typ) (size bits : Z) : res (Z * option (list Z)) :=
  match fld with
  | ConstArg c val =>
    let! '(v, bf) := squashedValue c val in
    if decide (bf ≠ FormatNative) then Panic "bitfield has bad format"
    else
      let bits := Z.lor bits (shl64 (Z.land v (shl64 1 (BitfieldLength t) -! 1)) (BitfieldOffset t)) in
      Ret (if decide (size ≠ 0) then (0, Some (bytesLE (Z.to_nat size) bits)) else (bits, None))
  | _ => Panic "interface conversion: not a *ConstArg"
  end.

(** [squashGroup]; [impl] is [squashPtrImpl], and [t] the type of the group [a]. *)
Definition squashGroup (impl : Arg → sq → res sq) (a : Arg) (t : Typ) (inner : list Arg) (s : sq) : res sq :=
  if match t with StructType _ _ _ overlay => bool_decide (overlay ≠ 0) | _ => false end then
    Panic "squashing out_overlay"
  else
    let! '(_, fieldsSize, s) :=
      for_list (λ fld '(bits, fieldsSize, s),
        let! size := Size target (mHeap s.2) fld in
        let fieldsSize := fieldsSize +! size in
        let! tf := argType target (mHeap s.2) fld in
        if IsBitfield tf then
          let! '(bits, data) := squashBits fld tf size bits in
          let! s := match data with Some data => addBytes data s | None => Ret s end in
          Ret (bits, fieldsSize, s)
        else let! s := impl fld s in Ret (bits, fieldsSize, s)) inner (0, 0, s) in
    let! size := Size target (mHeap s.2) a in
    addPad (size -! fieldsSize) s.

Fixpoint squashPtrImpl (a : Arg) (s : sq) : res sq :=
  let! t := argType target (mHeap s.2) a in
  if decide (BitfieldLength t ≠ 0) then Panic "bitfield in squash"
  else
    match a with
    | ConstArg c val => squashConst c val s
    | ResultArg i => squashResult i s
    | UnionArg _ opt _ _ =>
      let! pad :=
        if Varlen t then Ret 0
        else let! sz := Size target (mHeap s.2) a in let! osz := Size target (mHeap s.2) opt in Ret (sz -! osz) in
      let! s := squashPtrImpl opt s in
      addPad pad s
    | DataArg c data _ =>
      if decide (adir c = DirOut) then let! pad := Size target (mHeap s.2) a in addPad pad s
      else addBytes data s
    | GroupArg _ inner => squashGroup squashPtrImpl a t inner s
    | PointerArg _ _ _ _ => Panic "bad arg kind"
    end.

(** [squashPtr]: the pointer with its new contents. *)
Definition squashPtr (arg : Arg) (m : mem) : res (Arg * mem) :=
  match arg with
  | PointerArg c addr vmaSize (Some res0) =>
    if decide (vmaSize ≠ 0) then Panic "bad ptr arg"
    else
      let! size0 := Size target (mHeap m) res0 in
      let! '(elems, m) := squashPtrImpl res0 ([], m) in
      let! t := typeAt (aref c) in
      let! sz := Types.Size t in
      let! newType := getAnyPtrType sz in
      let! r := ref newType in
      match newType with
      | PtrType _ elem _ =>
        let! te := typeAt elem in
        let! '(group, m) := MakeGroupArg te DirIn elems m in
        let! size := Size target (mHeap m) group in
        if decide (size ≠ size0) then Panic "squash changed size"
        else Ret (PointerArg (MkCommon (aid c) r (adir c)) addr vmaSize (Some group), m)
      | _ => Panic "interface conversion: not a *PtrType"
      end
  | _ => Panic "bad ptr arg"
  end.

End target.
End Squash.
