(* ===== verification/Mutate.v ===== *)
(** * Mutate: mutation of programs (prog/mutation.go)

    [Mutate] applies random operations to a program: squash a pointee, splice another program
    in, insert a call, mutate an argument, remove a call.  The generators of [Generate] are
    used with the state that [analyze] finds.  An argument that is mutated in place is found
    again in its call, and its new contents are put at its position. *)

From S2P Require Import Prelude Rand Float64 Alloc Bytes Types Prog ExampleTarget Resources Prio ProgEdit Clone Collide Size Expr.
From S2P Require Import Validation ArgTree Conditions Minimize Analysis Mutation Text RandData Generate Squash.
Import Types Prog ProgEdit Clone Expr ArgTree RandData Generate.

Module Mutate.

(** ** Arguments of a call by their identity *)

#[export] Instance ArgCommon_eq_dec : EqDecision ArgCommon.
Proof. solve_decision. Defined.
#[export] Instance Arg_eq_dec : EqDecision Arg.
Proof.
  refine (fix go a b : Decision (a = b) := let _ : EqDecision Arg := @go in
    match a, b with
    | ConstArg c v, ConstArg c' v' => cast_if_and (decide (c = c')) (decide (v = v'))
    | PointerArg c a v p, PointerArg c' a' v' p' => cast_if_and4 (decide (c = c')) (decide (a = a')) (decide (v = v')) (decide (p = p'))
    | DataArg c d s, DataArg c' d' s' => cast_if_and3 (decide (c = c')) (decide (d = d')) (decide (s = s'))
    | GroupArg c l, GroupArg c' l' => cast_if_and (decide (c = c')) (decide (l = l'))
    | UnionArg c o i t, UnionArg c' o' i' t' => cast_if_and4 (decide (c = c')) (decide (o = o')) (decide (i = i')) (decide (t = t'))
    | ResultArg i, ResultArg i' => cast_if (decide (i = i'))
    | _, _ => right _
    end); abstract congruence.
Defined.

(** The position of the node [x], which carries its identity. *)
Fixpoint findPos (x : Arg) (arg : Arg) : option (list nat) :=
  if decide (arg = x) then Some []
  else
    match arg with
    | PointerArg _ _ _ (Some p) => cons 0%nat <$> findPos x p
    | GroupArg _ inner =>
      (fix go (k : nat) (l : list Arg) : option (list nat) :=
         match l with
         | [] => None
         | a :: l => match findPos x a with Some pos => Some (k :: pos) | None => go (S k) l end
         end) 0%nat inner
    | UnionArg _ opt _ _ => cons 0%nat <$> findPos x opt
    | _ => None
    end.

(** A position in a call: the index of the argument and the position in it. *)
Fixpoint findInArgs (x : Arg) (k : nat) (args : list Arg) : option (nat * list nat) :=
  match args with
  | [] => None
  | a :: args => match findPos x a with Some pos => Some (k, pos) | None => findInArgs x (S k) args end
  end.

Definition locate (x : Arg) (c : Call) : res (nat * list nat) :=
  match findInArgs x 0 (Args c) with Some p => Ret p | None => Panic "nil pointer dereference" end.
Definition nodeAt (p : nat * list nat) (c : Call) : res Arg :=
  match Args c !! p.1 ≫= subArg p.2 with Some a => Ret a | None => Panic "nil pointer dereference" end.
Definition putAt (p : nat * list nat) (x : Arg) (c : Call) : Call :=
  Minimize.setArgs (alter (setSub p.2 x) p.1 (Args c)) c.

(** ** Priorities *)

Notation float64 := spec_float (only parsing).
Definition maxPriority : float64 := Float64.ofZ 10.
Definition minPriority : float64 := Float64.ofZ 1.
Definition dontMutate : float64 := Float64.zero.
(** A fraction of [maxPriority], in tenths. *)
Definition tenths (k : Z) : float64 := Float64.mul (Float64.ratio k 10) maxPriority.

(** Assigns a priority based on the range size. *)
Definition rangeSizePrio (size : Z) : float64 :=
  if decide (size = 0) then dontMutate
  else if decide (size = 1) then minPriority
  else Float64.Min (Float64.add (Float64.div (Float64.ofZ size) (Float64.ofZ 3)) (tenths 4)) (tenths 9).

Section target.
Context (target : Target).
Notation typeAt := (typeAt (typeRefs target)).

(** The parameters of [Generate]; [SpecialMutate] are the generators of special types for an
    old argument, [ifuzzMutate] mutates machine code, [compress] and [decompress] images. *)
Context (Arch : string) (SpecialFileLenghts : list Z) (resourceCtors : string → list Resources.ResourceCtor).
Notation ga := (bool → Typ → Dir → gst → res ((Arg * list Call) * gst)) (only parsing).
Context (SpecialTypes : string → option (ga → Typ → Dir → gen (Arg * list Call))).
Context (SpecialMutate : string → option (Typ → Dir → Arg → gen (Arg * list Call))).
Context (ifuzzGenerate : Config → rng → list Z * rng) (ifuzzMutate : Config → list Z → rng → list Z * rng).
Context (compress decompress : list Z → list Z).
Context (ct : Prio.ChoiceTable) (corpus : list (list Call)).
Context (order : list (positive * Arg) → list (positive * Arg)).
Context (resOrder : list (string * list positive) → list (string * list positive)).
Context (dfuel lfuel fuel : nat).

Notation generateArg := (generateArgImpl target Arch SpecialFileLenghts resourceCtors SpecialTypes ifuzzGenerate ct corpus order resOrder dfuel lfuel fuel false).

Definition intPrio (bits : Z) (kind : IntKind) (rangeBegin rangeEnd align : Z) : float64 :=
  let plainPrio := Float64.add (Float64.Log2 (Float64.ofZ bits)) (tenths 1) in
  match kind with
  | IntPlain => plainPrio
  | IntRange =>
    let size :=
      if decide (align ≠ 0) then
        if decide (rangeBegin = 0 ∧ wrapS 64 rangeEnd = -1) then (shl64 1 bits -! 1) `div` align +! 1
        else (rangeEnd -! rangeBegin) `div` align +! 1
      else rangeEnd -! rangeBegin +! 1 in
    if decide (size ≤ 15) then rangeSizePrio size
    else if decide (size ≤ 256) then maxPriority
    else plainPrio
  end.

Definition isSpecialType (t : Typ) : bool := match SpecialMutate (Name t) with Some _ => true | None => false end.

(** [getMutationPrio]: the priority and whether the recursion stops. *)
Definition getMutationPrio (h : heap) (t : Typ) (arg : Arg) (ignoreSpecial : bool) : res (float64 * bool) :=
  match t with
  | IntType ic kind rangeBegin rangeEnd align =>
    let! bits := TypeBitSize t in Ret (intPrio bits kind rangeBegin rangeEnd align, false)
  | StructType _ _ _ _ => Ret (if negb (isSpecialType t) || ignoreSpecial then (dontMutate, false) else (maxPriority, true))
  | UnionType _ fields =>
    Ret (if negb (isSpecialType t) && bool_decide (length fields = 1%nat) || ignoreSpecial then (dontMutate, false)
         else if isSpecialType t then (maxPriority, true) else (maxPriority, false))
  | FlagsType _ vals bitMask =>
    let prio := rangeSizePrio (Z.of_nat (length vals)) in
    Ret (if bitMask then Float64.add prio (tenths 1) else prio, false)
  | PtrType _ _ _ =>
    match arg with
    | PointerArg _ addr vma p => Ret (if isSpecial addr vma p then dontMutate else tenths 3, false)
    | _ => Panic "interface conversion"
    end
  | ConstType _ _ _ | CsumType _ _ _ _ => Ret (dontMutate, false)
  | ProcType _ _ _ | ResourceType _ _ _ | VmaType _ _ _ => Ret (tenths 5, false)
  | LenType _ _ _ _ => Ret (tenths 1, false)
  | BufferType _ desc =>
    let! dir := argDir h arg in
    Ret (if bool_decide (dir = DirOut) && negb (Varlen t) then dontMutate
         else match bufKind desc with
              | BufferString => if decide (length (bufValues desc) = 1%nat) then dontMutate else tenths 8
              | BufferCompressed => maxPriority
              | _ => tenths 8
              end, false)
  | ArrayType _ _ kind rangeBegin rangeEnd =>
    Ret (if bool_decide (kind = ArrayRangeLen) && bool_decide (rangeBegin = rangeEnd) then dontMutate else maxPriority, false)
  end.

(** [chooseCall]: the calls weighted by the complexity of their arguments. *)
Definition chooseCall (p : list Call) : gen Z :=
  let* h := getHeap in
  let* '(prios, sum) := pure (for_list (λ c '(prios, sum),
    let! total := ForeachArg target (λ _, h) (λ arg _ total,
      let! t := argType target h arg in
      let! '(prio, stop) := getMutationPrio h t arg false in
      Ret (Float64.add total prio, stop)) c Float64.zero in
    let sum := Float64.add sum total in
    Ret (prios ++ [sum], sum)) p ([], Float64.zero)) in
  if SFeqb sum Float64.zero then gret (-1)
  else
    let* f := draw (Float64.Float64 lfuel) in
    let goal := Float64.mul sum f in
    gret (sortSearch (Z.of_nat (length prios)) (λ i, SFleb goal (default Float64.zero (prios !! Z.to_nat i)))).

(** [mutationArgs] *)
Record mutationArg := MkMutArg { marg : Arg; mctx : ArgCtx; priority : float64 }.
Record mutationArgs := MkMutArgs { ignoreSpecial : bool; prioSum : float64; margs : list mutationArg }.

Definition collectArg (h : heap) (arg : Arg) (ctx : ArgCtx) (ma : mutationArgs) : res (mutationArgs * bool) :=
  let! t := argType target h arg in
  let! '(prio, stop) := getMutationPrio h t arg (ignoreSpecial ma) in
  let ma := MkMutArgs false (prioSum ma) (margs ma) in
  if SFeqb prio dontMutate then Ret (ma, stop)
  else
    let! dir := argDir h arg in
    let isArrayOrBuffer := match t with ArrayType _ _ _ _ _ | BufferType _ _ => true | _ => false end in
    let! skip :=
      if negb isArrayOrBuffer && bool_decide (dir = DirOut) then Ret true
      else if Varlen t then Ret false else let! sz := Types.Size t in Ret (bool_decide (sz = 0)) in
    if (skip : bool) then Ret (ma, stop)
    else
      let sum := Float64.add (prioSum ma) prio in
      Ret (MkMutArgs false sum (margs ma ++ [MkMutArg arg ctx sum]), stop).

Definition chooseArg (ma : mutationArgs) : gen mutationArg :=
  let* f := draw (Float64.Float64 lfuel) in
  let goal := Float64.mul (prioSum ma) f in
  let i := sortSearch (Z.of_nat (length (margs ma)))
    (λ i, SFleb goal (default Float64.zero (priority <$> margs ma !! Z.to_nat i))) in
  pure (index (margs ma) i).

(** ** Arguments *)

(** The results of [mutate]: the new contents, the calls to insert, [retry] and [preserve]. *)
Record mutated := MkMutated { mArg : Arg; mCalls : list Call; mRetry : bool; mPreserve : bool }.
Definition changed (a : Arg) : gen mutated := gret (MkMutated a [] false false).

Definition regenerate (t : Typ) (arg : Arg) : gen mutated :=
  let* h := getHeap in
  let* dir := pure (argDir h arg) in
  let* '(new, calls) := generateArg t dir in
  let* a := onMem (replaceArg target arg new) in
  gret (MkMutated a calls false false).

(** [FlagsType.mutate] draws until the value changes. *)
Fixpoint mutateFlags (n : nat) (vals : list Z) (bitMask : bool) (old val : Z) (r : rng) : res (Z * rng) :=
  match n with
  | O => OutOfFuel
  | S n =>
    if decide (old = val) then let! '(v, r) := RandData.flags lfuel vals bitMask val r in mutateFlags n vals bitMask old v r
    else Ret (val, r)
  end.

(** [mutateSize]: the size of an element, or [None] if the size should not be mutated. *)
Fixpoint lenElemSize (h : heap) (name : string) (parent : list Arg) (fields : list Field) : res (option Z) :=
  match parent with
  | [] => Ret (Some 1)
  | field :: parent =>
    match fields with
    | [] => Panic "index out of range"
    | fd :: fields =>
      if decide (name ≠ fieldName fd) then lenElemSize h name parent fields
      else
        let! inner := InnerArg target h field in
        match inner with
        | None => Ret (Some 1)
        | Some inner =>
          let! t := argType target h inner in
          match t with
          | VmaType _ _ _ => Ret None
          | BufferType _ desc => Ret (match bufKind desc with BufferCompressed => None | _ => Some 1 end)
          | ArrayType _ elem _ _ _ =>
            let! te := typeAt elem in
            if Varlen te then Ret None else let! sz := Types.Size te in Ret (Some sz)
          | _ => Ret (Some 1)
          end
        end
    end
  end.

(** Values that provoke overflows of a length in bytes. *)
Definition overflowSize (elemSize : Z) (r : rng) : res (Z * rng) :=
  let! '(c, r) := oneOf 3 r in
  let! '(max, r) :=
    if (c : bool) then
      let! '(c, r) := oneOf 2 r in
      if (c : bool) then let! '(c, r) := oneOf 2 r in Ret (if (c : bool) then 2 ^ 8 - 1 else 2 ^ 16 - 1, r)
      else Ret (2 ^ 32 - 1, r)
    else Ret (2 ^ 64 - 1, r) in
  if decide (elemSize = 0) then Panic "integer divide by zero"
  else
    let n := max `div` elemSize in
    let! '(k, r) := biasedRand 1000 10 r in
    let delta := wrapU 64 (1000 - k) in
    let! '(c, r) := if decide (elemSize = 1) then Ret (true, r) else oneOf 10 r in
    Ret (if (c : bool) then n -! delta else n +! delta, r).

Definition mutateSize (t : Typ) (bitSize : Z) (path : list string) (val : Z) (ctx : ArgCtx) : gen (option Z) :=
  let* h := getHeap in
  let elemSize := bitSize `div` 8 in
  let* elemSize :=
    if decide (elemSize = 0) then
      match path with
      | [name] => pure (lenElemSize h name (Parent ctx) (Fields ctx))
      | _ => gret (Some 1)
      end
    else gret (Some elemSize) in
  match elemSize with
  | None => gret None
  | Some elemSize =>
    draw (λ r,
      let! '(c, r) := oneOf 100 r in
      if (c : bool) then let! '(v, r) := rand64 r in Ret (Some v, r)
      else
        let! '(c, r) := bin r in
        if (c : bool) then
          let! bits := TypeBitSize t in
          let! '(c, r) := if decide (val ≠ 0) then bin r else Ret (false, r) in
          let! '(v, r) := if (c : bool) then randRangeInt 0 (val -! 1) bits 0 r
                          else randRangeInt (val +! 1) (val +! 100) bits 0 r in
          Ret (Some v, r)
        else let! '(v, r) := overflowSize elemSize r in Ret (Some v, r))
  end.

(** [BufferType.mutate] *)
Definition mutateBuffer (t : Typ) (desc : BufferDesc) (arg : Arg) : gen mutated :=
  match arg with
  | DataArg c data size =>
    let '(minLen, maxLen) :=
      match bufKind desc with BufferBlobRange => (bufRangeBegin desc, bufRangeEnd desc) | _ => (0, Mutation.maxBlobLen) end in
    if decide (adir c = DirOut) then
      let* b := match bufKind desc with BufferFilename => draw (oneOf 100) | _ => gret false end in
      let* size :=
        if (b : bool) then let* n := draw (randFilenameLength SpecialFileLenghts) in gret (wrapU 64 n)
        else draw (Mutation.mutateBufferSize lfuel size size minLen maxLen) in
      changed (DataArg c data size)
    else
      let* s := getState in
      let setData (d : list Z) : gen mutated := changed (DataArg c d size) in
      let blob (minLen maxLen : Z) : gen mutated :=
        let* d := draw (Mutation.mutateData lfuel data minLen maxLen) in setData d in
      match bufKind desc with
      | BufferBlobRand | BufferBlobRange => blob minLen maxLen
      | BufferString =>
        if decide (bufValues desc ≠ []) then let* d := draw (randString lfuel (Analysis.strings s) desc) in setData d
        else if decide (TypeSize (common t) ≠ 0) then blob (TypeSize (common t)) (TypeSize (common t))
        else blob minLen maxLen
      | BufferFilename => let* d := draw (filename SpecialFileLenghts lfuel (Analysis.files s) t desc) in setData d
      | BufferGlob =>
        if decide (bufValues desc ≠ []) then let* d := draw (randString lfuel (Analysis.strings s) desc) in setData d
        else let* d := draw (filename SpecialFileLenghts lfuel (Analysis.files s) t desc) in setData d
      | BufferText => let* d := draw (mutateText target Arch ifuzzMutate lfuel (bufText desc) data) in setData d
      | BufferCompressed =>
        let* '(d, retry) := draw (λ r, let! '(d, retry, r) := Mutation.mutateImage compress decompress data r in Ret ((d, retry), r)) in
        gret (MkMutated (DataArg c d size) [] retry false)
      end
  | _ => pure (Panic "interface conversion")
  end.

(** [ArrayType.mutate]: the elements in a new order. *)
Fixpoint swapElems (n : nat) (inner : list Arg) (r : rng) : res (list Arg * rng) :=
  match n with
  | O => OutOfFuel
  | S n =>
    let! '(go, r) := nOutOf 2 3 r in
    if (go : bool) then
      let! '(i, r) := intn (Z.of_nat (length inner)) r in
      let! '(j, r) := intn (Z.of_nat (length inner)) r in
      let! x := index inner i in
      let! y := index inner j in
      swapElems n (<[Z.to_nat j := x]> (<[Z.to_nat i := y]> inner)) r
    else Ret (inner, r)
  end.

Fixpoint incWhile (n : nat) (count : Z) (r : rng) : res (Z * rng) :=
  match n with
  | O => OutOfFuel
  | S n => let! '(b, r) := bin r in if (b : bool) then incWhile n (count +! 1) r else Ret (count, r)
  end.

Fixpoint drawUntil (n : nat) (f : rng → res (Z * rng)) (old count : Z) (r : rng) : res (Z * rng) :=
  match n with
  | O => OutOfFuel
  | S n => if decide (count = old) then let! '(v, r) := f r in drawUntil n f old v r else Ret (count, r)
  end.

(** The new number of elements. *)
Definition arrayCount (kind : ArrayKind) (rangeBegin rangeEnd len : Z) (r : rng) : res (Z * rng) :=
  match kind with
  | ArrayRandLen =>
    let! '(b, r) := bin r in
    if (b : bool) then incWhile lfuel len r else drawUntil lfuel randArrayLen len 0 r
  | ArrayRangeLen =>
    if decide (rangeBegin = rangeEnd) then Panic "trying to mutate fixed length array"
    else drawUntil lfuel (randRange rangeBegin rangeEnd) len 0 r
  end.

(** The calls of a new element are noted at once, so that later elements can use them. *)
Definition growArray (te : Typ) (dir : Dir) (n : nat) (inner : list Arg) : gen (list Arg * list Call) :=
  gfor (λ (_ : nat) '(inner, calls),
    let* '(new, newCalls) := generateArg te dir in
    let* h := getHeap in
    let* _ := onState (λ s, let! s := for_list (λ c s, Analysis.analyzeImpl target h c true s) newCalls s in Ret (tt, s)) in
    gret (inner ++ [new], calls ++ newCalls)) (seq 0 n) (inner, []).

Definition mutateArray (elem : Ref) (kind : ArrayKind) (rangeBegin rangeEnd : Z) (arg : Arg) : gen mutated :=
  match arg with
  | GroupArg c inner =>
    let* b := if decide (1 < length inner)%nat then draw (oneOf 5) else gret false in
    let* inner := if (b : bool) then draw (swapElems lfuel inner) else gret inner in
    let len := Z.of_nat (length inner) in
    let* count := draw (arrayCount kind rangeBegin rangeEnd len) in
    if decide (len < count) then
      let* te := pure (typeAt elem) in
      let* '(inner, calls) := growArray te (adir c) (Z.to_nat (count - len)) inner in
      gret (MkMutated (GroupArg c inner) calls false false)
    else
      let* _ := onMem (λ m, let! m := for_list (removeArg target) (drop (Z.to_nat count) inner) m in Ret (tt, m)) in
      changed (GroupArg c (take (Z.to_nat count) inner))
  | _ => pure (Panic "interface conversion")
  end.

(** [PtrType.mutate] *)
Definition mutatePtr (t : Typ) (arg : Arg) : gen mutated :=
  match arg with
  | PointerArg c _ _ (Some p) =>
    let* b := draw (oneOf 1000) in
    let* new :=
      if (b : bool) then
        let* _ := onMem (λ m, let! m := removeArg target p m in Ret (tt, m)) in
        let* idx := draw (rand (Z.of_nat (length (SpecialPointers target)))) in
        onMem (MakeSpecialPointerArg t (adir c) idx)
      else
        let* h := getHeap in
        let* size := pure (Size target h p) in
        allocAddr target t (adir c) size p in
    let* a := onMem (replaceArg target arg new) in
    changed a
  | PointerArg _ _ _ None => pure (Panic "nil pointer dereference")
  | _ => pure (Panic "interface conversion")
  end.

(** [StructType.mutate]: only special structs are mutated as a whole, field by field. *)
Definition mutateStruct (t : Typ) (arg : Arg) : gen mutated :=
  match SpecialMutate (Name t), arg with
  | None, _ => pure (Panic "bad arg returned by mutationArgs: StructType")
  | Some special, GroupArg c inner =>
    let* '(new, calls) := special t (adir c) arg in
    match new with
    | GroupArg _ fs =>
      let* '(_, inner) := gfor (λ f '(i, inner),
        let* old := pure (index inner (Z.of_nat i)) in
        let* a := onMem (replaceArg target old f) in
        gret (S i, <[i := a]> inner)) fs (0%nat, inner) in
      gret (MkMutated (GroupArg c inner) calls false false)
    | _ => pure (Panic "interface conversion")
    end
  | Some _, _ => pure (Panic "interface conversion")
  end.

(** [UnionType.mutate]: another option. *)
Definition mutateUnion (t : Typ) (fields : list Field) (arg : Arg) : gen mutated :=
  let* h := getHeap in
  let* dir := pure (argDir h arg) in
  match SpecialMutate (Name t), arg with
  | Some special, _ =>
    let* '(new, calls) := special t dir arg in
    let* a := onMem (replaceArg target arg new) in
    gret (MkMutated a calls false false)
  | None, UnionArg c _ idx _ =>
    let* i := draw (intn (Z.of_nat (length fields) - 1)) in
    let i := if decide (idx ≤ i) then i + 1 else i in
    let* field := pure (index fields i) in
    let* tf := pure (typeAt (fieldType field)) in
    let* '(opt, calls) := generateArg tf (fieldDir field (adir c)) in
    let* new := onMem (MakeUnionArg t (adir c) opt i) in
    let* a := onMem (replaceArg target arg new) in
    gret (MkMutated a calls false false)
  | None, _ => pure (Panic "interface conversion")
  end.

(** [typ.mutate] *)
Definition mutate (t : Typ) (arg : Arg) (ctx : ArgCtx) : gen mutated :=
  match t with
  | IntType _ _ rangeBegin rangeEnd align =>
    let* b := draw bin in
    if (b : bool) then regenerate t arg
    else
      match arg with
      | ConstArg c v =>
        let* bits := pure (TypeBitSize t) in
        let* v := draw (Mutation.mutateIntArg v rangeBegin rangeEnd align bits) in
        changed (ConstArg c v)
      | _ => pure (Panic "interface conversion")
      end
  | FlagsType _ vals bitMask =>
    match arg with
    | ConstArg c v => let* v := draw (mutateFlags lfuel vals bitMask v v) in changed (ConstArg c v)
    | _ => pure (Panic "interface conversion")
    end
  | LenType _ bitSize _ path =>
    match arg with
    | ConstArg c v =>
      let* new := mutateSize t bitSize path v ctx in
      gret (match new with
            | None => MkMutated arg [] true false
            | Some v => MkMutated (ConstArg c v) [] false true
            end)
    | _ => pure (Panic "interface conversion")
    end
  | ResourceType _ _ _ | VmaType _ _ _ | ProcType _ _ _ => regenerate t arg
  | BufferType _ desc => mutateBuffer t desc arg
  | ArrayType _ elem kind rangeBegin rangeEnd => mutateArray elem kind rangeBegin rangeEnd arg
  | PtrType _ _ _ => mutatePtr t arg
  | StructType _ _ _ _ => mutateStruct t arg
  | UnionType _ fields => mutateUnion t fields arg
  | CsumType _ _ _ _ => pure (Panic "CsumType can't be mutated")
  | ConstType _ _ _ => pure (Panic "ConstType can't be mutated")
  end.

(** The size of what a pointer points to. *)
Definition pointeeSize (h : heap) (base : Arg) : res Z :=
  match base with
  | PointerArg _ _ _ (Some p) => Size target h p
  | _ => Panic "nil pointer dereference"
  end.

(** Gives the pointer at a position of the call new memory if its pointee has grown. *)
Definition updateBase (pb : nat * list nat) (baseSize : Z) (c : Call) : gen Call :=
  let* h := getHeap in
  let* base := pure (nodeAt pb c) in
  let* size := pure (pointeeSize h base) in
  if decide (baseSize < size) then
    match base with
    | PointerArg cb _ _ (Some p) =>
      let* tb := pure (typeAt (aref cb)) in
      let* new := allocAddr target tb (adir cb) size p in
      let* b := onMem (replaceArg target base new) in
      gret (putAt pb b c)
    | _ => pure (Panic "nil pointer dereference")
    end
  else gret c.

(** [Target.mutateArg]: the call with the mutated argument, the calls to insert before it,
    whether it succeeded and whether the sizes should be left alone. *)
Definition mutateArgOf (arg : Arg) (ctx : ArgCtx) (c : Call) : gen (Call * list Call * bool * bool) :=
  let* pos := pure (locate arg c) in
  let* arg := pure (nodeAt pos c) in
  let* h := getHeap in
  let* base :=
    match Base ctx with
    | Some b =>
      let* pb := pure (locate b c) in
      let* b := pure (nodeAt pb c) in
      let* size := pure (pointeeSize h b) in
      gret (Some (pb, size))
    | None => gret None
    end in
  let* t := pure (argType target h arg) in
  let* res := mutate t arg ctx in
  if mRetry res then gret (c, [], false, false)
  else
    let c := putAt pos (mArg res) c in
    let* c := match base with Some (pb, size) => updateBase pb size c | None => gret c end in
    gret (c, mCalls res, true, mPreserve res).

(** [Gen.MutateArg], the helper of special types: some mutations inside of an argument. *)
Fixpoint genMutateArg (n : nat) (arg0 : Arg) (calls : list Call) : gen (Arg * list Call) :=
  match n with
  | O => pure OutOfFuel
  | S n =>
    let* h := getHeap in
    let* ma := pure (ForeachSubArg target (λ _, h) (collectArg h) arg0 (MkMutArgs true Float64.zero [])) in
    match margs ma with
    | [] => gret (arg0, calls)
    | _ =>
      let* x := chooseArg ma in
      let* '(c, newCalls, ok, _) := mutateArgOf (marg x) (mctx x) (MkCall (MkSyscall 0 0 "" "" 0 [] None (MkAttrs false 0 0 false false false false)) [arg0] None noProps "") in
      let* arg0 := pure (index (Args c) 0) in
      let calls := if (ok : bool) then calls ++ newCalls else calls in
      let* stop := draw (oneOf 3) in
      if (stop : bool) then gret (arg0, calls) else genMutateArg n arg0 calls
    end
  end.

(** ** Programs *)

Definition setState (s : Analysis.state) : gen unit := λ g, Ret (tt, MkG (gR g) s (gM g)).
(** [s := analyze(ctx.ct, ctx.corpus, p, c)] *)
Definition analyzeUpto (p : list Call) (upto : option nat) : gen unit :=
  let* h := getHeap in
  let* s := pure (Analysis.analyze target h p upto) in
  setState s.

(** [p.RemoveCall(idx)] *)
Definition removeAt (idx : Z) (p : list Call) : gen (list Call) :=
  if decide (idx < 0) then pure (Panic "index out of range") else onMem (RemoveCall target p (Z.to_nat idx)).

(** The parts of [mutator]. *)
Context (ncalls : nat) (noMutate : gset Z).

(** Calls from the end, down to [ncalls]. *)
Fixpoint removeTail (n : nat) (p : list Call) : gen (list Call) :=
  match n with
  | O => gret p
  | S n => let* p := removeAt (Z.of_nat (length p) - 1) p in removeTail n p
  end.

Definition splice (p : list Call) : gen (list Call * bool) :=
  if decide (corpus = [] ∨ p = [] ∨ (ncalls ≤ length p)%nat) then gret (p, false)
  else
    let* p0 := chooseOf corpus in
    let* p0c := onMem (Clone p0) in
    let* idx := draw (intn (Z.of_nat (length p))) in
    let p := take (Z.to_nat idx) p ++ p0c ++ drop (Z.to_nat idx) p in
    let* p := removeTail (length p - ncalls) p in
    gret (p, true).

(** The blobs of a squashed pointee, each with the pointer that leads to it. *)
Definition collectBlob (h : heap) (arg : Arg) (ctx : ArgCtx) (l : list (Arg * option Arg)) :
    res (list (Arg * option Arg) * bool) :=
  match arg with
  | DataArg c _ _ => Ret (if decide (adir c ≠ DirOut) then l ++ [(arg, Base ctx)] else l, false)
  | _ => Ret (l, false)
  end.

(** A blob of the call gets new data, and the pointer to it new memory if it has grown. *)
Definition mutateBlob (blob : Arg) (base : option Arg) (c : Call) : gen Call :=
  match base with
  | None => pure (Panic "nil pointer dereference")
  | Some b =>
    let* h := getHeap in
    let* pb := pure (locate b c) in
    let* b := pure (nodeAt pb c) in
    let* baseSize := pure (pointeeSize h b) in
    let* pos := pure (locate blob c) in
    let* a := pure (nodeAt pos c) in
    match a with
    | DataArg cd data size =>
      let* data := pure (argData (adir cd) data) in
      let* data := draw (Mutation.mutateData lfuel data 0 Mutation.maxBlobLen) in
      updateBase pb baseSize (putAt pos (DataArg cd data size) c)
    | _ => pure (Panic "interface conversion")
    end
  end.

Definition squashAny (p : list Call) : gen (list Call * bool) :=
  let* h := getHeap in
  let* ptrs := pure (Squash.complexPtrs target h p) in
  match ptrs with
  | [] => gret (p, false)
  | _ =>
    let* '(ptr, ci) := chooseOf ptrs in
    let* c := pure (index p (Z.of_nat ci)) in
    if decide (ID (Meta c) ∈ noMutate) then gret (p, false)
    else
      let* pos := pure (locate ptr c) in
      let* ptr := pure (nodeAt pos c) in
      let* r := pure (argRef h ptr) in
      let* any := pure (isAnyPtrRef target r) in
      let* ptr := if (any : bool) then gret ptr else onMem (Squash.squashPtr target ptr) in
      let c := putAt pos ptr c in
      let p := <[ci := c]> p in
      let* h := getHeap in
      let* blobs := pure (ForeachSubArg target (λ _, h) (collectBlob h) ptr []) in
      match blobs with
      | [] => gret (p, false)
      | _ =>
        let* _ := analyzeUpto p (Some ci) in
        let* '(blob, base) := chooseOf blobs in
        let* c := mutateBlob blob base c in
        gret (<[ci := c]> p, true)
      end
  end.

(** Calls at [idx] are removed until the program fits. *)
Fixpoint removeAtIdx (n : nat) (idx : Z) (p : list Call) : gen (list Call) :=
  match n with O => gret p | S n => let* p := removeAt idx p in removeAtIdx n idx p end.

Definition insertCall (p : list Call) : gen (list Call * bool) :=
  if decide (ncalls ≤ length p)%nat then gret (p, false)
  else
    let* idx := draw (biasedRand (Z.of_nat (length p) + 1) 5) in
    let c := if decide (idx < Z.of_nat (length p)) then Some (Z.to_nat idx) else None in
    let* _ := analyzeUpto p c in
    let* calls := generateCall target Arch SpecialFileLenghts resourceCtors SpecialTypes ifuzzGenerate ct corpus order resOrder dfuel lfuel fuel p idx in
    let p := insertBefore p c calls in
    let* p := removeAtIdx (length p - ncalls) idx p in
    gret (p, true).

Definition removeCall (p : list Call) : gen (list Call * bool) :=
  match p with
  | [] => gret (p, false)
  | _ =>
    let* idx := draw (intn (Z.of_nat (length p))) in
    let* p := removeAt idx p in
    gret (p, true)
  end.

(** [for len(p.Calls) > ctx.ncalls { idx--; p.RemoveCall(idx) }] *)
Fixpoint removeBefore (n : nat) (idx : Z) (p : list Call) : gen (list Call * Z) :=
  match n with O => gret (p, idx) | S n => let* p := removeAt (idx - 1) p in removeBefore n (idx - 1) p end.

(** One successful round of [mutateArg] on the call [idx] that became [c]: the new calls are
    put before it and others before it are removed if there are too many.  The call stays the
    one at the index, as only calls before it are added and removed. *)
Definition insertAndFit (p : list Call) (idx : Z) (c : Call) (calls : list Call) : gen (list Call * Z) :=
  let p := <[Z.to_nat idx := c]> p in
  let p := insertBefore p (Some (Z.to_nat idx)) calls in
  let* '(p, idx) := removeBefore (length p - ncalls) (idx + Z.of_nat (length calls)) p in
  if decide (idx < 0 ∨ Z.of_nat (length p) ≤ idx) then pure (Panic "wrong call index") else gret (p, idx).

Fixpoint mutateArgLoop (n : nat) (p : list Call) (idx : Z) (updateSizes : bool) : gen (list Call * bool) :=
  match n with
  | O => pure OutOfFuel
  | S n =>
    let* h := getHeap in
    let* c := pure (index p idx) in
    let* ma := pure (ForeachArg target (λ _, h) (collectArg h) c (MkMutArgs false Float64.zero [])) in
    match margs ma with
    | [] => gret (p, false)
    | _ =>
      let* _ := analyzeUpto p (Some (Z.to_nat idx)) in
      let* x := chooseArg ma in
      let* '(c, calls, ok, preserve) := mutateArgOf (marg x) (mctx x) c in
      if negb ok then mutateArgLoop n p idx updateSizes
      else
        let updateSizes := updateSizes && negb preserve in
        let* '(c, moreCalls, patched) := patchConditionalFields target order lfuel
          (generateArgImpl target Arch SpecialFileLenghts resourceCtors SpecialTypes ifuzzGenerate ct corpus order resOrder dfuel lfuel fuel) c in
        let* '(p, idx) := insertAndFit p idx c (calls ++ moreCalls) in
        let* p :=
          if updateSizes || patched then
            let* h := getHeap in
            let* vs := pure (Size.assignSizesCall target h c) in
            gret (<[Z.to_nat idx := Size.withSizes vs c]> p)
          else gret p in
        let* stop := draw (oneOf 3) in
        if (stop : bool) then gret (p, true) else mutateArgLoop n p idx updateSizes
    end
  end.

Definition mutateArg (p : list Call) : gen (list Call * bool) :=
  match p with
  | [] => gret (p, false)
  | _ =>
    let* idx := chooseCall p in
    if decide (idx < 0) then gret (p, false)
    else
      let* c := pure (index p idx) in
      if decide (ID (Meta c) ∈ noMutate) then gret (p, false) else mutateArgLoop lfuel p idx true
  end.

(** One of the operations. *)
Definition mutateStep (p : list Call) : gen (list Call * bool) :=
  let* b := draw (oneOf 5) in
  if (b : bool) then squashAny p
  else
    let* b := draw (nOutOf 1 100) in
    if (b : bool) then splice p
    else
      let* b := draw (nOutOf 20 31) in
      if (b : bool) then insertCall p
      else
        let* b := draw (nOutOf 10 11) in
        if (b : bool) then mutateArg p else removeCall p.

Fixpoint mutateLoop (n : nat) (p : list Call) : gen (list Call) :=
  match n with
  | O => pure OutOfFuel
  | S n =>
    let* '(p, ok) := mutateStep p in
    let* stop := if (ok : bool) && bool_decide (p ≠ []) then draw (oneOf 3) else gret false in
    if (stop : bool) then gret p else mutateLoop n p
  end.

End target.

(** [Prog.Mutate]; [ncalls0] is the argument of the call. *)
Definition Mutate (target : Target) (Arch : string) (SpecialFileLenghts : list Z) (resourceCtors : string → list Resources.ResourceCtor)
    SpecialTypes SpecialMutate ifuzzGenerate ifuzzMutate compress decompress (ct : Prio.ChoiceTable) (corpus : list (list Call))
    order resOrder (dfuel lfuel fuel : nat) (neutralize : Call → mem → res (option string * Call * mem))
    (ncalls0 : nat) (noMutate : gset Z) (p : list Call) (r : rng) (m : mem) : res (list Call * mem) :=
  let ncalls := if decide (ncalls0 < length p)%nat then length p else ncalls0 in
  let! s := Analysis.newState target in
  let! '(p, g) :=
    (let* p := mutateLoop target Arch SpecialFileLenghts resourceCtors SpecialTypes SpecialMutate ifuzzGenerate ifuzzMutate compress decompress
       ct corpus order resOrder dfuel lfuel fuel ncalls noMutate lfuel p in
     onMem (Minimize.sanitizeFix neutralize p)) (MkG (newRand r) s m) in
  if decide (length p < 1 ∨ ncalls < length p)%nat then Panic "bad number of calls after mutation" else Ret (p, gM g).

End Mutate.
