(* ===== verification/MutateSpec.v ===== *)
(** * MutateSpec: mutated programs are well formed

    Mutation of an argument of a call works on the layer of the results of the call: results
    are added to it by generators, removed from it and replaced in it, while calls are
    generated in front of it.  At the end the layer is again that of a call with the types of
    its description. *)

From S2P Require Import Prelude Rand Float64 Alloc Bytes Types Prog ExampleTarget Resources Prio ProgEdit Clone WellFormed Layers Collide Size Expr.
From S2P Require Import Validation Typing ArgTree Conditions Minimize MinimizeCalls MinimizeArgs Analysis Mutation Text RandData Generate GenGrow GenTypes GenSpec Squash Mutate.
Import Types Prog ProgEdit Clone WellFormed Layers Expr Validation Typing ArgTree RandData Generate GenGrow GenTypes GenSpec Mutate.

Module MutateSpec.

(** ** Positions *)

Lemma findPos_sub x a : ∀ pos, findPos x a = Some pos → subArg pos a = Some x.
Proof.
  induction a as [c v|c ad v r IH|c d s|c l IH|c o i t IH|i] using arg_ind; intros pos; cbn [findPos];
    (destruct (decide _) as [->|_]; [by intros [= <-]|]); try done.
  - destruct r as [p|]; [|done]. intros H. apply fmap_Some in H as (pos' & H & ->). cbn [subArg child]. by apply IH.
  - assert (∀ k pos, (fix go (k : nat) (l : list Arg) : option (list nat) :=
      match l with [] => None | a :: l => match findPos x a with Some pos => Some (k :: pos) | None => go (S k) l end end) k l = Some pos →
      ∃ j pos' a, pos = (k + j)%nat :: pos' ∧ l !! j = Some a ∧ subArg pos' a = Some x) as Hgo.
    { clear pos. induction l as [|a l IHl]; intros k pos H; [done|]. destruct (findPos x a) as [pos'|] eqn:E.
      - injection H as <-. exists 0%nat, pos', a. split_and!; [by rewrite Nat.add_0_r|done|]. apply IH; [apply list_elem_of_here|done].
      - destruct (IHl ltac:(intros y Hy; apply IH; by apply list_elem_of_further) (S k) pos H) as (j & pos' & b & -> & Hb & Hs).
        exists (S j), pos', b. split_and!; [f_equal; lia|done|done]. }
    intros H. destruct (Hgo 0%nat pos H) as (j & pos' & a & -> & Ha & Hs). change (0 + j)%nat with j. cbn [subArg child]. by rewrite Ha.
  - intros H. apply fmap_Some in H as (pos' & H & ->). cbn [subArg child]. by apply IH.
Qed.

Lemma findInArgs_sub x args : ∀ k j pos, findInArgs x k args = Some (j, pos) → ∃ n a, j = (k + n)%nat ∧ args !! n = Some a ∧ subArg pos a = Some x.
Proof.
  induction args as [|a args IH]; intros k j pos H; [done|]. cbn [findInArgs] in H. destruct (findPos x a) as [pos'|] eqn:E.
  - injection H as <- <-. exists 0%nat, a. split_and!; [lia|done|by apply findPos_sub].
  - destruct (IH _ _ _ H) as (n & b & -> & Hb & Hs). exists (S n), b. split_and!; [lia|done|done].
Qed.

Lemma nodeAt_inv pos c x : nodeAt pos c = Ret x → ∃ a, Args c !! pos.1 = Some a ∧ subArg pos.2 a = Some x.
Proof. unfold nodeAt. destruct (Args c !! pos.1) as [a|]; cbn; [|done]. destruct (subArg pos.2 a) eqn:E; [|done]. intros [= ->]. eauto. Qed.

Lemma locate_node x c pos : locate x c = Ret pos → nodeAt pos c = Ret x.
Proof.
  unfold locate. destruct (findInArgs x 0 (Args c)) as [[j q]|] eqn:E; [|done]. intros [= <-]. destruct (findInArgs_sub _ _ _ _ _ E) as (n & a & -> & Ha & Hs).
  unfold nodeAt. cbn [fst snd]. rewrite Nat.add_0_l, Ha. cbn. by rewrite Hs.
Qed.

(** The results of a call around a node. *)
Lemma putAt_results pos c old : nodeAt pos c = Ret old →
  ∃ rest, cloneOrder c ≡ₚ results old ++ rest ∧ ∀ new, cloneOrder (putAt pos new c) ≡ₚ results new ++ rest.
Proof.
  intros H. apply nodeAt_inv in H as (a & Ha & Hs). destruct (results_sub _ _ _ Hs) as (pre & post & Hr & Hn).
  exists (option_list (Ret_ c) ++ concat (results <$> take pos.1 (Args c)) ++ pre ++ post ++ concat (results <$> drop (S pos.1) (Args c))).
  assert (∀ y, concat (results <$> (take pos.1 (Args c) ++ y :: drop (S pos.1) (Args c))) =
    concat (results <$> take pos.1 (Args c)) ++ results y ++ concat (results <$> drop (S pos.1) (Args c))) as Hc.
  { intros y. rewrite fmap_app, fmap_cons, concat_app. done. }
  assert (∀ x A B C D : list positive, A ++ B ++ (C ++ x ++ D) ≡ₚ x ++ A ++ B ++ C ++ D) as Hperm.
  { intros x A B C D. rewrite (Permutation_app_comm x (A ++ B ++ C ++ D)), <-!app_assoc. do 3 apply Permutation_app_head. apply Permutation_app_comm. }
  split.
  - unfold cloneOrder. rewrite <-(take_drop_middle (Args c) pos.1 a Ha) at 1. rewrite Hc, Hr, <-!app_assoc, Hperm. done.
  - intros new. unfold cloneOrder, putAt, Minimize.setArgs. cbn [Ret_ Args].
    rewrite (MinimizeArgs.alter_insert _ _ _ _ Ha), insert_take_drop by (by eapply lookup_lt_Some). rewrite Hc, Hn, <-!app_assoc, Hperm. done.
Qed.

Lemma inData_setSub pos a old new : subArg pos a = Some old → inData a → inData new → inData (setSub pos new a).
Proof.
  revert a; induction pos as [|i pos IH]; intros a; [done|]. cbn [subArg].
  destruct a as [| c ad v [p|] | | c l | c o ix t |]; cbn [child setSub]; try done.
  - case_decide; [|done]. intros Hs Ha Hn. apply inData_pointer. intros x [= <-]. apply IH; [done| |done]. by eapply inData_pointer.
  - destruct (l !! i) as [x|] eqn:E; [|done]. intros Hs Ha Hn. rewrite inData_group in Ha |- *. intros y Hy. apply list_elem_of_lookup in Hy as [k Hk].
    destruct (decide (i = k)) as [<-|].
    + rewrite list_lookup_alter_eq, E in Hk. injection Hk as <-. apply IH; [done| |done]. apply Ha. by eapply list_elem_of_lookup_2.
    + rewrite list_lookup_alter_ne in Hk by done. apply Ha. by eapply list_elem_of_lookup_2.
  - case_decide; [|done]. intros Hs Ha Hn. apply inData_union. apply IH; [done| |done]. by eapply inData_union.
Qed.

Lemma inData_sub pos a old : subArg pos a = Some old → inData a → inData old.
Proof.
  revert a; induction pos as [|i pos IH]; intros a; [by injection 1 as ->|]. cbn [subArg].
  destruct a as [| c ad v [p|] | | c l | c o ix t |]; cbn [child]; try done.
  - case_decide; [|done]. intros Hs Ha. eapply IH; [done|]. by eapply inData_pointer.
  - destruct (l !! i) as [x|] eqn:E; [|done]. intros Hs Ha. eapply IH; [done|]. rewrite inData_group in Ha. apply Ha. by eapply list_elem_of_lookup_2.
  - case_decide; [|done]. intros Hs Ha. eapply IH; [done|]. by eapply inData_union.
Qed.

(** ** Visits that return *)

(** An invariant of a visit that may stop below an argument. *)
Lemma foreach_keeps {S} target getH (f : Arg → ArgCtx → S → res (S * bool)) (I : S → Prop) a :
  (∀ x ctx s s' stop, x ∈ nodes a → I s → f x ctx s = Ret (s', stop) → I s') →
  ∀ ctx s s', I s → foreachArgImpl target getH f a ctx s = Ret s' → I s'.
Proof.
  induction a as [c v|c ad v r IH|c d z|c l IH|c o i t IH|i] using arg_ind; intros Hf ctx s s' Hs H; cbn [foreachArgImpl] in H;
    apply bind_Ret in H as ([s1 stop] & H1 & H); (apply Hf in H1; [|apply list_elem_of_here|done]);
    (destruct stop; [by injection H as <-|]); try (by injection H as <-).
  - destruct r as [p|]; [|by injection H as <-]. eapply IH; [reflexivity| |exact H1|exact H]. intros x. intros. eapply Hf; [by apply list_elem_of_further|eauto..].
  - apply bind_Ret in H as (t & _ & H). apply bind_Ret in H as ([[k off] s2] & H & [= <-]).
    change (I ((k, off, s2).2)). eapply (for_list_keeps (λ st, I st.2) _ l (0, Offset ctx, s1)); [|exact H1|exact H]. intros x [[k1 off1] s3] st' Hx Hs3 Hst.
    apply bind_Ret in Hst as (s4 & H4 & Hst). apply bind_Ret in Hst as (z & _ & [= <-]). cbn [snd]. eapply IH; [exact Hx| |exact Hs3|exact H4].
    intros y. intros. eapply Hf; [|eauto..]. cbn [nodes]. apply list_elem_of_further, elem_of_concat. exists (nodes x). split; [by apply list_elem_of_fmap_2|done].
  - eapply IH; [|exact H1|exact H]. intros x. intros. eapply Hf; [by apply list_elem_of_further|eauto..].
Qed.

Lemma foreachCall_keeps {S} target getH (f : Arg → ArgCtx → S → res (S * bool)) (I : S → Prop) c s s' :
  (∀ x ctx s s' stop, I s → f x ctx s = Ret (s', stop) → I s') → I s → ForeachArg target getH f c s = Ret s' → I s'.
Proof.
  intros Hf Hs H. unfold ForeachArg in H. apply bind_Ret in H as (s1 & H1 & H). eapply for_list_keeps; [| |exact H].
  - intros x s2 s3 _ Hs2. eapply foreach_keeps; [|exact Hs2]. intros. by eapply Hf.
  - destruct (Ret_ c); [|by injection H1 as <-]. eapply foreach_keeps; [|exact Hs|exact H1]. intros. by eapply Hf.
Qed.

Section target.
Context (target : Target) (Htab : genTable target).
Notation typeAt := (typeAt (typeRefs target)).
Notation typed := (typed target).
Notation okCall := (okCall target).

(** What is known of a node of a call. *)
Lemma node_ok h pos c old : nodeAt pos c = Ret old → okCall h c → (∃ typ dir, typed h old typ dir) ∧ sizedArg target h old ∧ inData old.
Proof.
  intros H [[Ht _] Hs Hd _]. apply nodeAt_inv in H as (a & Ha & Hsub). pose proof (list_elem_of_lookup_2 _ _ _ Ha) as Hin. split_and!.
  - destruct (Forall2_lookup_l _ _ _ _ _ Ht Ha) as (f & _ & Hta). by eapply typed_sub.
  - eapply (sized_sub target h); [exact Hsub|]. intros x Hx. apply (Hs a x); [|done]. unfold callArgs. apply elem_of_app. by right.
  - eapply inData_sub; [exact Hsub|]. by apply Hd.
Qed.

Lemma putAt_ok h pos c old new : nodeAt pos c = Ret old → okCall h c → (∀ typ dir, typed h old typ dir → typed h new typ dir) →
  sizedArg target h new → inData new → okCall h (putAt pos new c).
Proof.
  intros H [[Ht Hret] Hs Hd Hm] Hty Hsz Hin. apply nodeAt_inv in H as (a & Ha & Hsub). unfold putAt.
  pose proof (MinimizeArgs.alter_insert (setSub pos.2 new) _ _ _ Ha) as Hal. split.
  - split; [|done]. cbn [Minimize.setArgs Meta Args]. rewrite Hal. apply Forall2_same_length_lookup. split; [rewrite length_insert; by eapply Forall2_length|].
    intros k b f Hb Hf. apply list_lookup_insert_Some in Hb as [(<- & <- & _)|[_ Hb]]; [|exact (Forall2_lookup_lr _ _ _ _ _ _ Ht Hb Hf)].
    eapply typed_setSub; [exact Hsub|exact Hty|]. exact (Forall2_lookup_lr _ _ _ _ _ _ Ht Ha Hf).
  - intros b x Hb Hx. unfold callArgs in Hb. cbn [Minimize.setArgs Ret_ Args] in Hb. rewrite Hal, elem_of_app in Hb. destruct Hb as [Hb|Hb].
    { apply (Hs b x); [|done]. unfold callArgs. apply elem_of_app. by left. }
    apply list_elem_of_lookup in Hb as [k Hk]. apply list_lookup_insert_Some in Hk as [(<- & <- & _)|[_ Hk]].
    + eapply (sized_setSub target h); [exact Hsub| |exact Hsz|exact Hx]. intros y Hy. apply (Hs a y); [|done]. unfold callArgs. apply elem_of_app. right.
      by eapply list_elem_of_lookup_2.
    + apply (Hs b x); [|done]. unfold callArgs. apply elem_of_app. right. by eapply list_elem_of_lookup_2.
  - intros b Hb. cbn [Minimize.setArgs Args] in Hb. rewrite Hal in Hb. apply list_elem_of_lookup in Hb as [k Hk].
    apply list_lookup_insert_Some in Hk as [(<- & <- & _)|[_ Hk]].
    + eapply inData_setSub; [exact Hsub| |exact Hin]. apply Hd. by eapply list_elem_of_lookup_2.
    + apply Hd. by eapply list_elem_of_lookup_2.
  - done.
Qed.

(** ** The layer of a call under mutation *)

(** The call is between [p1] and [p2]; [h0] is the heap at the beginning and [old] are the
    results of the program at the beginning. *)
Section work.
Context (p1 p2 : list Call) (h0 : heap) (old : list positive).

Definition live (E : list Call) (l : list positive) : list (list positive) := layers p1 ++ layers E ++ l :: layers p2.

(** [E] are the calls generated so far and [l] the results of the call. *)
Record work (E : list Call) (l : list positive) (g : gst) : Prop := {
  wk_lay : lay target (live E l) (gM g);
  wk_calls : Forall (okCall (mHeap (gM g))) E;
  wk_visible : ∀ i, visible (gS g) i → i ∈ progResults (p1 ++ E);
  wk_refs : sameRefs h0 (mHeap (gM g));
  wk_frame : ∀ i o, i ∉ old → h0 !! i = Some o → mHeap (gM g) !! i = Some o;
  wk_new : ∀ i, i ∈ concat (live E l) → i ∈ old ∨ h0 !! i = None
}.

Lemma live_app E l : live E l = layers (p1 ++ E) ++ l :: layers p2.
Proof. unfold live. by rewrite layers_app, <-app_assoc. Qed.

Lemma in_live E l i : i ∈ concat (live E l) ↔ i ∈ progResults (p1 ++ E) ∨ i ∈ l ∨ i ∈ progResults p2.
Proof. rewrite live_app, concat_app. cbn [concat]. by rewrite !elem_of_app, !in_layers. Qed.

Lemma work_ginv E l g : work E l g → ginv g.
Proof.
  intros W. split; [apply (wk_lay _ _ _ W)|]. intros i Hi. apply (wk_visible _ _ _ W) in Hi.
  destruct (lay_in _ _ _ i (wk_lay _ _ _ W)) as (o & ? & _); [apply in_live; by left|eauto].
Qed.

Lemma work_quiet E l g g' : core g' = core g → work E l g → work E l g'.
Proof. intros [= Hs Hm] [H1 H2 H3 H4 H5 H6]. split; rewrite ?Hm, ?Hs; done. Qed.

Lemma work_perm E l l' g : l ≡ₚ l' → work E l g → work E l' g.
Proof.
  intros Hl [H1 H2 H3 H4 H5 H6]. split; try done.
  - rewrite live_app in *. by eapply lay_perm.
  - intros i Hi. apply H6. rewrite in_live in *. by rewrite Hl.
Qed.

(** A step that changes live results only. *)
Lemma work_step E E' l l' g g' : work E l g → lay target (live E' l') (gM g') → Forall (okCall (mHeap (gM g'))) E' →
  (∀ i, visible (gS g') i → i ∈ progResults (p1 ++ E')) → sameRefs (mHeap (gM g)) (mHeap (gM g')) →
  (∀ i o, i ∉ concat (live E l) → mHeap (gM g) !! i = Some o → mHeap (gM g') !! i = Some o) →
  (∀ i, i ∈ concat (live E' l') → i ∈ concat (live E l) ∨ mHeap (gM g) !! i = None) → work E' l' g'.
Proof.
  intros [H1 H2 H3 H4 H5 H6] Hlay Hc Hv Hr Hf Hn. split; try done.
  - by etrans.
  - intros i o Hi Ho. apply Hf; [|by apply H5]. intros Hl. destruct (H6 i Hl) as [?|?]; [done|congruence].
  - intros i Hi. destruct (Hn i Hi) as [Hl|Hno]; [by apply H6|right]. destruct (h0 !! i) as [o|] eqn:E0; [|done].
    destruct (H4 i o E0) as (? & ? & _). congruence.
Qed.

Lemma work_gen E l g g' E' NA : work E l g → made target g g' (layers E') NA → Forall (okCall (mHeap (gM g'))) E' → work (E ++ E') (l ++ NA) g'.
Proof.
  intros W [G R] Hc. pose proof (grown_refs _ _ _ _ _ _ G) as Hr. pose proof (wk_lay _ _ _ W) as Hlay.
  assert (∀ r, visible (gS g) r → r ∈ concat (layers (p1 ++ E))) as HV by (intros r Hr'; apply in_layers; by apply (wk_visible _ _ _ W)).
  assert (∀ i, i ∈ concat (live (E ++ E') (l ++ NA)) ↔ i ∈ concat (live E l) ∨ i ∈ concat (layers E') ++ NA) as Hin.
  { intros i. rewrite !in_live, !elem_of_app, in_layers. unfold progResults. rewrite !fmap_app, !concat_app, !elem_of_app. tauto. }
  eapply work_step; [exact W| | | |exact Hr| |].
  - rewrite live_app in *. rewrite app_assoc, layers_app, <-app_assoc. by eapply lay_grown.
  - apply Forall_app. split; [eapply okCalls_refs; [exact Hr|apply W]|done].
  - intros i Hi. rewrite (visible_eq _ _ R) in Hi. apply (wk_visible _ _ _ W) in Hi. rewrite app_assoc. unfold progResults in *.
    rewrite fmap_app, concat_app, elem_of_app. by left.
  - intros i o Hi Ho. eapply grown_frame; [exact G|apply Hlay| |exact Ho]. intros Hv. apply Hi. apply in_live. left. by apply (wk_visible _ _ _ W).
  - intros i Hi. apply Hin in Hi as [Hi|Hi]; [by left|right]. apply (gr_new _ _ _ _ _ _ G) in Hi.
    destruct (mHeap (gM g) !! i) as [o|] eqn:E0; [|done]. apply (la_fresh _ _ _ Hlay) in E0. lia.
Qed.

(** Only the memory changes. *)
Lemma work_mem E l l' g g' : work E l g → gS g' = gS g → lay target (live E l') (gM g') → sameRefs (mHeap (gM g)) (mHeap (gM g')) →
  (∀ i o, i ∉ concat (live E l) → mHeap (gM g) !! i = Some o → mHeap (gM g') !! i = Some o) → (∀ i, i ∈ l' → i ∈ l) → work E l' g'.
Proof.
  intros W Hs Hlay Hr Hf Hl. eapply work_step; [exact W|done|eapply okCalls_refs; [exact Hr|apply W]|rewrite Hs; apply W|done|done|].
  intros i Hi. left. rewrite in_live in *. destruct Hi as [?|[?|?]]; auto.
Qed.

Lemma work_remove E l l' args g m' g' : work E l g → l ≡ₚ concat (results <$> args) ++ l' →
  (∀ a, a ∈ args → sizedArg target (mHeap (gM g)) a) → for_list (removeArg target) args (gM g) = Ret m' → gM g' = m' → gS g' = gS g →
  work E l' g' ∧ sameRefs (mHeap (gM g)) (mHeap (gM g')).
Proof.
  intros W Hl Hs H Hm HS. pose proof (wk_lay _ _ _ W) as Hlay. pose proof (work_perm _ _ _ _ Hl W) as [Hlay2 _ _ _ _ _].
  destruct (removeArgs_spec target args (list_to_set (concat (live E l))) (gM g)) as (m1 & E1 & Hf & Hu).
  - apply Hlay.
  - apply Hlay.
  - apply Hlay.
  - apply la_nodup in Hlay2. rewrite live_app, concat_app in Hlay2. cbn [concat] in Hlay2. apply NoDup_app in Hlay2 as (_ & _ & Hnd).
    apply NoDup_app in Hnd as (Hnd & _). by apply NoDup_app in Hnd as (? & _).
  - intros i Hi. rewrite elem_of_list_to_set, in_live, Hl, elem_of_app. tauto.
  - intros a x Ha Hx. by apply (Hs a).
  - rewrite H in E1. injection E1 as <-. subst m'. split; [|apply Hu]. eapply work_mem; [exact W|done| |apply Hu| |].
    + rewrite live_app in *. eapply lay_unlinked; [exact Hlay|exact Hl|done|exact Hu].
    + intros i o Hi. apply (un_frame _ _ _ _ Hu). by rewrite elem_of_list_to_set.
    + intros i Hi. rewrite Hl, elem_of_app. by right.
Qed.

Lemma work_replace E l i i1 o o1 g h' g' : work E (i :: i1 :: l) g → mHeap (gM g) !! i = Some o → mHeap (gM g) !! i1 = Some o1 → uses o1 = ∅ →
  rRef o1 = rRef o → rDir o1 = rDir o → replaceResultArg i i1 (mHeap (gM g)) = Ret h' → gM g' = Mem h' (mNext (gM g)) → gS g' = gS g → work E (i :: l) g'.
Proof.
  intros W Hi Hi1 Hu Hr Hd H Hm HS. pose proof (wk_lay _ _ _ W) as Hlay. rewrite live_app in Hlay.
  destruct (lay_replace target _ _ _ _ _ _ _ _ _ Hlay Hi Hi1 Hu Hr Hd H) as (Hlay' & Hrefs & Hfr).
  eapply work_mem; [exact W|done|rewrite live_app, Hm; exact Hlay'|by rewrite Hm| |].
  - intros j x Hj Hx. rewrite Hm. cbn [mHeap]. apply Hfr; [|done]. by rewrite live_app in Hj.
  - intros j. rewrite !elem_of_cons. tauto.
Qed.

(** ** Mutation of arguments *)

(** The argument [arg] became [a], with the new calls in [E]; [rest] are the other results
    of the call. *)
Record becomes (E : list Call) (rest : list positive) (arg a : Arg) (g : gst) : Prop := {
  bc_work : work E (results a ++ rest) g;
  bc_typed : ∀ typ dir, typed (mHeap (gM g)) arg typ dir → typed (mHeap (gM g)) a typ dir;
  bc_sized : sizedArg target (mHeap (gM g)) a;
  bc_data : inData a
}.

(** Values do not matter. *)
Lemma becomes_same E rest arg a g : work E (results arg ++ rest) g → sizedArg target (mHeap (gM g)) arg → inData arg → erase a = erase arg →
  becomes E rest arg a g.
Proof.
  intros W Hs Hd He. split.
  - by rewrite <-(results_erase a), He, results_erase.
  - intros typ dir Ht. apply typed_erase. rewrite He. by apply typed_erase.
  - intros x Hx. assert (erase x ∈ nodes (erase arg)) as Hx2 by (rewrite <-He, nodes_erase; by apply list_elem_of_fmap_2).
    rewrite nodes_erase in Hx2. apply list_elem_of_fmap in Hx2 as (y & Hxy & Hy). destruct (Hs y Hy) as [z Hz]. exists z.
    by rewrite <-size_erase, Hxy, size_erase.
  - apply inData_erase. rewrite He. by apply inData_erase.
Qed.

(** An argument of the same type and direction whose shape does not depend on the direction. *)
Lemma typed_same h arg a r d t : argRef h arg = Ret r → argRef h a = Ret r → argDir h arg = Ret d → argDir h a = Ret d → typeAt r = Ret t →
  (∀ dir, shaped target h a t dir) → ∀ typ dir, typed h arg typ dir → typed h a typ dir.
Proof.
  intros Hr Hr' Hd Hd' Ht Hs typ dir H. destruct H as [arg ? ? dir' r0 ad tt t0 Htt Hdir Hr0 Hany Had Had' Ht0 _].
  assert (r0 = r) as -> by congruence. assert (ad = d) as -> by congruence. assert (t0 = t) as -> by congruence.
  econstructor; eauto.
Qed.

Definition noPtr (t : Typ) : bool := match t with PtrType _ _ _ => false | _ => isScalar t end.

Lemma deref_inv h i o : deref h i = Ret o → h !! i = Some o.
Proof. unfold deref. destruct (h !! i); [|done]. by intros [= ->]. Qed.

Lemma head_refs h h' arg r d : sameRefs h h' → argRef h arg = Ret r → argDir h arg = Ret d → argRef h' arg = Ret r ∧ argDir h' arg = Ret d.
Proof.
  intros Hh. destruct arg as [| | | | |i]; try done. cbn [argRef argDir]. unfold deref. destruct (h !! i) as [o|] eqn:E; [|done]. destruct (Hh i o E) as (o' & -> & Hr & Hd). cbn [rbind]. by rewrite Hr, Hd.
Qed.

(** A result takes the contents of a new one. *)
Lemma result_becomes E rest i i1 g g1 g2 o0 o1 h' : work E (i :: rest ++ [i1]) g1 → sameRefs (mHeap (gM g)) (mHeap (gM g1)) →
  mHeap (gM g) !! i = Some o0 → mHeap (gM g1) !! i1 = Some o1 → rRef o1 = rRef o0 → rDir o1 = rDir o0 → uses o1 = ∅ →
  sizedArg target (mHeap (gM g)) (ResultArg i) → replaceResultArg i i1 (mHeap (gM g1)) = Ret h' → gM g2 = Mem h' (mNext (gM g1)) → gS g2 = gS g1 →
  becomes E rest (ResultArg i) (ResultArg i) g2.
Proof.
  intros W Hrf Hi Hi1 Hr Hd Hu Hsz H Hm HS. destruct (Hrf i o0 Hi) as (oi & Hoi & Hri & Hdi).
  pose proof (lay_replace target (layers (p1 ++ E)) rest (layers p2) i i1 oi o1 (gM g1) h') as Hlr.
  assert (work E (i :: i1 :: rest) g1) as W1 by (eapply work_perm; [|exact W]; apply perm_skip; by rewrite Permutation_app_comm).
  assert (work E (i :: rest) g2) as W2 by (eapply (work_replace E rest i i1 oi o1 g1 h' g2); congruence || done).
  destruct Hlr as (_ & Hrf2 & _); [rewrite <-live_app; apply (wk_lay _ _ _ W1)|done|done|done|congruence|congruence|done|].
  split; [done|done| |by apply inData_leaf]. rewrite Hm. cbn [mHeap]. eapply sizedArg_refs; [|exact Hsz]. by etrans.
Qed.

Lemma gstep_gives (m : gst → res ((Arg * list Call) * gst)) r dir E l g a calls g' : gives target m r dir → work E l g → m g = Ret ((a, calls), g') →
  work (E ++ calls) (l ++ results a) g' ∧ fits target (mHeap (gM g')) a r dir ∧ sameRefs (mHeap (gM g)) (mHeap (gM g')) ∧
  ∀ i o, i ∈ results a → mHeap (gM g') !! i = Some o → uses o = ∅.
Proof.
  intros Hm W H. pose proof (work_ginv _ _ _ W) as Hg. destruct (Hm g a calls g' Hg H) as (M & F & O). split_and!; [by eapply work_gen|done|by eapply made_refs|].
  intros i o Hi Ho. destruct M as [G _]. destruct Hg as [Hf Hd]. by eapply grown_unused.
Qed.

(** A leaf without results is replaced by a new one. *)
Lemma leaf_becomes E rest arg a g1 g2 r d t (h : heap) : work E rest g1 → core g2 = core g1 → nodes a = [a] → (∀ c x y, a ≠ DataArg c x y) → results a = [] →
  argRef h arg = Ret r → argDir h arg = Ret d → sameRefs h (mHeap (gM g1)) → argRef (mHeap (gM g1)) a = Ret r → argDir (mHeap (gM g1)) a = Ret d →
  typeAt r = Ret t → (∀ dir, shaped target (mHeap (gM g1)) a t dir) → (∃ z, Size target (mHeap (gM g1)) a = Ret z) → becomes E rest arg a g2.
Proof.
  intros W HC Hn Hnd Hres Hr Hd Hh Hra Hda Ht Hs Hz. assert (gM g2 = gM g1) as Hm by (by injection HC). split; rewrite ?Hm.
  - rewrite Hres. by eapply work_quiet.
  - assert (argRef (mHeap (gM g1)) arg = Ret r ∧ argDir (mHeap (gM g1)) arg = Ret d) as [Hr' Hd'] by (by eapply head_refs). by eapply typed_same.
  - intros x Hx. rewrite Hn in Hx. by apply list_elem_of_singleton in Hx as ->.
  - apply inData_leaf; [done|]. destruct a; try done. by destruct (Hnd c data size).
Qed.

(** Identities are drawn and memory is reserved. *)
Lemma work_bump E l g g' : work E l g → mHeap (gM g') = mHeap (gM g) → (mNext (gM g) ≤ mNext (gM g'))%positive →
  Analysis.resources (gS g') = Analysis.resources (gS g) → work E l g'.
Proof.
  intros W Hh Hn HR. eapply work_step; [exact W| |rewrite Hh; apply W| |rewrite Hh; reflexivity|by rewrite Hh|by left].
  - destruct (wk_lay _ _ _ W) as [H1 H2 H3 H4 H5]. split; rewrite ?Hh; try done. intros i o Hi. rewrite Hh in Hi. apply H4 in Hi. lia.
  - rewrite (visible_eq _ _ HR). apply W.
Qed.

(** Another pointer to the same argument, or to none. *)
Lemma typed_pointer h c addr v p id addr' p' tc elem ed : typeAt (aref c) = Ret (PtrType tc elem ed) → (∀ x, p' = Some x → p = Some x) →
  ∀ typ dir, typed h (PointerArg c addr v p) typ dir → typed h (PointerArg (MkCommon id (aref c) DirIn) addr' 0 p') typ dir.
Proof.
  intros Ht Hp typ dir H. inversion H as [? ? ? dir' r ad tt t Htt Hdir Hr Hany Had Hd' Ht' Hsh]; subst. injection Hr as <-. injection Had as <-.
  rewrite Ht in Ht'. injection Ht' as <-. inversion Hsh; subst. econstructor; [exact Htt|reflexivity|done|exact Hany|done| |exact Ht|].
  - cbn [adir]. destruct (if isPtrType tt then DirIn else dir); destruct (adir c); destruct Hd'; try tauto; try congruence.
  - constructor; [done|]. eauto.
Qed.

Lemma pointer_becomes E rest c addr v p id addr' p' tc elem ed g : typeAt (aref c) = Ret (PtrType tc elem ed) → (∀ x, p' = Some x → p = Some x) →
  work E (results (PointerArg (MkCommon id (aref c) DirIn) addr' 0 p') ++ rest) g → sizedArg target (mHeap (gM g)) (PointerArg c addr v p) → inData (PointerArg c addr v p) →
  becomes E rest (PointerArg c addr v p) (PointerArg (MkCommon id (aref c) DirIn) addr' 0 p') g.
Proof.
  intros Ht Hp W Hs Hd. split; [done|by eapply typed_pointer| |].
  - intros x Hx. cbn [nodes] in Hx. apply elem_of_cons in Hx as [->|Hx]; [exact (Hs _ (list_elem_of_here _ _))|].
    destruct p' as [q|]; [|by apply elem_of_nil in Hx]. rewrite (Hp q eq_refl) in Hs. apply Hs. cbn [nodes]. by apply list_elem_of_further.
  - apply inData_pointer. intros x Hx. apply (proj1 (inData_pointer _ _ _ _) Hd). by apply Hp.
Qed.

Lemma allocAddr_inv r tc elem ed dir size data g a g' : typeAt r = Ret (PtrType tc elem ed) → allocAddr target (PtrType tc elem ed) dir size data g = Ret (a, g') →
  (∃ id addr, a = PointerArg (MkCommon id r DirIn) addr 0 (Some data)) ∧ mHeap (gM g') = mHeap (gM g) ∧ ∀ E l, work E l g → work E l g'.
Proof.
  intros Ht H. unfold allocAddr in H. gstep H h g3 E. injection E as <- <-. gstep H td g3 E. apply pure_Ret in E as [_ ->].
  gstep H addr g4 E. unfold onState in E. apply bind_Ret in E as ([ad s] & Es & [= <- <-]). apply bind_Ret in Es as ([ad' ma] & _ & [= <- <-]).
  apply onMem_Ret in H as [H Hs]. cbn [gM gS] in H, Hs. unfold MakePointerArg in H. rewrite (refAt target Htab _ _ Ht) in H. cbn [rbind alloc] in H. injection H as <- Hm.
  split; [by eexists _, _|]. split; [by rewrite <-Hm|]. intros E l W. eapply work_bump; [exact W|by rewrite <-Hm|rewrite <-Hm; cbn; lia|by rewrite Hs].
Qed.

(** The base pointer gets new memory. *)
Lemma replace_pointer c addr v p c1 addr1 v1 p1' m a m' : replaceArg target (PointerArg c addr v p) (PointerArg c1 addr1 v1 p1') m = Ret (a, m') →
  a = PointerArg (withId (aid c) c1) addr1 v1 p1' ∧ m' = m.
Proof. cbn [replaceArg]. destruct (decide _); [done|]. by intros [= <- <-]. Qed.

Section mutation.
Context (Arch : string) (SpecialFileLenghts : list Z) (resourceCtors : string → list Resources.ResourceCtor).
Notation ga := (bool → Typ → Dir → gst → res ((Arg * list Call) * gst)) (only parsing).
Context (SpecialTypes : string → option (ga → Typ → Dir → gst → res ((Arg * list Call) * gst))).
Context (SpecialMutate : string → option (Typ → Dir → Arg → gst → res ((Arg * list Call) * gst))).
Context (ifuzzGenerate : Config → rng → list Z * rng) (ifuzzMutate : Config → list Z → rng → list Z * rng).
Context (compress decompress : list Z → list Z) (ct : Prio.ChoiceTable) (corpus : list (list Call)).
Context (order : list (positive * Arg) → list (positive * Arg)).
Context (resOrder : list (string * list positive) → list (string * list positive)).
Context (dfuel lfuel fuel : nat).

Notation generateArg := (generateArgImpl target Arch SpecialFileLenghts resourceCtors SpecialTypes ifuzzGenerate ct corpus order resOrder dfuel lfuel fuel false).
Notation regenerate := (Mutate.regenerate target Arch SpecialFileLenghts resourceCtors SpecialTypes ifuzzGenerate ct corpus order resOrder dfuel lfuel fuel).
Notation growArray := (Mutate.growArray target Arch SpecialFileLenghts resourceCtors SpecialTypes ifuzzGenerate ct corpus order resOrder dfuel lfuel fuel).
Notation mutateArray := (Mutate.mutateArray target Arch SpecialFileLenghts resourceCtors SpecialTypes ifuzzGenerate ct corpus order resOrder dfuel lfuel fuel).
Notation mutateUnion := (Mutate.mutateUnion target Arch SpecialFileLenghts resourceCtors SpecialTypes SpecialMutate ifuzzGenerate ct corpus order resOrder dfuel lfuel fuel).
Notation mutateBuffer := (Mutate.mutateBuffer target Arch SpecialFileLenghts ifuzzMutate compress decompress lfuel).
Notation mutate := (Mutate.mutate target Arch SpecialFileLenghts resourceCtors SpecialTypes SpecialMutate ifuzzGenerate ifuzzMutate compress decompress
  ct corpus order resOrder dfuel lfuel fuel).

Hypothesis Hgen : ∀ r t dir, typeAt r = Ret t → gives target (generateArg t dir) r dir.
Hypothesis Hspecial : ∀ name, SpecialMutate name = None.

Lemma regenerate_spec E rest t arg g res g' : work E (results arg ++ rest) g → (∃ typ dir, typed (mHeap (gM g)) arg typ dir) → sizedArg target (mHeap (gM g)) arg →
  argType target (mHeap (gM g)) arg = Ret t → noPtr t = true → regenerate t arg g = Ret (res, g') →
  mRetry res = false ∧ becomes (E ++ mCalls res) rest arg (mArg res) g'.
Proof.
  intros W (typ0 & dir0 & Hty) Hsz Ht Hnp H. unfold Mutate.regenerate in H. gstep H h g1 E1. injection E1 as <- <-. gstep H dir g1 E1. apply pure_Ret in E1 as [Hdir ->].
  gstep H nc g1 E1. destruct nc as [new calls]. gstep H a g2 E2. apply onMem_Ret in E2 as [E2 HS]. injection H as <- <-. cbn [mRetry mCalls mArg]. split; [done|].
  destruct (typed_shape _ _ _ _ _ Hty) as (r & t' & dir' & Hr & Htr & Ht' & Hsh). assert (t' = t) as -> by congruence.
  destruct (gstep_gives _ _ _ _ _ _ _ _ _ (Hgen r t dir Htr) W E1) as (W1 & [Ft Fs Fd (tn & Htn & Hrn & Hdn)] & Hrf & Hun).
  assert (tn = t) as -> by congruence. assert (isPtrType t = false) as Hpt by (by destruct t). rewrite Hpt in Hdn.
  assert (∃ tr dn, shaped target (mHeap (gM g1)) new tr dn ∧ tr = t) as (tr & dn & Hshn & ->).
  { destruct (typed_shape _ _ _ _ _ Ft) as (r2 & t2 & d2 & Hr2 & Ht2 & _ & Hs2). exists t2, d2. split; [done|congruence]. }
  destruct t; try discriminate; inversion Hsh; subst; try discriminate; inversion Hshn; subst; try discriminate; cbn [replaceArg] in E2;
    (destruct (decide (argIdOf _ = argIdOf _)); [discriminate|]).
  1: { cbn [results nodes omap list_omap resultOf app] in W1. apply bind_Ret in E2 as (h' & E2 & [= <- Hm]).
       cbn [argRef argDir] in Hr, Hrn, Hdir, Hdn. apply bind_Ret in Hr as (o0 & Ho0 & [= Hr0]). rewrite Ho0 in Hdir. injection Hdir as Hd0.
       apply bind_Ret in Hrn as (o1 & Ho1 & [= Hr1]). rewrite Ho1 in Hdn. injection Hdn as Hd1. apply deref_inv in Ho0, Ho1.
       eapply (result_becomes _ _ i i0 g g1 g2 o0 o1 h'); try done; [congruence|congruence|]. apply (Hun i0); [cbn; apply list_elem_of_here|done]. }
  all: injection E2 as <- Hm; cbn [results nodes omap list_omap resultOf app] in W1; rewrite app_nil_r in W1.
  all: eapply (leaf_becomes _ _ _ _ g1 g2 r dir _ (mHeap (gM g))); [exact W1|unfold core; congruence|done|done|done|exact Hr|exact Hdir|exact Hrf|exact Hrn|exact Hdn|exact Htr|intros d; by constructor|exact (Fs _ (list_elem_of_here _ _))].
Qed.

(** Data of the same buffer. *)
Lemma data_becomes E rest c d sz d' sz' r tc desc g g' : work E rest g → core g' = core g → (∃ typ dir, typed (mHeap (gM g)) (DataArg c d sz) typ dir) →
  aref c = r → typeAt r = Ret (BufferType tc desc) → (adir c = DirOut → d' = []) → (adir c ≠ DirOut → sz' = 0) →
  (IsVarlen tc = false → (if decide (d' ≠ []) then Z.of_nat (length d') else sz') = TypeSize tc) →
  becomes E rest (DataArg c d sz) (DataArg c d' sz') g'.
Proof.
  intros W HC Hty <- Ht Hout Hin Hsz. assert (gM g' = gM g) as Hm by (by injection HC). split; rewrite ?Hm.
  - by eapply work_quiet.
  - eapply (typed_same _ _ _ (aref c) (adir c)); try done. intros dir. constructor; [done|]. intros Hv. simpl. by rewrite Hsz.
  - intros x Hx. apply list_elem_of_singleton in Hx as ->. simpl. eauto.
  - by apply inData_leaf.
Qed.

Lemma buffer_spec E rest tc desc c d sz g res g' : work E rest g → (∃ typ dir, typed (mHeap (gM g)) (DataArg c d sz) typ dir) →
  typeAt (aref c) = Ret (BufferType tc desc) → (adir c = DirOut → IsVarlen tc = true) → inData (DataArg c d sz) →
  mutateBuffer (BufferType tc desc) desc (DataArg c d sz) g = Ret (res, g') →
  core g' = core g ∧ mCalls res = [] ∧ becomes E rest (DataArg c d sz) (mArg res) g'.
Proof.
  intros W Hty Ht Hch Hd H. unfold Mutate.mutateBuffer in H.
  assert (∀ dir, shaped target (mHeap (gM g)) (DataArg c d sz) (BufferType tc desc) dir → (adir c = DirOut → d = []) ∧
    (IsVarlen tc = false → Prog.Size target (mHeap (gM g)) (DataArg c d sz) = Ret (TypeSize tc))) as Hinv by (intros dir Hs; inversion Hs; subst; done).
  destruct Hty as (typ & dir & Hty). pose proof (typed_shape _ _ _ _ _ Hty) as (r & t & dir' & Hr & Hrt & _ & Hsh). injection Hr as <-. rewrite Ht in Hrt. injection Hrt as <-.
  destruct (Hinv _ Hsh) as [Hout Hfix]. clear Hinv Hsh.
  assert (∀ d' sz' g1, core g1 = core g → (adir c = DirOut → d' = []) → (adir c ≠ DirOut → sz' = 0) →
    (IsVarlen tc = false → adir c ≠ DirOut → Z.of_nat (length d') = TypeSize tc) →
    becomes E rest (DataArg c d sz) (DataArg c d' sz') g1) as Hdata.
  { intros d' sz' g1 HC Ho Hi Hs. eapply data_becomes; eauto. intros Hv. assert (adir c ≠ DirOut) as Hno by (intros Ho'; rewrite (Hch Ho') in Hv; done).
    rewrite <-(Hs Hv Hno). destruct d'; [rewrite decide_False by (by intros Hx; apply Hx); by rewrite (Hi Hno)|by rewrite decide_True]. }
  assert (sz = 0 ∨ adir c = DirOut) as Hsz0. { destruct (decide (adir c = DirOut)); [by right|left]. apply (Hd (DataArg c d sz)); [apply list_elem_of_here|done]. }
  assert (IsVarlen tc = false → adir c ≠ DirOut → Z.of_nat (length d) = TypeSize tc) as Hlen.
  { intros Hv Hno. specialize (Hfix Hv). simpl in Hfix. injection Hfix as Hfix. rewrite <-Hfix. destruct Hsz0 as [->|?]; [|done].
    destruct d; [by rewrite decide_False by (by intros Hx; apply Hx)|by rewrite decide_True]. }
  destruct (match bufKind desc with BufferBlobRange => _ | _ => _ end) as [minLen maxLen] eqn:Elen. destruct (decide (adir c = DirOut)) as [Ho|Hno].
  { gstep H b g1 E1. gstep H sz1 g2 E2. injection H as <- <-. cbn [mCalls mArg].
    assert (core g1 = core g) as C1 by (destruct (bufKind desc); first [by injection E1 as _ <-|by apply quiet_draw in E1]).
    assert (core g2 = core g1) as C2 by (destruct b; [gstep E2 k g3 E3; apply quiet_draw in E3; by injection E2 as _ <-|by apply quiet_draw in E2]).
    split_and!; [congruence|done|]. apply Hdata; [congruence|done|done|done]. }
  destruct Hsz0 as [->|?]; [|done]. gstep H st g1 E1. injection E1 as <- <-.
  assert (∀ d' g1, core g1 = core g → (IsVarlen tc = false → Z.of_nat (length d') = TypeSize tc) →
    core g1 = core g ∧ @nil Call = [] ∧ becomes E rest (DataArg c d 0) (DataArg c d' 0) g1) as Hset by (intros d' g1 HC Hl; split_and!; [done|done|]; apply Hdata; auto; done).
  pose proof (gt_buffer _ Htab _ _ _ Ht) as Hbuf. unfold fixedBuffer in Hbuf. destruct (bufKind desc) eqn:Ek.
  - gstep H d' g1 E1. injection H as <- <-. apply Hset; [by apply quiet_draw in E1|]. intros Hv. by destruct (Hbuf Hv) as (_ & _ & []).
  - injection Elen as <- <-. gstep H d' g1 E1. injection H as <- <-. apply draw_Ret in E1 as (C1 & r1 & r2 & E1). apply Hset; [done|]. intros Hv.
    destruct (Hbuf Hv) as (_ & _ & Hb & He & _). rewrite Hb, He in E1. apply Mutation.mutateData_fixed in E1; [done|]. by apply Hlen.
  - destruct (decide (bufValues desc ≠ [])) as [Hne|Hno'].
    + gstep H d' g1 E1. injection H as <- <-. apply draw_Ret in E1 as (C1 & r1 & r2 & E1). apply Hset; [done|]. intros Hv. destruct (Hbuf Hv) as (_ & Hvals & _).
      rewrite Forall_forall in Hvals. apply Hvals. by eapply randString_values.
    + assert (IsVarlen tc = true) as Hv by (destruct (IsVarlen tc); [done|]; by destruct (Hbuf eq_refl) as (_ & _ & ?)).
      destruct (decide (TypeSize _ ≠ 0)); gstep H d' g1 E1; injection H as <- <-; (apply Hset; [by apply quiet_draw in E1|congruence]).
  - gstep H d' g1 E1. injection H as <- <-. apply draw_Ret in E1 as (C1 & r1 & r2 & E1). apply Hset; [done|]. intros Hv. destruct (Hbuf Hv) as (H0 & _).
    by eapply filename_length.
  - gstep H d' g1 E1. injection H as <- <-. apply Hset; [by apply quiet_draw in E1|]. intros Hv. by destruct (Hbuf Hv) as (_ & _ & []).
  - destruct (decide (bufValues desc ≠ [])) as [Hne|Hno'].
    + gstep H d' g1 E1. injection H as <- <-. apply draw_Ret in E1 as (C1 & r1 & r2 & E1). apply Hset; [done|]. intros Hv. destruct (Hbuf Hv) as (_ & Hvals & _).
      rewrite Forall_forall in Hvals. apply Hvals. by eapply randString_values.
    + gstep H d' g1 E1. injection H as <- <-. apply draw_Ret in E1 as (C1 & r1 & r2 & E1). apply Hset; [done|]. intros Hv. by destruct (Hbuf Hv) as (_ & _ & ?).
  - gstep H dr g1 E1. destruct dr as [d' retry]. injection H as <- <-. cbn [mCalls mArg]. apply Hset; [by apply quiet_draw in E1|]. intros Hv. by destruct (Hbuf Hv) as (_ & _ & []).
Qed.

(** Elements of an array, old ones or new ones. *)
Lemma array_becomes E rest c inner inner' tc elem kind rb re g : typeAt (aref c) = Ret (ArrayType tc elem kind rb re) → (kind = ArrayRangeLen → rb ≠ re) →
  work E (results (GroupArg c inner') ++ rest) g → sizedArg target (mHeap (gM g)) (GroupArg c inner) → inData (GroupArg c inner) →
  (∀ x, x ∈ inner' → x ∈ inner ∨ fits target (mHeap (gM g)) x elem (adir c)) → becomes E rest (GroupArg c inner) (GroupArg c inner') g.
Proof.
  intros Ht Hne W Hs Hd Hin. apply (sized_group target (mHeap (gM g))) in Hs as [Hs Hsi]. rewrite inData_group in Hd.
  assert (∀ x, x ∈ inner' → sizedArg target (mHeap (gM g)) x) as Hsz by (intros x Hx; destruct (Hin x Hx) as [Hx'|F]; [by apply Hsi|apply F]).
  split; [done| | |].
  - intros typ dir H. inversion H as [? ? ? dir' r ad tt t Htt Hdir Hr Hany Had Hd' Ht' Hsh]; subst. injection Hr as <-. injection Had as <-.
    rewrite Ht in Ht'. injection Ht' as <-.
    assert (aref c = typ) as Heq. { destruct Hany as [?|Ha]; [done|]. unfold isAnyPtrRef in Ha. rewrite Ht in Ha. discriminate Ha. }
    rewrite <-Heq, Ht in Htt. injection Htt as <-. cbn [isPtrType] in *. econstructor; [by rewrite <-Heq|reflexivity|done|by left|done|exact Hd'|exact Ht|].
    inversion Hsh; subst. constructor; [|intros Hk Hr; by destruct (Hne Hk)]. apply Forall_forall. intros x Hx.
    destruct (Hin x Hx) as [Hx'|F]; [match goal with HF : Forall _ inner |- _ => rewrite Forall_forall in HF; by apply HF end|].
    destruct Hd' as [<-| ->]; [apply F|]. eapply typed_inout, F.
  - apply (sized_group target (mHeap (gM g))). split; [|done]. eapply group_size; [exact Hs|]. intros x Hx. by apply sized_head, Hsz.
  - apply inData_group. intros x Hx. destruct (Hin x Hx) as [Hx'|F]; [by apply Hd|apply F].
Qed.

Lemma swapElems_perm n : ∀ inner r inner' r', swapElems n inner r = Ret (inner', r') → inner' ≡ₚ inner.
Proof.
  induction n as [|n IH]; intros inner r inner' r' H; [done|]. cbn [swapElems] in H. apply bind_Ret in H as ([go r1] & _ & H).
  destruct go; [|by injection H as <- _]. apply bind_Ret in H as ([i r2] & _ & H). apply bind_Ret in H as ([j r3] & _ & H).
  apply bind_Ret in H as (x & Hx & H). apply bind_Ret in H as (y & Hy & H). apply IH in H. rewrite H.
  unfold index in Hx, Hy. destruct (decide _); [|done]. destruct (inner !! Z.to_nat i) as [x'|] eqn:Ex; [|done]. injection Hx as ->.
  destruct (decide _); [|done]. destruct (inner !! Z.to_nat j) as [y'|] eqn:Ey; [|done]. injection Hy as ->. by apply Permutation_insert_swap.
Qed.

(** New calls are noted. *)
Lemma notes_visible h calls : ∀ s s' i, Forall (sizedCall target h) calls → for_list (λ c s, Analysis.analyzeImpl target h c true s) calls s = Ret s' →
  visible s' i → visible s i ∨ i ∈ progResults calls.
Proof.
  induction calls as [|c calls IH]; intros s s' i Hs H Hi; [injection H as <-; by left|]. apply Forall_cons in Hs as [Hc Hs]. cbn [for_list] in H.
  apply bind_Ret in H as (s1 & H1 & H). unfold progResults. rewrite fmap_cons. cbn [concat]. rewrite elem_of_app.
  destruct (IH _ _ _ Hs H Hi) as [Hi'|?]; [|tauto]. destruct (analyze_visible target _ _ _ _ _ _ Hc H1 Hi'); tauto.
Qed.

Lemma grow_spec te elem dir n : typeAt elem = Ret te → ∀ inner0 E l g inner calls g', work E l g → growArray te dir n inner0 g = Ret ((inner, calls), g') →
  ∃ new, inner = inner0 ++ new ∧ work (E ++ calls) (l ++ concat (results <$> new)) g' ∧ Forall (λ x, fits target (mHeap (gM g')) x elem dir) new ∧
    sameRefs (mHeap (gM g)) (mHeap (gM g')).
Proof.
  intros Hte. unfold Mutate.growArray.
  assert (∀ ks inner0 calls0 E l g inner calls g', work E l g → gfor (λ (_ : nat) '(inner, calls), let* '(new, newCalls) := generateArg te dir in let* h := getHeap in
    let* _ := onState (λ s, let! s := for_list (λ c s, Analysis.analyzeImpl target h c true s) newCalls s in Ret (tt, s)) in
    gret (inner ++ [new], calls ++ newCalls)) ks (inner0, calls0) g = Ret ((inner, calls), g') →
    ∃ new E', inner = inner0 ++ new ∧ calls = calls0 ++ E' ∧ work (E ++ E') (l ++ concat (results <$> new)) g' ∧ Forall (λ x, fits target (mHeap (gM g')) x elem dir) new ∧
      sameRefs (mHeap (gM g)) (mHeap (gM g'))) as Hloop.
  2: { intros inner0 E l g inner calls g' W H. destruct (Hloop _ _ _ _ _ _ _ _ _ W H) as (new & E' & -> & -> & ?). by exists new. }
  induction ks as [|k ks IH]; intros inner0 calls0 E l g inner calls g' W H.
  { injection H as <- <- <-. exists [], []. rewrite !app_nil_r. split_and!; [done|done|done|constructor|reflexivity]. }
  cbn [gfor] in H. gstep H s1 g1 E1. gstep E1 nc g2 E2. destruct nc as [a newCalls]. gstep E1 h1 g3 E3. injection E3 as <- <-. gstep E1 u g3 E3. injection E1 as <- <-.
  destruct (gstep_gives _ _ _ _ _ _ _ _ _ (Hgen elem te dir Hte) W E2) as (W1 & F1 & Hr1 & _).
  unfold onState in E3. apply bind_Ret in E3 as ([u' st1] & E3 & [= _ <-]). apply bind_Ret in E3 as (st2 & E3 & [= _ <-]).
  assert (work (E ++ newCalls) (l ++ results a) (MkG (gR g2) st2 (gM g2))) as W2.
  { eapply work_step; [exact W1|apply W1|apply W1| |reflexivity|done|by left]. cbn [gS]. intros i Hi.
    pose proof (wk_calls _ _ _ W1) as Hc. apply Forall_app in Hc as [_ Hc].
    destruct (notes_visible _ _ _ _ _ ltac:(eapply Forall_impl; [exact Hc|intros c0; apply ok_sized]) E3 Hi) as [Hv|Hv]; [by apply (wk_visible _ _ _ W1)|].
    unfold progResults in *. rewrite !fmap_app, !concat_app, !elem_of_app. tauto. }
  destruct (IH _ _ _ _ _ _ _ _ W2 H) as (new & E' & -> & -> & W3 & F3 & Hr3). exists (a :: new), (newCalls ++ E').
  rewrite <-!app_assoc in *. split_and!; [done|done| | |by etrans].
  - rewrite fmap_cons. cbn [concat]. exact W3.
  - constructor; [by eapply fits_refs|done].
Qed.

Lemma array_spec E rest tc elem kind rb re c inner g res g' : work E (results (GroupArg c inner) ++ rest) g → typeAt (aref c) = Ret (ArrayType tc elem kind rb re) →
  sizedArg target (mHeap (gM g)) (GroupArg c inner) → inData (GroupArg c inner) → mutateArray elem kind rb re (GroupArg c inner) g = Ret (res, g') →
  mRetry res = false ∧ becomes (E ++ mCalls res) rest (GroupArg c inner) (mArg res) g'.
Proof.
  intros W Ht Hs Hd H. unfold Mutate.mutateArray in H. gstep H b g1 E1.
  assert (core g1 = core g) as C1 by (destruct (decide (1 < length inner)%nat); [by apply quiet_draw in E1|by injection E1 as _ <-]).
  gstep H inner1 g2 E2. assert (core g2 = core g1 ∧ inner1 ≡ₚ inner) as [C2 Hp].
  { destruct b; [|by injection E2 as <- <-]. apply draw_Ret in E2 as (C2 & r1 & r2 & E2). split; [done|by eapply swapElems_perm]. }
  gstep H count g3 E3. apply draw_Ret in E3 as (C3 & r1 & r2 & E3). assert (core g3 = core g) as HC by congruence.
  assert (kind = ArrayRangeLen → rb ≠ re) as Hne. { intros -> ->. cbn [arrayCount] in E3. by rewrite decide_True in E3. }
  assert (work E (results (GroupArg c inner1) ++ rest) g3) as W3.
  { eapply work_quiet; [exact HC|]. eapply work_perm; [|exact W]. rewrite !results_group. by rewrite Hp. }
  assert (gM g3 = gM g) as Hm by (by injection HC). destruct (decide (Z.of_nat (length inner1) < count)) as [Hlt|Hge].
  - gstep H te g4 E4. apply pure_Ret in E4 as [Hte ->]. gstep H ic g4 E4. destruct ic as [inner2 calls]. injection H as <- <-. cbn [mRetry mCalls mArg]. split; [done|].
    destruct (grow_spec te elem (adir c) _ Hte _ _ _ _ _ _ _ W3 E4) as (new & -> & W4 & F4 & Hr4). rewrite Hm in Hr4.
    eapply array_becomes; [exact Ht|exact Hne| |by eapply sizedArg_refs|done|].
    + eapply work_perm; [|exact W4]. rewrite !results_group, fmap_app, concat_app, <-!app_assoc. apply Permutation_app_head, Permutation_app_comm.
    + intros x Hx. apply elem_of_app in Hx as [Hx|Hx]; [left; by rewrite <-Hp|right]. rewrite Forall_forall in F4. by apply F4.
  - gstep H u g4 E4. apply onMem_Ret in E4 as [E4 HS]. apply bind_Ret in E4 as (m4 & E4 & [= _ Hm4]). injection H as <- <-. cbn [mRetry mCalls mArg]. split; [done|].
    rewrite app_nil_r. apply (sized_group target (mHeap (gM g))) in Hs as Hs'. destruct Hs' as [_ Hsi].
    assert (work E (results (GroupArg c (take (Z.to_nat count) inner1)) ++ rest) g4 ∧ sameRefs (mHeap (gM g3)) (mHeap (gM g4))) as [W4 Hr4].
    { eapply (work_remove E _ _ (drop (Z.to_nat count) inner1) g3 m4 g4); [exact W3| | |exact E4|done|done].
      - rewrite !results_group. rewrite <-(take_drop (Z.to_nat count) inner1) at 1. rewrite fmap_app, concat_app, <-app_assoc, !app_assoc. apply Permutation_app_tail, Permutation_app_comm.
      - rewrite Hm. intros a Ha. apply Hsi. rewrite <-Hp, <-(take_drop (Z.to_nat count) inner1). apply elem_of_app. by right. }
    eapply array_becomes; [exact Ht|exact Hne|exact W4| |done|].
    + eapply sizedArg_refs; [exact Hr4|by rewrite Hm].
    + intros x Hx. left. rewrite <-Hp, <-(take_drop (Z.to_nat count) inner1). apply elem_of_app. by left.
Qed.

Lemma ptr_spec E rest tc elem ed c addr v p g res g' : work E (results (PointerArg c addr v p) ++ rest) g → typeAt (aref c) = Ret (PtrType tc elem ed) →
  sizedArg target (mHeap (gM g)) (PointerArg c addr v p) → inData (PointerArg c addr v p) → mutatePtr target (PtrType tc elem ed) (PointerArg c addr v p) g = Ret (res, g') →
  mRetry res = false ∧ becomes (E ++ mCalls res) rest (PointerArg c addr v p) (mArg res) g'.
Proof.
  intros W Ht Hs Hd H. unfold mutatePtr in H. destruct p as [q|]; [|by apply pure_Ret in H as [? _]]. gstep H b g1 E1. apply quiet_draw in E1.
  gstep H new g2 E2. gstep H a g3 E3. apply onMem_Ret in E3 as [E3 HS3]. injection H as <- <-. cbn [mRetry mCalls mArg]. split; [done|]. rewrite app_nil_r.
  assert (gM g1 = gM g) as Hm1 by (by injection E1). pose proof (work_quiet _ _ _ _ E1 W) as W1. destruct b.
  - gstep E2 u g4 E4. apply onMem_Ret in E4 as [E4 HS4]. apply bind_Ret in E4 as (m4 & E4 & [= _ Hm4]). gstep E2 idx g5 E5. apply quiet_draw in E5.
    apply onMem_Ret in E2 as [E2 HS2]. unfold MakeSpecialPointerArg in E2. destruct (decide _); [done|]. rewrite (refAt target Htab _ _ Ht) in E2. cbn [rbind alloc] in E2.
    injection E2 as <- Hm2. apply replace_pointer in E3 as [-> Hm3]. change (withId (aid c) (MkCommon _ (aref c) DirIn)) with (MkCommon (aid c) (aref c) DirIn).
    destruct (work_remove E (results (PointerArg c addr v (Some q)) ++ rest) rest [q] g1 m4 g4) as [W4 Hr4]; [exact W1| | | |done|done|].
    { cbn [fmap list_fmap concat]. rewrite app_nil_r. done. }
    { intros a Ha. apply list_elem_of_singleton in Ha as ->. rewrite Hm1. intros x Hx. apply Hs. cbn [nodes]. by apply list_elem_of_further. }
    { cbn [for_list]. rewrite E4. done. }
    assert (work E rest g3) as W3.
    { assert (core g5 = core g4) as HC by done. injection HC as HS5 Hm5. eapply work_bump; [exact W4|rewrite Hm3, <-Hm2; cbn; by rewrite Hm5|rewrite Hm3, <-Hm2; cbn; rewrite Hm5; lia|congruence]. }
    eapply (pointer_becomes E rest c addr v (Some q)); [exact Ht|done|exact W3| |done].
    assert (mHeap (gM g3) = mHeap (gM g4)) as -> by (rewrite Hm3, <-Hm2; cbn; by injection E5 as _ ->). eapply sizedArg_refs; [exact Hr4|by rewrite Hm1].
  - gstep E2 h1 g4 E4. injection E4 as <- <-. gstep E2 sz g4 E4. apply pure_Ret in E4 as [_ ->].
    destruct (allocAddr_inv _ _ _ _ _ _ _ _ _ _ Ht E2) as ((id & ad & ->) & Hh & HW). apply replace_pointer in E3 as [-> Hm3].
    change (withId (aid c) (MkCommon id (aref c) DirIn)) with (MkCommon (aid c) (aref c) DirIn). pose proof (HW _ _ W1) as W2.
    assert (work E (results (PointerArg c addr v (Some q)) ++ rest) g3) as W3 by (eapply work_quiet; [|exact W2]; unfold core; congruence).
    eapply (pointer_becomes E rest c addr v (Some q)); [exact Ht|done|exact W3| |done]. by rewrite Hm3, Hh, Hm1.
Qed.

Lemma union_spec E rest tc fields c opt idx tr g res g' : work E (results (UnionArg c opt idx tr) ++ rest) g → typeAt (aref c) = Ret (UnionType tc fields) →
  sizedArg target (mHeap (gM g)) (UnionArg c opt idx tr) → inData (UnionArg c opt idx tr) → mutateUnion (UnionType tc fields) fields (UnionArg c opt idx tr) g = Ret (res, g') →
  mRetry res = false ∧ becomes (E ++ mCalls res) rest (UnionArg c opt idx tr) (mArg res) g'.
Proof.
  intros W Ht Hs Hd H. unfold Mutate.mutateUnion in H. gstep H h1 g1 E1. injection E1 as <- <-. gstep H dir g1 E1. apply pure_Ret in E1 as [_ ->]. rewrite Hspecial in H.
  gstep H i0 g1 E1. apply quiet_draw in E1. set (i := if decide (idx ≤ i0) then i0 + 1 else i0) in H. clearbody i. gstep H f g2 E2. apply pure_Ret in E2 as [Hf ->].
  gstep H tf g2 E2. apply pure_Ret in E2 as [Htf ->]. gstep H oc g2 E2. destruct oc as [opt' calls]. gstep H new g3 E3. apply onMem_Ret in E3 as [E3 HS3].
  gstep H a g4 E4. apply onMem_Ret in E4 as [E4 HS4]. injection H as <- <-. cbn [mRetry mCalls mArg]. split; [done|].
  pose proof (work_quiet _ _ _ _ E1 W) as W1. assert (gM g1 = gM g) as Hm1 by (by injection E1).
  destruct (gstep_gives _ _ _ _ _ _ _ _ _ (Hgen _ tf (fieldDir f (adir c)) Htf) W1 E2) as (W2 & F2 & Hr2 & _). rewrite Hm1 in Hr2.
  pose proof (make_union target Htab _ _ _ _ _ _ _ _ _ _ Ht Hf F2 E3) as [Wh Wn [Ft Fs Fd _] _].
  unfold MakeUnionArg in E3. rewrite (refAt target Htab _ _ Ht) in E3. cbn [rbind alloc] in E3. injection E3 as <- Hm3.
  cbn [replaceArg] in E4. destruct (decide _); [done|]. apply bind_Ret in E4 as (m5 & E4 & [= <- Hm5]).
  change (withId (aid c) (MkCommon _ (aref c) (adir c))) with (MkCommon (aid c) (aref c) (adir c)).
  assert (work (E ++ calls) (results opt ++ results opt' ++ rest) g3) as W3.
  { eapply work_bump; [|exact Wh|exact Wn|by rewrite HS3]. eapply work_perm; [|exact W2]. change (results (UnionArg c opt idx tr)) with (results opt). rewrite <-app_assoc.
    apply Permutation_app_head, Permutation_app_comm. }
  destruct (work_remove (E ++ calls) _ (results opt' ++ rest) [opt] g3 m5 g4 W3) as [W4 Hr4]; [by cbn [fmap list_fmap concat]; rewrite app_nil_r| |cbn [for_list]; by rewrite E4|done|done|].
  { intros x Hx. apply list_elem_of_singleton in Hx as ->. rewrite Wh. eapply sizedArg_refs; [exact Hr2|]. intros y Hy. apply Hs. cbn [nodes]. by apply list_elem_of_further. }
  assert (fits target (mHeap (gM g4)) opt' (fieldType f) (fieldDir f (adir c))) as F4 by (eapply fits_refs; [exact Hr4|]; by rewrite Wh).
  split; [done| | |].
  - intros typ dir0 H. inversion H as [? ? ? dir' r ad tt t Htt Hdir Hr Hany Had Hd' Ht' Hsh]; subst. injection Hr as <-. injection Had as <-.
    rewrite Ht in Ht'. injection Ht' as <-.
    assert (aref c = typ) as Heq. { destruct Hany as [?|Ha]; [done|]. unfold isAnyPtrRef in Ha. rewrite Ht in Ha. discriminate Ha. }
    rewrite <-Heq, Ht in Htt. injection Htt as <-. cbn [isPtrType] in *. econstructor; [by rewrite <-Heq|reflexivity|done|by left|done|exact Hd'|exact Ht|].
    unfold index in Hf. destruct (decide _); [|done]. destruct (fields !! Z.to_nat i) as [f'|] eqn:Ef; [|done]. injection Hf as ->.
    econstructor; [done|exact Ef|]. destruct Hd' as [<-| ->]; [apply F4|]. unfold fieldDir. destruct (HasDirection f) eqn:Edir.
    + destruct F4 as [F4 _ _ _]. unfold fieldDir in F4. by rewrite Edir in F4.
    + eapply typed_inout, F4.
  - assert (sizedArg target (mHeap (gM g3)) (UnionArg (MkCommon (mNext (gM g2)) (aref c) (adir c)) opt' i false)) as Fs3 by exact Fs.
    intros x Hx. cbn [nodes] in Hx. apply elem_of_cons in Hx as [->|Hx]; [|by apply (ft_sized _ _ _ _ _ F4)].
    destruct (sizedArg_refs _ _ _ _ Hr4 Fs3 _ (list_elem_of_here _ _)) as [z Hz]. exists z. exact Hz.
  - apply inData_union, F4.
Qed.

(** Output buffers of a fixed size are not mutated. *)
Definition mutable (h : heap) (t : Typ) (arg : Arg) : Prop :=
  ∀ tc desc, t = BufferType tc desc → argDir h arg = Ret DirOut → IsVarlen tc = true.

Lemma mutateSize_quiet t bitSize path v ctx : quiet (mutateSize target t bitSize path v ctx).
Proof.
  unfold mutateSize. apply quiet_bind; [eauto with quiet|]. intros h. apply quiet_bind.
  - destruct (decide _); [|eauto with quiet]. destruct path as [|name [|]]; eauto with quiet.
  - intros [e|]; eauto with quiet.
Qed.

Lemma mutate_spec E rest t arg ctx g res g' : work E (results arg ++ rest) g → (∃ typ dir, typed (mHeap (gM g)) arg typ dir) → sizedArg target (mHeap (gM g)) arg → inData arg →
  argType target (mHeap (gM g)) arg = Ret t → mutable (mHeap (gM g)) t arg → mutate t arg ctx g = Ret (res, g') →
  (mRetry res = true → core g' = core g) ∧ (mRetry res = false → becomes (E ++ mCalls res) rest arg (mArg res) g').
Proof.
  intros W Hty Hs Hd Ht Hmut H.
  assert (∀ a g1, core g1 = core g → erase a = erase arg → becomes (E ++ []) rest arg a g1) as Hval.
  { intros a g1 HC He. rewrite app_nil_r. apply becomes_same; [by eapply work_quiet|injection HC as _ ->; done|done|done]. }
  destruct Hty as (typ & dir & Hty). destruct (typed_shape _ _ _ _ _ Hty) as (r & t' & dir' & Hr & Htr & Ht' & Hsh). assert (t' = t) as -> by congruence.
  assert (∀ g1, core g1 = core g → noPtr t = true → regenerate t arg g1 = Ret (res, g') →
    (mRetry res = true → core g' = core g) ∧ (mRetry res = false → becomes (E ++ mCalls res) rest arg (mArg res) g')) as Hregen.
  { intros g1 HC Hnp HH. assert (gM g1 = gM g) as Hm by (by injection HC).
    destruct (regenerate_spec E rest t arg g1 res g' (work_quiet _ _ _ _ HC W) ltac:(rewrite Hm; eauto) ltac:(by rewrite Hm) ltac:(by rewrite Hm) Hnp HH) as [Hret Hb].
    split; [congruence|done]. }
  assert (∀ E' a, mRetry res = false ∧ becomes E' rest arg a g' → (mRetry res = true → core g' = core g) ∧ (mRetry res = false → becomes E' rest arg a g')) as Hdone.
  { intros E' a [Hf Hb]. split; [congruence|done]. }
  destruct t; cbn [Mutate.mutate] in H; try (by eapply Hregen); try (by apply pure_Ret in H as [? _]).
  - gstep H b g1 E1. apply quiet_draw in E1. destruct b; [by eapply Hregen|].
    destruct arg as [c v| | | | |]; try by apply pure_Ret in H as [? _]. gstep H bits g2 E2. apply pure_Ret in E2 as [_ ->]. gstep H v' g2 E2. apply quiet_draw in E2.
    injection H as <- <-. cbn [mRetry mCalls mArg]. split; [done|]. intros _. apply Hval; [congruence|done].
  - destruct arg as [c v| | | | |]; try by apply pure_Ret in H as [? _]. gstep H v' g2 E2. apply quiet_draw in E2.
    injection H as <- <-. cbn [mRetry mCalls mArg]. split; [done|]. intros _. by apply Hval.
  - destruct arg as [c v| | | | |]; try by apply pure_Ret in H as [? _]. gstep H v' g2 E2. apply mutateSize_quiet in E2.
    injection H as <- <-. destruct v' as [v'|]; cbn [mRetry mCalls mArg]; [split; [done|intros _; by apply Hval]|done].
  - inversion Hsh; subst; try discriminate. injection Hr as <-. destruct (buffer_spec E rest tc desc c d sz g res g' W ltac:(eauto) Htr) as (HC & Hc & Hb); [|exact Hd|exact H|].
    { intros Ho. eapply Hmut; [reflexivity|]. cbn [argDir]. by rewrite Ho. }
    rewrite Hc, app_nil_r. done.
  - inversion Hsh; subst; try discriminate. injection Hr as <-. apply Hdone. by eapply array_spec.
  - inversion Hsh; subst; try discriminate. injection Hr as <-. apply Hdone. by eapply ptr_spec.
  - unfold mutateStruct in H. rewrite Hspecial in H. by apply pure_Ret in H as [? _].
  - inversion Hsh; subst; try discriminate. injection Hr as <-. apply Hdone. by eapply union_spec.
Qed.

(** ** Mutation of an argument of a call *)

Notation mutateArgOf := (Mutate.mutateArgOf target Arch SpecialFileLenghts resourceCtors SpecialTypes SpecialMutate ifuzzGenerate ifuzzMutate compress decompress
  ct corpus order resOrder dfuel lfuel fuel).

(** The call [c] became [c']. *)
Record edited (E : list Call) (c c' : Call) (g : gst) : Prop := {
  ed_work : work E (cloneOrder c') g;
  ed_ok : okCall (mHeap (gM g)) c';
  ed_meta : Meta c' = Meta c
}.

Lemma edit_node E E' pos c onode a g g' : nodeAt pos c = Ret onode → work E (cloneOrder c) g → okCall (mHeap (gM g)) c → sameRefs (mHeap (gM g)) (mHeap (gM g')) →
  (∀ rest, work E (results onode ++ rest) g → becomes E' rest onode a g') → edited E' c (putAt pos a c) g'.
Proof.
  intros Hn W Hok Hr Hb. destruct (putAt_results _ _ _ Hn) as (rest & Hp & Hp'). specialize (Hb rest (work_perm _ _ _ _ Hp W)). destruct Hb as [W' Hty Hs Hd]. split; [|by eapply putAt_ok; [|eapply okCall_refs| | |]|done].
  eapply work_perm; [|exact W']. symmetry. apply Hp'.
Qed.

Lemma updateBase_spec E pb baseSize c g c' g' : work E (cloneOrder c) g → okCall (mHeap (gM g)) c → updateBase target pb baseSize c g = Ret (c', g') → edited E c c' g'.
Proof.
  intros W Hok H. unfold updateBase in H. gstep H h1 g1 E1. injection E1 as <- <-. gstep H base g1 E1. apply pure_Ret in E1 as [Hn ->].
  gstep H sz g1 E1. apply pure_Ret in E1 as [_ ->]. destruct (decide (baseSize < sz)); [|injection H as <- <-; by split].
  destruct base as [|cb ad v [q|]| | | |]; try by apply pure_Ret in H as [? _]. gstep H tb g1 E1. apply pure_Ret in E1 as [Htb ->].
  gstep H new g1 E1. gstep H b g2 E2. apply onMem_Ret in E2 as [E2 HS]. injection H as <- <-.
  destruct (node_ok _ _ _ _ Hn Hok) as ((typ & dir & Hty) & Hs & Hd). destruct (typed_shape _ _ _ _ _ Hty) as (r & t & dir' & Hr & Htr & _ & Hsh). injection Hr as <-.
  assert (t = tb) as -> by congruence. inversion Hsh; subst; try discriminate. destruct (allocAddr_inv _ _ _ _ _ _ _ _ _ _ Htb E1) as ((id & ad' & ->) & Hh & HW).
  apply replace_pointer in E2 as [-> Hm]. eapply edit_node; [exact Hn|exact W|exact Hok|rewrite Hm, Hh; reflexivity|]. intros rest W1.
  unfold withId. cbn [aref adir]. eapply (pointer_becomes _ _ cb ad _ (Some q)); [exact Htb|done| |by rewrite Hm, Hh|done]. eapply work_quiet; [|apply HW, W1]. unfold core. congruence.
Qed.

Lemma mutateArgOf_spec E arg ctx c g c' calls ok pres g' : work E (cloneOrder c) g → okCall (mHeap (gM g)) c →
  (∀ t, argType target (mHeap (gM g)) arg = Ret t → mutable (mHeap (gM g)) t arg) → h0 = mHeap (gM g) →
  mutateArgOf arg ctx c g = Ret ((c', calls, ok, pres), g') → if (ok : bool) then edited (E ++ calls) c c' g' else c' = c ∧ calls = [] ∧ core g' = core g.
Proof.
  intros W Hok Hmut Hh0 H. unfold Mutate.mutateArgOf in H. gstep H pos g1 E1. apply pure_Ret in E1 as [Hpos ->]. apply locate_node in Hpos.
  gstep H arg' g1 E1. apply pure_Ret in E1 as [Hn ->]. assert (arg' = arg) as -> by congruence. gstep H h1 g1 E1. injection E1 as <- <-. gstep H base g1 E1.
  assert (g1 = g) as ->.
  { destruct (Base ctx); [|by injection E1 as _ <-]. gstep E1 pb g2 E2. apply pure_Ret in E2 as [_ ->]. gstep E1 b g2 E2. apply pure_Ret in E2 as [_ ->].
    gstep E1 sz g2 E2. apply pure_Ret in E2 as [_ ->]. by injection E1 as _ <-. }
  gstep H t g1 E2. apply pure_Ret in E2 as [Ht ->]. gstep H mres g1 E2. destruct (node_ok _ _ _ _ Hn Hok) as (Hty & Hs & Hd).
  destruct (putAt_results _ _ _ Hn) as (rest & Hp & Hp'). pose proof (work_perm _ _ _ _ Hp W) as W1.
  destruct (mutate_spec E rest t arg ctx g mres g1 W1 Hty Hs Hd Ht (Hmut t Ht) E2) as [Hretry Hbec]. destruct (mRetry mres) eqn:Er.
  { injection H as <- <- <- <- <-. split_and!; [done|done|]. by apply Hretry. }
  gstep H c1 g2 E3. injection H as <- <- <- <- <-. specialize (Hbec eq_refl).
  assert (sameRefs (mHeap (gM g)) (mHeap (gM g1))) as Hr1 by (rewrite <-Hh0; apply (bc_work _ _ _ _ _ Hbec)).
  assert (edited (E ++ mCalls mres) c (putAt pos (mArg mres) c) g1) as [W2 Hok2 Hm2].
  { destruct Hbec as [Wb Hbt Hbs Hbd]. split; [eapply work_perm; [symmetry; apply Hp'|exact Wb]| |done]. eapply putAt_ok; [exact Hn|by eapply okCall_refs|done..]. }
  destruct base as [[pb sz]|]; [|injection E3 as <- <-; by split]. destruct (updateBase_spec _ _ _ _ _ _ _ W2 Hok2 E3) as [W3 Hok3 Hm3]. split; [done|done|congruence].
Qed.

End mutation.
End work.

End target.
End MutateSpec.
