(* ===== verification/MutateProg.v ===== *)
(** * MutateProg: the operations of mutation keep programs well formed

    Each operation of [Prog.Mutate] takes a well-formed program to a well-formed one, only
    changes the results of the program, and only adds results that are new. *)

From S2P Require Import Prelude Rand Float64 Alloc Bytes Types Prog ExampleTarget Resources Prio ProgEdit Clone WellFormed Layers Collide Size Expr.
From S2P Require Import Validation Typing ArgTree Conditions Minimize MinimizeCalls MinimizeArgs Analysis Mutation Text RandData Generate GenGrow GenTypes GenSpec Squash Mutate MutateSpec.
Import Types Prog ProgEdit Clone WellFormed Layers Expr Validation Typing ArgTree RandData Generate GenGrow GenTypes GenSpec Mutate MutateSpec.

Module MutateProg.

Section target.
Context (target : Target) (Htab : genTable target).
Notation typeAt := (typeAt (typeRefs target)).
Notation typed := (typed target).
Notation okCall := (okCall target).
Notation programOk := (programOk target).

(** ** Steps of programs *)

(** A program and the memory after some operations: well formed, other results are
    unchanged and the new results did not exist before. *)
Record evolves (p : list Call) (m : mem) (p' : list Call) (m' : mem) : Prop := {
  ev_ok : programOk p' m';
  ev_frame : ∀ i o, i ∉ progResults p → mHeap m !! i = Some o → mHeap m' !! i = Some o;
  ev_new : ∀ i, i ∈ progResults p' → i ∈ progResults p ∨ mHeap m !! i = None
}.

Lemma evolves_refl p m : programOk p m → evolves p m p m.
Proof. intros Hp. split; [done|done|by left]. Qed.

Lemma evolves_trans p m p1 m1 p2 m2 : evolves p m p1 m1 → evolves p1 m1 p2 m2 → evolves p m p2 m2.
Proof.
  intros [O1 F1 N1] [O2 F2 N2]. assert (∀ i o, i ∉ progResults p → mHeap m !! i = Some o → i ∉ progResults p1) as Hout.
  { intros i o Hi Ho H1. destruct (N1 i H1) as [?|?]; [done|congruence]. }
  split; [done| |].
  - intros i o Hi Ho. apply F2; [by eapply Hout|by apply F1].
  - intros i Hi. destruct (decide (i ∈ progResults p)) as [|Hn]; [by left|right]. destruct (mHeap m !! i) as [o|] eqn:E; [|done].
    destruct (N2 i Hi) as [H1|H1]; [by destruct (Hout i o Hn E)|]. rewrite (F1 i o Hn E) in H1. done.
Qed.

(** Values of constants and addresses are not structure. *)
Lemma evolves_same p m p' : Forall2 sameCall p p' → programOk p m → evolves p m p' m.
Proof.
  intros Hs Hp. split; [by eapply programOk_same|done|]. intros i Hi. left. rewrite <-in_layers in *.
  assert (layers p' = layers p) as <-; [|done]. unfold layers. clear -Hs. induction Hs as [|c c' l l' Hc _ IH]; [done|].
  rewrite !fmap_cons, IH. f_equal. apply sameCall_results in Hc as [H _]. exact H.
Qed.

Lemma removeAt_evolves idx p g p' g' : programOk p (gM g) → removeAt target idx p g = Ret (p', g') →
  0 ≤ idx < Z.of_nat (length p) ∧ p' = delete (Z.to_nat idx) p ∧ evolves p (gM g) p' (gM g').
Proof.
  intros Hp H. unfold removeAt in H. destruct (decide (idx < 0)); [discriminate H|]. apply onMem_Ret in H as [H _].
  destruct (p !! Z.to_nat idx) as [c|] eqn:E; [|unfold RemoveCall in H; by rewrite E in H].
  destruct (programOk_remove _ _ _ _ _ _ _ Hp E H) as (-> & Ho & Hf & _). apply lookup_lt_Some in E. split_and!; [lia|lia|done|].
  split; [done|done|]. intros i Hi. left. by eapply delete_results.
Qed.

(** The calls at an index, or those before it, are removed. *)
Lemma removeAtIdx_evolves n idx : ∀ p g p' g', programOk p (gM g) → removeAtIdx target n idx p g = Ret (p', g') →
  evolves p (gM g) p' (gM g') ∧ (length p' + n = length p)%nat.
Proof.
  induction n as [|n IH]; intros p g p' g' Hp H; cbn [removeAtIdx] in H; [injection H as <- <-; split; [by apply evolves_refl|lia]|].
  gstep H p1 g1 E1. destruct (removeAt_evolves _ _ _ _ _ Hp E1) as (Hi & Hp1 & Hev). destruct (IH p1 g1 p' g' (ev_ok _ _ _ _ Hev) H) as [Hev' Hlen].
  split; [by eapply evolves_trans|]. subst p1. rewrite length_delete in Hlen by (apply lookup_lt_is_Some; lia). lia.
Qed.

Lemma removeBefore_evolves n : ∀ idx c p g p' idx' g', programOk p (gM g) → p !! Z.to_nat idx = Some c → removeBefore target n idx p g = Ret ((p', idx'), g') →
  evolves p (gM g) p' (gM g') ∧ (length p' + n = length p)%nat ∧ p' !! Z.to_nat idx' = Some c.
Proof.
  induction n as [|n IH]; intros idx c p g p' idx' g' Hp Hc H; cbn [removeBefore] in H.
  { injection H as <- <- <-. split_and!; [by apply evolves_refl|lia|done]. }
  gstep H p1 g1 E1. destruct (removeAt_evolves _ _ _ _ _ Hp E1) as (Hi & Hp1 & Hev).
  destruct (IH (idx - 1) c p1 g1 p' idx' g' (ev_ok _ _ _ _ Hev)) as (Hev' & Hlen & Hc'); [|exact H|].
  { rewrite Hp1, list_lookup_delete_ge by lia. by replace (S (Z.to_nat (idx - 1))) with (Z.to_nat idx) by lia. }
  split_and!; [by eapply evolves_trans| |done]. subst p1. rewrite length_delete in Hlen by (apply lookup_lt_is_Some; lia). lia.
Qed.

(** ** What the analysis of a program finds *)

Lemma noteArg_without h a s s' : Analysis.noteArg target h false a s = Ret s' → Analysis.resources s' = Analysis.resources s.
Proof.
  unfold Analysis.noteArg. intros H. apply bind_Ret in H as (s1 & H1 & H). apply noteMemory_resources in H1. rewrite <-H1. apply bind_Ret in H as (t & _ & H).
  destruct t; try (by injection H as <-); destruct a as [| | | | |j]; try discriminate.
  - apply bind_Ret in H as (o & _ & H). by injection H as <-.
  - injection H as <-. case_decide; [|done]. apply noteString_resources.
Qed.

Lemma analyzeImpl_without h c s s' : Analysis.analyzeImpl target h c false s = Ret s' → Analysis.resources s' = Analysis.resources s.
Proof.
  intros H. eapply (foreachCall_keeps target _ _ (λ st, Analysis.resources st = Analysis.resources s)); [|reflexivity|exact H].
  intros x ctx s1 s2 stop Hs H1. apply bind_Ret in H1 as (s3 & H3 & [= <- _]). apply noteArg_without in H3. congruence.
Qed.

Lemma analyze_upto h p upto s i : Forall (sizedCall target h) p → Analysis.analyze target h p upto = Ret s → visible s i →
  i ∈ progResults (match upto with Some k => take k p | None => p end).
Proof.
  intros Hsz H Hi. unfold Analysis.analyze in H. apply bind_Ret in H as (s0 & H0 & H). apply bind_Ret in H as ([n s1] & H & [= <-]).
  assert (∀ k s0, for_list (λ c '(i, s), let! s := Analysis.analyzeImpl target h c (match upto with Some k => bool_decide (i < k)%nat | None => true end) s in
    Ret (S i, s)) p (k, s0) = Ret (n, s1) → visible s0 i ∨ i ∈ progResults (match upto with Some u => take (u - k) p | None => p end)) as Hloop.
  { clear H0 H s0. induction p as [|c p IH]; intros k s0 H; [injection H as _ ->; by left|]. cbn [for_list] in H. apply bind_Ret in H as ([k1 s2] & H1 & H).
    apply bind_Ret in H1 as (s3 & H1 & [= <- <-]). apply Forall_cons in Hsz as [Hc Hsz]. unfold progResults in *.
    destruct (IH Hsz (S k) s3 H) as [Hv|Hv].
    - destruct upto as [u|].
      + destruct (decide (k < u)%nat) as [Hlt|Hge].
        * rewrite bool_decide_true in H1 by done. destruct (analyze_visible target h c true s0 s3 i Hc H1 Hv) as [?|Hr]; [by left|right].
          replace (u - k)%nat with (S (u - S k)) by lia. cbn [take]. rewrite fmap_cons. cbn [concat]. rewrite elem_of_app. by left.
        * rewrite bool_decide_false in H1 by done. apply analyzeImpl_without in H1. left. by rewrite <-(visible_eq _ _ H1).
      + destruct (analyze_visible target h c true s0 s3 i Hc H1 Hv) as [?|Hr]; [by left|right]. rewrite fmap_cons. cbn [concat]. rewrite elem_of_app. by left.
    - right. destruct upto as [u|]; [|rewrite fmap_cons; cbn [concat]; rewrite elem_of_app; by right].
      destruct (u - k)%nat as [|d] eqn:Ed; [replace (u - S k)%nat with 0%nat in Hv by lia; by apply elem_of_nil in Hv|].
      replace (u - S k)%nat with d in Hv by lia. cbn [take]. rewrite fmap_cons. cbn [concat]. rewrite elem_of_app. by right. }
  destruct (Hloop 0%nat s0 H) as [Hv|Hv].
  - apply bind_Ret in H0 as (ma & _ & [= <-]). destruct Hv as (k & l & Hk & _). cbn [Analysis.resources] in Hk. by rewrite lookup_empty in Hk.
  - destruct upto; [by rewrite Nat.sub_0_r in Hv|done].
Qed.

Lemma analyzeUpto_spec p upto g g' : programOk p (gM g) → analyzeUpto target p upto g = Ret (tt, g') →
  gM g' = gM g ∧ ∀ i, visible (gS g') i → i ∈ progResults (match upto with Some k => take k p | None => p end).
Proof.
  intros Hp H. unfold analyzeUpto in H. gstep H h g1 E1. injection E1 as <- <-. gstep H s g1 E1. apply pure_Ret in E1 as [E1 ->]. injection H as <-.
  split; [done|]. intros i Hi. eapply analyze_upto; [|exact E1|exact Hi]. apply Hp.
Qed.

(** ** One call of a program *)

Lemma split_results p1 E p2 i : i ∈ progResults (p1 ++ E ++ p2) ↔ i ∈ progResults p1 ∨ i ∈ progResults E ∨ i ∈ progResults p2.
Proof. unfold progResults. by rewrite !fmap_app, !concat_app, !elem_of_app. Qed.

Lemma work_start p idx c g : programOk p (gM g) → p !! idx = Some c → (∀ i, visible (gS g) i → i ∈ progResults (take idx p)) →
  work target (take idx p) (drop (S idx) p) (mHeap (gM g)) (progResults p) [] (cloneOrder c) g.
Proof.
  intros [[Hlay _] Hok] Hc Hv. assert (live (take idx p) (drop (S idx) p) [] (cloneOrder c) = layers p) as Hl.
  { unfold live. rewrite <-(take_drop_middle p idx c Hc) at 3. by rewrite layers_app. }
  split; [by rewrite Hl|constructor|by rewrite app_nil_r|reflexivity|done|]. intros i Hi. left. rewrite Hl in Hi. by apply in_layers.
Qed.

Lemma work_end p idx m E c' g : programOk p m → work target (take idx p) (drop (S idx) p) (mHeap m) (progResults p) E (cloneOrder c') g →
  okCall (mHeap (gM g)) c' → evolves p m (take idx p ++ E ++ c' :: drop (S idx) p) (gM g).
Proof.
  intros [_ Hok] W Hc. pose proof W as [Wl Wc _ Wr Wf Wn].
  assert (Forall (okCall (mHeap (gM g))) (take idx p ++ E ++ c' :: drop (S idx) p)) as Hall.
  { eapply okCalls_refs in Hok; [|exact Wr]. apply Forall_app. split; [by apply Forall_take|]. apply Forall_app. split; [done|]. constructor; [done|by apply Forall_drop]. }
  assert (live (take idx p) (drop (S idx) p) E (cloneOrder c') = layers (take idx p ++ E ++ c' :: drop (S idx) p)) as Hl.
  { unfold live. by rewrite !layers_app. }
  rewrite Hl in *. split; [|done|].
  - split; [|done]. split; [done|]. eapply Forall_impl; [exact Hall|]. intros c0. apply ok_sized.
  - intros i Hi. apply Wn. by apply in_layers.
Qed.

(** ** The operations *)

Section operations.
Context (Arch : string) (SpecialFileLenghts : list Z) (resourceCtors : string → list Resources.ResourceCtor).
Notation ga := (bool → Typ → Dir → gst → res ((Arg * list Call) * gst)) (only parsing).
Context (SpecialTypes : string → option (ga → Typ → Dir → gst → res ((Arg * list Call) * gst))).
Context (SpecialMutate : string → option (Typ → Dir → Arg → gst → res ((Arg * list Call) * gst))).
Context (ifuzzGenerate : Config → rng → list Z * rng) (ifuzzMutate : Config → list Z → rng → list Z * rng).
Context (compress decompress : list Z → list Z) (ct : Prio.ChoiceTable).
Context (order : list (positive * Arg) → list (positive * Arg)).
Context (resOrder : list (string * list positive) → list (string * list positive)).
Context (dfuel lfuel fuel ncalls : nat) (noMutate : gset Z).
Hypothesis HresOrder : ∀ l x, x ∈ resOrder l → x ∈ l.
Hypothesis Hsp : specialGives target SpecialTypes.
Hypothesis Hspecial : ∀ name, SpecialMutate name = None.

Notation mutateArgLoop := (Mutate.mutateArgLoop target Arch SpecialFileLenghts resourceCtors SpecialTypes SpecialMutate ifuzzGenerate ifuzzMutate compress decompress
  ct [] order resOrder dfuel lfuel fuel ncalls).
Notation mutateArg := (Mutate.mutateArg target Arch SpecialFileLenghts resourceCtors SpecialTypes SpecialMutate ifuzzGenerate ifuzzMutate compress decompress
  ct [] order resOrder dfuel lfuel fuel ncalls noMutate).
Notation insertCall := (Mutate.insertCall target Arch SpecialFileLenghts resourceCtors SpecialTypes ifuzzGenerate ct [] order resOrder dfuel lfuel fuel ncalls).

(** Arguments that are collected can be mutated. *)
Lemma collect_mutable h c ma x t : ForeachArg target (λ _, h) (collectArg target SpecialMutate h) c (MkMutArgs false Float64.zero []) = Ret ma →
  x ∈ margs ma → argType target h (marg x) = Ret t → mutable h t (marg x).
Proof.
  intros H Hx Ht. assert (∀ x, x ∈ margs ma → ∀ t, argType target h (marg x) = Ret t → mutable h t (marg x)) as Hall; [|by eapply Hall].
  clear x t Hx Ht. eapply (foreachCall_keeps target _ _ (λ ma, ∀ x, x ∈ margs ma → ∀ t, argType target h (marg x) = Ret t → mutable h t (marg x))); [| |exact H].
  2: { intros x Hx. by apply elem_of_nil in Hx. }
  intros a ctx s s' stop Hs Hc. unfold collectArg in Hc. apply bind_Ret in Hc as (t & Ht & Hc). apply bind_Ret in Hc as ([prio st] & Hp & Hc).
  destruct (SFeqb prio dontMutate) eqn:Ep; [by injection Hc as <- <-|]. apply bind_Ret in Hc as (dir & Hd & Hc). apply bind_Ret in Hc as (skip & _ & Hc).
  destruct skip; [by injection Hc as <- <-|]. injection Hc as <- <-. cbn [margs]. intros x Hx. apply elem_of_app in Hx as [Hx|Hx]; [by apply Hs|].
  apply list_elem_of_singleton in Hx as ->. cbn [marg]. intros t' Ht'. assert (t' = t) as -> by congruence. intros tc desc -> Ho.
  cbn [getMutationPrio] in Hp. rewrite Ho in Hp. cbn [rbind] in Hp. injection Hp as Hp _. unfold Varlen in Hp. cbn [common] in Hp.
  destruct (IsVarlen tc); [done|]. assert (prio = dontMutate) as -> by (by rewrite <-Hp). vm_compute in Ep. discriminate Ep.
Qed.

Lemma insertAndFit_spec p m idx c0 c calls g p' idx' g' : 0 ≤ idx → p !! Z.to_nat idx = Some c0 →
  evolves p m (take (Z.to_nat idx) p ++ calls ++ c :: drop (S (Z.to_nat idx)) p) (gM g) → insertAndFit target ncalls p idx c calls g = Ret ((p', idx'), g') →
  evolves p m p' (gM g') ∧ (length p' ≤ ncalls)%nat ∧ 0 ≤ idx' ∧ p' !! Z.to_nat idx' = Some c.
Proof.
  intros Hi Hc0 Hev H. unfold insertAndFit in H. pose proof (lookup_lt_Some _ _ _ Hc0) as Hlt. set (k := Z.to_nat idx) in *.
  assert (insertBefore (<[k := c]> p) (Some k) calls = take k p ++ calls ++ c :: drop (S k) p) as Hins.
  { unfold insertBefore. change (default _ (Some k)) with k. rewrite take_insert_ge by lia. do 2 f_equal.
    rewrite (drop_S (<[k:=c]> p) c k) by (by apply list_lookup_insert_eq). by rewrite drop_insert_lt by lia. }
  rewrite Hins in H. set (q := take k p ++ calls ++ c :: drop (S k) p) in *. gstep H x g1 E1. destruct x as [p1 idx1].
  destruct (removeBefore_evolves (length q - ncalls) (idx + Z.of_nat (length calls)) c q g p1 idx1 g1 (ev_ok _ _ _ _ Hev)) as (Hev1 & Hlen & Hc1); [|exact E1|].
  { unfold q. rewrite lookup_app_r by (rewrite length_take; lia). rewrite length_take, lookup_app_r by lia.
    by replace (Z.to_nat (idx + Z.of_nat (length calls)) - k `min` length p - length calls)%nat with 0%nat by lia. }
  destruct (decide _) as [|Hn]; [by apply pure_Ret in H as [? _]|]. injection H as <- <- <-. split_and!; [by eapply evolves_trans|lia|lia|done].
Qed.

Lemma chooseArg_spec ma g x g' : chooseArg lfuel ma g = Ret (x, g') → core g' = core g ∧ x ∈ margs ma.
Proof. intros H. unfold chooseArg in H. gstep H f g1 E1. apply quiet_draw in E1. apply pure_Ret in H as [H ->]. apply index_elem in H. done. Qed.

Lemma mutateArgLoop_spec n : ∀ p idx us g p' ok g', programOk p (gM g) → (length p ≤ ncalls)%nat →
  mutateArgLoop n p idx us g = Ret ((p', ok), g') → evolves p (gM g) p' (gM g') ∧ (length p' ≤ ncalls)%nat.
Proof.
  induction n as [|n IH]; intros p idx us g p' ok g' Hp Hlen H; [discriminate H|]. cbn [Mutate.mutateArgLoop] in H.
  gstep H h g1 E1. injection E1 as <- <-. gstep H c g1 E1. apply pure_Ret in E1 as [Hc ->]. apply Prio.index_inv in Hc as [Hi Hc].
  gstep H ma g1 E1. apply pure_Ret in E1 as [Hma ->]. destruct (margs ma) as [|x0 xs] eqn:Em.
  { injection H as <- <- <-. split; [by apply evolves_refl|done]. }
  gstep H u g1 E1. destruct u. destruct (analyzeUpto_spec p _ g g1 Hp E1) as [Hm1 Hv]. gstep H x g2 E2. apply chooseArg_spec in E2 as [HC2 Hx].
  pose proof HC2 as [= HS2 Hm2]. gstep H y g3 E3. destruct y as [[[c1 calls] ok1] pres].
  assert (programOk p (gM g2)) as Hp2 by (by rewrite Hm2, Hm1). assert (okCall (mHeap (gM g2)) c) as Hokc.
  { destruct Hp2 as [_ Hp2]. rewrite Forall_lookup in Hp2. by eapply Hp2. }
  assert (work target (take (Z.to_nat idx) p) (drop (S (Z.to_nat idx)) p) (mHeap (gM g2)) (progResults p) [] (cloneOrder c) g2) as W by (apply work_start; [done..|by rewrite HS2]).
  eapply mutateArgOf_spec in E3; [|exact Htab|intros r t dir Ht; by apply impl_gives|exact Hspecial|exact W|exact Hokc| |reflexivity].
  2: { intros t. rewrite Hm2, Hm1. intros Ht. by eapply collect_mutable. }
  destruct ok1; cbn [negb] in H.
  2: { destruct E3 as (-> & -> & [= HS3 Hm3]). assert (gM g3 = gM g) as Hmg by congruence. rewrite <-Hmg. eapply IH; [by rewrite Hmg|done|exact H]. }
  destruct E3 as [W3 Hok3 Hmeta]. cbn [app] in W3. gstep H z g4 E4. destruct (patch_none target Htab order lfuel _ c1 g3 z g4 Hok3 E4) as [-> [= HS4 Hm4]].
  rewrite app_nil_r in H. gstep H w g5 E5. destruct w as [p1 idx1]. assert (gM g2 = gM g) as Hmg by congruence.
  pose proof (work_end p (Z.to_nat idx) (gM g2) calls c1 g3 Hp2 W3 Hok3) as Hev. rewrite <-Hm4, Hmg in Hev.
  destruct (insertAndFit_spec p (gM g) idx c c1 calls g4 p1 idx1 g5 Hi Hc Hev E5) as (Hev1 & Hlen1 & Hi1 & Hc1).
  gstep H p2 g6 E6. assert (evolves p (gM g) p2 (gM g6) ∧ (length p2 ≤ ncalls)%nat) as [Hev2 Hlen2].
  { destruct (us && negb pres || false); [|by injection E6 as <- <-]. gstep E6 h g7 E7. injection E7 as <- <-. gstep E6 vs g7 E7. apply pure_Ret in E7 as [_ ->].
    injection E6 as <- <-. split; [|by rewrite length_insert]. eapply evolves_trans; [exact Hev1|]. apply evolves_same; [|apply Hev1].
    apply Forall2_same_length_lookup. split; [by rewrite length_insert|]. intros k a b Ha Hb. apply list_lookup_insert_Some in Hb as [(<- & <- & _)|[_ Hb]].
    - assert (a = c1) as -> by congruence. apply withSizes_same.
    - assert (a = b) as -> by congruence. reflexivity. }
  gstep H stop g7 E7. apply quiet_draw in E7 as [= HS7 Hm7]. destruct stop; [injection H as <- <- <-; by rewrite Hm7|].
  destruct (IH p2 idx1 (us && negb pres) g7 p' ok g') as [Hev7 Hlen7]; [rewrite Hm7; apply Hev2|done|exact H|]. rewrite Hm7 in Hev7. split; [by eapply evolves_trans|done].
Qed.

Lemma mutateArg_spec p g p' ok g' : programOk p (gM g) → (length p ≤ ncalls)%nat → mutateArg p g = Ret ((p', ok), g') →
  evolves p (gM g) p' (gM g') ∧ (length p' ≤ ncalls)%nat.
Proof.
  intros Hp Hlen H. unfold Mutate.mutateArg in H. destruct p as [|c0 p0] eqn:Epp; [injection H as <- <- <-; split; [by apply evolves_refl|done]|].
  rewrite <-Epp in *. clear c0 p0 Epp. gstep H idx g1 E1.
  assert (core g1 = core g) as [= _ Hm].
  { unfold chooseCall in E1. gstep E1 h g2 E2. injection E2 as <- <-. gstep E1 y g2 E2. apply pure_Ret in E2 as [_ ->]. destruct y as [prios sum].
    destruct (SFeqb _ _); [by injection E1 as _ <-|]. gstep E1 f g3 E3. apply quiet_draw in E3. by injection E1 as _ <-. }
  rewrite <-Hm in *. destruct (decide (idx < 0)); [injection H as <- <- <-; split; [by apply evolves_refl|done]|].
  gstep H c g2 E2. apply pure_Ret in E2 as [_ ->]. destruct (decide _); [injection H as <- <- <-; split; [by apply evolves_refl|done]|].
  by eapply mutateArgLoop_spec.
Qed.

Lemma insertCall_spec p g p' ok g' : programOk p (gM g) → (length p ≤ ncalls)%nat → insertCall p g = Ret ((p', ok), g') →
  evolves p (gM g) p' (gM g') ∧ (length p' ≤ ncalls)%nat.
Proof.
  intros Hp Hlen H. unfold Mutate.insertCall in H. destruct (decide _) as [|Hlt]; [injection H as <- <- <-; split; [by apply evolves_refl|done]|].
  gstep H idx g1 E1. pose proof (draw_Ret _ _ _ _ E1) as [HC1 (r & r' & Hb)]. destruct (biasedRand_range (Z.of_nat (length p) + 1) 5 r) as (b & r2 & Hb2 & Hr); [lia..|].
  rewrite Hb in Hb2. injection Hb2 as <- _. pose proof HC1 as [= _ Hm1].
  set (o := if decide (idx < Z.of_nat (length p)) then Some (Z.to_nat idx) else None) in *.
  assert (∀ calls, insertBefore p o calls = take (Z.to_nat idx) p ++ calls ++ drop (Z.to_nat idx) p) as Hins.
  { intros calls. unfold insertBefore, o. case_decide; [done|]. cbn [default from_option]. by replace (Z.to_nat idx) with (length p) by lia. }
  gstep H u g2 E2. destruct u. destruct (analyzeUpto_spec p o g1 g2 ltac:(by rewrite Hm1) E2) as [Hm2 Hv].
  assert (∀ i, visible (gS g2) i → i ∈ progResults (take (Z.to_nat idx) p)) as Hv2.
  { intros i Hi. apply Hv in Hi. unfold o in Hi. case_decide; [done|]. by rewrite take_ge by lia. }
  rewrite Hm1 in Hm2. gstep H calls g3 E3. pose proof Hp as [[Hlay Hsz] Hok].
  assert (ginv g2) as Hg.
  { split; [rewrite Hm2; apply Hlay|]. intros i Hi. apply Hv2 in Hi. rewrite Hm2. destruct (lay_in target _ _ i Hlay) as (o' & Ho & _); [|eauto].
    apply in_layers. rewrite <-(take_drop (Z.to_nat idx) p). unfold progResults. rewrite fmap_app, concat_app, elem_of_app. by left. }
  destruct (generateCall_gives target Htab _ _ _ _ _ _ _ _ _ _ HresOrder _ _ _ _ _ _ Hsp Hg E3) as [[G R] O]. rewrite Hins in H.
  gstep H p1 g4 E4. injection H as <- <- <-.
  assert (evolves p (gM g) (take (Z.to_nat idx) p ++ calls ++ drop (Z.to_nat idx) p) (gM g3)) as Hev.
  { rewrite Hm2 in G. pose proof (grown_refs _ _ _ _ _ _ G) as Hr3. split.
    - split.
      + eapply grown_strict; [by rewrite take_drop|exact Hv2|exact G|]. eapply Forall_impl; [exact O|]. intros c. apply ok_sized.
      + eapply okCalls_refs in Hok; [|exact Hr3]. apply Forall_app. split; [by apply Forall_take|]. apply Forall_app. split; [done|by apply Forall_drop].
    - intros i o' Hi Ho. eapply grown_frame; [exact G|apply Hlay| |exact Ho]. intros Hvi. apply Hi. apply Hv2 in Hvi.
      rewrite <-(take_drop (Z.to_nat idx) p). unfold progResults in *. rewrite fmap_app, concat_app, elem_of_app. by left.
    - intros i Hi. apply split_results in Hi. rewrite <-(take_drop (Z.to_nat idx) p) at 1. unfold progResults at 1. rewrite fmap_app, concat_app, elem_of_app.
      destruct Hi as [?|[Hi|?]]; [by left; left| |by left; right]. right. assert (i ∈ concat (layers calls) ++ []) as Hi' by (by rewrite app_nil_r, in_layers).
      apply (gr_new _ _ _ _ _ _ G) in Hi'. destruct (mHeap (gM g) !! i) as [o'|] eqn:E; [|done]. apply (la_fresh _ _ _ Hlay) in E. lia. }
  destruct (removeAtIdx_evolves _ _ _ _ _ _ (ev_ok _ _ _ _ Hev) E4) as [Hev4 Hl4]. split; [by eapply evolves_trans|lia].
Qed.

Lemma removeCall_spec p g p' ok g' : programOk p (gM g) → (length p ≤ ncalls)%nat → removeCall target p g = Ret ((p', ok), g') →
  evolves p (gM g) p' (gM g') ∧ (length p' ≤ ncalls)%nat.
Proof.
  intros Hp Hlen H. unfold removeCall in H. destruct p as [|c0 p0] eqn:Epp; [injection H as <- <- <-; split; [by apply evolves_refl|done]|].
  rewrite <-Epp in *. clear c0 p0 Epp. gstep H idx g1 E1. apply quiet_draw in E1 as [= _ Hm]. gstep H p1 g2 E2. injection H as <- <- <-.
  rewrite <-Hm in *. destruct (removeAt_evolves _ _ _ _ _ Hp E2) as (Hi & -> & Hev). split; [done|]. rewrite length_delete by (apply lookup_lt_is_Some; lia). lia.
Qed.

End operations.

End target.
End MutateProg.
