(* ===== verification/AnySpec.v ===== *)
(** * AnySpec: squashed programs are well formed

    [squashPtr] turns what a pointer points to into blobs and results of the types of [ANY].
    The results stay the ones they are, with their references and uses, but their types change
    in the heap. *)

From S2P Require Import Prelude Bytes Types Prog Prio ProgEdit Clone WellFormed Layers Expr Validation Typing ArgTree Minimize MinimizeArgs Analysis Mutation.
From S2P Require Import RandData Generate GenGrow GenTypes GenSpec Squash Mutate MutateSpec MutateProg.
Import Types Prog ProgEdit Clone WellFormed Layers Expr Validation Typing ArgTree Generate GenGrow GenTypes GenSpec Squash Mutate MutateSpec MutateProg.

Module AnySpec.

Definition isStrFormat (bf : BinaryFormat) : bool := match bf with FormatStrDec | FormatStrHex | FormatStrOct => true | _ => false end.

Section target.
Context (target : Target).
Notation typeAt := (typeAt (typeRefs target)).
Notation typed := (typed target).
Notation shaped := (shaped target).

(** ** The types of ANY *)

(** Where the types of the table can occur, with the direction. *)
Inductive occurs : Ref → Dir → Prop :=
| occ_arg meta f : meta ∈ Syscalls target → f ∈ sysArgs meta → occurs (fieldType f) DirIn
| occ_ptr r tc elem ed d : occurs r d → typeAt r = Ret (PtrType tc elem ed) → occurs elem ed
| occ_any r tc elem ed : isAnyPtrRef target r = Ret true → typeAt r = Ret (PtrType tc elem ed) → occurs elem ed
| occ_struct r tc fields align ov d f : occurs r d → typeAt r = Ret (StructType tc fields align ov) → f ∈ fields → occurs (fieldType f) (fieldDir f d)
| occ_array r tc elem kind rb re d : occurs r d → typeAt r = Ret (ArrayType tc elem kind rb re) → occurs elem d
| occ_union r tc fields d f : occurs r d → typeAt r = Ret (UnionType tc fields) → f ∈ fields → occurs (fieldType f) (fieldDir f d).

(** What [initAnyTypes] finds in a table that was made by the compiler: the pointers lead to
    an array of the union, whose options are a blob and the resources.  Resources that are
    formatted as strings are only used as input. *)
Record anyTable : Prop := {
  an_ptr r : r = anyPtrPtr target ∨ r = anyPtr64 target → ∃ tc, typeAt r = Ret (PtrType tc (anyArray target) DirInOut);
  an_array : ∃ tc, typeAt (anyArray target) = Ret (ArrayType tc (anyUnion target) ArrayRandLen 0 0);
  an_union : ∃ tc fields, typeAt (anyUnion target) = Ret (UnionType tc fields) ∧ IsVarlen tc = true ∧
    (∃ f, fields !! 0%nat = Some f ∧ fieldType f = anyBlob target ∧ HasDirection f = false) ∧
    (∀ k r, anyRes target !! k = Some r → ∃ f, fields !! S k = Some f ∧ fieldType f = r ∧
      fieldDir f DirInOut = if decide (k < 4)%nat then DirInOut else DirIn) ∧
    (∀ f, f ∈ fields → fieldType f = anyBlob target ∨ fieldType f ∈ anyRes target);
  an_blob : ∃ tc desc, typeAt (anyBlob target) = Ret (BufferType tc desc) ∧ IsVarlen tc = true;
  an_res r : r ∈ anyRes target → ∃ tc bf desc, typeAt r = Ret (ResourceType tc bf desc);
  an_format r d t : occurs r d → typeAt r = Ret t → isStrFormat (Format t) = true → d = DirIn
}.

Context (Htab : genTable target) (Hany : anyTable).

(** ** Typing only depends on the results of an argument *)

Definition refsOn (N : list positive) (h h' : heap) : Prop :=
  ∀ i o, i ∈ N → h !! i = Some o → ∃ o', h' !! i = Some o' ∧ rRef o' = rRef o ∧ rDir o' = rDir o.

Lemma refsOn_sub N N' h h' : (∀ i, i ∈ N' → i ∈ N) → refsOn N h h' → refsOn N' h h'.
Proof. intros HN H i o Hi. apply H. by apply HN. Qed.

(** The results below an argument. *)
Lemma in_group c l x : x ∈ l → ∀ i, i ∈ results x → i ∈ results (GroupArg c l).
Proof. intros Hx i Hi. rewrite results_group. apply elem_of_concat. exists (results x). split; [by apply list_elem_of_fmap_2|done]. Qed.

Lemma typed_local h h' a : refsOn (results a) h h' → ∀ typ dir, typed h a typ dir → typed h' a typ dir.
Proof.
  induction a as [c v|c ad v r IH|c d s|c l IH|c o i t IH|i] using arg_ind; intros Hh typ dir Ht;
    eapply typed_head; try exact Ht; try done.
  - intros t dir' Hs. inversion Hs; subst. by constructor.
  - intros t dir' Hs. inversion Hs; subst; constructor; try done. intros x ->. apply IH; [done|exact Hh|eauto].
  - intros t dir' Hs. inversion Hs; subst. by constructor.
  - intros t dir' Hs. inversion Hs; subst; constructor; try done.
    + eapply Forall2_impl_in; [eassumption|]. intros x f Hx Hxt. cbn beta in *. apply IH; [done| |done]. eapply refsOn_sub; [|exact Hh]. by apply in_group.
    + match goal with H : Forall _ l |- _ => eapply Forall_impl_in; [exact H|] end.
      intros x Hx Hxt. apply IH; [done| |done]. eapply refsOn_sub; [|exact Hh]. by apply in_group.
  - intros t' dir' Hs. inversion Hs; subst. econstructor; [done|done|]. by apply IH.
  - intros r. cbn [argRef]. unfold deref. destruct (h !! i) as [o|] eqn:E; [|done]. destruct (Hh i o) as (o' & -> & Hr & _); [apply list_elem_of_here|done|]. cbn. by rewrite Hr.
  - intros r. cbn [argDir]. unfold deref. destruct (h !! i) as [o|] eqn:E; [|done]. destruct (Hh i o) as (o' & -> & _ & Hr); [apply list_elem_of_here|done|]. cbn. by rewrite Hr.
  - intros t dir' Hs. inversion Hs; subst. constructor.
Qed.

Lemma size_local h h' a : refsOn (results a) h h' → ∀ z, Prog.Size target h a = Ret z → Prog.Size target h' a = Ret z.
Proof.
  induction a as [| | |c l IH|c o i t IH|i] using arg_ind; intros Hh z; cbn [Prog.Size]; try done.
  - assert (∀ x, x ∈ l → refsOn (results x) h h') as Hl by (intros x Hx; eapply refsOn_sub; [|exact Hh]; by apply in_group).
    intros H. apply bind_Ret in H as (t & -> & H). cbn [rbind]. destruct (negb _); [done|]. destruct t; try done.
    + eapply for_list_mono; [|exact H]. intros y s s' Hy Hs. apply bind_Ret in Hs as (sz & Hs & <-). by rewrite (IH y Hy (Hl y Hy) _ Hs).
    + apply bind_Ret in H as (st & H & H2). erewrite for_list_mono; [..|exact H]; [exact H2|].
      intros y [i [sz off]] s' Hy Hs. apply bind_Ret in Hs as (w & Hs & <-). by rewrite (IH y Hy (Hl y Hy) _ Hs).
  - intros H. apply bind_Ret in H as (tt & -> & H). cbn [rbind]. destruct (negb _); [done|]. by apply IH.
  - unfold deref. destruct (h !! i) as [o|] eqn:E; [|done]. destruct (Hh i o) as (o' & -> & Hr & _); [apply list_elem_of_here|done|]. cbn. by rewrite Hr.
Qed.

Lemma nodes_trans a : ∀ x y, x ∈ nodes a → y ∈ nodes x → y ∈ nodes a.
Proof.
  induction a as [c v|c ad v r IH|c d s|c l IH|c o i t IH|i] using arg_ind; intros x y Hx Hy; cbn [nodes] in Hx;
    (apply elem_of_cons in Hx as [->|Hx]; [done|]); try by apply elem_of_nil in Hx.
  - destruct r as [p|]; [|by apply elem_of_nil in Hx]. cbn [nodes]. apply list_elem_of_further. by eapply IH.
  - apply elem_of_concat in Hx as (k & Hk & Hx). apply list_elem_of_fmap in Hk as (z & -> & Hz). cbn [nodes]. apply list_elem_of_further, elem_of_concat.
    exists (nodes z). split; [by apply list_elem_of_fmap_2|by eapply IH].
  - cbn [nodes]. apply list_elem_of_further. by eapply IH.
Qed.

Lemma sizedArg_local h h' a : refsOn (results a) h h' → sizedArg target h a → sizedArg target h' a.
Proof.
  intros Hh Hs x Hx. destruct (Hs x Hx) as [z Hz]. exists z. eapply size_local; [|exact Hz]. eapply refsOn_sub; [|exact Hh]. intros i Hi.
  unfold results in *. apply list_elem_of_omap in Hi as (y & Hy & Hr). apply list_elem_of_omap. exists y. split; [|done]. by eapply nodes_trans.
Qed.

(** ** Elements of the array *)

Inductive anyElem (h : heap) : Arg → Prop :=
| ae_blob c dc d tr : aref c = anyUnion target → adir c = DirIn → aref dc = anyBlob target → adir dc = DirIn → anyElem h (UnionArg c (DataArg dc d 0) 0 tr)
| ae_result c i o k tr : aref c = anyUnion target → adir c = DirIn → h !! i = Some o → anyRes target !! k = Some (rRef o) → ((4 ≤ k)%nat → rDir o = DirIn) →
    anyElem h (UnionArg c (ResultArg i) (Z.of_nat (S k)) tr).

Lemma anyElem_local h h' u : refsOn (results u) h h' → anyElem h u → anyElem h' u.
Proof.
  intros Hh H. destruct H as [|c i o k tr Hc Hd Ho Hr Hi]; [by constructor|]. destruct (Hh i o) as (o' & Ho' & Hr' & Hd'); [apply list_elem_of_here|done|].
  eapply ae_result; [done|done|exact Ho'|congruence|]. intros Hk. rewrite Hd'. auto.
Qed.

(** The results [N] get types of ANY, all else stays. *)
Record retyped (N : list positive) (m m' : mem) : Prop := {
  rt_next : (mNext m ≤ mNext m')%positive;
  rt_back : ∀ i o', mHeap m' !! i = Some o' → is_Some (mHeap m !! i);
  rt_obj : ∀ i o, mHeap m !! i = Some o → ∃ o', mHeap m' !! i = Some o' ∧ rDir o' = rDir o ∧ rRes o' = rRes o ∧ uses o' = uses o ∧
    (i ∉ N → o' = o) ∧ (i ∈ N → rRef o' ∈ anyRes target)
}.

Lemma retyped_bump m m' : mHeap m' = mHeap m → (mNext m ≤ mNext m')%positive → retyped [] m m'.
Proof. intros Hh Hn. split; [done|rewrite Hh; eauto|]. intros i o Ho. exists o. rewrite Hh. split_and!; try done. intros Hi. by apply elem_of_nil in Hi. Qed.

Lemma retyped_app N1 N2 m m1 m2 : retyped N1 m m1 → retyped N2 m1 m2 → retyped (N1 ++ N2) m m2.
Proof.
  intros [R1 B1 O1] [R2 B2 O2]. split; [lia| |].
  - intros i o' Ho'. apply B2 in Ho' as [o1 Ho1]. by eapply B1.
  - intros i o Ho. destruct (O1 i o Ho) as (o1 & Ho1 & D1 & S1 & U1 & E1 & T1). destruct (O2 i o1 Ho1) as (o2 & Ho2 & D2 & S2 & U2 & E2 & T2).
    exists o2. split_and!; [done|congruence|congruence|congruence| |].
    + intros Hi. rewrite elem_of_app in Hi. rewrite E2, E1 by tauto. done.
    + intros Hi. destruct (decide (i ∈ N2)) as [|Hn]; [auto|]. rewrite (E2 Hn). apply T1. rewrite elem_of_app in Hi. tauto.
Qed.

Lemma retyped_refsOn N N' m m' : retyped N m m' → (∀ i, i ∈ N' → i ∉ N) → refsOn N' (mHeap m) (mHeap m').
Proof. intros [_ _ O] Hd i o Hi Ho. destruct (O i o Ho) as (o' & Ho' & _ & _ & _ & E & _). exists o'. by rewrite (E (Hd i Hi)) in *. Qed.

(** The arguments with the results [N] were added to the elements. *)
Record squashed (N : list positive) (s s' : list Arg * mem) : Prop := {
  sq_elems : Forall (anyElem (mHeap s'.2)) s'.1;
  sq_results : concat (results <$> s'.1) = concat (results <$> s.1) ++ N;
  sq_retyped : retyped N s.2 s'.2
}.

Lemma squashed_trans N1 N2 s s1 s2 : squashed N1 s s1 → squashed N2 s1 s2 → squashed (N1 ++ N2) s s2.
Proof. intros [_ R1 T1] [E2 R2 T2]. split; [done| |by eapply retyped_app]. by rewrite R2, R1, app_assoc. Qed.

Lemma squashed_refl s : Forall (anyElem (mHeap s.2)) s.1 → squashed [] s s.
Proof. intros H. split; [done|by rewrite app_nil_r|by apply retyped_bump]. Qed.

Lemma anyElem_typed h u : anyElem h u → typed h u (anyUnion target) DirInOut.
Proof.
  intros H. destruct (an_union Hany) as (tc & fields & Ht & Hv & (f & Hf & Hft & Hfd) & Hres & _). destruct (an_blob Hany) as (tb & desc & Htb & Hvb).
  destruct H as [c dc d tr Hc Hcd Hdc Hdd|c i o k tr Hc Hcd Ho Hr Hk].
  - econstructor; [exact Ht|reflexivity|cbn [argRef]; by rewrite Hc|by left|reflexivity|by right|exact Ht|]. cbn [isPtrType].
    econstructor; [done|exact Hf|]. unfold fieldDir. rewrite Hfd, Hft.
    econstructor; [exact Htb|reflexivity|cbn [argRef]; by rewrite Hdc|by left|reflexivity|by right|exact Htb|]. constructor; [by rewrite Hdd|by rewrite Hvb].
  - econstructor; [exact Ht|reflexivity|cbn [argRef]; by rewrite Hc|by left|reflexivity|by right|exact Ht|]. cbn [isPtrType].
    destruct (Hres k _ Hr) as (f' & Hf' & Hft' & Hfd'). econstructor; [lia|by rewrite Nat2Z.id|]. rewrite Hft', Hfd'.
    destruct (an_res Hany (rRef o)) as (tr' & bf & ds & Htr); [by eapply list_elem_of_lookup_2|].
    econstructor; [exact Htr|reflexivity|cbn [argRef]; by rewrite (deref_Some _ _ _ Ho)|by left|cbn [argDir]; by rewrite (deref_Some _ _ _ Ho)| |exact Htr|constructor].
    cbn [isPtrType]. destruct (decide (k < 4)%nat); [by right|left]. apply Hk. lia.
Qed.

Lemma anyElem_sized h u : anyElem h u → sizedArg target h u.
Proof.
  intros H. destruct (an_union Hany) as (tc & fields & Ht & Hv & _).
  assert (∀ c opt idx tr z, aref c = anyUnion target → Prog.Size target h opt = Ret z → Prog.Size target h (UnionArg c opt idx tr) = Ret z) as Hu.
  { intros c opt idx tr z Hc Hz. cbn [Prog.Size]. rewrite Hc, Ht. cbn [rbind]. unfold Varlen. cbn [common]. by rewrite Hv. }
  destruct H as [c dc d tr Hc _ _ _|c i o k tr Hc Hcd Ho Hr Hk]; intros x Hx; cbn [nodes] in Hx; rewrite !elem_of_cons, elem_of_nil in Hx.
  - destruct Hx as [->|[->|[]]]; [|cbn; eauto]. eexists. apply Hu; [done|reflexivity].
  - destruct (an_res Hany (rRef o)) as (tr' & bf & ds & Htr); [by eapply list_elem_of_lookup_2|].
    assert (∃ sz, Prog.Size target h (ResultArg i) = Ret sz) as [sz Hs].
    { cbn [Prog.Size]. rewrite (deref_Some _ _ _ Ho). cbn [rbind]. rewrite Htr. cbn [rbind]. eexists. by apply (scalar_size target Htab (rRef o)). }
    destruct Hx as [->|[->|[]]]; [|eauto]. eexists. by apply Hu.
Qed.

Lemma anyElem_data h u : anyElem h u → inData u.
Proof.
  intros [c dc d tr _ _ _ Hdd|c i o k tr _ _ _ _ _]; intros x Hx; cbn [nodes] in Hx; rewrite !elem_of_cons, elem_of_nil in Hx; destruct Hx as [->|[->|[]]]; done.
Qed.

(** ** Squashing *)

Lemma newDataElem_spec s s' : Forall (anyElem (mHeap s.2)) s.1 → newDataElem target s = Ret s' → squashed [] s s' ∧
  ∃ c dc, s'.1 = s.1 ++ [UnionArg c (DataArg dc [] 0) 0 false] ∧ aref c = anyUnion target ∧ adir c = DirIn ∧ aref dc = anyBlob target ∧ adir dc = DirIn.
Proof.
  destruct s as [elems m]. intros He H. destruct (an_union Hany) as (tc & fields & Ht & _). destruct (an_blob Hany) as (tb & desc & Htb & _).
  unfold newDataElem in H. rewrite Htb, Ht in H. cbn [rbind] in H. unfold MakeDataArg, MakeUnionArg, alloc in H. rewrite decide_False in H by done.
  rewrite (refAt target Htab _ _ Htb), (refAt target Htab _ _ Ht) in H. cbn [rbind mNext mHeap] in H. injection H as <-. cbn [fst snd] in *. split.
  - split; cbn [fst snd mHeap].
    + apply Forall_app. split; [done|]. constructor; [by apply ae_blob|constructor].
    + rewrite fmap_app, concat_app. done.
    + apply retyped_bump; [done|]. cbn [mNext]. lia.
  - by eexists _, _.
Qed.

Lemma addBytes_spec bytes s s' : Forall (anyElem (mHeap s.2)) s.1 → addBytes target bytes s = Ret s' → squashed [] s s'.
Proof.
  intros He H. unfold addBytes in H. apply bind_Ret in H as (s1 & H1 & H).
  assert (squashed [] s s1) as Hs1.
  { unfold ensureDataElem in H1. destruct (last s.1) as [[| | | |c opt idx tr|]|]; try discriminate; [|by destruct (newDataElem_spec _ _ He H1)].
    destruct opt; try (by destruct (newDataElem_spec _ _ He H1)). injection H1 as <-. by apply squashed_refl. }
  destruct s1 as [elems m]. destruct (last elems) as [[| | | |c [| |dc d sz| | |] idx tr|]|] eqn:El; try discriminate. apply bind_Ret in H as (d' & Hd & [= <-]).
  apply last_Some in El as [pre ->]. rewrite removelast_last. change (@nil positive) with (@nil positive ++ []). eapply squashed_trans; [exact Hs1|].
  destruct Hs1 as [He1 _ _]. cbn [fst snd] in He1. apply Forall_app in He1 as [He1 Hlast]. apply (proj1 (Forall_singleton _ _)) in Hlast.
  split; cbn [fst snd]; [|by rewrite app_nil_r, !fmap_app, !concat_app|by apply retyped_bump]. apply Forall_app. split; [done|]. constructor; [|constructor].
  inversion Hlast; subst. by apply ae_blob.
Qed.

Lemma addPad_spec pad s s' : Forall (anyElem (mHeap s.2)) s.1 → addPad target pad s = Ret s' → squashed [] s s'.
Proof.
  intros He H. unfold addPad in H. destruct (decide _); [|injection H as <-; by apply squashed_refl]. apply bind_Ret in H as (z & _ & H). by eapply addBytes_spec.
Qed.

(** The result may become the option of its format. *)
Definition resIn (h : heap) (i : positive) : Prop :=
  ∀ o t, h !! i = Some o → typeAt (rRef o) = Ret t → isStrFormat (Format t) = true → rDir o = DirIn.

Lemma anyResIndex_range bf size idx : anyResIndex bf size = Ret idx → 1 ≤ idx ∧ (5 ≤ idx → isStrFormat bf = true).
Proof. unfold anyResIndex. destruct bf; repeat case_decide; intros [= <-]; (split; [lia|]); intros ?; done || lia. Qed.

Lemma squashResult_spec i s s' : Forall (anyElem (mHeap s.2)) s.1 → i ∉ concat (results <$> s.1) → resIn (mHeap s.2) i →
  squashResult target i s = Ret s' → squashed [i] s s'.
Proof.
  destruct s as [elems m]. cbn [fst snd]. intros He Hi Hin H. unfold squashResult in H. apply bind_Ret in H as (t & Ht & H). apply bind_Ret in H as (sz & _ & H).
  apply bind_Ret in H as (idx & Hidx & H). apply bind_Ret in H as (r & Hr & H). apply bind_Ret in H as (tr & Htr & H). rewrite (refAt target Htab _ _ Htr) in H.
  cbn [rbind] in H. apply bind_Ret in H as (h & Hh & H). unfold setRef in Hh. apply bind_Ret in Hh as (o & Ho & [= <-]). apply deref_inv in Ho.
  unfold argType in Ht. cbn [argRef] in Ht. rewrite (deref_Some _ _ _ Ho) in Ht. cbn [rbind] in Ht.
  destruct (an_union Hany) as (tc & fields & Htu & _). rewrite Htu in H. cbn [rbind] in H. unfold MakeUnionArg in H. rewrite (refAt target Htab _ _ Htu) in H.
  cbn [rbind alloc mNext mHeap] in H. injection H as <-. destruct (anyResIndex_range _ _ _ Hidx) as [H1 H5]. apply Prio.index_inv in Hr as [_ Hr].
  set (o' := MkResult r (rDir o) (rRes o) (OpDiv o) (OpAdd o) (rVal o) (uses o)). set (h' := <[i := o']> (mHeap m)).
  assert (retyped [i] m (Mem h' (Pos.succ (mNext m)))) as Hrt.
  { split; cbn [mHeap mNext]; [lia| |].
    - intros j oj Hj. unfold h' in Hj. destruct (decide (i = j)) as [<-|Hne]; [by eexists|]. rewrite lookup_insert_ne in Hj by done. eauto.
    - intros j oj Hj. unfold h'. destruct (decide (i = j)) as [<-|Hne].
      + rewrite lookup_insert_eq. exists o'. assert (oj = o) as -> by congruence. split_and!; try done.
        * intros Hn. destruct Hn. apply list_elem_of_here.
        * intros _. by eapply list_elem_of_lookup_2.
      + rewrite lookup_insert_ne by done. exists oj. split_and!; try done. intros Hn. by apply list_elem_of_singleton in Hn as ->. }
  split; cbn [fst snd]; [|by rewrite fmap_app, concat_app|exact Hrt]. apply Forall_app. split.
  - apply Forall_forall. intros u Hu. rewrite Forall_forall in He. eapply anyElem_local; [|by apply He]. apply (retyped_refsOn [i] _ _ _ Hrt).
    intros j Hj Hji. apply list_elem_of_singleton in Hji as ->. apply Hi. apply elem_of_concat. exists (results u). split; [by apply list_elem_of_fmap_2|done].
  - constructor; [|constructor]. replace idx with (Z.of_nat (S (Z.to_nat (idx - 1)))) by lia. eapply (ae_result _ _ _ o'); [done|done|apply lookup_insert_eq|exact Hr|].
    intros Hk. cbn [rDir o']. eapply Hin; [done|done|]. apply H5. lia.
Qed.

(** What is asked of arguments that are squashed. *)
Definition ready (N : list positive) (s : list Arg * mem) : Prop :=
  NoDup N ∧ Forall (anyElem (mHeap s.2)) s.1 ∧ ∀ i, i ∈ N → i ∉ concat (results <$> s.1) ∧ resIn (mHeap s.2) i.

Lemma ready_next N1 N2 s s1 : ready (N1 ++ N2) s → squashed N1 s s1 → ready N2 s1.
Proof.
  intros (Hnd & He & Hi) [He1 Hr1 Ht1]. apply NoDup_app in Hnd as (_ & Hd & Hnd). split_and!; [done|done|]. intros i Hi2.
  destruct (Hi i) as [Hn Hin]; [rewrite elem_of_app; by right|]. assert (i ∉ N1) as Hn1 by (intros Hx; by apply (Hd i Hx)). split.
  - rewrite Hr1, elem_of_app. tauto.
  - intros o1 t Ho1. destruct (rt_back _ _ _ Ht1 i o1 Ho1) as [o Ho]. destruct (rt_obj _ _ _ Ht1 i o Ho) as (o2 & Ho2 & _ & _ & _ & Hsame & _).
    assert (o1 = o) as -> by (rewrite <-(Hsame Hn1); congruence). by apply Hin.
Qed.

Lemma ready_first N1 N2 s : ready (N1 ++ N2) s → ready N1 s.
Proof.
  intros (Hnd & He & Hi). apply NoDup_app in Hnd as (Hnd & _). split_and!; [done|done|]. intros i Hi1. apply Hi. rewrite elem_of_app. by left.
Qed.

Lemma squashFields_spec impl inner :
  (∀ x s s', x ∈ inner → ready (results x) s → impl x s = Ret s' → squashed (results x) s s') →
  ∀ b f s b' f' s', ready (concat (results <$> inner)) s →
  for_list (λ fld '(bits, fieldsSize, s),
    let! size := Prog.Size target (mHeap s.2) fld in
    let fieldsSize := fieldsSize +! size in
    let! tf := argType target (mHeap s.2) fld in
    if IsBitfield tf then
      let! '(bits, data) := squashBits target fld tf size bits in
      let! s := match data with Some data => addBytes target data s | None => Ret s end in
      Ret (bits, fieldsSize, s)
    else let! s := impl fld s in Ret (bits, fieldsSize, s)) inner (b, f, s) = Ret (b', f', s') →
  squashed (concat (results <$> inner)) s s'.
Proof.
  induction inner as [|x inner IH]; intros Himpl b f s b' f' s' Hrd H.
  { injection H as _ _ <-. apply squashed_refl. apply Hrd. }
  cbn [for_list] in H. apply bind_Ret in H as ([[b1 f1] s1] & H1 & H). rewrite fmap_cons in *. cbn [concat] in *.
  assert (squashed (results x) s s1) as Hs1.
  { apply bind_Ret in H1 as (sz & _ & H1). apply bind_Ret in H1 as (tf & _ & H1). destruct (IsBitfield tf).
    - apply bind_Ret in H1 as ([b2 data] & Hb & H1). apply bind_Ret in H1 as (s2 & H2 & [= _ _ <-]).
      assert (results x = []) as -> by (unfold squashBits in Hb; by destruct x).
      destruct data; [eapply addBytes_spec; [apply Hrd|exact H2]|injection H2 as <-; apply squashed_refl; apply Hrd].
    - apply bind_Ret in H1 as (s2 & H2 & [= _ _ <-]). eapply Himpl; [apply list_elem_of_here|by eapply ready_first|exact H2]. }
  eapply squashed_trans; [exact Hs1|]. eapply IH; [|by eapply ready_next|exact H]. intros y s2 s3 Hy. apply Himpl. by apply list_elem_of_further.
Qed.

Lemma squashPtrImpl_spec a : ∀ s s', ready (results a) s → squashPtrImpl target a s = Ret s' → squashed (results a) s s'.
Proof.
  induction a as [c v|c ad v r IH|c d z|c l IH|c o i t IH|i] using arg_ind; intros s s' Hrd H; cbn [squashPtrImpl] in H;
    apply bind_Ret in H as (ty & _ & H); (destruct (decide _); [discriminate H|]); pose proof Hrd as (_ & He & _).
  - unfold squashConst in H. apply bind_Ret in H as (ty2 & _ & H). apply bind_Ret in H as (sz & _ & H).
    destruct (IsPad ty2); apply bind_Ret in H as (x & Hx & H); [by eapply addBytes_spec|]. destruct x as [vv bf]. apply bind_Ret in H as (data & _ & H).
    destruct (decide _); [discriminate H|]. by eapply addBytes_spec.
  - discriminate H.
  - destruct (decide _); [apply bind_Ret in H as (pad & _ & H); by eapply addPad_spec|by eapply addBytes_spec].
  - unfold squashGroup in H. destruct (match ty with StructType _ _ _ _ => _ | _ => _ end); [discriminate H|]. rewrite results_group in *.
    apply bind_Ret in H as ([[bits sz] s1] & H & H2). apply bind_Ret in H2 as (z & _ & H2).
    assert (squashed (concat (results <$> l)) s s1) as Hs1 by (eapply squashFields_spec; [|exact Hrd|exact H]; intros x s2 s3 Hx; by apply IH).
    rewrite <-(app_nil_r (concat _)). eapply squashed_trans; [exact Hs1|]. eapply addPad_spec; [apply Hs1|exact H2].
  - apply bind_Ret in H as (pad & _ & H). apply bind_Ret in H as (s1 & H1 & H2). assert (squashed (results o) s s1) as Hs1 by (by apply IH).
    change (squashed (results o) s s'). rewrite <-(app_nil_r (results o)). eapply squashed_trans; [exact Hs1|]. eapply addPad_spec; [apply Hs1|exact H2].
  - destruct Hrd as (_ & _ & Hi). destruct (Hi i (list_elem_of_here _ _)) as [Hn Hin]. by eapply squashResult_spec.
Qed.

(** A pointer and what it becomes. *)
Record squashedPtr (arg : Arg) (m : mem) (arg' : Arg) (m' : mem) : Prop := {
  sp_pointer : ∃ c addr p r tc group, arg = PointerArg c addr 0 (Some p) ∧ arg' = PointerArg (MkCommon (aid c) r (adir c)) addr 0 (Some group) ∧
    typeAt r = Ret (PtrType tc (anyArray target) DirInOut) ∧ typed (mHeap m') group (anyArray target) DirInOut;
  sp_results : results arg' = results arg;
  sp_retyped : retyped (results arg) m m';
  sp_sized : sizedArg target (mHeap m') arg';
  sp_data : inData arg'
}.

Lemma squashPtr_spec arg m arg' m' : NoDup (results arg) → (∀ i, i ∈ results arg → resIn (mHeap m) i) → squashPtr target arg m = Ret (arg', m') →
  squashedPtr arg m arg' m'.
Proof.
  intros Hnd Hin H. unfold squashPtr in H. destruct arg as [|c addr v [p0|]| | | |]; try discriminate. destruct (decide (v ≠ 0)) as [|Hv]; [discriminate H|].
  assert (v = 0) as -> by lia. apply bind_Ret in H as (sz0 & _ & H). apply bind_Ret in H as ([elems m1] & H1 & H). apply bind_Ret in H as (t & _ & H).
  apply bind_Ret in H as (sz & _ & H). apply bind_Ret in H as (nt & Hnt & H).
  assert (∃ r tc, typeAt r = Ret nt ∧ nt = PtrType tc (anyArray target) DirInOut) as (r & tc & Hr & ->).
  { unfold getAnyPtrType in Hnt. destruct (decide _); [|destruct (decide _); [|discriminate Hnt]];
      (edestruct (an_ptr Hany) as [tc Htc]; [|rewrite Htc in Hnt; injection Hnt as <-; eauto]); [by left|by right]. }
  rewrite (refAt target Htab _ _ Hr) in H. cbn [rbind] in H. destruct (an_array Hany) as (ta & Hta). rewrite Hta in H. cbn [rbind] in H.
  unfold MakeGroupArg in H. rewrite (refAt target Htab _ _ Hta) in H. cbn [rbind alloc] in H. apply bind_Ret in H as (gs & Hgs & H).
  destruct (decide _) as [|_]; [discriminate H|]. injection H as <- <-. cbn [mHeap] in Hgs.
  destruct (squashPtrImpl_spec p0 ([], m) (elems, m1)) as [He Hres Hrt]; [|exact H1|].
  { split_and!; [exact Hnd|constructor|]. intros i Hi. split; [|by apply Hin]. cbn. intros Hx. by apply elem_of_nil in Hx. }
  cbn [fst snd fmap list_fmap concat app] in *. split.
  - eexists c, addr, p0, r, tc, _. split_and!; [done|done|done|]. cbn [mHeap].
    econstructor; [exact Hta|reflexivity|reflexivity|by left|reflexivity|by right|exact Hta|]. cbn [isPtrType]. constructor; [|done].
    eapply Forall_impl; [exact He|]. intros u. apply anyElem_typed.
  - change (results (GroupArg (MkCommon (mNext m1) (anyArray target) DirIn) elems) = results p0). by rewrite results_group, Hres.
  - change (results (PointerArg c addr 0 (Some p0))) with (results p0). rewrite <-(app_nil_r (results p0)). eapply retyped_app; [exact Hrt|].
    apply retyped_bump; [done|]. cbn [mNext]. lia.
  - intros x Hx. cbn [nodes] in Hx. rewrite !elem_of_cons in Hx. cbn [mHeap]. destruct Hx as [->|[->|Hx]]; [|by eexists|].
    + cbn [Prog.Size aref]. rewrite Hr. cbn [rbind]. unfold Types.Size, Varlen. cbn [common]. pose proof (gt_scalar _ Htab r _ Hr eq_refl) as Hvl. cbn [common] in Hvl. rewrite Hvl. eauto.
    + apply elem_of_concat in Hx as (k & Hk & Hx). apply list_elem_of_fmap in Hk as (u & -> & Hu). rewrite Forall_forall in He. eapply anyElem_sized; [by apply He|exact Hx].
  - apply inData_pointer. intros x [= <-]. apply inData_group. intros u Hu. rewrite Forall_forall in He. by eapply anyElem_data, He.
Qed.

(** ** Programs *)

(** Every node of a typed argument occurs in the table with its type and direction. *)
Lemma typed_occurs h a : ∀ typ dir x, typed h a typ dir → occurs typ dir → x ∈ nodes a → ∃ typ' dir', typed h x typ' dir' ∧ occurs typ' dir'.
Proof.
  induction a as [c v|c ad v r IH|c d s|c l IH|c o i t IH|i] using arg_ind; intros typ dir x Ht Hoc Hx; cbn [nodes] in Hx;
    (apply elem_of_cons in Hx as [->|Hx]; [by eauto|]); try by apply elem_of_nil in Hx.
  all: inversion Ht as [? ? ? dir' r' ad' tt t' Htt Hdir Hr Han Had Hd Ht' Hs]; subst.
  - destruct r as [p|]; [|by apply elem_of_nil in Hx]. inversion Hs; subst. eapply IH; [reflexivity|eauto| |exact Hx].
    destruct Han as [->|Ha]; [by eapply occ_ptr|by eapply occ_any].
  - assert (r' = typ) as ->.
    { destruct Han as [?|Ha]; [done|]. unfold isAnyPtrRef in Ha. rewrite Ht' in Ha. inversion Hs; subst; discriminate Ha. }
    assert (t' = tt) as -> by congruence. apply elem_of_concat in Hx as (k & Hk & Hx). apply list_elem_of_fmap in Hk as (y & -> & Hy). apply list_elem_of_lookup in Hy as [j Hj].
    inversion Hs; subst; cbn [isPtrType] in *.
    + destruct (Forall2_lookup_l _ _ _ _ _ ltac:(eassumption) Hj) as (f & Hf & Hyt).
      eapply IH; [by eapply list_elem_of_lookup_2|exact Hyt| |done]. eapply occ_struct; [exact Hoc|exact Htt|by eapply list_elem_of_lookup_2].
    + eapply IH; [by eapply list_elem_of_lookup_2| | |exact Hx].
      * match goal with H : Forall _ l |- _ => exact (Forall_lookup_1 _ _ _ _ H Hj) end.
      * by eapply occ_array.
  - assert (r' = typ) as ->.
    { destruct Han as [?|Ha]; [done|]. unfold isAnyPtrRef in Ha. rewrite Ht' in Ha. inversion Hs; subst; discriminate Ha. }
    assert (t' = tt) as -> by congruence. inversion Hs; subst; cbn [isPtrType] in *. eapply IH; [eassumption| |exact Hx].
    eapply occ_union; [exact Hoc|exact Htt|by eapply list_elem_of_lookup_2].
Qed.

Lemma typed_resIn h i typ dir : typed h (ResultArg i) typ dir → occurs typ dir → resIn h i.
Proof.
  intros Ht Hoc o t Ho Hto Hf. inversion Ht as [? ? ? dir' r' ad' tt t' Htt Hdir Hr Han Had Hd Ht' Hs]; subst. cbn [argRef argDir] in Hr, Had.
  rewrite (deref_Some _ _ _ Ho) in Hr, Had. injection Hr as <-. injection Had as <-. assert (t' = t) as -> by congruence. inversion Hs; subst.
  destruct Han as [Hre|Ha]; [|unfold isAnyPtrRef in Ha; by rewrite Hto in Ha]. rewrite Hre in *. assert (tt = ResourceType tc bf desc) as -> by congruence. cbn [isPtrType] in Hd.
  pose proof (an_format Hany typ dir _ Hoc Hto Hf) as ->. by destruct Hd.
Qed.

Lemma lay_retyped N ls m m' : retyped N m m' → lay target ls m → lay target ls m'.
Proof.
  intros [Rn Rb Ro] [Hnd HL Ht Hf Ho]. split; [done| | | |].
  - split.
    + intros i Hi. destruct (linked_in _ _ HL i Hi) as [o Hoi]. destruct (Ro i o Hoi) as (o' & ? & _). eauto.
    + intros i o' j Hi Ho' Hr. destruct (Rb i o' Ho') as [o Hoi]. destruct (Ro i o Hoi) as (o2 & Ho2 & _ & Hr2 & _). assert (o2 = o') as -> by congruence.
      destruct (linked_res _ _ HL i o j Hi Hoi) as (Hj & oj & Hoj & Hu); [congruence|]. split; [done|]. destruct (Ro j oj Hoj) as (oj' & Hoj' & _ & _ & Hu' & _). exists oj'. by rewrite Hu'.
    + intros j oj' i Hj Hoj' Hu. destruct (Rb j oj' Hoj') as [oj Hoj]. destruct (Ro j oj Hoj) as (o2 & Ho2 & _ & _ & Hu2 & _). assert (o2 = oj') as -> by congruence.
      destruct (linked_uses _ _ HL j oj i Hj Hoj) as (Hi & o & Hoi & Hr); [congruence|]. split; [done|]. destruct (Ro i o Hoi) as (o' & Ho' & _ & Hr' & _). exists o'. by rewrite Hr'.
  - intros i o' Hi Ho'. destruct (Rb i o' Ho') as [o Hoi]. destruct (Ro i o Hoi) as (o2 & Ho2 & _ & _ & _ & Hsame & Hnew). assert (o2 = o') as -> by congruence.
    destruct (decide (i ∈ N)) as [Hin|Hn]; [|rewrite (Hsame Hn); by eapply Ht]. destruct (an_res Hany _ (Hnew Hin)) as (tc & bf & desc & Hty). by eapply resTyped_at.
  - intros i o' Ho'. destruct (Rb i o' Ho') as [o Hoi]. apply Hf in Hoi. lia.
  - eapply ordered_mono; [exact Ho|]. intros i o' r _ Ho' Hr. destruct (Rb i o' Ho') as [o Hoi]. destruct (Ro i o Hoi) as (o2 & Ho2 & _ & Hr2 & _). exists o. split_and!; congruence || done.
Qed.

Lemma okCall_local h h' c : refsOn (callResults c) h h' → okCall target h c → okCall target h' c.
Proof.
  intros Hh [[Ha Hr] Hs Hd Hm]. assert (∀ a, a ∈ callArgs c → refsOn (results a) h h') as Hargs.
  { intros a Hin. eapply refsOn_sub; [|exact Hh]. intros i Hi. unfold callResults. apply elem_of_app. unfold callArgs in Hin. apply elem_of_app in Hin as [Hin|Hin].
    - apply list_elem_of_fmap in Hin as (j & -> & Hj). apply list_elem_of_singleton in Hi as ->. by right.
    - left. apply elem_of_concat. exists (results a). split; [by apply list_elem_of_fmap_2|done]. }
  split; [split| |done|done].
  - eapply Forall2_impl_in; [exact Ha|]. intros a f Hin. apply typed_local, Hargs. unfold callArgs. apply elem_of_app. by right.
  - destruct (sysRet (Meta c)), (Ret_ c) as [i|] eqn:E; try done. eapply typed_local; [|exact Hr]. apply Hargs. unfold callArgs. rewrite E. apply elem_of_app. left. apply list_elem_of_here.
  - intros a x Hin Hx. by apply (sizedArg_local h h' a (Hargs a Hin) ltac:(intros y Hy; by apply (Hs a))).
Qed.

Lemma sub_nodes pos : ∀ a x, subArg pos a = Some x → x ∈ nodes a.
Proof.
  induction pos as [|i pos IH]; intros a x H; cbn [subArg] in H; [injection H as <-; destruct a; apply list_elem_of_here|].
  destruct (child a i) as [b|] eqn:E; [|done]. eapply nodes_trans; [|by eapply IH]. destruct a as [| c ad v [p|] | | c l | c o ix t |]; cbn [child] in E; try done.
  - case_decide; [|done]. injection E as <-. cbn [nodes]. apply list_elem_of_further. destruct p; apply list_elem_of_here.
  - cbn [nodes]. apply list_elem_of_further, elem_of_concat. exists (nodes b). split; [apply list_elem_of_fmap_2; by eapply list_elem_of_lookup_2|destruct b; apply list_elem_of_here].
  - case_decide; [|done]. injection E as <-. cbn [nodes]. apply list_elem_of_further. destruct o; apply list_elem_of_here.
Qed.

Lemma putAt_putAt pos x y c : putAt pos x (putAt pos y c) = putAt pos x c.
Proof.
  unfold putAt, Minimize.setArgs. cbn [Meta Args Ret_ Props Comment]. f_equal. apply list_eq. intros k.
  destruct (decide (pos.1 = k)) as [<-|Hne]; [|by rewrite !list_lookup_alter_ne by done]. rewrite !list_lookup_alter_eq. destruct (Args c !! pos.1) as [a|]; [|done]. cbn. by rewrite setSub_setSub.
Qed.

Lemma nodeAt_putAt pos c x y : nodeAt pos c = Ret x → nodeAt pos (putAt pos y c) = Ret y.
Proof.
  intros H. apply nodeAt_inv in H as (a & Ha & Hs). unfold nodeAt, putAt, Minimize.setArgs. cbn [Args]. rewrite list_lookup_alter_eq, Ha. cbn.
  by rewrite (subArg_setSub _ _ _ _ Hs).
Qed.

(** The results of a node can be squashed. *)
Lemma node_resIn h pos c ptr i : okCall target h c → nodeAt pos c = Ret ptr → i ∈ results ptr → resIn h i.
Proof.
  intros [[Ha _] _ _ Hm] Hn Hi. apply nodeAt_inv in Hn as (a & Hj & Hs). destruct (Forall2_lookup_l _ _ _ _ _ Ha Hj) as (f & Hf & Hta).
  unfold results in Hi. apply list_elem_of_omap in Hi as (x & Hx & Hr). destruct x as [| | | | |j]; try discriminate. injection Hr as ->.
  destruct (typed_occurs h a (fieldType f) DirIn (ResultArg i) Hta) as (typ & dir & Ht & Ho); [|eapply nodes_trans; [by eapply sub_nodes|done]|by eapply typed_resIn].
  eapply occ_arg; [exact Hm|by eapply list_elem_of_lookup_2].
Qed.

(** The call with the squashed pointer; its other results are unchanged. *)
Lemma squash_okCall pos c ptr ptr' m m' rest : okCall target (mHeap m) c → nodeAt pos c = Ret ptr → squashedPtr ptr m ptr' m' →
  (∀ new, cloneOrder (putAt pos new c) ≡ₚ results new ++ rest) → (∀ i, i ∈ rest → i ∉ results ptr) → okCall target (mHeap m') (putAt pos ptr' c).
Proof.
  intros Hok Hn [(cc & addr & p & r & tc & group & -> & -> & Hr & Hg) Hres Hrt Hsz Hd] Hperm Hdis.
  set (null := PointerArg cc addr 0 None). rewrite <-(putAt_putAt pos _ null c).
  assert (okCall target (mHeap m') (putAt pos null c)) as Hnull.
  { eapply (okCall_local (mHeap m)).
    - eapply retyped_refsOn; [exact Hrt|]. intros i Hi. apply Hdis. change rest with (results null ++ rest).
      assert (i ∈ cloneOrder (putAt pos null c)) as Hic; [|by rewrite (Hperm null) in Hic]. unfold callResults in Hi. unfold cloneOrder. rewrite elem_of_app in *. tauto.
    - destruct (node_ok target _ _ _ _ Hn Hok) as (_ & Hs & _). eapply putAt_ok; [exact Hn|exact Hok| | |by apply inData_leaf].
      + intros typ dir Ht. eapply typed_head; [exact Ht|done|done|]. intros t dir' Hsh. inversion Hsh; subst; by constructor.
      + intros x Hx. cbn [nodes null] in Hx. apply list_elem_of_singleton in Hx as ->. destruct (Hs _ (list_elem_of_here _ _)) as [z Hz]. exists z. exact Hz. }
  assert (adir cc ≠ DirOut) as Hcd.
  { destruct (node_ok target _ _ _ _ Hn Hok) as ((typ & dir & Ht) & _ & _). destruct (typed_shape target _ _ _ _ Ht) as (? & ? & ? & _ & _ & _ & Hsh). by inversion Hsh. }
  eapply putAt_ok; [by eapply nodeAt_putAt|exact Hnull| |exact Hsz|exact Hd].
  intros typ dir Ht. inversion Ht as [? ? ? dir' r' ad' tt t' Htt Hdir Hr' Han Had Hdd Ht' Hs]; subst.
  econstructor; [exact Htt|reflexivity|reflexivity|right|exact Had|exact Hdd|exact Hr|].
  - unfold isAnyPtrRef. cbn [aref]. rewrite Hr. cbn [rbind]. by rewrite bool_decide_true.
  - constructor; [done|]. by intros x [= <-].
Qed.

Lemma squash_evolves p m ci c pos ptr ptr' m' : programOk target p m → p !! ci = Some c → nodeAt pos c = Ret ptr → squashPtr target ptr m = Ret (ptr', m') →
  evolves target p m (<[ci := putAt pos ptr' c]> p) m' ∧ squashedPtr ptr m ptr' m'.
Proof.
  intros Hp Hc Hn H. pose proof Hp as [[Hlay Hsz] Hok]. assert (okCall target (mHeap m) c) as Hokc by (rewrite Forall_lookup in Hok; by eapply Hok).
  destruct (putAt_results _ _ _ Hn) as (rest & Hperm & Hperm').
  assert (layers p = layers (take ci p) ++ cloneOrder c :: layers (drop (S ci) p)) as Hl by (rewrite <-(take_drop_middle p ci c Hc) at 1; by rewrite layers_app).
  assert (layers (<[ci := putAt pos ptr' c]> p) = layers (take ci p) ++ cloneOrder (putAt pos ptr' c) :: layers (drop (S ci) p)) as Hl'.
  { rewrite insert_take_drop by (by eapply lookup_lt_Some). by rewrite layers_app. }
  pose proof (la_nodup _ _ _ Hlay) as Hnd. rewrite Hl, concat_app in Hnd. cbn [concat] in Hnd. rewrite Hperm in Hnd.
  apply NoDup_app in Hnd as (_ & Hd1 & Hnd). apply NoDup_app in Hnd as (Hnd & Hd2 & _). apply NoDup_app in Hnd as (Hnd & Hd3 & _).
  pose proof (squashPtr_spec ptr m ptr' m' Hnd (λ i, node_resIn _ _ _ _ i Hokc Hn) H) as Hsq. pose proof (sp_retyped _ _ _ _ Hsq) as Hrt. split; [|done].
  assert (okCall target (mHeap m') (putAt pos ptr' c)) as Hok' by (eapply squash_okCall; [done|done|done|exact Hperm'|intros i Hi Hi2; by apply (Hd3 i Hi2)]).
  assert (lay target (layers (<[ci := putAt pos ptr' c]> p)) m') as Hlay'.
  { rewrite Hl'. eapply lay_perm; [|rewrite <-Hl; by eapply lay_retyped]. rewrite Hperm, (Hperm' ptr'), (sp_results _ _ _ _ Hsq). done. }
  assert (Forall (okCall target (mHeap m')) (<[ci := putAt pos ptr' c]> p)) as Hall.
  { apply Forall_lookup. intros k b Hb. apply list_lookup_insert_Some in Hb as [(<- & <- & _)|[Hne Hb]]; [done|]. rewrite Forall_lookup in Hok. eapply okCall_local; [|by eapply Hok].
    eapply retyped_refsOn; [exact Hrt|]. intros i Hi Hi2.
    assert (i ∈ concat (layers (take ci p)) ∨ i ∈ concat (layers (drop (S ci) p))) as [Hin|Hin]; [|apply (Hd1 i Hin); rewrite !elem_of_app; tauto|].
    2: { apply (Hd2 i); [rewrite elem_of_app; by left|done]. }
    rewrite !in_layers. unfold progResults. rewrite !elem_of_concat. rewrite <-(take_drop_middle p ci c Hc) in Hb. apply lookup_app_Some in Hb as [Hb|[Hge Hb]].
    - left. exists (callResults b). split; [|done]. apply list_elem_of_fmap_2. by eapply list_elem_of_lookup_2.
    - right. exists (callResults b). split; [|done]. apply list_elem_of_fmap_2. rewrite length_take in *. apply lookup_lt_Some in Hc.
      replace (k - ci `min` length p)%nat with (S (k - ci - 1)) in Hb by lia. cbn [lookup list_lookup] in Hb. by eapply list_elem_of_lookup_2. }
  assert (∀ i, i ∈ progResults (<[ci := putAt pos ptr' c]> p) ↔ i ∈ progResults p) as Hsame.
  { intros i. rewrite <-!in_layers, Hl, Hl', !concat_app. cbn [concat]. rewrite !elem_of_app, (Hperm' ptr'), Hperm, (sp_results _ _ _ _ Hsq). done. }
  split.
  - split; [|done]. split; [done|]. eapply Forall_impl; [exact Hall|]. intros b. apply ok_sized.
  - intros i o Hi Ho. destruct (rt_obj _ _ _ Hrt i o Ho) as (o' & Ho' & _ & _ & _ & Hsm & _). rewrite Ho', Hsm; [done|]. intros Hin. apply Hi.
    rewrite <-in_layers, Hl, concat_app. cbn [concat]. rewrite !elem_of_app, Hperm, elem_of_app. tauto.
  - intros i Hi. left. by apply Hsame.
Qed.

(** ** Mutation of blobs *)

Definition anyPos (typ : Ref) : Prop := typ = anyArray target ∨ typ = anyUnion target ∨ typ = anyBlob target ∨ typ ∈ anyRes target.

(** Data below the array of ANY is a blob of ANY. *)
Lemma any_blob h a : ∀ typ dir c d s, typed h a typ dir → anyPos typ → DataArg c d s ∈ nodes a → aref c = anyBlob target.
Proof.
  destruct (an_array Hany) as (ta & Hta). destruct (an_union Hany) as (tu & fields & Htu & _ & _ & _ & Hfs). destruct (an_blob Hany) as (tb & bd & Htb & _).
  assert (∀ r t, anyPos r → typeAt r = Ret t → r = anyArray target ∧ t = ArrayType ta (anyUnion target) ArrayRandLen 0 0 ∨
    r = anyUnion target ∧ t = UnionType tu fields ∨ r = anyBlob target ∧ t = BufferType tb bd ∨ ∃ tc bf desc, t = ResourceType tc bf desc) as Hcase.
  { intros r t Hr Ht. destruct Hr as [->|[->|[->|Hr]]]; [left|right; left|do 2 right; left|do 3 right]; [split; congruence..|].
    destruct (an_res Hany r Hr) as (tc & bf & desc & Hr2). exists tc, bf, desc. congruence. }
  induction a as [c0 v|c0 ad v r IH|c0 d0 s0|c0 l IH|c0 o i t IH|i] using arg_ind; intros typ dir c d s Ht Hp Hx; cbn [nodes] in Hx;
    (apply elem_of_cons in Hx as [Heq|Hx]; [try discriminate Heq|]); try by apply elem_of_nil in Hx.
  all: inversion Ht as [? ? ? dir' r' ad' tt t' Htt Hdir Hr Han Had Hd Ht' Hs]; subst.
  all: assert (r' = typ ∨ ∃ tc elem ed, t' = PtrType tc elem ed ∧ elem = anyArray target) as Hhead
    by (destruct Han as [?|Ha]; [by left|right]; unfold isAnyPtrRef in Ha; rewrite Ht' in Ha; cbn [rbind] in Ha; destruct t'; try discriminate Ha; injection Ha as Ha; apply bool_decide_eq_true in Ha; eauto).
  - destruct r as [p|]; [|by apply elem_of_nil in Hx]. inversion Hs; subst. destruct Hhead as [->|(? & ? & ? & [= <- <- <-] & ->)].
    + destruct (Hcase _ _ Hp Ht') as [[_ ?]|[[_ ?]|[[_ ?]|(? & ? & ? & ?)]]]; discriminate.
    + eapply IH; [reflexivity|eauto|by left|exact Hx].
  - injection Heq as -> -> ->. inversion Hs; subst. destruct Hhead as [->|(? & ? & ? & ? & _)]; [|discriminate].
    destruct (Hcase _ _ Hp Ht') as [[_ ?]|[[_ ?]|[[-> _]|(? & ? & ? & ?)]]]; try discriminate. by injection Hr.
  - apply elem_of_concat in Hx as (k & Hk & Hx). apply list_elem_of_fmap in Hk as (y & -> & Hy).
    destruct Hhead as [->|(? & ? & ? & -> & _)]; [|by inversion Hs]. destruct (Hcase _ _ Hp Ht') as [[_ ->]|[[_ ->]|[[_ ->]|(? & ? & ? & ->)]]]; inversion Hs; subst.
    eapply IH; [exact Hy| |by right; left|exact Hx]. match goal with H : Forall _ l |- _ => rewrite Forall_forall in H; by apply H end.
  - destruct Hhead as [->|(? & ? & ? & -> & _)]; [|by inversion Hs]. destruct (Hcase _ _ Hp Ht') as [[_ ->]|[[_ ->]|[[_ ->]|(? & ? & ? & ->)]]]; inversion Hs; subst.
    eapply IH; [eassumption| |exact Hx]. do 2 right. apply Hfs. by eapply list_elem_of_lookup_2.
Qed.

Lemma ptr_blob h c ad v p typ dir cd d s : typed h (PointerArg c ad v p) typ dir → isAnyPtrRef target (aref c) = Ret true → DataArg cd d s ∈ nodes (PointerArg c ad v p) →
  aref cd = anyBlob target.
Proof.
  intros Ht Ha Hx. destruct (typed_shape target _ _ _ _ Ht) as (r & t & dir' & Hr & Htr & _ & Hs). injection Hr as <-. unfold isAnyPtrRef in Ha. rewrite Htr in Ha. cbn [rbind] in Ha.
  destruct t as [| | | | | | | | | |tc elem ed| |]; try discriminate Ha. injection Ha as Ha. apply bool_decide_eq_true in Ha as ->.
  cbn [nodes] in Hx. apply elem_of_cons in Hx as [?|Hx]; [done|]. destruct p as [p|]; [|by apply elem_of_nil in Hx]. inversion Hs; subst.
  eapply (any_blob h p (anyArray target) ed); [eauto|by left|exact Hx].
Qed.

Lemma mutateBlob_spec p1 p2 h0 old lfuel E cd d sz base c g c' g' : work target p1 p2 h0 old E (cloneOrder c) g → okCall target (mHeap (gM g)) c →
  aref cd = anyBlob target → adir cd ≠ DirOut → mutateBlob target lfuel (DataArg cd d sz) base c g = Ret (c', g') → edited target p1 p2 h0 old E c c' g'.
Proof.
  intros W Hok Hr Hd H. unfold mutateBlob in H. destruct base as [b|]; [|by apply pure_Ret in H as [? _]]. gstep H h1 g1 E1. injection E1 as <- <-.
  gstep H pb g1 E1. apply pure_Ret in E1 as [_ ->]. gstep H b' g1 E1. apply pure_Ret in E1 as [_ ->]. gstep H bs g1 E1. apply pure_Ret in E1 as [_ ->].
  gstep H pos g1 E1. apply pure_Ret in E1 as [Hpos ->]. apply locate_node in Hpos. gstep H a g1 E1. apply pure_Ret in E1 as [Hn ->].
  assert (a = DataArg cd d sz) as -> by congruence. gstep H d1 g1 E1. apply pure_Ret in E1 as [_ ->]. gstep H d2 g1 E1. apply quiet_draw in E1.
  destruct (node_ok target _ _ _ _ Hn Hok) as (Hty & Hs & Hdt). destruct (an_blob Hany) as (tb & bd & Htb & Hvb). assert (gM g1 = gM g) as Hm by (by injection E1).
  assert (edited target p1 p2 h0 old E c (putAt pos (DataArg cd d2 sz) c) g1) as [W1 Hok1 Hm1].
  { eapply edit_node; [exact Hn|exact W|exact Hok|by rewrite Hm|]. intros rest W1. eapply data_becomes; [exact W1|exact E1|exact Hty|exact Hr|exact Htb|done| |by rewrite Hvb].
    intros _. by apply (Hdt _ (list_elem_of_here _ _)). }
  eapply updateBase_spec in H as [W2 Hok2 Hm2]; [|exact Htab|exact W1|exact Hok1]. split; [done|done|congruence].
Qed.

Lemma putAt_node pos c x : nodeAt pos c = Ret x → putAt pos x c = c.
Proof.
  intros H. apply nodeAt_inv in H as (a & Ha & Hs). destruct c. unfold putAt, Minimize.setArgs. cbn [Meta Args Ret_ Props Comment] in *. f_equal.
  rewrite (MinimizeArgs.alter_insert _ _ _ _ Ha), (setSub_same _ _ _ Hs). by apply list_insert_id.
Qed.

Lemma squashAny_spec lfuel noMutate p g p' ok g' : programOk target p (gM g) → squashAny target lfuel noMutate p g = Ret ((p', ok), g') →
  evolves target p (gM g) p' (gM g') ∧ length p' = length p.
Proof.
  intros Hp H. assert (evolves target p (gM g) p (gM g)) as Hrefl by (by apply evolves_refl). unfold squashAny in H. gstep H h1 g1 E1. injection E1 as <- <-.
  gstep H ptrs g1 E1. apply pure_Ret in E1 as [_ ->]. destruct ptrs as [|pt0 pts]; [injection H as <- <- <-; done|].
  gstep H x g1 E1. apply chooseOf_Ret in E1 as [[= _ Hm1] _]. destruct x as [ptr0 ci]. gstep H c g2 E2. apply pure_Ret in E2 as [Hc ->].
  apply Prio.index_inv in Hc as [_ Hc]. rewrite Nat2Z.id in Hc. destruct (decide _); [injection H as <- <- <-; rewrite Hm1; done|].
  gstep H pos g2 E2. apply pure_Ret in E2 as [Hpos ->]. apply locate_node in Hpos. gstep H ptr g2 E2. apply pure_Ret in E2 as [Hn ->]. assert (ptr = ptr0) as -> by congruence.
  gstep H r g2 E2. apply pure_Ret in E2 as [Hr ->]. gstep H any g2 E2. apply pure_Ret in E2 as [Ha ->]. gstep H ptr g2 E2.
  rewrite <-Hm1 in *. clear Hm1.
  assert (evolves target p (gM g1) (<[ci := putAt pos ptr c]> p) (gM g2) ∧ ∃ cc ad v pp, ptr = PointerArg cc ad v pp ∧ isAnyPtrRef target (aref cc) = Ret true) as [Hev Hptr].
  { destruct any.
    - injection E2 as <- <-. rewrite (putAt_node _ _ _ Hn), list_insert_id by done. split; [done|].
      assert (okCall target (mHeap (gM g1)) c) as Hokc by (destruct Hp as [_ Hp]; rewrite Forall_lookup in Hp; by eapply Hp).
      destruct (node_ok target _ _ _ _ Hn Hokc) as ((typ & dir & Ht) & _). destruct (typed_shape target _ _ _ _ Ht) as (r' & t & dir' & Hr' & Htr & _ & Hs).
      assert (r' = r) as -> by congruence. pose proof Ha as Ha'. unfold isAnyPtrRef in Ha. rewrite Htr in Ha. destruct t; try discriminate Ha. inversion Hs; subst; try discriminate.
      injection Hr as <-. eexists _, _, _, _. split; [reflexivity|exact Ha'].
    - apply onMem_Ret in E2 as [E2 _]. destruct (squash_evolves p (gM g1) ci c pos ptr0 ptr (gM g2) Hp Hc Hn E2) as [Hev [(cc & addr & p0 & r0 & tc & group & -> & -> & Hr0 & Hg) _ _ _ _]].
      split; [done|]. eexists _, _, _, _. split; [reflexivity|]. cbn [aref]. unfold isAnyPtrRef. rewrite Hr0. cbn [rbind]. by rewrite bool_decide_true. }
  destruct Hptr as (cc & ad & v & pp & -> & Hanyp). set (c1 := putAt pos (PointerArg cc ad v pp) c) in *. gstep H h2 g3 E3. injection E3 as <- <-.
  gstep H blobs g3 E3. apply pure_Ret in E3 as [Hb ->]. pose proof (ev_ok _ _ _ _ _ Hev) as Hp1. pose proof (lookup_lt_Some _ _ _ Hc) as Hlt.
  assert ((<[ci := c1]> p) !! ci = Some c1) as Hc1 by (by apply list_lookup_insert_eq).
  assert (∀ x, x ∈ blobs → ∃ cd d sz, x.1 = DataArg cd d sz ∧ aref cd = anyBlob target ∧ adir cd ≠ DirOut) as Hblobs.
  { assert (okCall target (mHeap (gM g2)) c1) as Hokc by (destruct Hp1 as [_ Hpo]; rewrite Forall_lookup in Hpo; by eapply Hpo).
    destruct (node_ok target (mHeap (gM g2)) pos c1 (PointerArg cc ad v pp)) as ((typ & dir & Ht) & _); [by eapply nodeAt_putAt|done|].
    eapply (foreach_keeps target _ _ (λ l : list (Arg * option Arg), ∀ x, x ∈ l → ∃ cd d sz, x.1 = DataArg cd d sz ∧ aref cd = anyBlob target ∧ adir cd ≠ DirOut)); [| |exact Hb].
    2: { intros x Hx. by apply elem_of_nil in Hx. }
    intros x ctx l l' stop Hx Hl Hcb. destruct x as [| |cd d sz| | |]; cbn [collectBlob] in Hcb; try by injection Hcb as <- <-.
    injection Hcb as <- <-. destruct (decide _); [|done]. intros y Hy. apply elem_of_app in Hy as [Hy|Hy]; [by apply Hl|]. apply list_elem_of_singleton in Hy as ->.
    exists cd, d, sz. split_and!; [done|by eapply ptr_blob|done]. }
  destruct blobs as [|b0 bs]; [injection H as <- <- <-; by rewrite length_insert|]. gstep H u g3 E3. destruct u. destruct (analyzeUpto_spec target _ _ g2 g3 Hp1 E3) as [Hm3 Hv].
  gstep H y g4 E4. apply chooseOf_Ret in E4 as [HC4 Hy]. destruct y as [blob base]. destruct (Hblobs _ Hy) as (cd & d & sz & Hbl & Hra & Hd). cbn [fst] in Hbl. subst blob.
  pose proof HC4 as [= HS4 Hm4]. gstep H c2 g5 E5. injection H as <- <- <-. rewrite <-Hm3, <-Hm4 in *.
  assert (work target (take ci (<[ci:=c1]> p)) (drop (S ci) (<[ci:=c1]> p)) (mHeap (gM g4)) (progResults (<[ci:=c1]> p)) [] (cloneOrder c1) g4) as W by (apply work_start; [done..|by rewrite HS4]).
  eapply mutateBlob_spec in E5 as [W5 Hok5 _]; [|exact W|destruct Hp1 as [_ Hpo]; rewrite Forall_lookup in Hpo; by eapply Hpo|exact Hra|exact Hd].
  pose proof (work_end target _ ci (gM g4) [] c2 g5 Hp1 W5 Hok5) as Hev5. cbn [app] in Hev5. rewrite <-(insert_take_drop (<[ci:=c1]> p) ci c2) in Hev5 by (by rewrite length_insert).
  rewrite !length_insert. split; [by eapply evolves_trans|done].
Qed.

End target.
End AnySpec.
