(* ===== verification/MutateWf.v ===== *)
(** * MutateWf: the programs that mutation returns (prog/mutation.go)

    The operations are put together to [Prog.Mutate]: whatever is drawn, a well-formed program
    becomes a well-formed one. *)

From S2P Require Import Prelude Rand Float64 Alloc Bytes Types Prog ExampleTarget Resources Prio ProgEdit Clone WellFormed Layers Collide Size Expr.
From S2P Require Import Validation Typing ArgTree Conditions Minimize MinimizeCalls MinimizeArgs Analysis Mutation Text RandData Generate GenGrow GenTypes GenSpec Squash Mutate MutateSpec MutateProg AnySpec.
Import Types Prog ProgEdit Clone WellFormed Layers Expr Validation Typing RandData Generate GenGrow GenTypes GenSpec Mutate MutateSpec MutateProg AnySpec.

Module MutateWf.

Section target.
Context (target : Target) (Htab : genTable target) (Hany : anyTable target).
Notation programOk := (programOk target).
Notation evolves := (evolves target).

Section operations.
Context (Arch : string) (SpecialFileLenghts : list Z) (resourceCtors : string → list Resources.ResourceCtor).
Notation ga := (bool → Typ → Dir → gst → res ((Arg * list Call) * gst)) (only parsing).
Context (SpecialTypes : string → option (ga → Typ → Dir → gst → res ((Arg * list Call) * gst))).
Context (SpecialMutate : string → option (Typ → Dir → Arg → gst → res ((Arg * list Call) * gst))).
Context (ifuzzGenerate : Config → rng → list Z * rng) (ifuzzMutate : Config → list Z → rng → list Z * rng).
Context (compress decompress : list Z → list Z) (ct : Prio.ChoiceTable).
Context (order : list (positive * Arg) → list (positive * Arg)).
Context (resOrder : list (string * list positive) → list (string * list positive)).
Context (dfuel lfuel fuel ncalls : nat) (noMutate : gset Z).
Hypothesis HresOrder : ∀ l x, x ∈ resOrder l → x ∈ l.
Hypothesis Hsp : specialGives target SpecialTypes.
Hypothesis Hspecial : ∀ name, SpecialMutate name = None.

Notation mutateStep := (Mutate.mutateStep target Arch SpecialFileLenghts resourceCtors SpecialTypes SpecialMutate ifuzzGenerate ifuzzMutate compress decompress
  ct [] order resOrder dfuel lfuel fuel ncalls noMutate).
Notation mutateLoop := (Mutate.mutateLoop target Arch SpecialFileLenghts resourceCtors SpecialTypes SpecialMutate ifuzzGenerate ifuzzMutate compress decompress
  ct [] order resOrder dfuel lfuel fuel ncalls noMutate).

Lemma mutateStep_spec p g p' ok g' : programOk p (gM g) → (length p ≤ ncalls)%nat → mutateStep p g = Ret ((p', ok), g') →
  evolves p (gM g) p' (gM g') ∧ (length p' ≤ ncalls)%nat.
Proof.
  intros Hp Hlen H. unfold Mutate.mutateStep in H. gstep H b1 g1 E1. apply quiet_draw in E1 as [= _ Hm1]. rewrite <-Hm1 in *.
  destruct b1; [apply squashAny_spec in H as [? ->]; done|]. gstep H b2 g2 E2. apply quiet_draw in E2 as [= _ Hm2]. rewrite <-Hm2 in *.
  destruct b2.
  { unfold splice in H. rewrite decide_True in H by (by left). injection H as <- <- <-. split; [by apply evolves_refl|done]. }
  gstep H b3 g3 E3. apply quiet_draw in E3 as [= _ Hm3]. rewrite <-Hm3 in *. destruct b3; [by eapply insertCall_spec|].
  gstep H b4 g4 E4. apply quiet_draw in E4 as [= _ Hm4]. rewrite <-Hm4 in *. destruct b4; [by eapply mutateArg_spec|by eapply removeCall_spec].
Qed.

Lemma mutateLoop_spec n : ∀ p g p' g', programOk p (gM g) → (length p ≤ ncalls)%nat → mutateLoop n p g = Ret (p', g') →
  evolves p (gM g) p' (gM g') ∧ p' ≠ [] ∧ (length p' ≤ ncalls)%nat.
Proof.
  induction n as [|n IH]; intros p g p' g' Hp Hlen H; [discriminate H|]. cbn [Mutate.mutateLoop] in H. gstep H x g1 E1. destruct x as [p1 ok].
  destruct (mutateStep_spec p g p1 ok g1 Hp Hlen E1) as [Hev Hlen1]. gstep H stop g2 E2.
  assert (gM g2 = gM g1) as Hm2 by (destruct (_ && _); [by apply quiet_draw in E2 as [= _ ?]|by injection E2 as _ <-]). destruct stop.
  - injection H as <- <-. rewrite Hm2. split_and!; [done| |done]. destruct (ok && bool_decide (p1 ≠ [])) eqn:Eb; [|injection E2 as ?; discriminate].
    apply andb_prop in Eb as [_ Eb]. by apply bool_decide_eq_true in Eb.
  - destruct (IH p1 g2 p' g') as (Hev' & Hne & Hlen'); [rewrite Hm2; apply Hev|done|exact H|]. rewrite Hm2 in Hev'. split_and!; [by eapply evolves_trans|done|done].
Qed.

End operations.


End target.

(** ** An example *)

(** The example target with the types of ANY. *)
Definition anyResource (name : string) (size : Z) (bf : BinaryFormat) (r : Ref) : option Typ :=
  Some (ResourceType (ExampleTarget.mk name size false r) bf (MkResourceDesc name [name] [2 ^ 64 - 1; 0])).
Definition inField (name : string) (r : Ref) : Field := MkField name r true DirIn None.
Definition anyTypes : typeTable :=
  [Some (ArrayType (ExampleTarget.mk "array" 0 true 11) 14 ArrayRandLen 0 0);
   Some (PtrType (ExampleTarget.mk "ptr" 8 false 12) 11 DirInOut);
   Some (PtrType (ExampleTarget.mk "ptr64" 8 false 13) 11 DirInOut);
   Some (UnionType (ExampleTarget.mk "ANYUNION" 0 true 14)
     [ExampleTarget.fld "ANYBLOB" 15; ExampleTarget.fld "ANYRES8" 16; ExampleTarget.fld "ANYRES16" 17; ExampleTarget.fld "ANYRES32" 18; ExampleTarget.fld "ANYRES64" 19;
      inField "ANYRESDEC" 20; inField "ANYRESHEX" 21; inField "ANYRESOCT" 22]);
   Some (BufferType (ExampleTarget.mk "ANYBLOB" 0 true 15) (MkBufferDesc BufferBlobRand 0 0 TextTarget "" [] false));
   anyResource "ANYRES8" 1 FormatNative 16; anyResource "ANYRES16" 2 FormatNative 17; anyResource "ANYRES32" 4 FormatNative 18; anyResource "ANYRES64" 8 FormatNative 19;
   anyResource "ANYRESDEC" 20 FormatStrDec 20; anyResource "ANYRESHEX" 18 FormatStrHex 21; anyResource "ANYRESOCT" 23 FormatStrOct 22].
Definition exAny : Target :=
  MkTarget (ExampleTarget.types ++ anyTypes) [ExampleTarget.sysOpen; ExampleTarget.sysWrite] 8 4096 64 536870912
    [0; 2 ^ 64 - 1; 11068046444225730969] 11 12 13 14 15 [16; 17; 18; 19; 20; 21; 22]%nat "test" [MkResourceDesc "fd" ["fd"] [2 ^ 64 - 1]] [].

Definition exMutate (draws : list Z) : res (list Call * mem) :=
  Mutate.Mutate exAny "amd64" [256] exCtors (λ _, None) (λ _, None) (λ _ r, ([144], r)) (λ _ d r, (d, r)) id id exChoice [] id id 5 10 6
    MinimizeCalls.noNeutralize 2 ∅ ExampleTarget.calls draws (Mem ExampleTarget.heap0 12).

Definition exEntries : list (Ref * Typ) := Eval cbv [omap list_omap zip_with seq typeRefs exAny ExampleTarget.types anyTypes anyResource app id] in
  zip_with pair (seq 1 22) (omap id (typeRefs exAny)).

(** What holds of every type of the table. *)
Lemma exAny_types (P : Ref → Typ → Prop) : Forall (λ x, P x.1 x.2) exEntries → ∀ r t, typeAt (typeRefs exAny) r = Ret t → P r t.
Proof.
  intros HP r t H. assert (exEntries !! (r - 1)%nat = Some (r, t)) as E; [|exact (Forall_lookup_1 _ _ _ _ HP E)]. revert H.
  do 23 (destruct r as [|r]; [intros H; first [discriminate H|injection H as <-; reflexivity]|]). intros H. discriminate H.
Qed.
Ltac any_types := unfold exEntries; repeat first [apply List.Forall_nil|apply List.Forall_cons]; cbn [fst snd]; intros.

Lemma exAny_table : genTable exAny.
Proof.
  split.
  - apply (exAny_types (λ r t, self (common t) = r)). any_types; reflexivity.
  - apply (exAny_types (λ r t, isScalar t = true → IsVarlen (common t) = false)). any_types; done.
  - intros r tc bf desc Ht. revert tc bf desc Ht.
    assert (∀ r t, typeAt (typeRefs exAny) r = Ret t → ∀ tc bf desc, t = ResourceType tc bf desc → resValues desc ≠ []) as H; [|eauto].
    apply (exAny_types (λ _ t, ∀ tc bf desc, t = ResourceType tc bf desc → resValues desc ≠ [])). any_types; try discriminate; match goal with H : _ = _ |- _ => injection H as _ _ <- end; done.
  - assert (∀ r t, typeAt (typeRefs exAny) r = Ret t → ∀ tc desc, t = BufferType tc desc → IsVarlen tc = true) as H.
    { apply (exAny_types (λ _ t, ∀ tc desc, t = BufferType tc desc → IsVarlen tc = true)). any_types; try discriminate; match goal with H : _ = _ |- _ => injection H as <- _ end; done. }
    intros r tc desc Ht Hv. rewrite (H r _ Ht tc desc eq_refl) in Hv. discriminate Hv.
  - assert (∀ r t, typeAt (typeRefs exAny) r = Ret t → ∀ tc elem rb, t ≠ ArrayType tc elem ArrayRangeLen rb rb) as H by (apply (exAny_types (λ _ t, ∀ tc elem rb, t ≠ ArrayType tc elem ArrayRangeLen rb rb)); any_types; discriminate).
    intros r tc elem rb Ht. by destruct (H r _ Ht tc elem rb).
  - intros meta r Hm Hr. cbn [Syscalls exAny] in Hm. rewrite !elem_of_cons, elem_of_nil in Hm. destruct Hm as [->|[->|[]]]; [|done].
    injection Hr as <-. by eexists _, _, _.
  - intros meta f Hm Hf. cbn [Syscalls exAny] in Hm. rewrite !elem_of_cons, elem_of_nil in Hm.
    destruct Hm as [->|[->|[]]]; cbn in Hf; rewrite ?elem_of_cons, elem_of_nil in Hf; [done|]. by destruct Hf as [->|[->|[->|[]]]].
  - assert (∀ r t, typeAt (typeRefs exAny) r = Ret t → ∀ tc fields, t = UnionType tc fields → Forall (λ f, Condition f = None) fields) as H.
    { apply (exAny_types (λ _ t, ∀ tc fields, t = UnionType tc fields → Forall (λ f, Condition f = None) fields)).
      any_types; try discriminate; match goal with H : _ = _ |- _ => injection H as _ <- end; repeat constructor. }
    intros r tc fields f Ht Hf. pose proof (H r _ Ht tc fields eq_refl) as Hall. rewrite Forall_forall in Hall. by apply Hall.
Qed.

(** Resources with a string format are only options of the union. *)
Definition noStr (f : Field) : Prop := (fieldType f < 20)%nat ∨ HasDirection f = true ∧ fieldDir f DirIn = DirIn.
Lemma exAny_fields r t : typeAt (typeRefs exAny) r = Ret t → match t with
  | PtrType _ elem _ | ArrayType _ elem _ _ _ => (elem < 20)%nat
  | StructType _ fields _ _ | UnionType _ fields => Forall noStr fields
  | _ => True end.
Proof.
  revert r t. apply (exAny_types (λ r t, match t with PtrType _ elem _ | ArrayType _ elem _ _ _ => (elem < 20)%nat
    | StructType _ fields _ _ | UnionType _ fields => Forall noStr fields | _ => True end)). any_types; try exact I; try lia; repeat constructor; (left; cbn; lia) || (right; done).
Qed.

Lemma exAny_format r d : occurs exAny r d → (20 ≤ r)%nat → d = DirIn.
Proof.
  assert (∀ f fields d, Forall noStr fields → f ∈ fields → (20 ≤ fieldType f)%nat → fieldDir f d = DirIn) as Hfs.
  { intros f fields d0 H Hf Hr. rewrite Forall_forall in H. destruct (H f Hf) as [?|[Hd Hin]]; [lia|]. unfold fieldDir in *. by rewrite Hd in *. }
  intros H Hr. destruct H as [meta f Hm Hf|r tc elem ed d _ Ht|r tc elem ed _ Ht|r tc fields al ov d f _ Ht Hf|r tc elem k rb re d _ Ht|r tc fields d f _ Ht Hf]; [done|..];
    apply exAny_fields in Ht; try lia; by eapply Hfs.
Qed.

Lemma exAny_any : anyTable exAny.
Proof.
  split.
  - intros r [->| ->]; by eexists.
  - by eexists.
  - eexists _, _. split; [reflexivity|]. split; [reflexivity|]. split; [by eexists|]. split.
    + intros k r Hk. do 7 (destruct k as [|k]; [injection Hk as <-; by eexists|]). discriminate Hk.
    + intros f Hf. rewrite !elem_of_cons, elem_of_nil in Hf. destruct_or! Hf; subst; first [done|by left|right; cbn [fieldType ExampleTarget.fld inField anyRes exAny]; rewrite !elem_of_cons; tauto].
  - by eexists _, _.
  - intros r Hr. cbn [anyRes exAny] in Hr. rewrite !elem_of_cons, elem_of_nil in Hr. destruct_or! Hr; subst; try done; by eexists _, _, _.
  - intros r d t Ho Ht Hf. apply (exAny_format r d Ho). clear Ho. revert r t Ht Hf. apply (exAny_types (λ r t, isStrFormat (Format t) = true → (20 ≤ r)%nat)). any_types; done || lia.
Qed.

Lemma exAny_validate : validateWithOpts exAny ExampleTarget.heap0 false ExampleTarget.calls = Ret None.
Proof. vm_compute. reflexivity. Qed.

Lemma exAny_sized : Forall (sizedCall exAny ExampleTarget.heap0) ExampleTarget.calls.
Proof.
  apply Forall_forall. intros c Hc a x Ha Hx. unfold callArgs in Ha. unfold ExampleTarget.calls in Hc. rewrite !elem_of_cons, elem_of_nil in Hc.
  destruct_or! Hc; subst; simpl in Ha; rewrite ?elem_of_cons, ?elem_of_nil in Ha;
    destruct_or? Ha; subst; simpl in Hx; rewrite ?elem_of_cons, ?elem_of_nil in Hx;
    destruct_or? Hx; subst; try done; eexists; vm_compute; reflexivity.
Qed.

Lemma exAny_program : programOk exAny ExampleTarget.calls (Mem ExampleTarget.heap0 12).
Proof.
  pose proof exampleProg_wf as [Hnd HL _ Hf _]. change (progResults ExampleTarget.calls) with (concat (layers ExampleTarget.calls)) in Hnd, HL. split.
  - split; [|exact exAny_sized]. split; [done|done| |done|].
    + intros i o _ Ho. exists (ExampleTarget.mk "fd" 4 false 2), FormatNative, (MkResourceDesc "fd" ["fd"] [2 ^ 64 - 1]), (2 ^ 64 - 1).
      apply example_heap in Ho as [[-> ->]|[-> ->]]; done.
    + cbn [layers fmap list_fmap ExampleTarget.calls ordered]. split_and!; [|..|done]; intros i o r Hi Ho Hr; apply example_heap in Ho as [[-> ->]|[-> ->]]; try discriminate Hr.
      * cbn in Hi. apply list_elem_of_singleton in Hi. discriminate Hi.
      * injection Hr as <-. right. apply list_elem_of_here.
  - pose proof (validate_types exAny ExampleTarget.heap0 false _ exAny_validate) as Ht. pose proof exAny_sized as Hs. rewrite Forall_forall in Ht, Hs |- *. intros c Hc.
    split; [by apply Ht|by apply Hs| |].
    + intros a Ha x Hx. unfold ExampleTarget.calls in Hc. rewrite !elem_of_cons, elem_of_nil in Hc.
      destruct_or! Hc; subst; simpl in Ha; rewrite ?elem_of_cons, ?elem_of_nil in Ha; destruct_or? Ha; subst; simpl in Hx; rewrite ?elem_of_cons, ?elem_of_nil in Hx;
        destruct_or? Hx; subst; done.
    + unfold ExampleTarget.calls in Hc. rewrite !elem_of_cons, elem_of_nil in Hc. destruct_or! Hc; subst; [apply list_elem_of_here|apply list_elem_of_further, list_elem_of_here].
Qed.

(** The message is squashed and its first byte is mutated. *)
Example exMutate_squashed : (let! '(p, _) := exMutate (replicate 16 0) in Ret (nth 1 (Args (nth 1 p ExampleTarget.callOpen)) (ResultArg 1))) =
  Ret (PointerArg (MkCommon 6 12 DirIn) 0 0 (Some (GroupArg (MkCommon 14 11 DirIn)
    [UnionArg (MkCommon 13 14 DirIn) (DataArg (MkCommon 12 15 DirIn) [2; 0; 0; 0; 97; 98; 99] 0) 0 false]))).
Proof. vm_compute. reflexivity. Qed.


End MutateWf.
