(* ===== verification/SquashSpec.v ===== *)
(** * SquashSpec: squashing keeps the bytes (prog/any.go)

    [image] says, without any accumulated blobs, which bytes and results an argument consists
    of.  Squashing a pointee whose fields fit their types succeeds and keeps its image. *)

From S2P Require Import Prelude Bytes Types Prog ExampleTarget ProgEdit Clone Expr Text Squash.
From Stdlib Require Import Ascii.
Import Bytes Types Prog ProgEdit Expr Text Squash.

Module SquashSpec.

(** A byte, or the byte number [k] of a result. *)
Inductive cell := CByte (b : Z) | CRes (i : positive) (k : Z).

Section target.
Context (target : Target).

Notation typeAt := (typeAt (typeRefs target)).

Definition sizeOf (h : heap) (a : Arg) : Z := match Size target h a with Ret z => z | _ => 0 end.

(** The value of a constant without the stride of its process. *)
Definition valueOf (t : Typ) (val : Z) : Z := match constValue t val with Ret (v, _) => v | _ => 0 end.

(** The bytes of a constant. *)
Definition constBytes (t : Typ) (val : Z) : list Z :=
  let n := Z.to_nat (TypeSize (common t)) in
  let v := valueOf t val in
  if IsPad t then replicate n 0
  else match t with
       | CsumType _ _ _ _ => bytesLE n 0xabcdef1234567890
       | _ =>
         match Format t with
         | FormatNative => bytesLE n v
         | FormatBigEndian => reverse (bytesLE n v)
         | FormatStrDec => padLeft 20 (formatUint 10 v)
         | FormatStrHex => str "0x" ++ padLeft 16 (formatUint 16 v)
         | FormatStrOct => padLeft 23 (formatUint 8 v)
         end
       end.

(** The bits of a field at its place. *)
Definition bitsOf (t : Typ) (val : Z) : Z :=
  valueOf t val `mod` 2 ^ BitfieldLength t * 2 ^ BitfieldOffset t.

(** A bit field with its type and value. *)
Definition asBits (a : Arg) : option (Typ * Z) :=
  match a with
  | ConstArg c val => match typeAt (aref c) with Ret t => if IsBitfield t then Some (t, val) else None | _ => None end
  | _ => None
  end.

(** Fields one after the other; the bits of adjacent bit fields are collected until a field
    has a size. *)
Definition fieldCells (im : Arg → list cell) : Z → list Arg → list cell :=
  fix go bits l :=
    match l with
    | [] => []
    | f :: l =>
      match asBits f with
      | Some (t, val) =>
        let bits := bits + bitsOf t val in
        if decide (TypeSize (common t) = 0) then go bits l
        else (CByte <$> bytesLE (Z.to_nat (TypeSize (common t))) bits) ++ go 0 l
      | None => im f ++ go bits l
      end
    end.

(** Zeros at the end, up to [n] cells. *)
Definition padded (l : list cell) (n : Z) : list cell := l ++ replicate (Z.to_nat n - length l) (CByte 0).

Fixpoint image (h : heap) (a : Arg) : list cell :=
  match a with
  | ConstArg c val => match typeAt (aref c) with Ret t => CByte <$> constBytes t val | _ => [] end
  | ResultArg i => CRes i <$> seqZ 0 (sizeOf h (ResultArg i))
  | DataArg c data size =>
    CByte <$> (if decide (adir c = DirOut) then replicate (Z.to_nat size) 0 else data)
  | UnionArg _ opt _ _ => padded (image h opt) (sizeOf h a)
  | GroupArg _ l => padded (fieldCells (image h) 0 l) (sizeOf h a)
  | PointerArg _ _ _ _ => []
  end.

(** ** Arguments that can be squashed *)

(** Sizes of types that are lengths of slices. *)
Definition okSize (tc : TypeCommon) : Prop := IsVarlen tc = false ∧ 0 ≤ TypeSize tc < 2 ^ 63.

(** The size of a value in its format. *)
Definition formatFits (bf : BinaryFormat) (size : Z) : Prop :=
  match bf with
  | FormatNative => True
  | FormatBigEndian => size = 2 ∨ size = 4 ∨ size = 8
  | FormatStrDec => size = 20
  | FormatStrHex => size = 18
  | FormatStrOct => size = 23
  end.

Record constFits (t : Typ) (val : Z) : Prop := {
  cf_size : okSize (common t);
  cf_bits : BitfieldLength t = 0;
  cf_int : asInt t ≠ None;
  cf_format : IsPad t = false → (∀ ic k b p, t ≠ CsumType ic k b p) → formatFits (Format t) (TypeSize (common t));
  cf_value : ∃ v s, constValue t val = Ret (v, s) ∧ is_u 64 v
}.

(** A bit field of native byte order behind the bits up to [lo]. *)
Record bitsFit (lo : Z) (t : Typ) (val : Z) : Prop := {
  bf_size : okSize (common t);
  bf_format : Format t = FormatNative ∧ (∀ ic k b p, t ≠ CsumType ic k b p);
  bf_place : 0 ≤ lo ≤ BitfieldOffset t ∧ 0 < BitfieldLength t ∧ BitfieldOffset t + BitfieldLength t ≤ 64;
  bf_value : ∃ v s, constValue t val = Ret (v, s) ∧ is_u 64 v
}.

Definition fieldsFlat (fl : Arg → Prop) : Z → list Arg → Prop :=
  fix go lo l :=
    match l with
    | [] => True
    | f :: l =>
      match asBits f with
      | Some (t, val) =>
        bitsFit lo t val ∧ go (if decide (TypeSize (common t) = 0) then BitfieldOffset t + BitfieldLength t else 0) l
      | None => fl f ∧ go lo l
      end
    end.

Lemma fieldsFlat_plain fl lo f l : asBits f = None → fl f → fieldsFlat fl lo l → fieldsFlat fl lo (f :: l).
Proof. intros E Hf Hl. cbn [fieldsFlat]. by rewrite E. Qed.
Lemma fieldsFlat_bits fl lo f l t val : asBits f = Some (t, val) → bitsFit lo t val →
  fieldsFlat fl (if decide (TypeSize (common t) = 0) then BitfieldOffset t + BitfieldLength t else 0) l → fieldsFlat fl lo (f :: l).
Proof. intros E Hf Hl. cbn [fieldsFlat]. by rewrite E. Qed.

Definition total (h : heap) (l : list Arg) : Z := foldr (λ a n, sizeOf h a + n) 0 l.

(** The size of a result that ANY has a resource for. *)
Definition resFits (tc : TypeCommon) (bf : BinaryFormat) : Prop :=
  okSize tc ∧
  match bf with
  | FormatNative | FormatBigEndian => TypeSize tc = 1 ∨ TypeSize tc = 2 ∨ TypeSize tc = 4 ∨ TypeSize tc = 8
  | _ => formatFits bf (TypeSize tc)
  end.

(** No pointers and no overlays, values that fit their types, unions that are as big as their
    options and groups as big as their elements. *)
Fixpoint flat (h : heap) (a : Arg) : Prop :=
  match a with
  | ConstArg c val => ∃ t, typeAt (aref c) = Ret t ∧ constFits t val
  | ResultArg i => ∃ o tc bf desc, h !! i = Some o ∧ typeAt (rRef o) = Ret (ResourceType tc bf desc) ∧ resFits tc bf
  | DataArg c data size =>
    (∃ tc desc, typeAt (aref c) = Ret (BufferType tc desc)) ∧
    if decide (adir c = DirOut) then data = [] ∧ 0 ≤ size < 2 ^ 63 else size = 0 ∧ Z.of_nat (length data) < 2 ^ 63
  | UnionArg c opt _ _ =>
    flat h opt ∧ ∃ tc fields, typeAt (aref c) = Ret (UnionType tc fields) ∧
      (IsVarlen tc = false → sizeOf h opt ≤ TypeSize tc < 2 ^ 63)
  | GroupArg c l =>
    fieldsFlat (flat h) 0 l ∧
    (∃ t, typeAt (aref c) = Ret t ∧
       match t with StructType _ _ _ overlay => overlay = 0 | ArrayType _ _ _ _ _ => True | _ => False end) ∧
    ∃ z, Size target h a = Ret z ∧ total h l ≤ z < 2 ^ 63
  | PointerArg _ _ _ _ => False
  end.

(** The resources of ANY with their formats and sizes. *)
Definition anyTable : list (Z * (BinaryFormat * Z)) :=
  [(0, (FormatNative, 1)); (1, (FormatNative, 2)); (2, (FormatNative, 4)); (3, (FormatNative, 8)); (4, (FormatStrDec, 20));
   (5, (FormatStrHex, 18)); (6, (FormatStrOct, 23))].

(** The types of ANY. *)
Record anyTypes : Prop := {
  an_self r t : typeAt r = Ret t → self (common t) = r;
  an_blob : ∃ tc desc, typeAt (anyBlob target) = Ret (BufferType tc desc);
  an_union : ∃ tc fields, typeAt (anyUnion target) = Ret (UnionType tc fields) ∧ IsVarlen tc = true;
  an_array : ∃ tc kind rb re, typeAt (anyArray target) = Ret (ArrayType tc (anyUnion target) kind rb re) ∧ IsVarlen tc = true;
  an_res k bf sz : (k, (bf, sz)) ∈ anyTable →
    ∃ r tc desc, anyRes target !! Z.to_nat k = Some r ∧ typeAt r = Ret (ResourceType tc bf desc) ∧ TypeSize tc = sz ∧ IsVarlen tc = false;
  an_ptr sz : sz = PtrSize target ∨ sz = 8 → ∃ tc ed, getAnyPtrType target sz = Ret (PtrType tc (anyArray target) ed)
}.

(** ** Lengths *)

Lemma length_format base fuel : 1 < base → ∀ k n acc, (0 < k)%nat → 0 ≤ n < base ^ Z.of_nat k →
  (length (formatLoop fuel base n acc) ≤ k + length acc)%nat.
Proof.
  intros Hb. induction fuel as [|fuel IH]; intros k n acc Hk Hn; cbn [formatLoop]; [lia|].
  case_decide as Hd; [cbn [length]; lia|]. destruct k as [|k]; [lia|].
  assert (0 < k)%nat as Hk'.
  { destruct k; [|lia]. exfalso. apply Hd, Z.div_small. rewrite Z.pow_1_r in Hn. lia. }
  etrans; [apply (IH k); [done|]|cbn [length]; lia]. split; [apply Z.div_pos; lia|].
  apply Z.div_lt_upper_bound; [lia|]. rewrite Nat2Z.inj_succ, Z.pow_succ_r in Hn by lia. lia.
Qed.

Lemma length_padLeft width base v : 1 < base → (0 < width)%nat → 0 ≤ v < base ^ Z.of_nat width →
  length (padLeft width (formatUint base v)) = width.
Proof.
  intros Hb Hw Hv. unfold padLeft. rewrite length_app, length_replicate.
  pose proof (length_format base 64 Hb width v [] Hw Hv). unfold formatUint. cbn [length] in *. lia.
Qed.

(** The texts of the string formats have a fixed length. *)
Lemma length_text v : is_u 64 v → length (padLeft 20 (formatUint 10 v)) = 20%nat ∧
  length (padLeft 16 (formatUint 16 v)) = 16%nat ∧ length (padLeft 23 (formatUint 8 v)) = 23%nat.
Proof.
  intros [H0 H1]. assert (∀ base w : Z, 2 ^ 64 ≤ base ^ w → v < base ^ w) as Hlt by (intros; lia).
  split_and!; apply length_padLeft; try lia; split; try lia; apply Hlt; by vm_compute.
Qed.

Lemma length_constBytes t val : constFits t val → Z.of_nat (length (constBytes t val)) = TypeSize (common t).
Proof.
  intros [[_ Hs] _ Hint Hf (v & st & Hv & Hu)]. unfold constBytes, valueOf. rewrite Hv.
  destruct (IsPad t) eqn:Hp; [rewrite length_replicate; lia|]. specialize (Hf eq_refl).
  assert (∀ n x, Z.of_nat (length (bytesLE n x)) = Z.of_nat n) as Hle by (intros; by rewrite length_bytesLE).
  pose proof (length_text v Hu) as (H20 & H16 & H23).
  assert (match t with CsumType _ _ _ _ => True | _ => formatFits (Format t) (TypeSize (common t)) end) as Hf'
    by (destruct t; try (apply Hf; intros; discriminate); done).
  destruct t; try (by destruct Hint); try (rewrite Hle; lia);
    (destruct (Format _); cbn [formatFits] in Hf'; rewrite ?length_reverse, ?length_app, ?H20, ?H16, ?H23, ?length_bytesLE; cbn [length str]; lia).
Qed.

(** ** Changed types of results *)

Definition withRef (o : ResultObj) (r : Ref) : ResultObj :=
  MkResult r (rDir o) (rRes o) (OpDiv o) (OpAdd o) (rVal o) (uses o).

(** Both are resources of the same size that can be squashed. *)
Definition sameRes (r r' : Ref) : Prop :=
  ∃ tc bf desc tc' bf' desc', typeAt r = Ret (ResourceType tc bf desc) ∧ typeAt r' = Ret (ResourceType tc' bf' desc') ∧
    resFits tc bf ∧ resFits tc' bf' ∧ TypeSize tc = TypeSize tc'.

(** The results are the same but for their types. *)
Definition retyped (h h' : heap) : Prop :=
  ∀ i, match h !! i, h' !! i with
       | Some o, Some o' => o' = withRef o (rRef o') ∧ (rRef o' = rRef o ∨ sameRes (rRef o) (rRef o'))
       | None, None => True
       | _, _ => False
       end.

Lemma retyped_refl h : retyped h h.
Proof. intros i. destruct (h !! i) as [[]|]; [|done]. split; [done|by left]. Qed.

Lemma sameRes_trans r1 r2 r3 : sameRes r1 r2 → sameRes r2 r3 → sameRes r1 r3.
Proof.
  intros (tc & bf & d & tc' & bf' & d' & Ht1 & Ht2 & ? & ? & ?) (tc2 & bf2 & d2 & tc3 & bf3 & d3 & Ht3 & Ht4 & ? & ? & ?).
  rewrite Ht2 in Ht3. injection Ht3 as -> -> ->. eexists _, _, _, _, _, _. split_and!; try done. congruence.
Qed.

Lemma retyped_trans h1 h2 h3 : retyped h1 h2 → retyped h2 h3 → retyped h1 h3.
Proof.
  intros H12 H23 i. specialize (H12 i). specialize (H23 i).
  destruct (h1 !! i) as [o1|], (h2 !! i) as [o2|], (h3 !! i) as [o3|]; try done.
  destruct H12 as [E1 R1], H23 as [E2 R2]. split; [rewrite E2, E1; done|].
  destruct R1 as [R1|R1], R2 as [R2|R2]; rewrite ?R1, ?R2 in *; eauto using sameRes_trans.
Qed.

Lemma size_retyped h h' a z : retyped h h' → Size target h a = Ret z → Size target h' a = Ret z.
Proof.
  intros Hr. apply size_results. intros i z' H. simpl in *. unfold deref in *. specialize (Hr i).
  destruct (h !! i) as [o|]; [|done]. destruct (h' !! i) as [o'|]; [|done]. simpl in *.
  destruct Hr as [_ [-> |(tc & bf & d & tc' & bf' & d' & H1 & H2 & [[Hv _] _] & [[Hv' _] _] & Hsz)]]; [done|].
  rewrite H1 in H. rewrite H2. unfold Types.Size in *. cbn [common rbind] in *. rewrite Hv in H. rewrite Hv'. congruence.
Qed.

(** ** Sizes of images *)

Lemma sizeOf_Ret h a z : Size target h a = Ret z → sizeOf h a = z.
Proof. unfold sizeOf. by intros ->. Qed.

Lemma sizeOf_retyped h h' a z : retyped h h' → Size target h a = Ret z → sizeOf h' a = sizeOf h a.
Proof. intros Hr Hz. by rewrite (sizeOf_Ret _ _ _ (size_retyped _ _ _ _ Hr Hz)), (sizeOf_Ret _ _ _ Hz). Qed.

(** A size that the image has. *)
Definition sized (h : heap) (a : Arg) (n : nat) : Prop := Size target h a = Ret (Z.of_nat n) ∧ Z.of_nat n < 2 ^ 63.

Lemma asBits_size h a t val : asBits a = Some (t, val) → okSize (common t) → sized h a (Z.to_nat (TypeSize (common t))).
Proof.
  unfold asBits. destruct a as [c v| | | | |]; try done. destruct (typeAt (aref c)) as [t'| |] eqn:Ht; try done.
  destruct (IsBitfield t'); [|done]. intros [= -> ->] [Hv Hs]. unfold sized. simpl. rewrite Ht. cbn [rbind]. unfold Types.Size. rewrite Hv.
  rewrite Z2Nat.id by lia. split; [done|lia].
Qed.

Lemma fields_sized h l : (∀ a, a ∈ l → flat h a → sized h a (length (image h a))) →
  ∀ lo bits, fieldsFlat (flat h) lo l →
  (∀ a, a ∈ l → ∃ z, Size target h a = Ret z ∧ 0 ≤ z) ∧ Z.of_nat (length (fieldCells (image h) bits l)) = total h l.
Proof.
  induction l as [|f l IH]; intros Hl lo bits Hfl; [split; [intros a Ha; by apply elem_of_nil in Ha|done]|].
  cbn [fieldsFlat fieldCells total foldr] in *. assert (∀ a, a ∈ l → flat h a → sized h a (length (image h a))) as Hl'
    by (intros a Ha; apply Hl; by apply list_elem_of_further).
  destruct (asBits f) as [[t val]|] eqn:Hb.
  - destruct Hfl as [Hfit Hfl]. destruct (asBits_size h f t val Hb (bf_size _ _ _ Hfit)) as [Hsz _].
    rewrite (sizeOf_Ret _ _ _ Hsz). destruct (bf_size _ _ _ Hfit) as [_ Hts].
    assert (∀ a, a ∈ f :: l → (∀ a, a ∈ l → ∃ z, Size target h a = Ret z ∧ 0 ≤ z) → ∃ z, Size target h a = Ret z ∧ 0 ≤ z) as Hall.
    { intros a [-> |Ha]%elem_of_cons H; [eexists; split; [exact Hsz|lia]|auto]. }
    case_decide as Hz.
    + destruct (IH Hl' _ (bits + bitsOf t val) Hfl) as [H1 H2]. split; [intros a Ha; by apply Hall|]. rewrite H2, Hz. done.
    + destruct (IH Hl' _ 0 Hfl) as [H1 H2]. split; [intros a Ha; by apply Hall|]. rewrite length_app, length_fmap, length_bytesLE. unfold total in H2. lia.
  - destruct Hfl as [Hf Hfl]. destruct (Hl f (list_elem_of_here _ _) Hf) as [Hsz _]. destruct (IH Hl' _ bits Hfl) as [H1 H2].
    rewrite (sizeOf_Ret _ _ _ Hsz). split; [|rewrite length_app; unfold total in H2; lia].
    intros a [-> |Ha]%elem_of_cons; [eexists; split; [exact Hsz|lia]|auto].
Qed.

Lemma length_padded l n : Z.of_nat (length l) ≤ n → Z.of_nat (length (padded l n)) = n.
Proof. intros H. unfold padded. rewrite length_app, length_replicate. lia. Qed.

Lemma flat_sized h a : flat h a → sized h a (length (image h a)).
Proof.
  induction a as [c v|c ad v r IH|c d s|c l IH|c o i t IH|i] using arg_ind; cbn [flat image]; intros Hfl.
  - destruct Hfl as (t & Ht & Hf). pose proof (length_constBytes t v Hf) as Hlen. destruct (cf_size _ _ Hf) as [Hv Hs].
    unfold sized. simpl. rewrite Ht. cbn [rbind]. unfold Types.Size. rewrite Hv, length_fmap, Hlen. split; [done|lia].
  - done.
  - destruct Hfl as (_ & Hd). unfold sized. simpl. rewrite length_fmap. destruct (decide (adir c = DirOut)).
    + destruct Hd as [-> Hs]. rewrite length_replicate, Z2Nat.id, decide_False by (lia || (intros Hn; by apply Hn)). split; [done|lia].
    + destruct Hd as [-> Hlen]. split; [|done]. destruct d; done.
  - destruct Hfl as (Hfl & _ & z & Hz & Htot). pose proof (fields_sized h l IH 0 0 Hfl) as [_ Hlen].
    rewrite (sizeOf_Ret _ _ _ Hz). unfold sized. rewrite length_padded by lia. split; [done|lia].
  - destruct Hfl as (Hfo & tc & fields & Ht & Hsz). destruct (IH Hfo) as [Ho Hlt]. pose proof (sizeOf_Ret _ _ _ Ho) as Hso.
    assert (Size target h (UnionArg c o i t) = Ret (if IsVarlen tc then Z.of_nat (length (image h o)) else TypeSize tc)) as Hu.
    { simpl. rewrite Ht. cbn [rbind]. unfold Varlen, Types.Size. cbn [common]. by destruct (IsVarlen tc). }
    rewrite (sizeOf_Ret _ _ _ Hu). unfold sized. rewrite Hu. destruct (IsVarlen tc).
    + rewrite length_padded by lia. split; [done|lia].
    + specialize (Hsz eq_refl). rewrite length_padded by lia. split; [done|lia].
  - destruct Hfl as (o & tc & bf & desc & Ho & Ht & [[Hv Hs] _]).
    assert (Size target h (ResultArg i) = Ret (TypeSize tc)) as Hz.
    { simpl. rewrite (deref_Some _ _ _ Ho). cbn [rbind]. rewrite Ht. cbn [rbind]. unfold Types.Size. cbn [common]. by rewrite Hv. }
    rewrite (sizeOf_Ret _ _ _ Hz). unfold sized. rewrite Hz, length_fmap, length_seqZ. split; [f_equal; lia|lia].
Qed.

(** ** Images do not depend on the types of results *)

Lemma fields_retyped h h' l : (∀ a, a ∈ l → flat h a → flat h' a ∧ image h' a = image h a) →
  ∀ lo bits, fieldsFlat (flat h) lo l →
  fieldsFlat (flat h') lo l ∧ fieldCells (image h') bits l = fieldCells (image h) bits l.
Proof.
  induction l as [|f l IH]; intros Hl lo bits Hfl; [done|]. cbn [fieldsFlat fieldCells] in *.
  assert (∀ a, a ∈ l → flat h a → flat h' a ∧ image h' a = image h a) as Hl' by (intros a Ha; apply Hl; by apply list_elem_of_further).
  destruct (asBits f) as [[t val]|].
  - destruct Hfl as [Hfit Hfl]. case_decide.
    + by destruct (IH Hl' _ (bits + bitsOf t val) Hfl) as [? ->].
    + by destruct (IH Hl' _ 0 Hfl) as [? ->].
  - destruct Hfl as [Hf Hfl]. destruct (Hl f (list_elem_of_here _ _) Hf) as [? ->]. by destruct (IH Hl' _ bits Hfl) as [? ->].
Qed.

Lemma total_retyped h h' l : retyped h h' → (∀ a, a ∈ l → ∃ z, Size target h a = Ret z ∧ 0 ≤ z) → total h' l = total h l.
Proof.
  intros Hr Hl. induction l as [|f l IH]; [done|]. cbn [total foldr] in *. destruct (Hl f (list_elem_of_here _ _)) as (z & Hz & _).
  rewrite (sizeOf_retyped _ _ _ _ Hr Hz). f_equal. apply IH. intros a Ha. by apply Hl, list_elem_of_further.
Qed.

Lemma flat_retyped h h' a : retyped h h' → flat h a → flat h' a ∧ image h' a = image h a.
Proof.
  intros Hr. induction a as [c v|c ad v r IH|c d s|c l IH|c o i t IH|i] using arg_ind; cbn [flat image]; intros Hfl; try done.
  - destruct Hfl as (Hfl & Ht & z & Hz & Htot). destruct (fields_retyped h h' l IH 0 0 Hfl) as [Hfl' ->].
    rewrite (sizeOf_retyped _ _ _ _ Hr Hz). split; [|done]. split; [done|]. split; [done|]. exists z. split; [by eapply size_retyped|].
    rewrite (total_retyped h h'); [done|done|]. by eapply (fields_sized h l (λ a _, flat_sized h a) 0 0).
  - destruct Hfl as (Hfo & tc & fields & Ht & Hsz). destruct (IH Hfo) as [Hfo' ->]. destruct (flat_sized h o Hfo) as [Ho _].
    assert (∃ z, Size target h (UnionArg c o i t) = Ret z) as [z Hz].
    { simpl. rewrite Ht. cbn [rbind]. unfold Varlen, Types.Size. cbn [common]. destruct (IsVarlen tc); cbn [negb]; eauto. }
    rewrite (sizeOf_retyped _ _ _ _ Hr Hz). split; [|done]. split; [done|]. exists tc, fields. by rewrite (sizeOf_retyped _ _ _ _ Hr Ho).
  - destruct (flat_sized h (ResultArg i)) as [Hz _]; [done|]. rewrite (sizeOf_retyped _ _ _ _ Hr Hz). split; [|done].
    destruct Hfl as (o & tc & bf & desc & Ho & Ht & Hf). specialize (Hr i). rewrite Ho in Hr. destruct (h' !! i) as [o'|]; [|done].
    destruct Hr as [_ [E|(tc1 & bf1 & d1 & tc2 & bf2 & d2 & Ht1 & Ht2 & _ & Hf2 & _)]].
    + exists o', tc, bf, desc. by rewrite E.
    + by exists o', tc2, bf2, d2.
Qed.

(** ** The elements *)

Hypothesis Hany : anyTypes.

Lemma any_ref r t : typeAt r = Ret t → ref t = Ret r.
Proof.
  intros Ht. unfold ref. rewrite (an_self Hany _ _ Ht). rewrite decide_False; [done|]. intros ->. discriminate Ht.
Qed.

(** A blob or a result in a union of ANY. *)
Definition isElem (e : Arg) : Prop :=
  match e with
  | UnionArg c (DataArg dc _ _) _ _ => aref c = anyUnion target ∧ adir dc ≠ DirOut
  | UnionArg c (ResultArg _) _ _ => aref c = anyUnion target
  | _ => False
  end.
Definition wfElems (h : heap) (elems : list Arg) : Prop := Forall (λ e, isElem e ∧ flat h e) elems.
Definition cells (h : heap) (elems : list Arg) : list cell := concat (image h <$> elems).

Lemma cells_retyped h h' elems : retyped h h' → wfElems h elems → wfElems h' elems ∧ cells h' elems = cells h elems.
Proof.
  intros Hr. induction 1 as [|e elems [He Hf] Hl IH]; [split; [constructor|done]|]. destruct IH as [IH1 IH2]. destruct (flat_retyped h h' e Hr Hf) as [Hf' Hi].
  split; [by constructor|]. unfold cells in *. rewrite !fmap_cons. cbn [concat]. by rewrite Hi, IH2.
Qed.

Lemma image_elem h c o i t : aref c = anyUnion target → flat h o → image h (UnionArg c o i t) = image h o.
Proof.
  intros Hc Hf. cbn [image]. destruct (an_union Hany) as (tc & fields & Ht & Hv). destruct (flat_sized h o Hf) as [Ho _].
  assert (sizeOf h (UnionArg c o i t) = Z.of_nat (length (image h o))) as ->.
  { apply sizeOf_Ret. simpl. rewrite Hc, Ht. cbn [rbind]. unfold Varlen. cbn [common]. by rewrite Hv. }
  unfold padded. rewrite Nat2Z.id, Nat.sub_diag. by rewrite app_nil_r.
Qed.

Lemma flat_elem h c o i t : aref c = anyUnion target → flat h o → flat h (UnionArg c o i t).
Proof.
  intros Hc Hf. cbn [flat]. split; [done|]. destruct (an_union Hany) as (tc & fields & Ht & Hv). exists tc, fields. rewrite Hc.
  split; [done|congruence].
Qed.

(** Adding bytes to the last blob. *)
Definition added (m : mem) (elems : list Arg) (new : list cell) (r : res (list Arg * mem)) : Prop :=
  ∃ elems' m', r = Ret (elems', m') ∧ retyped (mHeap m) (mHeap m') ∧ (mNext m ≤ mNext m')%positive ∧ wfElems (mHeap m') elems' ∧
    cells (mHeap m') elems' = cells (mHeap m) elems ++ new.

Lemma ensure_ok elems m : wfElems (mHeap m) elems →
  ∃ front c dc d i t m', ensureDataElem target (elems, m) = Ret (front ++ [UnionArg c (DataArg dc d 0) i t], m') ∧
    mHeap m' = mHeap m ∧ (mNext m ≤ mNext m')%positive ∧ wfElems (mHeap m) (front ++ [UnionArg c (DataArg dc d 0) i t]) ∧
    cells (mHeap m) (front ++ [UnionArg c (DataArg dc d 0) i t]) = cells (mHeap m) elems.
Proof.
  intros Hwf. assert (∀ m, ∃ c dc m', newDataElem target (elems, m) = Ret (elems ++ [UnionArg c (DataArg dc [] 0) 0 false], m') ∧
    mHeap m' = mHeap m ∧ (mNext m ≤ mNext m')%positive ∧ aref c = anyUnion target ∧ aref dc = anyBlob target ∧ adir dc ≠ DirOut) as Hnew.
  { intros m0. unfold newDataElem. destruct (an_blob Hany) as (tc & desc & Hb). destruct (an_union Hany) as (tc' & fields & Hu & _).
    rewrite Hb, Hu. cbn [rbind]. unfold MakeDataArg. rewrite decide_False by done. rewrite (any_ref _ _ Hb). cbn [rbind alloc].
    unfold MakeUnionArg. rewrite (any_ref _ _ Hu). cbn [rbind alloc]. eexists _, _, _. split; [reflexivity|]. cbn [mHeap mNext aref adir].
    split_and!; [done|lia|done|done|done]. }
  assert (wfElems (mHeap m) elems → ∃ front c dc d i t m', newDataElem target (elems, m) = Ret (front ++ [UnionArg c (DataArg dc d 0) i t], m') ∧
    mHeap m' = mHeap m ∧ (mNext m ≤ mNext m')%positive ∧ wfElems (mHeap m) (front ++ [UnionArg c (DataArg dc d 0) i t]) ∧
    cells (mHeap m) (front ++ [UnionArg c (DataArg dc d 0) i t]) = cells (mHeap m) elems) as Hgo.
  { intros _. destruct (Hnew m) as (c & dc & m' & E & Hh & Hn & Hc & Hdc & Hdir). exists elems, c, dc, [], 0, false, m'.
    destruct (an_blob Hany) as (tc & desc & Hb).
    assert (flat (mHeap m) (DataArg dc [] 0)) as Hf.
    { cbn [flat]. split; [rewrite Hdc; eauto|]. rewrite decide_False by done. split; [done|]. cbn [length]. lia. }
    split_and!; [done|done|done| |].
    - apply Forall_app. split; [done|]. constructor; [|constructor]. split; [done|by apply flat_elem].
    - unfold cells. rewrite fmap_app, concat_app, fmap_cons. cbn [concat fmap list_fmap]. rewrite (image_elem _ _ _ _ _ Hc Hf).
      cbn [image]. rewrite decide_False by done. cbn. by rewrite app_nil_r. }
  unfold ensureDataElem. cbn [fst]. destruct (last elems) as [e|] eqn:El; [|by apply Hgo].
  apply last_Some in El as [front ->]. apply Forall_app in Hwf as Hwf'. destruct Hwf' as [_ He%Forall_cons]. destruct He as [[He Hf] _].
  destruct e as [| | | |c [| |dc d sz| | |] i t|]; try done; [|by apply Hgo].
  destruct He as [Hc Hdc]. assert (sz = 0) as ->.
  { cbn [flat] in Hf. destruct Hf as [[_ Hd] _]. rewrite decide_False in Hd by done. by destruct Hd. }
  exists front, c, dc, d, i, t, m. split_and!; try done.
Qed.

Lemma addBytes_ok bytes elems m : wfElems (mHeap m) elems →
  Z.of_nat (length (cells (mHeap m) elems)) + Z.of_nat (length bytes) < 2 ^ 63 →
  added m elems (CByte <$> bytes) (addBytes target bytes (elems, m)).
Proof.
  intros Hwf Hlt. destruct (ensure_ok elems m Hwf) as (front & c & dc & d & i & t & m' & E & Hh & Hn & Hwf' & Hcells).
  unfold addBytes. rewrite E. cbn [rbind]. rewrite last_snoc, removelast_last. apply Forall_app in Hwf' as [Hfront He%Forall_cons].
  destruct He as [[[Hc Hdir] Hf] _]. unfold argData. rewrite decide_False by done. cbn [rbind].
  assert (flat (mHeap m) (DataArg dc d 0)) as Hfd by apply Hf. pose proof Hfd as [Hb _].
  assert (∀ d', Z.of_nat (length d') < 2 ^ 63 → flat (mHeap m) (DataArg dc d' 0)) as Hfd'.
  { intros d' Hd'. cbn [flat]. split; [done|]. by rewrite decide_False by done. }
  assert (∀ d', flat (mHeap m) (DataArg dc d' 0) → cells (mHeap m) (front ++ [UnionArg c (DataArg dc d' 0) i t]) = cells (mHeap m) front ++ (CByte <$> d'))
    as Hcl.
  { intros d' Hd'. unfold cells. rewrite fmap_app, concat_app. f_equal. rewrite fmap_cons. cbn [concat fmap list_fmap].
    rewrite app_nil_r, (image_elem _ _ _ _ _ Hc Hd'). cbn [image]. by rewrite decide_False by done. }
  rewrite <-Hcells, (Hcl d Hfd), length_app, length_fmap in Hlt.
  assert (flat (mHeap m) (DataArg dc (d ++ bytes) 0)) as Hnew by (apply Hfd'; rewrite length_app; lia).
  exists (front ++ [UnionArg c (DataArg dc (d ++ bytes) 0) i t]), m'. rewrite Hh. split_and!; [done|apply retyped_refl|done| |].
  - apply Forall_app. split; [done|]. constructor; [|constructor]. split; [done|by apply flat_elem].
  - by rewrite (Hcl _ Hnew), <-Hcells, (Hcl _ Hfd), fmap_app, app_assoc.
Qed.

Lemma added_retyped m m0 elems elems0 new new' r : retyped (mHeap m0) (mHeap m) → (mNext m0 ≤ mNext m)%positive →
  cells (mHeap m) elems = cells (mHeap m0) elems0 ++ new' → added m elems new r → added m0 elems0 (new' ++ new) r.
Proof.
  intros Hr Hn Hc (elems' & m' & -> & Hr' & Hn' & Hwf & Hcells). exists elems', m'. split_and!; [done| |lia|done|].
  - by eapply retyped_trans.
  - by rewrite Hcells, Hc, app_assoc.
Qed.

Lemma addPad_ok pad elems m : wfElems (mHeap m) elems → 0 ≤ pad → Z.of_nat (length (cells (mHeap m) elems)) + pad < 2 ^ 63 →
  added m elems (replicate (Z.to_nat pad) (CByte 0)) (addPad target pad (elems, m)).
Proof.
  intros Hwf H0 Hlt. unfold addPad. case_decide as Hp.
  - unfold zeros. rewrite decide_True by lia. cbn [rbind]. rewrite <-(fmap_replicate CByte).
    apply addBytes_ok; [done|]. rewrite length_replicate. lia.
  - assert (pad = 0) as -> by lia. exists elems, m. split_and!; [done|apply retyped_refl|lia|done|by rewrite app_nil_r].
Qed.

(** *** Constants *)

Lemma bytesLE_mod n v : bytesLE n (v `mod` 256 ^ Z.of_nat n) = bytesLE n v.
Proof.
  revert v. induction n as [|n IH]; intros v; [done|]. cbn [bytesLE]. rewrite Nat2Z.inj_succ, Z.pow_succ_r by lia.
  assert (0 < 256 ^ Z.of_nat n) as Hp by (apply Z.pow_pos_nonneg; lia). f_equal.
  - rewrite Z.rem_mul_r by lia. rewrite Z.mul_comm, Z.mod_add by lia. by apply Z.mod_mod.
  - rewrite <-(IH (v `div` 256)). f_equal. rewrite Z.rem_mul_r by lia.
    rewrite Z.mul_comm, Z.div_add by lia. rewrite Z.div_small by (apply Z.mod_pos_bound; lia). lia.
Qed.

Lemma bytesLE_swap n v : bytesLE n (swapBytes n (v `mod` 256 ^ Z.of_nat n)) = reverse (bytesLE n v).
Proof.
  unfold swapBytes. rewrite bytesLE_mod. rewrite <-(length_bytesLE n v) at 1. rewrite <-length_reverse. apply bytesLE_ofLE.
  apply Forall_reverse, bytesLE_isByte.
Qed.

(** Byte order and formats, by the value and the format that [squashedValue] gives. *)
Lemma squashed_bytes t v : okSize (common t) → BitfieldLength t = 0 → asInt t ≠ None → formatFits (Format t) (TypeSize (common t)) → is_u 64 v →
  ∃ v' bf', (if decide (Format t = FormatBigEndian) then
      let! unit := UnitSize t in
      if decide (unit = 2) then Ret (swap16 (wrapU 16 v), FormatNative)
      else if decide (unit = 4) then Ret (swap32 (wrapU 32 v), FormatNative)
      else if decide (unit = 8) then Ret (swap64 v, FormatNative)
      else Panic "bad const size"
    else Ret (v, Format t)) = Ret (v', bf') ∧
    valueBytes bf' (TypeSize (common t)) v' = Ret
      match Format t with
      | FormatNative => bytesLE (Z.to_nat (TypeSize (common t))) v
      | FormatBigEndian => reverse (bytesLE (Z.to_nat (TypeSize (common t))) v)
      | FormatStrDec => padLeft 20 (formatUint 10 v)
      | FormatStrHex => str "0x" ++ padLeft 16 (formatUint 16 v)
      | FormatStrOct => padLeft 23 (formatUint 8 v)
      end.
Proof.
  intros [Hv _] Hbl Hint Hf Hu. case_decide as Hbe; [|exists v, (Format t); by destruct (Format t)].
  assert (UnitSize t = Ret (TypeSize (common t))) as ->.
  { unfold UnitSize, BitfieldLength in *. destruct (asInt t); [|done]. rewrite decide_False by lia. unfold Types.Size. by rewrite Hv. }
  rewrite Hbe in *. cbn [rbind formatFits] in *. exists (swapBytes (Z.to_nat (TypeSize (common t))) (v `mod` 256 ^ TypeSize (common t))), FormatNative.
  destruct Hf as [-> |[-> | ->]]; (split; [|cbn [valueBytes]; f_equal; match goal with |- bytesLE (Z.to_nat ?k) _ = _ =>
    change (256 ^ k) with (256 ^ Z.of_nat (Z.to_nat k)) end; apply bytesLE_swap]).
  - rewrite decide_True by done. by rewrite swap16_bytes.
  - rewrite decide_False, decide_True by lia. by rewrite swap32_bytes.
  - rewrite !decide_False, decide_True by lia. rewrite swap64_bytes. unfold swapBytes.
    change (256 ^ 8) with (2 ^ 64). by rewrite Z.mod_small by apply Hu.
Qed.

Lemma squashConst_ok c val t elems m : typeAt (aref c) = Ret t → constFits t val → wfElems (mHeap m) elems →
  Z.of_nat (length (cells (mHeap m) elems)) + TypeSize (common t) < 2 ^ 63 →
  added m elems (CByte <$> constBytes t val) (squashConst target c val (elems, m)).
Proof.
  intros Ht Hf Hwf Hlt. pose proof (length_constBytes t val Hf) as Hlen. pose proof Hf as [[Hv Hs] Hbl Hint Hfmt (v & st & Hval & Hu)].
  unfold squashConst. rewrite Ht. cbn [rbind]. unfold Types.Size. rewrite Hv. cbn [rbind].
  assert (added m elems (CByte <$> constBytes t val) (addBytes target (constBytes t val) (elems, m))) as Hadd
    by (apply addBytes_ok; [done|lia]).
  unfold constBytes in *. destruct (IsPad t) eqn:Hp.
  { unfold zeros. rewrite decide_True by lia. exact Hadd. }
  specialize (Hfmt eq_refl). unfold squashedValue, valueOf in *. rewrite Ht. cbn [rbind]. rewrite Hval in *.
  assert (∀ l, Z.of_nat (length l) = TypeSize (common t) → added m elems (CByte <$> l) (addBytes target l (elems, m))) as Hadd'
    by (intros l Hl; apply addBytes_ok; [done|lia]). clear Hadd.
  destruct t; try (by destruct Hint); cbn [rbind]; [| | | | |cbn [valueBytes rbind]; rewrite decide_False by (intros Hn; by apply Hn); by apply Hadd'];
    (destruct (squashed_bytes _ v (conj Hv Hs) Hbl Hint) as (v' & bf' & -> & Hbytes); [by apply Hfmt|done|]; cbn [rbind]; rewrite Hbytes;
     cbn [rbind]; rewrite decide_False by (intros Hn; by apply Hn); by apply Hadd').
Qed.

(** *** Results *)

Lemma anyRes_ok tc bf : resFits tc bf →
  ∃ idx r tc' bf' desc, anyResIndex bf (TypeSize tc) = Ret idx ∧ index (anyRes target) (idx - 1) = Ret r ∧
    typeAt r = Ret (ResourceType tc' bf' desc) ∧ resFits tc' bf' ∧ TypeSize tc = TypeSize tc'.
Proof.
  intros [[Hv Hs] Hb].
  assert (∃ k bf', anyResIndex bf (TypeSize tc) = Ret (k + 1) ∧ 0 ≤ k ∧ (k, (bf', TypeSize tc)) ∈ anyTable ∧
      match bf' with FormatNative | FormatBigEndian => TypeSize tc = 1 ∨ TypeSize tc = 2 ∨ TypeSize tc = 4 ∨ TypeSize tc = 8
        | _ => formatFits bf' (TypeSize tc) end) as (k & bf' & Hidx & Hk & Hin & Hfit).
  { destruct bf; cbn [anyResIndex formatFits] in *.
    1,2: destruct Hb as [Hb|[Hb|[Hb|Hb]]]; rewrite Hb; [exists 0, FormatNative|exists 1, FormatNative|exists 2, FormatNative|exists 3, FormatNative].
    9: exists 4, FormatStrDec; rewrite Hb. 10: exists 5, FormatStrHex; rewrite Hb. 11: exists 6, FormatStrOct; rewrite Hb.
    all: split_and!; [done|lia|unfold anyTable; rewrite !elem_of_cons; tauto|by (done || tauto)]. }
  destruct (an_res Hany _ _ _ Hin) as (r & tc' & desc & Hr & Ht & Hsz & Hv').
  exists (k + 1), r, tc', bf', desc. split_and!; [done| |done| |congruence].
  - unfold index. rewrite decide_True by lia. replace (k + 1 - 1) with k by lia. by rewrite Hr.
  - split; [split; [done|lia]|]. rewrite Hsz. by destruct bf'.
Qed.

Lemma squashResult_ok i elems m : flat (mHeap m) (ResultArg i) → wfElems (mHeap m) elems →
  added m elems (image (mHeap m) (ResultArg i)) (squashResult target i (elems, m)).
Proof.
  intros Hfl Hwf. pose proof Hfl as (o & tc & bf & desc & Ho & Ht & Hfit).
  destruct (anyRes_ok tc bf Hfit) as (idx & r & tc' & bf' & desc' & Hidx & Hr & Htr & Hfit' & Hsz).
  unfold squashResult, argType, argRef. rewrite (deref_Some _ _ _ Ho). cbn [rbind]. rewrite Ht. cbn [rbind].
  destruct Hfit as [[Hv Hs] Hfit]. unfold Types.Size. cbn [common Format]. rewrite Hv. cbn [rbind]. rewrite Hidx. cbn [rbind]. rewrite Hr. cbn [rbind].
  rewrite Htr. cbn [rbind]. rewrite (any_ref _ _ Htr). cbn [rbind]. unfold setRef. rewrite (deref_Some _ _ _ Ho). cbn [rbind].
  destruct (an_union Hany) as (tu & fields & Hu & Huv). rewrite Hu. cbn [rbind]. unfold MakeUnionArg. rewrite (any_ref _ _ Hu). cbn [rbind alloc].
  fold (withRef o r). set (h' := <[i := withRef o r]> (mHeap m)).
  assert (retyped (mHeap m) h') as Hret.
  { intros j. unfold h'. destruct (decide (j = i)) as [->|Hne].
    - rewrite Ho, lookup_insert_eq. split; [done|]. right. by exists tc, bf, desc, tc', bf', desc'.
    - rewrite lookup_insert_ne by done. apply (retyped_refl (mHeap m)). }
  destruct (cells_retyped _ _ _ Hret Hwf) as [Hwf' Hcells]. destruct (flat_retyped _ _ _ Hret Hfl) as [Hfl' Himg].
  eexists _, _. cbn [mHeap mNext]. split_and!; [reflexivity|done|cbn [mNext]; lia| |].
  - apply Forall_app. split; [done|]. constructor; [|constructor]. split; [done|by apply flat_elem].
  - cbn [mHeap]. unfold cells in *. rewrite fmap_app, concat_app, Hcells. f_equal. rewrite fmap_cons. cbn [concat fmap list_fmap].
    rewrite app_nil_r. rewrite (image_elem h' _ (ResultArg i)); done.
Qed.

(** *** Groups *)

Lemma shl_mask len : 0 < len ≤ 64 → shl64 1 len -! 1 = Z.ones len.
Proof.
  intros Hl. unfold sub64, shl64, wrapU. rewrite Z.shiftl_1_l, Z.ones_equiv. destruct (decide (len = 64)) as [->|]; [reflexivity|].
  assert (0 < 2 ^ len < 2 ^ 64) as Hp by (split; [apply Z.pow_pos_nonneg; lia|apply Z.pow_lt_mono_r; lia]).
  rewrite (Z.mod_small (2 ^ len)) by lia. rewrite Z.mod_small by lia. lia.
Qed.

(** The bits of the field are put behind the ones collected. *)
Lemma squashBits_ok c val t lo bits : typeAt (aref c) = Ret t → bitsFit lo t val → 0 ≤ bits < 2 ^ lo →
  squashBits target (ConstArg c val) t (TypeSize (common t)) bits =
    Ret (if decide (TypeSize (common t) ≠ 0) then (0, Some (bytesLE (Z.to_nat (TypeSize (common t))) (bits + bitsOf t val))) else (bits + bitsOf t val, None)) ∧
  0 ≤ bits + bitsOf t val < 2 ^ (BitfieldOffset t + BitfieldLength t).
Proof.
  intros Ht [_ [Hfmt Hcs] (Hlo & Hlen & Hend) (v & st & Hval & Hu)] Hbits. unfold squashBits, squashedValue. rewrite Ht. cbn [rbind].
  assert (bitsOf t val = v `mod` 2 ^ BitfieldLength t * 2 ^ BitfieldOffset t) as Hb by (unfold bitsOf, valueOf; by rewrite Hval).
  set (len := BitfieldLength t) in *. set (off := BitfieldOffset t) in *.
  assert (0 < 2 ^ len) as Hpl by (apply Z.pow_pos_nonneg; lia). assert (0 < 2 ^ off) as Hpo by (apply Z.pow_pos_nonneg; lia).
  assert (2 ^ (off + len) = 2 ^ off * 2 ^ len) as Hpow by (by rewrite Z.pow_add_r by lia).
  pose proof (Z.mod_pos_bound v (2 ^ len) Hpl) as Hm. set (x := v `mod` 2 ^ len) in *.
  assert (2 ^ lo ≤ 2 ^ off) as Hlo2 by (apply Z.pow_le_mono_r; lia).
  assert (0 ≤ x * 2 ^ off ∧ x * 2 ^ off + 2 ^ off ≤ 2 ^ off * 2 ^ len) as Hx by nia.
  assert (2 ^ off * 2 ^ len ≤ 2 ^ 64) as Hmax by (rewrite <-Hpow; apply Z.pow_le_mono_r; lia).
  assert (Z.lor bits (shl64 (Z.land v (shl64 1 len -! 1)) off) = bits + bitsOf t val) as Hor.
  { rewrite Hb, shl_mask, Z.land_ones by lia. fold x. unfold shl64, wrapU. rewrite (Z.shiftl_mul_pow2 x off) by lia.
    rewrite Z.mod_small by lia. rewrite <-(Z.shiftl_mul_pow2 x off) by lia. rewrite lor_shift by lia. by rewrite Z.shiftl_mul_pow2 by lia. }
  split; [|rewrite Hb, Hpow; lia].
  assert ((match t with CsumType _ _ _ _ => Ret (0xabcdef1234567890, FormatNative) | _ =>
      let! '(v, _) := constValue t val in
      if decide (Format t = FormatBigEndian) then
        let! unit := UnitSize t in
        if decide (unit = 2) then Ret (swap16 (wrapU 16 v), FormatNative)
        else if decide (unit = 4) then Ret (swap32 (wrapU 32 v), FormatNative)
        else if decide (unit = 8) then Ret (swap64 v, FormatNative)
        else Panic "bad const size"
      else Ret (v, Format t) end) = Ret (v, FormatNative)) as ->.
  { rewrite Hval. cbn [rbind]. rewrite Hfmt. destruct t; try done. by destruct (Hcs ic kind buf protocol). }
  cbn [rbind]. rewrite decide_False by (intros Hn; by apply Hn). rewrite Hor. by case_decide.
Qed.

(** What [squashPtrImpl] does to an argument that can be squashed. *)
Definition squashes (a : Arg) : Prop := ∀ elems m, flat (mHeap m) a → wfElems (mHeap m) elems →
  Z.of_nat (length (cells (mHeap m) elems)) + Z.of_nat (length (image (mHeap m) a)) < 2 ^ 63 →
  added m elems (image (mHeap m) a) (squashPtrImpl target a (elems, m)).

(** The loop of [squashGroup]. *)
Definition squashField (fld : Arg) (acc : Z * Z * (list Arg * mem)) : res (Z * Z * (list Arg * mem)) :=
  let '(bits, fieldsSize, s) := acc in
  let! size := Size target (mHeap s.2) fld in
  let fieldsSize := fieldsSize +! size in
  let! tf := argType target (mHeap s.2) fld in
  if IsBitfield tf then
    let! '(bits, data) := squashBits target fld tf size bits in
    let! s := match data with Some data => addBytes target data s | None => Ret s end in
    Ret (bits, fieldsSize, s)
  else let! s := squashPtrImpl target fld s in Ret (bits, fieldsSize, s).

Lemma flat_nobits h a : flat h a → asBits a = None → ∃ t, argType target h a = Ret t ∧ IsBitfield t = false ∧ BitfieldLength t = 0.
Proof.
  unfold argType, argRef. destruct a as [c v|c ad v r|c d s|c l|c o i t|i]; cbn [flat rbind].
  - intros (t & Ht & [_ Hb _ _ _]) _. exists t. rewrite Ht. split_and!; [done| |done]. unfold IsBitfield, BitfieldLength in *.
    destruct (asInt t); [|done]. apply bool_decide_eq_false. intros Hn. by apply Hn.
  - done.
  - intros [(tc & desc & Ht) _] _. by eexists.
  - intros (_ & (t & Ht & Hk) & _) _. exists t. split; [done|]. by destruct t.
  - intros (_ & tc & fields & Ht & _) _. by eexists.
  - intros (o & tc & bf & desc & Ho & Ht & _) _. rewrite (deref_Some _ _ _ Ho). by eexists.
Qed.

(** The rest of the fields, after the first ones gave [new]. *)
Definition fieldsAdded (m : mem) (elems : list Arg) (sum : Z) (new : list cell) (r : res (Z * Z * (list Arg * mem))) : Prop :=
  ∃ bits s, r = Ret (bits, sum, s) ∧ added m elems new (Ret s).

Lemma fieldsAdded_step m m1 elems elems1 sum new1 new r : retyped (mHeap m) (mHeap m1) → (mNext m ≤ mNext m1)%positive →
  cells (mHeap m1) elems1 = cells (mHeap m) elems ++ new1 → fieldsAdded m1 elems1 sum new r → fieldsAdded m elems sum (new1 ++ new) r.
Proof. intros Hr Hn Hc (bits & s & -> & Hs). exists bits, s. split; [done|]. by eapply added_retyped. Qed.

Lemma squash_fields l : (∀ a, a ∈ l → squashes a) → ∀ lo bits fs elems m,
  fieldsFlat (flat (mHeap m)) lo l → 0 ≤ bits < 2 ^ lo → 0 ≤ fs → fs + total (mHeap m) l < 2 ^ 63 → wfElems (mHeap m) elems →
  Z.of_nat (length (cells (mHeap m) elems)) + total (mHeap m) l < 2 ^ 63 →
  fieldsAdded m elems (fs + total (mHeap m) l) (fieldCells (image (mHeap m)) bits l) (for_list squashField l (bits, fs, (elems, m))).
Proof.
  induction l as [|f l IH]; intros Hl lo bits fs elems m Hfl Hbits Hfs Hsum Hwf Hlt.
  { exists bits, (elems, m). cbn. split; [by rewrite Z.add_0_r|]. exists elems, m. split_and!; [done|apply retyped_refl|lia|done|by rewrite app_nil_r]. }
  assert (∀ a, a ∈ l → squashes a) as Hl' by (intros a Ha; by apply Hl, list_elem_of_further).
  destruct (fields_sized (mHeap m) (f :: l) (λ a _, flat_sized (mHeap m) a) lo bits Hfl) as [Hszs _].
  destruct (Hszs f (list_elem_of_here _ _)) as (z & Hz & Hz0).
  assert (∀ a, a ∈ l → ∃ z, Size target (mHeap m) a = Ret z ∧ 0 ≤ z) as Hszs' by (intros a Ha; by apply Hszs, list_elem_of_further).
  cbn [fieldsFlat total foldr fieldCells for_list] in *. fold (total (mHeap m) l) in *. rewrite (sizeOf_Ret _ _ _ Hz) in *.
  assert (0 ≤ total (mHeap m) l) as Htot0.
  { clear -Hszs'. induction l as [|a l IH]; [done|]. cbn [total foldr]. destruct (Hszs' a (list_elem_of_here _ _)) as (z & Hz & ?).
    rewrite (sizeOf_Ret _ _ _ Hz). fold (total (mHeap m) l). enough (0 ≤ total (mHeap m) l) by lia.
    apply IH. intros b Hb. by apply Hszs', list_elem_of_further. }
  assert (fs +! z = fs + z) as Hadd by (unfold add64, wrapU; apply Z.mod_small; lia).
  (* the loop from the next field on *)
  assert (∀ lo' bits' elems1 m1 new1, retyped (mHeap m) (mHeap m1) → (mNext m ≤ mNext m1)%positive → wfElems (mHeap m1) elems1 →
    cells (mHeap m1) elems1 = cells (mHeap m) elems ++ new1 → Z.of_nat (length new1) = z →
    fieldsFlat (flat (mHeap m)) lo' l → 0 ≤ bits' < 2 ^ lo' →
    fieldsAdded m elems (fs + (z + total (mHeap m) l)) (new1 ++ fieldCells (image (mHeap m)) bits' l)
      (for_list squashField l (bits', fs + z, (elems1, m1)))) as Hnext.
  { intros lo' bits' elems1 m1 new1 Hr Hn Hwf1 Hc Hlen Hfl' Hb'.
    destruct (fields_retyped (mHeap m) (mHeap m1) l (λ a _, flat_retyped _ _ a Hr) lo' bits' Hfl') as [Hfl1 Hcells1].
    pose proof (total_retyped _ _ l Hr Hszs') as Ht1.
    eapply fieldsAdded_step; [exact Hr|exact Hn|exact Hc|]. rewrite <-Hcells1, <-Ht1, Z.add_assoc.
    apply (IH Hl' lo'); [done|done|lia|lia|done|rewrite Hc, length_app; lia]. }
  unfold squashField at 1. cbn [snd]. rewrite Hz. cbn [rbind]. rewrite Hadd. destruct (asBits f) as [[t val]|] eqn:Hb.
  - destruct Hfl as [Hfit Hfl]. unfold asBits in Hb. destruct f as [c v| | | | |]; try done. destruct (typeAt (aref c)) as [t'| |] eqn:Ht; try done.
    destruct (IsBitfield t') eqn:Hib; [|done]. injection Hb as -> ->. unfold argType, argRef. cbn [rbind]. rewrite Ht. cbn [rbind]. rewrite Hib.
    assert (z = TypeSize (common t)) as ->.
    { simpl in Hz. rewrite Ht in Hz. cbn [rbind] in Hz. unfold Types.Size in Hz. destruct (bf_size _ _ _ Hfit) as [Hv _]. rewrite Hv in Hz. congruence. }
    destruct (squashBits_ok c val t lo bits Ht Hfit Hbits) as [-> Hb']. cbn [rbind].
    destruct (decide (TypeSize (common t) = 0)) as [Hts|Hts].
    + rewrite decide_False by (intros Hn; by apply Hn). cbn [rbind]. apply (Hnext (BitfieldOffset t + BitfieldLength t) _ elems m []); [apply retyped_refl|lia|done|by rewrite app_nil_r|done|done|done].
    + rewrite decide_True by done. cbn [rbind].
      destruct (addBytes_ok (bytesLE (Z.to_nat (TypeSize (common t))) (bits + bitsOf t val)) elems m Hwf) as (elems1 & m1 & -> & Hr & Hn & Hwf1 & Hc).
      { rewrite length_bytesLE. lia. }
      cbn [rbind]. apply (Hnext 0); try done. by rewrite length_fmap, length_bytesLE, Z2Nat.id.
  - destruct Hfl as [Hf Hfl]. destruct (flat_nobits _ _ Hf Hb) as (t & -> & Hib & _). cbn [rbind]. rewrite Hib.
    destruct (flat_sized _ _ Hf) as [Hsz _]. assert (Z.of_nat (length (image (mHeap m) f)) = z) as Hlen by congruence.
    destruct (Hl f (list_elem_of_here _ _) elems m Hf Hwf) as (elems1 & m1 & -> & Hr & Hn & Hwf1 & Hc); [lia|]. cbn [rbind].
    by apply (Hnext lo).
Qed.

(** *** Arguments *)

Lemma squash_group c l : (∀ a, a ∈ l → squashes a) → squashes (GroupArg c l).
Proof.
  intros IH elems m Hf Hwf Hlt. cbn [squashPtrImpl snd].
  destruct (flat_nobits _ _ Hf) as (t & Ht & _ & Hb); [done|]. rewrite Ht. cbn [rbind]. rewrite Hb, decide_False by (intros Hn; by apply Hn).
  pose proof Hf as (Hfl & (t' & Ht' & Hk) & z & Hz & Htot). unfold argType, argRef in Ht. cbn [rbind] in Ht. assert (t' = t) as -> by congruence.
  unfold squashGroup. assert (match t with StructType _ _ _ overlay => bool_decide (overlay ≠ 0) | _ => false end = false) as ->.
  { destruct t; try done. apply bool_decide_eq_false. intros Hn. by apply Hn. }
  destruct (fields_sized _ l (λ a _, flat_sized _ a) 0 0 Hfl) as [Hszs Hlen]. cbn [image] in *. rewrite (sizeOf_Ret _ _ _ Hz) in *.
  rewrite length_padded in Hlt by lia.
  assert (0 ≤ total (mHeap m) l) by lia.
  destruct (squash_fields l IH 0 0 0 elems m Hfl) as (bits & s & E & elems1 & m1 & [= ->] & Hr & Hn & Hwf1 & Hc); [lia|lia|lia|done|lia|].
  match goal with |- added _ _ _ (let! _ := for_list ?f l ?acc in _) => change (for_list f l acc) with (for_list squashField l acc) end.
  rewrite E. cbn [rbind snd]. rewrite (size_retyped _ _ _ _ Hr Hz). cbn [rbind]. rewrite Z.add_0_l.
  assert (z -! total (mHeap m) l = z - total (mHeap m) l) as -> by (unfold sub64, wrapU; apply Z.mod_small; lia).
  unfold padded. replace (Z.to_nat z - length (fieldCells (image (mHeap m)) 0 l))%nat with (Z.to_nat (z - total (mHeap m) l)) by lia.
  eapply added_retyped; [exact Hr|exact Hn|exact Hc|]. apply addPad_ok; [done|lia|]. rewrite Hc, length_app. lia.
Qed.

Lemma squash_union c o i t : squashes o → squashes (UnionArg c o i t).
Proof.
  intros IH elems m Hf Hwf Hlt. cbn [squashPtrImpl snd].
  destruct (flat_nobits _ _ Hf) as (tt & Htt & _ & Hb); [done|]. rewrite Htt. cbn [rbind]. rewrite Hb, decide_False by (intros Hn; by apply Hn).
  destruct (flat_sized _ _ Hf) as [Hsz Hkb]. rewrite Hsz. pose proof Hf as (Hfo & tc & fields & Ht & Hle). destruct (flat_sized _ _ Hfo) as [Ho Hob].
  rewrite Ho. unfold argType, argRef in Htt. cbn [rbind] in Htt. assert (tt = UnionType tc fields) as -> by congruence.
  rewrite (sizeOf_Ret _ _ _ Ho) in Hle.
  set (n := length (image (mHeap m) o)) in *. remember (length (image (mHeap m) (UnionArg c o i t))) as k eqn:Hk.
  assert (image (mHeap m) (UnionArg c o i t) = image (mHeap m) o ++ replicate (k - n) (CByte 0)) as ->.
  { cbn [image]. rewrite (sizeOf_Ret _ _ _ Hsz). unfold padded. by rewrite Nat2Z.id. }
  assert ((n ≤ k)%nat ∧ (IsVarlen tc = true → n = k)) as [Hnk Hvar].
  { simpl in Hsz. rewrite Ht in Hsz. cbn [rbind] in Hsz. unfold Varlen, Types.Size in Hsz. cbn [common] in Hsz. destruct (IsVarlen tc); cbn [negb] in Hsz.
    - rewrite Ho in Hsz. injection Hsz as Hsz. split; [lia|intros _; lia].
    - specialize (Hle eq_refl). injection Hsz as Hsz. split; [lia|done]. }
  assert ((if Varlen (UnionType tc fields) then Ret 0 else let! sz := Ret (Z.of_nat k) in let! osz := Ret (Z.of_nat n) in Ret (sz -! osz)) = Ret (Z.of_nat (k - n))) as ->.
  { unfold Varlen. cbn [common]. destruct (IsVarlen tc); [rewrite Hvar by done; f_equal; lia|]. cbn [rbind]. f_equal. unfold sub64, wrapU.
    rewrite Z.mod_small by lia. lia. }
  cbn [rbind].
  destruct (IH elems m Hfo Hwf) as (elems1 & m1 & -> & Hr & Hn & Hwf1 & Hc); [lia|]. cbn [rbind].
  eapply added_retyped; [exact Hr|exact Hn|exact Hc|]. replace (k - n)%nat with (Z.to_nat (Z.of_nat (k - n))) at 1 by lia.
  apply addPad_ok; [done|lia|]. rewrite Hc, length_app. lia.
Qed.

Lemma squash_arg a : squashes a.
Proof.
  induction a as [c v|c ad v r IH|c d s|c l IH|c o i t IH|i] using arg_ind; intros elems m Hf Hwf Hlt; cbn [squashPtrImpl snd].
  - pose proof Hf as (t & Ht & Hfit). unfold argType, argRef. cbn [rbind]. rewrite Ht. cbn [rbind]. rewrite (cf_bits _ _ Hfit).
    rewrite decide_False by (intros Hn; by apply Hn). cbn [image] in *. rewrite Ht in Hlt |- *. rewrite length_fmap, length_constBytes in Hlt by done.
    by apply squashConst_ok.
  - done.
  - destruct (flat_nobits _ _ Hf) as (t & Ht & _ & Hb); [done|]. rewrite Ht. cbn [rbind]. rewrite Hb, decide_False by (intros Hn; by apply Hn).
    destruct (flat_sized _ _ Hf) as [Hsz _]. cbn [image] in *. pose proof Hf as [_ Hd]. destruct (decide (adir c = DirOut)) as [Hdir|Hdir].
    + destruct Hd as [-> Hs]. rewrite Hsz. cbn [rbind]. rewrite length_fmap, length_replicate, Z2Nat.id in * by lia.
      rewrite fmap_replicate. apply addPad_ok; [done|lia|done].
    + rewrite length_fmap in Hlt. by apply addBytes_ok.
  - by apply (squash_group c l).
  - by apply (squash_union c o i t).
  - destruct (flat_nobits _ _ Hf) as (t & Ht & _ & Hb); [done|]. rewrite Ht. cbn [rbind]. rewrite Hb, decide_False by (intros Hn; by apply Hn).
    by apply squashResult_ok.
Qed.

(** ** The pointer *)

Lemma retyped_linked L h h' : retyped h h' → linked L h → linked L h'.
Proof.
  intros Hr [Hin Hres Huses].
  assert (∀ i o, h !! i = Some o → ∃ o', h' !! i = Some o' ∧ rRes o' = rRes o ∧ uses o' = uses o) as Hto.
  { intros i o Ho. specialize (Hr i). rewrite Ho in Hr. destruct (h' !! i) as [o'|]; [|done]. destruct Hr as [-> _]. by eexists. }
  assert (∀ i o', h' !! i = Some o' → ∃ o, h !! i = Some o ∧ rRes o' = rRes o ∧ uses o' = uses o) as Hback.
  { intros i o' Ho'. specialize (Hr i). rewrite Ho' in Hr. destruct (h !! i) as [o|]; [|done]. destruct Hr as [-> _]. by eexists. }
  split.
  - intros i Hi. destruct (Hin i Hi) as [o Ho]. destruct (Hto i o Ho) as (o' & ? & _). by eexists.
  - intros i o' j Hi Ho' Hj. destruct (Hback i o' Ho') as (o & Ho & E & _). rewrite E in Hj.
    destruct (Hres i o j Hi Ho Hj) as (? & oj & Hoj & ?). destruct (Hto j oj Hoj) as (oj' & Hoj' & _ & Eu). split; [done|].
    exists oj'. by rewrite Eu.
  - intros j oj' i Hj Hoj' Hi. destruct (Hback j oj' Hoj') as (oj & Hoj & _ & E). rewrite E in Hi.
    destruct (Huses j oj i Hj Hoj Hi) as (? & o & Ho & ?). destruct (Hto i o Ho) as (o' & Ho' & Er & _). split; [done|].
    exists o'. by rewrite Er.
Qed.

(** The array of the elements. *)
Lemma elems_image h c elems : aref c = anyArray target → wfElems h elems → Z.of_nat (length (cells h elems)) < 2 ^ 63 →
  Size target h (GroupArg c elems) = Ret (Z.of_nat (length (cells h elems))) ∧ image h (GroupArg c elems) = cells h elems.
Proof.
  intros Hc Hwf Hlt. destruct (an_array Hany) as (tc & kind & rb & re & Ht & Hv).
  assert (∀ n, Z.of_nat n + Z.of_nat (length (cells h elems)) < 2 ^ 63 →
    for_list (λ elem size, let! sz := Size target h elem in Ret (size +! sz)) elems (Z.of_nat n) = Ret (Z.of_nat (n + length (cells h elems)))) as Hsum.
  { clear Hlt. induction Hwf as [|e elems [_ Hf] Hl IH]; intros n Hn; [cbn; f_equal; lia|]. unfold cells in *. rewrite fmap_cons in *.
    cbn [concat for_list] in *. rewrite length_app in *. destruct (flat_sized h e Hf) as [-> _]. cbn [rbind].
    assert (Z.of_nat n +! Z.of_nat (length (image h e)) = Z.of_nat (n + length (image h e))) as -> by (unfold add64, wrapU; rewrite Z.mod_small; lia).
    rewrite IH by lia. f_equal. lia. }
  assert (Size target h (GroupArg c elems) = Ret (Z.of_nat (length (cells h elems)))) as Hs.
  { simpl. rewrite Hc, Ht. cbn [rbind]. unfold Varlen. cbn [common]. rewrite Hv. cbn [negb]. by apply (Hsum 0%nat). }
  split; [done|]. cbn [image]. rewrite (sizeOf_Ret _ _ _ Hs). assert (fieldCells (image h) 0 elems = cells h elems) as ->.
  { clear -Hwf. induction Hwf as [|e elems [He _] _ IH]; [done|]. cbn [fieldCells]. unfold cells in *. rewrite fmap_cons. cbn [concat].
    assert (asBits e = None) as -> by (by destruct e). by rewrite IH. }
  unfold padded. rewrite Nat2Z.id, Nat.sub_diag. by rewrite app_nil_r.
Qed.

End target.


(** ** An example *)

Module ExampleSquash.

Definition mk := ExampleTarget.mk.
Definition num (size : Z) (bf : BinaryFormat) (off len unit : Z) (r : Ref) : Typ :=
  IntType (MkIntTypeCommon (mk "int" size false r) bf off len unit 0) IntPlain 0 0 0.
Definition res (size : Z) (bf : BinaryFormat) (r : Ref) : option Typ :=
  Some (ResourceType (mk "res" size false r) bf (MkResourceDesc "res" ["res"] [0])).
Definition fld := ExampleTarget.fld.

(** A message of an integer, a big-endian one, two bit fields, a descriptor and data; in the
    struct with the index 19, the bit field is big-endian. *)
Definition types : typeTable :=
  [None; Some (num 4 FormatNative 0 0 0 1); res 4 FormatNative 2; Some (BufferType (mk "blob" 0 true 3)
      (MkBufferDesc BufferBlobRand 0 0 TextTarget "" [] false));
   Some (num 2 FormatBigEndian 0 0 0 4); Some (num 0 FormatNative 0 3 1 5); Some (num 1 FormatNative 3 5 1 6);
   Some (StructType (mk "msg" 0 true 7) [fld "a" 1; fld "b" 4; fld "c" 5; fld "d" 6; fld "e" 2; fld "f" 3] 0 0);
   Some (PtrType (mk "ptr" 8 false 8) 7 DirIn);
   Some (UnionType (mk "ANYUNION" 0 true 9) [fld "ANYBLOB" 3; fld "ANYRES8" 12; fld "ANYRES16" 13; fld "ANYRES32" 14;
     fld "ANYRES64" 15; fld "ANYRESDEC" 16; fld "ANYRESHEX" 17; fld "ANYRESOCT" 18]); Some (ArrayType (mk "array" 0 true 10) 9 ArrayRandLen 0 0);
   Some (PtrType (mk "ANYPTR" 8 false 11) 10 DirInOut);
   res 1 FormatNative 12; res 2 FormatNative 13; res 4 FormatNative 14; res 8 FormatNative 15; res 20 FormatStrDec 16;
   res 18 FormatStrHex 17; res 23 FormatStrOct 18;
   Some (StructType (mk "bits" 4 false 19) [fld "label" 20] 0 0); Some (num 4 FormatBigEndian 12 20 4 20);
   Some (UnionType (mk "ANYPTRS" 8 false 21) [fld "ANYPTR" 11; fld "ANYPTR64" 11])].

Definition target : Target :=
  MkTarget types [] 8 4096 64 536870912 [0] 10 11 11 9 3 [12; 13; 14; 15; 16; 17; 18]%nat "test" [] [].

Example init_any :
  initAnyTypes (seq 1 21) (MkTarget types [] 8 4096 64 536870912 [0] 0 0 0 0 0 [] "test" [] []) = Ret target.
Proof. vm_compute. reflexivity. Qed.

Definition heap0 : gmap positive ResultObj := {[1%positive := MkResult 2 DirIn None 0 0 7 ∅]}.
Definition const (i : positive) (r : Ref) (v : Z) : Arg := ConstArg (MkCommon i r DirIn) v.
Definition msg : Arg :=
  GroupArg (MkCommon 3 7 DirIn) [const 4 1 0x11223344; const 5 4 0x2233; const 6 5 1; const 7 6 9; ResultArg 1;
    DataArg (MkCommon 8 3 DirIn) [170; 187] 0].
Definition ptr : Arg := PointerArg (MkCommon 2 8 DirIn) 0 0 (Some msg).

(** The blob before the descriptor, the descriptor and the blob behind it. *)
Example squash_msg :
  match squashPtr target ptr (Mem heap0 9) with
  | Ret (PointerArg _ _ _ (Some (GroupArg _ [UnionArg _ (DataArg _ d1 _) 0 _; UnionArg _ (ResultArg i) k _; UnionArg _ (DataArg _ d2 _) 0 _])), _) =>
    Some (d1, i, k, d2)
  | _ => None
  end = Some ([0x44; 0x33; 0x22; 0x11; 0x22; 0x33; 0x49], 1%positive, 3, [170; 187]).
Proof. vm_compute. reflexivity. Qed.

(** The value 5 of a big-endian bit field of 20 bits is lost: the byte order is changed before
    the bits are cut out. *)
Example squash_be_bits :
  match squashPtr target (PointerArg (MkCommon 2 8 DirIn) 0 0 (Some (GroupArg (MkCommon 3 19 DirIn) [const 4 20 5]))) (Mem ∅ 9) with
  | Ret (PointerArg _ _ _ (Some (GroupArg _ [UnionArg _ (DataArg _ d _) _ _])), _) => Some d
  | _ => None
  end = Some [0; 0; 0; 0].
Proof. vm_compute. reflexivity. Qed.

Lemma any_types : anyTypes target.
Proof.
  split.
  - do 22 (intros r; destruct r as [|r]; [try discriminate; injection 1 as <-; reflexivity|revert r]). intros r. discriminate.
  - by eexists _, _.
  - by eexists _, _.
  - by eexists _, _, _, _.
  - intros k bf sz Hin. unfold anyTable in Hin. rewrite !elem_of_cons, elem_of_nil in Hin.
    destruct_or! Hin; try done; injection Hin as -> -> ->; by eexists _, _, _.
  - intros sz [-> | ->]; by eexists _, _.
Qed.

Lemma num_flat r t v i : typeAt types r = Ret t → okSize (common t) → BitfieldLength t = 0 → asInt t ≠ None →
  formatFits (Format t) (TypeSize (common t)) → constValue t v = Ret (v, 0) → is_u 64 v → flat target heap0 (const i r v).
Proof. intros Ht Hs Hb Hi Hf Hv Hu. exists t. split; [done|]. split; eauto. Qed.

Lemma num_bits lo size off len unit r v : 0 ≤ lo ≤ off → 0 < len → off + len ≤ 64 → 0 ≤ size < 8 → is_u 64 v →
  bitsFit lo (num size FormatNative off len unit r) v.
Proof.
  intros Hlo Hlen Hend Hs Hu. split.
  - split; [done|]. cbn. lia.
  - done.
  - done.
  - by exists v, 0.
Qed.

Lemma msg_flat : flat target heap0 msg.
Proof.
  split; [|split; [by eexists|exists 13; split; [reflexivity|by vm_compute]]].
  apply fieldsFlat_plain; [reflexivity|by eapply num_flat; [reflexivity|by vm_compute..]|].
  apply fieldsFlat_plain; [reflexivity|by eapply num_flat; [reflexivity|by vm_compute|by vm_compute|by vm_compute|by left|by vm_compute..]|].
  eapply fieldsFlat_bits; [reflexivity|apply num_bits; by vm_compute|].
  eapply fieldsFlat_bits; [reflexivity|apply num_bits; by vm_compute|].
  apply fieldsFlat_plain; [reflexivity| |].
  { eexists _, _, _, _. split; [reflexivity|]. split; [reflexivity|]. split; [by vm_compute|]. right. right. by left. }
  apply fieldsFlat_plain; [reflexivity| |done]. split; [by eexists _, _|]. by vm_compute.
Qed.

End ExampleSquash.


End SquashSpec.
