(* ===== verification/Fallback.v ===== *)
(** * Fallback: features and fallback signal of a program (prog/analysis.go)

    Without coverage from the kernel the fuzzer makes up signal from the calls that were
    executed, their errors, the constructors of their resources and their flags. *)

From S2P Require Import Prelude Bytes Types Prog ExampleTarget ProgEdit Clone Squash.
Import Bytes Types Prog ProgEdit.

Module Fallback.

(** ** Words of signal *)

Definition fallbackSignalErrno : Z := 0.
Definition fallbackSignalErrnoBlocked : Z := 1.
Definition fallbackSignalCtor : Z := 2.
Definition fallbackSignalFlags : Z := 3.
Definition fallbackCallMask : Z := 0x1fffff.

Definition CallExecuted : Z := 1.
Definition CallFinished : Z := 2.
Definition CallBlocked : Z := 4.

Record CallInfo := MkInfo { iFlags : Z; iErrno : Z; iSignal : list Z }.

Definition checkMaxCallID (id : Z) : res unit :=
  if decide (Z.land id (Z.lnot fallbackCallMask) ≠ 0) then Panic "too many syscalls" else Ret tt.

Definition encodeFallbackSignal (typ id aux : Z) : res Z :=
  let! _ := checkMaxCallID id in
  if decide (Z.land typ (Z.lnot 7) ≠ 0) then Panic "bad fallback signal type"
  else Ret (Z.lor (Z.lor (wrapU 32 typ) (wrapU 32 (Z.shiftl (wrapU 32 (Z.land id fallbackCallMask)) 3)))
              (wrapU 32 (Z.shiftl (wrapU 32 aux) 24))).

Definition decodeFallbackSignal (s : Z) : Z * Z * Z :=
  (Z.land s 7, Z.land (Z.shiftr s 3) fallbackCallMask, Z.shiftr s 24).

Definition DecodeFallbackSignal (s : Z) : res (Z * Z) :=
  let '(typ, id, aux) := decodeFallbackSignal s in
  if decide (typ = fallbackSignalErrno ∨ typ = fallbackSignalErrnoBlocked) then Ret (id, aux)
  else if decide (typ = fallbackSignalCtor ∨ typ = fallbackSignalFlags) then Ret (id, 0)
  else Panic "bad fallback signal type".

(** [inf.Signal = append(inf.Signal, s)] *)
Definition addSignal (s : Z) (inf : CallInfo) : CallInfo := MkInfo (iFlags inf) (iErrno inf) (iSignal inf ++ [s]).

(** [flags <<= n] of an [int] *)
Definition shlInt (flags n : Z) : Z := wrapS 64 (Z.shiftl flags n).

(** ** Words are read back *)

(** The numbers of calls that fit. *)
Definition okID (id : Z) : Prop := 0 ≤ id ≤ fallbackCallMask.

Lemma no_high id k : 0 ≤ k → 0 ≤ id < 2 ^ k → Z.land id (Z.lnot (Z.ones k)) = 0.
Proof. intros Hk Hid. rewrite <-Z.ldiff_land, Z.ldiff_ones_r by done. rewrite Z.shiftr_div_pow2, Z.div_small by lia. apply Z.shiftl_0_l. Qed.

Lemma word_fields typ id aux : 0 ≤ typ < 8 → okID id → 0 ≤ aux < 256 →
  decodeFallbackSignal (typ + id * 2 ^ 3 + aux * 2 ^ 24) = (typ, id, aux).
Proof.
  unfold okID, fallbackCallMask, decodeFallbackSignal. intros Ht Hid Ha. change 7 with (Z.ones 3). change fallbackCallMask with (Z.ones 21).
  rewrite !Z.land_ones, !Z.shiftr_div_pow2 by lia. f_equal; [f_equal|]; change (2 ^ 3) with 8; change (2 ^ 21) with 2097152; change (2 ^ 24) with 16777216.
  - rewrite <-(Z.mod_unique_pos (typ + id * 8 + aux * 16777216) 8 (id + aux * 2097152) typ) by lia. done.
  - rewrite <-(Z.div_unique_pos (typ + id * 8 + aux * 16777216) 8 (id + aux * 2097152) typ) by lia.
    rewrite <-(Z.mod_unique_pos (id + aux * 2097152) 2097152 aux id) by lia. done.
  - by rewrite <-(Z.div_unique_pos (typ + id * 8 + aux * 16777216) 16777216 aux (typ + id * 8)) by lia.
Qed.

Lemma encode_word typ id aux : 0 ≤ typ < 8 → okID id →
  encodeFallbackSignal typ id aux = Ret (typ + id * 2 ^ 3 + aux `mod` 256 * 2 ^ 24).
Proof.
  intros Ht Hid. unfold encodeFallbackSignal, checkMaxCallID. unfold okID in Hid. change fallbackCallMask with (Z.ones 21) in *.
  change 7 with (Z.ones 3). assert (0 ≤ id < 2 ^ 21) as Hid' by (change (Z.ones 21) with (2 ^ 21 - 1) in Hid; lia).
  rewrite (no_high id 21), (no_high typ 3) by lia. cbn [rbind]. rewrite Z.land_ones, (Z.mod_small id) by lia.
  rewrite !decide_False by (intros Hn; by apply Hn). cbn [rbind]. f_equal. unfold wrapU.
  rewrite (Z.mod_small typ), (Z.mod_small id) by lia. rewrite (Z.mod_small (Z.shiftl id 3)) by (rewrite Z.shiftl_mul_pow2; lia).
  rewrite lor_shift by lia. assert ((Z.shiftl (aux `mod` 2 ^ 32) 24) `mod` 2 ^ 32 = Z.shiftl (aux `mod` 256) 24) as ->.
  { rewrite !Z.shiftl_mul_pow2 by lia. change (2 ^ 32) with (256 * 2 ^ 24) at 2. rewrite Z.mul_mod_distr_r by lia. f_equal.
    change (2 ^ 32) with (256 * 2 ^ 24). by rewrite Z.rem_mul_r, Z.mul_comm, Z.mod_add, Z.mod_mod by lia. }
  rewrite lor_shift by lia. done.
Qed.

(** Words for constructors and flags decode to the number of the call and to no error. *)
Definition wordOf (id s : Z) : Prop := DecodeFallbackSignal s = Ret (id, 0).

Lemma encode_errno typ id errno : okID id → typ = fallbackSignalErrno ∨ typ = fallbackSignalErrnoBlocked →
  ∃ s, encodeFallbackSignal typ id errno = Ret s ∧ DecodeFallbackSignal s = Ret (id, errno `mod` 256).
Proof.
  intros Hid Ht. assert (0 ≤ typ < 8) as Ht8 by (destruct Ht as [-> | ->]; by vm_compute).
  rewrite encode_word by done. eexists. split; [done|]. unfold DecodeFallbackSignal.
  rewrite word_fields by (done || apply Z.mod_pos_bound; lia). by rewrite decide_True.
Qed.

Lemma encode_other typ id aux : okID id → typ = fallbackSignalCtor ∨ typ = fallbackSignalFlags →
  ∃ s, encodeFallbackSignal typ id aux = Ret s ∧ wordOf id s.
Proof.
  intros Hid Ht. assert (0 ≤ typ < 8) as Ht8 by (destruct Ht as [-> | ->]; by vm_compute).
  rewrite encode_word by done. eexists. split; [done|]. unfold wordOf, DecodeFallbackSignal.
  rewrite word_fields by (done || apply Z.mod_pos_bound; lia).
  rewrite decide_False, decide_True by (done || (destruct Ht as [-> | ->]; intros [E|E]; discriminate E)). done.
Qed.

Section target.
Context (target : Target) (h : heap).

Notation typeAt := (typeAt (typeRefs target)).

(** ** Features *)

Record RequiredFeatures := MkFeatures { Bitmasks : bool; Csums : bool; FaultInjection : bool; fAsync : bool }.

Definition featureStep (arg : Arg) (f : RequiredFeatures) : res RequiredFeatures :=
  let! t := argType target h arg in
  let bits :=
    match arg with ConstArg _ _ => bool_decide (BitfieldOffset t ≠ 0 ∨ BitfieldLength t ≠ 0) | _ => false end in
  let csum := match t with CsumType _ _ _ _ => true | _ => false end in
  Ret (MkFeatures (Bitmasks f || bits) (Csums f || csum) (FaultInjection f) (fAsync f)).

Definition requiredFeatures (calls : list Call) : res RequiredFeatures :=
  for_list (λ c f,
    let! f := ForeachArg target (λ _, h) (λ arg _ f, let! f := featureStep arg f in Ret (f, false)) c f in
    Ret (MkFeatures (Bitmasks f) (Csums f) (FaultInjection f || bool_decide (0 < FailNth (Props c))) (fAsync f || Async (Props c))))
    calls (MkFeatures false false false false).

(** [Prog.ContainsAny] *)
Fixpoint ContainsAny (calls : list Call) : res bool :=
  match calls with
  | [] => Ret false
  | c :: calls => let! b := Squash.CallContainsAny target h c in if (b : bool) then Ret true else ContainsAny calls
  end.

(** ** Signal *)

Definition flagsOfConst (t : Typ) (val flags : Z) : Z :=
  let flags := shlInt flags 3 in
  match t with
  | FlagsType _ vals bitMask =>
    if bitMask then
      foldl (λ flags iv, if decide (Z.land val iv.2 ≠ 0) then Z.lxor flags (Z.shiftl 1 (Z.of_nat iv.1 `mod` 3)) else flags)
        flags (imap pair vals)
    else
      match list_find (λ v, val = v) vals with
      | Some (i, _) => Z.lor flags (Z.of_nat i `mod` 8)
      | None => flags
      end
  | LenType _ _ _ _ => let flags := shlInt flags 1 in if decide (val = 0) then Z.lor flags 1 else flags
  | _ => flags
  end.

(** [resources] has the numbers of the calls that made the results. *)
Definition extractArgSignal (arg : Arg) (callID flags : Z) (inf : CallInfo) (resources : gmap positive Z) : res (Z * CallInfo) :=
  match arg with
  | ResultArg i =>
    let flags := shlInt flags 1 in
    let! o := deref h i in
    match rRes o with
    | Some r =>
      match resources !! r with
      | Some ctor => let! s := encodeFallbackSignal fallbackSignalCtor callID ctor in Ret (flags, addSignal s inf)
      | None => Ret (flags, inf)
      end
    | None =>
      let! t := typeAt (rRef o) in
      match t with
      | ResourceType _ _ desc =>
        let! d := index (resValues desc) 0 in
        Ret (if decide (rVal o ≠ d) then Z.lor flags 1 else flags, inf)
      | _ => Panic "interface conversion: not a *ResourceType"
      end
    end
  | ConstArg c val => let! t := typeAt (aref c) in Ret (flagsOfConst t val flags, inf)
  | PointerArg _ addr vmaSize pointee =>
    let flags := shlInt flags 1 in Ret (if isSpecial addr vmaSize pointee then Z.lor flags 1 else flags, inf)
  | _ => Ret (flags, inf)
  end.

(** The signal of a call that was executed: its info, the resources known, and if the loop ends. *)
Definition callSignal (c : Call) (inf : CallInfo) (resources : gmap positive Z) : res (CallInfo * gmap positive Z * bool) :=
  let id := ID (Meta c) in
  let typ :=
    if decide (Z.land (iFlags inf) CallFinished ≠ 0 ∧ Z.land (iFlags inf) CallBlocked ≠ 0) then fallbackSignalErrnoBlocked
    else fallbackSignalErrno in
  let! s := encodeFallbackSignal typ id (iErrno inf) in
  let inf := addSignal s inf in
  if BreaksReturns (Attrs (Meta c)) then Ret (inf, resources, true)
  else if decide (iErrno inf ≠ 0) then Ret (inf, resources, false)
  else
    let! resources := ForeachArg target (λ _, h) (λ arg _ r,
      let! r := match resultOf arg with Some i => Ret (<[i := id]> r) | None => Ret r end in Ret (r, false)) c resources in
    let! '(flags, inf) := for_list (λ arg '(flags, inf), extractArgSignal arg id flags inf resources) (Args c) (0, inf) in
    let! inf := if decide (flags ≠ 0) then let! s := encodeFallbackSignal fallbackSignalFlags id flags in Ret (addSignal s inf) else Ret inf in
    Ret (inf, resources, false).

(** [Prog.FallbackSignal]: the infos of the calls from here on. *)
Fixpoint FallbackSignal (calls : list Call) (info : list CallInfo) (resources : gmap positive Z) : res (list CallInfo) :=
  match calls, info with
  | [], _ => Ret info
  | _ :: _, [] => Panic "index out of range"
  | c :: calls, inf :: info =>
    if decide (Z.land (iFlags inf) CallExecuted = 0) then
      let! info := FallbackSignal calls info resources in Ret (inf :: info)
    else
      let! '(inf, resources, stop) := callSignal c inf resources in
      if (stop : bool) then Ret (inf :: info) else let! info := FallbackSignal calls info resources in Ret (inf :: info)
  end.

(** ** The signal decodes *)

(** The info with more words for constructors and flags of the call. *)
Record moreWords (id : Z) (inf inf' : CallInfo) : Prop := {
  ex_flags : iFlags inf' = iFlags inf;
  ex_errno : iErrno inf' = iErrno inf;
  ex_signal : ∃ new, iSignal inf' = iSignal inf ++ new ∧ Forall (wordOf id) new
}.

Lemma moreWords_refl id inf : moreWords id inf inf.
Proof. split; [done|done|]. exists []. by rewrite app_nil_r. Qed.

Lemma moreWords_trans id i1 i2 i3 : moreWords id i1 i2 → moreWords id i2 i3 → moreWords id i1 i3.
Proof.
  intros [F1 E1 (n1 & S1 & W1)] [F2 E2 (n2 & S2 & W2)]. split; [congruence|congruence|]. exists (n1 ++ n2).
  rewrite S2, S1, app_assoc. split; [done|]. by apply Forall_app.
Qed.

Lemma moreWords_add id s inf : wordOf id s → moreWords id inf (addSignal s inf).
Proof. intros Hs. split; [done|done|]. exists [s]. split; [done|]. by constructor. Qed.

(** The types of the top-level arguments are known, resources have a special value. *)
Definition okArg (a : Arg) : Prop :=
  match a with
  | ResultArg i => ∃ o, h !! i = Some o ∧
      (rRes o = None → ∃ tc bf desc d, typeAt (rRef o) = Ret (ResourceType tc bf desc) ∧ index (resValues desc) 0 = Ret d)
  | ConstArg c _ => ∃ t, typeAt (aref c) = Ret t
  | _ => True
  end.
Record okCall (c : Call) : Prop := {
  oc_id : okID (ID (Meta c));
  oc_sized : sizedCall target h c;
  oc_args : Forall okArg (Args c)
}.

Lemma extract_ok a id flags inf resources : okArg a → okID id →
  ∃ flags' inf', extractArgSignal a id flags inf resources = Ret (flags', inf') ∧ moreWords id inf inf'.
Proof.
  intros Ha Hid. destruct a as [c v|c ad v r|c d s|c l|c o i t|i]; cbn [extractArgSignal];
    try (eexists _, _; split; [reflexivity|apply moreWords_refl]).
  - destruct Ha as [t ->]. eexists _, _. split; [reflexivity|apply moreWords_refl].
  - destruct Ha as (o & Ho & Hres). rewrite (deref_Some _ _ _ Ho). cbn [rbind]. destruct (rRes o) as [r|].
    + destruct (resources !! r) as [ctor|]; [|eexists _, _; split; [reflexivity|apply moreWords_refl]].
      destruct (encode_other fallbackSignalCtor id ctor Hid) as (s & -> & Hs); [by left|].
      eexists _, _. split; [reflexivity|by apply moreWords_add].
    + destruct (Hres eq_refl) as (tc & bf & desc & d & -> & Hd). cbn [rbind]. rewrite Hd.
      eexists _, _. split; [reflexivity|apply moreWords_refl].
Qed.

Lemma extractAll_ok l id resources : Forall okArg l → okID id → ∀ flags inf,
  ∃ flags' inf', for_list (λ arg '(flags, inf), extractArgSignal arg id flags inf resources) l (flags, inf) = Ret (flags', inf') ∧ moreWords id inf inf'.
Proof.
  intros Hl Hid. induction Hl as [|a l Ha Hl IH]; intros flags inf; [eexists _, _; split; [reflexivity|apply moreWords_refl]|].
  cbn [for_list]. destruct (extract_ok a id flags inf resources Ha Hid) as (f1 & i1 & -> & E1). cbn [rbind].
  destruct (IH f1 i1) as (f2 & i2 & -> & E2). eexists _, _. split; [reflexivity|by eapply moreWords_trans].
Qed.

(** The info of a call that was executed, with the word for its error before the others. *)
Record signalled (id : Z) (inf inf' : CallInfo) : Prop := {
  sg_flags : iFlags inf' = iFlags inf;
  sg_errno : iErrno inf' = iErrno inf;
  sg_signal : ∃ s new, iSignal inf' = iSignal inf ++ s :: new ∧ DecodeFallbackSignal s = Ret (id, iErrno inf `mod` 256) ∧
    Forall (wordOf id) new
}.

Lemma signalled_intro id s inf inf' : DecodeFallbackSignal s = Ret (id, iErrno inf `mod` 256) →
  moreWords id (addSignal s inf) inf' → signalled id inf inf'.
Proof.
  intros Hs [F E (new & S & W)]. split; [exact F|exact E|]. exists s, new. split; [|done].
  rewrite S. cbn. by rewrite <-app_assoc.
Qed.

Lemma callSignal_ok c inf resources : okCall c →
  ∃ inf' resources' stop, callSignal c inf resources = Ret (inf', resources', stop) ∧ signalled (ID (Meta c)) inf inf' ∧
    stop = BreaksReturns (Attrs (Meta c)).
Proof.
  intros [Hid Hsz Hargs]. unfold callSignal. set (id := ID (Meta c)) in *. set (typ := if decide _ then _ else _).
  destruct (encode_errno typ id (iErrno inf) Hid) as (s & -> & Hs). { unfold typ. case_decide; [by right|by left]. }
  cbn [rbind]. pose proof (λ inf1, signalled_intro id s inf inf1 Hs) as Hsg.
  destruct (BreaksReturns _); [eexists _, _, _; split; [reflexivity|]; split; [apply Hsg, moreWords_refl|done]|].
  case_decide; [eexists _, _, _; split; [reflexivity|]; split; [apply Hsg, moreWords_refl|done]|].
  rewrite (ForeachArg_results target h c (λ i r, Ret (<[i := id]> r)) resources Hsz).
  assert (∀ l r, ∃ r', for_list (λ i (r : gmap positive Z), Ret (<[i := id]> r)) l r = Ret r') as Htot
    by (induction l as [|i l IH]; intros r; cbn; eauto).
  destruct (Htot (option_list (Ret_ c) ++ concat (results <$> Args c)) resources) as [r' ->]. cbn [rbind].
  destruct (extractAll_ok (Args c) id r' Hargs Hid 0 (addSignal s inf)) as (flags & inf2 & -> & H2). cbn [rbind].
  case_decide; cbn [rbind]; [|eexists _, _, _; split; [reflexivity|]; split; [by apply Hsg|done]].
  destruct (encode_other fallbackSignalFlags id flags Hid) as (s3 & -> & Hs3); [by right|]. cbn [rbind].
  eexists _, _, _. split; [reflexivity|]. split; [|done]. eapply Hsg, moreWords_trans; [exact H2|by apply moreWords_add].
Qed.

End target.

Definition executed (inf : CallInfo) : Prop := Z.land (iFlags inf) CallExecuted ≠ 0.

(** The call was executed, and no call before it that was executed breaks the returns. *)
Definition live (calls : list Call) (info : list CallInfo) (i : nat) (inf : CallInfo) : Prop :=
  executed inf ∧ ∀ j c infj, (j < i)%nat → calls !! j = Some c → info !! j = Some infj → executed infj →
    BreaksReturns (Attrs (Meta c)) = false.

Lemma live_here c calls inf info : executed inf → live (c :: calls) (inf :: info) 0 inf.
Proof. intros He. split; [done|lia]. Qed.

Lemma live_S c calls inf0 info i inf : ¬ executed inf0 ∨ BreaksReturns (Attrs (Meta c)) = false →
  live (c :: calls) (inf0 :: info) (S i) inf ↔ live calls info i inf.
Proof.
  intros H0. unfold live. split; intros [He Hb]; (split; [exact He|]).
  - intros j cj infj Hj. apply (Hb (S j) cj infj). lia.
  - intros [|j] cj infj Hj Hc Hi Hx; cbn in Hc, Hi; [|apply (Hb j cj infj); [lia|done..]].
    injection Hc as ->. injection Hi as ->. destruct H0 as [H0|H0]; [done|exact H0].
Qed.

Lemma not_live_S c calls inf0 info i inf : executed inf0 → BreaksReturns (Attrs (Meta c)) = true →
  ¬ live (c :: calls) (inf0 :: info) (S i) inf.
Proof. intros Hx Hb [_ H]. specialize (H 0%nat c inf0 ltac:(lia) eq_refl eq_refl Hx). congruence. Qed.

(** C27. Fallback signal is well defined and can be read back: for calls whose numbers fit,
    with an info for each, every executed call up to the first executed one that breaks the
    returns gets a word that decodes to its number and to its error, truncated to eight bits,
    followed by words that decode to its number and to no error; all other infos stay as they are. *)
Theorem fallback_decodes target h calls info resources :
  Forall (okCall target h) calls → (length calls ≤ length info)%nat →
  ∃ info', FallbackSignal target h calls info resources = Ret info' ∧ length info' = length info ∧
    ∀ i inf inf', info !! i = Some inf → info' !! i = Some inf' →
      (∃ c, calls !! i = Some c ∧ live calls info i inf ∧ signalled (ID (Meta c)) inf inf') ∨
      (calls !! i = None ∨ ¬ live calls info i inf) ∧ inf' = inf.
Proof.
  intros Hok. revert info resources. induction Hok as [|c calls Hc Hok IH]; intros info resources Hlen; cbn [length] in Hlen.
  { exists info. split; [by destruct info|]. split; [done|]. intros i inf inf' -> [= ->]. right. split; [by left|done]. }
  destruct info as [|inf0 info]; [cbn [length] in Hlen; lia|]. cbn [length FallbackSignal] in *. case_decide as Hex.
  - destruct (IH info resources ltac:(lia)) as (info' & -> & Hl & Hall). exists (inf0 :: info'). split; [done|]. split; [cbn; lia|].
    intros [|i] inf inf' Hi Hi'; cbn in Hi, Hi'.
    { right. split; [right; intros [He _]|]; congruence. }
    setoid_rewrite (live_S c calls inf0 info i inf (or_introl (λ Hn, Hn Hex))). by apply Hall.
  - destruct (callSignal_ok target h c inf0 resources Hc) as (inf1 & res1 & stop & -> & Hs & ->). cbn [rbind].
    destruct (BreaksReturns _) eqn:Hb.
    + exists (inf1 :: info). split; [done|]. split; [done|]. intros [|i] inf inf' Hi Hi'; cbn in Hi, Hi'.
      { left. exists c. injection Hi as <-. injection Hi' as <-. split; [done|]. split; [by apply live_here|done]. }
      right. split; [right; by apply not_live_S|congruence].
    + destruct (IH info res1 ltac:(lia)) as (info' & -> & Hl & Hall). exists (inf1 :: info'). split; [done|]. split; [cbn; lia|].
      intros [|i] inf inf' Hi Hi'; cbn in Hi, Hi'.
      { left. exists c. injection Hi as <-. injection Hi' as <-. split; [done|]. split; [by apply live_here|done]. }
      setoid_rewrite (live_S c calls inf0 info i inf (or_intror Hb)). by apply Hall.
Qed.

(** [open] succeeded and [write] failed with the error 300. *)
Definition exampleInfo : list CallInfo := [MkInfo 3 0 []; MkInfo 3 300 []].

Lemma example_sized c : c ∈ ExampleTarget.calls → sizedCall ExampleTarget.target ExampleTarget.heap0 c.
Proof.
  intros Hc a x Ha Hx. apply (wp_sized _ _ _ exampleProg_wf c a x Hc); [|exact Hx].
  unfold callArgs in Ha. rewrite elem_of_app in Ha |- *. tauto.
Qed.

Lemma fallback_decodes_witness :
  ∃ info', FallbackSignal ExampleTarget.target ExampleTarget.heap0 ExampleTarget.calls exampleInfo ∅ = Ret info' ∧ length info' = 2%nat.
Proof.
  destruct (fallback_decodes ExampleTarget.target ExampleTarget.heap0 ExampleTarget.calls exampleInfo ∅) as (info' & E & Hl & _).
  - constructor; [|constructor; [|constructor]].
    + split; [by vm_compute| |constructor]. apply example_sized, list_elem_of_here.
    + split; [by vm_compute| |]. { apply example_sized. apply list_elem_of_further, list_elem_of_here. }
      constructor; [|constructor; [done|constructor; [done|constructor]]]. eexists. split; [reflexivity|]. discriminate.
  - cbn. lia.
  - exists info'. split; [exact E|exact Hl].
Defined.

Example example_fallback :
  FallbackSignal ExampleTarget.target ExampleTarget.heap0 ExampleTarget.calls exampleInfo ∅ =
    Ret [MkInfo 3 0 [0]; MkInfo 3 300 [8 + 44 * 2 ^ 24]].
Proof. vm_compute. reflexivity. Qed.

End Fallback.
