(* ===== verification/TextPrint.v ===== *)
(** * TextPrint: printing programs in the text format (prog/encoding.go)

    [Prog.serialize] with its two modes: [verbose] prints everything, otherwise default
    values at the end of structs, pointees and options are left out.  Texts are lists of
    bytes; the results of the program are in a heap, which printing only reads. *)

From S2P Require Import Prelude Bytes Types Prog ExampleTarget Expr Text.
From Stdlib Require Import Ascii.
Import Bytes Types Prog Expr Text.

Module TextPrint.

(** The serializer; [svars] are the numbers of the variables given out so far. *)
Record serializer := MkSer { sbuf : list Z; svars : gmap positive Z; varSeq : Z }.

Definition printf (text : list Z) (ctx : serializer) : serializer :=
  MkSer (sbuf ctx ++ text) (svars ctx) (varSeq ctx).

Definition allocVarID (arg : positive) (ctx : serializer) : Z * serializer :=
  (varSeq ctx, MkSer (sbuf ctx) (<[arg := varSeq ctx]> (svars ctx)) (varSeq ctx + 1)).

(** ["%v"] and ["%d"] of an [int] *)
Definition printInt (n : Z) : list Z := if decide (n < 0) then chr "-" :: printDec (- n) else printDec n.

(** The name of a variable, ["r%v"]. *)
Definition varName (id : Z) : list Z := chr "r" :: printInt id.

Section target.
Context (target : Target) (h : heap) (EncodeB64 : list Z → list Z) (verbose : bool).

Notation typeAt := (typeAt (typeRefs target)).

(** [DataArg.serialize] *)
Definition serializeDataArg (c : ArgCommon) (data : list Z) (size : Z) (ctx : serializer) : res serializer :=
  let! t := typeAt (aref c) in
  match t with
  | BufferType _ desc =>
    if decide (adir c = DirOut) then
      let! sz := Prog.Size target h (DataArg c data size) in Ret (printf ([34; 34; chr "/"] ++ printDec sz) ctx)
    else if IsCompressed desc then
      Ret (MkSer (serializeCompressedData EncodeB64 (sbuf ctx) data) (svars ctx) (varSeq ctx))
    else
      let sz := Z.of_nat (length data) in
      let short := stripZeros data in
      let short := if Varlen t && bool_decide (sz ≤ Z.of_nat (length short) + 8) then data else short in
      let! buf := serializeData (sbuf ctx) short (isReadableDataType desc) in
      let ctx := MkSer buf (svars ctx) (varSeq ctx) in
      Ret (if Varlen t && bool_decide (sz ≠ Z.of_nat (length short)) then printf (chr "/" :: printInt sz) ctx else ctx)
  | _ => Panic "interface conversion: not a *BufferType"
  end.

(** [ResultArg.serialize] *)
Definition serializeResult (i : positive) (ctx : serializer) : res serializer :=
  let! o := deref h i in
  let ctx :=
    if decide (uses o ≠ ∅) then
      let (id, ctx) := allocVarID i ctx in printf (chr "<" :: varName id ++ str "=>") ctx
    else ctx in
  match rRes o with
  | None => Ret (printf (printHex (rVal o)) ctx)
  | Some r =>
    match svars ctx !! r with
    | None => Panic "no result"
    | Some id =>
      let ctx := printf (varName id) ctx in
      let ctx := if decide (OpDiv o ≠ 0) then printf (chr "/" :: printDec (OpDiv o)) ctx else ctx in
      Ret (if decide (OpAdd o ≠ 0) then printf (chr "+" :: printDec (OpAdd o)) ctx else ctx)
    end
  end.

(** The number of elements of a group that are printed: [lastNonDefault + 1]. *)
Fixpoint dropDefaults (rev : list Arg) : res nat :=
  match rev with
  | [] => Ret 0%nat
  | a :: rev => let! d := isDefault target h a in if (d : bool) then dropDefaults rev else Ret (S (length rev))
  end.
Definition shownCount (t : Typ) (inner : list Arg) : res nat :=
  let! fixed := if verbose then Ret false else fixedInnerSize t in
  if (fixed : bool) then dropDefaults (reverse inner) else Ret (length inner).

(** The loop over the elements of a group or over the arguments of a call, from the element
    number [i] on; [shown] elements are printed. *)
Definition printList (f : Arg → serializer → res serializer) (shown : nat) :
    nat → list Arg → serializer → res serializer :=
  fix go i l ctx :=
    match l with
    | [] => Ret ctx
    | a :: l =>
      if decide (i < shown)%nat then
        let! t := argType target h a in
        if IsPad t then go (S i) l ctx
        else
          let ctx := if decide (i ≠ 0%nat) then printf (str ", ") ctx else ctx in
          let! ctx := f a ctx in go (S i) l ctx
      else Ret ctx
    end.

(** The [serialize] methods of the arguments. *)
Fixpoint serializeArg (arg : Arg) (ctx : serializer) : res serializer :=
  match arg with
  | ConstArg _ val => Ret (printf (printHex val) ctx)
  | PointerArg c addr vmaSize pointee =>
    if isSpecial addr vmaSize pointee then Ret (printf (printHex addr) ctx)
    else
      let ctx := printf (chr "&" :: serializeAddr addr vmaSize) ctx in
      let! any := isAnyPtrRef target (aref c) in
      let! omit :=
        match pointee with
        | Some p => if verbose then Ret false else let! d := isDefault target h p in Ret (d && negb any)
        | None => Ret false
        end in
      if (omit : bool) then Ret ctx
      else
        let ctx := printf (str "=") ctx in
        let ctx := if (any : bool) then printf (str "ANY=") ctx else ctx in
        match pointee with
        | None => Ret (printf (str "nil") ctx)
        | Some p => serializeArg p ctx
        end
  | DataArg c data size => serializeDataArg c data size ctx
  | GroupArg c inner =>
    let! t := typeAt (aref c) in
    let! '(op, cl) :=
      match t with
      | StructType _ _ _ _ => Ret (chr "{", chr "}")
      | ArrayType _ _ _ _ _ => Ret (chr "[", chr "]")
      | _ => Panic "unknown group type"
      end in
    let! shown := shownCount t inner in
    let! ctx := printList serializeArg shown 0 inner (printf [op] ctx) in
    Ret (printf [cl] ctx)
  | UnionArg c opt idx _ =>
    let! t := typeAt (aref c) in
    match t with
    | UnionType _ fields =>
      let! f := index fields idx in
      let ctx := printf (chr "@" :: str (fieldName f)) ctx in
      let! omit := if verbose then Ret false else isDefault target h opt in
      if (omit : bool) then Ret ctx else serializeArg opt (printf (str "=") ctx)
    | _ => Panic "interface conversion: not a *UnionType"
    end
  | ResultArg i => serializeResult i ctx
  end.

(** The properties of a call that are not zero, with their keys, in the order of
    [CallProps.ForeachProp]. *)
Definition changedProps (p : CallProps) : list (list Z) :=
  (if decide (FailNth p ≠ 0) then [str "fail_nth: " ++ printInt (FailNth p)] else []) ++
  (if Async p then [str "async"] else []) ++
  (if decide (Rerun p ≠ 0) then [str "rerun: " ++ printInt (Rerun p)] else []).

(** [serializer.call] *)
Definition serializeCall (c : Call) (ctx : serializer) : res serializer :=
  let! ctx :=
    match Ret_ c with
    | None => Ret ctx
    | Some i =>
      let! o := deref h i in
      Ret (if decide (uses o ≠ ∅) then let (id, ctx) := allocVarID i ctx in printf (varName id ++ str " = ") ctx else ctx)
    end in
  let ctx := printf (str (sysName (Meta c)) ++ str "(") ctx in
  let! ctx := printList serializeArg (length (Args c)) 0 (Args c) ctx in
  let ctx := printf (str ")") ctx in
  let ctx :=
    match changedProps (Props c) with
    | [] => ctx
    | p :: ps => printf (str " (" ++ p ++ concat ((λ p, str ", " ++ p) <$> ps) ++ str ")") ctx
    end in
  Ret (printf [10] ctx).

(** [Prog.serialize] *)
Definition serialize (calls : list Call) : res (list Z) :=
  let! ctx := for_list serializeCall calls (MkSer [] ∅ 0) in Ret (sbuf ctx).

End target.

(** [Prog.String] *)
Definition String (calls : list Call) : list Z :=
  match calls with
  | [] => []
  | c :: calls => str (sysName (Meta c)) ++ concat ((λ c, chr "-" :: str (sysName (Meta c))) <$> calls)
  end.

(** [Prog.Serialize] and [Prog.SerializeVerbose] *)
Definition Serialize target h EncodeB64 calls := serialize target h EncodeB64 false calls.
Definition SerializeVerbose target h EncodeB64 calls := serialize target h EncodeB64 true calls.

(** [r0 = open()] and [write(r0, &(0x7f0000000000)={0x3, "616263"}, ...) (async)] *)
Example example_print :
  Serialize ExampleTarget.target ExampleTarget.heap0 id ExampleTarget.calls =
  Ret (str "r0 = open()" ++ [10] ++ str "write(r0, &(0x7f0000000000)={0x3, 'abc'}, &(0x7f0000000040)) (async)" ++ [10]).
Proof. vm_compute. reflexivity. Qed.

End TextPrint.
