(* ===== verification/TextParse.v ===== *)
(** * TextParse: parsing programs in the text format (prog/encoding.go)

    The grammar on top of the lexical level of [Text].  Functions of the code that return an
    error yield a left injection for it, besides the error that the parser itself remembers.
    A parsed [nil] argument is [None].

    Recursion follows the text: every level of nesting and every turn of a loop reads at
    least a character of the line, so the length of the line bounds them.  [dfuel] bounds
    the depth of the types for default values and [AUTO]. *)

From S2P Require Import Prelude Alloc Bytes Types Prog ExampleTarget ProgEdit Clone Size Expr Validation Analysis Conditions Text Squash.
From Stdlib Require Import Ascii.
Import Types Prog Expr Validation Text.

Module TextParse.

(** ** Comments *)

(** The encodings of the characters that [unicode.IsSpace] accepts. *)
Definition spaces : list (list Z) :=
  [[9]; [10]; [11]; [12]; [13]; [32]; [0xC2; 0x85]; [0xC2; 0xA0]; [0xE1; 0x9A; 0x80]] ++
  ((λ b, [0xE2; 0x80; b]) <$> seqZ 0x80 11) ++
  [[0xE2; 0x80; 0xA8]; [0xE2; 0x80; 0xA9]; [0xE2; 0x80; 0xAF]; [0xE2; 0x81; 0x9F]; [0xE3; 0x80; 0x80]].

Fixpoint trimPrefix (fuel : nat) (ws : list (list Z)) (l : list Z) : list Z :=
  match fuel with
  | O => l
  | S fuel =>
    match list_find (λ w, take (length w) l = w) ws with
    | Some (_, w) => trimPrefix fuel ws (drop (length w) l)
    | None => l
    end
  end.

(** [strings.TrimSpace] *)
Definition TrimSpace (l : list Z) : list Z :=
  let l := trimPrefix (length l) spaces l in
  reverse (trimPrefix (length l) (reverse <$> spaces) (reverse l)).

Definition toString (l : list Z) : string := String.string_of_list_ascii ((λ b, ascii_of_N (Z.to_N b)) <$> l).

(** ** The state *)

Record pst := MkPst {
  lex : parser;
  pvars : gmap (list Z) positive;
  pautos : option (gset positive);
  pcomment : string;
  pdata : list Z;
  pmem : mem
}.

Definition setLex (l : parser) (p : pst) : pst := MkPst l (pvars p) (pautos p) (pcomment p) (pdata p) (pmem p).
Definition setVar (name : list Z) (i : positive) (p : pst) : pst :=
  MkPst (lex p) (<[name := i]> (pvars p)) (pautos p) (pcomment p) (pdata p) (pmem p).
Definition setComment (c : string) (p : pst) : pst := MkPst (lex p) (pvars p) (pautos p) c (pdata p) (pmem p).
Definition setMem (m : mem) (p : pst) : pst := MkPst (lex p) (pvars p) (pautos p) (pcomment p) (pdata p) m.

(** The lexical operations. *)
Definition pEOF (p : pst) : bool := EOF (lex p).
Definition pErr (p : pst) : bool := match perr (lex p) with Some _ => true | None => false end.
Definition pChar (p : pst) : Z * pst := let (c, l) := Char (lex p) in (c, setLex l p).
Definition pParse (ch : Z) (p : pst) : pst := setLex (Parse (lex p) ch) p.
Definition pIdent (p : pst) : list Z * pst := let (w, l) := Ident (lex p) in (w, setLex l p).
Definition pStrictFail (msg : string) (p : pst) : pst := setLex (strictFailf (lex p) msg) p.
Definition pParseAll (s : string) (p : pst) : pst := foldl (λ p ch, pParse ch p) p (str s).

(** Results of functions that may also return an error. *)
Notation result A := (res ((string + A) * pst)) (only parsing).
Definition fails {A} (e : string) (p : pst) : result A := Ret (inl e, p).
Definition gives {A} (x : A) (p : pst) : result A := Ret (inr x, p).

(** [x, err := m; if err != nil { return nil, err }] *)
Definition onOk {A B} (m : result A) (k : A → pst → result B) : result B :=
  let! '(r, p) := m in match r with inl e => fails e p | inr x => k x p end.
Notation "'let?' ' ( x , p ) := m 'in' k" := (onOk m (λ x p, k))
  (at level 200, x binder, p name, m at level 100, k at level 200, right associativity).

(** [p.auto(arg)] *)
Definition auto (i : positive) (p : pst) : pst :=
  MkPst (lex p) (pvars p) (Some ({[i]} ∪ default ∅ (pautos p))) (pcomment p) (pdata p) (pmem p).

(** ** Skipping *)

(** A quoted string inside of what is skipped, up to the closing quote. *)
Fixpoint eatQuoted (fuel : nat) (ch : Z) (p : pst) : res pst :=
  match fuel with
  | O => OutOfFuel
  | S fuel =>
    if pEOF p then Ret p
    else
      let (c, p) := pChar p in
      if decide (c = ch) then Ret p else let (c, p) := pChar p in eatQuoted fuel ch (pParse c p)
  end.

Fixpoint eatLoop (fuel : nat) (stopAtComma : bool) (paren brack brace : Z) (p : pst) : res pst :=
  match fuel with
  | O => OutOfFuel
  | S fuel =>
    if pEOF p || pErr p then Ret p
    else
      let (ch, p) := pChar p in
      let eat := eatLoop fuel stopAtComma in
      if decide (ch = chr "(") then eat (paren + 1) brack brace (pParse ch p)
      else if decide (ch = chr ")") then
        if decide (paren = 0) then Ret p else eat (paren - 1) brack brace (pParse ch p)
      else if decide (ch = chr "[") then eat paren (brack + 1) brace (pParse ch p)
      else if decide (ch = chr "]") then
        if decide (brack = 0) then Ret p else eat paren (brack - 1) brace (pParse ch p)
      else if decide (ch = chr "{") then eat paren brack (brace + 1) (pParse ch p)
      else if decide (ch = chr "}") then
        if decide (brace = 0) then Ret p else eat paren brack (brace - 1) (pParse ch p)
      else if decide (ch = chr ",") then
        if stopAtComma && bool_decide (paren = 0 ∧ brack = 0 ∧ brace = 0) then Ret p
        else eat paren brack brace (pParse ch p)
      else if decide (ch = 39 ∨ ch = 34) then
        let! p := eatQuoted fuel ch (pParse ch p) in
        if pEOF p then Ret p else eat paren brack brace (pParse ch p)
      else eat paren brack brace (pParse ch p)
  end.

Definition eatExcessive (stopAtComma : bool) (what : string) (p : pst) : res pst :=
  let p := pStrictFail what p in
  eatLoop (S (length (rest (lex p)))) stopAtComma 0 0 0 p.

Section target.
Context (target : Target) (dfuel : nat).
Context (DecodeB64 : list Z → option (list Z)) (DecompressCheck : list Z → bool) (Compress : list Z → list Z).

Notation typeAt := (typeAt (typeRefs target)).

(** Building an argument. *)
Definition making (f : mem → res (Arg * mem)) (p : pst) : result (option Arg) :=
  let! '(a, m) := f (pmem p) in gives (Some a) (setMem m p).
Definition defaults (t : Typ) (dir : Dir) (p : pst) : result (option Arg) :=
  making (DefaultArg target dfuel t dir) p.
(** [p.eatExcessive(true, what); return typ.DefaultArg(dir), nil] *)
Definition excessive (what : string) (t : Typ) (dir : Dir) (p : pst) : result (option Arg) :=
  let! p := eatExcessive true what p in defaults t dir p.

(** ** Arguments *)

Definition parseArgInt (t : Typ) (dir : Dir) (p : pst) : result (option Arg) :=
  let (val, p) := pIdent p in
  match ParseUint val with
  | None => fails "wrong arg value" p
  | Some v =>
    match t with
    | ConstType _ _ _ | IntType _ _ _ _ _ | FlagsType _ _ _ | ProcType _ _ _ | CsumType _ _ _ _ =>
      let! '(arg, m) := MakeConstArg t dir v (pmem p) in
      let p := setMem m p in
      let! bad :=
        if decide (dir = DirOut) then let! d := isDefault target (mHeap m) arg in Ret (negb d) else Ret false in
      if (bad : bool) then defaults t dir (pStrictFail "out arg has non-default value" p)
      else gives (Some arg) p
    | LenType _ _ _ _ => making (MakeConstArg t dir v) p
    | ResourceType _ _ _ => making (λ m, let! '(i, m) := MakeResultArg t dir None v m in Ret (ResultArg i, m)) p
    | PtrType _ _ _ | VmaType _ _ _ =>
      let n := Z.of_nat (length (SpecialPointers target)) in
      if decide (n = 0) then Panic "integer divide by zero"
      else making (MakeSpecialPointerArg t dir ((0 -! v) `mod` n)) p
    | _ => excessive "wrong int arg" t dir p
    end
  end.

Fixpoint parseAuto (fuel : nat) (t : Typ) (dir : Dir) (p : pst) : result (option Arg) :=
  match fuel with
  | O => OutOfFuel
  | S fuel =>
    match t with
    | ConstType _ _ _ | LenType _ _ _ _ | CsumType _ _ _ _ =>
      let! '(arg, m) := MakeConstArg t dir 0 (pmem p) in gives (Some arg) (auto (argIdOf arg) (setMem m p))
    | StructType _ fields _ _ =>
      let? '(inner, p) :=
        (fix go fields inner p : result (list Arg) :=
           match fields with
           | [] => gives inner p
           | f :: fields =>
             let! tf := typeAt (fieldType f) in
             let? '(a, p) := parseAuto fuel tf dir p in
             match a with Some a => go fields (inner ++ [a]) p | None => Panic "nil pointer dereference" end
           end) fields [] p in
      making (MakeGroupArg t dir inner) p
    | _ => fails "wrong type for AUTO" p
    end
  end.

(** ["/"] or ["+"] and a number; 0 if the character is another one. *)
Definition parseOp (ch : Z) (p : pst) : result Z :=
  let (c, p) := pChar p in
  if decide (c = ch) then
    let (op, p) := pIdent (pParse ch p) in
    match ParseUint op with None => fails "wrong result op" p | Some v => gives v p end
  else gives 0 p.

Definition parseArgRes (t : Typ) (dir : Dir) (p : pst) : result (option Arg) :=
  let (id, p) := pIdent p in
  let? '(div, p) := parseOp (chr "/") p in
  let? '(add, p) := parseOp (chr "+") p in
  match pvars p !! id with
  | None => defaults t dir (pStrictFail "undeclared variable" p)
  | Some v =>
    let! '(i, m) := MakeResultArg t dir (Some v) 0 (pmem p) in
    let! o := deref (mHeap m) i in
    let o := MkResult (rRef o) (rDir o) (rRes o) div add (rVal o) (uses o) in
    gives (Some (ResultArg i)) (setMem (Mem (<[i := o]> (mHeap m)) (mNext m)) p)
  end.

Definition matchesValues (desc : BufferDesc) (data : list Z) : bool :=
  match bufValues desc with
  | [] => true
  | v :: _ =>
    negb (bool_decide (bufKind desc = BufferString ∨ bufKind desc = BufferGlob)) ||
    bool_decide (take 13 v = str "AUTOGENERATED") || bool_decide (data ∈ bufValues desc)
  end.

(** The size behind a string; the largest number stands for no size. *)
Definition parseBufSize (b64 : bool) (p : pst) : result Z :=
  let (c, p) := pChar p in
  if bool_decide (c = chr "/") && negb b64 then
    let (s, p) := pIdent (pParse (chr "/") p) in
    match ParseUint s with
    | None => fails "failed to parse buffer size" p
    | Some size =>
      let maxMem := NumPages target *! PageSize target in
      if decide (maxMem < size) then gives maxMem (pStrictFail "too large string argument" p) else gives size p
    end
  else gives (2 ^ 64 - 1) p.

Definition parseArgString (t : Typ) (dir : Dir) (p : pst) : result (option Arg) :=
  match t with
  | BufferType _ desc =>
    let (r, l) := deserializeData DecodeB64 (lex p) in
    let p := setLex l p in
    match r with
    | inl e => fails e p
    | inr (data, b64) =>
      let '(data, p) :=
        if IsCompressed desc && negb (DecompressCheck data) then
          (Compress [], pStrictFail "invalid compressed data in arg" p)
        else (data, p) in
      let? '(size, p) := parseBufSize b64 p in
      let! size :=
        if negb (Varlen t) then Types.Size t
        else Ret (if decide (size = 2 ^ 64 - 1) then Z.of_nat (length data) else size) in
      if decide (dir = DirOut) then making (MakeOutDataArg t dir size) p
      else
        let diff := wrapS 64 size - Z.of_nat (length data) in
        let data := if decide (0 < diff) then data ++ replicate (Z.to_nat diff) 0 else data in
        if decide (size ≤ Z.of_nat (length data)) then
          let data := take (Z.to_nat size) data in
          if matchesValues desc data then making (MakeDataArg t dir data) p
          else
            let! v := index (bufValues desc) 0 in
            making (MakeDataArg t dir v) (pStrictFail "bad string value" p)
        else Panic "slice bounds out of range"
    end
  | _ => excessive "wrong string arg" t dir p
  end.

(** [rec] is [parseArg]. *)
Section rec.
Context (rec : option Typ → Dir → pst → result (option Arg)).

(** The address, or AUTO. *)
Definition parsePtrAddr (isPtr : bool) (p : pst) : result (bool * Z * Z) :=
  let (c, p) := pChar p in
  if decide (c = chr "A") then
    let p := pParseAll "AUTO" p in
    if isPtr then gives (true, 0, 0) p else fails "vma type can't be AUTO" p
  else
    let (r, l) := parseAddr target (lex p) in
    let p := setLex l p in
    match r with inl e => fails e p | inr (addr, vmaSize) => gives (false, addr, vmaSize) p end.

(** The pointee: the type of the pointer, which [ANY] changes, the type of the pointee and the
    argument. *)
Definition parsePointee (t : Typ) (elem : option Ref) (elemDir : Dir) (p : pst) :
    result (Typ * option Ref * Dir * option Arg) :=
  let (c, p) := pChar p in
  if decide (c = chr "=") then
    let p := pParse (chr "=") p in
    let! '(t, elem, elemDir, p) :=
      if HasNext (lex p) (str "ANY") then
        let p := pParseAll "ANY=" p in
        let! sz := Types.Size t in
        let! anyPtr := Squash.getAnyPtrType target sz in
        match anyPtr with
        | PtrType _ elem ed => Ret (anyPtr, Some elem, ed, p)
        | _ => Panic "interface conversion: not a *PtrType"
        end
      else Ret (t, elem, elemDir, p) in
    let! te := match elem with Some r => let! te := typeAt r in Ret (Some te) | None => Ret None end in
    let? '(inner, p) := rec te elemDir p in
    gives (t, elem, elemDir, inner) p
  else gives (t, elem, elemDir, None) p.

Definition parseArgAddr (t : Typ) (dir : Dir) (p : pst) : result (option Arg) :=
  let go (elem : option Ref) (elemDir : Dir) : result (option Arg) :=
    let p := pParse (chr "&") p in
    let? '(r, p) := parsePtrAddr (match elem with Some _ => true | None => false end) p in
    let '(isAuto, addr, vmaSize) := r in
    let? '(r, p) := parsePointee t elem elemDir p in
    let '(t, elem, elemDir, inner) := r in
    match elem with
    | None =>
      if decide (PageSize target = 0) then Panic "integer divide by zero"
      else
        let bad := bool_decide (addr `mod` PageSize target ≠ 0) in
        let p := if bad then pStrictFail "unaligned vma address" p else p in
        let addr := if bad then Z.land addr (not64 (PageSize target -! 1)) else addr in
        making (MakeVmaPointerArg t dir addr vmaSize) p
    | Some elem =>
      let! te := typeAt elem in
      let? '(inner, p) := match inner with Some a => gives (Some a) p | None => defaults te elemDir p end in
      match inner with
      | None => Panic "nil pointer data arg"
      | Some inner =>
        let! '(arg, m) := MakePointerArg t dir addr inner (pmem p) in
        let p := setMem m p in
        gives (Some arg) (if (isAuto : bool) then auto (argIdOf arg) p else p)
      end
    end in
  match t with
  | PtrType _ elem elemDir => go (Some elem) elemDir
  | VmaType _ _ _ => go None DirInOut
  | _ => excessive "wrong addr arg" t dir p
  end.

(** The fields up to the closing brace. *)
Fixpoint structLoop (fields : list Field) (dir : Dir) (inner : list (option Arg)) (p : pst) :
    result (list (option Arg) * list Field) :=
  let (c, p) := pChar p in
  if decide (c = chr "}") then gives (inner, fields) p
  else
    match fields with
    | [] => let! p := eatExcessive false "excessive struct fields" p in gives (inner, []) p
    | f :: fields =>
      let! tf := typeAt (fieldType f) in
      if IsPad tf then
        let? '(a, p) := making (MakeConstArg tf (fieldDir f dir) 0) p in structLoop fields dir (inner ++ [a]) p
      else
        let? '(a, p) := rec (Some tf) (fieldDir f dir) p in
        let (c, p) := pChar p in
        let p := if decide (c ≠ chr "}") then pParse (chr ",") p else p in
        structLoop fields dir (inner ++ [a]) p
    end.

(** The missing fields. *)
Fixpoint missingFields (fields : list Field) (dir : Dir) (inner : list (option Arg)) (p : pst) : result (list (option Arg)) :=
  match fields with
  | [] => gives inner p
  | f :: fields =>
    let! tf := typeAt (fieldType f) in
    let p := if IsPad tf then p else pStrictFail "missing struct fields" p in
    let? '(a, p) := defaults tf (fieldDir f dir) p in
    missingFields fields dir (inner ++ [a]) p
  end.

(** Arguments that are not [nil]. *)
Definition present (l : list (option Arg)) : res (list Arg) :=
  foldr (λ a acc, let! acc := acc in match a with Some a => Ret (a :: acc) | None => Panic "nil argument" end) (Ret []) l.

Definition parseArgStruct (t : Typ) (dir : Dir) (p : pst) : result (option Arg) :=
  let p := pParse (chr "{") p in
  match t with
  | StructType _ fields _ _ =>
    let? '(r, p) := structLoop fields dir [] p in
    let '(inner, unread) := r in
    let p := pParse (chr "}") p in
    let? '(inner, p) := missingFields unread dir inner p in
    let! inner := present inner in
    making (MakeGroupArg t dir inner) p
  | _ =>
    let! p := eatExcessive false "wrong struct arg" p in
    defaults t dir (pParse (chr "}") p)
  end.

Fixpoint arrayLoop (fuel : nat) (te : Typ) (dir : Dir) (inner : list (option Arg)) (p : pst) : result (list (option Arg)) :=
  match fuel with
  | O => OutOfFuel
  | S fuel =>
    let (c, p) := pChar p in
    if decide (c = chr "]") then gives inner p
    else
      let? '(a, p) := rec (Some te) dir p in
      let (c, p) := pChar p in
      let p := if decide (c ≠ chr "]") then pParse (chr ",") p else p in
      arrayLoop fuel te dir (inner ++ [a]) p
  end.

Definition parseArgArray (fuel : nat) (t : Typ) (dir : Dir) (p : pst) : result (option Arg) :=
  let p := pParse (chr "[") p in
  match t with
  | ArrayType _ elem kind rangeBegin rangeEnd =>
    let! te := typeAt elem in
    let? '(inner, p) := arrayLoop fuel te dir [] p in
    let p := pParse (chr "]") p in
    let? '(inner, p) :=
      if decide (kind = ArrayRangeLen ∧ rangeBegin = rangeEnd) then
        let? '(inner, p) :=
          (fix go (n : nat) inner p : result (list (option Arg)) :=
             match n with
             | O => gives inner p
             | S n => let? '(a, p) := defaults te dir (pStrictFail "missing array elements" p) in go n (inner ++ [a]) p
             end) (Z.to_nat rangeBegin - length inner)%nat inner p in
        gives (take (Z.to_nat rangeBegin) inner) p
      else gives inner p in
    let! inner := present inner in
    making (MakeGroupArg t dir inner) p
  | _ =>
    let! p := eatExcessive false "wrong array arg" p in
    defaults t dir (pParse (chr "]") p)
  end.

Definition parseArgUnion (t : Typ) (dir : Dir) (p : pst) : result (option Arg) :=
  match t with
  | UnionType _ fields =>
    let (name, p) := pIdent (pParse (chr "@") p) in
    match list_find (λ f, str (fieldName f) = name) fields with
    | None => excessive "wrong option of union" t dir p
    | Some (idx, f) =>
      let! tf := typeAt (fieldType f) in
      let (c, p) := pChar p in
      let? '(opt, p) :=
        if decide (c = chr "=") then rec (Some tf) (fieldDir f dir) (pParse (chr "=") p)
        else defaults tf (fieldDir f dir) p in
      match opt with
      | None => Panic "nil argument"
      | Some opt => making (MakeUnionArg t dir opt (Z.of_nat idx)) p
      end
    end
  | _ => excessive "wrong union arg" t dir p
  end.

Definition parseArgImpl (fuel : nat) (typ : option Typ) (dir : Dir) (p : pst) : result (option Arg) :=
  let (c, p) := pChar p in
  match typ with
  | None =>
    if decide (c ≠ chr "n") then
      let! p := eatExcessive true "non-nil argument for nil type" p in gives None p
    else gives None (pParseAll "nil" p)
  | Some t =>
    if decide (c = chr "0") then parseArgInt t dir p
    else if decide (c = chr "r") then parseArgRes t dir p
    else if decide (c = chr "&") then parseArgAddr t dir p
    else if decide (c = 34 ∨ c = 39) then parseArgString t dir p
    else if decide (c = chr "{") then parseArgStruct t dir p
    else if decide (c = chr "[") then parseArgArray fuel t dir p
    else if decide (c = chr "@") then parseArgUnion t dir p
    else if decide (c = chr "n") then gives None (pParseAll "nil" p)
    else if decide (c = chr "A") then parseAuto dfuel t dir (pParseAll "AUTO" p)
    else fails "failed to parse argument" p
  end.

End rec.

Fixpoint parseArg (fuel : nat) (typ : option Typ) (dir : Dir) (p : pst) : result (option Arg) :=
  match fuel with
  | O => OutOfFuel
  | S fuel =>
    let (c, p) := pChar p in
    let '(r, p) :=
      if decide (c = chr "<") then
        let (r, p) := pIdent (pParse (chr "<") p) in (r, pParse (chr ">") (pParse (chr "=") p))
      else ([], p) in
    let? '(arg, p) := parseArgImpl (parseArg fuel) fuel typ dir p in
    let? '(arg, p) :=
      match arg, typ with
      | None, Some t => defaults t dir p
      | None, None => if decide (r ≠ []) then fails "named nil argument" p else gives None p
      | Some a, _ => gives (Some a) p
      end in
    gives arg
      (if decide (r ≠ []) then
         match arg with
         | Some (ResultArg i) => setVar r i p
         | _ => pStrictFail "variable doesn't refer to a resource" p
         end
       else p)
  end.

(** ** Calls *)

(** [strconv.ParseInt(s, 0, 64)] of a word, which has no sign. *)
Definition ParseInt (s : list Z) : option Z :=
  match ParseUint s with Some v => if decide (v < 2 ^ 63) then Some v else None | None => None end.

(** The value of the property [FailNth] or [Rerun]. *)
Definition parsePropInt (old : Z) (p : pst) : Z * pst :=
  let (s, p) := pIdent (pParse (chr ":") p) in
  match ParseInt s with Some v => (v, p) | None => (old, pStrictFail "invalid int value" p) end.

Fixpoint parseCallProps (fuel : nat) (props : CallProps) (p : pst) : res (CallProps * pst) :=
  match fuel with
  | O => OutOfFuel
  | S fuel =>
    if pErr p then Ret (props, p)
    else
      let (c, p) := pChar p in
      if decide (c = chr ")") then Ret (props, p)
      else
        let (name, p) := pIdent p in
        let next (r : CallProps * pst) : res (CallProps * pst) :=
          let (props, p) := r in
          let (c, p) := pChar p in
          parseCallProps fuel props (if decide (c ≠ chr ")") then pParse (chr ",") p else p) in
        if decide (name = str "fail_nth") then
          let (v, p) := parsePropInt (FailNth props) p in next (MkProps v (Async props) (Rerun props), p)
        else if decide (name = str "async") then next (MkProps (FailNth props) true (Rerun props), p)
        else if decide (name = str "rerun") then
          let (v, p) := parsePropInt (Rerun props) p in next (MkProps (FailNth props) (Async props) v, p)
        else
          let! p := eatExcessive true "unknown call property" p in
          let (c, p) := pChar p in
          parseCallProps fuel props (if decide (c = chr ",") then pParse (chr ",") p else p)
  end.

(** The arguments up to the closing parenthesis; the fields that are left over. *)
Fixpoint argsLoop (fuel : nat) (fields : list Field) (args : list (option Arg)) (p : pst) :
    result (list (option Arg) * list Field) :=
  let (c, p) := pChar p in
  if decide (c = chr ")") then gives (args, fields) p
  else
    match fields with
    | [] => let! p := eatExcessive false "excessive syscall arguments" p in gives (args, []) p
    | f :: fields =>
      let! tf := typeAt (fieldType f) in
      if IsPad tf then fails "padding in syscall arguments" p
      else
        let? '(a, p) := parseArg fuel (Some tf) DirIn p in
        let (c, p) := pChar p in
        let p := if decide (c ≠ chr ")") then pParse (chr ",") p else p in
        argsLoop fuel fields (args ++ [a]) p
    end.

Fixpoint missingArgs (fields : list Field) (args : list (option Arg)) (p : pst) : result (list (option Arg)) :=
  match fields with
  | [] => gives args p
  | f :: fields =>
    let! tf := typeAt (fieldType f) in
    let? '(a, p) := defaults tf DirIn (pStrictFail "missing syscall args" p) in
    missingArgs fields (args ++ [a]) p
  end.

(** [target.SyscallMap] *)
Definition syscallNamed (name : list Z) : option Syscall :=
  last (filter (λ c, str (sysName c) = name) (Syscalls target)).

(** The comments of the program besides those of its calls. *)
Definition addComment (c : string) (comments : list string) : list string :=
  if decide (c ≠ ""%string) then comments ++ [c] else comments.

(** The rest of the line from the current position on. *)
Definition restComment (p : pst) : string := toString (TrimSpace (drop 1 (rest (lex p)))).

(** A line with a call. *)
Definition parseCall (comments : list string) (p : pst) : result (Call * list string) :=
  let fuel := S (length (rest (lex p))) in
  let (name, p) := pIdent p in
  let (c, p) := pChar p in
  let '(r, name, p) :=
    if decide (c = chr "=") then let (name1, p) := pIdent (pParse (chr "=") p) in (name, name1, p) else ([], name, p) in
  match syscallNamed name with
  | None => fails "unknown syscall" p
  | Some meta =>
    let! '(call, m) := MakeCall target meta [] (pmem p) in
    let p := pParse (chr "(") (setMem m p) in
    let? '(ra, p) := argsLoop fuel (sysArgs meta) [] p in
    let '(args, unread) := ra in
    let p := pParse (chr ")") p in
    let! '(props, p) :=
      if pEOF p then Ret (noProps, p)
      else
        let (c, p) := pChar p in
        if decide (c = chr "(") then
          let! '(props, p) := parseCallProps fuel noProps (pParse (chr "(") p) in Ret (props, pParse (chr ")") p)
        else Ret (noProps, p) in
    let? '(r1, p) :=
      if pEOF p then gives (pcomment p, comments) p
      else
        let (c, p) := pChar p in
        if decide (c ≠ chr "#") then fails "tailing data" p
        else gives (restComment p, addComment (pcomment p) comments) p in
    let '(comment, comments) := r1 in
    let? '(args, p) := missingArgs unread args p in
    let! args := present args in
    if decide (length args ≠ length (sysArgs meta)) then fails "wrong call arg count" p
    else
      let p :=
        match Ret_ call with
        | Some i => if decide (r ≠ []) then setVar r i p else p
        | None => p
        end in
      gives (MkCall meta args (Ret_ call) props comment, comments) (setComment "" p)
  end.

(** The next line; [None] at the end or after an error. *)
Definition Scan (p : pst) : option pst :=
  if pErr p then None
  else
    match pdata p with
    | [] => None
    | _ =>
      let line := fst <$> list_find (λ b, b = 10) (pdata p) in
      let n := default (length (pdata p)) line in
      Some (MkPst (MkParser (take n (pdata p)) (perr (lex p)) (strict (lex p))) (pvars p) (pautos p) (pcomment p)
        (drop (S n) (pdata p)) (pmem p))
    end.

Fixpoint parseLoop (fuel : nat) (calls : list Call) (comments : list string) (p : pst) :
    result (list Call * list string) :=
  match fuel with
  | O => OutOfFuel
  | S fuel =>
    match Scan p with
    | None => gives (calls, addComment (pcomment p) comments) p
    | Some p =>
      if pEOF p then parseLoop fuel calls (addComment (pcomment p) comments) (setComment "" p)
      else
        let (c, p) := pChar p in
        if decide (c = chr "#") then
          parseLoop fuel calls (addComment (pcomment p) comments) (setComment (restComment p) p)
        else
          let? '(r, p) := parseCall comments p in
          parseLoop fuel (calls ++ [r.1]) r.2 p
    end
  end.

(** [parseProg] *)
Definition parseProg (p : pst) : result (list Call * list string) :=
  parseLoop (S (length (pdata p))) [] [] p.

Definition newParser (data : list Z) (strict : bool) (m : mem) : pst :=
  MkPst (MkParser [] None strict) ∅ None "" data m.

(** ** Completing a parsed program *)

(** The order of the map of [setDefaultConditions], and the hook [Target.Neutralize]. *)
Context (order : list (positive * Arg) → list (positive * Arg)).
Context (neutralize : bool → Call → mem → res (option string * Call * mem)).

(** A loop over the calls that may change each of them. *)
Definition forCalls {S} (f : Call → S → res (Call * S)) (calls : list Call) (s : S) : res (list Call * S) :=
  for_list (λ c '(l, s), let! '(c, s) := f c s in Ret (l ++ [c], s)) calls ([], s).

Definition fixupConditionals (calls : list Call) (m : mem) : res (list Call * mem) :=
  forCalls (λ c m, let! '(_, c, m) := Conditions.setDefaultConditions target order dfuel true c m in Ret (c, m)) calls m.

(** The tree with new addresses. *)
Fixpoint setAddrs (addrs : gmap positive Z) (arg : Arg) : Arg :=
  match arg with
  | PointerArg c a s p =>
    PointerArg c (default a (addrs !! aid c)) s (match p with Some p => Some (setAddrs addrs p) | None => None end)
  | GroupArg c inner => GroupArg c (setAddrs addrs <$> inner)
  | UnionArg c opt i tr => UnionArg c (setAddrs addrs opt) i tr
  | _ => arg
  end.

(** The state of [fixupAutos]: the arguments to complete, the free memory and, for the call at
    hand, the values and addresses found. *)
Record autoSt := MkAuto { aautos : gset positive; ama : MemAlloc.memAlloc; avals : gmap positive Z; aaddrs : gmap positive Z }.

(** The callback of [fixupAutos]. *)
Definition fixupAuto (h : heap) (arg : Arg) (s : autoSt) : res autoSt :=
  let i := argIdOf arg in
  if decide (i ∉ aautos s) then Ret s
  else
    let autos := aautos s ∖ {[i]} in
    let! t := argType target h arg in
    match t, arg with
    | ConstType _ val _, ConstArg _ _ => Ret (MkAuto autos (ama s) (<[i := val]> (avals s)) (aaddrs s))
    | PtrType _ _ _, PointerArg _ _ _ (Some p) =>
      let! sz := Prog.Size target h p in
      let! tp := argType target h p in
      let! '(addr, ma) := MemAlloc.alloc 2 (ama s) sz (TypeAlign (common tp)) in
      Ret (MkAuto autos ma (avals s) (<[i := addr]> (aaddrs s)))
    | ConstType _ _ _, _ | PtrType _ _ _, _ => Panic "interface conversion or nil pointer dereference"
    | _, _ => Panic "unsupported auto type"
    end.

Definition fixupAutos (h : heap) (autos : gset positive) (calls : list Call) : res (list Call) :=
  let! st := Analysis.analyze target h calls None in
  let! '(calls, (autos, _)) :=
    forCalls (λ c '(autos, ma),
      let! '(autos1, vs) := Size.assignSizesArray target h (Args c) (sysArgs (Meta c)) (Some autos) in
      let c := MkCall (Meta c) (Size.setVals vs <$> Args c) (Ret_ c) (Props c) (Comment c) in
      let! s := ForeachArg target (λ _, h) (λ arg _ s, let! s := fixupAuto h arg s in Ret (s, false)) c
        (MkAuto (default ∅ autos1) ma ∅ ∅) in
      Ret (MkCall (Meta c) ((λ a, setAddrs (aaddrs s) (Size.setVals (avals s) a)) <$> Args c) (Ret_ c) (Props c) (Comment c),
           (aautos s, ama s))) calls (autos, Analysis.ma st) in
  if decide (autos = ∅) then Ret calls else Panic "leftoever autos".

(** [Prog.sanitize] *)
Definition sanitize (fixing : bool) (calls : list Call) (m : mem) : res ((string + list Call) * mem) :=
  for_list (λ c '(l, m),
    match l with
    | inl e => Ret (inl e, m)
    | inr l =>
      let! '(err, c, m) := neutralize fixing c m in
      Ret (match err with Some e => inl e | None => inr (l ++ [c]) end, m)
    end) calls (inr [], m).

(** [Target.Deserialize] *)
Definition Deserialize (data : list Z) (strict : bool) (m : mem) :
    res ((string + (list Call * list string)) * mem) :=
  let! '(r, p) := parseProg (newParser data strict m) in
  match perr (lex p), r with
  | Some e, _ => Ret (inl e, pmem p)
  | None, inl e => Ret (inl e, pmem p)
  | None, inr (calls, comments) =>
    let m := pmem p in
    let! verr := validateWithOpts target (mHeap m) true calls in
    match verr with
    | Some e => Ret (inl e, m)
    | None =>
      let! '(calls, m) := fixupConditionals calls m in
      let! calls := match pautos p with Some autos => fixupAutos (mHeap m) autos calls | None => Ret calls end in
      let! '(r, m) := sanitize (negb strict) calls m in
      Ret (match r with inl e => inl e | inr calls => inr (calls, comments) end, m)
    end
  end.

End target.

(** ** The calls of a program, without the grammar *)

(** [bytes.IndexByte], [None] for -1 *)
Definition IndexByte (b : Z) (l : list Z) : option nat := fst <$> list_find (λ c, c = b) l.

(** Spaces only, not tabs. *)
Fixpoint skipSpaces (l : list Z) : list Z :=
  match l with c :: l' => if decide (c = chr " ") then skipSpaces l' else l | [] => [] end.

(** The name of the call in a line. *)
Definition callOfLine (ln : list Z) : string + list Z :=
  match IndexByte (chr "(") ln with
  | None => inl "line does not contain opening bracket"%string
  | Some bracket =>
    let call := take bracket ln in
    let call := match IndexByte (chr "=") call with Some eq => skipSpaces (drop (S eq) call) | None => call end in
    if decide (call = []) then inl "call name is empty"%string else inr call
  end.

Fixpoint callSetLoop (fuel : nat) (data : list Z) (calls : gset (list Z)) (ncalls : Z) : res (string + gset (list Z) * Z) :=
  match fuel with
  | O => OutOfFuel
  | S fuel =>
    match data with
    | [] => Ret (inr (calls, ncalls))
    | _ =>
      let (ln, data) :=
        match IndexByte 10 data with Some n => (take n data, drop (S n) data) | None => (data, []) end in
      if match ln with [] => true | c :: _ => bool_decide (c = chr "#") end then callSetLoop fuel data calls ncalls
      else
        match callOfLine ln with
        | inl e => Ret (inl e)
        | inr call => callSetLoop fuel data ({[call]} ∪ calls) (ncalls + 1)
        end
    end
  end.

Definition CallSet (data : list Z) : res (string + gset (list Z) * Z) :=
  let! r := callSetLoop (S (length data)) data ∅ 0 in
  Ret match r with
  | inl e => inl e
  | inr (calls, ncalls) => if decide (calls = ∅) then inl "program does not contain any calls"%string else inr (calls, ncalls)
  end.

(** The text of the example program. *)
Definition exampleText : list Z :=
  str "# a comment" ++ [10] ++ str "r0 = open()" ++ [10] ++
  str "write(r0, &(0x7f0000000000)={0x3, 'abc'}, &AUTO) (async)" ++ [10].

Example example_parse :
  match Deserialize ExampleTarget.target 5 (λ _, None) (λ _, true) id id (λ _ c m, Ret (None, c, m)) exampleText false (Mem ∅ 1) with
  | Ret (inr (calls, comments), m) => Some (sysName ∘ Meta <$> calls, Comment <$> calls)
  | _ => None
  end = Some (["open"; "write"], ["a comment"; ""]).
Proof. vm_compute. reflexivity. Qed.

(** [AUTO] for a checksum, [csum(AUTO)], is accepted by [parseAuto], but not by [fixupAutos]; and
    in [arr([AUTO, AUTO])], where the array has one element, the second one is left over. *)
Definition autoTarget : Target :=
  MkTarget [None; Some (CsumType (ExampleTarget.mkInt "csum" 2 1) CsumInet "parent" 0);
      Some (ConstType (ExampleTarget.mkInt "const" 4 2) 7 false);
      Some (ArrayType (ExampleTarget.mk "array" 4 false 3) 2 ArrayRangeLen 1 1)]
    [MkSyscall 0 0 "csum" "csum" 0 [ExampleTarget.fld "a" 1] None ExampleTarget.attrs;
     MkSyscall 1 1 "arr" "arr" 0 [ExampleTarget.fld "a" 3] None ExampleTarget.attrs]
    8 4096 64 536870912 [0] 100 101 102 103 104 [] "test" [] [].

Definition autoParse (text : list Z) :=
  Deserialize autoTarget 5 (λ _, None) (λ _, true) id id (λ _ c m, Ret (None, c, m)) text false (Mem ∅ 1).

Example auto_csum : autoParse (str "csum(AUTO)") = Panic "unsupported auto type".
Proof. vm_compute. reflexivity. Qed.

Example auto_excess : autoParse (str "arr([AUTO, AUTO])") = Panic "leftoever autos".
Proof. vm_compute. reflexivity. Qed.

End TextParse.
