(* ===== verification/TextRound.v ===== *)
(** * TextRound: printed arguments are read back (prog/encoding.go)

    The verbose text of an argument, followed by anything that may follow an argument, is
    parsed into a copy of it, in the sense of [Clone]: the same tree with new identities,
    whose results refer to the copies of what the originals refer to. *)

From S2P Require Import Prelude Bytes Types Prog ExampleTarget ProgEdit Clone Expr Validation Text Squash TextPrint TextParse.
From Stdlib Require Import Ascii.
Import Bytes Types Prog ProgEdit Clone Expr Validation Text TextPrint TextParse.

Module TextRound.

(** ** Texts *)

(** What may follow an argument. *)
Definition delim (l : list Z) : Prop :=
  match l with c :: _ => c = chr "," ∨ c = chr ")" ∨ c = chr "]" ∨ c = chr "}" | [] => False end.

(** The first character of an argument. *)
Definition argStart (c : Z) : bool :=
  bool_decide (c ∈ [chr "0"; chr "r"; chr "&"; 34; 39; chr "{"; chr "["; chr "@"; chr "<"]).

(** The text of an argument: printable characters, the first of which tells its form. *)
Record argText (text : list Z) : Prop := {
  at_head : ∃ c l, text = c :: l ∧ argStart c = true;
  at_print : Forall printable text
}.

Lemma argStart_ws c : argStart c = true → ¬ isWs c.
Proof.
  unfold argStart. rewrite bool_decide_eq_true. intros Hc [->| ->];
    rewrite !elem_of_cons, elem_of_nil in Hc; destruct_or! Hc; discriminate Hc.
Qed.

Lemma delim_noIdent l : delim l → noIdent l.
Proof. destruct l as [|c l]; [done|]. simpl. intros [-> |[-> |[-> | ->]]]; reflexivity. Qed.

Lemma delim_ws l : delim l → skipWs l = l.
Proof.
  destruct l as [|c l]; [done|]. intros Hd. apply skipWs_not.
  destruct Hd as [-> |[-> |[-> | ->]]]; intros [E|E]; discriminate E.
Qed.

Lemma argText_ws text tail : argText text → skipWs (text ++ tail) = text ++ tail.
Proof. intros [(c & l & -> & Hc) _]. apply skipWs_not. by apply argStart_ws. Qed.

Lemma printHex_start n : ∃ l, printHex n = chr "0" :: l.
Proof. apply printHex_cons. Qed.

Lemma ident_printable w : identText w → Forall printable w.
Proof.
  intros H. eapply Forall_impl; [exact H|]. intros c Hc. unfold isIdent in Hc. unfold printable.
  unfold isDigit in Hc. repeat (rewrite ?orb_true_iff, ?bool_decide_eq_true in Hc).
  change (chr "a") with 97 in Hc. change (chr "z") with 122 in Hc. change (chr "A") with 65 in Hc.
  change (chr "Z") with 90 in Hc. change (chr "0") with 48 in Hc. change (chr "9") with 57 in Hc.
  change (chr "_") with 95 in Hc. change (chr "$") with 36 in Hc. lia.
Qed.

Lemma printDec_ident n : identText (printDec n).
Proof. apply format_ident; [lia|constructor]. Qed.

Lemma printDec_cons n : ∃ c l, printDec n = c :: l.
Proof. apply format_cons. Qed.

(** Names of variables are words, and different numbers have different names. *)
Lemma varName_eq id : 0 ≤ id → varName id = chr "r" :: printDec id.
Proof. intros H. unfold varName, printInt. by rewrite decide_False by lia. Qed.

Lemma varName_ident id : 0 ≤ id → identText (varName id) ∧ ∃ l, varName id = chr "r" :: l.
Proof.
  intros H. rewrite varName_eq by done. split; [|eauto]. constructor; [done|]. apply printDec_ident.
Qed.

Lemma varName_inj a b : is_u 64 a → is_u 64 b → varName a = varName b → a = b.
Proof.
  intros Ha Hb. rewrite !varName_eq by (apply Ha || apply Hb). intros [= E].
  apply (f_equal ParseUint) in E. rewrite !ParseUint_dec in E by done. congruence.
Qed.

(** What the parser relies on in the wrappers of [encoding/base64] of pkg/image. *)
Class Base64 (EncodeB64 : list Z → list Z) (DecodeB64 : list Z → option (list Z)) : Prop := {
  b64_decode data : Forall isByte data → DecodeB64 (EncodeB64 data) = Some data;
  b64_text data : Forall isByte data → Forall (λ c, printable c ∧ c ≠ 34) (EncodeB64 data)
}.

Section target.
Context (target : Target) (dfuel : nat).
Context (EncodeB64 : list Z → list Z) (DecodeB64 : list Z → option (list Z)) `{!Base64 EncodeB64 DecodeB64}.
Context (DecompressCheck : list Z → bool) (Compress : list Z → list Z).

Notation typeAt := (typeAt (typeRefs target)).

(** What the text format relies on in the descriptions. *)
Record textTables : Prop := {
  tt_self r t : typeAt r = Ret t → self (common t) = r;
  tt_special : (0 < length (SpecialPointers target) ≤ 16)%nat
}.

Definition maxMem : Z := NumPages target *! PageSize target.

Definition isLen (t : Typ) : bool := match t with LenType _ _ _ _ => true | _ => false end.
Definition isPtrOrVma (t : Typ) : bool := match t with PtrType _ _ _ | VmaType _ _ _ => true | _ => false end.

(** ** Arguments that the text format can represent *)

(** [exact a typ dir]: the argument has the type and the direction that the parser gives to
    an argument where one of type [typ] is expected, and nothing that the text leaves out:
    padding and the values of references are zero, sizes are those of the type or at most the
    memory, strings are among the values of their type, and options of unions are found by
    their names. *)
Inductive exact (h : heap) : Arg → Ref → Dir → Prop :=
| exact_const c v t : typeAt (aref c) = Ret t → isConstType t = true → is_u 64 v →
    (adir c = DirOut → isLen t = false → isDefault target h (ConstArg c v) = Ret true) →
    exact h (ConstArg c v) (aref c) (adir c)
| exact_result i o tc bf desc : h !! i = Some o → typeAt (rRef o) = Ret (ResourceType tc bf desc) →
    is_u 64 (rVal o) → is_u 64 (OpDiv o) → is_u 64 (OpAdd o) →
    match rRes o with Some _ => rVal o = 0 | None => OpDiv o = 0 ∧ OpAdd o = 0 end →
    exact h (ResultArg i) (rRef o) (rDir o)
| exact_out c sz tc desc : typeAt (aref c) = Ret (BufferType tc desc) → adir c = DirOut →
    0 ≤ sz ≤ maxMem → sz < 2 ^ 64 - 1 → (IsVarlen tc = false → sz = TypeSize tc) →
    (IsCompressed desc = true → DecompressCheck [] = true) →
    exact h (DataArg c [] sz) (aref c) DirOut
| exact_data c d tc desc : typeAt (aref c) = Ret (BufferType tc desc) → adir c ≠ DirOut →
    Forall isByte d → Z.of_nat (length d) ≤ maxMem → Z.of_nat (length d) < 2 ^ 63 →
    (IsVarlen tc = false → Z.of_nat (length d) = TypeSize tc) →
    matchesValues desc d = true → (IsCompressed desc = true → DecompressCheck d = true) →
    exact h (DataArg c d 0) (aref c) (adir c)
| exact_special c t dir idx : typeAt (aref c) = Ret t → isPtrOrVma t = true →
    adir c = (if isPtrType t then DirIn else dir) → 0 ≤ idx < Z.of_nat (length (SpecialPointers target)) →
    exact h (PointerArg c (0 -! idx) 0 None) (aref c) dir
| exact_ptr c ad p tc elem ed k dir : typeAt (aref c) = Ret (PtrType tc elem ed) → elem ≠ anyArray target →
    adir c = DirIn → goodAddr target k ad 0 → exact h p elem ed →
    exact h (PointerArg c ad 0 (Some p)) (aref c) dir
| exact_any c ad p typ t sz tc elem ed k dir : typeAt typ = Ret t → isPtrOrVma t = true → Types.Size t = Ret sz →
    Squash.getAnyPtrType target sz = Ret (PtrType tc elem ed) → typeAt (aref c) = Ret (PtrType tc elem ed) →
    elem = anyArray target → adir c = DirIn → goodAddr target k ad 0 → exact h p elem ed →
    exact h (PointerArg c ad 0 (Some p)) typ dir
| exact_vma c ad v tc rb re k : typeAt (aref c) = Ret (VmaType tc rb re) → goodAddr target k ad v → 10 ≤ k →
    (2 ^ k | ad) → isSpecial ad v None = false → exact h (PointerArg c ad v None) (aref c) (adir c)
| exact_struct c l tc fields al ov : typeAt (aref c) = Ret (StructType tc fields al ov) →
    Forall2 (λ a f, exact h a (fieldType f) (fieldDir f (adir c))) l fields →
    Forall2 (λ a f, ∀ ic val, typeAt (fieldType f) = Ret (ConstType ic val true) → val = 0 ∧ ∃ c, a = ConstArg c 0) l fields →
    (∀ f t, head fields = Some f → typeAt (fieldType f) = Ret t → IsPad t = false) →
    exact h (GroupArg c l) (aref c) (adir c)
| exact_array c l tc elem kind rb re : typeAt (aref c) = Ret (ArrayType tc elem kind rb re) →
    Forall (λ a, exact h a elem (adir c)) l → (∃ te, typeAt elem = Ret te ∧ IsPad te = false) →
    (kind = ArrayRangeLen → rb = re → Z.of_nat (length l) = rb) →
    exact h (GroupArg c l) (aref c) (adir c)
| exact_union c opt idx tc fields f : typeAt (aref c) = Ret (UnionType tc fields) → 0 ≤ idx →
    list_find (λ f', str (fieldName f') = str (fieldName f)) fields = Some (Z.to_nat idx, f) →
    identText (str (fieldName f)) → str (fieldName f) ≠ [] →
    exact h opt (fieldType f) (fieldDir f (adir c)) →
    exact h (UnionArg c opt idx false) (aref c) (adir c).

Lemma exact_type h a typ dir : exact h a typ dir → ∃ t, typeAt typ = Ret t.
Proof. destruct 1; eauto. Qed.

(** ** Reading back *)

Hypothesis Htab : textTables.
Context (h0 : heap) (n0 : positive) (full : list positive).
Hypothesis Hord : wellOrdered h0 full.
Hypothesis Hfresh0 : fresh (Mem h0 n0).
Hypothesis Hlink : linked (list_to_set full) h0.
Hypothesis Hmany : Z.of_nat (length full) < 2 ^ 64.

(** The numbers given out after the results [done]. *)
Record numbered (ctx : serializer) (done : list positive) : Prop := {
  nu_seq : 0 ≤ varSeq ctx ≤ Z.of_nat (length done);
  nu_num i id : svars ctx !! i = Some id → 0 ≤ id < varSeq ctx;
  nu_all i o : i ∈ done → h0 !! i = Some o → uses o ≠ ∅ → is_Some (svars ctx !! i)
}.

(** The variables of the parser are the copies of the numbered results; [X] is not known yet. *)
Definition named (X : list positive) (na : gmap positive positive) (ctx : serializer) (vars : gmap (list Z) positive) : Prop :=
  ∀ i id, svars ctx !! i = Some id → i ∉ X → ∃ i1, na !! i = Some i1 ∧ vars !! varName id = Some i1.

Context (st : bool) (autos : option (gset positive)) (cm : string) (data : list Z).
(** The state of the parser in front of the text [l]. *)
Notation P l vars m := (MkPst (MkParser l None st) vars autos cm data m).
Notation parseArg := (parseArg target dfuel DecodeB64 DecompressCheck Compress).
Notation serializeArg := (serializeArg target h0 EncodeB64 true).

Lemma pChar_ok c l vars m : pChar (P (c :: l) vars m) = (c, P (c :: l) vars m).
Proof. done. Qed.
Lemma pParse_ok ch l vars m : pParse ch (P (ch :: l) vars m) = P (skipWs l) vars m.
Proof. unfold pParse. cbn [lex]. by rewrite Parse_ok. Qed.
Lemma pIdent_ok w tail vars m :
  w ≠ [] → identText w → noIdent tail → pIdent (P (w ++ tail) vars m) = (w, P (skipWs tail) vars m).
Proof. intros Hne Hw Ht. unfold pIdent. cbn [lex]. by rewrite Ident_word. Qed.

Lemma ref_ok r t : typeAt r = Ret t → ref t = Ret r.
Proof.
  intros Ht. unfold ref. rewrite (tt_self Htab _ _ Ht). rewrite decide_False; [done|]. intros ->. discriminate Ht.
Qed.

(** What parsing the text of [arg] in front of [tail] gives. *)
Definition parsesTo (X : list positive) (arg : Arg) (done : list positive) (ctx ctx' : serializer)
    (run : mem → gmap (list Z) positive → res ((string + option Arg) * pst)) (tail : list Z) : Prop :=
  ∀ na vars m, named X na ctx vars → copied h0 n0 done na m →
    ∃ a1 na' vars' m', run m vars = Ret (inr (Some a1), P tail vars' m') ∧ na ⊆ na' ∧
      copied h0 n0 (done ++ results arg) na' m' ∧ copyOf na' arg a1 ∧ named X na' ctx' vars'.

(** The results of [arg] do not refer to [X]. *)
Definition avoids (X : list positive) (l : list positive) : Prop :=
  ∀ i o r, i ∈ l → h0 !! i = Some o → rRes o = Some r → r ∉ X.

Definition reads (arg : Arg) (typ : Ref) (dir : Dir) : Prop :=
  ∀ done suf X ctx, full = done ++ results arg ++ suf → numbered ctx done → avoids X (results arg) →
  ∃ text ctx', serializeArg arg ctx = Ret ctx' ∧ sbuf ctx' = sbuf ctx ++ text ∧ argText text ∧
    numbered ctx' (done ++ results arg) ∧
    ∀ t fuel tail, typeAt typ = Ret t → delim tail → (length text < fuel)%nat →
      parsesTo X arg done ctx ctx' (λ m vars, parseArg fuel (Some t) dir (P (text ++ tail) vars m)) tail.

(** An argument without a name in front of it. *)
Definition unnamed (s : list Z) : Prop := ∃ c l, s = c :: l ∧ c ≠ chr "<".

Lemma parseArg_plain fuel t dir s vars m a p' :
  unnamed s →
  parseArgImpl target dfuel DecodeB64 DecompressCheck Compress (parseArg fuel) fuel (Some t) dir (P s vars m) =
    Ret (inr (Some a), p') →
  parseArg (S fuel) (Some t) dir (P s vars m) = Ret (inr (Some a), p').
Proof. intros (c & l & -> & Hc) E. cbn [TextParse.parseArg]. rewrite pChar_ok, decide_False by done. by rewrite E. Qed.

(** The memory a new argument without results needs. *)
Lemma copied_next done na m : copied h0 n0 done na m → copied h0 n0 done na (Mem (mHeap m) (Pos.succ (mNext m))).
Proof. intros Hc. by eapply copied_alloc. Qed.

(** *** Constants *)

Lemma argText_hex v : argText (printHex v).
Proof.
  split; [|apply ident_printable, printHex_ident]. destruct (printHex_start v) as [l ->]. by eexists _, _.
Qed.

Lemma pIdent_hex v tail vars m :
  delim tail → pIdent (P (printHex v ++ tail) vars m) = (printHex v, P tail vars m).
Proof.
  intros Hd. destruct (printHex_start v) as [l Hl]. rewrite pIdent_ok.
  - by rewrite delim_ws.
  - by rewrite Hl.
  - apply printHex_ident.
  - by apply delim_noIdent.
Qed.

Lemma unnamed_hex v tail : unnamed (printHex v ++ tail).
Proof. destruct (printHex_start v) as [l ->]. by eexists _, _. Qed.

(** The integer in front of [tail] is handed to [parseArgInt]. *)
Lemma parseArg_hex fuel t dir v tail vars m :
  parseArgImpl target dfuel DecodeB64 DecompressCheck Compress (parseArg fuel) fuel (Some t) dir (P (printHex v ++ tail) vars m) =
  parseArgInt target dfuel t dir (P (printHex v ++ tail) vars m).
Proof. destruct (printHex_start v) as [l ->]. reflexivity. Qed.

Lemma isDefault_const h h' i i' r d v : isDefault target h (ConstArg (MkCommon i r d) v) = isDefault target h' (ConstArg (MkCommon i' r d) v).
Proof. reflexivity. Qed.

Lemma reads_const c v typ dir : exact h0 (ConstArg c v) typ dir → reads (ConstArg c v) typ dir.
Proof.
  inversion 1 as [? ? t Ht Hct Hv Hdef| | | | | | | | | |]; subst. intros done suf X ctx Hfull Hnu Hav.
  exists (printHex v), (printf (printHex v) ctx). rewrite app_nil_r.
  split_and!; [done|done|apply argText_hex|by destruct Hnu|].
  intros t' fuel tail Ht' Hd Hfuel na vars m Hna Hc. assert (t' = t) as -> by congruence.
  destruct fuel as [|fuel]; [lia|]. pose proof (ref_ok _ _ Ht) as Href.
  set (a1 := ConstArg (MkCommon (mNext m) (aref c) (adir c)) v).
  assert (parseArgInt target dfuel t (adir c) (P (printHex v ++ tail) vars m) =
    Ret (inr (Some a1), P tail vars (Mem (mHeap m) (Pos.succ (mNext m))))) as E.
  { unfold parseArgInt. rewrite pIdent_hex by done. rewrite ParseUint_hex by done.
    destruct t; try discriminate Hct; unfold making, MakeConstArg; cbn [pmem]; rewrite Href; cbn [rbind alloc]; try done;
      (case_decide as Hdir; [|done]); rewrite Hdir in *; specialize (Hdef eq_refl eq_refl);
      rewrite (isDefault_const _ h0 _ (aid c)); destruct c as [ci cr cd]; cbn [aref adir aid] in *; subst cd; rewrite Hdef; done. }
  exists a1, na, vars, (Mem (mHeap m) (Pos.succ (mNext m))). rewrite app_nil_r. split_and!; [|done|by apply copied_next|done|done].
  apply parseArg_plain; [apply unnamed_hex|]. by rewrite parseArg_hex.
Qed.

(** *** Special pointers *)

Lemma neg_neg idx : 0 ≤ idx < 2 ^ 64 → 0 -! (0 -! idx) = idx.
Proof.
  intros H. destruct (decide (idx = 0)) as [->|]; [reflexivity|]. unfold sub64, wrapU.
  replace ((0 - idx) mod 2 ^ 64) with (2 ^ 64 - idx) by (apply (Z.mod_unique_pos _ _ (-1)); lia).
  symmetry. apply (Z.mod_unique_pos _ _ (-1)); lia.
Qed.

Lemma reads_special c ad typ dir : isSpecial ad 0 None = true →
  exact h0 (PointerArg c ad 0 None) typ dir → reads (PointerArg c ad 0 None) typ dir.
Proof.
  intros Hs. inversion 1 as [| | | |? t ? idx Ht Hpv Hdir Hidx Had| | |? ? ? ? ? ? ? ? ? ? ? Hns| | |]; subst; [|congruence].
  destruct (tt_special Htab) as [Hn0 Hn]. intros done suf X ctx Hfull Hnu Hav.
  exists (printHex (0 -! idx)), (printf (printHex (0 -! idx)) ctx). rewrite app_nil_r.
  cbn [TextPrint.serializeArg]. rewrite Hs. split_and!; [done|done|apply argText_hex|by destruct Hnu|].
  intros t' fuel tail Ht' Hd Hfuel na vars m Hna Hc. assert (t' = t) as -> by congruence.
  destruct fuel as [|fuel]; [lia|]. pose proof (ref_ok _ _ Ht) as Href.
  exists (PointerArg (MkCommon (mNext m) (aref c) (adir c)) (0 -! idx) 0 None), na, vars, (Mem (mHeap m) (Pos.succ (mNext m))).
  rewrite app_nil_r. split_and!; [|done|by apply copied_next|done|done].
  apply parseArg_plain; [apply unnamed_hex|]. rewrite parseArg_hex. unfold parseArgInt. rewrite pIdent_hex by done.
  rewrite ParseUint_hex by (unfold sub64; apply wrapU_range; lia).
  assert ((0 -! (0 -! idx)) mod Z.of_nat (length (SpecialPointers target)) = idx) as Hmod
    by (rewrite neg_neg by lia; apply Z.mod_small; lia).
  destruct t; try discriminate Hpv; rewrite decide_False by lia; unfold making, MakeSpecialPointerArg; cbn [pmem];
    rewrite Hmod, decide_False by (unfold maxSpecialPointers; lia); rewrite Href; cbn [rbind alloc isPtrType] in *; by rewrite Hdir.
Qed.

(** *** Results *)

(** Parsing a new result does to the memory what cloning the original does. *)
Definition sameAsClone (i : positive) (na : gmap positive positive) (m : mem) (i1 : positive) (m1 : mem) : Prop :=
  clone (ResultArg i) (Some na) m = Ret (ResultArg i1, Some (<[i := i1]> na), m1).

Lemma parse_value i o tc bf desc v vars m tail na done suf :
  full = done ++ i :: suf → copied h0 n0 done na m → h0 !! i = Some o →
  typeAt (rRef o) = Ret (ResourceType tc bf desc) → is_u 64 v → v = rVal o → delim tail →
  rRes o = None → OpDiv o = 0 → OpAdd o = 0 →
  ∃ i1 m1, parseArgInt target dfuel (ResourceType tc bf desc) (rDir o) (P (printHex v ++ tail) vars m) =
      Ret (inr (Some (ResultArg i1)), P tail vars m1) ∧ sameAsClone i na m i1 m1.
Proof.
  intros Hfull Hc Ho Ht Hv -> Hd Hres Hdiv Hadd. unfold parseArgInt. rewrite pIdent_hex by done.
  rewrite ParseUint_hex by done. unfold making, MakeResultArg. cbn [pmem]. rewrite (ref_ok _ _ Ht). cbn [rbind alloc mHeap].
  eexists _, _. split; [reflexivity|]. unfold sameAsClone. cbn [clone].
  assert (mHeap m !! i = Some o) as Hoi by (eapply lookup_weaken; [done|apply Hc]).
  rewrite (deref_Some _ _ _ Hoi). cbn [rbind alloc]. rewrite Hres, Hdiv, Hadd. done.
Qed.

Lemma parseOp_no ch c l vars m : c ≠ ch → parseOp ch (P (c :: l) vars m) = Ret (inr 0, P (c :: l) vars m).
Proof. intros Hc. unfold parseOp. rewrite pChar_ok. by rewrite decide_False. Qed.

(** An operation that is printed unless its operand is zero. *)
Lemma parseOp_ok ch n tail vars m :
  is_u 64 n → noIdent tail → skipWs tail = tail → (∃ c l, tail = c :: l ∧ c ≠ ch) →
  parseOp ch (P ((if decide (n ≠ 0) then ch :: printDec n else []) ++ tail) vars m) = Ret (inr n, P tail vars m).
Proof.
  intros Hn Hid Hws (c & l & -> & Hc). case_decide as H0; cbn [app].
  - unfold parseOp. rewrite pChar_ok, decide_True by done. rewrite pParse_ok.
    assert (skipWs (printDec n ++ c :: l) = printDec n ++ c :: l) as ->.
    { destruct (printDec_cons n) as (d & l' & Hd). pose proof (printDec_ident n) as Hi. rewrite Hd in Hi |- *. cbn [app].
      apply skipWs_not. apply identText_head in Hi. tauto. }
    rewrite pIdent_ok; [|by destruct (printDec_cons n) as (? & ? & ->)|apply printDec_ident|done].
    rewrite ParseUint_dec by done. by rewrite Hws.
  - assert (n = 0) as -> by (by destruct (decide (n = 0))). by apply parseOp_no.
Qed.

(** The heap after a new reference to [r1] got its operations. *)
Lemma ref_heap (h : heap) (i r1 : positive) or o0 o1 :
  i ≠ r1 → h !! r1 = Some or → (∃ h', addUse r1 i (<[i := o0]> h) = Ret h' ∧ h' !! i = Some o0 ∧
    addUse r1 i (<[i := o1]> h) = Ret (<[i := o1]> h')).
Proof.
  intros Hne Hor. unfold addUse. rewrite (deref_Some (<[i := o0]> h) r1 or) by (by rewrite lookup_insert_ne).
  rewrite (deref_Some (<[i := o1]> h) r1 or) by (by rewrite lookup_insert_ne). cbn [rbind]. eexists. split_and!; [done| |].
  - by rewrite lookup_insert_ne, lookup_insert_eq.
  - f_equal. rewrite (insert_insert_ne _ i r1) by done. by rewrite insert_insert_eq.
Qed.

Definition opsText (o : ResultObj) : list Z :=
  (if decide (OpDiv o ≠ 0) then chr "/" :: printDec (OpDiv o) else []) ++
  (if decide (OpAdd o ≠ 0) then chr "+" :: printDec (OpAdd o) else []).

Lemma parse_ref i o t r r1 id vars m tail na done suf :
  full = done ++ i :: suf → copied h0 n0 done na m → h0 !! i = Some o → typeAt (rRef o) = Ret t →
  is_u 64 (OpDiv o) → is_u 64 (OpAdd o) → rVal o = 0 → delim tail →
  rRes o = Some r → na !! r = Some r1 → 0 ≤ id → vars !! varName id = Some r1 →
  ∃ i1 m1, parseArgRes target dfuel t (rDir o) (P (varName id ++ opsText o ++ tail) vars m) =
      Ret (inr (Some (ResultArg i1)), P tail vars m1) ∧ sameAsClone i na m i1 m1.
Proof.
  intros Hfull Hc Ho Ht Hdiv Hadd Hval Hd Hres Hr1 Hid Hvar. unfold parseArgRes.
  set (A := if decide (OpAdd o ≠ 0) then chr "+" :: printDec (OpAdd o) else []).
  assert (noIdent (A ++ tail) ∧ skipWs (A ++ tail) = A ++ tail ∧ ∃ c l, A ++ tail = c :: l ∧ c ≠ chr "/") as (Ha1 & Ha2 & Ha3).
  { unfold A. case_decide; cbn [app]; [split_and!; [done|by apply skipWs_not; intros [E|E]|by eexists _, _]|].
    split_and!; [by apply delim_noIdent|by apply delim_ws|]. destruct tail as [|c tail]; [done|]. eexists _, _. split; [done|].
    destruct Hd as [-> |[-> |[-> | ->]]]; done. }
  assert (noIdent (opsText o ++ tail) ∧ skipWs (opsText o ++ tail) = opsText o ++ tail) as [Hs1 Hs2].
  { unfold opsText. rewrite <-app_assoc. fold A. case_decide; cbn [app]; [|done]. split; [done|by apply skipWs_not; intros [E|E]]. }
  destruct (varName_ident id Hid) as [Hvi [vl Hvl]]. rewrite pIdent_ok by (done || by rewrite Hvl). rewrite Hs2.
  unfold opsText. rewrite <-app_assoc. fold A. rewrite parseOp_ok by done. unfold A. cbn [onOk rbind].
  rewrite parseOp_ok; [|done|by apply delim_noIdent|by apply delim_ws|].
  2: { destruct tail as [|c tail]; [done|]. eexists _, _. split; [done|]. destruct Hd as [-> |[-> |[-> | ->]]]; done. }
  cbn [onOk rbind pvars]. rewrite Hvar. unfold MakeResultArg. rewrite (ref_ok _ _ Ht). cbn [rbind alloc mHeap pmem].
  assert (r ∈ done) as Hrd by (apply (cp_dom _ _ _ _ _ Hc); eauto).
  assert (∃ or, mHeap m !! r1 = Some or) as [or Hor].
  { apply list_elem_of_split in Hrd as (d1 & d2 & Hd12).
    destruct (Hord d1 r (d2 ++ i :: suf)) as (_ & x & Hx & _); [by rewrite Hfull, Hd12, <-app_assoc|].
    destruct (cp_obj _ _ _ _ _ Hc _ _ _ Hr1 Hx) as (o1 & Ho1 & _). eauto. }
  assert (mNext m ≠ r1) as Hne by (apply (cp_fresh _ _ _ _ _ Hc) in Hor; lia).
  destruct (ref_heap (mHeap m) (mNext m) r1 or (MkResult (rRef o) (rDir o) (Some r1) 0 0 0 ∅)
    (MkResult (rRef o) (rDir o) (Some r1) (OpDiv o) (OpAdd o) 0 ∅) Hne Hor) as (h' & E1 & E2 & E3).
  rewrite E1. cbn [rbind mHeap]. rewrite (deref_Some _ _ _ E2). cbn [rbind mNext rRef rDir rRes rVal uses].
  eexists _, _. split; [reflexivity|]. unfold sameAsClone. cbn [clone].
  assert (mHeap m !! i = Some o) as Hoi by (eapply lookup_weaken; [done|apply Hc]).
  rewrite (deref_Some _ _ _ Hoi). cbn [rbind alloc mHeap]. rewrite Hres. cbn [cloneRef]. rewrite Hr1. cbn [rbind].
  rewrite Hval, E3. done.
Qed.

Lemma clone_done done i suf na m i1 m1 :
  full = done ++ i :: suf → copied h0 n0 done na m → sameAsClone i na m i1 m1 →
  na ⊆ <[i := i1]> na ∧ copied h0 n0 (done ++ [i]) (<[i := i1]> na) m1.
Proof.
  intros Hfull Hc Hs. destruct (clone_result h0 n0 full Hord done i suf na m Hfull Hc Hfresh0) as (j & m' & E & Hc' & Hn).
  unfold sameAsClone in Hs. rewrite Hs in E. injection E as -> _ ->. split; [by apply insert_subseteq|done].
Qed.

(** The text of a result behind its name. *)
Definition resultBody (o : ResultObj) (id : Z) : list Z :=
  match rRes o with None => printHex (rVal o) | Some _ => varName id ++ opsText o end.

(** The number a reference is printed with; 0 without one. *)
Definition refNumber (ctx : serializer) (o : ResultObj) (id : Z) : Prop :=
  match rRes o with None => id = 0 | Some r => svars ctx !! r = Some id end.

Lemma refNumber_exists ctx done i suf o :
  full = done ++ i :: suf → numbered ctx done → h0 !! i = Some o → ∃ id, refNumber ctx o id ∧ 0 ≤ id.
Proof.
  intros Hfull Hnu Ho. unfold refNumber. destruct (rRes o) as [r|] eqn:Hr; [|by exists 0].
  destruct (Hord _ _ _ Hfull) as (_ & o' & Ho' & Hearly). assert (o' = o) as -> by congruence.
  destruct (linked_res _ _ Hlink i o r) as (_ & or & Hor & Hin); [|done|done|].
  { rewrite Hfull. set_solver. }
  destruct (nu_all _ _ Hnu r or (Hearly _ Hr) Hor) as [id Hid]; [set_solver|].
  exists id. split; [done|]. pose proof (nu_num _ _ Hnu _ _ Hid). lia.
Qed.

Lemma parse_body X ctx i o tc bf desc id done suf na m vars tail fuel :
  full = done ++ i :: suf → copied h0 n0 done na m → h0 !! i = Some o →
  typeAt (rRef o) = Ret (ResourceType tc bf desc) → is_u 64 (rVal o) → is_u 64 (OpDiv o) → is_u 64 (OpAdd o) →
  match rRes o with Some _ => rVal o = 0 | None => OpDiv o = 0 ∧ OpAdd o = 0 end →
  refNumber ctx o id → 0 ≤ id → named X na ctx vars → avoids X [i] → delim tail →
  ∃ i1 m1, parseArgImpl target dfuel DecodeB64 DecompressCheck Compress (parseArg fuel) fuel (Some (ResourceType tc bf desc)) (rDir o)
      (P (resultBody o id ++ tail) vars m) = Ret (inr (Some (ResultArg i1)), P tail vars m1) ∧ sameAsClone i na m i1 m1.
Proof.
  intros Hfull Hc Ho Ht Hv Hdiv Hadd Hex Hid Hid0 Hna Hav Hd. unfold resultBody, refNumber in *. destruct (rRes o) as [r|] eqn:Hr.
  - destruct (Hna r id Hid) as (r1 & Hr1 & Hvar); [apply (Hav i o r); [set_solver|done|done]|].
    destruct (varName_ident id Hid0) as [_ [vl Hvl]].
    rewrite <-app_assoc. destruct (parse_ref i o (ResourceType tc bf desc) r r1 id vars m tail na done suf) as (i1 & m1 & E & Hcl); try done.
    exists i1, m1. split; [|done]. rewrite <-E, Hvl. reflexivity.
  - destruct Hex as [Hd0 Ha0].
    destruct (parse_value i o tc bf desc (rVal o) vars m tail na done suf) as (i1 & m1 & E & Hcl); try done.
    exists i1, m1. split; [|done]. by rewrite parseArg_hex.
Qed.

Lemma body_text o id : 0 ≤ id → argText (resultBody o id) ∧ unnamed (resultBody o id).
Proof.
  intros Hid. unfold resultBody. destruct (rRes o) as [r|].
  - destruct (varName_ident id Hid) as [Hvi [vl Hvl]]. split; [split|].
    + rewrite Hvl. by eexists _, _.
    + apply Forall_app. split; [by apply ident_printable|]. unfold opsText. apply Forall_app.
      split; (case_decide; [constructor; [by vm_compute|apply ident_printable, printDec_ident]|constructor]).
    + rewrite Hvl. by eexists _, _.
  - split; [apply argText_hex|]. destruct (printHex_start (rVal o)) as [l ->]. by eexists _, _.
Qed.

(** The serializer after the name of a result. *)
Definition afterName (i : positive) (o : ResultObj) (ctx : serializer) : serializer :=
  if decide (uses o ≠ ∅) then (allocVarID i ctx).2 else ctx.

Definition nameText (o : ResultObj) (ctx : serializer) : list Z :=
  if decide (uses o ≠ ∅) then chr "<" :: varName (varSeq ctx) ++ str "=>" else [].

Lemma numbered_name ctx done i suf o :
  full = done ++ i :: suf → numbered ctx done → h0 !! i = Some o → numbered (afterName i o ctx) (done ++ [i]).
Proof.
  intros Hfull [Hs Hn Ha] Ho. unfold afterName. case_decide as Hu.
  - split; cbn [allocVarID snd svars varSeq].
    + rewrite length_app. simpl. lia.
    + intros j id. rewrite lookup_insert_Some. intros [[_ <-]|[_ Hj]]; [lia|]. apply Hn in Hj. lia.
    + intros j oj Hj Hoj Huj. destruct (decide (j = i)) as [->|Hne]; [rewrite lookup_insert_eq; eauto|].
      rewrite lookup_insert_ne by done. apply (Ha j oj); [|done|done].
      apply elem_of_app in Hj as [Hj|Hj]; [done|]. by apply list_elem_of_singleton in Hj.
  - split; [rewrite length_app; simpl; lia|done|]. intros j oj Hj Hoj Huj. apply (Ha j oj); [|done|done].
    apply elem_of_app in Hj as [Hj|Hj]; [done|]. apply list_elem_of_singleton in Hj as ->. congruence.
Qed.

Lemma numbered_print text ctx done : numbered ctx done → numbered (printf text ctx) done.
Proof. by intros [? ? ?]. Qed.

(** The bound on the numbers of variables. *)
Lemma number_small ctx done suf id : full = done ++ suf → numbered ctx done → 0 ≤ id ≤ varSeq ctx → is_u 64 id.
Proof.
  intros Hfull Hnu Hid. pose proof (nu_seq _ _ Hnu). rewrite Hfull, length_app in Hmany. split; lia.
Qed.

Lemma named_name X na ctx vars done i suf o i1 :
  full = done ++ i :: suf → numbered ctx done → named X na ctx vars → na ⊆ <[i := i1]> na →
  named X (<[i := i1]> na) (afterName i o ctx)
    (if decide (uses o ≠ ∅) then <[varName (varSeq ctx) := i1]> vars else vars).
Proof.
  intros Hfull Hnu Hna Hsub. unfold afterName. case_decide as Hu; cbn [allocVarID snd].
  - intros j id. cbn [svars]. rewrite lookup_insert_Some. intros [[<- <-]|[Hne Hj]] HX.
    + exists i1. by rewrite !lookup_insert_eq.
    + destruct (Hna j id Hj HX) as (j1 & Hj1 & Hv). exists j1. split; [by eapply lookup_weaken|].
      rewrite lookup_insert_ne; [done|]. intros E. pose proof (nu_num _ _ Hnu _ _ Hj) as Hb.
      pose proof (nu_seq _ _ Hnu). apply varName_inj in E; [lia|eapply number_small; [done|done|lia]..].
  - intros j id Hj HX. destruct (Hna j id Hj HX) as (j1 & Hj1 & Hv). exists j1. split; [by eapply lookup_weaken|done].
Qed.

Lemma name_text o ctx body : 0 ≤ varSeq ctx → argText body → argText (nameText o ctx ++ body).
Proof.
  intros Hs [Hh Hp]. unfold nameText. case_decide; cbn [app]; [|by split]. split; [by eexists _, _|].
  constructor; [by vm_compute|]. apply Forall_app. split; [|done]. apply Forall_app.
  split; [by apply ident_printable, varName_ident|]. repeat constructor; by vm_compute.
Qed.

(** Reading the name in front of an argument. *)
Lemma parseArg_named fuel t dir o ctx body tail vars m a1 p' :
  0 ≤ varSeq ctx → argText body → unnamed body →
  parseArgImpl target dfuel DecodeB64 DecompressCheck Compress (parseArg fuel) fuel (Some t) dir (P (body ++ tail) vars m) =
    Ret (inr (Some (ResultArg a1)), p') →
  parseArg (S fuel) (Some t) dir (P ((nameText o ctx ++ body) ++ tail) vars m) =
    Ret (inr (Some (ResultArg a1)), if decide (uses o ≠ ∅) then setVar (varName (varSeq ctx)) a1 p' else p').
Proof.
  intros Hs Hb Hun E. unfold nameText. case_decide; cbn [app].
  2: { apply parseArg_plain; [|done]. destruct Hun as (c & l & -> & Hc). by eexists _, _. }
  destruct (varName_ident _ Hs) as [Hvi [vl Hvl]]. cbn [TextParse.parseArg]. rewrite pChar_ok, decide_True by done. rewrite pParse_ok.
  rewrite <-!app_assoc. assert (∀ l, skipWs (varName (varSeq ctx) ++ l) = varName (varSeq ctx) ++ l) as Hsk.
  { intros l. rewrite Hvl. cbn [app]. apply skipWs_not. intros [X|X]; discriminate X. }
  rewrite Hsk, pIdent_ok by (done || by rewrite Hvl). cbn [str app].
  rewrite (skipWs_not (chr "=")) by (intros [X|X]; discriminate X). rewrite pParse_ok.
  rewrite (skipWs_not (chr ">")) by (intros [X|X]; discriminate X). rewrite pParse_ok.
  rewrite argText_ws by done. rewrite E. cbn [onOk rbind gives]. rewrite decide_True by (by rewrite Hvl). done.
Qed.

Lemma reads_result i typ dir : exact h0 (ResultArg i) typ dir → reads (ResultArg i) typ dir.
Proof.
  inversion 1 as [|? o tc bf desc Ho Ht Hv Hdiv Hadd Hex| | | | | | | | |]; subst. intros done suf X ctx Hfull Hnu Hav.
  change (results (ResultArg i)) with [i] in *. cbn [app] in Hfull.
  destruct (refNumber_exists ctx done i suf o Hfull Hnu Ho) as (id & Hid & Hid0).
  destruct (body_text o id Hid0) as [Hbt Hbu]. pose proof (nu_seq _ _ Hnu) as [Hs0 _].
  exists (nameText o ctx ++ resultBody o id), (printf (nameText o ctx ++ resultBody o id) (afterName i o ctx)). split_and!.
  - cbn [TextPrint.serializeArg]. unfold serializeResult. rewrite (deref_Some _ _ _ Ho). cbn [rbind].
    destruct (Hord _ _ _ Hfull) as (Hni & o' & Ho' & Hearly). assert (o' = o) as -> by congruence.
    unfold afterName, nameText, resultBody, refNumber, opsText in *. destruct (rRes o) as [r|] eqn:Hr.
    + assert (r ≠ i) as Hri by (intros ->; by apply Hni, Hearly).
      destruct (decide (uses o ≠ ∅)); unfold allocVarID, printf; cbn [svars sbuf varSeq snd].
      * rewrite lookup_insert_ne by done. rewrite Hid. f_equal.
        repeat case_decide; cbn [sbuf svars varSeq app]; f_equal; do 3 (rewrite <-?app_assoc, ?app_nil_r; cbn [app]); done.
      * rewrite Hid. f_equal. repeat case_decide; cbn [sbuf svars varSeq app]; rewrite <-?app_assoc, ?app_nil_r; done.
    + f_equal. unfold printf. case_decide; cbn [allocVarID snd sbuf svars varSeq app]; rewrite <-?app_assoc; cbn [app]; by rewrite <-?app_assoc.
  - unfold printf, afterName. by case_decide.
  - by apply name_text.
  - apply numbered_print. by eapply numbered_name.
  - intros t' fuel tail Ht' Hd Hfuel na vars m Hna Hc. rewrite Ht in Ht'. injection Ht' as <-. destruct fuel as [|fuel]; [lia|].
    destruct (parse_body X ctx i o tc bf desc id done suf na m vars tail fuel) as (i1 & m1 & E & Hcl); try done.
    destruct (clone_done done i suf na m i1 m1 Hfull Hc Hcl) as [Hsub Hc1].
    exists (ResultArg i1), (<[i := i1]> na), (if decide (uses o ≠ ∅) then <[varName (varSeq ctx) := i1]> vars else vars), m1.
    split_and!; [|done|done|cbn [copyOf]; apply lookup_insert_eq|].
    + rewrite (parseArg_named fuel _ _ o ctx _ _ _ _ _ _ Hs0 Hbt Hbu E). by case_decide.
    + apply (named_name X na ctx vars done i suf o i1 Hfull Hnu Hna Hsub).
Qed.

(** *** Data *)

Lemma parseArg_quote fuel t dir c l vars m : c = 34 ∨ c = 39 →
  parseArgImpl target dfuel DecodeB64 DecompressCheck Compress (parseArg fuel) fuel (Some t) dir (P (c :: l) vars m) =
  parseArgString target dfuel DecodeB64 DecompressCheck Compress t dir (P (c :: l) vars m).
Proof. intros [-> | ->]; reflexivity. Qed.

(** Reading the size behind a string. *)
Lemma parseBufSize_ok n tail vars m :
  0 ≤ n ≤ maxMem → n < 2 ^ 64 → delim tail →
  parseBufSize target false (P (chr "/" :: printDec n ++ tail) vars m) = Ret (inr n, P tail vars m).
Proof.
  intros Hn Hu Hd. unfold parseBufSize. rewrite pChar_ok. cbn [andb negb]. rewrite bool_decide_true by done. cbn [andb].
  rewrite pParse_ok. destruct (printDec_cons n) as (c & l & Hl). pose proof (printDec_ident n) as Hi.
  rewrite Hl in Hi |- *. cbn [app]. rewrite skipWs_not by (by eapply identText_head). change (c :: l ++ tail) with ((c :: l) ++ tail).
  rewrite pIdent_ok by (done || by apply delim_noIdent). rewrite <-Hl, ParseUint_dec by (split; lia).
  fold maxMem. rewrite decide_False by lia. by rewrite delim_ws.
Qed.

Lemma parseBufSize_none b64 tail vars m :
  delim tail → parseBufSize target b64 (P tail vars m) = Ret (inr (2 ^ 64 - 1), P tail vars m).
Proof.
  intros Hd. destruct tail as [|c tail]; [done|]. unfold parseBufSize. rewrite pChar_ok.
  rewrite bool_decide_false; [done|]. destruct Hd as [-> |[-> |[-> | ->]]]; discriminate.
Qed.

Lemma reads_out c sz typ dir : adir c = DirOut → exact h0 (DataArg c [] sz) typ dir → reads (DataArg c [] sz) typ dir.
Proof.
  intros Hdo. inversion 1 as [| |? ? tc desc Ht _ Hsz Hmax Hfix Hcomp|? ? ? ? ? Hnd| | | | | | |]; subst; [|done].
  intros done suf X ctx Hfull Hnu Hav. set (text := [34; 34; chr "/"] ++ printDec sz).
  exists text, (printf text ctx). rewrite app_nil_r. split_and!; [|done| |by destruct Hnu|].
  - cbn [TextPrint.serializeArg]. unfold serializeDataArg. rewrite Ht. cbn [rbind]. rewrite decide_True by done. reflexivity.
  - split; [by eexists _, _|]. apply Forall_app. split; [repeat constructor; by vm_compute|apply ident_printable, printDec_ident].
  - intros t' fuel tail Ht' Hd Hfuel na vars m Hna Hc. rewrite Ht in Ht'. injection Ht' as <-. destruct fuel as [|fuel]; [lia|].
    exists (DataArg (MkCommon (mNext m) (aref c) DirOut) [] sz), na, vars, (Mem (mHeap m) (Pos.succ (mNext m))).
    rewrite app_nil_r. split_and!; [|done|by apply copied_next|by rewrite <-Hdo|done].
    apply parseArg_plain; [by eexists _, _|]. unfold text. rewrite <-!app_assoc. cbn [app]. rewrite parseArg_quote by (by left).
    unfold parseArgString. cbn [lex].
    change (34 :: 34 :: chr "/" :: printDec sz ++ tail) with ([34] ++ hexEncode [] ++ [34] ++ (chr "/" :: printDec sz ++ tail)).
    rewrite deserializeData_hex by constructor. rewrite (skipWs_not (chr "/")) by (intros [E|E]; discriminate E). unfold setLex. cbn [pvars pautos pcomment pdata pmem].
    assert ((IsCompressed desc && negb (DecompressCheck [])) = false) as -> by (destruct (IsCompressed desc); [by rewrite Hcomp|done]).
    rewrite parseBufSize_ok by (done || lia). cbn [onOk rbind].
    assert ((if negb (Varlen (BufferType tc desc)) then Types.Size (BufferType tc desc)
      else Ret (if decide (sz = 2 ^ 64 - 1) then Z.of_nat (length (@nil Z)) else sz)) = Ret sz) as ->.
    { unfold Varlen, Types.Size. cbn [common]. destruct (IsVarlen tc) eqn:Ev; cbn [negb]; [by rewrite decide_False by lia|]. by rewrite <-Hfix. }
    cbn [rbind]. rewrite decide_True by done. unfold making, MakeOutDataArg. rewrite decide_False by tauto. cbn [pmem].
    by rewrite (ref_ok _ _ Ht).
Qed.

(** What was stripped is filled in again. *)
Lemma fill_zeros d e k :
  d = e ++ replicate k 0 → Z.of_nat (length d) < 2 ^ 63 →
  (if decide (0 < wrapS 64 (Z.of_nat (length d)) - Z.of_nat (length e))
   then e ++ replicate (Z.to_nat (wrapS 64 (Z.of_nat (length d)) - Z.of_nat (length e))) 0 else e) = d.
Proof.
  intros Hd Hlen. assert (wrapS 64 (Z.of_nat (length d)) = Z.of_nat (length d)) as ->.
  { unfold wrapS. rewrite Z.mod_small by lia. lia. }
  assert (length d = (length e + k)%nat) as Hl by (by rewrite Hd, length_app, length_replicate).
  rewrite Hl. case_decide.
  - replace (Z.to_nat (Z.of_nat (length e + k) - Z.of_nat (length e))) with k by lia. done.
  - assert (k = 0%nat) as -> by lia. by rewrite Hd, app_nil_r.
Qed.

(** A string was read as [e] with the size [size]. *)
Lemma parseString_ok c d tc desc e k b64 size s tail1 tail vars m :
  exact h0 (DataArg c d 0) (aref c) (adir c) → adir c ≠ DirOut → typeAt (aref c) = Ret (BufferType tc desc) →
  deserializeData DecodeB64 (MkParser s None st) = (inr (e, b64), MkParser tail1 None st) →
  parseBufSize target b64 (P tail1 vars m) = Ret (inr size, P tail vars m) →
  d = e ++ replicate k 0 → (IsCompressed desc = true → e = d) →
  (IsVarlen tc = true → size = Z.of_nat (length d) ∨ size = 2 ^ 64 - 1 ∧ e = d) →
  parseArgString target dfuel DecodeB64 DecompressCheck Compress (BufferType tc desc) (adir c) (P s vars m) =
    Ret (inr (Some (DataArg (MkCommon (mNext m) (aref c) (adir c)) d 0)), P tail vars (Mem (mHeap m) (Pos.succ (mNext m)))).
Proof.
  intros Hex Hdir Ht Hdes Hsize Hd Hcomp Hvar.
  inversion Hex as [| |? ? ? ? ? ?|? ? tc' desc' Ht' _ Hb Hmax Hlen Hfix Hval Hdec| | | | | | |]; subst; [done|].
  rewrite Ht in Ht'. injection Ht' as <- <-. set (d := e ++ replicate k 0) in *.
  unfold parseArgString. cbn [lex]. rewrite Hdes. unfold setLex. cbn [pvars pautos pcomment pdata pmem].
  assert ((IsCompressed desc && negb (DecompressCheck e)) = false) as ->.
  { destruct (IsCompressed desc); [|done]. rewrite (Hcomp eq_refl). by rewrite Hdec. }
  rewrite Hsize. cbn [onOk rbind].
  assert ((if negb (Varlen (BufferType tc desc)) then Types.Size (BufferType tc desc)
    else Ret (if decide (size = 2 ^ 64 - 1) then Z.of_nat (length e) else size)) = Ret (Z.of_nat (length d))) as ->.
  { unfold Varlen, Types.Size. cbn [common]. destruct (IsVarlen tc) eqn:Ev; cbn [negb]; [|by rewrite <-Hfix].
    destruct (Hvar eq_refl) as [-> |[-> He]]; [by rewrite decide_False by lia|]. rewrite decide_True by done. by rewrite <-He. }
  cbn [rbind]. rewrite decide_False by done. cbn zeta. rewrite (fill_zeros d e k) by done. rewrite decide_True by done.
  rewrite Nat2Z.id, firstn_all, Hval. unfold making, MakeDataArg. rewrite decide_False by done. cbn [pmem].
  by rewrite (ref_ok _ _ Ht).
Qed.

(** The text of data, as what the parser makes of it. *)
Lemma data_read c d tc desc ctx :
  exact h0 (DataArg c d 0) (aref c) (adir c) → adir c ≠ DirOut → typeAt (aref c) = Ret (BufferType tc desc) →
  ∃ text, serializeDataArg target h0 EncodeB64 c d 0 ctx = Ret (printf text ctx) ∧ Forall printable text ∧
    (∃ l, text = 34 :: l ∨ text = 39 :: l) ∧
    ∀ tail vars m, delim tail →
      parseArgString target dfuel DecodeB64 DecompressCheck Compress (BufferType tc desc) (adir c) (P (text ++ tail) vars m) =
        Ret (inr (Some (DataArg (MkCommon (mNext m) (aref c) (adir c)) d 0)), P tail vars (Mem (mHeap m) (Pos.succ (mNext m)))).
Proof.
  intros Hex Hdir Ht. pose proof Hex as Hex'.
  inversion Hex' as [| |? ? ? ? ? ?|? ? tc' desc' Ht' _ Hb Hmax Hlen Hfix Hval Hdec| | | | | | |]; subst; [done|].
  rewrite Ht in Ht'. injection Ht' as <- <-. unfold serializeDataArg. rewrite Ht. cbn [rbind]. rewrite decide_False by done.
  destruct (IsCompressed desc) eqn:Ec.
  { pose proof (b64_text d Hb) as Htx. exists ([34; chr "$"] ++ EncodeB64 d ++ [34]). split_and!; [done| |by eexists; left|].
    - apply Forall_app. split; [repeat constructor; by vm_compute|]. apply Forall_app. split; [|repeat constructor; by vm_compute].
      eapply Forall_impl; [exact Htx|]. by intros x [? _].
    - intros tail vars m Hd. rewrite <-!app_assoc. eapply (parseString_ok c d tc desc d 0 true (2 ^ 64 - 1) _ tail tail); try done.
      + rewrite (deserializeData_b64 DecodeB64 (EncodeB64 d) d); [by rewrite delim_ws|by apply b64_decode|].
        eapply Forall_impl; [exact Htx|]. by intros x [_ ?].
      + by apply parseBufSize_none.
      + by rewrite app_nil_r.
      + intros _. by right. }
  destruct (stripZeros_pad d) as [k Hk].
  set (short := if Varlen (BufferType tc desc) && bool_decide (Z.of_nat (length d) ≤ Z.of_nat (length (stripZeros d)) + 8) then d else stripZeros d).
  assert (∃ j, d = short ++ replicate j 0) as [j Hj]
    by (unfold short; destruct (_ && _); [exists 0%nat; by rewrite app_nil_r|eauto]).
  assert (Forall isByte short) as Hbs by (rewrite Hj in Hb; by apply Forall_app in Hb as [? _]).
  destruct (data_text DecodeB64 short (isReadableDataType desc) (sbuf ctx) Hbs) as (text & -> & Hpr & (l & Hl) & Hdes). cbn [rbind].
  destruct (Varlen (BufferType tc desc) && bool_decide (Z.of_nat (length d) ≠ Z.of_nat (length short))) eqn:Es.
  - apply andb_prop in Es as [Ev Hne]. exists (text ++ chr "/" :: printInt (Z.of_nat (length d))). split_and!.
    + unfold printf. cbn [sbuf svars varSeq]. by rewrite app_assoc.
    + apply Forall_app. split; [done|]. unfold printInt. rewrite decide_False by lia.
      constructor; [by vm_compute|apply ident_printable, printDec_ident].
    + destruct Hl as [-> | ->]; eexists; [left|right]; reflexivity.
    + intros tail vars m Hd. rewrite <-app_assoc. unfold printInt. rewrite decide_False by lia. cbn [app].
      eapply (parseString_ok c d tc desc short j false (Z.of_nat (length d)) _ (chr "/" :: printDec (Z.of_nat (length d)) ++ tail) tail); try done.
      * apply parseBufSize_ok; [lia|lia|done].
      * by rewrite Ec.
      * by left.
  - exists text. split_and!; [done|done|eauto|]. intros tail vars m Hd.
    eapply (parseString_ok c d tc desc short j false (2 ^ 64 - 1) _ tail tail); try done.
    + rewrite Hdes. by rewrite delim_ws.
    + by apply parseBufSize_none.
    + by rewrite Ec.
    + intros Ev. right. split; [done|]. unfold Varlen in Es. cbn [common] in Es. rewrite Ev in Es. cbn [andb] in Es.
      apply bool_decide_eq_false, dec_stable in Es. apply Nat2Z.inj in Es.
      rewrite Hj, length_app, length_replicate in Es. assert (j = 0%nat) as -> by lia. by rewrite Hj, app_nil_r.
Qed.

Lemma reads_data c d sz typ dir : exact h0 (DataArg c d sz) typ dir → reads (DataArg c d sz) typ dir.
Proof.
  intros Hex. destruct (decide (adir c = DirOut)) as [Hdo|Hdo].
  { inversion Hex; subst; [by apply reads_out|done]. }
  pose proof Hex as Hex'. inversion Hex' as [| |? ? ? ? ? ?|? ? tc desc Ht| | | | | | |]; subst; [congruence|].
  intros done suf X ctx Hfull Hnu Hav.
  destruct (data_read c d tc desc ctx Hex Hdo Ht) as (text & Hser & Hpr & (l & Hl) & Hparse).
  exists text, (printf text ctx). rewrite app_nil_r. split_and!; [done|done| |by destruct Hnu|].
  - split; [|done]. destruct Hl as [-> | ->]; by eexists _, _.
  - intros t' fuel tail Ht' Hd Hfuel na vars m Hna Hc. rewrite Ht in Ht'. injection Ht' as <-. destruct fuel as [|fuel]; [lia|].
    exists (DataArg (MkCommon (mNext m) (aref c) (adir c)) d 0), na, vars, (Mem (mHeap m) (Pos.succ (mNext m))).
    rewrite app_nil_r. split_and!; [|done|by apply copied_next|done|done]. apply parseArg_plain.
    + destruct Hl as [-> | ->]; by eexists _, _.
    + specialize (Hparse tail vars m Hd). destruct Hl as [-> | ->]; cbn [app] in *; rewrite parseArg_quote by tauto; exact Hparse.
Qed.

(** *** Pointers *)

Lemma addr_cons ad v : ∃ l, serializeAddr ad v = chr "(" :: l.
Proof. unfold serializeAddr. cbn [str app]. eauto. Qed.

Lemma addr_printable ad v : Forall printable (serializeAddr ad v).
Proof.
  unfold serializeAddr. cbn [str app]. constructor; [by vm_compute|]. apply Forall_app. split; [apply ident_printable, printHex_ident|].
  case_decide; cbn [app]; [|repeat constructor; by vm_compute].
  constructor; [by vm_compute|]. apply Forall_app. split; [apply ident_printable, printHex_ident|repeat constructor; by vm_compute].
Qed.

Lemma parsePtrAddr_ok k isPtr ad v tail vars m :
  goodAddr target k ad v →
  parsePtrAddr target isPtr (P (serializeAddr ad v ++ tail) vars m) = Ret (inr (false, ad, v), P (skipWs tail) vars m).
Proof.
  intros Hg. unfold parsePtrAddr. destruct (addr_cons ad v) as [l Hl]. rewrite Hl at 1. cbn [app]. rewrite pChar_ok.
  rewrite decide_False by done. change (chr "(" :: l ++ tail) with ((chr "(" :: l) ++ tail). rewrite <-Hl.
  cbn [lex]. rewrite (addr_roundtrip target k) by done. reflexivity.
Qed.

(** The text of a pointer in front of that of its pointee. *)
Definition ptrText (ad : Z) (any : bool) : list Z :=
  chr "&" :: serializeAddr ad 0 ++ str "=" ++ (if any then str "ANY=" else []).

Lemma parseArg_addr fuel t dir l vars m :
  parseArgImpl target dfuel DecodeB64 DecompressCheck Compress (parseArg fuel) fuel (Some t) dir (P (chr "&" :: l) vars m) =
  parseArgAddr target dfuel (parseArg fuel) t dir (P (chr "&" :: l) vars m).
Proof. reflexivity. Qed.

Lemma parsePointee_plain rec t elem ed te text tail vars m inner p' :
  argText text → typeAt elem = Ret te → rec (Some te) ed (P (text ++ tail) vars m) = Ret (inr inner, p') →
  parsePointee target rec t (Some elem) ed (P (str "=" ++ text ++ tail) vars m) = Ret (inr (t, Some elem, ed, inner), p').
Proof.
  intros Ha Hte Hrec. unfold parsePointee. change (str "=" ++ text ++ tail) with (chr "=" :: text ++ tail). rewrite pChar_ok, decide_True by done. rewrite pParse_ok.
  rewrite argText_ws by done.
  assert (HasNext (lex (P (text ++ tail) vars m)) (str "ANY") = false) as ->.
  { destruct (at_head _ Ha) as (c & l & -> & Hc). unfold HasNext. cbn [lex perr rest app]. apply bool_decide_eq_false. intros E.
    cbn in E. injection E as -> _. discriminate Hc. }
  cbn [rbind]. rewrite Hte. cbn [rbind]. by rewrite Hrec.
Qed.

Lemma parsePointee_any rec t elem0 ed0 sz tc elem ed te text tail vars m inner p' :
  argText text → Types.Size t = Ret sz → Squash.getAnyPtrType target sz = Ret (PtrType tc elem ed) →
  typeAt elem = Ret te → rec (Some te) ed (P (text ++ tail) vars m) = Ret (inr inner, p') →
  parsePointee target rec t elem0 ed0 (P (str "=" ++ str "ANY=" ++ text ++ tail) vars m) =
    Ret (inr (PtrType tc elem ed, Some elem, ed, inner), p').
Proof.
  intros Ha Hsz Hany Hte Hrec. unfold parsePointee.
  change (str "=" ++ str "ANY=" ++ text ++ tail) with (chr "=" :: chr "A" :: chr "N" :: chr "Y" :: chr "=" :: text ++ tail).
  rewrite pChar_ok, decide_True by done. rewrite pParse_ok. rewrite skipWs_not by (intros [E|E]; discriminate E).
  replace (HasNext _ _) with true by reflexivity. rewrite Hsz. cbn [rbind]. rewrite Hany. cbn [rbind].
  unfold pParseAll. cbn [str foldl]. do 3 (rewrite pParse_ok, skipWs_not by (intros [E|E]; discriminate E)). rewrite pParse_ok.
  rewrite argText_ws by done. rewrite Hte. cbn [rbind]. by rewrite Hrec.
Qed.

Lemma parseArgAddr_ok rec t0 dir k ad l tail vars m t1 r te elem ed inner vars1 m1 :
  isPtrOrVma t0 = true → goodAddr target k ad 0 → typeAt elem = Ret te → typeAt r = Ret t1 →
  skipWs l = l →
  (∀ elem0 ed0, match t0 with PtrType _ e d => elem0 = Some e ∧ ed0 = d | _ => elem0 = None end →
     parsePointee target rec t0 elem0 ed0 (P l vars m) = Ret (inr (t1, Some elem, ed, Some inner), P tail vars1 m1)) →
  parseArgAddr target dfuel rec t0 dir (P (chr "&" :: serializeAddr ad 0 ++ l) vars m) =
    Ret (inr (Some (PointerArg (MkCommon (mNext m1) r DirIn) ad 0 (Some inner))), P tail vars1 (Mem (mHeap m1) (Pos.succ (mNext m1)))).
Proof.
  intros Hpv Hg Hte Ht1 Hl Hpt. unfold parseArgAddr. rewrite pParse_ok. destruct (addr_cons ad 0) as [al Hal].
  assert (skipWs (serializeAddr ad 0 ++ l) = serializeAddr ad 0 ++ l) as Hsk.
  { rewrite Hal. cbn [app]. apply skipWs_not. intros [E|E]; discriminate E. }
  destruct t0 as [| | | | | | |tc0 rb re| | |tc0 e0 d0| |]; try discriminate Hpv; rewrite Hsk, (parsePtrAddr_ok k) by done; cbn [onOk rbind];
    rewrite Hl, Hpt by done; cbn [onOk rbind]; rewrite Hte; cbn [rbind gives onOk]; unfold MakePointerArg; cbn [pmem];
    rewrite (ref_ok _ _ Ht1); reflexivity.
Qed.

Lemma anyRef_ptr r tc elem ed : typeAt r = Ret (PtrType tc elem ed) →
  isAnyPtrRef target r = Ret (bool_decide (elem = anyArray target)).
Proof. intros H. unfold isAnyPtrRef. rewrite H. reflexivity. Qed.

Lemma ptrText_text ad any text : argText text → argText (ptrText ad any ++ text).
Proof.
  intros [_ Hp]. unfold ptrText. split; [by eexists _, _|]. cbn [app]. constructor; [by vm_compute|].
  rewrite <-!app_assoc. apply Forall_app. split; [apply addr_printable|]. apply Forall_app. split; [repeat constructor; by vm_compute|].
  apply Forall_app. split; [|done]. destruct any; repeat constructor; by vm_compute.
Qed.

(** A pointer whose pointee is read back is read back. *)
Lemma reads_ptr c ad p typ dir :
  (∀ typ dir, exact h0 p typ dir → reads p typ dir) →
  exact h0 (PointerArg c ad 0 (Some p)) typ dir → reads (PointerArg c ad 0 (Some p)) typ dir.
Proof.
  intros IH Hex. assert (∃ t0 tc elem ed k, typeAt typ = Ret t0 ∧ isPtrOrVma t0 = true ∧ typeAt (aref c) = Ret (PtrType tc elem ed) ∧
      adir c = DirIn ∧ goodAddr target k ad 0 ∧ exact h0 p elem ed ∧
      (elem ≠ anyArray target ∧ typ = aref c ∨
       elem = anyArray target ∧ ∃ sz, Types.Size t0 = Ret sz ∧ Squash.getAnyPtrType target sz = Ret (PtrType tc elem ed)))
    as (t0 & tc & elem & ed & k & Ht0 & Hpv & Ht & Hdir & Hg & Hp & Hcase).
  { inversion Hex; subst; [eexists _, _, _, _, _; split_and!; eauto; done|].
    eexists _, _, _, _, _; split_and!; eauto 6. }
  destruct (exact_type _ _ _ _ Hp) as [te Hte].
  intros done suf X ctx Hfull Hnu Hav. set (any := bool_decide (elem = anyArray target)).
  destruct (IH elem ed Hp done suf X (printf (ptrText ad any) ctx) Hfull (numbered_print _ _ _ Hnu) Hav)
    as (text & ctx' & Hser & Hbuf & Hat & Hnu' & Hparse).
  exists (ptrText ad any ++ text), ctx'. split_and!; [|by rewrite Hbuf, app_assoc|by apply ptrText_text|done|].
  - cbn [TextPrint.serializeArg]. replace (isSpecial ad 0 (Some p)) with false by (unfold isSpecial; by rewrite andb_false_r).
    rewrite (anyRef_ptr _ _ _ _ Ht). fold any. cbn [rbind]. rewrite <-Hser. f_equal. unfold printf, ptrText. cbn [sbuf svars varSeq].
    destruct any; cbn [sbuf svars varSeq]; rewrite ?app_nil_r, <-!app_assoc; cbn [app]; by rewrite <-?app_assoc.
  - intros t' fuel tail Ht' Hd Hfuel na vars m Hna Hc. rewrite Ht0 in Ht'. injection Ht' as <-. destruct fuel as [|fuel]; [lia|].
    assert (length text < fuel)%nat as Hf.
    { rewrite length_app in Hfuel. unfold ptrText in Hfuel. cbn [length] in Hfuel. lia. }
    destruct (Hparse te fuel tail Hte Hd Hf na vars m Hna Hc) as (a1 & na' & vars' & m' & E & Hsub & Hc' & Hcp & Hn').
    exists (PointerArg (MkCommon (mNext m') (aref c) DirIn) ad 0 (Some a1)), na', vars', (Mem (mHeap m') (Pos.succ (mNext m'))).
    split_and!; [|done|by apply copied_next|by cbn [copyOf]; rewrite Hdir|done].
    apply parseArg_plain; [by eexists _, _|]. unfold ptrText. cbn [app]. rewrite <-!app_assoc, parseArg_addr.
    apply (parseArgAddr_ok (parseArg fuel) t0 dir k ad _ tail vars m (PtrType tc elem ed) (aref c) te elem ed a1 vars' m'); try done.
    intros elem0 ed0 He. unfold any. destruct Hcase as [[Hne ->]|(Heq & sz & Hsz & Hany)].
    + rewrite Ht in Ht0. injection Ht0 as <-. destruct He as [-> ->]. rewrite bool_decide_false by done. cbn [app].
      by apply (parsePointee_plain _ _ _ _ te).
    + rewrite bool_decide_true by done. by apply (parsePointee_any _ _ _ _ sz tc elem ed te).
Qed.

Lemma parseArg_nil fuel tail vars m :
  delim tail → parseArg (S fuel) None DirInOut (P (str "nil" ++ tail) vars m) = Ret (inr None, P tail vars m).
Proof.
  intros Hd. change (str "nil" ++ tail) with (chr "n" :: chr "i" :: chr "l" :: tail). cbn [TextParse.parseArg]. rewrite pChar_ok.
  rewrite decide_False by done. unfold parseArgImpl. rewrite pChar_ok. rewrite decide_False by tauto.
  unfold pParseAll. cbn [str foldl]. do 2 (rewrite pParse_ok, skipWs_not by (intros [E|E]; discriminate E)).
  rewrite pParse_ok, delim_ws by done. reflexivity.
Qed.

Lemma reads_vma c ad v typ dir : isSpecial ad v None = false →
  exact h0 (PointerArg c ad v None) typ dir → reads (PointerArg c ad v None) typ dir.
Proof.
  intros Hns. inversion 1 as [| | | |? t ? idx ? ? ? Hidx| | |? ? ? tc rb re k Ht Hg Hk Hal _| | |]; subst.
  { exfalso. destruct (tt_special Htab). unfold isSpecial in Hns. rewrite neg_neg in Hns by lia.
    unfold maxSpecialPointers in Hns. by rewrite !bool_decide_true in Hns by lia. }
  intros done suf X ctx Hfull Hnu Hav. set (text := chr "&" :: serializeAddr ad v ++ str "=" ++ str "nil").
  exists text, (printf text ctx). rewrite app_nil_r. split_and!; [|done| |by destruct Hnu|].
  - cbn [TextPrint.serializeArg]. rewrite Hns. unfold isAnyPtrRef. rewrite Ht. cbn [rbind]. f_equal. unfold printf, text.
    cbn [sbuf svars varSeq]. f_equal. rewrite <-!app_assoc. cbn [app]. by rewrite <-?app_assoc.
  - split; [by eexists _, _|]. constructor; [by vm_compute|]. apply Forall_app. split; [apply addr_printable|].
    repeat constructor; by vm_compute.
  - intros t' fuel tail Ht' Hd Hfuel na vars m Hna Hc. rewrite Ht in Ht'. injection Ht' as <-. destruct fuel as [|[|fuel]]; [lia| |].
    { unfold text in Hfuel. cbn [length] in Hfuel. lia. }
    exists (PointerArg (MkCommon (mNext m) (aref c) (adir c)) ad v None), na, vars, (Mem (mHeap m) (Pos.succ (mNext m))).
    rewrite app_nil_r. split_and!; [|done|by apply copied_next|done|done].
    apply parseArg_plain; [by eexists _, _|]. unfold text. cbn [app]. rewrite <-!app_assoc, parseArg_addr.
    unfold parseArgAddr. rewrite pParse_ok. destruct (addr_cons ad v) as [al Hal'].
    assert (∀ l, skipWs (serializeAddr ad v ++ l) = serializeAddr ad v ++ l) as Hsk.
    { intros l. rewrite Hal'. cbn [app]. apply skipWs_not. intros [E|E]; discriminate E. }
    rewrite Hsk, (parsePtrAddr_ok k) by done. cbn [onOk rbind].
    change (str "=" ++ str "nil" ++ tail) with (chr "=" :: str "nil" ++ tail).
    rewrite skipWs_not by (intros [E|E]; discriminate E). unfold parsePointee. rewrite pChar_ok, decide_True by done. rewrite pParse_ok.
    change (skipWs (str "nil" ++ tail)) with (str "nil" ++ tail). replace (HasNext _ _) with false by reflexivity. cbn [rbind].
    rewrite parseArg_nil by done. cbn [onOk rbind gives]. destruct Hg as (Hps & Hk40 & _). rewrite Hps.
    assert (0 < 2 ^ k) as Hpos by lia. rewrite decide_False by lia.
    rewrite bool_decide_false by (intros Hm; apply Hm; by apply Z.mod_divide; [lia|]). unfold making, MakeVmaPointerArg. cbn [pmem].
    assert (ad mod 1024 = 0) as Hm.
    { apply Z.mod_divide; [lia|]. etrans; [|exact Hal]. exists (2 ^ (k - 10)).
      change 1024 with (2 ^ 10). rewrite <-Z.pow_add_r by lia. f_equal. lia. }
    rewrite decide_False by lia. by rewrite (ref_ok _ _ Ht).
Qed.

(** *** Lists of arguments *)

(** An element with the type and the direction expected of it; elements of padding types are
    not printed. *)
Definition item : Type := Arg * Ref * Dir.

Definition isPadItem (x : item) : bool :=
  match argType target h0 x.1.1 with Ret t => IsPad t | _ => false end.

Definition sep (i : nat) (ctx : serializer) : serializer := if decide (i ≠ 0%nat) then printf (str ", ") ctx else ctx.

(** The texts of the elements from the number [i] on; [None] is padding. *)
Inductive printed (X : list positive) : list item → nat → list positive → serializer → list (option (list Z)) → serializer → Prop :=
| printed_nil i done ctx : printed X [] i done ctx [] ctx
| printed_pad x l i done ctx ts ctx' : isPadItem x = true → results x.1.1 = [] →
    printed X l (S i) done ctx ts ctx' → printed X (x :: l) i done ctx (None :: ts) ctx'
| printed_arg a typ dir l i done ctx T ctx1 ts ctx' : isPadItem (a, typ, dir) = false → argText T →
    (∀ t fuel tail, typeAt typ = Ret t → delim tail → (length T < fuel)%nat →
       parsesTo X a done ctx ctx1 (λ m vars, parseArg fuel (Some t) dir (P (T ++ tail) vars m)) tail) →
    printed X l (S i) (done ++ results a) ctx1 ts ctx' → printed X ((a, typ, dir) :: l) i done ctx (Some T :: ts) ctx'.

(** The texts that are there, with commas between them. *)
Definition sepd (ts : list (list Z)) : list Z := concat ((λ t, str ", " ++ t) <$> ts).
Definition joined (ts : list (list Z)) : list Z := match ts with [] => [] | t :: ts => t ++ sepd ts end.
Definition shownTexts (ts : list (option (list Z))) : list (list Z) := omap id ts.

Lemma sep_svars i ctx : svars (sep i ctx) = svars ctx.
Proof. unfold sep. by case_decide. Qed.
Lemma numbered_sep i ctx done : numbered ctx done → numbered (sep i ctx) done.
Proof. unfold sep. case_decide; [apply numbered_print|done]. Qed.

(** Elements that are padding or read back can be printed. *)
Lemma print_items X l : ∀ i done suf ctx shown,
  (∀ x, x ∈ l → (∃ t, argType target h0 x.1.1 = Ret t) ∧
     (isPadItem x = true ∧ results x.1.1 = [] ∨ isPadItem x = false ∧ reads x.1.1 x.1.2 x.2)) →
  (i = 0%nat → ∀ x, head l = Some x → isPadItem x = false) →
  full = done ++ concat ((λ x : item, results x.1.1) <$> l) ++ suf → numbered ctx done → (i + length l ≤ shown)%nat →
  (∀ x, x ∈ l → avoids X (results x.1.1)) →
  ∃ ts ctx', printList target h0 serializeArg shown i ((λ x : item, x.1.1) <$> l) ctx = Ret ctx' ∧
    sbuf ctx' = sbuf ctx ++ (if decide (i = 0%nat) then joined (shownTexts ts) else sepd (shownTexts ts)) ∧
    numbered ctx' (done ++ concat ((λ x : item, results x.1.1) <$> l)) ∧ printed X l i done ctx ts ctx'.
Proof.
  induction l as [|[[a typ] dir] l IH]; intros i done suf ctx shown Hl Hhead Hfull Hnu Hsh Hav.
  { exists [], ctx. cbn [fmap list_fmap concat printList]. rewrite app_nil_r. split_and!; [done| |done|constructor].
    unfold joined, sepd. simpl. case_decide; by rewrite app_nil_r. }
  rewrite !fmap_cons in *. cbn [concat fst snd] in *. rewrite <-app_assoc in Hfull. cbn [length] in Hsh.
  destruct (Hl (a, typ, dir) (list_elem_of_here _ _)) as ([t Ht] & Hx). cbn [fst snd] in *.
  cbn [printList]. rewrite decide_True by lia. rewrite Ht. cbn [rbind].
  assert (isPadItem (a, typ, dir) = IsPad t) as Hpad by (unfold isPadItem; cbn [fst]; by rewrite Ht). rewrite Hpad in Hx.
  destruct Hx as [[Hp Hr]|[Hp Hr]]; rewrite Hp.
  - rewrite Hr in *. cbn [app] in *.
    destruct (IH (S i) done suf ctx shown) as (ts & ctx' & -> & Hb & Hn & Hpr); [by intros x Hx; apply Hl, list_elem_of_further|lia|done|done|lia|
      by intros x Hx; apply Hav, list_elem_of_further|].
    exists (None :: ts), ctx'. split_and!; [done| |done|by apply printed_pad; rewrite ?Hpad].
    assert (i ≠ 0%nat) as Hi by (intros Hi; specialize (Hhead Hi _ eq_refl); congruence).
    rewrite decide_False by lia. cbn [shownTexts omap list_omap id]. rewrite decide_False in Hb by lia.
    rewrite Hb. fold (shownTexts ts). done.
  - fold (sep i ctx).
    destruct (Hr done (concat ((λ x : item, results x.1.1) <$> l) ++ suf) X (sep i ctx) Hfull (numbered_sep _ _ _ Hnu)
      (Hav _ (list_elem_of_here _ _))) as (T & ctx1 & -> & Hb & Hat & Hn1 & Hparse).
    cbn [rbind].
    destruct (IH (S i) (done ++ results a) suf ctx1 shown) as (ts & ctx' & -> & Hb' & Hn & Hpr);
      [by intros x Hx; apply Hl, list_elem_of_further|lia|by rewrite <-app_assoc|done|lia|by intros x Hx; apply Hav, list_elem_of_further|].
    exists (Some T :: ts), ctx'. split_and!; [done| |by rewrite app_assoc|].
    + rewrite decide_False in Hb' by lia. rewrite Hb', Hb. cbn [shownTexts omap list_omap id joined]. fold (shownTexts ts).
      unfold sep. destruct (decide (i ≠ 0%nat)) as [Hi|Hi].
      * rewrite decide_False by done. unfold printf. cbn [sbuf]. unfold sepd. rewrite fmap_cons. cbn [concat]. by rewrite <-!app_assoc.
      * rewrite decide_True by lia. by rewrite <-app_assoc.
    + eapply printed_arg; [by rewrite Hpad|done| |exact Hpr]. intros t' fuel tail Ht' Hd Hf na vars m Hna Hc.
      destruct (Hparse t' fuel tail Ht' Hd Hf na vars m) as (a1 & na' & vars' & m' & E & ?); [|done|by exists a1, na', vars', m'].
      intros j id. rewrite sep_svars. apply Hna.
Qed.

Lemma printed_texts X l i done ctx ts ctx' : printed X l i done ctx ts ctx' → Forall argText (shownTexts ts).
Proof. induction 1; simpl; [constructor|done|by constructor]. Qed.

(** *** Loops over elements *)

Definition closing (c : Z) : Prop := c = chr ")" ∨ c = chr "]" ∨ c = chr "}".

Lemma closing_delim cl tail : closing cl → delim (cl :: tail).
Proof. intros H. by right. Qed.
Lemma sepd_delim ts cl tail : closing cl → delim (sepd ts ++ cl :: tail).
Proof. intros Hc. destruct ts; [by apply closing_delim|by left]. Qed.
Lemma closing_start c cl : closing cl → argStart c = true → c ≠ cl.
Proof. intros [->|[->| ->]] Hc ->; discriminate Hc. Qed.

(** The character in front of the next element. *)
Lemma pChar_joined T ts cl tail vars m : argText T → closing cl →
  ∃ c, pChar (P (joined (T :: ts) ++ cl :: tail) vars m) = (c, P (joined (T :: ts) ++ cl :: tail) vars m) ∧ c ≠ cl.
Proof.
  intros HT Hc. destruct (at_head _ HT) as (c & l & -> & Hs). exists c. split; [done|by eapply closing_start].
Qed.

(** After an element, the comma and the space are skipped. *)
Lemma comma_text ts cl tail vars m : Forall (λ T, ∀ l, skipWs (T ++ l) = T ++ l) ts → closing cl →
  (let (c, p) := pChar (P (sepd ts ++ cl :: tail) vars m) in if decide (c ≠ cl) then pParse (chr ",") p else p) =
  P (joined ts ++ cl :: tail) vars m.
Proof.
  intros Hts Hc. destruct ts as [|T ts]; cbn [sepd joined fmap list_fmap concat app].
  { rewrite pChar_ok. by rewrite decide_False by (intros Hn; by apply Hn). }
  change (pChar _) with (chr ",", P (chr "," :: chr " " :: (T ++ concat ((λ t, str ", " ++ t) <$> ts)) ++ cl :: tail) vars m).
  cbv beta iota. rewrite decide_True by (destruct Hc as [->|[->| ->]]; discriminate). rewrite pParse_ok. f_equal. f_equal.
  inversion Hts as [|? ? HT _]; subst. fold (sepd ts). rewrite <-!app_assoc.
  change (skipWs (chr " " :: T ++ sepd ts ++ cl :: tail)) with (skipWs (T ++ sepd ts ++ cl :: tail)). apply HT.
Qed.

Lemma comma_ok ts cl tail vars m : Forall argText ts → closing cl →
  (let (c, p) := pChar (P (sepd ts ++ cl :: tail) vars m) in if decide (c ≠ cl) then pParse (chr ",") p else p) =
  P (joined ts ++ cl :: tail) vars m.
Proof. intros Hts. apply comma_text. eapply Forall_impl; [exact Hts|]. intros T HT l. by apply argText_ws. Qed.

Lemma joined_length T ts : argText T → (length T ≤ length (joined (T :: ts)) ∧ length (joined ts) < length (joined (T :: ts)))%nat.
Proof.
  intros HT. destruct (at_head _ HT) as (c & l & -> & _). cbn [joined]. rewrite !length_app. cbn [length].
  destruct ts as [|T' ts]; cbn [joined length]; [lia|]. unfold sepd at 3. rewrite fmap_cons. cbn [concat].
  rewrite !length_app. fold (sepd ts). lia.
Qed.

(** What a loop over the elements [l] makes of their texts. *)
Definition listReads (X : list positive) (l : list item) (done : list positive) (ctx ctx' : serializer)
    (run : mem → gmap (list Z) positive → list Arg → pst → Prop) (tail : list Z) : Prop :=
  ∀ na vars m, named X na ctx vars → copied h0 n0 done na m →
    ∃ l1 na' vars' m', run m vars l1 (P tail vars' m') ∧ na ⊆ na' ∧
      copied h0 n0 (done ++ concat ((λ x : item, results x.1.1) <$> l)) na' m' ∧
      Forall2 (copyOf na') ((λ x : item, x.1.1) <$> l) l1 ∧ named X na' ctx' vars'.

(** One element more. *)
Lemma listReads_cons X a typ dir l done ctx ctx1 ctx' run1 run2 run tail tail' :
  parsesTo X a done ctx ctx1 run1 tail → (∀ a1, listReads X l (done ++ results a) ctx1 ctx' (run2 a1) tail') →
  (∀ m vars a1 m1 vars1 l1 p, run1 m vars = Ret (inr (Some a1), P tail vars1 m1) → run2 a1 m1 vars1 l1 p → run m vars (a1 :: l1) p) →
  listReads X ((a, typ, dir) :: l) done ctx ctx' run tail'.
Proof.
  intros H1 H2 Hrun na vars m Hna Hc. destruct (H1 na vars m Hna Hc) as (a1 & na1 & vars1 & m1 & E1 & Hs1 & Hc1 & Hcp & Hn1).
  destruct (H2 a1 na1 vars1 m1 Hn1 Hc1) as (l1 & na' & vars' & m' & E2 & Hs2 & Hc2 & Hl & Hn2).
  exists (a1 :: l1), na', vars', m'. rewrite !fmap_cons. cbn [concat fst]. rewrite app_assoc.
  split_and!; [by eapply Hrun|by etrans|done| |done]. constructor; [by eapply copyOf_mono|done].
Qed.

Lemma listReads_nil X done ctx run tail :
  (∀ m vars, run m vars [] (P tail vars m)) → listReads X [] done ctx ctx run tail.
Proof. intros Hrun na vars m Hna Hc. exists [], na, vars, m. rewrite fmap_nil. cbn [concat]. rewrite app_nil_r. by split_and!. Qed.

Lemma present_some l : TextParse.present (Some <$> l) = Ret l.
Proof. induction l as [|a l IH]; [done|]. rewrite fmap_cons. unfold TextParse.present in *. cbn [foldr]. by rewrite IH. Qed.

(** *** Arrays *)

Lemma array_loop X l i done ctx ts ctx' elem te dir rfuel : typeAt elem = Ret te →
  printed X l i done ctx ts ctx' → Forall (λ x, x.1.2 = elem ∧ x.2 = dir ∧ isPadItem x = false) l →
  ∀ fuel inner tail, (length (joined (shownTexts ts)) < fuel)%nat → (length (joined (shownTexts ts)) < rfuel)%nat →
  listReads X l done ctx ctx'
    (λ m vars l1 p, arrayLoop (parseArg rfuel) fuel te dir inner (P (joined (shownTexts ts) ++ chr "]" :: tail) vars m) =
       Ret (inr (inner ++ (Some <$> l1)), p)) (chr "]" :: tail).
Proof.
  intros Hte. induction 1 as [|x l i done ctx ts ctx' Hp|a typ d l i done ctx T ctx1 ts ctx' Hp HT Hparse Hpr IH];
    intros Hl fuel inner tail Hf Hrf.
  - apply listReads_nil. intros m vars. destruct fuel as [|fuel]; [lia|]. cbn. by rewrite app_nil_r.
  - apply Forall_cons in Hl as [(_ & _ & Hx) _]. congruence.
  - apply Forall_cons in Hl as [(Htyp & Hd & _) Hl]. cbn [fst snd] in Htyp, Hd. subst typ d.
    change (shownTexts (Some T :: ts)) with (T :: shownTexts ts) in *. destruct (joined_length T (shownTexts ts) HT) as [HL1 HL2].
    destruct fuel as [|fuel]; [lia|]. pose proof (printed_texts _ _ _ _ _ _ _ Hpr) as Hts.
    assert (closing (chr "]")) as Hcl by (right; by left).
    eapply (listReads_cons X a elem dir); [apply (Hparse te rfuel (sepd (shownTexts ts) ++ chr "]" :: tail) Hte); [by apply sepd_delim|lia]| |].
    { intros a1. apply (IH Hl fuel (inner ++ [Some a1])); lia. }
    intros m vars a1 m1 vars1 l1 p E1 E2. cbn [arrayLoop].
    destruct (pChar_joined T (shownTexts ts) (chr "]") tail vars m HT Hcl) as (c & -> & Hc). rewrite decide_False by done.
    change (joined (T :: shownTexts ts)) with (T ++ sepd (shownTexts ts)). rewrite <-app_assoc, E1. cbn [onOk rbind].
    pose proof (comma_ok (shownTexts ts) (chr "]") tail vars1 m1 Hts Hcl) as Hcm. destruct (pChar _) as [c' p']. rewrite Hcm.
    rewrite E2. by rewrite fmap_cons, <-app_assoc.
Qed.

(** *** Structs *)

(** The element [x] belongs to the field [f]; padding is zero. *)
Record fieldItem (dir : Dir) (x : item) (f : Field) : Prop := {
  fi_typ : x.1.2 = fieldType f;
  fi_dir : x.2 = fieldDir f dir;
  fi_type : ∃ tf, typeAt (fieldType f) = Ret tf ∧ IsPad tf = isPadItem x;
  fi_pad : isPadItem x = true → ∃ ic c, typeAt (fieldType f) = Ret (ConstType ic 0 true) ∧ x.1.1 = ConstArg c 0 ∧
    aref c = fieldType f ∧ adir c = fieldDir f dir
}.

(** Padding at the end is a default value. *)
Hypothesis Hdfuel : dfuel ≠ 0%nat.

(** Padding is made anew. *)
Lemma pad_make X x f dir done ctx tail : fieldItem dir x f → isPadItem x = true →
  ∃ tf, typeAt (fieldType f) = Ret tf ∧ IsPad tf = true ∧
    (∀ p, defaults target dfuel tf (fieldDir f dir) p = making (MakeConstArg tf (fieldDir f dir) 0) p) ∧
    parsesTo X x.1.1 done ctx ctx (λ m vars, making (MakeConstArg tf (fieldDir f dir) 0) (P tail vars m)) tail.
Proof.
  intros [_ _ _ Hpad] Hp. destruct (Hpad Hp) as (ic & c & Htf & Hx & Hr & Hd). exists (ConstType ic 0 true).
  split_and!; [done|done|intros p; unfold defaults; by destruct dfuel|]. rewrite Hx. intros na vars m Hna Hc.
  exists (ConstArg (MkCommon (mNext m) (fieldType f) (fieldDir f dir)) 0), na, vars, (Mem (mHeap m) (Pos.succ (mNext m))).
  rewrite app_nil_r. split_and!; [|done|by apply copied_next|by rewrite <-Hr, <-Hd|done].
  unfold making, MakeConstArg. cbn [pmem]. by rewrite (ref_ok _ _ Htf).
Qed.

(** Padding at the end. *)
Lemma missing_ok X l i done ctx ts ctx' dir : printed X l i done ctx ts ctx' → shownTexts ts = [] →
  ∀ fields inner tail, Forall2 (fieldItem dir) l fields →
  listReads X l done ctx ctx'
    (λ m vars l1 p, missingFields target dfuel fields dir inner (P tail vars m) = Ret (inr (inner ++ (Some <$> l1)), p)) tail.
Proof.
  induction 1 as [|[[a typ] d] l i done ctx ts ctx' Hp Hr Hpr IH|]; intros Hts fields inner tail Hl; [| |done].
  - apply Forall2_nil_inv_l in Hl as ->. apply listReads_nil. intros m vars. cbn. by rewrite app_nil_r.
  - apply Forall2_cons_inv_l in Hl as (f & fields' & Hf & Hl & ->).
    destruct (pad_make X _ f dir done ctx tail Hf Hp) as (tf & Htf & Hpf & Hdef & Hmk). cbn [fst] in Hr, Hmk.
    eapply (listReads_cons X a typ d); [exact Hmk| |].
    + intros a1. rewrite Hr, app_nil_r. by apply (IH Hts fields' (inner ++ [Some a1])).
    + intros m vars a1 m1 vars1 l1 p E1 E2. cbn [missingFields]. rewrite Htf. cbn [rbind]. rewrite Hpf, Hdef, E1. cbn [onOk rbind].
      rewrite E2. by rewrite fmap_cons, <-app_assoc.
Qed.

(** The fields, the closing brace and the padding behind the last field. *)
Definition structRest (fields : list Field) (dir : Dir) (rfuel : nat) (inner : list (option Arg)) (p : pst) :
    res ((string + list (option Arg)) * pst) :=
  onOk (structLoop target (parseArg rfuel) fields dir inner p)
    (λ r p, missingFields target dfuel r.2 dir r.1 (pParse (chr "}") p)).

Lemma struct_loop X l i done ctx ts ctx' dir rfuel : printed X l i done ctx ts ctx' →
  ∀ fields inner tail, Forall2 (fieldItem dir) l fields → skipWs tail = tail → (length (joined (shownTexts ts)) < rfuel)%nat →
  listReads X l done ctx ctx'
    (λ m vars l1 p, structRest fields dir rfuel inner (P (joined (shownTexts ts) ++ chr "}" :: tail) vars m) =
       Ret (inr (inner ++ (Some <$> l1)), p)) tail.
Proof.
  assert (closing (chr "}")) as Hcl by (right; by right).
  induction 1 as [i done ctx|[[a typ] d] l i done ctx ts ctx' Hp Hr Hpr IH|a typ d l i done ctx T ctx1 ts ctx' Hp HT Hparse Hpr IH];
    intros fields inner tail Hl Htail Hrf.
  - apply Forall2_nil_inv_l in Hl as ->. apply listReads_nil. intros m vars. unfold structRest. cbn [structLoop shownTexts omap list_omap joined app].
    rewrite pChar_ok, decide_True by done. cbn [onOk gives rbind fst snd]. rewrite pParse_ok, Htail. cbn. by rewrite app_nil_r.
  - change (shownTexts (None :: ts)) with (shownTexts ts) in *. destruct (shownTexts ts) as [|T ts'] eqn:Ets.
    + intros na vars m Hna Hc.
      destruct (missing_ok X _ i done ctx (None :: ts) ctx' dir (printed_pad X _ _ _ _ _ _ _ Hp Hr Hpr) Ets fields inner tail Hl na vars m Hna Hc)
        as (l1 & na' & vars' & m' & E & Hrest).
      exists l1, na', vars', m'. split; [|exact Hrest]. unfold structRest. cbn [joined app]. destruct fields as [|f fields]; cbn [structLoop];
      rewrite pChar_ok, decide_True by done; cbn [onOk gives rbind fst snd]; rewrite pParse_ok, Htail; exact E.
    + assert (argText T) as HT by (pose proof (printed_texts _ _ _ _ _ _ _ Hpr) as Hts; rewrite Ets in Hts; by inversion Hts).
      apply Forall2_cons_inv_l in Hl as (f & fields' & Hf & Hl & ->).
      destruct (pad_make X _ f dir done ctx (joined (T :: ts') ++ chr "}" :: tail) Hf Hp) as (tf & Htf & Hpf & _ & Hmk). cbn [fst] in Hr, Hmk.
      eapply (listReads_cons X a typ d); [exact Hmk| |].
      * intros a1. rewrite Hr, app_nil_r. by apply (IH fields' (inner ++ [Some a1])).
      * intros m vars a1 m1 vars1 l1 p E1 E2. unfold structRest in *. cbn [structLoop].
        destruct (pChar_joined T ts' (chr "}") tail vars m HT Hcl) as (c & -> & Hc). rewrite decide_False by done.
        rewrite Htf. cbn [rbind]. rewrite Hpf, E1. cbn [onOk rbind]. rewrite fmap_cons. change (Some a1 :: (Some <$> l1)) with ([Some a1] ++ (Some <$> l1)). rewrite app_assoc. exact E2.
  - apply Forall2_cons_inv_l in Hl as (f & fields' & Hf & Hl & ->).
    change (shownTexts (Some T :: ts)) with (T :: shownTexts ts) in *. destruct (joined_length T (shownTexts ts) HT) as [HL1 HL2].
    pose proof (printed_texts _ _ _ _ _ _ _ Hpr) as Hts. destruct Hf as [Htyp Hd (tf & Htf & Hpf) _]. cbn [fst snd] in Htyp, Hd. subst typ d.
    rewrite Hp in Hpf.
    eapply (listReads_cons X a _ (fieldDir f dir)); [apply (Hparse tf rfuel (sepd (shownTexts ts) ++ chr "}" :: tail) Htf); [by apply sepd_delim|lia]| |].
    { intros a1. apply (IH fields' (inner ++ [Some a1])); [done|done|lia]. }
    intros m vars a1 m1 vars1 l1 p E1 E2. unfold structRest in *. cbn [structLoop].
    destruct (pChar_joined T (shownTexts ts) (chr "}") tail vars m HT Hcl) as (c & -> & Hc). rewrite decide_False by done.
    rewrite Htf. cbn [rbind]. rewrite Hpf.
    change (joined (T :: shownTexts ts)) with (T ++ sepd (shownTexts ts)). rewrite <-app_assoc, E1. cbn [onOk rbind].
    pose proof (comma_ok (shownTexts ts) (chr "}") tail vars1 m1 Hts Hcl) as Hcm. destruct (pChar _) as [c' p']. rewrite Hcm.
    rewrite fmap_cons. change (Some a1 :: (Some <$> l1)) with ([Some a1] ++ (Some <$> l1)). rewrite app_assoc. exact E2.
Qed.

(** *** Groups *)

Lemma exact_argType a typ dir t : exact h0 a typ dir → typeAt typ = Ret t →
  ∃ t', argType target h0 a = Ret t' ∧ IsPad t' = IsPad t.
Proof.
  intros Hex Ht. unfold argType, argRef.
  destruct Hex as [| | | | | |c ad p typ t0 sz tc elem ed k dir Ht0 Hpv _ _ Hc| | | |];
    try (exists t; cbn [rbind]; by split).
  - rewrite (deref_Some _ _ _ H). by exists t.
  - cbn [rbind]. rewrite Hc. eexists. split; [done|]. assert (t0 = t) as -> by congruence. by destruct t.
Qed.

Lemma isPadItem_exact a typ dir t : exact h0 a typ dir → typeAt typ = Ret t → isPadItem (a, typ, dir) = IsPad t.
Proof.
  intros Hex Ht. destruct (exact_argType a typ dir t Hex Ht) as (t' & Ha & Hp). unfold isPadItem. cbn [fst]. by rewrite Ha.
Qed.

Lemma joined_ws ts cl tail : Forall argText ts → closing cl → skipWs (joined ts ++ cl :: tail) = joined ts ++ cl :: tail.
Proof.
  intros Hts Hcl. destruct ts as [|T ts]; [by apply delim_ws, closing_delim|]. inversion Hts; subst. cbn [joined].
  rewrite <-app_assoc. by apply argText_ws.
Qed.

Lemma joined_printable ts : Forall argText ts → Forall printable (joined ts).
Proof.
  assert (∀ ts, Forall argText ts → Forall printable (sepd ts)) as Hs.
  { intros ts'. induction 1 as [|T ts' [_ HT] _ IH]; [constructor|]. unfold sepd. rewrite fmap_cons. cbn [concat].
    apply Forall_app. split; [|done]. apply Forall_app. split; [repeat constructor; by vm_compute|done]. }
  destruct 1 as [|T ts [_ HT] Hts]; [constructor|]. apply Forall_app. auto.
Qed.

Lemma group_text op cl ts : argStart op = true → printable op → printable cl → Forall argText ts → argText (op :: joined ts ++ [cl]).
Proof.
  intros Hop Hp Hc Hts. split; [by eexists _, _|]. constructor; [done|]. apply Forall_app. split; [by apply joined_printable|by constructor].
Qed.

(** A group whose elements are read back, with the loop that reads them, is read back. *)
Lemma reads_group c l items t op cl ctx done suf X :
  typeAt (aref c) = Ret t →
  match t with StructType _ _ _ _ => op = chr "{" ∧ cl = chr "}" | ArrayType _ _ _ _ _ => op = chr "[" ∧ cl = chr "]" | _ => False end →
  (λ x : item, x.1.1) <$> items = l →
  (∀ x, x ∈ items → exact h0 x.1.1 x.1.2 x.2 ∧ reads x.1.1 x.1.2 x.2) →
  (∀ x, x ∈ items → isPadItem x = true → results x.1.1 = []) →
  (∀ x, head items = Some x → isPadItem x = false) →
  full = done ++ results (GroupArg c l) ++ suf → numbered ctx done → avoids X (results (GroupArg c l)) →
  ∃ ts ctx', serializeArg (GroupArg c l) ctx = Ret (printf [cl] ctx') ∧ sbuf ctx' = sbuf ctx ++ op :: joined (shownTexts ts) ∧
    results (GroupArg c l) = concat ((λ x : item, results x.1.1) <$> items) ∧
    numbered ctx' (done ++ results (GroupArg c l)) ∧ Forall argText (shownTexts ts) ∧ printed X items 0 done (printf [op] ctx) ts ctx'.
Proof.
  intros Ht Hop Hl Hit Hpad Hhead Hfull Hnu Hav.
  assert (results (GroupArg c l) = concat ((λ x : item, results x.1.1) <$> items)) as Hres.
  { rewrite results_group, <-Hl, <-list_fmap_compose. done. }
  rewrite Hres in *.
  destruct (print_items X items 0 done suf (printf [op] ctx) (length l)) as (ts & ctx' & Hser & Hb & Hn & Hpr).
  - intros x Hx. destruct (Hit x Hx) as [Hex Hr]. destruct x as [[a typ] d]. cbn [fst snd] in *.
    destruct (exact_type _ _ _ _ Hex) as [tx Htx]. destruct (exact_argType a typ d tx Hex Htx) as (t' & Ha & _). split; [eauto|].
    destruct (isPadItem _) eqn:Ep; [left|right]; split; [done|by apply (Hpad _ Hx)|done|done].
  - intros _. exact Hhead.
  - done.
  - by apply numbered_print.
  - rewrite <-Hl, length_fmap. lia.
  - intros x Hx i o r Hi. apply (Hav i o r). apply list_elem_of_In, in_concat. exists (results x.1.1).
    split; [|by apply list_elem_of_In]. apply list_elem_of_In, list_elem_of_fmap. eauto.
  - exists ts, ctx'. split_and!; [|by rewrite Hb; cbn [sbuf printf]; rewrite <-app_assoc|done|done|by eapply printed_texts|].
    + cbn [TextPrint.serializeArg]. rewrite Ht. cbn [rbind].
      destruct t; try done; destruct Hop as [-> ->]; cbn [rbind]; unfold shownCount; cbn [rbind]; by rewrite <-Hl in *; rewrite Hser.
    + exact Hpr.
Qed.

Lemma reads_array c l typ dir t tc elem kind rb re : typeAt (aref c) = Ret t → t = ArrayType tc elem kind rb re →
  Forall (λ a, ∀ typ dir, exact h0 a typ dir → reads a typ dir) l →
  exact h0 (GroupArg c l) typ dir → reads (GroupArg c l) typ dir.
Proof.
  intros Ht0 ->. intros IH. inversion 1 as [| | | | | | | |? ? ? ? ? ? Hs|? ? tc' elem' kind' rb' re' Ht Hl (te & Hte & Hpe) Hlen|]; subst; [congruence|].
  rewrite Ht in Ht0. injection Ht0 as -> -> -> -> ->. intros done suf X ctx Hfull Hnu Hav. set (items := (λ a, (a, elem, adir c)) <$> l).
  assert (Forall (λ x : item, x.1.2 = elem ∧ x.2 = adir c ∧ isPadItem x = false) items) as Hitems.
  { apply Forall_fmap. eapply Forall_impl; [exact Hl|]. intros a Ha. cbn. split_and!; [done|done|].
    by rewrite (isPadItem_exact a elem (adir c) te). }
  assert (∀ x, x ∈ items → isPadItem x = false) as Hnp by (intros x Hx; by apply (proj1 (Forall_forall _ _) Hitems)).
  destruct (reads_group c l items (ArrayType tc elem kind rb re) (chr "[") (chr "]") ctx done suf X)
    as (ts & ctx' & Hser & Hb & Hres & Hn & Hts & Hpr); try done.
  { unfold items. rewrite <-list_fmap_compose. apply list_fmap_id. }
  { intros x Hx. apply list_elem_of_fmap in Hx as (a & -> & Ha). cbn [fst snd].
    assert (exact h0 a elem (adir c)) as He by (by apply (proj1 (Forall_forall _ _) Hl)). split; [done|].
    by apply (proj1 (Forall_forall _ _) IH _ Ha). }
  { intros x Hx. rewrite (Hnp x Hx). discriminate. }
  { intros x Hx. apply Hnp. destruct items; [done|]. injection Hx as ->. apply list_elem_of_here. }
  exists (chr "[" :: joined (shownTexts ts) ++ [chr "]"]), (printf [chr "]"] ctx').
  split_and!; [done|by cbn [sbuf printf]; rewrite Hb, <-app_assoc|by apply group_text|by apply numbered_print|].
  intros t' fuel tail Ht' Hd Hfuel na vars m Hna Hc. rewrite Ht in Ht'. injection Ht' as <-. destruct fuel as [|fuel]; [lia|].
  assert (length (joined (shownTexts ts)) < fuel)%nat as Hf by (cbn [length] in Hfuel; rewrite length_app in Hfuel; cbn [length] in Hfuel; lia).
  destruct (array_loop X items 0 done _ ts ctx' elem te (adir c) fuel Hte Hpr Hitems fuel [] tail Hf Hf na vars m Hna Hc)
    as (l1 & na' & vars' & m' & E & Hsub & Hc' & Hcp & Hn').
  exists (GroupArg (MkCommon (mNext m') (aref c) (adir c)) l1), na', vars', (Mem (mHeap m') (Pos.succ (mNext m'))).
  assert ((λ x : item, x.1.1) <$> items = l) as Hil by (unfold items; rewrite <-list_fmap_compose; apply list_fmap_id).
  rewrite Hil in Hcp. rewrite Hres. split_and!; [|done|by apply copied_next|by apply copyOf_group|done].
  apply parseArg_plain; [by eexists _, _|]. cbn [app]. rewrite <-app_assoc.
  change (parseArgArray target dfuel (parseArg fuel) fuel (ArrayType tc elem kind rb re) (adir c)
    (P (chr "[" :: joined (shownTexts ts) ++ chr "]" :: tail) vars m) =
    Ret (inr (Some (GroupArg (MkCommon (mNext m') (aref c) (adir c)) l1)), P tail vars' (Mem (mHeap m') (Pos.succ (mNext m'))))).
  unfold parseArgArray. rewrite pParse_ok, joined_ws by (done || (right; by left)). rewrite Hte. cbn [rbind].
  rewrite E. cbn [onOk rbind app]. rewrite pParse_ok, delim_ws by done.
  assert (length l1 = length l) as Hl1 by (symmetry; by eapply Forall2_length).
  case_decide as Hk.
  - destruct Hk as [Hk Hr]. rewrite length_fmap. replace (Z.to_nat rb - length l1)%nat with 0%nat by (specialize (Hlen Hk Hr); lia).
    cbn [onOk gives rbind]. rewrite take_ge by (rewrite length_fmap; specialize (Hlen Hk Hr); lia).
    rewrite present_some. cbn [rbind]. unfold making, MakeGroupArg. cbn [pmem]. by rewrite (ref_ok _ _ Ht).
  - cbn [onOk gives rbind]. rewrite present_some. cbn [rbind]. unfold making, MakeGroupArg. cbn [pmem]. by rewrite (ref_ok _ _ Ht).
Qed.

(** The fields of a struct as elements. *)
Definition fieldItems (dir : Dir) (l : list Arg) (fields : list Field) : list item :=
  zip_with (λ a f, (a, fieldType f, fieldDir f dir)) l fields.

Lemma fieldItems_ok dir l fields :
  Forall2 (λ a f, exact h0 a (fieldType f) (fieldDir f dir)) l fields →
  Forall2 (λ a f, ∀ ic val, typeAt (fieldType f) = Ret (ConstType ic val true) → val = 0 ∧ ∃ c, a = ConstArg c 0) l fields →
  (λ x : item, x.1.1) <$> fieldItems dir l fields = l ∧ Forall2 (fieldItem dir) (fieldItems dir l fields) fields ∧
  Forall (λ x : item, x.1.1 ∈ l ∧ exact h0 x.1.1 x.1.2 x.2 ∧ (isPadItem x = true → results x.1.1 = [])) (fieldItems dir l fields).
Proof.
  induction 1 as [|a f l fields Ha Hl IH]; intros Hpad; [by split_and!|].
  apply Forall2_cons in Hpad as [Hf Hpad]. destruct (IH Hpad) as (He & Hi & Hx). unfold fieldItems in *. cbn [zip_with].
  rewrite fmap_cons. cbn [fst]. rewrite He. destruct (exact_type _ _ _ _ Ha) as [tf Htf].
  pose proof (isPadItem_exact a _ _ tf Ha Htf) as Hp.
  assert (isPadItem (a, fieldType f, fieldDir f dir) = true →
    ∃ ic c, typeAt (fieldType f) = Ret (ConstType ic 0 true) ∧ a = ConstArg c 0 ∧ aref c = fieldType f ∧ adir c = fieldDir f dir) as Hpd.
  { rewrite Hp. intros Ht. destruct tf; try discriminate Ht. cbn in Ht. subst. destruct (Hf _ _ Htf) as [-> [ac ->]].
    eexists _, ac. inversion Ha. split_and!; [|done..]. rewrite H1. exact Htf. }
  split_and!; [done| |].
  - constructor; [|done]. split; cbn [fst snd]; eauto.
  - constructor; cbn [fst snd].
    + split_and!; [apply list_elem_of_here|done|]. intros Ht. by destruct (Hpd Ht) as (? & ? & _ & -> & _).
    + eapply Forall_impl; [exact Hx|]. intros x (Hin & ? & ?). split_and!; [by apply list_elem_of_further|done|done].
Qed.

Lemma reads_struct c l typ dir t tc fields al ov : typeAt (aref c) = Ret t → t = StructType tc fields al ov →
  Forall (λ a, ∀ typ dir, exact h0 a typ dir → reads a typ dir) l →
  exact h0 (GroupArg c l) typ dir → reads (GroupArg c l) typ dir.
Proof.
  intros Ht0 -> IH. inversion 1 as [| | | | | | | |? ? tc' fields' al' ov' Ht Hl Hpad Hhead|? ? tc' elem' kind' rb' re' Ht|]; subst; [|congruence].
  rewrite Ht in Ht0. injection Ht0 as -> -> -> ->. intros done suf X ctx Hfull Hnu Hav.
  destruct (fieldItems_ok (adir c) l fields Hl Hpad) as (Hil & Hfi & Hall). set (items := fieldItems (adir c) l fields) in *.
  destruct (reads_group c l items (StructType tc fields al ov) (chr "{") (chr "}") ctx done suf X)
    as (ts & ctx' & Hser & Hb & Hres & Hn & Hts & Hpr); try done.
  { intros x Hx. destruct (proj1 (Forall_forall _ _) Hall x Hx) as (Hin & He & _). split; [done|].
    by apply (proj1 (Forall_forall _ _) IH _ Hin). }
  { intros x Hx. by apply (proj1 (Forall_forall _ _) Hall x Hx). }
  { intros x Hx. destruct items as [|x' items]; [done|]. injection Hx as ->.
    apply Forall2_cons_inv_l in Hfi as (f & fields'' & [_ _ (tf & Htf & Hpf) _] & _ & ->). rewrite <-Hpf. by apply (Hhead f). }
  exists (chr "{" :: joined (shownTexts ts) ++ [chr "}"]), (printf [chr "}"] ctx').
  split_and!; [done|by cbn [sbuf printf]; rewrite Hb, <-app_assoc|by apply group_text|by apply numbered_print|].
  intros t' fuel tail Ht' Hd Hfuel na vars m Hna Hc. rewrite Ht in Ht'. injection Ht' as <-. destruct fuel as [|fuel]; [lia|].
  assert (length (joined (shownTexts ts)) < fuel)%nat as Hf by (cbn [length] in Hfuel; rewrite length_app in Hfuel; cbn [length] in Hfuel; lia).
  destruct (struct_loop X items 0 done _ ts ctx' (adir c) fuel Hpr fields [] tail Hfi (delim_ws _ Hd) Hf na vars m Hna Hc)
    as (l1 & na' & vars' & m' & E & Hsub & Hc' & Hcp & Hn').
  exists (GroupArg (MkCommon (mNext m') (aref c) (adir c)) l1), na', vars', (Mem (mHeap m') (Pos.succ (mNext m'))).
  rewrite Hil in Hcp. rewrite Hres. split_and!; [|done|by apply copied_next|by apply copyOf_group|done].
  apply parseArg_plain; [by eexists _, _|]. cbn [app]. rewrite <-app_assoc.
  change (parseArgStruct target dfuel (parseArg fuel) (StructType tc fields al ov) (adir c)
    (P (chr "{" :: joined (shownTexts ts) ++ chr "}" :: tail) vars m) =
    Ret (inr (Some (GroupArg (MkCommon (mNext m') (aref c) (adir c)) l1)), P tail vars' (Mem (mHeap m') (Pos.succ (mNext m'))))).
  unfold parseArgStruct. rewrite pParse_ok, joined_ws by (done || (right; by right)). unfold structRest in E. revert E.
  destruct (structLoop _ _ _ _ _ _) as [[[e|[inner unread]] p]| | ]; cbn [onOk rbind fails fst snd]; try discriminate.
  intros E. rewrite E. cbn [onOk rbind app]. rewrite present_some. cbn [rbind]. unfold making, MakeGroupArg. cbn [pmem].
  by rewrite (ref_ok _ _ Ht).
Qed.

(** *** Unions *)

Lemma reads_union c opt idx tr typ dir :
  (∀ typ dir, exact h0 opt typ dir → reads opt typ dir) →
  exact h0 (UnionArg c opt idx tr) typ dir → reads (UnionArg c opt idx tr) typ dir.
Proof.
  intros IH. inversion 1 as [| | | | | | | | | |? ? ? tc fields f Ht Hidx Hfind Hid Hne Hopt]; subst.
  pose proof (proj1 (list_find_Some _ _ _ _) Hfind) as (Hlk & _ & _).
  destruct (exact_type _ _ _ _ Hopt) as [tf Htf]. set (name := str (fieldName f)) in *.
  intros done suf X ctx Hfull Hnu Hav. set (pre := chr "@" :: name ++ str "=").
  destruct (IH _ _ Hopt done suf X (printf pre ctx) Hfull (numbered_print _ _ _ Hnu) Hav)
    as (text & ctx' & Hser & Hbuf & Hat & Hnu' & Hparse).
  exists (pre ++ text), ctx'. split_and!; [|by rewrite Hbuf, app_assoc| |done|].
  - cbn [TextPrint.serializeArg]. rewrite Ht. cbn [rbind]. unfold index. rewrite decide_True by lia. rewrite Hlk. cbn [rbind]. rewrite <-Hser. f_equal.
    unfold printf, pre. cbn [sbuf svars varSeq]. f_equal. rewrite <-app_assoc. done.
  - split; [by eexists _, _|]. unfold pre. cbn [app]. constructor; [by vm_compute|]. rewrite <-app_assoc. apply Forall_app.
    split; [by apply ident_printable|]. apply Forall_app. split; [repeat constructor; by vm_compute|apply Hat].
  - intros t' fuel tail Ht' Hd Hfuel na vars m Hna Hc. rewrite Ht in Ht'. injection Ht' as <-. destruct fuel as [|fuel]; [lia|].
    assert (length text < fuel)%nat as Hf by (rewrite length_app in Hfuel; unfold pre in Hfuel; cbn [length] in Hfuel; lia).
    destruct (Hparse tf fuel tail Htf Hd Hf na vars m Hna Hc) as (a1 & na' & vars' & m' & E & Hsub & Hc' & Hcp & Hn').
    exists (UnionArg (MkCommon (mNext m') (aref c) (adir c)) a1 idx false), na', vars', (Mem (mHeap m') (Pos.succ (mNext m'))).
    split_and!; [|done|by apply copied_next|done|done].
    apply parseArg_plain; [by eexists _, _|]. unfold pre. cbn [app]. rewrite <-!app_assoc.
    change (parseArgUnion target dfuel (parseArg fuel) (UnionType tc fields) (adir c) (P (chr "@" :: name ++ chr "=" :: text ++ tail) vars m) =
      Ret (inr (Some (UnionArg (MkCommon (mNext m') (aref c) (adir c)) a1 idx false)), P tail vars' (Mem (mHeap m') (Pos.succ (mNext m'))))).
    unfold parseArgUnion. rewrite pParse_ok.
    assert (skipWs (name ++ chr "=" :: text ++ tail) = name ++ chr "=" :: text ++ tail) as ->.
    { destruct name as [|ch name']; [done|]. cbn [app]. apply skipWs_not. inversion Hid as [|? ? Hch]; subst.
      intros [-> | ->]; discriminate Hch. }
    rewrite pIdent_ok by done. rewrite skipWs_not by (intros [E'|E']; discriminate E').
    rewrite Hfind, Htf. cbn [rbind]. rewrite pChar_ok, decide_True by done. rewrite pParse_ok, argText_ws by done.
    rewrite E. cbn [onOk rbind]. unfold making, MakeUnionArg. cbn [pmem]. rewrite (ref_ok _ _ Ht). cbn [rbind alloc].
    by rewrite Z2Nat.id by lia.
Qed.

(** Every argument that the format can represent is read back. *)
Lemma exact_reads a typ dir : exact h0 a typ dir → reads a typ dir.
Proof.
  revert typ dir. induction a as [c v|c ad v r IH|c d s|c l IH|c o i t IH|i] using arg_ind; intros typ dir Hex.
  - by apply reads_const.
  - destruct r as [p|].
    + assert (v = 0) as -> by (inversion Hex; done). apply reads_ptr; [by apply IH|done].
    + destruct (isSpecial ad v None) eqn:Es.
      * assert (v = 0) as -> by (inversion Hex; congruence). by apply reads_special.
      * by apply reads_vma.
  - by apply reads_data.
  - apply Forall_forall in IH. inversion Hex; subst; [by eapply reads_struct|by eapply reads_array].
  - by apply reads_union.
  - by apply reads_result.
Qed.

(** *** The arguments of a call *)

Notation argsLoop := (argsLoop target dfuel DecodeB64 DecompressCheck Compress).

Lemma args_loop X l i done ctx ts ctx' rfuel : printed X l i done ctx ts ctx' →
  ∀ fields args tail, Forall2 (fieldItem DirIn) l fields → Forall (λ f, fieldDir f DirIn = DirIn) fields →
  Forall (λ x, isPadItem x = false) l → (length (joined (shownTexts ts)) < rfuel)%nat →
  listReads X l done ctx ctx'
    (λ m vars l1 p, argsLoop rfuel fields args (P (joined (shownTexts ts) ++ chr ")" :: tail) vars m) =
       Ret (inr (args ++ (Some <$> l1), []), p)) (chr ")" :: tail).
Proof.
  assert (closing (chr ")")) as Hcl by (by left).
  induction 1 as [|x l i done ctx ts ctx' Hp|a typ d l i done ctx T ctx1 ts ctx' Hp HT Hparse Hpr IH];
    intros fields args tail Hl Hdir Hnp Hrf.
  - apply Forall2_nil_inv_l in Hl as ->. apply listReads_nil. intros m vars. cbn. by rewrite app_nil_r.
  - apply Forall_cons in Hnp as [Hx _]. congruence.
  - apply Forall2_cons_inv_l in Hl as (f & fields' & Hf & Hl & ->). apply Forall_cons in Hnp as [_ Hnp].
    apply Forall_cons in Hdir as [Hfd Hdir].
    change (shownTexts (Some T :: ts)) with (T :: shownTexts ts) in *. destruct (joined_length T (shownTexts ts) HT) as [HL1 HL2].
    pose proof (printed_texts _ _ _ _ _ _ _ Hpr) as Hts. destruct Hf as [Htyp Hd (tf & Htf & Hpf) _]. cbn [fst snd] in Htyp, Hd.
    rewrite Hfd in Hd. subst typ d. rewrite Hp in Hpf.
    eapply (listReads_cons X a _ DirIn); [apply (Hparse tf rfuel (sepd (shownTexts ts) ++ chr ")" :: tail) Htf); [by apply sepd_delim|lia]| |].
    { intros a1. apply (IH fields' (args ++ [Some a1])); [done..|lia]. }
    intros m vars a1 m1 vars1 l1 p E1 E2. cbn [TextParse.argsLoop].
    destruct (pChar_joined T (shownTexts ts) (chr ")") tail vars m HT Hcl) as (c & -> & Hc). rewrite decide_False by done.
    rewrite Htf. cbn [rbind]. rewrite Hpf.
    change (joined (T :: shownTexts ts)) with (T ++ sepd (shownTexts ts)). rewrite <-app_assoc, E1. cbn [onOk rbind].
    pose proof (comma_ok (shownTexts ts) (chr ")") tail vars1 m1 Hts Hcl) as Hcm. destruct (pChar _) as [c' p']. rewrite Hcm.
    rewrite E2. by rewrite fmap_cons, <-app_assoc.
Qed.

(** The arguments of a call are read back. *)
Lemma args_reads l fields done suf X ctx :
  Forall2 (λ a f, exact h0 a (fieldType f) DirIn) l fields →
  Forall (λ f, fieldDir f DirIn = DirIn ∧ ∃ t, typeAt (fieldType f) = Ret t ∧ IsPad t = false) fields →
  full = done ++ concat (results <$> l) ++ suf → numbered ctx done → avoids X (concat (results <$> l)) →
  ∃ T ctx', printList target h0 serializeArg (length l) 0 l ctx = Ret ctx' ∧ sbuf ctx' = sbuf ctx ++ T ∧
    Forall printable T ∧ (∀ tail, skipWs (T ++ chr ")" :: tail) = T ++ chr ")" :: tail) ∧
    numbered ctx' (done ++ concat (results <$> l)) ∧
    ∀ fuel tail na vars m, (length T < fuel)%nat → named X na ctx vars → copied h0 n0 done na m →
      ∃ l1 na' vars' m', argsLoop fuel fields [] (P (T ++ chr ")" :: tail) vars m) =
          Ret (inr (Some <$> l1, []), P (chr ")" :: tail) vars' m') ∧ na ⊆ na' ∧
        copied h0 n0 (done ++ concat (results <$> l)) na' m' ∧ Forall2 (copyOf na') l l1 ∧ named X na' ctx' vars'.
Proof.
  intros Hl Hfields Hfull Hnu Hav.
  assert (Forall (λ f, fieldDir f DirIn = DirIn) fields) as Hdirs by (eapply Forall_impl; [exact Hfields|]; by intros f [? _]).
  assert (Forall2 (λ a f, exact h0 a (fieldType f) (fieldDir f DirIn)) l fields) as Hl'.
  { clear -Hl Hdirs. induction Hl as [|a f l fields Ha Hl IH]; constructor; apply Forall_cons in Hdirs as [Hf Hdirs]; [by rewrite Hf|auto]. }
  assert (Forall2 (λ (a : Arg) f, ∀ ic val, typeAt (fieldType f) = Ret (ConstType ic val true) → val = 0 ∧ ∃ c, a = ConstArg c 0) l fields) as Hpads.
  { clear -Hl Hfields. induction Hl as [|a f l fields Ha Hl IH]; constructor; apply Forall_cons in Hfields as [(_ & t & Ht & Hp) Hfields]; [|auto].
    intros ic val E. rewrite E in Ht. injection Ht as <-. discriminate Hp. }
  destruct (fieldItems_ok DirIn l fields Hl' Hpads) as (Hil & Hfi & Hall). set (items := fieldItems DirIn l fields) in *.
  assert (Forall (λ x, isPadItem x = false) items) as Hnp.
  { clear -Hfi Hfields. induction Hfi as [|x f xs fs [_ _ (t & Ht & Hp) _] _ IH]; constructor;
      apply Forall_cons in Hfields as [(_ & t' & Ht' & Hp') Hfields]; [congruence|auto]. }
  assert (concat (results <$> l) = concat ((λ x : item, results x.1.1) <$> items)) as Hres by (by rewrite <-Hil at 1; rewrite <-list_fmap_compose).
  rewrite Hres in *. destruct (print_items X items 0 done suf ctx (length l)) as (ts & ctx' & Hser & Hb & Hn & Hpr).
  - intros x Hx. destruct (proj1 (Forall_forall _ _) Hall x Hx) as (_ & He & _). destruct x as [[a typ] d]. cbn [fst snd] in *.
    destruct (exact_type _ _ _ _ He) as [tx Htx]. destruct (exact_argType a typ d tx He Htx) as (t' & Ha & _). split; [eauto|].
    right. split; [by apply (proj1 (Forall_forall _ _) Hnp)|by apply exact_reads].
  - intros _ x Hx. apply (proj1 (Forall_forall _ _) Hnp). destruct items; [done|]. injection Hx as ->. apply list_elem_of_here.
  - done.
  - done.
  - rewrite <-Hil, length_fmap. lia.
  - intros x Hx i o r Hi. apply (Hav i o r). apply list_elem_of_In, in_concat. exists (results x.1.1).
    split; [|by apply list_elem_of_In]. apply list_elem_of_In, list_elem_of_fmap. eauto.
  - rewrite Hil in Hser. pose proof (printed_texts _ _ _ _ _ _ _ Hpr) as Hts.
    exists (joined (shownTexts ts)), ctx'. split_and!; [done|done|by apply joined_printable| |done|].
    { intros tail. apply joined_ws; [done|by left]. }
    intros fuel tail na vars m Hf Hna Hc.
    destruct (args_loop X items 0 done ctx ts ctx' fuel Hpr fields [] tail Hfi Hdirs Hnp Hf na vars m Hna Hc)
      as (l1 & na' & vars' & m' & E & Hsub & Hc' & Hcp & Hn').
    exists l1, na', vars', m'. rewrite Hil in Hcp. by split_and!.
Qed.

End target.
End TextRound.
