(* ===== verification/TextProg.v ===== *)
(** * TextProg: printed programs are read back (prog/encoding.go)

    The text of a program, one line for a call, is parsed into a copy of the program in the
    sense of [Clone].  This is [TextRound] for the arguments, with the names of results in
    front of calls, the properties behind them and the loop over the lines. *)

From S2P Require Import Prelude Bytes Types Prog ExampleTarget ProgEdit Clone Expr Validation Text TextPrint TextParse TextRound.
From Stdlib Require Import Ascii.
Import Bytes Types Prog ProgEdit Clone Expr Validation Text TextPrint TextParse TextRound.

Module TextProg.

(** ** Numbers of variables *)

(** Printing the results [l] gives numbers only to them, and new ones. *)
Record grows (l : list positive) (ctx ctx' : serializer) : Prop := {
  gr_seq : varSeq ctx ≤ varSeq ctx';
  gr_new j id : svars ctx' !! j = Some id → svars ctx !! j = Some id ∨ varSeq ctx ≤ id;
  gr_other j : j ∉ l → svars ctx' !! j = svars ctx !! j
}.

Lemma grows_same l ctx ctx' : svars ctx' = svars ctx → varSeq ctx' = varSeq ctx → grows l ctx ctx'.
Proof. intros E1 E2. split; rewrite ?E1, ?E2; [lia|eauto|done]. Qed.

Lemma grows_trans l1 l2 c1 c2 c3 : grows l1 c1 c2 → grows l2 c2 c3 → grows (l1 ++ l2) c1 c3.
Proof.
  intros [S1 N1 O1] [S2 N2 O2]. split; [lia| |].
  - intros j id Hj. destruct (N2 j id Hj) as [Hj'|Hj']; [|lia]. destruct (N1 j id Hj'); [eauto|lia].
  - intros j Hj. rewrite elem_of_app in Hj. rewrite O2, O1 by tauto. done.
Qed.

Lemma grows_print l text ctx ctx' : grows l (printf text ctx) ctx' → grows l ctx ctx'.
Proof. by intros [? ? ?]. Qed.

Section grows.
Context (target : Target) (h : heap) (EncodeB64 : list Z → list Z) (verbose : bool).

Lemma printList_grows f l shown : Forall (λ a, ∀ ctx ctx', f a ctx = Ret ctx' → grows (results a) ctx ctx') l →
  ∀ i ctx ctx', printList target h f shown i l ctx = Ret ctx' → grows (concat (results <$> l)) ctx ctx'.
Proof.
  induction 1 as [|a l Ha Hl IH]; intros i ctx ctx' H; rewrite ?fmap_cons; cbn [printList concat] in *.
  { injection H as <-. by apply grows_same. }
  case_decide; [|injection H as <-; by apply grows_same]. unbind. destruct (IsPad _).
  - apply (grows_trans _ _ _ ctx); [by apply grows_same|by eapply IH].
  - unbind. eapply grows_trans; [|by eapply IH]. case_decide; [eapply grows_print|]; by eapply Ha.
Qed.

Lemma serializeResult_grows i ctx ctx' : serializeResult h i ctx = Ret ctx' → grows [i] ctx ctx'.
Proof.
  unfold serializeResult. intros H. unbind. assert (grows [i] ctx (if decide (uses x ≠ ∅) then
    let (id, ctx) := allocVarID i ctx in printf (chr "<" :: varName id ++ str "=>") ctx else ctx)) as Hn.
  { case_decide; [|by apply grows_same]. unfold allocVarID, printf. split; cbn [svars varSeq]; [lia| |].
    - intros j id. rewrite lookup_insert_Some. intros [[_ <-]|[_ Hj]]; [right; lia|by left].
    - intros j Hj. apply lookup_insert_ne. set_solver. }
  revert H. set (c1 := if decide _ then _ else _) in *. destruct (rRes x) as [r|].
  - destruct (svars c1 !! r) as [id|]; [|done]. intros [= <-].
    destruct Hn as [? ? ?]. repeat case_decide; by split.
  - intros [= <-]. destruct Hn as [? ? ?]. by split.
Qed.

Lemma serializeArg_grows arg : ∀ ctx ctx', serializeArg target h EncodeB64 verbose arg ctx = Ret ctx' → grows (results arg) ctx ctx'.
Proof.
  induction arg as [c v|c ad v r IH|c d s|c l IH|c o i t IH|i] using arg_ind; intros ctx ctx' H; cbn [serializeArg] in H.
  - injection H as <-. by apply grows_same.
  - destruct (isSpecial ad v r); [injection H as <-; by apply grows_same|]. unbind.
    destruct r as [p|]; unbind.
    + match goal with H : (if ?b then _ else _) = Ret ctx' |- _ => destruct b end; [injection H as <-; by apply grows_same|].
      apply (IH p eq_refl) in H. destruct x; by destruct H.
    + destruct x; by apply grows_same.
  - unfold serializeDataArg in H. unbind. destruct x; try discriminate H. case_decide; [unbind; by apply grows_same|].
    destruct (IsCompressed _); [injection H as <-; by apply grows_same|]. unbind.
    apply grows_same; by repeat match goal with |- context [if ?b then _ else _] => destruct b end.
  - rewrite results_group. unbind. apply printList_grows in E2; [|by apply Forall_forall]. by destruct E2.
  - unbind. destruct x; try discriminate H. unbind.
    match goal with H : (if ?b then _ else _) = Ret ctx' |- _ => destruct b end; [injection H as <-; by apply grows_same|].
    apply IH in H. by destruct H.
  - by apply serializeResult_grows in H.
Qed.

End grows.

(** ** Properties of calls *)

(** A property that is not zero. *)
Inductive prop := PFail (n : Z) | PAsync | PRerun (n : Z).

Definition propName (k : prop) : list Z :=
  match k with PFail _ => str "fail_nth" | PAsync => str "async" | PRerun _ => str "rerun" end.
Definition propText (k : prop) : list Z :=
  propName k ++ match k with PFail n | PRerun n => chr ":" :: chr " " :: printDec n | PAsync => [] end.
Definition applyProp (p : CallProps) (k : prop) : CallProps :=
  match k with
  | PFail n => MkProps n (Async p) (Rerun p)
  | PAsync => MkProps (FailNth p) true (Rerun p)
  | PRerun n => MkProps (FailNth p) (Async p) n
  end.
Definition propsOf (p : CallProps) : list prop :=
  (if decide (FailNth p ≠ 0) then [PFail (FailNth p)] else []) ++ (if Async p then [PAsync] else []) ++
  (if decide (Rerun p ≠ 0) then [PRerun (Rerun p)] else []).

(** Numbers that a Go [int] can hold. *)
Definition propOk (k : prop) : Prop := match k with PFail n | PRerun n => 0 ≤ n < 2 ^ 63 | PAsync => True end.
Definition propsOk (p : CallProps) : Prop := 0 ≤ FailNth p < 2 ^ 63 ∧ 0 ≤ Rerun p < 2 ^ 63.

Lemma changedProps_of p : propsOk p → changedProps p = propText <$> propsOf p.
Proof.
  intros [Hf Hr]. unfold changedProps, propsOf, printInt.
  rewrite (decide_False (P := FailNth p < 0)), (decide_False (P := Rerun p < 0)) by lia. rewrite !fmap_app.
  f_equal; [by case_decide|]. f_equal; [by destruct (Async p)|by case_decide].
Qed.

Lemma propsOf_apply p : foldl applyProp noProps (propsOf p) = p.
Proof.
  destruct p as [f a r]. unfold propsOf, noProps. cbn [FailNth Async Rerun].
  repeat case_decide; destruct a; cbn; f_equal; lia.
Qed.

Lemma propsOf_ok p : propsOk p → Forall propOk (propsOf p).
Proof.
  intros [Hf Hr]. unfold propsOf. apply Forall_app. split; [case_decide; [by apply Forall_singleton|done]|]. apply Forall_app.
  split; [destruct (Async p); [by apply Forall_singleton|done]|case_decide; [by apply Forall_singleton|done]].
Qed.

Section props.
Context (st : bool) (autos : option (gset positive)) (cm : string) (data : list Z).
Notation P l vars m := (MkPst (MkParser l None st) vars autos cm data m).

Lemma propText_ws k l : skipWs (propText k ++ l) = propText k ++ l.
Proof. destruct k; apply skipWs_not; intros [E|E]; discriminate E. Qed.

(** The number behind the name of a property. *)
Lemma parsePropInt_ok old n l vars m : 0 ≤ n < 2 ^ 63 → delim l →
  parsePropInt old (P (chr ":" :: chr " " :: printDec n ++ l) vars m) = (n, P l vars m).
Proof.
  intros Hn Hd. unfold parsePropInt. rewrite pParse_ok.
  change (skipWs (chr " " :: printDec n ++ l)) with (skipWs (printDec n ++ l)).
  pose proof (printDec_ident n) as Hid. destruct (printDec_cons n) as (c & w & Hw).
  assert (skipWs (printDec n ++ l) = printDec n ++ l) as ->.
  { rewrite Hw in Hid |- *. cbn [app]. apply skipWs_not. by eapply identText_head. }
  rewrite pIdent_ok; [|by rewrite Hw|done|by apply delim_noIdent]. rewrite delim_ws by done. unfold ParseInt.
  rewrite ParseUint_dec by (split; lia). by rewrite decide_True by lia.
Qed.

Lemma parseCallProps_ok ks : ∀ fuel props tail vars m, Forall propOk ks → (length ks < fuel)%nat →
  parseCallProps fuel props (P (joined (propText <$> ks) ++ chr ")" :: tail) vars m) =
    Ret (foldl applyProp props ks, P (chr ")" :: tail) vars m).
Proof.
  assert (closing (chr ")")) as Hcl by (by left).
  induction ks as [|k ks IH]; intros fuel props tail vars m Hok Hf; (destruct fuel as [|fuel]; [cbn [length] in Hf; lia|]).
  { done. }
  apply Forall_cons in Hok as [Hk Hok]. rewrite fmap_cons. cbn [joined foldl]. rewrite <-app_assoc.
  set (R := sepd (propText <$> ks) ++ chr ")" :: tail). assert (delim R) as Hd by (by apply sepd_delim).
  pose proof (comma_text st autos cm data (propText <$> ks) (chr ")") tail vars m) as Hcm. fold R in Hcm.
  destruct (pChar (P R vars m)) as [ch p1] eqn:Ech. cbn beta iota in Hcm.
  assert ((if decide (ch ≠ chr ")") then pParse (chr ",") p1 else p1) = P (joined (propText <$> ks) ++ chr ")" :: tail) vars m) as Hnext.
  { apply Hcm; [|done]. apply Forall_fmap, Forall_true. intros k' l. apply propText_ws. }
  clear Hcm. assert (length ks < fuel)%nat as Hf' by (cbn [length] in Hf; lia).
  assert (∀ l, noIdent l → skipWs l = l → pIdent (P (propName k ++ l) vars m) = (propName k, P l vars m)) as Hid.
  { intros l Hn Hw. rewrite pIdent_ok, Hw; [done|by destruct k|destruct k; by repeat constructor|done]. }
  cbn [parseCallProps]. change (pErr (P (propText k ++ R) vars m)) with false. cbv iota.
  assert (∃ c, pChar (P (propText k ++ R) vars m) = (c, P (propText k ++ R) vars m) ∧ c ≠ chr ")") as (c & -> & Hc)
    by (destruct k; eexists; split; (reflexivity || discriminate)).
  rewrite decide_False by done. unfold propText. rewrite <-app_assoc.
  destruct k as [n| |n]; rewrite Hid by (done || by apply delim_noIdent || by apply delim_ws); cbn [propName].
  - rewrite decide_True by done. cbn [app]. rewrite parsePropInt_ok by done. cbv beta iota zeta. rewrite Ech, Hnext. by apply IH.
  - rewrite decide_False by done. rewrite decide_True by done. cbn [app]. rewrite Ech, Hnext. by apply IH.
  - rewrite decide_False by done. rewrite decide_False by done. rewrite decide_True by done. cbn [app].
    rewrite parsePropInt_ok by done. cbv beta iota zeta. rewrite Ech, Hnext. by apply IH.
Qed.

End props.

(** ** Lines *)

Lemma find_first (b : Z) pre l : b ∉ pre → list_find (λ c, c = b) (pre ++ b :: l) = Some (length pre, b).
Proof.
  intros Hb. apply list_find_Some. split; [|split; [done|]].
  - rewrite lookup_app_r by lia. by rewrite Nat.sub_diag.
  - intros j y Hj Hlt ->. rewrite lookup_app_l in Hj by done. apply Hb. by eapply list_elem_of_lookup_2.
Qed.

Lemma printable_line line : Forall printable line → 10 ∉ line.
Proof. intros Hl Hin. apply (proj1 (Forall_forall _ _) Hl) in Hin as [? ?]. lia. Qed.

(** ** Calls *)

Section target.
Context (target : Target) (dfuel : nat).
Context (EncodeB64 : list Z → list Z) (DecodeB64 : list Z → option (list Z)) `{!Base64 EncodeB64 DecodeB64}.
Context (DecompressCheck : list Z → bool) (Compress : list Z → list Z).

Notation typeAt := (typeAt (typeRefs target)).
Notation exact := (exact target DecompressCheck).

(** The return value that [MakeCall] gives to a call. *)
Definition plainRet (h : heap) (c : Call) : Prop :=
  match sysRet (Meta c) with
  | None => Ret_ c = None
  | Some r => ∃ i o t, Ret_ c = Some i ∧ h !! i = Some o ∧ typeAt r = Ret t ∧ ref t = Ret (rRef o) ∧
      rDir o = DirOut ∧ rRes o = None ∧ rVal o = 0 ∧ OpDiv o = 0 ∧ OpAdd o = 0
  end.

(** A call that the format can represent: it is found by its name, its arguments are those of
    the description and do not refer to its own return value. *)
Record exactCall (h : heap) (c : Call) : Prop := {
  ec_meta : syscallNamed target (str (sysName (Meta c))) = Some (Meta c);
  ec_name : identText (str (sysName (Meta c))) ∧ str (sysName (Meta c)) ≠ [];
  ec_args : Forall2 (λ a f, exact h a (fieldType f) DirIn) (Args c) (sysArgs (Meta c));
  ec_nopad : Forall (λ f, fieldDir f DirIn = DirIn ∧ ∃ t, typeAt (fieldType f) = Ret t ∧ IsPad t = false) (sysArgs (Meta c));
  ec_ret : plainRet h c;
  ec_own i o r : i ∈ concat (results <$> Args c) → h !! i = Some o → rRes o = Some r → Ret_ c ≠ Some r;
  ec_props : propsOk (Props c)
}.

Hypothesis Htab : textTables target.
Hypothesis Hdfuel : dfuel ≠ 0%nat.
Context (h0 : heap) (n0 : positive) (full : list positive).
Hypothesis Hord : wellOrdered h0 full.
Hypothesis Hfresh0 : fresh (Mem h0 n0).
Hypothesis Hlink : linked (list_to_set full) h0.
Hypothesis Hmany : Z.of_nat (length full) < 2 ^ 64.
Context (st : bool).

Section line.
(** The lines behind the current one. *)
Context (data : list Z).

Notation P l vars m := (MkPst (MkParser l None st) vars None "" data m).
Notation numbered := (numbered h0).

(** *** Return values *)

(** The name in front of a call is read at once, and known from the end of the line on. *)
Lemma ret_print c ctx done suf : plainRet h0 c → full = done ++ option_list (Ret_ c) ++ suf → numbered ctx done →
  ∃ rt ctx1, match Ret_ c with
      | None => Ret ctx
      | Some i =>
        let! o := deref h0 i in
        Ret (if decide (uses o ≠ ∅) then let (id, ctx) := allocVarID i ctx in printf (varName id ++ str " = ") ctx else ctx)
      end = Ret ctx1 ∧ sbuf ctx1 = sbuf ctx ++ rt ∧ numbered ctx1 (done ++ option_list (Ret_ c)) ∧
    (rt = [] ∧ svars ctx1 = svars ctx ∨
     ∃ i, Ret_ c = Some i ∧ rt = varName (varSeq ctx) ++ str " = " ∧
       svars ctx1 = <[i := varSeq ctx]> (svars ctx) ∧ varSeq ctx1 = varSeq ctx + 1).
Proof.
  intros Hret Hfull Hnu. unfold plainRet in Hret. destruct (sysRet (Meta c)) as [r|].
  - destruct Hret as (i & o & t & Hi & Ho & _). rewrite Hi in *. rewrite (deref_Some _ _ _ Ho). cbn [rbind option_list] in *.
    pose proof (numbered_name h0 full ctx done i suf o Hfull Hnu Ho) as Hn. unfold afterName in Hn. case_decide as Hu.
    + eexists (varName (varSeq ctx) ++ str " = "), _. split; [reflexivity|]. split; [done|]. split; [by apply numbered_print|].
      right. exists i. done.
    + exists [], ctx. rewrite app_nil_r. split_and!; [done|done|done|by left].
  - rewrite Hret in *. cbn [option_list]. exists [], ctx. rewrite !app_nil_r. split_and!; [done|done|done|by left].
Qed.

(** [MakeCall] makes a copy of the return value. *)
Lemma ret_make c done suf na m : plainRet h0 c → full = done ++ option_list (Ret_ c) ++ suf → copied h0 n0 done na m →
  ∃ ret1 na1 m1, MakeCall target (Meta c) [] m = Ret (MkCall (Meta c) [] ret1 noProps "", m1) ∧ na ⊆ na1 ∧
    copied h0 n0 (done ++ option_list (Ret_ c)) na1 m1 ∧ ret1 = (Ret_ c ≫= (na1 !!.)) ∧ (is_Some (Ret_ c) ↔ is_Some ret1).
Proof.
  intros Hret Hfull Hc. unfold plainRet in Hret. unfold MakeCall, retType. destruct (sysRet (Meta c)) as [r|].
  - destruct Hret as (i & o & t & Hi & Ho & Ht & Href & Hdir & Hres & Hval & Hdiv & Hadd). rewrite Hi in *. rewrite Ht.
    cbn [rbind option_list] in *. unfold MakeReturnArg. rewrite Href. cbn [rbind alloc].
    destruct (clone_done h0 n0 full Hord Hfresh0 done i suf na m (mNext m)
      (Mem (<[mNext m := MkResult (rRef o) DirOut None 0 0 0 ∅]> (mHeap m)) (Pos.succ (mNext m))) Hfull Hc) as [Hsub Hc1].
    { unfold sameAsClone. cbn [clone]. assert (mHeap m !! i = Some o) as Hoi by (eapply lookup_weaken; [done|apply Hc]).
      rewrite (deref_Some _ _ _ Hoi). cbn [rbind alloc]. by rewrite Hres, Hdiv, Hadd, Hval, Hdir. }
    eexists (Some (mNext m)), (<[i := mNext m]> na), _. split_and!; [reflexivity|done|done| |]; cbn [mbind option_bind].
    + by rewrite lookup_insert_eq.
    + by split; eauto.
  - rewrite Hret. cbn [rbind option_list MakeReturnArg]. exists None, na, m. rewrite app_nil_r. split_and!; [done|done|done|done|].
    split; by intros [? ?].
Qed.

(** *** Lines of calls *)

(** The name of the call, behind that of its return value. *)
Lemma head_read (id : Z) (hasRet : bool) name l vars m : 0 ≤ id → identText name → name ≠ [] →
  (let (nm, p) := pIdent (P ((if hasRet then varName id ++ str " = " else []) ++ name ++ chr "(" :: l) vars m) in
   let (c, p) := pChar p in
   if decide (c = chr "=") then let (name1, p) := pIdent (pParse (chr "=") p) in (nm, name1, p) else ([], nm, p)) =
  (if hasRet then varName id else [], name, P (chr "(" :: l) vars m).
Proof.
  intros Hid Hn Hne. assert (pIdent (P (name ++ chr "(" :: l) vars m) = (name, P (chr "(" :: l) vars m)) as Hname.
  { rewrite pIdent_ok by done. by rewrite skipWs_not by (intros [E|E]; discriminate E). }
  destruct hasRet; cbn [app]; [|by rewrite Hname].
  destruct (varName_ident id Hid) as [Hv [w Hw]]. rewrite <-app_assoc. cbn [str app].
  rewrite pIdent_ok by (done || by rewrite Hw).
  change (skipWs (chr " " :: chr "=" :: chr " " :: name ++ chr "(" :: l)) with (chr "=" :: chr " " :: name ++ chr "(" :: l).
  rewrite pChar_ok. rewrite decide_True by done. rewrite pParse_ok.
  change (skipWs (chr " " :: name ++ chr "(" :: l)) with (skipWs (name ++ chr "(" :: l)).
  assert (skipWs (name ++ chr "(" :: l) = name ++ chr "(" :: l) as ->.
  { destruct name as [|ch nm]; [done|]. cbn [app]. apply skipWs_not. by eapply identText_head. }
  by rewrite Hname.
Qed.

(** The properties behind a call. *)
Definition propsText (p : CallProps) : list Z :=
  match propText <$> propsOf p with [] => [] | l => str " (" ++ joined l ++ str ")" end.

Lemma props_read p fuel vars m : propsOk p → (length (propsText p) < fuel)%nat →
  (let q := P (skipWs (propsText p)) vars m in
   if pEOF q then Ret (noProps, q)
   else
     let (c, q) := pChar q in
     if decide (c = chr "(") then
       let! '(props, q) := parseCallProps fuel noProps (pParse (chr "(") q) in Ret (props, pParse (chr ")") q)
     else Ret (noProps, q)) = Ret (p, P [] vars m).
Proof.
  intros Hok Hf. pose proof (propsOf_apply p) as Hp. pose proof (propsOf_ok p Hok) as Hks. unfold propsText in *.
  destruct (propsOf p) as [|k ks]; [cbn in Hp; by rewrite <-Hp|]. rewrite fmap_cons in *.
  change (str " (" ++ joined (propText k :: (propText <$> ks)) ++ str ")") with
    (chr " " :: chr "(" :: joined (propText <$> (k :: ks)) ++ chr ")" :: []) in *.
  change (skipWs (chr " " :: chr "(" :: joined (propText <$> (k :: ks)) ++ [chr ")"])) with
    (chr "(" :: joined (propText <$> (k :: ks)) ++ [chr ")"]). cbv zeta. rewrite pChar_ok.
  replace (pEOF _) with false by reflexivity. rewrite decide_True by done. rewrite pParse_ok.
  rewrite fmap_cons. cbn [joined]. rewrite <-app_assoc, propText_ws, app_assoc.
  change (propText k ++ sepd (propText <$> ks)) with (joined (propText <$> (k :: ks))).
  rewrite parseCallProps_ok; [|done|].
  - cbn [rbind]. rewrite pParse_ok, Hp. done.
  - cbn [length] in *. rewrite length_app in Hf. assert (length ks ≤ length (joined (propText <$> (k :: ks))))%nat; [|lia].
    cbn [fmap list_fmap joined]. rewrite length_app.
    enough (length ks ≤ length (sepd (propText <$> ks)))%nat by lia. clear. induction ks as [|k ks IH]; [done|].
    unfold sepd in *. rewrite !fmap_cons. cbn [concat length]. rewrite !length_app. change (length (str ", ")) with 2%nat. lia.
Qed.

Lemma propsText_printable p : Forall printable (propsText p).
Proof.
  assert (∀ k, Forall printable (propText k)) as Hk.
  { intros k. apply Forall_app. split; [destruct k; repeat constructor; by vm_compute|].
    destruct k as [n| |n]; [|constructor|]; (constructor; [by vm_compute|]; constructor; [by vm_compute|]); apply ident_printable, printDec_ident. }
  assert (∀ ks, Forall printable (sepd (propText <$> ks))) as Hs.
  { induction ks as [|k ks IH]; [constructor|]. unfold sepd in *. rewrite !fmap_cons. cbn [concat]. apply Forall_app. split; [|done].
    apply Forall_app. split; [repeat constructor; by vm_compute|done]. }
  unfold propsText. destruct (propsOf p) as [|k ks]; [constructor|]. rewrite fmap_cons. apply Forall_app.
  split; [repeat constructor; by vm_compute|]. apply Forall_app. split; [by apply Forall_app|repeat constructor; by vm_compute].
Qed.

(** A return value does not occur among the arguments of its call. *)
Lemma own_ret done i l suf : full = done ++ i :: l ++ suf → i ∉ l.
Proof.
  intros Hfull Hin. apply list_elem_of_split in Hin as (l1 & l2 & ->).
  destruct (Hord (done ++ i :: l1) i (l2 ++ suf)) as (Hni & _); [rewrite Hfull, <-app_assoc; cbn [app]; by rewrite <-app_assoc|].
  apply Hni, elem_of_app. right. apply list_elem_of_here.
Qed.

(** At the end of the line, the name of the return value is known too. *)
Lemma named_end ctx ctx1 ctx2 i i1 l na vars done suf :
  numbered ctx done → svars ctx1 = <[i := varSeq ctx]> (svars ctx) → varSeq ctx1 = varSeq ctx + 1 →
  grows l ctx1 ctx2 → i ∉ l → numbered ctx2 (done ++ i :: l) → full = (done ++ i :: l) ++ suf →
  na !! i = Some i1 → named [i] na ctx2 vars → named [] na ctx2 (<[varName (varSeq ctx) := i1]> vars).
Proof.
  intros Hnu Hs Hv [Hseq Hnew Hother] Hil Hnu2 Hfull Hi Hna j id Hj _. pose proof (nu_seq _ _ _ Hnu) as Hb.
  destruct (decide (j = i)) as [->|Hne].
  - exists i1. split; [done|]. rewrite (Hother i Hil), Hs, lookup_insert_eq in Hj. injection Hj as <-. apply lookup_insert_eq.
  - destruct (Hna j id Hj) as (j1 & Hj1 & Hvj); [by rewrite list_elem_of_singleton|]. exists j1. split; [done|].
    pose proof (nu_num _ _ _ Hnu2 _ _ Hj) as Hid. rewrite lookup_insert_ne; [done|]. intros E.
    apply varName_inj in E; [|eapply number_small; [exact Hmany|exact Hfull|exact Hnu2|lia]..].
    destruct (Hnew j id Hj) as [Hj'|Hj']; [|lia]. rewrite Hs, lookup_insert_ne in Hj' by done.
    pose proof (nu_num _ _ _ Hnu _ _ Hj'). lia.
Qed.

Lemma parseCall_ok c comments line vars m id hasRet T fuel ret1 m1 l1 vars' m' :
  line = (if hasRet : bool then varName id ++ str " = " else []) ++ str (sysName (Meta c)) ++ chr "(" :: T ++ chr ")" :: propsText (Props c) →
  fuel = S (length line) → 0 ≤ id → exactCall h0 c → MakeCall target (Meta c) [] m = Ret (MkCall (Meta c) [] ret1 noProps "", m1) →
  (∀ tail, skipWs (T ++ chr ")" :: tail) = T ++ chr ")" :: tail) →
  argsLoop target dfuel DecodeB64 DecompressCheck Compress fuel (sysArgs (Meta c)) []
    (P (T ++ chr ")" :: propsText (Props c)) vars m1) = Ret (inr (Some <$> l1, []), P (chr ")" :: propsText (Props c)) vars' m') →
  length l1 = length (sysArgs (Meta c)) →
  parseCall target dfuel DecodeB64 DecompressCheck Compress comments (P line vars m) =
    Ret (inr (MkCall (Meta c) l1 ret1 (Props c) "", comments),
      P [] (match ret1 with Some i1 => if hasRet then <[varName id := i1]> vars' else vars' | None => vars' end) m').
Proof.
  intros Hline Hfuel Hid [Hmeta [Hident Hne] _ _ _ _ Hprops] Hmk Hws Hargs Hlen. unfold parseCall. cbn [lex rest].
  rewrite <-Hfuel. rewrite Hline at 1.
  pose proof (head_read id hasRet (str (sysName (Meta c))) (T ++ chr ")" :: propsText (Props c)) vars m Hid Hident Hne) as Hhead.
  destruct (pIdent _) as [nm p]. destruct (pChar p) as [ch p']. rewrite Hhead. rewrite Hmeta. cbn [pmem]. rewrite Hmk.
  cbn [rbind]. unfold setMem. cbn [lex pvars pautos pcomment pdata]. rewrite pParse_ok, Hws, Hargs. cbn [onOk rbind]. rewrite pParse_ok.
  assert (length (propsText (Props c)) < fuel)%nat as Hf.
  { rewrite Hfuel, Hline, !length_app. cbn [length]. rewrite length_app. cbn [length]. lia. }
  pose proof (props_read (Props c) fuel vars' m' Hprops Hf) as Hp. cbv zeta in Hp. rewrite Hp. cbn [rbind].
  replace (pEOF _) with true by reflexivity. cbn [gives onOk rbind pcomment missingArgs]. rewrite present_some. cbn [rbind].
  rewrite decide_False by (intros Hn; by apply Hn). cbn [Ret_ Meta]. unfold gives. f_equal. f_equal.
  destruct ret1 as [i1|]; [|done]. destruct hasRet; [|done].
  destruct (varName_ident id Hid) as [_ [w Hw]]. rewrite decide_True by (by rewrite Hw). done.
Qed.

(** The line of a call: its return value, its name and the arguments. *)
Definition lineOf (c : Call) (line : list Z) : Prop :=
  ∃ rt T, line = rt ++ str (sysName (Meta c)) ++ chr "(" :: T ∧ (rt = [] ∨ ∃ id, 0 ≤ id ∧ rt = varName id ++ str " = ").

Lemma lineOf_head c line : identText (str (sysName (Meta c))) → str (sysName (Meta c)) ≠ [] → lineOf c line →
  ∃ ch l, line = ch :: l ∧ isIdent ch = true.
Proof.
  intros Hident Hne (rt & T & -> & [-> |(id & Hid & ->)]).
  - destruct (str _) as [|ch nm]; [done|]. eexists _, _. split; [done|]. by inversion Hident.
  - destruct (varName_ident id Hid) as [_ [w Hw]]. rewrite Hw. by eexists _, _.
Qed.

(** The line of a call is read back. *)
Lemma call_reads c done suf ctx : exactCall h0 c → full = done ++ cloneOrder c ++ suf → numbered ctx done →
  ∃ line ctx', serializeCall target h0 EncodeB64 true c ctx = Ret ctx' ∧ sbuf ctx' = sbuf ctx ++ line ++ [10] ∧
    Forall printable line ∧ lineOf c line ∧ numbered ctx' (done ++ cloneOrder c) ∧
    ∀ na vars m comments, named [] na ctx vars → copied h0 n0 done na m →
      ∃ c1 na' vars' m', parseCall target dfuel DecodeB64 DecompressCheck Compress comments (P line vars m) =
          Ret (inr (c1, comments), P [] vars' m') ∧ na ⊆ na' ∧ copied h0 n0 (done ++ cloneOrder c) na' m' ∧
        copyOfCall na' c c1 ∧ named [] na' ctx' vars'.
Proof.
  intros Hex Hfull Hnu. pose proof Hex as [_ [Hident Hne] Hargs Hnopad Hret Hown Hprops].
  unfold cloneOrder in *. rewrite <-app_assoc in Hfull.
  destruct (ret_print c ctx done _ Hret Hfull Hnu) as (rt & ctx1 & Hpr & Hb1 & Hnu1 & Hcase). rewrite app_assoc in Hfull.
  pose proof (nu_seq _ _ _ Hnu) as [Hid _]. set (id := varSeq ctx) in *. set (name := str (sysName (Meta c))) in *.
  assert (∃ hasRet : bool, rt = (if hasRet then varName id ++ str " = " else []) ∧
    if hasRet then ∃ i, Ret_ c = Some i ∧ svars ctx1 = <[i := id]> (svars ctx) ∧ varSeq ctx1 = id + 1
    else svars ctx1 = svars ctx) as (hasRet & -> & Hret1).
  { destruct Hcase as [[-> ?]|(i & ? & -> & ? & ?)]; [by exists false|exists true; eauto]. }
  set (X := if hasRet then option_list (Ret_ c) else []).
  destruct (args_reads target dfuel EncodeB64 DecodeB64 DecompressCheck Compress Htab h0 n0 full Hord Hfresh0 Hlink Hmany st None "" data Hdfuel
    (Args c) (sysArgs (Meta c)) (done ++ option_list (Ret_ c)) suf X (printf (name ++ str "(") ctx1))
    as (T & ctx2 & Hser & Hb2 & HT & Hws & Hnu2 & Hparse); [done|done|done|by apply numbered_print| |].
  { intros i o r Hi Ho Hr Hin. unfold X in Hin. destruct hasRet; [|by apply elem_of_nil in Hin].
    apply (Hown i o r Hi Ho Hr). destruct (Ret_ c); [|by apply elem_of_nil in Hin]. apply list_elem_of_singleton in Hin. congruence. }
  set (line := (if hasRet then varName id ++ str " = " else []) ++ name ++ chr "(" :: T ++ chr ")" :: propsText (Props c)).
  exists line, (printf [10] (printf (str ")" ++ propsText (Props c)) ctx2)). split_and!.
  - unfold serializeCall. rewrite Hpr. cbn [rbind]. fold name. rewrite Hser. cbn [rbind]. rewrite changedProps_of by done.
    unfold propsText. destruct (propText <$> propsOf (Props c)) as [|q qs]; cbn [joined]; unfold printf; cbn [sbuf svars varSeq];
      rewrite <-!app_assoc; done.
  - unfold line. cbn [printf sbuf]. rewrite Hb2. cbn [printf sbuf]. rewrite Hb1, <-!app_assoc. cbn [str app]. by rewrite <-!app_assoc.
  - unfold line. apply Forall_app. split; [|].
    { destruct hasRet; [|constructor]. apply Forall_app. split; [by apply ident_printable, varName_ident|repeat constructor; by vm_compute]. }
    apply Forall_app. split; [by apply ident_printable|]. constructor; [by vm_compute|]. apply Forall_app. split; [done|].
    constructor; [by vm_compute|apply propsText_printable].
  - eexists _, _. split; [reflexivity|]. destruct hasRet; [right; eauto|by left].
  - rewrite app_assoc. do 2 apply numbered_print. done.
  - intros na vars m comments Hna Hc. rewrite <-app_assoc in Hfull.
    destruct (ret_make c done _ na m Hret Hfull Hc) as (ret1 & na1 & m1 & Hmk & Hsub1 & Hc1 & Hret1' & Hsome).
    assert (named X na1 (printf (name ++ str "(") ctx1) vars) as Hna1.
    { intros j idj Hj HX. cbn [printf svars] in Hj. assert (svars ctx !! j = Some idj) as Hj'.
      { unfold X in HX. destruct hasRet; [|by rewrite Hret1 in Hj]. destruct Hret1 as (i & Hi & Hs & _).
        rewrite Hs, lookup_insert_ne in Hj; [done|]. intros <-. apply HX. rewrite Hi. apply list_elem_of_here. }
      destruct (Hna j idj Hj' (not_elem_of_nil _)) as (j1 & Hj1 & Hv). exists j1. split; [by eapply lookup_weaken|done]. }
    destruct (Hparse (S (length line)) (propsText (Props c)) na1 vars m1) as (l1 & na' & vars' & m' & E & Hsub & Hc' & Hcp & Hn');
      [|done|done|].
    { unfold line. rewrite !length_app. cbn [length]. rewrite length_app. lia. }
    eexists _, na', _, m'. split_and!.
    + eapply (parseCall_ok c comments line vars m id hasRet T); try done. rewrite <-(Forall2_length _ _ _ Hcp). by eapply Forall2_length.
    + by etrans.
    + by rewrite app_assoc.
    + split; cbn [Meta Props Args Ret_]; [done|done|done|]. split; [|done]. rewrite Hret1'. destruct (Ret_ c) as [i|]; [|done].
      cbn [mbind option_bind] in *. destruct (proj1 Hsome ltac:(eauto)) as [i1 Hi1]. rewrite Hi1 in Hret1'. rewrite <-Hret1'.
      symmetry. by eapply lookup_weaken.
    + destruct hasRet; [|by destruct ret1]. destruct Hret1 as (i & Hi & Hs & Hv). unfold X in Hn'. rewrite Hi in *.
      cbn [option_list mbind option_bind app] in *. destruct (proj1 Hsome ltac:(eauto)) as [i1 Hi1]. rewrite Hi1 in *.
      intros j idj Hj Hnil. cbn [printf svars] in Hj.
      apply (named_end ctx ctx1 ctx2 i i1 (concat (results <$> Args c)) na' vars' done suf); try done.
      * eapply grows_print, printList_grows; [|exact Hser]. apply Forall_true. intros a. apply serializeArg_grows.
      * apply (own_ret done i _ suf). exact Hfull.
      * rewrite <-app_assoc in Hnu2. exact Hnu2.
      * rewrite <-app_assoc. exact Hfull.
      * by eapply lookup_weaken.
Qed.

End line.

(** ** Programs *)

(** The first line of the text. *)
Lemma scan_line lx vars line rest m : perr lx = None → strict lx = st → Forall printable line →
  Scan (MkPst lx vars None "" (line ++ [10] ++ rest) m) = Some (MkPst (MkParser line None st) vars None "" rest m).
Proof.
  intros He Hs Hl. unfold Scan. assert (pErr (MkPst lx vars None "" (line ++ [10] ++ rest) m) = false) as -> by (unfold pErr; cbn [lex]; by rewrite He).
  assert (list_find (λ b, b = 10) (line ++ [10] ++ rest) = Some (length line, 10)) as Hf by (by apply find_first, printable_line).
  cbn [pdata lex pvars pautos pcomment pmem]. destruct (line ++ [10] ++ rest) as [|b l] eqn:E; [by destruct line|]. rewrite <-E in *.
  rewrite Hf, He, Hs. cbn [fmap option_fmap option_map fst default from_option]. unfold id. f_equal. f_equal.
  - f_equal. by rewrite take_app_length.
  - change (S (length line)) with (1 + length line)%nat. replace (line ++ [10] ++ rest) with ((line ++ [10]) ++ rest) by (by rewrite <-app_assoc).
    rewrite drop_app_ge; rewrite length_app; cbn [length]; [|lia]. replace (1 + length line - (length line + 1))%nat with 0%nat by lia. done.
Qed.

Lemma lines_read calls : ∀ done suf ctx, Forall (exactCall h0) calls →
  full = done ++ concat (cloneOrder <$> calls) ++ suf → numbered h0 ctx done →
  ∃ text ctx', for_list (serializeCall target h0 EncodeB64 true) calls ctx = Ret ctx' ∧ sbuf ctx' = sbuf ctx ++ text ∧
    (length calls ≤ length text)%nat ∧
    (∃ lines, text = concat ((λ l, l ++ [10]) <$> lines) ∧ Forall2 lineOf calls lines ∧ Forall (Forall printable) lines) ∧
    ∀ na vars m lx fuel pre comments, named [] na ctx vars → copied h0 n0 done na m → perr lx = None → strict lx = st →
      (length calls < fuel)%nat →
      ∃ calls1 na' p', parseLoop target dfuel DecodeB64 DecompressCheck Compress fuel pre comments (MkPst lx vars None "" text m) =
          Ret (inr (pre ++ calls1, comments), p') ∧ perr (lex p') = None ∧ pautos p' = None ∧
        na ⊆ na' ∧ copied h0 n0 (done ++ concat (cloneOrder <$> calls)) na' (pmem p') ∧ Forall2 (copyOfCall na') calls calls1.
Proof.
  induction calls as [|c calls IH]; intros done suf ctx Hex Hfull Hnu.
  { exists [], ctx. rewrite !app_nil_r. split_and!; [done|done|done|by exists []|]. intros na vars m lx fuel pre comments Hna Hc He Hs Hf.
    destruct fuel as [|fuel]; [lia|]. exists [], na, (MkPst lx vars None "" [] m). rewrite app_nil_r. split_and!; try done.
    cbn [parseLoop]. unfold Scan, pErr. cbn [lex pdata]. by rewrite He. }
  apply Forall_cons in Hex as [Hc Hex]. rewrite fmap_cons in *. cbn [concat] in *. rewrite <-app_assoc in Hfull.
  pose proof (call_reads [] c done _ ctx Hc Hfull Hnu) as (line & ctx1 & Hser & _ & _ & _ & Hnu1 & _).
  destruct (IH (done ++ cloneOrder c) suf ctx1 Hex) as (rest & ctx' & Hsers & Hbs & Hlen & (lines & Hrest & Hlines & Hpls) & Hparse);
    [by rewrite <-app_assoc|done|].
  clear line. destruct (call_reads rest c done _ ctx Hc Hfull Hnu) as (line & ctx1' & Hser' & Hb & Hpl & Hshape & _ & Hcall).
  pose proof (ec_name _ _ Hc) as [Hident Hne]. destruct (lineOf_head c line Hident Hne Hshape) as (ch & l & Hl & Hch).
  assert (ctx1' = ctx1) as -> by congruence.
  exists (line ++ [10] ++ rest), ctx'. split_and!; [by cbn [for_list]; rewrite Hser|by rewrite Hbs, Hb, <-!app_assoc| | |].
  { rewrite !length_app. cbn [length]. lia. }
  { exists (line :: lines). rewrite fmap_cons, Hrest. cbn [concat]. rewrite <-app_assoc. split_and!; [done|by constructor..]. }
  intros na vars m lx fuel pre comments Hna Hcp He Hs Hf. destruct fuel as [|fuel]; [cbn [length] in Hf; lia|].
  destruct (Hcall na vars m comments Hna Hcp) as (c1 & na1 & vars1 & m1 & E & Hsub1 & Hcp1 & Hcc & Hna1).
  destruct (Hparse na1 vars1 m1 (MkParser [] None st) fuel (pre ++ [c1]) comments) as (calls1 & na' & p' & E' & Hpe & Hpa & Hsub & Hcp' & Hall);
    [done|done|done|done|cbn [length] in Hf; lia|].
  exists (c1 :: calls1), na', p'. split_and!; [|done|done|by etrans|by rewrite app_assoc|].
  - cbn [parseLoop]. rewrite scan_line by done. rewrite Hl in *. change (pEOF _) with false. cbv iota.
    change (pChar (MkPst (MkParser (ch :: l) None st) vars None "" rest m)) with (ch, MkPst (MkParser (ch :: l) None st) vars None "" rest m). cbv beta iota.
    rewrite decide_False by (intros ->; discriminate Hch). rewrite E. cbn [onOk rbind fst snd]. rewrite E'. by rewrite <-app_assoc.
  - constructor; [by eapply copyOfCall_mono|done].
Qed.

End target.

(** C2. The text of a program is read back: printing a program whose results refer to earlier
    ones and whose arguments the format can represent succeeds, and parsing the text, strictly
    or not, succeeds without an error, needs no fixing up, and gives a copy of the program: the
    same calls with the same properties and argument trees, in which every result refers to
    the copy of the result the original refers to. *)
Theorem text_roundtrip target dfuel EncodeB64 DecodeB64 DecompressCheck Compress calls m strict :
  Base64 EncodeB64 DecodeB64 → textTables target → dfuel ≠ 0%nat → fresh m →
  wellOrdered (mHeap m) (concat (cloneOrder <$> calls)) → linked (list_to_set (concat (cloneOrder <$> calls))) (mHeap m) →
  Z.of_nat (length (concat (cloneOrder <$> calls))) < 2 ^ 64 →
  Forall (exactCall target DecompressCheck (mHeap m)) calls →
  ∃ text calls1 na p, SerializeVerbose target (mHeap m) EncodeB64 calls = Ret text ∧
    parseProg target dfuel DecodeB64 DecompressCheck Compress (newParser text strict m) = Ret (inr (calls1, []), p) ∧
    perr (lex p) = None ∧ pautos p = None ∧ Forall2 (copyOfCall na) calls calls1 ∧
    copied (mHeap m) (mNext m) (concat (cloneOrder <$> calls)) na (pmem p) ∧
    linked (map_img na) (mHeap (pmem p)).
Proof.
  intros Hb64 Htab Hdf Hf Hord Hlink Hmany Hex. set (full := concat (cloneOrder <$> calls)) in *.
  destruct (lines_read target dfuel EncodeB64 DecodeB64 DecompressCheck Compress Htab Hdf (mHeap m) (mNext m) full Hord ltac:(by destruct m)
    Hlink Hmany strict calls [] [] (MkSer [] ∅ 0) Hex) as (text & ctx' & Hser & Hb & Hlen & _ & Hparse).
  { by rewrite app_nil_r. }
  { split; [done|done|]. intros i o Hi. by apply elem_of_nil in Hi. }
  destruct (Hparse ∅ ∅ m (MkParser [] None strict) (S (length text)) [] []) as (calls1 & na & p & E & He & Ha & _ & Hc & Hall); [done| |done|done|lia|].
  { split; try done. intros i. rewrite lookup_empty. split; [by intros [? ?]|intros Hi; by apply elem_of_nil in Hi]. }
  exists text, calls1, na, p. split_and!; [|done|done|done|done|done|by eapply copied_linked].
  unfold SerializeVerbose, serialize. rewrite Hser. cbn [rbind]. by rewrite Hb.
Qed.

(** ** The set of the calls of a text *)

Lemma index_first b pre l : b ∉ pre → IndexByte b (pre ++ b :: l) = Some (length pre).
Proof. intros Hb. unfold IndexByte. by rewrite find_first. Qed.

Lemma index_none b l : b ∉ l → IndexByte b l = None.
Proof.
  intros Hb. unfold IndexByte. assert (list_find (λ c, c = b) l = None) as ->; [|done].
  apply list_find_None, Forall_forall. by intros x Hx ->.
Qed.

Lemma ident_not c w : isIdent c = false → identText w → c ∉ w.
Proof. intros Hc Hw Hin. apply (proj1 (Forall_forall _ _) Hw) in Hin. congruence. Qed.

(** The conservative parser finds the name of the call in its line. *)
Lemma callOfLine_ok c line : identText (str (sysName (Meta c))) → str (sysName (Meta c)) ≠ [] → lineOf c line →
  callOfLine line = inr (str (sysName (Meta c))).
Proof.
  intros Hid Hne (rt & T & -> & Hrt). unfold callOfLine. set (name := str (sysName (Meta c))) in *.
  assert (chr "(" ∉ rt ++ name) as Hb.
  { rewrite elem_of_app. intros [Hin|Hin]; [|by eapply (ident_not (chr "(")) in Hin].
    destruct Hrt as [-> |(id & Hid0 & ->)]; [by apply elem_of_nil in Hin|]. apply elem_of_app in Hin as [Hin|Hin].
    - by eapply (ident_not (chr "(")) in Hin; [|done|apply varName_ident].
    - cbn [str] in Hin. rewrite !elem_of_cons, elem_of_nil in Hin. destruct_or! Hin; discriminate Hin. }
  rewrite app_assoc, index_first, take_app_length by done. destruct Hrt as [-> |(id & Hid0 & ->)]; cbn [app].
  - rewrite index_none by (by apply ident_not). by rewrite decide_False.
  - rewrite <-app_assoc. change (str " = " ++ name) with ([chr " "] ++ chr "=" :: chr " " :: name). rewrite app_assoc.
    assert (chr "=" ∉ varName id ++ [chr " "]) as He.
    { rewrite elem_of_app. intros [Hin|Hin]; [by eapply (ident_not (chr "=")) in Hin; [|done|apply varName_ident]|].
      apply list_elem_of_singleton in Hin. discriminate Hin. }
    rewrite index_first by done. change (chr "=" :: chr " " :: name) with ([chr "="] ++ chr " " :: name). rewrite app_assoc.
    replace (S (length (varName id ++ [chr " "]))) with (length ((varName id ++ [chr " "]) ++ [chr "="])) by (rewrite length_app; cbn [length]; lia).
    rewrite drop_app_length. change (skipSpaces (chr " " :: name)) with (skipSpaces name).
    assert (skipSpaces name = name) as ->; [|by rewrite decide_False]. destruct name as [|ch nm]; [done|]. cbn [skipSpaces].
    apply identText_head in Hid as [_ Hws]. rewrite decide_False; [done|]. intros ->. apply Hws. by left.
Qed.

Lemma callSet_lines calls lines : Forall2 lineOf calls lines → Forall (Forall printable) lines →
  Forall (λ c, identText (str (sysName (Meta c))) ∧ str (sysName (Meta c)) ≠ []) calls →
  ∀ fuel set n, (length lines < fuel)%nat →
  callSetLoop fuel (concat ((λ l, l ++ [10]) <$> lines)) set n =
    Ret (inr (list_to_set ((λ c, str (sysName (Meta c))) <$> calls) ∪ set, n + Z.of_nat (length calls))).
Proof.
  induction 1 as [|c line calls lines Hl Hls IH]; intros Hpr Hid fuel set n Hf; (destruct fuel as [|fuel]; [cbn [length] in Hf; lia|]).
  { cbn. f_equal. f_equal. f_equal; [set_solver|lia]. }
  apply Forall_cons in Hpr as [Hp Hpr]. apply Forall_cons in Hid as [[Hi Hne] Hid].
  rewrite !fmap_cons. cbn [concat callSetLoop]. destruct (lineOf_head c line Hi Hne Hl) as (ch & l & Hline & Hch).
  pose proof (printable_line line Hp) as H10.
  rewrite <-app_assoc. cbn [app]. destruct (line ++ 10 :: _) as [|d0 d] eqn:Ed; [by rewrite Hline in Ed|]. rewrite <-Ed.
  rewrite index_first, take_app_length by done.
  replace (drop (S (length line)) (line ++ 10 :: concat ((λ l, l ++ [10]) <$> lines))) with (concat ((λ l, l ++ [10]) <$> lines)).
  2: { symmetry. change (10 :: concat ((λ l, l ++ [10]) <$> lines)) with ([10] ++ concat ((λ l, l ++ [10]) <$> lines)). rewrite app_assoc.
       replace (S (length line)) with (length (line ++ [10])) by (rewrite length_app; cbn [length]; lia). apply drop_app_length. }
  assert ((match line with [] => true | c :: _ => bool_decide (c = chr "#") end) = false) as ->.
  { rewrite Hline. apply bool_decide_eq_false. intros ->. discriminate Hch. }
  rewrite (callOfLine_ok c line Hi Hne Hl). rewrite IH; [|done|done|cbn [length] in Hf; lia].
  f_equal. f_equal. f_equal; [set_solver|cbn [length]; lia].
Qed.

(** C25. The conservative parser [CallSet] agrees with the format: on the text of a program that
    the format can represent it finds exactly the names of the calls, and their number. *)
Theorem callSet_text target EncodeB64 DecodeB64 DecompressCheck calls m :
  Base64 EncodeB64 DecodeB64 → textTables target → fresh m →
  wellOrdered (mHeap m) (concat (cloneOrder <$> calls)) → linked (list_to_set (concat (cloneOrder <$> calls))) (mHeap m) →
  Z.of_nat (length (concat (cloneOrder <$> calls))) < 2 ^ 64 →
  Forall (exactCall target DecompressCheck (mHeap m)) calls → calls ≠ [] →
  ∃ text, SerializeVerbose target (mHeap m) EncodeB64 calls = Ret text ∧
    CallSet text = Ret (inr (list_to_set ((λ c, str (sysName (Meta c))) <$> calls), Z.of_nat (length calls))).
Proof.
  intros Hb64 Htab Hf Hord Hlink Hmany Hex Hne. set (full := concat (cloneOrder <$> calls)) in *.
  destruct (lines_read target 1 EncodeB64 DecodeB64 DecompressCheck id Htab ltac:(done) (mHeap m) (mNext m) full Hord ltac:(by destruct m)
    Hlink Hmany true calls [] [] (MkSer [] ∅ 0) Hex) as (text & ctx' & Hser & Hb & Hlen & (lines & -> & Hlines & Hpr) & _).
  { by rewrite app_nil_r. }
  { split; [done|done|]. intros i o Hi. by apply elem_of_nil in Hi. }
  exists (concat ((λ l, l ++ [10]) <$> lines)). split; [unfold SerializeVerbose, serialize; rewrite Hser; cbn [rbind]; by rewrite Hb|].
  unfold CallSet. rewrite (callSet_lines calls lines); [|done|done| |].
  - cbn [rbind]. rewrite (right_id_L ∅ (∪)). rewrite decide_False; [done|]. destruct calls; [done|]. set_solver.
  - eapply Forall_impl; [exact Hex|]. intros c Hc. by destruct Hc.
  - rewrite <-(Forall2_length _ _ _ Hlines). lia.
Qed.

(** Hexadecimal text can stand for the base64 text. *)
Lemma hex_base64 : Base64 hexEncode hexDecode.
Proof.
  split; intros data Hd; destruct (hex_roundtrip data Hd) as (Hdec & Hid & Hpr); [done|].
  apply Forall_forall. intros c Hc. split; [by apply (proj1 (Forall_forall _ _) Hpr)|].
  intros ->. apply (proj1 (Forall_forall _ _) Hid) in Hc. discriminate Hc.
Qed.

Lemma example_addr ad : 0 ≤ ad < 4096 → goodAddr ExampleTarget.target 12 ad 0.
Proof. intros Had. unfold goodAddr. cbn [NumPages PageSize ExampleTarget.target]. split_and!; lia. Qed.

Lemma example_args : Forall2 (λ a f, exact ExampleTarget.target (λ _, true) ExampleTarget.heap0 a (fieldType f) DirIn)
  (Args ExampleTarget.callWrite) (sysArgs ExampleTarget.sysWrite).
Proof.
  constructor; [|constructor; [|constructor; [|constructor]]].
  - eapply (exact_result _ _ _ 5 (MkResult 2 DirIn (Some 1%positive) 0 0 0 ∅)); try reflexivity; by vm_compute.
  - eapply (exact_ptr _ _ _ (MkCommon 6 6 DirIn) 0 _ _ 5 DirIn 12); [reflexivity|discriminate|done|by apply example_addr|].
    eapply (exact_struct _ _ _ (MkCommon 7 5 DirIn)); [reflexivity| | |].
    + constructor; [|constructor; [|constructor]].
      * eapply (exact_const _ _ _ (MkCommon 8 4 DirIn)); [reflexivity|done|by vm_compute|done].
      * eapply (exact_data _ _ _ (MkCommon 9 3 DirIn)); [reflexivity|done| |by vm_compute|by vm_compute|done|done|done].
        repeat constructor; by vm_compute.
    + constructor; [|constructor; [|constructor]]; intros ic val; discriminate.
    + intros f t [= <-] [= <-]. done.
  - eapply (exact_ptr _ _ _ (MkCommon 10 7 DirIn) 64 _ _ 1 DirOut 12); [reflexivity|discriminate|done|by apply example_addr|].
    eapply (exact_const _ _ _ (MkCommon 11 1 DirOut)); [reflexivity|done|by vm_compute|done].
Qed.

Lemma example_exact : Forall (exactCall ExampleTarget.target (λ _, true) ExampleTarget.heap0) ExampleTarget.calls.
Proof.
  constructor; [|constructor; [|constructor]].
  - split; [reflexivity| | | | | |by vm_compute].
    + split; [repeat constructor|done].
    + constructor.
    + constructor.
    + eexists _, _, ExampleTarget.tFd. split_and!; reflexivity.
    + intros i o r Hi. by apply elem_of_nil in Hi.
  - split; [reflexivity| |apply example_args| |done|done|by vm_compute].
    + split; [repeat constructor|done].
    + repeat constructor; eexists; split; reflexivity.
Qed.

Lemma example_links : linked (list_to_set (concat (cloneOrder <$> ExampleTarget.calls))) ExampleTarget.heap0.
Proof. destruct exampleProg_wf as [_ Hl _ _ _]. exact Hl. Qed.

Lemma example_tables : textTables ExampleTarget.target.
Proof.
  split; [|by vm_compute; lia].
  intros r t Ht. apply ExampleTarget.types_inv in Ht. rewrite !elem_of_cons, elem_of_nil in Ht. destruct_or! Ht; by simplify_eq/=.
Qed.

Lemma text_roundtrip_witness :
  ∃ text calls1 na p, SerializeVerbose ExampleTarget.target ExampleTarget.heap0 hexEncode ExampleTarget.calls = Ret text ∧
    parseProg ExampleTarget.target 5 hexDecode (λ _, true) id (newParser text true (Mem ExampleTarget.heap0 12)) = Ret (inr (calls1, []), p) ∧
    Forall2 (copyOfCall na) ExampleTarget.calls calls1 ∧ linked (map_img na) (mHeap (pmem p)).
Proof.
  destruct (text_roundtrip ExampleTarget.target 5 hexEncode hexDecode (λ _, true) id ExampleTarget.calls (Mem ExampleTarget.heap0 12) true)
    as (text & calls1 & na & p & E1 & E2 & _ & _ & Hc & _ & Hl).
  - exact hex_base64.
  - exact example_tables.
  - discriminate.
  - intros i o Ho. apply example_heap in Ho as [[-> _]|[-> _]]; reflexivity.
  - exact example_ordered.
  - exact example_links.
  - reflexivity.
  - exact example_exact.
  - exists text, calls1, na, p. split_and!; assumption.
Defined.

Lemma callSet_text_witness :
  ∃ text, SerializeVerbose ExampleTarget.target ExampleTarget.heap0 hexEncode ExampleTarget.calls = Ret text ∧
    CallSet text = Ret (inr ({[str "open"; str "write"]}, 2)).
Proof.
  destruct (callSet_text ExampleTarget.target hexEncode hexDecode (λ _, true) ExampleTarget.calls (Mem ExampleTarget.heap0 12))
    as (text & E1 & E2).
  - exact hex_base64.
  - exact example_tables.
  - intros i o Ho. apply example_heap in Ho as [[-> _]|[-> _]]; reflexivity.
  - exact example_ordered.
  - exact example_links.
  - reflexivity.
  - exact example_exact.
  - discriminate.
  - exists text. split; [exact E1|]. rewrite E2. by do 3 f_equal.
Defined.

End TextProg.
