(* ===== verification/LogParse.v ===== *)
(** * LogParse: programs in execution logs (prog/parse.go)

    [ParseLog] reads a console log line by line.  A line with the text [executing program]
    starts an entry; the following lines are added to the text of its program as long as the
    text can be parsed, all other lines are skipped.  The parser is the parameter
    [deserialize], which [Deserialize] of [TextParse] instantiates. *)

From S2P Require Import Prelude Types Prog ExampleTarget Minimize Text TextParse.
From Stdlib Require Import Ascii.
Import Types Prog Text.

Module LogParse.

Record LogEntry := MkEntry { entP : option (list Call); Proc : Z; Start : Z; End_ : Z }.

(** [bytes.Index]: the first place where [sub] occurs. *)
Fixpoint Index (l sub : list Z) : option nat :=
  if decide (take (length sub) l = sub) then Some 0%nat
  else match l with [] => None | _ :: l => S <$> Index l sub end.

Definition isDigit (c : Z) : bool := bool_decide (chr "0" ≤ c ≤ chr "9").
Fixpoint digitPrefix (l : list Z) : list Z :=
  match l with c :: l => if isDigit c then c :: digitPrefix l else [] | [] => [] end.
(** [strconv.Atoi] of digits, ignoring its error: 0 for the empty word, the largest [int] for a
    number that is too large. *)
Definition Atoi (digits : list Z) : Z :=
  Z.min (2 ^ 63 - 1) (foldl (λ n c, n * 10 + (c - chr "0")) 0 digits).

Definition extractInt (line : list Z) (prefix : list Z) : option Z :=
  pos ← Index line prefix;
  Some (Atoi (digitPrefix (drop (pos + length prefix) line))).

Definition execPrefix : list Z := str "executing program ".
Definition faultCallPrefix : list Z := str "fault-call:".
Definition faultNthPrefix : list Z := str "fault-nth:".

(** The first line of the data, with its end, and what is behind it. *)
Definition cutLine (data : list Z) : list Z * list Z :=
  match TextParse.IndexByte 10 data with
  | Some n => (take (S n) data, drop (S n) data)
  | None => (data, [])
  end.

Section log.
Context (deserialize : list Z → mem → res ((string + list Call) * mem)).

(** The fault that an older log asks for. *)
Record fault := MkFault { faultCall : Z; faultNth : Z }.
Definition noFault : fault := MkFault (-1) (-1).

Definition headFault (line : list Z) (f : fault) : fault :=
  match extractInt line faultCallPrefix with
  | Some call => MkFault call (default 0 (extractInt line faultNthPrefix))
  | None => f
  end.

(** [p.Calls[faultCall].Props.FailNth = faultNth + 1] *)
Definition setFault (f : fault) (calls : list Call) : list Call :=
  if decide (0 ≤ faultCall f < Z.of_nat (length calls)) then
    alter (λ c, Minimize.setProps (MkProps (wrapS 64 (faultNth f + 1)) (Async (Props c)) (Rerun (Props c))) c)
      (Z.to_nat (faultCall f)) calls
  else calls.

Record logState := MkLog {
  entries : list LogEntry;
  ent : LogEntry;
  cur : list Z;
  lfault : fault;
  lmem : mem
}.

Definition hasCalls (e : LogEntry) : bool := match entP e with Some (_ :: _) => true | _ => false end.

(** A line of text: the program so far with the line, if this can be parsed. *)
Definition textLine (line : list Z) (f : fault) (cur : list Z) (p : option (list Call)) (m : mem) :
    res (list Z * option (list Call) * mem) :=
  let tmp := cur ++ line in
  let! '(r, m) := deserialize tmp m in
  Ret (match r with inl _ => (cur, p, m) | inr calls => (tmp, Some (setFault f calls), m) end).

(** The body of the loop. *)
Definition logLine (line : list Z) (pos0 : Z) (s : logState) : res logState :=
  match extractInt line execPrefix with
  | Some proc =>
    let e := ent s in
    let '(es, f) :=
      if hasCalls e then (entries s ++ [MkEntry (entP e) (Proc e) (Start e) pos0], noFault) else (entries s, lfault s) in
    Ret (MkLog es (MkEntry None proc pos0 0) [] (headFault line f) (lmem s))
  | None =>
    let e := ent s in
    let! '(c, p, m) := textLine line (lfault s) (cur s) (entP e) (lmem s) in
    Ret (MkLog (entries s) (MkEntry p (Proc e) (Start e) (End_ e)) c (lfault s) m)
  end.

Fixpoint logLoop (fuel : nat) (data : list Z) (pos : Z) (s : logState) : res logState :=
  match fuel with
  | O => OutOfFuel
  | S fuel =>
    match data with
    | [] => Ret s
    | _ =>
      let '(line, rest) := cutLine data in
      let! s := logLine line pos s in
      logLoop fuel rest (pos + Z.of_nat (length line)) s
    end
  end.

Definition ParseLog (data : list Z) (m : mem) : res (list LogEntry * mem) :=
  let! s := logLoop (S (length data)) data 0 (MkLog [] (MkEntry None 0 0 0) [] noFault m) in
  let e := ent s in
  Ret (if hasCalls e then entries s ++ [MkEntry (entP e) (Proc e) (Start e) (Z.of_nat (length data))] else entries s, lmem s).

(** ** Sections of a log *)

(** The lines behind a head line; the first section has no head. *)
Record section := MkSection { secHead : list Z; body : list (list Z) }.
Definition sectionText (s : section) : list Z := secHead s ++ concat (body s).

Fixpoint linesOf (fuel : nat) (data : list Z) : list (list Z) :=
  match fuel with
  | O => []
  | S fuel => match data with [] => [] | _ => let '(line, rest) := cutLine data in line :: linesOf fuel rest end
  end.

Definition isHead (line : list Z) : bool := match extractInt line execPrefix with Some _ => true | None => false end.

Fixpoint sectionsOf (s : section) (lines : list (list Z)) : list section :=
  match lines with
  | [] => [s]
  | line :: lines =>
    if isHead line then s :: sectionsOf (MkSection line []) lines
    else sectionsOf (MkSection (secHead s) (body s ++ [line])) lines
  end.

(** The program of a section: the longest text that grows by lines that can be parsed. *)
Definition sectionProg (f : fault) (b : list (list Z)) (m : mem) : res (list Z * option (list Call) * mem) :=
  for_list (λ line '(cur, p, m), textLine line f cur p m) b ([], None, m).

(** Its entry, if the program has calls, and the fault for the next section: the fault of the
    head line, or the one of the section before if that one had no program. *)
Definition sectionEntry (s : section) (start : Z) (f : fault) (m : mem) : res (list LogEntry * fault * mem) :=
  let f := headFault (secHead s) f in
  let! '(_, p, m) := sectionProg f (body s) m in
  let e := MkEntry p (default 0 (extractInt (secHead s) execPrefix)) start (start + Z.of_nat (length (sectionText s))) in
  Ret (if hasCalls e then ([e], noFault, m) else ([], f, m)).

Fixpoint sectionEntries (secs : list section) (start : Z) (f : fault) (m : mem) : res (list LogEntry * mem) :=
  match secs with
  | [] => Ret ([], m)
  | s :: secs =>
    let! '(es, f, m) := sectionEntry s start f m in
    let! '(es', m) := sectionEntries secs (start + Z.of_nat (length (sectionText s))) f m in
    Ret (es ++ es', m)
  end.

Definition sections (data : list Z) : list section := sectionsOf (MkSection [] []) (linesOf (S (length data)) data).

(** ** The loop parses the sections *)

Lemma cutLine_app data : data ≠ [] →
  let '(line, rest) := cutLine data in data = line ++ rest ∧ line ≠ [].
Proof.
  intros Hd. unfold cutLine. destruct (TextParse.IndexByte 10 data) as [n|]; [|by rewrite app_nil_r].
  split; [by rewrite take_drop|]. by destruct data.
Qed.

Lemma linesOf_concat fuel : ∀ data, (length data < fuel)%nat → concat (linesOf fuel data) = data.
Proof.
  induction fuel as [|fuel IH]; intros data Hf; [lia|]. cbn [linesOf]. destruct data as [|b data]; [done|].
  pose proof (cutLine_app (b :: data) ltac:(done)) as Hc. destruct (cutLine (b :: data)) as [line rest]. destruct Hc as [E Hl].
  cbn [concat]. rewrite IH, <-E; [done|]. apply (f_equal length) in E. rewrite length_app in E. destruct line; [done|]. cbn in *. lia.
Qed.

Lemma sectionsOf_concat lines : ∀ s, concat (sectionText <$> sectionsOf s lines) = sectionText s ++ concat lines.
Proof.
  induction lines as [|line lines IH]; intros s; cbn [sectionsOf]; [done|]. destruct (isHead line).
  - rewrite fmap_cons. cbn [concat]. rewrite IH. unfold sectionText. cbn [secHead body concat]. by rewrite app_nil_r.
  - rewrite IH. unfold sectionText. cbn [secHead body concat]. rewrite concat_app. cbn [concat]. by rewrite app_nil_r, <-!app_assoc.
Qed.

(** The first section only grows. *)
Lemma sectionsOf_head lines : ∀ s, ∃ more rest, sectionsOf s lines = MkSection (secHead s) (body s ++ more) :: rest.
Proof.
  induction lines as [|line lines IH]; intros [h b]; cbn [sectionsOf secHead body].
  - exists [], []. by rewrite app_nil_r.
  - destruct (isHead line); [exists []; rewrite app_nil_r; eauto|]. destruct (IH (MkSection h (b ++ [line]))) as (more & rest & ->).
    cbn [secHead body]. exists (line :: more), rest. by rewrite <-app_assoc.
Qed.

Lemma sectionProg_snoc f b line m :
  sectionProg f (b ++ [line]) m = (let! '(c, p, m) := sectionProg f b m in textLine line f c p m).
Proof.
  unfold sectionProg. rewrite for_list_app. apply bind_ext. intros [[c p] m1] _. cbn [for_list].
  by destruct (textLine line f c p m1) as [[[??]?]|?|].
Qed.

(** The end of the loop. *)
Definition finish (len : Z) (s : logState) : list LogEntry * mem :=
  let e := ent s in
  (if hasCalls e then entries s ++ [MkEntry (entP e) (Proc e) (Start e) len] else entries s, lmem s).

Lemma loop_sections fuel : ∀ data sec start f0 m0 es c p m, (length data < fuel)%nat →
  sectionProg (headFault (secHead sec) f0) (body sec) m0 = Ret (c, p, m) →
  let pos := start + Z.of_nat (length (sectionText sec)) in
  (let! s := logLoop fuel data pos (MkLog es (MkEntry p (default 0 (extractInt (secHead sec) execPrefix)) start 0) c
               (headFault (secHead sec) f0) m) in
   Ret (finish (pos + Z.of_nat (length data)) s)) =
  (let! '(es', m') := sectionEntries (sectionsOf sec (linesOf fuel data)) start f0 m0 in Ret (es ++ es', m')).
Proof.
  induction fuel as [|fuel IH]; intros data sec start f0 m0 es c p m Hf Hp pos; [lia|]. cbn [logLoop linesOf].
  destruct data as [|b data].
  { cbn [sectionsOf sectionEntries rbind]. unfold sectionEntry. rewrite Hp. cbn [rbind length]. rewrite Z.add_0_r.
    unfold finish. cbn [ent entP Proc Start entries lmem]. fold pos. destruct p as [[|x l]|]; cbn [hasCalls entP rbind]; by rewrite ?app_nil_r. }
  pose proof (cutLine_app (b :: data) ltac:(done)) as Hc. destruct (cutLine (b :: data)) as [line rest]. destruct Hc as [E Hl].
  assert (length (b :: data) = length line + length rest)%nat as Hlen by (by rewrite E, length_app).
  assert (0 < length line)%nat as Hpos by (destruct line; [done|cbn; lia]).
  assert (pos + Z.of_nat (length (b :: data)) = pos + Z.of_nat (length line) + Z.of_nat (length rest)) as -> by lia.
  cbn [sectionsOf]. unfold logLine, isHead. destruct (extractInt line execPrefix) as [proc|] eqn:Hx; cbn [ent entP Proc Start entries lfault lmem cur].
  - cbn [sectionEntries]. unfold sectionEntry. rewrite Hp. cbn [rbind].
    assert (∀ f1 es1, (let! s := logLoop fuel rest (pos + Z.of_nat (length line)) (MkLog es1 (MkEntry None proc pos 0) [] (headFault line f1) m) in
        Ret (finish (pos + Z.of_nat (length line) + Z.of_nat (length rest)) s)) =
      (let! '(es', m') := sectionEntries (sectionsOf (MkSection line []) (linesOf fuel rest)) pos f1 m in Ret (es1 ++ es', m'))) as Hrec.
    { intros f1 es1. rewrite <-(IH rest (MkSection line []) pos f1 m es1 [] None m); [|lia|done].
      cbn [secHead]. rewrite Hx. unfold sectionText. cbn [secHead body concat]. by rewrite app_nil_r. }
    destruct p as [[|x l]|]; cbn [hasCalls entP rbind app] in *; rewrite Hrec; fold pos;
      destruct (sectionEntries _ _ _ _) as [[??]|?|]; cbn [rbind]; try done; by rewrite <-app_assoc.
  - destruct (textLine line (headFault (secHead sec) f0) c p m) as [[[c1 p1] m1]|e|] eqn:Ht; cbn [rbind].
    + pose proof (IH rest (MkSection (secHead sec) (body sec ++ [line])) start f0 m0 es c1 p1 m1 ltac:(lia)) as Hi. cbn [secHead body] in Hi.
      rewrite sectionProg_snoc, Hp in Hi. specialize (Hi Ht). rewrite <-Hi.
      assert (start + Z.of_nat (length (sectionText (MkSection (secHead sec) (body sec ++ [line])))) = pos + Z.of_nat (length line)) as ->; [|done].
      unfold pos, sectionText. cbn [secHead body]. rewrite concat_app. cbn [concat]. rewrite app_nil_r, !length_app. lia.
    + destruct (sectionsOf_head (linesOf fuel rest) (MkSection (secHead sec) (body sec ++ [line]))) as (more & l & ->).
      cbn [sectionEntries secHead body]. unfold sectionEntry. cbn [secHead body]. unfold sectionProg. rewrite for_list_app.
      fold (sectionProg (headFault (secHead sec) f0) (body sec ++ [line]) m0). rewrite sectionProg_snoc, Hp. cbn [rbind]. by rewrite Ht.
    + destruct (sectionsOf_head (linesOf fuel rest) (MkSection (secHead sec) (body sec ++ [line]))) as (more & l & ->).
      cbn [sectionEntries secHead body]. unfold sectionEntry. cbn [secHead body]. unfold sectionProg. rewrite for_list_app.
      fold (sectionProg (headFault (secHead sec) f0) (body sec ++ [line]) m0). rewrite sectionProg_snoc, Hp. cbn [rbind]. by rewrite Ht.
Qed.

(** ** The entries *)

(** [data[from:to]] *)
Definition slice (data : list Z) (from to : Z) : list Z := take (Z.to_nat (to - from)) (drop (Z.to_nat from) data).

(** Entries in the order of the log that do not overlap. *)
Fixpoint ordered (lo : Z) (es : list LogEntry) : Prop :=
  match es with [] => True | e :: es => lo ≤ Start e ≤ End_ e ∧ ordered (End_ e) es end.

(** The entry comes from the section. *)
Record entryOf (data : list Z) (s : section) (e : LogEntry) : Prop := {
  eo_calls : hasCalls e = true;
  eo_text : slice data (Start e) (End_ e) = sectionText s;
  eo_proc : Proc e = default 0 (extractInt (secHead s) execPrefix)
}.

Lemma ordered_weaken lo lo' es : lo ≤ lo' → ordered lo' es → ordered lo es.
Proof. destruct es as [|e es]; [done|]. cbn [ordered]. intros ? [? ?]. split; [lia|done]. Qed.

Lemma slice_middle (pre t post : list Z) :
  slice (pre ++ t ++ post) (Z.of_nat (length pre)) (Z.of_nat (length pre) + Z.of_nat (length t)) = t.
Proof.
  unfold slice. rewrite Nat2Z.id, drop_app_length.
  replace (Z.to_nat _) with (length t) by lia. apply take_app_length.
Qed.

Lemma sectionEntries_ordered secs : ∀ pre f m es m',
  sectionEntries secs (Z.of_nat (length pre)) f m = Ret (es, m') →
  ordered (Z.of_nat (length pre)) es ∧
  Forall (λ e, ∃ s, s ∈ secs ∧ entryOf (pre ++ concat (sectionText <$> secs)) s e) es.
Proof.
  induction secs as [|s secs IH]; intros pre f m es m' H; cbn [sectionEntries] in H; [injection H as <- _; split; [done|constructor]|].
  apply bind_Ret in H as ([[es1 f1] m1] & E1 & H). apply bind_Ret in H as ([es2 m2] & E2 & [= <- <-]).
  rewrite fmap_cons. cbn [concat]. rewrite <-Nat2Z.inj_add, <-length_app in E2. apply IH in E2 as [Ho He].
  rewrite length_app, Nat2Z.inj_add in Ho.
  assert (Forall (λ e, ∃ s0, s0 ∈ s :: secs ∧ entryOf (pre ++ sectionText s ++ concat (sectionText <$> secs)) s0 e) es2) as He'.
  { eapply Forall_impl; [exact He|]. intros e (s0 & Hs0 & Hof). exists s0. split; [by apply list_elem_of_further|]. by rewrite app_assoc. }
  apply bind_Ret in E1 as ([[c p] m3] & _ & E1). cbv zeta in E1.
  match type of E1 with Ret (if hasCalls ?e then _ else _) = _ => destruct (hasCalls e) eqn:Hc end; injection E1 as <- <- <-; cbn [app].
  - split; [cbn [ordered Start End_]; split; [lia|done]|]. constructor; [|done]. exists s. split; [apply list_elem_of_here|].
    split; [done| |done]. apply slice_middle.
  - split; [by eapply ordered_weaken; [|exact Ho]; lia|done].
Qed.

Definition plainBody (s : section) : Prop := Forall (λ line, isHead line = false) (body s).

Lemma sectionsOf_shape lines : ∀ s, plainBody s →
  ∃ s0 rest, sectionsOf s lines = s0 :: rest ∧ secHead s0 = secHead s ∧ plainBody s0 ∧
    Forall (λ s, isHead (secHead s) = true ∧ plainBody s) rest.
Proof.
  induction lines as [|line lines IH]; intros s Hs; cbn [sectionsOf]; [by exists s, []|]. destruct (isHead line) eqn:Hl.
  - destruct (IH (MkSection line [])) as (s0 & rest & -> & Hh & Hb & Hr); [constructor|]. exists s, (s0 :: rest).
    split_and!; [done..|]. constructor; [|done]. by rewrite Hh.
  - destruct (IH (MkSection (secHead s) (body s ++ [line]))) as (s0 & rest & -> & Hh & Hb & Hr); [|by exists s0, rest].
    unfold plainBody. cbn [body]. apply Forall_app. split; [done|]. by apply Forall_singleton.
Qed.

(** C37. [ParseLog] parses a log section by section, whatever the parser of programs does.  A log
    is cut in sections that give the whole log back: an unnamed first one and one for every
    line with [executing program], with the lines up to the next one.  The entries are those
    of the sections, in their order, whose program has calls: the program is the parse of the
    longest text that grows by lines that can be parsed, and the fault asked for by the head
    line, or left over by sections without a program, is applied to it.  Entries do not
    overlap, their offsets cut exactly the text of their section out of the log, and
    their process is the number in the head line. *)
Theorem parseLog_sections data m :
  concat (sectionText <$> sections data) = data ∧
  (∃ s0 rest, sections data = s0 :: rest ∧ secHead s0 = [] ∧ plainBody s0 ∧
     Forall (λ s, isHead (secHead s) = true ∧ plainBody s) rest) ∧
  ParseLog data m = sectionEntries (sections data) 0 noFault m ∧
  match ParseLog data m with
  | Ret (es, _) => ordered 0 es ∧ Forall (λ e, ∃ s, s ∈ sections data ∧ entryOf data s e) es
  | _ => True
  end.
Proof.
  assert (concat (sectionText <$> sections data) = data) as Hcat.
  { unfold sections. rewrite sectionsOf_concat, linesOf_concat by lia. done. }
  assert (ParseLog data m = sectionEntries (sections data) 0 noFault m) as Hparse.
  { pose proof (loop_sections (S (length data)) data (MkSection [] []) 0 noFault m [] [] None m ltac:(lia) eq_refl) as H.
    cbn [secHead sectionText body concat app length] in H. change (sectionText (MkSection [] [])) with (@nil Z) in H. cbn [length] in H.
    change (0 + Z.of_nat 0) with 0 in H. rewrite Z.add_0_l in H. unfold ParseLog, sections.
    etrans; [exact H|]. destruct (sectionEntries _ _ _ _) as [[??]|?|]; done. }
  split_and!; [exact Hcat|apply (sectionsOf_shape _ (MkSection [] [])); constructor|exact Hparse|]. rewrite Hparse.
  destruct (sectionEntries _ _ _ _) as [[es m']|?|] eqn:E; [|done|done].
  apply (sectionEntries_ordered _ [] noFault m) in E. cbn [app length] in E. by rewrite Hcat in E.
Qed.

End log.

(** ** An example *)

Definition exDeserialize (data : list Z) (m : mem) : res ((string + list Call) * mem) :=
  let! '(r, m) := TextParse.Deserialize ExampleTarget.target 5 (λ _, None) (λ _, true) id id (λ _ c m, Ret (None, c, m)) data false m in
  Ret (match r with inl e => inl e | inr (calls, _) => inr calls end, m).

Definition logText (lines : list string) : list Z := concat ((λ l, str l ++ [10]) <$> lines).
Definition exLog (lines : list string) : res (list (Z * Z * Z * list (string * Z))) :=
  let! '(es, _) := ParseLog exDeserialize (logText lines) (Mem ∅ 1) in
  Ret ((λ e, (Proc e, Start e, End_ e, (λ c, (sysName (Meta c), FailNth (Props c))) <$> default [] (entP e))) <$> es).

(** Console output between the lines of a program is skipped. *)
Example log_two : exLog ["booting"; "executing program 3:"; "r0 = open()"; "[ 1.0] BUG"; "write(r0, 0x0, 0x0)"; "executing program 5:"; "open()"] =
  Ret [(3, 8, 72, [("open", 0); ("write", 0)]); (5, 72, 100, [("open", 0)])].
Proof. vm_compute. reflexivity. Qed.

(** The fault of an entry without a program is applied to the next program, which did not
    ask for one. *)
Example log_stale_fault : exLog ["executing program 1 (fault-call:0 fault-nth:4):"; "lost"; "executing program 2:"; "open()"] =
  Ret [(2, 53, 81, [("open", 5)])].
Proof. vm_compute. reflexivity. Qed.

End LogParse.
