(* ===== verification/Checksum.v ===== *)
(** * Checksum: which checksums the executor has to compute (prog/checksum.go)

    Go maps keyed by arguments are maps keyed by identities; the value of
    [csumMap] also holds the argument itself, since its keys are iterated. *)

From S2P Require Import Prelude Bytes Types Prog.
Import Types Prog Bytes.

Module Checksum.

(** [CsumChunk], by its [Kind]. *)
Inductive CsumChunk :=
| CsumChunkArg (arg : Arg)
| CsumChunkConst (value size : Z).

Record CsumInfo := MkCsumInfo { csumKind : CsumKind; Chunks : list CsumChunk }.

Notation csumMapT := (gmap positive (Arg * CsumInfo)) (only parsing).

(** [parentsMap]; the key of a missing argument is [nil]. *)
Notation parentsMapT := (gmap (option positive) Arg) (only parsing).

Definition innerKey (inner : option Arg) : option positive := argIdOf <$> inner.

Definition ParentRef : string := "parent".

Section target.
Context (target : Target) (h : heap).

(** The first loop: the [CsumInet] and the [CsumPseudo] fields. *)
Definition collectCsum (arg : Arg) (acc : list Arg * list Arg) : res (list Arg * list Arg) :=
  let! t := argType target h arg in
  match t with
  | CsumType _ CsumInet _ _ => Ret (acc.1 ++ [arg], acc.2)
  | CsumType _ CsumPseudo _ _ => Ret (acc.1, acc.2 ++ [arg])
  | _ => Ret acc
  end.

(** [for _, field := range group.Inner { parentsMap[InnerArg(field)] = arg }] *)
Definition noteFields (arg : Arg) (pm : parentsMapT) : res parentsMapT :=
  match arg with
  | GroupArg _ inner =>
    for_list (λ field pm, let! i := InnerArg target h field in Ret (<[innerKey i := arg]> pm)) inner pm
  | _ => Panic "interface conversion: not a GroupArg"
  end.

Definition noteParent (arg : Arg) (pm : parentsMapT) : res parentsMapT :=
  let! t := argType target h arg in
  match t with
  | StructType _ _ _ _ => noteFields arg pm
  | _ => Ret pm
  end.

(** [for parent := parentsMap[arg]; parent != nil; parent = parentsMap[parent]];
    a chain longer than the map would be a cycle. *)
Fixpoint findNamedParent (fuel : nat) (name : string) (pm : parentsMapT) (key : positive) :
    res Arg :=
  match fuel with
  | O => OutOfFuel
  | S fuel =>
    match pm !! Some key with
    | None => Panic "csum field references non existent field"
    | Some parent =>
      let! t := argType target h parent in
      if decide (name = Name t) then Ret parent
      else findNamedParent fuel name pm (argIdOf parent)
    end
  end.

Definition findCsummedArg (arg : Arg) (buf : string) (pm : parentsMapT) : res Arg :=
  if decide (buf = ParentRef) then
    match pm !! Some (argIdOf arg) with
    | Some csummedArg => Ret csummedArg
    | None => Panic "parent is not in parents map"
    end
  else findNamedParent (S (size pm)) buf pm (argIdOf arg).

Definition composePseudoCsumIPv4 (tcpPacket srcAddr dstAddr : Arg) (protocol : Z) : res CsumInfo :=
  let! sz := Size target h tcpPacket in
  Ret (MkCsumInfo CsumInet
    [CsumChunkArg srcAddr; CsumChunkArg dstAddr;
     CsumChunkConst (swap16 protocol) 2;
     CsumChunkConst (swap16 (wrapU 16 sz)) 2;
     CsumChunkArg tcpPacket]).

Definition composePseudoCsumIPv6 (tcpPacket srcAddr dstAddr : Arg) (protocol : Z) : res CsumInfo :=
  let! sz := Size target h tcpPacket in
  Ret (MkCsumInfo CsumInet
    [CsumChunkArg srcAddr; CsumChunkArg dstAddr;
     CsumChunkConst (swap32 (wrapU 32 sz)) 4;
     CsumChunkConst (swap32 protocol) 4;
     CsumChunkArg tcpPacket]).

(** [typ.Fields[i].Name] for every argument of the group. *)
Fixpoint findField (name : string) (inner : list Arg) (fields : list Field) : res Arg :=
  match inner, fields with
  | [], _ => Panic "failed to find the field"
  | _ :: _, [] => Panic "index out of range"
  | arg :: inner, f :: fields =>
    if decide (fieldName f = name) then Ret arg else findField name inner fields
  end.

Definition getFieldByName (arg : Arg) (name : string) : res Arg :=
  let! t := argType target h arg in
  match arg, t with
  | GroupArg _ inner, StructType _ fields _ _ => findField name inner fields
  | _, _ => Panic "interface conversion"
  end.

Definition extractHeaderParams (arg : Arg) (size : Z) : res (Arg * Arg) :=
  let! srcAddr := getFieldByName arg "src_ip" in
  let! dstAddr := getFieldByName arg "dst_ip" in
  let! s1 := Size target h srcAddr in
  let! s2 := Size target h dstAddr in
  if decide (s1 ≠ size ∨ s2 ≠ size) then Panic "src/dst_ip fields must be of the size"
  else Ret (srcAddr, dstAddr).

Definition findHeader (arg : Arg) (acc : option (Arg * Arg)) : res (option (Arg * Arg)) :=
  match arg with
  | GroupArg _ _ =>
    let! t := argType target h arg in
    if decide (TemplateName t ∈ ["ipv4_header"; "syz_csum_ipv4_header"]) then
      let! p := extractHeaderParams arg 4 in Ret (Some p)
    else if decide (TemplateName t ∈ ["ipv6_packet_t"; "syz_csum_ipv6_header"]) then
      let! p := extractHeaderParams arg 16 in Ret (Some p)
    else Ret acc
  | _ => Ret acc
  end.

Definition csumBuf (arg : Arg) : res (string * Z) :=
  let! t := argType target h arg in
  match t with
  | CsumType _ _ buf protocol => Ret (buf, protocol)
  | _ => Panic "nil pointer dereference"
  end.

Definition inetCsum (pm : parentsMapT) (arg : Arg) (acc : csumMapT * gset positive) :
    res (csumMapT * gset positive) :=
  let! '(buf, _) := csumBuf arg in
  let! csummedArg := findCsummedArg arg buf pm in
  Ret (<[argIdOf arg := (arg, MkCsumInfo CsumInet [CsumChunkArg csummedArg])]> acc.1,
       {[argIdOf csummedArg]} ∪ acc.2).

Definition pseudoCsum (pm : parentsMapT) (ipSrcAddr ipDstAddr : Arg) (arg : Arg)
    (acc : csumMapT * gset positive) : res (csumMapT * gset positive) :=
  let! '(buf, protocol) := csumBuf arg in
  let! csummedArg := findCsummedArg arg buf pm in
  let protocol := wrapU 8 protocol in
  let! sz := Size target h ipSrcAddr in
  let! info := if decide (sz = 4) then composePseudoCsumIPv4 csummedArg ipSrcAddr ipDstAddr protocol
               else composePseudoCsumIPv6 csummedArg ipSrcAddr ipDstAddr protocol in
  Ret (<[argIdOf arg := (arg, info)]> acc.1,
       {[argIdOf csummedArg; argIdOf ipSrcAddr; argIdOf ipDstAddr]} ∪ acc.2).

(** A traversal by a callback that does not stop. *)
Definition foreach {S} (f : Arg → S → res S) (c : Call) (s : S) : res S :=
  ForeachArg target (λ _, h) (λ a _ s, let! s := f a s in Ret (s, false)) c s.

Definition calcChecksumsCall (c : Call) : res (csumMapT * gset positive) :=
  let! '(inetCsumFields, pseudoCsumFields) := foreach collectCsum c ([], []) in
  match inetCsumFields, pseudoCsumFields with
  | [], [] => Ret (∅, ∅)
  | _, _ =>
    let! parentsMap := foreach noteParent c ∅ in
    let! acc := for_list (inetCsum parentsMap) inetCsumFields (∅, ∅) in
    match pseudoCsumFields with
    | [] => Ret acc
    | _ =>
      let! header := foreach findHeader c None in
      match header with
      | None => Panic "no ipv4 nor ipv6 header found"
      | Some (ipSrcAddr, ipDstAddr) =>
        for_list (pseudoCsum parentsMap ipSrcAddr ipDstAddr) pseudoCsumFields acc
      end
    end
  end.

End target.
End Checksum.
