(* ===== verification/ExecFormat.v ===== *)
(** * ExecFormat: the program format of the executor and its decoder (prog/decodeexec.go)

    The format is a sequence of 64-bit words and padded blobs ([token]s); the
    functions [enc*] state it as the grammar in the comment of encodingexec.go
    does.  The decoder is translated from decodeexec.go. *)

From S2P Require Import Prelude Bytes Types Prog.
Import Types Prog Bytes.

Module ExecFormat.

Definition execInstrEOF : Z := 2 ^ 64 - 1.
Definition execInstrCopyin : Z := 2 ^ 64 - 2.
Definition execInstrCopyout : Z := 2 ^ 64 - 3.
Definition execInstrSetProps : Z := 2 ^ 64 - 4.

Definition execArgConst : Z := 0.
Definition execArgResult : Z := 1.
Definition execArgData : Z := 2.
Definition execArgCsum : Z := 3.
Definition execArgDataReadable : Z := 2 ^ 63.

Definition ExecArgCsumInet : Z := 0.
Definition ExecArgCsumChunkData : Z := 0.
Definition ExecArgCsumChunkConst : Z := 1.

Definition ExecNoCopyout : Z := 2 ^ 64 - 1.
Definition execMaxCommands : Z := 1000.

(** ** Decoded programs *)

Record ExecCsumChunk := MkChunk { chunkKind : Z; chunkValue : Z; chunkSize : Z }.

(** [ExecArg]; formats are the numbers of [BinaryFormat]. *)
Inductive ExecArg :=
| ExecArgConst (Size Format Value BitfieldOffset BitfieldLength PidStride : Z)
| ExecArgResult (Size Format Index DivOp AddOp Default : Z)
| ExecArgData (Data : list Z) (Readable : bool)
| ExecArgCsum (Size Kind : Z) (Chunks : list ExecCsumChunk).

Record ExecCopyin := MkCopyin { ciAddr : Z; ciArg : option ExecArg }.
Record ExecCopyout := MkCopyout { coIndex : Z; coAddr : Z; coSize : Z }.

(** A [nil] argument or call description is [None]. *)
Record ExecCall := MkExecCall {
  ecMeta : option Syscall;
  ecProps : CallProps;
  ecIndex : Z;
  ecArgs : list ExecArg;
  ecCopyin : list ExecCopyin;
  ecCopyout : list ExecCopyout
}.
Definition emptyCall : ExecCall := MkExecCall None noProps 0 [] [] [].

Record ExecProg := MkExecProg { epCalls : list ExecCall; epVars : list Z }.

(** ** The decoder *)

Record execDecoder := MkDecoder {
  data : list Z;
  err : option string;
  numVars : Z;
  vars : list Z;
  call : ExecCall;
  calls : list ExecCall
}.

Definition setErr (e : string) (d : execDecoder) : execDecoder :=
  match err d with
  | None => MkDecoder (data d) (Some e) (numVars d) (vars d) (call d) (calls d)
  | Some _ => d
  end.

Definition setData (l : list Z) (d : execDecoder) : execDecoder :=
  MkDecoder l (err d) (numVars d) (vars d) (call d) (calls d).
Definition setVars (l : list Z) (d : execDecoder) : execDecoder :=
  MkDecoder (data d) (err d) (numVars d) l (call d) (calls d).
Definition setCall (c : ExecCall) (d : execDecoder) : execDecoder :=
  MkDecoder (data d) (err d) (numVars d) (vars d) c (calls d).

Section decoder.
(** [HostEndian] and [target.Syscalls]. *)
Context (be : bool) (syscalls : list Syscall).

Definition read (d : execDecoder) : Z * execDecoder :=
  let d := if decide (length (data d) < 8)%nat then setErr "exec program overflow" d else d in
  match err d with
  | Some _ => (0, d)
  | None => (getUint be (take 8 (data d)), setData (drop 8 (data d)) d)
  end.

Definition readBlob (size : Z) (d : execDecoder) : list Z * execDecoder :=
  let padded := (size +! 7) `div` 8 *! 8 in
  let d := if decide (Z.of_nat (length (data d)) < padded) then setErr "exec program overflow" d
           else d in
  match err d with
  | Some _ => ([], d)
  | None => (take (Z.to_nat size) (data d), setData (drop (Z.to_nat padded) (data d)) d)
  end.

(** [for uint64(len(dec.vars)) <= arg.Index { append 0 }; dec.vars[arg.Index] = arg.Default] *)
Definition noteVar (idx dflt : Z) (vs : list Z) : list Z :=
  <[Z.to_nat idx := dflt]> (vs ++ replicate (Z.to_nat (idx + 1 - Z.of_nat (length vs))) 0).

Fixpoint readChunks (n : nat) (d : execDecoder) : list ExecCsumChunk * execDecoder :=
  match n with
  | O => ([], d)
  | S n =>
    let (kind, d) := read d in
    let (value, d) := read d in
    let (size, d) := read d in
    let (rest, d) := readChunks n d in
    (MkChunk kind value size :: rest, d)
  end.

(** [make([]ExecCsumChunk, n)]: 24 bytes each, the runtime allocates less than
    2^48 bytes. *)
Definition makeChunksOk (n : Z) : bool := bool_decide (n * 24 ≤ 2 ^ 48).

Definition readArg (d : execDecoder) : res (option ExecArg * execDecoder) :=
  let (typ, d) := read d in
  if decide (typ = execArgConst) then
    let (meta, d) := read d in
    let (value, d) := read d in
    Ret (Some (ExecArgConst (Z.land meta 255) (Z.land (Z.shiftr meta 8) 255) value
      (Z.land (Z.shiftr meta 16) 255) (Z.land (Z.shiftr meta 24) 255) (Z.shiftr meta 32)), d)
  else if decide (typ = execArgResult) then
    let (meta, d) := read d in
    let (idx, d) := read d in
    let (divOp, d) := read d in
    let (addOp, d) := read d in
    let (dflt, d) := read d in
    Ret (Some (ExecArgResult (Z.land meta 255) (Z.land (Z.shiftr meta 8) 255) idx divOp addOp dflt),
         setVars (noteVar idx dflt (vars d)) d)
  else if decide (typ = execArgData) then
    let (flags, d) := read d in
    let size := Z.land flags (not64 execArgDataReadable) in
    let readable := bool_decide (Z.land flags execArgDataReadable ≠ 0) in
    let (blob, d) := readBlob size d in
    Ret (Some (ExecArgData blob readable), d)
  else if decide (typ = execArgCsum) then
    let (size, d) := read d in
    let (kind, d) := read d in
    if decide (kind = ExecArgCsumInet) then
      let (n, d) := read d in
      if makeChunksOk n then
        let (chunks, d) := readChunks (Z.to_nat n) d in
        Ret (Some (ExecArgCsum size kind chunks), d)
      else Panic "makeslice: len out of range"
    else Ret (None, setErr "unknown csum kind" d)
  else Ret (None, setErr "bad argument type" d).

Definition readCallProps (d : execDecoder) : CallProps * execDecoder :=
  let (failNth, d) := read d in
  let (async, d) := read d in
  let (rerun, d) := read d in
  (MkProps (wrapS 64 failNth)
     (if decide (async = 1) then true else Async (ecProps (call d))) (wrapS 64 rerun), d).

Definition commitCall (d : execDecoder) : execDecoder :=
  match ecMeta (call d) with
  | None => d
  | Some _ =>
    let idx := ecIndex (call d) in
    let nv := if decide (idx ≠ ExecNoCopyout ∧ numVars d < idx +! 1) then idx +! 1
              else numVars d in
    let nv := foldl (λ nv co, if decide (nv < coIndex co +! 1) then coIndex co +! 1 else nv)
                nv (ecCopyout (call d)) in
    MkDecoder (data d) (err d) nv (vars d) emptyCall (calls d ++ [call d])
  end.

(** [for i := dec.read(); i > 0; i--]: [false] is the early return. *)
Fixpoint readCallArgs (n : nat) (d : execDecoder) : res (bool * execDecoder) :=
  match n with
  | O => Ret (true, d)
  | S n =>
    let! '(arg, d) := readArg d in
    match arg with
    | Some (ExecArgConst _ _ _ _ _ _ as arg) | Some (ExecArgResult _ _ _ _ _ _ as arg) =>
      let c := call d in
      readCallArgs n (setCall (MkExecCall (ecMeta c) (ecProps c) (ecIndex c) (ecArgs c ++ [arg])
        (ecCopyin c) (ecCopyout c)) d)
    | _ => Ret (false, setErr "bad call arg" d)
    end
  end.

(** One iteration of the loop of [parse]; [false] stops it. *)
Definition parseInstr (d : execDecoder) : res (bool * execDecoder) :=
  let (instr, d) := read d in
  if decide (instr = execInstrCopyin) then
    let d := commitCall d in
    let (addr, d) := read d in
    let! '(arg, d) := readArg d in
    let c := call d in
    Ret (true, setCall (MkExecCall (ecMeta c) (ecProps c) (ecIndex c) (ecArgs c)
      (ecCopyin c ++ [MkCopyin addr arg]) (ecCopyout c)) d)
  else if decide (instr = execInstrCopyout) then
    let (idx, d) := read d in
    let (addr, d) := read d in
    let (size, d) := read d in
    let c := call d in
    Ret (true, setCall (MkExecCall (ecMeta c) (ecProps c) (ecIndex c) (ecArgs c) (ecCopyin c)
      (ecCopyout c ++ [MkCopyout idx addr size])) d)
  else if decide (instr = execInstrEOF) then Ret (false, commitCall d)
  else if decide (instr = execInstrSetProps) then
    let d := commitCall d in
    let (props, d) := readCallProps d in
    let c := call d in
    Ret (true, setCall (MkExecCall (ecMeta c) props (ecIndex c) (ecArgs c) (ecCopyin c)
      (ecCopyout c)) d)
  else
    let d := commitCall d in
    match syscalls !! Z.to_nat instr with
    | None => Ret (false, setErr "bad syscall" d)
    | Some meta =>
      let (idx, d) := read d in
      let (nargs, d) := read d in
      let c := call d in
      readCallArgs (Z.to_nat nargs)
        (setCall (MkExecCall (Some meta) (ecProps c) idx (ecArgs c) (ecCopyin c) (ecCopyout c)) d)
    end.

Fixpoint parse (fuel : nat) (d : execDecoder) : res execDecoder :=
  match err d with
  | Some _ => Ret d
  | None =>
    match fuel with
    | O => OutOfFuel
    | S fuel =>
      let! '(go, d) := parseInstr d in
      if (go : bool) then parse fuel d else Ret d
    end
  end.

(** Every iteration consumes a word or sets the error. *)
Definition DeserializeExec (exec : list Z) : res (string + ExecProg) :=
  let! d := parse (S (length exec)) (MkDecoder exec None 0 [] emptyCall []) in
  match err d with
  | Some e => Ret (inl e)
  | None =>
    if decide (Z.of_nat (length (vars d)) ≠ numVars d) then Ret (inl "mismatching number of vars")
    else Ret (inr (MkExecProg (calls d) (vars d)))
  end.

End decoder.

(** ** The format *)

Inductive token := Word (v : Z) | Blob (l : list Z).

(** A blob is padded with zeros to words. *)
Definition padding (l : list Z) : nat := ((8 - length l mod 8) mod 8)%nat.

Definition encTok (be : bool) (t : token) : list Z :=
  match t with
  | Word v => putUint be 8 v
  | Blob l => l ++ replicate (padding l) 0
  end.

Definition bytes (be : bool) (ts : list token) : list Z := concat (encTok be <$> ts).

(** The second word of constants and results. *)
Definition metaWord (size fmt bfOffset bfLength pidStride : Z) : Z :=
  Z.lor (Z.lor (Z.lor (Z.lor size (shl64 fmt 8)) (shl64 bfOffset 16)) (shl64 bfLength 24))
    (shl64 pidStride 32).

Definition encArg (a : ExecArg) : list token :=
  match a with
  | ExecArgConst size fmt value bfOff bfLen stride =>
    [Word execArgConst; Word (metaWord size fmt bfOff bfLen stride); Word value]
  | ExecArgResult size fmt idx divOp addOp dflt =>
    [Word execArgResult; Word (Z.lor size (shl64 fmt 8)); Word idx; Word divOp; Word addOp; Word dflt]
  | ExecArgData blob readable =>
    [Word execArgData;
     Word (Z.lor (Z.of_nat (length blob)) (if readable then execArgDataReadable else 0));
     Blob blob]
  | ExecArgCsum size kind chunks =>
    [Word execArgCsum; Word size; Word kind; Word (Z.of_nat (length chunks))] ++
    concat ((λ ch, [Word (chunkKind ch); Word (chunkValue ch); Word (chunkSize ch)]) <$> chunks)
  end.

Definition encCopyin (ci : ExecCopyin) : list token :=
  [Word execInstrCopyin; Word (ciAddr ci)] ++ match ciArg ci with Some a => encArg a | None => [] end.

Definition encCopyout (co : ExecCopyout) : list token :=
  [Word execInstrCopyout; Word (coIndex co); Word (coAddr co); Word (coSize co)].

Definition encProps (p : CallProps) : list token :=
  if decide (FailNth p = 0 ∧ Async p = false ∧ Rerun p = 0) then []
  else [Word execInstrSetProps; Word (wrapU 64 (FailNth p)); Word (if Async p then 1 else 0);
        Word (wrapU 64 (Rerun p))].

Definition encCall (c : ExecCall) : list token :=
  concat (encCopyin <$> ecCopyin c) ++ encProps (ecProps c) ++
  [Word (match ecMeta c with Some m => wrapU 64 (ID m) | None => 0 end); Word (ecIndex c);
   Word (Z.of_nat (length (ecArgs c)))] ++
  concat (encArg <$> ecArgs c) ++ concat (encCopyout <$> ecCopyout c).

Definition encProg (cs : list ExecCall) : list token :=
  concat (encCall <$> cs) ++ [Word execInstrEOF].

(** ** Programs whose fields fit the format *)

Definition fitsChunk (ch : ExecCsumChunk) : Prop :=
  is_u 64 (chunkKind ch) ∧ is_u 64 (chunkValue ch) ∧ is_u 64 (chunkSize ch).

Definition fitsArg (a : ExecArg) : Prop :=
  match a with
  | ExecArgConst size fmt value bfOff bfLen stride =>
    is_u 8 size ∧ is_u 8 fmt ∧ is_u 64 value ∧ is_u 8 bfOff ∧ is_u 8 bfLen ∧ is_u 32 stride
  | ExecArgResult size fmt idx divOp addOp dflt =>
    is_u 8 size ∧ is_u 8 fmt ∧ is_u 64 idx ∧ is_u 64 divOp ∧ is_u 64 addOp ∧ is_u 64 dflt
  | ExecArgData blob _ => Z.of_nat (length blob) < 2 ^ 62
  | ExecArgCsum size kind chunks =>
    is_u 64 size ∧ kind = ExecArgCsumInet ∧ Z.of_nat (length chunks) * 24 ≤ 2 ^ 48 ∧
    Forall fitsChunk chunks
  end.

Definition isCallArg (a : ExecArg) : Prop :=
  match a with ExecArgConst _ _ _ _ _ _ | ExecArgResult _ _ _ _ _ _ => True | _ => False end.

Definition isInt64 (z : Z) : Prop := - 2 ^ 63 ≤ z < 2 ^ 63.

Record fitsCall (syscalls : list Syscall) (c : ExecCall) : Prop := {
  fits_meta : ∃ m, ecMeta c = Some m ∧ 0 ≤ ID m < 2 ^ 21 ∧ syscalls !! Z.to_nat (ID m) = Some m;
  fits_props : isInt64 (FailNth (ecProps c)) ∧ isInt64 (Rerun (ecProps c));
  fits_index : is_u 64 (ecIndex c);
  fits_nargs : is_u 64 (Z.of_nat (length (ecArgs c)));
  fits_args : Forall (λ a, fitsArg a ∧ isCallArg a) (ecArgs c);
  fits_copyin : Forall (λ ci, is_u 64 (ciAddr ci) ∧ ∃ a, ciArg ci = Some a ∧ fitsArg a) (ecCopyin c);
  fits_copyout : Forall (λ co, 0 ≤ coIndex co < 2 ^ 64 - 1 ∧ is_u 64 (coAddr co) ∧ is_u 64 (coSize co))
                   (ecCopyout c)
}.

(** ** What the decoder computes besides the calls *)

(** The variables: the defaults of the results referred to. *)
Definition argVars (vs : list Z) (a : ExecArg) : list Z :=
  match a with ExecArgResult _ _ idx _ _ dflt => noteVar idx dflt vs | _ => vs end.
Definition callArgs (c : ExecCall) : list ExecArg := omap ciArg (ecCopyin c) ++ ecArgs c.
Definition progVars (cs : list ExecCall) : list Z := foldl argVars [] (concat (callArgs <$> cs)).

(** The number of variables: one more than the largest copyout index. *)
Definition callIndices (c : ExecCall) : list Z :=
  (if decide (ecIndex c = ExecNoCopyout) then [] else [ecIndex c]) ++ (coIndex <$> ecCopyout c).
Definition progNumVars (cs : list ExecCall) : Z :=
  foldl (λ n i, Z.max n (i + 1)) 0 (concat (callIndices <$> cs)).

End ExecFormat.
