(* ===== verification/ExecDecode.v ===== *)
(** * ExecDecode: the decoder inverts the executor format (prog/decodeexec.go) *)

From S2P Require Import Prelude Bytes Types Prog ExampleTarget ExecFormat.
Import Types Prog Bytes ExecFormat.

Module ExecDecode.

Section decode.
Context (be : bool) (syscalls : list Syscall).
Notation bytes := (bytes be).

(** A decoder without an error. *)
Notation D l nv vs c cs := (MkDecoder l None nv vs c cs).

Lemma bytes_app ts1 ts2 : bytes (ts1 ++ ts2) = bytes ts1 ++ bytes ts2.
Proof. unfold ExecFormat.bytes. by rewrite fmap_app, concat_app. Qed.

Lemma bytes_cons t ts l : bytes (t :: ts) ++ l = encTok be t ++ (bytes ts ++ l).
Proof. unfold ExecFormat.bytes. simpl. by rewrite app_assoc. Qed.

Lemma bytes_nil l : bytes [] ++ l = l.
Proof. done. Qed.

Lemma length_encTok t : (length (encTok be t) mod 8 = 0)%nat.
Proof.
  destruct t as [v|b]; unfold encTok; [by rewrite length_putUint|].
  rewrite length_app, length_replicate. unfold padding. generalize (length b) as n. intros n.
  pose proof (Nat.div_mod_eq n 8). pose proof (Nat.mod_upper_bound n 8).
  destruct (decide (n mod 8 = 0)%nat) as [E|E].
  - rewrite E. change ((8 - 0) mod 8)%nat with 0%nat. by rewrite Nat.add_0_r.
  - rewrite (Nat.mod_small (8 - _)) by lia.
    replace (n + (8 - n mod 8))%nat with ((n / 8 + 1) * 8)%nat by lia. apply Nat.Div0.mod_mul.
Qed.

Lemma read_word v l nv vs c cs :
  is_u 64 v → read be (D (putUint be 8 v ++ l) nv vs c cs) = (v, D l nv vs c cs).
Proof.
  intros Hv. unfold read. simpl. rewrite decide_False by (rewrite length_app, length_putUint; lia).
  simpl. rewrite take_app_length' by (by rewrite length_putUint).
  rewrite drop_app_length' by (by rewrite length_putUint). by rewrite get_put64.
Qed.

(** Consume the words at the front of the data. *)
Ltac eat := repeat (cbn [encTok app]; rewrite ?bytes_cons, ?bytes_nil, <-?app_assoc; cbn [encTok];
  rewrite read_word by
    (assumption || (unfold is_u; lia) || (split; vm_compute; [discriminate|reflexivity]));
  cbn beta iota).

Lemma div_byte m k : 0 ≤ k → Z.land (Z.shiftr m k) 255 = m `div` 2 ^ k `mod` 256.
Proof. intros. by rewrite land_ff, Z.shiftr_div_pow2. Qed.

Lemma metaWord_sum size fmt bo bl st :
  is_u 8 size → is_u 8 fmt → is_u 8 bo → is_u 8 bl → is_u 32 st →
  metaWord size fmt bo bl st =
    size + fmt * 2 ^ 8 + bo * 2 ^ 16 + bl * 2 ^ 24 + st * 2 ^ 32.
Proof.
  unfold is_u, metaWord. intros. rewrite !shl64_small by lia.
  rewrite <-!Z.shiftl_mul_pow2 by lia. rewrite (lor_shift size) by lia.
  rewrite (lor_shift _ bo) by lia. rewrite (lor_shift _ bl) by lia.
  rewrite (lor_shift _ st) by lia. rewrite !Z.shiftl_mul_pow2 by lia. lia.
Qed.

Lemma readBlob_enc b l nv vs c cs :
  Z.of_nat (length b) < 2 ^ 62 →
  readBlob (Z.of_nat (length b)) (D (b ++ replicate (padding b) 0 ++ l) nv vs c cs) = (b, D l nv vs c cs).
Proof.
  intros Hb. unfold readBlob.
  assert ((Z.of_nat (length b) +! 7) `div` 8 *! 8 = Z.of_nat (length b + padding b)) as ->.
  { pose proof (length_encTok (Blob b)) as H8. unfold encTok in H8.
    rewrite length_app, length_replicate in H8.
    assert (padding b < 8)%nat by (unfold padding; apply Nat.mod_upper_bound; lia).
    apply Nat.Div0.mod_divides in H8 as [k Hk]. no_wrap. dlia. }
  simpl. rewrite !length_app, length_replicate. rewrite decide_False by lia. simpl.
  rewrite !Nat2Z.id, take_app_length.
  rewrite (app_assoc b), drop_app_length' by (by rewrite length_app, length_replicate). done.
Qed.

Lemma readChunks_enc chunks l nv vs c cs :
  Forall fitsChunk chunks →
  readChunks be (length chunks)
    (D (bytes (concat ((λ ch, [Word (chunkKind ch); Word (chunkValue ch); Word (chunkSize ch)]) <$> chunks))
        ++ l) nv vs c cs)
  = (chunks, D l nv vs c cs).
Proof.
  induction 1 as [|[k v s] chunks (Hk & Hv & Hs) _ IH]; [done|].
  rewrite fmap_cons. cbn [concat app length readChunks chunkKind chunkValue chunkSize] in *.
  eat. rewrite IH. done.
Qed.

Lemma dataFlags_size n (b : bool) :
  0 ≤ n < 2 ^ 62 → Z.lor n (if b then execArgDataReadable else 0) = n + (if b then 2 ^ 63 else 0).
Proof.
  intros Hn. destruct b; [|by rewrite Z.lor_0_r, Z.add_0_r].
  change execArgDataReadable with (Z.shiftl 1 63). rewrite lor_shift by lia. lia.
Qed.

Lemma readArg_enc a l nv vs c cs :
  fitsArg a →
  readArg be (D (bytes (encArg a) ++ l) nv vs c cs) = Ret (Some a, D l nv (argVars vs a) c cs).
Proof.
  destruct a as [size fmt value bo bl st|size fmt idx dv ad df|b rd|size kind chunks]; simpl encArg.
  - intros (Hs & Hf & Hv & Hbo & Hbl & Hst). unfold readArg. pose proof Hs as Hs'.
    rewrite metaWord_sum by done. unfold is_u in Hs, Hf, Hbo, Hbl, Hst.
    set (m := size + fmt * 2 ^ 8 + bo * 2 ^ 16 + bl * 2 ^ 24 + st * 2 ^ 32).
    assert (is_u 64 m) by (unfold is_u, m; lia). eat. rewrite decide_True by done.
    do 3 f_equal. rewrite land_ff, !div_byte, Z.shiftr_div_pow2 by lia. subst m.
    f_equal; dlia.
  - intros (Hs & Hf & Hi & Hd & Ha & Hdf). unfold readArg. unfold is_u in Hs, Hf.
    rewrite shl64_small by lia. rewrite <-Z.shiftl_mul_pow2, lor_shift by lia.
    set (m := size + fmt * 2 ^ 8). assert (is_u 64 m) by (unfold is_u, m; lia). eat.
    rewrite decide_False, decide_True by done. do 3 f_equal. rewrite land_ff, div_byte by lia. subst m. f_equal; dlia.
  - intros Hb. cbn [fitsArg] in Hb. unfold readArg. rewrite dataFlags_size by lia.
    set (m := Z.of_nat (length b) + (if rd then 2 ^ 63 else 0)).
    assert (is_u 64 m) by (unfold is_u, m; destruct rd; lia). eat.
    rewrite !decide_False, decide_True by done.
    assert (Z.land m (not64 execArgDataReadable) = Z.of_nat (length b)) as ->.
    { change (not64 execArgDataReadable) with (Z.ones 63). rewrite Z.land_ones by lia.
      subst m. destruct rd; dlia. }
    rewrite readBlob_enc by done. do 3 f_equal.
    subst m. rewrite <-dataFlags_size by lia. rewrite Z.land_lor_distr_l.
    assert (Z.land (Z.of_nat (length b)) execArgDataReadable = 0) as ->.
    { apply Z.bits_inj'; intros i Hi. rewrite Z.land_spec, Z.bits_0.
      change execArgDataReadable with (2 ^ 63). rewrite Z.pow2_bits_eqb by lia.
      destruct (63 =? i) eqn:E; [|apply andb_false_r]. apply Z.eqb_eq in E. subst i.
      replace (Z.of_nat (length b)) with (Z.of_nat (length b) `mod` 2 ^ 63)
        by (apply Z.mod_small; lia). by rewrite Z.mod_pow2_bits_high by lia. }
    by destruct rd.
  - intros (Hs & -> & Hn & Hch). unfold readArg.
    assert (is_u 64 (Z.of_nat (length chunks))) by (unfold is_u; lia).
    eat. rewrite !decide_False, !decide_True by done. unfold makeChunksOk. rewrite bool_decide_eq_true_2 by lia.
    rewrite Nat2Z.id. by rewrite readChunks_enc.
Qed.

(** ** Termination on arbitrary input *)

(** [d'] is [d] after some reads. *)
Definition after (d d' : execDecoder) : Prop :=
  (length (data d') ≤ length (data d))%nat ∧ (err d ≠ None → err d' ≠ None).

#[local] Instance after_preorder : PreOrder after.
Proof.
  split; [split; [lia|done]|]. intros d1 d2 d3 [H1 E1] [H2 E2]. split; [lia|auto].
Qed.

Lemma setErr_after e d : after d (setErr e d) ∧ err (setErr e d) ≠ None.
Proof. unfold setErr, after. destruct (err d) eqn:E; simpl; rewrite ?E; auto. Qed.

Lemma read_after d :
  after d (read be d).2 ∧
  (err (read be d).2 = None → (length (data (read be d).2) < length (data d))%nat).
Proof.
  unfold read. case_decide as Hlen.
  - destruct (setErr_after "exec program overflow" d) as [H He].
    destruct (err (setErr _ d)) eqn:E; [|done]. simpl. rewrite E. split; [done|done].
  - destruct (err d) eqn:E; simpl.
    + rewrite E. split; [reflexivity|done].
    + rewrite E, length_drop. split; [split; [simpl; rewrite length_drop; lia|simpl; by rewrite E]|lia].
Qed.

Lemma readBlob_after n d : after d (readBlob n d).2.
Proof.
  unfold readBlob. case_decide as Hlen.
  - destruct (setErr_after "exec program overflow" d) as [H He].
    destruct (err (setErr _ d)) eqn:E; done.
  - destruct (err d) eqn:E; simpl; [reflexivity|].
    split; simpl; [rewrite length_drop; lia|by rewrite E].
Qed.

(** Split the reads of a decoding function into [after] steps. *)
Ltac reads :=
  repeat match goal with
    | |- context [read be ?d] =>
      let H := fresh "H" in pose proof (proj1 (read_after d)) as H;
      destruct (read be d) as [? ?]; simpl in H
    end.
Ltac chain := repeat match goal with H : after ?d ?d' |- after ?d _ => rewrite H; clear H end;
  try reflexivity.

Lemma readChunks_after n d : after d (readChunks be n d).2.
Proof.
  revert d; induction n as [|n IH]; intros d; simpl; [reflexivity|]. reads.
  match goal with |- context [readChunks be n ?x] => pose proof (IH x) as Hn;
    destruct (readChunks be n x) end. simpl in *. chain.
Qed.

Lemma readArg_after d a d' : readArg be d = Ret (a, d') → after d d'.
Proof.
  unfold readArg. reads. repeat case_decide; reads.
  all: try match goal with |- context [readBlob ?n ?x] => pose proof (readBlob_after n x);
    destruct (readBlob n x); simpl in * end.
  all: try destruct (makeChunksOk _); try discriminate.
  all: try match goal with |- context [readChunks be ?n ?x] => pose proof (readChunks_after n x);
    destruct (readChunks be n x); simpl in * end.
  all: intros [= <- <-]; chain; try (apply setErr_after).
  all: split; simpl; [lia|done].
Qed.

Lemma commitCall_after d : after d (commitCall d).
Proof. unfold commitCall. destruct (ecMeta (call d)); [|reflexivity]. split; simpl; [lia|done]. Qed.

Lemma setCall_after c d : after d (setCall c d).
Proof. split; simpl; [lia|done]. Qed.

Lemma readCallArgs_after n d b d' : readCallArgs be n d = Ret (b, d') → after d d'.
Proof.
  revert d; induction n as [|n IH]; intros d; simpl; [intros [= <- <-]; reflexivity|].
  intros H. apply bind_Ret in H as ([a d1] & Ha & H). apply readArg_after in Ha. rewrite Ha.
  destruct a as [[]|]; try (injection H as <- <-; apply setErr_after);
    apply IH in H; rewrite <-H; apply setCall_after.
Qed.

Lemma parseInstr_shrinks d d' :
  parseInstr be syscalls d = Ret (true, d') →
  err d' ≠ None ∨ (length (data d') < length (data d))%nat.
Proof.
  unfold parseInstr. pose proof (read_after d) as [_ Hlt]. destruct (read be d) as [instr d1].
  simpl in Hlt. intros H. enough (after d1 d') as [Hl He].
  { destruct (err d1) eqn:E1; [left; by apply He|right; specialize (Hlt eq_refl); lia]. }
  revert H. clear Hlt.
  pose proof (commitCall_after d1) as Hc.
  repeat case_decide; try discriminate.
  - destruct (read be (commitCall d1)) as [addr d2] eqn:E2.
    pose proof (proj1 (read_after (commitCall d1))) as H2. rewrite E2 in H2. simpl in H2.
    intros H'. apply bind_Ret in H' as ([a d3] & Ha & [= <-]). apply readArg_after in Ha.
    rewrite Hc, H2, Ha. apply setCall_after.
  - reads. intros [= <-]. chain. apply setCall_after.
  - unfold readCallProps. reads. intros [= <-]. rewrite Hc. chain. apply setCall_after.
  - destruct (syscalls !! Z.to_nat instr); [|done]. reads. intros H'.
    apply readCallArgs_after in H'. rewrite Hc. chain. rewrite <-H'. apply setCall_after.
Qed.

Lemma readArg_fuel d : readArg be d ≠ OutOfFuel.
Proof.
  unfold readArg. destruct (read be d). repeat case_decide; repeat destruct (read be _); try done.
  - by destruct (readBlob _ _).
  - case_decide; [|done]. destruct (makeChunksOk _); [|done].
    by destruct (readChunks _ _ _).
Qed.

Lemma readCallArgs_fuel n d : readCallArgs be n d ≠ OutOfFuel.
Proof.
  revert d; induction n as [|n IH]; intros d; simpl; [done|].
  pose proof (readArg_fuel d). destruct (readArg be d) as [[[[]|] d']| |]; simpl; auto.
Qed.

Lemma parseInstr_fuel d : parseInstr be syscalls d ≠ OutOfFuel.
Proof.
  unfold parseInstr, readCallProps. destruct (read be d).
  repeat case_decide; repeat destruct (read be _); try done.
  - pose proof (readArg_fuel e0). by destruct (readArg be e0) as [[]| |].
  - destruct (_ !! _); [|done]. apply readCallArgs_fuel.
Qed.

Lemma parse_total fuel d : (length (data d) < fuel)%nat → parse be syscalls fuel d ≠ OutOfFuel.
Proof.
  revert d; induction fuel as [|fuel IH]; intros d Hf; [lia|]. simpl.
  destruct (err d) eqn:E; [done|]. pose proof (parseInstr_fuel d).
  destruct (parseInstr be syscalls d) as [[[] d']| |] eqn:Ep; simpl; [|done|done|done].
  apply parseInstr_shrinks in Ep as [He|Hl]; [|apply IH; lia].
  destruct fuel; simpl; destruct (err d'); done.
Qed.

(** A result that, if it is a panic, is the one of a slice that is too long. *)
Definition onlyMakeslice {A} (x : res A) : Prop :=
  match x with Panic why => why = "makeslice: len out of range" | _ => True end.

Lemma readArg_panic d : onlyMakeslice (readArg be d).
Proof.
  unfold readArg. destruct (read be d). repeat case_decide; repeat destruct (read be _); try done.
  - by destruct (readBlob _ _).
  - case_decide; [|done]. destruct (makeChunksOk _); [|done]. by destruct (readChunks _ _ _).
Qed.

Lemma readCallArgs_panic n d : onlyMakeslice (readCallArgs be n d).
Proof.
  revert d; induction n as [|n IH]; intros d; simpl; [done|].
  pose proof (readArg_panic d). destruct (readArg be d) as [[[[]|] d']| |]; simpl; auto.
Qed.

Lemma parseInstr_panic d : onlyMakeslice (parseInstr be syscalls d).
Proof.
  unfold parseInstr, readCallProps. destruct (read be d).
  repeat case_decide; repeat destruct (read be _); try done.
  - pose proof (readArg_panic e0). by destruct (readArg be e0) as [[]| |].
  - destruct (_ !! _); [|done]. apply readCallArgs_panic.
Qed.

Lemma parse_panic fuel d : onlyMakeslice (parse be syscalls fuel d).
Proof.
  revert d; induction fuel as [|fuel IH]; intros d; simpl; destruct (err d); try done.
  pose proof (parseInstr_panic d).
  destruct (parseInstr be syscalls d) as [[[] d']| |]; simpl; auto; done.
Qed.

Lemma parse_mono f1 f2 d r :
  parse be syscalls f1 d = Ret r → parse be syscalls f2 d ≠ OutOfFuel →
  parse be syscalls f2 d = Ret r.
Proof.
  revert f2 d; induction f1 as [|f1 IH]; intros [|f2] d; simpl; destruct (err d); try done.
  destruct (parseInstr be syscalls d) as [[[] d']| |]; simpl; auto.
Qed.

(** ** Decoding an encoded program *)

Lemma parse_step f d d' :
  err d = None → parseInstr be syscalls d = Ret (true, d') →
  parse be syscalls (S f) d = parse be syscalls f d'.
Proof. intros He Hp. simpl. rewrite He, Hp. done. Qed.

Lemma readCallArgs_enc args l nv vs m p i done ci co cs :
  Forall (λ a, fitsArg a ∧ isCallArg a) args →
  readCallArgs be (length args)
    (D (bytes (concat (encArg <$> args)) ++ l) nv vs (MkExecCall m p i done ci co) cs)
  = Ret (true, D l nv (foldl argVars vs args) (MkExecCall m p i (done ++ args) ci co) cs).
Proof.
  intros H. revert vs done; induction H as [|a args [Ha Hc] _ IH]; intros vs done.
  { rewrite app_nil_r. done. }
  rewrite fmap_cons. cbn [concat length readCallArgs]. rewrite bytes_app, <-app_assoc.
  rewrite readArg_enc by done. cbn [rbind].
  destruct a; try done; unfold setCall; simpl; rewrite IH, <-app_assoc; done.
Qed.

(** The first instruction of a call, or the end, commits the previous call. *)
Definition afterCommit (c : ExecCall) : Prop := c = emptyCall ∨ ecMeta c ≠ None.
Definition commitNv (c : ExecCall) (nv : Z) : Z := foldl (λ n i, Z.max n (i + 1)) nv (callIndices c).
Definition commitCs (c : ExecCall) (cs : list ExecCall) : list ExecCall :=
  match ecMeta c with None => cs | Some _ => cs ++ [c] end.

Lemma commitCall_eq l nv vs c cs :
  c = emptyCall ∧ ecMeta c = None ∨ fitsCall syscalls c →
  commitCall (D l nv vs c cs)
  = D l (if ecMeta c then commitNv c nv else nv) vs emptyCall (commitCs c cs).
Proof.
  unfold commitCall, commitCs, commitNv, callIndices. intros [[-> _]|Hf]; [done|].
  destruct (fits_meta _ _ Hf) as (m & Hm & _). simpl. rewrite Hm.
  pose proof (fits_index _ _ Hf) as Hi. pose proof (fits_copyout _ _ Hf) as Hco. f_equal.
  rewrite foldl_app.
  assert ((if decide (ecIndex c ≠ ExecNoCopyout ∧ nv < ecIndex c +! 1) then ecIndex c +! 1 else nv) =
    foldl (λ n i, Z.max n (i + 1)) nv
      (if decide (ecIndex c = ExecNoCopyout) then [] else [ecIndex c])) as ->.
  { unfold ExecNoCopyout, is_u in *. destruct (decide (ecIndex c = _)) as [He|Hne]; cbn [foldl].
    - by rewrite decide_False by tauto.
    - no_wrap. case_decide; lia. }
  generalize (foldl (λ n i, Z.max n (i + 1)) nv
    (if decide (ecIndex c = ExecNoCopyout) then [] else [ecIndex c])) as n.
  induction Hco as [|co cos (Hco & _) _ IH]; intros n; simpl; [done|].
  unfold is_u in Hco. no_wrap. rewrite IH. f_equal. case_decide; lia.
Qed.

Lemma commit_first f w l nv vs c cs :
  is_u 64 w → w ≠ execInstrCopyout →
  c = emptyCall ∧ ecMeta c = None ∨ fitsCall syscalls c →
  parse be syscalls f (D (putUint be 8 w ++ l) nv vs c cs) =
  parse be syscalls f (D (putUint be 8 w ++ l) (if ecMeta c then commitNv c nv else nv) vs emptyCall
    (commitCs c cs)).
Proof.
  intros Hw Hne Hc. destruct f; [done|]. simpl.
  enough (parseInstr be syscalls (D (putUint be 8 w ++ l) nv vs c cs) =
    parseInstr be syscalls (D (putUint be 8 w ++ l) (if ecMeta c then commitNv c nv else nv) vs
      emptyCall (commitCs c cs))) as -> by done.
  unfold parseInstr. rewrite !read_word by done.
  rewrite !(decide_False (P := w = execInstrCopyout)) by done.
  rewrite (commitCall_eq l nv vs c cs Hc). done.
Qed.

Lemma copyin_steps cis : ∀ f l nv vs done cs,
  Forall (λ ci, is_u 64 (ciAddr ci) ∧ ∃ a, ciArg ci = Some a ∧ fitsArg a) cis →
  parse be syscalls (length cis + f)
    (D (bytes (concat (encCopyin <$> cis)) ++ l) nv vs (MkExecCall None noProps 0 [] done []) cs)
  = parse be syscalls f
    (D l nv (foldl argVars vs (omap ciArg cis)) (MkExecCall None noProps 0 [] (done ++ cis) []) cs).
Proof.
  induction cis as [|[ad a] cis IH]; intros f l nv vs done cs Hf.
  { rewrite app_nil_r. done. }
  apply Forall_cons in Hf as [(Had & a' & Ha & Hfa) Hf]. simpl in Had, Ha. subst a.
  rewrite fmap_cons. cbn [concat length Nat.add omap list_omap ciArg foldl].
  rewrite (parse_step _ _ (D (bytes (concat (encCopyin <$> cis)) ++ l) nv (argVars vs a')
    (MkExecCall None noProps 0 [] (done ++ [MkCopyin ad (Some a')]) []) cs)); [|done|].
  - rewrite IH, <-app_assoc by done. done.
  - unfold parseInstr, encCopyin. cbn [ciAddr ciArg]. rewrite bytes_app, <-app_assoc.
    change (?x ++ encArg a') with (Word execInstrCopyin :: Word ad :: encArg a').
    eat. rewrite decide_True by done. unfold commitCall. cbn [call ecMeta]. eat.
    rewrite readArg_enc by done. done.
Qed.

Lemma copyout_steps cos : ∀ f l nv vs m p i args ci done cs,
  Forall (λ co, 0 ≤ coIndex co < 2 ^ 64 - 1 ∧ is_u 64 (coAddr co) ∧ is_u 64 (coSize co)) cos →
  parse be syscalls (length cos + f)
    (D (bytes (concat (encCopyout <$> cos)) ++ l) nv vs (MkExecCall m p i args ci done) cs)
  = parse be syscalls f (D l nv vs (MkExecCall m p i args ci (done ++ cos)) cs).
Proof.
  induction cos as [|[x ad sz] cos IH]; intros f l nv vs m p i args ci done cs Hf.
  { by rewrite app_nil_r. }
  apply Forall_cons in Hf as [(Hx & Had & Hsz) Hf]. simpl in Hx, Had, Hsz.
  rewrite fmap_cons. cbn [concat length Nat.add].
  rewrite (parse_step _ _ (D (bytes (concat (encCopyout <$> cos)) ++ l) nv vs
    (MkExecCall m p i args ci (done ++ [MkCopyout x ad sz])) cs)); [|done|].
  - rewrite IH, <-app_assoc by done. done.
  - unfold parseInstr, encCopyout. cbn [coIndex coAddr coSize app].
    assert (is_u 64 x) by (unfold is_u; lia). eat.
    rewrite decide_False, decide_True by done. done.
Qed.

Lemma wrapS_wrapU z : isInt64 z → wrapS 64 (wrapU 64 z) = z.
Proof. unfold isInt64, wrapS, wrapU. intros. dlia. Qed.

Definition propsSteps (p : CallProps) : nat :=
  if decide (FailNth p = 0 ∧ Async p = false ∧ Rerun p = 0) then 0 else 1.

Lemma props_step p f l nv vs ci cs :
  isInt64 (FailNth p) ∧ isInt64 (Rerun p) →
  parse be syscalls (propsSteps p + f)
    (D (bytes (encProps p) ++ l) nv vs (MkExecCall None noProps 0 [] ci []) cs)
  = parse be syscalls f (D l nv vs (MkExecCall None p 0 [] ci []) cs).
Proof.
  intros [H1 H2]. unfold propsSteps, encProps. case_decide as Hp.
  { destruct p as [fn [] rr]; destruct Hp as (? & ? & ?); simplify_eq/=; done. }
  cbn [Nat.add]. apply parse_step; [done|]. unfold parseInstr.
  assert (is_u 64 (wrapU 64 (FailNth p))) by (apply wrapU_range; lia).
  assert (is_u 64 (wrapU 64 (Rerun p))) by (apply wrapU_range; lia).
  assert (is_u 64 (if Async p then 1 else 0)) by (destruct (Async p); split; vm_compute; congruence).
  eat. rewrite !decide_False, decide_True by done.
  unfold commitCall, readCallProps. cbn [call ecMeta]. eat.
  rewrite !wrapS_wrapU by done. unfold setCall; simpl.
  destruct p as [fn [] rr]; simpl; done.
Qed.

Definition callSteps (c : ExecCall) : nat :=
  (length (ecCopyin c) + (propsSteps (ecProps c) + S (length (ecCopyout c))))%nat.

Lemma call_steps c f l nv vs cs :
  fitsCall syscalls c →
  parse be syscalls (callSteps c + f) (D (bytes (encCall c) ++ l) nv vs emptyCall cs)
  = parse be syscalls f (D l nv (foldl argVars vs (callArgs c)) c cs).
Proof.
  intros [(m & Hm & Hid & Hsys) Hp Hi Hn Ha Hci Hco].
  destruct c as [meta props idx args cis cos]; simpl in *. subst meta.
  unfold callSteps, encCall, callArgs. cbn [ecCopyin ecProps ecMeta ecIndex ecArgs ecCopyout].
  rewrite !bytes_app, <-!app_assoc, <-!Nat.add_assoc, foldl_app.
  unfold emptyCall. rewrite copyin_steps by done. rewrite props_step by done. rewrite app_nil_l.
  cbn [Nat.add]. set (vs' := foldl argVars vs (omap ciArg cis)).
  rewrite (parse_step _ _ (D (bytes (concat (encCopyout <$> cos)) ++ l) nv (foldl argVars vs' args)
    (MkExecCall (Some m) props idx args cis []) cs)); [|done|].
  - rewrite copyout_steps by done. done.
  - unfold parseInstr. assert (is_u 64 (ID m)) by (unfold is_u; lia).
    rewrite wrapU_small by done. eat.
    rewrite !decide_False by (unfold execInstrCopyin, execInstrCopyout, execInstrEOF,
      execInstrSetProps; lia).
    unfold commitCall. cbn [call ecMeta]. rewrite Hsys. eat. rewrite Nat2Z.id.
    unfold setCall; simpl. rewrite readCallArgs_enc by done. done.
Qed.

(** Every call starts with a word that commits the previous one. *)
Lemma encCall_first c : fitsCall syscalls c →
  ∃ w ts, encCall c = Word w :: ts ∧ is_u 64 w ∧ w ≠ execInstrCopyout.
Proof.
  intros [(m & Hm & Hid & _) _ _ _ _ _ _]. unfold encCall, encProps.
  destruct (ecCopyin c) as [|ci cis].
  - simpl. case_decide; simpl; eexists _, _; (split; [done|]).
    + rewrite Hm, wrapU_small by (unfold is_u; lia). unfold is_u, execInstrCopyout. lia.
    + split; [split; vm_compute; congruence|done].
  - eexists _, _. split; [done|]. split; [split; vm_compute; congruence|done].
Qed.

Lemma calls_steps todo : ∀ nv vs c cs,
  Forall (fitsCall syscalls) todo →
  c = emptyCall ∧ ecMeta c = None ∨ fitsCall syscalls c →
  ∃ f d, parse be syscalls f (D (bytes (encProg todo)) nv vs c cs) = Ret d ∧
    err d = None ∧
    numVars d = foldl (λ n i, Z.max n (i + 1)) (if ecMeta c then commitNv c nv else nv)
      (concat (callIndices <$> todo)) ∧
    vars d = foldl argVars vs (concat (callArgs <$> todo)) ∧
    calls d = commitCs c cs ++ todo.
Proof.
  induction todo as [|c1 todo IH]; intros nv vs c cs Htodo Hc.
  - exists 1%nat. eexists. split.
    + unfold encProg. cbn [fmap list_fmap concat app]. rewrite <-(app_nil_r (bytes _)).
      rewrite bytes_cons. cbn [encTok].
      rewrite commit_first; [|split; vm_compute; congruence|done|done].
      simpl. unfold parseInstr. rewrite read_word by (split; vm_compute; congruence).
      simpl. reflexivity.
    + simpl. by rewrite app_nil_r.
  - apply Forall_cons in Htodo as [Hc1 Htodo].
    destruct (IH (if ecMeta c then commitNv c nv else nv) (foldl argVars vs (callArgs c1)) c1
      (commitCs c cs) Htodo (or_intror Hc1)) as (f & d & Hd & He & Hn & Hv & Hcs).
    exists (callSteps c1 + f)%nat, d. split_and!; [|done| | |].
    + unfold encProg. rewrite fmap_cons. cbn [concat]. rewrite <-app_assoc, bytes_app.
      destruct (encCall_first _ Hc1) as (w & ts & Hw & Hu & Hne).
      rewrite <-Hd, <-(call_steps c1 f) by done.
      rewrite Hw, !bytes_cons. cbn [encTok]. by rewrite commit_first.
    + rewrite Hn. rewrite fmap_cons. cbn [concat]. rewrite foldl_app. f_equal.
      destruct (fits_meta _ _ Hc1) as (m & Hm & _). by rewrite Hm.
    + rewrite Hv. rewrite fmap_cons. cbn [concat]. by rewrite foldl_app.
    + rewrite Hcs. destruct (fits_meta _ _ Hc1) as (m & Hm & _).
      unfold commitCs at 1. rewrite Hm. by rewrite <-app_assoc.
Qed.

Lemma deserialize_enc cs :
  Forall (fitsCall syscalls) cs →
  DeserializeExec be syscalls (bytes (encProg cs)) =
    Ret (if decide (Z.of_nat (length (progVars cs)) ≠ progNumVars cs)
         then inl "mismatching number of vars" else inr (MkExecProg cs (progVars cs))).
Proof.
  intros Hcs. destruct (calls_steps cs 0 [] emptyCall [] Hcs) as (f & d & Hd & He & Hn & Hv & Hc);
    [by left|].
  unfold DeserializeExec. erewrite parse_mono; [|exact Hd|by apply parse_total; simpl; lia].
  cbn [rbind]. rewrite He. cbn [emptyCall ecMeta] in Hn. fold (progNumVars cs) in Hn.
  fold (progVars cs) in Hv. simpl in Hc. rewrite Hn, Hv, Hc. by case_decide.
Qed.


End decode.
End ExecDecode.
