(* ===== verification/ExecEncode.v ===== *)
(** * ExecEncode: serialisation of programs for the executor (prog/encodingexec.go)

    The output buffer is modelled by the bytes written so far and the space left.
    [HostEndian] is the parameter [be]. *)

From S2P Require Import Prelude Bytes Types Prog ExecFormat Checksum.
Import Types Prog Bytes ExecFormat Checksum.

Module ExecEncode.

Record argInfo := MkArgInfo { Addr : Z; Idx : Z; isRet : bool }.
(** The value of a missing key. *)
Definition noInfo : argInfo := MkArgInfo 0 0 false.

Record execContext := MkExecCtx {
  out : list Z;
  left : Z;
  eof : bool;
  wargs : gmap positive argInfo;
  copyoutSeq : Z;
  csumMap : csumMapT;
  csumUses : gset positive
}.

Definition setArgs (a : gmap positive argInfo) (w : execContext) : execContext :=
  MkExecCtx (out w) (left w) (eof w) a (copyoutSeq w) (csumMap w) (csumUses w).
Definition setSeq (n : Z) (w : execContext) : execContext :=
  MkExecCtx (out w) (left w) (eof w) (wargs w) n (csumMap w) (csumUses w).
Definition setCsum (m : csumMapT) (u : gset positive) (w : execContext) : execContext :=
  MkExecCtx (out w) (left w) (eof w) (wargs w) (copyoutSeq w) m u.

Section encoder.
Context (be : bool) (target : Target) (h : heap).

Definition write (v : Z) (w : execContext) : execContext :=
  if decide (left w < 8) then
    MkExecCtx (out w) (left w) true (wargs w) (copyoutSeq w) (csumMap w) (csumUses w)
  else
    MkExecCtx (out w ++ putUint be 8 v) (left w - 8) (eof w) (wargs w) (copyoutSeq w) (csumMap w)
      (csumUses w).

(** The blob of a [DataArg], padded to words. *)
Definition writeData (data : list Z) (w : execContext) : execContext :=
  let len := Z.of_nat (length data) in
  let pad := 8 - len `mod` 8 in
  let padded := if decide (pad ≠ 8) then len + pad else len in
  if decide (left w < padded) then
    MkExecCtx (out w) (left w) true (wargs w) (copyoutSeq w) (csumMap w) (csumUses w)
  else
    MkExecCtx (out w ++ data ++ replicate (Z.to_nat (padded - len)) 0) (left w - padded) (eof w)
      (wargs w) (copyoutSeq w) (csumMap w) (csumUses w).

Definition writeConstArg (size val bfOffset bfLength pidStride : Z) (bf : BinaryFormat)
    (w : execContext) : execContext :=
  let w := write execArgConst w in
  let meta := Z.lor (Z.lor (Z.lor (Z.lor size (shl64 (formatCode bf) 8)) (shl64 bfOffset 16))
    (shl64 bfLength 24)) (shl64 pidStride 32) in
  let w := write meta w in
  write val w.

Definition isReadableDataType (desc : BufferDesc) : bool :=
  bool_decide (bufKind desc = BufferString ∨ bufKind desc = BufferFilename ∨
    bufKind desc = BufferGlob).

Fixpoint writeArg (arg : Arg) (w : execContext) : res execContext :=
  match arg with
  | ConstArg c v =>
    let! typ := argType target h arg in
    let! '(val, pidStride) := constValue typ v in
    let! size := UnitSize typ in
    Ret (writeConstArg size val (BitfieldOffset typ) (BitfieldLength typ) pidStride (Format typ) w)
  | ResultArg i =>
    let! a := deref h i in
    let! typ := argType target h arg in
    let! size := Size target h arg in
    match rRes a with
    | None => Ret (writeConstArg size (rVal a) 0 0 0 (Format typ) w)
    | Some r =>
      match wargs w !! r with
      | None => Panic "no copyout index"
      | Some info =>
        match typ with
        | ResourceType _ _ desc =>
          let! dflt := Default desc in
          let w := write execArgResult w in
          let w := write (Z.lor size (shl64 (formatCode (Format typ)) 8)) w in
          let w := write (Idx info) w in
          let w := write (OpDiv a) w in
          let w := write (OpAdd a) w in
          Ret (write dflt w)
        | _ => Panic "interface conversion: not a ResourceType"
        end
      end
    end
  | PointerArg _ _ _ _ =>
    let! size := Size target h arg in
    let! addr := PhysicalAddr target arg in
    Ret (writeConstArg size addr 0 0 0 FormatNative w)
  | DataArg c data _ =>
    let! data := argData (adir c) data in
    match data with
    | [] => Ret w
    | _ =>
      let! typ := argType target h arg in
      match typ with
      | BufferType _ desc =>
        let w := write execArgData w in
        let flags := Z.of_nat (length data) in
        let flags := if isReadableDataType desc then Z.lor flags execArgDataReadable else flags in
        let w := write flags w in
        Ret (writeData data w)
      | _ => Panic "interface conversion: not a BufferType"
      end
    end
  | UnionArg _ opt _ _ => writeArg opt w
  | GroupArg _ _ => Panic "unknown arg type"
  end.

Definition writeCallProps (p : CallProps) (w : execContext) : execContext :=
  let w := write execInstrSetProps w in
  let w := write (wrapU 64 (FailNth p)) w in
  let w := write (if Async p then 1 else 0) w in
  write (wrapU 64 (Rerun p)) w.

(** [len(res.uses) != 0] for a result argument. *)
Definition isUsed (arg : Arg) : res bool :=
  match arg with
  | ResultArg i => let! o := deref h i in Ret (bool_decide (uses o ≠ ∅))
  | _ => Ret false
  end.

Definition willBeUsed (w : execContext) (arg : Arg) : res bool :=
  let! used := isUsed arg in
  if (used : bool) then Ret true
  else Ret (bool_decide (is_Some (csumMap w !! argIdOf arg)) || bool_decide (argIdOf arg ∈ csumUses w)).

(** Groups and unions have no copyin of their own. *)
Definition isComposite (arg : Arg) : bool :=
  match arg with GroupArg _ _ | UnionArg _ _ _ _ => true | _ => false end.

Definition copyinArg (arg : Arg) (ctx : ArgCtx) (w : execContext) : res execContext :=
  match Base ctx with
  | None => Ret w
  | Some base =>
    let! phys := PhysicalAddr target base in
    let! typ := argType target h arg in
    let addr := (phys +! Offset ctx) -! UnitOffset typ in
    let! used := willBeUsed w arg in
    let w := if (used : bool) then setArgs (<[argIdOf arg := MkArgInfo addr 0 false]> (wargs w)) w
             else w in
    if isComposite arg then Ret w
    else
      let! dir := argDir h arg in
      if bool_decide (dir = DirOut) || IsPad typ then Ret w
      else
        let! sz := Size target h arg in
        if bool_decide (sz = 0) && negb (IsBitfield typ) then Ret w
        else writeArg arg (write addr (write execInstrCopyin w))
  end.

Definition writeCopyin (c : Call) (w : execContext) : res execContext :=
  ForeachArg target (λ _, h) (λ a ctx w, let! w := copyinArg a ctx w in Ret (w, false)) c w.

Definition writeChunk (chunk : CsumChunk) (w : execContext) : res execContext :=
  match chunk with
  | CsumChunkArg arg =>
    let! sz := Size target h arg in
    Ret (write sz (write (Addr (default noInfo (wargs w !! argIdOf arg))) (write ExecArgCsumChunkData w)))
  | CsumChunkConst value size => Ret (write size (write value (write ExecArgCsumChunkConst w)))
  end.

Definition writeChecksum (e : Arg * CsumInfo) (w : execContext) : res execContext :=
  let (arg, info) := e in
  let! typ := argType target h arg in
  match typ with
  | CsumType _ _ _ _ =>
    let! sz := Size target h arg in
    let w := write execInstrCopyin w in
    let w := write (Addr (default noInfo (wargs w !! argIdOf arg))) w in
    let w := write execArgCsum w in
    let w := write sz w in
    match csumKind info with
    | CsumInet =>
      let w := write ExecArgCsumInet w in
      let w := write (Z.of_nat (length (Chunks info))) w in
      for_list writeChunk (Chunks info) w
    | _ => Panic "csum arg has unknown kind"
    end
  | _ => Panic "csum arg is not csum type"
  end.

Definition addrOf (a : gmap positive argInfo) (e : Arg * CsumInfo) : Z :=
  Addr (default noInfo (a !! argIdOf e.1)).

Definition addrLe (a : gmap positive argInfo) (x y : Arg * CsumInfo) : Prop :=
  addrOf a x ≤ addrOf a y.
#[local] Instance addrLe_dec a x y : Decision (addrLe a x y) := decide (addrOf a x ≤ addrOf a y).

(** [sort.Slice] by address; the order of fields at one address is not specified. *)
Definition sortedCsums (a : gmap positive argInfo) (m : csumMapT) : list (Arg * CsumInfo) :=
  merge_sort (addrLe a) (map_to_list m).*2.

Definition writeChecksums (w : execContext) : res execContext :=
  for_list writeChecksum (reverse (sortedCsums (wargs w) (csumMap w))) w.

Definition copyoutArg (arg : Arg) (w : execContext) : res execContext :=
  let! used := isUsed arg in
  if (used : bool) then
    let info := default noInfo (wargs w !! argIdOf arg) in
    if isRet info then Ret w
    else
      let info := MkArgInfo (Addr info) (copyoutSeq w) (isRet info) in
      let w := setSeq (copyoutSeq w +! 1) w in
      let w := setArgs (<[argIdOf arg := info]> (wargs w)) w in
      let! sz := Size target h arg in
      Ret (write sz (write (Addr info) (write (Idx info) (write execInstrCopyout w))))
  else Ret w.

Definition writeCopyout (c : Call) (w : execContext) : res execContext :=
  ForeachArg target (λ _, h) (λ a _ w, let! w := copyoutArg a w in Ret (w, false)) c w.

Definition isNoProps (p : CallProps) : bool :=
  bool_decide (FailNth p = 0 ∧ Async p = false ∧ Rerun p = 0).

Definition retUsed (c : Call) : res (option positive) :=
  match Ret_ c with
  | None => Ret None
  | Some i => let! o := deref h i in Ret (if decide (uses o ≠ ∅) then Some i else None)
  end.

Definition serializeCall (c : Call) (w : execContext) : res execContext :=
  let! w := writeCopyin c w in
  let! w := writeChecksums w in
  let w := if isNoProps (Props c) then w else writeCallProps (Props c) w in
  let w := write (wrapU 64 (ID (Meta c))) w in
  let! ret := retUsed c in
  let! w :=
    match ret with
    | Some i =>
      match wargs w !! i with
      | Some _ => Panic "argInfo is already created for return value"
      | None =>
        let w := setArgs (<[i := MkArgInfo 0 (copyoutSeq w) true]> (wargs w)) w in
        let w := write (copyoutSeq w) w in
        Ret (setSeq (copyoutSeq w +! 1) w)
      end
    | None => Ret (write ExecNoCopyout w)
    end in
  let w := write (Z.of_nat (length (Args c))) w in
  let! w := for_list writeArg (Args c) w in
  writeCopyout c w.

Definition serializeCalls (cs : list Call) (w : execContext) : res execContext :=
  for_list (λ c w,
    let! '(m, u) := calcChecksumsCall target h c in
    serializeCall c (setCsum m u w)) cs w.

(** The bytes written, or [None] for [ErrExecBufferTooSmall]; [space] is the size of
    the buffer. *)
Definition SerializeForExec (cs : list Call) (space : Z) : res (option (list Z)) :=
  let! w := serializeCalls cs (MkExecCtx [] space false ∅ 0 ∅ ∅) in
  let w := write execInstrEOF w in
  if eof w || bool_decide (execMaxCommands < copyoutSeq w) then Ret None else Ret (Some (out w)).

End encoder.
End ExecEncode.
