(* ===== verification/ExecSpec.v ===== *)
(** * ExecSpec: what a serialised program denotes

    [denote] computes the executor program ([ExecProg] of decodeexec.go) of a list
    of calls without any bytes.  The serialiser writes exactly the encoding of the
    denotation, or reports that the buffer is too small exactly when it is; the
    decoder gives the denotation back. *)

From S2P Require Import Prelude Bytes Types Prog ExampleTarget ExecFormat Checksum ExecDecode ExecEncode.
Import Types Prog Bytes ExecFormat Checksum ExecEncode.

Module ExecSpec.

Section spec.
Context (be : bool) (target : Target) (h : heap).

(** ** The denotation *)

Notation addresses := (gmap positive argInfo) (only parsing).

Fixpoint execArgOf (a : addresses) (arg : Arg) : res (option ExecArg) :=
  match arg with
  | ConstArg _ v =>
    let! typ := argType target h arg in
    let! '(val, stride) := constValue typ v in
    let! size := UnitSize typ in
    Ret (Some (ExecArgConst size (formatCode (Format typ)) val (BitfieldOffset typ)
      (BitfieldLength typ) stride))
  | ResultArg i =>
    let! o := deref h i in
    let! typ := argType target h arg in
    let! size := Size target h arg in
    match rRes o with
    | None => Ret (Some (ExecArgConst size (formatCode (Format typ)) (rVal o) 0 0 0))
    | Some r =>
      match a !! r, typ with
      | None, _ => Panic "no copyout index"
      | Some info, ResourceType _ _ desc =>
        let! dflt := Default desc in
        Ret (Some (ExecArgResult size (formatCode (Format typ)) (Idx info) (OpDiv o) (OpAdd o) dflt))
      | _, _ => Panic "interface conversion: not a ResourceType"
      end
    end
  | PointerArg _ _ _ _ =>
    let! size := Size target h arg in
    let! addr := PhysicalAddr target arg in
    Ret (Some (ExecArgConst size 0 addr 0 0 0))
  | DataArg c data _ =>
    let! data := argData (adir c) data in
    match data with
    | [] => Ret None
    | _ =>
      let! typ := argType target h arg in
      match typ with
      | BufferType _ desc => Ret (Some (ExecArgData data (isReadableDataType desc)))
      | _ => Panic "interface conversion: not a BufferType"
      end
    end
  | UnionArg _ opt _ _ => execArgOf a opt
  | GroupArg _ _ => Panic "unknown arg type"
  end.

Section call.
Context (m : csumMapT) (u : gset positive).

Definition isAddressed (arg : Arg) : res bool :=
  let! used := isUsed h arg in
  if (used : bool) then Ret true
  else Ret (bool_decide (is_Some (m !! argIdOf arg)) || bool_decide (argIdOf arg ∈ u)).

Definition copyinOf (arg : Arg) (ctx : ArgCtx) (s : addresses * list ExecCopyin) :
    res (addresses * list ExecCopyin) :=
  match Base ctx with
  | None => Ret s
  | Some base =>
    let! phys := PhysicalAddr target base in
    let! typ := argType target h arg in
    let addr := (phys +! Offset ctx) -! UnitOffset typ in
    let! used := isAddressed arg in
    let a := if (used : bool) then <[argIdOf arg := MkArgInfo addr 0 false]> s.1 else s.1 in
    if isComposite arg then Ret (a, s.2)
    else
      let! dir := argDir h arg in
      if bool_decide (dir = DirOut) || IsPad typ then Ret (a, s.2)
      else
        let! sz := Size target h arg in
        if bool_decide (sz = 0) && negb (IsBitfield typ) then Ret (a, s.2)
        else let! e := execArgOf a arg in Ret (a, s.2 ++ [MkCopyin addr e])
  end.

Definition chunkOf (a : addresses) (chunk : CsumChunk) : res ExecCsumChunk :=
  match chunk with
  | CsumChunkArg arg =>
    let! sz := Size target h arg in
    Ret (MkChunk ExecArgCsumChunkData (Addr (default noInfo (a !! argIdOf arg))) sz)
  | CsumChunkConst value size => Ret (MkChunk ExecArgCsumChunkConst value size)
  end.

Definition csumOf (a : addresses) (e : Arg * CsumInfo) (cis : list ExecCopyin) :
    res (list ExecCopyin) :=
  let (arg, info) := e in
  let! typ := argType target h arg in
  match typ with
  | CsumType _ _ _ _ =>
    let! sz := Size target h arg in
    match csumKind info with
    | CsumInet =>
      let! chunks := for_list (λ ch l, let! x := chunkOf a ch in Ret (l ++ [x])) (Chunks info) [] in
      Ret (cis ++ [MkCopyin (Addr (default noInfo (a !! argIdOf arg)))
                     (Some (ExecArgCsum sz ExecArgCsumInet chunks))])
    | _ => Panic "csum arg has unknown kind"
    end
  | _ => Panic "csum arg is not csum type"
  end.

Definition copyoutOf (arg : Arg) (s : addresses * Z * list ExecCopyout) :
    res (addresses * Z * list ExecCopyout) :=
  let '(a, seq, cos) := s in
  let! used := isUsed h arg in
  if (used : bool) then
    let info := default noInfo (a !! argIdOf arg) in
    if isRet info then Ret s
    else
      let! sz := Size target h arg in
      Ret (<[argIdOf arg := MkArgInfo (Addr info) seq (isRet info)]> a, seq +! 1,
           cos ++ [MkCopyout seq (Addr info) sz])
  else Ret s.

(** The address map and the next copyout index are threaded through the calls. *)
Definition denoteCall (c : Call) (s : addresses * Z) : res (addresses * Z * ExecCall) :=
  let (a, seq) := s in
  let! '(a, cis) :=
    ForeachArg target (λ _, h) (λ x ctx s, let! s := copyinOf x ctx s in Ret (s, false)) c (a, []) in
  let! cis := for_list (csumOf a) (reverse (sortedCsums a m)) cis in
  let! ret := retUsed h c in
  let! '(a, seq, idx) :=
    match ret with
    | Some i =>
      match a !! i with
      | Some _ => Panic "argInfo is already created for return value"
      | None => Ret (<[i := MkArgInfo 0 seq true]> a, seq +! 1, seq)
      end
    | None => Ret (a, seq, ExecNoCopyout)
    end in
  let! args := for_list (λ x l, let! e := execArgOf a x in
    match e with Some e => Ret (l ++ [e]) | None => Panic "empty data argument of a call" end)
    (Args c) [] in
  let! '(a, seq, cos) :=
    ForeachArg target (λ _, h) (λ x _ s, let! s := copyoutOf x s in Ret (s, false)) c (a, seq, []) in
  Ret (a, seq, MkExecCall (Some (Meta c)) (Props c) idx args cis cos).

End call.

Definition denoteStep (c : Call) (s : addresses * Z * list ExecCall) :
    res (addresses * Z * list ExecCall) :=
  let '(a, seq, cs) := s in
  let! '(m, u) := calcChecksumsCall target h c in
  let! '(a, seq, ec) := denoteCall m u c (a, seq) in
  Ret (a, seq, cs ++ [ec]).

(** The calls and the number of copyouts. *)
Definition denote (cs : list Call) : res (list ExecCall * Z) :=
  let! '(_, seq, ecs) := for_list denoteStep cs (∅, 0, []) in Ret (ecs, seq).

(** ** Writing tokens *)

Definition emit1 (w : execContext) (t : token) : execContext :=
  match t with Word v => write be v w | Blob l => writeData l w end.
Definition emit (ts : list token) (w : execContext) : execContext := foldl emit1 w ts.

Lemma emit_word v ts w : emit (Word v :: ts) w = emit ts (write be v w).
Proof. done. Qed.
Lemma emit_nil w : emit [] w = w.
Proof. done. Qed.

Lemma emit_app ts1 ts2 w : emit (ts1 ++ ts2) w = emit ts2 (emit ts1 w).
Proof. apply foldl_app. Qed.

Lemma emit_wargs ts w : wargs (emit ts w) = wargs w.
Proof.
  revert w; induction ts as [|t ts IH]; intros w; simpl; [done|]. rewrite IH.
  destruct t; simpl; unfold write, writeData; by case_decide.
Qed.
Lemma emit_seq ts w : copyoutSeq (emit ts w) = copyoutSeq w.
Proof.
  revert w; induction ts as [|t ts IH]; intros w; simpl; [done|]. rewrite IH.
  destruct t; simpl; unfold write, writeData; by case_decide.
Qed.
Lemma emit_csum ts w : csumMap (emit ts w) = csumMap w ∧ csumUses (emit ts w) = csumUses w.
Proof.
  revert w; induction ts as [|t ts IH]; intros w; simpl; [done|].
  destruct (IH (emit1 w t)) as [-> ->].
  destruct t; simpl; unfold write, writeData; by case_decide.
Qed.

Lemma emit_setArgs ts a w : emit ts (setArgs a w) = setArgs a (emit ts w).
Proof.
  revert w; induction ts as [|t ts IH]; intros w; simpl; [done|]. rewrite <-IH. f_equal.
  destruct t; simpl; unfold write, writeData; simpl; by case_decide.
Qed.
Lemma emit_setSeq ts n w : emit ts (setSeq n w) = setSeq n (emit ts w).
Proof.
  revert w; induction ts as [|t ts IH]; intros w; simpl; [done|]. rewrite <-IH. f_equal.
  destruct t; simpl; unfold write, writeData; simpl; by case_decide.
Qed.

Lemma padded_length b :
  (if decide (8 - Z.of_nat (length b) `mod` 8 ≠ 8)
   then Z.of_nat (length b) + (8 - Z.of_nat (length b) `mod` 8) else Z.of_nat (length b))
  = Z.of_nat (length b) + Z.of_nat (padding b).
Proof.
  unfold padding. rewrite Nat2Z.inj_mod, Nat2Z.inj_sub by (pose proof (Nat.mod_upper_bound (length b) 8); lia).
  rewrite Nat2Z.inj_mod. change (Z.of_nat 8) with 8. case_decide; dlia.
Qed.

Lemma emit1_fits w t :
  Z.of_nat (length (encTok be t)) ≤ left w →
  emit1 w t = MkExecCtx (out w ++ encTok be t) (left w - Z.of_nat (length (encTok be t))) (eof w)
    (wargs w) (copyoutSeq w) (csumMap w) (csumUses w).
Proof.
  destruct t as [v|b]; simpl.
  - rewrite length_putUint. intros. unfold write. rewrite decide_False by lia. done.
  - rewrite length_app, length_replicate. intros. unfold writeData. rewrite padded_length.
    rewrite decide_False by lia. rewrite Nat2Z.inj_add. do 4 f_equal; f_equal; lia.
Qed.

Lemma emit1_overflow w t :
  left w < Z.of_nat (length (encTok be t)) → eof (emit1 w t) = true.
Proof.
  destruct t as [v|b]; simpl.
  - rewrite length_putUint. intros. unfold write. by rewrite decide_True by lia.
  - rewrite length_app, length_replicate. intros. unfold writeData. rewrite padded_length.
    by rewrite decide_True by lia.
Qed.

Lemma emit_eof ts w : eof w = true → eof (emit ts w) = true.
Proof.
  revert w; induction ts as [|t ts IH]; intros w Hw; simpl; [done|]. apply IH.
  destruct t; simpl; unfold write, writeData; by case_decide.
Qed.

Lemma length_bytes_cons t ts :
  length (bytes be (t :: ts)) = (length (encTok be t) + length (bytes be ts))%nat.
Proof. unfold bytes. simpl. by rewrite length_app. Qed.

Lemma emit_fits ts w :
  Z.of_nat (length (bytes be ts)) ≤ left w →
  emit ts w = MkExecCtx (out w ++ bytes be ts) (left w - Z.of_nat (length (bytes be ts))) (eof w)
    (wargs w) (copyoutSeq w) (csumMap w) (csumUses w).
Proof.
  revert w; induction ts as [|t ts IH]; intros w Hl.
  - unfold bytes. simpl. rewrite app_nil_r, Z.sub_0_r. by destruct w.
  - rewrite length_bytes_cons in *. simpl. rewrite emit1_fits by lia. rewrite IH by (simpl; lia).
    simpl. unfold bytes. simpl. rewrite <-app_assoc. f_equal. lia.
Qed.

Lemma emit_overflow ts w :
  left w < Z.of_nat (length (bytes be ts)) → 0 ≤ left w → eof (emit ts w) = true.
Proof.
  revert w; induction ts as [|t ts IH]; intros w Hl H0; [simpl in Hl; lia|].
  rewrite length_bytes_cons in Hl. simpl.
  destruct (decide (Z.of_nat (length (encTok be t)) ≤ left w)) as [Hf|Hf].
  - rewrite emit1_fits by done. apply IH; simpl; lia.
  - apply emit_eof, emit1_overflow. lia.
Qed.

(** ** The serialiser writes the denotation *)

Definition encOpt (e : option ExecArg) : list token := match e with Some e => encArg e | None => [] end.

Lemma writeArg_spec arg w :
  writeArg be target h arg w =
  (let! e := execArgOf (wargs w) arg in Ret (emit (encOpt e) w)).
Proof.
  induction arg as [c v|c ad vs r IH|c data sz|c l IH|c o i t IH|i] using arg_ind; simpl; try done.
  - destruct (argType target h _) as [typ| |]; simpl; [|done|done].
    destruct (constValue typ v) as [[val st]| |]; simpl; [|done|done].
    by destruct (UnitSize typ).
  - destruct (typeAt _ _) as [typ| |]; simpl; [|done|done].
    destruct (Types.Size typ); simpl; [|done|done]. by destruct (if isSpecial _ _ _ then _ else _).
  - destruct (argData _ data) as [[|b l]| |]; simpl; try done.
    destruct (argType target h _) as [[]| |]; simpl; try done.
    destruct (isReadableDataType _); simpl; [done|]. by rewrite Z.lor_0_r.
  - unfold argType. simpl. destruct (deref h i) as [o| |]; simpl; [|done|done].
    destruct (typeAt _ _) as [typ| |]; simpl; [|done|done].
    destruct (Types.Size typ); simpl; [|done|done]. destruct (rRes o) as [r|]; simpl; [|done].
    destruct (wargs w !! r) as [info|]; [|done]. destruct typ; try done.
    destruct (Default desc); cbn [rbind encOpt encArg]; [|done|done]. by rewrite !emit_word, emit_nil.
Qed.

Section callspec.
Context (w0 : execContext).
Notation m := (csumMap w0).
Notation u := (csumUses w0).

(** The writer after some copyins with a new address map. *)
Definition afterCopyin (s : addresses * list ExecCopyin) : execContext :=
  setArgs s.1 (emit (concat (encCopyin <$> s.2)) w0).

Lemma copyin_app cis ci w :
  emit (concat (encCopyin <$> (cis ++ [ci]))) w =
  emit (encCopyin ci) (emit (concat (encCopyin <$> cis)) w).
Proof. rewrite fmap_app, concat_app, emit_app. simpl. by rewrite app_nil_r. Qed.

Lemma copyinArg_spec arg ctx s :
  copyinArg be target h arg ctx (afterCopyin s) =
  (let! s := copyinOf m u arg ctx s in Ret (afterCopyin s)).
Proof.
  destruct s as [a cis]. unfold copyinArg, copyinOf, afterCopyin. destruct (Base ctx) as [base|]; [|done].
  destruct (PhysicalAddr target base); simpl; [|done|done].
  destruct (argType target h arg) as [typ| |]; simpl; [|done|done].
  unfold willBeUsed, isAddressed. simpl.
  destruct (emit_csum (concat (encCopyin <$> cis)) w0) as [-> ->].
  destruct (isUsed h arg) as [used| |]; simpl; [|done|done].
  set (b := if used then Ret true else _). assert (∃ x, b = Ret x) as [x ->] by (destruct used; eauto).
  simpl. set (addr := _ -! UnitOffset typ).
  set (a' := if x then <[argIdOf arg := MkArgInfo addr 0 false]> a else a).
  set (w := setArgs a (emit (concat (encCopyin <$> cis)) w0)).
  assert ((if x then setArgs (<[argIdOf arg:=MkArgInfo addr 0 false]> a) w else w) =
    setArgs a' (emit (concat (encCopyin <$> cis)) w0)) as -> by (by destruct x).
  destruct (isComposite arg); simpl; [done|].
  destruct (argDir h arg); simpl; [|done|done]. destruct (_ || _); simpl; [done|].
  destruct (Size target h arg); simpl; [|done|done]. destruct (_ && _); simpl; [done|].
  rewrite writeArg_spec.
  match goal with |- context [execArgOf (wargs ?ww) arg] => assert (wargs ww = a') as ->
    by (change ww with (emit [Word execInstrCopyin; Word addr] (setArgs a' (emit (concat (encCopyin <$> cis)) w0)));
        by rewrite emit_wargs) end.
  destruct (execArgOf a' arg) as [e| |]; simpl; [|done|done].
  change (write be addr (write be execInstrCopyin ?x)) with (emit [Word execInstrCopyin; Word addr] x).
  rewrite <-emit_app, emit_setArgs, copyin_app. done.
Qed.

Lemma chunks_spec a cis0 pre chunks l :
  for_list (λ ch l, let! x := chunkOf a ch in Ret (l ++ [x])) chunks [] = Ret l →
  for_list (writeChunk be target h) chunks
    (emit pre (setArgs a (emit (concat (encCopyin <$> cis0)) w0))) =
  Ret (emit (pre ++ concat ((λ ch, [Word (chunkKind ch); Word (chunkValue ch); Word (chunkSize ch)]) <$> l))
    (setArgs a (emit (concat (encCopyin <$> cis0)) w0))).
Proof.
  set (j := λ l, emit (pre ++ concat ((λ ch, [Word (chunkKind ch); Word (chunkValue ch);
    Word (chunkSize ch)]) <$> l)) (setArgs a (emit (concat (encCopyin <$> cis0)) w0))).
  intros H. apply (for_list_embed_Ret j (writeChunk be target h)) in H.
  - unfold j at 1 in H. cbn [fmap list_fmap concat] in H. rewrite app_nil_r in H. exact H.
  - intros ch s s' Hs. unfold writeChunk, chunkOf in *.
    assert (wargs (j s) = a) as Ha by (unfold j; by rewrite emit_wargs).
    assert (∀ x, j (s ++ [x]) = emit [Word (chunkKind x); Word (chunkValue x); Word (chunkSize x)] (j s))
      as Hj.
    { intros x. unfold j. rewrite fmap_app, concat_app, app_assoc, emit_app. simpl. done. }
    destruct ch as [arg|v sz].
    + destruct (Size target h arg); simpl in *; [|done|done]. injection Hs as <-.
      rewrite Hj. simpl. by rewrite Ha.
    + simpl in Hs. injection Hs as <-. by rewrite Hj.
Qed.

Lemma csum_spec a e cis cis' :
  csumOf a e cis = Ret cis' →
  writeChecksum be target h e (afterCopyin (a, cis)) = Ret (afterCopyin (a, cis')).
Proof.
  destruct e as [arg info]. unfold csumOf, writeChecksum. intros H.
  destruct (argType target h arg) as [[]| |]; simpl in *; try done.
  destruct (Size target h arg) as [sz| |]; simpl in *; [|done|done].
  destruct (csumKind info); [|done]. apply bind_Ret in H as (l & Hl & [= <-]).
  assert (length l = length (Chunks info)) as Hlen.
  { assert (∀ xs acc l, for_list (λ ch l, let! x := chunkOf a ch in Ret (l ++ [x])) xs acc = Ret l →
      length l = (length acc + length xs)%nat) as Hx.
    { clear. induction xs as [|x xs IH]; intros acc l; simpl; [intros [= <-]; lia|].
      intros H. apply bind_Ret in H as (s1 & H1 & H2). apply bind_Ret in H1 as (y & _ & [= <-]).
      apply IH in H2. rewrite length_app in H2. simpl in H2. lia. }
    apply Hx in Hl. simpl in Hl. lia. }
  unfold afterCopyin. cbn [fst snd]. rewrite copyin_app, <-!emit_setArgs.
  set (w := emit (concat (encCopyin <$> cis)) (setArgs a w0)).
  assert (wargs w = a) as Ha by (unfold w; by rewrite emit_wargs).
  cbv zeta. assert (wargs (write be execInstrCopyin w) = a) as ->
    by (rewrite <-Ha; apply (emit_wargs [Word execInstrCopyin])).
  set (addr := Addr (default noInfo (a !! argIdOf arg))).
  pose proof (chunks_spec a cis [Word execInstrCopyin; Word addr; Word execArgCsum; Word sz;
    Word ExecArgCsumInet; Word (Z.of_nat (length (Chunks info)))] _ _ Hl) as Hc.
  rewrite <-emit_setArgs in Hc. fold w in Hc. rewrite !emit_word, emit_nil in Hc. rewrite Hc.
  unfold encCopyin. cbn [ciAddr ciArg encArg]. by rewrite Hlen.
Qed.

(** The writer [w0] after some tokens, with its bookkeeping replaced. *)
Definition St (a : addresses) (seq : Z) (ts : list token) : execContext :=
  setSeq seq (setArgs a (emit ts w0)).

Lemma St_emit a seq ts ts' : emit ts' (St a seq ts) = St a seq (ts ++ ts').
Proof. unfold St. by rewrite emit_setSeq, emit_setArgs, emit_app. Qed.
Lemma St_write a seq ts v : write be v (St a seq ts) = St a seq (ts ++ [Word v]).
Proof. apply (St_emit a seq ts [Word v]). Qed.
Lemma St_init : w0 = St (wargs w0) (copyoutSeq w0) [].
Proof. unfold St. simpl. by destruct w0. Qed.
Lemma St_copyin a cis : afterCopyin (a, cis) = St a (copyoutSeq w0) (concat (encCopyin <$> cis)).
Proof.
  unfold afterCopyin, St. cbn [fst snd]. rewrite <-(emit_seq (concat (encCopyin <$> cis)) w0).
  by destruct (emit _ w0).
Qed.

Lemma args_spec a seq ts l l' :
  for_list (λ x l, let! e := execArgOf a x in
    match e with Some e => Ret (l ++ [e]) | None => Panic "empty data argument of a call" end) l []
    = Ret l' →
  for_list (writeArg be target h) l (St a seq ts) = Ret (St a seq (ts ++ concat (encArg <$> l'))) ∧
  length l' = length l.
Proof.
  intros H. split.
  - apply (for_list_embed_Ret (λ l, St a seq (ts ++ concat (encArg <$> l))) (writeArg be target h)) in H.
    + cbn [fmap list_fmap concat] in H. by rewrite app_nil_r in H.
    + intros x s s' Hs. rewrite writeArg_spec. cbn [wargs St setSeq setArgs].
      destruct (execArgOf a x) as [[e|]| |]; cbn [rbind] in *; try done. injection Hs as <-.
      rewrite St_emit, fmap_app, concat_app, app_assoc. simpl. by rewrite app_nil_r.
  - assert (∀ acc, for_list (λ x l, let! e := execArgOf a x in
      match e with Some e => Ret (l ++ [e]) | None => Panic "empty data argument of a call" end) l acc
      = Ret l' → length l' = (length acc + length l)%nat) as Hx; [|by apply Hx in H].
    clear H. induction l as [|x l IH]; intros acc; simpl; [intros [= <-]; lia|].
    intros H. apply bind_Ret in H as (s1 & H1 & H2). apply bind_Ret in H1 as ([e|] & _ & H1); [|done].
    injection H1 as <-. apply IH in H2. rewrite length_app in H2. simpl in H2. lia.
Qed.

Lemma copyoutArg_spec ts arg a seq cos :
  copyoutArg be target h arg (St a seq (ts ++ concat (encCopyout <$> cos))) =
  (let! '(a, seq, cos) := copyoutOf arg (a, seq, cos) in
   Ret (St a seq (ts ++ concat (encCopyout <$> cos)))).
Proof.
  unfold copyoutArg, copyoutOf. destruct (isUsed h arg) as [[]| |]; simpl; try done.
  cbn [wargs St setSeq setArgs]. destruct (isRet _); [done|].
  destruct (Size target h arg) as [sz| |]; simpl; [|done|done]. f_equal.
  match goal with |- _ = St ?a' ?q' ?T => transitivity (St a' q' (ts ++ concat (encCopyout <$> cos) ++
    [Word execInstrCopyout; Word seq; Word (Addr (default noInfo (a !! argIdOf arg))); Word sz])) end.
  - rewrite app_assoc, <-(St_emit _ _ _ [_; _; _; _]). by rewrite !emit_word, emit_nil.
  - by rewrite fmap_app, concat_app.
Qed.

Lemma props_spec p w : (if isNoProps p then w else writeCallProps be p w) = emit (encProps p) w.
Proof.
  unfold isNoProps, encProps, writeCallProps. case_bool_decide as Hp.
  - by rewrite decide_True.
  - by rewrite decide_False, !emit_word, emit_nil.
Qed.

Lemma serializeCall_spec c a seq ec :
  denoteCall m u c (wargs w0, copyoutSeq w0) = Ret (a, seq, ec) →
  serializeCall be target h c w0 = Ret (St a seq (encCall ec)).
Proof.
  intros H. unfold denoteCall in H. apply bind_Ret in H as ([a1 cis1] & H1 & H).
  apply bind_Ret in H as (cis2 & H2 & H). apply bind_Ret in H as (ret & H3 & H).
  apply bind_Ret in H as ([[a2 seq2] idx] & H4 & H). apply bind_Ret in H as (args & H5 & H).
  apply bind_Ret in H as ([[a3 seq3] cos] & H6 & [= <- <- <-]).
  unfold serializeCall, writeCopyin.
  assert (w0 = afterCopyin (wargs w0, [])) as Hw0 by (rewrite St_copyin; apply St_init).
  rewrite Hw0 at 1. rewrite (ForeachArg_embed target afterCopyin h _
    (λ x ctx s, let! s := copyinOf m u x ctx s in Ret (s, false))).
  2:{ intros x ctx s. rewrite copyinArg_spec, !bind_assoc. done. }
  rewrite H1. cbn [rbind]. unfold writeChecksums.
  replace (wargs (afterCopyin (a1, cis1))) with a1 by done.
  replace (csumMap (afterCopyin (a1, cis1))) with m
    by (unfold afterCopyin; cbn [csumMap setArgs]; by destruct (emit_csum (concat (encCopyin <$> cis1)) w0)).
  rewrite (for_list_embed_Ret (λ cis, afterCopyin (a1, cis)) _ (csumOf a1) _ _ cis2);
    [|intros e cis cis'; apply csum_spec|exact H2].
  cbn [rbind]. rewrite props_spec, St_copyin, St_emit, St_write, H3. cbn [rbind].
  set (T := (_ ++ encProps (Props c)) ++ [_]).
  match goal with |- (let! w := ?b in _) = _ => assert (b = Ret (St a2 seq2 (T ++ [Word idx]))) as -> end.
  { destruct ret as [i|].
    - cbn [wargs St setSeq setArgs]. destruct (a1 !! i); [done|]. injection H4 as <- <- <-.
      match goal with |- context [setArgs ?a' (St a1 ?q T)] =>
        change (setArgs a' (St a1 q T)) with (St a' q T) end.
      by rewrite St_write.
    - injection H4 as <- <- <-. by rewrite St_write. }
  cbn [rbind]. rewrite St_write. destruct (args_spec a2 seq2 ((T ++ [Word idx]) ++ [Word (Z.of_nat (length (Args c)))])
    _ _ H5) as [-> Hlen]. cbn [rbind]. unfold writeCopyout. set (T2 := _ ++ concat (encArg <$> args)).
  rewrite <-(app_nil_r T2). change [] with (concat (encCopyout <$> []) : list token).
  pose proof (ForeachArg_embed target
    (λ '(a, seq, cos), St a seq (T2 ++ concat (encCopyout <$> cos))) h
    (λ a _ w, let! w := copyoutArg be target h a w in Ret (w, false))
    (λ x _ s, let! s := copyoutOf x s in Ret (s, false))) as Hemb.
  rewrite (Hemb ltac:(intros x ctx [[? ?] ?]; rewrite copyoutArg_spec, !bind_assoc;
    apply bind_ext; intros [[? ?] ?] _; done) c (a2, seq2, [])).
  rewrite H6. cbn [rbind]. do 2 f_equal. unfold T2, T, encCall. cbn.
  rewrite Hlen, <-!app_assoc. done.
Qed.

End callspec.

(** What is written does not depend on the bookkeeping. *)
Definition buf (w : execContext) : list Z * Z * bool := (out w, left w, eof w).

Lemma buf_emit ts w1 w2 : buf w1 = buf w2 → buf (emit ts w1) = buf (emit ts w2).
Proof.
  revert w1 w2; induction ts as [|t ts IH]; intros w1 w2 Hw; [done|]. apply IH.
  unfold buf in Hw. injection Hw as Ho Hl He.
  destruct t; simpl; unfold write, writeData, buf; rewrite Hl; case_decide; simpl; congruence.
Qed.

Lemma serializeCalls_spec cs : ∀ w a seq ecs0 ecs,
  for_list denoteStep cs (wargs w, copyoutSeq w, ecs0) = Ret (a, seq, ecs) →
  ∃ w' ecs', serializeCalls be target h cs w = Ret w' ∧ ecs = ecs0 ++ ecs' ∧ copyoutSeq w' = seq ∧
    buf w' = buf (emit (concat (encCall <$> ecs')) w).
Proof.
  induction cs as [|c cs IH]; intros w a seq ecs0 ecs H.
  { injection H as <- <- <-. exists w, []. rewrite app_nil_r. done. }
  cbn [for_list] in H. apply bind_Ret in H as ([[a1 seq1] ecs1] & H1 & H).
  unfold denoteStep in H1. apply bind_Ret in H1 as ([m u] & Hm & H1).
  apply bind_Ret in H1 as ([[a2 seq2] ec] & Hc & [= <- <- <-]).
  apply (serializeCall_spec (setCsum m u w)) in Hc.
  set (w1 := St (setCsum m u w) a2 seq2 (encCall ec)) in *.
  destruct (IH w1 a seq (ecs0 ++ [ec]) ecs H) as (w' & ecs' & Hs & -> & Hseq & Hbuf).
  exists w', (ec :: ecs'). split_and!.
  - unfold serializeCalls in *. cbn [for_list]. rewrite Hm. cbn [rbind]. by rewrite Hc.
  - by rewrite <-app_assoc.
  - done.
  - rewrite Hbuf. rewrite fmap_cons. cbn [concat]. rewrite emit_app. apply buf_emit.
    unfold w1, St. change (buf (setSeq _ (setArgs _ ?x))) with (buf x). by apply buf_emit.
Qed.

Lemma serialize_spec cs space ecs seq :
  0 ≤ space → denote cs = Ret (ecs, seq) →
  SerializeForExec be target h cs space =
    Ret (if decide (space < Z.of_nat (length (bytes be (encProg ecs))) ∨ execMaxCommands < seq)
         then None else Some (bytes be (encProg ecs))).
Proof.
  intros Hsp H. unfold denote in H. apply bind_Ret in H as ([[a seq'] ecs''] & H & [= <- <-]).
  set (w0 := MkExecCtx [] space false ∅ 0 ∅ ∅).
  destruct (serializeCalls_spec cs w0 _ _ _ _ H) as (w' & ecs' & Hs & -> & Hseq & Hbuf).
  unfold SerializeForExec. fold w0. rewrite Hs. cbn [rbind app].
  assert (buf (write be execInstrEOF w') = buf (emit (encProg ecs') w0)) as Hb.
  { unfold encProg. rewrite emit_app, emit_word, emit_nil.
    apply (buf_emit [Word execInstrEOF]). exact Hbuf. }
  assert (copyoutSeq (write be execInstrEOF w') = seq') as ->
    by (rewrite <-Hseq; apply (emit_seq [Word execInstrEOF])).
  unfold buf in Hb. injection Hb as Ho _ He. rewrite Ho, He.
  destruct (decide (space < Z.of_nat (length (bytes be (encProg ecs'))))) as [Hlt|Hge].
  - rewrite emit_overflow by (simpl; lia). by rewrite decide_True by auto.
  - rewrite emit_fits by (simpl; lia). simpl. case_bool_decide; case_decide; tauto.
Qed.

(** C3. The serialiser is exact: for a program with denotation [ecs] it writes the
    encoding of [ecs], all of it, when it fits into the buffer and uses at most
    [execMaxCommands] copyouts, and reports [ErrExecBufferTooSmall] otherwise. *)
Theorem exec_serialize_exact cs space ecs seq :
  0 ≤ space → denote cs = Ret (ecs, seq) →
  SerializeForExec be target h cs space =
    Ret (if decide (space < Z.of_nat (length (bytes be (encProg ecs))) ∨ execMaxCommands < seq)
         then None else Some (bytes be (encProg ecs))).
Proof. apply serialize_spec. Qed.

(** C1. Round trip: what the serialiser writes for a program whose fields fit the
    format decodes, in either byte order, to the denotation of the program, with
    the variables the decoder derives from its results; a program with a copyout
    that no argument reads is rejected by the check of the variable count. *)
Theorem exec_roundtrip cs space ecs seq b :
  0 ≤ space → denote cs = Ret (ecs, seq) → Forall (fitsCall (Syscalls target)) ecs →
  SerializeForExec be target h cs space = Ret (Some b) →
  DeserializeExec be (Syscalls target) b =
    Ret (if decide (Z.of_nat (length (progVars ecs)) ≠ progNumVars ecs)
         then inl "mismatching number of vars" else inr (MkExecProg ecs (progVars ecs))).
Proof.
  intros Hsp Hd Hf Hs. rewrite (serialize_spec _ _ _ _ Hsp Hd) in Hs.
  case_decide; [done|]. injection Hs as <-. by apply ExecDecode.deserialize_enc.
Qed.

End spec.

(** The denotation of the example program. *)
Definition exampleExec : list ExecCall :=
  [MkExecCall (Some ExampleTarget.sysOpen) noProps 0 [] [] [];
   MkExecCall (Some ExampleTarget.sysWrite) (MkProps 0 true 0) ExecNoCopyout
     [ExecArgResult 4 0 0 0 0 (2 ^ 64 - 1); ExecArgConst 8 0 536870912 0 0 0;
      ExecArgConst 8 0 536870976 0 0 0]
     [MkCopyin 536870912 (Some (ExecArgConst 4 0 3 0 0 0));
      MkCopyin 536870916 (Some (ExecArgData [97; 98; 99] false))] []].

Lemma exampleExec_denote :
  denote ExampleTarget.target ExampleTarget.heap0 ExampleTarget.calls = Ret (exampleExec, 1).
Proof. vm_compute. reflexivity. Qed.

Lemma exampleExec_fits : Forall (fitsCall (Syscalls ExampleTarget.target)) exampleExec.
Proof.
  apply Forall_cons; split; [|apply Forall_cons; split; [|constructor]]; split;
    try (by repeat constructor; simpl; unfold is_u, isInt64, ExecNoCopyout; lia).
  - exists ExampleTarget.sysOpen. by split_and!.
  - exists ExampleTarget.sysWrite. by split_and!.
  - cbn [ecCopyin]. apply Forall_cons; split; [|apply Forall_cons; split; [|constructor]];
      (split; [simpl; unfold is_u; lia|eexists; split; [reflexivity|simpl; unfold is_u; lia]]).
Qed.

Lemma exec_serialize_exact_witness :
  SerializeForExec false ExampleTarget.target ExampleTarget.heap0 ExampleTarget.calls 263 = Ret None ∧
  SerializeForExec false ExampleTarget.target ExampleTarget.heap0 ExampleTarget.calls 264 =
    Ret (Some (bytes false (encProg exampleExec))).
Proof.
  split.
  - rewrite (exec_serialize_exact false ExampleTarget.target ExampleTarget.heap0 ExampleTarget.calls 263
      exampleExec 1); [vm_compute; reflexivity|lia|apply exampleExec_denote].
  - rewrite (exec_serialize_exact false ExampleTarget.target ExampleTarget.heap0 ExampleTarget.calls 264
      exampleExec 1); [vm_compute; reflexivity|lia|apply exampleExec_denote].
Defined.

Lemma exec_roundtrip_witness :
  DeserializeExec true (Syscalls ExampleTarget.target) (bytes true (encProg exampleExec)) =
    Ret (inr (MkExecProg exampleExec [2 ^ 64 - 1])).
Proof.
  rewrite (exec_roundtrip true ExampleTarget.target ExampleTarget.heap0 ExampleTarget.calls 264
    exampleExec 1).
  - vm_compute. reflexivity.
  - lia.
  - apply exampleExec_denote.
  - apply exampleExec_fits.
  - vm_compute. reflexivity.
Defined.

End ExecSpec.
