(* ===== verification/PrioQueue.v ===== *)
(** * PrioQueue: the queue of pending requests (pkg/fuzzer/prio_queue.go)

    The queue is a binary heap kept by [container/heap] in a slice.  [HeapFun] models
    the two operations of that package, against the interface [WeakOrder] of the
    comparison; [PrioQueue] is the code of the fuzzer, which supplies the comparison. *)

From S2P Require Import Prelude.

(** What the heap needs of [Less]: [ge x y] ("y does not come before x") is a total
    preorder. *)
Class WeakOrder {A} (less : A → A → bool) : Prop := {
  less_asym x y : less x y = true → less y x = false;
  less_cotrans x y z : less y x = false → less z y = false → less z x = false
}.

Module HeapFun.
Section heap.
Context {A : Type} (less : A → A → bool).

Definition Less (l : list A) (i j : nat) : res bool :=
  match l !! i, l !! j with
  | Some x, Some y => Ret (less x y)
  | _, _ => Panic "index out of range"
  end.

Definition Swap (l : list A) (i j : nat) : res (list A) :=
  match l !! i, l !! j with
  | Some x, Some y => Ret (<[j := x]> (<[i := y]> l))
  | _, _ => Panic "index out of range"
  end.

(** [(j - 1) / 2] truncates towards zero: the parent of 0 is 0. *)
Definition parent (j : nat) : nat := ((j - 1) `div` 2)%nat.

Fixpoint up (fuel : nat) (l : list A) (j : nat) : res (list A) :=
  match fuel with
  | O => OutOfFuel
  | S fuel =>
    let i := parent j in
    if decide (i = j) then Ret l
    else
      let! b := Less l j i in
      if (b : bool) then let! l := Swap l i j in up fuel l i else Ret l
  end.

Fixpoint down (fuel : nat) (l : list A) (i n : nat) : res (list A) :=
  match fuel with
  | O => OutOfFuel
  | S fuel =>
    let j1 := (2 * i + 1)%nat in
    if decide (n ≤ j1)%nat then Ret l
    else
      let! j :=
        if decide (j1 + 1 < n)%nat then
          let! b := Less l (j1 + 1) j1 in Ret (if (b : bool) then (j1 + 1)%nat else j1)
        else Ret j1 in
      let! b := Less l j i in
      if (b : bool) then let! l := Swap l i j in down fuel l j n else Ret l
  end.

Definition Push (l : list A) (x : A) : res (list A) :=
  let l := l ++ [x] in up (length l) l (length l - 1).

(** The method [Pop] of the implementation removes the last element. *)
Definition popLast (l : list A) : res (A * list A) :=
  match last l with
  | Some x => Ret (x, take (length l - 1) l)
  | None => Panic "index out of range"
  end.

Definition Pop (l : list A) : res (A * list A) :=
  let n := (length l - 1)%nat in
  let! l := Swap l 0 n in
  let! l := down (length l) l 0 n in
  popLast l.

(** ** The heap property *)

Context `{!WeakOrder less}.

Definition rel (l : list A) (i j : nat) : Prop :=
  ∀ x y, l !! i = Some x → l !! j = Some y → less y x = false.

Definition isHeap (n : nat) (l : list A) : Prop :=
  ∀ k, (0 < k < n)%nat → rel l (parent k) k.

(** Heaps but for the node [j], which may be too high or too low. *)
Record upHeap (l : list A) (j : nat) : Prop := {
  uh_other : ∀ k, (0 < k)%nat → k ≠ j → rel l (parent k) k;
  uh_skip : ∀ k, (0 < k)%nat → parent k = j → (0 < j)%nat → rel l (parent j) k
}.
Record downHeap (l : list A) (i n : nat) : Prop := {
  dh_other : ∀ k, (0 < k < n)%nat → parent k ≠ i → rel l (parent k) k;
  dh_skip : ∀ k, (0 < k < n)%nat → parent k = i → (0 < i)%nat → rel l (parent i) k
}.

Lemma parent_lt k : (0 < k)%nat → (parent k < k)%nat.
Proof. unfold parent. intros. apply Nat.Div0.div_lt_upper_bound. lia. Qed.

Lemma parent_child k i : (0 < k)%nat → parent k = i ↔ k = (2 * i + 1)%nat ∨ k = (2 * i + 2)%nat.
Proof.
  unfold parent. intros. pose proof (Nat.div_mod_eq (k - 1) 2).
  pose proof (Nat.mod_upper_bound (k - 1) 2 ltac:(done)). lia.
Qed.

Lemma rel_trans l i j k : (j < length l)%nat → rel l i j → rel l j k → rel l i k.
Proof.
  intros [y Hy]%lookup_lt_is_Some_2 Hij Hjk x z Hx Hz. eapply less_cotrans; [by apply Hij|by apply Hjk].
Qed.

Lemma Less_spec l i j :
  (i < length l)%nat → (j < length l)%nat →
  ∃ b, Less l i j = Ret b ∧ (if b then rel l i j else rel l j i).
Proof.
  intros [x Hx]%lookup_lt_is_Some_2 [y Hy]%lookup_lt_is_Some_2. unfold Less. rewrite Hx, Hy.
  exists (less x y). split; [done|]. destruct (less x y) eqn:E; intros x' y' Hx' Hy'; simplify_eq; [|done].
  by apply less_asym.
Qed.

(** The transposition a swap performs on the indices. *)
Definition sw (i j k : nat) : nat := if decide (k = j) then i else if decide (k = i) then j else k.

Lemma Swap_spec l i j :
  (i < length l)%nat → (j < length l)%nat →
  ∃ l', Swap l i j = Ret l' ∧ l' ≡ₚ l ∧
    ∀ k, l' !! k = l !! sw i j k.
Proof.
  intros Hi Hj. destruct (lookup_lt_is_Some_2 _ _ Hi) as [x Hx], (lookup_lt_is_Some_2 _ _ Hj) as [y Hy].
  unfold Swap. rewrite Hx, Hy. eexists. split; [done|]. split.
  - by apply Permutation_insert_swap.
  - intros k. unfold sw. rewrite !list_lookup_insert, length_insert.
    repeat case_decide; subst; naive_solver lia.
Qed.

Lemma rel_sw l l' i j a b :
  (∀ k, l' !! k = l !! sw i j k) → rel l' a b ↔ rel l (sw i j a) (sw i j b).
Proof. intros Hk. unfold rel. by rewrite !Hk. Qed.

Lemma sw_l i j : sw i j i = j.
Proof. unfold sw. repeat case_decide; congruence. Qed.
Lemma sw_r i j : sw i j j = i.
Proof. unfold sw. by rewrite decide_True. Qed.
Lemma sw_ne i j k : k ≠ i → k ≠ j → sw i j k = k.
Proof. intros. unfold sw. by rewrite !decide_False. Qed.

(** ** Moving a node up and down *)

Lemma upHeap_swap l l' j :
  (0 < j < length l)%nat → upHeap l j → rel l j (parent j) →
  (∀ k, l' !! k = l !! sw (parent j) j k) → upHeap l' (parent j).
Proof.
  intros Hj [Hoth Hskip] Hr Hsw. pose proof (parent_lt j) as Hlt. split.
  - intros k Hk Hne. apply (rel_sw _ _ _ _ _ _ Hsw). pose proof (parent_lt k Hk). destruct (decide (k = j)) as [->|Hkj].
    { by rewrite sw_l, sw_r. }
    rewrite (sw_ne _ _ k) by done. destruct (decide (parent k = j)) as [Hpj|Hpj].
    { rewrite Hpj, sw_r. apply Hskip; [done|done|lia]. }
    destruct (decide (parent k = parent j)) as [Hpp|Hpp]; [|rewrite sw_ne by done; by apply Hoth].
    rewrite Hpp, sw_l. apply (rel_trans _ _ (parent j)); [lia|done|]. rewrite <-Hpp. by apply Hoth.
  - intros k Hk Hpk Hi. apply (rel_sw _ _ _ _ _ _ Hsw). pose proof (parent_lt (parent j) Hi).
    rewrite (sw_ne _ _ (parent (parent j))) by lia. destruct (decide (k = j)) as [->|Hkj].
    { rewrite sw_r. apply Hoth; lia. }
    pose proof (parent_lt k Hk). rewrite sw_ne by lia.
    apply (rel_trans _ _ (parent j)); [lia|apply Hoth; lia|]. rewrite <-Hpk. by apply Hoth.
Qed.

Lemma up_spec fuel : ∀ l j,
  (j < fuel)%nat → (j < length l)%nat → upHeap l j →
  ∃ l', up fuel l j = Ret l' ∧ l' ≡ₚ l ∧ isHeap (length l) l'.
Proof.
  induction fuel as [|fuel IH]; intros l j Hf Hj Hup; [lia|]. cbn [up]. case_decide as Hp.
  { exists l. split; [done|]. split; [done|]. intros k Hk. apply (uh_other _ _ Hup); [lia|].
    intros ->. pose proof (parent_lt j). lia. }
  assert (0 < j)%nat as Hj0 by (destruct j; [done|lia]). pose proof (parent_lt j Hj0) as Hlt.
  destruct (Less_spec l j (parent j)) as (b & -> & Hb); [lia..|]. cbn [rbind]. destruct b.
  2: { exists l. split; [done|]. split; [done|]. intros k Hk.
       destruct (decide (k = j)) as [->|]; [done|]. apply (uh_other _ _ Hup); [lia|done]. }
  destruct (Swap_spec l (parent j) j) as (l1 & -> & Hperm & Hsw); [lia..|]. cbn [rbind].
  assert (length l1 = length l) as Hlen by (by rewrite Hperm).
  destruct (IH l1 (parent j)) as (l' & -> & Hp' & Hh); [lia|lia|by eapply upHeap_swap|].
  exists l'. split; [done|]. split; [by rewrite Hp'|by rewrite <-Hlen].
Qed.

Lemma downHeap_swap l l' i j n :
  (j < n ≤ length l)%nat → (0 < j)%nat → parent j = i → downHeap l i n → rel l j i →
  (∀ k, (0 < k < n)%nat → parent k = i → rel l j k) →
  (∀ k, l' !! k = l !! sw i j k) → downHeap l' j n.
Proof.
  intros Hj Hj0 Hp [Hoth Hskip] Hr Hbest Hsw. pose proof (parent_lt j Hj0) as Hlt. split.
  - intros k Hk Hne. apply (rel_sw _ _ _ _ _ _ Hsw). pose proof (parent_lt k). destruct (decide (k = j)) as [->|Hkj].
    { by rewrite Hp, sw_l, sw_r. }
    destruct (decide (parent k = i)) as [Hpi|Hpi].
    { rewrite Hpi, sw_l, sw_ne by lia. by apply Hbest. }
    rewrite (sw_ne _ _ (parent k)) by done. destruct (decide (k = i)) as [->|Hki].
    { rewrite sw_l. apply Hskip; [lia|done|lia]. }
    rewrite sw_ne by done. by apply Hoth.
  - intros k Hk Hpk _. apply (rel_sw _ _ _ _ _ _ Hsw). pose proof (parent_lt k).
    rewrite Hp, sw_l, sw_ne by lia. rewrite <-Hpk. apply Hoth; lia.
Qed.

Lemma rel_refl l i : rel l i i.
Proof.
  intros x y Hx Hy. assert (y = x) as -> by congruence.
  destruct (less x x) eqn:E; [|done]. by rewrite <-(less_asym x x).
Qed.

Lemma bestChild l i n :
  (n ≤ length l)%nat → (2 * i + 1 < n)%nat →
  ∃ j, (if decide (2 * i + 1 + 1 < n)%nat then
          let! b := Less l (2 * i + 1 + 1) (2 * i + 1) in
          Ret (if (b : bool) then (2 * i + 1 + 1)%nat else (2 * i + 1)%nat)
        else Ret (2 * i + 1)%nat) = Ret j ∧
    (i < j < n)%nat ∧ parent j = i ∧ ∀ k, (0 < k < n)%nat → parent k = i → rel l j k.
Proof.
  intros Hn Hj. case_decide as Hj2.
  - destruct (Less_spec l (2 * i + 1 + 1) (2 * i + 1)) as (b & -> & Hb); [lia..|]. cbn [rbind].
    eexists. split; [done|]. split; [destruct b; lia|].
    split; [apply parent_child; destruct b; lia|].
    intros k Hk Hp. apply parent_child in Hp; [|lia]. 
    replace (2 * i + 2)%nat with (2 * i + 1 + 1)%nat in Hp by lia.
    destruct b, Hp as [->| ->]; done || apply rel_refl.
  - exists (2 * i + 1)%nat. split; [done|]. split; [lia|]. split; [apply parent_child; lia|].
    intros k Hk Hp. apply parent_child in Hp; [|lia]. destruct Hp as [->| ->]; [apply rel_refl|lia].
Qed.

Lemma down_spec fuel : ∀ l i n,
  (n ≤ fuel + i)%nat → (0 < fuel)%nat → (n ≤ length l)%nat → downHeap l i n →
  ∃ l', down fuel l i n = Ret l' ∧ isHeap n l' ∧ l' ≡ₚ l ∧ ∀ k, (n ≤ k)%nat → l' !! k = l !! k.
Proof.
  induction fuel as [|fuel IH]; intros l i n Hf Hf0 Hn Hdown; [lia|]. cbn [down]. case_decide as Hj1.
  { exists l. split; [done|]. split; [|done]. intros k Hk. apply (dh_other _ _ _ Hdown); [lia|].
    intros Hp. apply parent_child in Hp; lia. }
  destruct (bestChild l i n) as (j & -> & Hj & Hp & Hbest); [lia..|]. cbn [rbind].
  destruct (Less_spec l j i) as (b & -> & Hb); [lia..|]. cbn [rbind]. destruct b.
  - destruct (Swap_spec l i j) as (l1 & -> & Hperm & Hsw); [lia..|]. cbn [rbind].
    assert (length l1 = length l) as Hlen by (by rewrite Hperm).
    destruct (IH l1 j n) as (l' & -> & Hh & Hp' & Hk); [lia..|by eapply downHeap_swap; eauto with lia|].
    exists l'. split; [done|]. split; [done|]. split; [by rewrite Hp'|].
    intros k Hnk. rewrite Hk, Hsw, sw_ne by lia. done.
  - exists l. split; [done|]. split; [|done]. intros k Hk.
    destruct (decide (parent k = i)) as [Hpk|]; [|by apply (dh_other _ _ _ Hdown)].
    rewrite Hpk. apply (rel_trans _ _ j); [lia|done|by apply Hbest].
Qed.

(** The root of a heap comes before every other element. *)
Lemma heap_root n l : (n ≤ length l)%nat → isHeap n l → ∀ k, (k < n)%nat → rel l 0 k.
Proof.
  intros Hn Hh k. induction (lt_wf k) as [k _ IH]. intros Hk.
  destruct (decide (k = 0)%nat) as [->|]; [apply rel_refl|].
  pose proof (parent_lt k). apply (rel_trans _ _ (parent k)); [lia|apply IH; lia|apply Hh; lia].
Qed.

(** ** The operations *)

Lemma Push_spec l x :
  isHeap (length l) l → ∃ l', Push l x = Ret l' ∧ isHeap (length l') l' ∧ l' ≡ₚ x :: l.
Proof.
  intros Hh. unfold Push. destruct (up_spec (length (l ++ [x])) (l ++ [x]) (length (l ++ [x]) - 1))
    as (l' & -> & Hp & Hh'); [rewrite length_app; simpl; lia..| |].
  - replace (length (l ++ [x]) - 1)%nat with (length l) by (rewrite length_app; simpl; lia). split.
    + intros k Hk Hne y z Hy Hz. pose proof (parent_lt k Hk).
      assert (k < length l)%nat by (apply lookup_lt_Some in Hz; rewrite length_app in Hz; simpl in Hz; lia).
      rewrite lookup_app_l in Hy, Hz by lia. by apply (Hh k).
    + intros k Hk Hp _ y z _ Hz. pose proof (parent_lt k Hk). apply lookup_lt_Some in Hz.
      rewrite length_app in Hz. simpl in Hz. lia.
  - exists l'. split; [done|]. split; [by rewrite (Permutation_length Hp)|].
    rewrite Hp. by rewrite Permutation_app_comm.
Qed.

Lemma Pop_spec l :
  l ≠ [] → isHeap (length l) l →
  ∃ x l', Pop l = Ret (x, l') ∧ isHeap (length l') l' ∧ l ≡ₚ x :: l' ∧ ∀ y, y ∈ l → less y x = false.
Proof.
  intros Hne Hh. assert (0 < length l)%nat as Hl0 by (destruct l; simpl; [done|lia]).
  unfold Pop. set (n := (length l - 1)%nat).
  destruct (Swap_spec l 0 n) as (l1 & -> & Hp1 & Hsw); [unfold n; lia..|]. cbn [rbind].
  assert (length l1 = length l) as Hl1 by (by rewrite Hp1).
  destruct (down_spec (length l1) l1 0 n) as (l2 & -> & Hh2 & Hp2 & Hk2); [unfold n; lia..| |].
  { split; [|lia]. intros k Hk Hp. pose proof (parent_lt k). apply (rel_sw _ _ _ _ _ _ Hsw).
    rewrite !sw_ne by lia. apply Hh. unfold n in *. lia. }
  cbn [rbind]. destruct (lookup_lt_is_Some_2 l 0 Hl0) as [x Hx].
  assert (l2 !! n = Some x) as Hx2 by (by rewrite Hk2, Hsw, sw_r).
  assert (length l2 = length l) as Hl2 by (by rewrite Hp2).
  assert (l2 = take n l2 ++ [x]) as Happ.
  { rewrite <-(take_drop_middle _ _ _ Hx2) at 1. rewrite drop_ge by (unfold n; lia). done. }
  unfold popLast. rewrite Happ, last_snoc. rewrite length_app. cbn [length].
  replace (length (take n l2) + 1 - 1)%nat with (length (take n l2)) by lia. rewrite take_app_length.
  exists x, (take n l2). split; [done|].
  assert (length (take n l2) = n) as Hlt by (rewrite length_take; unfold n; lia). split_and!.
  - rewrite Hlt. intros k Hk a b Ha Hb. pose proof (parent_lt k).
    rewrite lookup_take_lt in Ha, Hb by lia. by apply (Hh2 k).
  - rewrite <-Hp1, <-Hp2, Happ at 1. by rewrite Permutation_app_comm.
  - intros y Hy. apply list_elem_of_lookup in Hy as [k Hk].
    apply (heap_root (length l) l (Nat.le_refl _) Hh k); [by apply lookup_lt_Some in Hk|done|done].
Qed.

End heap.
End HeapFun.

Module PrioQueue.
Import HeapFun.

(** [priority]: a list of numbers, compared from the first one on. *)
Fixpoint greaterThan (p other : list Z) : bool :=
  match p, other with
  | [], _ => false
  | _ :: _, [] => true
  | x :: p, y :: other =>
    if decide (x > y) then true else if decide (x < y) then false else greaterThan p other
  end.

Lemma greaterThan_asym p q : greaterThan p q = true → greaterThan q p = false.
Proof.
  revert q. induction p as [|x p IH]; intros [|y q]; simpl; try done.
  repeat case_decide; try done || lia. apply IH.
Qed.

Lemma greaterThan_cotrans p q r :
  greaterThan q p = false → greaterThan r q = false → greaterThan r p = false.
Proof.
  revert q r. induction p as [|x p IH]; intros [|y q] [|z r]; simpl; try done.
  repeat case_decide; try done || lia. apply IH.
Qed.

(** Of two different priorities one is greater. *)
Lemma greaterThan_total p q : p ≠ q → greaterThan p q = true ∨ greaterThan q p = true.
Proof.
  revert q. induction p as [|x p IH]; intros [|y q] Hne; simpl; auto; try done.
  repeat case_decide; auto; try lia. apply IH. assert (x = y) by lia. congruence.
Qed.

Section queue.
Context {T : Type}.

Record priorityQueueItem := MkItem { value : T; prio : list Z }.

Definition lessItem (x y : priorityQueueItem) : bool := greaterThan (prio x) (prio y).

#[export] Instance lessItem_order : WeakOrder lessItem.
Proof. split; intros ??*; [apply greaterThan_asym|apply greaterThan_cotrans]. Qed.

Notation queue := (list priorityQueueItem) (only parsing).

Definition makePriorityQueue : queue := [].
Definition Len (q : queue) : Z := Z.of_nat (length q).
Definition push (q : queue) (item : priorityQueueItem) : res queue := Push lessItem q item.
Definition tryPop (q : queue) : res (option priorityQueueItem * queue) :=
  match q with
  | [] => Ret (None, q)
  | _ => let! '(x, q) := Pop lessItem q in Ret (Some x, q)
  end.
(** One pass of [pop] with the lock held: [None] when the caller goes to sleep. *)
Definition pop (q : queue) : res (option (priorityQueueItem * queue)) :=
  match q with
  | [] => Ret None
  | _ => let! '(x, q) := Pop lessItem q in Ret (Some (x, q))
  end.

(** The queues the operations can produce. *)
Inductive reachable : queue → Prop :=
| reach_make : reachable makePriorityQueue
| reach_push q x q' : reachable q → push q x = Ret q' → reachable q'
| reach_pop q x q' : reachable q → pop q = Ret (Some (x, q')) → reachable q'
| reach_tryPop q x q' : reachable q → tryPop q = Ret (x, q') → reachable q'.

Lemma pop_tryPop q : tryPop q = (let! r := pop q in
  match r with Some (x, q') => Ret (Some x, q') | None => Ret (None, q) end).
Proof. destruct q; [done|]. simpl. by destruct (Pop _ _) as [[]| |]. Qed.

Lemma pop_spec q :
  q ≠ [] → isHeap lessItem (length q) q →
  ∃ x q', pop q = Ret (Some (x, q')) ∧ isHeap lessItem (length q') q' ∧ q ≡ₚ x :: q' ∧
    ∀ y, y ∈ q → greaterThan (prio y) (prio x) = false.
Proof.
  intros Hne Hh. destruct (Pop_spec lessItem q Hne Hh) as (x & q' & Hp & ? & ? & ?).
  exists x, q'. split; [|done]. unfold pop. destruct q; [done|]. by rewrite Hp.
Qed.

Lemma reachable_heap q : reachable q → isHeap lessItem (length q) q.
Proof.
  induction 1 as [|q x q' _ Hh Hp|q x q' _ Hh Hp|q x q' _ Hh Hp].
  - intros k Hk. simpl in Hk. lia.
  - destruct (Push_spec lessItem q x Hh) as (? & Heq & ? & _). unfold push in Hp. rewrite Heq in Hp. by simplify_eq.
  - destruct (decide (q = [])) as [->|Hne]; [done|].
    destruct (pop_spec q Hne Hh) as (? & ? & Heq & ? & _). rewrite Heq in Hp. by simplify_eq.
  - rewrite pop_tryPop in Hp. destruct (decide (q = [])) as [->|Hne]; [by simplify_eq/=|].
    destruct (pop_spec q Hne Hh) as (? & ? & Heq & ? & _). rewrite Heq in Hp. by simplify_eq/=.
Qed.

(** C30. The queue is a priority queue: in every state its operations can reach, pushing
    adds the item, and popping never panics, answers "empty" only when it is, and
    otherwise removes an item such that no item of the queue has a greater priority;
    [tryPop] agrees with [pop]. *)
Theorem queue_refines_multiset q :
  reachable q →
  (∀ x, ∃ q', push q x = Ret q' ∧ q' ≡ₚ x :: q) ∧
  (q = [] → pop q = Ret None ∧ tryPop q = Ret (None, q)) ∧
  (q ≠ [] → ∃ x q', pop q = Ret (Some (x, q')) ∧ tryPop q = Ret (Some x, q') ∧ q ≡ₚ x :: q' ∧
     ∀ y, y ∈ q → greaterThan (prio y) (prio x) = false).
Proof.
  intros Hh%reachable_heap. split; [|split].
  - intros x. destruct (Push_spec lessItem q x Hh) as (q' & ? & _ & ?). eauto.
  - by intros ->.
  - intros Hne. destruct (pop_spec q Hne Hh) as (x & q' & Hp & _ & ? & ?). exists x, q'.
    split; [done|]. split; [by rewrite pop_tryPop, Hp|done].
Qed.


End queue.

Lemma queue_refines_multiset_witness :
  ∃ q x q', reachable q ∧ pop q = Ret (Some (x, q')) ∧ value x = 3 ∧
    ∀ y, y ∈ q → greaterThan (prio y) (prio x) = false.
Proof.
  destruct (queue_refines_multiset [MkItem 3 [3]; MkItem 1 [1; 5]; MkItem 2 [1]]) as (_ & _ & Hpop).
  - eapply reach_push with (x := MkItem 2 [1]) (q := [MkItem 3 [3]; MkItem 1 [1; 5]]); [|reflexivity].
    eapply reach_push with (x := MkItem 3 [3]) (q := [MkItem 1 [1; 5]]); [|reflexivity].
    eapply reach_push with (x := MkItem 1 [1; 5]) (q := []); [|reflexivity]. constructor.
  - destruct Hpop as (x & q' & Hp & _ & Hperm & Hmax); [discriminate|].
    eexists _, x, q'. split; [|split; [exact Hp|split; [|exact Hmax]]].
    + eapply reach_push with (x := MkItem 2 [1]) (q := [MkItem 3 [3]; MkItem 1 [1; 5]]); [|reflexivity].
      eapply reach_push with (x := MkItem 3 [3]) (q := [MkItem 1 [1; 5]]); [|reflexivity].
      eapply reach_push with (x := MkItem 1 [1; 5]) (q := []); [|reflexivity]. constructor.
    + vm_compute in Hp. by injection Hp as <- <-.
Defined.

End PrioQueue.
