(* ===== verification/Gate.v ===== *)
(** * Gate: the concurrency gate of the executors (pkg/ipc/gate.go)

    [Enter] and [Leave] hold the lock of a condition variable except while they wait
    on it.  Each stretch of code between two releases of the lock is one definition;
    the threads that use the gate are interleaved by [run], which also keeps the set
    of threads that sleep on the condition variable. *)

From S2P Require Import Prelude.

Module Gate.

Record Gate := MkGate { busy : list bool; pos : nat; running : Z; stop : bool }.

Definition NewGate (c : nat) : Gate := MkGate (replicate c false) 0 0 false.

Definition at_ (l : list bool) (i : nat) : res bool := index l (Z.of_nat i).

(** The body of [Enter] once the lock is held: [None] when it waits, otherwise the
    index it returns. *)
Definition Enter (g : Gate) : res (option (nat * Gate)) :=
  let! b := at_ (busy g) (pos g) in
  if b || stop g then Ret None
  else
    let idx := pos g in
    let pos' := if decide (length (busy g) ≤ pos g + 1)%nat then 0%nat else (pos g + 1)%nat in
    let running' := running g + 1 in
    if decide (Z.of_nat (length (busy g)) < running') then Panic "broken gate"
    else Ret (Some (idx, MkGate (<[idx := true]> (busy g)) pos' running' (stop g))).

(** [Leave] up to the loop that waits for the others; the second component tells
    whether that loop is entered. *)
Definition leaveStart (hasF : bool) (g : Gate) (idx : nat) : res (Gate * bool) :=
  let! b := at_ (busy g) idx in
  if negb b then Panic "broken gate"
  else
    let running' := running g - 1 in
    if decide (running' < 0) then Panic "broken gate"
    else if bool_decide (idx = 0%nat) && hasF then
      if stop g then Panic "broken gate"
      else Ret (MkGate (<[idx := false]> (busy g)) (pos g) running' true, true)
    else Ret (MkGate (<[idx := false]> (busy g)) (pos g) running' (stop g), false).

(** The loop of [Leave]: [None] when it waits; otherwise [stop] is reset and [f] is
    called before the broadcast. *)
Definition leaveDrain (g : Gate) : option Gate :=
  if decide (running g = 0) then Some (MkGate (busy g) (pos g) (running g) false) else None.

(** The condition of the last broadcast of [Leave]. *)
Definition notify (g : Gate) (idx : nat) : bool :=
  bool_decide (idx = pos g) && negb (stop g) || bool_decide (running g = 0) && stop g.

(** ** Threads *)

(** [Entering] and [Draining] are about to run with the lock held, [EnterWait] and
    [DrainWait] sleep on the condition variable.  A thread inside remembers the index
    [Enter] returned and how many had entered before it. *)
Inductive tstate :=
| Outside
| Entering
| EnterWait
| Inside (idx ticket : nat)
| Draining (idx : nat)
| DrainWait (idx : nat).

#[global] Instance tstate_eq_dec : EqDecision tstate.
Proof. solve_decision. Defined.

Record config := MkConfig { gate : Gate; threads : gmap nat tstate; entered : nat }.

(** [Broadcast] *)
Definition wake (s : tstate) : tstate :=
  match s with EnterWait => Entering | DrainWait idx => Draining idx | s => s end.
Definition broadcast (b : bool) (ts : gmap nat tstate) : gmap nat tstate :=
  if b then wake <$> ts else ts.

Section run.
Context (hasF : bool).

(** One step of a thread; [None] when it sleeps or does not exist, and the flag tells
    whether the callback [f] is called. *)
Definition run (cf : config) (tid : nat) : res (option (config * bool)) :=
  let ts := threads cf in
  match ts !! tid with
  | None | Some EnterWait | Some (DrainWait _) => Ret None
  | Some Outside => Ret (Some (MkConfig (gate cf) (<[tid := Entering]> ts) (entered cf), false))
  | Some Entering =>
    let! r := Enter (gate cf) in
    match r with
    | None => Ret (Some (MkConfig (gate cf) (<[tid := EnterWait]> ts) (entered cf), false))
    | Some (idx, g) =>
      Ret (Some (MkConfig g (<[tid := Inside idx (entered cf)]> ts) (S (entered cf)), false))
    end
  | Some (Inside idx _) =>
    let! '(g, drain) := leaveStart hasF (gate cf) idx in
    if (drain : bool) then Ret (Some (MkConfig g (<[tid := Draining idx]> ts) (entered cf), false))
    else Ret (Some (MkConfig g (broadcast (notify g idx) (<[tid := Outside]> ts)) (entered cf), false))
  | Some (Draining idx) =>
    match leaveDrain (gate cf) with
    | None => Ret (Some (MkConfig (gate cf) (<[tid := DrainWait idx]> ts) (entered cf), false))
    | Some g =>
      Ret (Some (MkConfig g
        (broadcast (notify g idx) (broadcast true (<[tid := Outside]> ts))) (entered cf), true))
    end
  end.

(** What happens from a new gate for [c] activities. *)
Inductive reachable (c : nat) : config → Prop :=
| reach_new ts : map_Forall (λ _ s, s = Outside) ts → reachable c (MkConfig (NewGate c) ts 0)
| reach_run cf tid cf' f : reachable c cf → run cf tid = Ret (Some (cf', f)) → reachable c cf'.

(** ** Invariant *)

Definition count (l : list bool) : Z := Z.of_nat (length (filter (λ b, b = true) l)).

Definition drains (s : tstate) : Prop := ∃ i, s = Draining i ∨ s = DrainWait i.

Record core (c : nat) (cf : config) : Prop := {
  i_len : length (busy (gate cf)) = c;
  i_pos : pos (gate cf) = (entered cf `mod` c)%nat;
  i_running : running (gate cf) = count (busy (gate cf));
  i_busy : ∀ i, busy (gate cf) !! i = Some true ↔ (∃ tid t, threads cf !! tid = Some (Inside i t));
  i_ticket : ∀ tid i t, threads cf !! tid = Some (Inside i t) →
    i = (t `mod` c)%nat ∧ (t < entered cf ≤ t + c)%nat;
  i_unique : ∀ tid tid' i t t', threads cf !! tid = Some (Inside i t) →
    threads cf !! tid' = Some (Inside i t') → tid = tid';
  i_stop : stop (gate cf) = true ↔ ∃ tid s, threads cf !! tid = Some s ∧ drains s;
  i_drain : ∀ tid tid' s s', threads cf !! tid = Some s → threads cf !! tid' = Some s' →
    drains s → drains s' → tid = tid';
  i_zero : ∀ tid i, threads cf !! tid = Some (Draining i) ∨ threads cf !! tid = Some (DrainWait i) →
    i = 0%nat ∧ busy (gate cf) !! 0%nat = Some false
}.

(** Nobody sleeps through the event it waits for. *)
Record awake (cf : config) : Prop := {
  i_enterWait : ∀ tid, threads cf !! tid = Some EnterWait →
    busy (gate cf) !! pos (gate cf) = Some true ∨ stop (gate cf) = true;
  i_drainWait : ∀ tid i, threads cf !! tid = Some (DrainWait i) → running (gate cf) ≠ 0
}.

Lemma count_insert (l : list bool) (i : nat) (b b' : bool) :
  l !! i = Some b → count (<[i := b']> l) = count l - (if b then 1 else 0) + (if b' then 1 else 0).
Proof.
  intros Hi. apply lookup_lt_Some in Hi as Hlt. unfold count.
  rewrite insert_take_drop by done. rewrite <-(take_drop_middle l i b Hi) at 3.
  rewrite !filter_app, !filter_cons, !length_app. destruct b, b'; simpl; repeat case_decide; simpl; lia || done.
Qed.

Lemma count_bound l : 0 ≤ count l ≤ Z.of_nat (length l).
Proof. unfold count. pose proof (length_filter (λ b : bool, b = true) l). lia. Qed.

Lemma count_pos l i : l !! i = Some true → 0 < count l.
Proof.
  intros Hi. unfold count. apply list_elem_of_lookup_2 in Hi.
  assert (true ∈ filter (λ b, b = true) l) as Hf by (apply list_elem_of_filter; done).
  destruct (filter _ l); [by apply elem_of_nil in Hf|simpl; lia].
Qed.

Lemma count_zero l : count l = 0 → ∀ i, l !! i ≠ Some true.
Proof. intros H i Hi. apply count_pos in Hi. lia. Qed.

Lemma at_lookup l i b : l !! i = Some b → at_ l i = Ret b.
Proof. apply index_lookup. Qed.

(** Waking threads up keeps the invariant, and afterwards nobody sleeps. *)
Lemma core_wake c g ts e : core c (MkConfig g ts e) → core c (MkConfig g (wake <$> ts) e).
Proof.
  intros [? ? ? Hb Ht Hu Hs Hd Hz]; simpl in *.
  assert (∀ tid i t, (wake <$> ts) !! tid = Some (Inside i t) ↔ ts !! tid = Some (Inside i t)) as Hin.
  { intros tid i t. rewrite lookup_fmap_Some. split; [intros ([] & ? & ?); naive_solver|].
    intros ?. by exists (Inside i t). }
  assert (∀ tid s, (wake <$> ts) !! tid = Some s → drains s → ∃ s', ts !! tid = Some s' ∧ drains s') as Hdr.
  { intros tid s (s' & <- & Hs')%lookup_fmap_Some Hdr. exists s'. split; [done|].
    destruct s', Hdr as (? & [?|?]); simplify_eq/=; eexists; eauto. }
  split; simpl; try done.
  - intros i. rewrite Hb. by setoid_rewrite Hin.
  - intros tid i t. rewrite Hin. apply Ht.
  - intros tid tid' i t t'. rewrite !Hin. apply Hu.
  - rewrite Hs. split; [|intros (tid & s & Hl & H); destruct (Hdr _ _ Hl H) as (s' & ? & ?); eauto].
    intros (tid & s & Hl & (i & H)). exists tid, (wake s). rewrite lookup_fmap, Hl. split; [done|].
    exists i. destruct H as [-> | ->]; simpl; auto.
  - intros tid tid' s s' Hl Hl' H H'. destruct (Hdr _ _ Hl H) as (? & ? & ?), (Hdr _ _ Hl' H') as (? & ? & ?).
    by eapply Hd.
  - intros tid i [H|H]; apply lookup_fmap_Some in H as ([] & ? & ?); simplify_eq/=; eapply Hz; eauto.
Qed.

Lemma awake_wake g ts e : awake (MkConfig g (wake <$> ts) e).
Proof. split; simpl; intros *; intros ([] & ? & ?)%lookup_fmap_Some; done. Qed.

(** Waking up is only needed when the gate is not [awake] already. *)
Lemma inv_broadcast c g ts e b :
  core c (MkConfig g ts e) → (b = false → awake (MkConfig g ts e)) →
  core c (MkConfig g (broadcast b ts) e) ∧ awake (MkConfig g (broadcast b ts) e).
Proof.
  intros Hc Ha. destruct b; simpl; [|by auto]. split; [by apply core_wake|apply awake_wake].
Qed.

(** States of a thread that has nothing to do with the gate's contents. *)
Definition neutral (s : tstate) : Prop := s = Outside ∨ s = Entering ∨ s = EnterWait.

Lemma core_neutral c g ts e tid s s' :
  neutral s → neutral s' → ts !! tid = Some s → core c (MkConfig g ts e) →
  core c (MkConfig g (<[tid := s']> ts) e).
Proof.
  intros Hn Hn' Htid [? ? ? Hb Ht Hu Hs Hd Hz]; simpl in *.
  assert (∀ x tid', ¬ neutral x → (<[tid := s']> ts) !! tid' = Some x ↔ ts !! tid' = Some x) as Hl.
  { intros x tid' Hx. rewrite lookup_insert_Some. naive_solver. }
  assert (∀ i t, ¬ neutral (Inside i t)) as Hin by (intros ?? [?|[?|?]]; done).
  assert (∀ x, drains x → ¬ neutral x) as Hdr by (intros ? (? & [->| ->]) [?|[?|?]]; done).
  split; simpl; try done.
  - intros i. rewrite Hb. split; intros (tid' & t & H); exists tid', t; by apply Hl in H || apply Hl.
  - intros tid' i t H%Hl; [|done]. by eapply Ht.
  - intros tid1 tid2 i t t' H1%Hl H2%Hl; [|done..]. by eapply Hu.
  - rewrite Hs. split; intros (tid' & x & H & Hx); exists tid', x; (split; [|done]);
      [apply Hl; auto|apply Hl in H; auto].
  - intros tid1 tid2 x y H1 H2 Hx Hy. apply Hl in H1, H2; [|by auto..]. by eapply Hd.
  - intros tid' i H. eapply (Hz tid'). destruct H as [H|H]; [left|right]; (apply Hl in H; [done|]);
      apply Hdr; eexists; eauto.
Qed.

Lemma mod_S e c :
  (0 < c)%nat →
  (S e `mod` c)%nat = if decide (c ≤ e `mod` c + 1)%nat then 0%nat else (e `mod` c + 1)%nat.
Proof.
  intros Hc. pose proof (Nat.div_mod_eq e c) as He. pose proof (Nat.mod_upper_bound e c ltac:(lia)).
  symmetry. case_decide.
  - apply (Nat.mod_unique _ _ (S (e / c))); [lia|]. nia.
  - apply (Nat.mod_unique _ _ (e / c)); lia.
Qed.

Lemma core_enter c cf tid :
  (0 < c)%nat → core c cf → threads cf !! tid = Some Entering →
  busy (gate cf) !! pos (gate cf) = Some false → stop (gate cf) = false →
  ∃ g, Enter (gate cf) = Ret (Some (pos (gate cf), g)) ∧ stop g = false ∧
    core c (MkConfig g (<[tid := Inside (pos (gate cf)) (entered cf)]> (threads cf)) (S (entered cf))).
Proof.
  intros Hc [Hlen Hpos Hrun Hb Ht Hu Hs Hd Hz] Htid Hfree Hst.
  unfold Enter. rewrite (at_lookup _ _ _ Hfree), Hst. cbn [rbind orb].
  pose proof (count_insert _ _ _ true Hfree) as Hci. cbn iota in Hci.
  pose proof (count_bound (<[pos (gate cf) := true]> (busy (gate cf)))) as Hcb.
  rewrite length_insert in Hcb. rewrite decide_False by lia. eexists. split; [done|]. split; [done|].
  assert (∀ tid' i t, <[tid := Inside (pos (gate cf)) (entered cf)]> (threads cf) !! tid' = Some (Inside i t) →
    tid' = tid ∧ i = pos (gate cf) ∧ t = entered cf ∨
    tid' ≠ tid ∧ i ≠ pos (gate cf) ∧ threads cf !! tid' = Some (Inside i t)) as Hin.
  { intros tid' i t [[-> [= -> ->]]|[Hne H]]%lookup_insert_Some; [by auto|]. right.
    split; [done|]. split; [|done]. intros ->. assert (busy (gate cf) !! pos (gate cf) = Some true); [|congruence].
    apply Hb. eauto. }
  assert (∀ tid' s, drains s →
    <[tid := Inside (pos (gate cf)) (entered cf)]> (threads cf) !! tid' = Some s → threads cf !! tid' = Some s)
    as Hdr.
  { intros tid' s (? & [-> | ->]) [[_ ?]|[_ ?]]%lookup_insert_Some; done. }
  split; cbn [gate busy pos running stop threads entered].
  - by rewrite length_insert.
  - rewrite mod_S by done. by rewrite Hlen, Hpos.
  - lia.
  - intros i. rewrite list_lookup_insert_Some. split.
    + intros [(<- & _ & _)|[Hne H]]; [exists tid, (entered cf); by rewrite lookup_insert_eq|].
      apply Hb in H as (tid' & t & H). exists tid', t. rewrite lookup_insert_ne; [done|]. intros ->. congruence.
    + intros (tid' & t & H). apply Hin in H as [(-> & -> & ->)|(_ & Hi & H)].
      * left. apply lookup_lt_Some in Hfree. done.
      * right. split; [done|]. apply Hb. eauto.
  - intros tid' i t [(-> & -> & ->)|(_ & Hi & H)]%Hin; [split; [done|lia]|].
    destruct (Ht _ _ _ H) as [-> Hw]. split; [done|]. rewrite Hpos in Hi.
    assert (entered cf ≠ (t + c)%nat); [|lia]. intros He. apply Hi. rewrite He.
    by rewrite <-Nat.Div0.add_mod_idemp_r, Nat.Div0.mod_same, Nat.add_0_r.
  - intros tid1 tid2 i t t' [(-> & -> & ->)|(? & ? & H1)]%Hin [(-> & ? & ->)|(? & ? & H2)]%Hin; try done.
    by eapply Hu.
  - split; [done|]. intros (tid' & s & H & Hx). apply Hdr in H; [|done]. rewrite <-Hst. apply Hs. eauto.
  - intros tid1 tid2 s s' H1 H2 Hx Hy. apply Hdr in H1, H2; [|done..]. by eapply Hd.
  - intros tid' i H. exfalso. assert (stop (gate cf) = true); [|congruence]. apply Hs.
    destruct H as [H|H]; (apply Hdr in H; [|eexists; eauto]); eexists _, _; (split; [done|eexists; eauto]).
Qed.

(** A thread gives its index back; [s'] and [st] are its next state and the new value of
    [stop]. *)
Lemma core_leave c g ts e tid i t s' st :
  core c (MkConfig g ts e) → ts !! tid = Some (Inside i t) →
  s' = Outside ∧ st = stop g ∨ s' = Draining 0 ∧ i = 0%nat ∧ stop g = false ∧ st = true →
  core c (MkConfig (MkGate (<[i := false]> (busy g)) (pos g) (running g - 1) st) (<[tid := s']> ts) e).
Proof.
  intros [Hlen Hpos Hrun Hb Ht Hu Hs Hd Hz] Htid Hcase; simpl in *.
  assert (busy g !! i = Some true) as Hbi by (apply Hb; eauto).
  assert (∀ tid' j u, <[tid := s']> ts !! tid' = Some (Inside j u) ↔ j ≠ i ∧ ts !! tid' = Some (Inside j u)) as Hin.
  { intros tid' j u. rewrite lookup_insert_Some. split.
    - intros [[<- Hs']|[Hne H]]; [naive_solver|]. split; [|done]. intros ->. by destruct (Hu _ _ _ _ _ Htid H).
    - intros [Hne H]. right. split; [|done]. intros <-. congruence. }
  assert (∀ tid' s, drains s → <[tid := s']> ts !! tid' = Some s ↔ tid' = tid ∧ s = s' ∨ ts !! tid' = Some s) as Hdr.
  { intros tid' s Hx. rewrite lookup_insert_Some. split; [naive_solver|]. intros [[-> ->]|H]; [by auto|].
    right. split; [|done]. intros <-. destruct Hx as (? & [-> | ->]); congruence. }
  split; cbn [gate busy pos running stop threads entered].
  - by rewrite length_insert.
  - done.
  - rewrite (count_insert _ _ _ false Hbi). lia.
  - intros j. rewrite list_lookup_insert_Some. setoid_rewrite Hin. rewrite Hb. split.
    + intros [(_ & [=] & _)|[Hne (tid' & u & H)]]. by exists tid', u.
    + intros (tid' & u & Hne & H). right. eauto.
  - intros tid' j u [_ H]%Hin. by eapply Ht.
  - intros tid1 tid2 j u u' [_ H1]%Hin [_ H2]%Hin. by eapply Hu.
  - destruct Hcase as [[-> ->]|(-> & -> & Hst & ->)].
    + rewrite Hs. split; intros (tid' & s & H & Hx); exists tid', s; (split; [|done]).
      * apply Hdr; auto.
      * apply Hdr in H as [[-> ->]|H]; [by destruct Hx as (? & [?|?])|done|done].
    + split; [|done]. intros _. exists tid, (Draining 0). rewrite lookup_insert_eq. split; [done|]. eexists; eauto.
  - intros tid1 tid2 x y H1 H2 Hx Hy. apply Hdr in H1, H2; [|done..].
    destruct Hcase as [[-> ->]|(-> & -> & Hst & ->)].
    + destruct H1 as [[-> ->]|H1]; [by destruct Hx as (? & [?|?])|].
      destruct H2 as [[-> ->]|H2]; [by destruct Hy as (? & [?|?])|]. by eapply Hd.
    + assert (∀ tid' s, drains s → ts !! tid' ≠ Some s) as Hno.
      { intros tid' s Hxs Hl. assert (stop g = true); [|congruence]. apply Hs. eauto. }
      destruct H1 as [[-> _]|H1]; [|by destruct (Hno tid1 x)].
      by destruct H2 as [[-> _]|H2]; [|destruct (Hno tid2 y)].
  - intros tid' j H. assert (∃ s, drains s ∧ (s = Draining j ∨ s = DrainWait j) ∧ <[tid := s']> ts !! tid' = Some s)
      as (s & Hx & Hsj & Hl)
      by (destruct H as [H|H]; (eexists; split; [|split; [|exact H]]; [eexists; eauto|by auto])).
    rewrite list_lookup_insert_Some. apply Hdr in Hl as [[-> ->]|Hl]; [| |done].
    + destruct Hcase as [[-> ->]|(-> & -> & Hst & ->)]; [by destruct Hsj|].
      split; [destruct Hsj; congruence|]. left. apply lookup_lt_Some in Hbi. done.
    + destruct (Hz tid' j) as [-> H0]; [destruct Hsj; subst; auto|]. split; [done|]. right.
      split; [congruence|done].
Qed.

Definition inv (c : nat) (cf : config) : Prop := core c cf ∧ awake cf.

Lemma inside_busy c cf tid i t :
  core c cf → threads cf !! tid = Some (Inside i t) →
  busy (gate cf) !! i = Some true ∧ 0 ≤ running (gate cf) - 1.
Proof.
  intros Hc Hl. assert (busy (gate cf) !! i = Some true) as Hb by (apply (i_busy _ _ Hc); eauto).
  split; [done|]. rewrite (i_running _ _ Hc). apply count_pos in Hb. lia.
Qed.

(** [Leave] never panics: the thread that waits for the others holds index 0. *)
Lemma leaveStart_ok c cf tid i t :
  core c cf → threads cf !! tid = Some (Inside i t) →
  (bool_decide (i = 0%nat) && hasF = true → stop (gate cf) = false) ∧
  leaveStart hasF (gate cf) i = Ret
    (MkGate (<[i := false]> (busy (gate cf))) (pos (gate cf)) (running (gate cf) - 1)
      (if bool_decide (i = 0%nat) && hasF then true else stop (gate cf)),
     bool_decide (i = 0%nat) && hasF).
Proof.
  intros Hc Hl. destruct (inside_busy _ _ _ _ _ Hc Hl) as [Hb Hr].
  assert (bool_decide (i = 0%nat) && hasF = true → stop (gate cf) = false) as Hst.
  { intros [->%bool_decide_eq_true_1 _]%andb_true_iff. destruct (stop (gate cf)) eqn:Es; [|done].
    apply (i_stop _ _ Hc) in Es as (tid' & s & Hl' & (j & Hj)).
    destruct (i_zero _ _ Hc tid' j) as [_ H0]; [destruct Hj; subst; auto|]. congruence. }
  split; [done|]. unfold leaveStart. rewrite (at_lookup _ _ _ Hb). cbn [rbind negb].
  rewrite decide_False by lia. destruct (bool_decide (i = 0%nat) && hasF); [|done]. by rewrite Hst.
Qed.

(** While a thread waits in [Leave] the gate is stopped. *)
Lemma drain_stop c cf tid i :
  core c cf → threads cf !! tid = Some (DrainWait i) → stop (gate cf) = true.
Proof. intros Hc Hl. apply (i_stop _ _ Hc). eexists _, _. split; [done|]. eexists; eauto. Qed.

Lemma inv_enter c cf tid :
  (0 < c)%nat → inv c cf → threads cf !! tid = Some Entering →
  ∃ cf', run cf tid = Ret (Some (cf', false)) ∧ inv c cf'.
Proof.
  intros Hc [Hcore Haw] Hl. unfold run. rewrite Hl.
  destruct (lookup_lt_is_Some_2 (busy (gate cf)) (pos (gate cf))) as [b Hb].
  { rewrite (i_len _ _ Hcore), (i_pos _ _ Hcore). apply Nat.mod_upper_bound. lia. }
  destruct (b || stop (gate cf)) eqn:Eb.
  - unfold Enter. rewrite (at_lookup _ _ _ Hb). cbn [rbind]. rewrite Eb. cbn [rbind].
    eexists. split; [done|]. destruct cf as [g ts e]; simpl in *. split.
    + eapply core_neutral; [| |done|done]; [right; by left|by right; right].
    + destruct Haw as [He Hd]. split; simpl in *.
      * intros _ _. rewrite Hb. destruct b; [by left|by right].
      * intros tid' i [[_ ?]|[_ ?]]%lookup_insert_Some; [done|by eapply Hd].
  - apply orb_false_iff in Eb as [-> Est].
    destruct (core_enter c cf tid Hc Hcore Hl Hb Est) as (g & -> & Hgs & Hcore'). cbn [rbind].
    eexists. split; [done|]. split; [done|]. split; simpl.
    + intros tid' [[_ ?]|[_ Hw]]%lookup_insert_Some; [done|].
      destruct (i_enterWait _ Haw _ Hw); congruence.
    + intros tid' i [[_ ?]|[_ Hw]]%lookup_insert_Some; [done|].
      pose proof (drain_stop _ _ _ _ Hcore Hw). congruence.
Qed.

Lemma inv_leave c cf tid i t :
  inv c cf → threads cf !! tid = Some (Inside i t) →
  ∃ cf', run cf tid = Ret (Some (cf', false)) ∧ inv c cf'.
Proof.
  intros [Hcore Haw] Hl. unfold run. rewrite Hl.
  destruct (leaveStart_ok _ _ _ _ _ Hcore Hl) as [Hst ->]. cbn [rbind].
  destruct cf as [g ts e]; simpl in *.
  destruct (bool_decide (i = 0%nat) && hasF) eqn:Ed; (eexists; split; [done|]).
  - apply andb_true_iff in Ed as [Hi%bool_decide_eq_true_1 _]. subst i. split.
    + eapply core_leave; [done|done|]. right. auto.
    + split; simpl; [by right|]. intros tid' j [[_ ?]|[_ Hw]]%lookup_insert_Some; [done|].
      pose proof (drain_stop _ _ _ _ Hcore Hw) as H. simpl in H. rewrite Hst in H by done. done.
  - apply inv_broadcast; [eapply core_leave; eauto|]. unfold notify. simpl. intros Hn.
    apply orb_false_iff in Hn as [Hn1 Hn2]. split; simpl.
    + intros tid' [[_ ?]|[_ Hw]]%lookup_insert_Some; [done|].
      destruct (i_enterWait _ Haw _ Hw) as [Hb|Hs]; [|by right]. simpl in Hb.
      destruct (stop g); [by right|]. left. rewrite list_lookup_insert_ne; [done|].
      intros ->. by rewrite bool_decide_eq_true_2 in Hn1.
    + intros tid' j [[_ ?]|[_ Hw]]%lookup_insert_Some; [done|].
      pose proof (drain_stop _ _ _ _ Hcore Hw) as H. simpl in H. rewrite H in Hn2.
      by case_bool_decide.
Qed.

(** The end of [Leave] of a thread that waited for the others. *)
Lemma core_drained c g ts e tid i :
  core c (MkConfig g ts e) → ts !! tid = Some (Draining i) →
  core c (MkConfig (MkGate (busy g) (pos g) (running g) false) (<[tid := Outside]> ts) e).
Proof.
  intros [Hlen Hpos Hrun Hb Ht Hu Hs Hd Hz] Htid; simpl in *.
  assert (∀ tid' j u, <[tid := Outside]> ts !! tid' = Some (Inside j u) ↔ ts !! tid' = Some (Inside j u)) as Hin.
  { intros tid' j u. rewrite lookup_insert_Some. split; [naive_solver|]. intros H. right.
    split; [congruence|done]. }
  assert (∀ tid' s, drains s → <[tid := Outside]> ts !! tid' ≠ Some s) as Hno.
  { intros tid' s Hx [[_ <-]|[Hne H]]%lookup_insert_Some; [by destruct Hx as (? & [?|?])|].
    apply Hne. eapply Hd; [exact Htid|exact H| |exact Hx]. eexists; eauto. }
  split; simpl; try done.
  - intros j. rewrite Hb. by setoid_rewrite Hin.
  - intros tid' j u. rewrite Hin. apply Ht.
  - intros tid1 tid2 j u u'. rewrite !Hin. apply Hu.
  - split; [done|]. intros (tid' & s & H & Hx). by destruct (Hno tid' s).
  - intros tid1 tid2 s s' H _ Hx _. by destruct (Hno tid1 s).
  - intros tid' j H. exfalso. destruct H as [H|H]; eapply Hno; [|exact H| |exact H]; eexists; eauto.
Qed.

Lemma core_drainWait c g ts e tid i :
  core c (MkConfig g ts e) → ts !! tid = Some (Draining i) →
  core c (MkConfig g (<[tid := DrainWait i]> ts) e).
Proof.
  intros [Hlen Hpos Hrun Hb Ht Hu Hs Hd Hz] Htid; simpl in *.
  assert (∀ tid' j u, <[tid := DrainWait i]> ts !! tid' = Some (Inside j u) ↔ ts !! tid' = Some (Inside j u)) as Hin.
  { intros tid' j u. rewrite lookup_insert_Some. split; [naive_solver|]. intros H. right.
    split; [congruence|done]. }
  assert (∀ tid' s, drains s → <[tid := DrainWait i]> ts !! tid' = Some s →
    ∃ s', drains s' ∧ ts !! tid' = Some s') as Hdr.
  { intros tid' s Hx [[<- <-]|[Hne H]]%lookup_insert_Some; [|by eauto]. eexists. split; [|done]. eexists; eauto. }
  split; simpl; try done.
  - intros j. rewrite Hb. by setoid_rewrite Hin.
  - intros tid' j u. rewrite Hin. apply Ht.
  - intros tid1 tid2 j u u'. rewrite !Hin. apply Hu.
  - rewrite Hs. split; [|intros (tid' & s & H & Hx); destruct (Hdr _ _ Hx H) as (s' & ? & ?); eauto].
    intros _. exists tid, (DrainWait i). rewrite lookup_insert_eq. split; [done|]. eexists; eauto.
  - intros tid1 tid2 s s' H1 H2 Hx Hy.
    destruct (Hdr _ _ Hx H1) as (? & ? & ?), (Hdr _ _ Hy H2) as (? & ? & ?). by eapply Hd.
  - intros tid' j [H|H]; apply lookup_insert_Some in H as [[<- [= <-]]|[_ H]]; eapply Hz; eauto.
Qed.

Lemma inv_drain c cf tid i :
  inv c cf → threads cf !! tid = Some (Draining i) →
  ∃ cf' f, run cf tid = Ret (Some (cf', f)) ∧ inv c cf' ∧ (f = true → running (gate cf) = 0).
Proof.
  intros [Hcore Haw] Hl. unfold run, leaveDrain. rewrite Hl. destruct cf as [g ts e]; simpl in *.
  case_decide as Hr; eexists _, _; (split; [done|]); (split; [|done]).
  - apply inv_broadcast; [by eapply core_wake, core_drained|]. intros _. apply awake_wake.
  - split; [by eapply core_drainWait|]. split; simpl.
    + intros tid' [[_ ?]|[_ Hw]]%lookup_insert_Some; [done|]. by apply (i_enterWait _ Haw tid').
    + done.
Qed.

Lemma inv_run c cf tid :
  (0 < c)%nat → inv c cf →
  ∃ r, run cf tid = Ret r ∧ ∀ cf' f, r = Some (cf', f) → inv c cf' ∧ (f = true → running (gate cf) = 0).
Proof.
  intros Hc Hinv. destruct (threads cf !! tid) as [[| | |i t|i|i]|] eqn:Hl.
  - unfold run. rewrite Hl. eexists. split; [done|]. intros ? ? [= <- <-]. split; [|done].
    destruct cf as [g ts e], Hinv as [Hcore Haw]; simpl in *. split.
    + eapply core_neutral; [| |done|done]; [by left|right; by left].
    + destruct Haw as [He Hd]; split; simpl in *.
      * intros tid' [[_ ?]|[_ Hw]]%lookup_insert_Some; [done|by eapply He].
      * intros tid' j [[_ ?]|[_ Hw]]%lookup_insert_Some; [done|by eapply Hd].
  - destruct (inv_enter c cf tid Hc Hinv Hl) as (cf' & -> & ?). eexists. split; [done|]. by intros ? ? [= <- <-].
  - unfold run. rewrite Hl. eexists. split; [done|]. done.
  - destruct (inv_leave c cf tid i t Hinv Hl) as (cf' & -> & ?). eexists. split; [done|]. by intros ? ? [= <- <-].
  - destruct (inv_drain c cf tid i Hinv Hl) as (cf' & f & -> & ? & ?). eexists. split; [done|].
    by intros ? ? [= <- <-].
  - unfold run. rewrite Hl. eexists. split; [done|]. done.
  - unfold run. rewrite Hl. eexists. split; [done|]. done.
Qed.

Lemma inv_new c ts : map_Forall (λ _ s, s = Outside) ts → (0 < c)%nat → inv c (MkConfig (NewGate c) ts 0).
Proof.
  intros Hall Hc. assert (∀ tid s, ts !! tid = Some s → s = Outside) as Hout by (intros; by eapply Hall).
  assert (count (replicate c false) = 0) as Hn.
  { unfold count. clear. induction c as [|c IH]; [done|]. cbn [replicate]. by rewrite filter_cons_False. }
  split; split; simpl; try (by intros; naive_solver).
  - apply length_replicate.
  - by rewrite Nat.Div0.mod_0_l.
  - intros i. rewrite lookup_replicate. naive_solver.
  - split; [done|]. intros (tid & s & Hl & (i & Hx)). apply Hout in Hl. destruct Hx; congruence.
  - intros tid tid' s s' Hl _ (i & Hx). apply Hout in Hl. destruct Hx; congruence.
Qed.

Lemma reachable_inv c cf : (0 < c)%nat → reachable c cf → inv c cf.
Proof.
  intros Hc. induction 1 as [ts Hall|cf tid cf' f _ IH Hrun]; [by apply inv_new|].
  destruct (inv_run c cf tid Hc IH) as (r & Hr & Hinv). rewrite Hrun in Hr.
  injection Hr as <-. by apply (Hinv cf' f).
Qed.

(** C14. The gate is safe: in every state that threads using it can reach, no step of
    [Enter] or [Leave] hits a "broken gate" panic; [running] counts the busy slots,
    which are exactly those of the threads inside, one thread each; the threads inside
    are among the last [c] that entered, so an old activity keeps new ones out; and the
    callback is called only when nobody is inside. *)
Theorem gate_safe c cf :
  (0 < c)%nat → reachable c cf →
  (∀ tid, ∃ r, run cf tid = Ret r ∧
    (∀ cf', r = Some (cf', true) → ∀ tid' i t, threads cf !! tid' ≠ Some (Inside i t))) ∧
  running (gate cf) = count (busy (gate cf)) ∧ running (gate cf) ≤ Z.of_nat c ∧
  (∀ i, busy (gate cf) !! i = Some true ↔ ∃ tid t, threads cf !! tid = Some (Inside i t)) ∧
  (∀ tid tid' i t t', threads cf !! tid = Some (Inside i t) →
    threads cf !! tid' = Some (Inside i t') → tid = tid') ∧
  (∀ tid i t, threads cf !! tid = Some (Inside i t) → (t < entered cf ≤ t + c)%nat).
Proof.
  intros Hc Hr. pose proof (reachable_inv c cf Hc Hr) as [Hcore Haw].
  split; [|split_and!; [apply (i_running _ _ Hcore)| |apply (i_busy _ _ Hcore)|apply (i_unique _ _ Hcore)|]].
  - intros tid. destruct (inv_run c cf tid Hc (conj Hcore Haw)) as (r & -> & Hf). eexists. split; [done|].
    intros cf' -> tid' i t Hl. destruct (Hf cf' true eq_refl) as [_ Hz].
    destruct (inside_busy _ _ _ _ _ Hcore Hl). specialize (Hz eq_refl). lia.
  - rewrite (i_running _ _ Hcore), <-(i_len _ _ Hcore). apply count_bound.
  - intros tid i t Hl. by destruct (i_ticket _ _ Hcore _ _ _ Hl).
Qed.

(** C15. No wake-up is lost: whenever a thread sleeps on the gate's condition variable,
    some thread is inside and will leave, or some thread is already woken up and about
    to run; and every such thread can take a step. *)
Theorem gate_progress c cf tid :
  (0 < c)%nat → reachable c cf →
  threads cf !! tid = Some EnterWait ∨ (∃ i, threads cf !! tid = Some (DrainWait i)) →
  ∃ tid' s cf' f, threads cf !! tid' = Some s ∧ ((∃ i t, s = Inside i t) ∨ ∃ i, s = Draining i) ∧
    run cf tid' = Ret (Some (cf', f)).
Proof.
  intros Hc Hr Hw. pose proof (reachable_inv c cf Hc Hr) as [Hcore Haw].
  assert (∀ i, busy (gate cf) !! i = Some true → ∃ tid' i t, threads cf !! tid' = Some (Inside i t)) as Hin.
  { intros i (tid' & t & Hl)%(i_busy _ _ Hcore). eauto. }
  assert (∀ tid' i, threads cf !! tid' = Some (DrainWait i) → ∃ tid' i t, threads cf !! tid' = Some (Inside i t)) as Hdw.
  { intros tid' i Hl. pose proof (i_drainWait _ Haw _ _ Hl) as Hn. rewrite (i_running _ _ Hcore) in Hn.
    destruct (filter (λ b, b = true) (busy (gate cf))) as [|b l] eqn:Ef; [by unfold count in Hn; rewrite Ef in Hn|].
    assert (b ∈ filter (λ b, b = true) (busy (gate cf))) as (-> & Hb)%list_elem_of_filter
      by (rewrite Ef; apply list_elem_of_here).
    apply list_elem_of_lookup in Hb as [j Hj]. by eapply Hin. }
  assert ((∃ tid' i t, threads cf !! tid' = Some (Inside i t)) ∨
          ∃ tid' i, threads cf !! tid' = Some (Draining i)) as [(tid' & i & t & Hl)|(tid' & i & Hl)].
  { destruct Hw as [Hw|[i Hw]]; [|left; by eapply Hdw].
    destruct (i_enterWait _ Haw _ Hw) as [Hb|Hs]; [left; by eapply Hin|].
    apply (i_stop _ _ Hcore) in Hs as (tid' & s & Hl & (i & [-> | ->])); [by eauto|left; by eapply Hdw]. }
  - destruct (inv_leave c cf tid' i t (conj Hcore Haw) Hl) as (cf' & Hrun & _). eexists _, _, cf', _. eauto 10.
  - destruct (inv_drain c cf tid' i (conj Hcore Haw) Hl) as (cf' & f & Hrun & _). eexists _, _, cf', f. eauto 10.
Qed.

End run.

(** Two threads on a gate for one activity: while thread 0 is inside, thread 1 sleeps. *)
Definition exampleStart : config := MkConfig (NewGate 1) (<[0%nat := Outside]> {[1%nat := Outside]}) 0.
Fixpoint runAll (hasF : bool) (tids : list nat) (cf : config) : res (option config) :=
  match tids with
  | [] => Ret (Some cf)
  | tid :: tids =>
    let! r := run hasF cf tid in
    match r with Some (cf, _) => runAll hasF tids cf | None => Ret None end
  end.

Lemma runAll_reachable hasF c tids : ∀ cf cf',
  reachable hasF c cf → runAll hasF tids cf = Ret (Some cf') → reachable hasF c cf'.
Proof.
  induction tids as [|tid tids IH]; intros cf cf' Hr; simpl; [by intros [= <-]|].
  intros H. apply bind_Ret in H as ([[cf1 f]|] & H1 & H2); [|done].
  eapply IH; [|done]. by eapply reach_run.
Qed.

Definition exampleBlocked : config :=
  MkConfig (MkGate [true] 0 1 false) (<[0%nat := Inside 0 0]> {[1%nat := EnterWait]}) 1.

Lemma exampleBlocked_reachable : reachable true 1 exampleBlocked.
Proof.
  apply (runAll_reachable true 1 [0; 0; 1; 1]%nat exampleStart).
  - constructor. intros tid s. unfold lookup. simpl.
    intros [[_ <-]|[_ H]]%lookup_insert_Some; [done|]. by apply lookup_singleton_Some in H as [_ <-].
  - vm_compute. reflexivity.
Qed.

Lemma gate_safe_witness :
  reachable true 1 exampleBlocked ∧ (∀ tid, ∃ r, run true exampleBlocked tid = Ret r) ∧
  running (gate exampleBlocked) = 1.
Proof.
  destruct (gate_safe true 1 exampleBlocked ltac:(constructor) exampleBlocked_reachable) as (Hrun & _).
  split; [apply exampleBlocked_reachable|]. split; [|reflexivity].
  intros tid. destruct (Hrun tid) as (r & Hr & _). by exists r.
Defined.

Lemma gate_progress_witness :
  ∃ tid' s cf' f, threads exampleBlocked !! tid' = Some s ∧
    ((∃ i t, s = Inside i t) ∨ ∃ i, s = Draining i) ∧ run true exampleBlocked tid' = Ret (Some (cf', f)).
Proof.
  apply (gate_progress true 1 exampleBlocked 1 ltac:(constructor) exampleBlocked_reachable).
  left. vm_compute. reflexivity.
Defined.

End Gate.
