(* ===== verification/Db.v ===== *)
(** * Db: the key-value database of the corpus (pkg/db/db.go)

    The database is a map in memory, mirrored in a file of records that is appended to
    and from time to time rewritten.  Keys and values are byte sequences.  The
    compression of the values (compress/flate) and the order in which Go visits a map
    are parameters.  Operations on the file system succeed or fail as a list of
    outcomes says; a failing write may have written any part of its data. *)

From S2P Require Import Prelude Bytes.
Import Bytes.

Module Db.

Notation bytes := (list Z) (only parsing).

Record Record_ := MkRecord { Val : bytes; Seq : Z }.
Notation recordMap := (gmap (list Z) Record_) (only parsing).

Record DB := MkDB {
  Version : Z;
  Records : recordMap;
  uncompacted : Z;
  pending : option bytes
}.

Definition dbMagic : Z := 0xbaddb.
Definition recMagic : Z := 0xfee1bad.
Definition curVersion : Z := 2.
Definition seqDeleted : Z := 2 ^ 64 - 1.

(** ** Files *)

(** The database file and the temporary file next to it. *)
Record disk := MkDisk { dfile : option bytes; dtmp : option bytes }.

(** The outcomes of the next operations: [None] succeeds, [Some k] fails, a write after
    [k] bytes.  When the list ends everything succeeds. *)
Notation outcomes := (list (option nat)) (only parsing).
Definition next (io : outcomes) : option nat * outcomes :=
  match io with [] => (None, []) | x :: io => (x, io) end.

(** ** Writing *)

Section db.
Context (deflate : bytes → bytes) (inflate : bytes → option (bytes * nat)).
Context (range : recordMap → list (bytes * Record_)).

Definition writeU32 (v : Z) : bytes := putUint false 4 v.
Definition writeU64 (v : Z) : bytes := putUint false 8 v.
(** [uint32(len(l))] *)
Definition len32 (l : bytes) : Z := wrapU 32 (Z.of_nat (length l)).

Definition serializeHeader (version : Z) : bytes :=
  writeU32 dbMagic ++ writeU32 curVersion ++ writeU64 version.

Definition serializeRecord (w key val : bytes) (seq : Z) : res bytes :=
  let w := w ++ writeU32 recMagic ++ writeU32 (len32 key) ++ key ++ writeU64 seq in
  if decide (seq = seqDeleted) then
    if decide (length val ≠ 0%nat) then Panic "deleting record with value" else Ret w
  else if decide (length val = 0%nat) then Ret (w ++ writeU32 (len32 val))
  else let z := deflate val in Ret (w ++ writeU32 (len32 z) ++ z).

(** ** Reading *)

Inductive rerr := EOF | UnexpectedEOF | Bad (why : string).

#[global] Instance rerr_eq_dec : EqDecision rerr.
Proof. solve_decision. Defined.

(** [io.ReadFull] of [n] bytes: no byte at all is [EOF], unless none was asked for. *)
Definition readFull (n : nat) (r : bytes) : rerr + (bytes * bytes) :=
  if decide (n ≤ length r)%nat then inr (take n r, drop n r)
  else if decide (r = []) then inl EOF else inl UnexpectedEOF.

(** [binary.Read] of an integer of [n] bytes *)
Definition readUint (n : nat) (r : bytes) : rerr + (Z * bytes) :=
  match readFull n r with
  | inl e => inl e
  | inr (l, r) => inr (getUint false l, r)
  end.

Definition deserializeHeader (r : bytes) : rerr + (Z * bytes) :=
  match readUint 4 r with
  | inl EOF => inr (0, r)
  | inl e => inl e
  | inr (magic, r) =>
    if decide (magic ≠ dbMagic) then inl (Bad "bad db header")
    else
      match readUint 4 r with
      | inl e => inl e
      | inr (ver, r) =>
        if decide (ver = 0 ∨ curVersion < ver) then inl (Bad "bad db version")
        else if decide (2 ≤ ver) then readUint 8 r
        else inr (0, r)
      end
  end.

(** The compressed value: the reader is limited to [valLen] bytes, of which the
    decompressor consumes a part. *)
Definition readVal (valLen : Z) (r : bytes) : rerr + (bytes * bytes) :=
  if decide (valLen ≠ 0) then
    match inflate (take (Z.to_nat valLen) r) with
    | None => inl (Bad "flate")
    | Some (val, n) => inr (val, drop n r)
    end
  else inr ([], r).

Definition deserializeRecord (r : bytes) : rerr + (bytes * bytes * Z * bytes) :=
  match readUint 4 r with
  | inl e => inl e
  | inr (magic, r) =>
    if decide (magic ≠ recMagic) then inl (Bad "bad record header")
    else
      match readUint 4 r with
      | inl e => inl e
      | inr (keyLen, r) =>
        match readFull (Z.to_nat keyLen) r with
        | inl e => inl e
        | inr (key, r) =>
          match readUint 8 r with
          | inl e => inl e
          | inr (seq, r) =>
            if decide (seq = seqDeleted) then inr (key, [], seq, r)
            else
              match readUint 4 r with
              | inl e => inl e
              | inr (valLen, r) =>
                match readVal valLen r with
                | inl e => inl e
                | inr (val, r) => inr (key, val, seq, r)
                end
              end
          end
        end
      end
  end.

Definition apply (records : recordMap) (key val : bytes) (seq : Z) : recordMap :=
  if decide (seq = seqDeleted) then delete key records else <[key := MkRecord val seq]> records.

(** The loop over the records; every record takes at least four bytes. *)
Fixpoint readRecords (fuel : nat) (r : bytes) (records : recordMap) (n : Z) :
    res (recordMap * Z * option rerr) :=
  match fuel with
  | O => OutOfFuel
  | S fuel =>
    match deserializeRecord r with
    | inl EOF => Ret (records, n, None)
    | inl e => Ret (records, n, Some e)
    | inr (key, val, seq, r) => readRecords fuel r (apply records key val seq) (n + 1)
    end
  end.

Definition deserializeDB (r : bytes) : res (Z * recordMap * Z * option rerr) :=
  match deserializeHeader r with
  | inl e => Ret (0, ∅, 0, Some e)
  | inr (version, r) =>
    let! '(records, n, err) := readRecords (S (length r)) r ∅ 0 in
    Ret (version, records, n, err)
  end.

(** ** Operations *)

Definition serializeAll (l : list (bytes * Record_)) (w : bytes) : res bytes :=
  for_list (λ '(key, rec) w, serializeRecord w key (Val rec) (Seq rec)) l w.

(** [compact]; the result tells whether it failed. *)
Definition compact (db : DB) (d : disk) (io : outcomes) : res (bool * DB * disk * outcomes) :=
  let! buf := serializeAll (range (Records db)) (serializeHeader (Version db)) in
  let '(created, io) := next io in
  match created with
  | Some _ => Ret (true, db, d, io)
  | None =>
    let '(written, io) := next io in
    match written with
    | Some k => Ret (true, db, MkDisk (dfile d) (Some (take k buf)), io)
    | None =>
      let '(renamed, io) := next io in
      match renamed with
      | Some _ => Ret (true, db, MkDisk (dfile d) (Some buf), io)
      | None =>
        Ret (false, MkDB (Version db) (Records db) (Z.of_nat (size (Records db))) None,
             MkDisk (Some buf) None, io)
      end
    end
  end.

Definition Open (d : disk) (repair : bool) (io : outcomes) :
    res (option DB * option rerr * disk * outcomes) :=
  let '(opened, io) := next io in
  match opened with
  | Some _ => Ret (None, Some (Bad "open"), d, io)
  | None =>
    let content := default [] (dfile d) in
    let d := MkDisk (Some content) (dtmp d) in
    let! '(version, records, n, derr) := deserializeDB content in
    if bool_decide (derr ≠ None) && negb repair then Ret (None, derr, d, io)
    else
      let! '(failed, db, d, io) := compact (MkDB version records n None) d io in
      if (failed : bool) then Ret (None, Some (Bad "compact"), d, io) else Ret (Some db, derr, d, io)
  end.

Definition serialize (db : DB) (key val : bytes) (seq : Z) : res DB :=
  let! w := serializeRecord (default [] (pending db)) key val seq in
  Ret (MkDB (Version db) (Records db) (uncompacted db + 1) (Some w)).

Definition Save (db : DB) (key val : bytes) (seq : Z) : res DB :=
  if decide (seq = seqDeleted) then Panic "reserved seq"
  else
    let known := match Records db !! key with
                 | Some rec => bool_decide (seq = Seq rec) && bool_decide (val = Val rec)
                 | None => false
                 end in
    if (known : bool) then Ret db
    else
      serialize (MkDB (Version db) (<[key := MkRecord val seq]> (Records db)) (uncompacted db) (pending db))
        key val seq.

Definition Delete (db : DB) (key : bytes) : res DB :=
  match Records db !! key with
  | None => Ret db
  | Some _ =>
    serialize (MkDB (Version db) (delete key (Records db)) (uncompacted db) (pending db)) key [] seqDeleted
  end.

Definition Flush (db : DB) (d : disk) (io : outcomes) : res (bool * DB * disk * outcomes) :=
  if decide (Z.of_nat (size (Records db)) < uncompacted db `div` 10 * 9) then compact db d io
  else
    match pending db with
    | None => Ret (false, db, d, io)
    | Some w =>
      let '(opened, io) := next io in
      match opened with
      | Some _ => Ret (true, db, d, io)
      | None =>
        let '(written, io) := next io in
        match written with
        | Some k => Ret (true, db, MkDisk (Some (default [] (dfile d) ++ take k w)) (dtmp d), io)
        | None =>
          Ret (false, MkDB (Version db) (Records db) (uncompacted db) None,
               MkDisk (Some (default [] (dfile d) ++ w)) (dtmp d), io)
        end
      end
    end.

Definition BumpVersion (db : DB) (version : Z) (d : disk) (io : outcomes) :
    res (bool * DB * disk * outcomes) :=
  if decide (Version db = version) then Flush db d io
  else compact (MkDB version (Records db) (uncompacted db) (pending db)) d io.

(** [Create]; [sum] is [hash.String]. *)
Definition Create (sum : bytes → bytes) (version : Z) (records : list Record_) (d : disk) (io : outcomes) :
    res (option string * disk * outcomes) :=
  let '(removed, io) := next io in
  let d := match removed with Some _ => d | None => MkDisk None (dtmp d) end in
  let! '(db, err, d, io) := Open d true io in
  match db, err with
  | _, Some _ => Ret (Some "failed to open database file", d, io)
  | None, None => Panic "nil pointer dereference"
  | Some db, None =>
    let! '(failed, db, d, io) := BumpVersion db version d io in
    if (failed : bool) then Ret (Some "failed to bump database version", d, io)
    else
      let! db := for_list (λ rec db, Save db (sum (Val rec)) (Val rec) (Seq rec)) records db in
      let! '(failed, _, d, io) := Flush db d io in
      Ret (if (failed : bool) then Some "failed to save database file" else None, d, io)
  end.

(** ** Records as bytes *)

(** A record as it is written: key, value and sequence number. *)
Notation raw := (list Z * list Z * Z)%type (only parsing).

Definition enc (r : raw) : bytes :=
  let '(key, val, seq) := r in
  writeU32 recMagic ++ writeU32 (len32 key) ++ key ++ writeU64 seq ++
  (if decide (seq = seqDeleted) then []
   else if decide (length val = 0%nat) then writeU32 (len32 val)
   else writeU32 (len32 (deflate val)) ++ deflate val).
Definition encAll (l : list raw) : bytes := concat (enc <$> l).

Definition replay (m : recordMap) (l : list raw) : recordMap :=
  foldl (λ m '(key, val, seq), apply m key val seq) m l.

(** Records whose lengths and sequence number fit their fields. *)
Definition wfRaw (r : raw) : Prop :=
  let '(key, val, seq) := r in
  Z.of_nat (length key) < 2 ^ 32 ∧ is_u 64 seq ∧ (val ≠ [] → Z.of_nat (length (deflate val)) < 2 ^ 32) ∧
  (seq = seqDeleted → val = []).

(** What the code relies on of compress/flate. *)
Class Flate : Prop := {
  flate_inverse v : inflate (deflate v) = Some (v, length (deflate v));
  flate_nonempty v : deflate v ≠ [];
  flate_torn v p : p `prefix_of` deflate v → p ≠ deflate v → inflate p = None
}.
Context `{!Flate}.

Lemma len32_small l : Z.of_nat (length l) < 2 ^ 32 → len32 l = Z.of_nat (length l).
Proof. intros. apply wrapU_small. split; lia. Qed.

Lemma readFull_app l r : readFull (length l) (l ++ r) = inr (l, r).
Proof.
  unfold readFull. rewrite decide_True by (rewrite length_app; lia).
  by rewrite take_app_length, drop_app_length.
Qed.

Lemma readFull_short n r : (length r < n)%nat → readFull n r = inl (if decide (r = []) then EOF else UnexpectedEOF).
Proof. intros. unfold readFull. rewrite decide_False by lia. by case_decide. Qed.

Lemma readUint_app n v r : 0 ≤ v < 256 ^ Z.of_nat n → readUint n (putUint false n v ++ r) = inr (v, r).
Proof.
  intros Hv. unfold readUint. replace n with (length (putUint false n v)) at 1 by apply length_putUint.
  rewrite readFull_app. by rewrite get_put.
Qed.

Lemma readUint_short n r :
  (length r < n)%nat → readUint n r = inl (if decide (r = []) then EOF else UnexpectedEOF).
Proof. intros. unfold readUint. by rewrite readFull_short. Qed.

Lemma readUint_len l r :
  Z.of_nat (length l) < 2 ^ 32 → readUint 4 (writeU32 (len32 l) ++ r) = inr (Z.of_nat (length l), r).
Proof. intros. rewrite len32_small by done. apply readUint_app. split; [lia|done]. Qed.

Lemma readVal_deflate val r :
  Z.of_nat (length (deflate val)) < 2 ^ 32 →
  readVal (Z.of_nat (length (deflate val))) (deflate val ++ r) = inr (val, r).
Proof.
  intros Hl. unfold readVal. rewrite decide_True.
  - rewrite Nat2Z.id, take_app_length, flate_inverse. by rewrite drop_app_length.
  - pose proof (flate_nonempty val). destruct (deflate val); simpl; [done|lia].
Qed.

Lemma readRecord_enc r rest :
  wfRaw r → deserializeRecord (enc r ++ rest) = inr (r.1.1, r.1.2, r.2, rest).
Proof.
  destruct r as [[key val] seq]. intros (Hk & Hs & Hv & Hdel). unfold deserializeRecord, enc.
  rewrite <-!app_assoc. unfold writeU32 at 1. rewrite readUint_app by done. rewrite decide_False by auto.
  rewrite readUint_len by done. rewrite Nat2Z.id, readFull_app.
  unfold writeU64. rewrite readUint_app by exact Hs. case_decide as Hd; [by rewrite Hdel|].
  case_decide as Hn.
  - rewrite readUint_len by lia. destruct val; [|done]. done.
  - assert (val ≠ []) as Hne by (by intros ->).
    rewrite <-app_assoc, readUint_len by auto. by rewrite readVal_deflate by auto.
Qed.

(** ** Torn records *)

Lemma prefix_split (p a b : bytes) :
  p `prefix_of` a ++ b → (length p < length a)%nat ∨ ∃ p', p = a ++ p' ∧ p' `prefix_of` b.
Proof.
  intros [t Ht]. destruct (decide (length p < length a)%nat) as [|Hge]; [by left|]. right.
  exists (drop (length a) p). assert (a = take (length a) p) as Ha.
  { apply (f_equal (take (length a))) in Ht. rewrite take_app_length in Ht.
    by rewrite take_app_le in Ht by lia. }
  split; [rewrite Ha at 1; by rewrite take_drop|]. exists t.
  apply (f_equal (drop (length a))) in Ht. rewrite drop_app_length in Ht.
  by rewrite drop_app_le in Ht by lia.
Qed.

Lemma readVal_torn val p :
  p `prefix_of` deflate val → p ≠ deflate val → readVal (Z.of_nat (length (deflate val))) p = inl (Bad "flate").
Proof.
  intros Hp Hne. unfold readVal. rewrite decide_True.
  - rewrite Nat2Z.id, take_ge by (by apply prefix_length). by rewrite (flate_torn val).
  - pose proof (flate_nonempty val). destruct (deflate val); simpl; [done|lia].
Qed.

(** What is left of a record after a cut is never read as a record. *)
Lemma deserialize_torn r p :
  wfRaw r → p `prefix_of` enc r → p ≠ enc r → ∃ e, deserializeRecord p = inl e.
Proof.
  destruct r as [[key val] seq]. intros (Hk & Hs & Hv & Hdel) Hp Hne. unfold deserializeRecord.
  unfold enc in Hp, Hne.
  apply prefix_split in Hp as [Hl|(p1 & -> & Hp)]; [rewrite readUint_short by done; eauto|].
  unfold writeU32 at 1. rewrite readUint_app by done. rewrite decide_False by auto.
  apply prefix_split in Hp as [Hl|(p2 & -> & Hp)]; [rewrite readUint_short by done; eauto|].
  rewrite readUint_len by done. rewrite Nat2Z.id.
  apply prefix_split in Hp as [Hl|(p3 & -> & Hp)]; [rewrite readFull_short by done; eauto|].
  rewrite readFull_app.
  apply prefix_split in Hp as [Hl|(p4 & -> & Hp)]; [rewrite readUint_short by done; eauto|].
  unfold writeU64. rewrite readUint_app by exact Hs. case_decide as Hd.
  { apply prefix_nil_inv in Hp as ->. by destruct Hne. }
  case_decide as Hn.
  - rewrite <-(app_nil_r (writeU32 _)) in Hp.
    apply prefix_split in Hp as [Hl|(p5 & -> & Hp)]; [rewrite readUint_short by done; eauto|].
    apply prefix_nil_inv in Hp as ->. destruct Hne. by rewrite app_nil_r.
  - apply prefix_split in Hp as [Hl|(p5 & -> & Hp)]; [rewrite readUint_short by done; eauto|].
    assert (val ≠ []) by (by intros ->).
    rewrite readUint_len by auto. rewrite (readVal_torn val); [by eauto|done|]. by intros ->.
Qed.

(** The places where the end of the file is taken for the end of the records. *)
Definition silentCut (r : raw) (cut : nat) : Prop :=
  let '(key, val, seq) := r in
  cut = 4%nat ∨ cut = 8%nat ∨ cut = (8 + length key)%nat ∨
  cut = (16 + length key)%nat ∧ seq ≠ seqDeleted.

Lemma deserialize_silent r cut :
  wfRaw r → silentCut r cut → deserializeRecord (take cut (enc r)) = inl EOF.
Proof.
  destruct r as [[key val] seq]. intros (Hk & Hs & Hv & Hdel) Hcut. unfold deserializeRecord, enc.
  assert (∀ a b : bytes, (length a ≤ cut)%nat → take cut (a ++ b) = a ++ take (cut - length a) b) as Ht.
  { intros a b Hab. rewrite take_app. by rewrite take_ge. }
  assert (∀ v, length (writeU32 v) = 4%nat) as H4 by (intros; apply length_putUint).
  assert (length (writeU64 seq) = 8%nat) as H8 by (apply length_putUint).
  rewrite Ht by (rewrite H4; unfold silentCut in Hcut; lia). rewrite H4.
  unfold writeU32 at 1. rewrite readUint_app by done. rewrite decide_False by auto.
  destruct (decide (cut = 4%nat)) as [->|Hn4]; [done|]. simpl in Hcut.
  rewrite take_app, take_ge by (rewrite H4; lia). rewrite H4, readUint_len by done. rewrite Nat2Z.id.
  destruct (decide (cut = 8%nat)) as [->|Hn8].
  { change (8 - 4 - 4)%nat with 0%nat. rewrite take_0.
    destruct key as [|x key]; [done|]. by rewrite readFull_short by (simpl; lia). }
  rewrite take_app, take_ge by lia. rewrite readFull_app.
  replace (cut - 4 - 4 - length key)%nat with (if decide (cut = 8 + length key)%nat then 0 else 8)%nat
    by (case_decide; lia).
  case_decide as Hck; [done|].
  rewrite take_app, take_ge by lia. rewrite H8. change (8 - 8)%nat with 0%nat. rewrite take_0.
  unfold writeU64. rewrite readUint_app by exact Hs. rewrite decide_False by naive_solver lia. done.
Qed.

(** ** Reading a file back *)

Lemma enc_nonempty r : (0 < length (enc r))%nat.
Proof. destruct r as [[key val] seq]. unfold enc. rewrite length_app. simpl. lia. Qed.

Definition endErr (e : rerr) : option rerr := if decide (e = EOF) then None else Some e.

Lemma readRecords_enc l : ∀ fuel p e m n,
  Forall wfRaw l → deserializeRecord p = inl e → (length l < fuel)%nat →
  readRecords fuel (encAll l ++ p) m n = Ret (replay m l, n + Z.of_nat (length l), endErr e).
Proof.
  induction l as [|r l IH]; intros fuel p e m n Hwf Hp Hf;
    (destruct fuel as [|fuel]; [simpl in Hf; lia|]); cbn [readRecords].
  - unfold encAll. cbn [fmap list_fmap concat app]. rewrite Hp. simpl. rewrite Z.add_0_r.
    by destruct e.
  - apply Forall_cons in Hwf as [Hr Hwf]. unfold encAll. rewrite fmap_cons. cbn [concat].
    rewrite <-app_assoc, readRecord_enc by done. fold (encAll l). simpl in Hf.
    rewrite (IH fuel p e) by (done || lia). destruct r as [[key val] seq]. cbn [fst snd length replay foldl].
    do 2 f_equal. f_equal. lia.
Qed.

Lemma length_encAll l : (length l ≤ length (encAll l))%nat.
Proof.
  induction l as [|r l IH]; [done|]. unfold encAll in *. rewrite fmap_cons. cbn [concat length].
  rewrite length_app. pose proof (enc_nonempty r). lia.
Qed.

Lemma deserialize_file v l p e :
  is_u 64 v → Forall wfRaw l → deserializeRecord p = inl e →
  deserializeDB (serializeHeader v ++ encAll l ++ p) =
    Ret (v, replay ∅ l, Z.of_nat (length l), endErr e).
Proof.
  intros Hv Hwf Hp. unfold deserializeDB, deserializeHeader, serializeHeader. rewrite <-!app_assoc.
  unfold writeU32 at 1. rewrite readUint_app by done. rewrite decide_False by auto.
  unfold writeU32. rewrite readUint_app by done. rewrite decide_False by (unfold curVersion; lia).
  rewrite decide_True by done. unfold writeU64. rewrite readUint_app by exact Hv.
  rewrite (readRecords_enc l _ p e); [done|done|done|].
  rewrite length_app. pose proof (length_encAll l). lia.
Qed.

Lemma serializeRecord_enc w key val seq :
  (seq = seqDeleted → val = []) → serializeRecord w key val seq = Ret (w ++ enc (key, val, seq)).
Proof.
  intros Hd. unfold serializeRecord, enc. case_decide as Hsd.
  - rewrite Hd by done. rewrite decide_False by (simpl; lia). rewrite app_nil_r. done.
  - case_decide; by rewrite <-!app_assoc.
Qed.

(** The bindings of a map as records. *)
Definition rawOf (b : bytes * Record_) : raw := (b.1, Val b.2, Seq b.2).

Definition wfMap (m : recordMap) : Prop :=
  ∀ key rec, m !! key = Some rec → wfRaw (rawOf (key, rec)) ∧ Seq rec ≠ seqDeleted.

Lemma replay_wf l : ∀ m, wfMap m → Forall wfRaw l → wfMap (replay m l).
Proof.
  induction l as [|[[key val] seq] l IH]; intros m Hm Hl; [done|].
  apply Forall_cons in Hl as [Hr Hl]. simpl. apply IH; [|done]. unfold apply. case_decide as Hd.
  - intros k rec [_ Hx]%lookup_delete_Some. by apply Hm.
  - intros k rec [[<- <-]|[_ Hx]]%lookup_insert_Some; [|by apply Hm]. split; [exact Hr|done].
Qed.

Lemma wfMap_empty : wfMap ∅.
Proof. intros k rec Hx. by rewrite lookup_empty in Hx. Qed.

Lemma serializeAll_enc l : ∀ w,
  (∀ b, b ∈ l → Seq b.2 ≠ seqDeleted) → serializeAll l w = Ret (w ++ encAll (rawOf <$> l)).
Proof.
  unfold serializeAll, encAll. induction l as [|[key rec] l IH]; intros w Hl; simpl.
  { by rewrite app_nil_r. }
  rewrite serializeRecord_enc by (intros Hx; by destruct (Hl (key, rec)); [apply list_elem_of_here|]).
  cbn [rbind]. rewrite IH by (intros b Hb; apply Hl; by apply list_elem_of_further).
  by rewrite <-app_assoc.
Qed.

Context (Hrange : enumerates range).

Lemma range_wf m : wfMap m → Forall wfRaw (rawOf <$> range m) ∧ ∀ b, b ∈ range m → Seq b.2 ≠ seqDeleted.
Proof.
  intros Hm. assert (∀ b, b ∈ range m → wfRaw (rawOf b) ∧ Seq b.2 ≠ seqDeleted) as Hx.
  { intros [k rec] Hb. rewrite (Hrange m), elem_of_map_to_list in Hb. by apply (Hm k). }
  split; [apply Forall_fmap, Forall_forall; intros b Hb; by apply Hx|]. intros b Hb. by apply Hx.
Qed.

(** Reading a compacted file gives the map back. *)
Lemma replay_range m : wfMap m → replay ∅ (rawOf <$> range m) = m.
Proof.
  intros Hm. unfold replay. rewrite foldl_fmap. apply map_eq. intros k.
  transitivity (foldl (λ m b, apply m b.1 (Val b.2) (Seq b.2)) (∅ : recordMap) (range m) !! k); [done|].
  rewrite (foldl_range (λ m : recordMap, m) (λ m b, apply m b.1 (Val b.2) (Seq b.2))
    (λ _ _ rec, if decide (Seq rec = seqDeleted) then None else Some rec) range m ∅ k Hrange).
  - destruct (m !! k) as [rec|] eqn:E; [|done]. rewrite decide_False; [done|]. by apply (Hm k).
  - intros b k0 rec k'. unfold apply. simpl. destruct (decide (Seq rec = seqDeleted)).
    + rewrite lookup_delete. by case_decide.
    + rewrite lookup_insert. destruct rec. by case_decide.
Qed.

(** ** The database and its file *)

(** The file holds the records [recs], the pending buffer the records [pend]. *)
Record describes (db : DB) (d : disk) (recs pend : list raw) : Prop := {
  d_version : is_u 64 (Version db);
  d_wf : Forall wfRaw (recs ++ pend);
  d_file : dfile d = Some (serializeHeader (Version db) ++ encAll recs);
  d_pending : default [] (pending db) = encAll pend;
  d_records : Records db = replay ∅ (recs ++ pend)
}.

Lemma encAll_app l1 l2 : encAll (l1 ++ l2) = encAll l1 ++ encAll l2.
Proof. unfold encAll. by rewrite fmap_app, concat_app. Qed.

Lemma describes_wf db d recs pend : describes db d recs pend → wfMap (Records db).
Proof. intros Hd. rewrite (d_records _ _ _ _ Hd). apply replay_wf; [apply wfMap_empty|apply Hd]. Qed.

(** Compaction leaves the file as it was or replaces it as a whole. *)
Lemma compact_spec db d io :
  wfMap (Records db) → is_u 64 (Version db) →
  ∃ failed db' d' io', compact db d io = Ret (failed, db', d', io') ∧
    if (failed : bool) then db' = db ∧ dfile d' = dfile d
    else Version db' = Version db ∧ Records db' = Records db ∧ pending db' = None ∧
      describes db' d' (rawOf <$> range (Records db)) [].
Proof.
  intros Hm Hv. destruct (range_wf _ Hm) as [Hwf Hseq]. unfold compact.
  rewrite serializeAll_enc by done. cbn [rbind].
  destruct (next io) as [[k|] io1]; [by eexists true, _, _, _|].
  destruct (next io1) as [[k|] io2]; [by eexists true, _, _, _|].
  destruct (next io2) as [[k|] io3]; [by eexists true, _, _, _|].
  eexists false, _, _, _. split; [done|]. split_and!; [done|done|done|].
  split; simpl; [done|by rewrite app_nil_r|done|done|]. by rewrite app_nil_r, replay_range.
Qed.

Lemma compact_ok db d :
  wfMap (Records db) → is_u 64 (Version db) →
  ∃ db' d', compact db d [] = Ret (false, db', d', []) ∧
    Version db' = Version db ∧ Records db' = Records db ∧
    describes db' d' (rawOf <$> range (Records db)) [].
Proof.
  intros Hm Hv. destruct (compact_spec db d [] Hm Hv) as (f & db' & d' & io' & Hc & Hr).
  assert (f = false ∧ io' = []) as [-> ->].
  { unfold compact in Hc. destruct (serializeAll _ _); [|done..]. simpl in Hc. by simplify_eq. }
  destruct Hr as (? & ? & _ & ?). eauto 10.
Qed.

(** Opening a file that ends in the middle of a record. *)
Lemma open_spec d v recs p e repair :
  dfile d = Some (serializeHeader v ++ encAll recs ++ p) → is_u 64 v → Forall wfRaw recs →
  deserializeRecord p = inl e → (repair = true ∨ e = EOF) →
  ∃ db d', Open d repair [] = Ret (Some db, endErr e, d', []) ∧ Version db = v ∧
    Records db = replay ∅ recs ∧ describes db d' (rawOf <$> range (replay ∅ recs)) [].
Proof.
  intros Hf Hv Hwf Hp Hr. unfold Open. cbn [next]. rewrite Hf. cbn [default from_option id].
  rewrite (deserialize_file v recs p e) by done. cbn [rbind].
  replace (bool_decide (endErr e ≠ None) && negb repair) with false.
  2: { destruct Hr as [-> | ->]; [by rewrite andb_false_r|done]. }
  destruct (compact_ok (MkDB v (replay ∅ recs) (Z.of_nat (length recs)) None)
    (MkDisk (Some (serializeHeader v ++ encAll recs ++ p)) (dtmp d))) as (db & d' & -> & Hv' & Hrec & Hd).
  - apply replay_wf; [apply wfMap_empty|done].
  - done.
  - cbn [rbind]. exists db, d'. simpl in *. split_and!; done.
Qed.

Lemma open_whole d v recs repair :
  dfile d = Some (serializeHeader v ++ encAll recs) → is_u 64 v → Forall wfRaw recs →
  ∃ db d', Open d repair [] = Ret (Some db, None, d', []) ∧ Version db = v ∧
    Records db = replay ∅ recs ∧ describes db d' (rawOf <$> range (replay ∅ recs)) [].
Proof.
  intros Hf Hv Hwf. apply (open_spec d v recs [] EOF repair); [by rewrite app_nil_r|done|done|done|by right].
Qed.

(** A new file. *)
Lemma open_new : ∃ db d, Open (MkDisk None None) false [] = Ret (Some db, None, d, []) ∧
  Version db = 0 ∧ Records db = ∅ ∧ ∃ recs, describes db d recs [].
Proof.
  unfold Open. cbn [next dfile dtmp default from_option id].
  change (deserializeDB []) with (Ret (0, ∅ : recordMap, 0, @None rerr)). cbn [rbind].
  change (bool_decide (None ≠ None) && negb false) with false.
  destruct (compact_ok (MkDB 0 ∅ 0 None) (MkDisk (Some []) None)) as (db & d' & -> & Hv & Hr & Hd).
  - apply wfMap_empty.
  - done.
  - cbn [rbind]. exists db, d'. split_and!; [done|done|done|by eexists].
Qed.

(** Appending a record to the pending buffer. *)
Lemma pendRecord_spec version records n pend_ d recs pend key val seq m :
  describes (MkDB version m n pend_) d recs pend → wfRaw (key, val, seq) →
  records = apply m key val seq →
  ∃ db', serialize (MkDB version records n pend_) key val seq = Ret db' ∧
    Version db' = version ∧ Records db' = records ∧ describes db' d recs (pend ++ [(key, val, seq)]).
Proof.
  intros [Hv Hwf Hf Hp Hr] Hraw ->. simpl in *. unfold serialize. simpl.
  rewrite serializeRecord_enc by (apply Hraw). cbn [rbind].
  eexists. split; [done|]. split_and!; [done|done|]. split; simpl; [done| |done| |].
  - rewrite app_assoc. apply Forall_app. split; [done|by constructor].
  - rewrite encAll_app, Hp. f_equal. unfold encAll. cbn [fmap list_fmap concat]. by rewrite app_nil_r.
  - unfold replay in *. rewrite app_assoc, foldl_app, <-Hr. done.
Qed.

(** ** Operations against the map they implement *)

Inductive op :=
| OSave (key val : bytes) (seq : Z)
| ODelete (key : bytes)
| OFlush
| OBumpVersion (version : Z).

Definition wfOp (o : op) : Prop :=
  match o with
  | OSave key val seq => wfRaw (key, val, seq) ∧ seq ≠ seqDeleted
  | ODelete _ | OFlush => True
  | OBumpVersion v => is_u 64 v
  end.

Definition runOp (o : op) (s : DB * disk) : res (DB * disk) :=
  let (db, d) := s in
  match o with
  | OSave key val seq => let! db := Save db key val seq in Ret (db, d)
  | ODelete key => let! db := Delete db key in Ret (db, d)
  | OFlush => let! '(_, db, d, _) := Flush db d [] in Ret (db, d)
  | OBumpVersion v => let! '(_, db, d, _) := BumpVersion db v d [] in Ret (db, d)
  end.

(** The abstract database: a version and a map. *)
Definition specOp (s : Z * recordMap) (o : op) : Z * recordMap :=
  match o with
  | OSave key val seq => (s.1, <[key := MkRecord val seq]> s.2)
  | ODelete key => (s.1, delete key s.2)
  | OFlush => s
  | OBumpVersion v => (v, s.2)
  end.

Definition state (db : DB) : Z * recordMap := (Version db, Records db).

Lemma flush_ok db d recs pend :
  describes db d recs pend →
  ∃ db' d' recs', Flush db d [] = Ret (false, db', d', []) ∧ state db' = state db ∧ describes db' d' recs' [].
Proof.
  intros Hd. pose proof (describes_wf _ _ _ _ Hd) as Hm. pose proof (d_version _ _ _ _ Hd) as Hv.
  unfold Flush, state. case_decide.
  { destruct (compact_ok db d Hm Hv) as (db' & d' & -> & Hv' & Hr' & Hd').
    eexists db', d', _. split; [done|]. split; [|done]. by rewrite Hv', Hr'. }
  destruct Hd as [_ Hwf Hf Hp Hr]. destruct (pending db) as [w|] eqn:Ep; simpl in Hp.
  - cbn [next]. eexists _, _, (recs ++ pend). split; [done|]. split; [done|].
    split; cbn [dfile Version pending Records default from_option id]; [done|by rewrite app_nil_r| |done|by rewrite app_nil_r].
    rewrite Hf. cbn [default from_option id]. rewrite encAll_app, <-Hp. by rewrite <-app_assoc.
  - eexists db, d, recs. split; [done|]. split; [done|].
    assert (pend = []) as ->.
    { destruct pend as [|r pend]; [done|]. pose proof (enc_nonempty r). unfold encAll in Hp.
      rewrite fmap_cons in Hp. cbn [concat] in Hp. apply (f_equal length) in Hp. rewrite length_app in Hp.
      simpl in Hp. lia. }
    split; [done|done|done|by rewrite Ep|done].
Qed.

Lemma runOp_spec o db d recs pend :
  wfOp o → describes db d recs pend →
  ∃ db' d' recs' pend', runOp o (db, d) = Ret (db', d') ∧ state db' = specOp (state db) o ∧
    describes db' d' recs' pend'.
Proof.
  intros Ho Hd. destruct o as [key val seq|key| |v]; cbn [runOp].
  - destruct Ho as [Hraw Hseq]. unfold Save. rewrite decide_False by done.
    destruct (match Records db !! key with Some rec => _ | None => _ end) eqn:Eknown.
    + destruct (Records db !! key) as [[v s]|] eqn:El; [|done]. simpl in Eknown.
      apply andb_true_iff in Eknown as [->%bool_decide_eq_true_1 ->%bool_decide_eq_true_1].
      eexists db, d, recs, pend. split; [done|]. split; [|done].
      unfold state; simpl. by rewrite insert_id.
    + destruct db as [ve m n pe]; cbn [Version Records uncompacted pending] in *.
      destruct (pendRecord_spec ve (<[key := MkRecord val seq]> m) n pe d recs pend key val seq m)
        as (db' & -> & Hv & Hr & Hd'); [done|done|unfold apply; by rewrite decide_False|].
      cbn [rbind]. eexists db', d, _, _. split; [done|]. split; [|done]. unfold state. by rewrite Hv, Hr.
  - unfold Delete. destruct (Records db !! key) as [rec|] eqn:El.
    + destruct db as [ve m n pe]; cbn [Version Records uncompacted pending] in *.
      destruct (pendRecord_spec ve (delete key m) n pe d recs pend key [] seqDeleted m)
        as (db' & -> & Hv & Hr & Hd'); [done| |unfold apply; by rewrite decide_True|].
      * apply (describes_wf _ _ _ _ Hd) in El as [(? & _) _]. done.
      * cbn [rbind]. eexists db', d, _, _. split; [done|]. split; [|done]. unfold state. by rewrite Hv, Hr.
    + eexists db, d, recs, pend. split; [done|]. split; [|done].
      unfold state; simpl. by rewrite delete_id.
  - destruct (flush_ok _ _ _ _ Hd) as (db' & d' & recs' & -> & Hs & Hd'). cbn [rbind]. eauto 10.
  - unfold BumpVersion. case_decide as Hv.
    + destruct (flush_ok _ _ _ _ Hd) as (db' & d' & recs' & -> & Hs & Hd'). cbn [rbind].
      eexists db', d', recs', []. split; [done|]. split; [|done]. rewrite Hs. unfold state; simpl. by rewrite <-Hv.
    + destruct (compact_ok (MkDB v (Records db) (uncompacted db) (pending db)) d) as (db' & d' & -> & Hv' & Hr & Hd').
      * by apply (describes_wf _ _ _ _ Hd).
      * done.
      * cbn [rbind]. eexists db', d', _, _. split; [done|]. split; [|done]. unfold state. simpl in *. by rewrite Hv', Hr.
Qed.

(** ** Theorems *)

Lemma runOps_spec ops : ∀ db d recs pend,
  Forall wfOp ops → describes db d recs pend →
  ∃ db' d' recs' pend', for_list runOp ops (db, d) = Ret (db', d') ∧
    state db' = foldl specOp (state db) ops ∧ describes db' d' recs' pend'.
Proof.
  induction ops as [|o ops IH]; intros db d recs pend Hwf Hd; simpl; [by eauto 10|].
  apply Forall_cons in Hwf as [Ho Hwf].
  destruct (runOp_spec o db d recs pend Ho Hd) as (db1 & d1 & r1 & p1 & Hrun & Hs & Hd1).
  cbn [runOp] in Hrun. rewrite Hrun. cbn [rbind]. rewrite <-Hs. by eapply IH.
Qed.

(** C16. The database implements a map with a version, and the file keeps it: after any
    sequence of saves, deletions, flushes and version changes on a new database the
    contents are those of the abstract map, and once the database is flushed, opening
    the file again gives the same version and records without an error. *)
Theorem db_durable ops :
  Forall wfOp ops →
  ∃ db0 d0 db d db1 d1 db2 d2,
    Open (MkDisk None None) false [] = Ret (Some db0, None, d0, []) ∧
    for_list runOp ops (db0, d0) = Ret (db, d) ∧
    state db = foldl specOp (0, ∅) ops ∧
    Flush db d [] = Ret (false, db1, d1, []) ∧
    Open d1 false [] = Ret (Some db2, None, d2, []) ∧ state db2 = foldl specOp (0, ∅) ops.
Proof.
  intros Hwf. destruct open_new as (db0 & d0 & Hopen & Hv0 & Hr0 & recs & Hd0).
  destruct (runOps_spec ops db0 d0 recs [] Hwf Hd0) as (db & d & recs1 & pend1 & Hrun & Hs & Hd).
  destruct (flush_ok _ _ _ _ Hd) as (db1 & d1 & recs2 & Hfl & Hs1 & Hd1).
  destruct (open_whole d1 (Version db1) recs2 false) as (db2 & d2 & Hopen2 & Hv2 & Hr2 & _).
  - apply Hd1.
  - apply Hd1.
  - pose proof (d_wf _ _ _ _ Hd1) as Hw. by rewrite app_nil_r in Hw.
  - assert (state db0 = (0, ∅)) as Hs0 by (unfold state; by rewrite Hv0, Hr0). rewrite Hs0 in Hs.
    exists db0, d0, db, d, db1, d1, db2, d2. split_and!; try done.
    rewrite <-Hs, <-Hs1. unfold state. rewrite Hv2, Hr2, (d_records _ _ _ _ Hd1). by rewrite app_nil_r.
Qed.

(** What a cut leaves of a sequence of records. *)
Lemma torn_encAll pend : ∀ k,
  Forall wfRaw pend →
  ∃ j p e, take k (encAll pend) = encAll (take j pend) ++ p ∧ deserializeRecord p = inl e.
Proof.
  unfold encAll. induction pend as [|r pend IH]; intros k Hwf.
  { exists 0%nat, [], EOF. split; [|done]. by destruct k. }
  apply Forall_cons in Hwf as [Hr Hwf]. rewrite fmap_cons. cbn [concat]. rewrite take_app.
  destruct (decide (length (enc r) ≤ k)%nat) as [Hle|Hlt].
  - destruct (IH (k - length (enc r))%nat Hwf) as (j & p & e & -> & He).
    exists (S j), p, e. split; [|done]. cbn [take]. rewrite fmap_cons. cbn [concat].
    rewrite take_ge by done. by rewrite <-app_assoc.
  - destruct (deserialize_torn r (take k (enc r)) Hr) as [e He].
    + apply prefix_take.
    + intros Heq%(f_equal length). rewrite length_take in Heq. lia.
    + exists 0%nat, (take k (enc r)), e. split; [|done].
      replace (k - length (enc r))%nat with 0%nat by lia. by rewrite take_0, app_nil_r.
Qed.

(** Opening the file [d'] gives the version of [db], the records [recs] and some first
    part of [pend], and everything when nothing failed. *)
Definition recovers (db : DB) (recs pend : list raw) (failed : bool) (d' : disk) : Prop :=
  ∃ k db2 err d2, Open d' true [] = Ret (Some db2, err, d2, []) ∧ Version db2 = Version db ∧
    Records db2 = replay ∅ (recs ++ take k pend) ∧
    (failed = false → Records db2 = Records db ∧ err = None).

Lemma recovers_intro db d recs pend failed d' recs' p e k :
  describes db d recs pend → dfile d' = Some (serializeHeader (Version db) ++ encAll recs' ++ p) →
  Forall wfRaw recs' → deserializeRecord p = inl e → replay ∅ recs' = replay ∅ (recs ++ take k pend) →
  (failed = false → p = [] ∧ k = length pend) → recovers db recs pend failed d'.
Proof.
  intros Hd Hf Hwf Hp Hrep Hfail.
  destruct (open_spec d' (Version db) recs' p e true) as (db2 & d2 & Ho & Hv & Hr & _);
    [done|by apply Hd|done|done|by left|].
  exists k, db2, (endErr e), d2. split_and!; [done|done|by rewrite Hr|].
  intros Hff. destruct (Hfail Hff) as [-> ->]. injection Hp as <-. split; [|done].
  by rewrite Hr, Hrep, firstn_all, (d_records _ _ _ _ Hd).
Qed.

Lemma recovers_same db d recs pend d' :
  describes db d recs pend → dfile d' = dfile d → recovers db recs pend true d'.
Proof.
  intros Hd Hd'. pose proof (d_wf _ _ _ _ Hd) as [Hw _]%Forall_app.
  apply (recovers_intro db d recs pend true d' recs [] EOF 0 Hd); [|done|done| |done].
  - by rewrite Hd', app_nil_r, (d_file _ _ _ _ Hd).
  - by rewrite take_0, app_nil_r.
Qed.

Lemma recovers_compact db d recs pend io :
  describes db d recs pend →
  ∃ failed db' d' io', compact db d io = Ret (failed, db', d', io') ∧ recovers db recs pend failed d'.
Proof.
  intros Hd. destruct (compact_spec db d io (describes_wf _ _ _ _ Hd) (d_version _ _ _ _ Hd))
    as (f & db' & d' & io' & -> & Hc). eexists f, db', d', io'. split; [done|].
  destruct f; [by eapply recovers_same; [|apply Hc]|]. destruct Hc as (Hv' & Hr' & _ & Hd').
  apply (recovers_intro db d recs pend false d' (rawOf <$> range (Records db)) [] EOF (length pend) Hd);
    [| |done| |done].
  - by rewrite app_nil_r, (d_file _ _ _ _ Hd'), Hv'.
  - pose proof (d_wf _ _ _ _ Hd') as Hw. by rewrite app_nil_r in Hw.
  - pose proof (d_records _ _ _ _ Hd') as Hw. rewrite app_nil_r in Hw.
    by rewrite <-Hw, firstn_all, Hr', (d_records _ _ _ _ Hd).
Qed.

(** Appending a part of the pending buffer. *)
Lemma recovers_append db d recs pend d' k :
  describes db d recs pend →
  dfile d' = Some (default [] (dfile d) ++ take k (encAll pend)) → recovers db recs pend true d'.
Proof.
  intros Hd Hf. pose proof (d_wf _ _ _ _ Hd) as [Hwr Hwp]%Forall_app.
  destruct (torn_encAll pend k Hwp) as (j & p & e & Htk & He). rewrite Htk, (d_file _ _ _ _ Hd) in Hf.
  apply (recovers_intro db d recs pend true d' (recs ++ take j pend) p e j Hd); [| |done|done|done].
  - rewrite Hf, encAll_app. cbn [default from_option id]. by rewrite <-!app_assoc.
  - apply Forall_app. split; [done|]. by apply Forall_take.
Qed.

Lemma recovers_flushed db d recs pend d' :
  describes db d recs pend → dfile d' = Some (default [] (dfile d) ++ encAll pend) →
  recovers db recs pend false d'.
Proof.
  intros Hd Hf. rewrite (d_file _ _ _ _ Hd) in Hf.
  apply (recovers_intro db d recs pend false d' (recs ++ pend) [] EOF (length pend) Hd); [| |done| |done].
  - rewrite Hf, encAll_app, app_nil_r. cbn [default from_option id]. by rewrite <-app_assoc.
  - apply Hd.
  - by rewrite firstn_all.
Qed.


(** Not every torn file is noticed: when the file ends right after a field of a
    record (its magic, the length of its key, its key or its sequence number), it is
    read without an error as if the record had not been there. *)
Theorem db_torn_silent v recs r cut :
  is_u 64 v → Forall wfRaw recs → wfRaw r → silentCut r cut →
  deserializeDB (serializeHeader v ++ encAll recs ++ take cut (enc r)) =
    Ret (v, replay ∅ recs, Z.of_nat (length recs), None).
Proof.
  intros Hv Hwf Hr Hcut. by rewrite (deserialize_file v recs _ EOF) by (done || by apply deserialize_silent).
Qed.

(** A record that follows a single byte of a record. *)
Lemma deserialize_shifted r rest :
  deserializeRecord (take 1 (enc r) ++ enc r ++ rest) = inl (Bad "bad record header").
Proof.
  destruct r as [[key val] seq]. unfold enc. rewrite <-!app_assoc.
  assert (∀ a b, take 1 (writeU32 recMagic ++ a) ++ writeU32 recMagic ++ b =
    putUint false 4 0xee1badad ++ 15 :: b) as Hshift by reflexivity.
  rewrite Hshift. unfold deserializeRecord. rewrite readUint_app by done. by rewrite decide_True.
Qed.

(** C40. A flush that is retried after a short write corrupts the file: if the first
    attempt stops after one byte, the second one reports success, yet the file can only
    be opened with repair and none of the pending records is in it. *)
Theorem db_flush_retry_loses db d recs pend :
  describes db d recs pend → pend ≠ [] →
  uncompacted db `div` 10 * 9 ≤ Z.of_nat (size (Records db)) →
  ∃ db' d' db2 d2 db3 d3, Flush db d [None; Some 1%nat] = Ret (true, db', d', []) ∧
    Flush db' d' [] = Ret (false, db2, d2, []) ∧
    Open d2 true [] = Ret (Some db3, Some (Bad "bad record header"), d3, []) ∧
    Records db3 = replay ∅ recs.
Proof.
  intros Hd Hne Hn. pose proof (d_wf _ _ _ _ Hd) as [Hwr _]%Forall_app.
  destruct pend as [|r pend]; [done|]. pose proof (d_pending _ _ _ _ Hd) as Hp.
  unfold encAll in Hp. rewrite fmap_cons in Hp. cbn [concat] in Hp.
  destruct (pending db) as [w|] eqn:Ep; cbn [default from_option id] in Hp.
  2: { apply (f_equal length) in Hp. rewrite length_app in Hp. pose proof (enc_nonempty r). simpl in Hp. lia. }
  destruct (open_spec (MkDisk (Some ((default [] (dfile d) ++ take 1 w) ++ w)) (dtmp d)) (Version db) recs
    (take 1 w ++ w) (Bad "bad record header") true) as (db3 & d3 & Ho & _ & Hr & _).
  - cbn [dfile]. rewrite (d_file _ _ _ _ Hd). cbn [default from_option id]. by rewrite <-!app_assoc.
  - apply Hd.
  - done.
  - rewrite Hp, take_app_le by (apply enc_nonempty). apply deserialize_shifted.
  - by left.
  - eexists db, _, _, _, db3, d3. unfold Flush. rewrite decide_False by lia. rewrite Ep. cbn [next dfile dtmp].
    split; [reflexivity|]. rewrite decide_False by lia. split; [reflexivity|]. split; [exact Ho|done].
Qed.

End db.

(** ** A concrete compression and a concrete order *)

Definition storeDeflate (v : list Z) : list Z := Z.of_nat (length v) :: v.
Definition storeInflate (l : list Z) : option (list Z * nat) :=
  match l with
  | [] => None
  | n :: v => if decide (n = Z.of_nat (length v)) then Some (v, length l) else None
  end.

#[global] Instance storeFlate : Flate storeDeflate storeInflate.
Proof.
  split.
  - intros v. simpl. by rewrite decide_True.
  - done.
  - intros v [|n p] Hp Hne; [done|]. simpl. apply prefix_cons_inv_1 in Hp as Hn. subst n.
    apply prefix_cons_inv_2 in Hp. rewrite decide_False; [done|]. intros Hl%Nat2Z.inj.
    destruct Hne. unfold storeDeflate. f_equal. destruct Hp as [t ->]. rewrite length_app in Hl.
    destruct t; [by rewrite app_nil_r|simpl in Hl; lia].
Qed.

Lemma storeRange : enumerates (λ m : gmap (list Z) Record_, map_to_list m).
Proof. by intros m. Qed.

Definition exampleOps : list op :=
  [OSave [1] [2; 3] 7; OSave [4] [] 0; OFlush; ODelete [1]; OSave [5] [6] 1; OBumpVersion 3; OSave [4] [9] 2].

Lemma exampleOps_wf : Forall (wfOp storeDeflate) exampleOps.
Proof. repeat constructor; vm_compute; try discriminate; auto. Qed.

Lemma db_durable_witness :
  ∃ db1 d1 db2 d2, Flush storeDeflate map_to_list db1 d1 [] = Ret (false, db2, d2, []) ∧
    ∃ db3 d3, Open storeDeflate storeInflate map_to_list d2 false [] = Ret (Some db3, None, d3, []) ∧
      Version db3 = 3 ∧ Records db3 !! [4] = Some (MkRecord [9] 2) ∧ Records db3 !! [1] = None.
Proof.
  destruct (db_durable storeDeflate storeInflate map_to_list storeRange exampleOps exampleOps_wf)
    as (db0 & d0 & db & d & db1 & d1 & db2 & d2 & _ & _ & _ & Hf & Ho & Hs).
  exists db, d, db1, d1. split; [exact Hf|]. exists db2, d2. split; [exact Ho|].
  unfold state in Hs. injection Hs as Hv Hr. rewrite Hv, Hr. vm_compute. auto.
Defined.

(** A database with one flushed and one pending record. *)
Definition exampleDb : DB :=
  MkDB 0 (<[[4] := MkRecord [] 0]> {[[1] := MkRecord [2; 3] 7]}) 2 (Some (enc storeDeflate ([4], [], 0))).
Definition exampleDisk : disk :=
  MkDisk (Some (serializeHeader 0 ++ encAll storeDeflate [([1], [2; 3], 7)])) None.

Lemma example_raws : Forall (wfRaw storeDeflate) [([1], [2; 3], 7); ([4], [], 0)].
Proof. repeat apply Forall_cons_2; [..|apply Forall_nil_2]; split_and!; simpl; done || lia. Qed.

Lemma exampleDb_describes :
  describes storeDeflate exampleDb exampleDisk [([1], [2; 3], 7)] [([4], [], 0)].
Proof.
  split; [done|apply example_raws|reflexivity|reflexivity|]. apply map_eq. intros k. vm_compute. reflexivity.
Qed.


Lemma db_torn_silent_witness :
  deserializeDB storeInflate
    (serializeHeader 0 ++ encAll storeDeflate [([1], [2; 3], 7)] ++ take 9 (enc storeDeflate ([4], [], 0))) =
  Ret (0, {[[1] := MkRecord [2; 3] 7]}, 1, None).
Proof.
  rewrite (db_torn_silent storeDeflate storeInflate 0 [([1], [2; 3], 7)] ([4], [], 0) 9).
  - reflexivity.
  - done.
  - pose proof example_raws as [Hr _]%Forall_cons. by apply Forall_singleton.
  - by pose proof example_raws as [_ [Hr _]%Forall_cons]%Forall_cons.
  - right. right. by left.
Defined.

Lemma db_flush_retry_loses_witness :
  ∃ db' d' db2 d2 db3 d3,
    Flush storeDeflate map_to_list exampleDb exampleDisk [None; Some 1%nat] = Ret (true, db', d', []) ∧
    Flush storeDeflate map_to_list db' d' [] = Ret (false, db2, d2, []) ∧
    Open storeDeflate storeInflate map_to_list d2 true [] = Ret (Some db3, Some (Bad "bad record header"), d3, []) ∧
    Records db3 = replay ∅ [([1], [2; 3], 7)].
Proof.
  apply (db_flush_retry_loses storeDeflate storeInflate map_to_list storeRange exampleDb exampleDisk
    [([1], [2; 3], 7)] [([4], [], 0)]).
  - apply exampleDb_describes.
  - discriminate.
  - vm_compute. discriminate.
Defined.

End Db.
